(* ===== verification/_CoqProject ===== *)
-Q . S2P
Prelude.v
GoStrings.v
GoTime.v
Events.v
ProvGraph.v
ProvInv.v
ProvVersions.v
ProvCausal.v
ProvKinds.v
Prune.v
Taint.v
Nfa.v
StreamEngine.v
Spsc.v
Lru.v
RateLimit.v
Breaker.v
Fold.v
Sha256.v
Merkle.v
Chain.v
EdgeReduce.v
ProvQL.v
QueryExec.v
GoPath.v
GoFloat.v
GoDuration.v
GoText.v
GoScan.v
Control.v
Fleet.v
ApiAccess.v
HotPath.v
Isolation.v
Respond.v
Snapshots.v
Compact.v
Heal.v
Incidents.v
GoSort.v
GoHeap.v
Bfs.v
KV.v
Aes.v
Secure.v
Store.v
Pipeline.v
Backtrace.v
TraceStore.v
StitchServer.v
AlertFlow.v
ControlHA.v
Transport.v
Dist.v
Stitch.v
WorkerPool.v
RuleScan.v
Adaptive.v
AuditLog.v
Sigma.v
TaintEngine.v
Analyzer.v
PolicyCenter.v
AlertStream.v
PolicyDelivery.v
Notify.v
PolicyAlert.v
Schema.v
PebbleStore.v
Lifecycle.v
FileVersions.v
ProtoEvent.v
PebbleConfig.v
Blast.v
GraphDb.v
NoiseFilter.v
