(* ===== verification/Prelude.v ===== *)
(** * ProvidAPT: a verification library

    ProvidAPT records kernel events, builds a provenance graph from them, watches the
    stream and the graph for attacks, and keeps tamper-evident logs.  This library models
    the parts of the Go program that carry that logic and proves what makes them correct.
    Names follow the source; each file names the Go files it translates.

    ** The program's parts and where they are modelled

    - [GoStrings], [GoText], [GoScan], [GoPath], [GoTime], [GoFloat], [GoDuration], [GoSort], [GoHeap],
      [Sha256], [Aes]: the parts of the Go standard library the modelled code calls (strings,
      UTF-8, paths; [fmt.Sscanf]; RFC 3339 times; float64; durations; [sort] and [container/heap]; SHA-256, HMAC and
      hexadecimal text; AES-GCM).  [GoPath] is [filepath.Match].  SHA-256 and AES are the concrete functions, checked on
      published vectors.  [KV] states what the code relies on from the embedded database
      ([github.com/cockroachdb/pebble]) as the class [Pebble], with an instance.
    - [Events]: raw kernel records and their decoding
      ([internal/engine/collector/ringbuf.go], [internal/engine/syscall]).
    - [ProvGraph]: the provenance graph with its event handlers, file versions,
      credentials and process identities ([internal/engine/provenance]: [graph.go],
      [prov.go], [node.go], [edge.go], [version.go], [credential.go], [identity.go],
      [memory.go]).  The state is the record [Graph]; [AddEvent] is the whole handler.
      [ProvInv] has the structural invariant, [ProvVersions] the invariant of versions and
      identifiers, [ProvCausal] the data-flow theorems, [ProvKinds] the kinds of nodes
      that can occur.
    - [Prune]: graph pruning ([pruner.go]), a search over the graph in both directions.
    - [Taint]: taint tracking on processes and files ([internal/engine/taint]).
    - [Nfa]: pattern detection on the event stream ([internal/engine/stream/nfa.go]);
      [StreamEngine]: the engine around it with its ring of recent events ([engine.go],
      [snapshot.go]), its goroutines as interleaved actions.
    - [Spsc]: the lock-free queue between producer and consumer
      ([internal/engine/pipeline/lockfree.go]), as a step relation of atomic accesses.
    - [Lru]: the node cache with its eviction callback ([internal/storage/cache]).
    - [RateLimit]: load shedding ([internal/engine/ratelimit]).
    - [Breaker]: the self-healing check and its circuit breaker
      ([internal/policy/selfheal]).
    - [Fold]: the redundancy filter and the I/O aggregator ([internal/engine/fold]).
    - [Merkle], [Chain]: Merkle trees ([pkg/secure/merkle.go]) and the hash chain of
      events ([internal/engine/chain]).  [Chain] uses the reduction of [Merkle].
    - [EdgeReduce]: merging of repeated edges ([internal/engine/edgereduce]), with the
      edges shared between its map and its list kept in a heap.
    - [ProvQL], [QueryExec]: the query language, its lexer and parser, and the executor
      over the graph of [ProvGraph] ([internal/engine/query]).
    - [Secure]: key derivation, encryption at rest, the encrypted store, signatures of
      data files and their verifier ([pkg/secure]).
    - [Store]: the persistent store of nodes and edges with its two edge indexes
      ([internal/storage/store]), over [KV] and [Secure].
    - [Schema], [PebbleStore], [Lifecycle], [FileVersions], [ProtoEvent], [PebbleConfig]: the
      second store ([internal/storage/schema], [internal/storage/pebblestore]): its keys and
      their parsers, nodes, edges, indexes and scans with the batch writer, its
      maintenance, file versions, its decoder of raw events, and its options.  Message
      coding is the class [Proto].
    - [Pipeline]: the event pipeline ([internal/engine/pipeline]): graph, cache, merge
      window, batch writer and memory pressure together.
    - [Backtrace]: the backward search from a node over memory and store
      ([internal/engine/backtrace]); [TraceStore] runs it on what the pipeline stored.
    - [StitchServer]: the server's priority queue, load controller and collector routing
      ([internal/stitcher/server]).
    - [Stitch]: joining the connections reported by two hosts, and taint across hosts
      ([internal/stitcher/stitch]).
    - [WorkerPool]: the parallel parser ([internal/engine/pipeline/workerpool.go]), built
      on [Spsc] and [Events]; a step relation in which all goroutines interleave.
    - [RuleScan]: detection rules, their condition language and the scanner
      ([internal/policy/rulescanner]).
    - [Adaptive]: monitoring levels per process and the kernel map that carries them
      ([internal/policy/adaptive]).
    - [AuditLog]: the audit log with rotation, retention and restarts ([pkg/audit]).
    - [TaintEngine], [Analyzer]: taint propagation over a snapshot of the graph, the attack
      patterns and the periodic scan ([internal/engine/analyzer]: [taint.go],
      [patterns.go], [alert.go], [analyzer.go]); [Sigma]: the Sigma rules the scan runs
      ([internal/policy/sigma]).
    - [PolicyAlert]: multi-step patterns on the graph, incidents, storm control and the
      webhook ([internal/policy/alert]).
    - [Notify]: delivery of notifications with retries and dead letters ([pkg/notify]).
    - [NoiseFilter]: the training baseline, reputation rules and the decision which events
      are reduced to counters ([internal/engine/filter]).
    - [Bfs]: breadth-first search with a visited set, used by [Blast], the blast radius,
      anomalous paths and credential theft ([internal/policy/blastradius]), and by
      [GraphDb], the server's graph database with its indexes ([internal/storage/graphdb]).
    - [AlertFlow]: deduplication and workflow of alerts ([pkg/alertflow]).
    - [ControlHA]: leader election among control-plane nodes on a shared state
      ([pkg/controlplaneha]).
    - [Transport]: the agent's priority queues, hash cache, framing and manager
      ([pkg/transport]); [Dist]: global identifiers, their compression and the stream
      buffer ([internal/stitcher/dist]).
    - [Control], [Fleet], [PolicyCenter], [AlertStream]: the policy management server
      ([internal/policy/mgmt]): the kernel exclusions it steers ([internal/engine/control]),
      agents and their enrollment, policies with publication, rollback and persistence,
      and the subscriptions to alerts.
    - [PolicyDelivery]: how a published policy reaches an agent: the reporter
      ([pkg/telemetry/reporter.go]), the download handler ([pkg/api/api.go]) and the
      application of bundles ([cmd/agent/daemon/main.go]).
    - [ApiAccess]: identity, authorization, rate limits and CORS of the HTTP interface
      ([pkg/api/middleware.go]).
    - [Isolation]: response orders across hosts ([internal/stitcher/orch]); [Respond]:
      isolation of process trees, quarantine and response rules ([internal/policy/respond]);
      [Heal]: impact assessment, rollback and firewall ([internal/policy/heal]);
      [Incidents]: clustering of alerts ([internal/policy/incident]).
    - [HotPath]: the path cache, sketches and parallel tracing ([internal/engine/opt]);
      [Compact]: reduction, summaries and tiers of old data ([internal/engine/compact]);
      [Snapshots]: checkpoints of the store, active entities and differences
      ([internal/storage/snapshot]).

    Kernel records are decoded by [Events], [ProvGraph] consumes the decoded events,
    [Prune], [QueryExec], [Analyzer], [Sigma] and [PolicyAlert] work on the resulting graph.  [Pipeline] feeds the graph, keeps
    recent nodes in the cache of [Lru] and writes edges to [Store], which [Backtrace]
    reads through the class [EdgeStore]; [Transport] carries events to the server whose
    queue is in [StitchServer].  [PolicyCenter] steers the rules of [Analyzer] and the
    exclusions of [Control], and [PolicyDelivery] runs the reports of [Fleet] and the
    bundles of [PolicyCenter] against an agent with its own [Analyzer] and [Control].  The
    other components take events or parts of them directly.

    ** How code is modelled

    Integers are [Z] with the wrap-around of their width written out ([u8] to [u64],
    [i64] below).  Times are nanoseconds since the zero time of Go.  State is passed
    explicitly, one definition per operation; mutexes make operations atomic, and where
    the code is lock free ([Spsc], [WorkerPool]) the model has one step per atomic access;
    where a lock is released in between ([Snapshots]) or goroutines meet at channels
    ([StreamEngine]) it has one step per part.  Errors and
    panics are values.  What the code obtains from outside (clocks, random bytes, procfs,
    results of commands, callbacks) is an argument.  The order in which Go iterates over
    a map is the class [MapOrder], over which the theorems quantify, and the Unicode case
    tables are the class [UnicodeCase].

    Where recursion is not structural the definitions take fuel: the search of [Prune]
    (one iteration per node and two per edge), the tree levels of [Merkle] and [Chain]
    (the number of leaves), the loops of the parser (the length of the input), the
    eviction loops of [Lru], the search of [Backtrace] (its node budget and the queue it
    can hold), the search of [Bfs] (one turn per queued node), the worklist of [TaintEngine] (seventeen turns per node, since each turn raises
    a score below seventeen) and its paths (six nodes), [filepath.Match] (the length of the
    pattern), the sift loops of [GoHeap] (the length of the heap), the trimming loop of
    [AlertFlow], the eviction of [HotPath] (the length of its list), the walks over the ring
    of [StreamEngine] (its capacity), the search of [Heal] (the nodes of the graph).  In each case a lemma shows that the fuel given is enough.

    ** What the theorems show

    - Graph: integrity and PROV typing after any events, exact deduplication, recorded
      data flow from writers to readers, ordered derivations, exact pruning.
    - Taint: a node is tainted only if information flowed to it, and always if it did
      while nothing was cleaned; alerts are exact and justified.
    - Queues and caches: the lock-free queue refines a bounded queue under every
      interleaving; the cache refines an LRU specification.
    - Reduction: aggregation, deduplication and edge merging lose nothing, under the
      conditions stated.
    - Integrity: a verified chain with a genuine latest hash is genuine, or two records
      exhibit a SHA-256 collision; the same for inclusion proofs in perfect trees.  No
      assumption on the hash function is made.
    - Queries: parsing inverts printing, execution is total, and the rows are exactly the
      matches of the pattern.
    - Storage: scans by target and by time return exactly the stored edges, latest write
      per key, in order, with or without encryption; the encrypted store behaves like a
      plain map; a signed file that verifies is unchanged, or exhibits a collision; the
      key derivation is PBKDF2.
    - Second store: scans by source, target and time return exactly the committed edges,
      and fewer than 500 entries are uncommitted; maintenance deletes exactly the orphans
      and the edges with a missing end, and keeps every edge between stored nodes; the
      history of a file has one record per write; both decoders of raw events agree.
    - Pipeline: every derived edge is stored, pending or in the merge window, with its
      count; the window merges exactly the equal edges.
    - Backward tracing: the search terminates and returns exactly the nodes within the
      depth bound, by nearest distance, when the budget suffices.
    - Noise filter: an event is reduced exactly when it is neither in training nor
      sensitive and its behaviour was learned before; nothing is dropped.
    - Global graph: path queries return shortest walks, the blast radius is exactly the
      hosts within reach unless its limit is met, indexes return the last entries.
    - Server: the heap-based queue returns the most urgent event, and agents see the load.
    - Stitching: links between hosts and taint are exactly those the reports imply.
    - Parallel parsing: under every interleaving each sample is dropped and counted,
      waiting, or parsed in order and delivered, in the lane its number gives.
    - Rules: conditions evaluate to the meaning their grammar gives, and the scanner
      raises exactly one alert per selected event, for the first rule that selects it.
    - Monitoring: the kernel map holds exactly the raised levels, and every raised process
      is lowered when its time is over.
    - Graph analysis: the propagation converges to the best taint any seed gives, whatever
      the order of map iteration; a scan raises exactly the alerts its patterns and rules
      ask for, once each, with a path from a seed as evidence; Sigma rules and multi-step
      patterns match exactly what their fields say.
    - Notifications: deliveries and dead letters account for everything asked for; the
      storm limiter bounds the alerts of every minute.
    - Audit: recorded entries survive restarts, in order.
    - Alerts: memory is bounded, duplicates are notified at most once per window and
      every kind at least once, actions and snapshots are exact, errors change nothing.
    - Election: on the shared row all nodes agree on the alive node that leads.
    - Transport: the database-backed queue refines two queues across restarts, the cache
      remembers exactly what was sent, and each new urgent content is delivered once.
    - Policy management: a rollback restores the rules of the version it names, a revoked
      agent stays out whatever happens, restarts included, and the history lists every
      version once.
    - Delivery: an agent that reports and can apply a bundle enforces the published rules
      after one round.
    - Access: analysts, operators and auditors that a proxy identifies reach no administrative
      handler and change none of the settings reserved to administrators.
    - Streaming: under every interleaving events are processed in order, the graph and the
      ring are those of the processed events, and matches are delivered or dropped only
      when the channel is full.
    - Responses: the assessment terminates with exactly the nodes within its depth; orders
      are enforced for their time; the kernel map mirrors the blocked processes.
    - Old data: snapshots on disk are those listed; summaries count whole groups.
    - Detection and control: the built-in exfiltration pattern is detected, the engine
      never panics, the rate limiter's bookkeeping and the breaker's first trip.
    - Limits: a group of lemmas and examples states behaviour that differs from the comments or
      from the evident purpose of the code: cycles in the graph, relatives kept by
      pruning, patterns not tied to runners or processes, priorities that do not
      protect, a breaker that stops tripping, odd Merkle levels, uncovered fields of the
      chain, edges lost by the reducer, undirected patterns, edges that overwrite each
      other in the store, edges counted twice by the pipeline, split leadership without
      healthy nodes, alerts under one identifier, contents that are never sent, patterns
      that no graph can meet, a webhook that is never called, edge keys that the second store
      cannot read back, orphans looked for under another type, limits that do not limit,
      policies published without a bundle, rollbacks that enforce nothing, anonymous
      administrators, a response rule that always fires, a rollback that kills the parent
      and renames files that were read, a reduction that never reduces, an archive that
      deletes, differences that are always empty.

    ** What is not modelled

    Input and output (kernel probes in C, loaders, the user interface, command-line tools
    and the rest of the daemon, HTTP handlers other than the policy download, TLS set-up,
    exports), JSON and DOT serialisation (coding of stored values is a class with the
    properties used), database statements (their results are arguments), and the ticker
    goroutines beyond the operations they call.  The scoring and learning components
    ([internal/engine/ai], [ml], [predict], [profile], [memforensic], the online scorer of
    the analyzer, graph sketches) compute with logarithms, exponentials and rounding of
    float64 whose results only feed texts and thresholds; evidence capture, deception,
    supply-chain checks and hardening are sequences of calls on the host.  Statistics and
    texts that are only read are left out throughout. *)
From stdpp Require Export base gmap strings list pretty numbers sets fin_maps relations.
From Stdlib Require Export ZArith Lia.
From Stdlib Require Import Ascii.

#[global] Open Scope Z_scope.
#[export] Set Warnings "-clear-no-such-hyp".

(** ** Machine integers: values are [Z], wrap-around is explicit. *)

Definition u8 (n : Z) : Z := n `mod` 2 ^ 8.
Definition u16 (n : Z) : Z := n `mod` 2 ^ 16.
Definition u32 (n : Z) : Z := n `mod` 2 ^ 32.
Definition u64 (n : Z) : Z := n `mod` 2 ^ 64.
Definition i64 (n : Z) : Z := (n + 2 ^ 63) `mod` 2 ^ 64 - 2 ^ 63.

Definition MaxInt64 : Z := 2 ^ 63 - 1.
Definition MinInt64 : Z := - 2 ^ 63.

Lemma u64_range n : 0 <= u64 n < 2 ^ 64.
Proof. unfold u64. apply Z.mod_pos_bound. lia. Qed.

Lemma u64_small n : 0 <= n < 2 ^ 64 -> u64 n = n.
Proof. intros. unfold u64. by apply Z.mod_small. Qed.

Lemma i64_range n : MinInt64 <= i64 n <= MaxInt64.
Proof.
  unfold i64, MinInt64, MaxInt64.
  pose proof (Z.mod_pos_bound (n + 2 ^ 63) (2 ^ 64)). lia.
Qed.

Lemma i64_small n : MinInt64 <= n <= MaxInt64 -> i64 n = n.
Proof.
  unfold i64, MinInt64, MaxInt64. intros.
  rewrite Z.mod_small by lia. lia.
Qed.

Lemma i64_succ n : i64 (i64 n + 1) = i64 (n + 1).
Proof.
  unfold i64. replace ((n + 2 ^ 63) `mod` 2 ^ 64 - 2 ^ 63 + 1 + 2 ^ 63) with ((n + 2 ^ 63) `mod` 2 ^ 64 + 1) by lia.
  rewrite Z.add_mod_idemp_l by lia. do 2 f_equal. lia.
Qed.

(** ** Time: a [time.Time] is its number of nanoseconds since the zero
    time (1 January of year 1, UTC), so the zero [Time] is [0]; a
    [time.Duration] is an [int64] of nanoseconds. *)

Definition time := Z.
Definition duration := Z.

Definition time_zero : time := 0.
Definition unix_epoch : time := 62135596800 * 10 ^ 9.

Definition Millisecond : duration := 10 ^ 6.
Definition Second : duration := 10 ^ 9.
Definition Minute : duration := 60 * Second.

Definition time_IsZero (t : time) : bool := Z.eqb t time_zero.
Definition time_After (t u : time) : bool := Z.ltb u t.
Definition time_Before (t u : time) : bool := Z.ltb t u.
Definition time_Add (t : time) (d : duration) : time := t + d.

(** [Time.Sub] saturates at the bounds of [Duration]. *)
Definition time_Sub (t u : time) : duration :=
  Z.max MinInt64 (Z.min MaxInt64 (t - u)).

Definition time_UnixNano (t : time) : Z := i64 (t - unix_epoch).
Definition time_Unix0 (ns : Z) : time := unix_epoch + ns.

(** ** Strings as lists of characters *)

(** Checks a decidable fact on all 256 characters. *)
Ltac all_chars c := destruct c as [[] [] [] [] [] [] [] []]; vm_compute; try done.

Abbreviation chars := String.list_ascii_of_string.

Lemma chars_app s1 s2 : chars (s1 +:+ s2) = chars s1 ++ chars s2.
Proof. induction s1; simpl; [done|by f_equal]. Qed.

#[global] Instance chars_inj : Inj (=) (=) chars.
Proof.
  intros s1 s2 H. apply (f_equal String.string_of_list_ascii) in H.
  by rewrite !String.string_of_list_ascii_of_string in H.
Qed.

Lemma string_app_assoc s1 s2 s3 : (s1 +:+ s2) +:+ s3 = s1 +:+ (s2 +:+ s3).
Proof. apply (inj chars). by rewrite !chars_app, (assoc_L (++)). Qed.

Lemma length_chars s : length (chars s) = String.length s.
Proof. induction s; simpl; lia. Qed.

(** [c ∈s s]: the character [c] occurs in [s]. *)
Definition occurs (c : ascii) (s : string) : Prop := c ∈ chars s.

#[global] Instance occurs_dec c s : Decision (occurs c s).
Proof. unfold occurs. apply _. Defined.

Lemma occurs_app c s1 s2 : occurs c (s1 +:+ s2) <-> occurs c s1 \/ occurs c s2.
Proof. unfold occurs. rewrite chars_app. apply elem_of_app. Qed.

(** *** Decimal printing ([%d]): [pretty] of stdpp *)

Definition digit (c : ascii) : Prop := (48 <= N_of_ascii c <= 57)%N.
Definition digit_or_minus (c : ascii) : Prop := digit c \/ c = "-"%char.

#[global] Instance digit_dec c : Decision (digit c).
Proof. apply and_dec; apply _. Defined.
#[global] Instance digit_or_minus_dec c : Decision (digit_or_minus c).
Proof. apply or_dec; apply _. Defined.

Lemma pretty_N_go_chars x s :
  Forall digit (chars s) -> Forall digit (chars (pretty_N_go x s)).
Proof.
  revert s. induction (N.lt_wf_0 x) as [x _ IH]; intros s Hs.
  destruct (decide (x = 0)%N) as [->|]; [by rewrite pretty_N_go_0|].
  rewrite pretty_N_go_step by lia. apply IH; [apply N.div_lt; lia|].
  simpl. constructor; [|done]. apply (bool_decide_unpack _).
  unfold pretty_N_char. repeat case_match; by vm_compute.
Qed.

Lemma pretty_N_chars (x : N) : Forall digit (chars (pretty x)).
Proof.
  unfold pretty, pretty_N. case_decide.
  - apply (bool_decide_unpack _). by vm_compute.
  - by apply pretty_N_go_chars.
Qed.

Lemma pretty_Z_digits (x : Z) : 0 <= x -> Forall digit (chars (pretty x)).
Proof.
  intros Hx. unfold pretty, pretty_Z. destruct x as [|p|p]; [| |lia].
  - apply (bool_decide_unpack _). by vm_compute.
  - apply (pretty_N_chars (Npos p)).
Qed.

Lemma pretty_Z_chars (x : Z) : Forall digit_or_minus (chars (pretty x)).
Proof.
  destruct (decide (0 <= x)).
  - eapply Forall_impl; [by apply pretty_Z_digits|]. by left.
  - unfold pretty, pretty_Z. destruct x as [|p|p]; [lia..|].
    rewrite chars_app. apply Forall_app. split.
    + apply (bool_decide_unpack _). by vm_compute.
    + eapply Forall_impl; [apply (pretty_N_chars (Npos p))|]. by left.
Qed.

Lemma pretty_Z_not_occurs (x : Z) c : ~ digit_or_minus c -> ~ occurs c (pretty x).
Proof.
  intros Hc Ho. apply Hc. pose proof (pretty_Z_chars x) as H.
  rewrite Forall_forall in H. by apply H.
Qed.

(** Splitting at the first occurrence of a separator is unambiguous. *)
Lemma app_sep_inj {A} (x : A) l1 l2 k1 k2 :
  ~ x ∈ l1 -> ~ x ∈ k1 -> l1 ++ x :: l2 = k1 ++ x :: k2 -> l1 = k1 /\ l2 = k2.
Proof.
  revert k1. induction l1 as [|a l1 IH]; intros [|b k1] H1 H2 Heq; simplify_eq/=.
  - done.
  - by destruct H2; left.
  - by destruct H1; left.
  - destruct (IH k1) as [-> ->]; [by set_solver|by set_solver|done|done].
Qed.

(** Splitting at the last occurrence of a separator is unambiguous. *)
Lemma app_sep_inj_r {A} (x : A) l1 l2 k1 k2 :
  ~ x ∈ l2 -> ~ x ∈ k2 -> l1 ++ x :: l2 = k1 ++ x :: k2 -> l1 = k1 /\ l2 = k2.
Proof.
  intros H1 H2 Heq. apply (f_equal reverse) in Heq.
  rewrite !reverse_app, !reverse_cons, <-!(assoc_L (++)) in Heq. simpl in Heq.
  apply app_sep_inj in Heq as [E1 E2].
  - split; [by apply (inj reverse)|by apply (inj reverse)].
  - by rewrite elem_of_reverse.
  - by rewrite elem_of_reverse.
Qed.

(** Splitting a list with one separator is unambiguous. *)
Lemma app_sep_inj_only {A} (x : A) l1 l2 k1 k2 :
  ~ x ∈ l1 -> ~ x ∈ l2 -> l1 ++ x :: l2 = k1 ++ x :: k2 -> l1 = k1 /\ l2 = k2.
Proof.
  revert k1. induction l1 as [|a l1 IH]; intros [|b k1] H1 H2 Heq; simplify_eq/=.
  - done.
  - destruct H2. apply elem_of_app. right. by left.
  - by destruct H1; left.
  - destruct (IH k1) as [-> ->]; [by set_solver|done|done|done].
Qed.

(** A function injective on [P] is injective on lists over [P]. *)
Lemma fmap_inj_on {A B} (P : A -> Prop) (f : A -> B) l k :
  (forall x y, P x -> P y -> f x = f y -> x = y) ->
  Forall P l -> Forall P k -> f <$> l = f <$> k -> l = k.
Proof.
  intros Hf Hl. revert k. induction Hl as [|x l Hx _ IH]; intros [|y k] Hk Heq; try done.
  inversion_clear Hk. rewrite !fmap_cons in Heq. injection Heq as H1 H2.
  f_equal; [by apply Hf|by apply IH].
Qed.

(** Filtering commutes with a map that preserves the condition. *)
Lemma filter_fmap_iff {X Y} (f : X -> Y) (P : X -> Prop) (Q : Y -> Prop)
    `{HP : !forall x, Decision (P x), HQ : !forall y, Decision (Q y)} (l : list X) :
  (forall x, x ∈ l -> P x <-> Q (f x)) -> f <$> filter P l = filter Q (f <$> l).
Proof.
  induction l as [|x l IH]; intros Hiff; [done|]. rewrite fmap_cons, !filter_cons.
  assert (P x <-> Q (f x)) by (apply Hiff; by left).
  assert (f <$> filter P l = filter Q (f <$> l)) as IH' by (apply IH; intros; apply Hiff; by right).
  repeat case_decide; rewrite ?fmap_cons, ?IH'; tauto || done.
Qed.

Lemma filter_all {X} (P : X -> Prop) `{HP : !forall x, Decision (P x)} (l : list X) :
  Forall P l -> filter P l = l.
Proof. induction 1; [done|]. rewrite filter_cons_True by done. by f_equal. Qed.

Lemma filter_none {A} (f : A -> bool) l : (forall x, x ∈ l -> f x = false) -> List.filter f l = [].
Proof. induction l as [|x l IH]; intros Hl; simpl; [done|]. rewrite Hl by set_solver. apply IH. set_solver. Qed.

Lemma length_omap_le {X Y} (f : X -> option Y) (l : list X) : (length (omap f l) <= length l)%nat.
Proof.
  induction l as [|x l IH]; [done|].
  change (omap f (x :: l)) with (match f x with Some y => y :: omap f l | None => omap f l end).
  destruct (f x); cbn [length]; lia.
Qed.

(** Sums of integers. *)
Definition sum (l : list Z) : Z := foldr Z.add 0 l.

Lemma sum_app l l' : sum (l ++ l') = sum l + sum l'.
Proof. induction l as [|x l IH]; simpl; [done|]. unfold sum in *. lia. Qed.

Lemma sum_nonneg l : Forall (fun x => 0 <= x) l -> 0 <= sum l.
Proof. induction 1; simpl; unfold sum in *; lia. Qed.

Lemma size_list_to_set_le (l : list string) : (size (list_to_set l : gset string) <= length l)%nat.
Proof.
  induction l as [|x l IH]; [by rewrite list_to_set_nil, size_empty|].
  rewrite list_to_set_cons, size_union_alt, size_singleton. simpl.
  assert (size (list_to_set l ∖ {[x]} : gset string) <= size (list_to_set l : gset string))%nat;
    [apply subseteq_size; set_solver|lia].
Qed.

(** ** Map iteration

    Go leaves the order in which [range] enumerates a map unspecified, and it may
    differ from one statement to the next.  [range k l] is the order in which the
    [k]-th such statement enumerates the entries [l]; the definitions that iterate
    over maps are given for every order. *)
Class MapOrder := {
  range : forall {A : Type}, nat -> list A -> list A;
  range_perm : forall {A : Type} (k : nat) (l : list A), Permutation (range k l) l;
}.

(** One concrete order, and its reverse on every other statement. *)
Definition alternating_order : MapOrder.
Proof.
  refine {| range := fun A k l => if Nat.even k then l else rev l |}.
  intros A k l. destruct (Nat.even k); [done|]. symmetry. apply Permutation_rev.
Defined.

Lemma elem_of_range `{MapOrder} {A} k (l : list A) x : x ∈ range k l <-> x ∈ l.
Proof. by rewrite range_perm. Qed.
