(* ===== verification/GoStrings.v ===== *)
(** * The parts of Go's [strings], [unicode/utf8] and [path] packages the
    modelled code calls.

    A Go string is a sequence of bytes, modelled as a [string].  UTF-8
    decoding follows [utf8.DecodeRuneInString]: an invalid sequence decodes
    to [RuneError] (U+FFFD) with width one.  The Unicode case tables are
    generated data outside the repository: case folding of strings with
    non-ASCII bytes goes through the class [UnicodeCase]. *)
From S2P Require Import Prelude.
From Stdlib Require Import Ascii.

(** ** Bytes *)

Definition byteval (c : ascii) : Z := Z.of_N (N_of_ascii c).
Definition byte_ascii (b : Z) : ascii := ascii_of_N (Z.to_N b).

Lemma byteval_range c : 0 <= byteval c < 256.
Proof. unfold byteval. pose proof (N_ascii_bounded c). lia. Qed.

Lemma byte_ascii_byteval c : byte_ascii (byteval c) = c.
Proof. unfold byte_ascii, byteval. rewrite N2Z.id. apply ascii_N_embedding. Qed.

Definition string_of_bytes (l : list Z) : string :=
  String.string_of_list_ascii (byte_ascii <$> l).
Definition bytes_of_string (s : string) : list Z := byteval <$> chars s.

Lemma string_of_bytes_of_string s : string_of_bytes (bytes_of_string s) = s.
Proof.
  unfold string_of_bytes, bytes_of_string. rewrite <-list_fmap_compose.
  transitivity (String.string_of_list_ascii (chars s)).
  - f_equal. induction (chars s) as [|c l IH]; [done|].
    rewrite fmap_cons, IH. simpl. by rewrite byte_ascii_byteval.
  - apply String.string_of_list_ascii_of_string.
Qed.

(** ** Prefixes and suffixes *)

Definition HasPrefix (s p : string) : bool := String.prefix p s.

Definition TrimPrefix (s p : string) : string :=
  if HasPrefix s p
  then String.substring (String.length p) (String.length s - String.length p) s
  else s.

Definition HasSuffix (s p : string) : bool :=
  String.prefix (String.rev p) (String.rev s).

Definition TrimSuffix (s p : string) : string :=
  if HasSuffix s p
  then String.substring 0 (String.length s - String.length p) s
  else s.

(** [strings.Contains]. *)
Fixpoint Contains (s sub : string) : bool :=
  String.prefix sub s || match s with EmptyString => false | String _ s => Contains s sub end.

Lemma HasPrefix_spec s p : HasPrefix s p = true <-> exists t, s = p +:+ t.
Proof.
  unfold HasPrefix. revert s. induction p as [|c p IH]; intros s; simpl.
  - split; [by exists s|]. by destruct s.
  - destruct s as [|d s]; simpl.
    + split; [done|]. intros [t ?]. done.
    + destruct (ascii_dec c d) as [->|Hne].
      * rewrite IH. split; intros [t Ht]; exists t.
        { change (String d s = String d (p +:+ t)). by f_equal. }
        { change (String d s = String d (p +:+ t)) in Ht. by simplify_eq. }
      * split; [done|]. intros [t Ht].
        change (String d s = String c (p +:+ t)) in Ht. by simplify_eq.
Qed.

(** ** UTF-8 *)

Definition RuneError : Z := 65533.

Definition cont (lo hi b : Z) : bool := (lo <=? b) && (b <=? hi).

(** First-byte classification of [utf8.first]: the number of continuation
    bytes and the accept range of the second byte. *)
Definition lead (b0 : Z) : option (nat * Z * Z) :=
  if (0xC2 <=? b0) && (b0 <=? 0xDF) then Some (1%nat, 0x80, 0xBF)
  else if b0 =? 0xE0 then Some (2%nat, 0xA0, 0xBF)
  else if b0 =? 0xED then Some (2%nat, 0x80, 0x9F)
  else if (0xE1 <=? b0) && (b0 <=? 0xEF) then Some (2%nat, 0x80, 0xBF)
  else if b0 =? 0xF0 then Some (3%nat, 0x90, 0xBF)
  else if b0 =? 0xF4 then Some (3%nat, 0x80, 0x8F)
  else if (0xF1 <=? b0) && (b0 <=? 0xF3) then Some (3%nat, 0x80, 0xBF)
  else None.

(** [utf8.DecodeRune] on a non-empty byte sequence [b0 :: rest]: the rune and
    its width. *)
Definition DecodeRune (b0 : Z) (rest : list Z) : Z * nat :=
  if b0 <? 0x80 then (b0, 1%nat)
  else match lead b0, rest with
  | Some (1%nat, lo, hi), b1 :: _ =>
      if cont lo hi b1
      then (Z.lor (Z.shiftl (Z.land b0 0x1F) 6) (Z.land b1 0x3F), 2%nat)
      else (RuneError, 1%nat)
  | Some (2%nat, lo, hi), b1 :: b2 :: _ =>
      if cont lo hi b1 && cont 0x80 0xBF b2
      then (Z.lor (Z.shiftl (Z.land b0 0x0F) 12)
             (Z.lor (Z.shiftl (Z.land b1 0x3F) 6) (Z.land b2 0x3F)), 3%nat)
      else (RuneError, 1%nat)
  | Some (3%nat, lo, hi), b1 :: b2 :: b3 :: _ =>
      if cont lo hi b1 && cont 0x80 0xBF b2 && cont 0x80 0xBF b3
      then (Z.lor (Z.shiftl (Z.land b0 0x07) 18)
             (Z.lor (Z.shiftl (Z.land b1 0x3F) 12)
               (Z.lor (Z.shiftl (Z.land b2 0x3F) 6) (Z.land b3 0x3F))), 4%nat)
      else (RuneError, 1%nat)
  | _, _ => (RuneError, 1%nat)
  end.

(** The runes of a string with the bytes each was decoded from, in the order
    of a [range] loop.  [fuel] is at least the number of bytes. *)
Fixpoint rune_segs (fuel : nat) (l : list Z) : list (Z * list Z) :=
  match fuel, l with
  | S fuel, b0 :: rest =>
      let '(r, n) := DecodeRune b0 rest in
      (r, take n l) :: rune_segs fuel (drop n l)
  | _, _ => []
  end.

Definition segs (s : string) : list (Z * list Z) :=
  let l := bytes_of_string s in rune_segs (length l) l.

Definition ContainsRune (s : string) (r : Z) : bool :=
  existsb (fun '(r', _) => r' =? r) (segs s).

(** [unicode.IsSpace]. *)
Definition IsSpace (r : Z) : bool :=
  cont 0x09 0x0D r || (r =? 0x20) || (r =? 0x85) || (r =? 0xA0)
  || (r =? 0x1680) || cont 0x2000 0x200A r || (r =? 0x2028) || (r =? 0x2029)
  || (r =? 0x202F) || (r =? 0x205F) || (r =? 0x3000).

Fixpoint trim_left_segs (l : list (Z * list Z)) : list Z :=
  match l with
  | [] => []
  | (r, bs) :: l' => if IsSpace r then trim_left_segs l' else bs ++ mjoin (snd <$> l')
  end.

(** [utf8.RuneStart] and [utf8.DecodeLastRune]; the argument is the reversed
    byte sequence, non-empty. *)
Definition RuneStart (b : Z) : bool := negb (Z.land b 0xC0 =? 0x80).

Definition try_last (rl : list Z) (n : nat) : option (Z * nat) :=
  match nth_error rl (n - 1) with
  | Some b =>
      if RuneStart b then
        match reverse (take n rl) with
        | b0 :: rest =>
            let '(r, k) := DecodeRune b0 rest in
            Some (if Nat.eqb k n then (r, n) else (RuneError, 1%nat))
        | [] => None
        end
      else None
  | None => None
  end.

Definition DecodeLastRune (rl : list Z) : Z * nat :=
  match try_last rl 1, try_last rl 2, try_last rl 3, try_last rl 4 with
  | Some x, _, _, _ => x
  | None, Some x, _, _ => x
  | None, None, Some x, _ => x
  | None, None, None, Some x => x
  | None, None, None, None => (RuneError, 1%nat)
  end.

Fixpoint trim_right_rev (fuel : nat) (rl : list Z) : list Z :=
  match fuel, rl with
  | S fuel, _ :: _ =>
      let '(r, n) := DecodeLastRune rl in
      if IsSpace r then trim_right_rev fuel (drop n rl) else rl
  | _, _ => rl
  end.

Definition TrimSpace (s : string) : string :=
  let l := trim_left_segs (segs s) in
  string_of_bytes (reverse (trim_right_rev (length l) (reverse l))).

(** [strings.Fields]: maximal runs of non-space runes. *)
Fixpoint fields_go (cur : list Z) (l : list (Z * list Z)) : list (list Z) :=
  let emit := match cur with [] => [] | _ => [cur] end in
  match l with
  | [] => emit
  | (r, bs) :: l' => if IsSpace r then emit ++ fields_go [] l' else fields_go (cur ++ bs) l'
  end.

Definition Fields (s : string) : list string := string_of_bytes <$> fields_go [] (segs s).

(** [strings.LastIndex] with a one-byte needle. *)
Fixpoint last_index_byte (c : ascii) (l : list ascii) : option nat :=
  match l with
  | [] => None
  | d :: l' =>
      match last_index_byte c l' with
      | Some i => Some (S i)
      | None => if decide (d = c) then Some 0%nat else None
      end
  end.

(** [strings.Split] at a single byte, and [strings.Join]. *)
Fixpoint split_byte (c : ascii) (cur l : list ascii) : list (list ascii) :=
  match l with
  | [] => [rev cur]
  | x :: l => if decide (x = c) then rev cur :: split_byte c [] l else split_byte c (x :: cur) l
  end.
Definition Split (s : string) (c : ascii) : list string := String.string_of_list_ascii <$> split_byte c [] (chars s).

Fixpoint Join (sep : string) (l : list string) : string :=
  match l with [] => "" | [s] => s | s :: l => s +:+ sep +:+ Join sep l end.

(** [strconv.ParseUint(s, 10, 64)]. *)
Fixpoint parse_digits (acc : Z) (l : list Z) : option Z :=
  match l with
  | [] => Some acc
  | b :: l' =>
      if cont 48 57 b
      then let acc' := acc * 10 + (b - 48) in
           if acc' <? 2 ^ 64 then parse_digits acc' l' else None
      else None
  end.

Definition ParseUint (s : string) : option Z :=
  match bytes_of_string s with [] => None | l => parse_digits 0 l end.

(** [utf8.ValidString]. *)
Definition valid_utf8 (s : string) : bool :=
  forallb (fun '(r, bs) => negb ((r =? RuneError) && (length bs =? 1)%nat)) (segs s).

(** ** Case folding *)

Definition is_ascii (s : string) : bool := forallb (fun b => b <? 0x80) (bytes_of_string s).

Definition lower_byte (b : Z) : Z := if cont 65 90 b then b + 32 else b.
Definition upper_byte (b : Z) : Z := if cont 97 122 b then b - 32 else b.

Class UnicodeCase := {
  uni_EqualFold : string -> string -> bool;
  uni_ToLower : string -> string;
  uni_ToUpper : string -> string;
}.

Section case.
Context `{UnicodeCase}.

Definition EqualFold (s t : string) : bool :=
  if is_ascii s && is_ascii t
  then bool_decide (lower_byte <$> bytes_of_string s = lower_byte <$> bytes_of_string t)
  else uni_EqualFold s t.

Definition ToLower (s : string) : string :=
  if is_ascii s then string_of_bytes (lower_byte <$> bytes_of_string s) else uni_ToLower s.

Definition ToUpper (s : string) : string :=
  if is_ascii s then string_of_bytes (upper_byte <$> bytes_of_string s) else uni_ToUpper s.
End case.

(** A concrete instance that folds ASCII letters only, for examples. *)
Definition ascii_case : UnicodeCase := {|
  uni_EqualFold s t := bool_decide (lower_byte <$> bytes_of_string s = lower_byte <$> bytes_of_string t);
  uni_ToLower s := string_of_bytes (lower_byte <$> bytes_of_string s);
  uni_ToUpper s := string_of_bytes (upper_byte <$> bytes_of_string s);
|}.

(** ** [path.Clean] *)

(** Split at every ['/']. *)
Fixpoint split_slash (cur : list ascii) (l : list ascii) : list (list ascii) :=
  match l with
  | [] => [reverse cur]
  | c :: l' =>
      if decide (c = "/"%char) then reverse cur :: split_slash [] l'
      else split_slash (c :: cur) l'
  end.

(** One path element against the stack of the elements kept so far (most
    recent first): empty elements and ["."] vanish, [".."] removes the last
    kept element that is not itself [".."], is dropped at the root of a rooted
    path, and is kept at the front of a relative one. *)
Definition clean_step (rooted : bool) (st : list (list ascii)) (e : list ascii)
  : list (list ascii) :=
  if decide (e = []) then st
  else if decide (e = ["."%char]) then st
  else if decide (e = ["."%char; "."%char]) then
    match st with
    | t :: st' => if decide (t = ["."%char; "."%char]) then e :: st else st'
    | [] => if rooted then [] else [e]
    end
  else e :: st.

Fixpoint join_slash (l : list (list ascii)) : list ascii :=
  match l with
  | [] => []
  | [e] => e
  | e :: l' => e ++ "/"%char :: join_slash l'
  end.

Definition path_Clean (p : string) : string :=
  let l := chars p in
  let rooted := match l with c :: _ => bool_decide (c = "/"%char) | [] => false end in
  let st := foldl (clean_step rooted) [] (split_slash [] l) in
  let body := join_slash (reverse st) in
  if rooted then String.string_of_list_ascii ("/"%char :: body)
  else match body with [] => "." | _ => String.string_of_list_ascii body end.

Example path_Clean_ex1 : path_Clean "/etc/../etc//shadow" = "/etc/shadow".
Proof. reflexivity. Qed.
Example path_Clean_ex2 : path_Clean "a/b/../../.." = "..".
Proof. reflexivity. Qed.
Example TrimSpace_ex : TrimSpace " /a b  " = "/a b".
Proof. reflexivity. Qed.
Example Fields_ex : Fields " a bc  d " = ["a"; "bc"; "d"].
Proof. reflexivity. Qed.
