(* ===== verification/GoTime.v ===== *)
(** * [time.Parse] of the Go standard library, for the layouts [RFC3339] and [RFC3339Nano].

    The two layouts accept the same texts: the optional fraction of the second is
    accepted after the seconds whether or not the layout has one.  As in the library,
    the hour may have one digit, the fraction may start with a comma, digits beyond
    the ninth are dropped, and offsets of 24 hours or 60 minutes are accepted. *)
From S2P Require Import Prelude GoStrings.
From Stdlib Require Import Ascii.

(** ** Dates *)

Definition is_leap (y : Z) : bool :=
  (y `mod` 4 =? 0) && (negb (y `mod` 100 =? 0) || (y `mod` 400 =? 0)).

Definition daysIn (m y : Z) : Z :=
  if m =? 2 then if is_leap y then 29 else 28
  else if bool_decide (m ∈ [4; 6; 9; 11]) then 30 else 31.

(** Days from 1 January of year 1 to a date. *)
Definition days_before (y m d : Z) : Z :=
  let p := y - 1 in
  365 * p + p / 4 - p / 100 + p / 400 + sum ((fun k => daysIn k y) <$> seqZ 1 (m - 1)) + (d - 1).

Definition Date (y m d hour min sec nsec : Z) : time :=
  ((days_before y m d * 24 + hour) * 60 + min) * 60 * 10 ^ 9 + sec * 10 ^ 9 + nsec.

Example Date_epoch : Date 1970 1 1 0 0 0 0 = unix_epoch.
Proof. reflexivity. Qed.

(** ** Pieces of the text *)

Definition digit_val (c : ascii) : option Z :=
  let b := byteval c in if cont 48 57 b then Some (b - 48) else None.

(** [getnum]: two digits, or one when [fixed] is false. *)
Definition getnum (fixed : bool) (l : list ascii) : option (Z * list ascii) :=
  match l with
  | a :: rest =>
      match digit_val a with
      | None => None
      | Some x =>
          match rest with
          | b :: rest' =>
              match digit_val b with
              | Some y => Some (x * 10 + y, rest')
              | None => if fixed then None else Some (x, rest)
              end
          | [] => if fixed then None else Some (x, rest)
          end
      end
  | [] => None
  end.

Definition year (l : list ascii) : option (Z * list ascii) :=
  '(hi, l) ← getnum true l; '(lo, l) ← getnum true l; Some (hi * 100 + lo, l).

Definition skip (c : ascii) (l : list ascii) : option (list ascii) :=
  match l with
  | a :: rest => if decide (a = c) then Some rest else None
  | [] => None
  end.

Definition in_range (lo hi : Z) (r : Z * list ascii) : option (Z * list ascii) :=
  if (lo <=? r.1) && (r.1 <=? hi) then Some r else None.

(** The digits at the front. *)
Fixpoint span_digits (l : list ascii) : list Z * list ascii :=
  match l with
  | c :: rest =>
      match digit_val c with
      | Some d => let '(ds, rest) := span_digits rest in (d :: ds, rest)
      | None => ([], l)
      end
  | [] => ([], [])
  end.

(** Nine digits, padded with zeros. *)
Definition nanoseconds (ds : list Z) : Z :=
  foldl (fun acc d => acc * 10 + d) 0 (take 9 (ds ++ replicate 9 0)).

Definition fraction (l : list ascii) : Z * list ascii :=
  match l with
  | c :: rest =>
      if decide (c = "."%char \/ c = ","%char) then
        match span_digits rest with
        | ([], _) => (0, l)
        | (ds, rest) => (nanoseconds ds, rest)
        end
      else (0, l)
  | [] => (0, l)
  end.

(** [Z], or a sign, two digits, a colon and two digits: the offset in seconds. *)
Definition zone (l : list ascii) : option (Z * list ascii) :=
  match l with
  | c :: rest =>
      if decide (c = "Z"%char) then Some (0, rest)
      else
        '(hr, rest) ← getnum true rest ≫= in_range 0 24;
        rest ← skip ":"%char rest;
        '(mm, rest) ← getnum true rest ≫= in_range 0 60;
        let offset := (hr * 60 + mm) * 60 in
        if decide (c = "+"%char) then Some (offset, rest)
        else if decide (c = "-"%char) then Some (- offset, rest)
        else None
  | [] => None
  end.

Definition time_Parse (s : string) : option time :=
  '(y, l) ← year (chars s);
  l ← skip "-"%char l;
  '(mo, l) ← getnum true l ≫= in_range 1 12;
  l ← skip "-"%char l;
  '(d, l) ← getnum true l;
  l ← skip "T"%char l;
  '(h, l) ← getnum false l ≫= in_range 0 23;
  l ← skip ":"%char l;
  '(mi, l) ← getnum true l ≫= in_range 0 59;
  l ← skip ":"%char l;
  '(sec, l) ← getnum true l ≫= in_range 0 59;
  let '(ns, l) := fraction l in
  '(offset, l) ← zone l;
  if (1 <=? d) && (d <=? daysIn mo y) && bool_decide (l = [])
  then Some (Date y mo d h mi sec ns - offset * 10 ^ 9)
  else None.

Example parse_epoch : time_Parse "1970-01-01T00:00:00Z" = Some unix_epoch.
Proof. reflexivity. Qed.
Example parse_offset : time_Parse "2025-03-01T01:30:00.5+01:30" = Some (unix_epoch + 1740787200500000000).
Proof. vm_compute. reflexivity. Qed.
Example parse_bad_day : time_Parse "2025-02-29T00:00:00Z" = None.
Proof. vm_compute. reflexivity. Qed.
