(* ===== verification/Events.v ===== *)
(** * Kernel events: the event type table ([internal/engine/syscall/syscall_table.go])
    and the ring-buffer decoder ([internal/engine/collector/ringbuf.go]).

    [ParseRawEvent] is the whole decoder.  [encode] is the byte layout of
    [struct event] ([cmd/bpf/headers/providapt.h]), the producer's side of the
    format; [parse_encode] is the round trip between the two. *)
From S2P Require Import Prelude GoStrings.
From Stdlib Require Import Ascii.

(** ** Event types and flags *)

Definition EventType := Z.

Definition EventFlagNone : Z := 0.
Definition EventFlagFromUser : Z := Z.shiftl 1 0.
Definition EventFlagIsRoot : Z := Z.shiftl 1 1.
Definition EventFlagExecSetuid : Z := Z.shiftl 1 2.

Definition EventProcessFork : EventType := 1.
Definition EventProcessExec : EventType := 2.
Definition EventProcessExit : EventType := 3.
Definition EventFileOpen : EventType := 10.
Definition EventFileCreate : EventType := 11.
Definition EventFileModify : EventType := 12.
Definition EventFileDelete : EventType := 13.
Definition EventFileRename : EventType := 14.
Definition EventNetConnect : EventType := 20.
Definition EventNetAccept : EventType := 21.
Definition EventNetSend : EventType := 22.
Definition EventNetRecv : EventType := 23.
Definition EventCredSetuid : EventType := 40.
Definition EventCredCapable : EventType := 41.
Definition EventMemfdCreate : EventType := 50.
Definition EventMprotectRX : EventType := 51.
Definition EventPipeWrite : EventType := 52.
Definition EventPipeRead : EventType := 53.

Definition EventType_String (et : EventType) : string :=
  match et with
  | 1 => "proc_fork"
  | 2 => "proc_exec"
  | 3 => "proc_exit"
  | 10 => "file_open"
  | 11 => "file_create"
  | 12 => "file_modify"
  | 13 => "file_delete"
  | 14 => "file_rename"
  | 20 => "net_connect"
  | 21 => "net_accept"
  | 22 => "net_send"
  | 23 => "net_recv"
  | 40 => "cred_setuid"
  | 41 => "cred_capable"
  | 50 => "memfd_create"
  | 51 => "mprotect_rx"
  | 52 => "pipe_write"
  | 53 => "pipe_read"
  | _ => "unknown"
  end.

(** ** Decoded events *)

Record Event := mkEvent {
  Type_ : EventType;
  Flags : Z;
  TimestampNS : Z;
  PID : Z;
  TID : Z;
  PPID : Z;
  UID : Z;
  GID : Z;
  Inode : Z;
  DevMajor : Z;
  DevMinor : Z;
  Mode : Z;
  FFlags : Z;
  ChildPID : Z;
  SampleHookID : Z;
  SampleCount : Z;
  Saddr : Z;
  Daddr : Z;
  Sport : Z;
  Dport : Z;
  Protocol : Z;
  Comm : string;
  Pathname : string;
  ExePath : string;
  Cmdline : string;
  CmdlineSource : string;
  Cwd : string;
}.

Definition eventTotalSize : nat := 340.

(** Little-endian decoding ([binary.LittleEndian]). *)
Fixpoint le_Z (l : list Z) : Z :=
  match l with [] => 0 | b :: l' => b + 256 * le_Z l' end.

(** [data[off : off+n]], in range by the size check of the decoder. *)
Definition slice (off n : nat) (data : list Z) : list Z := take n (drop off data).

Definition Uint16 (off : nat) (data : list Z) : Z := le_Z (slice off 2 data).
Definition Uint32 (off : nat) (data : list Z) : Z := le_Z (slice off 4 data).
Definition Uint64 (off : nat) (data : list Z) : Z := le_Z (slice off 8 data).

(** Bytes up to the first NUL, or all of them. *)
Fixpoint cbytes (buf : list Z) : list Z :=
  match buf with
  | [] => []
  | b :: buf' => if b =? 0 then [] else b :: cbytes buf'
  end.

Definition cString (buf : list Z) : string := string_of_bytes (cbytes buf).

Definition isPathBackedEvent (typ : EventType) : bool :=
  bool_decide (typ ∈ [EventProcessExec; EventFileOpen; EventFileCreate;
                      EventFileModify; EventFileDelete; EventFileRename]).

(** ["\u2026"], the horizontal ellipsis, in UTF-8. *)
Definition ellipsis : string := string_of_bytes [0xE2; 0x80; 0xA6].

Definition pathUnavailable (pathname : string) : bool :=
  let pathname := TrimSpace pathname in
  bool_decide (pathname = "") || bool_decide (pathname = "?")
  || bool_decide (pathname = ellipsis) || ContainsRune pathname RuneError.

Definition set_Pathname (e : Event) (p : string) : Event :=
  {| Type_ := Type_ e; Flags := Flags e; TimestampNS := TimestampNS e; PID := PID e;
     TID := TID e; PPID := PPID e; UID := UID e; GID := GID e; Inode := Inode e;
     DevMajor := DevMajor e; DevMinor := DevMinor e; Mode := Mode e; FFlags := FFlags e;
     ChildPID := ChildPID e; SampleHookID := SampleHookID e; SampleCount := SampleCount e;
     Saddr := Saddr e; Daddr := Daddr e; Sport := Sport e; Dport := Dport e;
     Protocol := Protocol e; Comm := Comm e; Pathname := p; ExePath := ExePath e;
     Cmdline := Cmdline e; CmdlineSource := CmdlineSource e; Cwd := Cwd e |}.

Definition normalizePathname (e : Event) : Event :=
  if negb (isPathBackedEvent (Type_ e)) || negb (pathUnavailable (Pathname e)) then e
  else if Inode e =? 0 then e
  else set_Pathname e ("inode://" +:+ pretty (DevMajor e) +:+ ":" +:+ pretty (DevMinor e)
                       +:+ "/" +:+ pretty (Inode e)).

(** The error of [ParseRawEvent]: the length found and the length needed. *)
Inductive parse_error := EventTooShort (got need : nat).

Definition ParseRawEvent (data : list Z) : parse_error + Event :=
  if (length data <? eventTotalSize)%nat
  then inl (EventTooShort (length data) eventTotalSize)
  else inr (normalizePathname
    {| Type_ := Uint32 0 data; Flags := Uint32 4 data; TimestampNS := Uint64 8 data;
       PID := Uint32 16 data; TID := Uint32 20 data; PPID := Uint32 24 data;
       UID := Uint32 28 data; GID := Uint32 32 data;
       Inode := Uint64 36 data; DevMajor := Uint32 44 data; DevMinor := Uint32 48 data;
       Mode := Uint32 52 data; FFlags := Uint32 56 data; ChildPID := Uint32 36 data;
       SampleHookID := Uint32 60 data; SampleCount := Uint32 64 data;
       Saddr := Uint32 36 data; Daddr := Uint32 40 data;
       Sport := Uint16 44 data; Dport := Uint16 46 data;
       Protocol := nth 48 data 0;
       Comm := cString (slice 68 16 data); Pathname := cString (slice 84 256 data);
       ExePath := ""; Cmdline := ""; CmdlineSource := ""; Cwd := "" |}).

(** ** The producer's side: [struct event] of the kernel header *)

Inductive payload :=
| PFile (inode dev_major dev_minor mode f_flags : Z)
| PFork (child_pid : Z)
| PNet (saddr daddr sport dport protocol : Z).

Record kevent := {
  k_type : Z; k_flags : Z; k_timestamp_ns : Z;
  k_pid : Z; k_tid : Z; k_ppid : Z; k_uid : Z; k_gid : Z;
  k_payload : payload;
  k_sample_hook_id : Z; k_sample_count : Z;
  k_comm : list Z; k_pathname : list Z;
}.

Fixpoint le_bytes (n : nat) (v : Z) : list Z :=
  match n with O => [] | S n' => v `mod` 256 :: le_bytes n' (v / 256) end.

(** The union is 24 bytes; what a shorter payload does not cover is zero. *)
Definition encode_payload (p : payload) : list Z :=
  match p with
  | PFile i ma mi mo fl =>
      le_bytes 8 i ++ le_bytes 4 ma ++ le_bytes 4 mi ++ le_bytes 4 mo ++ le_bytes 4 fl
  | PFork c => le_bytes 4 c ++ replicate 20 0
  | PNet s d sp dp pr =>
      le_bytes 4 s ++ le_bytes 4 d ++ le_bytes 2 sp ++ le_bytes 2 dp ++ le_bytes 1 pr
      ++ replicate 11 0
  end.

(** A C string in a fixed-size buffer. *)
Definition pad (n : nat) (s : list Z) : list Z := s ++ replicate (n - length s) 0.

Definition encode (k : kevent) : list Z :=
  le_bytes 4 (k_type k) ++ le_bytes 4 (k_flags k) ++ le_bytes 8 (k_timestamp_ns k)
  ++ le_bytes 4 (k_pid k) ++ le_bytes 4 (k_tid k) ++ le_bytes 4 (k_ppid k)
  ++ le_bytes 4 (k_uid k) ++ le_bytes 4 (k_gid k)
  ++ encode_payload (k_payload k)
  ++ le_bytes 4 (k_sample_hook_id k) ++ le_bytes 4 (k_sample_count k)
  ++ pad 16 (k_comm k) ++ pad 256 (k_pathname k).

(** Fields within the widths of the C types; strings fit their buffers and
    hold no NUL. *)
Definition u32_ok (v : Z) : Prop := 0 <= v < 2 ^ 32.
Definition u64_ok (v : Z) : Prop := 0 <= v < 2 ^ 64.
Definition cstr_ok (n : nat) (s : list Z) : Prop :=
  (length s <= n)%nat /\ Forall (fun b => 0 < b < 256) s.

Definition payload_ok (p : payload) : Prop :=
  match p with
  | PFile i ma mi mo fl => u64_ok i /\ u32_ok ma /\ u32_ok mi /\ u32_ok mo /\ u32_ok fl
  | PFork c => u32_ok c
  | PNet s d sp dp pr =>
      u32_ok s /\ u32_ok d /\ 0 <= sp < 2 ^ 16 /\ 0 <= dp < 2 ^ 16 /\ 0 <= pr < 2 ^ 8
  end.

Record kevent_ok (k : kevent) : Prop := {
  ok_type : u32_ok (k_type k); ok_flags : u32_ok (k_flags k);
  ok_ts : u64_ok (k_timestamp_ns k);
  ok_pid : u32_ok (k_pid k); ok_tid : u32_ok (k_tid k); ok_ppid : u32_ok (k_ppid k);
  ok_uid : u32_ok (k_uid k); ok_gid : u32_ok (k_gid k);
  ok_payload : payload_ok (k_payload k);
  ok_hook : u32_ok (k_sample_hook_id k); ok_count : u32_ok (k_sample_count k);
  ok_comm : cstr_ok 16 (k_comm k); ok_path : cstr_ok 256 (k_pathname k);
}.

(** What the decoder must recover from the payload. *)
Definition payload_matches (p : payload) (e : Event) : Prop :=
  match p with
  | PFile i ma mi mo fl =>
      Inode e = i /\ DevMajor e = ma /\ DevMinor e = mi /\ Mode e = mo /\ FFlags e = fl
  | PFork c => ChildPID e = c
  | PNet s d sp dp pr =>
      Saddr e = s /\ Daddr e = d /\ Sport e = sp /\ Dport e = dp /\ Protocol e = pr
  end.

(** ** Lemmas *)

Lemma le_bytes_app n m v :
  le_bytes (n + m) v = le_bytes n v ++ le_bytes m (v / 256 ^ Z.of_nat n).
Proof.
  revert v. induction n as [|n IH]; intros v; simpl.
  - by rewrite Z.div_1_r.
  - f_equal. rewrite IH. do 2 f_equal. rewrite Z.div_div by lia.
    f_equal. replace (Z.of_nat (S n)) with (1 + Z.of_nat n) by lia.
    rewrite Z.pow_add_r by lia. done.
Qed.

Lemma le_Z_bytes n v : 0 <= v < 256 ^ Z.of_nat n -> le_Z (le_bytes n v) = v.
Proof.
  revert v. induction n as [|n IH]; intros v Hv; simpl in *.
  - lia.
  - rewrite IH.
    + pose proof (Z.div_mod v 256). lia.
    + replace (Z.of_nat (S n)) with (1 + Z.of_nat n) in Hv by lia.
      rewrite Z.pow_add_r in Hv by lia.
      split; [apply Z.div_pos; lia|apply Z.div_lt_upper_bound; lia].
Qed.

Lemma cbytes_app_nul l k : Forall (fun b => 0 < b < 256) l -> cbytes (l ++ 0 :: k) = l.
Proof. induction 1 as [|b l Hb _ IH]; simpl; [done|]. rewrite IH. by destruct (Z.eqb_spec b 0); [lia|]. Qed.

Lemma cbytes_no_nul l : Forall (fun b => 0 < b < 256) l -> cbytes l = l.
Proof. induction 1 as [|b l Hb _ IH]; simpl; [done|]. rewrite IH. by destruct (Z.eqb_spec b 0); [lia|]. Qed.

Lemma cbytes_pad n s : cstr_ok n s -> cbytes (pad n s) = s.
Proof.
  intros [Hlen Hs]. unfold pad. destruct (n - length s)%nat; simpl.
  - rewrite app_nil_r. by apply cbytes_no_nul.
  - by apply cbytes_app_nul.
Qed.

Lemma length_pad n s : (length s <= n)%nat -> length (pad n s) = n.
Proof. intros. unfold pad. rewrite length_app, length_replicate. lia. Qed.

Lemma length_le_bytes n v : length (le_bytes n v) = n.
Proof. revert v. induction n; intros; simpl; [done|]. by rewrite IHn. Qed.

Lemma length_encode_payload p : length (encode_payload p) = 24%nat.
Proof. destruct p; done. Qed.

Lemma length_encode k :
  cstr_ok 16 (k_comm k) -> cstr_ok 256 (k_pathname k) -> length (encode k) = 340%nat.
Proof.
  intros [H1 _] [H2 _]. unfold encode.
  rewrite !length_app, !length_le_bytes, length_encode_payload, !length_pad by done. done.
Qed.

(** A slice that lies inside the second part, and one that is the first. *)
Lemma slice_skip off n l1 l2 :
  (length l1 <= off)%nat -> slice off n (l1 ++ l2) = slice (off - length l1) n l2.
Proof. intros. unfold slice. by rewrite drop_app_ge. Qed.

Lemma slice_head n l1 l2 : length l1 = n -> slice 0 n (l1 ++ l2) = l1.
Proof. intros <-. unfold slice. rewrite drop_0. apply take_app_length. Qed.

Lemma slice_all n l : length l = n -> slice 0 n l = l.
Proof. intros <-. unfold slice. rewrite drop_0. by rewrite take_ge. Qed.

(** Walks a slice through a concatenation of parts of known lengths. *)
Ltac slice_walk :=
  repeat (rewrite slice_skip by (rewrite ?length_le_bytes, ?length_encode_payload,
                                   ?length_pad by done; lia));
  rewrite ?length_le_bytes, ?length_encode_payload, ?length_pad by done;
  cbn [Nat.sub];
  first [rewrite slice_head by (rewrite ?length_le_bytes, ?length_pad by done; done)
        | rewrite slice_all by (rewrite ?length_le_bytes, ?length_pad by done; done)].

Lemma normalize_keeps e :
  (Type_ (normalizePathname e), Flags (normalizePathname e), TimestampNS (normalizePathname e),
   PID (normalizePathname e), TID (normalizePathname e), PPID (normalizePathname e),
   UID (normalizePathname e), GID (normalizePathname e), Comm (normalizePathname e),
   SampleHookID (normalizePathname e), SampleCount (normalizePathname e)) =
  (Type_ e, Flags e, TimestampNS e, PID e, TID e, PPID e, UID e, GID e, Comm e,
   SampleHookID e, SampleCount e).
Proof. unfold normalizePathname. by repeat case_match. Qed.

Lemma normalize_Pathname e :
  Pathname (normalizePathname e)
  = Pathname (normalizePathname (set_Pathname (normalizePathname e) (Pathname e))).
Proof.
  destruct e. unfold normalizePathname; cbn.
  repeat (case_match; cbn in *; try congruence).
Qed.

Lemma normalize_payload p e : payload_matches p (normalizePathname e) <-> payload_matches p e.
Proof. unfold normalizePathname. by repeat case_match; destruct p. Qed.

Lemma slice_in off n l1 l2 :
  (off + n <= length l1)%nat -> slice off n (l1 ++ l2) = slice off n l1.
Proof.
  intros. unfold slice. rewrite drop_app_le by lia. apply take_app_le.
  rewrite length_drop. lia.
Qed.

(** The bytes [36, 60) of a record are its payload. *)
Lemma slice_payload k off n :
  (36 <= off)%nat -> (off + n <= 60)%nat ->
  slice off n (encode k) = slice (off - 36) n (encode_payload (k_payload k)).
Proof.
  intros. unfold encode.
  repeat (rewrite slice_skip by (rewrite ?length_le_bytes; lia)).
  rewrite ?length_le_bytes. rewrite slice_in by (rewrite length_encode_payload; lia).
  f_equal. lia.
Qed.

Lemma nth_slice n (l : list Z) d : (n < length l)%nat -> nth n l d = le_Z (slice n 1 l).
Proof.
  revert n. induction l as [|x l IH]; intros [|n] Hn; try (simpl in Hn; lia).
  - unfold slice. rewrite drop_0, firstn_cons, take_0. cbn [nth le_Z]. lia.
  - simpl in Hn. cbn [nth]. rewrite IH by lia. done.
Qed.

Section decode.
Variable k : kevent.
Hypothesis Hk : kevent_ok k.

Let raw := encode k.

Lemma raw_length : length raw = 340%nat.
Proof. apply length_encode; apply Hk. Qed.

Lemma header_fields :
  Uint32 0 raw = k_type k /\ Uint32 4 raw = k_flags k /\ Uint64 8 raw = k_timestamp_ns k /\
  Uint32 16 raw = k_pid k /\ Uint32 20 raw = k_tid k /\ Uint32 24 raw = k_ppid k /\
  Uint32 28 raw = k_uid k /\ Uint32 32 raw = k_gid k.
Proof.
  subst raw. unfold encode, Uint32, Uint64. destruct Hk.
  split_and!; slice_walk; apply le_Z_bytes; assumption.
Qed.

Lemma trailer_fields :
  Uint32 60 raw = k_sample_hook_id k /\ Uint32 64 raw = k_sample_count k /\
  cString (slice 68 16 raw) = string_of_bytes (k_comm k) /\
  cString (slice 84 256 raw) = string_of_bytes (k_pathname k).
Proof.
  subst raw. destruct Hk. destruct ok_comm0 as [Hc1 Hc2], ok_path0 as [Hp1 Hp2].
  unfold encode, Uint32, cString. split_and!; slice_walk.
  - by apply le_Z_bytes.
  - by apply le_Z_bytes.
  - by rewrite cbytes_pad.
  - by rewrite cbytes_pad.
Qed.

Lemma payload_fields :
  match k_payload k with
  | PFile i ma mi mo fl =>
      Uint64 36 raw = i /\ Uint32 44 raw = ma /\ Uint32 48 raw = mi /\
      Uint32 52 raw = mo /\ Uint32 56 raw = fl
  | PFork c => Uint32 36 raw = c
  | PNet s d sp dp pr =>
      Uint32 36 raw = s /\ Uint32 40 raw = d /\ Uint16 44 raw = sp /\ Uint16 46 raw = dp /\
      nth 48 raw 0 = pr
  end.
Proof.
  pose proof raw_length as Hlen. pose proof (ok_payload k Hk) as Hp.
  subst raw. unfold Uint16, Uint32, Uint64. rewrite nth_slice by lia.
  rewrite !slice_payload by lia. cbn [Nat.sub].
  destruct (k_payload k); simpl in Hp; unfold encode_payload;
    repeat match goal with H : _ /\ _ |- _ => destruct H end;
    split_and?; slice_walk; apply le_Z_bytes; first [assumption|split; assumption].
Qed.
End decode.

(** Decoding inverts the kernel's record layout.  For every record whose
    fields fit their C types, [ParseRawEvent] accepts the 340 bytes of
    [struct event] and returns the header fields, the payload of the union
    member that was written (file, fork or net), the sample fields and the
    command name unchanged, and the path name up to [normalizePathname]. *)
Lemma parse_encode (k : kevent) (Hk : kevent_ok k) :
  exists e, ParseRawEvent (encode k) = inr e /\
    Type_ e = k_type k /\ Flags e = k_flags k /\ TimestampNS e = k_timestamp_ns k /\
    PID e = k_pid k /\ TID e = k_tid k /\ PPID e = k_ppid k /\
    UID e = k_uid k /\ GID e = k_gid k /\
    payload_matches (k_payload k) e /\
    SampleHookID e = k_sample_hook_id k /\ SampleCount e = k_sample_count k /\
    Comm e = string_of_bytes (k_comm k) /\
    Pathname e = Pathname (normalizePathname (set_Pathname e (string_of_bytes (k_pathname k)))).
Proof.
  destruct (header_fields k Hk) as (H1 & H2 & H3 & H4 & H5 & H6 & H7 & H8).
  destruct (trailer_fields k Hk) as (T1 & T2 & T3 & T4).
  pose proof (payload_fields k Hk) as HP.
  pose proof (raw_length k Hk) as Hlen. revert H1 H2 H3 H4 H5 H6 H7 H8 T1 T2 T3 T4 HP Hlen.
  generalize (encode k) as raw. intros.
  eexists. split; [unfold ParseRawEvent; by rewrite Hlen|].
  match goal with |- context [normalizePathname ?e] => set (e0 := e) end.
  pose proof (normalize_keeps e0) as Hn. injection Hn as -> -> -> -> -> -> -> -> -> -> ->.
  split_and!; try assumption.
  - apply normalize_payload. by destruct (k_payload k).
  - rewrite <-T4. apply normalize_Pathname.
Qed.

Definition sample_kevent : kevent :=
  {| k_type := 12; k_flags := 2; k_timestamp_ns := 123456789012; k_pid := 100; k_tid := 100;
     k_ppid := 1; k_uid := 1000; k_gid := 100; k_payload := PFile 4242 8 3 33188 577;
     k_sample_hook_id := 0; k_sample_count := 0;
     k_comm := [98; 97; 115; 104]; k_pathname := [47; 116; 109; 112; 47; 120] |}.

Lemma sample_kevent_ok : kevent_ok sample_kevent.
Proof. split; unfold u32_ok, u64_ok, cstr_ok; simpl; repeat split; try lia; repeat constructor; lia. Qed.

Lemma parse_encode_witness :
  exists e, ParseRawEvent (encode sample_kevent) = inr e /\ Inode e = 4242 /\ Comm e = "bash".
Proof.
  destruct (parse_encode sample_kevent sample_kevent_ok)
    as (e & He & _ & _ & _ & _ & _ & _ & _ & _ & Hp & _ & _ & Hc & _).
  exists e. split; [exact He|]. split; [apply Hp|exact Hc].
Defined.

(** The decoder fails exactly on short records. *)
Lemma parse_error_iff (data : list Z) :
  ParseRawEvent data = inl (EventTooShort (length data) eventTotalSize)
    <-> (length data < eventTotalSize)%nat.
Proof.
  unfold ParseRawEvent. destruct (Nat.ltb_spec (length data) eventTotalSize).
  - done.
  - split; [done|lia].
Qed.
