(* ===== verification/ProvGraph.v ===== *)
(** * The provenance graph ([internal/engine/provenance]): data and operations.

    [Node], [Edge] and [Graph] are the structs of [node.go], [edge.go] and
    [graph.go]; the trackers are those of [version.go], [credential.go] and
    [identity.go].  A [*Node] held by an operation always denotes the node
    stored under its identifier in [Graph.nodes], so an update through the
    pointer is an update of that map entry.  Mutexes (each operation holds
    [g.mu] throughout), log output and the metrics gauges are not part of the
    state.  The invariants are in [ProvInv]. *)
From S2P Require Import Prelude GoStrings Events.
From Stdlib Require Import Ascii.

(** ** PROV vocabulary ([prov.go]) *)

Definition ProvActivity : string := "prov:Activity".
Definition ProvEntity : string := "prov:Entity".

Definition ProvUsed : string := "prov:used".
Definition ProvWasGeneratedBy : string := "prov:wasGeneratedBy".
Definition ProvWasInformedBy : string := "prov:wasInformedBy".
Definition ProvWasDerivedFrom : string := "prov:wasDerivedFrom".
Definition ProvHadSecurityContext : string := "prov:hadSecurityContext".

Definition SubProcess : string := "process".
Definition SubFile : string := "file".
Definition SubNet : string := "network".
Definition SubCredential : string := "credential".

(** ** Identifiers ([prov.go]) *)

(** The operands of [fmt.Sprint] in node identifiers. *)
Inductive part := PNum (n : Z) | PStr (s : string).

Definition Sprint (p : part) : string :=
  match p with PNum n => pretty n | PStr s => s end.

Definition nodeID (kind : string) (parts : list part) : string :=
  foldl (fun s p => s +:+ ":" +:+ Sprint p) kind parts.

(** FNV-1a, 64 bits. *)
Definition hashStr (s : string) : Z :=
  foldl (fun h c => u64 (Z.lxor h c * 1099511628211)) 14695981039346656037 (bytes_of_string s).

Definition NodeIDProcess (pid : Z) : string := nodeID "p" [PNum pid].
Definition NodeIDFile (inode major minor : Z) : string :=
  nodeID "f" [PNum inode; PNum major; PNum minor].
Definition NodeIDFilePath (path : string) : string :=
  nodeID "f" [PStr "path"; PNum (hashStr path)].

Definition xml_ok (b : Z) : bool :=
  cont 97 122 b || cont 65 90 b || cont 48 57 b || (b =? 95) || (b =? 45) || (b =? 58).

Definition sanitize (c : ascii) : ascii :=
  if xml_ok (byteval c) then c else "_"%char.

Definition edgeID (relation source target : string) : string :=
  let raw := relation +:+ ":" +:+ source +:+ "->" +:+ target in
  String.string_of_list_ascii (take 80 (sanitize <$> chars raw)).

(** ** Attribute values *)

Inductive attr := AStr (s : string) | AU32 (n : Z) | AU64 (n : Z) | ABool (b : bool).

#[global] Instance attr_eq_dec : EqDecision attr.
Proof. solve_decision. Defined.

(** [%o] and [%x] of an unsigned value. *)
Definition digit_char (d : Z) : ascii :=
  byte_ascii (if d <? 10 then 48 + d else 87 + d).

Fixpoint radix_go (fuel : nat) (base n : Z) (acc : list ascii) : list ascii :=
  match fuel with
  | O => acc
  | S fuel =>
      let acc' := digit_char (n `mod` base) :: acc in
      if n / base =? 0 then acc' else radix_go fuel base (n / base) acc'
  end.

(** 22 octal digits and 16 hexadecimal digits hold a 64-bit value. *)
Definition octal (n : Z) : string := String.string_of_list_ascii (radix_go 22 8 n []).
Definition hex (n : Z) : string := String.string_of_list_ascii (radix_go 16 16 n []).

(** ** Nodes ([node.go]) *)

Module Node.
Record t := mk {
  ID : string;
  ProvType : string;
  Subtype : string;
  Label : string;
  FirstSeen : time;
  LastSeen : time;
  Attributes : gmap string attr;
}.

Definition newNode (id provType subtype label : string) (ts : time) : t :=
  mk id provType subtype label ts ts ∅.

Definition set_attrs (f : gmap string attr -> gmap string attr) (n : t) : t :=
  mk (ID n) (ProvType n) (Subtype n) (Label n) (FirstSeen n) (LastSeen n) (f (Attributes n)).

Definition set_Label (l : string) (n : t) : t :=
  mk (ID n) (ProvType n) (Subtype n) l (FirstSeen n) (LastSeen n) (Attributes n).

Definition touch (ts : time) (n : t) : t :=
  if time_After ts (LastSeen n)
  then mk (ID n) (ProvType n) (Subtype n) (Label n) (FirstSeen n) ts (Attributes n)
  else n.

(** First write wins. *)
Definition setAttr (k : string) (v : attr) (n : t) : t :=
  match Attributes n !! k with
  | Some _ => n
  | None => set_attrs <[k := v]> n
  end.

Definition upsertAttr (k : string) (v : attr) (n : t) : t := set_attrs <[k := v]> n.
End Node.

(** ** Edges ([edge.go]) *)

Module Edge.
Record t := mk {
  ID : string;
  Source : string;
  Target : string;
  Relation : string;
  Timestamp : time;
  Count : Z;
  Attributes : gmap string attr;
}.

Definition newEdge (id relation source target : string) (ts : time) : t :=
  mk id source target relation ts 1 ∅.

(** [Count] is an [int] (64 bits). *)
Definition merge (ts : time) (e : t) : t :=
  mk (ID e) (Source e) (Target e) (Relation e)
     (if time_After ts (Timestamp e) then ts else Timestamp e)
     (i64 (Count e + 1)) (Attributes e).

Definition set_attrs (m : gmap string attr) (e : t) : t :=
  mk (ID e) (Source e) (Target e) (Relation e) (Timestamp e) (Count e) m.
End Edge.

(** ** Version tracker ([version.go]) *)

Record VersionTracker := { latest : gmap string Z; created : gmap string bool }.

Definition NewVersionTracker : VersionTracker := {| latest := ∅; created := ∅ |}.

Definition versionedID (baseID : string) (version : Z) : string :=
  baseID +:+ "#v" +:+ pretty version.

(** Reading a missing key of a Go map gives the zero value. *)
Definition latest_of (vt : VersionTracker) (baseID : string) : Z :=
  default 0 (latest vt !! baseID).

Definition InitVersion (baseID : string) (vt : VersionTracker) : VersionTracker * string :=
  let vt' := match latest vt !! baseID with
             | Some _ => vt
             | None => {| latest := <[baseID := 1]> (latest vt); created := created vt |}
             end in
  (vt', versionedID baseID (latest_of vt' baseID)).

Definition NextVersion (baseID : string) (vt : VersionTracker)
  : VersionTracker * string * string :=
  let prev0 := latest_of vt baseID in
  let '(prev, lat) :=
    if prev0 =? 0 then (1, <[baseID := 1]> (latest vt)) else (prev0, latest vt) in
  let prevID := versionedID baseID prev in
  let next := i64 (default 0 (lat !! baseID) + 1) in
  let newID := versionedID baseID next in
  ({| latest := <[baseID := next]> lat; created := <[newID := true]> (created vt) |},
   prevID, newID).

Definition LatestVersion (vt : VersionTracker) (baseID : string) : string :=
  let ver := latest_of vt baseID in
  versionedID baseID (if ver =? 0 then 1 else ver).

Definition IsVersioned (vt : VersionTracker) (id : string) : bool :=
  default false (created vt !! id).

Definition StripVersion (id : string) : string :=
  match last_index_byte "#"%char (chars id) with
  | Some i => String.string_of_list_ascii (take i (chars id))
  | None => id
  end.

(** ** Credential tracker ([credential.go]) *)

Record SecurityContext := mkSecurityContext {
  sc_PID : Z; sc_UID : Z; sc_EUID : Z; sc_HasSetuid : bool; sc_PrevUID : Z;
}.

Definition CredTracker := gmap Z SecurityContext.

Definition is_setuid (evt : Event) : bool :=
  negb (Z.land (Flags evt) EventFlagExecSetuid =? 0).

(** The new tracker state, the credential node identifier ([""] when no
    setuid transition occurred) and the previous UID. *)
Definition OnExec (evt : Event) (ts : time) (ct : gmap Z SecurityContext)
  : gmap Z SecurityContext * string * Z :=
  let pid := PID evt in
  let prev := ct !! pid in
  let ct' := <[pid := mkSecurityContext pid (UID evt) (UID evt) (is_setuid evt) 0]> ct in
  if negb (is_setuid evt) then (ct', "", 0)
  else (ct', "c:" +:+ pretty pid +:+ ":" +:+ pretty (time_UnixNano ts),
        match prev with Some p => sc_UID p | None => 0 end).

(** ** Process store ([identity.go]) *)

Record ProcessStore := { parentOf : gmap Z Z; knownPIDs : gmap Z bool }.

Definition NewProcessStore : ProcessStore := {| parentOf := ∅; knownPIDs := ∅ |}.

Definition RecordFork (parentPID childPID : Z) (ps : ProcessStore) : ProcessStore :=
  {| parentOf := <[childPID := parentPID]> (parentOf ps);
     knownPIDs := <[childPID := true]> (<[parentPID := true]> (knownPIDs ps)) |}.

Definition RecordProcess (pid : Z) (ps : ProcessStore) : ProcessStore :=
  {| parentOf := parentOf ps; knownPIDs := <[pid := true]> (knownPIDs ps) |}.

Definition ResolveParent (ps : ProcessStore) (pid : Z) : Z := default 0 (parentOf ps !! pid).

Definition IsOrphan (ps : ProcessStore) (pid : Z) : bool :=
  match parentOf ps !! pid with
  | Some parent => negb (default false (knownPIDs ps !! parent))
  | None => true
  end.

Definition unknownParentID : string := "p:0:unknown_parent".

Definition ProcessNodeID (pid : Z) : string := nodeID "p" [PNum pid].

Definition inherited_keys : list string :=
  ["identity"; "session_id"; "source_ip"; "auth_method"; "taint"; "monitor_level"].

Definition InheritParentContext (parent child : Node.t) : Node.t :=
  Node.set_attrs
    (fun m => foldl (fun m key => match Node.Attributes parent !! key with
                                  | Some v => <[key := v]> m
                                  | None => m
                                  end) m inherited_keys)
    child.

(** ** The graph ([graph.go]) *)

Record Graph := mkGraph {
  nodes : gmap string Node.t;
  edges : gmap string Edge.t;
  edgeOrder : list string;
  firstTS : Z;
  startTime : time;
  versionTracker : VersionTracker;
  credTracker : gmap Z SecurityContext;
  procStore : ProcessStore;
}.

Definition NewGraph (now : time) : Graph :=
  mkGraph ∅ ∅ [] 0 now NewVersionTracker ∅ NewProcessStore.

Definition set_nodes (f : gmap string Node.t -> gmap string Node.t) (g : Graph) : Graph :=
  mkGraph (f (nodes g)) (edges g) (edgeOrder g) (firstTS g) (startTime g)
          (versionTracker g) (credTracker g) (procStore g).
Definition set_edges (m : gmap string Edge.t) (o : list string) (g : Graph) : Graph :=
  mkGraph (nodes g) m o (firstTS g) (startTime g) (versionTracker g) (credTracker g) (procStore g).
Definition set_firstTS (ts : Z) (g : Graph) : Graph :=
  mkGraph (nodes g) (edges g) (edgeOrder g) ts (startTime g)
          (versionTracker g) (credTracker g) (procStore g).
Definition set_versionTracker (vt : VersionTracker) (g : Graph) : Graph :=
  mkGraph (nodes g) (edges g) (edgeOrder g) (firstTS g) (startTime g) vt
          (credTracker g) (procStore g).
Definition set_credTracker (ct : gmap Z SecurityContext) (g : Graph) : Graph :=
  mkGraph (nodes g) (edges g) (edgeOrder g) (firstTS g) (startTime g)
          (versionTracker g) ct (procStore g).
Definition set_procStore (ps : ProcessStore) (g : Graph) : Graph :=
  mkGraph (nodes g) (edges g) (edgeOrder g) (firstTS g) (startTime g)
          (versionTracker g) (credTracker g) ps.

(** An update through the pointer to the node stored under [id]. *)
Definition modify (id : string) (f : Node.t -> Node.t) (g : Graph) : Graph :=
  set_nodes (alter f id) g.

Definition put_node (n : Node.t) (g : Graph) : Graph := set_nodes <[Node.ID n := n]> g.

Definition getOrCreateNode (id provType subtype label : string) (ts : time) (g : Graph) : Graph :=
  match nodes g !! id with
  | Some _ => g
  | None => set_nodes <[id := Node.newNode id provType subtype label ts]> g
  end.

Definition addEdge (relation source target : string) (ts : time)
    (attrs : gmap string attr) (g : Graph) : Graph :=
  let id := edgeID relation source target in
  match edges g !! id with
  | Some existing => set_edges (<[id := Edge.merge ts existing]> (edges g)) (edgeOrder g) g
  | None =>
      let e := Edge.set_attrs attrs (Edge.newEdge id relation source target ts) in
      set_edges (<[id := e]> (edges g)) (edgeOrder g ++ [id]) g
  end.

Definition fileID (evt : Event) : string :=
  if 0 <? Inode evt
  then nodeID "f" [PNum (Inode evt); PNum (DevMajor evt); PNum (DevMinor evt)]
  else nodeID "f" [PStr "path"; PNum (hashStr (Pathname evt))].

Definition recordFirstTS (ts : Z) (g : Graph) : Graph :=
  if (firstTS g =? 0) || (ts <? firstTS g) then set_firstTS ts g else g.

Definition nsToTime (ns : Z) (g : Graph) : time :=
  if firstTS g =? 0 then startTime g
  else time_Add (startTime g) (i64 (u64 (ns - firstTS g))).

Definition annotateProcessNode (evt : Event) (n : Node.t) : Node.t :=
  let n := Node.upsertAttr "pid" (AU32 (PID evt)) n in
  let n := Node.upsertAttr "tid" (AU32 (TID evt)) n in
  let n := Node.upsertAttr "ppid" (AU32 (PPID evt)) n in
  let n := Node.upsertAttr "uid" (AU32 (UID evt)) n in
  let n := Node.upsertAttr "gid" (AU32 (GID evt)) n in
  let n := Node.upsertAttr "comm" (AStr (Comm evt)) n in
  let n := if bool_decide (ExePath evt = "") then n
           else Node.upsertAttr "exe_path" (AStr (ExePath evt)) n in
  if bool_decide (Cmdline evt = "") then n else Node.upsertAttr "cmdline" (AStr (Cmdline evt)) n.

(** The path is present: neither empty nor ["?"]. *)
Definition has_path (evt : Event) : bool :=
  negb (bool_decide (Pathname evt = "")) && negb (bool_decide (Pathname evt = "?")).

Definition updateFileNodeAttrs (evt : Event) (n : Node.t) : Node.t :=
  let n := if has_path evt
           then Node.upsertAttr "pathname" (AStr (Pathname evt)) (Node.set_Label (Pathname evt) n)
           else n in
  let n := Node.upsertAttr "inode" (AU64 (Inode evt)) n in
  let n := Node.upsertAttr "dev_major" (AU32 (DevMajor evt)) n in
  let n := Node.upsertAttr "dev_minor" (AU32 (DevMinor evt)) n in
  let n := Node.upsertAttr "device"
             (AStr (pretty (DevMajor evt) +:+ ":" +:+ pretty (DevMinor evt))) n in
  Node.upsertAttr "mode" (AStr (octal (Mode evt))) n.

Definition getOrCreateBaseFileNode (evt : Event) (ts : time) (g : Graph) : Graph * string :=
  let baseID := fileID evt in
  let g := set_versionTracker (fst (InitVersion baseID (versionTracker g))) g in
  let versioned := LatestVersion (versionTracker g) baseID in
  let g := getOrCreateNode versioned ProvEntity SubFile (Pathname evt) ts g in
  let g := modify versioned (updateFileNodeAttrs evt) g in
  (modify versioned (Node.touch ts) g, versioned).

Definition createNextFileVersion (evt : Event) (ts : time) (g : Graph)
  : Graph * string * string :=
  let baseID := fileID evt in
  let '(vt, prevID, newID) := NextVersion baseID (versionTracker g) in
  let g := set_versionTracker vt g in
  let g := getOrCreateNode prevID ProvEntity SubFile (Pathname evt) ts g in
  let g := modify prevID (updateFileNodeAttrs evt) g in
  let g := modify prevID (Node.touch ts) g in
  let n := updateFileNodeAttrs evt (Node.newNode newID ProvEntity SubFile (Pathname evt) ts) in
  let n := Node.upsertAttr "version" (AStr (LatestVersion (versionTracker g) baseID)) n in
  let g := set_nodes <[newID := n]> g in
  let g := if bool_decide (prevID = newID) then g
           else addEdge ProvWasDerivedFrom newID prevID ts ∅ g in
  (g, prevID, newID).

Definition EnsureParentNode (pid : Z) (ts : time) (g : Graph) : Graph :=
  let parentPID := ResolveParent (procStore g) pid in
  if parentPID =? 0 then
    getOrCreateNode unknownParentID ProvActivity SubProcess "unknown_parent" ts g
  else
    match nodes g !! ProcessNodeID parentPID with
    | Some _ => g
    | None =>
        let g := getOrCreateNode unknownParentID ProvActivity SubProcess "unknown_parent" ts g in
        modify unknownParentID (Node.upsertAttr "original_parent_pid" (AU32 parentPID)) g
    end.

(** *** Event handlers.  [start_time pid] is what [readStartTime] returns for
    [pid]: the start time in [/proc/<pid>/stat], 0 when it cannot be read. *)
Section handlers.
Context (start_time : Z -> Z).

Definition set_start_time (pid : Z) (n : Node.t) : Node.t :=
  if start_time pid =? 0 then n else Node.setAttr "start_time" (AU64 (start_time pid)) n.

Definition addFork (evt : Event) (ts : time) (g : Graph) : Graph :=
  let g := set_procStore (RecordFork (PID evt) (ChildPID evt) (procStore g)) g in
  let parentID := ProcessNodeID (PID evt) in
  let childID := ProcessNodeID (ChildPID evt) in
  let g := getOrCreateNode parentID ProvActivity SubProcess (Comm evt) ts g in
  let g := modify parentID (Node.setAttr "pid" (AU32 (PID evt))) g in
  let g := modify parentID (Node.setAttr "uid" (AU32 (UID evt))) g in
  let g := modify parentID (set_start_time (PID evt)) g in
  let g := modify parentID (Node.touch ts) g in
  let g := getOrCreateNode childID ProvActivity SubProcess (Comm evt) ts g in
  let g := modify childID (Node.setAttr "pid" (AU32 (ChildPID evt))) g in
  let g := modify childID (set_start_time (ChildPID evt)) g in
  let g := modify childID (Node.touch ts) g in
  let g := match nodes g !! parentID with
           | Some parent => modify childID (InheritParentContext parent) g
           | None => g
           end in
  addEdge ProvWasInformedBy childID parentID ts
    (list_to_map [("pid", AU32 (PID evt)); ("child_pid", AU32 (ChildPID evt));
                  ("event", AStr (EventType_String (Type_ evt))); ("comm", AStr (Comm evt))]) g.

Definition addCredential (evt : Event) (ts : time) (procID credID : string) (prevUID : Z)
    (g : Graph) : Graph :=
  let g := modify procID (Node.upsertAttr "credential" (AStr credID)) g in
  let credNode := Node.newNode credID ProvEntity SubCredential
                    ("setuid: " +:+ pretty prevUID +:+ "→" +:+ pretty (UID evt)) ts in
  let credNode := Node.setAttr "pid" (AU32 (PID evt)) credNode in
  let credNode := Node.setAttr "prev_uid" (AU32 prevUID) credNode in
  let credNode := Node.setAttr "new_uid" (AU32 (UID evt)) credNode in
  let g := set_nodes <[credID := credNode]> g in
  addEdge ProvHadSecurityContext procID credID ts
    (list_to_map [("prev_uid", AU32 prevUID); ("new_uid", AU32 (UID evt));
                  ("event", AStr (EventType_String (Type_ evt)));
                  ("pid", AU32 (PID evt)); ("comm", AStr (Comm evt))]) g.

Definition addExec (evt : Event) (ts : time) (g : Graph) : Graph :=
  let procID := ProcessNodeID (PID evt) in
  let g := getOrCreateNode procID ProvActivity SubProcess (Comm evt) ts g in
  let g := modify procID (Node.set_Label (Comm evt)) g in
  let g := modify procID (annotateProcessNode evt) g in
  let g := modify procID (set_start_time (PID evt)) g in
  let g := if is_setuid evt then modify procID (Node.upsertAttr "setuid" (ABool true)) g else g in
  let g := modify procID (Node.touch ts) g in
  let g := EnsureParentNode (PID evt) ts g in
  let '(ct, credID, prevUID) := OnExec evt ts (credTracker g) in
  let g := set_credTracker ct g in
  let g := if bool_decide (credID = "") then g
           else addCredential evt ts procID credID prevUID g in
  if has_path evt then
    let '(g, fid) := getOrCreateBaseFileNode evt ts g in
    let g := modify fid (Node.touch ts) g in
    addEdge ProvUsed procID fid ts
      (list_to_map [("type", AStr "exec"); ("event", AStr (EventType_String (Type_ evt)));
                    ("pid", AU32 (PID evt)); ("comm", AStr (Comm evt));
                    ("cmdline", AStr (Cmdline evt)); ("path", AStr (Pathname evt));
                    ("inode", AU64 (Inode evt))]) g
  else g.

Definition addFileUse (evt : Event) (ts : time) (g : Graph) : Graph :=
  if negb (has_path evt) then g else
  let procID := ProcessNodeID (PID evt) in
  let g := getOrCreateNode procID ProvActivity SubProcess (Comm evt) ts g in
  let g := modify procID (annotateProcessNode evt) g in
  let g := modify procID (Node.touch ts) g in
  let '(g, fid) := getOrCreateBaseFileNode evt ts g in
  addEdge ProvUsed procID fid ts
    (list_to_map [("event", AStr (EventType_String (Type_ evt))); ("pid", AU32 (PID evt));
                  ("comm", AStr (Comm evt)); ("cmdline", AStr (Cmdline evt));
                  ("path", AStr (Pathname evt)); ("inode", AU64 (Inode evt));
                  ("f_flags", AU32 (FFlags evt))]) g.

Definition addFileGenerate (evt : Event) (ts : time) (g : Graph) : Graph :=
  if negb (has_path evt) then g else
  let procID := ProcessNodeID (PID evt) in
  let g := getOrCreateNode procID ProvActivity SubProcess (Comm evt) ts g in
  let g := modify procID (annotateProcessNode evt) g in
  let g := modify procID (Node.touch ts) g in
  let '(g, prevID, newID) := createNextFileVersion evt ts g in
  addEdge ProvWasGeneratedBy newID procID ts
    (list_to_map [("event", AStr (EventType_String (Type_ evt))); ("pid", AU32 (PID evt));
                  ("comm", AStr (Comm evt)); ("cmdline", AStr (Cmdline evt));
                  ("path", AStr (Pathname evt)); ("inode", AU64 (Inode evt));
                  ("f_flags", AU32 (FFlags evt)); ("prev", AStr prevID)]) g.

(** [addMemoryEvent] ([memory.go]): the entity's identifier, subtype and
    label, and the flag set on the process. *)
Definition memory_entity (evt : Event) : string * string * string * option string :=
  if Type_ evt =? EventMemfdCreate then
    (nodeID "memfd" [PNum (PID evt); PNum (TimestampNS evt)], "file",
     if bool_decide (Pathname evt = "") then "anonymous" else Pathname evt, Some "fileless")
  else if Type_ evt =? EventMprotectRX then
    (nodeID "rx" [PNum (Inode evt); PNum (PID evt)], "memory",
     "rw→rx @0x" +:+ hex (Inode evt), Some "shellcode")
  else if Type_ evt =? EventPipeWrite then
    (nodeID "pipe" [PNum (PID evt); PNum (TimestampNS evt)], "pipe", "pipe:write",
     Some "pipe_writer")
  else if Type_ evt =? EventPipeRead then
    (nodeID "pipe" [PNum (PID evt); PNum (TimestampNS evt)], "pipe", "pipe:read",
     Some "pipe_reader")
  else ("", "", "", None).

Definition addMemoryEvent (evt : Event) (ts : time) (g : Graph) : Graph :=
  let procID := nodeID "p" [PNum (PID evt)] in
  let ev := AStr (EventType_String (Type_ evt)) in
  let g := getOrCreateNode procID ProvActivity SubProcess (Comm evt) ts g in
  let g := modify procID (Node.upsertAttr "pid" (AU32 (PID evt))) g in
  let g := modify procID (Node.upsertAttr "uid" (AU32 (UID evt))) g in
  let g := modify procID (Node.touch ts) g in
  let g := modify procID (Node.upsertAttr "memory_op" ev) g in
  let '(entityID, subtype, label, flag) := memory_entity evt in
  let g := match flag with
           | Some k => modify procID (Node.upsertAttr k (ABool true)) g
           | None => g
           end in
  let g := getOrCreateNode entityID ProvEntity subtype label ts g in
  let g := modify entityID (Node.upsertAttr "event" ev) g in
  let g := modify entityID (Node.upsertAttr "addr" (AU64 (Inode evt))) g in
  let g := modify entityID (Node.touch ts) g in
  addEdge ProvUsed procID entityID ts
    (list_to_map [("event", ev); ("flags", AU32 (FFlags evt))]) g.

Definition dispatch (evt : Event) (ts : time) (g : Graph) : Graph :=
  let t := Type_ evt in
  if t =? EventProcessFork then addFork evt ts g
  else if t =? EventProcessExec then addExec evt ts g
  else if t =? EventFileOpen then addFileUse evt ts g
  else if (t =? EventFileCreate) || (t =? EventFileModify) then addFileGenerate evt ts g
  else if t =? EventFileDelete then addFileUse evt ts g
  else if (t =? EventMemfdCreate) || (t =? EventMprotectRX)
          || (t =? EventPipeWrite) || (t =? EventPipeRead) then addMemoryEvent evt ts g
  else g.

Definition AddEvent (evt : Event) (g : Graph) : Graph :=
  let g := recordFirstTS (TimestampNS evt) g in
  let ts := nsToTime (TimestampNS evt) g in
  let g := if 0 <? PID evt then set_procStore (RecordProcess (PID evt) (procStore g)) g else g in
  dispatch evt ts g.
End handlers.

(** ** Queries *)

Record GraphStats := { Nodes_count : nat; Edges_count : nat }.
Definition Stats (g : Graph) : GraphStats :=
  {| Nodes_count := size (nodes g); Edges_count := size (edges g) |}.

Definition LookupNode (g : Graph) (id : string) : option Node.t := nodes g !! id.

(** Edges in insertion order. *)
Definition Edges (g : Graph) : list Edge.t := omap (fun id => edges g !! id) (edgeOrder g).
