(* ===== verification/ProvInv.v ===== *)
(** * Invariants of the provenance graph.

    [wf] is the structural invariant of [Graph]: map keys agree with the
    identifiers stored in the values, [edgeOrder] enumerates the edge map
    without repetition, edges never dangle, life times are ordered, and the
    W3C PROV typing of nodes and relations holds.  Every handler is a
    composition of a few primitive updates, so the invariant is proved once
    per primitive and collected in the hint database [prov]. *)
From S2P Require Import Prelude GoStrings Events ProvGraph.
From Stdlib Require Import Ascii.

(** ** Identifier classes and PROV typing *)

(** Process identifiers are the ones with prefix ["p:"]. *)
Definition is_process_id (id : string) : bool := HasPrefix id "p:".

(** The PROV type of the node stored under an identifier. *)
Definition type_of_id (id : string) : string :=
  if is_process_id id then ProvActivity else ProvEntity.

(** W3C PROV: the types of the subject and the object of each relation. *)
Definition rel_domain (r : string) : option (string * string) :=
  if decide (r = ProvUsed) then Some (ProvActivity, ProvEntity)
  else if decide (r = ProvWasGeneratedBy) then Some (ProvEntity, ProvActivity)
  else if decide (r = ProvWasInformedBy) then Some (ProvActivity, ProvActivity)
  else if decide (r = ProvWasDerivedFrom) then Some (ProvEntity, ProvEntity)
  else if decide (r = ProvHadSecurityContext) then Some (ProvActivity, ProvEntity)
  else None.

Definition rel_ok (r s t : string) : Prop :=
  rel_domain r = Some (type_of_id s, type_of_id t).

Definition has (id : string) (g : Graph) : Prop := is_Some (nodes g !! id).

Record wf (g : Graph) : Prop := {
  wf_node_key : forall id n, nodes g !! id = Some n -> Node.ID n = id;
  wf_node_type : forall id n, nodes g !! id = Some n -> Node.ProvType n = type_of_id id;
  wf_node_time : forall id n, nodes g !! id = Some n -> Node.FirstSeen n <= Node.LastSeen n;
  wf_edge_key : forall id e, edges g !! id = Some e ->
    Edge.ID e = id /\ id = edgeID (Edge.Relation e) (Edge.Source e) (Edge.Target e);
  wf_edge_rel : forall id e, edges g !! id = Some e ->
    rel_ok (Edge.Relation e) (Edge.Source e) (Edge.Target e);
  wf_edge_ends : forall id e, edges g !! id = Some e ->
    has (Edge.Source e) g /\ has (Edge.Target e) g;
  wf_order_nodup : NoDup (edgeOrder g);
  wf_order_dom : forall id, id ∈ edgeOrder g <-> is_Some (edges g !! id);
}.

(** An update of a node that keeps its identity, its type and the order of
    its life time. *)
Definition benign (f : Node.t -> Node.t) : Prop :=
  forall n, Node.ID (f n) = Node.ID n /\ Node.ProvType (f n) = Node.ProvType n /\
    (Node.FirstSeen n <= Node.LastSeen n -> Node.FirstSeen (f n) <= Node.LastSeen (f n)).

Create HintDb prov discriminated.

(** ** Node updates are benign *)

Lemma benign_set_attrs h : benign (Node.set_attrs h).
Proof. by intros n. Qed.
Lemma benign_upsertAttr k v : benign (Node.upsertAttr k v).
Proof. by intros n. Qed.
Lemma benign_setAttr k v : benign (Node.setAttr k v).
Proof. intros n. unfold Node.setAttr. by case_match. Qed.
Lemma benign_set_Label l : benign (Node.set_Label l).
Proof. by intros n. Qed.
Lemma benign_touch ts : benign (Node.touch ts).
Proof.
  intros n. unfold Node.touch, time_After.
  destruct (Z.ltb_spec (Node.LastSeen n) ts); simpl; split_and!; done || lia.
Qed.
Lemma benign_upsert_after k v f : benign f -> benign (fun n => Node.upsertAttr k v (f n)).
Proof. intros Hf n. apply (Hf n). Qed.
Lemma benign_setAttr_after k v f : benign f -> benign (fun n => Node.setAttr k v (f n)).
Proof.
  intros Hf n. destruct (benign_setAttr k v (f n)) as (H1 & H2 & H3).
  destruct (Hf n) as (H4 & H5 & H6). rewrite H1, H2. auto.
Qed.
#[export] Hint Resolve benign_upsert_after benign_setAttr_after : prov.
#[export] Hint Resolve benign_set_attrs benign_upsertAttr benign_setAttr benign_set_Label
  benign_touch : prov.

Lemma benign_annotate evt : benign (annotateProcessNode evt).
Proof. intros n. unfold annotateProcessNode. by repeat case_match. Qed.
Lemma benign_updateFile evt : benign (updateFileNodeAttrs evt).
Proof. intros n. unfold updateFileNodeAttrs. by repeat case_match. Qed.
Lemma benign_start_time st pid : benign (set_start_time st pid).
Proof.
  intros n. unfold set_start_time. case_match; [done|]. apply benign_setAttr.
Qed.
Lemma benign_inherit p : benign (InheritParentContext p).
Proof. apply benign_set_attrs. Qed.
#[export] Hint Resolve benign_annotate benign_updateFile benign_start_time benign_inherit : prov.

(** ** Presence is monotone *)

Lemma has_modify id id' f g : has id g -> has id (modify id' f g).
Proof. unfold has, modify. simpl. rewrite lookup_alter. case_decide; [|done]. subst. by intros [? ->]. Qed.
Lemma has_getOrCreate id id' pt st l ts g : has id g -> has id (getOrCreateNode id' pt st l ts g).
Proof.
  unfold has, getOrCreateNode. case_match; [done|]. simpl.
  rewrite lookup_insert. case_decide; [by eauto|done].
Qed.
Lemma has_getOrCreate_self id pt st l ts g : has id (getOrCreateNode id pt st l ts g).
Proof. unfold has, getOrCreateNode. case_match; [by eauto|]. simpl. rewrite lookup_insert_eq. by eauto. Qed.
Lemma has_insert id id' n g : has id g -> has id (set_nodes <[id' := n]> g).
Proof. unfold has. simpl. rewrite lookup_insert. case_decide; [by eauto|done]. Qed.
Lemma has_insert_self id n g : has id (set_nodes <[id := n]> g).
Proof. unfold has. simpl. rewrite lookup_insert_eq. by eauto. Qed.
Lemma has_addEdge id r s t ts a g : has id g -> has id (addEdge r s t ts a g).
Proof. unfold has, addEdge. by case_match. Qed.
Lemma has_set_vt id vt g : has id g -> has id (set_versionTracker vt g).
Proof. done. Qed.
Lemma has_set_ct id ct g : has id g -> has id (set_credTracker ct g).
Proof. done. Qed.
Lemma has_set_ps id ps g : has id g -> has id (set_procStore ps g).
Proof. done. Qed.
Lemma has_if id (b : bool) g1 g2 : has id g1 -> has id g2 -> has id (if b then g1 else g2).
Proof. by destruct b. Qed.
#[export] Hint Resolve has_modify has_getOrCreate has_getOrCreate_self has_insert has_insert_self
  has_addEdge has_set_vt has_set_ct has_set_ps has_if : prov.

(** ** The primitives preserve [wf] *)

Lemma wf_NewGraph now : wf (NewGraph now).
Proof.
  split; simpl; intros; rewrite ?lookup_empty in *; try done.
  - constructor.
  - rewrite elem_of_nil. by split; [|intros []].
Qed.

Lemma wf_modify id f g : benign f -> wf g -> wf (modify id f g).
Proof.
  intros Hf Hg.
  assert (Hlk : forall id' n', nodes (modify id f g) !! id' = Some n' ->
    exists n, nodes g !! id' = Some n /\ (n' = n \/ n' = f n)).
  { intros id' n'. unfold modify. simpl. rewrite lookup_alter. case_decide.
    - subst. destruct (nodes g !! id'); intros; simplify_eq/=; by eauto.
    - by eauto. }
  split; try (apply Hg; done).
  - intros id' n' (n & Hn & [-> | ->])%Hlk; [|rewrite (proj1 (Hf n))]; by eapply wf_node_key.
  - intros id' n' (n & Hn & [-> | ->])%Hlk; [|rewrite (proj1 (proj2 (Hf n)))]; by eapply wf_node_type.
  - intros id' n' (n & Hn & [-> | ->])%Hlk; [|apply Hf]; by eapply wf_node_time.
  - intros id' e He. destruct (wf_edge_ends g Hg id' e He). eauto with prov.
Qed.

Lemma wf_insert id n g :
  Node.ID n = id -> Node.ProvType n = type_of_id id -> Node.FirstSeen n <= Node.LastSeen n ->
  wf g -> wf (set_nodes <[id := n]> g).
Proof.
  intros H1 H2 H3 Hg.
  split; try (apply Hg; done); simpl.
  - intros id' n'. rewrite lookup_insert. case_decide; [by intros; simplify_eq|apply Hg].
  - intros id' n'. rewrite lookup_insert. case_decide; [by intros; simplify_eq|apply Hg].
  - intros id' n'. rewrite lookup_insert. case_decide; [by intros; simplify_eq|apply Hg].
  - intros id' e He. destruct (wf_edge_ends g Hg id' e He). eauto with prov.
Qed.

Lemma wf_getOrCreate id pt st l ts g :
  pt = type_of_id id -> wf g -> wf (getOrCreateNode id pt st l ts g).
Proof.
  intros ? Hg. unfold getOrCreateNode. case_match; [done|].
  apply wf_insert; simpl; done || lia.
Qed.

(** A freshly built node after benign updates. *)
Lemma wf_insert_new id pt st l ts f g :
  benign f -> pt = type_of_id id -> wf g ->
  wf (set_nodes <[id := f (Node.newNode id pt st l ts)]> g).
Proof.
  intros Hf -> Hg. destruct (Hf (Node.newNode id (type_of_id id) st l ts)) as (H1 & H2 & H3).
  apply wf_insert; [done|done|by apply H3|done].
Qed.

Lemma wf_addEdge r s t ts a g :
  rel_ok r s t -> has s g -> has t g -> wf g -> wf (addEdge r s t ts a g).
Proof.
  intros Hr Hs Ht Hg. unfold addEdge. case_match eqn:Hid.
  - destruct (wf_edge_key g Hg _ _ Hid) as [Hk1 Hk2].
    pose proof (wf_edge_ends g Hg _ _ Hid) as Hends.
    split; try (apply Hg; done); simpl.
    + intros id' e'. rewrite lookup_insert. case_decide; [|apply Hg]. intros; by simplify_eq/=.
    + intros id' e'. rewrite lookup_insert. case_decide; [|apply Hg].
      intros; simplify_eq/=. by eapply (wf_edge_rel g Hg).
    + intros id' e'. rewrite lookup_insert. case_decide; [|apply Hg]. intros; by simplify_eq/=.
    + intros id'. rewrite (wf_order_dom g Hg), lookup_insert. case_decide; [|done].
      subst. rewrite Hid. by split.
  - split; try (apply Hg; done); simpl.
    + intros id' e'. rewrite lookup_insert. case_decide; [|apply Hg]. intros; by simplify_eq/=.
    + intros id' e'. rewrite lookup_insert. case_decide; [|apply Hg]. intros; by simplify_eq/=.
    + intros id' e'. rewrite lookup_insert. case_decide; [|apply Hg]. intros; by simplify_eq/=.
    + apply NoDup_app. split_and!; [apply Hg| |apply NoDup_singleton].
      intros id' Hin%(wf_order_dom g Hg) ->%list_elem_of_singleton. rewrite Hid in Hin. by destruct Hin.
    + intros id'. rewrite elem_of_app, list_elem_of_singleton, (wf_order_dom g Hg), lookup_insert.
      case_decide; [subst|naive_solver]. split; [by eauto|]. by right.
Qed.

Lemma wf_set_vt vt g : wf g -> wf (set_versionTracker vt g).
Proof. intros Hg. split; apply Hg. Qed.
Lemma wf_set_ct ct g : wf g -> wf (set_credTracker ct g).
Proof. intros Hg. split; apply Hg. Qed.
Lemma wf_set_ps ps g : wf g -> wf (set_procStore ps g).
Proof. intros Hg. split; apply Hg. Qed.
Lemma wf_recordFirstTS ts g : wf g -> wf (recordFirstTS ts g).
Proof. intros Hg. unfold recordFirstTS. case_match; [|done]. split; apply Hg. Qed.
Lemma wf_if (b : bool) g1 g2 : wf g1 -> wf g2 -> wf (if b then g1 else g2).
Proof. by destruct b. Qed.
#[export] Hint Resolve wf_modify wf_insert_new wf_getOrCreate wf_addEdge wf_set_vt wf_set_ct wf_set_ps
  wf_recordFirstTS wf_if : prov.

(** ** Types of the identifiers the handlers build *)

Lemma type_process pid : type_of_id (ProcessNodeID pid) = ProvActivity.
Proof.
  unfold type_of_id, is_process_id. rewrite (proj2 (HasPrefix_spec _ _)); [done|].
  by exists (pretty pid).
Qed.
Lemma type_unknown_parent : type_of_id unknownParentID = ProvActivity.
Proof. reflexivity. Qed.
Lemma type_version evt v : type_of_id (versionedID (fileID evt) v) = ProvEntity.
Proof. unfold fileID. by case_match. Qed.
Lemma type_cred (pid : Z) ns : type_of_id ("c:" +:+ pretty pid +:+ ":" +:+ ns) = ProvEntity.
Proof. reflexivity. Qed.
Lemma type_memory evt : type_of_id (fst (fst (fst (memory_entity evt)))) = ProvEntity.
Proof. unfold memory_entity. by repeat case_match. Qed.

Lemma latest_is_versioned vt b : exists v, LatestVersion vt b = versionedID b v.
Proof. unfold LatestVersion. by eexists. Qed.

#[export] Hint Resolve type_process type_unknown_parent type_version type_cred : prov.
#[export] Hint Extern 1 (_ = type_of_id _) => symmetry; solve [eauto with prov] : prov.

Lemma rel_ok_intro r s t a b :
  rel_domain r = Some (a, b) -> type_of_id s = a -> type_of_id t = b -> rel_ok r s t.
Proof. unfold rel_ok. by intros -> -> ->. Qed.

(** Solves the PROV typing side condition of an [addEdge]. *)
Ltac solve_rel :=
  eapply rel_ok_intro; [reflexivity|solve [eauto with prov]|solve [eauto with prov]].
#[export] Hint Extern 1 (rel_ok _ _ _) => solve_rel : prov.

(** ** The handlers preserve [wf] *)

Lemma baseFile_ok evt ts g :
  let '(g', fid) := getOrCreateBaseFileNode evt ts g in
  (wf g -> wf g') /\ has fid g' /\ type_of_id fid = ProvEntity /\
  (forall id, has id g -> has id g').
Proof.
  unfold getOrCreateBaseFileNode.
  match goal with |- context [LatestVersion ?vt ?b] =>
    destruct (latest_is_versioned vt b) as [v ->] end.
  split_and!; eauto 10 with prov.
Qed.

Lemma NextVersion_ids b vt :
  exists p v, snd (fst (NextVersion b vt)) = versionedID b p /\
              snd (NextVersion b vt) = versionedID b v.
Proof. unfold NextVersion. repeat case_match; simplify_eq/=; by do 2 eexists. Qed.

Lemma nextVersion_ok evt ts g :
  let '(g', prevID, newID) := createNextFileVersion evt ts g in
  (wf g -> wf g') /\ has newID g' /\ has prevID g' /\ type_of_id newID = ProvEntity /\
  (forall id, has id g -> has id g').
Proof.
  unfold createNextFileVersion.
  destruct (NextVersion_ids (fileID evt) (versionTracker g)) as (p & v & Hp & Hv).
  destruct (NextVersion _ _) as [[vt prevID] newID]; simpl in Hp, Hv; subst.
  split_and!; eauto 20 with prov.
  intros Hg. set (n := Node.upsertAttr _ _ _).
  assert (exists f, benign f /\ n = f (Node.newNode (versionedID (fileID evt) v) ProvEntity
            SubFile (Pathname evt) ts)) as (f & Hf & ->).
  { subst n. match goal with |- context [Node.upsertAttr ?k ?a _] =>
      exists (fun n => Node.upsertAttr k a (updateFileNodeAttrs evt n)) end.
    split; [eauto with prov|reflexivity]. }
  case_match; eauto 20 with prov.
Qed.

Lemma wf_EnsureParent pid ts g : wf g -> wf (EnsureParentNode pid ts g).
Proof. intros. unfold EnsureParentNode. repeat case_match; eauto with prov. Qed.
Lemma has_EnsureParent id pid ts g : has id g -> has id (EnsureParentNode pid ts g).
Proof. intros. unfold EnsureParentNode. repeat case_match; eauto with prov. Qed.
#[export] Hint Resolve wf_EnsureParent has_EnsureParent : prov.

Lemma wf_addFork st evt ts g : wf g -> wf (addFork st evt ts g).
Proof. intros. unfold addFork. case_match; eauto 30 with prov. Qed.

Lemma credential_ok evt ts procID credID u g :
  type_of_id procID = ProvActivity -> type_of_id credID = ProvEntity -> has procID g ->
  (wf g -> wf (addCredential evt ts procID credID u g)) /\
  (forall id, has id g -> has id (addCredential evt ts procID credID u g)).
Proof.
  intros. unfold addCredential. split; [|eauto 10 with prov].
  intros. apply wf_addEdge; [solve_rel|eauto with prov..|].
  apply (wf_insert_new credID ProvEntity SubCredential _ ts
    (fun n => Node.setAttr _ _ (Node.setAttr _ _ (Node.setAttr _ _ n)))); eauto with prov.
Qed.

Lemma OnExec_cred evt ts ct :
  let '(_, credID, _) := OnExec evt ts ct in
  credID = "" \/ type_of_id credID = ProvEntity.
Proof. unfold OnExec. destruct (negb (is_setuid evt)); [by left|]. right. apply type_cred. Qed.

Lemma wf_addExec st evt ts g : wf g -> wf (addExec st evt ts g).
Proof.
  intros Hg. unfold addExec.
  set (procID := ProcessNodeID (PID evt)).
  match goal with |- context [EnsureParentNode ?p ?t ?g0] => set (g1 := EnsureParentNode p t g0) end.
  assert (wf g1 /\ has procID g1) as [Hw1 Hp1].
  { subst g1. split; case_match; eauto 20 with prov. }
  pose proof (OnExec_cred evt ts (credTracker g1)) as Hcred.
  destruct (OnExec evt ts (credTracker g1)) as [[ct credID] prevUID].
  match goal with |- context [bool_decide (credID = "")] => idtac end.
  set (g2 := if bool_decide (credID = "") then _ else _).
  assert (wf g2 /\ has procID g2) as [Hw2 Hp2].
  { subst g2. case_bool_decide; [eauto with prov|].
    destruct Hcred as [|Hcred]; [done|].
    destruct (credential_ok evt ts procID credID prevUID (set_credTracker ct g1));
      eauto with prov. }
  case_match; [|done].
  pose proof (baseFile_ok evt ts g2) as Hb.
  destruct (getOrCreateBaseFileNode evt ts g2) as [g3 fid]. destruct Hb as (?&?&?&?).
  subst procID. eauto 10 with prov.
Qed.

Lemma wf_addFileUse evt ts g : wf g -> wf (addFileUse evt ts g).
Proof.
  intros Hg. unfold addFileUse. case_match; [done|].
  match goal with |- context [getOrCreateBaseFileNode _ _ ?g0] =>
    pose proof (baseFile_ok evt ts g0) as Hb;
    destruct (getOrCreateBaseFileNode evt ts g0) as [g3 fid] end.
  destruct Hb as (?&?&?&?). eauto 20 with prov.
Qed.

Lemma wf_addFileGenerate evt ts g : wf g -> wf (addFileGenerate evt ts g).
Proof.
  intros Hg. unfold addFileGenerate. case_match; [done|].
  match goal with |- context [createNextFileVersion _ _ ?g0] =>
    pose proof (nextVersion_ok evt ts g0) as Hb;
    destruct (createNextFileVersion evt ts g0) as [[g3 prevID] newID] end.
  destruct Hb as (?&?&?&?&?). eauto 20 with prov.
Qed.

Lemma wf_addMemoryEvent evt ts g : wf g -> wf (addMemoryEvent evt ts g).
Proof.
  intros Hg. unfold addMemoryEvent. pose proof (type_memory evt) as Ht.
  destruct (memory_entity evt) as [[[entityID subtype] label] flag]. simpl in Ht.
  fold (ProcessNodeID (PID evt)).
  apply wf_addEdge; [solve_rel| | |]; destruct flag; eauto 20 with prov.
Qed.
#[export] Hint Resolve wf_addFork wf_addExec wf_addFileUse wf_addFileGenerate wf_addMemoryEvent : prov.

Lemma wf_AddEvent st evt g : wf g -> wf (AddEvent st evt g).
Proof.
  intros. unfold AddEvent, dispatch.
  match goal with |- context [nsToTime ?a ?b] => generalize (nsToTime a b); intros ts end.
  repeat (match goal with |- context [if ?b then _ else _] => destruct b end); eauto with prov.
Qed.
