(* ===== verification/ProvVersions.v ===== *)
(** * File versions, edge identity and the main theorems on the graph.

    [vinv n] is the second invariant of the provenance graph, for a graph built
    from at most [n] events: version numbers are bounded, every versioned node
    belongs to a tracked file, [wasDerivedFrom] edges link consecutive versions
    of one file, and edge end points are written in the restricted alphabet that
    makes [edgeID] injective below its 80-byte limit. *)
From S2P Require Import Prelude GoStrings Events ProvGraph ProvInv.
From Stdlib Require Import Ascii.

(** ** Alphabets of identifiers *)

Definition lower_or_colon (c : ascii) : Prop :=
  (97 <= N_of_ascii c <= 122)%N \/ c = ":"%char.
#[global] Instance lower_or_colon_dec c : Decision (lower_or_colon c).
Proof. apply or_dec; [apply and_dec|]; apply _. Defined.

(** Process and base file identifiers; edge sources; edge targets. *)
Definition base_char (c : ascii) : Prop := digit c \/ lower_or_colon c.
Definition src_char (c : ascii) : Prop := base_char c \/ c = "#"%char.
Definition tgt_char (c : ascii) : Prop := src_char c \/ c = "-"%char.

#[global] Instance base_char_dec c : Decision (base_char c).
Proof. apply or_dec; apply _. Defined.
#[global] Instance src_char_dec c : Decision (src_char c).
Proof. apply or_dec; apply _. Defined.
#[global] Instance tgt_char_dec c : Decision (tgt_char c).
Proof. apply or_dec; apply _. Defined.

Definition base_id (s : string) : Prop := Forall base_char (chars s).
Definition src_id (s : string) : Prop := Forall src_char (chars s).
Definition tgt_id (s : string) : Prop := Forall tgt_char (chars s).

Definition relations : list string :=
  [ProvUsed; ProvWasGeneratedBy; ProvWasInformedBy; ProvWasDerivedFrom; ProvHadSecurityContext].

Definition edge_ids_ok (r s t : string) : Prop := r ∈ relations /\ src_id s /\ tgt_id t.

(** The text [edgeID] sanitises and truncates. *)
Definition raw_edge (r s t : string) : string := r +:+ ":" +:+ s +:+ "->" +:+ t.

(** ** The invariant *)

Record vinv (n : Z) (g : Graph) : Prop := {
  v_latest : forall b v, latest (versionTracker g) !! b = Some v ->
    1 <= v <= n + 1 /\ base_id b;
  v_nodes : forall id, has id g -> occurs "#"%char id ->
    exists b v, id = versionedID b v /\ 1 <= v <= latest_of (versionTracker g) b;
  v_derived : forall id e, edges g !! id = Some e -> Edge.Relation e = ProvWasDerivedFrom ->
    exists b v, 1 <= v /\ Edge.Source e = versionedID b (v + 1) /\ Edge.Target e = versionedID b v;
  v_edges : forall id e, edges g !! id = Some e ->
    edge_ids_ok (Edge.Relation e) (Edge.Source e) (Edge.Target e);
}.

(** The unsigned fields of an event are not negative. *)
Record event_ok (evt : Event) : Prop := {
  eok_pid : 0 <= PID evt; eok_child : 0 <= ChildPID evt; eok_inode : 0 <= Inode evt;
  eok_major : 0 <= DevMajor evt; eok_minor : 0 <= DevMinor evt;
}.

(** A history: each event with the start times read while it is added. *)
Definition history := list ((Z -> Z) * Event).
Definition run (h : history) (g : Graph) : Graph :=
  foldl (fun g '(st, evt) => AddEvent st evt g) g h.
Definition history_ok (h : history) : Prop := Forall (fun '(_, evt) => event_ok evt) h.

(** ** Versioned identifiers *)

Lemma last_index_app c l1 l2 :
  c ∉ l2 -> last_index_byte c (l1 ++ c :: l2) = Some (length l1).
Proof.
  intros Hc. induction l1 as [|d l1 IH]; simpl.
  - assert (last_index_byte c l2 = None) as ->.
    { induction l2 as [|d l2 IH]; simpl; [done|]. rewrite IH by set_solver.
      rewrite decide_False; [done|set_solver]. }
    by rewrite decide_True.
  - by rewrite IH.
Qed.

Lemma hash_not_in_suffix (v : Z) : "#"%char ∉ "v"%char :: chars (pretty v).
Proof.
  rewrite not_elem_of_cons. split; [done|]. apply (pretty_Z_not_occurs v).
  apply (bool_decide_unpack _). by vm_compute.
Qed.

Lemma chars_versionedID b v :
  chars (versionedID b v) = chars b ++ "#"%char :: "v"%char :: chars (pretty v).
Proof. unfold versionedID. by rewrite chars_app. Qed.

Lemma versionedID_inj b v b' v' : versionedID b v = versionedID b' v' -> b = b' /\ v = v'.
Proof.
  intros H. apply (f_equal chars) in H. rewrite !chars_versionedID in H.
  apply app_sep_inj_r in H as [Hb Hv]; [|apply hash_not_in_suffix..].
  by simplify_eq.
Qed.

Lemma occurs_hash_version b v : occurs "#"%char (versionedID b v).
Proof. unfold occurs. rewrite chars_versionedID. set_solver. Qed.

(** ** Alphabet lemmas *)

(** Literal pieces are checked by computation. *)
Ltac solve_literal := apply (bool_decide_unpack _); by vm_compute.

Lemma base_no_hash s : base_id s -> ~ occurs "#"%char s.
Proof.
  intros Hs Ho. unfold base_id in Hs. rewrite Forall_forall in Hs. apply Hs in Ho.
  revert Ho. solve_literal.
Qed.
Lemma base_src s : base_id s -> src_id s.
Proof. intros H. eapply Forall_impl; [exact H|]. by left. Qed.
Lemma src_tgt s : src_id s -> tgt_id s.
Proof. intros H. eapply Forall_impl; [exact H|]. by left. Qed.
Lemma base_tgt s : base_id s -> tgt_id s.
Proof. eauto using base_src, src_tgt. Qed.

Lemma Forall_chars_app P s1 s2 :
  Forall P (chars s1) -> Forall P (chars s2) -> Forall P (chars (s1 +:+ s2)).
Proof. rewrite chars_app. by intros; apply Forall_app. Qed.

Lemma digits_base (x : Z) : 0 <= x -> base_id (pretty x).
Proof. intros. eapply Forall_impl; [by apply pretty_Z_digits|]. by left. Qed.
Lemma digits_tgt (x : Z) : tgt_id (pretty x).
Proof.
  eapply Forall_impl; [apply pretty_Z_chars|]. intros c [Hd| ->]; [|by right].
  do 3 left. done.
Qed.
Lemma hashStr_nonneg s : 0 <= hashStr s.
Proof.
  unfold hashStr. induction (bytes_of_string s) as [|c l IH] using rev_ind; [done|].
  rewrite foldl_app. simpl. apply u64_range.
Qed.

(** Checks an identifier built by [nodeID] piece by piece. *)
Ltac solve_pieces :=
  cbn [foldl Sprint fst]; rewrite ?chars_app; repeat (apply Forall_app; split);
  lazymatch goal with
  | |- Forall _ (chars (pretty _)) =>
      first [apply digits_tgt|apply digits_base, hashStr_nonneg|by apply digits_base]
  | |- _ => solve_literal
  end.

Lemma base_process pid : 0 <= pid -> base_id (ProcessNodeID pid).
Proof. intros. unfold base_id, ProcessNodeID, nodeID. solve_pieces. Qed.

Lemma base_file evt : event_ok evt -> base_id (fileID evt).
Proof. intros []. unfold base_id, fileID, nodeID. case_match; solve_pieces. Qed.

Lemma src_version b v : base_id b -> 0 <= v -> src_id (versionedID b v).
Proof.
  intros Hb Hv. unfold src_id. rewrite chars_versionedID. apply Forall_app. split.
  - by apply base_src.
  - constructor; [by right|]. constructor; [solve_literal|].
    apply base_src. by apply digits_base.
Qed.

Lemma tgt_memory evt : tgt_id (fst (fst (fst (memory_entity evt)))).
Proof. unfold memory_entity, tgt_id, nodeID. repeat case_match; solve_pieces. Qed.

Lemma tgt_cred (pid ns : Z) : tgt_id ("c:" +:+ pretty pid +:+ ":" +:+ pretty ns).
Proof. unfold tgt_id. solve_pieces. Qed.

Lemma no_hash_memory evt : ~ occurs "#"%char (fst (fst (fst (memory_entity evt)))).
Proof.
  assert (forall x : Z, ~ occurs "#"%char (pretty x)) as Hp.
  { intros x. apply pretty_Z_not_occurs. solve_literal. }
  unfold memory_entity, nodeID. repeat case_match; cbn [foldl Sprint fst];
    rewrite ?occurs_app; intros Hocc; destruct_or? Hocc;
    first [exact (Hp _ Hocc)|revert Hocc; solve_literal].
Qed.

(** ** The primitives preserve [vinv] *)

(** The condition on a node identifier that enters the graph. *)
Definition node_id_ok (g : Graph) (id : string) : Prop :=
  occurs "#"%char id ->
  exists b v, id = versionedID b v /\ 1 <= v <= latest_of (versionTracker g) b.

Lemma node_id_ok_plain g id : ~ occurs "#"%char id -> node_id_ok g id.
Proof. by intros ? ?. Qed.
Lemma node_id_ok_base g id : base_id id -> node_id_ok g id.
Proof. intros. by apply node_id_ok_plain, base_no_hash. Qed.

Lemma vinv_mono n n' g : n <= n' -> vinv n g -> vinv n' g.
Proof.
  intros Hn Hg. split; try apply Hg. intros b v Hv. destruct (v_latest n g Hg b v Hv). split; [lia|done].
Qed.

Lemma vinv_modify n id f g : vinv n g -> vinv n (modify id f g).
Proof.
  intros Hg. split; try apply Hg. intros id' [m Hm]. apply (v_nodes n g Hg).
  revert Hm. unfold has, modify. simpl. rewrite lookup_alter. case_decide; [|by eauto].
  subst. destruct (nodes g !! id'); [by eauto|done].
Qed.

Lemma vinv_insert n id m g : node_id_ok g id -> vinv n g -> vinv n (set_nodes <[id := m]> g).
Proof.
  intros Hid Hg. split; try apply Hg. intros id' [m' Hm]. revert Hm. simpl.
  rewrite lookup_insert. case_decide; [by intros; subst; apply Hid|].
  intros. apply (v_nodes n g Hg); [by eexists|done].
Qed.

Lemma vinv_getOrCreate n id pt st l ts g :
  node_id_ok g id -> vinv n g -> vinv n (getOrCreateNode id pt st l ts g).
Proof. intros. unfold getOrCreateNode. case_match; [done|]. by apply vinv_insert. Qed.

Definition derived_ok (r s t : string) : Prop :=
  r = ProvWasDerivedFrom -> exists b v, 1 <= v /\ s = versionedID b (v + 1) /\ t = versionedID b v.

Lemma vinv_addEdge n r s t ts a g :
  edge_ids_ok r s t -> derived_ok r s t -> vinv n g -> vinv n (addEdge r s t ts a g).
Proof.
  intros Hids Hder Hg. unfold addEdge. case_match eqn:Hid; split; try apply Hg; simpl;
    intros id' e'; rewrite lookup_insert; case_decide; try apply Hg; intros; simplify_eq/=.
  - by eapply (v_derived n g Hg).
  - by eapply (v_edges n g Hg).
  - by apply Hder.
  - done.
Qed.

Lemma vinv_set_ct n ct g : vinv n g -> vinv n (set_credTracker ct g).
Proof. intros Hg. split; apply Hg. Qed.
Lemma vinv_set_ps n ps g : vinv n g -> vinv n (set_procStore ps g).
Proof. intros Hg. split; apply Hg. Qed.
Lemma vinv_recordFirstTS n ts g : vinv n g -> vinv n (recordFirstTS ts g).
Proof. intros Hg. unfold recordFirstTS. case_match; [|done]. split; apply Hg. Qed.
Lemma vinv_if n (b : bool) g1 g2 : vinv n g1 -> vinv n g2 -> vinv n (if b then g1 else g2).
Proof. by destruct b. Qed.

Lemma vinv_latest_of n g b : vinv n g -> 0 <= latest_of (versionTracker g) b /\
  (latest_of (versionTracker g) b = 0 <-> latest (versionTracker g) !! b = None).
Proof.
  intros Hg. unfold latest_of. destruct (latest (versionTracker g) !! b) as [v|] eqn:Hb; simpl.
  - destruct (v_latest n g Hg b v Hb). split; [lia|]. split; [lia|done].
  - done.
Qed.

(** Raising the version of one file. *)
Lemma vinv_bump n b v cr g :
  vinv n g -> base_id b -> 1 <= v -> latest_of (versionTracker g) b <= v <= n + 1 ->
  vinv n (set_versionTracker {| latest := <[b := v]> (latest (versionTracker g)); created := cr |} g).
Proof.
  intros Hg Hb H1 Hv. split; try apply Hg.
  - intros b' v'. simpl. rewrite lookup_insert. case_decide; [|apply Hg].
    intros; simplify_eq. split; [lia|done].
  - intros id Hid Hh. destruct (v_nodes n g Hg id Hid Hh) as (b' & v' & -> & Hv').
    exists b', v'. split; [done|]. unfold latest_of in *. simpl. rewrite lookup_insert.
    case_decide; simpl; [subst; lia|lia].
Qed.

Lemma InitVersion_vinv n b g :
  vinv n g -> base_id b -> 0 <= n ->
  let vt' := fst (InitVersion b (versionTracker g)) in
  vinv n (set_versionTracker vt' g) /\ 1 <= latest_of vt' b /\
  (forall b', latest_of (versionTracker g) b' <= latest_of vt' b').
Proof.
  intros Hg Hb Hn. unfold InitVersion. destruct (latest (versionTracker g) !! b) as [v|] eqn:Hl; simpl.
  - destruct (v_latest n g Hg b v Hl). split_and!; [|unfold latest_of; rewrite Hl; simpl; lia|done].
    split; apply Hg.
  - assert (latest_of (versionTracker g) b = 0) as H0 by (unfold latest_of; by rewrite Hl).
    split_and!.
    + apply vinv_bump; [done|done|lia|lia].
    + unfold latest_of. simpl. by rewrite lookup_insert_eq.
    + intros b'. unfold latest_of. simpl. rewrite lookup_insert. case_decide; [|done].
      subst. by rewrite Hl.
Qed.

Lemma NextVersion_spec b vt :
  0 <= latest_of vt b < MaxInt64 ->
  let p := Z.max 1 (latest_of vt b) in
  NextVersion b vt =
    ({| latest := <[b := p + 1]> (latest vt); created := <[versionedID b (p + 1) := true]> (created vt) |},
     versionedID b p, versionedID b (p + 1)).
Proof.
  intros Hr. unfold NextVersion. destruct (Z.eqb_spec (latest_of vt b) 0) as [He|He].
  - rewrite lookup_insert_eq, He. cbn [default from_option].
    rewrite insert_insert_eq. reflexivity.
  - change (default 0 (latest vt !! b)) with (latest_of vt b).
    rewrite i64_small by (unfold MinInt64, MaxInt64 in *; lia).
    replace (Z.max 1 (latest_of vt b)) with (latest_of vt b) by lia. done.
Qed.
#[export] Hint Resolve vinv_modify vinv_getOrCreate vinv_insert vinv_addEdge vinv_set_ct vinv_set_ps
  vinv_recordFirstTS vinv_if node_id_ok_base base_process base_src base_tgt src_tgt : prov.

(** ** The handlers preserve [vinv] *)

Lemma edge_ids_intro r s t : bool_decide (r ∈ relations) = true -> src_id s -> tgt_id t ->
  edge_ids_ok r s t.
Proof. intros ?%bool_decide_eq_true_1 ? ?. by split_and!. Qed.
Lemma derived_ok_other r s t : bool_decide (r = ProvWasDerivedFrom) = false -> derived_ok r s t.
Proof. by intros ?%bool_decide_eq_false_1 ?. Qed.

#[export] Hint Extern 2 (edge_ids_ok _ _ _) =>
  apply edge_ids_intro; [reflexivity|solve [eauto with prov]|solve [eauto with prov]] : prov.
#[export] Hint Extern 2 (derived_ok _ _ _) => apply derived_ok_other; reflexivity : prov.

Lemma node_id_ok_version g b v :
  1 <= v <= latest_of (versionTracker g) b -> node_id_ok g (versionedID b v).
Proof. intros ? _. by eauto. Qed.

Lemma vt_getOrCreate id pt st l ts g :
  versionTracker (getOrCreateNode id pt st l ts g) = versionTracker g.
Proof. unfold getOrCreateNode. by case_match. Qed.

Section vhandlers.
Variables (n : Z) (evt : Event) (ts : time).
Hypotheses (Hn : 0 <= n) (Hn' : n + 1 < MaxInt64) (Hevt : event_ok evt).

Lemma baseFile_vinv g :
  vinv n g ->
  let '(g', fid) := getOrCreateBaseFileNode evt ts g in
  vinv n g' /\ src_id fid.
Proof.
  intros Hg. pose proof (base_file evt Hevt) as Hb.
  destruct (InitVersion_vinv n (fileID evt) g Hg Hb Hn) as (Hg1 & Hl & _).
  unfold getOrCreateBaseFileNode, LatestVersion. cbn [versionTracker set_versionTracker].
  destruct (Z.eqb_spec (latest_of (fst (InitVersion (fileID evt) (versionTracker g))) (fileID evt)) 0);
    [lia|].
  split; [|apply src_version; [done|lia]].
  apply vinv_modify, vinv_modify, vinv_getOrCreate; [|done].
  apply node_id_ok_version. cbn [versionTracker set_versionTracker]. lia.
Qed.

Lemma nextVersion_vinv g :
  vinv n g ->
  let '(g', prevID, newID) := createNextFileVersion evt ts g in
  vinv (n + 1) g' /\ src_id newID.
Proof.
  intros Hg. pose proof (base_file evt Hevt) as Hb.
  destruct (vinv_latest_of n g (fileID evt) Hg) as [Hl0 _].
  assert (latest_of (versionTracker g) (fileID evt) <= n + 1) as Hl1.
  { unfold latest_of. destruct (latest (versionTracker g) !! fileID evt) eqn:E; simpl; [|lia].
    apply (v_latest n g Hg) in E as [? _]. lia. }
  unfold createNextFileVersion. rewrite NextVersion_spec by lia.
  set (p := Z.max 1 (latest_of (versionTracker g) (fileID evt))).
  split; [|apply src_version; [done|lia]].
  match goal with |- context [set_versionTracker ?vt g] => set (g1 := set_versionTracker vt g) end.
  assert (latest_of (versionTracker g1) (fileID evt) = p + 1) as Hl2.
  { unfold latest_of. simpl. by rewrite lookup_insert_eq. }
  assert (vinv (n + 1) g1).
  { apply vinv_bump; [|done|lia|lia]. apply (vinv_mono n); [lia|done]. }
  apply vinv_if; [|apply vinv_addEdge].
  - apply vinv_insert; [|apply vinv_modify, vinv_modify, vinv_getOrCreate; [|done]].
    + apply node_id_ok_version. cbn [versionTracker modify set_nodes].
      rewrite vt_getOrCreate, Hl2. lia.
    + apply node_id_ok_version. rewrite Hl2. lia.
  - apply edge_ids_intro; [reflexivity| |apply src_tgt]; apply src_version; done || lia.
  - intros _. exists (fileID evt), p. split; [lia|done].
  - apply vinv_insert; [|apply vinv_modify, vinv_modify, vinv_getOrCreate; [|done]].
    + apply node_id_ok_version. cbn [versionTracker modify set_nodes].
      rewrite vt_getOrCreate, Hl2. lia.
    + apply node_id_ok_version. rewrite Hl2. lia.
Qed.

Lemma vinv_addFork st g : vinv n g -> vinv n (addFork st evt ts g).
Proof. intros. destruct Hevt. unfold addFork. case_match; eauto 30 with prov. Qed.

Lemma vinv_EnsureParent pid g : vinv n g -> vinv n (EnsureParentNode pid ts g).
Proof.
  intros. assert (node_id_ok g unknownParentID) by (apply node_id_ok_plain; solve_literal).
  unfold EnsureParentNode. repeat case_match; eauto with prov.
Qed.

Lemma vinv_addCredential procID (credID : string) u g :
  src_id procID -> tgt_id credID -> ~ occurs "#"%char credID ->
  vinv n g -> vinv n (addCredential evt ts procID credID u g).
Proof.
  intros. unfold addCredential. apply vinv_addEdge; [eauto with prov..|].
  apply vinv_insert; [by apply node_id_ok_plain|eauto with prov].
Qed.

Lemma OnExec_id ct :
  let '(_, credID, _) := OnExec evt ts ct in
  credID = "" \/ (tgt_id credID /\ ~ occurs "#"%char credID).
Proof.
  unfold OnExec. destruct (negb (is_setuid evt)); [by left|]. right. split; [apply tgt_cred|].
  rewrite !occurs_app. assert (forall x : Z, ~ occurs "#"%char (pretty x)) as Hp.
  { intros x. apply pretty_Z_not_occurs. solve_literal. }
  intros Hocc. destruct_or? Hocc; first [exact (Hp _ Hocc)|revert Hocc; solve_literal].
Qed.

Lemma vinv_addExec st g : vinv n g -> vinv n (addExec st evt ts g).
Proof.
  intros Hg. pose proof (eok_pid _ Hevt) as Hpid. unfold addExec.
  match goal with |- context [EnsureParentNode ?p ?t ?g0] => set (g1 := EnsureParentNode p t g0) end.
  assert (vinv n g1) as Hg1 by (apply vinv_EnsureParent; case_match; eauto 20 with prov).
  pose proof (OnExec_id (credTracker g1)) as Hcred.
  destruct (OnExec evt ts (credTracker g1)) as [[ct credID] prevUID].
  set (g2 := if bool_decide (credID = "") then _ else _).
  assert (vinv n g2) as Hg2.
  { subst g2. case_bool_decide; [eauto with prov|]. destruct Hcred as [|[]]; [done|].
    apply vinv_addCredential; eauto with prov. }
  case_match; [|done]. pose proof (baseFile_vinv g2 Hg2) as Hb.
  destruct (getOrCreateBaseFileNode evt ts g2) as [g3 fid]. destruct Hb. eauto with prov.
Qed.

Lemma vinv_addFileUse g : vinv n g -> vinv n (addFileUse evt ts g).
Proof.
  intros Hg. pose proof (eok_pid _ Hevt). unfold addFileUse. case_match; [done|].
  match goal with |- context [getOrCreateBaseFileNode _ _ ?g0] =>
    assert (vinv n g0) as Hg0 by eauto 10 with prov; pose proof (baseFile_vinv g0 Hg0) as Hb;
    destruct (getOrCreateBaseFileNode evt ts g0) as [g3 fid] end.
  destruct Hb. eauto with prov.
Qed.

Lemma vinv_addFileGenerate g : vinv n g -> vinv (n + 1) (addFileGenerate evt ts g).
Proof.
  intros Hg. pose proof (eok_pid _ Hevt). unfold addFileGenerate.
  case_match; [apply (vinv_mono n); [lia|done]|].
  match goal with |- context [createNextFileVersion _ _ ?g0] =>
    assert (vinv n g0) as Hg0 by eauto 10 with prov; pose proof (nextVersion_vinv g0 Hg0) as Hb;
    destruct (createNextFileVersion evt ts g0) as [[g3 prevID] newID] end.
  destruct Hb. eauto with prov.
Qed.

Lemma vinv_addMemoryEvent g : vinv n g -> vinv n (addMemoryEvent evt ts g).
Proof.
  intros Hg. pose proof (eok_pid _ Hevt). unfold addMemoryEvent.
  pose proof (tgt_memory evt) as Ht. pose proof (no_hash_memory evt) as Hh.
  destruct (memory_entity evt) as [[[entityID subtype] label] flag]. simpl in Ht, Hh.
  fold (ProcessNodeID (PID evt)).
  apply vinv_addEdge; [eauto with prov..|].
  do 3 apply vinv_modify. apply vinv_getOrCreate; [by apply node_id_ok_plain|].
  destruct flag; eauto 20 with prov.
Qed.
End vhandlers.

Lemma vinv_AddEvent n st evt g :
  0 <= n -> n + 1 < MaxInt64 -> event_ok evt -> vinv n g -> vinv (n + 1) (AddEvent st evt g).
Proof.
  intros Hn Hn' Hevt Hg. unfold AddEvent.
  match goal with |- context [nsToTime ?a ?b] => generalize (nsToTime a b); intros ts end.
  set (g1 := if 0 <? PID evt then _ else _).
  assert (vinv n g1) as Hg1 by (subst g1; case_match; eauto with prov).
  assert (forall g', vinv n g' -> vinv (n + 1) g') as Hm by (intros; apply (vinv_mono n); [lia|done]).
  unfold dispatch.
  repeat (match goal with |- context [if ?b then _ else _] => destruct b end);
    auto using vinv_addFork, vinv_addExec, vinv_addFileUse, vinv_addFileGenerate, vinv_addMemoryEvent.
Qed.

Lemma vinv_NewGraph now : vinv 0 (NewGraph now).
Proof.
  split; simpl.
  - intros b v. by rewrite lookup_empty.
  - by intros id [m Hm].
  - intros id e. by rewrite lookup_empty.
  - intros id e. by rewrite lookup_empty.
Qed.

Lemma graph_run_inv h n g :
  0 <= n -> n + Z.of_nat (length h) < MaxInt64 -> history_ok h -> wf g -> vinv n g ->
  wf (run h g) /\ vinv (n + Z.of_nat (length h)) (run h g).
Proof.
  intros Hn Hl Hh. revert n g Hn Hl. unfold run.
  induction Hh as [|[st evt] h He _ IH]; intros n g Hn Hl Hw Hv; simpl in *.
  - split; [done|]. by rewrite Z.add_0_r.
  - destruct (IH (n + 1) (AddEvent st evt g)) as [IH1 IH2]; [lia|lia| | |].
    + by apply wf_AddEvent.
    + apply vinv_AddEvent; done || lia.
    + split; [done|]. by replace (n + Z.of_nat (S (length h))) with (n + 1 + Z.of_nat (length h)) by lia.
Qed.

(** ** [edgeID] is injective below its length limit *)

Lemma sanitize_tgt c : tgt_char c -> sanitize c = if decide (c = "#"%char) then "_"%char else c.
Proof.
  intros Hc. assert (implb (bool_decide (tgt_char c))
    (bool_decide (sanitize c = if decide (c = "#"%char) then "_"%char else c)) = true) as H.
  { clear Hc. destruct c as [[] [] [] [] [] [] [] []]; reflexivity. }
  rewrite (bool_decide_eq_true_2 _ Hc) in H. by apply bool_decide_eq_true_1 in H.
Qed.

Lemma sanitize_inj c d : tgt_char c -> tgt_char d -> sanitize c = sanitize d -> c = d.
Proof.
  intros Hc Hd. assert (~ tgt_char "_"%char) as Hu by solve_literal.
  rewrite !sanitize_tgt by done. repeat case_decide; intros; subst; done.
Qed.

Lemma sanitize_minus c : sanitize c = "-"%char -> c = "-"%char.
Proof. destruct c as [[] [] [] [] [] [] [] []]; vm_compute; intros; simplify_eq; done. Qed.

Lemma chars_edgeID r s t :
  chars (edgeID r s t) = take 80 (sanitize <$> chars (raw_edge r s t)).
Proof. unfold edgeID. by rewrite String.list_ascii_of_string_of_list_ascii. Qed.

Lemma raw_split r s t :
  sanitize <$> chars (raw_edge r s t) =
  ((sanitize <$> chars r) ++ ":"%char :: (sanitize <$> chars s))
    ++ "-"%char :: "_"%char :: (sanitize <$> chars t).
Proof. unfold raw_edge. rewrite !chars_app, !fmap_app. simpl. by rewrite <-!(assoc_L (++)). Qed.

Lemma head_no_minus r s :
  r ∈ relations -> src_id s ->
  "-"%char ∉ (sanitize <$> chars r) ++ ":"%char :: (sanitize <$> chars s).
Proof.
  intros Hr Hs Hin. rewrite elem_of_app, elem_of_cons in Hin. destruct Hin as [Hin|[?|Hin]]; [|done|].
  - revert r Hr Hin.
    assert (Forall (fun r => "-"%char ∉ sanitize <$> chars r) relations) as Hall by solve_literal.
    rewrite Forall_forall in Hall. naive_solver.
  - apply list_elem_of_fmap in Hin as (c & Hc & Hin). symmetry in Hc. apply sanitize_minus in Hc as ->.
    unfold src_id in Hs. rewrite Forall_forall in Hs. apply Hs in Hin. revert Hin. solve_literal.
Qed.

Lemma rel_split r s r' s' :
  r ∈ relations -> r' ∈ relations -> src_id s -> src_id s' ->
  (sanitize <$> chars r) ++ ":"%char :: (sanitize <$> chars s) =
  (sanitize <$> chars r') ++ ":"%char :: (sanitize <$> chars s') -> r = r' /\ s = s'.
Proof.
  intros Hr Hr' Hs Hs' Heq.
  assert (Forall (fun r => sanitize <$> chars r = chars r /\
    take 5 (chars r) = chars "prov:" /\ ":"%char ∉ drop 5 (chars r)) relations) as Hall by solve_literal.
  rewrite Forall_forall in Hall.
  destruct (Hall r Hr) as (E & Hp & Hn). destruct (Hall r' Hr') as (E' & Hp' & Hn').
  rewrite E, E' in Heq.
  rewrite <-(take_drop 5 (chars r)), <-(take_drop 5 (chars r')), Hp, Hp', <-!(assoc_L (++)) in Heq.
  apply app_inv_head in Heq. apply app_sep_inj in Heq as [H1 H2]; [|done..]. split.
  - apply (inj chars). by rewrite <-(take_drop 5 (chars r)), <-(take_drop 5 (chars r')), Hp, Hp', H1.
  - apply (inj chars).
    eapply (fmap_inj_on tgt_char sanitize); [exact sanitize_inj|by apply src_tgt..|done].
Qed.

Lemma edgeID_exact r s t r' s' t' :
  edge_ids_ok r s t -> edge_ids_ok r' s' t' -> (String.length (raw_edge r s t) < 80)%nat ->
  edgeID r s t = edgeID r' s' t' -> r = r' /\ s = s' /\ t = t'.
Proof.
  intros (Hr & Hs & Ht) (Hr' & Hs' & Ht') Hlen Heq.
  apply (f_equal chars) in Heq. rewrite !chars_edgeID in Heq.
  rewrite <-length_chars in Hlen.
  rewrite take_ge in Heq by (rewrite length_fmap; lia).
  pose proof (f_equal length Heq) as Hl. rewrite length_take, !length_fmap in Hl.
  rewrite take_ge in Heq by (rewrite length_fmap; lia).
  rewrite !raw_split in Heq.
  apply app_sep_inj in Heq as [H1 H2]; [|by apply head_no_minus..].
  apply rel_split in H1 as [-> ->]; [|done..]. split_and!; [done|done|].
  injection H2 as H2. apply (inj chars).
  by eapply (fmap_inj_on tgt_char sanitize); [exact sanitize_inj|..].
Qed.

(** ** Main theorems *)

Definition triple (e : Edge.t) : string * string * string :=
  (Edge.Relation e, Edge.Source e, Edge.Target e).

Lemma elem_of_Edges g e : wf g -> e ∈ Edges g <-> exists id, edges g !! id = Some e.
Proof.
  intros Hg. unfold Edges. rewrite list_elem_of_omap. split; intros (id & H).
  - exists id. apply H.
  - exists id. split; [|done]. apply (wf_order_dom g Hg). by eexists.
Qed.

Lemma run_wf now h : wf (run h (NewGraph now)).
Proof.
  unfold run. induction h as [|[st evt] h IH] using rev_ind; [apply wf_NewGraph|].
  rewrite foldl_app. simpl. by apply wf_AddEvent.
Qed.

Lemma reachable_inv now h :
  history_ok h -> Z.of_nat (length h) < MaxInt64 ->
  wf (run h (NewGraph now)) /\ vinv (Z.of_nat (length h)) (run h (NewGraph now)).
Proof.
  intros Hh Hl. rewrite <-(Z.add_0_l (Z.of_nat (length h))).
  apply graph_run_inv; [done|lia|done|apply wf_NewGraph|apply vinv_NewGraph].
Qed.

(** [C1] Structural integrity of the provenance graph.  After any sequence of
    events, whatever start times are read from procfs: nodes and edges are
    stored under their own identifiers, an edge's identifier is the one computed
    from its relation and end points, the insertion order lists every edge
    exactly once, no edge dangles, a node's first-seen time is not after its
    last-seen time, and node and relation types follow the W3C PROV model. *)
Theorem graph_wf (now : time) (h : history) : wf (run h (NewGraph now)).
Proof. apply run_wf. Qed.


Lemma StripVersion_versionedID b v : StripVersion (versionedID b v) = b.
Proof.
  unfold StripVersion. rewrite chars_versionedID, last_index_app by apply hash_not_in_suffix.
  rewrite take_app_length. apply String.string_of_list_ascii_of_string.
Qed.

(** File versions round-trip.  In a graph built from any history, every node
    whose identifier carries a version is the version, between one and the latest
    recorded, of the identifier [StripVersion] gives; stripping inverts versioning,
    and versioned identifiers determine both the base and the version. *)
Lemma version_roundtrip (now : time) (h : history) (id : string) :
  let g := run h (NewGraph now) in
  history_ok h -> Z.of_nat (length h) < MaxInt64 -> has id g -> occurs "#"%char id ->
  (exists v, id = versionedID (StripVersion id) v /\
     1 <= v <= latest_of (versionTracker g) (StripVersion id)) /\
  (forall b v, StripVersion (versionedID b v) = b) /\
  (forall b v b' v', versionedID b v = versionedID b' v' -> b = b' /\ v = v').
Proof.
  intros g Hh Hl Hid Ho. destruct (reachable_inv now h Hh Hl) as [_ Hv]. fold g in Hv.
  split; [|split; [apply StripVersion_versionedID|apply versionedID_inj]].
  destruct (v_nodes _ _ Hv id Hid Ho) as (b & v & -> & Hr). exists v. by rewrite StripVersion_versionedID.
Qed.

(** The example history of the witnesses: process 100 writes a file, process 200
    reads it, process 200 forks 201, which executes a setuid binary. *)
Definition ev (typ pid child inode flags : Z) (comm path : string) : Event :=
  mkEvent typ flags 1000000000 pid pid 1 1000 100 inode 8 3 33188 0 child 0 0 0 0 0 0 0
          comm path "" "" "" "".
Definition no_start (_ : Z) : Z := 0.
Definition ev_write := ev EventFileModify 100 0 4242 0 "bash" "/tmp/x".
Definition ev_read := ev EventFileOpen 200 0 4242 0 "cat" "/tmp/x".
Definition ev_fork := ev EventProcessFork 200 201 0 0 "cat" "".
Definition ev_exec := ev EventProcessExec 201 0 77 4 "su" "/bin/su".
Definition sample_history : history :=
  [(no_start, ev_write); (no_start, ev_read); (no_start, ev_fork); (no_start, ev_exec)].

Lemma sample_history_ok : history_ok sample_history.
Proof. repeat constructor; done. Qed.

Lemma version_roundtrip_witness :
  let g := run sample_history (NewGraph unix_epoch) in
  (exists v, "f:4242:8:3#v2" = versionedID (StripVersion "f:4242:8:3#v2") v /\
     1 <= v <= latest_of (versionTracker g) (StripVersion "f:4242:8:3#v2")) /\
  (forall b v, StripVersion (versionedID b v) = b) /\
  (forall b v b' v', versionedID b v = versionedID b' v' -> b = b' /\ v = v').
Proof.
  apply (version_roundtrip unix_epoch sample_history "f:4242:8:3#v2").
  - exact sample_history_ok.
  - reflexivity.
  - vm_compute. eexists. reflexivity.
  - apply (bool_decide_unpack _). vm_compute. exact I.
Defined.


Lemma edge_lookup_exact n g r s t e :
  wf g -> vinv n g -> edge_ids_ok r s t -> (String.length (raw_edge r s t) < 80)%nat ->
  edges g !! edgeID r s t = Some e -> triple e = (r, s, t).
Proof.
  intros Hw Hv Hids Hlen He. destruct (wf_edge_key g Hw _ _ He) as [_ Hk].
  apply edgeID_exact in Hk as (-> & -> & ->); [done|done| |done]. by apply (v_edges n g Hv) in He.
Qed.

Lemma lookup_triple g id e :
  wf g -> edges g !! id = Some e ->
  edges g !! edgeID (Edge.Relation e) (Edge.Source e) (Edge.Target e) = Some e.
Proof. intros Hw He. by destruct (wf_edge_key g Hw _ _ He) as [_ <-]. Qed.

(** Exact edge deduplication.  In every graph built from decoded events,
    for a relation whose textual form stays below the 80-byte identifier limit:
    if an edge with the same relation, source and target exists, [addEdge] only
    merges into that edge (count incremented, order unchanged); otherwise it
    appends a new edge with count 1, and no other edge changes. *)
Lemma edge_dedup_exact (now : time) (h : history) (r s t : string) (ts : time)
    (a : gmap string attr) :
  history_ok h -> Z.of_nat (length h) < MaxInt64 ->
  edge_ids_ok r s t -> (String.length (raw_edge r s t) < 80)%nat ->
  let g := run h (NewGraph now) in
  let g' := addEdge r s t ts a g in
  (forall e, e ∈ Edges g -> triple e = (r, s, t) ->
     edges g' = <[Edge.ID e := Edge.merge ts e]> (edges g) /\ edgeOrder g' = edgeOrder g) /\
  ((forall e, e ∈ Edges g -> triple e <> (r, s, t)) ->
     Edges g' = Edges g ++ [Edge.mk (edgeID r s t) s t r ts 1 a]).
Proof.
  intros Hh Hl Hids Hlen g g'. destruct (reachable_inv now h Hh Hl) as [Hw Hv]. fold g in Hw, Hv.
  split.
  - intros e He Ht. apply elem_of_Edges in He as [id Hid]; [|done].
    destruct (wf_edge_key g Hw _ _ Hid) as [-> _].
    pose proof (lookup_triple g id e Hw Hid) as Hk.
    destruct (wf_edge_key g Hw _ _ Hid) as [_ Hid'].
    unfold triple in Ht. injection Ht as <- <- <-.
    subst g'. unfold addEdge. rewrite Hk. simpl. by rewrite <-Hid'.
  - intros Hnone. assert (edges g !! edgeID r s t = None) as Hn.
    { destruct (edges g !! edgeID r s t) as [e|] eqn:He; [|done].
      destruct (Hnone e); [apply elem_of_Edges; by eauto|]. by eapply edge_lookup_exact. }
    subst g'. unfold addEdge. rewrite Hn. unfold Edges. simpl. rewrite omap_app. simpl.
    rewrite lookup_insert_eq. f_equal.
    apply list_omap_ext, Forall_Forall2_diag, Forall_forall. intros id Hid.
    rewrite lookup_insert_ne; [done|]. intros <-.
    apply (wf_order_dom g Hw) in Hid. rewrite Hn in Hid. by destruct Hid.
Qed.

Lemma edge_dedup_exact_witness :
  let g := run sample_history (NewGraph unix_epoch) in
  Edges (addEdge ProvUsed "p:9" "f:9:8:3#v1" 5 ∅ g)
  = Edges g ++ [Edge.mk (edgeID ProvUsed "p:9" "f:9:8:3#v1") "p:9" "f:9:8:3#v1" ProvUsed 5 1 ∅].
Proof.
  intros g.
  destruct (edge_dedup_exact unix_epoch sample_history ProvUsed "p:9" "f:9:8:3#v1" 5 ∅) as [_ H].
  - exact sample_history_ok.
  - vm_compute. reflexivity.
  - apply edge_ids_intro; [reflexivity|solve_literal..].
  - vm_compute. lia.
  - apply H. intros e He Ht.
    assert (Forall (fun e => triple e <> (ProvUsed, "p:9", "f:9:8:3#v1")) (Edges g)) as Hall
      by solve_literal.
    rewrite Forall_forall in Hall. by apply (Hall e He).
Defined.
