(* ===== verification/ProvCausal.v ===== *)
(** * Causality in the provenance graph.

    What the graph records about data flow: every write creates a fresh file
    version generated by the writer and derived from the previous version, a
    later reader is linked to exactly that version until the next write, edges
    are never lost, and the derivation relation is acyclic.  The counterexamples
    at the end delimit these statements. *)
From S2P Require Import Prelude GoStrings Events ProvGraph ProvInv ProvVersions.
From Stdlib Require Import Ascii.

(** ** Persistence of edges *)

Definition hasE (r s t : string) (g : Graph) : Prop :=
  exists id e, edges g !! id = Some e /\ triple e = (r, s, t).

Section hasE.
Variables r s t : string.

Lemma hasE_modify id f g : hasE r s t g -> hasE r s t (modify id f g).
Proof. done. Qed.
Lemma hasE_insert id n g : hasE r s t g -> hasE r s t (set_nodes <[id := n]> g).
Proof. done. Qed.
Lemma hasE_vt vt g : hasE r s t g -> hasE r s t (set_versionTracker vt g).
Proof. done. Qed.
Lemma hasE_ct ct g : hasE r s t g -> hasE r s t (set_credTracker ct g).
Proof. done. Qed.
Lemma hasE_ps ps g : hasE r s t g -> hasE r s t (set_procStore ps g).
Proof. done. Qed.
Lemma hasE_first ts g : hasE r s t g -> hasE r s t (recordFirstTS ts g).
Proof. unfold recordFirstTS. by case_match. Qed.
Lemma hasE_if (b : bool) g1 g2 : hasE r s t g1 -> hasE r s t g2 -> hasE r s t (if b then g1 else g2).
Proof. by destruct b. Qed.
Lemma hasE_getOrCreate id pt st l ts g :
  hasE r s t g -> hasE r s t (getOrCreateNode id pt st l ts g).
Proof. unfold getOrCreateNode. by case_match. Qed.
Lemma hasE_addEdge r' s' t' ts a g :
  hasE r s t g -> hasE r s t (addEdge r' s' t' ts a g).
Proof.
  intros (id & e & He & Ht). unfold addEdge.
  destruct (decide (id = edgeID r' s' t')) as [->|Hne].
  - rewrite He. eexists _, _. split; [apply lookup_insert_eq|done].
  - exists id, e. split; [|done]. case_match; simpl; by rewrite lookup_insert_ne.
Qed.
End hasE.
#[export] Hint Resolve hasE_modify hasE_insert hasE_vt hasE_ct hasE_ps hasE_first hasE_if
  hasE_getOrCreate hasE_addEdge : prov.

Lemma hasE_Edges r s t g : wf g -> hasE r s t g -> exists e, e ∈ Edges g /\ triple e = (r, s, t).
Proof. intros Hw (id & e & He & Ht). exists e. split; [|done]. apply elem_of_Edges; by eauto. Qed.

(** Below the length limit, the edge is there after [addEdge]; [g'] is the graph
    at the call, which has the edges of an earlier graph [g]. *)
Lemma addEdge_hasE n r s t ts a g g' :
  edges g' = edges g ->
  wf g -> vinv n g -> edge_ids_ok r s t -> (String.length (raw_edge r s t) < 80)%nat ->
  hasE r s t (addEdge r s t ts a g').
Proof.
  intros He Hw Hv Hids Hlen. unfold addEdge. case_match eqn:Hid.
  - exists (edgeID r s t). eexists. simpl. rewrite lookup_insert_eq. split; [done|].
    rewrite He in Hid. exact (edge_lookup_exact n g r s t _ Hw Hv Hids Hlen Hid).
  - exists (edgeID r s t). eexists. simpl. by rewrite lookup_insert_eq.
Qed.

Lemma edges_getOrCreate id pt st l ts g : edges (getOrCreateNode id pt st l ts g) = edges g.
Proof. unfold getOrCreateNode. by case_match. Qed.

Lemma hasE_EnsureParent r s t pid ts g : hasE r s t g -> hasE r s t (EnsureParentNode pid ts g).
Proof. intros. unfold EnsureParentNode. repeat case_match; eauto with prov. Qed.
Lemma hasE_addCredential r s t evt ts p c u g :
  hasE r s t g -> hasE r s t (addCredential evt ts p c u g).
Proof. intros. unfold addCredential. eauto with prov. Qed.
Lemma hasE_baseFile r s t evt ts g :
  hasE r s t g -> hasE r s t (fst (getOrCreateBaseFileNode evt ts g)).
Proof. intros. unfold getOrCreateBaseFileNode. simpl. eauto with prov. Qed.
Lemma hasE_nextVersion r s t evt ts g :
  hasE r s t g -> hasE r s t (fst (fst (createNextFileVersion evt ts g))).
Proof.
  intros. unfold createNextFileVersion. destruct (NextVersion _ _) as [[vt p] q].
  cbn [fst]. eauto 20 with prov.
Qed.
#[export] Hint Resolve hasE_EnsureParent hasE_addCredential : prov.

Lemma hasE_AddEvent r s t st evt g : hasE r s t g -> hasE r s t (AddEvent st evt g).
Proof.
  intros Hg. unfold AddEvent.
  match goal with |- context [nsToTime ?a ?b] => generalize (nsToTime a b); intros ts end.
  set (g1 := if 0 <? PID evt then _ else _).
  assert (hasE r s t g1) as Hg1 by (subst g1; eauto with prov).
  clearbody g1. unfold dispatch.
  repeat (match goal with |- context [if ?b then _ else _] => destruct b end); [..|done];
    unfold addFork, addExec, addFileUse, addFileGenerate, addMemoryEvent.
  - case_match; eauto 30 with prov.
  - destruct (OnExec _ _ _) as [[ct credID] u].
    repeat match goal with
    | |- context [getOrCreateBaseFileNode evt ts ?g0] =>
        pose proof (hasE_baseFile r s t evt ts g0);
        destruct (getOrCreateBaseFileNode evt ts g0); simpl in *
    end.
    repeat case_match; eauto 30 with prov.
  - case_match; [done|].
    match goal with |- context [getOrCreateBaseFileNode evt ts ?g0] =>
      pose proof (hasE_baseFile r s t evt ts g0);
      destruct (getOrCreateBaseFileNode evt ts g0); simpl in * end.
    eauto 30 with prov.
  - case_match; [done|].
    match goal with |- context [createNextFileVersion evt ts ?g0] =>
      pose proof (hasE_nextVersion r s t evt ts g0);
      destruct (createNextFileVersion evt ts g0) as [[? ?] ?]; simpl in * end.
    eauto 30 with prov.
  - case_match; [done|].
    match goal with |- context [getOrCreateBaseFileNode evt ts ?g0] =>
      pose proof (hasE_baseFile r s t evt ts g0);
      destruct (getOrCreateBaseFileNode evt ts g0); simpl in * end.
    eauto 30 with prov.
  - destruct (memory_entity evt) as [[[? ?] ?] [?|]]; eauto 30 with prov.
Qed.

(** ** The version tracker *)

(** The event creates a new version of its file. *)
Definition generates (evt : Event) : bool :=
  ((Type_ evt =? EventFileCreate) || (Type_ evt =? EventFileModify)) && has_path evt.

(** The event opens its file. *)
Definition opens (evt : Event) : bool := (Type_ evt =? EventFileOpen) && has_path evt.

Lemma vt_addEdge r s t ts a g : versionTracker (addEdge r s t ts a g) = versionTracker g.
Proof. unfold addEdge. by case_match. Qed.
Lemma vt_modify id f g : versionTracker (modify id f g) = versionTracker g.
Proof. done. Qed.
Lemma vt_first ts g : versionTracker (recordFirstTS ts g) = versionTracker g.
Proof. unfold recordFirstTS. by case_match. Qed.
Lemma vt_EnsureParent pid ts g : versionTracker (EnsureParentNode pid ts g) = versionTracker g.
Proof. unfold EnsureParentNode. repeat case_match; by rewrite ?vt_modify, ?vt_getOrCreate. Qed.
Lemma vt_addCredential evt ts p c u g :
  versionTracker (addCredential evt ts p c u g) = versionTracker g.
Proof. unfold addCredential. by rewrite vt_addEdge. Qed.
Create Rewrite HintDb vt.
#[export] Hint Rewrite vt_addEdge vt_modify vt_first vt_EnsureParent vt_addCredential
  vt_getOrCreate : vt.

(** Opens the definition of a graph's version tracker one update at a time. *)
Ltac vt_simpl :=
  repeat (autorewrite with vt;
          cbn [versionTracker set_nodes set_edges set_firstTS set_versionTracker set_credTracker
               set_procStore]).

Lemma latest_InitVersion b b' vt :
  1 <= latest_of vt b -> latest_of (fst (InitVersion b' vt)) b = latest_of vt b.
Proof.
  unfold InitVersion, latest_of. destruct (latest vt !! b') eqn:Hb'; simpl; [done|].
  rewrite lookup_insert. case_decide; [subst|done]. rewrite Hb'. simpl. lia.
Qed.

Lemma vt_baseFile evt ts g :
  versionTracker (fst (getOrCreateBaseFileNode evt ts g))
  = fst (InitVersion (fileID evt) (versionTracker g)).
Proof. unfold getOrCreateBaseFileNode. cbn [fst]. by vt_simpl. Qed.

Lemma vt_nextVersion evt ts g :
  versionTracker (fst (fst (createNextFileVersion evt ts g)))
  = fst (fst (NextVersion (fileID evt) (versionTracker g))).
Proof.
  unfold createNextFileVersion. destruct (NextVersion _ _) as [[vt p] q]. cbn [fst].
  case_match; by vt_simpl.
Qed.

Lemma vt_addFork st evt ts g : versionTracker (addFork st evt ts g) = versionTracker g.
Proof. unfold addFork. case_match; by vt_simpl. Qed.
Lemma vt_addMemory evt ts g : versionTracker (addMemoryEvent evt ts g) = versionTracker g.
Proof. unfold addMemoryEvent. destruct (memory_entity evt) as [[[? ?] ?] [?|]]; by vt_simpl. Qed.

Lemma vt_addExec st evt ts g :
  versionTracker (addExec st evt ts g) =
  if has_path evt then fst (InitVersion (fileID evt) (versionTracker g)) else versionTracker g.
Proof.
  unfold addExec. destruct (OnExec _ _ _) as [[ct credID] u]. destruct (has_path evt).
  - match goal with |- context [getOrCreateBaseFileNode evt ts ?g0] =>
      pose proof (vt_baseFile evt ts g0) as Hb; destruct (getOrCreateBaseFileNode evt ts g0) end.
    vt_simpl. cbn [fst] in Hb. rewrite Hb. do 2 f_equal.
    destruct (bool_decide (credID = "")), (is_setuid evt); by vt_simpl.
  - destruct (bool_decide (credID = "")), (is_setuid evt); by vt_simpl.
Qed.

Lemma vt_addFileUse evt ts g :
  versionTracker (addFileUse evt ts g) =
  if has_path evt then fst (InitVersion (fileID evt) (versionTracker g)) else versionTracker g.
Proof.
  unfold addFileUse. destruct (has_path evt); cbn [negb]; [|done].
  match goal with |- context [getOrCreateBaseFileNode evt ts ?g0] =>
    pose proof (vt_baseFile evt ts g0) as Hb; destruct (getOrCreateBaseFileNode evt ts g0) end.
  vt_simpl. cbn [fst] in Hb. rewrite Hb. by vt_simpl.
Qed.

Lemma vt_addFileGenerate evt ts g :
  versionTracker (addFileGenerate evt ts g) =
  if has_path evt then fst (fst (NextVersion (fileID evt) (versionTracker g))) else versionTracker g.
Proof.
  unfold addFileGenerate. destruct (has_path evt); cbn [negb]; [|done].
  match goal with |- context [createNextFileVersion evt ts ?g0] =>
    pose proof (vt_nextVersion evt ts g0) as Hb; destruct (createNextFileVersion evt ts g0) as [[? ?] ?] end.
  vt_simpl. cbn [fst] in Hb. rewrite Hb. by vt_simpl.
Qed.

(** The version tracker after [AddEvent]: writes create the next version, other
    file operations initialise an untracked file. *)
Lemma vt_AddEvent st evt g :
  versionTracker (AddEvent st evt g) =
  if generates evt then fst (fst (NextVersion (fileID evt) (versionTracker g)))
  else if has_path evt &&
          ((Type_ evt =? EventProcessExec) || (Type_ evt =? EventFileOpen)
           || (Type_ evt =? EventFileDelete))
  then fst (InitVersion (fileID evt) (versionTracker g))
  else versionTracker g.
Proof.
  unfold AddEvent.
  match goal with |- context [nsToTime ?a ?b] => generalize (nsToTime a b); intros ts end.
  set (g1 := if 0 <? PID evt then _ else _).
  assert (versionTracker g1 = versionTracker g) as <- by (subst g1; case_match; by vt_simpl).
  clearbody g1. unfold dispatch, generates.
  repeat match goal with |- context [Type_ evt =? ?c] =>
    let E := fresh "E" in destruct (Z.eqb_spec (Type_ evt) c) as [E|E];
    cbn [orb andb];
    try match goal with
        | E1 : Type_ evt = ?a, E2 : Type_ evt = ?b |- _ =>
            exfalso; rewrite E1 in E2; discriminate E2
        end end;
    rewrite ?vt_addFork, ?vt_addExec, ?vt_addFileUse, ?vt_addFileGenerate, ?vt_addMemory;
    by destruct (has_path evt).
Qed.

Section steps.
Variables (n : Z) (st : Z -> Z) (evt : Event) (g : Graph).
Hypotheses (Hn : 0 <= n) (Hn' : n + 1 < MaxInt64) (Hevt : event_ok evt).
Hypotheses (Hw : wf g) (Hv : vinv n g).

Lemma latest_bound b : 0 <= latest_of (versionTracker g) b <= n + 1.
Proof using Hn Hv.
  unfold latest_of. destruct (latest (versionTracker g) !! b) eqn:E; simpl; [|lia].
  apply (v_latest n g Hv) in E as [? _]. lia.
Qed.

(** Only a write to the file changes its latest version. *)
Lemma latest_other b :
  1 <= latest_of (versionTracker g) b -> ~ (generates evt = true /\ fileID evt = b) ->
  latest_of (versionTracker (AddEvent st evt g)) b = latest_of (versionTracker g) b.
Proof using Hn Hn' Hv.
  intros Hl Hng. rewrite vt_AddEvent. destruct (generates evt) eqn:Hgen.
  - rewrite NextVersion_spec by (pose proof (latest_bound (fileID evt)); lia).
    unfold latest_of. simpl. rewrite lookup_insert_ne; [done|]. intros <-. naive_solver.
  - case_match; [by apply latest_InitVersion|done].
Qed.

(** A write makes the next version the latest one. *)
Lemma latest_generate :
  generates evt = true ->
  latest_of (versionTracker (AddEvent st evt g)) (fileID evt)
  = Z.max 1 (latest_of (versionTracker g) (fileID evt)) + 1.
Proof using Hn Hn' Hv.
  intros Hgen. rewrite vt_AddEvent, Hgen, NextVersion_spec
    by (pose proof (latest_bound (fileID evt)); lia).
  unfold latest_of. simpl. by rewrite lookup_insert_eq.
Qed.

Lemma fresh_version b : ~ has (versionedID b (Z.max 1 (latest_of (versionTracker g) b) + 1)) g.
Proof using Hv.
  intros Hh. destruct (v_nodes n g Hv _ Hh) as (b' & v' & Heq & Hr);
    [apply occurs_hash_version|]. apply versionedID_inj in Heq as [<- <-]. lia.
Qed.
End steps.

(** The edges a write adds. *)
Section createNext.
Variables (n : Z) (evt : Event) (ts : time) (g : Graph).
Hypotheses (Hn : 0 <= n) (Hn' : n + 1 < MaxInt64) (Hevt : event_ok evt).
Hypotheses (Hw : wf g) (Hv : vinv n g).
Let prev := Z.max 1 (latest_of (versionTracker g) (fileID evt)).
Let prevID := versionedID (fileID evt) prev.
Let newID := versionedID (fileID evt) (prev + 1).

Lemma createNext_edge :
  let '(g', p, q) := createNextFileVersion evt ts g in
  p = prevID /\ q = newID /\
  ((String.length (raw_edge ProvWasDerivedFrom newID prevID) < 80)%nat ->
   hasE ProvWasDerivedFrom newID prevID g').
Proof using Hn Hn' Hevt Hw Hv.
  pose proof (latest_bound n g Hn Hv (fileID evt)) as Hb.
  pose proof (base_file evt Hevt) as Hbase.
  unfold createNextFileVersion. rewrite NextVersion_spec by lia. fold prev prevID newID.
  split_and!; [done|done|]. intros Hlen.
  rewrite bool_decide_eq_false_2; [|intros Heq; apply versionedID_inj in Heq as [_ Heq]; lia].
  eapply (addEdge_hasE n _ _ _ _ _ g); [cbn; by rewrite edges_getOrCreate|done..| |done].
  apply edge_ids_intro; [reflexivity| |apply src_tgt]; apply src_version; done || lia.
Qed.
End createNext.

Section generate.
Variables (n : Z) (evt : Event) (ts : time) (g : Graph).
Hypotheses (Hn : 0 <= n) (Hn' : n + 1 < MaxInt64) (Hevt : event_ok evt).
Hypotheses (Hw : wf g) (Hv : vinv n g) (Hp : has_path evt = true).
Let prev := Z.max 1 (latest_of (versionTracker g) (fileID evt)).
Let prevID := versionedID (fileID evt) prev.
Let newID := versionedID (fileID evt) (prev + 1).
Let procID := ProcessNodeID (PID evt).

Lemma addFileGenerate_edges :
  let g' := addFileGenerate evt ts g in
  has newID g' /\ has prevID g' /\
  ((String.length (raw_edge ProvWasDerivedFrom newID prevID) < 80)%nat ->
    hasE ProvWasDerivedFrom newID prevID g') /\
  ((String.length (raw_edge ProvWasGeneratedBy newID procID) < 80)%nat ->
    hasE ProvWasGeneratedBy newID procID g').
Proof using Hn Hn' Hevt Hw Hv Hp.
  pose proof (eok_pid _ Hevt) as Hpid. unfold addFileGenerate. rewrite Hp. cbn [negb].
  match goal with |- context [createNextFileVersion _ _ ?g0] => set (g1 := g0) end.
  assert (wf g1 /\ vinv n g1) as [Hw1 Hv1] by (subst g1; split; eauto 10 with prov).
  assert (versionTracker g1 = versionTracker g) as Hvt by (subst g1; by vt_simpl).
  pose proof (createNext_edge n evt ts g1 Hn Hn' Hevt Hw1 Hv1) as Hc.
  pose proof (nextVersion_ok evt ts g1) as Hok.
  pose proof (nextVersion_vinv n evt ts Hn Hn' Hevt g1 Hv1) as Hvv.
  destruct (createNextFileVersion evt ts g1) as [[g2 p] q]. rewrite Hvt in Hc.
  destruct Hc as (-> & -> & Hc). destruct Hok as (Hw2 & Hq & Hpp & _ & _). destruct Hvv as [Hv2 Hs2].
  split_and!; [by apply has_addEdge..| |].
  - intros Hlen. by apply hasE_addEdge, Hc.
  - intros Hlen. apply (addEdge_hasE (n + 1) _ _ _ _ _ g2); [done|auto|done| |done].
    apply edge_ids_intro; [reflexivity|done|]. by apply base_tgt, base_process.
Qed.
End generate.

(** The edge a read adds, and the version it points to. *)
Section use.
Variables (n : Z) (evt : Event) (ts : time) (g : Graph).
Hypotheses (Hn : 0 <= n) (Hn' : n + 1 < MaxInt64) (Hevt : event_ok evt).
Hypotheses (Hw : wf g) (Hv : vinv n g) (Hp : has_path evt = true).

Lemma addFileUse_edge :
  let v := versionedID (fileID evt) (Z.max 1 (latest_of (versionTracker g) (fileID evt))) in
  (String.length (raw_edge ProvUsed (ProcessNodeID (PID evt)) v) < 80)%nat ->
  hasE ProvUsed (ProcessNodeID (PID evt)) v (addFileUse evt ts g).
Proof using Hn Hevt Hw Hv Hp.
  intros v Hlen. pose proof (eok_pid _ Hevt) as Hpid. unfold addFileUse. rewrite Hp. cbn [negb].
  match goal with |- context [getOrCreateBaseFileNode _ _ ?g0] => set (g1 := g0) end.
  assert (wf g1 /\ vinv n g1) as [Hw1 Hv1] by (subst g1; split; eauto 10 with prov).
  assert (versionTracker g1 = versionTracker g) as Hvt by (subst g1; by vt_simpl).
  pose proof (baseFile_ok evt ts g1) as Hok.
  pose proof (baseFile_vinv n evt ts Hn Hevt g1 Hv1) as Hvv.
  assert (snd (getOrCreateBaseFileNode evt ts g1) = v) as Hfid.
  { unfold getOrCreateBaseFileNode, LatestVersion. cbn [snd versionTracker set_versionTracker].
    rewrite Hvt. unfold InitVersion, v, latest_of.
    destruct (latest (versionTracker g) !! fileID evt) as [x|] eqn:E; cbn [fst latest].
    - rewrite E. cbn [default from_option id]. apply (v_latest n g Hv) in E as [? _].
      destruct (Z.eqb_spec x 0); f_equal; lia.
    - by rewrite lookup_insert_eq. }
  destruct (getOrCreateBaseFileNode evt ts g1) as [g2 fid]. cbn [snd] in Hfid. subst fid.
  destruct Hok as (Hw2 & _), Hvv as [Hv2 Hs].
  apply (addEdge_hasE n _ _ _ _ _ g2); [done|auto|done| |done].
  apply edge_ids_intro; [reflexivity| |by apply src_tgt]. by apply base_src, base_process.
Qed.
End use.

Lemma dispatch_generate st evt ts g :
  generates evt = true -> dispatch st evt ts g = addFileGenerate evt ts g.
Proof.
  unfold generates, dispatch. intros [H%orb_true_iff _]%andb_true_iff.
  destruct H as [H|H]; apply Z.eqb_eq in H; by rewrite H.
Qed.
Lemma dispatch_open st evt ts g :
  opens evt = true -> dispatch st evt ts g = addFileUse evt ts g.
Proof. unfold opens, dispatch. intros [H%Z.eqb_eq _]%andb_true_iff. by rewrite H. Qed.
Lemma generates_path evt : generates evt = true -> has_path evt = true.
Proof. unfold generates. by intros [_ ?]%andb_true_iff. Qed.
Lemma opens_path evt : opens evt = true -> has_path evt = true.
Proof. unfold opens. by intros [_ ?]%andb_true_iff. Qed.

(** [AddEvent] calls the handler on a graph with the same invariants, edges,
    nodes and versions. *)
Lemma AddEvent_dispatch st evt g :
  exists ts g1, AddEvent st evt g = dispatch st evt ts g1 /\
    versionTracker g1 = versionTracker g /\ (wf g -> wf g1) /\ (forall n, vinv n g -> vinv n g1).
Proof.
  unfold AddEvent. eexists _, _. split; [reflexivity|].
  split_and!; [|intros; eauto with prov..]. case_match; by vt_simpl.
Qed.

Lemma run_app h1 h2 g : run (h1 ++ h2) g = run h2 (run h1 g).
Proof. apply foldl_app. Qed.

(** Between two writes of a file, its latest version and the edges stay. *)
Lemma run_quiet b r s t h n g :
  0 <= n -> n + Z.of_nat (length h) < MaxInt64 -> history_ok h -> wf g -> vinv n g ->
  Forall (fun '(_, e) => ~ (generates e = true /\ fileID e = b)) h ->
  1 <= latest_of (versionTracker g) b -> hasE r s t g ->
  latest_of (versionTracker (run h g)) b = latest_of (versionTracker g) b /\ hasE r s t (run h g).
Proof.
  intros Hn Hl Hh Hw Hv Hq. revert n g Hn Hl Hw Hv.
  induction Hq as [|[st e] h He _ IH]; intros n g Hn Hl Hw Hv H1 HE; [done|].
  inversion Hh as [|? ? Hev Hh']; subst. simpl in Hl, Hev.
  pose proof (latest_other n st e g Hn ltac:(lia) Hv b H1 He) as Hlat.
  destruct (IH Hh' (n + 1) (AddEvent st e g)) as [IH1 IH2];
    [lia|lia|by apply wf_AddEvent|apply vinv_AddEvent; done || lia|lia|by apply hasE_AddEvent|].
  simpl. rewrite IH1. done.
Qed.

(** ** Data flow through a file *)

Definition short_edge (r s t : string) : Prop := (String.length (raw_edge r s t) < 80)%nat.

Definition recorded (r s t : string) (g : Graph) : Prop :=
  exists e, e ∈ Edges g /\ triple e = (r, s, t).

Lemma recorded_intro r s t g : (r, s, t) ∈ triple <$> Edges g -> recorded r s t g.
Proof. intros (e & He & Hin)%list_elem_of_fmap. by exists e. Qed.

Lemma history_ok_app h1 h2 : history_ok (h1 ++ h2) <-> history_ok h1 /\ history_ok h2.
Proof. apply Forall_app. Qed.

(** What one write adds, from a graph with the invariants. *)
Lemma AddEvent_generate n st w g :
  0 <= n -> n + 1 < MaxInt64 -> event_ok w -> wf g -> vinv n g -> generates w = true ->
  let prev := Z.max 1 (latest_of (versionTracker g) (fileID w)) in
  let newID := versionedID (fileID w) (prev + 1) in
  let prevID := versionedID (fileID w) prev in
  let g' := AddEvent st w g in
  has newID g' /\ has prevID g' /\
  (short_edge ProvWasDerivedFrom newID prevID -> hasE ProvWasDerivedFrom newID prevID g') /\
  (short_edge ProvWasGeneratedBy newID (ProcessNodeID (PID w)) ->
    hasE ProvWasGeneratedBy newID (ProcessNodeID (PID w)) g').
Proof.
  intros Hn Hn' Hev Hw Hv Hgen prev newID prevID g'.
  destruct (AddEvent_dispatch st w g) as (ts & g1 & Heq & Hvt & Hw1 & Hv1).
  subst g'. rewrite Heq, dispatch_generate by done. subst prev newID prevID. rewrite <-Hvt.
  apply (addFileGenerate_edges n); auto using generates_path.
Qed.

Lemma AddEvent_open n st r g :
  0 <= n -> n + 1 < MaxInt64 -> event_ok r -> wf g -> vinv n g -> opens r = true ->
  let v := versionedID (fileID r) (Z.max 1 (latest_of (versionTracker g) (fileID r))) in
  short_edge ProvUsed (ProcessNodeID (PID r)) v ->
  hasE ProvUsed (ProcessNodeID (PID r)) v (AddEvent st r g).
Proof.
  intros Hn Hn' Hev Hw Hv Ho v Hs.
  destruct (AddEvent_dispatch st r g) as (ts & g1 & Heq & Hvt & Hw1 & Hv1).
  rewrite Heq, dispatch_open by done. subst v. rewrite <-Hvt in *.
  apply (addFileUse_edge n); auto using opens_path.
Qed.



(** ** Derivation is acyclic, the whole graph is not *)

Definition derived (g : Graph) (x y : string) : Prop := recorded ProvWasDerivedFrom x y g.

Lemma derived_step n g x y :
  wf g -> vinv n g -> derived g x y ->
  exists b i, 1 <= i /\ x = versionedID b (i + 1) /\ y = versionedID b i.
Proof.
  intros Hw Hv (e & He & Ht). apply elem_of_Edges in He as [id Hid]; [|done].
  unfold triple in Ht. injection Ht as Hr <- <-. by apply (v_derived n g Hv id e Hid).
Qed.

Lemma derived_tc n g x y :
  wf g -> vinv n g -> tc (derived g) x y ->
  exists b i j, 1 <= j < i /\ x = versionedID b i /\ y = versionedID b j.
Proof.
  intros Hw Hv. induction 1 as [x y Hd|x y z Hd _ IH];
    destruct (derived_step n g _ _ Hw Hv Hd) as (b & i & Hi & -> & ->).
  - exists b, (i + 1), i. split; [lia|done].
  - destruct IH as (b' & i' & j & Hj & Heq & ->). apply versionedID_inj in Heq as [<- <-].
    exists b, (i + 1), j. split; [lia|done].
Qed.

(** The derivation history of a file is a chain: an entity that (directly or
    through intermediate versions) is recorded as derived from another is a
    strictly later version of the same file; in particular nothing is derived
    from itself. *)
Lemma derivation_ordered (now : time) (h : history) (x y : string) :
  history_ok h -> Z.of_nat (length h) < MaxInt64 ->
  tc (derived (run h (NewGraph now))) x y ->
  exists b i j, 1 <= j < i /\ x = versionedID b i /\ y = versionedID b j /\ x <> y.
Proof.
  intros Hh Hl Hxy. destruct (reachable_inv now h Hh Hl) as [Hw Hv].
  destruct (derived_tc _ _ x y Hw Hv Hxy) as (b & i & j & Hij & -> & ->).
  exists b, i, j. split; [done|]. split_and!; [done|done|].
  intros Heq. apply versionedID_inj in Heq as [_ ?]. lia.
Qed.

Lemma derivation_ordered_witness :
  let g := run [(no_start, ev_write); (no_start, ev_write)] (NewGraph unix_epoch) in
  tc (derived g) "f:4242:8:3#v3" "f:4242:8:3#v1" /\
  exists b i j, 1 <= j < i /\ "f:4242:8:3#v3" = versionedID b i /\ "f:4242:8:3#v1" = versionedID b j /\
    "f:4242:8:3#v3" <> "f:4242:8:3#v1".
Proof.
  intros g.
  assert (Forall (fun p => exists e, e ∈ Edges g /\ triple e = (ProvWasDerivedFrom, p.1, p.2))
            [("f:4242:8:3#v3", "f:4242:8:3#v2"); ("f:4242:8:3#v2", "f:4242:8:3#v1")]) as Hd.
  { repeat constructor; apply recorded_intro; solve_literal. }
  assert (tc (derived g) "f:4242:8:3#v3" "f:4242:8:3#v1") as Ht.
  { inversion Hd as [|? ? H1 Hd']; inversion Hd' as [|? ? H2 _]; subst.
    eapply tc_l; [exact H1|apply tc_once; exact H2]. }
  split; [exact Ht|].
  apply (derivation_ordered unix_epoch [(no_start, ev_write); (no_start, ev_write)]); [|done|exact Ht].
  repeat constructor; done.
Defined.

(** The provenance graph is not acyclic: a process that writes a file and
    then reads it back is linked to the version it generated in both directions,
    although the documentation of [Graph] states that no cycles arise. *)
Lemma write_then_read_back_cycle :
  exists h : history, history_ok h /\
    recorded ProvWasGeneratedBy "f:4242:8:3#v2" "p:100" (run h (NewGraph unix_epoch)) /\
    recorded ProvUsed "p:100" "f:4242:8:3#v2" (run h (NewGraph unix_epoch)).
Proof.
  exists [(no_start, ev_write); (no_start, ev EventFileOpen 100 0 4242 0 "bash" "/tmp/x")].
  split; [repeat constructor; done|].
  split; apply recorded_intro; solve_literal.
Qed.
