(* ===== verification/ProvKinds.v ===== *)
(** * Kinds of nodes in the provenance graph

    In a graph built from events the subtype of a node is one of those below and agrees
    with its PROV type: the activities are exactly the processes, and no identifier is empty.  No handler creates a
    network node, so what looks for one finds nothing. *)
From S2P Require Import Prelude GoStrings Events ProvGraph ProvInv ProvVersions.

Definition kind (n : Node.t) : string * string := (Node.ProvType n, Node.Subtype n).

Definition kinds : list (string * string) :=
  [(ProvActivity, SubProcess); (ProvEntity, SubFile); (ProvEntity, SubCredential); (ProvEntity, "memory"); (ProvEntity, "pipe")].

Definition kinds_ok (g : Graph) : Prop := forall id n, nodes g !! id = Some n -> kind n ∈ kinds /\ id <> "".

Definition keeps_kind (f : Node.t -> Node.t) : Prop := forall n, kind (f n) = kind n.

Lemma kinds_modify id f g : keeps_kind f -> kinds_ok g -> kinds_ok (modify id f g).
Proof.
  intros Hf Hg id' n. unfold modify. simpl. rewrite lookup_alter. case_decide; [|apply Hg]. subst.
  destruct (nodes g !! id') as [m|] eqn:E; intros; simplify_eq/=. rewrite Hf. exact (Hg _ _ E).
Qed.

Lemma kinds_insert id n g : id <> "" -> kind n ∈ kinds -> kinds_ok g -> kinds_ok (set_nodes <[id := n]> g).
Proof. intros Hid Hn Hg id' n'. simpl. rewrite lookup_insert. case_decide; [by intros; simplify_eq|apply Hg]. Qed.

Lemma kinds_getOrCreate id pt st l ts g : id <> "" -> (pt, st) ∈ kinds -> kinds_ok g -> kinds_ok (getOrCreateNode id pt st l ts g).
Proof. intros Hid Hk Hg. unfold getOrCreateNode. case_match; [done|]. by apply kinds_insert. Qed.

Lemma kinds_addEdge r s t ts a g : kinds_ok g -> kinds_ok (addEdge r s t ts a g).
Proof. unfold kinds_ok, addEdge. by case_match. Qed.

Lemma kinds_if (b : bool) g1 g2 : kinds_ok g1 -> kinds_ok g2 -> kinds_ok (if b then g1 else g2).
Proof. by destruct b. Qed.

Lemma kinds_nodes g g' : nodes g' = nodes g -> kinds_ok g -> kinds_ok g'.
Proof. unfold kinds_ok. by intros ->. Qed.

Lemma versioned_named b v : versionedID b v <> "".
Proof. unfold versionedID. by destruct b. Qed.
Lemma latest_named vt b : LatestVersion vt b <> "".
Proof. apply versioned_named. Qed.
Lemma next_named b vt : (NextVersion b vt).1.2 <> "" /\ (NextVersion b vt).2 <> "".
Proof. unfold NextVersion. case_match. split; apply versioned_named. Qed.

Create HintDb kinds.
#[local] Hint Resolve versioned_named latest_named : kinds.
#[local] Hint Extern 3 (_ <> "") => done : kinds.
#[local] Hint Extern 2 (keeps_kind _) => (intros ?; unfold kind; done) : kinds.
#[local] Hint Extern 2 (_ ∈ kinds) => (apply (bool_decide_unpack _); vm_compute; exact I) : kinds.
#[local] Hint Resolve kinds_modify kinds_getOrCreate kinds_insert kinds_addEdge kinds_if : kinds.

Lemma keeps_setAttr k v : keeps_kind (Node.setAttr k v).
Proof. intros n. unfold Node.setAttr. by case_match. Qed.
Lemma keeps_touch ts : keeps_kind (Node.touch ts).
Proof. intros n. unfold Node.touch. by case_match. Qed.
Lemma keeps_annotate evt : keeps_kind (annotateProcessNode evt).
Proof. intros n. unfold annotateProcessNode. by repeat case_match. Qed.
Lemma keeps_updateFile evt : keeps_kind (updateFileNodeAttrs evt).
Proof. intros n. unfold updateFileNodeAttrs. by repeat case_match. Qed.
Lemma keeps_start_time st pid : keeps_kind (set_start_time st pid).
Proof. intros n. unfold set_start_time. case_match; [done|]. apply keeps_setAttr. Qed.
Lemma keeps_upsert k v : keeps_kind (Node.upsertAttr k v).
Proof. done. Qed.
#[local] Hint Resolve keeps_upsert keeps_setAttr keeps_touch keeps_annotate keeps_updateFile keeps_start_time : kinds.

Lemma kinds_baseFile evt ts g : kinds_ok g -> kinds_ok (getOrCreateBaseFileNode evt ts g).1.
Proof. intros Hg. unfold getOrCreateBaseFileNode. simpl. eauto 8 with kinds. Qed.

Lemma kinds_nextVersion evt ts g : kinds_ok g -> kinds_ok (createNextFileVersion evt ts g).1.1.
Proof.
  intros Hg. unfold createNextFileVersion. pose proof (next_named (fileID evt) (versionTracker g)) as [Hp Hn].
  destruct (NextVersion _ _) as [[vt prevID] newID]. cbn [fst snd] in *.
  apply kinds_if; [|apply kinds_addEdge]; (apply kinds_insert; [done|rewrite (keeps_upsert _ _ _), (keeps_updateFile evt _); eauto with kinds|]);
    do 2 (apply kinds_modify; [eauto with kinds|]); apply kinds_getOrCreate; eauto with kinds.
Qed.
#[local] Hint Resolve kinds_baseFile kinds_nextVersion : kinds.

Lemma keeps_inherit p : keeps_kind (InheritParentContext p).
Proof. done. Qed.
#[local] Hint Resolve keeps_inherit : kinds.

(** One update of the graph at a time, outermost first. *)
Ltac kinds_step :=
  first [ eassumption | apply kinds_addEdge | apply kinds_modify; [by eauto with kinds|] | apply kinds_getOrCreate; [by eauto with kinds..|]
        | apply kinds_if | apply kinds_baseFile | apply kinds_nextVersion ].

Lemma kinds_ensureParent pid ts g : kinds_ok g -> kinds_ok (EnsureParentNode pid ts g).
Proof. intros Hg. unfold EnsureParentNode. repeat case_match; repeat kinds_step. Qed.

Lemma kinds_addFork st evt ts g : kinds_ok g -> kinds_ok (addFork st evt ts g).
Proof. intros Hg. unfold addFork. apply kinds_addEdge. case_match; repeat kinds_step. Qed.

Lemma kinds_addCredential evt ts p c u g : c <> "" -> kinds_ok g -> kinds_ok (addCredential evt ts p c u g).
Proof.
  intros Hc Hg. unfold addCredential. apply kinds_addEdge, kinds_insert; [done|rewrite !keeps_setAttr; eauto with kinds|]. repeat kinds_step.
Qed.

Lemma kinds_addExec st evt ts g : kinds_ok g -> kinds_ok (addExec st evt ts g).
Proof.
  intros Hg. unfold addExec. destruct (OnExec _ _ _) as [[ct credID] prevUID].
  match goal with |- context [bool_decide (credID = "")] => idtac end.
  set (g1 := EnsureParentNode _ _ _). assert (kinds_ok g1) as H1 by (apply kinds_ensureParent; repeat kinds_step).
  set (g2 := if bool_decide (credID = "") then _ else _).
  assert (kinds_ok g2) as H2 by (subst g2; case_bool_decide; [|apply kinds_addCredential; [done|]]; exact H1).
  destruct (has_path evt); [|done]. pose proof (kinds_baseFile evt ts g2 H2) as H3.
  destruct (getOrCreateBaseFileNode _ _ _) as [g3 fid]. repeat kinds_step.
Qed.

Lemma kinds_addFileUse evt ts g : kinds_ok g -> kinds_ok (addFileUse evt ts g).
Proof.
  intros Hg. unfold addFileUse. case_match; [done|]. set (g1 := modify _ _ _).
  assert (kinds_ok g1) as H1 by repeat kinds_step. pose proof (kinds_baseFile evt ts g1 H1).
  destruct (getOrCreateBaseFileNode _ _ _). repeat kinds_step.
Qed.

Lemma kinds_addFileGenerate evt ts g : kinds_ok g -> kinds_ok (addFileGenerate evt ts g).
Proof.
  intros Hg. unfold addFileGenerate. case_match; [done|]. set (g1 := modify _ _ _).
  assert (kinds_ok g1) as H1 by repeat kinds_step. pose proof (kinds_nextVersion evt ts g1 H1).
  destruct (createNextFileVersion _ _ _) as [[??]?]. repeat kinds_step.
Qed.

Lemma memory_kind evt :
  (Type_ evt =? EventMemfdCreate) || (Type_ evt =? EventMprotectRX) || (Type_ evt =? EventPipeWrite) || (Type_ evt =? EventPipeRead) = true ->
  (memory_entity evt).1.1.1 <> "" /\ (ProvEntity, (memory_entity evt).1.1.2) ∈ kinds.
Proof. unfold memory_entity. intros. repeat case_match; simplify_eq/=; try done; (split; [done|eauto with kinds]). Qed.

Lemma kinds_addMemoryEvent evt ts g : (memory_entity evt).1.1.1 <> "" /\ (ProvEntity, (memory_entity evt).1.1.2) ∈ kinds -> kinds_ok g -> kinds_ok (addMemoryEvent evt ts g).
Proof.
  intros [Hi Hm] Hg. unfold addMemoryEvent. destruct (memory_entity evt) as [[[eid st] label] flag]. simpl in Hi, Hm.
  apply kinds_addEdge. do 3 (apply kinds_modify; [by eauto with kinds|]). apply kinds_getOrCreate; [done..|]. case_match; repeat kinds_step.
Qed.

Lemma kinds_AddEvent st evt g : kinds_ok g -> kinds_ok (AddEvent st evt g).
Proof.
  intros Hg. unfold AddEvent. set (g1 := if 0 <? PID evt then _ else _).
  assert (kinds_ok g1) as H1 by (subst g1; apply kinds_if; unfold recordFirstTS; case_match; exact Hg).
  unfold dispatch. repeat case_match; eauto using kinds_addFork, kinds_addExec, kinds_addFileUse, kinds_addFileGenerate, kinds_addMemoryEvent, memory_kind.
Qed.

Lemma kinds_new now : kinds_ok (NewGraph now).
Proof. intros id n H. simpl in H. by rewrite lookup_empty in H. Qed.

Lemma kinds_run h g : kinds_ok g -> kinds_ok (run h g).
Proof. unfold run. revert g. induction h as [|[st e] h IH]; intros g Hg; [done|]. apply IH, kinds_AddEvent, Hg. Qed.

Lemma kinds_built now h : kinds_ok (run h (NewGraph now)).
Proof. apply kinds_run, kinds_new. Qed.

(** The activities are exactly the processes, and there is no network node. *)
Lemma process_activity g id n : kinds_ok g -> nodes g !! id = Some n -> Node.Subtype n = SubProcess <-> Node.ProvType n = ProvActivity.
Proof.
  intros Hg Hn. destruct (Hg _ _ Hn) as [Hg' _]. clear Hg. rename Hg' into Hg. unfold kind, kinds in Hg. rewrite !elem_of_cons, elem_of_nil in Hg.
  destruct Hg as [E|[E|[E|[E|[E|[]]]]]]; injection E as -> ->; split; done.
Qed.

Lemma no_network g id n : kinds_ok g -> nodes g !! id = Some n -> Node.Subtype n <> SubNet.
Proof.
  intros Hg Hn E. destruct (Hg _ _ Hn) as [Hg' _]. clear Hg. rename Hg' into Hg. unfold kind, kinds in Hg. rewrite E, !elem_of_cons, elem_of_nil in Hg.
  destruct Hg as [H|[H|[H|[H|[H|[]]]]]]; discriminate.
Qed.
