(* ===== verification/Prune.v ===== *)
(** * Graph pruning ([pruner.go]).

    [Prune] keeps what is connected to an interesting node and deletes the rest.
    The breadth-first search enumerates the edge map once per visited node, so
    the definitions take the map order as a parameter; the theorems show that
    the result does not depend on it.  [PruneLoop] only calls [Prune] on a
    timer. *)
From S2P Require Import Prelude GoStrings Events ProvGraph ProvInv ProvVersions ProvCausal.
From Stdlib Require Import Ascii.

(** ** Definitions *)

Definition sensitivePrefixes : list string :=
  ["/etc/shadow"; "/etc/passwd"; "/etc/sudoers"; "/etc/ssh/"; "/root/"; "/.ssh/";
   "/var/log/auth.log"; "/var/log/secure"].

Definition isPathSensitive (path : string) : bool :=
  existsb (fun p => HasPrefix path p) sensitivePrefixes.

Definition DefaultInterestingChecker (n : Node.t) : bool :=
  bool_decide (Node.Subtype n = "network") || bool_decide (Node.Subtype n = "credential")
  || (bool_decide (Node.Subtype n = "file") && isPathSensitive (Node.Label n))
  || match Node.Attributes n !! "setuid" with Some (ABool b) => b | _ => false end.

(** Phase 1.  A nil [checker] is [None]. *)
Definition interesting (pruneSet : gset string) (checker : option (Node.t -> bool)) (g : Graph)
  : gset string :=
  dom (filter (fun '(id, n) => bool_decide (id ∈ pruneSet) || from_option (fun c => c n) false checker)
              (nodes g)).

(** [if !reachable[x] { reachable[x] = true; queue = append(queue, x) }]. *)
Definition push (st : gset string * list string) (x : string) : gset string * list string :=
  if decide (x ∈ st.1) then st else ({[x]} ∪ st.1, st.2 ++ [x]).

Section prune.
Context `{MapOrder}.

Definition edge_values (g : Graph) : list Edge.t := (map_to_list (edges g)).*2.

(** [reverseIdx[id]]: the sources of the edges into [id]. *)
Definition reverseIdx (g : Graph) (id : string) : list string :=
  Edge.Source <$> filter (fun e => Edge.Target e = id) (range 1 (edge_values g)).

(** One iteration of the search, at index [head] of the queue. *)
Definition expand (g : Graph) (head : nat) (id : string) (st : gset string * list string)
  : gset string * list string :=
  let st := foldl (fun st e => if decide (Edge.Source e = id) then push st (Edge.Target e) else st)
                  st (range (2 + head) (edge_values g)) in
  foldl push st (reverseIdx g id).

(** [for head := 0; head < len(queue); head++]; [None] when the fuel ends. *)
Fixpoint bfs (fuel head : nat) (g : Graph) (st : gset string * list string)
  : option (gset string) :=
  match st.2 !! head with
  | None => Some st.1
  | Some id =>
      match fuel with
      | O => None
      | S fuel => bfs fuel (S head) g (expand g head id st)
      end
  end.

(** Every identifier enters the queue at most once. *)
Definition bfs_fuel (g : Graph) : nat := size (nodes g) + 2 * size (edges g).

Definition sweep (reachable : gset string) (g : Graph) : Graph :=
  let es := filter (fun '(_, e) => Edge.Source e ∈ reachable /\ Edge.Target e ∈ reachable) (edges g) in
  set_edges es (filter (fun id => is_Some (es !! id)) (edgeOrder g))
    (set_nodes (filter (fun '(id, _) => id ∈ reachable)) g).

(** The new graph and the number of nodes removed. *)
Definition Prune (pruneSet : gset string) (checker : option (Node.t -> bool)) (g : Graph)
  : option (Graph * nat) :=
  let int := interesting pruneSet checker g in
  if decide (nodes g = ∅) then Some (g, 0%nat)
  else if decide (int = ∅) then Some (g, 0%nat)
  else
    reachable ← bfs (bfs_fuel g) 0 g (foldl push (∅, []) (range 0 (elements int)));
    Some (sweep reachable g,
          size (filter (fun '(id, _) => id ∉ reachable) (nodes g))).
End prune.

(** ** The search computes connectivity *)

Definition adjacent (g : Graph) (x y : string) : Prop :=
  exists id e, edges g !! id = Some e /\
    ((Edge.Source e = x /\ Edge.Target e = y) \/ (Edge.Source e = y /\ Edge.Target e = x)).

(** [id] is linked to an interesting node by edges in either direction. *)
Definition connected (g : Graph) (int : gset string) (id : string) : Prop :=
  exists i, i ∈ int /\ rtc (adjacent g) i id.

(** The queue lists exactly the marked identifiers, each once. *)
Definition q_ok (st : gset string * list string) : Prop :=
  NoDup st.2 /\ forall x, x ∈ st.2 <-> x ∈ st.1.

Lemma push_all xs st :
  q_ok st ->
  q_ok (foldl push st xs) /\
  (forall x, x ∈ (foldl push st xs).1 <-> x ∈ st.1 \/ x ∈ xs) /\
  st.2 `prefix_of` (foldl push st xs).2.
Proof.
  revert st. induction xs as [|x xs IH]; intros [r q] [Hnd Hq]; simpl in *.
  - split_and!; [done|set_solver|done].
  - destruct (IH (push (r, q) x)) as (H1 & H2 & H3).
    + unfold push. simpl. case_decide; [done|]. split; simpl.
      * apply NoDup_app. split_and!; [done| |apply NoDup_singleton]. set_solver.
      * set_solver.
    + split_and!; [done| |].
      * intros y. rewrite H2. unfold push. simpl. case_decide; set_solver.
      * etrans; [|exact H3]. unfold push. simpl. case_decide; [done|]. by apply prefix_app_r.
Qed.

Lemma foldl_guard (id : string) (l : list Edge.t) st :
  foldl (fun st e => if decide (Edge.Source e = id) then push st (Edge.Target e) else st) st l
  = foldl push st (Edge.Target <$> filter (fun e => Edge.Source e = id) l).
Proof.
  revert st. induction l as [|e l IH]; intros st; simpl; [done|].
  rewrite filter_cons. case_decide; simpl; by rewrite IH.
Qed.

Lemma elem_of_edge_values g e : e ∈ edge_values g <-> exists id, edges g !! id = Some e.
Proof.
  unfold edge_values. rewrite list_elem_of_fmap. split.
  - intros ([id e'] & -> & Hin). exists id. by apply elem_of_map_to_list.
  - intros [id Hid]. exists (id, e). split; [done|]. by apply elem_of_map_to_list.
Qed.

Section search.
Context `{MapOrder} (g : Graph).

Lemma expand_spec head id st :
  q_ok st ->
  q_ok (expand g head id st) /\
  (forall y, y ∈ (expand g head id st).1 <-> y ∈ st.1 \/ adjacent g id y) /\
  st.2 `prefix_of` (expand g head id st).2.
Proof.
  intros Hst. unfold expand. rewrite foldl_guard.
  destruct (push_all (Edge.Target <$> filter (fun e => Edge.Source e = id)
    (range (2 + head) (edge_values g))) st Hst) as (H1 & H2 & H3).
  destruct (push_all (reverseIdx g id) _ H1) as (H4 & H5 & H6).
  split_and!; [done| |by etrans]. intros y. rewrite H5, H2. unfold reverseIdx.
  rewrite !list_elem_of_fmap. setoid_rewrite list_elem_of_filter. setoid_rewrite elem_of_range.
  setoid_rewrite elem_of_edge_values. unfold adjacent. naive_solver.
Qed.

(** When the whole queue is processed, the marked set is closed. *)
Lemma search_done (int : gset string) head st x :
  q_ok st -> int ⊆ st.1 ->
  (forall k x y, (k < head)%nat -> st.2 !! k = Some x -> adjacent g x y -> y ∈ st.1) ->
  st.2 !! head = None -> connected g int x -> x ∈ st.1.
Proof.
  intros Hq Hint Hproc Hid%lookup_ge_None (i & Hi%Hint & Hr).
  induction Hr as [|x y z Hxy _ IH]; [done|]. apply IH.
  apply Hq in Hi as [k Hk]%list_elem_of_lookup.
  pose proof (lookup_lt_Some _ _ _ Hk). eapply (Hproc k); [lia|done|done].
Qed.

(** The set [U] bounds what can be marked. *)
Lemma bfs_spec (int U : gset string) fuel head st :
  q_ok st -> int ⊆ st.1 -> st.1 ⊆ U ->
  (forall x y, x ∈ U -> adjacent g x y -> y ∈ U) ->
  (forall x, x ∈ st.1 -> connected g int x) ->
  (forall k x y, (k < head)%nat -> st.2 !! k = Some x -> adjacent g x y -> y ∈ st.1) ->
  (size U <= fuel + head)%nat ->
  exists r, bfs fuel head g st = Some r /\ forall x, x ∈ r <-> connected g int x.
Proof.
  intros Hq Hint HU Hcl Hcon Hproc Hfuel. revert head st Hq Hint HU Hcon Hproc Hfuel.
  induction fuel as [|fuel IH]; intros head st Hq Hint HU Hcon Hproc Hfuel;
    simpl; (destruct (st.2 !! head) as [id|] eqn:Hid; [|eexists; split; [done|]]).
  - exfalso. apply lookup_lt_Some in Hid.
    assert (length st.2 <= size U)%nat; [|lia].
    destruct Hq as [Hnd Hq]. rewrite <-(size_list_to_set (C := gset string)) by done.
    apply subseteq_size. set_solver.
  - intros x. split; [apply Hcon|]. by apply (search_done int head).
  - assert (id ∈ st.1) as Hin by (apply Hq; by eapply list_elem_of_lookup_2).
    destruct (expand_spec head id st Hq) as (H1 & H2 & H3).
    apply IH; [done|set_solver| | | |lia].
    + intros y [Hy|Hy]%H2; [by apply HU|]. eapply Hcl; [by apply HU|done].
    + intros y [Hy|Hy]%H2; [by apply Hcon|]. destruct (Hcon id Hin) as (i & Hi & Hr).
      exists i. split; [done|]. by eapply rtc_r.
    + intros k x y Hk Hx Hxy. apply H2. destruct (decide (k = head)) as [->|].
      * right. apply (prefix_lookup_Some _ _ _ _ Hid) in H3. by simplify_eq.
      * left. apply (Hproc k x); [lia| |done].
        assert (k < length st.2)%nat as [x' Hx']%lookup_lt_is_Some
          by (apply lookup_lt_Some in Hid; lia).
        pose proof (prefix_lookup_Some _ _ _ _ Hx' H3). by simplify_eq.
  - intros x. split; [apply Hcon|]. by apply (search_done int head).
Qed.
End search.

(** Everything the search can mark: the nodes and the end points of edges. *)
Definition universe (g : Graph) : gset string :=
  dom (nodes g) ∪ list_to_set (Edge.Source <$> edge_values g)
  ∪ list_to_set (Edge.Target <$> edge_values g).

Lemma length_edge_values g : length (edge_values g) = size (edges g).
Proof. unfold edge_values. by rewrite length_fmap, length_map_to_list. Qed.

Lemma size_universe g : (size (universe g) <= bfs_fuel g)%nat.
Proof.
  unfold universe, bfs_fuel. rewrite !size_union_alt, size_dom.
  pose proof (size_list_to_set_le (Edge.Source <$> edge_values g)) as H1.
  pose proof (size_list_to_set_le (Edge.Target <$> edge_values g)) as H2.
  rewrite length_fmap, length_edge_values in H1, H2.
  match goal with |- (_ + size (?A ∖ ?B) + size (?C ∖ ?D) <= _)%nat =>
    assert (size (A ∖ B) <= size A)%nat by (apply subseteq_size; set_solver);
    assert (size (C ∖ D) <= size C)%nat by (apply subseteq_size; set_solver) end.
  lia.
Qed.

Lemma universe_adjacent g x y : adjacent g x y -> y ∈ universe g.
Proof.
  intros (id & e & He & Hor). unfold universe.
  rewrite !elem_of_union, !elem_of_list_to_set, !list_elem_of_fmap.
  assert (e ∈ edge_values g) by (apply elem_of_edge_values; by eauto).
  destruct Hor as [[<- <-]|[<- <-]]; by eauto.
Qed.

Lemma search_start `{MapOrder} (int : gset string) :
  let st := foldl push (∅, []) (range 0 (elements int)) in
  q_ok st /\ forall x, x ∈ st.1 <-> x ∈ int.
Proof.
  destruct (push_all (range 0 (elements int)) (∅, [])) as (H1 & H2 & _).
  { split; simpl; [constructor|set_solver]. }
  split; [done|]. intros x. rewrite H2, elem_of_range, elem_of_elements. set_solver.
Qed.

Lemma interesting_nodes S c g id : id ∈ interesting S c g -> id ∈ dom (nodes g).
Proof.
  unfold interesting. rewrite !elem_of_dom. intros [n Hn].
  apply map_lookup_filter_Some in Hn as [Hn _]. by eexists.
Qed.

(** The search succeeds and marks exactly the connected identifiers. *)
Lemma prune_search `{MapOrder} S c g :
  let int := interesting S c g in
  exists r, bfs (bfs_fuel g) 0 g (foldl push (∅, []) (range 0 (elements int))) = Some r /\
    forall x, x ∈ r <-> connected g int x.
Proof.
  intros int. destruct (search_start int) as [Hq Hin].
  apply (bfs_spec g int (universe g)); [done|set_solver| | | | |].
  - intros x Hx%Hin%interesting_nodes. unfold universe. set_solver.
  - intros x y _. apply universe_adjacent.
  - intros x Hx%Hin. by exists x.
  - lia.
  - pose proof (size_universe g). lia.
Qed.

(** The outcome of [Prune]: untouched without interesting nodes, else a sweep. *)
Lemma Prune_cases `{MapOrder} S c g :
  let int := interesting S c g in
  (int = ∅ /\ Prune S c g = Some (g, 0%nat)) \/
  (int <> ∅ /\ exists r, (forall x, x ∈ r <-> connected g int x) /\
     Prune S c g = Some (sweep r g, size (filter (fun '(id, _) => id ∉ r) (nodes g)))).
Proof.
  intros int. unfold Prune. case_decide as Hn.
  { left. split; [|done]. subst int. unfold interesting. rewrite Hn, map_filter_empty. apply dom_empty_L. }
  case_decide as Hi; [by left|]. right. split; [done|].
  destruct (prune_search S c g) as (r & -> & Hr). by exists r.
Qed.

Lemma size_sweep {A} (r : gset string) (m : gmap string A) :
  size m = (size (filter (fun '(id, _) => id ∈ r) m) + size (filter (fun '(id, _) => id ∉ r) m))%nat.
Proof.
  rewrite <-(map_filter_union_complement (fun '(id, _) => id ∈ r) m) at 1.
  rewrite map_size_disj_union by apply map_disjoint_filter_complement.
  f_equal.
Qed.

(** ** Theorems *)

(** The graph has no interesting node, or [id] is connected to one. *)
Definition survives (S : gset string) (c : option (Node.t -> bool)) (g : Graph) (id : string) : Prop :=
  interesting S c g = ∅ \/ connected g (interesting S c g) id.

Lemma connected_edge g int id e :
  edges g !! id = Some e -> connected g int (Edge.Source e) <-> connected g int (Edge.Target e).
Proof.
  intros He. split; intros (i & Hi & Hr); exists i; (split; [done|]); eapply rtc_r; try exact Hr;
    exists id, e; tauto.
Qed.

(** [C8] Pruning is exact and terminates.  For every map iteration order, [Prune]
    finishes (the search never needs more iterations than there are nodes and
    edge ends); a node survives, unchanged, exactly if it is linked by edges in
    either direction to an interesting node (or no node is interesting); an edge
    survives exactly if its source -- equivalently its target -- does; and the
    returned number is the number of nodes deleted. *)
Theorem prune_exact `{MapOrder} (S : gset string) (c : option (Node.t -> bool)) (g : Graph) :
  exists g' removed, Prune S c g = Some (g', removed) /\
    (forall id n, nodes g' !! id = Some n <-> nodes g !! id = Some n /\ survives S c g id) /\
    (forall id e, edges g' !! id = Some e <->
       edges g !! id = Some e /\ survives S c g (Edge.Source e)) /\
    size (nodes g) = (size (nodes g') + removed)%nat.
Proof.
  unfold survives. destruct (Prune_cases S c g) as [[Hi ->]|(Hi & r & Hr & ->)].
  - exists g, 0%nat. rewrite Hi. split_and!; [done|naive_solver..|lia].
  - eexists _, _. split; [done|]. simpl. split_and!.
    + intros id n. rewrite map_lookup_filter_Some, Hr. naive_solver.
    + intros id e. rewrite map_lookup_filter_Some, !Hr. split.
      * naive_solver.
      * intros [He [?|Hc]]; [done|]. split; [done|]. by rewrite <-(connected_edge _ _ id).
    + apply size_sweep.
Qed.

Lemma sweep_wf r g : wf g -> wf (sweep r g).
Proof.
  intros Hg.
  assert (forall id n, nodes (sweep r g) !! id = Some n -> nodes g !! id = Some n) as Hn
    by (intros id n; simpl; rewrite map_lookup_filter_Some; naive_solver).
  assert (forall id e, edges (sweep r g) !! id = Some e -> edges g !! id = Some e) as He
    by (intros id e; simpl; rewrite map_lookup_filter_Some; naive_solver).
  split; intros *; try (intros ?%Hn || intros ?%He; by eapply Hg || eauto using wf_edge_key, wf_edge_rel).
  - intros Hid. pose proof (He _ _ Hid) as Hid'. destruct (wf_edge_ends g Hg _ _ Hid') as [[a Ha] [b Hb]].
    simpl in Hid. apply map_lookup_filter_Some in Hid as [_ [Hs Ht]].
    split; [exists a|exists b]; simpl; by apply map_lookup_filter_Some.
  - simpl. apply NoDup_filter, Hg.
  - simpl. rewrite list_elem_of_filter. split; [naive_solver|]. intros Hs. split; [done|].
    apply (wf_order_dom g Hg). destruct Hs as [e Hs]. exists e. by apply (He id e).
Qed.

Lemma sweep_vinv n r g : vinv n g -> vinv n (sweep r g).
Proof.
  intros Hg.
  assert (forall id e, edges (sweep r g) !! id = Some e -> edges g !! id = Some e) as He
    by (intros id e; simpl; rewrite map_lookup_filter_Some; naive_solver).
  split; try apply Hg.
  - intros id [m Hm]. simpl in Hm. apply map_lookup_filter_Some in Hm as [Hm _].
    apply (v_nodes n g Hg). by exists m.
  - intros id e ?%He. by apply (v_derived n g Hg id).
  - intros id e ?%He. by apply (v_edges n g Hg id).
Qed.

(** The graph under concurrent use: events are added and pruning runs in any
    order (each holds the graph's lock). *)
Inductive action :=
  | Add (start_time : Z -> Z) (evt : Event)
  | DoPrune (order : MapOrder) (pruneSet : gset string) (checker : option (Node.t -> bool)).

Inductive graph_step : Graph -> action -> Graph -> Prop :=
  | step_add st evt g : graph_step g (Add st evt) (AddEvent st evt g)
  | step_prune (order : MapOrder) S c g g' k :
      Prune S c g = Some (g', k) -> graph_step g (DoPrune order S c) g'.

Inductive reachable : Z -> Graph -> Prop :=
  | reach_new now : reachable 0 (NewGraph now)
  | reach_step n g a g' : reachable n g -> graph_step g a g' ->
      (forall st evt, a = Add st evt -> event_ok evt) -> reachable (n + 1) g'.

Lemma reachable_inv_step n g : reachable n g -> 0 <= n /\ wf g /\ (n < MaxInt64 -> vinv n g).
Proof.
  induction 1 as [now|n g a g' _ (Hn & Hw & Hv) Hs Hok].
  { split_and!; [done|apply wf_NewGraph|intros; apply vinv_NewGraph]. }
  assert (forall g', vinv n g' -> vinv (n + 1) g') as Hm by (intros; apply (vinv_mono n); [lia|done]).
  split; [lia|]. inversion Hs as [st evt|order S c g0 g1 k Hp]; subst.
  - split; [by apply wf_AddEvent|]. intros. apply vinv_AddEvent; [lia..|by eapply Hok|apply Hv; lia].
  - destruct (Prune_cases S c g) as [[_ Heq]|(_ & r & _ & Heq)]; rewrite Heq in Hp; simplify_eq.
    + split; [done|]. intros. apply Hm, Hv. lia.
    + split; [by apply sweep_wf|]. intros. apply Hm, sweep_vinv, Hv. lia.
Qed.

(** Invariants under any interleaving of events and pruning.  In every graph
    reachable by adding events and pruning (with any checker, any extra kept set
    and any map iteration order), the structural and PROV typing invariants hold,
    and derivations still lead from later to strictly earlier versions of one
    file. *)
Lemma reachable_graph_ok (n : Z) (g : Graph) :
  reachable n g -> n < MaxInt64 ->
  wf g /\ forall x y, tc (derived g) x y ->
    exists b i j, 1 <= j < i /\ x = versionedID b i /\ y = versionedID b j.
Proof.
  intros Hr Hn. destruct (reachable_inv_step n g Hr) as (_ & Hw & Hv).
  split; [done|]. intros x y. apply (derived_tc n g); auto.
Qed.

(** The example of the witnesses: process 200 reads [/etc/shadow] and [/tmp/y],
    process 300 writes [/tmp/z]. *)
Definition ev_shadow := ev EventFileOpen 200 0 11 0 "cat" "/etc/shadow".
Definition ev_tmp_y := ev EventFileOpen 200 0 22 0 "cat" "/tmp/y".
Definition ev_tmp_z := ev EventFileModify 300 0 33 0 "vi" "/tmp/z".
Definition prune_history : history :=
  [(no_start, ev_shadow); (no_start, ev_tmp_y); (no_start, ev_tmp_z)].
Definition g_unpruned : Graph := run prune_history (NewGraph unix_epoch).
Definition do_prune (g : Graph) : Graph :=
  from_option fst g (@Prune alternating_order ∅ (Some DefaultInterestingChecker) g).

Lemma reachable_graph_ok_witness :
  let g := do_prune g_unpruned in
  reachable 4 g /\ elements (dom (nodes g_unpruned)) <> elements (dom (nodes g)) /\ wf g.
Proof.
  intros g. assert (reachable 4 g) as Hr.
  { apply (reach_step 3 g_unpruned (DoPrune alternating_order ∅ (Some DefaultInterestingChecker)));
      [|econstructor; vm_compute; reflexivity|by intros].
    unfold g_unpruned, prune_history, run. cbn [foldl].
    change 3 with (0 + 1 + 1 + 1).
    do 3 (eapply (reach_step _ _ (Add _ _)); [|constructor|intros ? ? [= <- <-]; constructor; done]).
    apply reach_new. }
  split_and!; [exact Hr|vm_compute; discriminate|]. by apply (reachable_graph_ok 4 g Hr).
Defined.

Definition forward (g : Graph) (x y : string) : Prop :=
  exists e, e ∈ Edges g /\ Edge.Source e = x /\ Edge.Target e = y.

(** Pruning keeps more than the documented set.  The comment on [Prune]
    describes the kept set as the ancestors and the descendants of interesting
    nodes; the single search follows edges in both directions at every step and
    also keeps relatives: here the file [/tmp/y], read by the process that read
    [/etc/shadow], survives although no directed path links it, either way, to
    the only interesting node. *)
Lemma prune_keeps_relatives :
  interesting ∅ (Some DefaultInterestingChecker) g_unpruned = {["f:11:8:3#v1"]} /\
  has "f:22:8:3#v1" (do_prune g_unpruned) /\
  ~ rtc (forward g_unpruned) "f:11:8:3#v1" "f:22:8:3#v1" /\
  ~ rtc (forward g_unpruned) "f:22:8:3#v1" "f:11:8:3#v1".
Proof.
  assert (Forall (fun e => Edge.Source e <> "f:11:8:3#v1" /\ Edge.Source e <> "f:22:8:3#v1")
            (Edges g_unpruned)) as Hsrc by solve_literal.
  rewrite Forall_forall in Hsrc.
  split_and!.
  - vm_compute. reflexivity.
  - vm_compute. by eexists.
  - inversion 1 as [|? y ? (e & He & Hs & _) _]; subst. by apply Hsrc in He as [? _].
  - inversion 1 as [|? y ? (e & He & Hs & _) _]; subst. by apply Hsrc in He as [_ ?].
Qed.
