(* ===== verification/Taint.v ===== *)
(** * The taint engine ([internal/engine/taint/taint.go]).

    The state maps node identifiers to taint states; each [*State] of the code is
    owned by its map entry, so an update through the pointer is an update of the
    entry.  [now] is the value of [time.Now()] in a call.  Every operation is one
    atomic step.  [IsExternalIP] is not modelled (it is a query on [net.IP] values).

    The specification is an information-flow relation on histories of operations:
    [flow h x ip] says that data from [ip] could reach [x].  The theorems relate
    the engine to it in both directions. *)
From S2P Require Import Prelude GoStrings.
From Stdlib Require Import Ascii.

Module Taint.

(** ** Data *)

Definition Clean : Z := 0.
Definition Suspicious : Z := 1.
Definition Tainted : Z := 2.
Definition HighlyTainted : Z := 3.

Definition Level_String (l : Z) : string :=
  if l =? Clean then "CLEAN" else if l =? Suspicious then "SUSPICIOUS"
  else if l =? Tainted then "TAINTED" else if l =? HighlyTainted then "HIGH_TAINT"
  else "TAINT_" +:+ pretty l.

Record State := mkState {
  ID : string; Type_ : string; Level : Z; Source : string; SourceIP : string; UpdatedAt : time;
}.

Record Config := mkConfig {
  NonInternalPrefixes : list string;
  CleanCommands : list string;
  SensitivePaths : list string;
  TaintDecayAfter : duration;
  EnableAlerting : bool;
}.

Definition DefaultConfig : Config := mkConfig
  ["10."; "192.168."; "172.16."; "172.17."; "172.18."; "172.19.";
   "172.20."; "172.21."; "172.22."; "172.23."; "172.24."; "172.25.";
   "172.26."; "172.27."; "172.28."; "172.29."; "172.30."; "172.31.";
   "127."; "169.254."]
  ["openssl"; "gpg"; "signify"; "ssh-keygen"; "rpmkeys"; "dpkg-sig"; "debsig-verify"]
  ["/etc/shadow"; "/etc/passwd"; "/etc/sudoers"; "/etc/ssh/"; "/root/.ssh/"; "/.aws/credentials"]
  (30 * Minute) true.

Record TaintAlert := mkAlert {
  a_ID : Z; a_Timestamp : time; ProcessID : string; ProcessComm : string; TaintLevel : Z;
  TaintSource : string; TaintIP : string; Action : string; Target : string; Severity : string;
}.

Record TaintEngine := mkEngine {
  cfg : Config; states : gmap string State; alerts : list TaintAlert; alertID : Z;
}.

(** A nil configuration is [None]. *)
Definition New (c : option Config) : TaintEngine := mkEngine (default DefaultConfig c) ∅ [] 0.

Definition set_states (m : gmap string State) (te : TaintEngine) : TaintEngine :=
  mkEngine (cfg te) m (alerts te) (alertID te).

(** ** Operations *)

Definition MatchTaint `{UnicodeCase} (pattern value : string) : bool :=
  if bool_decide (pattern = "") then false
  else if HasSuffix pattern "*" then
    let prefix := TrimSuffix pattern "*" in
    if (String.length value <? String.length prefix)%nat then false
    else EqualFold (String.substring 0 (String.length prefix) value) prefix
  else EqualFold value pattern.

Definition MarkSocketSource (processID sourceIP : string) (now : time) (te : TaintEngine)
  : TaintEngine * State :=
  let state := mkState processID "process" Tainted ("socket_read:" +:+ sourceIP) sourceIP now in
  (set_states (<[processID := state]> (states te)) te, state).

(** [None] is a nil result. *)
Definition propagate (targetID targetType sourceID sourceType reason : string) (now : time)
    (te : TaintEngine) : TaintEngine * option State :=
  match states te !! sourceID with
  | None => (te, None)
  | Some source =>
      if Level source <? Tainted then (te, None)
      else
        let state := mkState targetID targetType (Level source)
                       (sourceType +:+ ":" +:+ sourceID +:+ " " +:+ reason) (SourceIP source) now in
        match states te !! targetID with
        | Some existing =>
            if Level source <=? Level existing then (te, Some existing)
            else (set_states (<[targetID := state]> (states te)) te, Some state)
        | None => (set_states (<[targetID := state]> (states te)) te, Some state)
        end
  end.

Definition PropagateRead (processID fileID : string) : time -> TaintEngine -> TaintEngine * option State :=
  propagate processID "process" fileID "file" ("read_tainted_file:" +:+ fileID).

Definition PropagateWrite (processID fileID : string) : time -> TaintEngine -> TaintEngine * option State :=
  propagate fileID "file" processID "process" ("written_by_tainted:" +:+ processID).

Definition PropagateFork (parentID childID : string) (now : time) (te : TaintEngine)
  : TaintEngine * option State :=
  match states te !! parentID with
  | None => (te, None)
  | Some parent =>
      if Level parent <? Tainted then (te, None)
      else
        let child := mkState childID "process" (Level parent)
                       ("forked_from_tainted:" +:+ parentID) (SourceIP parent) now in
        (set_states (<[childID := child]> (states te)) te, Some child)
  end.

Definition IsCleanCommand `{UnicodeCase} (te : TaintEngine) (comm : string) : bool :=
  existsb (fun clean => EqualFold comm clean) (CleanCommands (cfg te)).

Definition set_level (l : Z) (src : string) (s : State) : State :=
  mkState (ID s) (Type_ s) l src (SourceIP s) (UpdatedAt s).

Definition CleanTaint (nodeID : string) (te : TaintEngine) : TaintEngine :=
  match states te !! nodeID with
  | Some state =>
      if Clean <? Level state
      then set_states (<[nodeID := set_level Clean "cleaned:legitimate_operation" state]> (states te)) te
      else te
  | None => te
  end.

Definition aged (cutoff : time) (s : State) : bool :=
  time_Before (UpdatedAt s) cutoff && (Suspicious <? Level s).

Definition DecayTaint (now : time) (te : TaintEngine) : TaintEngine * nat :=
  if TaintDecayAfter (cfg te) <=? 0 then (te, 0%nat)
  else
    let cutoff := time_Add now (- TaintDecayAfter (cfg te)) in
    (set_states ((fun s => if aged cutoff s then set_level Suspicious "decayed:age" s else s)
                   <$> states te) te,
     size (filter (fun '(_, s) => aged cutoff s) (states te))).

Definition IsSensitivePath (te : TaintEngine) (rawPath : string) : bool :=
  let cleaned := path_Clean rawPath in
  existsb (fun sp => HasPrefix cleaned sp || bool_decide (cleaned = sp)) (SensitivePaths (cfg te)).

Definition CheckAction (processID comm action target : string) (now : time) (te : TaintEngine)
  : TaintEngine * option TaintAlert :=
  match states te !! processID with
  | None => (te, None)
  | Some state =>
      if Level state <? Tainted then (te, None)
      else
        let sensitive := IsSensitivePath te target in
        if negb sensitive && bool_decide (action = "read") then (te, None)
        else if negb sensitive && negb (bool_decide (action = "ptrace"))
                && negb (bool_decide (action = "exec")) then (te, None)
        else
          let id := i64 (alertID te + 1) in
          let alert := mkAlert id now processID comm (Level state) (Source state) (SourceIP state)
                         action target
                         (if (HighlyTainted <=? Level state) || sensitive then "CRITICAL" else "HIGH") in
          (mkEngine (cfg te) (states te)
             (if EnableAlerting (cfg te) then alerts te ++ [alert] else alerts te) id,
           Some alert)
  end.

Definition GetTaint (te : TaintEngine) (nodeID : string) : option State := states te !! nodeID.
Definition Alerts (te : TaintEngine) : list TaintAlert := alerts te.

Record TaintStats := { tainted_nodes : nat; tainted_procs : nat; tainted_files : nat; total_tracked : nat }.
Definition Stats (te : TaintEngine) : TaintStats :=
  let tainted := filter (fun '(_, s) => Tainted <=? Level s) (states te) in
  {| tainted_nodes := size tainted;
     tainted_procs := size (filter (fun '(_, s) => Type_ s <> "file") tainted);
     tainted_files := size (filter (fun '(_, s) => Type_ s = "file") tainted);
     total_tracked := size (states te) |}.

(** ** Specification: flows in histories of operations *)

Inductive op :=
  | Mark (processID sourceIP : string)
  | Read (processID fileID : string)
  | Write (processID fileID : string)
  | Fork (parentID childID : string)
  | DoClean (nodeID : string)
  | Decay
  | Check (processID comm action target : string).

Definition apply_op (now : time) (o : op) (te : TaintEngine) : TaintEngine :=
  match o with
  | Mark p ip => fst (MarkSocketSource p ip now te)
  | Read p f => fst (PropagateRead p f now te)
  | Write p f => fst (PropagateWrite p f now te)
  | Fork p c => fst (PropagateFork p c now te)
  | DoClean x => CleanTaint x te
  | Decay => fst (DecayTaint now te)
  | Check p comm a t => fst (CheckAction p comm a t now te)
  end.

(** Histories list the most recent operation first. *)
Definition history := list (time * op).
Fixpoint exec (c : option Config) (h : history) : TaintEngine :=
  match h with
  | [] => New c
  | (now, o) :: h => apply_op now o (exec c h)
  end.

(** [flow h x ip]: in [h], a process was marked with the address [ip] and a chain
    of later reads, writes and forks leads from it to [x]. *)
Inductive flow : history -> string -> string -> Prop :=
  | flow_mark now p ip h : flow ((now, Mark p ip) :: h) p ip
  | flow_read now p f ip h : flow h f ip -> flow ((now, Read p f) :: h) p ip
  | flow_write now p f ip h : flow h p ip -> flow ((now, Write p f) :: h) f ip
  | flow_fork now p c ip h : flow h p ip -> flow ((now, Fork p c) :: h) c ip
  | flow_keep o x ip h : flow h x ip -> flow (o :: h) x ip.

(** Operations other than cleaning and decay. *)
Definition no_reset (h : history) : Prop :=
  Forall (fun '(_, o) => match o with DoClean _ | Decay => False | _ => True end) h.

(** ** Invariant *)

Definition state_ok (h : history) (x : string) (s : State) : Prop :=
  ID s = x /\ Clean <= Level s <= Tainted /\ flow h x (SourceIP s).

Definition states_ok (h : history) (te : TaintEngine) : Prop :=
  map_Forall (state_ok h) (states te).

(** An alert was raised by a check of a process that [flow] reaches. *)
Definition justified (h : history) (a : TaintAlert) : Prop :=
  TaintLevel a = Tainted /\
  exists h1 h2, h = h1 ++ (a_Timestamp a, Check (ProcessID a) (ProcessComm a) (Action a) (Target a)) :: h2
    /\ flow h2 (ProcessID a) (TaintIP a).

Create HintDb taint discriminated.
#[local] Hint Constructors flow : taint.

Lemma states_ok_keep o h te : states_ok h te -> states_ok (o :: h) te.
Proof.
  intros Hs x s Hx. destruct (Hs x s Hx) as (? & ? & ?). unfold state_ok. eauto with taint.
Qed.

Lemma states_ok_insert h x s te :
  state_ok h x s -> states_ok h te -> states_ok h (set_states (<[x := s]> (states te)) te).
Proof. intros. by apply map_Forall_insert_2. Qed.

(** A state copied from a tainted one along a flow. *)
Lemma propagate_ok tid tt sid sty why now o h te :
  states_ok h te -> (forall ip, flow h sid ip -> flow (o :: h) tid ip) ->
  states_ok (o :: h) (fst (propagate tid tt sid sty why now te)).
Proof.
  intros Hs Hf. pose proof (states_ok_keep o h te Hs) as Hk. unfold propagate.
  destruct (states te !! sid) as [src|] eqn:Hsrc; [|done]. destruct (Hs _ _ Hsrc) as (_ & Hl & Hfl).
  destruct (Level src <? Tainted); [done|].
  assert (state_ok (o :: h) tid (mkState tid tt (Level src)
            (sty +:+ ":" +:+ sid +:+ " " +:+ why) (SourceIP src) now)).
  { split_and!; simpl; [done|lia|lia|auto]. }
  destruct (states te !! tid) as [ex|]; [destruct (Level src <=? Level ex)|]; [done|..];
    by apply states_ok_insert.
Qed.

Lemma apply_op_ok now o h te : states_ok h te -> states_ok ((now, o) :: h) (apply_op now o te).
Proof.
  intros Hs. pose proof (states_ok_keep (now, o) h te Hs) as Hk. destruct o; simpl.
  - apply states_ok_insert; [|done]. split_and!; simpl; [done..|auto with taint].
  - apply propagate_ok; auto with taint.
  - apply propagate_ok; auto with taint.
  - unfold PropagateFork. destruct (states te !! parentID) as [src|] eqn:Hsrc; [|done].
    destruct (Hs _ _ Hsrc) as (_ & Hl & Hfl). destruct (Level src <? Tainted); [done|].
    apply states_ok_insert; [|done]. split_and!; simpl; [done|lia|lia|auto with taint].
  - unfold CleanTaint. destruct (states te !! nodeID) as [s|] eqn:Hx; [|done].
    destruct (Clean <? Level s); [|done]. apply states_ok_insert; [|done].
    destruct (Hk _ _ Hx) as (? & ? & ?). split_and!; simpl; done.
  - unfold DecayTaint. case_match; [done|]. simpl. intros x s'. simpl.
    rewrite lookup_fmap. destruct (states te !! x) as [s|] eqn:Hx; simpl; [|done].
    intros [= <-]. destruct (Hk _ _ Hx) as (? & ? & ?).
    case_match; split_and!; simpl; done || lia.
  - unfold CheckAction. repeat case_match; done.
Qed.

Lemma exec_ok c h : states_ok h (exec c h).
Proof. induction h as [|[now o] h IH]; [apply map_Forall_empty|]. by apply apply_op_ok. Qed.

Lemma cfg_apply now o te : cfg (apply_op now o te) = cfg te.
Proof.
  destruct o; simpl; unfold PropagateRead, PropagateWrite, propagate, PropagateFork, CleanTaint,
    DecayTaint, CheckAction; repeat case_match; done.
Qed.

Lemma cfg_exec c h : cfg (exec c h) = default DefaultConfig c.
Proof. induction h as [|[now o] h IH]; [done|]. simpl. by rewrite cfg_apply. Qed.

(** What [CheckAction] does, in one equation. *)
Definition alerting (te : TaintEngine) (processID action target : string) : option State :=
  s ← states te !! processID;
  if (Tainted <=? Level s) && (IsSensitivePath te target
      || bool_decide (action = "ptrace") || bool_decide (action = "exec")) then Some s else None.

Lemma CheckAction_eq p comm a t now te :
  CheckAction p comm a t now te =
  match alerting te p a t with
  | None => (te, None)
  | Some s =>
      let id := i64 (alertID te + 1) in
      let al := mkAlert id now p comm (Level s) (Source s) (SourceIP s) a t
                  (if (HighlyTainted <=? Level s) || IsSensitivePath te t then "CRITICAL" else "HIGH") in
      (mkEngine (cfg te) (states te) (if EnableAlerting (cfg te) then alerts te ++ [al] else alerts te) id,
       Some al)
  end.
Proof.
  unfold CheckAction, alerting. destruct (states te !! p) as [s|]; [simpl|done].
  destruct (Z.ltb_spec (Level s) Tainted), (Z.leb_spec Tainted (Level s)); [lia|done| |lia].
  destruct (IsSensitivePath te t); simpl; [done|].
  repeat case_bool_decide; by simplify_eq.
Qed.

Lemma alerts_other now o te :
  (forall p comm a t, o <> Check p comm a t) ->
  alerts (apply_op now o te) = alerts te /\ alertID (apply_op now o te) = alertID te.
Proof.
  intros Ho. destruct o; try (by destruct (Ho processID comm action target)); simpl;
    unfold PropagateRead, PropagateWrite, propagate, PropagateFork, CleanTaint, DecayTaint;
    repeat case_match; done.
Qed.

Lemma justified_keep o h a : justified h a -> justified (o :: h) a.
Proof. intros (? & h1 & h2 & -> & ?). split; [done|]. by exists (o :: h1), h2. Qed.

Lemma alerts_ok c h : Forall (justified h) (alerts (exec c h)).
Proof.
  induction h as [|[now o] h IH]; [constructor|]. simpl.
  assert (Forall (justified ((now, o) :: h)) (alerts (exec c h))) as Hk
    by (eapply Forall_impl; [exact IH|apply justified_keep]).
  assert ((exists p comm a t, o = Check p comm a t) \/ forall p comm a t, o <> Check p comm a t)
    as [(p & comm & a & t & ->)|Ho] by (destruct o; eauto 6; by right).
  - simpl. rewrite CheckAction_eq. destruct (alerting (exec c h) p a t) as [s|] eqn:Ha; [|done].
    simpl. case_match; [|done]. apply Forall_app. split; [done|]. constructor; [|done].
    unfold alerting in Ha. destruct (states (exec c h) !! p) as [s'|] eqn:Hp; [simpl in Ha|done].
    case_match eqn:Hb; simplify_eq. apply andb_true_iff in Hb as [Hb%Z.leb_le _].
    destruct (exec_ok c h p s Hp) as (_ & Hl & Hf). split; simpl; [lia|]. by exists [], h.
  - by rewrite (proj1 (alerts_other now o (exec c h) Ho)).
Qed.

Lemma alert_ids c h :
  EnableAlerting (default DefaultConfig c) = true -> Z.of_nat (length h) < MaxInt64 ->
  0 <= alertID (exec c h) <= Z.of_nat (length h) /\
  a_ID <$> alerts (exec c h) = seqZ 1 (alertID (exec c h)).
Proof.
  intros Hen. induction h as [|[now o] h IH]; intros Hlen; [done|]. cbn [length] in *. simpl.
  destruct IH as [Hr IH]; [lia|].
  assert ((exists p comm a t, o = Check p comm a t) \/ forall p comm a t, o <> Check p comm a t)
    as [(p & comm & a & t & ->)|Ho] by (destruct o; eauto 6; by right).
  - simpl. rewrite CheckAction_eq. destruct (alerting (exec c h) p a t) as [s|]; simpl; [|split; [lia|done]].
    rewrite cfg_exec, Hen, i64_small by (unfold MinInt64; lia). split; [lia|].
    rewrite fmap_app, IH. simpl. rewrite seqZ_app by lia. simpl. do 3 f_equal.
    rewrite Z.add_comm. done.
  - destruct (alerts_other now o (exec c h) Ho) as [-> ->]. split; [lia|done].
Qed.

Lemma lookup_apply_tainted now o h te x :
  states_ok h te -> (match o with DoClean _ | Decay => False | _ => True end) ->
  (exists s, states te !! x = Some s /\ Tainted <= Level s) ->
  exists s, states (apply_op now o te) !! x = Some s /\ Tainted <= Level s.
Proof.
  intros Hok Ho (s & Hs & Hl).
  assert (forall y s', Tainted <= Level s' ->
    exists s, <[y := s']> (states te) !! x = Some s /\ Tainted <= Level s) as Hins.
  { intros y s' Hl'. rewrite lookup_insert. case_decide; [by eauto|by eauto]. }
  destruct o; simpl; try done; unfold PropagateRead, PropagateWrite, propagate, PropagateFork;
    [by apply Hins|..]; rewrite ?CheckAction_eq; repeat case_match; simpl; eauto;
    apply Hins; simpl; by apply Z.ltb_ge.
Qed.

Lemma propagate_taints tid tt sid sty why now te :
  (exists s, states te !! sid = Some s /\ Tainted <= Level s) ->
  exists s, states (fst (propagate tid tt sid sty why now te)) !! tid = Some s /\ Tainted <= Level s.
Proof.
  intros (s & Hs & Hl). unfold propagate. rewrite Hs.
  destruct (Z.ltb_spec (Level s) Tainted); [lia|].
  destruct (states te !! tid) as [ex|] eqn:Hex; [destruct (Z.leb_spec (Level s) (Level ex))|]; simpl.
  - exists ex. split; [done|lia].
  - rewrite lookup_insert_eq. by eauto.
  - rewrite lookup_insert_eq. by eauto.
Qed.

Lemma decay_twice now te :
  0 < TaintDecayAfter (cfg te) ->
  let te' := fst (DecayTaint now te) in DecayTaint now te' = (te', 0%nat).
Proof.
  intros Hpos. unfold DecayTaint. destruct (Z.leb_spec (TaintDecayAfter (cfg te)) 0); [lia|].
  set (cut := time_Add now (- TaintDecayAfter (cfg te))). simpl.
  destruct (Z.leb_spec (TaintDecayAfter (cfg te)) 0); [lia|]. fold cut.
  assert (forall s, aged cut (if aged cut s then set_level Suspicious "decayed:age" s else s) = false)
    as Hno.
  { intros s. destruct (aged cut s) eqn:E; [|done]. unfold aged. simpl. by rewrite andb_false_r. }
  f_equal.
  - unfold set_states. simpl. f_equal. rewrite <-map_fmap_compose. apply map_fmap_ext.
    intros x s _. simpl. by rewrite Hno.
  - apply map_size_empty_iff, map_empty. intros x. apply map_lookup_filter_None. right. intros s Hx Hp.
    rewrite lookup_fmap in Hx. destruct (states te !! x) as [s'|]; simplify_eq/=. by rewrite Hno in Hp.
Qed.

(** ** Theorems *)

(** [C3] Taint is sound: nothing is tainted without a cause.  After any sequence of
    operations (marks, reads, writes, forks, cleaning, decay, checks), a node the
    engine tracks lies on an information flow from a process that was marked as
    reading from the external address recorded as its source IP; a node's level
    is at most TAINTED (the HIGH_TAINT level is never produced). *)
Theorem taint_sound (c : option Config) (h : history) (x : string) (s : State) :
  GetTaint (exec c h) x = Some s -> ID s = x /\ Clean <= Level s <= Tainted /\ flow h x (SourceIP s).
Proof. apply exec_ok. Qed.

(** A web shell: a marked server process writes a file that a child of another
    process reads. *)
Definition webshell : history :=
  [(5, Check "p:4" "sh" "read" "/etc/../etc/shadow"); (4, Fork "p:3" "p:4"); (3, Read "p:3" "f:1");
   (2, Write "p:2" "f:1"); (1, Mark "p:2" "8.8.8.8")].

Lemma taint_sound_witness : flow webshell "p:4" "8.8.8.8".
Proof.
  assert (exists s, GetTaint (exec None webshell) "p:4" = Some s /\ SourceIP s = "8.8.8.8")
    as (s & Hs & Hip) by (eexists; split; vm_compute; reflexivity).
  rewrite <-Hip. apply (taint_sound None webshell "p:4" s Hs).
Defined.

(** [C4] Taint is complete: as long as nothing is cleaned or decayed, every node
    that an information flow reaches from a marked process is tainted. *)
Theorem taint_complete (c : option Config) (h : history) (x ip : string) :
  no_reset h -> flow h x ip -> exists s, GetTaint (exec c h) x = Some s /\ Level s = Tainted.
Proof.
  intros Hh Hf. assert (exists s, states (exec c h) !! x = Some s /\ Tainted <= Level s) as (s & Hs & Hl).
  { induction Hf as [now p ip h|now p f ip h Hf IH|now p f ip h Hf IH|now p ch ip h Hf IH
                     |[now o] y ip h Hf IH]; inversion Hh as [|? ? Ho Hh']; subst; simpl.
    - rewrite lookup_insert_eq. by eexists.
    - by apply propagate_taints, IH.
    - by apply propagate_taints, IH.
    - destruct (IH Hh') as (s & Hs & Hl). unfold PropagateFork. rewrite Hs.
      destruct (Z.ltb_spec (Level s) Tainted); [lia|]. simpl. rewrite lookup_insert_eq. by eexists.
    - apply (lookup_apply_tainted now o h); auto using exec_ok. }
  exists s. split; [done|]. destruct (exec_ok c h x s Hs) as (_ & ? & _). lia.
Qed.

Lemma taint_complete_witness :
  exists s, GetTaint (exec None webshell) "p:4" = Some s /\ Level s = Tainted.
Proof.
  apply (taint_complete None webshell "p:4" "8.8.8.8"); [repeat constructor|].
  apply flow_keep, flow_fork, flow_read, flow_write, flow_mark.
Defined.

(** Alerts: [CheckAction] raises one exactly if the process is tracked at
    TAINTED or above and the target is a sensitive path or the action is ptrace or
    exec; the severity is CRITICAL exactly for sensitive targets; nothing else in
    the engine changes but the alert list. *)
Lemma check_action_exact (c : option Config) (h : history) (p comm a t : string) (now : time) :
  let te := exec c h in
  let '(te', res) := CheckAction p comm a t now te in
  states te' = states te /\
  (is_Some res <-> (exists s, GetTaint te p = Some s /\ Level s = Tainted) /\
     (IsSensitivePath te t = true \/ a = "ptrace" \/ a = "exec")) /\
  (forall al, res = Some al ->
     Severity al = (if IsSensitivePath te t then "CRITICAL" else "HIGH") /\
     Alerts te' = if EnableAlerting (cfg te) then Alerts te ++ [al] else Alerts te).
Proof.
  intros te. rewrite CheckAction_eq. unfold alerting, GetTaint.
  destruct (states te !! p) as [s|] eqn:Hs; simpl; [|by split_and!; [|naive_solver|]].
  destruct (exec_ok c h p s Hs) as (_ & Hl & _).
  destruct (Z.leb_spec Tainted (Level s)) as [H1|H1]; simpl.
  2: { split_and!; [done| |done]. split; [by intros []|]. intros [(s' & [= <-] & ?) _]. lia. }
  assert ((HighlyTainted <=? Level s) = false) as Hh by (apply Z.leb_gt; unfold Tainted, HighlyTainted in *; lia).
  destruct (IsSensitivePath te t) eqn:Hsens; simpl.
  { split_and!; [done| |].
    - split; [|by eauto]. intros _. split; [exists s; split; [done|lia]|by left].
    - intros al [= <-]. simpl. by rewrite orb_true_r. }
  destruct (bool_decide_reflect (a = "ptrace")), (bool_decide_reflect (a = "exec")); simpl;
    (split_and!; [done| |intros al [= <-]; simpl; by rewrite Hh || done]);
    (split; [|naive_solver]); try (by intros []); intros _;
    (split; [exists s; split; [done|lia]|naive_solver]).
Qed.

(** Alert bookkeeping.  Every alert in the list was raised by an earlier check
    of a process that, at that moment, an information flow from the alert's IP
    reached; and the alerts are numbered 1, 2, 3, ... in order. *)
Lemma alerts_justified (c : option Config) (h : history) :
  EnableAlerting (default DefaultConfig c) = true -> Z.of_nat (length h) < MaxInt64 ->
  Forall (justified h) (Alerts (exec c h)) /\
  a_ID <$> Alerts (exec c h) = seqZ 1 (Z.of_nat (length (Alerts (exec c h)))).
Proof.
  intros Hen Hlen. split; [apply alerts_ok|].
  destruct (alert_ids c h Hen Hlen) as [Hr Hids]. unfold Alerts. rewrite Hids. f_equal.
  apply (f_equal length) in Hids. rewrite length_fmap, length_seqZ in Hids. lia.
Qed.

Lemma alerts_justified_witness :
  (Severity <$> Alerts (exec None webshell)) = ["CRITICAL"] /\
  Forall (justified webshell) (Alerts (exec None webshell)).
Proof. split; [vm_compute; reflexivity|]. by apply (alerts_justified None webshell). Defined.

(** Decay.  With a positive decay time, [DecayTaint] lowers exactly the states
    above SUSPICIOUS whose last update is older than the decay time, to
    SUSPICIOUS, keeps every other state, and returns how many it lowered; a
    second call at the same instant does nothing. *)
Lemma decay_exact (now : time) (te : TaintEngine) :
  0 < TaintDecayAfter (cfg te) ->
  let '(te', n) := DecayTaint now te in
  (forall x, GetTaint te' x =
     (s ← GetTaint te x;
      if bool_decide (UpdatedAt s < now - TaintDecayAfter (cfg te) /\ Suspicious < Level s)
      then Some (set_level Suspicious "decayed:age" s) else Some s)) /\
  n = size (filter (fun '(_, s) => UpdatedAt s < now - TaintDecayAfter (cfg te) /\ Suspicious < Level s)
                   (states te)) /\
  DecayTaint now te' = (te', 0%nat).
Proof.
  intros Hpos.
  set (cut := now - TaintDecayAfter (cfg te)).
  assert (forall s, aged cut s = bool_decide (UpdatedAt s < cut /\ Suspicious < Level s)) as Haged.
  { intros s. unfold aged, time_Before. destruct (Z.ltb_spec (UpdatedAt s) cut),
      (Z.ltb_spec Suspicious (Level s)); case_bool_decide; simpl; lia || done. }
  pose proof (decay_twice now te Hpos) as Hd.
  destruct (DecayTaint now te) as [te' n] eqn:E. unfold DecayTaint in E.
  destruct (Z.leb_spec (TaintDecayAfter (cfg te)) 0); [lia|].
  change (time_Add now (- TaintDecayAfter (cfg te))) with cut in E. injection E as <- <-.
  split_and!.
  - intros x. unfold GetTaint. simpl. rewrite lookup_fmap. destruct (states te !! x) as [s|]; simpl; [|done].
    rewrite Haged. by case_bool_decide.
  - f_equal. apply map_filter_ext. intros x s _. rewrite Haged. by rewrite bool_decide_spec.
  - exact Hd.
Qed.

Lemma decay_exact_witness :
  let te := exec None [(1, Mark "p:2" "8.8.8.8")] in
  Level <$> GetTaint (fst (DecayTaint (40 * Minute) te)) "p:2" = Some Suspicious.
Proof.
  intros te. pose proof (decay_exact (40 * Minute) te ltac:(done)) as H.
  destruct (DecayTaint (40 * Minute) te) as [te' n] eqn:E. destruct H as [H _].
  cbn [fst]. rewrite H. vm_compute. reflexivity.
Defined.
End Taint.
