(* ===== verification/Nfa.v ===== *)
(** * The pattern automata engine ([internal/engine/stream/nfa.go]).

    Slices of runners and patterns are lists; runners are updated in place, in
    list order.  An out-of-range index panics in Go: the definitions return
    [None] there, and the first theorem shows that this cannot happen with
    well-formed patterns.  The remaining theorems say what the engine detects. *)
From S2P Require Import Prelude GoStrings Events ProvVersions.
From Stdlib Require Import Ascii.

Module Nfa.

(** ** Data *)

Record PatternMatch := mkMatch {
  PatternID : string; m_Description : string; m_Severity : string;
  m_EventIDs : list string; m_TTPRef : string;
}.

(** An [EventType] of 0 and empty patterns match anything. *)
Record NFATransition := mkTransition {
  EventType : Z; CommMatch : string; PathMatch : string; NextState : Z;
}.

(** An [NFAState] is its list of transitions. *)
Definition NFAState := list NFATransition.

Record NFAPattern := mkPattern {
  ID : string; Description : string; Severity : string; TTPRef : string;
  States : list NFAState; StartState : Z; AcceptState : Z;
}.

Record NFARunner := mkRunner { State : Z; r_PID : Z; EventIDs : list string; StepCount : Z }.

Record NFAEngine := mkEngine { patterns : list NFAPattern; runners : list NFARunner }.

Definition lol_exec : NFAPattern := mkPattern
  "LOL-EXEC" "Living-off-the-Land: network tool downloads and executes script" "CRITICAL" "T1218,T1204"
  [[mkTransition EventProcessFork "curl" "" 1; mkTransition EventProcessFork "wget" "" 1;
    mkTransition EventProcessFork "nc" "" 1; mkTransition EventProcessFork "python*" "" 1];
   [mkTransition EventFileCreate "" "/tmp/" 2; mkTransition EventFileModify "" "/tmp/" 2];
   [mkTransition EventProcessExec "" "/tmp/" 3]]
  0 3.

Definition sensitive_read : NFAPattern := mkPattern
  "SENSITIVE-READ" "Sensitive file read by non-standard process" "HIGH" "T1003"
  [[mkTransition EventFileOpen "" "/etc/shadow" 1; mkTransition EventFileOpen "" "/etc/passwd" 1]]
  0 1.

Definition net_exfil : NFAPattern := mkPattern
  "NET-EXFIL" "Process reads sensitive file then connects to external IP" "CRITICAL" "T1048"
  [[mkTransition EventFileOpen "" "/etc/shadow" 1; mkTransition EventFileOpen "" "/etc/passwd" 1];
   [mkTransition EventNetConnect "" "" 2]]
  0 2.

Definition NewNFAEngine : NFAEngine := mkEngine [lol_exec; sensitive_read; net_exfil] [].

Definition AddPattern (p : NFAPattern) (ne : NFAEngine) : NFAEngine :=
  mkEngine (patterns ne ++ [p]) (runners ne).

Definition ActiveStates (ne : NFAEngine) : nat := length (runners ne).

(** ** Operations *)

Definition wildcardMatch (pattern value : string) : bool :=
  if bool_decide (pattern = "") then true
  else if HasSuffix pattern "*" then HasPrefix value (TrimSuffix pattern "*")
  else if HasPrefix pattern "*" then HasSuffix value (TrimPrefix pattern "*")
  else bool_decide (pattern = value).

Definition matchesEvent (t : NFATransition) (evt : Event) : bool :=
  if negb (EventType t =? 0) && negb (EventType t =? Type_ evt) then false
  else if negb (bool_decide (CommMatch t = "")) && negb (wildcardMatch (CommMatch t) (Comm evt)) then false
  else if negb (bool_decide (PathMatch t = "")) && negb (wildcardMatch (PathMatch t) (Pathname evt)) then false
  else true.

Definition event_id (evt : Event) : string := EventType_String (Type_ evt) +:+ ":" +:+ pretty (PID evt).

(** Indexing a slice: [None] is the panic. *)
Definition index {A} (l : list A) (i : Z) : option A :=
  if i <? 0 then None else l !! Z.to_nat i.

(** [Some None]: no transition; [Some (Some r')]: the runner after it. *)
Definition tryTransition (r : NFARunner) (p : NFAPattern) (evt : Event) : option (option NFARunner) :=
  if Z.of_nat (length (States p)) <=? State r then Some None
  else
    state ← index (States p) (State r);
    Some (match List.find (fun t => matchesEvent t evt) state with
          | None => None
          | Some t => Some (mkRunner (NextState t) (r_PID r) (EventIDs r ++ [event_id evt])
                              (i64 (StepCount r + 1)))
          end).

Definition canStart (p : NFAPattern) (evt : Event) : option bool :=
  if bool_decide (States p = []) then Some false
  else
    startState ← index (States p) (StartState p);
    Some (existsb (fun t => matchesEvent t evt) startState).

(** One runner in the inner loop: the runner afterwards and the match, if any. *)
Definition step_runner (p : NFAPattern) (evt : Event) (r : NFARunner)
  : option (NFARunner * list PatternMatch) :=
  res ← tryTransition r p evt;
  Some (match res with
        | None => (r, [])
        | Some r' =>
            if State r' =? AcceptState p
            then (mkRunner (StartState p) (r_PID r') (EventIDs r') (StepCount r'),
                  [mkMatch (ID p) (Description p) (Severity p) (EventIDs r') (TTPRef p)])
            else (r', [])
        end).

Fixpoint step_runners (p : NFAPattern) (evt : Event) (rs : list NFARunner)
  : option (list NFARunner * list PatternMatch) :=
  match rs with
  | [] => Some ([], [])
  | r :: rs =>
      '(r', ms) ← step_runner p evt r;
      '(rs', ms') ← step_runners p evt rs;
      Some (r' :: rs', ms ++ ms')
  end.

Definition new_runner (p : NFAPattern) (evt : Event) : option (list NFARunner) :=
  start ← canStart p evt;
  if (start : bool) then
    startState ← index (States p) (StartState p);
    t ← index startState 0;
    Some [mkRunner (NextState t) (PID evt) [event_id evt] 0]
  else Some [].

Definition step_pattern (p : NFAPattern) (evt : Event) (rs : list NFARunner)
  : option (list NFARunner * list PatternMatch) :=
  '(rs', ms) ← step_runners p evt rs;
  new ← new_runner p evt;
  Some (rs' ++ new, ms).

Fixpoint step_patterns (ps : list NFAPattern) (evt : Event) (rs : list NFARunner)
  : option (list NFARunner * list PatternMatch) :=
  match ps with
  | [] => Some (rs, [])
  | p :: ps =>
      '(rs, ms) ← step_pattern p evt rs;
      '(rs, ms') ← step_patterns ps evt rs;
      Some (rs, ms ++ ms')
  end.

Definition cleanupRunners (rs : list NFARunner) : list NFARunner :=
  filter (fun r => StepCount r < 20) rs.

(** The engine afterwards and the new matches; [None] is a panic. *)
Definition Ingest (evt : Event) (ne : NFAEngine) : option (NFAEngine * list PatternMatch) :=
  '(rs, ms) ← step_patterns (patterns ne) evt (runners ne);
  Some (mkEngine (patterns ne) (cleanupRunners rs), ms).

(** A stream of events, with the matches in the order of emission. *)
Fixpoint ingest_all (evts : list Event) (ne : NFAEngine) : option (NFAEngine * list PatternMatch) :=
  match evts with
  | [] => Some (ne, [])
  | evt :: evts =>
      '(ne, ms) ← Ingest evt ne;
      '(ne, ms') ← ingest_all evts ne;
      Some (ne, ms ++ ms')
  end.

(** ** No panic *)

Definition pattern_ok (p : NFAPattern) : Prop :=
  0 <= StartState p /\
  (States p <> [] -> StartState p < Z.of_nat (length (States p))) /\
  Forall (Forall (fun t => 0 <= NextState t)) (States p).

Definition runner_ok (r : NFARunner) : Prop := 0 <= State r.

Definition engine_ok (ne : NFAEngine) : Prop :=
  Forall pattern_ok (patterns ne) /\ Forall runner_ok (runners ne).

Lemma index_Some {A} (l : list A) i :
  0 <= i < Z.of_nat (length l) -> exists x, index l i = Some x /\ x ∈ l.
Proof.
  intros Hi. unfold index. destruct (Z.ltb_spec i 0); [lia|].
  destruct (lookup_lt_is_Some_2 l (Z.to_nat i)) as [x Hx]; [lia|].
  exists x. split; [done|]. by eapply list_elem_of_lookup_2.
Qed.

Lemma step_runner_ok p evt r :
  pattern_ok p -> runner_ok r -> exists r' ms, step_runner p evt r = Some (r', ms) /\ runner_ok r'.
Proof.
  intros (Hst & _ & Hnext) Hr. unfold step_runner, tryTransition.
  destruct (Z.leb_spec (Z.of_nat (length (States p))) (State r)); simpl; [by eauto|].
  destruct (index_Some (States p) (State r)) as (st & -> & Hin); [unfold runner_ok in Hr; lia|]. simpl.
  destruct (List.find _ st) as [t|] eqn:Hf; [|by eauto].
  apply List.find_some in Hf as [Ht _]. rewrite Forall_forall in Hnext.
  apply Hnext in Hin. rewrite Forall_forall in Hin. apply list_elem_of_In, Hin in Ht.
  simpl. case_match; do 2 eexists; (split; [done|]); done.
Qed.

Lemma step_runners_ok p evt rs :
  pattern_ok p -> Forall runner_ok rs ->
  exists rs' ms, step_runners p evt rs = Some (rs', ms) /\ Forall runner_ok rs'.
Proof.
  intros Hp. induction 1 as [|r rs Hr _ (rs' & ms & IH & Hok)]; simpl; [by eauto|].
  destruct (step_runner_ok p evt r Hp Hr) as (r' & ms' & -> & Hr'). simpl. rewrite IH. simpl.
  do 2 eexists. split; [done|]. by constructor.
Qed.

Lemma new_runner_ok p evt :
  pattern_ok p -> exists rs, new_runner p evt = Some rs /\ Forall runner_ok rs.
Proof.
  intros (Hst & Hlen & Hnext). unfold new_runner, canStart. case_bool_decide as He; simpl; [by eauto|].
  destruct (index_Some (States p) (StartState p)) as (st & Hidx & Hin); [naive_solver|].
  rewrite Hidx. simpl. case_match eqn:Hex; [|by eauto].
  destruct st as [|t st]; [done|]. simpl. eexists. split; [done|]. constructor; [|done].
  rewrite Forall_forall in Hnext. apply Hnext in Hin. by inversion Hin.
Qed.

Lemma step_patterns_ok ps evt rs :
  Forall pattern_ok ps -> Forall runner_ok rs ->
  exists rs' ms, step_patterns ps evt rs = Some (rs', ms) /\ Forall runner_ok rs'.
Proof.
  intros Hps. revert rs. induction Hps as [|p ps Hp _ IH]; intros rs Hrs; simpl; [by eauto|].
  unfold step_pattern. destruct (step_runners_ok p evt rs Hp Hrs) as (rs1 & ms & -> & H1). simpl.
  destruct (new_runner_ok p evt Hp) as (new & -> & H2). simpl.
  destruct (IH (rs1 ++ new)) as (rs2 & ms' & -> & H3); [by apply Forall_app|]. simpl. by eauto.
Qed.

Lemma Forall_cleanup P rs : Forall P rs -> Forall P (cleanupRunners rs).
Proof.
  rewrite !Forall_forall. intros H r [_ Hin]%list_elem_of_filter. auto.
Qed.

Lemma Ingest_ok evt ne :
  engine_ok ne -> exists ne' ms, Ingest evt ne = Some (ne', ms) /\ engine_ok ne' /\
    patterns ne' = patterns ne /\ Forall (fun r => StepCount r < 20) (runners ne').
Proof.
  intros [Hp Hr]. unfold Ingest. destruct (step_patterns_ok _ evt _ Hp Hr) as (rs & ms & -> & Hrs).
  simpl. do 2 eexists. split; [done|]. unfold cleanupRunners. split_and!; simpl; [split; [done|]|done|].
  - by apply Forall_cleanup.
  - apply Forall_forall. intros r Hin. apply list_elem_of_filter in Hin. tauto.
Qed.

Lemma ingest_all_ok evts ne :
  engine_ok ne -> exists ne' ms, ingest_all evts ne = Some (ne', ms) /\ engine_ok ne' /\
    patterns ne' = patterns ne /\
    (Forall (fun r => StepCount r < 20) (runners ne) -> Forall (fun r => StepCount r < 20) (runners ne')).
Proof.
  revert ne. induction evts as [|evt evts IH]; intros ne Hok; simpl.
  { do 2 eexists. split; [done|]. by split_and!. }
  destruct (Ingest_ok evt ne Hok) as (ne1 & ms & -> & Hok1 & Hp1 & Hc). simpl.
  destruct (IH ne1 Hok1) as (ne2 & ms' & -> & Hok2 & Hp2 & Hc2). simpl.
  do 2 eexists. split; [done|]. split; [done|]. split; [by rewrite Hp2|]. by intros _; apply Hc2.
Qed.

Lemma default_ok : engine_ok NewNFAEngine.
Proof. split; [|constructor]. repeat constructor; simpl; lia || done. Qed.

Lemma add_all_ok custom ne :
  Forall pattern_ok custom -> engine_ok ne ->
  engine_ok (foldl (fun ne p => AddPattern p ne) ne custom) /\
  runners (foldl (fun ne p => AddPattern p ne) ne custom) = runners ne.
Proof.
  intros Hc. revert ne. induction Hc as [|p custom Hp _ IH]; intros ne Hok; [done|]. simpl.
  destruct (IH (AddPattern p ne)) as [H1 H2]; [|done]. destruct Hok. split; [|done].
  apply Forall_app. split; [done|]. by constructor.
Qed.

(** The engine never panics: from the built-in patterns, extended by any
    well-formed custom patterns, every stream of events is processed without an
    out-of-range index, and afterwards no runner has made twenty steps. *)
Lemma nfa_no_panic (custom : list NFAPattern) (evts : list Event) :
  Forall pattern_ok custom ->
  let ne := foldl (fun ne p => AddPattern p ne) NewNFAEngine custom in
  exists ne' ms, ingest_all evts ne = Some (ne', ms) /\
    Forall (fun r => 0 <= State r /\ StepCount r < 20) (runners ne').
Proof.
  intros Hc ne. assert (engine_ok ne /\ runners ne = []) as [Hok Hrs].
  { apply add_all_ok; [done|apply default_ok]. }
  destruct (ingest_all_ok evts ne Hok) as (ne' & ms & H & [_ Hr] & _ & Hs).
  exists ne', ms. split; [done|]. rewrite Hrs in Hs. apply Forall_and. split; [done|]. apply Hs. constructor.
Qed.

(** A custom pattern: a deletion followed by an exit. *)
Definition wipe_exit : NFAPattern := mkPattern "WIPE" "" "LOW" ""
  [[mkTransition EventFileDelete "" "" 1]; [mkTransition EventProcessExit "" "" 2]] 0 2.

Lemma nfa_no_panic_witness :
  exists ne' ms, ingest_all [ev EventFileDelete 7 0 0 0 "rm" "/x"; ev EventProcessExit 7 0 0 0 "rm" ""]
      (AddPattern wipe_exit NewNFAEngine) = Some (ne', ms) /\
    Forall (fun r => 0 <= State r /\ StepCount r < 20) (runners ne').
Proof.
  apply (nfa_no_panic [wipe_exit]). repeat constructor; simpl; lia || done.
Defined.

(** ** What the built-in patterns detect *)

(** The transitions of the built-in patterns, by event. *)
Lemma matchesEvent_iff t evt :
  matchesEvent t evt = true <->
  (EventType t = 0 \/ EventType t = Type_ evt) /\
  (CommMatch t = "" \/ wildcardMatch (CommMatch t) (Comm evt) = true) /\
  (PathMatch t = "" \/ wildcardMatch (PathMatch t) (Pathname evt) = true).
Proof.
  unfold matchesEvent. destruct (Z.eqb_spec (EventType t) 0), (Z.eqb_spec (EventType t) (Type_ evt));
    destruct (bool_decide_reflect (CommMatch t = "")), (wildcardMatch (CommMatch t) (Comm evt));
    destruct (bool_decide_reflect (PathMatch t = "")), (wildcardMatch (PathMatch t) (Pathname evt));
    simpl; naive_solver.
Qed.

Definition opens_sensitive (evt : Event) : Prop :=
  Type_ evt = EventFileOpen /\ (Pathname evt = "/etc/shadow" \/ Pathname evt = "/etc/passwd").

Definition defaults : list NFAPattern := [lol_exec; sensitive_read; net_exfil].

(** A runner that no pattern moves stays in the list. *)
Lemma step_runners_keep p evt r rs rs' ms :
  step_runners p evt rs = Some (rs', ms) -> r ∈ rs -> step_runner p evt r = Some (r, []) -> r ∈ rs'.
Proof.
  revert rs' ms. induction rs as [|r0 rs IH]; intros rs' ms H Hin Hr; [set_solver|]. simpl in H.
  apply elem_of_cons in Hin as [<-|Hin].
  - rewrite Hr in H. simpl in H. destruct (step_runners p evt rs) as [[? ?]|]; simplify_eq/=. set_solver.
  - destruct (step_runner p evt r0) as [[? ?]|]; [simpl in H|done].
    destruct (step_runners p evt rs) as [[? ?]|]; simplify_eq/=. apply elem_of_cons. right. by eapply IH.
Qed.

Lemma step_patterns_keep ps evt r rs rs' ms :
  step_patterns ps evt rs = Some (rs', ms) -> r ∈ rs ->
  Forall (fun p => step_runner p evt r = Some (r, [])) ps -> r ∈ rs'.
Proof.
  intros H Hin Hall. revert rs rs' ms H Hin.
  induction Hall as [|p ps Hp _ IH]; intros rs rs' ms H Hin; simpl in H; [by simplify_eq|].
  unfold step_pattern in H. destruct (step_runners p evt rs) as [[rs1 ms1]|] eqn:E; [simpl in H|done].
  destruct (new_runner p evt) as [new|]; [simpl in H|done].
  destruct (step_patterns ps evt (rs1 ++ new)) as [[rs2 ms2]|] eqn:E2; simplify_eq/=.
  eapply IH; [done|]. apply elem_of_app. left. by eapply step_runners_keep.
Qed.

(** The match of one runner is reported. *)
Lemma step_runners_emit p evt r r' m rs rs' ms :
  step_runners p evt rs = Some (rs', ms) -> r ∈ rs -> step_runner p evt r = Some (r', [m]) -> m ∈ ms.
Proof.
  revert rs' ms. induction rs as [|r0 rs IH]; intros rs' ms H Hin Hr; [set_solver|]. simpl in H.
  apply elem_of_cons in Hin as [<-|Hin].
  - rewrite Hr in H. simpl in H. destruct (step_runners p evt rs) as [[? ?]|]; simplify_eq/=. set_solver.
  - destruct (step_runner p evt r0) as [[? ?]|]; [simpl in H|done].
    destruct (step_runners p evt rs) as [[? ms1]|]; simplify_eq/=. apply elem_of_app. right. by eapply IH.
Qed.

Definition waiting (r : NFARunner) : Prop := State r = 1 /\ StepCount r < 20.

(** Events that leave a waiting runner alone. *)
Definition unrelated (evt : Event) : Prop := Type_ evt <> EventNetConnect /\ Pathname evt <> "/tmp/".

Lemma find_none {A} (f : A -> bool) l : Forall (fun x => f x = false) l -> List.find f l = None.
Proof. induction 1 as [|x l Hx _ IH]; simpl; [done|]. by rewrite Hx. Qed.

Lemma not_matches t evt :
  (EventType t <> 0 /\ EventType t <> Type_ evt) \/
  (PathMatch t <> "" /\ wildcardMatch (PathMatch t) (Pathname evt) = false) ->
  matchesEvent t evt = false.
Proof.
  intros H. apply not_true_iff_false. intros (H1 & _ & H3)%matchesEvent_iff.
  destruct H as [[? ?]|[? H]]; [by destruct H1|]. rewrite H in H3. by destruct H3.
Qed.

Lemma wildcard_plain p v :
  p <> "" -> HasSuffix p "*" = false -> HasPrefix p "*" = false ->
  wildcardMatch p v = bool_decide (p = v).
Proof. intros H1 H2 H3. unfold wildcardMatch. rewrite H2, H3. by rewrite bool_decide_eq_false_2. Qed.

Lemma step_runner_stay p evt r st :
  index (States p) (State r) = Some st -> Forall (fun t => matchesEvent t evt = false) st ->
  step_runner p evt r = Some (r, []).
Proof.
  intros Hi Hall. unfold step_runner, tryTransition. rewrite Hi. simpl. rewrite find_none by done.
  by case_match.
Qed.

Lemma waiting_kept r evt p :
  waiting r -> (p = net_exfil -> Type_ evt <> EventNetConnect) -> Pathname evt <> "/tmp/" ->
  p ∈ defaults -> step_runner p evt r = Some (r, []).
Proof.
  intros [Hst _] Hn Hpath Hp.
  unfold defaults in Hp. rewrite !elem_of_cons, elem_of_nil in Hp. destruct Hp as [->|[->|[->|[]]]].
  - eapply step_runner_stay; [by rewrite Hst|].
    repeat constructor; apply not_matches; right; (split; [done|]);
      rewrite wildcard_plain by done; by apply bool_decide_eq_false_2.
  - unfold step_runner, tryTransition. by rewrite Hst.
  - eapply step_runner_stay; [by rewrite Hst|]. repeat constructor. apply not_matches.
    left. split; [done|]. apply not_eq_sym. by apply Hn.
Qed.

Lemma step_patterns_snoc ps p evt rs rs' ms :
  step_patterns (ps ++ [p]) evt rs = Some (rs', ms) ->
  exists rs1 ms1 rs2 ms2 new, step_patterns ps evt rs = Some (rs1, ms1) /\
    step_runners p evt rs1 = Some (rs2, ms2) /\ new_runner p evt = Some new /\
    rs' = rs2 ++ new /\ ms = ms1 ++ ms2.
Proof.
  revert rs rs' ms. induction ps as [|q ps IH]; intros rs rs' ms H; simpl in H.
  - unfold step_pattern in H. destruct (step_runners p evt rs) as [[rs2 ms2]|] eqn:E2; [simpl in H|done].
    destruct (new_runner p evt) as [new|] eqn:E3; simplify_eq/=.
    exists rs, [], rs2, ms2, new. by rewrite app_nil_r.
  - destruct (step_pattern q evt rs) as [[rsq msq]|] eqn:Eq; [simpl in H|done].
    destruct (step_patterns (ps ++ [p]) evt rsq) as [[rs1 ms1]|] eqn:E1; simplify_eq/=.
    destruct (IH _ _ _ E1) as (rs3 & ms3 & rs2 & ms2 & new & E3 & E2 & En & -> & ->).
    exists rs3, (msq ++ ms3), rs2, ms2, new. simpl. rewrite Eq. simpl. rewrite E3. simpl.
    by rewrite (assoc_L (++)).
Qed.

Lemma new_runner_start p evt t0 st :
  index (States p) (StartState p) = Some (t0 :: st) ->
  existsb (fun t => matchesEvent t evt) (t0 :: st) = true ->
  new_runner p evt = Some [mkRunner (NextState t0) (PID evt) [event_id evt] 0].
Proof.
  intros Hi Hex. unfold new_runner, canStart. rewrite Hi. case_bool_decide as He.
  - rewrite He in Hi. unfold index in Hi. by case_match.
  - cbn [mbind option_bind]. by rewrite Hex.
Qed.

Lemma open_waits evt ne ne' ms :
  patterns ne = defaults -> Ingest evt ne = Some (ne', ms) -> opens_sensitive evt ->
  exists r, r ∈ runners ne' /\ waiting r.
Proof.
  intros Hd H [Ht Hp]. unfold Ingest in H. rewrite Hd in H.
  destruct (step_patterns defaults evt (runners ne)) as [[rs ms']|] eqn:E; [|done].
  injection H as <- <-.
  apply (step_patterns_snoc [lol_exec; sensitive_read] net_exfil) in E
    as (rs1 & ms1 & rs2 & ms2 & new & _ & _ & Hnew & -> & ->).
  erewrite new_runner_start in Hnew; [|reflexivity|].
  - injection Hnew as <-. exists (mkRunner 1 (PID evt) [event_id evt] 0). split; [|by split].
    apply list_elem_of_filter. split; [done|]. apply elem_of_app. right. by left.
  - apply existsb_exists. destruct Hp as [Hp|Hp]; eexists; split; [by left| |by right; left|];
      apply matchesEvent_iff; simpl; rewrite Ht, Hp; auto.
Qed.

Lemma unrelated_waits evt ne ne' ms r :
  patterns ne = defaults -> Ingest evt ne = Some (ne', ms) -> unrelated evt ->
  r ∈ runners ne -> waiting r -> r ∈ runners ne'.
Proof.
  intros Hd H [Hn Hp] Hr Hw. unfold Ingest in H. rewrite Hd in H.
  destruct (step_patterns defaults evt (runners ne)) as [[rs ms']|] eqn:E; [|done].
  injection H as <- <-.
  apply list_elem_of_filter. split; [apply Hw|]. eapply step_patterns_keep; [done..|].
  apply Forall_forall. intros p Hin. by apply waiting_kept.
Qed.

Lemma connect_matches evt ne ne' ms r :
  patterns ne = defaults -> Ingest evt ne = Some (ne', ms) -> Type_ evt = EventNetConnect ->
  Pathname evt <> "/tmp/" -> r ∈ runners ne -> waiting r -> "NET-EXFIL" ∈ PatternID <$> ms.
Proof.
  intros Hd H Ht Hp Hr Hw. unfold Ingest in H. rewrite Hd in H.
  destruct (step_patterns defaults evt (runners ne)) as [[rs ms']|] eqn:E; [|done].
  injection H as <- <-.
  apply (step_patterns_snoc [lol_exec; sensitive_read] net_exfil) in E
    as (rs1 & ms1 & rs2 & ms2 & new & E1 & E2 & _ & -> & ->).
  assert (r ∈ rs1) as Hr1.
  { eapply step_patterns_keep; [done..|].
    repeat constructor; (apply waiting_kept; [done|by intros|done|unfold defaults; set_solver]). }
  destruct Hw as [Hst _].
  assert (exists r' m, step_runner net_exfil evt r = Some (r', [m]) /\ PatternID m = "NET-EXFIL")
    as (r' & m & Hstep & Hm).
  { unfold step_runner, tryTransition. rewrite Hst.
    change (index (States net_exfil) 1) with (Some [mkTransition EventNetConnect "" "" 2]).
    cbn [mbind option_bind List.find]. rewrite (proj2 (matchesEvent_iff _ evt)); [by do 2 eexists|].
    simpl. auto. }
  rewrite fmap_app. apply elem_of_app. right. rewrite <-Hm.
  apply list_elem_of_fmap_2. by eapply step_runners_emit.
Qed.

Lemma ingest_all_app evts1 evts2 ne :
  ingest_all (evts1 ++ evts2) ne =
  '(ne1, ms1) ← ingest_all evts1 ne; '(ne2, ms2) ← ingest_all evts2 ne1; Some (ne2, ms1 ++ ms2).
Proof.
  revert ne. induction evts1 as [|evt evts1 IH]; intros ne; simpl.
  - by destruct (ingest_all evts2 ne) as [[? ?]|].
  - destruct (Ingest evt ne) as [[ne1 ms1]|]; [simpl|done]. rewrite IH.
    destruct (ingest_all evts1 ne1) as [[ne2 ms2]|]; [simpl|done].
    destruct (ingest_all evts2 ne2) as [[ne3 ms3]|]; [simpl|done]. by rewrite (assoc_L (++)).
Qed.

Lemma unrelated_all_wait evts ne ne' ms r :
  patterns ne = defaults -> engine_ok ne -> ingest_all evts ne = Some (ne', ms) -> Forall unrelated evts ->
  r ∈ runners ne -> waiting r -> r ∈ runners ne'.
Proof.
  intros Hd Hok H Hall. revert ne ms Hd Hok H. induction Hall as [|evt evts He _ IH];
    intros ne ms Hd Hok H Hr Hw; simpl in H; [by simplify_eq|].
  destruct (Ingest_ok evt ne Hok) as (ne1 & ms1 & E & Hok1 & Hp1 & _). rewrite E in H. simpl in H.
  destruct (ingest_all evts ne1) as [[ne2 ms2]|] eqn:E2; simplify_eq/=.
  eapply IH; [by rewrite Hp1|done..| |done]. by eapply unrelated_waits.
Qed.

(** Exfiltration is detected.  With the built-in patterns, after any stream of
    events: once [/etc/shadow] or [/etc/passwd] has been opened, and whatever
    events follow that are neither connections nor carry the exact path "/tmp/",
    the next network connection is reported as NET-EXFIL. *)
Lemma net_exfil_detected (before between : list Event) (open conn : Event) :
  opens_sensitive open -> Forall unrelated between ->
  Type_ conn = EventNetConnect -> Pathname conn <> "/tmp/" ->
  exists ne ms ne' ms',
    ingest_all (before ++ open :: between) NewNFAEngine = Some (ne, ms) /\
    Ingest conn ne = Some (ne', ms') /\ "NET-EXFIL" ∈ PatternID <$> ms'.
Proof.
  intros Ho Hb Ht Hp. rewrite ingest_all_app. simpl.
  destruct (ingest_all_ok before NewNFAEngine default_ok) as (ne0 & ms0 & E0 & Hok0 & Hp0 & _).
  rewrite E0. simpl.
  destruct (Ingest_ok open ne0 Hok0) as (ne1 & ms1 & E1 & Hok1 & Hp1 & _). rewrite E1. simpl.
  destruct (open_waits open ne0 ne1 ms1) as (r & Hr & Hw); [done..|].
  destruct (ingest_all_ok between ne1 Hok1) as (ne2 & ms2 & E2 & Hok2 & Hp2 & _). rewrite E2. simpl.
  destruct (Ingest_ok conn ne2 Hok2) as (ne3 & ms3 & E3 & _).
  do 4 eexists. split; [done|]. split; [done|].
  apply (connect_matches conn ne2 ne3 ms3 r); [by rewrite Hp2, Hp1, Hp0|done..| |done].
  eapply (unrelated_all_wait between ne1); [by rewrite Hp1, Hp0|done..].
Qed.

Definition ev_open_shadow := ev EventFileOpen 10 0 5 0 "cat" "/etc/shadow".
Definition ev_connect (pid : Z) := ev EventNetConnect pid 0 0 0 "nc" "".
Definition ev_fork_curl := ev EventProcessFork 30 31 0 0 "curl" "".

Lemma net_exfil_detected_witness :
  exists ne ms ne' ms',
    ingest_all ([ev_fork_curl] ++ ev_open_shadow :: [ev_fork_curl]) NewNFAEngine = Some (ne, ms) /\
    Ingest (ev_connect 10) ne = Some (ne', ms') /\ "NET-EXFIL" ∈ PatternID <$> ms'.
Proof.
  apply net_exfil_detected; [split; [reflexivity|by left]|repeat constructor; done|reflexivity|done].
Defined.

(** A NET-EXFIL report does not imply that a sensitive file was read: runners
    are not tied to the pattern that created them, so a fork of curl (the first
    step of LOL-EXEC) followed by a connection of an unrelated process is
    reported as "Process reads sensitive file then connects". *)
Lemma net_exfil_false_positive :
  exists ne ms, ingest_all [ev_fork_curl; ev_connect 77] NewNFAEngine = Some (ne, ms) /\
    PatternID <$> ms = ["NET-EXFIL"].
Proof. eexists _, _. split; vm_compute; reflexivity. Qed.

(** ** SENSITIVE-READ on a fresh engine *)

Definition started (rs : list NFARunner) : Prop := Forall (fun r => 1 <= State r) rs.

(** Nothing has matched and no runner is in the start state, or the first match
    satisfies [Q]. *)
Definition silent_or (Q : PatternMatch -> Prop) (rs : list NFARunner) (ms : list PatternMatch) : Prop :=
  match ms with [] => started rs | m :: _ => Q m end.

Definition steps_to (Q : PatternMatch -> Prop) (evt : Event) : Prop :=
  forall p r r' ms, p ∈ defaults -> 1 <= State r -> step_runner p evt r = Some (r', ms) ->
    silent_or Q [r'] ms.

Lemma new_runner_started p evt rs : p ∈ defaults -> new_runner p evt = Some rs -> started rs.
Proof.
  intros Hp H. unfold new_runner in H. destruct (canStart p evt) as [[|]|]; simpl in H;
    [|by simplify_eq; constructor|done].
  unfold defaults in Hp. rewrite !elem_of_cons, elem_of_nil in Hp.
  destruct Hp as [->|[->|[->|[]]]]; injection H as <-; by repeat constructor.
Qed.

Section first_match.
Variable Q : PatternMatch -> Prop.

Lemma step_runners_first p evt rs rs' ms :
  steps_to Q evt -> p ∈ defaults -> started rs -> step_runners p evt rs = Some (rs', ms) ->
  silent_or Q rs' ms.
Proof.
  intros HQ Hp Hrs. revert rs' ms. induction Hrs as [|r rs Hr _ IH]; intros rs' ms H; simpl in H.
  { simplify_eq/=. constructor. }
  destruct (step_runner p evt r) as [[r1 ms1]|] eqn:E1; [simpl in H|done].
  destruct (step_runners p evt rs) as [[rs2 ms2]|] eqn:E2; simplify_eq/=.
  apply HQ in E1; [|done..]. specialize (IH _ _ eq_refl).
  destruct ms1 as [|m ms1]; [|done]. simpl in *. destruct ms2 as [|m ms2]; [|done].
  apply Forall_cons in E1 as [? _]. by constructor.
Qed.

Lemma step_patterns_first ps evt rs rs' ms :
  steps_to Q evt -> Forall (fun p => p ∈ defaults) ps -> started rs ->
  step_patterns ps evt rs = Some (rs', ms) -> silent_or Q rs' ms.
Proof.
  intros HQ Hps. revert rs rs' ms. induction Hps as [|p ps Hp _ IH]; intros rs rs' ms Hrs H; simpl in H.
  { by simplify_eq/=. }
  unfold step_pattern in H. destruct (step_runners p evt rs) as [[rs1 ms1]|] eqn:E1; [simpl in H|done].
  destruct (new_runner p evt) as [new|] eqn:E2; [simpl in H|done].
  destruct (step_patterns ps evt (rs1 ++ new)) as [[rs2 ms2]|] eqn:E3; simplify_eq/=.
  apply step_runners_first in E1; [|done..]. destruct ms1 as [|m ms1]; [|done]. simpl in *.
  eapply IH; [|done]. apply Forall_app. split; [done|]. by eapply new_runner_started.
Qed.

Lemma ingest_all_first evts ne ne' ms :
  Forall (steps_to Q) evts -> patterns ne = defaults -> started (runners ne) ->
  ingest_all evts ne = Some (ne', ms) -> silent_or Q (runners ne') ms.
Proof.
  intros HQ. revert ne ne' ms. induction HQ as [|evt evts He _ IH]; intros ne ne' ms Hd Hrs H; simpl in H.
  { by simplify_eq/=. }
  unfold Ingest in H. rewrite Hd in H.
  destruct (step_patterns defaults evt (runners ne)) as [[rs1 ms1]|] eqn:E1; [|done].
  cbn [mbind option_bind] in H.
  destruct (ingest_all evts _) as [[ne2 ms2]|] eqn:E2; [|done]. injection H as <- <-.
  apply step_patterns_first in E1; [|done|by apply Forall_forall|done].
  destruct ms1 as [|m ms1]; [|done]. cbn [app].
  eapply IH; [| |exact E2]; [done|]. by apply Forall_cleanup.
Qed.
End first_match.

(** The step of a started runner, in one lemma: no match of SENSITIVE-READ, and
    no transition at all on a file-open event. *)
Lemma step_started p evt r r' ms :
  p ∈ defaults -> 1 <= State r -> step_runner p evt r = Some (r', ms) ->
  (r' = r /\ ms = []) \/
  (Type_ evt <> EventFileOpen /\ silent_or (fun m => PatternID m <> "SENSITIVE-READ") [r'] ms).
Proof.
  intros Hp Hr H. unfold defaults in Hp. rewrite !elem_of_cons, elem_of_nil in Hp.
  unfold step_runner, tryTransition in H.
  destruct (Z.leb_spec (Z.of_nat (length (States p))) (State r)) as [Hl|Hl]; [by simplify_eq/=; left|].
  destruct (index (States p) (State r)) as [st|] eqn:Hst; [simpl in H|done].
  destruct (List.find _ st) as [t|] eqn:Hf; simpl in H; [|by simplify_eq/=; left]. right.
  apply List.find_some in Hf as [Hin%list_elem_of_In Hm].
  assert (st ∈ drop 1 (States p)) as Hst'.
  { unfold index in Hst. destruct (Z.ltb_spec (State r) 0); [lia|].
    apply (list_elem_of_lookup_2 _ (Z.to_nat (State r) - 1)).
    rewrite lookup_drop. by replace (1 + (Z.to_nat (State r) - 1))%nat with (Z.to_nat (State r)) by lia. }
  assert (Forall (Forall (fun t => 1 <= NextState t /\ EventType t <> 0 /\ EventType t <> EventFileOpen))
            (drop 1 (States p)) /\ ID p <> "SENSITIVE-READ") as [Hall Hid].
  { destruct Hp as [->|[->|[->|[]]]]; [|simpl in Hl; lia|]; (split; [|done]); repeat constructor; done. }
  rewrite Forall_forall in Hall. apply Hall in Hst'. rewrite Forall_forall in Hst'.
  destruct (Hst' t Hin) as (H1 & H2 & H3). apply matchesEvent_iff in Hm as [[?|Ht] _]; [done|].
  split; [congruence|].
  destruct (NextState t =? AcceptState p); injection H as <- <-; [exact Hid|]. by constructor.
Qed.

(** The SENSITIVE-READ pattern does not detect sensitive reads.  A runner
    for it is created already in the accepting state, and a match is only
    reported on a later transition: on a fresh engine no stream of events makes
    SENSITIVE-READ the first match, and opening [/etc/shadow] or [/etc/passwd] (or
    any other files) any number of times reports nothing. *)
Lemma sensitive_read_never_first (evts : list Event) (ne : NFAEngine) (ms : list PatternMatch) :
  ingest_all evts NewNFAEngine = Some (ne, ms) ->
  PatternID <$> head ms <> Some "SENSITIVE-READ" /\
  (Forall (fun e => Type_ e = EventFileOpen) evts -> ms = []).
Proof.
  intros H. split.
  - apply (ingest_all_first (fun m => PatternID m <> "SENSITIVE-READ")) in H;
      [| |done|by apply Forall_nil]; [destruct ms as [|m ms]; [done|]; simpl in *; congruence|].
    apply Forall_forall. intros e _ p r r' ms' Hp Hr Hs.
    destruct (step_started _ _ _ _ _ Hp Hr Hs) as [[-> ->]|[_ ?]]; [by constructor|done].
  - intros Hall. apply (ingest_all_first (fun _ => False)) in H; [by destruct ms| |done|by apply Forall_nil].
    eapply Forall_impl; [exact Hall|]. intros e He p r r' ms' Hp Hr Hs.
    destruct (step_started _ _ _ _ _ Hp Hr Hs) as [[-> ->]|[? _]]; [by constructor|done].
Qed.

Lemma sensitive_read_never_first_witness :
  exists ne ms, ingest_all [ev_open_shadow; ev_open_shadow; ev_open_shadow] NewNFAEngine = Some (ne, ms) /\
    length (runners ne) = 6%nat /\ ms = [].
Proof.
  destruct (ingest_all [ev_open_shadow; ev_open_shadow; ev_open_shadow] NewNFAEngine) as [[ne ms]|] eqn:E;
    [|by vm_compute in E].
  exists ne, ms. split; [done|].
  destruct (sensitive_read_never_first _ ne ms E) as [_ H].
  split; [|apply H; repeat constructor]. vm_compute in E. injection E as <- _. reflexivity.
Defined.

(** ** Process identity *)

(** Two events that agree in all the engine looks at. *)
Definition looks_alike (e e' : Event) : Prop :=
  Type_ e = Type_ e' /\ Comm e = Comm e' /\ Pathname e = Pathname e'.

Definition same_runner (r r' : NFARunner) : Prop := State r = State r' /\ StepCount r = StepCount r'.

(** Two outcomes with corresponding runners and the same patterns matched. *)
Definition same_out {A} (R : A -> A -> Prop) : relation (option (A * list PatternMatch)) :=
  option_Forall2 (fun a b => R a.1 b.1 /\ PatternID <$> a.2 = PatternID <$> b.2).

Section alike.
Context (e e' : Event) (He : looks_alike e e').

Lemma matches_alike t : matchesEvent t e = matchesEvent t e'.
Proof using He. destruct He as (H1 & H2 & H3). unfold matchesEvent. by rewrite H1, H2, H3. Qed.

Lemma find_alike l :
  List.find (fun t => matchesEvent t e) l = List.find (fun t => matchesEvent t e') l.
Proof using He. induction l as [|t l IH]; simpl; [done|]. by rewrite matches_alike, IH. Qed.

Lemma existsb_alike l :
  existsb (fun t => matchesEvent t e) l = existsb (fun t => matchesEvent t e') l.
Proof using He. induction l as [|t l IH]; simpl; [done|]. by rewrite matches_alike, IH. Qed.

Lemma step_runner_alike p r r' :
  same_runner r r' -> same_out same_runner (step_runner p e r) (step_runner p e' r').
Proof using He.
  intros [H1 H2]. unfold step_runner, tryTransition. rewrite <-H1.
  destruct (Z.of_nat (length (States p)) <=? State r); [by repeat constructor|].
  destruct (index (States p) (State r)) as [st|]; simpl; [|constructor]. rewrite find_alike.
  destruct (List.find _ st) as [t|]; simpl; [|by repeat constructor].
  destruct (NextState t =? AcceptState p); constructor; (split; [|done]); split; simpl; by rewrite ?H2.
Qed.

Lemma step_runners_alike p rs rs' :
  Forall2 same_runner rs rs' -> same_out (Forall2 same_runner) (step_runners p e rs) (step_runners p e' rs').
Proof using He.
  induction 1 as [|r r' rs rs' Hr _ IH]; simpl; [by repeat constructor|].
  destruct (step_runner_alike p r r' Hr) as [[r1 m1] [r2 m2] [H1 H2]|]; simpl; [|constructor].
  destruct IH as [[rs1 ms1] [rs2 ms2] [H3 H4]|]; simpl; constructor. simpl in *.
  split; [by constructor|]. by rewrite !fmap_app, H2, H4.
Qed.

Lemma new_runner_alike p :
  option_Forall2 (Forall2 same_runner) (new_runner p e) (new_runner p e').
Proof using He.
  unfold new_runner, canStart. case_bool_decide; simpl; [by repeat constructor|].
  destruct (index (States p) (StartState p)) as [st|]; simpl; [|constructor].
  rewrite existsb_alike. case_match; [|by repeat constructor].
  destruct (index st 0); simpl; by repeat constructor.
Qed.

Lemma step_patterns_alike ps rs rs' :
  Forall2 same_runner rs rs' ->
  same_out (Forall2 same_runner) (step_patterns ps e rs) (step_patterns ps e' rs').
Proof using He.
  revert rs rs'. induction ps as [|p ps IH]; intros rs rs' Hrs; simpl; [by repeat constructor|].
  unfold step_pattern.
  destruct (step_runners_alike p rs rs' Hrs) as [[rs1 m1] [rs2 m2] [H1 H2]|]; simpl; [|constructor].
  destruct (new_runner_alike p) as [n1 n2 Hn|]; simpl; [|constructor].
  destruct (IH (rs1 ++ n1) (rs2 ++ n2)) as [[rs3 m3] [rs4 m4] [H3 H4]|]; simpl.
  - by apply Forall2_app.
  - constructor. simpl in *. split; [done|]. by rewrite !fmap_app, H2, H4.
  - constructor.
Qed.
End alike.

Lemma cleanup_alike rs rs' :
  Forall2 same_runner rs rs' -> Forall2 same_runner (cleanupRunners rs) (cleanupRunners rs').
Proof.
  unfold cleanupRunners. induction 1 as [|r r' rs rs' Hr _ IH]; [constructor|].
  rewrite !filter_cons. destruct Hr as [H1 H2]. rewrite <-H2. case_decide; [|done]. by constructor.
Qed.

Definition same_engine (ne ne' : NFAEngine) : Prop :=
  patterns ne = patterns ne' /\ Forall2 same_runner (runners ne) (runners ne').

Lemma ingest_all_alike evts evts' ne ne' :
  Forall2 looks_alike evts evts' -> same_engine ne ne' ->
  same_out same_engine (ingest_all evts ne) (ingest_all evts' ne').
Proof.
  intros He. revert ne ne'. induction He as [|e e' evts evts' He _ IH]; intros ne ne' Hne; simpl.
  { by repeat constructor; destruct Hne. }
  destruct Hne as [Hp Hrs]. unfold Ingest. rewrite <-Hp.
  destruct (step_patterns_alike e e' He (patterns ne) _ _ Hrs) as [[rs1 m1] [rs2 m2] [H1 H2]|];
    simpl; [|constructor].
  destruct (IH (mkEngine (patterns ne) (cleanupRunners rs1)) (mkEngine (patterns ne) (cleanupRunners rs2)))
    as [[ne1 m3] [ne2 m4] [H3 H4]|]; simpl.
  - split; [done|]. by apply cleanup_alike.
  - constructor. simpl in *. split; [done|]. by rewrite !fmap_app, H2, H4.
  - constructor.
Qed.

(** The engine does not track processes.  A runner is documented to follow one
    process chain and records a PID, but two streams of events that differ in
    everything except type, command name and path -- in particular in which
    process did what -- produce the same pattern matches in the same order, with
    any patterns. *)
Lemma nfa_ignores_processes (ne : NFAEngine) (evts evts' : list Event) :
  Forall2 looks_alike evts evts' ->
  option_map (fun r => PatternID <$> snd r) (ingest_all evts ne)
  = option_map (fun r => PatternID <$> snd r) (ingest_all evts' ne).
Proof.
  intros He. destruct (ingest_all_alike evts evts' ne ne He) as [a b [_ H]|]; simpl; [|by f_equal|done].
  split; [done|]. by apply Forall_Forall2_diag, Forall_forall.
Qed.

(** One process reads the file, another one connects: reported all the same. *)
Lemma nfa_ignores_processes_witness :
  option_map (fun r => PatternID <$> snd r) (ingest_all [ev_open_shadow; ev_connect 10] NewNFAEngine)
  = option_map (fun r => PatternID <$> snd r) (ingest_all [ev_open_shadow; ev_connect 999] NewNFAEngine).
Proof. apply nfa_ignores_processes. repeat constructor. Defined.
End Nfa.
