(* ===== verification/StreamEngine.v ===== *)
(** * The streaming engine ([internal/engine/stream/engine.go], [snapshot.go]).

    The engine joins the graph of [ProvGraph], the automata of [Nfa] and a ring buffer of
    recent events.  Its goroutines are the actions of [act], one per passage through a
    [select] or per event of a micro-batch, so that producers, consumers and the eviction
    ticker interleave with the batch.  Clocks and start times of processes are arguments
    of the actions; a channel is the list of the values it holds. *)
From stdpp Require Import sorting.
From Stdlib Require Import Sorted.
From S2P Require Import Prelude GoStrings Events ProvGraph ProvVersions Nfa.
#[local] Open Scope Z_scope.

(** ** The rolling snapshot *)

Record snapEntry := mkSnap { event : Event; at_time : time }.

(** [ring] is the slice [events]; a nil slot is absent. *)
Record RollingSnapshot := mkSnapshot {
  window : duration; ring : gmap Z snapEntry; byPID : gmap Z (list Z); head : Z; tail : Z; maxSize : Z;
}.

Definition NewRollingSnapshot (w : duration) : RollingSnapshot :=
  mkSnapshot (if w <=? 0 then 60 * Minute else w) ∅ ∅ 0 0 500000.

Fixpoint remove_first (i : Z) (l : list Z) : list Z :=
  match l with [] => [] | v :: l => if v =? i then l else v :: remove_first i l end.
Definition indices (m : gmap Z (list Z)) (pid : Z) : list Z := default [] (m !! pid).
Definition removeFromIndex (pid idx : Z) (m : gmap Z (list Z)) : gmap Z (list Z) :=
  if bool_decide (idx ∈ indices m pid) then <[pid := remove_first idx (indices m pid)]> m else m.

Definition Add (now : time) (evt : Event) (rs : RollingSnapshot) : RollingSnapshot :=
  let ring := <[head rs := mkSnap evt now]> (ring rs) in
  let h := (head rs + 1) `mod` maxSize rs in
  let '(idx, t) :=
    if h =? tail rs
    then (match ring !! tail rs with Some old => removeFromIndex (PID (event old)) (tail rs) (byPID rs) | None => byPID rs end,
          (tail rs + 1) `mod` maxSize rs)
    else (byPID rs, tail rs) in
  mkSnapshot (window rs) ring (<[PID evt := indices idx (PID evt) ++ [head rs]]> idx) h t (maxSize rs).

Definition after (cutoff : time) (e : snapEntry) : bool := time_After (at_time e) cutoff.

(** The event of a slot, if it is there and recent. *)
Definition slot (rs : RollingSnapshot) (cutoff : time) (i : Z) : option Event :=
  e ← ring rs !! i; if after cutoff e then Some (event e) else None.

Definition GetByPID (now : time) (pid : Z) (rs : RollingSnapshot) : list Event :=
  omap (slot rs (time_Add now (- window rs))) (indices (byPID rs) pid).

(** The slots from [i] to the head; the fuel is the capacity. *)
Fixpoint walk (fuel : nat) (rs : RollingSnapshot) (i : Z) : list Z :=
  match fuel with
  | O => []
  | S fuel => if i =? head rs then [] else i :: walk fuel rs ((i + 1) `mod` maxSize rs)
  end.

Definition RecentEvents (now : time) (seconds : Z) (rs : RollingSnapshot) : list Event :=
  omap (slot rs (time_Add now (i64 (i64 (- seconds) * Second)))) (walk (Z.to_nat (maxSize rs)) rs (tail rs)).

Fixpoint evict_loop (fuel : nat) (cutoff : time) (rs : RollingSnapshot) (evicted : Z) : RollingSnapshot * Z :=
  match fuel with
  | O => (rs, evicted)
  | S fuel =>
      if tail rs =? head rs then (rs, evicted)
      else
        let next := (tail rs + 1) `mod` maxSize rs in
        match ring rs !! tail rs with
        | None => evict_loop fuel cutoff (mkSnapshot (window rs) (ring rs) (byPID rs) (head rs) next (maxSize rs)) evicted
        | Some e =>
            if after cutoff e then (rs, evicted)
            else evict_loop fuel cutoff
                   (mkSnapshot (window rs) (delete (tail rs) (ring rs)) (removeFromIndex (PID (event e)) (tail rs) (byPID rs)) (head rs) next (maxSize rs))
                   (evicted + 1)
        end
  end.
Definition Evict (now : time) (rs : RollingSnapshot) : RollingSnapshot * Z :=
  evict_loop (Z.to_nat (maxSize rs)) (time_Add now (- window rs)) rs 0.

Definition ContainsPID (pid : Z) (rs : RollingSnapshot) : bool := negb (bool_decide (indices (byPID rs) pid = [])).
Definition Size (rs : RollingSnapshot) : Z :=
  if tail rs <=? head rs then head rs - tail rs else maxSize rs - tail rs + head rs.

(** ** The ring as a queue *)

(** The slots of a queue that starts at slot [t]. *)
Fixpoint placed (n t : Z) (q : list snapEntry) : list (Z * snapEntry) :=
  match q with [] => [] | e :: q => (t, e) :: placed n ((t + 1) `mod` n) q end.
Definition of_pid (pid : Z) (x : Z * snapEntry) : bool := PID (event x.2) =? pid.

(** [rs] holds the entries [q], oldest first. *)
Record holds (rs : RollingSnapshot) (q : list snapEntry) : Prop := {
  h_size : 2 <= maxSize rs;
  h_tail : 0 <= tail rs < maxSize rs;
  h_len : Z.of_nat (length q) < maxSize rs;
  h_head : head rs = (tail rs + Z.of_nat (length q)) `mod` maxSize rs;
  h_ring : forall i e, (i, e) ∈ placed (maxSize rs) (tail rs) q -> ring rs !! i = Some e;
  h_index : forall pid, indices (byPID rs) pid = (List.filter (of_pid pid) (placed (maxSize rs) (tail rs) q)).*1;
}.

Lemma mod_step n t k : 0 < n -> ((t + 1) `mod` n + k) `mod` n = (t + (1 + k)) `mod` n.
Proof. intros. rewrite Z.add_mod_idemp_l by lia. f_equal. lia. Qed.

Lemma slot_apart n t j k : 0 <= j < k -> k < n -> (t + j) `mod` n <> (t + k) `mod` n.
Proof.
  intros Hj Hk E. pose proof (Z.div_mod (t + j) n ltac:(lia)). pose proof (Z.div_mod (t + k) n ltac:(lia)).
  assert (n * ((t + k) / n - (t + j) / n) = k - j) as E' by lia.
  destruct (Z.eq_dec ((t + k) / n) ((t + j) / n)); nia.
Qed.

Lemma placed_app n t q q' : 0 <= t < n -> placed n t (q ++ q') = placed n t q ++ placed n ((t + Z.of_nat (length q)) `mod` n) q'.
Proof.
  revert t. induction q as [|e q IH]; intros t Ht; simpl; [by rewrite Z.add_0_r, Z.mod_small by lia|].
  rewrite IH by (apply Z.mod_pos_bound; lia). rewrite mod_step by lia. do 4 f_equal. lia.
Qed.

Lemma placed_snd n t q : (placed n t q).*2 = q.
Proof. revert t. induction q as [|e q IH]; intros t; simpl; [done|]. by rewrite IH. Qed.

Lemma placed_slot n t q i e : 0 <= t < n -> (i, e) ∈ placed n t q ->
  exists k, 0 <= k < Z.of_nat (length q) /\ i = (t + k) `mod` n.
Proof.
  revert t. induction q as [|x q IH]; intros t Ht; simpl; intros Hin; [by apply elem_of_nil in Hin|].
  apply elem_of_cons in Hin as [[= -> ->]|Hin].
  - exists 0. rewrite Z.add_0_r, Z.mod_small by lia. lia.
  - apply IH in Hin as (k & Hk & ->); [|apply Z.mod_pos_bound; lia]. exists (1 + k). rewrite mod_step by lia. lia.
Qed.

(** The oldest entry of a process is the first of its index. *)
Lemma index_drop m n t x q : (forall pid, indices m pid = (List.filter (of_pid pid) (placed n t (x :: q))).*1) ->
  forall pid, indices (removeFromIndex (PID (event x)) t m) pid = (List.filter (of_pid pid) (placed n ((t + 1) `mod` n) q)).*1.
Proof.
  intros Hm pid. unfold removeFromIndex. pose proof (Hm (PID (event x))) as Hx. simpl in Hx. unfold of_pid at 1 in Hx. simpl in Hx.
  rewrite Z.eqb_refl in Hx. simpl in Hx. rewrite bool_decide_true by (rewrite Hx; set_solver).
  destruct (decide (pid = PID (event x))) as [->|Hne].
  - unfold indices at 1. rewrite lookup_insert_eq, Hx. simpl. by rewrite Z.eqb_refl.
  - unfold indices at 1. rewrite lookup_insert_ne by done. fold (indices m pid). rewrite Hm. simpl. unfold of_pid at 1. simpl.
    by rewrite (proj2 (Z.eqb_neq (PID (event x)) pid)) by congruence.
Qed.

Definition push (n : Z) (q : list snapEntry) (e : snapEntry) : list snapEntry :=
  if Z.of_nat (length q) + 1 =? n then drop 1 q ++ [e] else q ++ [e].

Lemma index_snoc m n t q pid e : 0 <= t < n -> (forall p, indices m p = (List.filter (of_pid p) (placed n t q)).*1) ->
  indices (<[PID (event e) := indices m (PID (event e)) ++ [(t + Z.of_nat (length q)) `mod` n]]> m) pid
  = (List.filter (of_pid pid) (placed n t (q ++ [e]))).*1.
Proof.
  intros Ht Hm. rewrite placed_app, List.filter_app, fmap_app by lia. rewrite <-Hm. simpl. unfold of_pid. simpl.
  unfold indices at 1. destruct (decide (pid = PID (event e))) as [->|Hne].
  - by rewrite lookup_insert_eq, Z.eqb_refl.
  - rewrite lookup_insert_ne by done. rewrite (proj2 (Z.eqb_neq (PID (event e)) pid)) by congruence. by rewrite app_nil_r.
Qed.

Lemma add_holds now evt rs q : holds rs q -> holds (Add now evt rs) (push (maxSize rs) q (mkSnap evt now)).
Proof.
  intros [Hn Ht Hl Hh Hr Hi]. unfold Add, push.
  assert ((head rs + 1) `mod` maxSize rs = (tail rs + (Z.of_nat (length q) + 1)) `mod` maxSize rs) as Hh'.
  { rewrite Hh, Z.add_mod_idemp_l by lia. f_equal. lia. }
  assert (((head rs + 1) `mod` maxSize rs =? tail rs) = (Z.of_nat (length q) + 1 =? maxSize rs)) as ->.
  { rewrite Hh'. destruct (Z.eqb_spec (Z.of_nat (length q) + 1) (maxSize rs)) as [E|E].
    - rewrite E. apply Z.eqb_eq. rewrite <-(Z.mul_1_l (maxSize rs)) at 1. rewrite Z.mod_add by lia. by apply Z.mod_small.
    - apply Z.eqb_neq. intros E'. apply (slot_apart (maxSize rs) (tail rs) 0 (Z.of_nat (length q) + 1)); [lia..|].
      rewrite E', Z.add_0_r. apply Z.mod_small. lia. }
  assert (forall i e, (i, e) ∈ placed (maxSize rs) (tail rs) q -> <[head rs := mkSnap evt now]> (ring rs) !! i = Some e) as Hr'.
  { intros i e Hin. rewrite lookup_insert_ne; [by apply Hr|]. destruct (placed_slot _ _ _ _ _ Ht Hin) as (k & Hk & ->).
    rewrite Hh. apply not_eq_sym, slot_apart; lia. }
  destruct (Z.eqb_spec (Z.of_nat (length q) + 1) (maxSize rs)) as [E|E].
  - destruct q as [|x q]; [simpl in E; lia|]. rewrite (Hr' (tail rs) x) by (left; done). simpl. rewrite drop_0.
    assert (0 <= (tail rs + 1) `mod` maxSize rs < maxSize rs) as Ht' by (apply Z.mod_pos_bound; lia).
    assert (head rs = ((tail rs + 1) `mod` maxSize rs + Z.of_nat (length q)) `mod` maxSize rs) as Hhd.
    { rewrite Hh, mod_step by lia. f_equal. simpl. lia. }
    pose proof (index_drop _ _ _ _ _ Hi) as Hi'. split; simpl.
    + done.
    + done.
    + rewrite length_app. simpl. simpl in Hl. lia.
    + rewrite Hh', mod_step, length_app by lia. f_equal. simpl. lia.
    + intros i e Hin. rewrite placed_app in Hin by lia. apply elem_of_app in Hin as [Hin|Hin].
      * apply Hr'. simpl. by right.
      * simpl in Hin. apply list_elem_of_singleton in Hin as [= -> ->]. rewrite <-Hhd. apply lookup_insert_eq.
    + intros pid. rewrite Hhd. apply (index_snoc _ _ _ _ pid (mkSnap evt now)); done.
  - split; simpl.
    + done.
    + done.
    + rewrite length_app. simpl. lia.
    + rewrite Hh', length_app. f_equal. simpl. lia.
    + intros i e Hin. rewrite placed_app in Hin by lia. apply elem_of_app in Hin as [Hin|Hin]; [by apply Hr'|].
      simpl in Hin. apply list_elem_of_singleton in Hin as [= -> ->]. rewrite <-Hh. apply lookup_insert_eq.
    + intros pid. rewrite Hh. apply (index_snoc _ _ _ _ pid (mkSnap evt now)); done.
Qed.

Fixpoint drop_old (cutoff : time) (q : list snapEntry) : list snapEntry :=
  match q with [] => [] | e :: q' => if after cutoff e then q else drop_old cutoff q' end.

Lemma tail_head rs q : holds rs q -> (tail rs =? head rs) = bool_decide (q = []).
Proof.
  intros [Hn Ht Hl Hh _ _]. rewrite Hh. destruct q as [|x q].
  - simpl. rewrite Z.add_0_r, Z.mod_small by lia. apply Z.eqb_refl.
  - rewrite bool_decide_false by done. apply Z.eqb_neq. intros E.
    apply (slot_apart (maxSize rs) (tail rs) 0 (Z.of_nat (length (x :: q)))); [simpl; lia|done|]. rewrite <-E, Z.add_0_r. by apply Z.mod_small.
Qed.

Lemma evict_holds fuel cutoff rs q k : holds rs q -> (length q <= fuel)%nat ->
  let r := evict_loop fuel cutoff rs k in
  holds r.1 (drop_old cutoff q) /\ r.2 = k + Z.of_nat (length q - length (drop_old cutoff q)) /\
  window r.1 = window rs /\ maxSize r.1 = maxSize rs.
Proof.
  revert rs q k. induction fuel as [|fuel IH]; intros rs q k H Hf; simpl.
  { destruct q; [|simpl in Hf; lia]. simpl. split_and!; [done|lia|done|done]. }
  rewrite (tail_head _ _ H). destruct q as [|x q]; simpl; [split_and!; [done|lia|done|done]|].
  destruct H as [Hn Ht Hl Hh Hr Hi]. rewrite (Hr (tail rs) x) by (left; done).
  destruct (after cutoff x) eqn:Ea; [simpl; split_and!; [by split|lia|done|done]|].
  pose proof (Z.mod_pos_bound (tail rs + 1) (maxSize rs) ltac:(lia)) as Ht'. simpl in Hf.
  match goal with |- context [evict_loop fuel cutoff ?r ?k'] => destruct (IH r q k') as (A & B & C & D) end.
  - split; simpl; try done.
    + simpl in Hl. lia.
    + rewrite Hh, mod_step by lia. f_equal. simpl. lia.
    + intros i e Hin. rewrite lookup_delete_ne; [apply Hr; by right|].
      destruct (placed_slot _ _ _ _ _ Ht' Hin) as (j & Hj & ->). rewrite mod_step by lia. intros E.
      apply (slot_apart (maxSize rs) (tail rs) 0 (1 + j)); [lia|simpl in Hl; lia|]. rewrite <-E, Z.add_0_r. by apply Z.mod_small.
    + by apply index_drop.
  - lia.
  - split_and!; [done| |done|done]. rewrite B. assert (length (drop_old cutoff q) <= length q)%nat; [|lia].
    clear. induction q as [|y q IH]; simpl; [done|]. destruct (after cutoff y); simpl; lia.
Qed.

Lemma walk_placed fuel rs t q : 0 <= t < maxSize rs -> head rs = (t + Z.of_nat (length q)) `mod` maxSize rs ->
  Z.of_nat (length q) < maxSize rs -> (length q <= fuel)%nat -> walk fuel rs t = (placed (maxSize rs) t q).*1.
Proof.
  revert t q. induction fuel as [|fuel IH]; intros t q Ht Hh Hl Hf; simpl; [destruct q; [done|simpl in Hf; lia]|].
  rewrite Hh. destruct q as [|x q].
  - simpl. by rewrite Z.add_0_r, Z.mod_small, Z.eqb_refl by lia.
  - rewrite (proj2 (Z.eqb_neq _ _)).
    2: { intros E. apply (slot_apart (maxSize rs) t 0 (Z.of_nat (length (x :: q)))); [simpl; lia|done|]. rewrite <-E, Z.add_0_r. by apply Z.mod_small. }
    simpl. f_equal. simpl in *. apply IH; [apply Z.mod_pos_bound; lia| |lia|lia]. rewrite Hh, mod_step by lia. f_equal. lia.
Qed.

Lemma slots_events rs c l : (forall i e, (i, e) ∈ l -> ring rs !! i = Some e) ->
  omap (slot rs c) l.*1 = event <$> List.filter (after c) l.*2.
Proof.
  induction l as [|[i e] l IH]; intros Hl; csimpl; [done|]. unfold slot at 1. rewrite (Hl i e) by (left; done). csimpl.
  destruct (after c e); csimpl; rewrite IH by (intros; apply Hl; by right); done.
Qed.

Definition matching (c : time) (pid : Z) (e : snapEntry) : bool := after c e && (PID (event e) =? pid).

Lemma filter_pid c pid l : List.filter (after c) (List.filter (of_pid pid) l).*2 = List.filter (matching c pid) l.*2.
Proof.
  induction l as [|[i e] l IH]; csimpl; [done|]. unfold of_pid at 1, matching at 1. csimpl.
  destruct (PID (event e) =? pid); csimpl; rewrite IH; by destruct (after c e).
Qed.

Lemma get_holds now pid rs q : holds rs q ->
  GetByPID now pid rs = event <$> List.filter (matching (time_Add now (- window rs)) pid) q.
Proof.
  intros [Hn Ht Hl Hh Hr Hi]. unfold GetByPID. rewrite Hi, slots_events.
  2: { intros i e Hin%list_elem_of_In. apply filter_In in Hin as [Hin _]. by apply Hr, list_elem_of_In. }
  by rewrite filter_pid, placed_snd.
Qed.

Lemma recent_holds now seconds rs q : holds rs q ->
  RecentEvents now seconds rs = event <$> List.filter (after (time_Add now (i64 (i64 (- seconds) * Second)))) q.
Proof.
  intros [Hn Ht Hl Hh Hr Hi]. unfold RecentEvents. rewrite (walk_placed _ _ _ q), slots_events, placed_snd; try done. lia.
Qed.

Lemma size_holds rs q : holds rs q -> Size rs = Z.of_nat (length q).
Proof.
  intros [Hn Ht Hl Hh _ _]. unfold Size. rewrite Hh. destruct (Z.lt_ge_cases (tail rs + Z.of_nat (length q)) (maxSize rs)).
  - rewrite Z.mod_small by lia. rewrite (proj2 (Z.leb_le _ _)); lia.
  - rewrite (Z.mod_eq _ (maxSize rs)) by lia. replace ((tail rs + Z.of_nat (length q)) / maxSize rs) with 1.
    2: { apply Z.div_unique with (tail rs + Z.of_nat (length q) - maxSize rs); lia. }
    rewrite (proj2 (Z.leb_gt _ _)); lia.
Qed.

(** ** The window *)

(** The last [n] entries of a history. *)
Definition last_n (n : nat) (h : list snapEntry) : list snapEntry := drop (length h - n) h.

(** [rs] answers for the history [h] up to entries not after [cutoff]: older ones were
    pushed out of the ring or evicted. *)
Definition covers (cutoff : time) (h : list snapEntry) (rs : RollingSnapshot) : Prop :=
  exists q a b, holds rs q /\ h = a ++ b ++ q /\ Forall (fun e => at_time e <= cutoff) b /\
    Z.of_nat (length (b ++ q)) < maxSize rs /\ (a = [] \/ Z.of_nat (length (b ++ q)) + 1 = maxSize rs).

Lemma covers_new w c : covers c [] (NewRollingSnapshot w).
Proof. exists [], [], []. split_and!; try done; [|by left]. split; done || (intros; set_solver). Qed.

Lemma covers_weaken c c' h rs : c <= c' -> covers c h rs -> covers c' h rs.
Proof. intros Hc (q & a & b & H & Hh & Hb & Hl & Ha). exists q, a, b. split_and!; try done. eapply Forall_impl; [exact Hb|]. simpl. lia. Qed.

Lemma covers_add c h rs now evt : covers c h rs -> covers c (h ++ [mkSnap evt now]) (Add now evt rs).
Proof.
  intros (q & a & b & H & -> & Hb & Hl & Ha). pose proof (add_holds now evt _ _ H) as H'. set (e := mkSnap evt now) in *.
  pose proof (h_size _ _ H) as Hn. assert (maxSize (Add now evt rs) = maxSize rs) as Hm by (unfold Add; by repeat case_match).
  unfold push in H'. destruct (Z.eqb_spec (Z.of_nat (length q) + 1) (maxSize rs)) as [E|E].
  - rewrite length_app in Hl. destruct b as [|]; [|simpl in Hl; lia]. destruct q as [|x q]; [simpl in E; lia|].
    exists (q ++ [e]), (a ++ [x]), []. simpl in *. rewrite drop_0 in H'. rewrite Hm, length_app. simpl.
    split_and!; [done|by rewrite <-?(assoc_L (++)); simpl; rewrite <-?(assoc_L (++))|done|lia|right; lia].
  - destruct (decide (Z.of_nat (length (b ++ q)) + 1 = maxSize rs)) as [E'|E'].
    + destruct b as [|x b]; [simpl in E'; lia|]. apply Forall_cons in Hb as [_ Hb].
      exists (q ++ [e]), (a ++ [x]), b. rewrite Hm. simpl in *. rewrite !length_app in *. simpl.
      split_and!; [done|by rewrite <-?(assoc_L (++)); simpl; rewrite <-?(assoc_L (++))|done|lia|right; lia].
    + destruct Ha as [->|?]; [|done]. exists (q ++ [e]), [], b. rewrite Hm. simpl. rewrite !length_app in *. simpl.
      split_and!; [done|by rewrite <-?(assoc_L (++)); simpl; rewrite <-?(assoc_L (++))|done|lia|by left].
Qed.

Lemma drop_old_split c q : exists d, q = d ++ drop_old c q /\ Forall (fun e => at_time e <= c) d.
Proof.
  induction q as [|x q (d & E & Hd)]; simpl; [by exists []|]. unfold after, time_After.
  destruct (Z.ltb_spec c (at_time x)); [by exists []|]. exists (x :: d). simpl. split; [by rewrite <-E|]. by constructor.
Qed.

Lemma covers_evict c h rs now : c <= now - window rs -> covers c h rs ->
  covers (now - window rs) h (Evict now rs).1 /\ window (Evict now rs).1 = window rs.
Proof.
  intros Hc (q & a & b & H & -> & Hb & Hl & Ha). unfold Evict. pose proof (h_len _ _ H) as Hq.
  destruct (evict_holds (Z.to_nat (maxSize rs)) (time_Add now (- window rs)) rs q 0 H ltac:(lia)) as (H' & _ & Hw & Hm).
  split; [|done]. destruct (drop_old_split (time_Add now (- window rs)) q) as (d & E & Hd).
  exists (drop_old (time_Add now (- window rs)) q), a, (b ++ d). unfold time_Add in *. rewrite Hm, <-!(assoc_L (++)), <-E.
  split_and!; try done. apply Forall_app. split; [eapply Forall_impl; [exact Hb|]|eapply Forall_impl; [exact Hd|]]; simpl; lia.
Qed.

(** What is recent enough is in the ring exactly if it is among the last entries. *)
Lemma covers_exact c h rs : covers c h rs -> exists q, holds rs q /\
  forall f c', c <= c' -> (forall e, f e = true -> after c' e = true) ->
    List.filter f q = List.filter f (last_n (Z.to_nat (maxSize rs - 1)) h).
Proof.
  intros (q & a & b & H & -> & Hb & Hl & Ha). exists q. split; [done|]. intros f c' Hc Hf.
  assert (last_n (Z.to_nat (maxSize rs - 1)) (a ++ b ++ q) = b ++ q) as ->.
  { unfold last_n. rewrite length_app. destruct Ha as [->|E].
    - replace (_ - _)%nat with 0%nat by (simpl; lia). done.
    - replace (_ - _)%nat with (length a) by lia. by rewrite drop_app_length. }
  rewrite List.filter_app, (filter_none f b); [done|]. intros e He. rewrite Forall_forall in Hb. apply Hb in He.
  destruct (f e) eqn:E; [|done]. apply Hf in E. unfold after, time_After in E. apply Z.ltb_lt in E. lia.
Qed.

Lemma covers_get c h rs now pid : covers c h rs -> c <= now - window rs ->
  GetByPID now pid rs = event <$> List.filter (matching (now - window rs) pid) (last_n (Z.to_nat (maxSize rs - 1)) h).
Proof.
  intros (q & H & Hq)%covers_exact Hc. rewrite (get_holds _ _ _ _ H). f_equal. apply (Hq _ _ Hc).
  by intros e [He _]%andb_true_iff.
Qed.

Lemma covers_recent c h rs now seconds : covers c h rs -> 0 <= seconds * Second <= window rs -> window rs <= MaxInt64 -> c <= now - window rs ->
  RecentEvents now seconds rs = event <$> List.filter (after (now - seconds * Second)) (last_n (Z.to_nat (maxSize rs - 1)) h).
Proof.
  intros (q & H & Hq)%covers_exact Hs Hw Hc. rewrite (recent_holds _ _ _ _ H). unfold time_Add, Second, MaxInt64 in *.
  rewrite (i64_small (- seconds)), i64_small by (unfold MinInt64, MaxInt64; lia).
  replace (now + - seconds * 10 ^ 9) with (now - seconds * 10 ^ 9) by lia. f_equal. apply (Hq _ (now - seconds * 10 ^ 9)); [lia|done].
Qed.

(** ** The engine *)

Record EngineConfig := mkConfig { MicroBatchWindow : duration; SnapshotWindow : duration; EventChBuffer : Z; EnableNFA : bool }.
Definition DefaultConfig : EngineConfig := mkConfig (5 * Second) (60 * Minute) 10000 true.

(** [batch]: the local variable of [flushMicroBatch], the events it has not processed yet;
    [stopping]: [stopCh] is closed; [finished]: the loop has left its [select]. *)
Record Engine := mkEng {
  cfg : EngineConfig; graph : Graph; nfa : option Nfa.NFAEngine; snapshot : RollingSnapshot;
  eventCh : list Event; alertCh : list Nfa.PatternMatch; events : list Event;
  batch : list Event; stopping : bool; finished : bool;
}.

Definition New (g : Graph) (c : EngineConfig) : Engine :=
  mkEng c g (if EnableNFA c then Some Nfa.NewNFAEngine else None) (NewRollingSnapshot (SnapshotWindow c)) [] [] [] [] false false.

(** The matches that fit in the channel and those that are dropped. *)
Fixpoint deliver (ms : list Nfa.PatternMatch) (ch dropped : list Nfa.PatternMatch) : list Nfa.PatternMatch * list Nfa.PatternMatch :=
  match ms with
  | [] => (ch, dropped)
  | m :: ms => if (length ch <? 128)%nat then deliver ms (ch ++ [m]) dropped else deliver ms ch (dropped ++ [m])
  end.

(** The engine and the dropped matches; [None] is a panic. *)
Definition processEvent (start_time : Z -> Z) (now : time) (evt : Event) (e : Engine) : option (Engine * list Nfa.PatternMatch) :=
  let g := AddEvent start_time evt (graph e) in
  let rs := Add now evt (snapshot e) in
  match nfa e with
  | None => Some (mkEng (cfg e) g None rs (eventCh e) (alertCh e) (events e) (batch e) (stopping e) (finished e), [])
  | Some ne =>
      '(ne, ms) ← Nfa.Ingest evt ne;
      let '(ch, dropped) := deliver ms (alertCh e) [] in
      Some (mkEng (cfg e) g (Some ne) rs (eventCh e) ch (events e) (batch e) (stopping e) (finished e), dropped)
  end.

(** The statistics read the automata without a check: [None] is the panic. *)
Definition Stats (e : Engine) : option (nat * Z) :=
  ne ← nfa e; Some (Nfa.ActiveStates ne, Size (snapshot e)).

Inductive action :=
  | Send (evt : Event)                               (* a producer *)
  | Receive                                          (* the loop takes an event *)
  | FlushTick                                        (* the ticker of the loop *)
  | Process (start_time : Z -> Z) (now : time)       (* the next event of the batch *)
  | EvictTick (now : time)                           (* the ticker of the snapshot *)
  | Consume                                          (* a reader of the alerts *)
  | Stop                                             (* close(stopCh) *)
  | Finish.                                          (* the loop sees stopCh closed *)

Definition set_queue (ch es b : list Event) (stop fin : bool) (e : Engine) : Engine :=
  mkEng (cfg e) (graph e) (nfa e) (snapshot e) ch (alertCh e) es b stop fin.
Definition set_snapshot (rs : RollingSnapshot) (e : Engine) : Engine :=
  mkEng (cfg e) (graph e) (nfa e) rs (eventCh e) (alertCh e) (events e) (batch e) (stopping e) (finished e).
Definition set_alerts (ch : list Nfa.PatternMatch) (e : Engine) : Engine :=
  mkEng (cfg e) (graph e) (nfa e) (snapshot e) (eventCh e) ch (events e) (batch e) (stopping e) (finished e).

(** The loop is at its [select]. *)
Definition at_select (e : Engine) : bool := bool_decide (batch e = []) && negb (finished e).

(** The state after an action, with the dropped matches; [None]: it cannot happen. *)
Definition act (a : action) (e : Engine) : option (Engine * list Nfa.PatternMatch) :=
  match a with
  | Send evt =>
      if Z.of_nat (length (eventCh e)) <? EventChBuffer (cfg e)
      then Some (set_queue (eventCh e ++ [evt]) (events e) (batch e) (stopping e) (finished e) e, []) else None
  | Receive =>
      match eventCh e with
      | evt :: ch => if at_select e then Some (set_queue ch (events e ++ [evt]) [] (stopping e) false e, []) else None
      | [] => None
      end
  | FlushTick => if at_select e then Some (set_queue (eventCh e) [] (events e) (stopping e) false e, []) else None
  | Process st now =>
      match batch e with
      | evt :: b => processEvent st now evt (set_queue (eventCh e) (events e) b (stopping e) (finished e) e)
      | [] => None
      end
  | EvictTick now => Some (set_snapshot (Evict now (snapshot e)).1 e, [])
  | Consume => match alertCh e with _ :: ch => Some (set_alerts ch e, []) | [] => None end
  | Stop => if stopping e then None else Some (set_queue (eventCh e) (events e) (batch e) true (finished e) e, [])
  | Finish => if at_select e && stopping e then Some (set_queue (eventCh e) [] (events e) true true e, []) else None
  end.

(** ** Runs *)

(** What a run has done: events sent, events processed with what they read, alerts taken
    by readers and alerts dropped. *)
Record log := mkLog {
  sent : list Event; handled : list ((Z -> Z) * time * Event); taken : list Nfa.PatternMatch; lost : list Nfa.PatternMatch;
}.

Definition note (a : action) (e : Engine) (dropped : list Nfa.PatternMatch) (l : log) : log :=
  match a with
  | Send evt => mkLog (sent l ++ [evt]) (handled l) (taken l) (lost l)
  | Process st now => mkLog (sent l) (handled l ++ ((fun evt => (st, now, evt)) <$> take 1 (batch e))) (taken l) (lost l ++ dropped)
  | Consume => mkLog (sent l) (handled l) (taken l ++ take 1 (alertCh e)) (lost l)
  | _ => l
  end.

Fixpoint run (ops : list action) (e : Engine) (l : log) : option (Engine * log) :=
  match ops with
  | [] => Some (e, l)
  | a :: ops => '(e', dropped) ← act a e; run ops e' (note a e dropped l)
  end.

Definition clock (a : action) : option time := match a with Process _ now | EvictTick now => Some now | _ => None end.
Definition evt_of (x : (Z -> Z) * time * Event) : Event := x.2.
Definition entry_of (x : (Z -> Z) * time * Event) : snapEntry := mkSnap x.2 x.1.2.
Definition input_of (x : (Z -> Z) * time * Event) : (Z -> Z) * Event := (x.1.1, x.2).

Definition alerts_ok (c : EngineConfig) (e : Engine) (l : log) : Prop :=
  if EnableNFA c then
    exists ne ms, nfa e = Some ne /\ Nfa.engine_ok ne /\ Nfa.ingest_all (evt_of <$> handled l) Nfa.NewNFAEngine = Some (ne, ms) /\
      ms ≡ₚ (taken l ++ alertCh e) ++ lost l /\ taken l ++ alertCh e `sublist_of` ms /\ (length (alertCh e) <= 128)%nat
  else nfa e = None /\ alertCh e = [].

Record stream_ok (g : Graph) (c : EngineConfig) (times : list time) (e : Engine) (l : log) : Prop := {
  so_cfg : cfg e = c;
  so_window : window (snapshot e) = window (NewRollingSnapshot (SnapshotWindow c)) /\ maxSize (snapshot e) = 500000;
  so_events : sent l = (evt_of <$> handled l) ++ batch e ++ events e ++ eventCh e;
  so_graph : graph e = ProvVersions.run (input_of <$> handled l) g;
  so_snapshot : forall t, Forall (fun u => u <= t) times -> covers (t - window (snapshot e)) (entry_of <$> handled l) (snapshot e);
  so_alerts : alerts_ok c e l;
}.

Lemma deliver_split ms ch dropped : exists a b, deliver ms ch dropped = (ch ++ a, dropped ++ b) /\ ms ≡ₚ a ++ b /\ a `sublist_of` ms /\
  ((length ch <= 128)%nat -> (length (ch ++ a) <= 128)%nat).
Proof.
  revert ch dropped. induction ms as [|m ms IH]; intros ch dropped; simpl.
  { exists [], []. rewrite !app_nil_r. split_and!; done. }
  destruct (Nat.ltb_spec (length ch) 128).
  - destruct (IH (ch ++ [m]) dropped) as (a & b & -> & Hp & Hs & Hl). exists (m :: a), b. rewrite <-(assoc_L (++)). simpl.
    split_and!; [done|by rewrite Hp|by constructor|]. intros _. rewrite <-(assoc_L (++)) in Hl. apply Hl. rewrite length_app. simpl. lia.
  - destruct (IH ch (dropped ++ [m])) as (a & b & -> & Hp & Hs & Hl). exists a, (m :: b). rewrite <-(assoc_L (++)). simpl.
    split_and!; [done|rewrite Hp; by apply Permutation_middle|by constructor|done].
Qed.

Lemma ingest_snoc evts evt ne ne' ms ne'' ms' : Nfa.ingest_all evts ne = Some (ne', ms) -> Nfa.Ingest evt ne' = Some (ne'', ms') ->
  Nfa.ingest_all (evts ++ [evt]) ne = Some (ne'', ms ++ ms').
Proof. intros H1 H2. rewrite Nfa.ingest_all_app, H1. simpl. rewrite H2. simpl. by rewrite app_nil_r. Qed.

Lemma stream_new_ok g c : stream_ok g c [] (New g c) (mkLog [] [] [] []).
Proof.
  split; try done; [intros; apply covers_new|]. unfold alerts_ok, New. destruct (EnableNFA c); simpl; [|done].
  exists Nfa.NewNFAEngine, []. split_and!; try done; [apply Nfa.default_ok|simpl; lia].
Qed.

Lemma add_same now evt rs : window (Add now evt rs) = window rs /\ maxSize (Add now evt rs) = maxSize rs.
Proof. unfold Add. by repeat case_match. Qed.

Lemma process_ok g c times e l st now e' dropped : stream_ok g c times e l -> Forall (fun u => u <= now) times ->
  act (Process st now) e = Some (e', dropped) -> stream_ok g c (times ++ [now]) e' (note (Process st now) e dropped l).
Proof.
  intros [Hc [Hw Hm] He Hg Hs Ha] Ht H. simpl in H. destruct (batch e) as [|evt b] eqn:Eb; [done|].
  assert (forall t, Forall (fun u => u <= t) (times ++ [now]) ->
    covers (t - window (snapshot e)) (entry_of <$> handled l ++ [(st, now, evt)]) (Add now evt (snapshot e))) as Hs'.
  { intros t [Ht' _]%Forall_app. rewrite fmap_app. apply covers_add. by apply Hs. }
  assert (sent l = (evt_of <$> handled l ++ [(st, now, evt)]) ++ b ++ events e ++ eventCh e) as He'.
  { rewrite He, fmap_app, <-(assoc_L (++)). done. }
  assert (AddEvent st evt (graph e) = ProvVersions.run (input_of <$> handled l ++ [(st, now, evt)]) g) as Hg'.
  { rewrite Hg, fmap_app. unfold ProvVersions.run. by rewrite foldl_app. }
  pose proof (add_same now evt (snapshot e)) as [Hw' Hm']. unfold processEvent, set_queue in H. simpl in H.
  unfold alerts_ok in Ha. destruct (EnableNFA c) eqn:En.
  - destruct Ha as (ne & ms & E & Hok & Hi & Hp & Hsub & Hlen). rewrite E in H.
    destruct (Nfa.Ingest_ok evt ne Hok) as (ne' & ms' & E' & Hok' & _). rewrite E' in H. simpl in H.
    destruct (deliver_split ms' (alertCh e) []) as (a & d & Ed & Hpd & Hsd & Hld). rewrite Ed in H. simplify_eq/=.
    split; simpl; rewrite ?Eb; simpl; rewrite ?Hw', ?Hm'; try done. unfold alerts_ok. rewrite En. simpl. rewrite ?Eb. simpl.
    exists ne', (ms ++ ms'). split_and!; [done|done| | | |by apply Hld].
    + rewrite fmap_app. by eapply ingest_snoc.
    + rewrite Hp, Hpd. rewrite (assoc_L (++)). rewrite <-!(assoc_L (++)). do 2 f_equiv. rewrite !(assoc_L (++)). f_equiv. apply Permutation_app_comm.
    + rewrite (assoc_L (++)). by apply sublist_app.
  - destruct Ha as [E Ech]. rewrite E in H. simplify_eq/=.
    split; simpl; rewrite ?Eb; simpl; rewrite ?Hw', ?Hm'; try done. unfold alerts_ok. by rewrite En.
Qed.

Lemma stream_act_ok g c times e l a e' dropped : stream_ok g c times e l -> (forall now, clock a = Some now -> Forall (fun u => u <= now) times) ->
  act a e = Some (e', dropped) -> stream_ok g c (times ++ option_list (clock a)) e' (note a e dropped l).
Proof.
  intros Hok Ht H. destruct a as [evt| | |st now|now| | |]; try (by eapply process_ok; eauto);
    destruct Hok as [Hc [Hw Hm] He Hg Hs Ha]; simpl in H; simpl option_list; rewrite ?app_nil_r.
  - case_match; simplify_eq/=. split; simpl; try done. by rewrite He, <-!(assoc_L (++)).
  - destruct (eventCh e) as [|evt ch] eqn:Ech; [done|]. unfold at_select in H. case_match eqn:Es; simplify_eq/=.
    apply andb_true_iff in Es as [Es%bool_decide_eq_true _]. split; simpl; try done. rewrite He, Es. simpl. by rewrite <-!(assoc_L (++)).
  - unfold at_select in H. case_match eqn:Es; simplify_eq/=. apply andb_true_iff in Es as [Es%bool_decide_eq_true _].
    split; simpl; try done. by rewrite He, Es.
  - simplify_eq/=. specialize (Ht now eq_refl). destruct (covers_evict (now - window (snapshot e)) (entry_of <$> handled l) (snapshot e) now) as [Hev Hwv]; [lia|by apply Hs|].
    split; simpl; try done.
    + rewrite Hwv. split; [done|]. destruct (Hs now Ht) as (q & _ & _ & Hq & _). unfold Evict.
      pose proof (h_len _ _ Hq). by edestruct (evict_holds (Z.to_nat (maxSize (snapshot e))) (time_Add now (- window (snapshot e))) (snapshot e) q 0 Hq ltac:(lia)) as (_ & _ & _ & ->).
    + intros t [_ Hn]%Forall_app. apply Forall_inv in Hn. rewrite Hwv. eapply covers_weaken; [|exact Hev]. simpl in Hn. lia.
  - destruct (alertCh e) as [|m ch] eqn:Ech; [done|]. simplify_eq/=. split; simpl; try done. unfold alerts_ok in *. rewrite Ech in Ha. simpl. destruct (EnableNFA (cfg e)); [|naive_solver].
    destruct Ha as (ne & ms & ? & ? & ? & Hp & Hsub & Hlen). exists ne, ms. rewrite Ech, <-(assoc_L (++) (taken l)). simpl in *. split_and!; try done. lia.
  - case_match; simplify_eq/=. split; simpl; done.
  - unfold at_select in H. case_match eqn:Es; simplify_eq/=. apply andb_true_iff in Es as [[Es%bool_decide_eq_true _]%andb_true_iff _].
    split; simpl; try done. by rewrite He, Es.
Qed.

Lemma run_stream_ok g c ops times e l e' l' : stream_ok g c times e l -> run ops e l = Some (e', l') ->
  StronglySorted Z.le (times ++ omap clock ops) -> stream_ok g c (times ++ omap clock ops) e' l'.
Proof.
  revert times e l. induction ops as [|a ops IH]; intros times e l Hok Hr Hs; csimpl.
  { simplify_eq/=. by rewrite app_nil_r. }
  simpl in Hr. destruct (act a e) as [[e1 dropped]|] eqn:Ea; [|done]. simpl in Hr.
  assert (times ++ omap clock (a :: ops) = (times ++ option_list (clock a)) ++ omap clock ops) as E.
  { csimpl. rewrite <-(assoc_L (++)). by destruct (clock a). }
  rewrite E in Hs. csimpl in E. rewrite E. eapply IH; [|exact Hr|exact Hs]. eapply stream_act_ok; [exact Hok| |exact Ea].
  intros now Hn. rewrite Hn in Hs. simpl in Hs. rewrite <-(assoc_L (++)) in Hs. apply Forall_forall. intros u Hu.
  eapply StronglySorted_app_1_elem_of; [exact Hs|done|by left].
Qed.

(** [C32] The streaming engine is exact.  Whatever the interleaving of producers, the batch
    loop, the eviction ticker and the readers of alerts, for clock readings that do not
    go back: the events sent are, in order, those processed followed by those waiting in
    the batch, the buffer and the channel; the graph is the one built from the processed
    events; the snapshot answers for a process with exactly its events among the last
    499,999 processed whose time is in the window; every match the automata make of the
    processed events is taken by a reader, in the channel in the same order, or dropped
    while the channel was full; and the next event of a batch can always be processed. *)
Theorem stream_exact g c ops e l now pid :
  run ops (New g c) (mkLog [] [] [] []) = Some (e, l) -> StronglySorted Z.le (omap clock ops ++ [now]) ->
  let w := window (NewRollingSnapshot (SnapshotWindow c)) in
  sent l = (evt_of <$> handled l) ++ batch e ++ events e ++ eventCh e /\
  graph e = ProvVersions.run (input_of <$> handled l) g /\
  GetByPID now pid (snapshot e) = event <$> List.filter (matching (now - w) pid) (last_n (Z.to_nat 499999) (entry_of <$> handled l)) /\
  (EnableNFA c = true -> exists ne ms, nfa e = Some ne /\ Nfa.ingest_all (evt_of <$> handled l) Nfa.NewNFAEngine = Some (ne, ms) /\
     ms ≡ₚ taken l ++ alertCh e ++ lost l /\ taken l ++ alertCh e `sublist_of` ms) /\
  (forall st t, batch e <> [] -> is_Some (act (Process st t) e)).
Proof.
  intros Hr Hs w. assert (StronglySorted Z.le (omap clock ops) /\ Forall (fun u => u <= now) (omap clock ops)) as [Hs1 Hnow].
  { split; [by eapply StronglySorted_app_1_l|]. apply Forall_forall. intros u Hu. eapply StronglySorted_app_1_elem_of; [exact Hs|done|by left]. }
  destruct (run_stream_ok g c ops [] _ _ _ _ (stream_new_ok g c) Hr Hs1) as [Hc [Hw Hm] He Hg Hcov Ha].
  split_and!; [done|done| | |].
  - specialize (Hcov now Hnow). rewrite (covers_get _ _ _ now pid Hcov) by lia. subst w. rewrite Hw, Hm. change (500000 - 1) with 499999. reflexivity.
  - intros En. unfold alerts_ok in Ha. rewrite En in Ha. destruct Ha as (ne & ms & ? & _ & ? & Hp & ? & _). exists ne, ms.
    split_and!; try done. by rewrite (assoc_L (++)).
  - intros st t Hb. simpl. destruct (batch e) as [|evt b]; [done|]. unfold processEvent, set_queue, alerts_ok in *. simpl.
    destruct (EnableNFA c); [|destruct Ha as [-> _]; by eexists]. destruct Ha as (ne & ms & -> & Hok & _).
    destruct (Nfa.Ingest_ok evt ne Hok) as (ne' & ms' & -> & _). simpl. destruct (deliver _ _ _). by eexists.
Qed.

(** ** Limits *)

Definition ops0 : list action :=
  [Send Nfa.ev_open_shadow; Receive; FlushTick; Send (Nfa.ev_connect 9); Process (fun _ => 0) 100; Receive; EvictTick 150; FlushTick;
   Process (fun _ => 0) 200; Consume; Send (Nfa.ev_connect 4)].

Lemma stream_exact_witness : exists e l, run ops0 (New (NewGraph unix_epoch) DefaultConfig) (mkLog [] [] [] []) = Some (e, l) /\
  GetByPID 300 9 (snapshot e) = [Nfa.ev_connect 9] /\ sent l = [Nfa.ev_open_shadow; Nfa.ev_connect 9; Nfa.ev_connect 4] /\
  eventCh e = [Nfa.ev_connect 4] /\ length (taken l) = 1%nat.
Proof.
  destruct (run ops0 (New (NewGraph unix_epoch) DefaultConfig) (mkLog [] [] [] [])) as [[e l]|] eqn:E; [|by vm_compute in E].
  exists e, l. destruct (stream_exact _ _ _ _ _ 300 9 E ltac:(simpl; repeat constructor; lia)) as (H1 & _ & H2 & _).
  split; [done|]. rewrite H1, H2. clear H1 H2. vm_compute in E. injection E as <- <-. split_and!; vm_compute; reflexivity.
Defined.

(** Stopping loses the events that still wait in the channel. *)
Example stop_loses : exists e l,
  run [Send Nfa.ev_open_shadow; Stop; Finish] (New (NewGraph unix_epoch) DefaultConfig) (mkLog [] [] [] []) = Some (e, l) /\
  finished e = true /\ batch e = [] /\ eventCh e = [Nfa.ev_open_shadow] /\ act Receive e = None.
Proof. eexists _, _. split; [reflexivity|]. repeat split. Qed.

(** Without the automata the statistics dereference a nil pointer. *)
Lemma stats_panics g c : EnableNFA c = false -> Stats (New g c) = None.
Proof. intros Hc. unfold Stats, New. by rewrite Hc. Qed.
