(* ===== verification/Spsc.v ===== *)
(** * The single-producer single-consumer queue ([internal/engine/pipeline/lockfree.go]).

    [TryPush] and [TryPop] are the sequential functions.  The concurrent queue is
    a step relation in which each access to shared memory (an atomic load or
    store of [head] or [tail], a read or write of a slot) is one step, and the
    steps of one producer and one consumer interleave arbitrarily (Go's atomics
    are sequentially consistent).  The theorems show that every interleaving
    behaves like an atomic bounded FIFO queue.  An item is a non-nil pointer; a
    slot holds an item or nil ([None]). *)
From S2P Require Import Prelude.

Module Spsc.
Section spsc.
Context {A : Type}.

Record LockFreeQueue := mkQueue { buffer : list (option A); mask : Z; head : Z; tail : Z }.

Definition maxQueueSize : Z := 65536.

(** [for pow2 < size { pow2 <<= 1 }]; sizes are at most 2^16. *)
Fixpoint round_pow2 (fuel : nat) (pow2 size : Z) : Z :=
  match fuel with
  | O => pow2
  | S fuel => if pow2 <? size then round_pow2 fuel (u64 (Z.shiftl pow2 1)) size else pow2
  end.

Definition clamp_size (size : Z) : Z :=
  let size := if size <=? 0 then 4096 else size in
  if maxQueueSize <? size then maxQueueSize else size.

Definition NewLockFreeQueue (size : Z) : LockFreeQueue :=
  let pow2 := round_pow2 17 1 (u64 (clamp_size size)) in
  mkQueue (replicate (Z.to_nat pow2) None) (u64 (pow2 - 1)) 0 0.

Definition slot (q : LockFreeQueue) (i : Z) : nat := Z.to_nat (Z.land i (mask q)).

Definition Cap (q : LockFreeQueue) : Z := Z.of_nat (length (buffer q)).
Definition Len (q : LockFreeQueue) : Z := i64 (u64 (tail q - head q)).

Definition set_slot (i : nat) (v : option A) (q : LockFreeQueue) : LockFreeQueue :=
  mkQueue (<[i := v]> (buffer q)) (mask q) (head q) (tail q).
Definition set_head (h : Z) (q : LockFreeQueue) : LockFreeQueue :=
  mkQueue (buffer q) (mask q) h (tail q).
Definition set_tail (t : Z) (q : LockFreeQueue) : LockFreeQueue :=
  mkQueue (buffer q) (mask q) (head q) t.

(** ** The operations, run alone *)

Definition TryPush (item : option A) (q : LockFreeQueue) : LockFreeQueue * bool :=
  let t := tail q in
  let h := head q in
  if Cap q <=? u64 (t - h) then (q, false)
  else (set_tail (u64 (t + 1)) (set_slot (slot q t) item q), true).

Definition TryPop (q : LockFreeQueue) : LockFreeQueue * option A :=
  let h := head q in
  let t := tail q in
  if t <=? h then (q, None)
  else match buffer q !! slot q h with
       | Some (Some item) => (set_head (u64 (h + 1)) (set_slot (slot q h) None q), Some item)
       | _ => (q, None)
       end.

(** ** The operations, step by step *)

(** Where the producer is in [TryPush item]: before the load of [tail]; after it;
    after the load of [head] found room; after the write of the slot. *)
Inductive producer :=
  | PIdle | PStart (x : A) | PTail (x : A) (t : Z) | PRoom (x : A) (t : Z) | PWritten (x : A) (t : Z).

(** Where the consumer is in [TryPop]: after the load of [head]; after the load of
    [tail] found an item; after the read of the slot; after clearing it. *)
Inductive consumer :=
  | CIdle | CHead (h : Z) | CFound (h : Z) | CGot (h : Z) (x : A) | CCleared (h : Z) (x : A).

Record config := mkConfig { queue : LockFreeQueue; prod : producer; cons : consumer }.

(** What a step shows: a completed operation, or nothing. *)
Inductive label := Tau | Pushed (x : A) | Full (x : A) | Popped (x : A) | Empty.

Inductive step : config -> label -> config -> Prop :=
  | step_call x q c : step (mkConfig q PIdle c) Tau (mkConfig q (PStart x) c)
  | step_load_tail x q c : step (mkConfig q (PStart x) c) Tau (mkConfig q (PTail x (tail q)) c)
  | step_full x t q c : Cap q <= u64 (t - head q) ->
      step (mkConfig q (PTail x t) c) (Full x) (mkConfig q PIdle c)
  | step_room x t q c : u64 (t - head q) < Cap q ->
      step (mkConfig q (PTail x t) c) Tau (mkConfig q (PRoom x t) c)
  | step_write x t q c :
      step (mkConfig q (PRoom x t) c) Tau (mkConfig (set_slot (slot q t) (Some x) q) (PWritten x t) c)
  | step_store_tail x t q c :
      step (mkConfig q (PWritten x t) c) (Pushed x) (mkConfig (set_tail (u64 (t + 1)) q) PIdle c)
  | step_load_head q p : step (mkConfig q p CIdle) Tau (mkConfig q p (CHead (head q)))
  | step_empty h q p : tail q <= h -> step (mkConfig q p (CHead h)) Empty (mkConfig q p CIdle)
  | step_nonempty h q p : h < tail q -> step (mkConfig q p (CHead h)) Tau (mkConfig q p (CFound h))
  | step_nil h q p : (forall x, buffer q !! slot q h <> Some (Some x)) ->
      step (mkConfig q p (CFound h)) Empty (mkConfig q p CIdle)
  | step_read h x q p : buffer q !! slot q h = Some (Some x) ->
      step (mkConfig q p (CFound h)) Tau (mkConfig q p (CGot h x))
  | step_clear h x q p :
      step (mkConfig q p (CGot h x)) Tau (mkConfig (set_slot (slot q h) None q) p (CCleared h x))
  | step_store_head h x q p :
      step (mkConfig q p (CCleared h x)) (Popped x) (mkConfig (set_head (u64 (h + 1)) q) p CIdle).

Inductive steps : config -> list label -> config -> Prop :=
  | steps_nil c : steps c [] c
  | steps_snoc c ls c' l c'' : steps c ls c' -> step c' l c'' -> steps c (ls ++ [l]) c''.

(** ** The specification: an atomic bounded queue *)

Inductive spec_step (cap : Z) : list A -> label -> list A -> Prop :=
  | spec_tau l : spec_step cap l Tau l
  | spec_push l x : Z.of_nat (length l) < cap -> spec_step cap l (Pushed x) (l ++ [x])
  | spec_full l x : Z.of_nat (length l) = cap -> spec_step cap l (Full x) l
  | spec_pop x l : spec_step cap (x :: l) (Popped x) l
  | spec_empty : spec_step cap [] Empty [].

Inductive spec_steps (cap : Z) : list A -> list label -> list A -> Prop :=
  | spec_nil l : spec_steps cap l [] l
  | spec_snoc l ls l' x l'' : spec_steps cap l ls l' -> spec_step cap l' x l'' ->
      spec_steps cap l (ls ++ [x]) l''.

Definition pushes (ls : list label) : list A :=
  omap (fun l => match l with Pushed x => Some x | _ => None end) ls.
Definition pops (ls : list label) : list A :=
  omap (fun l => match l with Popped x => Some x | _ => None end) ls.

(** ** Sizes *)

Lemma round_pow2_spec fuel k size :
  (k + fuel <= 62)%nat -> 2 ^ Z.of_nat k < 2 * Z.max 1 size -> size <= 2 ^ Z.of_nat (k + fuel) ->
  exists j, round_pow2 fuel (2 ^ Z.of_nat k) size = 2 ^ Z.of_nat j /\ (j <= k + fuel)%nat /\
    size <= 2 ^ Z.of_nat j < 2 * Z.max 1 size.
Proof.
  revert k. induction fuel as [|fuel IH]; intros k Hk Hlt Hle; simpl.
  - exists k. rewrite Nat.add_0_r in *. split_and!; done || lia.
  - destruct (Z.ltb_spec (2 ^ Z.of_nat k) size).
    + assert (u64 (Z.shiftl (2 ^ Z.of_nat k) 1) = 2 ^ Z.of_nat (S k)) as ->.
      { rewrite Z.shiftl_mul_pow2 by lia. rewrite Nat2Z.inj_succ, Z.pow_succ_r by lia.
        rewrite u64_small; [lia|]. pose proof (Z.pow_pos_nonneg 2 (Z.of_nat k)).
        assert (2 ^ Z.of_nat k <= 2 ^ 62) by (apply Z.pow_le_mono_r; lia). lia. }
      destruct (IH (S k)) as (j & -> & Hj & Hs).
      * lia.
      * rewrite Nat2Z.inj_succ, Z.pow_succ_r by lia. lia.
      * by replace (S k + fuel)%nat with (k + S fuel)%nat by lia.
      * exists j. split_and!; done || lia.
    + exists k. split_and!; try done; try lia.
Qed.

Definition geometry (k : nat) (q : LockFreeQueue) : Prop :=
  (k <= 17)%nat /\ Cap q = 2 ^ Z.of_nat k /\ mask q = 2 ^ Z.of_nat k - 1.

Lemma clamp_range size : 1 <= clamp_size size <= 65536.
Proof.
  unfold clamp_size, maxQueueSize. destruct (Z.leb_spec size 0); [done|].
  destruct (Z.ltb_spec 65536 size); lia.
Qed.

Lemma new_geometry size :
  let q := NewLockFreeQueue size in
  (exists k, geometry k q) /\ clamp_size size <= Cap q < 2 * clamp_size size /\
  head q = 0 /\ tail q = 0.
Proof.
  pose proof (clamp_range size) as Hc. intros q.
  destruct (round_pow2_spec 17 0 (u64 (clamp_size size))) as (k & Hr & Hk & Hs);
    rewrite ?u64_small in * by lia; [lia|simpl; lia|simpl; lia|].
  assert (0 < 2 ^ Z.of_nat k <= 2 ^ 17) as Hp.
  { split; [apply Z.pow_pos_nonneg; lia|apply Z.pow_le_mono_r; lia]. }
  assert (Cap q = 2 ^ Z.of_nat k) as HC.
  { unfold q, NewLockFreeQueue, Cap. cbn [buffer]. rewrite length_replicate.
    rewrite u64_small by lia. change 1 with (2 ^ Z.of_nat 0). rewrite Hr. lia. }
  split_and!; [|lia|lia|done|done].
  exists k. split_and!; [lia|done|]. unfold q, NewLockFreeQueue. cbn [mask].
  rewrite (u64_small (clamp_size size)) by lia. change 1 with (2 ^ Z.of_nat 0) at 1.
  rewrite Hr. by rewrite u64_small by lia.
Qed.

(** ** The invariant *)

(** The slot of index [i] in a buffer of [2^k] slots. *)
Definition pos (k : nat) (i : nat) : nat := (i mod 2 ^ k)%nat.

Lemma pos_lt k i : (pos k i < 2 ^ k)%nat.
Proof. apply Nat.mod_upper_bound. apply Nat.pow_nonzero. lia. Qed.

Lemma pos_neq k i j : (i < j < i + 2 ^ k)%nat -> pos k i <> pos k j.
Proof.
  intros Hij Heq. unfold pos in Heq.
  assert (2 ^ k <> 0)%nat as Hk by (apply Nat.pow_nonzero; lia).
  pose proof (Nat.div_mod_eq i (2 ^ k)). pose proof (Nat.div_mod_eq j (2 ^ k)).
  assert (j - i = 2 ^ k * (j / 2 ^ k - i / 2 ^ k))%nat as Hd by nia.
  destruct (j / 2 ^ k - i / 2 ^ k)%nat; nia.
Qed.

Lemma slot_pos k q i : geometry k q -> slot q (Z.of_nat i) = pos k i.
Proof.
  intros (_ & _ & Hm). unfold slot, pos. rewrite Hm.
  replace (2 ^ Z.of_nat k - 1) with (Z.ones (Z.of_nat k)) by (rewrite Z.ones_equiv; lia).
  rewrite Z.land_ones by lia. replace (2 ^ Z.of_nat k) with (Z.of_nat (2 ^ k)) by (by rewrite Nat2Z.inj_pow).
  by rewrite <-Nat2Z.inj_mod, Nat2Z.id.
Qed.

(** [P] and [C]: the items pushed and popped so far, in order. *)
Record inv (k : nat) (P C : list A) (c : config) : Prop := {
  i_geo : geometry k (queue c);
  i_head : head (queue c) = Z.of_nat (length C);
  i_tail : tail (queue c) = Z.of_nat (length P);
  i_fifo : C `prefix_of` P;
  i_cap : (length P <= length C + 2 ^ k)%nat;
  i_slots : forall i x, (length C <= i)%nat -> P !! i = Some x ->
    (i = length C -> forall h y, cons c <> CCleared h y) ->
    buffer (queue c) !! pos k i = Some (Some x);
  i_prod : match prod c with
           | PIdle | PStart _ => True
           | PTail x t => t = Z.of_nat (length P)
           | PRoom x t => t = Z.of_nat (length P) /\ (length P < length C + 2 ^ k)%nat
           | PWritten x t => t = Z.of_nat (length P) /\ (length P < length C + 2 ^ k)%nat /\
               buffer (queue c) !! pos k (length P) = Some (Some x)
           end;
  i_cons : match cons c with
           | CIdle => True
           | CHead h => h = Z.of_nat (length C)
           | CFound h => h = Z.of_nat (length C) /\ (length C < length P)%nat
           | CGot h x | CCleared h x => h = Z.of_nat (length C) /\ P !! length C = Some x
           end;
}.

Lemma geometry_set k q q' : buffer q' = buffer q \/ (exists i v, buffer q' = <[i := v]> (buffer q)) ->
  mask q' = mask q -> geometry k q -> geometry k q'.
Proof.
  intros Hb Hm (Hk & Hc & Hmask). unfold geometry, Cap in *. rewrite Hm. split_and!; [done| |done].
  destruct Hb as [->|(i & v & ->)]; [done|]. by rewrite length_insert.
Qed.

Lemma cap_nat k q : geometry k q -> Cap q = Z.of_nat (2 ^ k).
Proof. intros (_ & -> & _). by rewrite Nat2Z.inj_pow. Qed.

Lemma buffer_len k q i : geometry k q -> (pos k i < length (buffer q))%nat.
Proof.
  intros Hg. pose proof (cap_nat k q Hg) as Hc. unfold Cap in Hc. pose proof (pos_lt k i). lia.
Qed.

(** The occupancy the producer computes. *)
Lemma occupancy k P C c t :
  inv k P C c -> Z.of_nat (length P) < 2 ^ 64 -> t = Z.of_nat (length P) ->
  u64 (t - head (queue c)) = Z.of_nat (length P - length C) /\ (length C <= length P)%nat.
Proof.
  intros Hi Hl ->. rewrite (i_head k P C c Hi). pose proof (prefix_length _ _ (i_fifo k P C c Hi)).
  rewrite u64_small by lia. lia.
Qed.

(** The item at the head of the queue. *)
Lemma front (P C : list A) (x : A) : C `prefix_of` P -> P !! length C = Some x ->
  drop (length C) P = x :: drop (S (length C)) P /\ C ++ [x] `prefix_of` P.
Proof.
  intros [k ->] Hx. split; [by apply drop_S|].
  rewrite lookup_app_r, Nat.sub_diag in Hx by lia. destruct k as [|y k]; simplify_eq/=.
  exists k. by rewrite <-(assoc_L (++)).
Qed.

Section preserve.
Context (k : nat) (P C : list A).
Hypothesis Hbound : Z.of_nat (length P) + 1 < 2 ^ 64.

Definition simulates (c : config) (l : label) (c' : config) : Prop :=
  let P' := P ++ pushes [l] in
  let C' := C ++ pops [l] in
  inv k P' C' c' /\
  spec_step (2 ^ Z.of_nat k) (drop (length C) P) l (drop (length C') P').

(** A silent step keeps both histories. *)
Lemma simulates_tau c c' : inv k P C c' -> simulates c Tau c'.
Proof. intros H. unfold simulates. simpl. rewrite !app_nil_r. split; [done|constructor]. Qed.

Lemma push_step c x t q :
  inv k P C (mkConfig q (PWritten x t) c) ->
  simulates (mkConfig q (PWritten x t) c) (Pushed x) (mkConfig (set_tail (u64 (t + 1)) q) PIdle c).
Proof using Hbound.
  intros Hi. pose proof Hi as [Hg Hh Ht Hf Hc Hs (-> & Hr & Hw) Hco]. simpl in *.
  pose proof (prefix_length _ _ Hf) as Hl.
  unfold simulates. simpl. rewrite app_nil_r, drop_app_le by lia. split.
  - split; simpl; try done.
    + rewrite u64_small, length_app by lia. simpl. lia.
    + by apply prefix_app_r.
    + rewrite length_app. simpl. lia.
    + intros i y Hi' Hy Hcc. destruct (decide (i = length P)) as [->|].
      * rewrite lookup_app_r, Nat.sub_diag in Hy by lia. by simplify_eq/=.
      * apply Hs; [done| |done]. pose proof (lookup_lt_Some _ _ _ Hy) as Hlt.
        rewrite length_app in Hlt. simpl in Hlt. rewrite lookup_app_l in Hy by lia. done.
    + destruct c; try done.
      * rewrite length_app. simpl. split; [tauto|lia].
      * destruct Hco as [-> Hx]. split; [done|]. by apply lookup_app_l_Some.
      * destruct Hco as [-> Hx]. split; [done|]. by apply lookup_app_l_Some.
  - constructor. rewrite length_drop. pose proof (cap_nat k q Hg) as HC.
    destruct Hg as (_ & Hcap & _). rewrite Hcap in HC. lia.
Qed.

Lemma pop_step p h x q :
  inv k P C (mkConfig q p (CCleared h x)) ->
  simulates (mkConfig q p (CCleared h x)) (Popped x) (mkConfig (set_head (u64 (h + 1)) q) p CIdle).
Proof using Hbound.
  intros [Hg Hh Ht Hf Hc Hs Hp (-> & Hx)]. simpl in *.
  destruct (front P C x Hf Hx) as [Hd Hf']. pose proof (prefix_length _ _ Hf') as Hl.
  rewrite length_app in Hl. simpl in Hl.
  unfold simulates. simpl. rewrite app_nil_r, Hd, length_app. simpl.
  replace (length C + 1)%nat with (S (length C)) by lia. split; [|constructor].
  split; simpl; try done.
  - rewrite u64_small, length_app by lia. simpl. lia.
  - rewrite length_app. simpl. lia.
  - intros i y Hi Hy _. rewrite length_app in Hi. simpl in Hi. apply Hs; [lia|done|]. intros ->. lia.
  - destruct p; rewrite ?length_app; simpl; intuition lia.
Qed.

(** The producer's write goes to a slot outside the queue's contents. *)
Lemma write_step c x t q :
  inv k P C (mkConfig q (PRoom x t) c) ->
  inv k P C (mkConfig (set_slot (slot q t) (Some x) q) (PWritten x t) c).
Proof.
  intros [Hg Hh Ht Hf Hc Hs (-> & Hr) Hco]. simpl in *. rewrite (slot_pos k) by done.
  assert (geometry k (set_slot (pos k (length P)) (Some x) q)) by (eapply geometry_set; [right|..]; by eauto).
  split; simpl; try done.
  - intros i y Hi Hy Hcc. rewrite list_lookup_insert_ne; [by apply Hs|].
    apply not_eq_sym, pos_neq. apply lookup_lt_Some in Hy. lia.
  - split_and!; [done|done|]. apply list_lookup_insert_eq. by apply buffer_len.
Qed.

(** The consumer clears the head slot; the producer's slot is another one. *)
Lemma clear_step p h x q :
  inv k P C (mkConfig q p (CGot h x)) ->
  inv k P C (mkConfig (set_slot (slot q h) None q) p (CCleared h x)).
Proof.
  intros [Hg Hh Ht Hf Hc Hs Hp (-> & Hx)]. simpl in *. rewrite (slot_pos k) by done.
  assert (geometry k (set_slot (pos k (length C)) None q)) by (eapply geometry_set; [right|..]; by eauto).
  pose proof (lookup_lt_Some _ _ _ Hx) as Hlt.
  split; simpl; try done.
  - intros i y Hi Hy Hcc. destruct (decide (i = length C)) as [->|].
    { by destruct (Hcc eq_refl (Z.of_nat (length C)) x). }
    rewrite list_lookup_insert_ne; [apply Hs; done|]. apply pos_neq. apply lookup_lt_Some in Hy. lia.
  - destruct p; try done. destruct Hp as (-> & Hr & Hw). split_and!; [done|done|].
    rewrite list_lookup_insert_ne; [done|]. apply pos_neq. lia.
Qed.

Definition cons_ok (c : consumer) : Prop :=
  match c with
  | CIdle => True
  | CHead h => h = Z.of_nat (length C)
  | CFound h => h = Z.of_nat (length C) /\ (length C < length P)%nat
  | CGot h x | CCleared h x => h = Z.of_nat (length C) /\ P !! length C = Some x
  end.

(** The consumer moves on without touching the queue. *)
Lemma inv_set_cons q p c c' :
  (forall h y, c <> CCleared h y) -> inv k P C (mkConfig q p c) -> cons_ok c' ->
  inv k P C (mkConfig q p c').
Proof. intros Hc [] Hc'. split; simpl in *; try done. intros i x Hi Hx _. auto. Qed.

Lemma step_simulates c l c' : inv k P C c -> step c l c' -> simulates c l c'.
Proof using Hbound.
  intros Hi Hst. pose proof (prefix_length _ _ (i_fifo k P C c Hi)) as Hl.
  pose proof (cap_nat k _ (i_geo k P C c Hi)) as HC.
  assert (2 ^ Z.of_nat k = Z.of_nat (2 ^ k)) as HP by (by rewrite Nat2Z.inj_pow).
  destruct Hst as [x q c|x q c|x t q c Hfull|x t q c Hroom|x t q c|x t q c|q p|h q p He|h q p He
                  |h q p Hnil|h x q p Hx|h x q p|h x q p].
  - apply simulates_tau. destruct Hi; split; simpl in *; done.
  - apply simulates_tau. destruct Hi; split; simpl in *; done.
  - destruct (occupancy k P C _ t Hi ltac:(lia) (i_prod k P C _ Hi)) as [Ho _]. simpl in Ho, HC.
    unfold simulates. simpl. rewrite !app_nil_r. split; [destruct Hi; split; simpl in *; done|].
    constructor. rewrite length_drop. pose proof (i_cap k P C _ Hi). lia.
  - destruct (occupancy k P C _ t Hi ltac:(lia) (i_prod k P C _ Hi)) as [Ho _]. simpl in Ho, HC.
    apply simulates_tau. destruct Hi as [? ? ? ? ? ? Hp ?]. simpl in Hp. split; simpl in *; try done; lia.
  - by apply simulates_tau, write_step.
  - by apply push_step.
  - apply simulates_tau. apply (inv_set_cons q p CIdle); [done|done|apply (i_head k P C _ Hi)].
  - pose proof (i_cons k P C _ Hi) as Hh. pose proof (i_tail k P C _ Hi) as Ht. simpl in Hh, Ht.
    unfold simulates. simpl. rewrite !app_nil_r.
    split; [by apply (inv_set_cons q p (CHead h))|]. rewrite drop_ge by lia. constructor.
  - pose proof (i_cons k P C _ Hi) as Hh. pose proof (i_tail k P C _ Hi) as Ht. simpl in Hh, Ht.
    apply simulates_tau. apply (inv_set_cons q p (CHead h)); [done|done|simpl; lia].
  - destruct Hi as [Hg Hh Ht Hf Hc Hs Hp (-> & Hlt)]. simpl in *.
    apply lookup_lt_is_Some in Hlt as [y Hy]. destruct (Hnil y).
    rewrite (slot_pos k) by done. by apply Hs.
  - apply simulates_tau. apply (inv_set_cons q p (CFound h)); [done|done|].
    destruct Hi as [Hg Hh Ht Hf Hc Hs Hp (-> & Hlt)]. simpl in *.
    split; [done|]. apply lookup_lt_is_Some in Hlt as [y Hy].
    assert (buffer q !! pos k (length C) = Some (Some y)) as Hb by (by apply Hs).
    rewrite (slot_pos k) in Hx by done. rewrite Hb in Hx. by simplify_eq.
  - by apply simulates_tau, clear_step.
  - by apply pop_step.
Qed.
End preserve.

Definition init (size : Z) : config := mkConfig (NewLockFreeQueue size) PIdle CIdle.

Lemma init_inv size : exists k, geometry k (NewLockFreeQueue size) /\ inv k [] [] (init size).
Proof.
  destruct (new_geometry size) as ((k & Hg) & _ & _). exists k. split; [done|].
  split; simpl; try done; lia.
Qed.

Lemma pushes_app ls ls' : pushes (ls ++ ls') = pushes ls ++ pushes ls'.
Proof. apply omap_app. Qed.
Lemma pops_app ls ls' : pops (ls ++ ls') = pops ls ++ pops ls'.
Proof. apply omap_app. Qed.

Lemma spsc_run_inv size ls c :
  steps (init size) ls c -> Z.of_nat (length (pushes ls)) + 1 < 2 ^ 64 ->
  exists k, geometry k (NewLockFreeQueue size) /\ inv k (pushes ls) (pops ls) c /\
    spec_steps (2 ^ Z.of_nat k) [] ls (drop (length (pops ls)) (pushes ls)).
Proof.
  destruct (init_inv size) as (k & Hg & Hi). remember (init size) as c0 eqn:Hc0.
  induction 1 as [c|c ls c1 l c2 _ IH Hst]; intros Hb.
  - exists k. split_and!; [done|by subst|constructor].
  - rewrite pushes_app, length_app in Hb.
    destruct IH as (k' & Hg' & Hi' & Hsp); [done|done|lia|].
    exists k'. rewrite pushes_app, pops_app.
    destruct (step_simulates k' (pushes ls) (pops ls) ltac:(lia) c1 l c2 Hi' Hst) as [H1 H2].
    split_and!; [done|done|]. by eapply spec_snoc.
Qed.

(** ** Theorems *)

(** [C6] Linearisability of the lock-free queue.  Every interleaving of one
    producer and one consumer, with fewer than 2^64 - 1 completed pushes, is an
    execution of an atomic bounded FIFO queue with the capacity of the buffer:
    completed pushes and pops take effect in order, [TryPush] reports "full" only
    when the queue holds exactly its capacity, [TryPop] reports "empty" only when
    the queue is empty, and the items popped are a prefix of the items pushed. *)
Theorem spsc_refines_queue (size : Z) (ls : list label) (c : config) :
  steps (init size) ls c -> Z.of_nat (length (pushes ls)) + 1 < 2 ^ 64 ->
  exists contents, spec_steps (Cap (NewLockFreeQueue size)) [] ls contents /\
    pushes ls = pops ls ++ contents /\ Z.of_nat (length contents) <= Cap (NewLockFreeQueue size).
Proof.
  intros Hst Hb. destruct (spsc_run_inv size ls c Hst Hb) as (k & Hg & Hi & Hsp).
  destruct (i_fifo k _ _ c Hi) as [rest Hr]. pose proof (i_cap k _ _ c Hi) as Hc.
  rewrite Hr, drop_app_length in Hsp. rewrite Hr, length_app in Hc.
  pose proof (cap_nat k _ Hg) as HC. destruct Hg as (_ & Hcap & _). rewrite Hcap in *.
  exists rest. split_and!; [done|done|lia].
Qed.

(** The capacity of a new queue: the requested size (4096 if not positive, at
    most 65536), rounded up to a power of two, so at most twice the size. *)
Lemma new_queue_capacity (size : Z) :
  let q := NewLockFreeQueue size in
  (exists k, Cap q = 2 ^ k /\ mask q = 2 ^ k - 1) /\
  clamp_size size <= Cap q < 2 * clamp_size size /\ 1 <= clamp_size size <= 65536.
Proof.
  intros q. destruct (new_geometry size) as ((k & _ & Hc & Hm) & Hr & _).
  split_and!; [by exists (Z.of_nat k)|apply Hr..|apply clamp_range|apply clamp_range].
Qed.

(** The step relation run without interference is [TryPush] and [TryPop]. *)
Lemma TryPush_steps x q c :
  exists ls c', steps (mkConfig q PIdle c) ls c' /\
    queue c' = fst (TryPush (Some x) q) /\ prod c' = PIdle /\ cons c' = c /\
    pushes ls = (if snd (TryPush (Some x) q) then [x] else []).
Proof.
  unfold TryPush. destruct (Z.leb_spec (Cap q) (u64 (tail q - head q))).
  - exists [Tau; Tau; Full x], (mkConfig q PIdle c). split_and!; try done.
    apply (steps_snoc _ [Tau; Tau] (mkConfig q (PTail x (tail q)) c)); [|by constructor].
    apply (steps_snoc _ [Tau] (mkConfig q (PStart x) c)); [|constructor].
    apply (steps_snoc _ [] (mkConfig q PIdle c)); constructor.
  - exists [Tau; Tau; Tau; Tau; Pushed x],
      (mkConfig (set_tail (u64 (tail q + 1)) (set_slot (slot q (tail q)) (Some x) q)) PIdle c).
    split; [|by split_and!].
    apply (steps_snoc _ [Tau; Tau; Tau; Tau] (mkConfig (set_slot (slot q (tail q)) (Some x) q) (PWritten x (tail q)) c));
      [|constructor].
    apply (steps_snoc _ [Tau; Tau; Tau] (mkConfig q (PRoom x (tail q)) c)); [|constructor].
    apply (steps_snoc _ [Tau; Tau] (mkConfig q (PTail x (tail q)) c)); [|by constructor].
    apply (steps_snoc _ [Tau] (mkConfig q (PStart x) c)); [|constructor].
    apply (steps_snoc _ [] (mkConfig q PIdle c)); constructor.
Qed.

Lemma TryPop_steps q p :
  exists ls c', steps (mkConfig q p CIdle) ls c' /\
    queue c' = fst (TryPop q) /\ prod c' = p /\ cons c' = CIdle /\
    pops ls = match snd (TryPop q) with Some x => [x] | None => [] end.
Proof.
  assert (steps (mkConfig q p CIdle) [Tau] (mkConfig q p (CHead (head q)))) as H1
    by (apply (steps_snoc _ [] (mkConfig q p CIdle)); constructor).
  unfold TryPop. destruct (Z.leb_spec (tail q) (head q)).
  { eexists ([Tau] ++ [Empty]), (mkConfig q p CIdle). split; [by eapply steps_snoc; [exact H1|constructor]|done]. }
  assert (steps (mkConfig q p CIdle) ([Tau] ++ [Tau]) (mkConfig q p (CFound (head q)))) as H2
    by (eapply steps_snoc; [exact H1|by constructor]).
  destruct (buffer q !! slot q (head q)) as [[x|]|] eqn:Hx.
  - eexists ((((([Tau] ++ [Tau]) ++ [Tau]) ++ [Tau]) ++ [Popped x])),
      (mkConfig (set_head (u64 (head q + 1)) (set_slot (slot q (head q)) None q)) p CIdle).
    split; [|by split_and!].
    eapply steps_snoc; [|apply step_store_head]. eapply steps_snoc; [|apply step_clear].
    eapply steps_snoc; [exact H2|by apply step_read].
  - eexists (([Tau] ++ [Tau]) ++ [Empty]), (mkConfig q p CIdle). split; [|done].
    eapply steps_snoc; [exact H2|]. constructor. by rewrite Hx.
  - eexists (([Tau] ++ [Tau]) ++ [Empty]), (mkConfig q p CIdle). split; [|done].
    eapply steps_snoc; [exact H2|]. constructor. by rewrite Hx.
Qed.
End spsc.

(** Extends a run by one step. *)
Ltac forward st :=
  match goal with H : steps _ _ _ |- _ =>
    eapply steps_snoc in H; [|eapply st; vm_compute; reflexivity] end.

(** A run in which the second push overlaps the pop of the first item. *)
Lemma overlapping_run :
  exists ls c, steps (@init Z 2) ls c /\ pushes ls = [7; 8] /\ pops ls = [7].
Proof.
  pose proof (steps_nil (@init Z 2)) as H.
  forward (@step_call Z 7).
  forward (@step_load_tail Z).
  forward (@step_room Z).
  forward (@step_write Z).
  forward (@step_store_tail Z).
  forward (@step_load_head Z).
  forward (@step_call Z 8).
  forward (@step_nonempty Z).
  forward (@step_load_tail Z).
  forward (@step_read Z).
  forward (@step_room Z).
  forward (@step_clear Z).
  forward (@step_write Z).
  forward (@step_store_head Z).
  forward (@step_store_tail Z).
  eexists _, _. split; [exact H|]. by split.
Qed.

Lemma spsc_refines_queue_witness :
  exists ls contents, pushes ls = [7; 8] /\
    spec_steps (Cap (@NewLockFreeQueue Z 2)) [] ls contents /\ pushes ls = pops ls ++ contents.
Proof.
  destruct overlapping_run as (ls & c & Hst & Hp & _).
  destruct (spsc_refines_queue 2 ls c Hst) as (contents & H1 & H2 & _); [by rewrite Hp|].
  exists ls, contents. split_and!; assumption.
Defined.
End Spsc.
