(* ===== verification/Lru.v ===== *)
(** * The node cache ([internal/storage/cache/lru.go]).

    The cache is a doubly linked list of entries and a map from keys to list
    elements.  An element ([*list.Element]) is a handle, unique in the list; the
    map holds handles, so that its agreement with the list is a theorem and not
    built in.  [evictFn] is the caller's persistence callback: it may fail, and it
    acts on an environment [E].  The specification is a recency list of
    identifiers; every operation refines it. *)
From S2P Require Import Prelude.

Module Lru.

Record entry := mkEntry { key : string; nodeID : string; lastTouch : time }.

Record Cache := mkCache {
  maxSize : Z;
  items : gmap string nat;
  order : list (nat * entry);     (* front first *)
  next : nat;                     (* the next fresh element *)
  hits : Z;
  misses : Z;
}.

(** ** [container/list] *)

Definition list_Remove (el : nat) (l : list (nat * entry)) : list (nat * entry) :=
  filter (fun x => x.1 <> el) l.

Definition list_find (el : nat) (l : list (nat * entry)) : option entry :=
  snd <$> List.find (fun x => Nat.eqb x.1 el) l.

(** Moves the element to the front; its value is updated by [f]. *)
Definition list_Touch (el : nat) (f : entry -> entry) (l : list (nat * entry)) : list (nat * entry) :=
  match list_find el l with
  | Some e => (el, f e) :: list_Remove el l
  | None => l
  end.

Definition touch (now : time) (e : entry) : entry := mkEntry (key e) (nodeID e) now.

(** ** The cache *)

Section cache.
Context {E : Type}.
(** The callback: the environment afterwards, and the error if it failed. *)
Context (evictFn : string -> E -> E * option string).

(** A nil callback ([has_fn = false]) is an error. *)
Definition New (max : Z) (has_fn : bool) : option Cache :=
  let max := if max <=? 0 then 4096 else max in
  if has_fn then Some (mkCache max ∅ [] 0 0 0) else None.

Definition set_order (o : list (nat * entry)) (c : Cache) : Cache :=
  mkCache (maxSize c) (items c) o (next c) (hits c) (misses c).

Definition Contains (id : string) (c : Cache) : bool := bool_decide (is_Some (items c !! id)).

Definition Get (id : string) (now : time) (c : Cache) : Cache * bool :=
  match items c !! id with
  | Some el =>
      (mkCache (maxSize c) (items c) (list_Touch el (touch now) (order c)) (next c)
               (i64 (hits c + 1)) (misses c), true)
  | None =>
      (mkCache (maxSize c) (items c) (order c) (next c) (hits c) (i64 (misses c + 1)), false)
  end.

Definition evictLocked (c : Cache) (env : E) : Cache * E * option string :=
  match last (order c) with
  | None => (c, env, None)
  | Some (el, ent) =>
      let '(env, err) := evictFn (nodeID ent) env in
      match err with
      | Some e => (c, env, Some e)
      | None =>
          (mkCache (maxSize c) (delete (key ent) (items c)) (list_Remove el (order c)) (next c)
                   (hits c) (misses c), env, None)
      end
  end.

(** [for c.order.Len() >= c.maxSize]; the fuel is the length of the list plus
    one, and [None] is fuel exhaustion. *)
Fixpoint evict_loop (fuel : nat) (c : Cache) (env : E) : option (Cache * E * option string) :=
  if Z.of_nat (length (order c)) <? maxSize c then Some (c, env, None)
  else match fuel with
       | O => None
       | S fuel =>
           let '(c, env, err) := evictLocked c env in
           match err with
           | Some e => Some (c, env, Some ("cache evict: " +:+ e))
           | None => evict_loop fuel c env
           end
       end.

Definition Add (id : string) (now : time) (c : Cache) (env : E) : option (Cache * E * option string) :=
  match items c !! id with
  | Some el => Some (set_order (list_Touch el (touch now) (order c)) c, env, None)
  | None =>
      '(c, env, err) ← evict_loop (S (length (order c))) c env;
      match err with
      | Some e => Some (c, env, Some e)
      | None =>
          Some (mkCache (maxSize c) (<[id := next c]> (items c))
                  ((next c, mkEntry id id now) :: order c) (S (next c)) (hits c) (misses c),
                env, None)
      end
  end.

Definition Remove (id : string) (c : Cache) : Cache :=
  match items c !! id with
  | Some el => mkCache (maxSize c) (delete id (items c)) (list_Remove el (order c)) (next c)
                       (hits c) (misses c)
  | None => c
  end.

(** [for i := 0; i < count && c.order.Len() > 0; i++]. *)
Fixpoint EvictColdSync_loop (count : nat) (evicted : Z) (c : Cache) (env : E)
  : Cache * E * Z * option string :=
  match count with
  | O => (c, env, evicted, None)
  | S count =>
      if bool_decide (order c = []) then (c, env, evicted, None)
      else
        let '(c, env, err) := evictLocked c env in
        match err with
        | Some e => (c, env, evicted, Some e)
        | None => EvictColdSync_loop count (i64 (evicted + 1)) c env
        end
  end.

Definition EvictColdSync (count : Z) (c : Cache) (env : E) : Cache * E * Z * option string :=
  EvictColdSync_loop (Z.to_nat count) 0 c env.

Definition Len (c : Cache) : nat := length (order c).

(** ** Specification: a recency list *)

Definition spec_touch (id : string) (l : list string) : list string :=
  id :: filter (fun x => x <> id) l.

Definition spec_evict (l : list string) (env : E) : list string * E * option string :=
  match last l with
  | None => (l, env, None)
  | Some v =>
      let '(env, err) := evictFn v env in
      match err with Some e => (l, env, Some e) | None => (removelast l, env, None) end
  end.

Definition spec_add (max : Z) (id : string) (l : list string) (env : E)
  : list string * E * option string :=
  if decide (id ∈ l) then (spec_touch id l, env, None)
  else if Z.of_nat (length l) <? max then (id :: l, env, None)
  else
    let '(l, env, err) := spec_evict l env in
    match err with
    | Some e => (l, env, Some ("cache evict: " +:+ e))
    | None => (id :: l, env, None)
    end.

Fixpoint spec_cold (count : nat) (l : list string) (env : E) : list string * E * Z * option string :=
  match count with
  | O => (l, env, 0, None)
  | S count =>
      if decide (l = []) then (l, env, 0, None)
      else
        let '(l, env, err) := spec_evict l env in
        match err with
        | Some e => (l, env, 0, Some e)
        | None => let '(l, env, n, err) := spec_cold count l env in (l, env, n + 1, err)
        end
  end.

(** ** The invariant *)

Definition keys (c : Cache) : list string := (fun x => key x.2) <$> order c.

Record inv (c : Cache) : Prop := {
  i_max : 1 <= maxSize c;
  i_len : Z.of_nat (length (order c)) <= maxSize c;
  i_els : NoDup (order c).*1;
  i_fresh : forall el, el ∈ (order c).*1 -> (el < next c)%nat;
  i_node : forall x, x ∈ order c -> nodeID x.2 = key x.2;
  i_items : forall k el, items c !! k = Some el <-> exists e, (el, e) ∈ order c /\ key e = k;
}.

(** The cache represents the recency list [l]. *)
Definition represents (c : Cache) (l : list string) : Prop := inv c /\ keys c = l.

(** ** Lemmas on the list *)

Lemma same_element (l : list (nat * entry)) el e e' :
  NoDup l.*1 -> (el, e) ∈ l -> (el, e') ∈ l -> e = e'.
Proof.
  induction l as [|[el0 e0] l IH]; intros Hnd H1 H2; [set_solver|]. simpl in Hnd.
  apply NoDup_cons in Hnd as [Hn Hnd].
  rewrite !elem_of_cons in H1, H2. destruct H1 as [H1|H1], H2 as [H2|H2]; simplify_eq; try done.
  - destruct Hn. by apply (list_elem_of_fmap_2 fst l (el0, e')).
  - destruct Hn. by apply (list_elem_of_fmap_2 fst l (el0, e)).
  - auto.
Qed.

Lemma list_find_elem l el e : NoDup l.*1 -> (el, e) ∈ l -> list_find el l = Some e.
Proof.
  intros Hnd Hin. unfold list_find.
  destruct (List.find (fun x => Nat.eqb x.1 el) l) as [[el' e']|] eqn:Hf; simpl.
  - apply List.find_some in Hf as [Hin'%list_elem_of_In Heq%Nat.eqb_eq]. simpl in Heq. subst.
    f_equal. by eapply same_element.
  - apply list_elem_of_In in Hin. apply (List.find_none _ _ Hf) in Hin. simpl in Hin.
    by rewrite Nat.eqb_refl in Hin.
Qed.

Section with_inv.
Context (c : Cache) (Hc : inv c).

Lemma lookup_keys id : items c !! id = None <-> id ∉ keys c.
Proof using Hc.
  rewrite eq_None_not_Some. split; intros H; contradict H.
  - unfold keys in H. apply list_elem_of_fmap in H as ([el e] & -> & Hin).
    exists el. apply (i_items c Hc). by exists e.
  - destruct H as [el H]. apply (i_items c Hc) in H as (e & Hin & <-).
    unfold keys. by apply (list_elem_of_fmap_2 (fun x => key x.2) _ (el, e)).
Qed.

Lemma same_key x y : x ∈ order c -> y ∈ order c -> key x.2 = key y.2 -> x = y.
Proof using Hc.
  destruct x as [el e], y as [el' e']. simpl. intros Hx Hy Hk.
  assert (items c !! key e = Some el) as H1 by (apply (i_items c Hc); by exists e).
  assert (items c !! key e = Some el') as H2 by (apply (i_items c Hc); by exists e').
  rewrite H1 in H2. simplify_eq. f_equal. by eapply same_element; [apply (i_els c Hc)|..].
Qed.

Lemma keys_Remove el e :
  (el, e) ∈ order c ->
  (fun x => key x.2) <$> list_Remove el (order c) = filter (fun x => x <> key e) (keys c).
Proof using Hc.
  intros Hin. unfold list_Remove, keys. apply filter_fmap_iff. intros x Hx. split; intros H; contradict H.
  - by rewrite (same_key x (el, e)).
  - destruct x as [el' e']. simpl in *. subst. by rewrite (same_element _ _ _ _ (i_els c Hc) Hx Hin).
Qed.

Lemma elem_of_Remove el x : x ∈ list_Remove el (order c) <-> x.1 <> el /\ x ∈ order c.
Proof. unfold list_Remove. by rewrite list_elem_of_filter. Qed.

Lemma Remove_length el : (length (list_Remove el (order c)) <= length (order c))%nat.
Proof. apply length_filter. Qed.

Lemma Remove_els el : NoDup ((list_Remove el (order c)).*1) /\
  ~ (el ∈ (list_Remove el (order c)).*1) /\
  forall x, x ∈ ((list_Remove el (order c)).*1) -> x ∈ ((order c).*1).
Proof using Hc.
  pose proof (i_els c Hc) as Hnd.
  assert (((list_Remove el (order c)).*1) = filter (fun x => x <> el) ((order c).*1)) as ->
    by (unfold list_Remove; by apply filter_fmap_iff).
  split_and!; [by apply NoDup_filter|intros H; by apply list_elem_of_filter in H as [? _]|].
  intros x Hx. by apply list_elem_of_filter in Hx as [_ ?].
Qed.

(** Deleting an element from both the map and the list. *)
Lemma inv_delete el e :
  (el, e) ∈ order c ->
  let c' := mkCache (maxSize c) (delete (key e) (items c)) (list_Remove el (order c)) (next c)
              (hits c) (misses c) in
  represents c' (filter (fun x => x <> key e) (keys c)).
Proof using Hc.
  intros Hin c'. split; [|by apply keys_Remove]. destruct (Remove_els el) as (H1 & H2 & H3).
  pose proof (Remove_length el). split; simpl; try (apply Hc; done).
  - pose proof (i_len c Hc). lia.
  - done.
  - intros x Hx. by apply (i_fresh c Hc), H3.
  - intros x [_ Hx]%elem_of_Remove. by apply (i_node c Hc).
  - intros k el'. rewrite lookup_delete_Some, (i_items c Hc). setoid_rewrite elem_of_Remove. simpl.
    split.
    + intros (Hk & e' & Hin' & <-). exists e'. split_and!; [|done|done]. intros ->.
      by rewrite (same_element _ _ _ _ (i_els c Hc) Hin Hin') in Hk.
    + intros (e' & (Hel & Hin') & <-). split; [|by exists e'].
      intros Hk. apply Hel. by injection (same_key (el, e) (el', e') Hin Hin' Hk).
Qed.

(** Moving an element to the front. *)
Lemma inv_touch el e now h m :
  (el, e) ∈ order c ->
  let c' := mkCache (maxSize c) (items c) (list_Touch el (touch now) (order c)) (next c) h m in
  represents c' (spec_touch (key e) (keys c)).
Proof using Hc.
  intros Hin c'. subst c'. unfold list_Touch.
  rewrite (list_find_elem _ _ e (i_els c Hc) Hin).
  destruct (Remove_els el) as (H1 & H2 & H3). split;
    [|unfold spec_touch, keys at 1; simpl; f_equal; by apply keys_Remove].
  assert (length (list_Remove el (order c)) < length (order c))%nat as Hl.
  { unfold list_Remove. apply length_filter_lt with (el, e); [done|]. tauto. }
  split; simpl; try (apply Hc; done).
  - pose proof (i_len c Hc). lia.
  - by constructor.
  - intros x [->|Hx]%elem_of_cons; apply (i_fresh c Hc); [|by apply H3].
    by apply (list_elem_of_fmap_2 fst _ (el, e)).
  - intros x [->|[_ Hx]%elem_of_Remove]%elem_of_cons; [simpl|]; by apply (i_node c Hc (el, e)) || by apply (i_node c Hc).
  - intros k el'. rewrite (i_items c Hc). setoid_rewrite elem_of_cons. setoid_rewrite elem_of_Remove. simpl.
    split.
    + intros (e' & Hin' & <-). destruct (decide (el' = el)) as [->|].
      * exists (touch now e). rewrite (same_element _ _ _ _ (i_els c Hc) Hin Hin'). auto.
      * exists e'. auto.
    + intros (e' & [[= -> ->]|[_ Hin']] & <-); [by exists e|by exists e'].
Qed.
End with_inv.

(** ** The operations refine the specification *)

Lemma keys_NoDup c : inv c -> NoDup (keys c).
Proof.
  intros Hc. unfold keys. apply NoDup_fmap_2_strong.
  - intros x y Hx Hy Hk. by apply (same_key c Hc).
  - eapply NoDup_fmap_1, (i_els c Hc).
Qed.

Lemma filter_last (l : list string) x : NoDup (l ++ [x]) -> filter (fun y => y <> x) (l ++ [x]) = l.
Proof.
  intros (_ & Hn & _)%NoDup_app. rewrite filter_app, filter_cons_False by tauto.
  rewrite filter_nil, app_nil_r. apply filter_all, Forall_forall. set_solver.
Qed.

Lemma evictLocked_refines c l env :
  represents c l ->
  let '(c', env', err) := evictLocked c env in
  let '(l', env'', err') := spec_evict l env in
  represents c' l' /\ env' = env'' /\ err = err' /\ maxSize c' = maxSize c.
Proof.
  intros [Hc <-]. pose proof (keys_NoDup c Hc) as Hnd. unfold evictLocked, spec_evict, keys in *.
  destruct (last (order c)) as [[el e]|] eqn:Hl; rewrite fmap_last, Hl; simpl; [|done].
  apply last_Some in Hl as [l Hl]. assert ((el, e) ∈ order c) as Hin by (rewrite Hl; set_solver).
  pose proof (i_node c Hc (el, e) Hin) as Hn. simpl in Hn. rewrite Hn. destruct (evictFn (key e) env) as [env' [err|]]; [done|].
  split_and!; [|done..]. destruct (inv_delete c Hc el e Hin) as [H1 H2]. split; [done|].
  rewrite H2. unfold keys. rewrite Hl, fmap_app in *. simpl in *.
  by rewrite removelast_last, filter_last.
Qed.

Lemma present c id : inv c -> id ∈ keys c -> exists el e, items c !! id = Some el /\ (el, e) ∈ order c /\ key e = id.
Proof.
  intros Hc Hin. destruct (items c !! id) as [el|] eqn:Hi.
  - apply (i_items c Hc) in Hi as (e & ? & ?). by eauto.
  - by apply (lookup_keys c Hc) in Hi.
Qed.

Lemma length_keys c : length (keys c) = length (order c).
Proof. unfold keys. apply length_fmap. Qed.

(** With the invariant, a full cache needs exactly one eviction. *)
Lemma evict_loop_refines c l env :
  represents c l ->
  exists c' env' err, evict_loop (S (length (order c))) c env = Some (c', env', err) /\
    (if Z.of_nat (length l) <? maxSize c then c' = c /\ env' = env /\ err = None
     else let '(l', env'', err') := spec_evict l env in
          represents c' l' /\ env' = env'' /\ err = (fun e => "cache evict: " +:+ e) <$> err' /\
          maxSize c' = maxSize c /\ (err = None -> Z.of_nat (length (order c')) < maxSize c')).
Proof.
  intros Hr. pose proof (evictLocked_refines c l env Hr) as He. destruct Hr as [Hc <-].
  cbn [evict_loop]. rewrite length_keys.
  destruct (Z.ltb_spec (Z.of_nat (length (order c))) (maxSize c)) as [Hlt|Hge]; [by eauto 10|].
  destruct (evictLocked c env) as [[c' env'] err] eqn:Hev.
  destruct (spec_evict (keys c) env) as [[l' env''] err'] eqn:Hsp.
  destruct He as ([Hc' <-] & <- & <- & Hm). destruct err as [e|].
  { do 3 eexists. split; [done|]. by split_and!. }
  assert (Z.of_nat (length (order c')) < maxSize c') as Hlt.
  { rewrite <-length_keys. unfold spec_evict in Hsp. pose proof (i_len c Hc). pose proof (i_max c Hc).
    destruct (last (keys c)) as [v|] eqn:Hl.
    - destruct (evictFn v env) as [? [|]]; [done|]. injection Hsp as Hk' _. rewrite <-Hk'.
      apply last_Some in Hl as [l0 Hl]. pose proof (length_keys c) as Hk.
      rewrite Hl, removelast_last. rewrite Hl, length_app in Hk. simpl in Hk. lia.
    - apply last_None in Hl. pose proof (length_keys c) as Hk. rewrite Hl in Hk. simpl in Hk. lia. }
  destruct (length (order c)); simpl.
  - rewrite (proj2 (Z.ltb_lt _ _) Hlt). do 3 eexists. split; [done|]. by split_and!.
  - rewrite (proj2 (Z.ltb_lt _ _) Hlt). do 3 eexists. split; [done|]. by split_and!.
Qed.

Lemma inv_push c id now :
  inv c -> Z.of_nat (length (order c)) < maxSize c -> id ∉ keys c ->
  represents (mkCache (maxSize c) (<[id := next c]> (items c)) ((next c, mkEntry id id now) :: order c)
                (S (next c)) (hits c) (misses c)) (id :: keys c).
Proof.
  intros Hc Hlt Hid. assert (next c ∉ (order c).*1) as Hf
    by (intros Hin%(i_fresh c Hc); lia).
  split; [|done]. split; simpl; try (apply Hc; done).
  - lia.
  - constructor; [done|apply Hc].
  - intros el [->|Hin%(i_fresh c Hc)]%elem_of_cons; lia.
  - intros x [->|Hx]%elem_of_cons; [done|by apply (i_node c Hc)].
  - intros k el. rewrite lookup_insert. setoid_rewrite elem_of_cons. case_decide as Hk; [subst|].
    + split.
      * intros [= <-]. eexists. split; [by left|done].
      * intros (e & [Heq|Hin] & Hk); [by simplify_eq|]. destruct Hid. rewrite <-Hk.
        unfold keys. by apply (list_elem_of_fmap_2 (fun x => key x.2) _ (el, e)).
    + rewrite (i_items c Hc). split; [naive_solver|].
      intros (e & [Heq|Hin] & He); [by simplify_eq|by eauto].
Qed.

Lemma Add_refines id now c l env :
  represents c l ->
  exists c', Add id now c env =
    (let '(l', env', err) := spec_add (maxSize c) id l env in Some (c', env', err)) /\
    represents c' (fst (fst (spec_add (maxSize c) id l env))) /\ maxSize c' = maxSize c.
Proof.
  intros Hr. destruct Hr as [Hc <-]. unfold Add, spec_add. case_decide as Hin.
  - destruct (present c id Hc Hin) as (el & e & -> & He & <-). eexists. split; [done|].
    split; [by apply inv_touch|done].
  - rewrite (proj2 (lookup_keys c Hc id) Hin).
    destruct (evict_loop_refines c (keys c) env) as (c1 & env1 & err1 & Hloop & Hspec); [done|].
    rewrite Hloop. simpl. destruct (Z.ltb_spec (Z.of_nat (length (keys c))) (maxSize c)) as [Hlt|Hge].
    + destruct Hspec as (-> & -> & ->). eexists. split; [done|]. rewrite length_keys in Hlt.
      split; [by apply inv_push|done].
    + destruct (spec_evict (keys c) env) as [[l' env'] err'] eqn:Hsp.
      destruct Hspec as ([Hc1 <-] & -> & -> & Hm & Hlen). destruct err' as [e|]; simpl.
      * eexists. split; [done|]. by split.
      * eexists. split; [done|]. split; [|done]. simpl. apply inv_push; [done|by apply Hlen|].
        unfold spec_evict in Hsp. destruct (last (keys c)) as [v|] eqn:Hl;
          [|injection Hsp as Hk' _; by rewrite <-Hk'].
        destruct (evictFn v env) as [? [|]]; [done|]. injection Hsp as Hk' _. rewrite <-Hk'.
        apply last_Some in Hl as [l0 Hl]. rewrite Hl in Hin |- *. rewrite removelast_last. set_solver.
Qed.

Lemma Get_refines id now c l :
  represents c l ->
  let '(c', found) := Get id now c in
  represents c' (if found then spec_touch id l else l) /\ found = bool_decide (id ∈ l) /\
  maxSize c' = maxSize c.
Proof.
  intros [Hc <-]. unfold Get. destruct (decide (id ∈ keys c)) as [Hin|Hin].
  - destruct (present c id Hc Hin) as (el & e & -> & He & <-).
    split_and!; [by apply inv_touch|by rewrite bool_decide_eq_true_2|done].
  - rewrite (proj2 (lookup_keys c Hc id) Hin).
    split_and!; [|by rewrite bool_decide_eq_false_2|done]. split; [|done]. destruct Hc; by split.
Qed.

Lemma Remove_refines id c l :
  represents c l -> represents (Remove id c) (filter (fun x => x <> id) l) /\
  maxSize (Remove id c) = maxSize c.
Proof.
  intros [Hc <-]. unfold Remove. destruct (decide (id ∈ keys c)) as [Hin|Hin].
  - destruct (present c id Hc Hin) as (el & e & -> & He & <-). split; [by apply inv_delete|done].
  - rewrite (proj2 (lookup_keys c Hc id) Hin). split; [|done]. split; [done|].
    symmetry. apply filter_all, Forall_forall. set_solver.
Qed.

Lemma cold_refines count n c l env :
  represents c l -> 0 <= n -> n + Z.of_nat count <= MaxInt64 ->
  exists c', (let '(l', env', k, err) := spec_cold count l env in
    EvictColdSync_loop count n c env = (c', env', n + k, err) /\ represents c' l' /\
    maxSize c' = maxSize c /\ 0 <= k <= Z.of_nat count).
Proof.
  revert n c l env. induction count as [|count IH]; intros n c l env Hr Hn Hm; simpl.
  { exists c. rewrite Z.add_0_r. by split_and!. }
  pose proof Hr as [Hc <-].
  assert (order c = [] <-> keys c = []) as Hnil.
  { rewrite <-!length_zero_iff_nil, length_keys. done. }
  destruct (decide (keys c = [])) as [Hk|Hk].
  { rewrite bool_decide_eq_true_2 by tauto. exists c. rewrite Z.add_0_r. by split_and!; [..|lia]. }
  rewrite bool_decide_eq_false_2 by tauto.
  pose proof (evictLocked_refines c (keys c) env Hr) as He.
  destruct (evictLocked c env) as [[c1 env1] err1], (spec_evict (keys c) env) as [[l1 env1'] err1'].
  destruct He as (Hr1 & <- & <- & Hm1). destruct err1 as [e|].
  { exists c1. rewrite Z.add_0_r. by split_and!; [..|lia]. }
  rewrite i64_small by (unfold MinInt64; lia).
  destruct (IH (n + 1) c1 l1 env1 Hr1) as [c2 H2]; [lia|lia|].
  destruct (spec_cold count l1 env1) as [[[l2 env2] k] err2]. destruct H2 as (-> & Hr2 & Hm2 & Hk2).
  exists c2. split; [do 2 f_equal; lia|]. split; [done|]. split; [by rewrite Hm2|lia].
Qed.

(** ** Sequences of operations *)

Inductive op := OAdd (id : string) (now : time) | OGet (id : string) (now : time) | ORemove (id : string)
  | OCold (count : Z).
Inductive result := RAdd (err : option string) | RGet (found : bool) | RRemove
  | RCold (evicted : Z) (err : option string).

Definition exec (o : op) (c : Cache) (env : E) : option (Cache * E * result) :=
  match o with
  | OAdd id now => '(c, env, err) ← Add id now c env; Some (c, env, RAdd err)
  | OGet id now => let '(c, b) := Get id now c in Some (c, env, RGet b)
  | ORemove id => Some (Remove id c, env, RRemove)
  | OCold n => let '(c, env, k, err) := EvictColdSync n c env in Some (c, env, RCold k err)
  end.

Definition spec_exec (max : Z) (o : op) (l : list string) (env : E) : list string * E * result :=
  match o with
  | OAdd id _ => let '(l, env, err) := spec_add max id l env in (l, env, RAdd err)
  | OGet id _ => (if decide (id ∈ l) then spec_touch id l else l, env, RGet (bool_decide (id ∈ l)))
  | ORemove id => (filter (fun x => x <> id) l, env, RRemove)
  | OCold n => let '(l, env, k, err) := spec_cold (Z.to_nat n) l env in (l, env, RCold k err)
  end.

Fixpoint exec_all (ops : list op) (c : Cache) (env : E) : option (Cache * E * list result) :=
  match ops with
  | [] => Some (c, env, [])
  | o :: ops => '(c, env, r) ← exec o c env; '(c, env, rs) ← exec_all ops c env; Some (c, env, r :: rs)
  end.

Fixpoint spec_all (max : Z) (ops : list op) (l : list string) (env : E) : list string * E * list result :=
  match ops with
  | [] => (l, env, [])
  | o :: ops =>
      let '(l, env, r) := spec_exec max o l env in
      let '(l, env, rs) := spec_all max ops l env in (l, env, r :: rs)
  end.

Definition op_ok (o : op) : Prop := match o with OCold n => n <= MaxInt64 | _ => True end.

Lemma exec_refines o c l env :
  represents c l -> op_ok o ->
  exists c', (let '(l', env', r) := spec_exec (maxSize c) o l env in
    exec o c env = Some (c', env', r) /\ represents c' l' /\ maxSize c' = maxSize c).
Proof.
  intros Hr Ho. destruct o as [id now|id now|id|n]; simpl.
  - destruct (Add_refines id now c l env Hr) as (c' & -> & Hr' & Hm). exists c'.
    destruct (spec_add (maxSize c) id l env) as [[l' env'] err]. simpl in *. by split_and!.
  - pose proof (Get_refines id now c l Hr) as Hg. destruct (Get id now c) as [c' found]. exists c'.
    destruct Hg as (Hr' & -> & Hm). split; [done|]. split; [|done]. by repeat case_decide; case_bool_decide.
  - destruct (Remove_refines id c l Hr). by exists (Remove id c).
  - destruct (cold_refines (Z.to_nat n) 0 c l env Hr) as [c' Hc]; [done|simpl in Ho; unfold MaxInt64 in *; lia|]. exists c'.
    unfold EvictColdSync. destruct (spec_cold (Z.to_nat n) l env) as [[[l' env'] k] err].
    destruct Hc as (-> & Hr' & Hm & _). by split_and!.
Qed.

Lemma all_refines ops c l env :
  represents c l -> Forall op_ok ops ->
  exists c', (let '(l', env', rs) := spec_all (maxSize c) ops l env in
    exec_all ops c env = Some (c', env', rs) /\ represents c' l' /\ maxSize c' = maxSize c).
Proof.
  intros Hr Hops. revert c l env Hr. induction Hops as [|o ops Ho _ IH]; intros c l env Hr; simpl.
  { by exists c. }
  destruct (exec_refines o c l env Hr Ho) as [c1 H1].
  destruct (spec_exec (maxSize c) o l env) as [[l1 env1] r1]. destruct H1 as (-> & Hr1 & Hm1). simpl.
  destruct (IH c1 l1 env1 Hr1) as [c2 H2]. rewrite Hm1 in H2.
  destruct (spec_all (maxSize c) ops l1 env1) as [[l2 env2] rs]. destruct H2 as (-> & Hr2 & Hm2).
  exists c2. simpl. split; [done|]. split; [done|]. by rewrite Hm2.
Qed.

Definition new_max (max : Z) : Z := if max <=? 0 then 4096 else max.

(** [C7] The LRU cache refines its specification.  For every sequence of Add, Get,
    Remove and EvictColdSync calls and every (possibly failing) persistence
    callback, the linked list and the index behave exactly as a recency list of
    distinct identifiers: same results, same callback calls in the same order,
    hits exactly for the identifiers in the list, eviction of the least recently
    used one, nothing lost when the callback fails; the eviction loop of Add
    terminates, and the cache never holds more than its maximum. *)
Theorem lru_refines (max : Z) (ops : list op) (env : E) (c : Cache) :
  New max true = Some c -> Forall op_ok ops ->
  let '(l, env', rs) := spec_all (new_max max) ops [] env in
  exists c', exec_all ops c env = Some (c', env', rs) /\ keys c' = l /\ NoDup l /\
    (forall id, Contains id c' = bool_decide (id ∈ l)) /\ Z.of_nat (Len c') <= new_max max.
Proof.
  unfold New. fold (new_max max). intros [= <-] Hops.
  assert (1 <= new_max max) as H1 by (unfold new_max; case_match eqn:H; [done|apply Z.leb_gt in H; lia]).
  assert (represents (mkCache (new_max max) ∅ [] 0 0 0) []) as Hr.
  { split; [|done]. split; simpl; try done; [lia|constructor|set_solver|set_solver|].
    intros k el. rewrite lookup_empty. split; [done|]. intros (e & H & _). set_solver. }
  destruct (all_refines ops _ [] env Hr Hops) as [c' H]. simpl in H.
  destruct (spec_all (new_max max) ops [] env) as [[l env'] rs]. destruct H as (He & [Hc <-] & Hm).
  exists c'. split_and!; [done|done|by apply keys_NoDup| |].
  - intros id. unfold Contains. apply bool_decide_ext. pose proof (lookup_keys c' Hc id) as Hk.
    rewrite <-not_eq_None_Some, Hk. split; [apply dec_stable|tauto].
  - pose proof (i_len c' Hc) as Hl. unfold Len. by rewrite Hm in Hl.
Qed.
End cache.

(** A store that records what is persisted and refuses ["locked"]. *)
Definition log_store (id : string) (log : list string) : list string * option string :=
  if decide (id = "locked") then (log, Some "busy") else (log ++ [id], None).

Lemma lru_refines_witness :
  exists c', exec_all log_store
      [OAdd "a" 1; OAdd "locked" 2; OGet "a" 3; OAdd "b" 4; ORemove "locked"; OAdd "b" 5; OAdd "c" 6]
      (mkCache 2 ∅ [] 0 0 0) [] =
    Some (c', ["a"], [RAdd None; RAdd None; RGet true; RAdd (Some "cache evict: busy"); RRemove;
                      RAdd None; RAdd None]) /\ keys c' = ["c"; "b"].
Proof.
  destruct (lru_refines log_store 2
    [OAdd "a" 1; OAdd "locked" 2; OGet "a" 3; OAdd "b" 4; ORemove "locked"; OAdd "b" 5; OAdd "c" 6]
    [] (mkCache 2 ∅ [] 0 0 0) eq_refl ltac:(repeat constructor)) as (c' & H1 & H2 & _).
  exists c'. split; assumption.
Defined.
End Lru.
