(* ===== verification/RateLimit.v ===== *)
(** * The adaptive rate limiter ([internal/engine/ratelimit/ratelimit.go]).

    [evaluate] compares IEEE 754 binary64 ratios; they are computed with the
    Standard Library's [SpecFloat] at precision 53 and maximal exponent 1024.  The
    kernel signal only logs, so the level is its whole effect. *)
From S2P Require Import Prelude GoStrings.
From Stdlib Require Import SpecFloat.

Module RateLimit.

Definition PriorityCritical : Z := 0.
Definition PriorityHigh : Z := 1.
Definition PriorityNormal : Z := 2.
Definition PriorityLow : Z := 3.

Definition eventPriority : gmap Z Z := list_to_map
  [(2, PriorityCritical); (20, PriorityCritical); (21, PriorityCritical); (50, PriorityCritical);
   (51, PriorityCritical); (1, PriorityHigh); (11, PriorityHigh); (12, PriorityHigh);
   (13, PriorityHigh); (10, PriorityNormal); (52, PriorityNormal); (53, PriorityNormal)].

Definition lowRiskPaths : list string := ["/usr/lib/"; "/usr/share/"; "/var/cache/"; "/var/log/"].

(** ** binary64 *)

Definition float := spec_float.
Definition float_of_int (n : Z) : float := binary_normalize 53 1024 n 0 false.
Definition float_div (x y : float) : float := SFdiv 53 1024 x y.

(** [x >= y] and [x <= y]; both are false when an operand is NaN. *)
Definition float_ge (x y : float) : bool :=
  match SFcompare x y with Some Gt | Some Eq => true | _ => false end.
Definition float_le (x y : float) : bool :=
  match SFcompare x y with Some Lt | Some Eq => true | _ => false end.

(** [math.Min] and [math.Max]; the arguments are never zeros of opposite sign
    that the result would distinguish. *)
Definition math_Max (x y : float) : float :=
  match SFcompare x y with None => S754_nan | Some Lt => y | Some _ => x end.
Definition math_Min (x y : float) : float :=
  match SFcompare x y with None => S754_nan | Some Gt => y | Some _ => x end.

Definition float_zero : float := S754_zero false.
Definition float_one : float := float_of_int 1.
Definition float_0_8 : float := S754_finite false 7205759403792794 (-53).
Definition float_0_5 : float := S754_finite false 4503599627370496 (-53).

(** ** Data *)

Record Config := mkConfig {
  QueueHighWaterMark : float; QueueLowWaterMark : float; MaxQueueSize : Z;
  EnableKernelBackpressure : bool;
}.

Definition DefaultConfig : Config := mkConfig float_0_8 float_0_5 10000 true.

Record DropStats := mkStats {
  byPriority : gmap Z Z; byEventType : gmap Z Z; totalDropped : Z;
}.

Record RateLimiter := mkLimiter {
  cfg : Config; queueDepth : Z; throttling : bool; throttleLevel : Z; drops : DropStats;
  lowRiskSet : list string;
}.

Definition New (c : option Config) : RateLimiter :=
  mkLimiter (default DefaultConfig c) 0 false 0 (mkStats ∅ ∅ 0) lowRiskPaths.

(** ** Operations *)

Definition SetQueueDepth (depth : Z) (rl : RateLimiter) : RateLimiter :=
  mkLimiter (cfg rl) depth (throttling rl) (throttleLevel rl) (drops rl) (lowRiskSet rl).

Definition QueueDepth (rl : RateLimiter) : Z := queueDepth rl.

Definition newLevel (c : Config) (depth oldLevel : Z) : Z :=
  let fillRatio := float_div (float_of_int depth) (float_of_int (MaxQueueSize c)) in
  let fillRatio := math_Min float_one (math_Max float_zero fillRatio) in
  if float_ge fillRatio (QueueHighWaterMark c) then
    if MaxQueueSize c <? depth then 2 else 1
  else if float_le fillRatio (QueueLowWaterMark c) then 0
  else oldLevel.

Definition evaluate (rl : RateLimiter) : RateLimiter :=
  let l := newLevel (cfg rl) (QueueDepth rl) (throttleLevel rl) in
  mkLimiter (cfg rl) (queueDepth rl) (0 <? l) l (drops rl) (lowRiskSet rl).

(** [true] when the path is not low-risk. *)
Definition isSensitivePath (rl : RateLimiter) (path : string) : bool :=
  negb (existsb (fun low => HasPrefix path low) (lowRiskSet rl)).

Definition incr (k : Z) (m : gmap Z Z) : gmap Z Z := <[k := i64 (default 0 (m !! k) + 1)]> m.

Definition recordDrop (eventType priority : Z) (rl : RateLimiter) : RateLimiter :=
  mkLimiter (cfg rl) (queueDepth rl) (throttling rl) (throttleLevel rl)
    (mkStats (incr priority (byPriority (drops rl))) (incr eventType (byEventType (drops rl)))
             (i64 (totalDropped (drops rl) + 1)))
    (lowRiskSet rl).

Definition priority_of (eventType : Z) : Z := default PriorityNormal (eventPriority !! eventType).

Definition ShouldDrop (eventType : Z) (pathname : string) (rl : RateLimiter) : RateLimiter * bool :=
  let level := throttleLevel rl in
  if level =? 0 then (rl, false)
  else
    let priority := priority_of eventType in
    let shouldDrop := if level =? 1 then priority <=? PriorityLow
                      else if level =? 2 then priority <=? PriorityNormal
                      else false in
    let shouldDrop := if shouldDrop && isSensitivePath rl pathname then false else shouldDrop in
    (if shouldDrop then recordDrop eventType priority rl else rl, shouldDrop).

(** ** Theorems *)

Inductive op := SetDepth (depth : Z) | Evaluate | Drop (eventType : Z) (pathname : string).

Definition apply_op (rl : RateLimiter) (o : op) : RateLimiter :=
  match o with
  | SetDepth d => SetQueueDepth d rl
  | Evaluate => evaluate rl
  | Drop et p => fst (ShouldDrop et p rl)
  end.

Definition run (c : option Config) (ops : list op) : RateLimiter := foldl apply_op (New c) ops.

(** The counters are sums over the two tables. *)
Definition table_sum (m : gmap Z Z) : Z := map_fold (fun _ v acc => v + acc) 0 m.

Record inv (n : Z) (rl : RateLimiter) : Prop := {
  i_level : throttleLevel rl = 0 \/ throttleLevel rl = 1 \/ throttleLevel rl = 2;
  i_flag : throttling rl = (0 <? throttleLevel rl);
  i_low : lowRiskSet rl = lowRiskPaths;
  i_total : 0 <= totalDropped (drops rl) <= n;
  i_prio : table_sum (byPriority (drops rl)) = totalDropped (drops rl);
  i_type : table_sum (byEventType (drops rl)) = totalDropped (drops rl);
  i_prio_pos : map_Forall (fun _ v => 0 <= v <= n) (byPriority (drops rl));
  i_type_pos : map_Forall (fun _ v => 0 <= v <= n) (byEventType (drops rl));
}.

Lemma table_sum_insert m k v :
  table_sum (<[k := v]> m) = table_sum m - default 0 (m !! k) + v.
Proof.
  unfold table_sum. destruct (m !! k) as [w|] eqn:Hk; simpl.
  - rewrite <-(insert_delete_id m k w) at 2 by done. rewrite <-insert_delete_eq.
    rewrite !(map_fold_insert_L (fun _ v acc => v + acc)); [lia|intros; lia|by rewrite lookup_delete_eq|intros; lia|by rewrite lookup_delete_eq].
  - rewrite (map_fold_insert_L (fun _ v acc => v + acc)); [lia|intros; lia|done].
Qed.

Lemma priority_bound et : 0 <= priority_of et <= PriorityNormal.
Proof.
  unfold priority_of. destruct (eventPriority !! et) as [p|] eqn:E; simpl; [|done].
  apply (elem_of_list_to_map_2 (M := gmap Z)) in E. rewrite !elem_of_cons, elem_of_nil in E.
  destruct_or! E; simplify_eq; done.
Qed.

Lemma newLevel_range c d l : l = 0 \/ l = 1 \/ l = 2 -> newLevel c d l = 0 \/ newLevel c d l = 1 \/ newLevel c d l = 2.
Proof. unfold newLevel. repeat case_match; auto. Qed.

Lemma incr_ok n k m :
  0 <= n -> n + 1 <= MaxInt64 -> map_Forall (fun _ v => 0 <= v <= n) m ->
  table_sum (incr k m) = table_sum m + 1 /\ map_Forall (fun _ v => 0 <= v <= n + 1) (incr k m).
Proof.
  intros Hn Hb Hm. unfold incr.
  assert (0 <= default 0 (m !! k) <= n) as Hd.
  { destruct (m !! k) as [v|] eqn:E; simpl; [by apply (Hm k)|lia]. }
  rewrite i64_small by (unfold MinInt64; lia). split; [rewrite table_sum_insert; lia|].
  apply map_Forall_insert_2; [lia|]. intros k' v Hv. apply Hm in Hv. lia.
Qed.

Lemma map_le_mono n (m : gmap Z Z) :
  map_Forall (fun _ v => 0 <= v <= n) m -> map_Forall (fun _ v => 0 <= v <= n + 1) m.
Proof. intros H k v Hv. apply H in Hv. lia. Qed.

Lemma inv_mono n rl : inv n rl -> inv (n + 1) rl.
Proof. intros []. split; try done; [lia|by apply map_le_mono..]. Qed.

Lemma inv_step n rl o : 0 <= n -> n + 1 <= MaxInt64 -> inv n rl -> inv (n + 1) (apply_op rl o).
Proof.
  intros Hn Hb Hi. destruct o as [d| |et p]; simpl.
  - apply inv_mono. destruct Hi; by split.
  - apply inv_mono. destruct Hi; split; try done. simpl. by apply newLevel_range.
  - unfold ShouldDrop. destruct (throttleLevel rl =? 0); [by apply inv_mono|]. simpl.
    match goal with |- inv _ (if ?b then _ else _) => destruct b end; [|by apply inv_mono].
    destruct Hi as [H1 H2 H3 H4 H5 H6 H7 H8].
    destruct (incr_ok n (priority_of et) (byPriority (drops rl))) as [P1 P2]; [done..|].
    destruct (incr_ok n et (byEventType (drops rl))) as [T1 T2]; [done..|].
    unfold recordDrop. split; simpl; try done; rewrite i64_small by (unfold MinInt64; lia); lia.
Qed.

Lemma limiter_run_inv c ops : Z.of_nat (length ops) <= MaxInt64 -> inv (Z.of_nat (length ops)) (run c ops).
Proof.
  unfold run. induction ops as [|o ops IH] using rev_ind; intros Hl.
  { split; simpl; try done; [by left|apply map_Forall_empty..]. }
  rewrite length_app in Hl |- *. simpl in Hl |- *. rewrite foldl_app. simpl.
  replace (Z.of_nat (length ops + 1)) with (Z.of_nat (length ops) + 1) by lia.
  apply inv_step; [lia|lia|apply IH; lia].
Qed.

(** Bookkeeping of the rate limiter.  After any sequence of depth reports,
    evaluations and drop decisions, the throttle level is 0, 1 or 2, the throttling
    flag says exactly whether it is positive, and the drop counts by priority and
    by event type each add up to the total. *)
Lemma limiter_invariant (c : option Config) (ops : list op) :
  Z.of_nat (length ops) <= MaxInt64 ->
  let rl := run c ops in
  (throttleLevel rl = 0 \/ throttleLevel rl = 1 \/ throttleLevel rl = 2) /\
  throttling rl = (0 <? throttleLevel rl) /\
  table_sum (byPriority (drops rl)) = totalDropped (drops rl) /\
  table_sum (byEventType (drops rl)) = totalDropped (drops rl).
Proof. intros Hl rl. destruct (limiter_run_inv c ops Hl). by split_and!. Qed.

Definition sample_ops : list op :=
  [SetDepth 9000; Evaluate; Drop 2 "/usr/lib/x.so"; Drop 10 "/etc/shadow"; Drop 10 "/var/log/a"].

Lemma limiter_invariant_witness :
  totalDropped (drops (run None sample_ops)) = 2 /\
  table_sum (byEventType (drops (run None sample_ops))) = totalDropped (drops (run None sample_ops)).
Proof.
  split; [vm_compute; reflexivity|]. apply (limiter_invariant None sample_ops). vm_compute. discriminate.
Defined.

(** The levels the documentation describes, for the default configuration. *)
Definition spec_level (depth oldLevel : Z) : Z :=
  if 10000 <? depth then 2 else if 8000 <=? depth then 1 else if depth <=? 5000 then 0 else oldLevel.

(** The default thresholds.  For every queue depth from -100 to 12000 (the
    default capacity is 10000), the binary64 computation switches exactly at
    the intended depths: level 2 above 10000 events, level 1 from 8000 on (80%),
    level 0 up to 5000 (50%), and in between the level is kept. *)
Lemma default_thresholds (rl : RateLimiter) :
  cfg rl = DefaultConfig -> -100 <= queueDepth rl <= 12000 ->
  throttleLevel (evaluate rl) = spec_level (queueDepth rl) (throttleLevel rl).
Proof.
  intros Hc Hd. unfold evaluate. simpl. rewrite Hc. unfold QueueDepth.
  set (cls d := let r := math_Min float_one (math_Max float_zero
                  (float_div (float_of_int d) (float_of_int 10000))) in
                (float_ge r float_0_8, float_le r float_0_5)).
  assert (forallb (fun d => bool_decide (cls d = (8000 <=? d, d <=? 5000))) (seqZ (-100) 12101) = true)
    as Hall by (vm_compute; reflexivity).
  rewrite forallb_forall in Hall.
  assert (cls (queueDepth rl) = (8000 <=? queueDepth rl, queueDepth rl <=? 5000)) as Hcls.
  { specialize (Hall (queueDepth rl)). rewrite bool_decide_eq_true in Hall.
    apply Hall, list_elem_of_In, elem_of_seqZ. lia. }
  assert (newLevel DefaultConfig (queueDepth rl) (throttleLevel rl) =
    let '(hi, lo) := cls (queueDepth rl) in
    if hi : bool then if 10000 <? queueDepth rl then 2 else 1
    else if lo : bool then 0 else throttleLevel rl) as -> by reflexivity.
  rewrite Hcls. unfold spec_level.
  destruct (Z.ltb_spec 10000 (queueDepth rl)), (Z.leb_spec 8000 (queueDepth rl)); done || lia.
Qed.

Lemma default_thresholds_witness :
  throttleLevel (evaluate (SetQueueDepth 8000 (New None))) = 1.
Proof.
  rewrite (default_thresholds (SetQueueDepth 8000 (New None))); [reflexivity|reflexivity|simpl; lia].
Defined.

(** Priorities do not protect events.  Whenever the limiter throttles (at
    either level), it drops every event whose path is under a low-risk prefix, of
    whatever type -- process executions included -- because the comparison with
    the priority constants is reversed; the documentation says that critical
    events are never dropped and that level 1 drops only low-priority ones. *)
Lemma should_drop_ignores_priority (c : option Config) (ops : list op) (eventType : Z) (path : string) :
  Z.of_nat (length ops) <= MaxInt64 ->
  let rl := run c ops in
  snd (ShouldDrop eventType path rl)
  = negb (throttleLevel rl =? 0) && existsb (fun low => HasPrefix path low) lowRiskPaths.
Proof.
  intros Hl rl. subst rl. destruct (limiter_run_inv c ops Hl) as [Hlev _ Hlow _ _ _ _ _].
  pose proof (priority_bound eventType) as Hp. unfold ShouldDrop, isSensitivePath. rewrite Hlow.
  destruct (Z.leb_spec (priority_of eventType) PriorityLow); [|unfold PriorityNormal, PriorityLow in *; lia].
  destruct (Z.leb_spec (priority_of eventType) PriorityNormal); [|lia].
  destruct (existsb (fun low => HasPrefix path low) lowRiskPaths); destruct Hlev as [->|[->| ->]]; reflexivity.
Qed.

Lemma should_drop_ignores_priority_witness :
  snd (ShouldDrop 2 "/usr/lib/evil" (run None [SetDepth 9000; Evaluate])) = true.
Proof.
  rewrite (should_drop_ignores_priority None [SetDepth 9000; Evaluate] 2 "/usr/lib/evil");
    [vm_compute; reflexivity|vm_compute; discriminate].
Defined.
End RateLimit.
