(* ===== verification/Breaker.v ===== *)
(** * Self-healing and its circuit breaker
    ([internal/policy/selfheal/circuitbreaker.go], [selfheal.go]).

    One check cycle of the healer.  What the outside world answers during a cycle
    -- which programs are found, whether reloading succeeds, the clock readings --
    is the record [env]; loading eBPF objects, the bpftool commands and the audit
    store are behind it.  An empty argument vector for the reload command panics:
    [None]. *)
From S2P Require Import Prelude GoStrings.

Module Breaker.

Record Config := mkConfig {
  EnableAutoReload : bool; ReloadCmd : string; ExpectedProgs : list string;
}.

Definition DefaultConfig : Config := mkConfig true ""
  ["probe_file_open"; "probe_bprm_check"; "probe_task_alloc"; "probe_socket_connect"; "probe_net_connect"].

Record AuditEvent := mkAudit { Timestamp : time; Type_ : string; Severity : string; Message : string }.

Record Healer := mkHealer {
  cfg : Config;
  auditLog : list AuditEvent;
  healthy : bool;
  checkCnt : Z;
  failCnt : Z;
  reloadCnt : Z;
  cbFailures : Z;
  cbTrippedAt : time;
  cbFirstFailAt : time;
}.

(** The answers of the environment during one check cycle. *)
Record env := mkEnv {
  found : string -> bool;              (* [checkProgram] *)
  now_check : time;                    (* the clock in [runCheck] *)
  now_reload : time;                   (* at the start of [reloadPrograms] *)
  now_result : time;                   (* when the result is recorded *)
  attach_ok : bool;                    (* [loadAndAttachEBPF] *)
  cmd_error : option string;           (* the reload command: error message *)
  bpftool_error : string -> option string;  (* [bpftool prog attach]: error message *)
}.

Definition New (c : option Config) : Healer :=
  mkHealer (default DefaultConfig c) [] true 0 0 0 0 time_zero time_zero.

Definition window : duration := 10 * Minute.

Definition add_audit (e : AuditEvent) (h : Healer) : Healer :=
  mkHealer (cfg h) (auditLog h ++ [e]) (healthy h) (checkCnt h) (failCnt h) (reloadCnt h)
    (cbFailures h) (cbTrippedAt h) (cbFirstFailAt h).

Definition set_breaker (failures : Z) (tripped first : time) (h : Healer) : Healer :=
  mkHealer (cfg h) (auditLog h) (healthy h) (checkCnt h) (failCnt h) (reloadCnt h) failures tripped first.

Definition recordReloadFailure (now : time) (msg : string) (h : Healer) : Healer :=
  let windowStart := time_Add now (- window) in
  let failures := if time_Before (cbFirstFailAt h) windowStart then 0 else cbFailures h in
  let first := if time_IsZero (cbFirstFailAt h) then now else cbFirstFailAt h in
  let failures := i64 (failures + 1) in
  let h := mkHealer (cfg h) (auditLog h) false (checkCnt h) (i64 (failCnt h + 1)) (reloadCnt h)
             failures (cbTrippedAt h) first in
  let h := add_audit (mkAudit now "reload" "CRITICAL" msg) h in
  if 3 <=? failures then
    add_audit (mkAudit now "reload" "CRITICAL"
                 "Circuit breaker tripped — suppressing reloads for 10 minutes")
      (set_breaker failures now first h)
  else h.

Definition resetCircuitBreaker (h : Healer) : Healer :=
  mkHealer (cfg h) (auditLog h) true (checkCnt h) (failCnt h) (reloadCnt h) 0 time_zero time_zero.

(** The first program that cannot be attached stops the loop. *)
Fixpoint reloadBPFTool_loop (e : env) (progs : list string) (h : Healer) : Healer * bool :=
  match progs with
  | [] => (h, true)
  | p :: progs =>
      match bpftool_error e p with
      | Some err => (recordReloadFailure (now_result e)
                       ("bpftool re-attach " +:+ p +:+ " failed: " +:+ err) h, false)
      | None => reloadBPFTool_loop e progs h
      end
  end.

Definition reloadBPFTool (e : env) (h : Healer) : Healer :=
  let '(h, ok) := reloadBPFTool_loop e (ExpectedProgs (cfg h)) h in
  if ok then
    add_audit (mkAudit (now_result e) "reload" "INFO" "eBPF programs reloaded via bpftool")
      (resetCircuitBreaker h)
  else h.

(** Tripped and within the cool-down period. *)
Definition open_at (now : time) (h : Healer) : bool :=
  negb (time_IsZero (cbTrippedAt h)) && time_Before now (time_Add (cbTrippedAt h) window).

Definition reloadPrograms (e : env) (h : Healer) : option Healer :=
  let now := now_reload e in
  if open_at now h then Some h
  else
    let h := if negb (time_IsZero (cbTrippedAt h)) then set_breaker 0 time_zero time_zero h else h in
    let h := mkHealer (cfg h) (auditLog h) (healthy h) (checkCnt h) (failCnt h) (i64 (reloadCnt h + 1))
               (cbFailures h) (cbTrippedAt h) (cbFirstFailAt h) in
    let h := add_audit (mkAudit now "reload" "WARNING" "Initiating eBPF program reload") h in
    if attach_ok e then
      Some (add_audit (mkAudit (now_result e) "reload" "INFO" "eBPF programs reloaded via cilium/ebpf")
              (resetCircuitBreaker h))
    else if negb (bool_decide (ReloadCmd (cfg h) = "")) then
      match Fields (ReloadCmd (cfg h)) with
      | [] => None
      | _ :: _ =>
          match cmd_error e with
          | None => Some (resetCircuitBreaker h)
          | Some err => Some (recordReloadFailure (now_result e) ("Reload cmd failed: " +:+ err) h)
          end
      end
    else Some (reloadBPFTool e h).

Definition join (l : list string) : string := String.concat ", " l.

Definition runCheck (e : env) (h : Healer) : option Healer :=
  let missing := filter (fun p => found e p = false) (ExpectedProgs (cfg h)) in
  let allFound := bool_decide (missing = []) in
  let h := mkHealer (cfg h) (auditLog h) allFound (i64 (checkCnt h + 1)) (failCnt h) (reloadCnt h)
             (cbFailures h) (cbTrippedAt h) (cbFirstFailAt h) in
  let h := if allFound then h
           else add_audit (mkAudit (now_check e) "fail" "CRITICAL" ("eBPF programs missing: " +:+ join missing))
                  (mkHealer (cfg h) (auditLog h) false (checkCnt h) (i64 (failCnt h + 1)) (reloadCnt h)
                     (cbFailures h) (cbTrippedAt h) (cbFirstFailAt h)) in
  if negb allFound && EnableAutoReload (cfg h) then reloadPrograms e h else Some h.

(** ** Theorems *)

(** The cycle finds a program missing and the reload fails. *)
Definition fails (c : Config) (e : env) : Prop :=
  (exists p, p ∈ ExpectedProgs c /\ found e p = false) /\ attach_ok e = false /\
  (if decide (ReloadCmd c = "") then exists p, p ∈ ExpectedProgs c /\ is_Some (bpftool_error e p)
   else Fields (ReloadCmd c) <> [] /\ is_Some (cmd_error e)).

Lemma bpftool_fails e progs h :
  (exists p, p ∈ progs /\ is_Some (bpftool_error e p)) ->
  exists msg, reloadBPFTool_loop e progs h = (recordReloadFailure (now_result e) msg h, false).
Proof.
  induction progs as [|p progs IH]; intros (q & Hq & Hs); [set_solver|]. simpl.
  destruct (bpftool_error e p) as [err|] eqn:Hp; [by eauto|].
  apply IH. exists q. split; [|done]. apply elem_of_cons in Hq as [->|]; [|done].
  rewrite Hp in Hs. by destruct Hs.
Qed.

(** The breaker fields, which the check cycle touches only through the reload. *)
Definition breaker (h : Healer) : Z * time * time := (cbFailures h, cbTrippedAt h, cbFirstFailAt h).

(** A failing cycle with auto-reload: skipped when open, else a recorded failure. *)
Lemma failing_cycle e h :
  EnableAutoReload (cfg h) = true -> fails (cfg h) e ->
  exists h', runCheck e h = Some h' /\ cfg h' = cfg h /\
    (if open_at (now_reload e) h then breaker h' = breaker h /\ reloadCnt h' = reloadCnt h
     else exists h0 msg, breaker h' = breaker (recordReloadFailure (now_result e) msg h0) /\
       reloadCnt h' = i64 (reloadCnt h + 1) /\
       breaker h0 = if negb (time_IsZero (cbTrippedAt h)) then (0, time_zero, time_zero) else breaker h).
Proof.
  intros Hauto ((p & Hp & Hf) & Hatt & Hrel). unfold runCheck.
  rewrite bool_decide_eq_false_2.
  2: { intros Hnil. assert (p ∈ filter (fun p => found e p = false) (ExpectedProgs (cfg h))) as Hin
         by (by apply list_elem_of_filter). rewrite Hnil in Hin. set_solver. }
  cbn [negb cfg add_audit andb]. rewrite Hauto. unfold reloadPrograms, open_at. cbn [cbTrippedAt add_audit].
  destruct (negb (time_IsZero (cbTrippedAt h)) && time_Before (now_reload e) (time_Add (cbTrippedAt h) window)).
  { eexists. split; [done|]. by split_and!. }
  rewrite Hatt.
  assert (forall h1, cfg h1 = cfg h -> exists msg,
    (if negb (bool_decide (ReloadCmd (cfg h1) = "")) then
       match Fields (ReloadCmd (cfg h1)) with
       | [] => None
       | _ :: _ => match cmd_error e with
                   | None => Some (resetCircuitBreaker h1)
                   | Some err => Some (recordReloadFailure (now_result e) ("Reload cmd failed: " +:+ err) h1)
                   end
       end
     else Some (reloadBPFTool e h1)) = Some (recordReloadFailure (now_result e) msg h1)) as Hgo.
  { intros h1 Hc. rewrite Hc. case_decide as Hcmd.
    - rewrite bool_decide_eq_true_2 by done. cbn [negb]. unfold reloadBPFTool. rewrite Hc.
      destruct (bpftool_fails e _ h1 Hrel) as [msg ->]. by exists msg.
    - rewrite bool_decide_eq_false_2 by done. cbn [negb]. destruct Hrel as [Hfl [err ->]].
      destruct (Fields (ReloadCmd (cfg h))); [done|]. by eexists. }
  match goal with |- context [add_audit ?a (mkHealer ?a1 ?a2 ?a3 ?a4 ?a5 ?a6 ?a7 ?a8 ?a9)] =>
    destruct (Hgo (add_audit a (mkHealer a1 a2 a3 a4 a5 a6 a7 a8 a9))) as [msg ->] end.
  { by destruct (negb (time_IsZero (cbTrippedAt h))). }
  eexists. split; [done|]. unfold recordReloadFailure. split.
  { repeat case_match; done. }
  eexists _, msg. split; [reflexivity|]. unfold recordReloadFailure.
  split; destruct (negb (time_IsZero (cbTrippedAt h))); repeat case_match; done.
Qed.

(** The breaker after a recorded failure, from the breaker before. *)
Definition after_failure (now : time) (b : Z * time * time) : Z * time * time :=
  let '(failures, tripped, first) := b in
  let f := i64 ((if first <? now - window then 0 else failures) + 1) in
  let first := if first =? 0 then now else first in
  (f, if 3 <=? f then now else tripped, first).

Lemma breaker_failure now msg h : breaker (recordReloadFailure now msg h) = after_failure now (breaker h).
Proof. unfold recordReloadFailure, after_failure, breaker, time_Before, time_IsZero, time_Add, time_zero.
  rewrite Z.add_opp_r. by case_match. Qed.

Definition cycles (es : list env) (h : Healer) : option Healer :=
  foldl (fun oh e => h ← oh; runCheck e h) (Some h) es.

Lemma cycles_cons e es h h' : runCheck e h = Some h' -> cycles (e :: es) h = cycles es h'.
Proof. intros H. unfold cycles. simpl. by rewrite H. Qed.

(** While the breaker is not tripped, a failing cycle records the failure. *)
Lemma closed_cycle e h :
  EnableAutoReload (cfg h) = true -> fails (cfg h) e -> cbTrippedAt h = time_zero ->
  exists h', runCheck e h = Some h' /\ cfg h' = cfg h /\ reloadCnt h' = i64 (reloadCnt h + 1) /\
    breaker h' = after_failure (now_result e) (breaker h).
Proof.
  intros Ha Hf Ht. destruct (failing_cycle e h Ha Hf) as (h' & Hr & Hc & Hb). unfold open_at in Hb.
  rewrite Ht in Hb. simpl in Hb. destruct Hb as (h0 & msg & Hb & Hn & H0).
  exists h'. split_and!; [done|done|done|]. by rewrite Hb, breaker_failure, H0.
Qed.

Lemma first_failure now : after_failure now (0, 0, 0) = (1, 0, now).
Proof. unfold after_failure. by destruct (0 <? now - window). Qed.

(** The circuit breaker trips and suppresses reloads.  From the initial state,
    three failing check cycles whose failures fall within ten minutes of the first
    one trip the breaker at the time of the third; a further failing cycle that
    starts before ten minutes have passed since then attempts no reload and leaves
    the breaker as it is. *)
Lemma breaker_trips (c : option Config) (e1 e2 e3 e4 : env) :
  let h := New c in
  EnableAutoReload (cfg h) = true ->
  fails (cfg h) e1 -> fails (cfg h) e2 -> fails (cfg h) e3 -> fails (cfg h) e4 ->
  let t1 := now_result e1 in let t2 := now_result e2 in let t3 := now_result e3 in
  0 < t1 -> t1 <= t2 <= t1 + window -> t2 <= t3 <= t1 + window -> now_reload e4 < t3 + window ->
  exists h3 h4, cycles [e1; e2; e3] h = Some h3 /\ breaker h3 = (3, t3, t1) /\ reloadCnt h3 = 3 /\
    runCheck e4 h3 = Some h4 /\ breaker h4 = (3, t3, t1) /\ reloadCnt h4 = 3.
Proof.
  intros h Ha H1 H2 H3 H4 t1 t2 t3 Ht1 Ht2 Ht3 Ht4.
  destruct (closed_cycle e1 h Ha H1 eq_refl) as (h1 & R1 & C1 & N1 & B1).
  assert (breaker h1 = (1, 0, t1)) as B1'.
  { rewrite B1. apply first_failure. }
  assert (cbTrippedAt h1 = 0) as T1 by (unfold breaker in B1'; congruence).
  destruct (closed_cycle e2 h1) as (h2 & R2 & C2 & N2 & B2); rewrite ?C1; [done..|].
  assert (breaker h2 = (2, 0, t1)) as B2'.
  { rewrite B2, B1'. unfold after_failure. fold t2. destruct (Z.ltb_spec t1 (t2 - window)); [lia|].
    destruct (Z.eqb_spec t1 0); [lia|done]. }
  assert (cbTrippedAt h2 = 0) as T2 by (unfold breaker in B2'; congruence).
  destruct (closed_cycle e3 h2) as (h3 & R3 & C3 & N3 & B3); rewrite ?C2, ?C1; [done..|].
  assert (breaker h3 = (3, t3, t1)) as B3'.
  { rewrite B3, B2'. unfold after_failure. fold t3. destruct (Z.ltb_spec t1 (t3 - window)); [lia|].
    destruct (Z.eqb_spec t1 0); [lia|done]. }
  assert (reloadCnt h3 = 3) as N3' by (rewrite N3, N2, N1; reflexivity).
  destruct (failing_cycle e4 h3) as (h4 & R4 & C4 & B4); rewrite ?C3, ?C2, ?C1; [done..|].
  assert (cbTrippedAt h3 = t3) as T3 by (unfold breaker in B3'; congruence).
  unfold open_at, time_IsZero, time_Before, time_Add, time_zero in B4. rewrite T3 in B4.
  destruct (Z.eqb_spec t3 0); [lia|]. destruct (Z.ltb_spec (now_reload e4) (t3 + window)); [|lia].
  simpl in B4. destruct B4 as [B4 N4]. exists h3, h4.
  rewrite (cycles_cons e1 _ h h1), (cycles_cons e2 _ h1 h2), (cycles_cons e3 _ h2 h3) by done.
  split_and!; [done|done|done|done|by rewrite B4|by rewrite N4].
Qed.

(** A cycle in which one program is missing and bpftool fails. *)
Definition bad_env (t : time) : env :=
  mkEnv (fun p => negb (bool_decide (p = "probe_file_open"))) t t t false None (fun _ => Some "exit 255").

Lemma bad_env_fails t : fails DefaultConfig (bad_env t).
Proof.
  assert ("probe_file_open" ∈ ExpectedProgs DefaultConfig) by (simpl; left).
  split_and!; [by exists "probe_file_open"|done|]. simpl. exists "probe_file_open". by eauto.
Qed.

Lemma breaker_trips_witness :
  exists h3 h4, cycles [bad_env (1 * Minute); bad_env (2 * Minute); bad_env (3 * Minute)] (New None) = Some h3 /\
    runCheck (bad_env (5 * Minute)) h3 = Some h4 /\ reloadCnt h4 = 3.
Proof.
  destruct (breaker_trips None (bad_env (1 * Minute)) (bad_env (2 * Minute)) (bad_env (3 * Minute))
              (bad_env (5 * Minute)) eq_refl (bad_env_fails _) (bad_env_fails _) (bad_env_fails _)
              (bad_env_fails _)) as (h3 & h4 & H1 & _ & _ & H2 & _ & H3);
    unfold bad_env, window, Minute, Second; simpl; try lia.
  exists h3, h4. split_and!; assumption.
Defined.

(** The breaker stops working after a quiet window.  Once a failure is more
    than ten minutes older than the recorded first failure and no reload has
    succeeded, the start of the window is never moved: every further failure
    resets the count, so no sequence of failing cycles, however dense, trips the
    breaker again, and every cycle attempts a reload. *)
Lemma breaker_never_trips_again (h : Healer) (es : list env) :
  EnableAutoReload (cfg h) = true -> cbTrippedAt h = time_zero -> cbFirstFailAt h <> time_zero ->
  Forall (fun e => fails (cfg h) e /\ cbFirstFailAt h + window < now_result e) es ->
  0 <= reloadCnt h -> reloadCnt h + Z.of_nat (length es) <= MaxInt64 ->
  exists h', cycles es h = Some h' /\ cbTrippedAt h' = time_zero /\
    reloadCnt h' = reloadCnt h + Z.of_nat (length es).
Proof.
  intros Ha Ht Hz Hall H0 Hn. revert h Ha Ht Hz Hall H0 Hn.
  induction es as [|e es IH]; intros h Ha Ht Hz Hall H0 Hn.
  { exists h. simpl. by rewrite Z.add_0_r. }
  apply Forall_cons in Hall as [[Hf Hlt] Hall]. simpl in Hn.
  destruct (closed_cycle e h Ha Hf Ht) as (h1 & R1 & C1 & N1 & B1).
  unfold breaker, after_failure in B1. destruct (Z.ltb_spec (cbFirstFailAt h) (now_result e - window)); [|lia].
  destruct (Z.eqb_spec (cbFirstFailAt h) 0); [done|]. simpl in B1. injection B1 as _ B2 B3.
  rewrite i64_small in N1 by (unfold MinInt64; lia).
  destruct (IH h1) as (h' & Hr & Ht' & Hn'); rewrite ?C1, ?N1, ?B3; try done; [by rewrite B2|lia|lia|].
  exists h'. rewrite (cycles_cons e es h h1 R1). split_and!; [done|done|]. rewrite Hn', N1. simpl. lia.
Qed.

Lemma breaker_never_trips_again_witness :
  exists h h', cycles [bad_env (1 * Minute)] (New None) = Some h /\
    cycles [bad_env (12 * Minute); bad_env (13 * Minute); bad_env (14 * Minute); bad_env (15 * Minute)] h = Some h' /\
    cbTrippedAt h' = time_zero /\ reloadCnt h' = 5.
Proof.
  destruct (cycles [bad_env (1 * Minute)] (New None)) as [h|] eqn:E; [|by vm_compute in E].
  exists h. vm_compute in E. injection E as <-.
  match goal with |- exists h', _ /\ cycles ?es ?h = _ /\ _ =>
    destruct (breaker_never_trips_again h es) as (h' & H1 & H2 & H3) end.
  - reflexivity.
  - reflexivity.
  - discriminate.
  - repeat constructor; try apply bad_env_fails.
  - vm_compute. discriminate.
  - vm_compute. discriminate.
  - exists h'. split_and!; [reflexivity|exact H1|exact H2|exact H3].
Defined.
End Breaker.
