(* ===== verification/Fold.v ===== *)
(** * Event folding ([internal/engine/fold/dedup.go], [ioagg.go]).

    The redundancy filter suppresses repeated system call results; the I/O
    aggregator folds reads and writes into counters that are flushed on close, on
    a timer, or in batches.  [now] is the clock reading of a call.  The [Duration]
    of a flushed summary is kept as the number the code prints; the statistics
    maps (formatted percentages) and log lines are not modelled. *)
From S2P Require Import Prelude GoStrings.
From Stdlib Require Import Ascii.

Module Dedup.

Record CacheEntry := mkEntry { Result : Z; CachedAt : time; Count : Z }.

Record RedundancyFilter := mkFilter {
  cache : gmap string CacheEntry; ttl : duration; suppr : Z; passed : Z;
}.

Definition NewRedundancyFilter (window : duration) : RedundancyFilter :=
  mkFilter ∅ (if window <=? 0 then 100 * Millisecond else window) 0 0.

Definition cacheKey (pid syscallID : Z) (path : string) : string :=
  pretty pid +:+ ":" +:+ pretty syscallID +:+ ":" +:+ path.

Definition Check (pid syscallID : Z) (path : string) (result : Z) (now : time) (rf : RedundancyFilter)
  : RedundancyFilter * bool :=
  let key := cacheKey pid syscallID path in
  let put e := <[key := e]> (cache rf) in
  match cache rf !! key with
  | None => (mkFilter (put (mkEntry result now 1)) (ttl rf) (suppr rf) (i64 (passed rf + 1)), true)
  | Some entry =>
      if ttl rf <? time_Sub now (CachedAt entry)
      then (mkFilter (put (mkEntry result now 1)) (ttl rf) (suppr rf) (i64 (passed rf + 1)), true)
      else if Result entry =? result
      then (mkFilter (put (mkEntry (Result entry) now (i64 (Count entry + 1)))) (ttl rf)
              (i64 (suppr rf + 1)) (passed rf), false)
      else (mkFilter (put (mkEntry result now 1)) (ttl rf) (suppr rf) (i64 (passed rf + 1)), true)
  end.

(** ** Specification: the last call with the same arguments *)

Record call := mkCall { c_pid : Z; c_sys : Z; c_path : string; c_result : Z; c_now : time }.

(** Histories list the most recent call first. *)
Fixpoint last_same (pid sys : Z) (path : string) (h : list call) : option call :=
  match h with
  | [] => None
  | c :: h => if decide (c_pid c = pid /\ c_sys c = sys /\ c_path c = path) then Some c
              else last_same pid sys path h
  end.

Fixpoint exec (window : duration) (h : list call) : RedundancyFilter :=
  match h with
  | [] => NewRedundancyFilter window
  | c :: h => fst (Check (c_pid c) (c_sys c) (c_path c) (c_result c) (c_now c) (exec window h))
  end.

Lemma colon_not_number (x : Z) : ":"%char ∉ chars (pretty x).
Proof. apply (pretty_Z_not_occurs x). apply (bool_decide_unpack _). by vm_compute. Qed.

Lemma cacheKey_inj p s a p' s' a' : cacheKey p s a = cacheKey p' s' a' -> p = p' /\ s = s' /\ a = a'.
Proof.
  intros H. apply (f_equal chars) in H. unfold cacheKey in H. rewrite !chars_app in H. simpl in H.
  apply app_sep_inj in H as [H1 H2]; [|apply colon_not_number..].
  apply app_sep_inj in H2 as [H2 H3]; [|apply colon_not_number..].
  split_and!; [by apply (inj pretty), (inj chars)|by apply (inj pretty), (inj chars)|by apply (inj chars)].
Qed.

Record inv (window : duration) (h : list call) : Prop := {
  i_ttl : ttl (exec window h) = ttl (NewRedundancyFilter window);
  i_cache : forall pid sys path,
    (fun e => (Result e, CachedAt e)) <$> cache (exec window h) !! cacheKey pid sys path
    = (fun c => (c_result c, c_now c)) <$> last_same pid sys path h;
  i_count : Z.of_nat (length h) <= MaxInt64 ->
    0 <= suppr (exec window h) /\ 0 <= passed (exec window h) /\
    suppr (exec window h) + passed (exec window h) = Z.of_nat (length h);
}.

Lemma Check_cache pid sys path r now rf :
  (fun e => (Result e, CachedAt e)) <$> cache (fst (Check pid sys path r now rf))
  = <[cacheKey pid sys path := (r, now)]> ((fun e => (Result e, CachedAt e)) <$> cache rf).
Proof.
  unfold Check. destruct (cache rf !! cacheKey pid sys path) as [e|]; [|simpl; by rewrite fmap_insert].
  case_match; [simpl; by rewrite fmap_insert|].
  destruct (Z.eqb_spec (Result e) r) as [<-|]; simpl; by rewrite fmap_insert.
Qed.

Lemma exec_inv window h : inv window h.
Proof.
  induction h as [|[pid sys path r now] h IH].
  { split; [done|intros; simpl; by rewrite lookup_empty|done]. }
  split; simpl.
  - pose proof (i_ttl window h IH) as Ht. simpl in Ht. rewrite <-Ht. unfold Check. repeat case_match; done.
  - intros pid' sys' path'. rewrite <-lookup_fmap, Check_cache, lookup_insert, lookup_fmap.
    rewrite (i_cache window h IH). case_decide as Hk.
    + apply cacheKey_inj in Hk as (-> & -> & ->). by rewrite decide_True.
    + rewrite decide_False; [done|]. intros (-> & -> & ->). done.
  - intros Hl. destruct (i_count window h IH) as (H1 & H2 & H3); [lia|].
    unfold Check. repeat case_match; simpl; rewrite i64_small by (unfold MinInt64; lia); lia.
Qed.

(** The redundancy filter is exact.  After any sequence of calls, a call is
    suppressed exactly if the most recent earlier call with the same process,
    system call and path returned the same result at most the cache window ago
    (100 ms by default); every other call passes, and the two counters add up to
    the number of calls.  (The window restarts with every repetition.) *)
Lemma dedup_exact (window : duration) (h : list call) (c : call) :
  Z.of_nat (length h) < MaxInt64 ->
  let rf := exec window h in
  let '(rf', pass) := Check (c_pid c) (c_sys c) (c_path c) (c_result c) (c_now c) rf in
  pass = negb (match last_same (c_pid c) (c_sys c) (c_path c) h with
               | Some p => (time_Sub (c_now c) (c_now p) <=? (if window <=? 0 then 100 * Millisecond else window))
                           && (c_result p =? c_result c)
               | None => false
               end) /\
  suppr rf' + passed rf' = Z.of_nat (S (length h)).
Proof.
  intros Hl rf. pose proof (i_count window (c :: h) (exec_inv window (c :: h))) as Hc. simpl in Hc.
  fold rf in Hc. destruct (Check _ _ _ _ _ rf) as [rf' pass] eqn:E. simpl in Hc.
  split; [|apply Hc; simpl; lia].
  pose proof (i_cache window h (exec_inv window h) (c_pid c) (c_sys c) (c_path c)) as Hk.
  pose proof (i_ttl window h (exec_inv window h)) as Ht. fold rf in Hk, Ht.
  unfold Check in E. rewrite Ht in E. simpl in E.
  destruct (cache rf !! _) as [e|], (last_same _ _ _ h) as [p|]; [|done|done|by simplify_eq/=].
  injection Hk as H1 H2. rewrite H1, H2 in E.
  rewrite (Z.leb_antisym (if window <=? 0 then 100 * Millisecond else window)).
  destruct (_ <? time_Sub (c_now c) (c_now p)); simplify_eq/=; [done|].
  by destruct (c_result p =? c_result c); simplify_eq/=.
Qed.

Lemma dedup_exact_witness :
  let h := [mkCall 7 4 "/etc/ld.so.cache" 0 5] in
  snd (Check 7 4 "/etc/ld.so.cache" 0 (5 + 100 * Millisecond) (exec 0 h)) = false /\
  snd (Check 7 4 "/etc/ld.so.cache" (-1) (5 + 100 * Millisecond) (exec 0 h)) = true.
Proof.
  intros h. split.
  - pose proof (dedup_exact 0 h (mkCall 7 4 "/etc/ld.so.cache" 0 (5 + 100 * Millisecond)) ltac:(done)) as H.
    cbn [c_pid c_sys c_path c_result c_now] in H. destruct (Check _ _ _ _ _ _). destruct H as [-> _]. reflexivity.
  - pose proof (dedup_exact 0 h (mkCall 7 4 "/etc/ld.so.cache" (-1) (5 + 100 * Millisecond)) ltac:(done)) as H.
    cbn [c_pid c_sys c_path c_result c_now] in H. destruct (Check _ _ _ _ _ _). destruct H as [-> _]. reflexivity.
Defined.
End Dedup.

Module IoAgg.

Record AggKey := mkKey { k_PID : Z; k_FD : Z; k_OpType : Z }.

#[global] Instance AggKey_eq_dec : EqDecision AggKey.
Proof. solve_decision. Defined.
#[global] Instance AggKey_countable : Countable AggKey.
Proof.
  apply (inj_countable' (fun k => (k_PID k, k_FD k, k_OpType k)) (fun '(p, f, o) => mkKey p f o)).
  by intros [].
Defined.

Record AggValue := mkValue { Count : Z; TotalBytes : Z; FirstSeen : time; LastSeen : time }.

Record AggregateEvent := mkAgg {
  PID : Z; Comm : string; FD : Z; OpType : Z; a_Count : Z; a_TotalBytes : Z; Duration : duration;
}.

Record IOAggregator := mkIA {
  agg : gmap AggKey AggValue; flushInt : duration; batchSize : Z; lastFlush : time;
  flushed : list AggregateEvent; totalFolded : Z; totalEvents : Z;
}.

Definition NewIOAggregator (now : time) : IOAggregator := mkIA ∅ Second 100 now [] 0 0.

Definition RecordIO (pid : Z) (comm : string) (fd opType bytes : Z) (now : time) (ia : IOAggregator)
  : IOAggregator :=
  let key := mkKey pid fd opType in
  let val := match agg ia !! key with
             | Some v => mkValue (u64 (Count v + 1)) (u64 (TotalBytes v + bytes)) (FirstSeen v) now
             | None => mkValue 1 bytes now now
             end in
  mkIA (<[key := val]> (agg ia)) (flushInt ia) (batchSize ia) (lastFlush ia) (flushed ia)
       (totalFolded ia) (i64 (totalEvents ia + 1)).

(** Emits the summary of one entry and removes it. *)
Definition emit (key : AggKey) (val : AggValue) (comm : string) (ia : IOAggregator) : IOAggregator :=
  mkIA (delete key (agg ia)) (flushInt ia) (batchSize ia) (lastFlush ia)
       (flushed ia ++ [mkAgg (k_PID key) comm (k_FD key) (k_OpType key) (Count val) (TotalBytes val)
                         (time_Sub (LastSeen val) (FirstSeen val))])
       (i64 (totalFolded ia + i64 (Count val))) (totalEvents ia).

Definition flushKey (key : AggKey) (ia : IOAggregator) : IOAggregator :=
  match agg ia !! key with
  | None => ia
  | Some val => emit key val "" ia
  end.

Definition OnClose `{MapOrder} (pid fd : Z) (ia : IOAggregator) : IOAggregator :=
  let keysToFlush := filter (fun key => k_PID key = pid /\ k_FD key = fd)
                       (range 0 (map_to_list (agg ia))).*1 in
  foldl (fun ia key => flushKey key ia) ia keysToFlush.

Definition shouldFlush (ia : IOAggregator) (elapsed : duration) (val : AggValue) : bool :=
  (u64 (batchSize ia) <=? Count val) || ((flushInt ia <=? elapsed) && (0 <? Count val)).

Definition set_lastFlush (now : time) (ia : IOAggregator) : IOAggregator :=
  mkIA (agg ia) (flushInt ia) (batchSize ia) now (flushed ia) (totalFolded ia) (totalEvents ia).

Definition Tick `{MapOrder} (commMap : gmap Z string) (now : time) (ia : IOAggregator)
  : IOAggregator * nat :=
  let elapsed := time_Sub now (lastFlush ia) in
  let '(ia, flushCount) :=
    foldl (fun '(ia, n) '(key, val) =>
             if shouldFlush ia elapsed val
             then (emit key val (default "" (commMap !! k_PID key)) ia, S n)
             else (ia, n))
          (ia, 0%nat) (range 1 (map_to_list (agg ia))) in
  (set_lastFlush now ia, flushCount).

Definition SetFlushInterval (d : duration) (ia : IOAggregator) : IOAggregator :=
  mkIA (agg ia) d (batchSize ia) (lastFlush ia) (flushed ia) (totalFolded ia) (totalEvents ia).

(** ** Conservation *)

Inductive op :=
  | ORecord (pid : Z) (comm : string) (fd opType bytes : Z) (now : time)
  | OClose (order : MapOrder) (pid fd : Z)
  | OTick (order : MapOrder) (commMap : gmap Z string) (now : time)
  | OInterval (d : duration).

Definition apply_op (ia : IOAggregator) (o : op) : IOAggregator :=
  match o with
  | ORecord pid comm fd t b now => RecordIO pid comm fd t b now ia
  | OClose order pid fd => @OnClose order pid fd ia
  | OTick order m now => fst (@Tick order m now ia)
  | OInterval d => SetFlushInterval d ia
  end.

Definition run (now : time) (ops : list op) : IOAggregator := foldl apply_op (NewIOAggregator now) ops.

Definition event_key (e : AggregateEvent) : AggKey := mkKey (PID e) (FD e) (OpType e).

(** Operations recorded, summarised and still pending for a key; the same in bytes. *)
Definition recorded (key : AggKey) (ops : list op) : list Z :=
  omap (fun o => match o with
                 | ORecord p _ f t b _ => if decide (mkKey p f t = key) then Some b else None
                 | _ => None end) ops.
Definition summarised (key : AggKey) (ia : IOAggregator) : list AggregateEvent :=
  filter (fun e => event_key e = key) (flushed ia).

Definition count_of (key : AggKey) (ia : IOAggregator) : Z :=
  sum (a_Count <$> summarised key ia) + from_option Count 0 (agg ia !! key).
Definition bytes_of (key : AggKey) (ia : IOAggregator) : Z :=
  sum (a_TotalBytes <$> summarised key ia) + from_option TotalBytes 0 (agg ia !! key).

(** Flushing an entry moves its counters from pending to summarised. *)
Lemma emit_conserves key val comm ia k :
  agg ia !! key = Some val ->
  count_of k (emit key val comm ia) = count_of k ia /\ bytes_of k (emit key val comm ia) = bytes_of k ia.
Proof.
  intros Hk. unfold count_of, bytes_of, summarised, emit. simpl.
  rewrite filter_app, filter_cons, filter_nil, lookup_delete. destruct key as [p f o].
  destruct (decide (mkKey p f o = k)) as [<-|Hne].
  - rewrite !decide_True by done. rewrite Hk, !fmap_app, !sum_app. simpl. lia.
  - rewrite !decide_False by done. by rewrite app_nil_r.
Qed.

(** The counters of a state account for [n] recorded operations. *)
Record inv (ops : list op) (ia : IOAggregator) : Prop := {
  i_count : forall k, count_of k ia = Z.of_nat (length (recorded k ops));
  i_bytes : forall k, u64 (bytes_of k ia) = u64 (sum (recorded k ops));
  i_nonneg : map_Forall (fun _ v => 1 <= Count v) (agg ia);
  i_flushed : Forall (fun e => 1 <= a_Count e) (flushed ia);
}.

Definition conserves (ia ia' : IOAggregator) : Prop :=
  (forall k, count_of k ia' = count_of k ia) /\ (forall k, bytes_of k ia' = bytes_of k ia) /\
  (map_Forall (fun _ v => 1 <= Count v) (agg ia) -> Forall (fun e => 1 <= a_Count e) (flushed ia) ->
   map_Forall (fun _ v => 1 <= Count v) (agg ia') /\ Forall (fun e => 1 <= a_Count e) (flushed ia')).

#[global] Instance conserves_preorder : PreOrder conserves.
Proof.
  split.
  - intros ia. by split_and!.
  - intros ia1 ia2 ia3 (A1 & A2 & A3) (B1 & B2 & B3). split_and!.
    + intros k. by rewrite B1.
    + intros k. by rewrite B2.
    + intros H1 H2. destruct (A3 H1 H2). auto.
Qed.

Lemma conserves_emit key val comm ia : agg ia !! key = Some val -> conserves ia (emit key val comm ia).
Proof.
  intros Hk. split_and!; [intros k; by apply emit_conserves|intros k; by apply emit_conserves|].
  intros H1 H2. split.
  - simpl. by apply map_Forall_delete.
  - simpl. apply Forall_app. split; [done|]. constructor; [|done]. simpl. by apply (H1 key).
Qed.

Lemma conserves_flushKey key ia : conserves ia (flushKey key ia).
Proof. unfold flushKey. destruct (agg ia !! key) eqn:Hk; [by apply conserves_emit|done]. Qed.

Lemma conserves_close `{MapOrder} pid fd ia : conserves ia (OnClose pid fd ia).
Proof.
  unfold OnClose. generalize (filter (fun key => k_PID key = pid /\ k_FD key = fd)
    (range 0 (map_to_list (agg ia))).*1) as ks. intros ks. revert ia.
  induction ks as [|k ks IH]; intros ia; simpl; [done|]. etrans; [apply conserves_flushKey|apply IH].
Qed.

Lemma conserves_tick `{MapOrder} m now ia : conserves ia (fst (Tick m now ia)).
Proof.
  unfold Tick. set (elapsed := time_Sub now (lastFlush ia)).
  set (l := range 1 (map_to_list (agg ia))). set (f := fun '(ia, n) '(key, val) => _).
  assert (forall ia0 n, NoDup l.*1 -> (forall k v, (k, v) ∈ l -> agg ia0 !! k = Some v) ->
    conserves ia0 (fst (foldl f (ia0, n) l))) as Hgo.
  { clearbody l. induction l as [|[k v] l IH]; intros ia0 n Hnd Hl; simpl; [done|].
    simpl in Hnd. apply NoDup_cons in Hnd as [Hk Hnd]. destruct (shouldFlush ia0 elapsed v).
    - etrans; [apply (conserves_emit k v), Hl; by left|]. apply IH; [done|].
      intros k' v' Hin. simpl. rewrite lookup_delete_ne; [apply Hl; by right|].
      intros ->. apply Hk. by apply (list_elem_of_fmap_2 fst l (k', v')).
    - apply IH; [done|]. intros k' v' Hin. apply Hl. by right. }
  specialize (Hgo ia 0%nat).
  destruct (foldl f (ia, 0%nat) l) as [ia' n]. apply Hgo; subst l.
  - rewrite range_perm. apply NoDup_fst_map_to_list.
  - intros k v Hin. apply elem_of_range in Hin. by apply elem_of_map_to_list.
Qed.

Lemma recorded_app k ops o : recorded k (ops ++ [o]) = recorded k ops ++ recorded k [o].
Proof. apply omap_app. Qed.

Lemma u64_add_l a b : u64 (u64 a + b) = u64 (a + b).
Proof. unfold u64. by rewrite Zplus_mod_idemp_l. Qed.
Lemma u64_add_r a b : u64 (a + u64 b) = u64 (a + b).
Proof. unfold u64. by rewrite Zplus_mod_idemp_r. Qed.

Lemma length_recorded k ops : (length (recorded k ops) <= length ops)%nat.
Proof. apply length_omap_le. Qed.

Lemma recorded_one k pid comm fd t b now :
  recorded k [ORecord pid comm fd t b now] = if decide (mkKey pid fd t = k) then [b] else [].
Proof. unfold recorded. simpl. by case_decide. Qed.

Lemma pending_bound ops ia k v :
  inv ops ia -> agg ia !! k = Some v -> 1 <= Count v <= Z.of_nat (length ops).
Proof.
  intros Hi Hk. pose proof (i_count ops ia Hi k) as Hc. unfold count_of in Hc. rewrite Hk in Hc. cbn [from_option] in Hc.
  assert (0 <= sum (a_Count <$> summarised k ia)).
  { apply sum_nonneg, Forall_fmap, Forall_forall. intros e [_ He]%list_elem_of_filter. cbn.
    pose proof (i_flushed ops ia Hi) as Hf. rewrite Forall_forall in Hf. specialize (Hf e He). lia. }
  pose proof (i_nonneg ops ia Hi k v Hk) as Hn. cbn beta in Hn. pose proof (length_recorded k ops). lia.
Qed.

Lemma inv_record ops ia pid comm fd t b now :
  inv ops ia -> Z.of_nat (length ops) < MaxInt64 ->
  inv (ops ++ [ORecord pid comm fd t b now]) (RecordIO pid comm fd t b now ia).
Proof.
  intros Hi Hl. set (key := mkKey pid fd t).
  assert (forall k, summarised k (RecordIO pid comm fd t b now ia) = summarised k ia) as Hsum by done.
  split.
  - intros k. rewrite recorded_app, length_app. unfold count_of. rewrite Hsum. simpl. fold key.
    pose proof (i_count ops ia Hi k) as Hc. unfold count_of in Hc. rewrite lookup_insert.
    case_decide as Hk; [subst k|simpl; lia]. simpl.
    destruct (agg ia !! key) as [v|] eqn:Hv; simpl in *; [|lia].
    pose proof (pending_bound ops ia key v Hi Hv). unfold MaxInt64 in Hl. rewrite u64_small by lia. lia.
  - intros k. rewrite recorded_app, sum_app, recorded_one. fold key. unfold bytes_of. rewrite Hsum.
    rewrite <-(u64_add_l (sum (recorded k ops))), <-(i_bytes ops ia Hi k), u64_add_l. unfold bytes_of, RecordIO.
    cbn [agg]. fold key. rewrite lookup_insert. case_decide as Hk; [subst k|cbn; f_equal; lia].
    destruct (agg ia !! key) as [v|] eqn:Hv; cbn [from_option TotalBytes sum foldr]; rewrite ?u64_add_r; f_equal; lia.
  - simpl. apply map_Forall_insert_2; [|apply (i_nonneg ops ia Hi)]. fold key.
    destruct (agg ia !! key) as [v|] eqn:Hv; simpl; [|lia].
    pose proof (pending_bound ops ia key v Hi Hv). unfold MaxInt64 in Hl. rewrite u64_small by lia. lia.
  - apply (i_flushed ops ia Hi).
Qed.

Lemma inv_conserves ops ia ia' o :
  inv ops ia -> conserves ia ia' -> (forall k, recorded k [o] = []) -> inv (ops ++ [o]) ia'.
Proof.
  intros Hi (H1 & H2 & H3) Ho. destruct H3 as [H3 H4]; [apply (i_nonneg ops ia Hi)|apply (i_flushed ops ia Hi)|].
  split; [..|done|done]; intros k; rewrite recorded_app, Ho, app_nil_r.
  - rewrite H1. apply Hi.
  - rewrite H2. apply Hi.
Qed.

Lemma ioagg_run_inv now ops : Z.of_nat (length ops) < MaxInt64 -> inv ops (run now ops).
Proof.
  unfold run. induction ops as [|o ops IH] using rev_ind; intros Hl.
  { split; [intros; done|intros; done|apply map_Forall_empty|constructor]. }
  rewrite length_app in Hl. simpl in Hl. rewrite foldl_app. simpl.
  assert (inv ops (foldl apply_op (NewIOAggregator now) ops)) as Hi by (apply IH; lia).
  destruct o as [pid comm fd t b n|order pid fd|order m n|d]; simpl.
  - apply inv_record; [done|lia].
  - eapply inv_conserves; [done|apply conserves_close|done].
  - eapply inv_conserves; [done|apply conserves_tick|done].
  - eapply inv_conserves; [done|by split_and!|done].
Qed.

(** I/O aggregation loses nothing.  After any sequence of recorded operations,
    closes, timer ticks and interval changes, for any map iteration orders and for
    every process, descriptor and direction: the operation counts of the emitted
    summaries plus the pending count equal the number of operations recorded, and
    the byte totals agree modulo 2^64. *)
Lemma ioagg_conserves (now : time) (ops : list op) (key : AggKey) :
  Z.of_nat (length ops) < MaxInt64 ->
  let ia := run now ops in
  sum (a_Count <$> summarised key ia) + from_option Count 0 (agg ia !! key)
    = Z.of_nat (length (recorded key ops)) /\
  u64 (sum (a_TotalBytes <$> summarised key ia) + from_option TotalBytes 0 (agg ia !! key))
    = u64 (sum (recorded key ops)).
Proof. intros Hl ia. destruct (ioagg_run_inv now ops Hl) as [H1 H2 _ _]. split; [apply H1|apply H2]. Qed.

Definition sample_ops : list op :=
  [ORecord 7 "dd" 3 1 512 10; ORecord 7 "dd" 3 1 512 20; ORecord 7 "dd" 3 0 100 20;
   OClose alternating_order 7 3; ORecord 7 "dd" 3 1 4 30; OTick alternating_order ∅ (2 * Second);
   ORecord 7 "dd" 3 1 8 40].

Lemma ioagg_conserves_witness :
  let ia := run 0 sample_ops in
  length (flushed ia) = 3%nat /\
  sum (a_Count <$> summarised (mkKey 7 3 1) ia) + from_option Count 0 (agg ia !! mkKey 7 3 1) = 4.
Proof.
  intros ia. split; [vm_compute; reflexivity|].
  exact (proj1 (ioagg_conserves 0 sample_ops (mkKey 7 3 1) ltac:(done))).
Defined.

(** After a close, nothing of the descriptor is pending. *)
Lemma flush_keys ks ia k :
  agg (foldl (fun ia key => flushKey key ia) ia ks) !! k = if decide (k ∈ ks) then None else agg ia !! k.
Proof.
  revert ia. induction ks as [|k' ks IH]; intros ia; cbn [foldl];
    [by rewrite decide_False by set_solver|].
  rewrite IH. unfold flushKey. destruct (decide (k = k')) as [->|Hne].
  - rewrite (decide_True _ _ (list_elem_of_here k' ks)).
    destruct (agg ia !! k') eqn:Hk; simpl; [rewrite lookup_delete_eq|rewrite Hk]; by case_decide.
  - assert (agg (match agg ia !! k' with Some val => emit k' val "" ia | None => ia end) !! k = agg ia !! k) as ->
      by (destruct (agg ia !! k'); [simpl; by rewrite lookup_delete_ne|done]).
    repeat case_decide; set_solver.
Qed.

(** Closing a descriptor flushes exactly its entries: afterwards nothing is
    pending for it, and the pending counters of every other descriptor are
    untouched, for any map iteration order. *)
Lemma close_flushes `{MapOrder} (pid fd : Z) (ia : IOAggregator) (k : AggKey) :
  agg (OnClose pid fd ia) !! k =
  if decide (k_PID k = pid /\ k_FD k = fd) then None else agg ia !! k.
Proof.
  unfold OnClose. rewrite flush_keys.
  assert (k ∈ filter (fun key => k_PID key = pid /\ k_FD key = fd) (range 0 (map_to_list (agg ia))).*1
          <-> (k_PID k = pid /\ k_FD k = fd) /\ is_Some (agg ia !! k)) as Hin.
  { rewrite list_elem_of_filter, list_elem_of_fmap. setoid_rewrite elem_of_range. split.
    - intros [Hk ([k' v] & -> & Hin)]. split; [done|]. exists v. by apply elem_of_map_to_list.
    - intros [Hk [v Hv]]. split; [done|]. exists (k, v). split; [done|]. by apply elem_of_map_to_list. }
  destruct (decide (k_PID k = pid /\ k_FD k = fd)) as [Hk|Hk]; case_decide as Hd; rewrite Hin in Hd; try done.
  - destruct (agg ia !! k) eqn:E; [|done]. destruct Hd. by eauto.
  - tauto.
Qed.
End IoAgg.
