(* ===== verification/Sha256.v ===== *)
(** * SHA-256, HMAC-SHA-256 and hexadecimal coding
    ([crypto/sha256], [crypto/hmac], [encoding/hex] of the Go standard library).

    The functions of FIPS 180-4 and RFC 2104 on lists of bytes, which the
    integrity components use.  They are checked against published test vectors.
    No property of the hash function is assumed anywhere: theorems about tamper
    evidence exhibit the two inputs that would collide. *)
From S2P Require Import Prelude GoStrings.
From Stdlib Require Import Ascii.

(** ** SHA-256 *)

(** The constants are the first 32 bits of the fractional parts of the cube roots of
    the first 64 primes, and of the square roots of the first 8. *)
Definition is_prime (n : Z) : bool := forallb (fun d => negb (n `mod` d =? 0)) (seqZ 2 (n - 2)).
Definition primes : list Z := List.filter is_prime (seqZ 2 310).

(** The largest [x] below [2 ^ 36] with [x ^ 3 <= n], bit by bit. *)
Definition cube_root (n : Z) : Z :=
  foldl (fun x i => let y := x + 2 ^ i in if y ^ 3 <=? n then y else x) 0 (reverse (seqZ 0 36)).

Definition K256 : list Z := Eval vm_compute in (fun p => u32 (cube_root (p * 2 ^ 96))) <$> primes.
Definition H256 : list Z := Eval vm_compute in (fun p => u32 (Z.sqrt (p * 2 ^ 64))) <$> take 8 primes.

Definition rotr (n x : Z) : Z := u32 (Z.lor (Z.shiftr x n) (Z.shiftl x (32 - n))).
Definition bsig0 (x : Z) : Z := Z.lxor (Z.lxor (rotr 2 x) (rotr 13 x)) (rotr 22 x).
Definition bsig1 (x : Z) : Z := Z.lxor (Z.lxor (rotr 6 x) (rotr 11 x)) (rotr 25 x).
Definition ssig0 (x : Z) : Z := Z.lxor (Z.lxor (rotr 7 x) (rotr 18 x)) (Z.shiftr x 3).
Definition ssig1 (x : Z) : Z := Z.lxor (Z.lxor (rotr 17 x) (rotr 19 x)) (Z.shiftr x 10).
Definition ch (x y z : Z) : Z := Z.lxor (Z.land x y) (Z.land (Z.lxor x 0xffffffff) z).
Definition maj (x y z : Z) : Z := Z.lxor (Z.lxor (Z.land x y) (Z.land x z)) (Z.land y z).

(** Big-endian words. *)
Definition be_bytes (n : nat) (x : Z) : list Z :=
  (fun i => Z.land (Z.shiftr x (8 * i)) 0xff) <$> reverse (seqZ 0 (Z.of_nat n)).
Definition be_word (l : list Z) : Z := foldl (fun acc b => acc * 256 + b) 0 l.

Definition padding (len : nat) : list Z :=
  let k := Z.to_nat ((55 - Z.of_nat len) `mod` 64) in
  0x80 :: replicate k 0 ++ be_bytes 8 (8 * Z.of_nat len).

(** Splits a list into blocks of [n]; the fuel is the length of the list. *)
Fixpoint blocks (fuel n : nat) (l : list Z) : list (list Z) :=
  match fuel, l with
  | O, _ | _, [] => []
  | S fuel, _ => take n l :: blocks fuel n (drop n l)
  end.

(** The message schedule, most recent word first; 48 steps extend 16 words. *)
Fixpoint schedule (fuel : nat) (w : list Z) : list Z :=
  match fuel with
  | O => w
  | S fuel =>
      let at_ i := nth i w 0 in
      schedule fuel (u32 (ssig1 (at_ 1%nat) + at_ 6%nat + ssig0 (at_ 14%nat) + at_ 15%nat) :: w)
  end.

Definition round (st : list Z) (kw : Z * Z) : list Z :=
  match st with
  | [a; b; c; d; e; f; g; h] =>
      let t1 := u32 (h + bsig1 e + ch e f g + kw.1 + kw.2) in
      let t2 := u32 (bsig0 a + maj a b c) in
      [u32 (t1 + t2); a; b; c; u32 (d + t1); e; f; g]
  | _ => st
  end.

Definition compress (st block : list Z) : list Z :=
  let w := reverse (schedule 48 (reverse (be_word <$> blocks 64 4 block))) in
  zip_with (fun x y => u32 (x + y)) st (foldl round st (zip K256 w)).

Definition Sum256 (data : list Z) : list Z :=
  let m := data ++ padding (length data) in
  foldl compress H256 (blocks (length m) 64 m) ≫= be_bytes 4.

(** ** HMAC *)

Definition hmac_sha256 (key data : list Z) : list Z :=
  let key := if (64 <? length key)%nat then Sum256 key else key in
  let key := key ++ replicate (64 - length key) 0 in
  Sum256 ((Z.lxor 0x5c <$> key) ++ Sum256 ((Z.lxor 0x36 <$> key) ++ data)).

(** ** Hexadecimal coding *)

Definition hex_digit (d : Z) : Z := if d <? 10 then 48 + d else 87 + d.
Definition EncodeToString (l : list Z) : string :=
  string_of_bytes (l ≫= fun b => [hex_digit (Z.shiftr b 4); hex_digit (Z.land b 15)]).

Definition from_hex (c : Z) : option Z :=
  if cont 48 57 c then Some (c - 48) else if cont 97 102 c then Some (c - 87)
  else if cont 65 70 c then Some (c - 55) else None.

(** The decoded prefix: [DecodeString] returns the bytes before the first error. *)
Fixpoint decode_hex (l : list Z) : list Z :=
  match l with
  | a :: b :: l =>
      match from_hex a, from_hex b with
      | Some x, Some y => Z.lor (Z.shiftl x 4) y :: decode_hex l
      | _, _ => []
      end
  | _ => []
  end.
Definition DecodeString (s : string) : list Z := decode_hex (bytes_of_string s).

(** ** Test vectors (FIPS 180-4, RFC 4231) *)

Example sha256_empty : EncodeToString (Sum256 []) =
  "e3b0c44298fc1c149afbf4c8996fb92427ae41e4649b934ca495991b7852b855".
Proof. vm_compute. reflexivity. Qed.
Example sha256_abc : EncodeToString (Sum256 (bytes_of_string "abc")) =
  "ba7816bf8f01cfea414140de5dae2223b00361a396177a9cb410ff61f20015ad".
Proof. vm_compute. reflexivity. Qed.
Example sha256_two_blocks :
  EncodeToString (Sum256 (bytes_of_string "abcdbcdecdefdefgefghfghighijhijkijkljklmklmnlmnomnopnopq")) =
  "248d6a61d20638b8e5c026930c3e6039a33ce45964ff2167f6ecedd419db06c1".
Proof. vm_compute. reflexivity. Qed.
Example hmac_case_2 :
  EncodeToString (hmac_sha256 (bytes_of_string "Jefe") (bytes_of_string "what do ya want for nothing?")) =
  "5bdcc146bf60754e6a042426089575c75a003f089d2739839dec58b964ec3843".
Proof. vm_compute. reflexivity. Qed.

(** ** Shape of the results *)

Definition is_byte (b : Z) : Prop := 0 <= b < 256.
#[global] Instance is_byte_dec b : Decision (is_byte b).
Proof. apply and_dec; apply _. Defined.

Lemma be_bytes_ok n x : length (be_bytes n x) = n /\ Forall is_byte (be_bytes n x).
Proof.
  unfold be_bytes. split; [rewrite length_fmap, length_reverse, length_seqZ; lia|].
  apply Forall_fmap, Forall_forall. intros i _. unfold compose, is_byte.
  change 0xff with (Z.ones 8). rewrite Z.land_ones by lia. apply Z.mod_pos_bound. lia.
Qed.

Lemma round_length st kw : length st = 8%nat -> length (round st kw) = 8%nat.
Proof. intros H. do 9 (destruct st as [|? st]; try done). Qed.

Lemma compress_length st block : length st = 8%nat -> length (compress st block) = 8%nat.
Proof.
  intros H. unfold compress. rewrite length_zip_with.
  assert (forall l st, length st = 8%nat -> length (foldl round st l) = 8%nat) as Hf.
  { induction l as [|kw l IH]; intros st' H'; [done|]. simpl. by apply IH, round_length. }
  rewrite Hf by done. lia.
Qed.

Lemma Sum256_ok data : length (Sum256 data) = 32%nat /\ Forall is_byte (Sum256 data).
Proof.
  unfold Sum256. set (bs := blocks _ _ _). clearbody bs.
  assert (forall bs st, length st = 8%nat -> length (foldl compress st bs) = 8%nat) as Hf.
  { induction bs0 as [|b bs0 IH]; intros st H; [done|]. simpl. by apply IH, compress_length. }
  specialize (Hf bs H256 eq_refl). revert Hf. generalize (foldl compress H256 bs). intros st Hst. split.
  - do 9 (destruct st as [|? st]; try done).
  - apply Forall_bind, Forall_forall. intros x _. apply be_bytes_ok.
Qed.

Definition hex_byte (b : Z) : list Z := [hex_digit (Z.shiftr b 4); hex_digit (Z.land b 15)].

(** Checked on all 256 bytes. *)
Lemma hex_byte_table b :
  is_byte b ->
  (exists x y, from_hex (hex_digit (Z.shiftr b 4)) = Some x /\ from_hex (hex_digit (Z.land b 15)) = Some y /\
     Z.lor (Z.shiftl x 4) y = b) /\
  Forall (fun c => is_byte c /\ c <> 58) (hex_byte b).
Proof.
  intros Hb.
  assert (forallb (fun b =>
      match from_hex (hex_digit (Z.shiftr b 4)), from_hex (hex_digit (Z.land b 15)) with
      | Some x, Some y => Z.lor (Z.shiftl x 4) y =? b
      | _, _ => false
      end && bool_decide (Forall (fun c => is_byte c /\ c <> 58) (hex_byte b))) (seqZ 0 256) = true) as Hall
    by (vm_compute; reflexivity).
  rewrite forallb_forall in Hall. specialize (Hall b). rewrite andb_true_iff, bool_decide_eq_true in Hall.
  destruct Hall as [H1 H2]; [apply list_elem_of_In, elem_of_seqZ; unfold is_byte in Hb; lia|].
  split; [|done]. destruct (from_hex _) as [x|], (from_hex _) as [y|]; try done.
  apply Z.eqb_eq in H1. by eauto.
Qed.

Lemma bytes_of_string_of_bytes l : Forall is_byte l -> bytes_of_string (string_of_bytes l) = l.
Proof.
  intros Hl. unfold bytes_of_string, string_of_bytes.
  rewrite String.list_ascii_of_string_of_list_ascii.
  induction Hl as [|b l Hb _ IH]; [done|]. rewrite !fmap_cons, IH. f_equal.
  unfold byteval, byte_ascii, is_byte in *. rewrite N_ascii_embedding by lia. lia.
Qed.

Lemma hex_bytes l : Forall is_byte l -> Forall (fun c => is_byte c /\ c <> 58) (l ≫= hex_byte).
Proof.
  intros Hl. apply Forall_bind. eapply Forall_impl; [exact Hl|]. intros b Hb. by apply hex_byte_table.
Qed.

(** Decoding inverts encoding. *)
Lemma hex_roundtrip l : Forall is_byte l -> DecodeString (EncodeToString l) = l.
Proof.
  intros Hl. unfold DecodeString, EncodeToString. change (l ≫= _) with (l ≫= hex_byte).
  rewrite bytes_of_string_of_bytes
    by (eapply Forall_impl; [by apply hex_bytes|]; simpl; tauto).
  induction Hl as [|b l Hb _ IH]; [done|].
  destruct (hex_byte_table b Hb) as [(x & y & Hx & Hy & Hxy) _].
  change ((b :: l) ≫= hex_byte)
    with (hex_digit (Z.shiftr b 4) :: hex_digit (Z.land b 15) :: (l ≫= hex_byte)).
  cbn [decode_hex]. by rewrite Hx, Hy, Hxy, IH.
Qed.

Lemma hex_inj l l' : Forall is_byte l -> Forall is_byte l' -> EncodeToString l = EncodeToString l' -> l = l'.
Proof. intros H H' Heq. by rewrite <-(hex_roundtrip l H), <-(hex_roundtrip l' H'), Heq. Qed.

(** Hexadecimal text has no colon. *)
Lemma hex_no_colon l : Forall is_byte l -> ":"%char ∉ chars (EncodeToString l).
Proof.
  intros Hl Hin. assert (58 ∈ bytes_of_string (EncodeToString l)) as Hin'.
  { unfold bytes_of_string. by apply (list_elem_of_fmap_2 byteval _ ":"%char). }
  unfold EncodeToString in Hin'. change (l ≫= _) with (l ≫= hex_byte) in Hin'.
  pose proof (hex_bytes l Hl) as Hb. rewrite bytes_of_string_of_bytes in Hin'
    by (eapply Forall_impl; [exact Hb|]; simpl; tauto).
  rewrite Forall_forall in Hb. apply Hb in Hin'. tauto.
Qed.
