(* ===== verification/Merkle.v ===== *)
(** * Merkle trees ([pkg/secure/merkle.go]).

    Leaves and inner nodes are byte lists; levels are lists of nodes.  An odd node
    at the end of a level is promoted unchanged.  The theorems cover proofs of
    inclusion in perfect trees, what such a proof certifies, and the odd case.
    Anchoring (JSON records in a store) and key files are not modelled. *)
From S2P Require Import Prelude GoStrings Sha256.

#[global] Arguments Sum256 : simpl never.

Module Merkle.

Abbreviation bytes := (list Z).

Record MerkleTree := mkTree { leaves : list bytes; nodes : list (list bytes); rootHash : option bytes }.

Definition NewMerkleTree : MerkleTree := mkTree [] [] None.

Definition HashEvent (data : bytes) : bytes := Sum256 data.

(** One level up: [for i := 0; i < len(current); i += 2]. *)
Fixpoint pair_up (current : list bytes) : list bytes :=
  match current with
  | a :: b :: rest => Sum256 (a ++ b) :: pair_up rest
  | [a] => [a]
  | [] => []
  end.

(** [for len(current) > 1]: the levels above and including [current], and the last
    one.  The number of leaves is enough fuel. *)
Fixpoint build (fuel : nat) (current : list bytes) : list (list bytes) * list bytes :=
  match fuel, current with
  | S fuel, _ :: _ :: _ =>
      let '(levels, top) := build fuel (pair_up current) in (current :: levels, top)
  | _, _ => ([current], current)
  end.

Definition rebuild (mt : MerkleTree) : MerkleTree :=
  if bool_decide (leaves mt = []) then mkTree (leaves mt) [] None
  else
    let '(levels, top) := build (length (leaves mt)) (leaves mt) in
    mkTree (leaves mt) levels (match top with [r] => Some r | _ => rootHash mt end).

Definition AddLeaf (hash : bytes) (mt : MerkleTree) : MerkleTree :=
  rebuild (mkTree (leaves mt ++ [hash]) (nodes mt) (rootHash mt)).

Definition Root (mt : MerkleTree) : option bytes := rootHash mt.

Definition RootHex (mt : MerkleTree) : string :=
  match Root mt with
  | None => "0000000000000000000000000000000000000000000000000000000000000000"
  | Some r => EncodeToString r
  end.

Definition LeafCount (mt : MerkleTree) : nat := length (leaves mt).

(** The loop over [level < len(mt.nodes)-1]. *)
Fixpoint proof_loop (levels : list (list bytes)) (currentIdx : nat) : list bytes :=
  match levels with
  | [] => []
  | level :: rest =>
      if bool_decide (rest = []) then []
      else
        let siblingIdx := if Nat.even currentIdx then S currentIdx else pred currentIdx in
        (match level !! siblingIdx with Some s => [s] | None => [] end)
        ++ proof_loop rest (currentIdx / 2)
  end.

Inductive proof_error := OutOfRange (idx : Z).

Definition Proof_ (idx : Z) (mt : MerkleTree) : proof_error + list bytes :=
  if (idx <? 0) || (Z.of_nat (length (leaves mt)) <=? idx) then inl (OutOfRange idx)
  else inr (proof_loop (nodes mt) (Z.to_nat idx)).

(** The hash computed by the verification loop; Go's [%] and [/] truncate. *)
Fixpoint fold_proof (current : bytes) (proof : list bytes) (currentIdx : Z) : bytes :=
  match proof with
  | [] => current
  | sibling :: proof =>
      let combined := if Z.rem currentIdx 2 =? 0 then current ++ sibling else sibling ++ current in
      fold_proof (Sum256 combined) proof (Z.quot currentIdx 2)
  end.

Definition VerifyProof (leaf : bytes) (proof : list bytes) (idx : Z) (expectedRoot : bytes) : bool :=
  bool_decide (fold_proof leaf proof idx = expectedRoot).

(** A tree built by adding leaves one by one. *)
Definition of_leaves (ls : list bytes) : MerkleTree := foldl (fun mt l => AddLeaf l mt) NewMerkleTree ls.

(** ** Levels *)

(** Induction on lists two elements at a time. *)
Lemma pairs_ind (P : list bytes -> Prop) :
  P [] -> (forall a, P [a]) -> (forall a b l, P l -> P (a :: b :: l)) -> forall l, P l.
Proof.
  intros H0 H1 H2. fix IH 1. intros [|a [|b l]]; [done|done|]. apply H2, IH.
Qed.

Lemma length_pair_up l : length (pair_up l) = Nat.div2 (S (length l)).
Proof. induction l as [| |a b l IH] using pairs_ind; [done|done|]. simpl in *. by rewrite IH. Qed.

Lemma build_fuel fuel l :
  l <> [] -> (length l <= S fuel)%nat ->
  exists levels r, build fuel l = (levels ++ [[r]], [r]) /\ head (levels ++ [[r]]) = Some l.
Proof.
  revert l. induction fuel as [|fuel IH]; intros [|a [|b l]] Hne Hl; try done; try (simpl in Hl; lia).
  - by exists [], a.
  - by exists [], a.
  - cbn [build]. destruct (IH (pair_up (a :: b :: l))) as (levels & r & -> & _).
    + done.
    + rewrite length_pair_up. cbn [length] in *.
      change (Nat.div2 (S (S (S (length l))))) with (S (Nat.div2 (S (length l)))).
      pose proof (Nat.div2_decr (S (length l)) (length l) ltac:(lia)). lia.
    + by exists ((a :: b :: l) :: levels), r.
Qed.

Lemma of_leaves_leaves ls : leaves (of_leaves ls) = ls.
Proof.
  unfold of_leaves. induction ls as [|l ls IH] using rev_ind; [done|]. rewrite foldl_app. cbn [foldl].
  set (mt := foldl _ _ ls) in *. unfold AddLeaf, rebuild. cbn [leaves]. rewrite IH.
  rewrite bool_decide_eq_false_2 by (by destruct ls). by destruct (build _ _).
Qed.

(** The levels depend only on the leaves; the last level is the root. *)
Lemma of_leaves_spec ls :
  ls <> [] -> exists levels r, build (length ls) ls = (levels ++ [[r]], [r]) /\
    of_leaves ls = mkTree ls (levels ++ [[r]]) (Some r).
Proof.
  intros Hne. destruct (build_fuel (length ls) ls Hne) as (levels & r & Hb & _); [lia|].
  exists levels, r. split; [done|].
  destruct ls as [|l ls _] using rev_ind; [done|].
  pose proof (of_leaves_leaves ls) as Hl. unfold of_leaves in *. rewrite foldl_app. cbn [foldl].
  set (mt := foldl _ _ ls) in *. unfold AddLeaf, rebuild. cbn [leaves rootHash]. rewrite Hl, Hb.
  rewrite bool_decide_eq_false_2 by done. done.
Qed.

(** ** Perfect trees *)

Lemma pair_up_lookup l j a b :
  l !! (2 * j)%nat = Some a -> l !! S (2 * j) = Some b -> pair_up l !! j = Some (Sum256 (a ++ b)).
Proof.
  revert j. induction l as [|x|x y l IH] using pairs_ind; intros j Ha Hb; [done| |].
  - destruct j; simpl in *; done.
  - destruct j as [|j]; [simpl in *; by simplify_eq|].
    replace (2 * S j)%nat with (S (S (2 * j))) in * by lia. apply (IH j Ha Hb).
Qed.

Lemma length_pair_up_pow k l : length l = (2 ^ S k)%nat -> length (pair_up l) = (2 ^ k)%nat.
Proof.
  intros Hl. rewrite length_pair_up, Hl. rewrite Nat.pow_succ_r', Nat.div2_succ_double. done.
Qed.

(** The levels of a perfect tree, by its height. *)
Fixpoint perfect (k : nat) (l : list bytes) : list (list bytes) :=
  match k with
  | O => [l]
  | S k => l :: perfect k (pair_up l)
  end.

Lemma build_perfect k fuel l :
  length l = (2 ^ k)%nat -> (2 ^ k <= S fuel)%nat -> fst (build fuel l) = perfect k l.
Proof.
  revert fuel l. induction k as [|k IH]; intros fuel l Hl Hf.
  - destruct l as [|a [|b l]]; try done. by destruct fuel.
  - pose proof (length_pair_up_pow k l Hl) as Hp. rewrite Nat.pow_succ_r' in Hl, Hf.
    assert (2 ^ k <> 0)%nat by (apply Nat.pow_nonzero; lia).
    destruct l as [|a [|b l]]; [simpl in Hl; lia..|]. destruct fuel as [|fuel]; [lia|].
    cbn [build perfect]. specialize (IH fuel (pair_up (a :: b :: l)) Hp ltac:(lia)).
    destruct (build fuel (pair_up (a :: b :: l))) as [levels top]. simpl in *. by f_equal.
Qed.

Lemma perfect_cons k l : exists rest, perfect k l = l :: rest.
Proof. destruct k; simpl; by eexists. Qed.

Definition top (levels : list (list bytes)) : option bytes :=
  match last levels with Some [r] => Some r | _ => None end.

Lemma top_perfect k l : top (perfect (S k) l) = top (perfect k (pair_up l)).
Proof. simpl. destruct (perfect_cons k (pair_up l)) as [rest ->]. done. Qed.

(** The position of an index in its pair. *)
Lemma pair_position i :
  (Nat.even i = true /\ i = 2 * (i / 2))%nat \/ (Nat.even i = false /\ i = S (2 * (i / 2)))%nat.
Proof.
  pose proof (Nat.div_mod_eq i 2) as Hd. pose proof (Nat.mod_upper_bound i 2 ltac:(lia)).
  destruct (Nat.even i) eqn:He; [left|right]; (split; [done|]).
  - apply Nat.even_spec in He as [m ->]. rewrite Nat.mul_comm, Nat.div_mul by lia. lia.
  - assert (Nat.odd i = true) as Ho by (by rewrite <-Nat.negb_even, He).
    apply Nat.odd_spec in Ho as [m ->].
    replace (2 * m + 1)%nat with (1 + m * 2)%nat by lia. rewrite Nat.div_add by lia. simpl. lia.
Qed.

Lemma idx_step i : (Z.rem (Z.of_nat i) 2 =? 0) = Nat.even i /\ Z.quot (Z.of_nat i) 2 = Z.of_nat (i / 2).
Proof.
  rewrite Z.rem_mod_nonneg, Z.quot_div_nonneg by lia. split; [|by rewrite Nat2Z.inj_div].
  destruct (pair_position i) as [[-> Hi]|[-> Hi]]; rewrite Hi.
  - replace (Z.of_nat (2 * (i / 2))) with (Z.of_nat (i / 2) * 2) by lia. by rewrite Z.mod_mul.
  - replace (Z.of_nat (S (2 * (i / 2)))) with (1 + Z.of_nat (i / 2) * 2) by lia. by rewrite Z.mod_add.
Qed.

(** The two nodes of a pair on a perfect level, and the node above them. *)
Lemma perfect_pair k l i x :
  length l = (2 ^ S k)%nat -> l !! i = Some x ->
  exists s, l !! (if Nat.even i then S i else pred i) = Some s /\
    pair_up l !! (i / 2)%nat = Some (Sum256 (if Nat.even i then x ++ s else s ++ x)).
Proof.
  intros Hl Hx. pose proof (lookup_lt_Some _ _ _ Hx) as Hlt. rewrite Hl, Nat.pow_succ_r' in Hlt.
  destruct (pair_position i) as [[-> Hi]|[-> Hi]].
  - destruct (lookup_lt_is_Some_2 l (S i)) as [s Hs]; [rewrite Hl, Nat.pow_succ_r'; lia|].
    exists s. split; [done|]. apply pair_up_lookup; by rewrite <-Hi.
  - destruct (lookup_lt_is_Some_2 l (pred i)) as [s Hs]; [rewrite Hl, Nat.pow_succ_r'; lia|].
    exists s. split; [done|]. apply pair_up_lookup; [|by rewrite <-Hi].
    rewrite <-Hs. f_equal. lia.
Qed.

Lemma proof_loop_perfect k l i :
  proof_loop (perfect (S k) l) i =
    (match l !! (if Nat.even i then S i else pred i) with Some s => [s] | None => [] end)
    ++ proof_loop (perfect k (pair_up l)) (i / 2).
Proof. cbn [perfect proof_loop]. destruct (perfect_cons k (pair_up l)) as [rest ->]. done. Qed.

(** The proof of a leaf of a perfect tree has one sibling per level and folds to the root. *)
Lemma proof_folds k l i leaf r :
  length l = (2 ^ k)%nat -> l !! i = Some leaf -> top (perfect k l) = Some r ->
  fold_proof leaf (proof_loop (perfect k l) i) (Z.of_nat i) = r /\
  length (proof_loop (perfect k l) i) = k.
Proof.
  revert l i leaf. induction k as [|k IH]; intros l i leaf Hl Hi Ht.
  - destruct l as [|a [|b l]]; try done. destruct i; [|done]. injection Hi as <-. by injection Ht as <-.
  - rewrite top_perfect in Ht. destruct (perfect_pair k l i leaf Hl Hi) as (s & Hs & Hp).
    destruct (IH _ _ _ (length_pair_up_pow k l Hl) Hp Ht) as [Hf Hn].
    rewrite proof_loop_perfect, Hs. cbn [app fold_proof length].
    destruct (idx_step i) as [-> ->]. by rewrite Hf, Hn.
Qed.

Lemma of_leaves_perfect k ls :
  length ls = (2 ^ k)%nat ->
  exists r, top (perfect k ls) = Some r /\ of_leaves ls = mkTree ls (perfect k ls) (Some r).
Proof.
  intros Hl. assert (2 ^ k <> 0)%nat by (apply Nat.pow_nonzero; lia).
  destruct (of_leaves_spec ls) as (levels & r & Hb & ->); [by destruct ls|].
  pose proof (build_perfect k (length ls) ls Hl ltac:(lia)) as Hp. rewrite Hb in Hp. simpl in Hp.
  exists r. rewrite <-Hp. split; [|done]. unfold top. by rewrite last_snoc.
Qed.

(** Inclusion proofs are complete on perfect trees: in a tree of [2^k] leaves,
    [Proof] succeeds for every leaf, returns one sibling per level, and
    [VerifyProof] accepts it against the tree's root. *)
Lemma merkle_complete (k : nat) (ls : list bytes) (i : nat) (leaf : bytes) :
  length ls = (2 ^ k)%nat -> ls !! i = Some leaf ->
  exists root proof, Root (of_leaves ls) = Some root /\
    Proof_ (Z.of_nat i) (of_leaves ls) = inr proof /\ length proof = k /\
    VerifyProof leaf proof (Z.of_nat i) root = true.
Proof.
  intros Hl Hi. destruct (of_leaves_perfect k ls Hl) as (r & Ht & ->).
  destruct (proof_folds k ls i leaf r Hl Hi Ht) as [Hf Hn].
  exists r, (proof_loop (perfect k ls) i). split; [done|]. split; [|split; [done|]].
  - unfold Proof_. cbn [leaves nodes]. rewrite Nat2Z.id. apply lookup_lt_Some in Hi.
    by replace ((Z.of_nat i <? 0) || (Z.of_nat (length ls) <=? Z.of_nat i)) with false by lia.
  - unfold VerifyProof. by apply bool_decide_eq_true.
Qed.

(** ** What an accepted proof certifies *)

(** The strings hashed while building a level from the one below, and in the whole tree. *)
Fixpoint level_inputs (l : list bytes) : list bytes :=
  match l with
  | a :: b :: l => (a ++ b) :: level_inputs l
  | _ => []
  end.

Fixpoint tree_inputs (k : nat) (l : list bytes) : list bytes :=
  match k with
  | O => []
  | S k => level_inputs l ++ tree_inputs k (pair_up l)
  end.

(** The strings hashed by [VerifyProof]. *)
Fixpoint verify_inputs (current : bytes) (proof : list bytes) (currentIdx : Z) : list bytes :=
  match proof with
  | [] => []
  | sibling :: proof =>
      let combined := if Z.rem currentIdx 2 =? 0 then current ++ sibling else sibling ++ current in
      combined :: verify_inputs (Sum256 combined) proof (Z.quot currentIdx 2)
  end.

Lemma level_inputs_elem l j a b :
  l !! (2 * j)%nat = Some a -> l !! S (2 * j) = Some b -> (a ++ b) ∈ level_inputs l.
Proof.
  revert j. induction l as [|x|x y l IH] using pairs_ind; intros j Ha Hb; [done| |].
  - destruct j; simpl in *; done.
  - cbn [level_inputs]. destruct j as [|j]; [simpl in *; simplify_eq; by left|].
    replace (2 * S j)%nat with (S (S (2 * j))) in * by lia. right. apply (IH j Ha Hb).
Qed.

Lemma pair_input i l x s :
  l !! i = Some x -> l !! (if Nat.even i then S i else pred i) = Some s ->
  (if Nat.even i then x ++ s else s ++ x) ∈ level_inputs l.
Proof.
  destruct (pair_position i) as [[-> Hi]|[-> Hi]]; intros Hx Hs; apply (level_inputs_elem _ (i / 2)).
  - by rewrite <-Hi.
  - by rewrite <-Hi.
  - rewrite <-Hs. f_equal. lia.
  - by rewrite <-Hi.
Qed.

Lemma pair_up_length32 k l :
  length l = (2 ^ S k)%nat -> Forall (fun n => length n = 32%nat) (pair_up l).
Proof.
  intros Hl. assert (Nat.even (length l) = true) as He by (rewrite Hl, Nat.pow_succ_r'; apply Nat.even_even).
  clear Hl. induction l as [|x|x y l IH] using pairs_ind; [constructor|done|].
  cbn [pair_up]. constructor; [apply Sum256_ok|]. by apply IH.
Qed.

(** Two strings with the same digest, one hashed by the tree and one by the verifier. *)
Definition collision (xs ys : list bytes) : Prop :=
  exists x y, x ∈ xs /\ y ∈ ys /\ x <> y /\ Sum256 x = Sum256 y.

Lemma collision_mono xs xs' ys ys' : xs ⊆ xs' -> ys ⊆ ys' -> collision xs ys -> collision xs' ys'.
Proof. intros ? ? (x & y & ? & ? & ? & ?). exists x, y. set_solver. Qed.

Lemma fold_sound k l i leaf leaf' proof r :
  length l = (2 ^ k)%nat -> l !! i = Some leaf -> top (perfect k l) = Some r ->
  Forall (fun n => length n = 32%nat) l -> length leaf' = 32%nat ->
  Forall (fun n => length n = 32%nat) proof -> length proof = k ->
  fold_proof leaf' proof (Z.of_nat i) = r ->
  (leaf' = leaf /\ proof = proof_loop (perfect k l) i) \/
  collision (tree_inputs k l) (verify_inputs leaf' proof (Z.of_nat i)).
Proof.
  revert l i leaf leaf' proof. induction k as [|k IH]; intros l i leaf leaf' proof Hl Hi Ht H32 Hl' Hp Hn Hf.
  - left. destruct proof; [|done]. destruct l as [|a [|b l]]; try done. destruct i; [|done].
    injection Hi as <-. by injection Ht as <-.
  - destruct proof as [|s' proof]; [done|]. rewrite top_perfect in Ht.
    destruct (perfect_pair k l i leaf Hl Hi) as (s & Hs & Hup). inversion_clear Hp as [|?? Hs' Hp'].
    rewrite proof_loop_perfect, Hs.
    cbn [fold_proof verify_inputs tree_inputs] in *. destruct (idx_step i) as [Hr Hq]. rewrite Hr, Hq in *.
    destruct (IH _ _ _ _ proof (length_pair_up_pow k l Hl) Hup Ht (pair_up_length32 k l Hl)
                (proj1 (Sum256_ok _)) Hp' ltac:(by injection Hn) Hf) as [[Heq ->]|Hc].
    + destruct (decide ((if Nat.even i then leaf' ++ s' else s' ++ leaf') =
                        (if Nat.even i then leaf ++ s else s ++ leaf))) as [E|E].
      * left. rewrite Forall_forall in H32.
        pose proof (H32 _ (list_elem_of_lookup_2 _ _ _ Hi)). pose proof (H32 _ (list_elem_of_lookup_2 _ _ _ Hs)).
        destruct (Nat.even i); apply app_inj_1 in E as [? ?]; try congruence; by subst.
      * right. do 2 eexists. split; [apply elem_of_app; left; exact (pair_input i l leaf s Hi Hs)|].
        split; [by left|]. split; [by apply not_eq_sym|done].
    + right. eapply collision_mono; [..|exact Hc]; set_solver.
Qed.

(** [C9] Inclusion proofs are sound on perfect trees: if [VerifyProof] accepts a
    32-byte value at the position of a leaf, with a proof of one 32-byte sibling per
    level, against the root of a tree of [2^k] 32-byte leaves, then the value is that
    leaf and the proof is the one [Proof] returns; otherwise the accepted run exhibits
    a SHA-256 collision between a string hashed when the tree was built and one hashed
    by the verifier. *)
Theorem merkle_sound (k : nat) (ls : list bytes) (i : nat) (leaf leaf' root : bytes) (proof : list bytes) :
  length ls = (2 ^ k)%nat -> Forall (fun n => length n = 32%nat) ls -> ls !! i = Some leaf ->
  Root (of_leaves ls) = Some root ->
  length leaf' = 32%nat -> Forall (fun n => length n = 32%nat) proof -> length proof = k ->
  VerifyProof leaf' proof (Z.of_nat i) root = true ->
  (leaf' = leaf /\ Proof_ (Z.of_nat i) (of_leaves ls) = inr proof) \/
  collision (tree_inputs k ls) (verify_inputs leaf' proof (Z.of_nat i)).
Proof.
  intros Hl H32 Hi Hroot Hl' Hp Hn Hv. destruct (of_leaves_perfect k ls Hl) as (r & Ht & Htree).
  rewrite Htree in *. cbn [Root rootHash] in Hroot. injection Hroot as <-.
  apply bool_decide_eq_true in Hv.
  destruct (fold_sound k ls i leaf leaf' proof r) as [[-> ->]|Hc]; try done; [left|by right].
  split; [done|]. unfold Proof_. cbn [leaves nodes]. rewrite Nat2Z.id. apply lookup_lt_Some in Hi.
  by replace ((Z.of_nat i <? 0) || (Z.of_nat (length ls) <=? Z.of_nat i)) with false by lia.
Qed.

(** ** Witnesses *)

(** The hashes of four one-letter events. *)
Definition sample : list bytes := HashEvent <$> [[97]; [98]; [99]; [100]].

Lemma merkle_complete_witness :
  exists root proof, Root (of_leaves sample) = Some root /\
    Proof_ 2 (of_leaves sample) = inr proof /\ length proof = 2%nat /\
    VerifyProof (HashEvent [99]) proof 2 root = true.
Proof. apply (merkle_complete 2 sample 2 (HashEvent [99])); reflexivity. Defined.

(** Elaborated once, so that the terms below stay small. *)
Definition sample_root : bytes := Eval vm_compute in default [] (Root (of_leaves sample)).
Definition sample_proof : list bytes :=
  Eval vm_compute in match Proof_ 2 (of_leaves sample) with inr p => p | inl _ => [] end.

Lemma merkle_sound_witness :
  VerifyProof (HashEvent [99]) sample_proof 2 sample_root = true /\
  ((HashEvent [99] = HashEvent [99] /\ Proof_ 2 (of_leaves sample) = inr sample_proof) \/
   collision (tree_inputs 2 sample) (verify_inputs (HashEvent [99]) sample_proof 2)).
Proof.
  split; [vm_compute; reflexivity|].
  apply (merkle_sound 2 sample 2 (HashEvent [99]) (HashEvent [99]) sample_root sample_proof).
  - reflexivity.
  - repeat constructor; apply Sum256_ok.
  - reflexivity.
  - vm_compute; reflexivity.
  - apply Sum256_ok.
  - repeat constructor.
  - reflexivity.
  - vm_compute; reflexivity.
Defined.

(** ** Odd levels *)

(** Inclusion proofs are not complete on other trees: with three leaves, the third
    is promoted without a sibling, [Proof] leaves that level out, and [VerifyProof]
    then hashes the pair in the wrong order.  For the hashes of the events [a], [b],
    [c], the proof the tree gives for the third leaf is rejected against its own root. *)
Lemma merkle_odd_fails (la lb lc : bytes) :
  Proof_ 2 (of_leaves [la; lb; lc]) = inr [Sum256 (la ++ lb)] /\
  Root (of_leaves [la; lb; lc]) = Some (Sum256 (Sum256 (la ++ lb) ++ lc)) /\
  (forall root, VerifyProof lc [Sum256 (la ++ lb)] 2 root = true <->
     root = Sum256 (lc ++ Sum256 (la ++ lb))) /\
  Sum256 (HashEvent [99] ++ Sum256 (HashEvent [97] ++ HashEvent [98])) <>
    Sum256 (Sum256 (HashEvent [97] ++ HashEvent [98]) ++ HashEvent [99]).
Proof.
  split; [reflexivity|]. split; [reflexivity|]. split.
  - intros root. unfold VerifyProof. rewrite bool_decide_eq_true. simpl. split; congruence.
  - vm_compute. congruence.
Qed.
End Merkle.
