(* ===== verification/Chain.v ===== *)
(** * The hash chain of events ([internal/engine/chain]: [chain.go], [verify.go]).

    A record stores the digest of its event and of the record before it.  [Add]
    appends a record; [VerifyChain] and [Verify] re-compute the digests of a whole
    store.  The clock and the random source are inputs.  A store is a value: the
    mutex makes every method atomic.  Anchoring to [/dev/kmsg] and the network
    ([anchor.go]) is input and output and is not modelled. *)
From S2P Require Import Prelude GoStrings Sha256 Merkle.
From Stdlib Require Import Ascii.

#[global] Arguments hmac_sha256 : simpl never.

Module Chain.

Record ChainRecord := mkRecord {
  Index : Z;
  Timestamp : Z;
  EventType : Z;
  DataHash : string;
  PrevHash : string;
  ChainHash : string;
  HMAC : string;
}.

#[global] Instance ChainRecord_eq_dec : EqDecision ChainRecord.
Proof. solve_decision. Defined.

Record ChainStore := mkStore { records : list ChainRecord; prevHash : string; hmacKey : list Z }.

(** [rand] is the result of [rand.Read] on 32 bytes, [None] on an error; [now] is the
    time in nanoseconds used by the fallback key. *)
Definition NewChainStore (rand : option (list Z)) (now : Z) : ChainStore :=
  let key := match rand with
             | Some key => key
             | None => Sum256 (bytes_of_string ("providapt-fallback-" +:+ pretty now))
             end in
  mkStore [] "" key.

(** [fmt.Sprintf("%d:%d:%s:%s", rec.Index, rec.Timestamp, rec.DataHash, rec.PrevHash)]. *)
Definition chainInput (rec : ChainRecord) : string :=
  pretty (Index rec) +:+ ":" +:+ pretty (Timestamp rec) +:+ ":" +:+ DataHash rec +:+ ":" +:+ PrevHash rec.

Definition sum_hex (s : string) : string := EncodeToString (Sum256 (bytes_of_string s)).
Definition mac_hex (key : list Z) (s : string) : string :=
  EncodeToString (hmac_sha256 key (bytes_of_string s)).

(** [now] is [time.Now().UnixNano()]. *)
Definition Add (eventType : Z) (data : list Z) (now : Z) (cs : ChainStore) : ChainRecord * ChainStore :=
  let rec := mkRecord (Z.of_nat (length (records cs)) + 1) now eventType
               (EncodeToString (Sum256 data)) (prevHash cs) "" "" in
  let chainHash := sum_hex (chainInput rec) in
  let rec := mkRecord (Index rec) (Timestamp rec) (EventType rec) (DataHash rec) (PrevHash rec)
               chainHash (mac_hex (hmacKey cs) chainHash) in
  (rec, mkStore (records cs ++ [rec]) (ChainHash rec) (hmacKey cs)).

Definition verifyRecord (cs : ChainStore) (rec : ChainRecord) : bool :=
  let expectedHMAC := mac_hex (hmacKey cs) (ChainHash rec) in
  if negb (bool_decide (HMAC rec = expectedHMAC)) then false
  else bool_decide (ChainHash rec = sum_hex (chainInput rec)).

Definition VerifyRecord (cs : ChainStore) (rec : ChainRecord) : bool :=
  let expectedHMAC := mac_hex (hmacKey cs) (ChainHash rec) in
  if negb (bool_decide (HMAC rec = expectedHMAC)) then false
  else bool_decide (ChainHash rec = sum_hex (chainInput rec)).

(** [i > 0 && rec.PrevHash != cs.records[i-1].ChainHash]. *)
Definition unlinked (cs : ChainStore) (i : nat) (rec : ChainRecord) : bool :=
  (0 <? i)%nat && negb (bool_decide (Some (PrevHash rec) = ChainHash <$> records cs !! pred i)).

(** The loop of [VerifyChain] from index [i]. *)
Fixpoint verify_from (cs : ChainStore) (i : nat) (rest : list ChainRecord) : bool * nat :=
  match rest with
  | [] => (true, length (records cs))
  | rec :: rest =>
      if negb (verifyRecord cs rec) then (false, i)
      else if unlinked cs i rec then (false, i)
      else verify_from cs (S i) rest
  end.

Definition VerifyChain (cs : ChainStore) : bool * nat := verify_from cs 0 (records cs).

Definition LatestHash (cs : ChainStore) : string :=
  match last (records cs) with
  | None => "0000000000000000000000000000000000000000"
  | Some rec => ChainHash rec
  end.

(** [for len(hashes) > 1]: pairwise reduction; the number of hashes is enough fuel. *)
Fixpoint reduce (fuel : nat) (hashes : list (list Z)) : list (list Z) :=
  match fuel, hashes with
  | S fuel, _ :: _ :: _ => reduce fuel (Merkle.pair_up hashes)
  | _, _ => hashes
  end.

Definition RootHash (cs : ChainStore) : string :=
  if bool_decide (records cs = []) then EncodeToString (Sum256 [])
  else
    let hashes := (fun rec => DecodeString (ChainHash rec)) <$> records cs in
    match reduce (length hashes) hashes with
    | h :: _ => EncodeToString h
    | [] => ""
    end.

Definition Count (cs : ChainStore) : nat := length (records cs).

(** ** The integrity report *)

Record VerifyReport := mkReport {
  TotalRecords : nat;
  ChainIntact : bool;
  HMACValid : bool;
  Gaps : Z;
  Breakpoints : list Z;
  FirstRecord : string;
  LatestRecord : string;
  AnchorsFound : Z;
  AnchorsMatched : Z;
  Issues : list string;
}.

(** The part of the report the loop changes: gaps, breakpoints, issues and [allHMACValid]. *)
Record progress := mkProgress { gaps : Z; breaks : list Z; issues : list string; allHMACValid : bool }.

Definition check_step (cs : ChainStore) (i : nat) (rec : ChainRecord) (p : progress) : progress :=
  let p :=
    if bool_decide (HMAC rec = mac_hex (hmacKey cs) (ChainHash rec)) then p
    else mkProgress (gaps p) (breaks p)
           (issues p ++ ["record " +:+ pretty (Index rec) +:+ ": HMAC mismatch"]) false in
  let p :=
    if bool_decide (ChainHash rec = sum_hex (chainInput rec)) then p
    else mkProgress (gaps p) (breaks p)
           (issues p ++ ["record " +:+ pretty (Index rec) +:+ ": hash mismatch"]) (allHMACValid p) in
  if unlinked cs i rec
  then mkProgress (gaps p + 1) (breaks p ++ [Index rec])
         (issues p ++ ["gap at record " +:+ pretty (Index rec) +:+ ": prev_hash mismatch"]) (allHMACValid p)
  else p.

Fixpoint check_from (cs : ChainStore) (i : nat) (rest : list ChainRecord) (p : progress) : progress :=
  match rest with
  | [] => p
  | rec :: rest => check_from cs (S i) rest (check_step cs i rec p)
  end.

Definition Verify (cs : ChainStore) : VerifyReport :=
  match records cs, last (records cs) with
  | first :: _, Some latest =>
      let p := check_from cs 0 (records cs) (mkProgress 0 [] [] true) in
      mkReport (length (records cs)) ((gaps p =? 0) && (length (issues p) =? 0)%nat) (allHMACValid p)
        (gaps p) (breaks p) (ChainHash first) (ChainHash latest) 0 0 (issues p)
  | _, _ => mkReport 0 true true 0 [] "" "" 0 0 []
  end.

Definition statusStr (ok : bool) : string := if ok then "✓ INTACT" else "✗ BROKEN".

Definition truncate (s : string) (n : nat) : string :=
  if (String.length s <=? n)%nat then s else String.substring 0 n s +:+ "...".

Definition nl : string := String (Ascii.ascii_of_nat 10) "".

Definition Summary (vr : VerifyReport) : string :=
  "Chain Integrity Verification" +:+ nl
  +:+ "========================================" +:+ nl
  +:+ "Records:     " +:+ pretty (TotalRecords vr) +:+ nl
  +:+ "Chain:       " +:+ statusStr (ChainIntact vr) +:+ nl
  +:+ "HMAC:        " +:+ statusStr (HMACValid vr) +:+ nl
  +:+ "Gaps:        " +:+ pretty (Gaps vr) +:+ nl
  +:+ "First hash:  " +:+ truncate (FirstRecord vr) 16 +:+ nl
  +:+ "Latest hash: " +:+ truncate (LatestRecord vr) 16 +:+ nl
  +:+ (match Issues vr with
       | [] => ""
       | _ => nl +:+ "Issues:" +:+ nl
              +:+ foldr (fun issue acc => "  ⚠ " +:+ issue +:+ nl +:+ acc) "" (Issues vr)
       end)
  +:+ (if ChainIntact vr && HMACValid vr
       then nl +:+ "✓ Chain integrity verified — no tampering detected" +:+ nl
       else nl +:+ "✗ Tampering detected! Investigate immediately." +:+ nl).

(** A store after a sequence of [Add]s. *)
Definition add_all (events : list (Z * list Z * Z)) (cs : ChainStore) : ChainStore :=
  foldl (fun cs '(eventType, data, now) => snd (Add eventType data now cs)) cs events.

(** ** What the verification loops check *)

(** The record at [i] has its own digest and MAC, and names the digest before it. *)
Definition record_ok (cs : ChainStore) (i : nat) (rec : ChainRecord) : Prop :=
  HMAC rec = mac_hex (hmacKey cs) (ChainHash rec) /\ ChainHash rec = sum_hex (chainInput rec) /\
  (i = 0%nat \/ Some (PrevHash rec) = ChainHash <$> records cs !! pred i).

Definition chain_ok (cs : ChainStore) : Prop :=
  forall i rec, records cs !! i = Some rec -> record_ok cs i rec.

Lemma verifyRecord_spec cs rec :
  verifyRecord cs rec = true <->
    HMAC rec = mac_hex (hmacKey cs) (ChainHash rec) /\ ChainHash rec = sum_hex (chainInput rec).
Proof. unfold verifyRecord. repeat case_bool_decide; simpl; intuition done. Qed.

Lemma unlinked_spec cs i rec :
  unlinked cs i rec = false <-> i = 0%nat \/ Some (PrevHash rec) = ChainHash <$> records cs !! pred i.
Proof.
  unfold unlinked. rewrite andb_false_iff, negb_false_iff, bool_decide_eq_true, Nat.ltb_ge.
  split; (intros [H|H]; [left; lia|by right]).
Qed.

Lemma record_ok_step cs i rec :
  record_ok cs i rec <-> verifyRecord cs rec = true /\ unlinked cs i rec = false.
Proof. rewrite verifyRecord_spec, unlinked_spec. unfold record_ok. tauto. Qed.

Definition suffix_ok (cs : ChainStore) (i : nat) (rest : list ChainRecord) : Prop :=
  forall j rec, rest !! j = Some rec -> record_ok cs (i + j) rec.

Lemma suffix_ok_nil cs i : suffix_ok cs i [].
Proof. intros j rec Hj. done. Qed.

Lemma suffix_ok_cons cs i rec rest :
  suffix_ok cs i (rec :: rest) <-> record_ok cs i rec /\ suffix_ok cs (S i) rest.
Proof.
  split.
  - intros H. split; [specialize (H 0%nat rec eq_refl); by rewrite Nat.add_0_r in H|].
    intros j rec' Hj. specialize (H (S j) rec' Hj). by rewrite Nat.add_succ_r in H.
  - intros [H1 H2] [|j] rec' Hj; [injection Hj as <-; by rewrite Nat.add_0_r|].
    rewrite Nat.add_succ_r. by apply (H2 j).
Qed.

Lemma verify_from_spec cs i rest :
  (fst (verify_from cs i rest) = true <-> suffix_ok cs i rest) /\
  (fst (verify_from cs i rest) = true -> snd (verify_from cs i rest) = length (records cs)).
Proof.
  revert i. induction rest as [|rec rest IH]; intros i; cbn [verify_from].
  - split; [|done]. split; [intros _; apply suffix_ok_nil|done].
  - rewrite suffix_ok_cons, record_ok_step. destruct (IH (S i)) as [IH1 IH2].
    destruct (verifyRecord cs rec), (unlinked cs i rec); simpl; [| |intuition done..].
    + split; [|done]. split; [done|]. by intros [[_ ?] _].
    + split; [|done]. rewrite IH1. tauto.
Qed.

Lemma VerifyChain_spec cs : VerifyChain cs = (true, length (records cs)) <-> chain_ok cs.
Proof.
  unfold VerifyChain. destruct (verify_from_spec cs 0 (records cs)) as [H1 H2].
  change (chain_ok cs) with (suffix_ok cs 0 (records cs)). rewrite <-H1. split; [by intros ->|].
  intros H. rewrite (surjective_pairing (verify_from _ _ _)). by rewrite H, H2.
Qed.

(** The report's loop only adds issues. *)
Lemma check_step_spec cs i rec p :
  (issues (check_step cs i rec p) = [] <-> issues p = [] /\ record_ok cs i rec) /\
  (record_ok cs i rec -> check_step cs i rec p = p).
Proof.
  rewrite record_ok_step, verifyRecord_spec. unfold check_step.
  repeat case_bool_decide; destruct (unlinked cs i rec); cbn [issues];
    rewrite ?app_nil; intuition (done || congruence).
Qed.

Lemma check_from_spec cs i rest p :
  (issues (check_from cs i rest p) = [] <-> issues p = [] /\ suffix_ok cs i rest) /\
  (suffix_ok cs i rest -> check_from cs i rest p = p).
Proof.
  revert i p. induction rest as [|rec rest IH]; intros i p; cbn [check_from].
  - split; [|done]. split; [|tauto]. intros H. split; [done|apply suffix_ok_nil].
  - rewrite suffix_ok_cons. destruct (IH (S i) (check_step cs i rec p)) as [IH1 IH2].
    destruct (check_step_spec cs i rec p) as [S1 S2]. rewrite IH1, S1. split; [tauto|].
    intros [Hr Hs]. rewrite IH2 by done. by apply S2.
Qed.

(** A failed run stops at the first bad record. *)
Lemma verify_from_fails cs i rest k :
  verify_from cs i rest = (false, k) ->
  exists j rec, k = (i + j)%nat /\ rest !! j = Some rec /\ ~ record_ok cs k rec /\
    forall j' rec', (j' < j)%nat -> rest !! j' = Some rec' -> record_ok cs (i + j') rec'.
Proof.
  revert i. induction rest as [|rec rest IH]; intros i H; [done|]. cbn [verify_from] in H.
  destruct (decide (verifyRecord cs rec = true /\ unlinked cs i rec = false)) as [[E1 E2]|E].
  - rewrite E1, E2 in H. destruct (IH (S i) H) as (j & rec' & -> & Hj & Hbad & Hall).
    exists (S j), rec'. split; [lia|]. split; [done|]. split; [done|]. intros [|j'] rec'' Hlt Hj'.
    + injection Hj' as <-. rewrite Nat.add_0_r. by apply record_ok_step.
    + rewrite Nat.add_succ_r. apply (Hall j'); [lia|done].
  - exists 0%nat, rec. rewrite Nat.add_0_r.
    assert (k = i) as -> by (destruct (verifyRecord cs rec), (unlinked cs i rec); simpl in *; congruence || tauto).
    split; [done|]. split; [done|]. split; [by rewrite record_ok_step|]. intros; lia.
Qed.

Lemma Verify_intact cs : ChainIntact (Verify cs) = true <-> chain_ok cs.
Proof.
  change (chain_ok cs) with (suffix_ok cs 0 (records cs)). unfold Verify.
  destruct (check_from_spec cs 0 (records cs) (mkProgress 0 [] [] true)) as [H1 H2].
  destruct (records cs) as [|first rest] eqn:Hr; [split; [intros _; apply suffix_ok_nil|done]|].
  destruct (last (first :: rest)) as [latest|] eqn:Hl; [|by apply last_None in Hl].
  cbn [ChainIntact]. split.
  - intros [_ Hi]%andb_true_iff. apply Nat.eqb_eq, nil_length_inv in Hi. by apply H1.
  - intros Hok. by rewrite (H2 Hok).
Qed.

(** The two verifiers agree and are exact on every store, tampered or not:
    [VerifyChain] accepts exactly when every record carries the HMAC of its chain hash
    and the chain hash of its fields, and names the chain hash of the record before
    it; when it rejects, the index it returns is that of the first record that does
    not.  [Verify] reports an intact chain in exactly the same cases, and then also
    valid HMACs. *)
Lemma verify_exact (cs : ChainStore) :
  (VerifyChain cs = (true, Count cs) <-> chain_ok cs) /\
  (forall k, VerifyChain cs = (false, k) ->
     exists rec, records cs !! k = Some rec /\ ~ record_ok cs k rec /\
       forall j rec', (j < k)%nat -> records cs !! j = Some rec' -> record_ok cs j rec') /\
  ChainIntact (Verify cs) = fst (VerifyChain cs) /\
  (ChainIntact (Verify cs) = true -> HMACValid (Verify cs) = true).
Proof.
  split; [apply VerifyChain_spec|]. split; [|split].
  - intros k Hk. destruct (verify_from_fails _ _ _ _ Hk) as (j & rec & -> & Hj & Hbad & Hall). by exists rec.
  - apply eq_true_iff_eq. rewrite Verify_intact. symmetry. apply verify_from_spec.
  - rewrite Verify_intact. intros Hok. unfold Verify.
    destruct (check_from_spec cs 0 (records cs) (mkProgress 0 [] [] true)) as [_ ->]; [|done].
    destruct (records cs) as [|f l]; [done|]; by destruct (last (f :: l)).
Qed.

(** ** Genuine stores *)

(** What holds of a store filled by [Add]: it verifies, [prevHash] is the last chain
    hash, the indices count up from one and every digest is one of 32 bytes. *)
Record genuine (cs : ChainStore) : Prop := {
  gen_ok : chain_ok cs;
  gen_prev : prevHash cs = match last (records cs) with Some rec => ChainHash rec | None => "" end;
  gen_index : forall i rec, records cs !! i = Some rec -> Index rec = Z.of_nat i + 1;
  gen_data : forall i rec, records cs !! i = Some rec -> exists data, DataHash rec = EncodeToString (Sum256 data);
  gen_first : forall rec, records cs !! 0%nat = Some rec -> PrevHash rec = "";
}.

Lemma genuine_new rand now : genuine (NewChainStore rand now).
Proof. by split. Qed.

Lemma genuine_add eventType data now cs : genuine cs -> genuine (snd (Add eventType data now cs)).
Proof.
  intros [Hok Hprev Hidx Hdata Hfirst]. unfold Add. cbn [snd Index Timestamp EventType DataHash PrevHash ChainHash].
  set (rec := mkRecord _ _ _ _ _ _ _).
  assert (forall i r, (records cs ++ [rec]) !! i = Some r ->
    records cs !! i = Some r \/ i = length (records cs) /\ r = rec) as Hcase.
  { intros i r H. apply lookup_snoc_Some in H as [[_ H]|[-> <-]]; [by left|by right]. }
  assert (length (records cs) = 0%nat \/
    Some (prevHash cs) = ChainHash <$> (records cs ++ [rec]) !! pred (length (records cs))) as Hlink.
  { destruct (records cs) as [|r l _] using rev_ind; [by left|right].
    rewrite Hprev, last_snoc, length_app, Nat.add_comm, <-app_assoc. simpl.
    by rewrite lookup_app_r, Nat.sub_diag by lia. }
  split; cbn [records prevHash hmacKey].
  - intros i r [H|[-> ->]]%Hcase; [|by split].
    destruct (Hok i r H) as (H1 & H2 & H3). split; [done|]. split; [done|]. destruct H3 as [H3|H3]; [by left|right].
    rewrite H3. cbn [records]. rewrite lookup_app_l; [done|]. apply lookup_lt_Some in H. lia.
  - by rewrite last_snoc.
  - intros i r [H|[-> ->]]%Hcase; [by apply Hidx|done].
  - intros i r [H|[-> ->]]%Hcase; [by eapply Hdata|by exists data].
  - intros r [H|[H ->]]%Hcase; [by apply Hfirst|]. simpl. rewrite Hprev.
    apply eq_sym, nil_length_inv in H. by rewrite H.
Qed.

Lemma genuine_add_all events cs : genuine cs -> genuine (add_all events cs).
Proof.
  unfold add_all. revert cs. induction events as [|[[ty data] now] events IH]; intros cs H; [done|].
  simpl. apply IH. by apply (genuine_add ty data now).
Qed.

Lemma add_all_records events cs :
  length (records (add_all events cs)) = (length (records cs) + length events)%nat /\
  hmacKey (add_all events cs) = hmacKey cs.
Proof.
  unfold add_all. revert cs. induction events as [|[[ty data] now] events IH]; intros cs; [by rewrite Nat.add_0_r|].
  cbn [foldl]. destruct (IH (snd (Add ty data now cs))) as [-> ->]. split; [|done].
  unfold Add. cbn [snd records]. rewrite length_app. simpl. lia.
Qed.

(** A store filled by any sequence of [Add]s verifies: [VerifyChain] accepts it
    and returns the number of events added, and [Verify] reports an intact chain with
    valid HMACs, no gaps and no issues, whatever the key, the times and the payloads. *)
Lemma chain_complete (rand : option (list Z)) (t0 : Z) (events : list (Z * list Z * Z)) :
  let cs := add_all events (NewChainStore rand t0) in
  VerifyChain cs = (true, length events) /\
  ChainIntact (Verify cs) = true /\ HMACValid (Verify cs) = true /\
  Gaps (Verify cs) = 0 /\ Breakpoints (Verify cs) = [] /\ Issues (Verify cs) = [] /\
  forall i rec, records cs !! i = Some rec -> VerifyRecord cs rec = true.
Proof.
  intros cs. pose proof (genuine_add_all events _ (genuine_new rand t0)) as Hg. fold cs in Hg.
  destruct (add_all_records events (NewChainStore rand t0)) as [Hlen _]. fold cs in Hlen. simpl in Hlen.
  pose proof (gen_ok _ Hg) as Hok. split; [rewrite <-Hlen; by apply VerifyChain_spec|].
  split; [by apply Verify_intact|].
  assert (allHMACValid (check_from cs 0 (records cs) (mkProgress 0 [] [] true)) = true /\
    check_from cs 0 (records cs) (mkProgress 0 [] [] true) = mkProgress 0 [] [] true) as [Ha Hp]
    by (by rewrite (proj2 (check_from_spec cs 0 (records cs) _) Hok)).
  unfold Verify. rewrite Hp. repeat split; try (destruct (records cs) as [|f l]; [done|]; by destruct (last (f :: l))).
  intros i rec Hi. change (verifyRecord cs rec = true). by apply record_ok_step with (i := i), Hok.
Qed.

(** ** Tamper evidence *)

Lemma hex_colon_free l : ":"%char ∉ chars (EncodeToString (Sum256 l)).
Proof. apply hex_no_colon, Sum256_ok. Qed.

(** The digests of a genuine record contain no colon. *)
Lemma genuine_colon_free cs i rec :
  genuine cs -> records cs !! i = Some rec -> (":"%char ∉ chars (DataHash rec)) /\ ":"%char ∉ chars (PrevHash rec).
Proof.
  intros Hg Hi. split.
  - destruct (gen_data _ Hg _ _ Hi) as [data ->]. apply hex_colon_free.
  - destruct i as [|i]; [rewrite (gen_first _ Hg _ Hi); apply not_elem_of_nil|].
    destruct (gen_ok _ Hg _ _ Hi) as (_ & _ & [?|Hp]); [done|]. simpl in Hp.
    destruct (records cs !! i) as [r|] eqn:Hr; [|done]. injection Hp as ->.
    destruct (gen_ok _ Hg _ _ Hr) as (_ & -> & _). apply hex_colon_free.
Qed.

Lemma colon_digit z : ":"%char ∉ chars (pretty (z : Z)).
Proof.
  apply pretty_Z_not_occurs. intros [[? H]|?]; [|done]. by vm_compute in H.
Qed.

(** The hashed text determines the fields, if one side has no colon in its digests. *)
Lemma chainInput_inj g t :
  ":"%char ∉ chars (DataHash g) -> ":"%char ∉ chars (PrevHash g) -> chainInput g = chainInput t ->
  Index g = Index t /\ Timestamp g = Timestamp t /\ DataHash g = DataHash t /\ PrevHash g = PrevHash t.
Proof.
  intros Hd Hp H. apply (f_equal chars) in H. unfold chainInput in H. rewrite !chars_app in H.
  cbn [String.list_ascii_of_string app] in H.
  apply app_sep_inj in H as [H1 H]; [|apply colon_digit..].
  apply app_sep_inj in H as [H2 H]; [|apply colon_digit..].
  apply app_sep_inj_only in H as [H3 H4]; [|done..].
  apply (inj chars), (inj pretty) in H1, H2. apply (inj chars) in H3, H4. done.
Qed.

Lemma sum_hex_inj s s' :
  sum_hex s = sum_hex s' -> Sum256 (bytes_of_string s) = Sum256 (bytes_of_string s').
Proof. apply hex_inj; apply Sum256_ok. Qed.

(** All the fields of two records agree, except perhaps [EventType] and [HMAC]. *)
Definition same_record (g t : ChainRecord) : Prop :=
  Index g = Index t /\ Timestamp g = Timestamp t /\ DataHash g = DataHash t /\ PrevHash g = PrevHash t /\
  ChainHash g = ChainHash t.

(** Two records at the same position whose hashed texts differ and collide. *)
Definition chain_collision (g t : ChainStore) : Prop :=
  exists i rg rt, records g !! i = Some rg /\ records t !! i = Some rt /\
    chainInput rg <> chainInput rt /\
    Sum256 (bytes_of_string (chainInput rg)) = Sum256 (bytes_of_string (chainInput rt)).

Lemma tamper_down g t i rg rt :
  genuine g -> chain_ok t -> records g !! i = Some rg -> records t !! i = Some rt ->
  ChainHash rg = ChainHash rt ->
  chain_collision g t \/
  forall j rg' rt', (j <= i)%nat -> records g !! j = Some rg' -> records t !! j = Some rt' -> same_record rg' rt'.
Proof.
  intros Hg Ht. revert rg rt. induction i as [|i IH]; intros rg rt Hi Hi' Hc.
  all: destruct (gen_ok _ Hg _ _ Hi) as (_ & Hhg & Hlg); destruct (Ht _ _ Hi') as (_ & Hht & Hlt).
  all: destruct (decide (chainInput rg = chainInput rt)) as [E|E];
    [|left; do 3 eexists; split; [exact Hi|]; split; [exact Hi'|]; split; [done|]; apply sum_hex_inj; congruence].
  all: destruct (genuine_colon_free _ _ _ Hg Hi) as [Hd Hp];
    destruct (chainInput_inj rg rt Hd Hp E) as (E1 & E2 & E3 & E4).
  - right. intros j rg' rt' Hj. replace j with 0%nat by lia. intros ? ?. by simplify_eq.
  - destruct Hlg as [?|Hlg], Hlt as [?|Hlt]; try done. simpl in Hlg, Hlt.
    destruct (records g !! i) as [rg'|] eqn:Hrg, (records t !! i) as [rt'|] eqn:Hrt; try done.
    destruct (IH rg' rt' eq_refl eq_refl) as [Hcol|Hall]; [simplify_eq/=; congruence|by left|right].
    intros j r r' Hj Hr Hr'. destruct (decide (j = S i)) as [->|]; [by simplify_eq|]. apply (Hall j); [lia|done|done].
Qed.

(** [C5] The chain is tamper evident up to its anchor: take a store filled by [Add]s
    and any other store of the same length that passes [VerifyChain] under any key and
    has the same latest hash.  Then their records agree at every position on index,
    timestamp, data hash, previous hash and chain hash, and on the HMAC if the keys
    are the same; otherwise two records at the same position exhibit a SHA-256
    collision.  The data hashes of the other store may be arbitrary strings. *)
Theorem chain_tamper_evident (rand : option (list Z)) (t0 : Z) (events : list (Z * list Z * Z)) (t : ChainStore) :
  let g := add_all events (NewChainStore rand t0) in
  length (records t) = length events -> fst (VerifyChain t) = true -> LatestHash t = LatestHash g ->
  chain_collision g t \/
  forall i rg rt, records g !! i = Some rg -> records t !! i = Some rt ->
    same_record rg rt /\ (hmacKey t = hmacKey g -> HMAC rg = HMAC rt).
Proof.
  intros g Hlen Hv Hlatest. pose proof (genuine_add_all events _ (genuine_new rand t0)) as Hg. fold g in Hg.
  destruct (add_all_records events (NewChainStore rand t0)) as [Hlen' _]. fold g in Hlen'. simpl in Hlen'.
  assert (chain_ok t) as Ht by (apply (verify_from_spec t 0 (records t)), Hv).
  destruct (last (records g)) as [lg|] eqn:Elg.
  2: { apply last_None in Elg. rewrite Elg. right. intros i ? ? Hi. done. }
  destruct (last (records t)) as [lt|] eqn:Elt.
  2: { apply last_None in Elt. rewrite Elt. right. intros i ? ? _ Hi. done. }
  unfold LatestHash in Hlatest. rewrite Elg, Elt in Hlatest. rewrite last_lookup in Elg, Elt.
  rewrite Hlen' in Elg. rewrite Hlen in Elt.
  destruct (tamper_down g t _ lg lt Hg Ht Elg Elt (eq_sym Hlatest)) as [|Hall]; [by left|right].
  intros i rg rt Hi Hi'. assert (same_record rg rt) as Hs.
  { apply (Hall i); [|done|done]. apply lookup_lt_Some in Hi. lia. }
  split; [done|]. intros Hk. destruct (gen_ok _ Hg _ _ Hi) as [-> _]. destruct (Ht _ _ Hi') as [-> _].
  destruct Hs as (_ & _ & _ & _ & ->). by rewrite Hk.
Qed.

(** ** What the chain does not cover *)

(** A store whose records got other event types. *)
Definition retype (ty : nat -> Z) (cs : ChainStore) : ChainStore :=
  mkStore (imap (fun i r => mkRecord (Index r) (Timestamp r) (ty i) (DataHash r) (PrevHash r) (ChainHash r) (HMAC r))
             (records cs)) (prevHash cs) (hmacKey cs).

(** A store without its first [n] records. *)
Definition forget (n : nat) (cs : ChainStore) : ChainStore :=
  mkStore (drop n (records cs)) (prevHash cs) (hmacKey cs).

Lemma retype_lookup ty cs i :
  ChainHash <$> records (retype ty cs) !! i = ChainHash <$> records cs !! i.
Proof. simpl. rewrite list_lookup_imap, <-option_fmap_compose. done. Qed.

Lemma chain_ok_retype ty cs : chain_ok cs -> chain_ok (retype ty cs).
Proof.
  intros Hok i r Hi. unfold record_ok. rewrite retype_lookup.
  simpl in Hi. rewrite list_lookup_imap in Hi. apply fmap_Some in Hi as (r0 & Hr0 & ->).
  apply (Hok i r0 Hr0).
Qed.

Lemma chain_ok_forget n cs : chain_ok cs -> chain_ok (forget n cs).
Proof.
  intros Hok i r Hi. simpl in Hi. rewrite lookup_drop in Hi.
  destruct (Hok _ _ Hi) as (H1 & H2 & H3). split; [done|]. split; [done|].
  destruct i as [|i]; [by left|right]. destruct H3 as [?|H3]; [lia|]. rewrite H3. simpl.
  rewrite lookup_drop. do 2 f_equal. lia.
Qed.

(** What verification does not cover, for every store it accepts.  The event type
    is in neither digest: overwriting the event types of all the records leaves
    [VerifyChain], [LatestHash] and [RootHash] as they were.  The first record's
    previous hash is not checked: deleting any number of records from the front still
    verifies, and changes neither the latest hash (when a record is left) nor the
    verdict of [Verify]. *)
Lemma chain_undetected (cs : ChainStore) (ty : nat -> Z) (n : nat) :
  VerifyChain cs = (true, Count cs) ->
  (VerifyChain (retype ty cs) = (true, Count cs) /\ LatestHash (retype ty cs) = LatestHash cs /\
   RootHash (retype ty cs) = RootHash cs) /\
  (VerifyChain (forget n cs) = (true, (Count cs - n)%nat) /\ ChainIntact (Verify (forget n cs)) = true /\
   ((n < Count cs)%nat -> LatestHash (forget n cs) = LatestHash cs)).
Proof.
  intros Hok%VerifyChain_spec. split; split.
  - rewrite (proj2 (VerifyChain_spec _) (chain_ok_retype ty _ Hok)). simpl. by rewrite length_imap.
  - unfold LatestHash, RootHash. simpl. rewrite last_lookup, length_imap, list_lookup_imap, <-last_lookup.
    split; [by destruct (last (records cs))|].
    rewrite (bool_decide_ext (imap _ _ = []) (records cs = []))
      by (rewrite <-!length_zero_iff_nil, length_imap; done).
    by rewrite fmap_imap, <-(imap_const _ (records cs)).
  - rewrite (proj2 (VerifyChain_spec _) (chain_ok_forget n _ Hok)). simpl. by rewrite length_drop.
  - split; [by apply Verify_intact, chain_ok_forget|]. intros Hn. unfold LatestHash. simpl.
    rewrite !last_lookup, length_drop, lookup_drop. unfold Count in Hn.
    by replace (n + pred (length (records cs) - n))%nat with (pred (length (records cs))) by lia.
Qed.

(** ** The root hash *)

Lemma reduce_build fuel l : reduce fuel l = snd (Merkle.build fuel l).
Proof.
  revert l. induction fuel as [|fuel IH]; intros l; [done|]. destruct l as [|a [|b l]]; try done.
  cbn [reduce Merkle.build]. rewrite IH. by destruct (Merkle.build fuel _).
Qed.

(** [RootHash] is the root of the Merkle tree over the records' chain hashes: on a
    store that is not empty, the pairwise reduction of [chain.go] and the tree of
    [merkle.go] built by adding the same hashes give the same root. *)
Lemma root_hash_merkle (cs : ChainStore) :
  records cs <> [] ->
  RootHash cs = Merkle.RootHex (Merkle.of_leaves ((fun rec => DecodeString (ChainHash rec)) <$> records cs)).
Proof.
  intros Hne. unfold RootHash. rewrite bool_decide_eq_false_2 by done.
  set (hashes := _ <$> records cs). assert (hashes <> []) as Hh by (subst hashes; by destruct (records cs)).
  destruct (Merkle.of_leaves_spec hashes Hh) as (levels & r & Hb & ->).
  by rewrite reduce_build, Hb.
Qed.

(** ** Witnesses *)

(** Two events, added under a fixed key. *)
Definition sample_events : list (Z * list Z * Z) := [(1, [97; 98], 1000); (7, [99], 2000)].
Definition sample_store : ChainStore := add_all sample_events (NewChainStore (Some [1; 2; 3]) 0).
Definition sample_value : ChainStore := Eval vm_compute in sample_store.

Lemma chain_tamper_evident_witness :
  chain_collision sample_store sample_value \/
  forall i rg rt, records sample_store !! i = Some rg -> records sample_value !! i = Some rt ->
    same_record rg rt /\ (hmacKey sample_value = hmacKey sample_store -> HMAC rg = HMAC rt).
Proof.
  apply (chain_tamper_evident (Some [1; 2; 3]) 0 sample_events sample_value).
  - reflexivity.
  - vm_compute. reflexivity.
  - vm_compute. reflexivity.
Defined.

Lemma chain_undetected_witness :
  (VerifyChain (retype (fun _ => 0) sample_value) = (true, 2%nat) /\
   LatestHash (retype (fun _ => 0) sample_value) = LatestHash sample_value /\
   RootHash (retype (fun _ => 0) sample_value) = RootHash sample_value) /\
  (VerifyChain (forget 1 sample_value) = (true, 1%nat) /\ ChainIntact (Verify (forget 1 sample_value)) = true /\
   ((1 < 2)%nat -> LatestHash (forget 1 sample_value) = LatestHash sample_value)).
Proof. apply (chain_undetected sample_value (fun _ => 0) 1). vm_compute. reflexivity. Defined.

Lemma root_hash_merkle_witness :
  RootHash sample_value =
    Merkle.RootHex (Merkle.of_leaves ((fun rec => DecodeString (ChainHash rec)) <$> records sample_value)).
Proof. apply (root_hash_merkle sample_value). discriminate. Defined.

(** A changed payload hash is found, at the record that carries it. *)
Example tampered_data :
  VerifyChain (mkStore (alter (fun r => mkRecord (Index r) (Timestamp r) (EventType r) "00" (PrevHash r)
                                          (ChainHash r) (HMAC r)) 1%nat (records sample_value))
                 (prevHash sample_value) (hmacKey sample_value)) = (false, 1%nat).
Proof. vm_compute. reflexivity. Qed.
End Chain.
