(* ===== verification/EdgeReduce.v ===== *)
(** * Sliding-window edge reduction ([internal/engine/edgereduce/reducer.go]).

    The reducer shares [*CachedEdge] values between its map and its LRU list, so the
    model keeps them in a heap of handles: the map and the list hold handles, and an
    edge's list element is identified by its handle.  The list is written front
    first.  The flush callback is a parameter (none, or a function that says whether
    it returns an error); its calls are recorded in [emitted], with the handle and the
    value passed.  Clocks and the order of map iteration are inputs. *)
From S2P Require Import Prelude GoStrings.

Module Reduce.

(** The fields of [pb.Event] the reducer reads. *)
Record Event := mkEvent {
  Type_ : Z; TimestampNs : Z; Pid : Z; Pathname : string;
  Inode : Z; DevMajor : Z; DevMinor : Z; ChildPid : Z; Daddr : Z;
}.

Definition MergeWindow : duration := 5 * Second.

(** Fork, exec, connect and accept. *)
Definition neverMergeTypes : gset Z := {[2; 20; 21; 1]}.

Record CachedEdge := mkEdge {
  Source : string; Target : string; Relation : string; Count : Z; FirstSeen : time; LastSeen : time;
}.

Definition Key (ce : CachedEdge) : string := Source ce +:+ "|" +:+ Target ce +:+ "|" +:+ Relation ce.

Record ReducerStats := mkStats {
  TotalEdges : Z; MergedEdges : Z; FlushedEdges : Z; CacheEvictions : Z;
}.

Record EdgeReducer := mkER {
  heap : gmap nat CachedEdge;
  next : nat;
  cache : gmap string nat;
  lru : list nat;
  maxSize : Z;
  window : duration;
  stats : ReducerStats;
  flushFn : option (CachedEdge -> bool);
  emitted : list (nat * CachedEdge);
}.

Definition NewEdgeReducer (maxSize : Z) (window : duration) (flushFn : option (CachedEdge -> bool)) : EdgeReducer :=
  let maxSize := if maxSize <=? 0 then 10000 else maxSize in
  let window := if window <=? 0 then MergeWindow else window in
  mkER ∅ 0 ∅ [] maxSize window (mkStats 0 0 0 0) flushFn [].

(** ** Field updates *)

Definition set_stats (f : ReducerStats -> ReducerStats) (er : EdgeReducer) : EdgeReducer :=
  mkER (heap er) (next er) (cache er) (lru er) (maxSize er) (window er) (f (stats er)) (flushFn er) (emitted er).
Definition set_cache (f : gmap string nat -> gmap string nat) (er : EdgeReducer) : EdgeReducer :=
  mkER (heap er) (next er) (f (cache er)) (lru er) (maxSize er) (window er) (stats er) (flushFn er) (emitted er).
Definition set_lru (f : list nat -> list nat) (er : EdgeReducer) : EdgeReducer :=
  mkER (heap er) (next er) (cache er) (f (lru er)) (maxSize er) (window er) (stats er) (flushFn er) (emitted er).
Definition set_edge (h : nat) (ce : CachedEdge) (er : EdgeReducer) : EdgeReducer :=
  mkER (<[h := ce]> (heap er)) (next er) (cache er) (lru er) (maxSize er) (window er) (stats er) (flushFn er)
       (emitted er).

(** The edge a handle points to; every handle in the map or the list is allocated. *)
Definition edge (er : EdgeReducer) (h : nat) : CachedEdge :=
  default (mkEdge "" "" "" 0 time_zero time_zero) (heap er !! h).

(** [list.Remove] and [list.MoveToFront]. *)
Definition list_remove (h : nat) (l : list nat) : list nat := filter (fun x => x <> h) l.
Definition list_to_front (h : nat) (l : list nat) : list nat :=
  if bool_decide (h ∈ l) then h :: list_remove h l else l.

(** ** Event mapping *)

Definition intToIP (ip : Z) : string :=
  pretty (Z.shiftr ip 24) +:+ "." +:+ pretty (Z.land (Z.shiftr ip 16) 0xFF) +:+ "."
  +:+ pretty (Z.land (Z.shiftr ip 8) 0xFF) +:+ "." +:+ pretty (Z.land ip 0xFF).

Definition targetFor (evt : Event) : string :=
  if 0 <? ChildPid evt then "p:" +:+ pretty (ChildPid evt)
  else if 0 <? Daddr evt then "n:" +:+ intToIP (Daddr evt)
  else if negb (bool_decide (Pathname evt = "")) then
    if 0 <? Inode evt
    then "f:" +:+ pretty (Inode evt) +:+ ":" +:+ pretty (DevMajor evt) +:+ ":" +:+ pretty (DevMinor evt)
    else "f:path:" +:+ Pathname evt
  else "?".

Definition relationFor (evt : Event) : string :=
  if Type_ evt =? 1 then "wasInformedBy" else "used".

Definition source_of (evt : Event) : string := "p:" +:+ pretty (Pid evt).
Definition key_of (evt : Event) : string :=
  source_of evt +:+ "|" +:+ targetFor evt +:+ "|" +:+ relationFor evt.
Definition time_of (evt : Event) : time := time_Unix0 (i64 (TimestampNs evt)).

(** ** Operations *)

Definition flushLocked (h : nat) (er : EdgeReducer) : bool * EdgeReducer :=
  match flushFn er with
  | None => (false, er)
  | Some f =>
      let ce := edge er h in
      (f ce, mkER (heap er) (next er) (cache er) (lru er) (maxSize er) (window er)
               (mkStats (TotalEdges (stats er)) (MergedEdges (stats er)) (i64 (FlushedEdges (stats er) + 1))
                  (CacheEvictions (stats er)))
               (flushFn er) (emitted er ++ [(h, ce)]))
  end.

Definition critical (evt : Event) : bool := bool_decide (Type_ evt ∈ neverMergeTypes).

(** The edge built for a critical event; it enters neither the map nor the list. *)
Definition critical_edge (evt : Event) : CachedEdge :=
  mkEdge (source_of evt) (targetFor evt) (relationFor evt) 1 time_zero (time_of evt).

(** [time.Duration] since the cached edge was last seen is within the window. *)
Definition in_window (er : EdgeReducer) (h : nat) (now : time) : bool :=
  time_Sub now (LastSeen (edge er h)) <? window er.

Definition merge (h : nat) (now : time) (er : EdgeReducer) : EdgeReducer :=
  let ce := edge er h in
  set_stats (fun s => mkStats (TotalEdges s) (i64 (MergedEdges s + 1)) (FlushedEdges s) (CacheEvictions s))
    (set_lru (list_to_front h)
      (set_edge h (mkEdge (Source ce) (Target ce) (Relation ce) (i64 (Count ce + 1)) (FirstSeen ce) now) er)).

(** Evicts the back of the list if the list is full; [true] on a flush error. *)
Definition evict (er : EdgeReducer) : bool * EdgeReducer :=
  if maxSize er <=? Z.of_nat (length (lru er)) then
    match last (lru er) with
    | None => (false, er)
    | Some back =>
        let '(err, er) := flushLocked back er in
        if err then (true, er)
        else
          (false,
           set_stats (fun s => mkStats (TotalEdges s) (MergedEdges s) (FlushedEdges s) (i64 (CacheEvictions s + 1)))
             (set_lru (list_remove back) (set_cache (delete (Key (edge er back))) er)))
    end
  else (false, er).

(** Evicts if needed, then inserts the new edge at the front. *)
Definition insert_new (evt : Event) (er : EdgeReducer) : EdgeReducer * option (CachedEdge * bool) :=
  let now := time_of evt in
  let ce := mkEdge (source_of evt) (targetFor evt) (relationFor evt) 1 now now in
  let '(err, er) := evict er in
  if err then (er, None)
  else
    let h := next er in
    (mkER (<[h := ce]> (heap er)) (S h) (<[key_of evt := h]> (cache er)) (h :: lru er) (maxSize er) (window er)
       (stats er) (flushFn er) (emitted er),
     Some (ce, false)).

(** [None] is an error; otherwise the edge returned and whether it was merged. *)
Definition Ingest (evt : Event) (er : EdgeReducer) : EdgeReducer * option (CachedEdge * bool) :=
  let er := set_stats (fun s => mkStats (i64 (TotalEdges s + 1)) (MergedEdges s) (FlushedEdges s)
                                  (CacheEvictions s)) er in
  if critical evt then (er, Some (critical_edge evt, false))
  else
    let now := time_of evt in
    match cache er !! key_of evt with
    | Some existing =>
        if in_window er existing now then
          let er := merge existing now er in (er, Some (edge er existing, true))
        else
          let '(err, er) := flushLocked existing er in
          if err then (er, None) else insert_new evt er
    | None => insert_new evt er
    end.

Definition FlushAll `{MapOrder} (er : EdgeReducer) : EdgeReducer * nat :=
  let entries := range 0 (map_to_list (cache er)) in
  let er := foldl (fun er '(_, h) => snd (flushLocked h er)) er entries in
  (set_lru (fun _ => []) (set_cache (fun _ => ∅) er), length entries).

Definition old_step (cutoff : time) (st : EdgeReducer * nat) (entry : string * nat) : EdgeReducer * nat :=
  let '(er, flushed) := st in
  let '(key, h) := entry in
  if time_Before (LastSeen (edge er h)) cutoff
  then (set_lru (list_remove h) (set_cache (delete key) (snd (flushLocked h er))), S flushed)
  else (er, flushed).

(** [clock] is [time.Now()]. *)
Definition FlushOld `{MapOrder} (clock : time) (er : EdgeReducer) : EdgeReducer * nat :=
  let cutoff := time_Add clock (- window er) in
  foldl (old_step cutoff) (er, 0%nat) (range 1 (map_to_list (cache er))).

(** [pb.Edge] as [ToProtoEdge] fills it. *)
Record ProtoEdge := mkProto { p_Source : string; p_Target : string; p_Relation : string; p_TimestampNs : Z; p_Count : Z }.

Definition ToProtoEdge (ce : CachedEdge) : ProtoEdge :=
  mkProto (Source ce) (Target ce) (Relation ce) (u64 (time_UnixNano (LastSeen ce))) (u32 (Count ce)).

(** ** Runs *)

Inductive op :=
  | OIngest (evt : Event)
  | OFlushAll (order : MapOrder)
  | OFlushOld (order : MapOrder) (clock : time).

Definition apply_op (er : EdgeReducer) (o : op) : EdgeReducer :=
  match o with
  | OIngest evt => fst (Ingest evt er)
  | OFlushAll order => fst (@FlushAll order er)
  | OFlushOld order clock => fst (@FlushOld order clock er)
  end.

Definition run (ops : list op) (er : EdgeReducer) : EdgeReducer := foldl apply_op er ops.

(** ** Conservation *)

(** The event finds a cached edge last seen outside the window. *)
Definition stale_hit (er : EdgeReducer) (evt : Event) : bool :=
  negb (critical evt) &&
  match cache er !! key_of evt with
  | Some h => negb (in_window er h (time_of evt))
  | None => false
  end.

(** A run in which no event does. *)
Fixpoint clean (ops : list op) (er : EdgeReducer) : bool :=
  match ops with
  | [] => true
  | o :: ops =>
      (match o with OIngest evt => negb (stale_hit er evt) | _ => true end) && clean ops (apply_op er o)
  end.

(** Events of a key handed to the callback and still in the cache. *)
Definition handed (key : string) (er : EdgeReducer) : Z :=
  sum ((fun x => Count x.2) <$> filter (fun x => Key x.2 = key) (emitted er)).
Definition pending (key : string) (er : EdgeReducer) : Z :=
  match cache er !! key with Some h => Count (edge er h) | None => 0 end.

(** The events of a key that may be merged. *)
Definition counts (key : string) (o : op) : bool :=
  match o with OIngest evt => negb (critical evt) && bool_decide (key_of evt = key) | _ => false end.
Definition mergeable (key : string) (ops : list op) : Z :=
  sum ((fun o => if counts key o then 1 else 0) <$> ops).

(** The map and the list hold the same edges, no edge was handed over before, and the
    counters account for [n] events of each key. *)
Record inv (n : string -> Z) (er : EdgeReducer) : Prop := {
  i_cache : forall key h, cache er !! key = Some h ->
    exists ce, heap er !! h = Some ce /\ Key ce = key /\ 0 <= Count ce /\ h ∈ lru er;
  i_lru : forall h, h ∈ lru er -> exists ce, heap er !! h = Some ce /\ cache er !! Key ce = Some h;
  i_nodup : NoDup (lru er);
  i_fresh : forall h, h ∈ lru er \/ h ∈ (emitted er).*1 -> (h < next er)%nat;
  i_once : NoDup (emitted er).*1;
  i_gone : forall h, h ∈ (emitted er).*1 -> h ∉ lru er;
  i_pos : Forall (fun x => 0 <= Count x.2) (emitted er);
  i_count : forall key, handed key er + pending key er = n key;
}.

Lemma handed_nonneg n er key : inv n er -> 0 <= handed key er.
Proof.
  intros Hi. apply sum_nonneg, Forall_fmap, Forall_forall. intros x [_ Hx]%list_elem_of_filter.
  pose proof (i_pos _ _ Hi) as Hp. rewrite Forall_forall in Hp. by apply Hp.
Qed.

(** The invariant does not depend on the statistics. *)
Lemma inv_same n er er' :
  heap er' = heap er -> next er' = next er -> cache er' = cache er -> lru er' = lru er ->
  emitted er' = emitted er -> inv n er -> inv n er'.
Proof.
  intros E1 E2 E3 E4 E5 [H1 H2 H3 H4 H5 H6 H7 H8].
  split; unfold handed, pending, edge in *; by rewrite ?E1, ?E2, ?E3, ?E4, ?E5.
Qed.

(** Hands an edge over and removes it from the map and the list. *)
Definition hand_over (key : string) (h : nat) (er : EdgeReducer) : EdgeReducer :=
  set_lru (list_remove h) (set_cache (delete key) (snd (flushLocked h er))).

Lemma elem_of_list_remove h h' l : h' ∈ list_remove h l <-> h' <> h /\ h' ∈ l.
Proof. unfold list_remove. by rewrite list_elem_of_filter. Qed.

Lemma handles_snoc (l : list (nat * CachedEdge)) h ce : (l ++ [(h, ce)]).*1 = l.*1 ++ [h].
Proof. by rewrite fmap_app. Qed.

Lemma hand_over_inv n key h er f :
  flushFn er = Some f -> cache er !! key = Some h -> inv n er -> inv n (hand_over key h er).
Proof.
  intros Hf Hk [H1 H2 H3 H4 H5 H6 H7 H8]. unfold hand_over, flushLocked. rewrite Hf.
  destruct (H1 _ _ Hk) as (ce & Hce & Hkey & Hpos & Hin).
  assert (edge er h = ce) as He by (unfold edge; by rewrite Hce).
  split; unfold set_lru, set_cache; cbn [snd heap next cache lru emitted]; rewrite ?He.
  - intros k' h' [Hne Hk']%lookup_delete_Some. destruct (H1 _ _ Hk') as (ce' & Hce' & Hkey' & Hp' & Hin').
    exists ce'. rewrite elem_of_list_remove. split_and!; try done. intros ->. congruence.
  - intros h' [Hne Hh']%elem_of_list_remove. destruct (H2 _ Hh') as (ce' & Hce' & Hc').
    exists ce'. split; [done|]. rewrite lookup_delete_ne; [done|]. intros Heq. congruence.
  - by apply NoDup_filter.
  - intros h'. rewrite elem_of_list_remove, handles_snoc, elem_of_app, list_elem_of_singleton.
    intros [[_ ?]|[?| ->]]; apply H4; tauto.
  - rewrite handles_snoc. apply NoDup_app. split; [done|]. split; [|apply NoDup_singleton].
    intros h' Hh'. rewrite list_elem_of_singleton. intros ->. by apply (H6 h).
  - intros h'. rewrite elem_of_list_remove, handles_snoc, elem_of_app, list_elem_of_singleton.
    intros [Hh'| ->]; [|tauto]. specialize (H6 _ Hh'). tauto.
  - apply Forall_app. split; [done|]. by constructor.
  - intros k'. rewrite <-(H8 k'). unfold handed, pending. cbn [emitted cache heap edge].
    rewrite filter_app, filter_cons, filter_nil, lookup_delete. cbn [snd].
    unfold edge in *. cbn [heap]. destruct (decide (key = k')) as [<-|Hne].
    + rewrite decide_True by done. rewrite Hk, He, fmap_app, sum_app. simpl. lia.
    + rewrite decide_False by congruence. by rewrite app_nil_r.
Qed.

Definition bump (key : string) (n : string -> Z) (k : string) : Z := n k + (if decide (key = k) then 1 else 0).

Lemma merge_inv n key h now er :
  cache er !! key = Some h -> n key < MaxInt64 -> inv n er -> inv (bump key n) (merge h now er).
Proof.
  intros Hk Hmax Hinv. pose proof (handed_nonneg n er key Hinv) as Hh.
  pose proof Hinv as [H1 H2 H3 H4 H5 H6 H7 H8].
  destruct (H1 _ _ Hk) as (ce & Hce & Hkey & Hpos & Hin).
  assert (edge er h = ce) as He by (unfold edge; by rewrite Hce).
  assert (i64 (Count ce + 1) = Count ce + 1) as Hi.
  { apply i64_small. specialize (H8 key). unfold pending in H8. rewrite Hk, He in H8. unfold MinInt64. lia. }
  unfold merge, set_stats, set_lru, set_edge. rewrite He, Hi. set (ce' := mkEdge _ _ _ _ _ _).
  assert (Key ce' = key) as Hkey' by done.
  assert (forall x, x ∈ list_to_front h (lru er) <-> x ∈ lru er) as Hfront.
  { intros x. unfold list_to_front. rewrite bool_decide_eq_true_2 by done.
    rewrite elem_of_cons, elem_of_list_remove. destruct (decide (x = h)) as [->|]; tauto. }
  split; cbn [heap next cache lru emitted].
  - intros k' h' Hk'. setoid_rewrite Hfront. destruct (decide (h' = h)) as [->|Hne].
    + destruct (H1 _ _ Hk') as (ce2 & Hce2 & <- & _). rewrite lookup_insert_eq. exists ce'.
      split_and!; [done|congruence|simpl; lia|done].
    + rewrite lookup_insert_ne by done. by apply H1.
  - intros h' Hh'%Hfront. destruct (decide (h' = h)) as [->|Hne].
    + rewrite lookup_insert_eq. exists ce'. by rewrite Hkey'.
    + rewrite lookup_insert_ne by done. by apply H2.
  - unfold list_to_front. rewrite bool_decide_eq_true_2 by done. constructor; [|by apply NoDup_filter].
    rewrite elem_of_list_remove. tauto.
  - intros h'. rewrite Hfront. apply H4.
  - done.
  - intros h' Hh'. rewrite Hfront. by apply H6.
  - done.
  - intros k'. unfold bump. rewrite <-(H8 k'). unfold handed, pending. cbn [emitted cache].
    destruct (decide (key = k')) as [<-|Hne].
    + rewrite Hk, He. unfold edge. cbn [heap]. rewrite lookup_insert_eq. simpl. lia.
    + destruct (cache er !! k') as [h'|] eqn:Hk'; [|lia]. unfold edge. cbn [heap].
      rewrite lookup_insert_ne; [lia|]. intros <-. destruct (H1 _ _ Hk') as (ce2 & ? & ? & _). congruence.
Qed.

Lemma evict_inv n er f key :
  flushFn er = Some f -> (forall ce, f ce = false) -> cache er !! key = None -> inv n er ->
  exists er', evict er = (false, er') /\ inv n er' /\ cache er' !! key = None.
Proof.
  intros Hf Hok Hk Hinv. unfold evict. destruct (_ <=? _); [|by eauto].
  destruct (last (lru er)) as [back|] eqn:Hlast; [|by eauto].
  destruct (i_lru _ _ Hinv back) as (ce & Hce & Hc).
  { rewrite last_lookup in Hlast. by eapply list_elem_of_lookup_2. }
  assert (edge er back = ce) as He by (unfold edge; by rewrite Hce).
  pose proof (hand_over_inv n _ back er f Hf Hc Hinv) as Hinv'. unfold hand_over, flushLocked in *.
  rewrite Hf, Hok in *. cbn [snd] in Hinv'. eexists. split; [done|].
  unfold edge in *. cbn [heap]. rewrite He in Hinv' |- *. split.
  - refine (inv_same _ _ _ _ _ _ _ _ Hinv'); done.
  - cbn. rewrite lookup_delete. by destruct (decide _).
Qed.

Lemma insert_inv n evt er f :
  flushFn er = Some f -> (forall ce, f ce = false) -> cache er !! key_of evt = None -> inv n er ->
  inv (bump (key_of evt) n) (fst (insert_new evt er)).
Proof.
  intros Hf Hok Hk0 Hinv0. unfold insert_new.
  destruct (evict_inv n er f (key_of evt) Hf Hok Hk0 Hinv0) as (er' & -> & Hinv & Hk). clear Hk0 Hinv0.
  destruct Hinv as [H1 H2 H3 H4 H5 H6 H7 H8]. set (ce := mkEdge _ _ _ _ _ _). cbn [fst].
  assert (next er' ∉ lru er') as Hn by (intros Hin; specialize (H4 (next er') (or_introl Hin)); lia).
  split; cbn [heap next cache lru emitted].
  - intros k' h' [[<- <-]|[Hne Hk']]%lookup_insert_Some.
    + exists ce. rewrite lookup_insert_eq. split_and!; [done|done|simpl; lia|by left].
    + destruct (H1 _ _ Hk') as (c & Hc & ? & ? & Hin). exists c.
      rewrite lookup_insert_ne by (intros Heq; by subst). split_and!; try done. by right.
  - intros h' [-> | Hin]%elem_of_cons.
    + exists ce. by rewrite !lookup_insert_eq.
    + destruct (H2 _ Hin) as (c & Hc & Hcache). exists c.
      rewrite lookup_insert_ne by (intros Heq; by subst). split; [done|].
      rewrite lookup_insert_ne; [done|]. intros Heq. congruence.
  - by constructor.
  - intros h'. rewrite elem_of_cons. intros [[-> |Hin]|Hin]; [lia| |].
    + specialize (H4 h' (or_introl Hin)). lia.
    + specialize (H4 h' (or_intror Hin)). lia.
  - done.
  - intros h' Hin. rewrite elem_of_cons. intros [-> |?]; [|by apply (H6 h')].
    specialize (H4 _ (or_intror Hin)). lia.
  - done.
  - intros k'. unfold bump. rewrite <-(H8 k'). unfold handed, pending, edge. cbn [emitted cache heap].
    destruct (decide (key_of evt = k')) as [<-|Hne].
    + rewrite !lookup_insert_eq, Hk. simpl. lia.
    + rewrite lookup_insert_ne by done. destruct (cache er' !! k') as [h'|] eqn:Hk'; [|lia].
      destruct (H1 _ _ Hk') as (c & _ & _ & _ & Hin). rewrite lookup_insert_ne by (intros Heq; by subst). lia.
Qed.

(** ** Flushing many edges *)

Definition hand_all (l : list (string * nat)) (er : EdgeReducer) : EdgeReducer :=
  foldl (fun er '(key, h) => hand_over key h er) er l.

Lemma flushLocked_keeps h er :
  heap (snd (flushLocked h er)) = heap er /\ next (snd (flushLocked h er)) = next er /\
  cache (snd (flushLocked h er)) = cache er /\ lru (snd (flushLocked h er)) = lru er /\
  flushFn (snd (flushLocked h er)) = flushFn er /\ maxSize (snd (flushLocked h er)) = maxSize er.
Proof. unfold flushLocked. destruct (flushFn er) eqn:E; simpl; auto 10. Qed.

Lemma hand_over_keeps key h er :
  heap (hand_over key h er) = heap er /\ cache (hand_over key h er) = delete key (cache er) /\
  flushFn (hand_over key h er) = flushFn er.
Proof. unfold hand_over. destruct (flushLocked_keeps h er) as (? & ? & ? & ? & ? & ?). simpl. split_and!; congruence. Qed.

Lemma hand_all_inv n l er f :
  flushFn er = Some f -> NoDup l.*1 -> (forall k h, (k, h) ∈ l -> cache er !! k = Some h) -> inv n er ->
  inv n (hand_all l er) /\ flushFn (hand_all l er) = Some f /\
  (forall k, cache (hand_all l er) !! k = if decide (k ∈ l.*1) then None else cache er !! k).
Proof.
  unfold hand_all. revert er. induction l as [|[k h] l IH]; intros er Hf Hnd Hin Hinv; [done|].
  rewrite fmap_cons in Hnd. apply NoDup_cons in Hnd as [Hk Hnd]. cbn [foldl].
  destruct (hand_over_keeps k h er) as (Hh & Hc & Hf').
  destruct (IH (hand_over k h er)) as (H1 & H2 & H3).
  - congruence.
  - done.
  - intros k' h' Hin'. rewrite Hc, lookup_delete_ne; [apply Hin; by right|].
    intros ->. apply Hk. by apply (list_elem_of_fmap_2 fst _ (k', h')).
  - eapply hand_over_inv; [done| |done]. apply Hin. by left.
  - split; [done|]. split; [congruence|]. intros k'. rewrite H3, Hc, fmap_cons. cbn [fst].
    destruct (decide (k' = k)) as [->|Hne].
    + rewrite decide_False, lookup_delete_eq, decide_True by (done || by left). done.
    + rewrite lookup_delete_ne by done. destruct (decide (k' ∈ l.*1)) as [Hl|Hl].
      * by rewrite decide_True by (by right).
      * by rewrite decide_False by (rewrite elem_of_cons; tauto).
Qed.

(** Flushing without removing hands over the same edges. *)
Lemma flush_all_same l er er' :
  heap er = heap er' -> next er = next er' -> flushFn er = flushFn er' -> emitted er = emitted er' ->
  let a := foldl (fun er '(_, h) => snd (flushLocked h er)) er l in
  let b := hand_all l er' in
  heap a = heap b /\ next a = next b /\ flushFn a = flushFn b /\ emitted a = emitted b.
Proof.
  unfold hand_all. revert er er'. induction l as [|[k h] l IH]; intros er er' E1 E2 E3 E4; [done|]. cbn [foldl].
  apply IH; unfold hand_over, flushLocked, edge; rewrite E3; destruct (flushFn er') eqn:Ef; simpl; by rewrite ?E1, ?E2, ?E3, ?E4, ?Ef.
Qed.

Lemma old_steps cutoff l er m :
  fst (foldl (old_step cutoff) (er, m) l) =
    hand_all (filter (fun e => time_Before (LastSeen (edge er e.2)) cutoff = true) l) er.
Proof.
  revert er m. induction l as [|[k h] l IH]; intros er m; [done|]. cbn [foldl old_step]. rewrite filter_cons. cbn [snd].
  destruct (time_Before (LastSeen (edge er h)) cutoff) eqn:E.
  - rewrite decide_True by done. rewrite IH. change (hand_all ((k, h) :: ?l) er) with (hand_all l (hand_over k h er)).
    change (set_lru _ _) with (hand_over k h er). unfold edge. by destruct (hand_over_keeps k h er) as (-> & _).
  - rewrite decide_False by done. apply IH.
Qed.

Section flushes.
Context (order : MapOrder).

Lemma entries_ok k er :
  NoDup (range k (map_to_list (cache er))).*1 /\
  (forall key h, (key, h) ∈ range k (map_to_list (cache er)) <-> cache er !! key = Some h).
Proof.
  split.
  - rewrite (Permutation_map fst (range_perm k _)). apply NoDup_fst_map_to_list.
  - intros key h. by rewrite elem_of_range, elem_of_map_to_list.
Qed.

Lemma FlushOld_inv n clock er f :
  flushFn er = Some f -> inv n er ->
  inv n (fst (FlushOld clock er)) /\ flushFn (fst (FlushOld clock er)) = Some f.
Proof.
  intros Hf Hinv. unfold FlushOld. rewrite old_steps. destruct (entries_ok 1 er) as [Hnd Hin].
  set (P := fun e : string * nat => _). set (l := range 1 _) in *.
  destruct (hand_all_inv n (filter P l) er f Hf) as (? & ? & _); try done.
  - eapply sublist_NoDup; [exact Hnd|]. apply fmap_sublist, sublist_filter.
  - intros k h [_ Hl]%list_elem_of_filter. by apply Hin.
Qed.

Lemma FlushAll_inv n er f :
  flushFn er = Some f -> inv n er ->
  inv n (fst (FlushAll er)) /\ flushFn (fst (FlushAll er)) = Some f /\ cache (fst (FlushAll er)) = ∅.
Proof.
  intros Hf Hinv. unfold FlushAll. destruct (entries_ok 0 er) as [Hnd Hin]. set (l := range 0 _) in *.
  destruct (hand_all_inv n l er f Hf Hnd) as (Hi & Hf' & Hc); [intros; by apply Hin|done|].
  destruct (flush_all_same l er er) as (E1 & E2 & E3 & E4); [done..|].
  assert (cache (hand_all l er) = ∅) as Hempty.
  { apply map_empty. intros k. rewrite Hc. destruct (decide (k ∈ l.*1)) as [|Hk]; [done|].
    destruct (cache er !! k) as [h|] eqn:Hk'; [|done]. destruct Hk. apply Hin in Hk'.
    by apply (list_elem_of_fmap_2 fst _ (k, h)). }
  assert (lru (hand_all l er) = []) as Hlru.
  { apply elem_of_nil_inv. intros h Hh. destruct (i_lru _ _ Hi h Hh) as (ce & _ & Hce). by rewrite Hempty in Hce. }
  cbn [fst]. split; [|split; [simpl; congruence|done]].
  refine (inv_same _ _ _ _ _ _ _ _ Hi); simpl; congruence.
Qed.
End flushes.

(** ** Runs conserve events *)

Lemma inv_ext n n' er : (forall k, n k = n' k) -> inv n er -> inv n' er.
Proof. intros Hn [H1 H2 H3 H4 H5 H6 H7 H8]. split; try done. intros k. by rewrite <-Hn. Qed.

(** The invariant respects pointwise equality of the expected counts. *)
#[global] Instance inv_proper : Proper (pointwise_relation string (=) ==> (=) ==> iff) inv.
Proof. intros n n' Hn er ? <-. split; apply inv_ext; intros k; by rewrite Hn. Qed.

Lemma counts_ingest k evt :
  (if counts k (OIngest evt) then 1 else 0) =
    if critical evt then 0 else (if decide (key_of evt = k) then 1 else 0).
Proof. simpl. destruct (critical evt); [done|]. simpl. case_bool_decide; by destruct (decide _). Qed.

Lemma Ingest_inv n evt er f :
  flushFn er = Some f -> (forall ce, f ce = false) -> stale_hit er evt = false ->
  (forall key, n key < MaxInt64) -> inv n er ->
  inv (fun k => n k + (if counts k (OIngest evt) then 1 else 0)) (fst (Ingest evt er)) /\
  flushFn (fst (Ingest evt er)) = Some f.
Proof.
  intros Hf Hok Hst Hmax Hinv. unfold Ingest. set (er1 := set_stats _ er).
  assert (inv n er1) as Hinv1 by (by refine (inv_same _ _ _ _ _ _ _ _ Hinv)).
  change (stale_hit er1 evt = false) in Hst. change (flushFn er1 = Some f) in Hf.
  clearbody er1. clear Hinv. unfold stale_hit in Hst. setoid_rewrite counts_ingest.
  destruct (critical evt); simpl in Hst.
  { cbn [fst]. split; [|done]. eapply inv_ext; [|exact Hinv1]. intros k. cbn. lia. }
  destruct (cache er1 !! key_of evt) as [h|] eqn:Hc.
  - apply negb_false_iff in Hst. rewrite Hst. cbn [fst]. split; [|done]. by apply merge_inv.
  - split; [by apply (insert_inv n evt er1 f)|]. unfold insert_new.
    destruct (evict er1) as [err er2] eqn:He. assert (flushFn er2 = Some f) as Hf2; [|by destruct err].
    unfold evict in He. destruct (_ <=? _); [|by simplify_eq]. destruct (last _) as [back|]; [|by simplify_eq].
    unfold flushLocked in He. rewrite Hf, Hok in He. by simplify_eq.
Qed.

Lemma apply_op_inv n o er f :
  flushFn er = Some f -> (forall ce, f ce = false) ->
  (match o with OIngest evt => stale_hit er evt = false | _ => True end) ->
  (forall key, n key < MaxInt64) -> inv n er ->
  inv (fun k => n k + (if counts k o then 1 else 0)) (apply_op er o) /\ flushFn (apply_op er o) = Some f.
Proof.
  intros Hf Hok Hst Hmax Hinv. destruct o as [evt|order|order clock]; cbn [apply_op].
  - by apply Ingest_inv.
  - destruct (FlushAll_inv order n er f Hf Hinv) as (? & ? & _). split; [|done].
    eapply inv_ext; [|done]. intros k. cbn. lia.
  - destruct (FlushOld_inv order n clock er f Hf Hinv) as (? & ?). split; [|done].
    eapply inv_ext; [|done]. intros k. cbn. lia.
Qed.

Lemma reduce_run_inv n ops er f :
  flushFn er = Some f -> (forall ce, f ce = false) -> clean ops er = true ->
  (forall key, n key + Z.of_nat (length ops) <= MaxInt64) -> inv n er ->
  inv (fun k => n k + mergeable k ops) (run ops er) /\ flushFn (run ops er) = Some f.
Proof.
  unfold run. revert n er. induction ops as [|o ops IH]; intros n er Hf Hok Hcl Hmax Hinv.
  - split; [|done]. eapply inv_ext; [|exact Hinv]. intros k. cbn. lia.
  - cbn [clean foldl] in *. apply andb_true_iff in Hcl as [Ho Hcl].
    destruct (apply_op_inv n o er f Hf Hok) as [Hinv' Hf']; [|intros key; specialize (Hmax key); simpl in Hmax; lia|done|].
    { destruct o; [by apply negb_true_iff|done|done]. }
    edestruct IH as [Hr Hrf]; [exact Hf'|done|done| |exact Hinv'|split; [|done]].
    + intros key. specialize (Hmax key). cbn [length] in Hmax. cbn beta. rewrite Nat2Z.inj_succ in Hmax. destruct (counts key o); lia.
    + eapply inv_ext; [|exact Hr]. intros k. unfold mergeable. cbn. unfold sum. lia.
Qed.

Lemma new_inv maxSize window f : inv (fun _ => 0) (NewEdgeReducer maxSize window f).
Proof.
  split; simpl; try done; try (by intros ? [?%elem_of_nil|?%elem_of_nil]); try (by intros ? ?%elem_of_nil); constructor.
Qed.

(** [C10] The reducer neither loses nor duplicates events, as long as no event meets its
    cached edge outside the merge window and the callback reports no errors.  For
    every sequence of [Ingest], [FlushOld] and [FlushAll], under every order of map
    iteration, and for every edge key: the counts handed to the callback plus the
    count still cached equal the number of mergeable events ingested with that key;
    no cached edge is handed over twice; and a final [FlushAll] hands over the rest. *)
Theorem reducer_conserves (maxSize : Z) (window : duration) (f : CachedEdge -> bool) (ops : list op) :
  (forall ce, f ce = false) -> Z.of_nat (length ops) <= MaxInt64 ->
  clean ops (NewEdgeReducer maxSize window (Some f)) = true ->
  let er := run ops (NewEdgeReducer maxSize window (Some f)) in
  (forall key, handed key er + pending key er = mergeable key ops) /\
  NoDup (emitted er).*1 /\
  forall order : MapOrder,
    let er' := fst (FlushAll er) in
    (forall key, handed key er' = mergeable key ops) /\ NoDup (emitted er').*1 /\ cache er' = ∅.
Proof.
  intros Hok Hlen Hcl er.
  destruct (reduce_run_inv (fun _ => 0) ops (NewEdgeReducer maxSize window (Some f)) f eq_refl Hok Hcl) as [Hinv Hf]; [done|apply new_inv|].
  fold er in Hinv, Hf. split; [intros key; apply (i_count _ _ Hinv)|]. split; [apply Hinv|].
  intros order er'. destruct (FlushAll_inv order _ er f Hf Hinv) as (Hinv' & _ & Hc). fold er' in Hinv', Hc.
  split; [|split; [apply Hinv'|done]]. intros key. pose proof (i_count _ _ Hinv' key) as Hk.
  unfold pending in Hk. rewrite Hc, lookup_empty in Hk. lia.
Qed.

(** ** Edges met outside the window *)

(** A read of a file by a process, at a time in seconds. *)
Definition read_at (inode seconds : Z) : Event := mkEvent 10 (seconds * 10 ^ 9) 7 "/tmp/x" inode 8 1 0 0.
Definition edge_at (inode seconds : Z) : CachedEdge :=
  let now := time_of (read_at inode seconds) in
  mkEdge "p:7" ("f:" +:+ pretty inode +:+ ":8:1") "used" 1 now now.

Definition no_error : CachedEdge -> bool := fun _ => false.

Lemma reducer_conserves_witness :
  let ops := [OIngest (read_at 1 0); OIngest (read_at 1 3); OIngest (read_at 2 4); OIngest (read_at 1 5)] in
  let er := run ops (NewEdgeReducer 1 0 (Some no_error)) in
  (forall key, handed key er + pending key er = mergeable key ops) /\
  NoDup (emitted er).*1 /\
  forall order : MapOrder,
    let er' := fst (FlushAll er) in
    (forall key, handed key er' = mergeable key ops) /\ NoDup (emitted er').*1 /\ cache er' = ∅.
Proof.
  apply (reducer_conserves 1 0 no_error
    [OIngest (read_at 1 0); OIngest (read_at 1 3); OIngest (read_at 2 4); OIngest (read_at 1 5)]).
  - reflexivity.
  - discriminate.
  - vm_compute. reflexivity.
Defined.

(** An event that meets its cached edge outside the merge window breaks
    conservation: [Ingest] flushes the old edge but leaves its element in the LRU list,
    so evicting that element hands the old edge over a second time and removes the new
    edge from the map.  With room for two edges, after two reads of one file ten
    seconds apart, a read of another file and a [FlushAll], the callback has seen the
    first read twice and the second one never. *)
Lemma stale_edge_lost (order : MapOrder) :
  let ops := [OIngest (read_at 1 0); OIngest (read_at 1 10); OIngest (read_at 2 10); OFlushAll order] in
  let er := run ops (NewEdgeReducer 2 0 (Some no_error)) in
  (emitted er).*2 = [edge_at 1 0; edge_at 1 0; edge_at 2 10] /\ cache er = ∅ /\ lru er = [] /\
  mergeable (Key (edge_at 1 10)) ops = 2.
Proof.
  set (pre := run [OIngest (read_at 1 0); OIngest (read_at 1 10); OIngest (read_at 2 10)]
                (NewEdgeReducer 2 0 (Some no_error))).
  assert (map_to_list (cache pre) = [(Key (edge_at 2 10), 2%nat)]) as Hc by (vm_compute; reflexivity).
  change (run _ _) with (fst (FlushAll pre)). cbn zeta. unfold FlushAll. rewrite Hc.
  rewrite (proj1 (Permutation_singleton_r _ _) (range_perm 0 [(Key (edge_at 2 10), 2%nat)])).
  split; [vm_compute; reflexivity|]. split; [reflexivity|]. split; [reflexivity|]. vm_compute. reflexivity.
Qed.
End Reduce.
