(* ===== verification/ProvQL.v ===== *)
(** * The ProvQL query language: syntax, lexer and parser
    ([internal/engine/query]: [ast.go], [parser.go]).

    The lexer is the unread input and its position; the parser holds a lexer, the
    current and the next token, and the first lexical error met.  Errors are values
    that carry what the messages print.  The two loops of the parser take fuel, and
    running out of it is an error of its own, proved not to happen. *)
From S2P Require Import Prelude GoStrings GoTime.
From Stdlib Require Import Ascii.

Module ProvQL.

(** ** Syntax ([ast.go]) *)

Record NodePattern := mkNodeP { Variable_ : string; Label : string }.
Record EdgePattern := mkEdgeP { Relation : string }.
Record PathPattern := mkPath { Nodes : list NodePattern; Edges : list EdgePattern }.

Inductive Op := OpEQ | OpSTARTSWITH | OpCONTAINS | OpGT | OpLT | OpGTE | OpLTE.

#[global] Instance Op_eq_dec : EqDecision Op.
Proof. solve_decision. Defined.

Definition Op_String (o : Op) : string :=
  match o with
  | OpEQ => "=" | OpSTARTSWITH => "STARTSWITH" | OpCONTAINS => "CONTAINS"
  | OpGT => ">" | OpLT => "<" | OpGTE => ">=" | OpLTE => "<="
  end.

Record Condition := mkCond { Field : string; COp : Op; Value : string }.
Record TimeWindow := mkWindow { Start : time; End_ : time }.
Record Projection := mkProj { PVariable : string; PField : string }.

Record Query := mkQuery {
  Match : PathPattern; Where : list Condition; During : option TimeWindow; Return : list Projection;
}.

(** The maps from names of the language to those of the graph; a missing key gives [""]. *)
Definition labelToSubtype (label : string) : string :=
  if decide (label = "Process") then "process"
  else if decide (label = "File") then "file"
  else if decide (label = "Network") then "network"
  else if decide (label = "Pipe") then "pipe"
  else if decide (label = "Memory") then "memory"
  else if decide (label = "Credential") then "credential"
  else "".

Definition relationMapping (relation : string) : string :=
  if decide (relation = "WROTE") then "prov:wasGeneratedBy"
  else if decide (relation = "READ") then "prov:used"
  else if decide (relation = "FORKED") then "prov:wasInformedBy"
  else if decide (relation = "CONNECTED") then "prov:used"
  else if decide (relation = "DERIVED") then "prov:wasDerivedFrom"
  else if decide (relation = "CONTEXT") then "prov:hadSecurityContext"
  else "".

Definition ReverseRelation (relation : string) : string :=
  if decide (relation = "prov:used") then "READ"
  else if decide (relation = "prov:wasGeneratedBy") then "WROTE"
  else if decide (relation = "prov:wasInformedBy") then "FORKED"
  else if decide (relation = "prov:wasDerivedFrom") then "DERIVED"
  else if decide (relation = "prov:hadSecurityContext") then "CONTEXT"
  else "".

(** ** Lexer *)

Inductive tokenType :=
  | tokEOF | tokMATCH | tokWHERE | tokDURING | tokRETURN | tokSTARTSWITH | tokCONTAINS
  | tokLPAREN | tokRPAREN | tokLBRACKET | tokRBRACKET | tokCOLON | tokMINUS | tokRARROW
  | tokCOMMA | tokDOT | tokEQ | tokGT | tokLT | tokGTE | tokLTE | tokSTRING | tokIDENT | tokNUMBER.

#[global] Instance tokenType_eq_dec : EqDecision tokenType.
Proof. solve_decision. Defined.

Record token := mkTok { typ : tokenType; val : string; pos : nat }.

(** [input[l.pos:]] and [l.pos]. *)
Record lexer := mkLexer { rest : list ascii; lpos : nat }.

Definition newLexer (input : string) : lexer := mkLexer (chars input) 0.

Inductive lex_error :=
  | Unterminated (start : nat)
  | Unexpected (ch : ascii) (at_ : nat).

(** [unicode.IsSpace] and [unicode.IsLetter] of a byte taken as a code point. *)
Definition space (c : ascii) : bool := IsSpace (byteval c).
Definition letter (c : ascii) : bool :=
  let b := byteval c in
  cont 65 90 b || cont 97 122 b || (b =? 0xAA) || (b =? 0xB5) || (b =? 0xBA)
  || (cont 0xC0 0xFF b && negb (b =? 0xD7) && negb (b =? 0xF7)).

(** The longest prefix of characters that satisfy [p], and the rest. *)
Fixpoint span (p : ascii -> bool) (l : list ascii) : list ascii * list ascii :=
  match l with
  | c :: l' => if p c then let '(a, b) := span p l' in (c :: a, b) else ([], l)
  | [] => ([], [])
  end.

Abbreviation text := String.string_of_list_ascii.

Definition skipWhitespace (l : lexer) : lexer :=
  let '(ws, r) := span space (rest l) in mkLexer r (lpos l + length ws).

Definition word_char (c : ascii) : bool := letter c || bool_decide (c = "_"%char) || bool_decide (c = "*"%char).

Definition readWord (l : lexer) : string * lexer :=
  let '(w, r) := span word_char (rest l) in (text w, mkLexer r (lpos l + length w)).

(** Called at the opening quote. *)
Definition readString (quote : ascii) (l : lexer) : (lex_error + string) * lexer :=
  let body := tail (rest l) in
  let start := S (lpos l) in
  let '(v, r) := span (fun c => negb (bool_decide (c = quote))) body in
  match r with
  | [] => (inl (Unterminated start), mkLexer [] (start + length v))
  | _ :: r => (inr (text v), mkLexer r (S (start + length v)))
  end.

Definition quote_char : ascii := "'"%char.
Definition dquote_char : ascii := ascii_of_nat 34.

(** Characters of a literal that starts with a digit. *)
Definition number_char (c : ascii) : bool :=
  negb (space c) && negb (bool_decide (c = "]"%char)) && negb (bool_decide (c = ","%char)).

Section lexing.
Context `{UnicodeCase}.

Definition keyword (word : string) : tokenType :=
  let up := ToUpper word in
  if decide (up = "MATCH") then tokMATCH
  else if decide (up = "WHERE") then tokWHERE
  else if decide (up = "DURING") then tokDURING
  else if decide (up = "RETURN") then tokRETURN
  else if decide (up = "STARTSWITH") then tokSTARTSWITH
  else if decide (up = "CONTAINS") then tokCONTAINS
  else tokIDENT.

(** The tokens of one character. *)
Definition single (ch : ascii) : option tokenType :=
  if decide (ch = "("%char) then Some tokLPAREN
  else if decide (ch = ")"%char) then Some tokRPAREN
  else if decide (ch = "["%char) then Some tokLBRACKET
  else if decide (ch = "]"%char) then Some tokRBRACKET
  else if decide (ch = ":"%char) then Some tokCOLON
  else if decide (ch = ","%char) then Some tokCOMMA
  else if decide (ch = "."%char) then Some tokDOT
  else None.

(** [l.peek() == c] after the current character. *)
Definition follows (c : ascii) (r : list ascii) : bool :=
  match r with d :: _ => bool_decide (d = c) | [] => false end.

Definition nextToken (l : lexer) : (lex_error + token) * lexer :=
  let l := skipWhitespace l in
  match rest l with
  | [] => (inr (mkTok tokEOF "" (lpos l)), l)
  | ch :: r =>
      let p := lpos l in
      let l1 := mkLexer r (S p) in
      let l2 := mkLexer (tail r) (S (S p)) in
      match single ch with
      | Some t => (inr (mkTok t (text [ch]) p), l1)
      | None =>
          if bool_decide (ch = dquote_char) || bool_decide (ch = quote_char) then
            match readString ch l with
            | (inl e, l') => (inl e, l')
            | (inr v, l') => (inr (mkTok tokSTRING v p), l')
            end
          else if bool_decide (ch = "-"%char) && follows ">"%char r then (inr (mkTok tokRARROW "->" p), l2)
          else if bool_decide (ch = "-"%char) then (inr (mkTok tokMINUS "-" p), l1)
          else if cont 48 57 (byteval ch) then
            let '(v, r') := span number_char r in
            (inr (mkTok tokSTRING (text (ch :: v)) p), mkLexer r' (S p + length v))
          else if bool_decide (ch = ">"%char) && follows "="%char r then (inr (mkTok tokGTE ">=" p), l2)
          else if bool_decide (ch = "<"%char) && follows "="%char r then (inr (mkTok tokLTE "<=" p), l2)
          else if bool_decide (ch = "="%char) then (inr (mkTok tokEQ "=" p), l1)
          else if bool_decide (ch = ">"%char) then (inr (mkTok tokGT ">" p), l1)
          else if bool_decide (ch = "<"%char) then (inr (mkTok tokLT "<" p), l1)
          else if letter ch || bool_decide (ch = "_"%char) then
            let '(word, l') := readWord l in (inr (mkTok (keyword word) word p), l')
          else (inl (Unexpected ch p), l1)
      end
  end.

(** ** Parser *)

Record parser := mkParser { plexer : lexer; curr : token; peek : token; perr : option lex_error }.

Inductive parse_error :=
  | ELex (e : lex_error)
  | EExpected (t : tokenType) (got : token)
  | EOperator (t : tokenType)
  | ETime (v : string)
  | EFuel.

Definition zero_token : token := mkTok tokEOF "" 0.

(** [p.next()]: on a lexical error the next token is the zero token. *)
Definition next (p : parser) : parser :=
  match nextToken (plexer p) with
  | (inr tok, l) => mkParser l (peek p) tok (perr p)
  | (inl e, l) => mkParser l (peek p) zero_token (Some e)
  end.

Definition M (A : Type) : Type := parser -> parse_error + A * parser.

#[global] Instance M_ret : MRet M := fun A x p => inr (x, p).
#[global] Instance M_bind : MBind M := fun A B f m p =>
  match m p with inl e => inl e | inr (x, p) => f x p end.

Definition fail_ {A} (e : parse_error) : M A := fun _ => inl e.
Definition advance : M unit := fun p => inr (tt, next p).
Definition peekTyp : M tokenType := fun p => inr (typ (peek p), p).

Definition expect (t : tokenType) : M token := fun p =>
  match perr p with
  | Some e => inl (ELex e)
  | None => if decide (typ (peek p) = t) then inr (peek p, next p) else inl (EExpected t (peek p))
  end.

Definition parseNode : M NodePattern :=
  _ ← expect tokLPAREN; v ← expect tokIDENT; _ ← expect tokCOLON; l ← expect tokIDENT; _ ← expect tokRPAREN;
  mret (mkNodeP (val v) (val l)).

Definition parseEdge : M EdgePattern :=
  _ ← expect tokMINUS; _ ← expect tokLBRACKET; _ ← expect tokCOLON; t ← expect tokIDENT;
  _ ← expect tokRBRACKET; _ ← expect tokRARROW;
  mret (mkEdgeP (ToUpper (val t))).

(** [for p.peek.typ == tokMINUS]. *)
Fixpoint path_loop (fuel : nat) (nodes : list NodePattern) (edges : list EdgePattern) : M PathPattern :=
  t ← peekTyp;
  if decide (t = tokMINUS) then
    match fuel with
    | O => fail_ EFuel
    | S fuel => e ← parseEdge; n ← parseNode; path_loop fuel (nodes ++ [n]) (edges ++ [e])
    end
  else mret (mkPath nodes edges).

Definition parsePath (fuel : nat) : M PathPattern := n ← parseNode; path_loop fuel [n] [].

Definition operator (t : tokenType) : option Op :=
  match t with
  | tokEQ => Some OpEQ | tokSTARTSWITH => Some OpSTARTSWITH | tokCONTAINS => Some OpCONTAINS
  | tokGT => Some OpGT | tokLT => Some OpLT | tokGTE => Some OpGTE | tokLTE => Some OpLTE
  | _ => None
  end.

(** An identifier and, after a dot, another one. *)
Definition dotted : M (string * option string) :=
  t ← expect tokIDENT; d ← peekTyp;
  if decide (d = tokDOT) then _ ← advance; f ← expect tokIDENT; mret (val t, Some (val f))
  else mret (val t, None).

Definition parseConditions : M (list Condition) :=
  '(v, f) ← dotted;
  let field := match f with Some f => v +:+ "." +:+ f | None => v end in
  t ← peekTyp;
  match operator t with
  | None => fail_ (EOperator t)
  | Some op => _ ← advance; v ← expect tokSTRING; mret [mkCond field op (val v)]
  end.

Definition parseTime (v : string) : M time :=
  match time_Parse v with Some t => mret t | None => fail_ (ETime v) end.

Definition parseTimeWindow : M TimeWindow :=
  _ ← expect tokLBRACKET; t1 ← expect tokSTRING; _ ← expect tokCOMMA; t2 ← expect tokSTRING;
  _ ← expect tokRBRACKET; start ← parseTime (val t1); end_ ← parseTime (val t2);
  mret (mkWindow start end_).

Fixpoint parseProjections (fuel : nat) (projs : list Projection) : M (list Projection) :=
  '(v, f) ← dotted;
  let projs := projs ++ [mkProj v (default "" f)] in
  t ← peekTyp;
  if decide (t = tokCOMMA) then
    match fuel with
    | O => fail_ EFuel
    | S fuel => _ ← advance; parseProjections fuel projs
    end
  else mret projs.

Definition optional {A} (t : tokenType) (none : A) (m : M A) : M A :=
  t' ← peekTyp; if decide (t' = t) then _ ← advance; m else mret none.

Definition parseQuery (fuel : nat) : M Query :=
  _ ← expect tokMATCH;
  path ← parsePath fuel;
  conds ← optional tokWHERE [] parseConditions;
  tw ← optional tokDURING None (tw ← parseTimeWindow; mret (Some tw));
  _ ← expect tokRETURN;
  proj ← parseProjections fuel [];
  mret (mkQuery path conds tw proj).

(** The length of the input is enough fuel. *)
Definition Parse (input : string) : parse_error + Query :=
  let p := next (mkParser (newLexer input) zero_token zero_token None) in
  match parseQuery (S (String.length input)) p with
  | inl e => inl e
  | inr (q, _) => inr q
  end.
End lexing.

Definition tokenName (t : tokenType) : string :=
  match t with
  | tokEOF => "EOF" | tokMATCH => "MATCH" | tokWHERE => "WHERE" | tokDURING => "DURING"
  | tokRETURN => "RETURN" | tokSTARTSWITH => "STARTSWITH" | tokCONTAINS => "CONTAINS"
  | tokLPAREN => "'('" | tokRPAREN => "')'" | tokLBRACKET => "'['" | tokRBRACKET => "']'"
  | tokCOLON => "':'" | tokRARROW => "'->'" | tokCOMMA => "','" | tokDOT => "'.'" | tokEQ => "'='"
  | tokSTRING => "string" | tokIDENT => "identifier" | tokMINUS => "'-'" | tokGT => "'>'" | tokLT => "'<'"
  | tokGTE => "'>='" | tokLTE => "'<='" | tokNUMBER => "token(23)"
  end.

(** The example of the package documentation. *)
Example parse_doc :
  let _ := ascii_case in
  Parse "MATCH (p:Process)-[:WROTE]->(f:File) WHERE f.path STARTSWITH '/etc' DURING [1970-01-01T00:00:00Z, 1970-01-01T00:00:01Z] RETURN p.pid, p.comm, f.path"
  = inr (mkQuery (mkPath [mkNodeP "p" "Process"; mkNodeP "f" "File"] [mkEdgeP "WROTE"])
           [mkCond "f.path" OpSTARTSWITH "/etc"] (Some (mkWindow unix_epoch (unix_epoch + 10 ^ 9)))
           [mkProj "p" "pid"; mkProj "p" "comm"; mkProj "f" "path"]).
Proof. vm_compute. reflexivity. Qed.

(** ** Termination *)

Section total.
Context `{UnicodeCase}.

Lemma span_length p l : (length (snd (span p l)) <= length l)%nat.
Proof.
  induction l as [|c l IH]; [done|]. simpl. destruct (p c); [|done].
  destruct (span p l). simpl in *. lia.
Qed.

Lemma skip_length l : (length (rest (skipWhitespace l)) <= length (rest l))%nat.
Proof.
  unfold skipWhitespace. pose proof (span_length space (rest l)) as Hs. by destruct (span space (rest l)).
Qed.

(** A token other than the end of input, and an error, consume input. *)
Lemma nextToken_progress l :
  match nextToken l with
  | (inr t, l') => (typ t = tokEOF /\ rest l' = []) \/ (length (rest l') < length (rest l))%nat
  | (inl _, l') => (length (rest l') < length (rest l))%nat
  end.
Proof.
  pose proof (skip_length l) as Hs. unfold nextToken. destruct (skipWhitespace l) as [r p]. cbn [rest lpos] in *.
  destruct r as [|ch r]; [by left|]. cbn [length] in Hs.
  assert (length (tail r) <= length r)%nat as Ht by (destruct r; simpl; lia).
  destruct (single ch); [right; simpl; lia|].
  destruct (bool_decide (ch = dquote_char) || _).
  { unfold readString. cbn [rest tail lpos]. pose proof (span_length (fun c => negb (bool_decide (c = ch))) r) as Hl.
    destruct (span _ r) as [v r']. cbn [snd] in Hl. destruct r'; cbn [rest length] in *; [lia|right; lia]. }
  destruct (bool_decide (ch = "-"%char) && _); [right; simpl; lia|].
  destruct (bool_decide (ch = "-"%char)); [right; simpl; lia|].
  destruct (cont 48 57 (byteval ch)).
  { pose proof (span_length number_char r) as Hl. destruct (span number_char r). right. simpl in *. lia. }
  do 2 (destruct (bool_decide _ && _); [right; simpl; lia|]).
  do 3 (destruct (bool_decide _); [right; simpl; lia|]).
  destruct (letter ch || _) eqn:Hw; [|simpl; lia].
  unfold readWord. cbn [rest lpos span]. replace (word_char ch) with true.
  - pose proof (span_length word_char r) as Hl. destruct (span word_char r). right. simpl in *. lia.
  - symmetry. unfold word_char. rewrite !orb_true_iff. apply orb_true_iff in Hw. tauto.
Qed.

(** What is left to read: the unread input and the token ahead. *)
Definition left (p : parser) : nat :=
  length (rest (plexer p)) + (if decide (typ (peek p) = tokEOF) then 0 else 1).

Lemma next_left p :
  (left (next p) <= left p)%nat /\ (typ (peek p) <> tokEOF -> (S (left (next p)) <= left p)%nat).
Proof.
  pose proof (nextToken_progress (plexer p)) as Hp. unfold next, left.
  destruct (nextToken (plexer p)) as [[e|t] l']; cbn [plexer peek rest typ zero_token].
  - rewrite decide_True by done. case_decide; split; intros; try done; lia.
  - destruct Hp as [[-> ->]|Hp].
    + rewrite decide_True by done. simpl. case_decide; split; intros; try done; lia.
    + destruct (decide (typ t = tokEOF)), (decide (typ (peek p) = tokEOF)); split; intros; try done; lia.
Qed.

(** A computation that does not run out of fuel and consumes at least [k]. *)
Definition consumes {A} (k : nat) (m : M A) (p : parser) : Prop :=
  match m p with
  | inl EFuel => False
  | inl _ => True
  | inr (_, p') => (left p' + k <= left p)%nat
  end.

Lemma consumes_bind {A B} j k (m : M A) (f : A -> M B) p :
  consumes j m p -> (forall x p', (left p' + j <= left p)%nat -> consumes k (f x) p') -> consumes (j + k) (m ≫= f) p.
Proof.
  unfold consumes, mbind, M_bind. destruct (m p) as [e|[x p']]; [done|]. intros Hm Hf.
  specialize (Hf x p' Hm). destruct (f x p') as [e|[y p'']]; [done|]. lia.
Qed.

Lemma consumes_weaken {A} j k (m : M A) p : (k <= j)%nat -> consumes j m p -> consumes k m p.
Proof. unfold consumes. destruct (m p) as [e|[x p']]; [done|]. lia. Qed.

Lemma consumes_ret {A} (x : A) p : consumes 0 (mret x) p.
Proof. unfold consumes, mret, M_ret. lia. Qed.

Lemma consumes_expect t p : t <> tokEOF -> consumes 1 (expect t) p.
Proof.
  intros Ht. unfold consumes, expect. destruct (perr p); [done|]. case_decide as Hp; [|done].
  destruct (next_left p) as [_ Hn]. specialize (Hn ltac:(congruence)). lia.
Qed.

Lemma consumes_advance p : consumes 0 advance p.
Proof. unfold consumes, advance. destruct (next_left p). lia. Qed.

Lemma consumes_peek p : consumes 0 peekTyp p.
Proof. unfold consumes, peekTyp. lia. Qed.

Lemma consumes_fail {A} e p : e <> EFuel -> consumes 0 (@fail_ A e) p.
Proof. intros. unfold consumes, fail_. by destruct e. Qed.
End total.

(** Consumption along a sequence. *)
Ltac consume1 :=
  match goal with
  | |- consumes _ (expect _ ≫= _) _ => apply (consumes_bind 1 0); [by apply consumes_expect|intros ? ? ?]
  | |- consumes _ (peekTyp ≫= _) _ => apply (consumes_bind 0 0); [apply consumes_peek|intros ? ? ?]
  | |- consumes _ (advance ≫= _) _ => apply (consumes_bind 0 0); [apply consumes_advance|intros ? ? ?]
  | |- consumes _ (mret _) _ => apply consumes_ret
  | |- consumes _ (fail_ _) _ => by apply consumes_fail
  end.

Section total2.
Context `{UnicodeCase}.

Lemma consumes_node p : consumes 1 parseNode p.
Proof.
  unfold parseNode. consume1. do 4 (eapply (consumes_weaken 1); [lia|]; consume1). consume1.
Qed.

Lemma consumes_edge p : consumes 1 parseEdge p.
Proof.
  unfold parseEdge. consume1. do 5 (eapply (consumes_weaken 1); [lia|]; consume1). consume1.
Qed.

Lemma consumes_dotted p : consumes 1 dotted p.
Proof.
  unfold dotted. consume1. consume1. case_decide; [|consume1]. consume1.
  eapply (consumes_weaken 1); [lia|]. consume1. consume1.
Qed.

Lemma consumes_path_loop fuel ns es p : (left p <= fuel)%nat -> consumes 0 (path_loop fuel ns es) p.
Proof.
  revert ns es p. induction fuel as [|fuel IH]; intros ns es p Hl; cbn [path_loop].
  all: unfold consumes, mbind at 1, M_bind at 1, peekTyp; cbn beta iota.
  all: case_decide as Ht; [|change (consumes 0 (mret (mkPath ns es)) p); apply consumes_ret].
  - exfalso. unfold left in Hl. rewrite Ht in Hl. rewrite decide_False in Hl by done. lia.
  - change (consumes 0 (parseEdge ≫= fun e => parseNode ≫= fun n => path_loop fuel (ns ++ [n]) (es ++ [e])) p).
    apply (consumes_weaken 1); [lia|]. apply (consumes_bind 1 0); [apply consumes_edge|]. intros e p1 H1.
    apply (consumes_weaken 1); [lia|]. apply (consumes_bind 1 0); [apply consumes_node|]. intros n p2 H2.
    apply IH. lia.
Qed.

Lemma consumes_projections fuel ps p : (left p <= S fuel)%nat -> consumes 0 (parseProjections fuel ps) p.
Proof.
  revert ps p. induction fuel as [|fuel IH]; intros ps p Hl; cbn [parseProjections].
  all: apply (consumes_weaken 1); [lia|]; apply (consumes_bind 1 0); [apply consumes_dotted|].
  all: intros [v f] p1 H1; unfold consumes, mbind at 1, M_bind at 1, peekTyp; cbn beta iota.
  all: case_decide as Ht; [|change (consumes 0 (mret (ps ++ [mkProj v (default "" f)])) p1); apply consumes_ret].
  - exfalso. unfold left in H1, Hl. rewrite Ht in H1. rewrite decide_False in H1 by done. lia.
  - change (consumes 0 (advance ≫= fun _ => parseProjections fuel (ps ++ [mkProj v (default "" f)])) p1).
    consume1. apply IH. lia.
Qed.

Lemma consumes_conditions p : consumes 0 parseConditions p.
Proof.
  unfold parseConditions. apply (consumes_weaken 1); [lia|]. apply (consumes_bind 1 0); [apply consumes_dotted|].
  intros [v f] p1 H1. consume1. destruct (operator _); [|consume1].
  consume1. apply (consumes_weaken 1); [lia|]. consume1. consume1.
Qed.

Lemma consumes_window p : consumes 0 parseTimeWindow p.
Proof.
  unfold parseTimeWindow. do 5 (apply (consumes_weaken 1); [lia|]; consume1).
  unfold parseTime. apply (consumes_bind 0 0); [case_match; consume1|intros ? ? ?].
  apply (consumes_bind 0 0); [case_match; consume1|intros ? ? ?]. consume1.
Qed.

Lemma consumes_optional {A} t (x : A) m p :
  (forall p', consumes 0 m p') -> consumes 0 (optional t x m) p.
Proof. intros Hm. unfold optional. consume1. case_decide; [|consume1]. consume1. apply Hm. Qed.

(** The parser terminates on every input: each loop iteration consumes a token, so as
    many iterations as the input is long suffice. *)
Lemma parse_never_fuel (input : string) : Parse input <> inl EFuel.
Proof.
  unfold Parse. set (p0 := mkParser _ _ _ _). set (n := S (String.length input)).
  assert (left (next p0) <= n)%nat as Hl.
  { destruct (next_left p0) as [Hn _]. change (left p0) with (length (chars input) + 0)%nat in Hn. rewrite length_chars in Hn. subst n. lia. }
  assert (consumes 0 (parseQuery n) (next p0)) as Hc; [|unfold consumes in Hc; by destruct (parseQuery n _) as [[]|[]]].
  unfold parseQuery. apply (consumes_weaken 1); [lia|]. consume1.
  unfold parsePath. apply (consumes_bind 0 0).
  { apply (consumes_weaken 1); [lia|]. apply (consumes_bind 1 0); [apply consumes_node|intros ? ? ?].
    apply consumes_path_loop. lia. }
  intros path p2 H2. apply (consumes_bind 0 0); [apply consumes_optional, consumes_conditions|intros ? ? ?].
  apply (consumes_bind 0 0).
  { apply consumes_optional. intros. apply (consumes_bind 0 0); [apply consumes_window|intros ? ? ?]. consume1. }
  intros tw p3 H3. apply (consumes_weaken 1); [lia|]. consume1.
  apply (consumes_bind 0 0); [apply consumes_projections; lia|intros ? ? ?]. consume1.
Qed.

End total2.

(** ** Printing *)

(** The lexemes of a query text: fixed texts, identifiers, quoted and bare literals. *)
Inductive lexeme :=
  | LFixed (t : tokenType)
  | LIdent (w : list ascii)
  | LQuoted (q : ascii) (v : list ascii)
  | LBare (c : ascii) (v : list ascii).

Definition fixed_text (t : tokenType) : string :=
  match t with
  | tokMATCH => "MATCH" | tokWHERE => "WHERE" | tokDURING => "DURING" | tokRETURN => "RETURN"
  | tokSTARTSWITH => "STARTSWITH" | tokCONTAINS => "CONTAINS"
  | tokLPAREN => "(" | tokRPAREN => ")" | tokLBRACKET => "[" | tokRBRACKET => "]" | tokCOLON => ":"
  | tokMINUS => "-" | tokRARROW => "->" | tokCOMMA => "," | tokDOT => "." | tokEQ => "=" | tokGT => ">"
  | tokLT => "<" | tokGTE => ">=" | tokLTE => "<="
  | tokEOF | tokSTRING | tokIDENT | tokNUMBER => ""
  end.

Definition ltext (x : lexeme) : list ascii :=
  match x with
  | LFixed t => chars (fixed_text t)
  | LIdent w => w
  | LQuoted q v => q :: v ++ [q]
  | LBare c v => c :: v
  end.
Definition ltyp (x : lexeme) : tokenType :=
  match x with LFixed t => t | LIdent _ => tokIDENT | LQuoted _ _ | LBare _ _ => tokSTRING end.
Definition lval (x : lexeme) : string :=
  match x with
  | LFixed t => fixed_text t
  | LIdent w => text w
  | LQuoted _ v => text v
  | LBare c v => text (c :: v)
  end.

(** A gap is a nonempty run of white space. *)
Definition gap (g : list ascii) : Prop := g <> [] /\ forallb space g = true.

Section printing.
Context `{UnicodeCase}.

(** Words that lex as identifiers, and literals that lex as one string. *)
Definition ident_ok (w : list ascii) : Prop :=
  forallb word_char w = true /\ keyword (text w) = tokIDENT /\
  match w with c :: _ => (letter c || bool_decide (c = "_"%char)) = true | [] => False end.

Definition lexeme_ok (x : lexeme) : Prop :=
  match x with
  | LFixed t => fixed_text t <> ""
  | LIdent w => ident_ok w
  | LQuoted q v => (q = quote_char \/ q = dquote_char) /\ q ∉ v
  | LBare c v => cont 48 57 (byteval c) = true /\ forallb number_char v = true
  end.

Lemma span_all p a b :
  forallb p a = true -> match b with c :: _ => p c = false | [] => True end -> span p (a ++ b) = (a, b).
Proof.
  induction a as [|c a IH]; simpl; intros Ha Hb.
  - destruct b as [|c b]; [done|]. simpl. by rewrite Hb.
  - apply andb_true_iff in Ha as [-> Ha]. by rewrite IH.
Qed.

Lemma gap_head g r (P : ascii -> bool) :
  gap g -> (forall c, space c = true -> P c = false) -> match g ++ r with c :: _ => P c = false | [] => True end.
Proof.
  intros [Hne Hg] HP. destruct g as [|c g]; [done|]. simpl in *. apply andb_true_iff in Hg as [Hc _]. by apply HP.
Qed.

(** Facts about characters, checked on all 256. *)
Lemma space_not_word c : space c = true -> word_char c = false.
Proof. all_chars c. Qed.
Lemma space_not_number c : space c = true -> number_char c = false.
Proof. unfold number_char. by intros ->. Qed.
Lemma digit_start c :
  cont 48 57 (byteval c) = true ->
  single c = None /\ space c = false /\ c <> dquote_char /\ c <> quote_char /\ c <> "-"%char.
Proof. all_chars c. Qed.
Lemma word_start c :
  (letter c || bool_decide (c = "_"%char)) = true ->
  single c = None /\ space c = false /\ c <> dquote_char /\ c <> quote_char /\ c <> "-"%char /\
  cont 48 57 (byteval c) = false /\ c <> ">"%char /\ c <> "<"%char /\ c <> "="%char.
Proof. all_chars c. Qed.

Lemma skip_none c l p : space c = false -> skipWhitespace (mkLexer (c :: l) p) = mkLexer (c :: l) p.
Proof. intros Hc. unfold skipWhitespace. simpl. rewrite Hc. simpl. by rewrite Nat.add_0_r. Qed.

Lemma follows_gap c g r : gap g -> space c = false -> follows c (g ++ r) = false.
Proof.
  intros [Hne Hg] Hc. destruct g as [|d g]; [done|]. simpl in *. apply andb_true_iff in Hg as [Hd _].
  apply bool_decide_eq_false_2. congruence.
Qed.

(** The lexer reads one lexeme before a gap. *)
Lemma lex_word w g r p :
  forallb word_char w = true -> match w with c :: _ => (letter c || bool_decide (c = "_"%char)) = true | [] => False end ->
  gap g ->
  nextToken (mkLexer (w ++ g ++ r) p) =
    (inr (mkTok (keyword (text w)) (text w) p), mkLexer (g ++ r) (p + length w)).
Proof.
  intros Hw Hc Hg. destruct w as [|c w]; [done|].
  destruct (word_start c Hc) as (H1 & H2 & H3 & H4 & H5 & H6 & H7 & H8 & H9).
  unfold nextToken. rewrite <-app_comm_cons, skip_none by done. cbn [rest lpos].
  rewrite H1, !(bool_decide_eq_false_2 _ H3), !(bool_decide_eq_false_2 _ H4), !(bool_decide_eq_false_2 _ H5), H6,
    !(bool_decide_eq_false_2 _ H7), !(bool_decide_eq_false_2 _ H8), !(bool_decide_eq_false_2 _ H9), Hc.
  cbn [orb andb]. unfold readWord. cbn [rest lpos]. rewrite app_comm_cons.
  rewrite span_all; [done|done|]. apply gap_head; [done|apply space_not_word].
Qed.

Lemma lex_one x g r p :
  lexeme_ok x -> gap g ->
  nextToken (mkLexer (ltext x ++ g ++ r) p) = (inr (mkTok (ltyp x) (lval x) p), mkLexer (g ++ r) (p + length (ltext x))).
Proof.
  intros Hx Hg. destruct x as [t|w|q v|c v]; cbn [ltext ltyp lval lexeme_ok] in *.
  - destruct t; try done;
      try (rewrite lex_word by done; reflexivity);
      unfold nextToken; cbn [chars fixed_text app]; rewrite skip_none by done; cbn [rest lpos];
      cbn; rewrite ?(follows_gap _ g r Hg) by done; cbn; by rewrite Nat.add_comm.
  - destruct Hx as (H1 & H2 & H3). rewrite lex_word by done. by rewrite H2.
  - destruct Hx as [Hq Hv]. rewrite <-app_comm_cons, <-app_assoc. unfold nextToken.
    assert (space q = false /\ single q = None /\
      bool_decide (q = dquote_char) || bool_decide (q = quote_char) = true) as (H1 & H2 & H3)
      by (destruct Hq as [-> | ->]; by vm_compute).
    rewrite skip_none by done. cbn [rest lpos]. rewrite H2, H3. unfold readString. cbn [rest lpos tail].
    rewrite span_all.
    + cbn. repeat f_equal. rewrite length_app. simpl. lia.
    + apply forallb_forall. intros c Hc. apply negb_true_iff, bool_decide_eq_false_2. intros ->.
      by apply Hv, list_elem_of_In.
    + simpl. by rewrite bool_decide_eq_true_2.
  - destruct Hx as [Hc Hv]. destruct (digit_start c Hc) as (H1 & H2 & H3 & H4 & H5).
    rewrite <-app_comm_cons. unfold nextToken. rewrite skip_none by done. cbn [rest lpos].
    rewrite H1, !(bool_decide_eq_false_2 _ H3), !(bool_decide_eq_false_2 _ H4), !(bool_decide_eq_false_2 _ H5), Hc.
    cbn [orb andb]. rewrite span_all; [|done|apply gap_head; [done|apply space_not_number]].
    cbn. repeat f_equal. lia.
Qed.

Lemma skip_gap g r p : forallb space g = true -> nextToken (mkLexer (g ++ r) p) = nextToken (mkLexer r (p + length g)).
Proof.
  intros Hg. unfold nextToken. f_equal.
  assert (skipWhitespace (mkLexer (g ++ r) p) = skipWhitespace (mkLexer r (p + length g))) as ->; [|done].
  unfold skipWhitespace. cbn [rest lpos].
  assert (span space (g ++ r) = (g ++ fst (span space r), snd (span space r))) as ->.
  { induction g as [|c g IH]; simpl; [by destruct (span space r)|].
    simpl in Hg. apply andb_true_iff in Hg as [-> Hg]. by rewrite IH. }
  destruct (span space r). simpl. rewrite length_app. f_equal. lia.
Qed.

(** *** Parsing a list of lexemes *)

Definition piece : Type := lexeme * list ascii.
Definition piece_ok (x : piece) : Prop := lexeme_ok x.1 /\ gap x.2.
Definition render (xs : list piece) : list ascii := xs ≫= fun x => ltext x.1 ++ x.2.

(** The type of the token the parser sees at the front of some text. *)
Definition front (l : list ascii) : tokenType :=
  match fst (nextToken (mkLexer l 0)) with inr t => typ t | inl _ => tokEOF end.

Lemma front_pos l p :
  front l = match fst (nextToken (mkLexer l p)) with inr t => typ t | inl _ => tokEOF end.
Proof.
  unfold front, nextToken, skipWhitespace. cbn [rest lpos]. destruct (span space l) as [ws r].
  cbn [rest lpos]. destruct r as [|ch r]; [done|]. destruct (single ch); [done|].
  destruct (_ || _).
  { unfold readString. cbn [rest lpos tail]. destruct (span _ r) as [v r']. by destruct r'. }
  destruct (_ && _); [done|]. destruct (bool_decide _); [done|].
  destruct (cont 48 57 _); [by destruct (span number_char r)|].
  do 2 (destruct (_ && _); [done|]). do 3 (destruct (bool_decide _); [done|]).
  destruct (_ || _); [|done]. unfold readWord. cbn [rest lpos]. by destruct (span word_char _).
Qed.

(** The parser is in front of the pieces [xs], followed by [tail]. *)
Definition ahead (p : parser) (xs : list piece) (tail : list ascii) : Prop :=
  match xs with
  | (x, g) :: xs =>
      perr p = None /\ typ (peek p) = ltyp x /\ val (peek p) = lval x /\
      rest (plexer p) = g ++ render xs ++ tail
  | [] => typ (peek p) = front tail
  end.

Definition ahead_typ (xs : list piece) (tail : list ascii) : tokenType :=
  match xs with (x, _) :: _ => ltyp x | [] => front tail end.

Lemma ahead_peek p xs tail : ahead p xs tail -> typ (peek p) = ahead_typ xs tail.
Proof. destruct xs as [|[x g] xs]; simpl; tauto. Qed.

(** Reading the token after a gap. *)
Lemma next_ahead p g xs tail :
  perr p = None -> rest (plexer p) = g ++ render xs ++ tail -> forallb space g = true -> Forall piece_ok xs ->
  ahead (next p) xs tail.
Proof.
  intros He Hr Hg Hxs. unfold next. destruct (plexer p) as [r pos0]. cbn [rest] in Hr. subst r.
  rewrite skip_gap by done. destruct xs as [|[x g'] xs].
  - cbn [render mbind list_bind app]. pose proof (front_pos tail (pos0 + length g)) as Hf.
    destruct (nextToken _) as [[e|t] l']; simpl in *; congruence.
  - inversion_clear Hxs as [|? ? [Hx Hg'] _]. cbn [render mbind list_bind fst snd]. simpl in Hx, Hg'.
    rewrite <-!app_assoc, lex_one by done. simpl. done.
Qed.

Lemma piece_next p x g xs tail :
  ahead p ((x, g) :: xs) tail -> Forall piece_ok ((x, g) :: xs) -> ahead (next p) xs tail.
Proof.
  intros (He & _ & _ & Hr) Hxs. inversion_clear Hxs as [|? ? [_ [_ Hg]] Hxs']. by eapply next_ahead.
Qed.

(** The type of the first lexeme of a list, or [t] for the empty list. *)
Definition lead (ls : list lexeme) (t : tokenType) : tokenType :=
  match ls with x :: _ => ltyp x | [] => t end.

Lemma ahead_typ_app xs ys tail : ahead_typ (xs ++ ys) tail = lead xs.*1 (ahead_typ ys tail).
Proof. by destruct xs as [|[x g] xs]. Qed.

(** [m] reads the lexemes [ls], whatever the gaps, and returns [v] when the token after
    them satisfies [F]. *)
Definition reads {A} (m : M A) (ls : list lexeme) (F : tokenType -> Prop) (v : A) : Prop :=
  forall p xs ys tail, xs.*1 = ls -> Forall piece_ok (xs ++ ys) -> ahead p (xs ++ ys) tail ->
    F (ahead_typ ys tail) -> exists p', m p = inr (v, p') /\ ahead p' ys tail.

Lemma reads_bind {A B} (m : M A) (f : A -> M B) l1 l2 F G v w :
  reads m l1 F v -> reads (f v) l2 G w -> (forall t, G t -> F (lead l2 t)) -> reads (m ≫= f) (l1 ++ l2) G w.
Proof.
  intros Hm Hf HF p xs zs tail Hxs Hok Ha HG. apply fmap_app_inv in Hxs as (x1 & x2 & -> & -> & ->).
  rewrite <-app_assoc in *.
  destruct (Hm p x1 (x2 ++ zs) tail eq_refl Hok Ha) as (p1 & Hp1 & Ha1); [rewrite ahead_typ_app; by apply HF|].
  apply Forall_app in Hok as [_ Hok]. destruct (Hf p1 x2 zs tail eq_refl Hok Ha1 HG) as (p2 & Hp2 & Ha2).
  exists p2. split; [|done]. unfold mbind, M_bind. by rewrite Hp1.
Qed.

Lemma reads_ret {A} (v : A) F : reads (mret v) [] F v.
Proof. intros p xs ys tail Hxs _ Ha _. apply fmap_nil_inv in Hxs as ->. by exists p. Qed.

(** [expect] reads a lexeme of its type; the value is what the continuation uses. *)
Lemma reads_expect {B} x (f : token -> M B) ls G w :
  (forall t, val t = lval x -> reads (f t) ls G w) -> reads (expect (ltyp x) ≫= f) (x :: ls) G w.
Proof.
  intros Hf p xs zs tail Hxs Hok Ha HG. apply fmap_cons_inv in Hxs as ([x' g] & xs' & -> & -> & ->).
  cbn [app fst] in *. pose proof (piece_next _ _ _ _ _ Ha Hok) as Hn.
  destruct Ha as (He & Ht & Hv & _). inversion_clear Hok as [|? ? _ Hok'].
  destruct (Hf (peek p) Hv (next p) xs' zs tail eq_refl Hok' Hn HG) as (p' & Hp' & Ha').
  exists p'. split; [|done]. unfold mbind, M_bind, expect. rewrite He, decide_True by done. done.
Qed.

Lemma reads_advance {B} x (f : unit -> M B) ls G w :
  reads (f tt) ls G w -> reads (advance ≫= f) (x :: ls) G w.
Proof.
  intros Hf p xs zs tail Hxs Hok Ha HG. apply fmap_cons_inv in Hxs as ([x' g] & xs' & -> & -> & ->).
  cbn [app fst] in *. pose proof (piece_next _ _ _ _ _ Ha Hok) as Hn. inversion_clear Hok as [|? ? _ Hok'].
  destruct (Hf (next p) xs' zs tail eq_refl Hok' Hn HG) as (p' & Hp' & Ha'). by exists p'.
Qed.

Lemma reads_peek {B} (f : tokenType -> M B) ls (G : tokenType -> Prop) w :
  (forall t, G t -> reads (f (lead ls t)) ls G w) -> reads (peekTyp ≫= f) ls G w.
Proof.
  intros Hf p xs zs tail Hxs Hok Ha HG.
  destruct (Hf _ HG p xs zs tail Hxs Hok Ha HG) as (p' & Hp' & Ha').
  exists p'. split; [|done]. unfold mbind, M_bind, peekTyp.
  by rewrite (ahead_peek _ _ _ Ha), ahead_typ_app, Hxs.
Qed.

Lemma reads_weaken {A} (m : M A) ls (F G : tokenType -> Prop) v :
  reads m ls F v -> (forall t, G t -> F t) -> reads m ls G v.
Proof. intros Hm HFG p xs ys tail Hxs Hok Ha HG. apply (Hm p xs); auto. Qed.

(** *** The grammar *)

Definition any (_ : tokenType) : Prop := True.
Definition not_tok (l : list tokenType) (t : tokenType) : Prop := t ∉ l.
#[local] Instance not_tok_dec l t : Decision (not_tok l t).
Proof. unfold not_tok. apply _. Defined.

(** A name with an optional field, and the parts of a query as they are written. *)
Definition name : Type := list ascii * option (list ascii).
Definition snode : Type := list ascii * list ascii.
Record surface := mkSurface {
  s_node : snode;
  s_steps : list (list ascii * snode);
  s_where : option (name * Op * lexeme);
  s_during : option (lexeme * lexeme);
  s_proj : name;
  s_projs : list name;
}.

Definition op_tok (o : Op) : tokenType :=
  match o with
  | OpEQ => tokEQ | OpSTARTSWITH => tokSTARTSWITH | OpCONTAINS => tokCONTAINS
  | OpGT => tokGT | OpLT => tokLT | OpGTE => tokGTE | OpLTE => tokLTE
  end.

Definition node_lex (n : snode) : list lexeme :=
  [LFixed tokLPAREN; LIdent n.1; LFixed tokCOLON; LIdent n.2; LFixed tokRPAREN].
Definition edge_lex (r : list ascii) : list lexeme :=
  [LFixed tokMINUS; LFixed tokLBRACKET; LFixed tokCOLON; LIdent r; LFixed tokRBRACKET; LFixed tokRARROW].
Definition steps_lex (ss : list (list ascii * snode)) : list lexeme :=
  ss ≫= fun s => edge_lex s.1 ++ node_lex s.2.
Definition name_lex (n : name) : list lexeme :=
  LIdent n.1 :: match n.2 with Some f => [LFixed tokDOT; LIdent f] | None => [] end.
Definition where_lex (w : option (name * Op * lexeme)) : list lexeme :=
  match w with Some (n, o, v) => LFixed tokWHERE :: name_lex n ++ [LFixed (op_tok o); v] | None => [] end.
Definition during_lex (d : option (lexeme * lexeme)) : list lexeme :=
  match d with
  | Some (a, b) => [LFixed tokDURING; LFixed tokLBRACKET; a; LFixed tokCOMMA; b; LFixed tokRBRACKET]
  | None => []
  end.
Definition projs_lex (ps : list name) : list lexeme := ps ≫= fun n => LFixed tokCOMMA :: name_lex n.

Definition query_lex (s : surface) : list lexeme :=
  LFixed tokMATCH :: node_lex (s_node s) ++ steps_lex (s_steps s) ++ where_lex (s_where s)
  ++ during_lex (s_during s) ++ LFixed tokRETURN :: name_lex (s_proj s) ++ projs_lex (s_projs s).

(** What the parts stand for. *)
Definition node_of (n : snode) : NodePattern := mkNodeP (text n.1) (text n.2).
Definition edge_of (r : list ascii) : EdgePattern := mkEdgeP (ToUpper (text r)).
Definition name_of (n : name) : string * option string := (text n.1, text <$> n.2).
Definition field_of (n : name) : string :=
  match n.2 with Some f => text n.1 +:+ "." +:+ text f | None => text n.1 end.
Definition proj_of (n : name) : Projection := mkProj (text n.1) (default "" (text <$> n.2)).

(** The literals are literals and the times parse. *)
Definition query_of (s : surface) (q : Query) : Prop :=
  Match q = mkPath (node_of (s_node s) :: (node_of ∘ snd <$> s_steps s)) (edge_of ∘ fst <$> s_steps s) /\
  (match s_where s with
   | Some (n, o, v) => Where q = [mkCond (field_of n) o (lval v)] /\ ltyp v = tokSTRING
   | None => Where q = []
   end) /\
  (match s_during s with
   | Some (a, b) => exists t1 t2, During q = Some (mkWindow t1 t2) /\ ltyp a = tokSTRING /\ ltyp b = tokSTRING /\
                      time_Parse (lval a) = Some t1 /\ time_Parse (lval b) = Some t2
   | None => During q = None
   end) /\
  Return q = proj_of (s_proj s) :: (proj_of <$> s_projs s).

Lemma reads_node n : reads parseNode (node_lex n) any (node_of n).
Proof.
  unfold parseNode, node_lex.
  apply (reads_expect (LFixed tokLPAREN)). intros ? _. apply (reads_expect (LIdent n.1)). intros v Hv.
  apply (reads_expect (LFixed tokCOLON)). intros ? _. apply (reads_expect (LIdent n.2)). intros l Hl.
  apply (reads_expect (LFixed tokRPAREN)). intros ? _. rewrite Hv, Hl. apply reads_ret.
Qed.

Lemma reads_edge r : reads parseEdge (edge_lex r) any (edge_of r).
Proof.
  unfold parseEdge, edge_lex.
  apply (reads_expect (LFixed tokMINUS)). intros ? _. apply (reads_expect (LFixed tokLBRACKET)). intros ? _.
  apply (reads_expect (LFixed tokCOLON)). intros ? _. apply (reads_expect (LIdent r)). intros tr Htr.
  apply (reads_expect (LFixed tokRBRACKET)). intros ? _. apply (reads_expect (LFixed tokRARROW)). intros ? _.
  rewrite Htr. apply reads_ret.
Qed.

Lemma reads_path_loop ss fuel ns es :
  (length ss <= fuel)%nat ->
  reads (path_loop fuel ns es) (steps_lex ss) (not_tok [tokMINUS])
    (mkPath (ns ++ (node_of ∘ snd <$> ss)) (es ++ (edge_of ∘ fst <$> ss))).
Proof.
  revert fuel ns es. induction ss as [|[r n] ss IH]; intros fuel ns es Hf.
  - rewrite !app_nil_r. destruct fuel; cbn [path_loop]; apply reads_peek; intros t Ht;
      change (lead (steps_lex []) t) with t; (rewrite decide_False; [apply reads_ret|]); intros ->; apply Ht; by left.
  - destruct fuel as [|fuel]; [simpl in Hf; lia|]. cbn [path_loop]. apply reads_peek. intros t Ht.
    rewrite decide_True by done. change (steps_lex ((r, n) :: ss)) with ((edge_lex r ++ node_lex n) ++ steps_lex ss).
    rewrite <-app_assoc. eapply reads_bind; [apply reads_edge| |done].
    eapply reads_bind; [apply reads_node| |done].
    specialize (IH fuel (ns ++ [node_of n]) (es ++ [edge_of r]) ltac:(simpl in Hf; lia)).
    rewrite <-!app_assoc in IH. exact IH.
Qed.

Lemma reads_dotted n : reads dotted (name_lex n) (not_tok [tokDOT]) (name_of n).
Proof.
  unfold dotted, name_lex, name_of. apply (reads_expect (LIdent n.1)). intros t Ht. cbn [lval] in Ht. rewrite <-Ht.
  apply reads_peek. intros t' Ht'. destruct n as [v [f|]]; cbn [fst snd lead ltyp fmap option_fmap option_map].
  - rewrite decide_True by done. apply reads_advance. apply (reads_expect (LIdent f)). intros ? ->. apply reads_ret.
  - rewrite decide_False; [apply reads_ret|]. intros ->. apply Ht'. by left.
Qed.

Lemma lead_app l1 l2 t : lead (l1 ++ l2) t = lead l1 (lead l2 t).
Proof. by destruct l1. Qed.

Lemma reads_conditions n o v :
  ltyp v = tokSTRING ->
  reads parseConditions (name_lex n ++ [LFixed (op_tok o); v]) any [mkCond (field_of n) o (lval v)].
Proof.
  intros Hv. unfold parseConditions. eapply reads_bind; [apply reads_dotted| |].
  2: { intros t _. destruct o; apply (bool_decide_unpack _); reflexivity. }
  unfold name_of. apply reads_peek. intros t _. cbn [lead ltyp].
  replace (operator (op_tok o)) with (Some o) by (by destruct o).
  apply reads_advance. rewrite <-Hv. apply (reads_expect v). intros tv ->.
  destruct n as [w [f|]]; apply reads_ret.
Qed.

Lemma reads_time v t : time_Parse v = Some t -> reads (parseTime v) [] any t.
Proof. intros Ht. unfold parseTime. rewrite Ht. apply reads_ret. Qed.

Lemma reads_window a b t1 t2 :
  ltyp a = tokSTRING -> ltyp b = tokSTRING -> time_Parse (lval a) = Some t1 -> time_Parse (lval b) = Some t2 ->
  reads parseTimeWindow [LFixed tokLBRACKET; a; LFixed tokCOMMA; b; LFixed tokRBRACKET] any (mkWindow t1 t2).
Proof.
  intros Ha Hb H1 H2. unfold parseTimeWindow. apply (reads_expect (LFixed tokLBRACKET)). intros ? _.
  rewrite <-Ha. apply (reads_expect a). intros ta Hta. apply (reads_expect (LFixed tokCOMMA)). intros ? _.
  rewrite Ha, <-Hb. apply (reads_expect b). intros tb Htb. apply (reads_expect (LFixed tokRBRACKET)). intros ? _.
  rewrite Hta, Htb. apply (reads_bind _ _ [] [] any any t1); [by apply reads_time| |done].
  apply (reads_bind _ _ [] [] any any t2); [by apply reads_time| |done]. apply reads_ret.
Qed.

Lemma reads_projections ps n fuel acc :
  (length ps <= fuel)%nat ->
  reads (parseProjections fuel acc) (name_lex n ++ projs_lex ps) (not_tok [tokDOT; tokCOMMA])
    (acc ++ proj_of n :: (proj_of <$> ps)).
Proof.
  revert n fuel acc. induction ps as [|n' ps IH]; intros n fuel acc Hf.
  - destruct fuel; cbn [parseProjections].
    all: eapply reads_bind; [apply reads_dotted| |intros t Ht; unfold not_tok in *; set_solver].
    all: unfold name_of; apply reads_peek; intros t Ht; change (lead (projs_lex []) t) with t.
    all: rewrite decide_False; [apply reads_ret|]; intros ->; apply Ht; set_solver.
  - destruct fuel as [|fuel]; [simpl in Hf; lia|]. cbn [parseProjections].
    eapply reads_bind; [apply reads_dotted| |intros t Ht; apply (bool_decide_unpack _); reflexivity].
    unfold name_of. apply reads_peek. intros t Ht. change (lead (projs_lex (n' :: ps)) t) with tokCOMMA.
    rewrite decide_True by done. change (projs_lex (n' :: ps)) with (LFixed tokCOMMA :: name_lex n' ++ projs_lex ps).
    apply reads_advance. specialize (IH n' fuel (acc ++ [proj_of n]) ltac:(simpl in Hf; lia)).
    rewrite <-app_assoc in IH. exact IH.
Qed.

(** An optional clause, present or not. *)
Lemma reads_optional_some {A} t ls (x v : A) m :
  reads m ls any v -> reads (optional t x m) (LFixed t :: ls) any v.
Proof.
  intros Hm. unfold optional. apply reads_peek. intros t' _. cbn [lead ltyp]. rewrite decide_True by done.
  by apply reads_advance.
Qed.
Lemma reads_optional_none {A} t (x : A) m : reads (optional t x m) [] (not_tok [t]) x.
Proof.
  unfold optional. apply reads_peek. intros t' Ht. cbn [lead]. rewrite decide_False; [apply reads_ret|].
  intros ->. apply Ht. by left.
Qed.

Lemma not_tok_of l k t : t ∈ l -> bool_decide (Forall (not_tok k) l) = true -> not_tok k t.
Proof. intros Ht Hf%bool_decide_eq_true. rewrite Forall_forall in Hf. by apply Hf. Qed.

Lemma where_lead w d r t :
  lead (where_lex w ++ during_lex d ++ LFixed tokRETURN :: r) t ∈ [tokWHERE; tokDURING; tokRETURN] /\
  lead (during_lex d ++ LFixed tokRETURN :: r) t ∈ [tokDURING; tokRETURN].
Proof. destruct w as [[[n o] v]|], d as [[a b]|]; simpl; set_solver. Qed.

Lemma reads_query s q fuel :
  query_of s q -> (length (s_steps s) <= fuel)%nat -> (length (s_projs s) <= fuel)%nat ->
  reads (parseQuery fuel) (query_lex s) (not_tok [tokDOT; tokCOMMA]) q.
Proof.
  destruct s as [n ss w d pr prs], q as [qm qw qd qr]. unfold query_of, query_lex.
  cbn [s_node s_steps s_where s_during s_proj s_projs Match Where During Return]. intros (-> & Hw & Hd & ->) Hs Hp.
  unfold parseQuery. apply (reads_expect (LFixed tokMATCH)). intros tk _. rewrite app_assoc.
  pose proof (where_lead w d (name_lex pr ++ projs_lex prs)) as Hlead.
  eapply (reads_bind _ _ _ _ (not_tok [tokMINUS])); [|shelve|].
  { unfold parsePath. eapply reads_bind; [apply reads_node|by apply (reads_path_loop ss fuel [node_of n] [])|done]. }
  { intros t Ht. destruct (Hlead t) as [Hl _]. by eapply not_tok_of. }
  Unshelve.
  eapply (reads_bind _ _ _ _ (not_tok [tokWHERE])).
  { destruct w as [[[nm o] v]|]; [|subst qw; apply reads_optional_none].
    destruct Hw as [-> Hv]. eapply reads_weaken; [by apply reads_optional_some, reads_conditions|done]. }
  2: { intros t Ht. destruct (Hlead t) as [_ Hl]. by eapply not_tok_of. }
  eapply (reads_bind _ _ _ _ (not_tok [tokDURING])).
  { destruct d as [[a b]|]; [|subst qd; apply reads_optional_none].
    destruct Hd as (t1 & t2 & -> & H1 & H2 & H3 & H4). eapply reads_weaken; [apply reads_optional_some|done].
    rewrite <-(app_nil_r [_; a; _; b; _]).
    eapply (reads_bind _ _ _ [] any); [by apply reads_window|apply reads_ret|done]. }
  2: { intros t Ht. apply (bool_decide_unpack _). reflexivity. }
  apply (reads_expect (LFixed tokRETURN)). intros ? _.
  rewrite <-(app_nil_r (name_lex pr ++ projs_lex prs)).
  eapply (reads_bind _ _ _ []); [by apply (reads_projections prs pr fuel [])|apply reads_ret|done].
Qed.

Lemma render_length xs : Forall piece_ok xs -> (length xs <= length (render xs))%nat.
Proof.
  induction 1 as [|[x g] xs [_ [Hg _]] _ IH]; [done|]. unfold render in *. cbn [mbind list_bind fst snd].
  rewrite !length_app. destruct g; [done|]. simpl. lia.
Qed.

Lemma query_lex_length s : (length (s_steps s) + length (s_projs s) <= length (query_lex s))%nat.
Proof.
  assert (forall ss, length ss <= length (steps_lex ss))%nat as H1.
  { induction ss as [|[r n] ss IH]; [done|].
    change (steps_lex ((r, n) :: ss)) with ((edge_lex r ++ node_lex n) ++ steps_lex ss).
    rewrite !length_app. cbn [length edge_lex node_lex]. lia. }
  assert (forall ps, length ps <= length (projs_lex ps))%nat as H2.
  { induction ps as [|n ps IH]; [done|].
    change (projs_lex (n :: ps)) with (LFixed tokCOMMA :: name_lex n ++ projs_lex ps).
    cbn [length]. rewrite length_app. lia. }
  unfold query_lex. specialize (H1 (s_steps s)). specialize (H2 (s_projs s)).
  cbn [length]. rewrite !length_app. cbn [length]. rewrite !length_app. lia.
Qed.

(** [C38] Parsing inverts printing.  Take any query written with well-formed names,
    quoted literals or bare literals that start with a digit, and times that parse;
    print its lexemes with any white space between them and before them.  [Parse]
    returns exactly the query, whatever text follows it: unless the next token is a
    dot or a comma, the parser does not look at the rest of its input, not even when
    it does not lex. *)
Theorem parse_print (s : surface) (q : Query) (xs : list piece) (g tail : list ascii) :
  query_of s q -> xs.*1 = query_lex s -> Forall piece_ok xs -> forallb space g = true ->
  front tail ∉ [tokDOT; tokCOMMA] ->
  Parse (text (g ++ render xs ++ tail)) = inr q.
Proof.
  intros Hq Hxs Hok Hg Ht. unfold Parse, newLexer. rewrite String.list_ascii_of_string_of_list_ascii.
  set (input := g ++ render xs ++ tail). set (p0 := mkParser _ _ _ _).
  assert (ahead (next p0) xs tail) as Ha by (by eapply next_ahead).
  pose proof (render_length xs Hok) as Hl. pose proof (query_lex_length s) as Hl'.
  rewrite <-Hxs, length_fmap in Hl'.
  assert (length xs <= S (String.length (text input)))%nat as Hn.
  { rewrite <-length_chars, String.list_ascii_of_string_of_list_ascii. subst input. rewrite !length_app. lia. }
  pose proof (Nat.le_trans _ _ _ Hl' Hn) as Hfuel.
  destruct (reads_query s q (S (String.length (text input))) Hq) with (p := next p0) (xs := xs) (ys := @nil piece)
    (tail := tail) as (p' & -> & _); rewrite ?app_nil_r; done || lia.
Qed.
End printing.

(** ** Witness *)

(** [MATCH ( p : Process ) - [ : wrote ] -> ( f : File ) WHERE f . path STARTSWITH '/etc'
    RETURN p . pid , f] and a trailing semicolon, which does not lex. *)
Definition sample_surface : surface :=
  mkSurface (chars "p", chars "Process") [(chars "wrote", (chars "f", chars "File"))]
    (Some ((chars "f", Some (chars "path")), OpSTARTSWITH, LQuoted quote_char (chars "/etc"))) None
    (chars "p", Some (chars "pid")) [(chars "f", None)].
Definition sample_query : Query :=
  mkQuery (mkPath [mkNodeP "p" "Process"; mkNodeP "f" "File"] [mkEdgeP "WROTE"])
    [mkCond "f.path" OpSTARTSWITH "/etc"] None [mkProj "p" "pid"; mkProj "f" ""].

#[local] Instance lexeme_ok_dec `{UnicodeCase} x : Decision (lexeme_ok x).
Proof. destruct x as [t|w|q v|c v]; cbn; unfold ident_ok; try apply _; destruct w; apply _. Defined.
#[local] Instance piece_ok_dec `{UnicodeCase} x : Decision (piece_ok x).
Proof. unfold piece_ok, gap. apply _. Defined.

Definition sample_pieces : list piece := (fun x => (x, [" "%char])) <$> query_lex sample_surface.
Definition sample_text : string := text ([] ++ render sample_pieces ++ chars "; DROP").

Example sample_text_ok :
  sample_text = "MATCH ( p : Process ) - [ : wrote ] -> ( f : File ) WHERE f . path STARTSWITH '/etc' RETURN p . pid , f ; DROP".
Proof. vm_compute. reflexivity. Qed.

Lemma parse_print_witness : @Parse ascii_case sample_text = inr sample_query.
Proof.
  apply (@parse_print ascii_case sample_surface sample_query sample_pieces [] (chars "; DROP")).
  - split; [reflexivity|]. split; [by split|]. split; reflexivity.
  - reflexivity.
  - apply (bool_decide_unpack _). vm_compute. exact I.
  - reflexivity.
  - apply (bool_decide_unpack _). vm_compute. exact I.
Defined.
End ProvQL.
