(* ===== verification/QueryExec.v ===== *)
(** * The ProvQL executor ([internal/engine/query/executor.go]).

    A query runs against a snapshot of the provenance graph.  Index expressions that
    Go checks at run time are partial here: [None] is a panic.  The elapsed time of a
    result is not modelled. *)
From S2P Require Import Prelude GoStrings GoTime Events ProvGraph ProvInv ProvVersions ProvQL.

Module Exec.
Import ProvQL.

(** The graph's own accessors, under names that do not clash with the query's fields. *)
Abbreviation graph_edges := ProvGraph.Edges.

(** [Graph.Nodes]: the nodes in the order of a map iteration. *)
Definition graph_nodes `{MapOrder} (g : Graph) : list Node.t := (range 0 (map_to_list (nodes g))).*2.

(** [fmt.Sprintf("%v", n.Attributes[key])]. *)
Definition print_attr (a : option attr) : string :=
  match a with
  | None => "<nil>"
  | Some (AStr s) => s
  | Some (AU32 n) | Some (AU64 n) => pretty n
  | Some (ABool b) => if b then "true" else "false"
  end.

(** A row maps names to values; [Columns] are the projected names. *)
Record ResultRow := mkRow { Values : gmap string attr }.
Record Result := mkResult { Columns : list string; Rows : list ResultRow }.

Definition evaluate (actual : string) (op : Op) (expected : string) : bool :=
  match op with
  | OpEQ => bool_decide (actual = expected)
  | OpSTARTSWITH => HasPrefix actual expected
  | OpCONTAINS => Contains actual expected
  | _ => bool_decide (actual = expected)
  end.

Definition column (p : Projection) : string :=
  if bool_decide (PField p = "") then PVariable p else PVariable p +:+ "." +:+ PField p.

(** The values of one bound node; an attribute replaces a built-in field of its name. *)
Definition node_values (v : string) (n : Node.t) : gmap string attr :=
  list_to_map ((fun '(k, a) => (v +:+ "." +:+ k, a)) <$> map_to_list (Node.Attributes n))
  ∪ {[ v +:+ ".type" := AStr (Node.Subtype n) ]} ∪ {[ v +:+ ".label" := AStr (Node.Label n) ]}
  ∪ {[ v +:+ ".id" := AStr (Node.ID n) ]} ∪ {[ v := AStr (Node.ID n) ]}.

Definition buildRow (bindings : gmap string Node.t) (path : PathPattern) : ResultRow :=
  mkRow (foldl (fun row np =>
                  match bindings !! Variable_ np with
                  | Some n => node_values (Variable_ np) n ∪ row
                  | None => row
                  end) ∅ (Nodes path)).

Section run.
Context `{UnicodeCase}.
Context (g : Graph).

Definition getField (n : Node.t) (field : string) : string :=
  let f := ToLower field in
  if bool_decide (f = "id") then Node.ID n
  else if bool_decide (f ∈ ["label"; "name"; "comm"]) then Node.Label n
  else if bool_decide (f ∈ ["type"; "subtype"]) then Node.Subtype n
  else if bool_decide (f = "pid") then print_attr (Node.Attributes n !! "pid")
  else if bool_decide (f = "uid") then print_attr (Node.Attributes n !! "uid")
  else if bool_decide (f = "inode") then print_attr (Node.Attributes n !! "inode")
  else if bool_decide (f = "path") then Node.Label n
  else if bool_decide (f = "mode") then print_attr (Node.Attributes n !! "mode")
  else print_attr (Node.Attributes n !! field).

Definition matchesWhere (n : Node.t) (variable : string) (conds : list Condition) : bool :=
  forallb (fun c =>
             if HasPrefix (Field c) (variable +:+ ".")
             then evaluate (getField n (TrimPrefix (Field c) (variable +:+ "."))) (COp c) (Value c)
             else true) conds.

Definition in_during (during : option TimeWindow) (ts : time) : bool :=
  match during with
  | None => true
  | Some w => negb (time_Before ts (Start w) || time_After ts (End_ w))
  end.

(** The node an edge leads to from [node], in either direction, if the edge, the node
    and the node's conditions match. *)
Definition follow (node : Node.t) (ep : EdgePattern) (np : NodePattern) (conds : list Condition)
    (during : option TimeWindow) (edge : Edge.t) : option Node.t :=
  let target :=
    if bool_decide (Edge.Source edge = Node.ID node) then LookupNode g (Edge.Target edge)
    else if bool_decide (Edge.Target edge = Node.ID node) then LookupNode g (Edge.Source edge)
    else None in
  let provRel := relationMapping (Relation ep) in
  let nextSubtype := labelToSubtype (Label np) in
  if negb (bool_decide (provRel = "")) && negb (bool_decide (Edge.Relation edge = provRel)) then None
  else
    match target with
    | None => None
    | Some n =>
        if negb (bool_decide (nextSubtype = "")) && negb (bool_decide (Node.Subtype n = nextSubtype)) then None
        else if negb (matchesWhere n (Variable_ np) conds) then None
        else if in_during during (Edge.Timestamp edge) then Some n else None
    end.

(** The results of a list of calls, in order; [None] if one of them panics. *)
Fixpoint collect {A B} (f : A -> option (list B)) (l : list A) : option (list B) :=
  match l with
  | [] => Some []
  | x :: l => r ← f x; rs ← collect f l; Some (r ++ rs)
  end.

(** [nps] and [eps] are [path.Nodes[nodeIdx:]] and [path.Edges[edgeIdx:]]. *)
Fixpoint traverse (path : PathPattern) (conds : list Condition) (during : option TimeWindow)
    (nps : list NodePattern) (eps : list EdgePattern) (node : Node.t) (bindings : gmap string Node.t)
  : option (list ResultRow) :=
  match nps with
  | [] => None
  | np :: nps =>
      let bindings := <[Variable_ np := node]> bindings in
      match nps with
      | [] => Some [buildRow bindings path]
      | np' :: _ =>
          match eps with
          | [] => None
          | ep :: eps =>
              collect (fun edge =>
                         match follow node ep np' conds during edge with
                         | Some n => traverse path conds during nps eps n bindings
                         | None => Some []
                         end) (graph_edges g)
          end
      end
  end.

(** The starting nodes of a query. *)
Definition starts (np : NodePattern) (conds : list Condition) (n : Node.t) : bool :=
  let subtype := labelToSubtype (Label np) in
  negb (negb (bool_decide (subtype = "")) && negb (bool_decide (Node.Subtype n = subtype)))
  && matchesWhere n (Variable_ np) conds.

Context `{MapOrder}.

Definition Run (q : Query) : option Result :=
  match Nodes (Match q) with
  | [] => None
  | firstNode :: _ =>
      let candidates := List.filter (starts firstNode (Where q)) (graph_nodes g) in
      rows ← collect (fun startNode => traverse (Match q) (Where q) (During q) (Nodes (Match q)) (Edges (Match q))
                                         startNode ∅) candidates;
      Some (mkResult (column <$> Return q) rows)
  end.

(** [inl] is the parse error; [inr None] would be a panic. *)
Definition Execute (queryStr : string) : parse_error + option Result :=
  match Parse queryStr with
  | inl e => inl e
  | inr q => inr (Run q)
  end.
End run.

(** ** Specification *)

Section spec.
Context `{UnicodeCase}.
Context (g : Graph).

(** A label that is not one of the six names matches every node, and a relation that is
    not one of the six names matches every edge. *)
Definition label_ok (label : string) (n : Node.t) : Prop :=
  labelToSubtype label = "" \/ Node.Subtype n = labelToSubtype label.
Definition relation_ok (relation : string) (e : Edge.t) : Prop :=
  relationMapping relation = "" \/ Edge.Relation e = relationMapping relation.

Definition node_ok (np : NodePattern) (conds : list Condition) (n : Node.t) : Prop :=
  label_ok (Label np) n /\ matchesWhere n (Variable_ np) conds = true.

(** The edge joins the two nodes, in either direction. *)
Definition joins (e : Edge.t) (n n' : Node.t) : Prop :=
  (Edge.Source e = Node.ID n /\ LookupNode g (Edge.Target e) = Some n') \/
  (Edge.Source e <> Node.ID n /\ Edge.Target e = Node.ID n /\ LookupNode g (Edge.Source e) = Some n').

(** The nodes [ns] match the rest of a path. *)
Inductive path_match (conds : list Condition) (during : option TimeWindow)
  : list NodePattern -> list EdgePattern -> list Node.t -> Prop :=
  | pm_end np n : path_match conds during [np] [] [n]
  | pm_step np np' nps ep eps n n' ns e :
      e ∈ graph_edges g -> joins e n n' -> relation_ok (Relation ep) e -> in_during during (Edge.Timestamp e) = true ->
      node_ok np' conds n' -> path_match conds during (np' :: nps) eps (n' :: ns) ->
      path_match conds during (np :: np' :: nps) (ep :: eps) (n :: n' :: ns).

(** A variable that occurs twice is bound to the later node. *)
Definition bind_all (nps : list NodePattern) (ns : list Node.t) (b : gmap string Node.t) : gmap string Node.t :=
  foldl (fun b '(np, n) => <[Variable_ np := n]> b) b (zip nps ns).

Lemma either_spec (s t : string) : negb (bool_decide (s = "")) && negb (bool_decide (t = s)) = false <-> s = "" \/ t = s.
Proof. rewrite andb_false_iff, !negb_false_iff, !bool_decide_eq_true. done. Qed.

Lemma joins_spec e n n' :
  joins e n n' <->
    (if bool_decide (Edge.Source e = Node.ID n) then LookupNode g (Edge.Target e)
     else if bool_decide (Edge.Target e = Node.ID n) then LookupNode g (Edge.Source e)
     else None) = Some n'.
Proof. unfold joins. repeat case_bool_decide; naive_solver. Qed.

Lemma follow_spec n ep np conds during e n' :
  follow g n ep np conds during e = Some n' <->
    joins e n n' /\ relation_ok (Relation ep) e /\ node_ok np conds n' /\ in_during during (Edge.Timestamp e) = true.
Proof.
  rewrite joins_spec. unfold follow.
  generalize (if bool_decide (Edge.Source e = Node.ID n) then LookupNode g (Edge.Target e)
              else if bool_decide (Edge.Target e = Node.ID n) then LookupNode g (Edge.Source e) else None). intros tgt.
  unfold relation_ok, node_ok, label_ok. rewrite <-!either_spec.
  destruct (negb (bool_decide (relationMapping (Relation ep) = "")) && _); [naive_solver|].
  destruct tgt as [m|]; [|naive_solver].
  split.
  - intros Hf. destruct (negb (bool_decide (labelToSubtype (Label np) = "")) && _) eqn:E1; [done|].
    destruct (matchesWhere m (Variable_ np) conds) eqn:E2; [|done].
    destruct (in_during during _) eqn:E3; [|done]. injection Hf as <-. by rewrite E1, E2.
  - intros ([= ->] & _ & [-> ->] & ->). done.
Qed.

Lemma starts_spec np conds n : starts np conds n = true <-> node_ok np conds n.
Proof. unfold starts, node_ok, label_ok. by rewrite andb_true_iff, negb_true_iff, either_spec. Qed.

Lemma collect_total {A B} (f : A -> option (list B)) l :
  (forall x, x ∈ l -> is_Some (f x)) ->
  exists rs, collect f l = Some rs /\ forall r, r ∈ rs <-> exists x y, x ∈ l /\ f x = Some y /\ r ∈ y.
Proof.
  induction l as [|x l IH]; intros Hf.
  - exists []. split; [done|]. intros r. split; [by intros ?%elem_of_nil|]. by intros (x & y & ?%elem_of_nil & _).
  - destruct (Hf x) as [y Hy]; [by left|]. destruct IH as (rs & Hrs & Hspec); [intros; apply Hf; by right|].
    exists (y ++ rs). split; [by simpl; rewrite Hy; simpl; rewrite Hrs|]. intros r. rewrite elem_of_app, Hspec. split.
    + intros [Hr|(x' & y' & Hx' & Hy' & Hr)]; [exists x, y|exists x', y']; (split; [by (left || right)|done]).
    + intros (x' & y' & [-> |Hx']%elem_of_cons & Hy' & Hr); [left; congruence|right; eauto].
Qed.

(** The rows of a traversal are those of the matching node sequences. *)
Lemma traverse_spec path conds during nps eps n b :
  length nps = S (length eps) ->
  exists rows, traverse g path conds during nps eps n b = Some rows /\
    forall r, r ∈ rows <-> exists ns, path_match conds during nps eps (n :: ns) /\ r = buildRow (bind_all nps (n :: ns) b) path.
Proof.
  revert eps n b. induction nps as [|np nps IH]; intros eps n b Hl; [done|]. cbn [traverse].
  destruct nps as [|np' nps].
  - destruct eps; [|done]. eexists. split; [done|]. intros r. rewrite list_elem_of_singleton. split.
    + intros ->. exists []. split; [constructor|done].
    + intros (ns & Hm & ->). by inversion Hm.
  - destruct eps as [|ep eps]; [done|]. set (b' := <[Variable_ np := n]> b). injection Hl as Hl.
    assert (forall m, exists rows, traverse g path conds during (np' :: nps) eps m b' = Some rows /\ forall r, r ∈ rows <->
      exists ns, path_match conds during (np' :: nps) eps (m :: ns) /\
        r = buildRow (bind_all (np' :: nps) (m :: ns) b') path) as IH' by (intros m; apply IH; simpl; lia).
    set (f := fun edge => match follow g n ep np' conds during edge with
                          | Some m => traverse g path conds during (np' :: nps) eps m b' | None => Some [] end).
    destruct (collect_total f (graph_edges g)) as (rs & Hrs & Hspec).
    { intros e _. unfold f. destruct (follow _ _ _ _ _ _ _) as [m|]; [|done].
      destruct (IH' m) as (rows & -> & _). done. }
    exists rs. split; [exact Hrs|]. intros r. rewrite Hspec. unfold f. split.
    + intros (e & y & He & Hy & Hr). destruct (follow g n ep np' conds during e) as [m|] eqn:Hfo; [|by simplify_eq; apply elem_of_nil in Hr].
      apply follow_spec in Hfo as (Hj & Hrel & Hn & Hd). destruct (IH' m) as (rows & Ht & Hrows).
      rewrite Hy in Ht. injection Ht as ->. apply Hrows in Hr as (ns & Hm & ->). exists (m :: ns).
      split; [by eapply pm_step|done].
    + intros (ns & Hm & ->). inversion Hm as [|? ? ? ? ? ? m ns' e He Hj Hrel Hd Hn Hrest]; subst.
      destruct (IH' m) as (rows & Ht & Hrows). exists e, rows. split; [done|].
      rewrite (proj2 (follow_spec n ep np' conds during e m)) by done. split; [done|]. apply Hrows. by exists ns'.
Qed.
End spec.

(** [C39] The executor computes exactly the matches of the pattern.  For a query whose
    path has one more node than edges, [Run] does not panic, and its rows are exactly
    the rows built from the sequences of graph nodes that match the path: the first
    node satisfies its label and the conditions on its variable, and each next node
    is joined to the one before it by an edge, in either direction, with the edge's
    relation and inside the time window, and satisfies its own label and conditions;
    for every order of map iteration. *)
Theorem query_exact `{UnicodeCase} (order : MapOrder) (g : Graph) (q : Query) :
  length (Nodes (Match q)) = S (length (Edges (Match q))) ->
  exists rows, Run g q = Some (mkResult (column <$> Return q) rows) /\
    forall r, r ∈ rows <-> exists np id n ns,
      head (Nodes (Match q)) = Some np /\ nodes g !! id = Some n /\ node_ok np (Where q) n /\
      path_match g (Where q) (During q) (Nodes (Match q)) (Edges (Match q)) (n :: ns) /\
      r = buildRow (bind_all (Nodes (Match q)) (n :: ns) ∅) (Match q).
Proof.
  intros Hl. unfold Run. destruct (Nodes (Match q)) as [|np nps] eqn:Hnps; [done|].
  assert (forall m, exists rows,
    traverse g (Match q) (Where q) (During q) (np :: nps) (Edges (Match q)) m ∅ = Some rows /\ forall r, r ∈ rows <->
      exists ns, path_match g (Where q) (During q) (np :: nps) (Edges (Match q)) (m :: ns) /\
        r = buildRow (bind_all (np :: nps) (m :: ns) ∅) (Match q)) as Ht by (intros m; by apply traverse_spec).
  destruct (collect_total (fun m => traverse g (Match q) (Where q) (During q) (np :: nps) (Edges (Match q)) m ∅)
    (List.filter (starts np (Where q)) (graph_nodes g))) as (rs & Hrs & Hspec).
  { intros m _. destruct (Ht m) as (rows & -> & _). done. }
  exists rs. rewrite Hrs. split; [done|]. intros r. rewrite Hspec.
  assert (forall n, n ∈ List.filter (starts np (Where q)) (graph_nodes g) <->
    exists id, nodes g !! id = Some n /\ node_ok np (Where q) n) as Hc.
  { intros n. rewrite list_elem_of_In, filter_In, <-list_elem_of_In, starts_spec. unfold graph_nodes.
    rewrite list_elem_of_fmap. setoid_rewrite elem_of_range. split.
    - intros [([id m] & -> & Hin%elem_of_map_to_list) Hn]. by exists id.
    - intros (id & Hid & Hn). split; [|done]. exists (id, n). by rewrite elem_of_map_to_list. }
  split.
  - intros (m & y & (id & Hid & Hok)%Hc & Hy & Hr). destruct (Ht m) as (rows & Hrows & Hm).
    rewrite Hy in Hrows. injection Hrows as ->. apply Hm in Hr as (ns & ? & ->). by exists np, id, m, ns.
  - intros (np' & id & m & ns & [= <-] & Hid & Hok & Hm & ->). destruct (Ht m) as (rows & Hrows & Hspec').
    exists m, rows. split; [apply Hc; by exists id|]. split; [done|]. apply Hspec'. by exists ns.
Qed.

(** ** Parsed queries *)

Lemma Run_total `{UnicodeCase} (order : MapOrder) (g : Graph) (q : Query) :
  length (Nodes (Match q)) = S (length (Edges (Match q))) ->
  exists rows, Run g q = Some (mkResult (column <$> Return q) rows).
Proof.
  intros Hl. unfold Run. destruct (Nodes (Match q)) as [|np nps] eqn:Hnps; [done|]. rewrite <-Hnps in *.
  destruct (collect_total (fun m => traverse g (Match q) (Where q) (During q) (Nodes (Match q)) (Edges (Match q)) m ∅)
    (List.filter (starts np (Where q)) (graph_nodes g))) as (rs & -> & _); [|by exists rs].
  intros m _. destruct (traverse_spec g (Match q) (Where q) (During q) _ _ m ∅ Hl) as (rows & -> & _). done.
Qed.

Section shape.
Context `{UnicodeCase}.

Lemma path_loop_shape fuel ns es p path p' :
  length ns = S (length es) -> path_loop fuel ns es p = inr (path, p') -> length (Nodes path) = S (length (Edges path)).
Proof.
  revert ns es p. induction fuel as [|fuel IH]; intros ns es p Hl; cbn [path_loop].
  all: unfold mbind, M_bind, peekTyp; cbn beta iota; case_decide; [|intros [= <- <-]; done].
  - done.
  - destruct (parseEdge p) as [|[e p1]]; [done|]. destruct (parseNode p1) as [|[n p2]]; [done|].
    apply IH. rewrite !length_app. simpl. lia.
Qed.

Lemma Parse_shape input q : Parse input = inr q -> length (Nodes (Match q)) = S (length (Edges (Match q))).
Proof.
  unfold Parse. set (p0 := next _). destruct (parseQuery _ p0) as [|[q' p']] eqn:Hq; [done|]. intros [= ->].
  unfold parseQuery, mbind, M_bind in Hq. destruct (expect tokMATCH p0) as [|[? p1]]; [done|].
  unfold parsePath, mbind at 1, M_bind at 1 in Hq.
  destruct (parseNode p1) as [|[n p2]]; [done|].
  destruct (path_loop _ [n] [] p2) as [|[path p3]] eqn:Hpath; [done|].
  apply path_loop_shape in Hpath; [|done]. unfold mret, M_ret in Hq. repeat case_match; simplify_eq; done.
Qed.
End shape.

(** Executing query text is total: on every input, [Execute] returns the parser's
    error, or a result whose columns are the projections in order.  No index expression
    of the executor is out of range on a parsed query, and the parser does not run
    forever. *)
Lemma execute_total `{UnicodeCase} (order : MapOrder) (g : Graph) (input : string) :
  match Parse input with
  | inl e => Execute g input = inl e /\ e <> EFuel
  | inr q => exists rows, Execute g input = inr (Some (mkResult (column <$> Return q) rows))
  end.
Proof.
  pose proof (parse_never_fuel input) as Hp. unfold Execute. destruct (Parse input) as [e|q] eqn:Hq.
  - split; [done|]. congruence.
  - destruct (Run_total order g q) as [rows ->]; [by apply (Parse_shape input)|]. by exists rows.
Qed.

(** ** Direction *)

Lemma joins_sym g e n n' :
  wf g -> LookupNode g (Node.ID n) = Some n -> joins g e n n' -> joins g e n' n.
Proof.
  intros Hw Hn. unfold joins, LookupNode in *. intros [[Hs Ht]|(Hs & Ht & Hl)].
  - pose proof (wf_node_key g Hw _ _ Ht) as Hid. destruct (decide (Edge.Source e = Node.ID n')) as [E|E].
    + left. split; [done|]. rewrite <-Hid in *. congruence.
    + right. split; [done|]. split; [done|]. by rewrite Hs.
  - left. pose proof (wf_node_key g Hw _ _ Hl) as Hid. split; [done|]. by rewrite Ht.
Qed.

(** Patterns have no direction: in every graph built from events, two nodes match
    [(a)-[r]->(b)] exactly when, swapped, they match [(b)-[r]->(a)], although the
    syntax has an arrow. *)
Lemma pattern_undirected `{UnicodeCase} (now : time) (h : history) (conds : list Condition)
    (during : option TimeWindow) (a b : NodePattern) (ep : EdgePattern) (n n' : Node.t) :
  let g := run h (NewGraph now) in
  LookupNode g (Node.ID n) = Some n -> LookupNode g (Node.ID n') = Some n' ->
  node_ok a conds n -> node_ok b conds n' ->
  (path_match g conds during [a; b] [ep] [n; n'] <-> path_match g conds during [b; a] [ep] [n'; n]).
Proof.
  intros g Hn Hn' Ha Hb. pose proof (run_wf now h : wf g) as Hw. split; intros Hm.
  all: inversion Hm as [|? ? ? ? ? ? ? ? e He Hj Hr Hd Hok Hrest]; subst.
  all: eapply pm_step; [exact He|by apply joins_sym|done..|constructor].
Qed.

(** ** Witnesses *)

(** The graph of the example history, and a query for the writers of [/tmp/x]. *)
Definition sample_graph : Graph := run sample_history (NewGraph unix_epoch).
Definition sample_writers : Query :=
  mkQuery (mkPath [mkNodeP "p" "Process"; mkNodeP "f" "File"] [mkEdgeP "WROTE"])
    [mkCond "f.path" OpSTARTSWITH "/tmp"] None [mkProj "p" "id"; mkProj "f" ""].

(** The query finds process 100 and the version it wrote. *)
Example sample_rows :
  (fun r => (Values r !! "p.id", Values r !! "f")) <$>
    from_option Rows [] (@Run ascii_case sample_graph alternating_order sample_writers)
  = [(Some (AStr "p:100"), Some (AStr "f:4242:8:3#v2"))].
Proof. vm_compute. reflexivity. Qed.

Lemma query_exact_witness :
  let order := alternating_order in
  let uc := ascii_case in
  exists rows, Run sample_graph sample_writers = Some (mkResult ["p.id"; "f"] rows) /\
    forall r, r ∈ rows <-> exists np id n ns,
      head (Nodes (Match sample_writers)) = Some np /\ nodes sample_graph !! id = Some n /\
      node_ok np (Where sample_writers) n /\
      path_match sample_graph (Where sample_writers) (During sample_writers) (Nodes (Match sample_writers))
        (Edges (Match sample_writers)) (n :: ns) /\
      r = buildRow (bind_all (Nodes (Match sample_writers)) (n :: ns) ∅) (Match sample_writers).
Proof. apply (@query_exact ascii_case alternating_order sample_graph sample_writers). reflexivity. Defined.

Definition sample_node (id : string) : Node.t :=
  default (Node.newNode "" "" "" "" 0) (LookupNode sample_graph id).

Lemma pattern_undirected_witness :
  let uc := ascii_case in
  let g := run sample_history (NewGraph unix_epoch) in
  path_match g [] None [mkNodeP "p" "Process"; mkNodeP "f" "File"] [mkEdgeP "WROTE"]
    [sample_node "p:100"; sample_node "f:4242:8:3#v2"] <->
  path_match g [] None [mkNodeP "f" "File"; mkNodeP "p" "Process"] [mkEdgeP "WROTE"]
    [sample_node "f:4242:8:3#v2"; sample_node "p:100"].
Proof.
  apply (@pattern_undirected ascii_case unix_epoch sample_history [] None (mkNodeP "p" "Process") (mkNodeP "f" "File")
    (mkEdgeP "WROTE") (sample_node "p:100") (sample_node "f:4242:8:3#v2")).
  - vm_compute. reflexivity.
  - vm_compute. reflexivity.
  - split; [right; vm_compute; reflexivity|reflexivity].
  - split; [right; vm_compute; reflexivity|reflexivity].
Defined.
End Exec.
