(* ===== verification/GoPath.v ===== *)
(** * File patterns: [filepath.Match] of the Go standard library, on Unix.

    Patterns and names are byte sequences.  [None] is [ErrBadPattern].  Recursion follows
    the pattern; [matchChunk_fuel] shows that its length is enough fuel. *)
From S2P Require Import Prelude GoStrings.
From Stdlib Require Import Ascii.

Definition c_star : Z := 42.
Definition c_question : Z := 63.
Definition c_open : Z := 91.
Definition c_backslash : Z := 92.
Definition c_close : Z := 93.
Definition c_caret : Z := 94.
Definition c_dash : Z := 45.
Definition c_slash : Z := 47.

(** The chunk up to the next star outside brackets, and the rest. *)
Fixpoint scan_literal (inrange : bool) (l : list Z) : list Z * list Z :=
  match l with
  | [] => ([], [])
  | c :: l' =>
      if c =? c_backslash then
        match l' with
        | [] => ([c], [])
        | d :: l'' => let '(chunk, rest) := scan_literal inrange l'' in (c :: d :: chunk, rest)
        end
      else if (c =? c_star) && negb inrange then ([], l)
      else let '(chunk, rest) := scan_literal (if c =? c_open then true else if c =? c_close then false else inrange) l' in
           (c :: chunk, rest)
  end.

Fixpoint skip_stars (l : list Z) : bool * list Z :=
  match l with
  | c :: l' => if c =? c_star then (true, snd (skip_stars l')) else (false, l)
  | [] => (false, [])
  end.

Definition scanChunk (pattern : list Z) : bool * list Z * list Z :=
  let '(star, pattern) := skip_stars pattern in let '(chunk, rest) := scan_literal false pattern in (star, chunk, rest).

Definition decode (l : list Z) : Z * nat := match l with [] => (RuneError, 0%nat) | b :: rest => DecodeRune b rest end.

Definition getEsc (chunk : list Z) : option (Z * list Z) :=
  match chunk with
  | [] => None
  | c :: rest =>
      if (c =? c_dash) || (c =? c_close) then None
      else
        let chunk := if c =? c_backslash then rest else chunk in
        match chunk with
        | [] => None
        | _ =>
            let '(r, n) := decode chunk in
            if (r =? RuneError) && (n =? 1)%nat then None
            else match drop n chunk with [] => None | nchunk => Some (r, nchunk) end
        end
  end.

(** The ranges of a class: whether [r] is in one of them, and what follows. *)
Fixpoint class_ranges (fuel : nat) (r : Z) (nrange : nat) (matched : bool) (chunk : list Z) : option (bool * list Z) :=
  match fuel with
  | O => None
  | S fuel =>
      match chunk with
      | c :: rest =>
          if (c =? c_close) && (0 <? nrange)%nat then Some (matched, rest)
          else
            '(lo, chunk) ← getEsc chunk;
            match chunk with
            | d :: chunk' =>
                if d =? c_dash
                then '(hi, chunk) ← getEsc chunk'; class_ranges fuel r (S nrange) (matched || ((lo <=? r) && (r <=? hi))) chunk
                else class_ranges fuel r (S nrange) (matched || (lo =? r)) chunk
            | [] => None
            end
      | [] => None
      end
  end.

(** [s = None]: the match has failed and the rest of the chunk is only checked. *)
Fixpoint match_chunk (fuel : nat) (chunk : list Z) (s : option (list Z)) : option (option (list Z)) :=
  match chunk, fuel with
  | [], _ => Some s
  | _, O => None
  | c :: rest, S fuel =>
      let s := match s with Some [] => None | _ => s end in
      if c =? c_open then
        let '(r, s) := match s with
                       | Some l => let '(r, n) := decode l in (r, Some (drop n l))
                       | None => (0, None)
                       end in
        let '(negated, body) := match rest with d :: rest' => if d =? c_caret then (true, rest') else (false, rest) | [] => (false, []) end in
        '(matched, chunk) ← class_ranges (length body) r 0 false body;
        match_chunk fuel chunk (if Bool.eqb matched negated then None else s)
      else if c =? c_question then
        match_chunk fuel rest
          (match s with Some (b :: l) => if b =? c_slash then None else Some (drop (snd (decode (b :: l))) (b :: l)) | _ => None end)
      else if c =? c_backslash then
        match rest with
        | [] => None
        | d :: rest => match_chunk fuel rest (match s with Some (b :: l) => if d =? b then Some l else None | _ => None end)
        end
      else match_chunk fuel rest (match s with Some (b :: l) => if c =? b then Some l else None | _ => None end)
  end.

Definition matchChunk (chunk s : list Z) : option (option (list Z)) := match_chunk (length chunk) chunk (Some s).

(** After a star: the first later position at which the chunk matches. *)
Fixpoint star_search (chunk : list Z) (last : bool) (name : list Z) : option (option (list Z)) :=
  match name with
  | b :: name' =>
      if b =? c_slash then Some None
      else
        t ← matchChunk chunk name';
        match t with
        | Some rest => if last && negb (length rest =? 0)%nat then star_search chunk last name' else Some (Some rest)
        | None => star_search chunk last name'
        end
  | [] => Some None
  end.

Fixpoint match_from (fuel : nat) (pattern name : list Z) : option bool :=
  match pattern, fuel with
  | [], _ => Some (length name =? 0)%nat
  | _, O => None
  | _, S fuel =>
      let '(star, chunk, rest) := scanChunk pattern in
      if star && (length chunk =? 0)%nat then Some (negb (existsb (Z.eqb c_slash) name))
      else
        let retry := if star then u ← star_search chunk (length rest =? 0)%nat name;
                                  match u with Some t => match_from fuel rest t | None => Some false end
                     else Some false in
        t ← matchChunk chunk name;
        match t with
        | Some t => if (length t =? 0)%nat || negb (length rest =? 0)%nat then match_from fuel rest t else retry
        | None => retry
        end
  end.

(** [filepath.Match]. *)
Definition filepath_Match (pattern name : string) : option bool :=
  let p := bytes_of_string pattern in match_from (length p) p (bytes_of_string name).

(** The result when the error is ignored. *)
Definition matched (r : option bool) : bool := default false r.

Example match_examples :
  filepath_Match "/usr/bin/*" "/usr/bin/ls" = Some true /\ filepath_Match "/usr/bin/*" "/usr/bin/a/b" = Some false /\
  filepath_Match "a[b-d]?z" "acxz" = Some true /\ filepath_Match "a[^b-d]z" "acz" = Some false /\ filepath_Match "a[" "a" = None /\
  filepath_Match "*.sh" "run.sh.sh" = Some true /\ filepath_Match "a*b*c" "aXbYbZc" = Some true /\ filepath_Match "\*" "*" = Some true.
Proof. vm_compute. done. Qed.

(** ** Fuel *)

Lemma DecodeRune_pos b rest : (1 <= snd (DecodeRune b rest))%nat.
Proof.
  unfold DecodeRune. destruct (b <? 128); [done|]. generalize (lead b) as o. intros o.
  repeat match goal with |- context [match ?x with _ => _ end] => destruct x end; cbn [snd]; lia.
Qed.

Lemma getEsc_shorter chunk r n : getEsc chunk = Some (r, n) -> (length n < length chunk)%nat.
Proof.
  unfold getEsc. destruct chunk as [|c rest]; [done|]. destruct (_ || _); [done|].
  assert (forall l, l <> [] -> (let '(r, k) := decode l in if (r =? RuneError) && (k =? 1)%nat then None else
     match drop k l with [] => None | nchunk => Some (r, nchunk) end) = Some (r, n) -> (length n < length l)%nat) as H.
  { intros [|b l] Hl; [done|]. unfold decode. pose proof (DecodeRune_pos b l). destruct (DecodeRune b l) as [r' k]. simpl in H.
    destruct (_ && _); [done|]. destruct (drop k (b :: l)) as [|d nchunk] eqn:E; [done|]. intros [= _ <-].
    rewrite <-E, length_drop. simpl. lia. }
  destruct (c =? c_backslash).
  - destruct rest as [|d rest]; [done|]. intros E. apply H in E; [|done]. simpl in *. lia.
  - intros E. by apply H in E.
Qed.

Lemma class_ranges_fuel f g r k m chunk : (length chunk <= f)%nat -> (length chunk <= g)%nat ->
  class_ranges f r k m chunk = class_ranges g r k m chunk /\
  forall b rest, class_ranges f r k m chunk = Some (b, rest) -> (length rest < length chunk)%nat.
Proof.
  revert g k m chunk. induction f as [|f IH]; intros g k m chunk Hf Hg.
  - destruct chunk; [|simpl in Hf; lia]. destruct g; done.
  - destruct chunk as [|c rest]; [destruct g; done|]. destruct g as [|g]; [simpl in Hg; lia|]. cbn [class_ranges].
    destruct (_ && _); [split; [done|]; intros b rest' [= _ <-]; simpl; lia|].
    destruct (getEsc (c :: rest)) as [[lo chunk]|] eqn:E; [|done]. apply getEsc_shorter in E. simpl.
    destruct chunk as [|d chunk']; [done|]. destruct (d =? c_dash).
    + destruct (getEsc chunk') as [[hi chunk]|] eqn:E2; [|done]. apply getEsc_shorter in E2. simpl in *.
      destruct (IH g (S k) (m || ((lo <=? r) && (r <=? hi))) chunk ltac:(lia) ltac:(lia)) as [IH1 IH2]. split; [done|].
      intros b rest' Hr. apply IH2 in Hr. lia.
    + simpl in *. destruct (IH g (S k) (m || (lo =? r)) (d :: chunk') ltac:(simpl; lia) ltac:(simpl; lia)) as [IH1 IH2]. split; [done|].
      intros b rest' Hr. apply IH2 in Hr. simpl in Hr. lia.
Qed.

Lemma matchChunk_fuel f g chunk s : (length chunk <= f)%nat -> (length chunk <= g)%nat -> match_chunk f chunk s = match_chunk g chunk s.
Proof.
  revert g chunk s. induction f as [|f IH]; intros g chunk s Hf Hg.
  - destruct chunk; [|simpl in Hf; lia]. by destruct g.
  - destruct chunk as [|c rest]; [by destruct g|]. destruct g as [|g]; [simpl in Hg; lia|]. simpl in Hf, Hg. cbn [match_chunk].
    destruct (c =? c_open).
    + destruct (match match s with Some [] => None | _ => s end with Some l => _ | None => _ end) as [r s'].
      destruct (match rest with [] => _ | d :: rest' => _ end) as [negated body] eqn:Eb.
      assert (length body <= length rest)%nat as Hb.
      { destruct rest as [|d rest']; [by simplify_eq|]. destruct (d =? c_caret); simplify_eq; simpl; lia. }
      destruct (class_ranges _ r 0 false body) as [[m chunk]|] eqn:Ec; [|done]. simpl.
      apply (class_ranges_fuel _ (length body)) in Ec; [|done|done]. apply IH; lia.
    + destruct (c =? c_question); [apply IH; lia|]. destruct (c =? c_backslash); [|apply IH; lia].
      destruct rest as [|d rest]; [done|]. simpl in *. apply IH; lia.
Qed.

(** A pattern without special characters matches itself only. *)
Definition plain (c : Z) : bool :=
  negb ((c =? c_star) || (c =? c_question) || (c =? c_open) || (c =? c_backslash)).

Lemma plain_spec c : plain c = true -> (c =? c_star) = false /\ (c =? c_question) = false /\ (c =? c_open) = false /\ (c =? c_backslash) = false.
Proof. unfold plain. rewrite negb_true_iff, !orb_false_iff. tauto. Qed.

Lemma scan_plain p b : forallb plain p = true -> scan_literal b p = (p, []).
Proof.
  revert b. induction p as [|c p IH]; intros b; [done|]. simpl. intros [Hc Hp]%andb_prop. destruct (plain_spec c Hc) as (H1 & H2 & H3 & H4).
  rewrite H4, H1. simpl. by rewrite IH.
Qed.

Lemma chunk_plain p s f : forallb plain p = true -> (length p <= f)%nat ->
  match_chunk f p (Some s) = Some (if decide (p `prefix_of` s) then Some (drop (length p) s) else None) /\ match_chunk f p None = Some None.
Proof.
  revert s f. induction p as [|c p IH]; intros s f Hp Hf.
  - rewrite decide_True by apply prefix_nil. by destruct f.
  - simpl in Hp. apply andb_prop in Hp as [Hc Hp]. destruct (plain_spec c Hc) as (H1 & H2 & H3 & H4).
    destruct f as [|f]; [simpl in Hf; lia|]. simpl in Hf. cbn [match_chunk]. rewrite H3, H2, H4.
    destruct (IH s f Hp ltac:(lia)) as [_ IHn]. split; [|done]. destruct s as [|b s]; [rewrite IHn, decide_False; [done|]; apply prefix_nil_not|].
    destruct (Z.eqb_spec c b) as [->|Hne].
    + destruct (IH s f Hp ltac:(lia)) as [-> _]. simpl. destruct (decide (p `prefix_of` s)) as [Hpr|Hpr].
      * by rewrite decide_True by (by apply prefix_cons).
      * rewrite decide_False; [done|]. by intros Hx%prefix_cons_inv_2.
    + rewrite IHn, decide_False; [done|]. by intros Hx%prefix_cons_inv_1.
Qed.

Lemma match_plain p s : forallb plain (bytes_of_string p) = true -> filepath_Match p s = Some (bool_decide (p = s)).
Proof.
  unfold filepath_Match. intros Hp.
  assert (bool_decide (p = s) = bool_decide (bytes_of_string p = bytes_of_string s)) as ->.
  { apply bool_decide_ext. split; [congruence|]. intros E. rewrite <-(string_of_bytes_of_string p), E. apply string_of_bytes_of_string. }
  destruct (bytes_of_string p) as [|c l] eqn:E.
  - simpl. by destruct (bytes_of_string s).
  - simpl length. cbn [match_from]. unfold scanChunk. simpl skip_stars.
    pose proof Hp as [Hc _]%andb_prop. destruct (plain_spec c Hc) as (H1 & _). rewrite H1, scan_plain by done. simpl negb. simpl andb. cbv iota.
    unfold matchChunk. destruct (chunk_plain (c :: l) (bytes_of_string s) (length (c :: l)) Hp ltac:(done)) as [-> _].
    cbn [mbind option_bind]. destruct (decide (c :: l `prefix_of` bytes_of_string s)) as [[t Ht]|Hn].
    + rewrite Ht, drop_app_length. destruct t as [|b t]; simpl.
      * rewrite app_nil_r. destruct (length l); by rewrite bool_decide_true.
      * rewrite bool_decide_false; [done|]. intros Heq. apply (f_equal length) in Heq. simpl in Heq. rewrite length_app in Heq. simpl in Heq. lia.
    + simpl. rewrite bool_decide_false; [done|]. intros Heq. apply Hn. by rewrite <-Heq.
Qed.
