(* ===== verification/GoFloat.v ===== *)
(** * Floating point: Go's [float64] as the IEEE 754 binary64 of [SpecFloat].

    Arithmetic rounds to nearest even.  A decimal literal is the correctly rounded
    quotient of two integers below [2 ^ 53], which is what the compiler stores. *)
From Stdlib Require Import SpecFloat.
From S2P Require Import Prelude.

Definition float64 : Type := spec_float.

Definition f_of_Z (n : Z) : float64 := binary_normalize 53 1024 n 0 false.
Definition f_add : float64 -> float64 -> float64 := SFadd 53 1024.
Definition f_sub : float64 -> float64 -> float64 := SFsub 53 1024.
Definition f_mul : float64 -> float64 -> float64 := SFmul 53 1024.
Definition f_div : float64 -> float64 -> float64 := SFdiv 53 1024.
Definition f_sqrt : float64 -> float64 := SFsqrt 53 1024.
Definition f_ltb (x y : float64) : bool := SFltb x y.
Definition f_leb (x y : float64) : bool := SFleb x y.
Definition f_eqb (x y : float64) : bool := SFeqb x y.
Definition f_gtb (x y : float64) : bool := SFltb y x.
Definition f_geb (x y : float64) : bool := SFleb y x.

(** The literal [n / d]. *)
Definition lit (n d : Z) : float64 := f_div (f_of_Z n) (f_of_Z d).

Definition is_nan (x : float64) : bool := match x with S754_nan => true | _ => false end.

#[global] Instance float64_eq_dec : EqDecision float64.
Proof. solve_decision. Defined.

Example lit_tenth : lit 1 10 = S754_finite false 7205759403792794 (-56).
Proof. vm_compute. reflexivity. Qed.
Example add_inexact : f_eqb (f_add (lit 1 10) (lit 2 10)) (lit 3 10) = false.
Proof. vm_compute. reflexivity. Qed.

(** ** The order

    Away from NaN, comparison is lexicographic on a rank: the sign class, the exponent and
    the mantissa, both negated for negative numbers. *)
Definition rank (x : float64) : Z * Z * Z :=
  match x with
  | S754_nan => (0, 0, 0)
  | S754_zero _ => (0, 0, 0)
  | S754_infinity false => (2, 0, 0)
  | S754_infinity true => (-2, 0, 0)
  | S754_finite false m e => (1, e, Zpos m)
  | S754_finite true m e => (-1, -e, Zneg m)
  end.

Definition rank_lt (a b : Z * Z * Z) : Prop :=
  let '(a1, a2, a3) := a in let '(b1, b2, b3) := b in
  a1 < b1 \/ (a1 = b1 /\ (a2 < b2 \/ (a2 = b2 /\ a3 < b3))).

Lemma f_ltb_rank x y :
  is_nan x = false -> is_nan y = false -> f_ltb x y = true <-> rank_lt (rank x) (rank y).
Proof.
  intros Hx Hy. unfold f_ltb, SFltb, SFcompare, rank_lt, rank.
  destruct x as [[]|[]| |[] m e], y as [[]|[]| |[] m' e']; try done; simpl;
    try (by split; intros; done || lia);
    destruct (Z.compare_spec e e') as [->|?|?]; try (by split; intros; done || lia);
    change (Pos.compare_cont Eq m m') with (Pos.compare m m');
    destruct (Pos.compare_spec m m'); simpl; split; intros; done || lia.
Qed.

Lemma f_eqb_rank x y :
  is_nan x = false -> is_nan y = false -> f_eqb x y = true <-> rank x = rank y.
Proof.
  intros Hx Hy. unfold f_eqb, SFeqb, SFcompare, rank.
  destruct x as [[]|[]| |[] m e], y as [[]|[]| |[] m' e']; try done; simpl;
    try (by split; intros; done || congruence);
    destruct (Z.compare_spec e e') as [->|?|?]; try (by split; intros; [done|simplify_eq; lia]);
    change (Pos.compare_cont Eq m m') with (Pos.compare m m');
    destruct (Pos.compare_spec m m'); simpl; split; intros; try done; try congruence; simplify_eq; lia.
Qed.
