(* ===== verification/GoDuration.v ===== *)
(** * [time.ParseDuration] and the format [time.RFC3339] of the Go standard library *)
From Stdlib Require Import Ascii SpecFloat.
From S2P Require Import Prelude GoStrings GoTime GoFloat.

(** ** Durations *)

Definition digit_of (c : ascii) : option Z :=
  let b := byteval c in if cont 48 57 b then Some (b - 48) else None.

(** [leadingInt]: [None] on overflow. *)
Fixpoint leadingInt (x : Z) (l : list ascii) : option (Z * list ascii) :=
  match l with
  | [] => Some (x, [])
  | c :: rest =>
      match digit_of c with
      | None => Some (x, l)
      | Some d =>
          if 2 ^ 63 / 10 <? x then None
          else let x := x * 10 + d in if 2 ^ 63 <? x then None else leadingInt x rest
      end
  end.

(** [leadingFraction]: digits after an overflow are skipped. *)
Fixpoint leadingFraction (overflow : bool) (x : Z) (scale : float64) (l : list ascii)
  : Z * float64 * list ascii :=
  match l with
  | [] => (x, scale, [])
  | c :: rest =>
      match digit_of c with
      | None => (x, scale, l)
      | Some d =>
          if overflow then leadingFraction true x scale rest
          else if (2 ^ 63 - 1) / 10 <? x then leadingFraction true x scale rest
          else
            let y := x * 10 + d in
            if 2 ^ 63 <? y then leadingFraction true x scale rest
            else leadingFraction false y (f_mul scale (f_of_Z 10)) rest
      end
  end.

(** Conversion of a non-negative float to [uint64]: truncation. *)
Definition f_trunc (x : float64) : Z :=
  match x with
  | S754_finite s m e =>
      let v := if 0 <=? e then Zpos m * 2 ^ e else Zpos m / 2 ^ (- e) in if s then - v else v
  | _ => 0
  end.

Definition micro1 : string := string_of_bytes [0xC2; 0xB5; 0x73].
Definition micro2 : string := string_of_bytes [0xCE; 0xBC; 0x73].

Definition unit_of (u : string) : option Z :=
  if decide (u = "ns") then Some 1
  else if decide (u = "us" \/ u = micro1 \/ u = micro2) then Some 1000
  else if decide (u = "ms") then Some Millisecond
  else if decide (u = "s") then Some Second
  else if decide (u = "m") then Some Minute
  else if decide (u = "h") then Some (60 * Minute)
  else None.

(** The unit: everything up to a digit or a dot. *)
Fixpoint span_unit (l : list ascii) : list ascii * list ascii :=
  match l with
  | [] => ([], [])
  | c :: rest =>
      if decide (c = "."%char) then ([], l)
      else match digit_of c with
           | Some _ => ([], l)
           | None => let '(u, rest) := span_unit rest in (c :: u, rest)
           end
  end.

(** The loop; each iteration consumes a character, so the length is enough fuel. *)
Fixpoint durations (fuel : nat) (d : Z) (l : list ascii) : option Z :=
  match l, fuel with
  | [], _ => Some d
  | _, O => None
  | c :: _, S fuel =>
      if bool_decide (c = "."%char) || bool_decide (is_Some (digit_of c)) then
        '(v, l1) ← leadingInt 0 l;
        let pre := negb (length l1 =? length l)%nat in
        let '(f, scale, l2, post) :=
          match l1 with
          | c1 :: r =>
              if decide (c1 = "."%char) then
                let '(f, scale, l2) := leadingFraction false 0 (f_of_Z 1) r in
                (f, scale, l2, negb (length l2 =? length r)%nat)
              else (0, f_of_Z 1, l1, false)
          | [] => (0, f_of_Z 1, l1, false)
          end in
        if negb pre && negb post then None
        else
          let '(u, l3) := span_unit l2 in
          if bool_decide (u = []) then None
          else
            unit ← unit_of (String.string_of_list_ascii u);
            if 2 ^ 63 / unit <? v then None
            else
              let v := v * unit in
              let v := if 0 <? f then v + f_trunc (f_mul (f_of_Z f) (f_div (f_of_Z unit) scale)) else v in
              if (0 <? f) && (2 ^ 63 <? v) then None
              else if 2 ^ 63 <? d + v then None else durations fuel (d + v) l3
      else None
  end.

Definition ParseDuration (s : string) : option duration :=
  let l := chars s in
  let '(neg, l) :=
    match l with
    | c :: r => if decide (c = "-"%char) then (true, r) else if decide (c = "+"%char) then (false, r) else (false, l)
    | [] => (false, l)
    end in
  if decide (l = ["0"%char]) then Some 0
  else if decide (l = []) then None
  else
    d ← durations (length l) 0 l;
    if neg then Some (- d) else if 2 ^ 63 - 1 <? d then None else Some d.

Example dur1 : ParseDuration "1h30m" = Some (90 * Minute).
Proof. vm_compute. reflexivity. Qed.
Example dur2 : ParseDuration "-1.5s" = Some (- 1500 * Millisecond).
Proof. vm_compute. reflexivity. Qed.
Example dur3 : ParseDuration "10" = None.
Proof. vm_compute. reflexivity. Qed.
Example dur4 : ParseDuration ".5us" = Some 500.
Proof. vm_compute. reflexivity. Qed.
Example dur5 : ParseDuration "9223372036854775808ns" = None.
Proof. vm_compute. reflexivity. Qed.

(** ** Dates *)

(** The year, month and day of a day number (days since 1 January of year 1). *)
Definition year_of (days : Z) : Z :=
  let n400 := days / 146097 in let d := days `mod` 146097 in
  let n100 := Z.min 3 (d / 36524) in let d := d - 36524 * n100 in
  let n4 := d / 1461 in let d := d `mod` 1461 in
  400 * n400 + 100 * n100 + 4 * n4 + Z.min 3 (d / 365) + 1.

Fixpoint month_day (fuel : nat) (y m d : Z) : Z * Z :=
  match fuel with
  | O => (m, d)
  | S fuel => if d <? daysIn m y then (m, d) else month_day fuel y (m + 1) (d - daysIn m y)
  end.

Definition civil (days : Z) : Z * Z * Z :=
  let y := year_of days in
  let '(m, d) := month_day 12 y 1 (days - days_before y 1 1) in (y, m, d + 1).

Definition pad2 (n : Z) : string := (if n <? 10 then "0" else "") +:+ pretty n.
Definition pad4 (n : Z) : string :=
  (if n <? 10 then "000" else if n <? 100 then "00" else if n <? 1000 then "0" else "") +:+ pretty n.

(** [t.Format(time.RFC3339)] in UTC, for years of four digits. *)
Definition format_RFC3339 (t : time) : string :=
  let s := t / Second in
  let '(y, m, d) := civil (s / 86400) in
  let r := s `mod` 86400 in
  pad4 y +:+ "-" +:+ pad2 m +:+ "-" +:+ pad2 d +:+ "T" +:+
  pad2 (r / 3600) +:+ ":" +:+ pad2 ((r / 60) `mod` 60) +:+ ":" +:+ pad2 (r `mod` 60) +:+ "Z".

Example format1 : format_RFC3339 unix_epoch = "1970-01-01T00:00:00Z".
Proof. vm_compute. reflexivity. Qed.
Example format2 : format_RFC3339 (unix_epoch + 1740787200500000000) = "2025-03-01T00:00:00Z".
Proof. vm_compute. reflexivity. Qed.
Example format3 : format_RFC3339 (unix_epoch + 951868799 * Second) = "2000-02-29T23:59:59Z".
Proof. vm_compute. reflexivity. Qed.
