(* ===== verification/GoText.v ===== *)
(** * More of the Go standard library: file paths, durations as text, trimming

    [filepath.Join], [filepath.Dir], [filepath.Base]; [Duration.Round] to a second and
    [Duration.String]; and what [strings.TrimSpace] does on strings that end in a printable
    character. *)
From S2P Require Import Prelude GoStrings GoFloat GoDuration.
From Stdlib Require Import Ascii.

Open Scope Z_scope.

(** ** Paths *)

Definition filepath_Join (a b : string) : string :=
  if String.eqb a "" then (if String.eqb b "" then "" else path_Clean b)
  else if String.eqb b "" then path_Clean a else path_Clean (a +:+ "/" +:+ b).

(** What follows the last slash, and what precedes it (with the slash). *)
Definition after_slash (l : list ascii) : list ascii :=
  match last_index_byte "/"%char l with Some i => drop (S i) l | None => l end.
Definition upto_slash (l : list ascii) : list ascii :=
  match last_index_byte "/"%char l with Some i => take (S i) l | None => [] end.

Definition filepath_Dir (p : string) : string := path_Clean (String.string_of_list_ascii (upto_slash (chars p))).

Fixpoint strip_slashes (rl : list ascii) : list ascii :=
  match rl with c :: rl' => if decide (c = "/"%char) then strip_slashes rl' else rl | [] => [] end.

Definition filepath_Base (p : string) : string :=
  if String.eqb p "" then "."
  else match after_slash (reverse (strip_slashes (reverse (chars p)))) with
       | [] => "/"
       | l => String.string_of_list_ascii l
       end.

(** ** Durations *)

(** [d.Round(time.Second)] for [0 <= d]: halves away from zero, saturating. *)
Definition round_second (d : duration) : duration :=
  let r := d `mod` Second in
  if 2 * r <? Second then d - r else if d + (Second - r) <=? MaxInt64 then d + (Second - r) else MaxInt64.

(** Digits of a fraction [v] of [prec] digits, without trailing zeros. *)
Fixpoint frac_digits (prec : nat) (v : Z) (acc : string) : string :=
  match prec with
  | O => acc
  | S prec =>
      let d := v `mod` 10 in
      frac_digits prec (v / 10) (if (d =? 0) && String.eqb acc "" then "" else pretty d +:+ acc)
  end.
Definition fmtFrac (v : Z) (prec : nat) : string :=
  pretty (v / 10 ^ Z.of_nat prec)
  +:+ match frac_digits prec v "" with "" => "" | f => "." +:+ f end.

(** [d.String()] for [0 <= d]. *)
Definition duration_String (d : duration) : string :=
  if d =? 0 then "0s"
  else if d <? 1000 then pretty d +:+ "ns"
  else if d <? Millisecond then fmtFrac d 3 +:+ string_of_bytes [0xC2; 0xB5] +:+ "s"
  else if d <? Second then fmtFrac d 6 +:+ "ms"
  else
    let s := d / Second in
    let secs := fmtFrac ((s `mod` 60) * Second + d `mod` Second) 9 +:+ "s" in
    if s <? 60 then secs
    else let m := s / 60 in
      let mins := pretty (m `mod` 60) +:+ "m" +:+ secs in
      if m <? 60 then mins else pretty (m / 60) +:+ "h" +:+ mins.

(** [int64(d.Seconds())] for [0 <= d]: whole seconds plus the rest, in [float64]. *)
Definition whole_seconds (d : duration) : Z :=
  f_trunc (f_add (f_of_Z (d / Second)) (f_div (f_of_Z (d `mod` Second)) (f_of_Z Second))).

Example duration_ex :
  duration_String <$> [0; 1500; 90 * Second; 3 * 3600 * Second + 5 * Second; 1500 * Millisecond; MaxInt64]
  = ["0s"; "1.5" +:+ string_of_bytes [0xC2; 0xB5] +:+ "s"; "1m30s"; "3h0m5s"; "1.5s"; "2562047h47m16.854775807s"].
Proof. vm_compute. reflexivity. Qed.

Example base_ex : (filepath_Base <$> ["/usr/bin/yum"; "yum/"; "//"; ""]) = ["yum"; "yum"; "/"; "."].
Proof. reflexivity. Qed.
Example join_ex : filepath_Join (filepath_Dir "/var/lib/p/state.json") "policy-bundles" = "/var/lib/p/policy-bundles".
Proof. reflexivity. Qed.

(** ** A plain last element is kept by [filepath.Join] *)

Lemma chars_of_ascii l : chars (String.string_of_list_ascii l) = l.
Proof. apply String.list_ascii_of_string_of_list_ascii. Qed.
Lemma string_of_chars s : String.string_of_list_ascii (chars s) = s.
Proof. apply String.string_of_list_ascii_of_string. Qed.

Lemma string_of_ascii_app l k :
  String.string_of_list_ascii (l ++ k) = String.string_of_list_ascii l +:+ String.string_of_list_ascii k.
Proof. induction l as [|c l IH]; [done|]. simpl. by rewrite IH. Qed.

(** A last byte that is printable ASCII survives trimming. *)
Definition printable (b : Z) : Prop := 32 < b < 127.

Lemma segs_last f l b : printable b -> (length l < f)%nat -> exists k, rune_segs f (l ++ [b]) = k ++ [(b, [b])].
Proof.
  intros Hb. revert l. induction f as [|f IH]; intros l Hf; [lia|].
  destruct l as [|b0 l].
  - exists []. simpl. unfold DecodeRune. unfold printable in Hb. rewrite (proj2 (Z.ltb_lt b 128)) by lia. simpl. by destruct f.
  - simpl. destruct (DecodeRune b0 (l ++ [b])) as [r n] eqn:E.
    assert (exists l', drop n (b0 :: l ++ [b]) = l' ++ [b] /\ (length l' < f)%nat) as (l' & -> & Hl').
    { assert (1 <= n <= S (length l))%nat as Hn.
      { clear -E Hb. unfold printable in Hb.
        assert (forall lo hi, 0x80 <= lo -> cont lo hi b = false) as Hc
          by (intros lo hi Hlo; unfold cont; rewrite (proj2 (Z.leb_gt lo b)) by lia; done).
        unfold DecodeRune in E. destruct (b0 <? 0x80); [injection E as _ <-; simpl; lia|].
        assert (forall k lo hi, lead b0 = Some (k, lo, hi) -> 0x80 <= lo) as Hlo.
        { intros k lo hi. unfold lead. repeat case_match; intros [= <- <- <-]; lia. }
        destruct (lead b0) as [[[[|[|[|[|k]]]] lo] hi]|] eqn:El; try (injection E as _ <-; simpl; lia);
          specialize (Hlo _ _ _ eq_refl); destruct l as [|b1 [|b2 [|b3 l]]]; simpl in E;
          rewrite ?Hc, ?andb_false_r, ?andb_false_l in E by lia; repeat case_match; injection E as _ <-; simpl; lia. }
      destruct n as [|n]; [lia|]. simpl. rewrite drop_app_le by lia. eexists; split; [done|]. simpl in *.
      rewrite length_drop. lia. }
    destruct (IH l' Hl') as [k ->]. by exists ((r, take n (b0 :: l ++ [b])) :: k).
Qed.

Lemma trim_left_app k b : ~ IsSpace b -> exists l, trim_left_segs (k ++ [(b, [b])]) = l ++ [b].
Proof.
  intros Hb. induction k as [|[r bs] k IH]; simpl.
  - exists []. by destruct (IsSpace b); [destruct Hb|].
  - destruct (IsSpace r); [done|]. rewrite fmap_app, join_app. simpl. eexists. by rewrite app_assoc.
Qed.

Lemma printable_space b : printable b -> ~ IsSpace b.
Proof.
  unfold printable. intros Hb H. apply Is_true_true in H. unfold IsSpace, cont in H. lia.
Qed.

Lemma TrimSpace_last s c : printable (byteval c) -> exists t, TrimSpace (s +:+ String c "") = t +:+ String c "".
Proof.
  intros Hc. unfold TrimSpace, segs.
  assert (bytes_of_string (s +:+ String c "") = bytes_of_string s ++ [byteval c]) as ->
    by (unfold bytes_of_string; rewrite chars_app, fmap_app; done).
  destruct (segs_last (length (bytes_of_string s ++ [byteval c])) (bytes_of_string s) (byteval c) Hc) as [k ->];
    [rewrite length_app; simpl; lia|].
  destruct (trim_left_app k _ (printable_space _ Hc)) as [l ->].
  exists (string_of_bytes l). rewrite reverse_app, length_app, Nat.add_comm. simpl.
  assert (DecodeLastRune (byteval c :: reverse l) = (byteval c, 1%nat)) as ->.
  { unfold DecodeLastRune, try_last. simpl. unfold printable in Hc.
    assert (RuneStart (byteval c) = true) as -> by (destruct c as [[] [] [] [] [] [] [] []]; vm_compute in Hc |- *; destruct Hc; done).
    unfold DecodeRune. by rewrite (proj2 (Z.ltb_lt (byteval c) 128)) by lia. }
  apply printable_space in Hc. destruct (IsSpace (byteval c)); [by destruct Hc|].
  rewrite reverse_cons, reverse_involutive. unfold string_of_bytes. rewrite fmap_app, string_of_ascii_app. simpl.
  by rewrite byte_ascii_byteval.
Qed.

Lemma app_last_ne t c : t +:+ String c "" <> "".
Proof. by destruct t. Qed.

Definition plain_elem (e : string) : Prop := ("/"%char ∉ chars e) /\ e <> "" /\ e <> "." /\ e <> "..".

Lemma split_slash_plain cur e : "/"%char ∉ e -> split_slash cur e = [reverse cur ++ e].
Proof.
  revert cur. induction e as [|c e IH]; intros cur Hn; simpl; [by rewrite app_nil_r|].
  apply not_elem_of_cons in Hn as [Hc Hn]. rewrite decide_False by done. rewrite IH by done.
  by rewrite reverse_cons, <-app_assoc.
Qed.

Lemma split_slash_app cur l e : "/"%char ∉ e -> split_slash cur (l ++ "/"%char :: e) = split_slash cur l ++ [e].
Proof.
  intros Hn. revert cur. induction l as [|c l IH]; intros cur; simpl.
  - by rewrite split_slash_plain.
  - case_decide; [by rewrite IH|apply IH].
Qed.

Lemma join_slash_snoc l e : join_slash (l ++ [e]) = match l with [] => e | _ => join_slash l ++ "/"%char :: e end.
Proof.
  induction l as [|x l IH]; [done|]. change ((x :: l) ++ [e]) with (x :: (l ++ [e])).
  destruct l as [|y l]; [done|]. change (join_slash (x :: ((y :: l) ++ [e]))) with (x ++ "/"%char :: join_slash ((y :: l) ++ [e])).
  rewrite IH. simpl. by rewrite <-app_assoc.
Qed.

(** The result is a prefix that depends on the directory only, followed by the element. *)
Lemma Join_elem a : a <> "" -> exists p, forall e, plain_elem e -> filepath_Join a e = p +:+ e.
Proof.
  intros Ha. set (rooted := match chars a with c :: _ => bool_decide (c = "/"%char) | [] => false end).
  set (st := foldl (clean_step rooted) [] (split_slash [] (chars a))).
  exists ((if rooted then "/" else "") +:+ match reverse st with [] => "" | l => String.string_of_list_ascii (join_slash l) +:+ "/" end).
  intros e (Hs & He & Hd & Hdd). unfold filepath_Join.
  rewrite (proj2 (String.eqb_neq _ _) Ha), (proj2 (String.eqb_neq _ _) He).
  unfold path_Clean. rewrite !chars_app. change (chars "/") with ["/"%char].
  assert (match chars a ++ ["/"%char] ++ chars e with c :: _ => bool_decide (c = "/"%char) | [] => false end = rooted) as ->
    by (unfold rooted; destruct a; done).
  change (["/"%char] ++ chars e) with ("/"%char :: chars e).
  rewrite split_slash_app by done. rewrite foldl_app. fold st. cbn [foldl].
  assert (forall t, t <> e -> chars t <> chars e) as Hinj.
  { intros t Ht Hc. apply Ht. by rewrite <-(string_of_chars t), Hc, string_of_chars. }
  assert (clean_step rooted st (chars e) = chars e :: st) as ->.
  { unfold clean_step. rewrite !decide_False; [done| | |]; intros E; symmetry in E; revert E;
      [apply (Hinj ".."%string)|apply (Hinj "."%string)|apply (Hinj ""%string)]; congruence. }
  rewrite reverse_cons, join_slash_snoc.
  destruct (reverse st) as [|x l] eqn:E; [|set (j := join_slash (x :: l))].
  - destruct rooted; simpl; rewrite ?string_of_chars; [done|].
    by destruct e.
  - assert (String.string_of_list_ascii (j ++ "/"%char :: chars e) = (String.string_of_list_ascii j +:+ "/") +:+ e) as Ej.
    { rewrite string_of_ascii_app. simpl. rewrite string_of_chars, string_app_assoc. done. }
    destruct rooted; simpl; [by rewrite Ej|].
    destruct (j ++ "/"%char :: chars e) eqn:Ee; [by destruct j|exact Ej].
Qed.

(** ** Printable strings: trimming, splitting and joining *)

Lemma printable_decode b l : printable b -> DecodeRune b l = (b, 1%nat).
Proof. unfold printable, DecodeRune. intros Hb. by rewrite (proj2 (Z.ltb_lt b 128)) by lia. Qed.

Lemma segs_printable f l : Forall printable l -> (length l <= f)%nat -> rune_segs f l = (fun b => (b, [b])) <$> l.
Proof.
  revert f. induction l as [|b l IH]; intros [|f] Hp Hf; simpl in *; [done..|lia|].
  apply Forall_cons in Hp as [Hb Hp]. rewrite printable_decode by done. simpl. rewrite drop_0, IH by (done || lia). done.
Qed.

Lemma TrimSpace_printable s : Forall printable (bytes_of_string s) -> TrimSpace s = s.
Proof.
  intros Hp. unfold TrimSpace, segs. rewrite segs_printable by done.
  assert (trim_left_segs ((fun b => (b, [b])) <$> bytes_of_string s) = bytes_of_string s) as ->.
  { destruct (bytes_of_string s) as [|b l]; [done|]. simpl. apply Forall_cons in Hp as [Hb _].
    destruct (IsSpace b) eqn:E; [by apply printable_space in Hb; rewrite E in Hb; destruct Hb|].
    f_equal. clear. induction l as [|x l IH]; [done|]. simpl. by f_equal. }
  assert (trim_right_rev (length (bytes_of_string s)) (reverse (bytes_of_string s)) = reverse (bytes_of_string s)) as ->;
    [|by rewrite reverse_involutive, string_of_bytes_of_string].
  rewrite <-length_reverse. rewrite <-Forall_reverse in Hp. destruct (reverse (bytes_of_string s)) as [|b l]; [done|].
  apply Forall_cons in Hp as [Hb _]. simpl.
  assert (DecodeLastRune (b :: l) = (b, 1%nat)) as ->.
  { unfold DecodeLastRune, try_last. simpl.
    assert (RuneStart b = true) as ->.
    { unfold RuneStart. apply negb_true_iff, Z.eqb_neq. intros E. unfold printable in Hb.
      assert (Z.testbit (Z.land b 192) 7 = true) as Ht by (rewrite E; done).
      rewrite Z.land_spec, Z.testbit_eqb in Ht by lia. apply andb_true_iff in Ht as [Ht _]. apply Z.eqb_eq in Ht.
      rewrite Z.div_small in Ht by lia. done. }
    by rewrite printable_decode. }
  destruct (IsSpace b) eqn:E; [by apply printable_space in Hb; rewrite E in Hb; destruct Hb|done].
Qed.

Lemma split_byte_app c cur l k : c ∉ l -> split_byte c cur (l ++ c :: k) = (rev cur ++ l) :: split_byte c [] k.
Proof.
  revert cur. induction l as [|x l IH]; intros cur Hn; simpl; [by rewrite decide_True, app_nil_r|].
  apply not_elem_of_cons in Hn as [Hc Hn]. rewrite decide_False, IH by done. simpl. by rewrite <-app_assoc.
Qed.

Lemma split_byte_plain c cur l : c ∉ l -> split_byte c cur l = [rev cur ++ l].
Proof.
  revert cur. induction l as [|x l IH]; intros cur Hn; simpl; [by rewrite app_nil_r|].
  apply not_elem_of_cons in Hn as [Hc Hn]. rewrite decide_False, IH by done. simpl. by rewrite <-app_assoc.
Qed.

Lemma Split_Join c l : l <> [] -> Forall (fun s => c ∉ chars s) l -> Split (Join (String c "") l) c = l.
Proof.
  intros Hl Hn. unfold Split. induction l as [|s l IH]; [done|]. apply Forall_cons in Hn as [Hs Hn].
  destruct l as [|t l]; [cbn [Join]; rewrite split_byte_plain by done; exact (f_equal (fun x => [x]) (string_of_chars s))|].
  change (Join (String c "") (s :: t :: l)) with (s +:+ String c "" +:+ Join (String c "") (t :: l)).
  rewrite !chars_app. change (chars (String c "")) with [c].
  change ([c] ++ ?k) with (c :: k). rewrite split_byte_app by done. rewrite fmap_cons. simpl rev. simpl app.
  by rewrite IH, string_of_chars.
Qed.

Lemma Contains_char s c : c ∈ chars s -> Contains s (String c "") = true.
Proof.
  induction s as [|d s IH]; intros Hin; [by apply elem_of_nil in Hin|].
  apply elem_of_cons in Hin as [->|Hin]; simpl; [|rewrite IH by done; apply orb_true_r].
  unfold HasPrefix. simpl. destruct (ascii_dec d d); [|done]. by destruct s.
Qed.
