(* ===== verification/GoScan.v ===== *)
(** * [fmt.Sscanf] for the formats the code uses: literal text with single spaces, then one verb.

    The input is the list of its runes with their bytes ([segs]).  Errors are [None]; input
    after the verb is ignored, as [Sscanf] does. *)
From S2P Require Import Prelude GoStrings GoText.
From Stdlib Require Import Ascii.

Definition runes := list (Z * list Z).

(** Leading space before a verb; a newline is an error. *)
Fixpoint SkipSpace (l : runes) : option runes :=
  match l with
  | [] => Some []
  | (r, _) :: l' => if r =? 10 then None else if IsSpace r then SkipSpace l' else Some l
  end.

Fixpoint drop_spaces (l : runes) : runes :=
  match l with
  | (r, _) :: l' => if IsSpace r && negb (r =? 10) then drop_spaces l' else l
  | [] => []
  end.

(** The text of a format up to its verb: a space matches one or more spaces or the end of
    the input, any other rune itself. *)
Fixpoint advance (fmt : list Z) (l : runes) : option runes :=
  match fmt with
  | [] => Some l
  | c :: fmt =>
      if IsSpace c then
        match l with
        | [] => advance fmt []
        | (r, _) :: l' => if IsSpace r && negb (r =? 10) then advance fmt (drop_spaces l') else None
        end
      else match l with
           | (r, _) :: l' => if r =? c then advance fmt l' else None
           | [] => None
           end
  end.

(** The bytes a rune adds to a token. *)
Definition rune_bytes (x : Z * list Z) : list Z := if x.1 =? RuneError then [239; 191; 189] else x.2.

Fixpoint take_while (p : Z -> bool) (l : runes) : runes * runes :=
  match l with
  | x :: l' => if p x.1 then let '(a, b) := take_while p l' in (x :: a, b) else ([], l)
  | [] => ([], [])
  end.
Definition token (p : Z -> bool) (l : runes) : string := string_of_bytes (mjoin (rune_bytes <$> (take_while p l).1)).

Definition Sscanf_s (prefix s : string) : option string :=
  l ← advance (fst <$> segs prefix) (segs s); l ← SkipSpace l;
  if bool_decide (l = []) then None else Some (token (fun r => negb (IsSpace r)) l).

(** ["%d"] into a [uint32], at the start of the input or after a prefix. *)
Definition scan_uint32 (l : runes) : option Z :=
  l ← SkipSpace l;
  v ← ParseUint (token (cont 48 57) l);
  if v <? 2 ^ 32 then Some v else None.
Definition Sscanf_uint32 (s : string) : option Z := scan_uint32 (segs s).
Definition Sscanf_prefix_uint32 (prefix s : string) : option Z := l ← advance (fst <$> segs prefix) (segs s); scan_uint32 l.

(** ** The token of ["%f"] *)

Definition accept (p : Z -> bool) (st : list Z * runes) : bool * (list Z * runes) :=
  match st.2 with
  | (r, bs) :: l => if p r then (true, (st.1 ++ bs, l)) else (false, st)
  | [] => (false, st)
  end.
Definition one_of (cs : list Z) (r : Z) : bool := bool_decide (r ∈ cs).
Definition accept_all (p : Z -> bool) (st : list Z * runes) : list Z * runes :=
  let '(a, b) := take_while p st.2 in (st.1 ++ mjoin (snd <$> a), b).

(** [accept(a) && accept(b) && accept(c)]. *)
Definition accept3 (a b c : Z -> bool) (st : list Z * runes) : bool * (list Z * runes) :=
  let '(ok, st) := accept a st in
  if ok then let '(ok, st) := accept b st in if ok then accept c st else (false, st) else (false, st).

Definition digits_ (r : Z) : bool := cont 48 57 r || (r =? 95).
Definition hex_ (r : Z) : bool := digits_ r || cont 65 70 r || cont 97 102 r.

Definition floatToken (l : runes) : string :=
  let '(nan, st) := accept3 (one_of [110; 78]) (one_of [97; 65]) (one_of [110; 78]) ([], l) in
  if nan then string_of_bytes st.1
  else
    let '(_, st) := accept (one_of [43; 45]) st in
    let '(inf, st) := accept3 (one_of [105; 73]) (one_of [110; 78]) (one_of [102; 70]) st in
    if inf then string_of_bytes st.1
    else
      let '(zero, st) := accept (one_of [48]) st in
      let '(hex, st) := if zero then accept (one_of [120; 88]) st else (false, st) in
      let ds := if hex then hex_ else digits_ in
      let st := accept_all ds st in
      let '(dot, st) := accept (one_of [46]) st in
      let st := if dot then accept_all ds st else st in
      let '(e, st) := accept (if hex then one_of [112; 80] else one_of [101; 69; 112; 80]) st in
      let st := if e then accept_all digits_ (accept (one_of [43; 45]) st).2 else st in
      string_of_bytes st.1.

(** The text a ["%f"] hands to the conversion of numbers. *)
Definition Sscanf_float (prefix s : string) : option string :=
  l ← advance (fst <$> segs prefix) (segs s); l ← SkipSpace l;
  if bool_decide (l = []) then None else Some (floatToken l).

(** ** Numbers come back *)

Definition digit_byte (b : Z) : Prop := 48 <= b <= 57.

Lemma digits_segs l : Forall digit_byte l -> rune_segs (length l) l = (fun b => (b, [b])) <$> l.
Proof.
  intros Hl. apply segs_printable; [|done]. eapply Forall_impl; [exact Hl|]. unfold digit_byte, printable. lia.
Qed.

Lemma token_digits l : Forall digit_byte l -> token (cont 48 57) ((fun b => (b, [b])) <$> l) = string_of_bytes l.
Proof.
  intros Hl. unfold token. f_equal. induction Hl as [|b l Hb Hl IH]; [done|]. unfold digit_byte in Hb. csimpl.
  assert (cont 48 57 b = true) as -> by (unfold cont; lia). destruct (take_while _ _) as [x y]. csimpl. simpl in IH. rewrite IH.
  unfold rune_bytes at 1. csimpl. rewrite (proj2 (Z.eqb_neq b RuneError)) by (unfold RuneError; lia). done.
Qed.

Lemma pretty_bytes n : 0 <= n -> Forall digit_byte (bytes_of_string (pretty n)).
Proof.
  intros Hn. unfold bytes_of_string. rewrite Forall_fmap. eapply Forall_impl; [apply (pretty_Z_digits n Hn)|].
  intros c Hc. unfold digit, digit_byte, byteval in *. simpl. lia.
Qed.

Definition bdec (acc : Z) (l : list Z) : Z := foldl (fun a b => a * 10 + (b - 48)) acc l.

Lemma bdec_mono acc l : 0 <= acc -> Forall digit_byte l -> acc <= bdec acc l.
Proof.
  intros Ha Hl. revert acc Ha. induction Hl as [|b l Hb Hl IH]; intros acc Ha; simpl; [lia|].
  unfold digit_byte in Hb. specialize (IH (acc * 10 + (b - 48)) ltac:(lia)). unfold bdec in *. simpl. lia.
Qed.

Lemma parse_digits_bdec acc l : 0 <= acc -> Forall digit_byte l -> bdec acc l < 2 ^ 64 -> parse_digits acc l = Some (bdec acc l).
Proof.
  intros Ha Hl. revert acc Ha. induction Hl as [|b l Hb Hl IH]; intros acc Ha Hlt; simpl; [done|]. unfold digit_byte in Hb.
  assert (cont 48 57 b = true) as -> by (unfold cont; lia). pose proof (bdec_mono (acc * 10 + (b - 48)) l ltac:(lia) Hl).
  change (bdec acc (b :: l)) with (bdec (acc * 10 + (b - 48)) l) in *. rewrite (proj2 (Z.ltb_lt _ _)) by lia. apply IH; lia.
Qed.

Lemma bdec_go x s : bdec 0 (bytes_of_string (pretty_N_go x s)) = bdec (Z.of_N x) (bytes_of_string s).
Proof.
  revert s. induction (N.lt_wf_0 x) as [x _ IH]; intros s. destruct (decide (x = 0)%N) as [->|Hx]; [by rewrite pretty_N_go_0|].
  rewrite pretty_N_go_step by lia. rewrite IH by (apply N.div_lt; lia).
  unfold bytes_of_string. simpl. change (bdec ?a (?b :: ?l)) with (bdec (a * 10 + (b - 48)) l). f_equal.
  assert (byteval (pretty_N_char (x `mod` 10)) = 48 + Z.of_N (x `mod` 10)) as ->.
  { pose proof (N.mod_lt x 10 ltac:(lia)) as Hm. destruct (x `mod` 10)%N as [|p]; [done|].
    assert (p = 1 \/ p = 2 \/ p = 3 \/ p = 4 \/ p = 5 \/ p = 6 \/ p = 7 \/ p = 8 \/ p = 9)%positive as Hp by lia.
    destruct_or! Hp; subst; done. }
  pose proof (N.div_mod x 10 ltac:(lia)). rewrite N2Z.inj_div, N2Z.inj_mod. pose proof (Z.div_mod (Z.of_N x) 10 ltac:(lia)). lia.
Qed.

Lemma bdec_pretty n : 0 <= n -> bdec 0 (bytes_of_string (pretty n)) = n.
Proof.
  intros Hn. destruct n as [|p|p]; [done| |lia]. change (pretty (Z.pos p)) with (pretty (N.pos p)). unfold pretty, pretty_N.
  rewrite decide_False by done. rewrite bdec_go. done.
Qed.

(** A number printed with ["%d"] is read back. *)
Lemma Sscanf_pretty n : 0 <= n < 2 ^ 32 -> Sscanf_uint32 (pretty n) = Some n.
Proof.
  intros Hn. unfold Sscanf_uint32, scan_uint32, segs. pose proof (pretty_bytes n ltac:(lia)) as Hb. pose proof (bdec_pretty n ltac:(lia)) as Hd.
  rewrite digits_segs by done. set (l := bytes_of_string (pretty n)) in *.
  assert (exists b l', l = b :: l') as (b & l' & El).
  { destruct l as [|b l'] eqn:El; [|by do 2 eexists]. exfalso. assert (pretty n = "") as E0.
    { rewrite <-(string_of_bytes_of_string (pretty n)). fold l. by rewrite El. }
    unfold l in El. destruct n as [|p|p]; [done| |lia]. change (pretty (Z.pos p)) with (pretty (N.pos p)) in E0.
    unfold pretty, pretty_N in E0. rewrite decide_False in E0 by done. rewrite pretty_N_go_step in E0 by done.
    assert (forall x s, s <> "" -> pretty_N_go x s <> "") as Hne.
    { intros x. induction (N.lt_wf_0 x) as [x _ IH]; intros s Hs. destruct (decide (x = 0)%N) as [->|Hx]; [by rewrite pretty_N_go_0|].
      rewrite pretty_N_go_step by lia. apply IH; [apply N.div_lt; lia|done]. }
    by eapply Hne in E0. }
  assert (SkipSpace ((fun b => (b, [b])) <$> l) = Some ((fun b => (b, [b])) <$> l)) as ->.
  { rewrite El in *. apply Forall_cons in Hb as [Hb _]. unfold digit_byte in Hb. csimpl. rewrite (proj2 (Z.eqb_neq b 10)) by lia.
    assert (IsSpace b = false) as ->; [|done]. unfold IsSpace, cont. lia. }
  simpl. rewrite token_digits by done. unfold l. rewrite string_of_bytes_of_string. unfold ParseUint. fold l. rewrite El. rewrite <-El.
  rewrite parse_digits_bdec by (done || lia). simpl. rewrite Hd. rewrite (proj2 (Z.ltb_lt _ _)) by lia. done.
Qed.

Example scan_event : Sscanf_s "on_event = " "on_event = net_connect AND taint = true" = Some "net_connect".
Proof. reflexivity. Qed.
Example scan_float : Sscanf_float "on_risk_score > " "on_risk_score > 90.5e1 x" = Some "90.5e1".
Proof. reflexivity. Qed.
