(* ===== verification/Control.v ===== *)
(** * The controller of the kernel maps

    Translates [internal/engine/control]: process exclusion, exclusion by command name from
    a listing of [/proc], and the hot paths, kept as hashes.  [NormalizeComm] is from
    [pkg/config].  A kernel map is a finite map; the calls of the eBPF library may fail, and
    whether they do is an argument.  Deleting an absent key is an error, as that library
    documents. *)
From S2P Require Import Prelude GoStrings GoText.

Open Scope Z_scope.

Definition TaintNone : Z := 0.
Definition TaintNetConnect : Z := Z.shiftl 1 0.
Definition TaintFileWrite : Z := Z.shiftl 1 1.
Definition TaintSetuid : Z := Z.shiftl 1 2.
Definition TaintParent : Z := Z.shiftl 1 3.

Definition taintNames : list (Z * string) :=
  [(TaintNetConnect, "NET_CONNECT"); (TaintFileWrite, "FILE_WRITE"); (TaintSetuid, "SETUID"); (TaintParent, "PARENT")].

(** [%x]. *)
Definition hex_char (d : Z) : string := String (byte_ascii (if d <? 10 then 48 + d else 87 + d)) "".
Fixpoint hex_go (fuel : nat) (n : Z) (acc : string) : string :=
  match fuel with
  | O => acc
  | S fuel => let acc := hex_char (n `mod` 16) +:+ acc in if n / 16 =? 0 then acc else hex_go fuel (n / 16) acc
  end.
Definition hex32 (n : Z) : string := hex_go 8 n "".

Section control.
Context {MO : MapOrder} {UC : UnicodeCase}.

Definition bar (s : string) : string := if String.eqb s "" then s else s +:+ "|".

Definition TaintString (flags : Z) : string :=
  if flags =? TaintNone then "NONE"
  else
    let '(s, known) := foldl (fun '(s, known) '(mask, name) =>
      if Z.land flags mask =? 0 then (s, known) else (bar s +:+ name, Z.lor known mask)) ("", 0) (range 0 taintNames) in
    let unknown := Z.land flags (Z.lxor known 0xffffffff) in
    if unknown =? 0 then s else bar s +:+ "0x" +:+ hex32 unknown.

Record Controller := mkController {
  pidWhitelist : gmap Z Z; taintMap : gmap Z Z; sampleCounters : gmap Z Z; hotPaths : gmap Z Z;
}.

Definition set_pids (m : gmap Z Z) (c : Controller) : Controller := mkController m (taintMap c) (sampleCounters c) (hotPaths c).
Definition set_hot (m : gmap Z Z) (c : Controller) : Controller := mkController (pidWhitelist c) (taintMap c) (sampleCounters c) m.

(** [Put] and [Delete] of a map; [err]: an error of the kernel. *)
Definition map_Put (err : option string) (k v : Z) (m : gmap Z Z) : gmap Z Z * option string :=
  match err with Some e => (m, Some e) | None => (<[k := v]> m, None) end.
Definition map_Delete (err : option string) (k : Z) (m : gmap Z Z) : gmap Z Z * option string :=
  match err with
  | Some e => (m, Some e)
  | None => match m !! k with None => (m, Some "delete: key does not exist") | Some _ => (delete k m, None) end
  end.

Definition ExcludePID (err : option string) (pid : Z) (c : Controller) : Controller * option string :=
  let '(m, e) := map_Put err pid 1 (pidWhitelist c) in (set_pids m c, e).
Definition UnExcludePID (err : option string) (pid : Z) (c : Controller) : Controller * option string :=
  let '(m, e) := map_Delete err pid (pidWhitelist c) in (set_pids m c, e).
Definition IsExcluded (pid : Z) (c : Controller) : bool := bool_decide (is_Some (pidWhitelist c !! pid)).

Definition GetTaint (pid : Z) (c : Controller) : Z := default TaintNone (taintMap c !! pid).
Definition DumpTaints {S} (fn : Z -> Z -> S -> S) (c : Controller) (s : S) : S :=
  foldl (fun s '(pid, flags) => fn pid flags s) s (range 0 (map_to_list (taintMap c))).

Definition NormalizeComm (comm : string) : string :=
  let trimmed := TrimSpace comm in
  if String.eqb trimmed "" then ""
  else let t := ToLower (filepath_Base trimmed) in
    if (15 <? String.length t)%nat then String.substring 0 15 t else t.

(** [NormalizeComms]: normalized names, each once. *)
Fixpoint NormalizeComms (seen : gset string) (comms : list string) : list string :=
  match comms with
  | [] => []
  | c :: comms =>
      let n := NormalizeComm c in
      if String.eqb n "" || bool_decide (n ∈ seen) then NormalizeComms seen comms
      else n :: NormalizeComms ({[n]} ∪ seen) comms
  end.

(** [strconv.ParseUint(s, 10, 32)]. *)
Definition ParseUint32 (s : string) : option Z := v ← ParseUint s; if v <? 2 ^ 32 then Some v else None.

(** An entry of [/proc]: its [comm] file, if it can be read, and the outcome of the write to
    the kernel map for it. *)
Record proc_entry := mkEntry { pe_name : string; pe_dir : bool; pe_comm : option string; pe_err : option string }.

Definition comm_targets (comms : list string) : gset string :=
  foldl (fun t c => let n := NormalizeComm c in if String.eqb n "" then t else {[n]} ∪ t) ∅ comms.

(** The loop shared by the two exclusions: [sel] tells which normalized names are excluded. *)
Definition exclude_entry (sel : string -> bool) (st : Controller * Z) (e : proc_entry) : Controller * Z :=
  let '(c, excluded) := st in
  if negb (pe_dir e) then st
  else match ParseUint32 (pe_name e), pe_comm e with
       | Some pid, Some comm =>
           if sel (NormalizeComm comm) then
             match ExcludePID (pe_err e) pid c with
             | (c, None) => (c, excluded + 1)
             | (c, Some _) => (c, excluded)
             end
           else st
       | _, _ => st
       end.

(** [listing]: the entries of [/proc], or the error of reading it. *)
Definition exclude_scan (sel : string -> bool) (listing : string + list proc_entry) (c : Controller)
  : Controller * Z * option string :=
  match listing with
  | inl e => (c, 0, Some ("scan /proc: " +:+ e))
  | inr entries => (foldl (exclude_entry sel) (c, 0) entries, None)
  end.

Definition ExcludeComms (comms : list string) (listing : string + list proc_entry) (c : Controller)
  : Controller * Z * option string :=
  let targets := comm_targets comms in
  if bool_decide (targets = ∅) then (c, 0, None)
  else exclude_scan (fun n => bool_decide (n ∈ targets)) listing c.

Definition ExcludeComm (comm : string) := ExcludeComms [comm].

Definition ExcludeCommsExcept (comms : list string) (listing : string + list proc_entry) (c : Controller)
  : Controller * Z * option string :=
  let included := comm_targets comms in
  if bool_decide (included = ∅) then (c, 0, None)
  else exclude_scan (fun n => negb (bool_decide (n ∈ included))) listing c.

Definition noisyComms : list string :=
  ["yum"; "dnf"; "apt"; "dpkg"; "rpm"; "make"; "gcc"; "cc"; "g++"; "clang"; "systemd-journal"; "systemd-resolve";
   "cron"; "anacron"; "systemd-tmpfiles"; "updatedb"; "locate"; "plocate"; "mandb"; "catman"].
Definition DefaultExcludes (listing : string + list proc_entry) (c : Controller) : Controller * option string :=
  let '(c, _, e) := ExcludeComms noisyComms listing c in (c, e).

Definition fnv1a32 (s : string) : Z :=
  foldl (fun h c => u32 (Z.lxor h c * 16777619)) 2166136261 (bytes_of_string s).

Definition AddHotPath (err : option string) (prefix : string) (c : Controller) : Controller * option string :=
  let '(m, e) := map_Put err (fnv1a32 prefix) 1 (hotPaths c) in (set_hot m c, e).
Definition RemoveHotPath (err : option string) (prefix : string) (c : Controller) : Controller * option string :=
  let '(m, e) := map_Delete err (fnv1a32 prefix) (hotPaths c) in (set_hot m c, e).

(** [seen] are the keys the iterator yields while entries are deleted, with the outcome of
    each deletion: deleting during an iteration may restart or end it early. *)
Fixpoint ClearHotPaths (seen : list (Z * option string)) (c : Controller) : Controller * option string :=
  match seen with
  | [] => (c, None)
  | (k, err) :: seen =>
      match map_Delete err k (hotPaths c) with
      | (m, None) => ClearHotPaths seen (set_hot m c)
      | (m, Some e) => (set_hot m c, Some e)
      end
  end.

(** [Stats], for a controller with all its maps. *)
Definition Stats (c : Controller) : Z * Z * Z :=
  (Z.of_nat (size (pidWhitelist c)), Z.of_nat (size (taintMap c)), Z.of_nat (size (sampleCounters c))).

(** ** Exclusion by name is exact *)

(** The processes of a listing that the selection names and whose exclusion is written. *)
Definition selected (sel : string -> bool) (entries : list proc_entry) (pid : Z) : Prop :=
  exists e comm, e ∈ entries /\ pe_dir e = true /\ ParseUint32 (pe_name e) = Some pid /\ pe_comm e = Some comm /\
    sel (NormalizeComm comm) = true /\ pe_err e = None.

Lemma exclude_loop sel entries c n pid :
  IsExcluded pid (foldl (exclude_entry sel) (c, n) entries).1 = true <-> IsExcluded pid c = true \/ selected sel entries pid.
Proof.
  revert c n. induction entries as [|e entries IH]; intros c n; simpl.
  - split; [by left|]. intros [?|(e & ? & ?%elem_of_nil & _)]; done.
  - assert (forall c' n', (forall p, IsExcluded p c' = true <-> IsExcluded p c = true \/ selected sel [e] p) ->
      IsExcluded pid (foldl (exclude_entry sel) (c', n') entries).1 = true <-> IsExcluded pid c = true \/ selected sel (e :: entries) pid) as Hstep.
    { intros c' n' He. rewrite IH, He. unfold selected. setoid_rewrite elem_of_cons. setoid_rewrite elem_of_nil. naive_solver. }
    assert ((forall p, ~ selected sel [e] p) ->
      IsExcluded pid (foldl (exclude_entry sel) (c, n) entries).1 = true <-> IsExcluded pid c = true \/ selected sel (e :: entries) pid) as Hskip.
    { intros He. apply Hstep. intros p. specialize (He p). tauto. }
    assert (forall p, selected sel [e] p <-> pe_dir e = true /\ ParseUint32 (pe_name e) = Some p /\
      (exists comm, pe_comm e = Some comm /\ sel (NormalizeComm comm) = true) /\ pe_err e = None) as Hsel.
    { intros p. unfold selected. setoid_rewrite elem_of_cons. setoid_rewrite elem_of_nil. naive_solver. }
    destruct (pe_dir e) eqn:Ed; simpl; [|apply Hskip; intros p; rewrite Hsel; intros [? _]; done].
    destruct (ParseUint32 (pe_name e)) as [q|] eqn:Eq; [|apply Hskip; intros p; rewrite Hsel; intros (_ & ? & _); done].
    destruct (pe_comm e) as [comm|] eqn:Ec; [|apply Hskip; intros p; rewrite Hsel; intros (_ & _ & (? & ? & _) & _); done].
    destruct (sel (NormalizeComm comm)) eqn:Es; [|apply Hskip; intros p; rewrite Hsel; intros (_ & _ & (? & [= <-] & ?) & _); congruence].
    unfold ExcludePID, map_Put. destruct (pe_err e) as [er|] eqn:Ee.
    + destruct c. apply Hskip. intros p. rewrite Hsel. intros (_ & _ & _ & ?); done.
    + apply Hstep. intros p. rewrite Hsel. unfold IsExcluded. simpl. rewrite !bool_decide_eq_true, lookup_insert_is_Some'.
      split; [intros [-> | ?]; [right|by left]|intros [?|(_ & [= <-] & _)]; [by right|by left]]. eauto 10.
Qed.

(** After an exclusion by names the excluded processes are exactly those excluded before and
    the running ones whose normalized name is asked for (and whose write succeeded). *)
Lemma exclude_comms_exact comms entries c pid :
  IsExcluded pid (ExcludeComms comms (inr entries) c).1.1 = true <->
  IsExcluded pid c = true \/ selected (fun n => bool_decide (n ∈ comm_targets comms)) entries pid.
Proof.
  unfold ExcludeComms. case_bool_decide as E; [|apply exclude_loop].
  simpl. split; [by left|]. intros [?|(e & comm & _ & _ & _ & _ & Hs & _)]; [done|].
  rewrite E in Hs. apply bool_decide_eq_true in Hs. set_solver.
Qed.

Lemma comm_targets_spec comms n : n ∈ comm_targets comms <-> n <> "" /\ exists c, c ∈ comms /\ NormalizeComm c = n.
Proof.
  unfold comm_targets. assert (forall t : gset string, n ∈ foldl (fun t c => let n := NormalizeComm c in if String.eqb n "" then t else {[n]} ∪ t) t comms
    <-> n ∈ t \/ (n <> "" /\ exists c, c ∈ comms /\ NormalizeComm c = n)) as H; [|rewrite H; set_solver].
  induction comms as [|c comms IH]; intros t; simpl.
  - split; [by left|]. intros [?|(_ & c & ?%elem_of_nil & _)]; done.
  - rewrite IH. destruct (String.eqb_spec (NormalizeComm c) ""); setoid_rewrite elem_of_cons; set_solver.
Qed.

(** Hot paths are kept as 32-bit hashes: a path is hot once added, and removing it makes it
    cold; two paths with one hash are one entry. *)
Definition is_hot (path : string) (c : Controller) : bool := bool_decide (is_Some (hotPaths c !! fnv1a32 path)).

Lemma hot_added p q c : is_hot q (AddHotPath None p c).1 = bool_decide (fnv1a32 p = fnv1a32 q) || is_hot q c.
Proof.
  unfold is_hot, AddHotPath. simpl. rewrite <-bool_decide_or. apply bool_decide_ext. by rewrite lookup_insert_is_Some'.
Qed.

Lemma hot_removed p q c c' : RemoveHotPath None p c = (c', None) ->
  is_hot q c' = negb (bool_decide (fnv1a32 p = fnv1a32 q)) && is_hot q c.
Proof.
  unfold is_hot, RemoveHotPath. simpl. destruct (hotPaths c !! fnv1a32 p); [|done]. intros [= <-]. simpl.
  rewrite <-bool_decide_not, <-bool_decide_and. apply bool_decide_ext. by rewrite lookup_delete_is_Some.
Qed.
End control.

Definition no_maps : Controller := mkController ∅ ∅ ∅ ∅.

(** Removing a path that is not hot is an error. *)
Example remove_cold : (RemoveHotPath None "/x" no_maps).2 = Some "delete: key does not exist".
Proof. reflexivity. Qed.

Example taint_string_ex : @TaintString alternating_order 1 = "NET_CONNECT" /\ @TaintString alternating_order 0x401 = "NET_CONNECT|0x400".
Proof. split; reflexivity. Qed.
