(* ===== verification/Fleet.v ===== *)
(** * The fleet of agents on the management server

    Translates the part of [internal/policy/mgmt/server.go] that concerns agents: snapshots,
    enrollment, groups and tags, certificate fingerprints and their revocation, and the
    status a snapshot gets from its age.  The server that keeps the agents, receives reports
    and saves its state is in [PolicyCenter].  Clocks are arguments. *)
From S2P Require Import Prelude GoStrings GoText Sha256.
From Stdlib Require Import Ascii.

Open Scope Z_scope.

(** The fields of a summary that the server copies into the snapshot and never reads. *)
Record HostReport := mkReport {
  Hostname : string; OS : string; OSVersion : string; Kernel : string; Architecture : string; CPUCount : Z;
  AgentVersion : string; EventsIngested : Z; EventsDropped : Z; GraphNodes : Z; GraphEdges : Z;
  MemoryBytes : Z; UptimeSeconds : Z; AttachmentMode : string; AlertCount : Z; MLAlertCount : Z;
  LastAlertID : string; LastAlertPattern : string; LastAlertSeverity : string; LastAlertHeadline : string;
  LastAlertReason : string;
}.

(** [telemetry.Summary] (its timestamp is not read). *)
Record Summary := mkSummary {
  su_AgentID : string; su_Report : HostReport; su_Status : string; su_PipelineHealthy : bool; su_StoreHealthy : bool;
  su_AppliedPolicyVersion : Z;
}.

Record AgentTelemetrySnapshot := mkSnapshot {
  AgentID : string; Report : HostReport; Group : string; Tags : list string; Status : string; StatusReason : string;
  LastReportAt : time; LastReportAge : Z; PipelineHealthy : bool; StoreHealthy : bool; AppliedPolicyVersion : Z;
  EnrollmentStatus : string; EnrollmentNote : string; EnrollmentUpdatedAt : time; CertFingerprint : string;
}.

Definition zero_report : HostReport :=
  mkReport "" "" "" "" "" 0 "" 0 0 0 0 0 0 "" 0 0 "" "" "" "" "".
Definition zero_snapshot : AgentTelemetrySnapshot :=
  mkSnapshot "" zero_report "" [] "" "" time_zero 0 false false 0 "" "" time_zero "".

Abbreviation agents := (gmap string AgentTelemetrySnapshot).

(** Reading an absent key of the map gives the zero value. *)
Definition agent_at (m : agents) (id : string) : AgentTelemetrySnapshot := default zero_snapshot (m !! id).

Record FleetFilter := mkFilter { f_Group : string; f_Tag : string }.

Record persistedAgentMetadata := mkMetadata {
  m_Group : string; m_Tags : list string; m_EnrollmentStatus : string; m_EnrollmentNote : string;
  m_EnrollmentUpdatedAt : time; m_CertFingerprint : string;
}.

(** ** Updates of a snapshot *)

Definition with_group (g : string) (t : list string) (a : AgentTelemetrySnapshot) : AgentTelemetrySnapshot :=
  mkSnapshot (AgentID a) (Report a) g t (Status a) (StatusReason a) (LastReportAt a) (LastReportAge a)
    (PipelineHealthy a) (StoreHealthy a) (AppliedPolicyVersion a) (EnrollmentStatus a) (EnrollmentNote a)
    (EnrollmentUpdatedAt a) (CertFingerprint a).
Definition with_id (id : string) (a : AgentTelemetrySnapshot) : AgentTelemetrySnapshot :=
  mkSnapshot id (Report a) (Group a) (Tags a) (Status a) (StatusReason a) (LastReportAt a) (LastReportAge a)
    (PipelineHealthy a) (StoreHealthy a) (AppliedPolicyVersion a) (EnrollmentStatus a) (EnrollmentNote a)
    (EnrollmentUpdatedAt a) (CertFingerprint a).
Definition with_status (s r : string) (a : AgentTelemetrySnapshot) : AgentTelemetrySnapshot :=
  mkSnapshot (AgentID a) (Report a) (Group a) (Tags a) s r (LastReportAt a) (LastReportAge a)
    (PipelineHealthy a) (StoreHealthy a) (AppliedPolicyVersion a) (EnrollmentStatus a) (EnrollmentNote a)
    (EnrollmentUpdatedAt a) (CertFingerprint a).
Definition with_age (age : Z) (a : AgentTelemetrySnapshot) : AgentTelemetrySnapshot :=
  mkSnapshot (AgentID a) (Report a) (Group a) (Tags a) (Status a) (StatusReason a) (LastReportAt a) age
    (PipelineHealthy a) (StoreHealthy a) (AppliedPolicyVersion a) (EnrollmentStatus a) (EnrollmentNote a)
    (EnrollmentUpdatedAt a) (CertFingerprint a).
Definition with_enrollment (s n : string) (at_ : time) (a : AgentTelemetrySnapshot) : AgentTelemetrySnapshot :=
  mkSnapshot (AgentID a) (Report a) (Group a) (Tags a) (Status a) (StatusReason a) (LastReportAt a) (LastReportAge a)
    (PipelineHealthy a) (StoreHealthy a) (AppliedPolicyVersion a) s n at_ (CertFingerprint a).
Definition with_cert (c : string) (a : AgentTelemetrySnapshot) : AgentTelemetrySnapshot :=
  mkSnapshot (AgentID a) (Report a) (Group a) (Tags a) (Status a) (StatusReason a) (LastReportAt a) (LastReportAge a)
    (PipelineHealthy a) (StoreHealthy a) (AppliedPolicyVersion a) (EnrollmentStatus a) (EnrollmentNote a)
    (EnrollmentUpdatedAt a) c.

(** ** Configuration *)

(** The fields the modelled operations read. *)
Record ServerConfig := mkConfig {
  AgentStaleAfter : duration; AgentOfflineAfter : duration; StateFile : string; PolicyBundleDir : string;
  RevokedClientCertFingerprints : list string;
}.

Definition DefaultServerConfig : ServerConfig := mkConfig (2 * Minute) (5 * Minute) "" "" [].

Definition blank (s : string) : bool := String.eqb (TrimSpace s) "".

Definition normalizeAgentMonitorConfig (c : ServerConfig) : ServerConfig :=
  let stale := if AgentStaleAfter c <=? 0 then 2 * Minute else AgentStaleAfter c in
  let offline := if AgentOfflineAfter c <=? 0 then 5 * Minute else AgentOfflineAfter c in
  let offline := if offline <? stale then stale else offline in
  let dir := if blank (PolicyBundleDir c) && negb (blank (StateFile c))
             then filepath_Join (filepath_Dir (StateFile c)) "policy-bundles" else PolicyBundleDir c in
  mkConfig stale offline (StateFile c) dir (RevokedClientCertFingerprints c).

Section fleet.
Context {UC : UnicodeCase} {MO : MapOrder}.

(** ** Text *)

Definition normalizeEnrollmentStatus (status : string) : string :=
  let s := ToLower (TrimSpace status) in
  if bool_decide (s ∈ [""; "pending"]) then "pending"
  else if bool_decide (s ∈ ["approve"; "approved"; "enroll"; "enrolled"; "active"]) then "approved"
  else if bool_decide (s ∈ ["quarantine"; "quarantined"]) then "quarantined"
  else if bool_decide (s ∈ ["revoke"; "revoked"; "deny"; "denied"]) then "revoked"
  else "".

Fixpoint dedupe (seen : gset string) (tags : list string) : list string :=
  match tags with
  | [] => []
  | t :: tags =>
      let t := TrimSpace t in
      if String.eqb t "" then dedupe seen tags
      else let key := ToLower t in
        if bool_decide (key ∈ seen) then dedupe seen tags else t :: dedupe ({[key]} ∪ seen) tags
  end.
Definition dedupeTags (tags : list string) : list string := dedupe ∅ tags.

Definition hasTag (tags : list string) (want : string) : bool := existsb (fun t => EqualFold t want) tags.

Fixpoint firstNonEmpty (values : list string) : string :=
  match values with [] => "" | v :: values => if blank v then firstNonEmpty values else v end.

(** Pairs of bytes, for a string of even length. *)
Fixpoint pairs (l : list ascii) : list string :=
  match l with x :: y :: l => String.string_of_list_ascii [x; y] :: pairs l | _ => [] end.

Definition replace_byte (a b : ascii) (s : string) : string :=
  String.string_of_list_ascii ((fun c => if decide (c = a) then b else c) <$> chars s).

Definition normalizeCertFingerprint (value : string) : string :=
  let v := TrimSpace (ToUpper value) in
  if String.eqb v "" then ""
  else let v := replace_byte "-" ":" v in
    if Contains v ":" then Join ":" (List.filter (fun p => negb (String.eqb p "")) (TrimSpace <$> Split v ":"%char))
    else if (String.length v =? 64)%nat then Join ":" (pairs (chars v)) else v.

(** [%02X] of a byte. *)
Definition upper_hex (d : Z) : ascii := byte_ascii (if d <? 10 then 48 + d else 55 + d).
Definition hex_pair (b : Z) : string := String.string_of_list_ascii [upper_hex (b / 16); upper_hex (b `mod` 16)].

(** [raw]: the certificate's bytes, [None] for a nil certificate. *)
Definition fingerprintCertificate (raw : option (list Z)) : string :=
  match raw with None => "" | Some raw => Join ":" (hex_pair <$> Sum256 raw) end.

(** ** Status *)

Definition enrollmentReason (a : AgentTelemetrySnapshot) : string :=
  if blank (EnrollmentNote a) then "agent enrollment status is " +:+ EnrollmentStatus a else EnrollmentNote a.

Definition ago (age : duration) : string := "last report " +:+ duration_String (round_second age) +:+ " ago".

Definition agentSnapshotStatus (c : ServerConfig) (a : AgentTelemetrySnapshot) (now : time) : AgentTelemetrySnapshot :=
  if String.eqb (AgentID a) "" then a
  else
    let a := if String.eqb (EnrollmentStatus a) "" then with_enrollment "pending" (EnrollmentNote a) (EnrollmentUpdatedAt a) a else a in
    if String.eqb (EnrollmentStatus a) "revoked" then with_status "REVOKED" (enrollmentReason a) a
    else if String.eqb (EnrollmentStatus a) "quarantined" then with_status "QUARANTINED" (enrollmentReason a) a
    else if time_IsZero (LastReportAt a) then with_status "OFFLINE" "no telemetry summary received" a
    else
      let age := Z.max 0 (time_Sub now (LastReportAt a)) in
      let a := with_age (whole_seconds age) a in
      if AgentOfflineAfter c <=? age then with_status "OFFLINE" (ago age) a
      else if AgentStaleAfter c <=? age then with_status "STALE" (ago age) a
      else
        let status := if String.eqb (Status a) "" then "HEALTHY" else Status a in
        if negb (PipelineHealthy a) || negb (StoreHealthy a)
        then with_status (if EqualFold status "ERROR" then status else "DEGRADED") "agent reported unhealthy pipeline or store" a
        else with_status status "" a.

Definition TelemetryOverview (c : ServerConfig) (now : time) (m : agents) : list AgentTelemetrySnapshot :=
  (fun '(_, a) => agentSnapshotStatus c a now) <$> range 0 (map_to_list m).

Definition in_fleet (f : FleetFilter) (a : AgentTelemetrySnapshot) : bool :=
  (String.eqb (f_Group f) "" || EqualFold (Group a) (f_Group f)) && (String.eqb (f_Tag f) "" || hasTag (Tags a) (f_Tag f)).

Definition FleetSnapshot (c : ServerConfig) (f : FleetFilter) (now : time) (m : agents) : list AgentTelemetrySnapshot :=
  List.filter (in_fleet f) ((fun '(_, a) => agentSnapshotStatus c a now) <$> range 0 (map_to_list m)).

(** ** Enrollment and targets *)

Definition revoked (a : AgentTelemetrySnapshot) : bool := String.eqb (normalizeEnrollmentStatus (EnrollmentStatus a)) "revoked".

(** The agents [UpsertAgentMetadata] and [SetAgentEnrollment] leave; a nil list of tags keeps the old ones. *)
Definition upsert_agent (id group : string) (tags : option (list string)) (m : agents) : agents :=
  let a := with_id id (agent_at m id) in
  <[id := with_group (if String.eqb group "" then Group a else group)
            (match tags with None => Tags a | Some t => dedupeTags t end) a]> m.

Inductive enroll_error := NoAgentID | BadStatus.
Definition enroll_agent (now : time) (id status note : string) (m : agents) : enroll_error + agents :=
  let id := TrimSpace id in
  if String.eqb id "" then inl NoAgentID
  else let status := normalizeEnrollmentStatus status in
    if String.eqb status "" then inl BadStatus
    else inr (<[id := with_enrollment status (TrimSpace note) now (with_id id (agent_at m id))]> m).

Definition agentEnrollment (m : agents) (id : string) : string * string :=
  let id := TrimSpace id in
  if String.eqb id "" then ("pending", "")
  else let a := agent_at m id in
    let s := normalizeEnrollmentStatus (EnrollmentStatus a) in
    (if String.eqb s "" then "pending" else s, EnrollmentNote a).

Definition agentMatchesPolicyTarget (m : agents) (id : string) (group tag : string) : bool :=
  if blank group && blank tag then true
  else let a := agent_at m (TrimSpace id) in
    (blank group || EqualFold (Group a) group) && (blank tag || hasTag (Tags a) tag).

Definition is_target (f : FleetFilter) (a : AgentTelemetrySnapshot) : bool :=
  negb (revoked a)
  && (blank (f_Group f) || EqualFold (Group a) (TrimSpace (f_Group f)))
  && (blank (f_Tag f) || hasTag (Tags a) (TrimSpace (f_Tag f))).

Definition policyTargetAgentCount (f : FleetFilter) (m : agents) : Z :=
  Z.of_nat (length (List.filter (is_target f) (snd <$> map_to_list m))).

(** ** Client certificates *)

Definition isClientCertRevoked (m : agents) (raw : option (list Z)) : bool :=
  let fp := normalizeCertFingerprint (fingerprintCertificate raw) in
  if String.eqb fp "" then false
  else existsb (fun a => revoked a && String.eqb (normalizeCertFingerprint (CertFingerprint a)) fp) (snd <$> map_to_list m).

Inductive verify_error := CertRequired | CertParse (e : string) | CertRevoked (fp : string).

(** The check of [loadTLSConfig] on the certificates a client presents; [parsed]: the error
    of [x509.ParseCertificate] on the first, if any.  The server's own check of revoked
    agents is the configured one. *)
Definition VerifyPeerCertificate (c : ServerConfig) (m : agents) (parsed : option string) (rawCerts : list (list Z)) : option verify_error :=
  match rawCerts, parsed with
  | [], _ => Some CertRequired
  | _, Some e => Some (CertParse e)
  | raw :: _, None =>
      let fp := normalizeCertFingerprint (fingerprintCertificate (Some raw)) in
      if existsb (fun r => negb (String.eqb fp "") && String.eqb fp (normalizeCertFingerprint r)) (RevokedClientCertFingerprints c)
      then Some (CertRevoked fp)
      else if isClientCertRevoked m (Some raw) then Some (CertRevoked fp) else None
  end.
End fleet.

(** ** Fingerprints are in normal form *)

Definition fp_char (c : ascii) : Prop := 48 <= byteval c <= 58 \/ 65 <= byteval c <= 70.

Lemma fp_chars c : fp_char c -> printable (byteval c) /\ byteval c < 128 /\ upper_byte (byteval c) = byteval c /\ c <> "-"%char.
Proof.
  unfold fp_char, printable, upper_byte, cont. intros Hc. split_and!; [lia..| |].
  - by rewrite (proj2 (Z.leb_gt 97 _)) by lia.
  - intros ->. vm_compute in Hc. destruct Hc as [[Hc _]|[Hc _]]; by apply Hc.
Qed.

Lemma upper_hex_char d : 0 <= d < 16 -> fp_char (upper_hex d) /\ upper_hex d <> ":"%char.
Proof.
  intros Hd. assert (d ∈ seqZ 0 16) as Hin by (apply elem_of_seqZ; lia). clear Hd.
  change (seqZ 0 16) with [0; 1; 2; 3; 4; 5; 6; 7; 8; 9; 10; 11; 12; 13; 14; 15] in Hin.
  repeat (apply elem_of_cons in Hin as [-> | Hin]; [split; [(left; vm_compute; split; discriminate) || (right; vm_compute; split; discriminate)|done]|]). by apply elem_of_nil in Hin.
Qed.

Lemma hex_pair_chars b : is_byte b -> Forall (fun c => fp_char c /\ c <> ":"%char) (chars (hex_pair b)).
Proof.
  intros Hb. unfold hex_pair. rewrite chars_of_ascii. unfold is_byte in Hb.
  apply Forall_cons_2, Forall_cons_2, Forall_nil_2; apply upper_hex_char; [|apply Z.mod_pos_bound; lia].
  split; [apply Z.div_pos; lia|apply Z.div_lt_upper_bound; lia].
Qed.

Lemma join_chars (P : ascii -> Prop) c l : P c -> Forall (fun s => Forall P (chars s)) l -> Forall P (chars (Join (String c "") l)).
Proof.
  intros Hc. induction l as [|s l IH]; intros Hl; [constructor|]. apply Forall_cons in Hl as [Hs Hl].
  destruct l as [|t l]; [done|]. change (Join (String c "") (s :: t :: l)) with (s +:+ String c "" +:+ Join (String c "") (t :: l)).
  rewrite !chars_app. repeat apply Forall_app_2; auto. by repeat constructor.
Qed.

Lemma ToUpper_fixed `{UnicodeCase} s : Forall fp_char (chars s) -> ToUpper s = s.
Proof.
  intros Hs. unfold ToUpper. assert (is_ascii s = true) as ->.
  { unfold is_ascii. apply forallb_forall. intros b Hb%list_elem_of_In. unfold bytes_of_string in Hb.
    apply list_elem_of_fmap in Hb as (c & -> & Hc). rewrite Forall_forall in Hs. apply Hs, fp_chars in Hc. lia. }
  rewrite <-(string_of_bytes_of_string s) at 2. f_equal. unfold bytes_of_string. rewrite <-list_fmap_compose.
  apply Forall_fmap_ext_1. eapply Forall_impl; [exact Hs|]. intros c Hc. by apply fp_chars.
Qed.

Lemma fp_trim s : Forall fp_char (chars s) -> TrimSpace s = s.
Proof.
  intros Hs. apply TrimSpace_printable. unfold bytes_of_string. rewrite Forall_fmap. eapply Forall_impl; [exact Hs|].
  intros c Hc. by apply fp_chars.
Qed.

Lemma replace_absent a b s : a ∉ chars s -> replace_byte a b s = s.
Proof.
  intros Hs. unfold replace_byte. rewrite <-(string_of_chars s) at 2. f_equal. rewrite <-(list_fmap_id (chars s)) at 2.
  apply list_fmap_ext. intros i c Hc%list_elem_of_lookup_2. simpl. rewrite decide_False; [done|]. intros ->. done.
Qed.

Lemma fingerprint_parts raw :
  Forall (fun s => s <> "" /\ Forall (fun c => fp_char c /\ c <> ":"%char) (chars s)) (hex_pair <$> Sum256 raw).
Proof. rewrite Forall_fmap. eapply Forall_impl; [apply Sum256_ok|]. intros b Hb. split; [done|by apply hex_pair_chars]. Qed.

Lemma fingerprint_two raw : exists a b l, hex_pair <$> Sum256 raw = a :: b :: l.
Proof. destruct (Sum256_ok raw) as [Hl _]. destruct (Sum256 raw) as [|a [|b l]]; try done. by exists (hex_pair a), (hex_pair b), (hex_pair <$> l). Qed.

(** The text of a fingerprint is unchanged by normalization, so the text stored with a
    report and the text computed at a handshake agree. *)
Lemma fingerprint_normal `{UnicodeCase} raw :
  normalizeCertFingerprint (fingerprintCertificate (Some raw)) = fingerprintCertificate (Some raw).
Proof.
  unfold fingerprintCertificate. pose proof (fingerprint_parts raw) as Hp. destruct (fingerprint_two raw) as (a & b & l & E).
  set (parts := hex_pair <$> Sum256 raw) in *. clearbody parts.
  assert (Forall fp_char (chars (Join ":" parts))) as Hf.
  { apply join_chars; [left; vm_compute; split; discriminate|]. eapply Forall_impl; [exact Hp|]. intros s [_ Hs]. eapply Forall_impl; [exact Hs|]. by intros c []. }
  unfold normalizeCertFingerprint. rewrite ToUpper_fixed, fp_trim by done.
  assert (Join ":" parts <> "") as Hne. { rewrite E. simpl. by destruct a. }
  rewrite (proj2 (String.eqb_neq _ _) Hne), replace_absent.
  2: { intros Hin. rewrite Forall_forall in Hf. apply Hf, fp_chars in Hin. naive_solver. }
  rewrite Contains_char.
  2: { rewrite E. change (Join ":" (a :: b :: l)) with (a +:+ ":" +:+ Join ":" (b :: l)). rewrite !chars_app. set_solver. }
  rewrite Split_Join; [|by rewrite E|].
  2: { eapply Forall_impl; [exact Hp|]. intros s [_ Hs] Hin. rewrite Forall_forall in Hs. by apply Hs in Hin as []. }
  f_equal. clear -Hp. induction parts as [|s parts IH]; [done|]. apply Forall_cons in Hp as [[Hne Hs] Hp]. rewrite fmap_cons. cbn [List.filter].
  rewrite fp_trim by (eapply Forall_impl; [exact Hs|]; by intros c []).
  rewrite (proj2 (String.eqb_neq _ _) Hne). simpl. f_equal. by apply IH.
Qed.

Example dedupe_ex : @dedupeTags ascii_case [" Prod"; "prod "; ""; "db"] = ["Prod"; "db"].
Proof. reflexivity. Qed.
Example normalize_ex : @normalizeCertFingerprint ascii_case " aa-bb-0c" = "AA:BB:0C".
Proof. reflexivity. Qed.
