(* ===== verification/ApiAccess.v ===== *)
(** * Access to the HTTP interface

    Translates [pkg/api/middleware.go] and the chain of [pkg/api/api.go]: identity from
    trusted headers, roles and their permissions, the token bucket per client, and the
    answers to cross-origin requests.  A request that passes reaches its handler, which is a
    parameter: a handler returns a response or panics. *)
From S2P Require Import Prelude GoStrings GoText GoFloat.
From Stdlib Require Import Ascii.

Open Scope Z_scope.

Definition RoleAdmin : string := "admin".
Definition RoleAnalyst : string := "analyst".
Definition RoleAuditor : string := "auditor".
Definition RoleOperator : string := "operator".

Record trustedHeaderAuthConfig := mkTrusted { th_Enabled : bool; UserHeader : string; RoleHeader : string; TenantHeader : string }.

(** [header k] is [r.Header.Get(k)]. *)
Record Request := mkRequest { method : string; path : string; header : string -> string; RemoteAddr : string }.

(** What the middleware attaches to the context. *)
Record Identity := mkIdentity { actor : string; role : string; tenant : string }.

Section access.
Context {UC : UnicodeCase}.

Definition normalizeRole (r : string) : string :=
  let n := ToLower (TrimSpace r) in
  if bool_decide (n ∈ [RoleAuditor; RoleOperator; RoleAnalyst]) then n
  else if bool_decide (n ∈ [""; RoleAdmin]) then RoleAdmin else n.

(** [strings.TrimRight(s, "/")] and [strings.SplitN(s, ":", 2)]. *)
Definition TrimRightSlash (s : string) : string := String.string_of_list_ascii (rev (strip_slashes (rev (chars s)))).
Fixpoint cut_colon (acc l : list ascii) : option (list ascii * list ascii) :=
  match l with [] => None | c :: l => if decide (c = ":"%char) then Some (rev acc, l) else cut_colon (c :: acc) l end.
Definition SplitN2 (s : string) : option (string * string) :=
  '(a, b) ← cut_colon [] (chars s); Some (String.string_of_list_ascii a, String.string_of_list_ascii b).

Definition permissionMatches (permission meth p : string) : bool :=
  let permission := TrimSpace permission in
  if String.eqb permission "*" then true
  else match SplitN2 permission with
       | None => false
       | Some (a, b) =>
           let permMethod := ToUpper (TrimSpace a) in let permPath := TrimSpace b in
           if negb (String.eqb permMethod "*") && negb (String.eqb permMethod (ToUpper meth)) then false
           else String.eqb permPath "*" || String.eqb p permPath || HasPrefix p (TrimRightSlash permPath +:+ "/")
       end.

Definition allowedByCustomPermissions (r meth p : string) (perms : gmap string (list string)) : bool :=
  existsb (fun permission => permissionMatches permission meth p) (default [] (perms !! r)).

Definition public_assets : list string :=
  ["/"; "/dashboard"; "/assets/dashboard.css"; "/assets/dashboard-responsive.css"; "/assets/dashboard-api.js"; "/assets/dashboard-state.js";
   "/assets/dashboard-ui.js"; "/assets/dashboard-layout.js"; "/assets/dashboard-loaders.js"; "/assets/dashboard-fleet.js";
   "/assets/dashboard-support.js"; "/assets/dashboard-backup.js"; "/assets/dashboard-policy.js"; "/assets/dashboard-upgrade.js";
   "/assets/dashboard-workflow.js"; "/assets/dashboard-ground-truth.js"; "/assets/dashboard-evidence.js"; "/assets/dashboard-graph.js";
   "/assets/dashboard-runtime.js"; "/assets/dashboard.js"; "/assets/trace-viewer.css"; "/assets/trace-viewer.js"].

Definition isPublicDashboardPath (meth p : string) : bool :=
  if negb (bool_decide (meth ∈ ["GET"; "HEAD"])) then false
  else if HasPrefix p "/api/v1/alerts/" && HasSuffix p "/svg/view" then true else bool_decide (p ∈ public_assets).

Definition analyst_denied : list string := ["/api/v1/control/support/download"; "/api/v1/control/backup/download"; "/api/v1/control/policies/bundle"].
Definition analyst_no_post : list string :=
  ["/api/v1/control/fleet"; "/api/v1/control/support"; "/api/v1/control/backup"; "/api/v1/control/compliance"; "/api/v1/control/security";
   "/api/v1/control/policies"; "/api/v1/control/deliveries"; "/api/v1/control/upgrade"].
Definition operator_reads : list string :=
  ["/health"; "/ready"; "/api/v1/status"; "/api/v1/control/overview"; "/api/v1/control/ha"; "/api/v1/control/fleet"; "/api/v1/control/policies";
   "/api/v1/control/alerts"; "/api/v1/control/deliveries"; "/api/v1/control/upgrade"; "/api/v1/investigation/report"; "/assets/dashboard";
   "/assets/trace-viewer"; "/dashboard"].
Definition operator_posts : list string := ["/api/v1/control/fleet"; "/api/v1/control/alerts"; "/api/v1/control/upgrade"].
Definition auditor_reads : list string :=
  ["/health"; "/ready"; "/api/v1/status"; "/api/v1/control/overview"; "/api/v1/control/ha"; "/api/v1/control/fleet"; "/api/v1/control/support";
   "/api/v1/control/backup"; "/api/v1/control/compliance"; "/api/v1/control/security"; "/api/v1/control/audit"; "/api/v1/control/upgrade";
   "/api/v1/control/policies"; "/api/v1/control/alerts"; "/api/v1/control/deliveries"; "/api/v1/alerts"; "/api/v1/investigation/report";
   "/assets/dashboard"; "/assets/trace-viewer"; "/dashboard"].

(** The path starts with one of these. *)
Definition under (prefixes : list string) (p : string) : bool := existsb (HasPrefix p) prefixes.

Definition allowed (r meth p : string) (perms : gmap string (list string)) : bool :=
  if isPublicDashboardPath meth p then true
  else
    let r := normalizeRole r in
    if String.eqb r RoleAdmin then true
    else if String.eqb r RoleAnalyst then
      if under analyst_denied p then false
      else if String.eqb meth "POST" && under analyst_no_post p then false
      else negb (HasPrefix p "/api/v1/admin/")
    else if String.eqb r RoleOperator then
      if bool_decide (meth ∈ ["GET"; "OPTIONS"]) then
        if HasPrefix p "/api/v1/control/backup/download" || HasPrefix p "/api/v1/control/support/download" then false
        else under operator_reads p || String.eqb p "/"
      else if String.eqb meth "POST" then under operator_posts p else false
    else if String.eqb r RoleAuditor then
      if negb (bool_decide (meth ∈ ["GET"; "OPTIONS"])) then false
      else if HasPrefix p "/api/v1/control/backup/download" then false
      else under auditor_reads p || String.eqb p "/"
    else allowedByCustomPermissions r meth p perms.

(** ** The chain *)

Definition actor_name (a r : string) : string :=
  let a := TrimSpace a in (if String.eqb a "" then "trusted-proxy" else a) +:+ " (" +:+ normalizeRole r +:+ ")".

Definition or_default (s d : string) : string := if String.eqb s "" then d else s.

Definition authMiddleware (t : trustedHeaderAuthConfig) (r : Request) : Identity :=
  let user := TrimSpace (header r (or_default (UserHeader t) "X-Forwarded-User")) in
  if th_Enabled t && negb (String.eqb user "") then
    let ro := normalizeRole (header r (or_default (RoleHeader t) "X-Forwarded-Role")) in
    mkIdentity (actor_name user ro) (normalizeRole ro) (TrimSpace (header r (or_default (TenantHeader t) "X-Forwarded-Tenant")))
  else mkIdentity (actor_name "open-source-operator" RoleAdmin) (normalizeRole RoleAdmin) "".

(** *** Rate limiting *)

Record tokenBucket := mkBucket { tokens : float64; lastCheck : time }.
Record rateLimiter := mkLimiter { buckets : gmap string tokenBucket; rate : float64; burst : Z }.

Definition newRateLimiter (r : float64) (b : Z) : rateLimiter := mkLimiter ∅ r b.

(** [d.Seconds()]. *)
Definition duration_Seconds (d : duration) : float64 :=
  f_add (f_of_Z (Z.quot d Second)) (f_div (f_of_Z (Z.rem d Second)) (f_of_Z Second)).

Definition allow (now : time) (ip : string) (rl : rateLimiter) : rateLimiter * bool :=
  let full := f_of_Z (burst rl) in
  let b := default (mkBucket full now) (buckets rl !! ip) in
  let t := f_add (tokens b) (f_mul (duration_Seconds (time_Sub now (lastCheck b))) (rate rl)) in
  let t := if f_gtb t full then full else t in
  if f_ltb t (f_of_Z 1) then (mkLimiter (<[ip := mkBucket t now]> (buckets rl)) (rate rl) (burst rl), false)
  else (mkLimiter (<[ip := mkBucket (f_sub t (f_of_Z 1)) now]> (buckets rl)) (rate rl) (burst rl), true).

Definition client_ip (r : Request) : string := or_default (header r "X-Forwarded-For") (RemoteAddr r).

Definition rateLimit (now : time) (r : Request) (rl : option rateLimiter) : option rateLimiter * bool :=
  match rl with
  | None => (None, true)
  | Some l => if f_leb (rate l) (f_of_Z 0) then (Some l, true) else let '(l, ok) := allow now (client_ip r) l in (Some l, ok)
  end.

Definition SetRateLimit (r : float64) (b : Z) (rl : option rateLimiter) : option rateLimiter :=
  if f_gtb r (f_of_Z 0) then Some (newRateLimiter r b) else rl.

(** *** Cross-origin requests *)

Fixpoint matchOrigin_in (origin : string) (l : list string) : string :=
  match l with [] => "null" | a :: l => if String.eqb a origin || String.eqb a "*" then origin else matchOrigin_in origin l end.
Definition matchOrigin (origin : string) (l : list string) : string := if String.eqb origin "" then "null" else matchOrigin_in origin l.

Definition allow_origin (origins : list string) (r : Request) : string :=
  match origins with
  | o :: _ => if String.eqb o "*" then "*" else matchOrigin (header r "Origin") origins
  | [] => "*"
  end.

(** *** All together *)

Record ApiServer := mkApi {
  trusted : trustedHeaderAuthConfig; authPermissions : gmap string (list string); limiter : option rateLimiter; corsOrigins : list string;
}.

Definition SetTrustedHeaderAuth (enabled : bool) (user_header role_header : string) (s : ApiServer) : ApiServer :=
  mkApi (mkTrusted enabled (TrimSpace user_header) (TrimSpace role_header) (TenantHeader (trusted s))) (authPermissions s) (limiter s) (corsOrigins s).

Inductive answer := Forbidden (r : string) | TooMany | NoContent (origin : string) | Internal | Handled (origin : string) (body : string).

(** [handler]: the response of the mux for an identity, [None] when it panics. *)
Definition buildHandlerChain (handler : Identity -> Request -> option string) (now : time) (r : Request) (s : ApiServer) : answer * ApiServer :=
  let id := authMiddleware (trusted s) r in
  let ro := or_default (role id) RoleAdmin in
  if negb (allowed ro (method r) (path r) (authPermissions s)) then (Forbidden ro, s)
  else
    let '(rl, ok) := rateLimit now r (limiter s) in
    let s' := mkApi (trusted s) (authPermissions s) rl (corsOrigins s) in
    if negb ok then (TooMany, s')
    else
      let o := allow_origin (corsOrigins s) r in
      if String.eqb (method r) "OPTIONS" then (NoContent o, s')
      else match handler id r with Some body => (Handled o body, s') | None => (Internal, s') end.

(** ** Separation of duties *)

(** The handler ran: it answered or panicked. *)
Definition reached (a : answer) : bool := match a with Handled _ _ | Internal => true | _ => false end.

Lemma prefix_comparable p a b : HasPrefix p a = true -> HasPrefix p b = true -> HasPrefix a b || HasPrefix b a = true.
Proof.
  unfold HasPrefix. revert a b. induction p as [|c p IH]; intros [|x a] [|y b]; simpl; try done.
  destruct (ascii_dec x c) as [->|]; [|done]. destruct (ascii_dec y c) as [->|]; [|done].
  intros Ha Hb. destruct (ascii_dec c c); [|done]. by apply IH.
Qed.

(** No path starts with a member of both lists when no member of one is a prefix of a member of the other. *)
Lemma under_apart l l' p : forallb (fun a => forallb (fun b => negb (HasPrefix a b || HasPrefix b a)) l') l = true ->
  under l p = true -> under l' p = false.
Proof.
  intros Hap Hl. destruct (under l' p) eqn:E; [|done]. unfold under in *. apply existsb_exists in Hl as (a & Ha & Hpa).
  apply existsb_exists in E as (b & Hb & Hpb). rewrite forallb_forall in Hap. specialize (Hap a Ha). rewrite forallb_forall in Hap.
  specialize (Hap b Hb). simpl in Hap. by rewrite (prefix_comparable p a b) in Hap.
Qed.

(** Paths of the control plane that only administrators may change or download. *)
Definition admin_changes : list string :=
  ["/api/v1/control/policies"; "/api/v1/control/security"; "/api/v1/control/compliance"; "/api/v1/control/backup"; "/api/v1/control/support";
   "/api/v1/control/deliveries"].
Definition admin_only : list string := ["/api/v1/admin/"; "/api/v1/control/backup/download"].

Definition built_in (r : string) : Prop := r ∈ [RoleAnalyst; RoleOperator; RoleAuditor].

Lemma public_not_admin meth p : isPublicDashboardPath meth p = true -> under admin_only p = false.
Proof.
  unfold isPublicDashboardPath. destruct (negb _); [done|]. destruct (HasPrefix p "/api/v1/alerts/" && HasSuffix p "/svg/view") eqn:E.
  - apply andb_true_iff in E as [E _]. intros _. apply (under_apart ["/api/v1/alerts/"]); [reflexivity|]. simpl. by rewrite E.
  - intros Hin. apply bool_decide_eq_true in Hin. unfold public_assets in Hin.
    repeat (apply elem_of_cons in Hin as [-> | Hin]; [reflexivity|]). by apply elem_of_nil in Hin.
Qed.

Lemma role_normal r : built_in r -> normalizeRole r = r.
Proof. unfold built_in. rewrite !elem_of_cons, elem_of_nil. by intros [-> | [-> | [-> | []]]]. Qed.

Lemma under_cons a l p : under (a :: l) p = HasPrefix p a || under l p.
Proof. done. Qed.

Lemma allowed_built_in r meth p perms : built_in r -> allowed r meth p perms = true ->
  under admin_only p = false /\ (meth = "POST" -> under admin_changes p = false) /\
  (r = RoleAuditor -> meth ∈ ["GET"; "HEAD"; "OPTIONS"]) /\
  (r = RoleOperator -> meth = "POST" -> under operator_posts p = true).
Proof.
  intros Hb. unfold allowed. rewrite role_normal by done. destruct (isPublicDashboardPath meth p) eqn:Ep.
  { intros _. split; [by eapply public_not_admin|]. unfold isPublicDashboardPath in Ep.
    destruct (decide (meth ∈ ["GET"; "HEAD"])) as [Hm|Hm]; [|rewrite bool_decide_false in Ep by done; done].
    split_and!; [intros ->; set_solver|intros _; set_solver|intros _ ->; set_solver]. }
  unfold built_in in Hb. rewrite !elem_of_cons, elem_of_nil in Hb. destruct Hb as [-> | [-> | [-> | []]]]; simpl String.eqb; cbv iota.
  - destruct (under analyst_denied p) eqn:Ed; [done|]. destruct (String.eqb meth "POST" && under analyst_no_post p) eqn:Epo; [done|].
    intros Hadm. apply negb_true_iff in Hadm. split_and!; [| |done|done].
    + unfold admin_only. rewrite under_cons, Hadm. unfold analyst_denied in Ed. rewrite !under_cons in Ed.
      apply orb_false_iff in Ed as [_ Ed]. apply orb_false_iff in Ed as [Ed _]. simpl. by rewrite Ed.
    + intros ->. change (String.eqb "POST" "POST") with true in Epo. rewrite andb_true_l in Epo. unfold analyst_no_post in Epo. rewrite !under_cons in Epo. repeat (apply orb_false_iff in Epo as [? Epo]).
      unfold admin_changes. rewrite !under_cons. repeat (apply orb_false_iff; split); done.
  - destruct (bool_decide (meth ∈ ["GET"; "OPTIONS"])) eqn:Em.
    + apply bool_decide_eq_true in Em. destruct (HasPrefix p "/api/v1/control/backup/download" || _) eqn:Ed; [done|].
      apply orb_false_iff in Ed as [Ed _]. intros Hr. split_and!; [|intros ->; set_solver|done|intros _ ->; set_solver].
      unfold admin_only. rewrite !under_cons, Ed. apply orb_true_iff in Hr as [Hr|Hr]; [|apply String.eqb_eq in Hr as ->; reflexivity].
      pose proof (under_apart operator_reads ["/api/v1/admin/"] p eq_refl Hr) as H. rewrite under_cons in H. apply orb_false_iff in H as [-> _]. reflexivity.
    + destruct (String.eqb_spec meth "POST") as [->|]; [|done]. intros Hr.
      split_and!; [by apply (under_apart operator_posts)|intros _; by apply (under_apart operator_posts)|done|done].
  - destruct (bool_decide (meth ∈ ["GET"; "OPTIONS"])) eqn:Em; [|done]. apply bool_decide_eq_true in Em. simpl negb. cbv iota.
    destruct (HasPrefix p "/api/v1/control/backup/download") eqn:Ed; [done|]. intros Hr.
    split_and!; [|intros ->; set_solver|set_solver|done].
    unfold admin_only. rewrite !under_cons, Ed. apply orb_true_iff in Hr as [Hr|Hr]; [|apply String.eqb_eq in Hr as ->; reflexivity].
    pose proof (under_apart auditor_reads ["/api/v1/admin/"] p eq_refl Hr) as H. rewrite under_cons in H. apply orb_false_iff in H as [-> _]. reflexivity.
Qed.

(** A request with the identity of a proxy in its headers. *)
Definition identified (t : trustedHeaderAuthConfig) (r : Request) : Prop :=
  th_Enabled t = true /\ TrimSpace (header r (or_default (UserHeader t) "X-Forwarded-User")) <> "".


(** ** Limits *)

(** A request without the identity headers is an administrator's, also behind a trusted proxy. *)
Lemma anonymous_is_admin t r : TrimSpace (header r (or_default (UserHeader t) "X-Forwarded-User")) = "" ->
  role (authMiddleware t r) = RoleAdmin.
Proof. intros Hu. unfold authMiddleware. rewrite Hu. by rewrite andb_false_r. Qed.

(** A permission without a path, or for the root, covers every path of its method. *)
Lemma root_permission p : HasPrefix p "/" = true -> permissionMatches "GET:" "GET" p = true.
Proof.
  intros Hp. change (permissionMatches "GET:" "GET" p) with (String.eqb "" "*" || String.eqb p "" || HasPrefix p "/").
  rewrite Hp. apply orb_true_r.
Qed.

(** A client that names a new address in each request is never limited. *)
Lemma fresh_address now ip rl : buckets rl !! ip = None -> burst rl = 10 -> rate rl = f_of_Z 5 -> (allow now ip rl).2 = true.
Proof.
  intros Hb Hbu Hr. unfold allow. rewrite Hb, Hbu, Hr. simpl default. unfold time_Sub.
  assert (now - now = 0) as Hz by lia. cbn [lastCheck tokens]. rewrite Hz. vm_compute. reflexivity.
Qed.
End access.

(** ** Examples *)

Definition hdr (l : list (string * string)) (k : string) : string := default "" ((list_to_map l : gmap string string) !! k).
Definition api0 : ApiServer := mkApi (mkTrusted true "" "" "") ∅ None [].
Definition audit_get : Request :=
  mkRequest "GET" "/api/v1/control/audit" (hdr [("X-Forwarded-User", "ann"); ("X-Forwarded-Role", "Auditor")]) "10.0.0.1:1".
Definition echo (id : Identity) (r : Request) : option string := Some (actor id).


(** Three requests at once with a burst of two. *)
Example bucket_ex :
  let rl := newRateLimiter (f_of_Z 1) 2 in
  let '(rl, a) := allow 5 "c" rl in let '(rl, b) := allow 5 "c" rl in let '(rl, c) := allow 5 "c" rl in
  let '(_, d) := allow (5 + Second) "c" rl in (a, b, c, d) = (true, true, false, true).
Proof. vm_compute. reflexivity. Qed.
