(* ===== verification/HotPath.v ===== *)
(** * The cache of recent paths, sketches and parallel traces

    Translates [internal/engine/opt]: the cache of paths with its recency list and expiry
    ([hotpath.go]), sketch nodes ([sketch.go]) and traces from several nodes at once
    ([parallel.go]).  The recency list holds the keys of the entries, most recent first: the
    elements of the Go list are reached from the entries.  Clocks are arguments. *)
From S2P Require Import Prelude GoStrings.

Open Scope Z_scope.

(** ** The cache *)

Record PathEntry := mkEntry {
  Key : string; Source : string; Target : string; Relation : string; SubgraphSummary : string;
  FirstSeen : time; LastSeen : time; AccessCount : Z;
}.

Record HotPathCache := mkCache {
  entries : gmap string PathEntry; lru : list string; maxSize : Z; ttl : duration; hits : Z; misses : Z;
}.

Definition NewHotPathCache (size : Z) (t : duration) : HotPathCache :=
  mkCache ∅ [] (if size <=? 0 then 10000 else size) (if t <=? 0 then 5 * Minute else t) 0 0.

Definition BuildPathKey (source target relation : string) : string := source +:+ "|" +:+ target +:+ "|" +:+ relation.

Definition move_to_front (k : string) (l : list string) : list string := k :: filter (fun x => x <> k) l.
Definition set_cache (es : gmap string PathEntry) (l : list string) (c : HotPathCache) : HotPathCache :=
  mkCache es l (maxSize c) (ttl c) (hits c) (misses c).
Definition count_hit (c : HotPathCache) : HotPathCache := mkCache (entries c) (lru c) (maxSize c) (ttl c) (hits c + 1) (misses c).
Definition count_miss (c : HotPathCache) : HotPathCache := mkCache (entries c) (lru c) (maxSize c) (ttl c) (hits c) (misses c + 1).

Definition Remove (key : string) (c : HotPathCache) : HotPathCache :=
  match entries c !! key with
  | Some _ => set_cache (delete key (entries c)) (filter (fun x => x <> key) (lru c)) c
  | None => c
  end.

Definition touch (now : time) (summary : string) (e : PathEntry) : PathEntry :=
  mkEntry (Key e) (Source e) (Target e) (Relation e) (if String.eqb summary "" then SubgraphSummary e else summary)
    (FirstSeen e) now (AccessCount e + 1).

(** [t0], [t1]: the readings for the expiry and for the new time. *)
Definition Get (t0 t1 : time) (source target relation : string) (c : HotPathCache) : HotPathCache * option PathEntry :=
  let key := BuildPathKey source target relation in
  match entries c !! key with
  | None => (count_miss c, None)
  | Some e =>
      if ttl c <? time_Sub t0 (LastSeen e) then (count_miss (Remove key c), None)
      else let e := touch t1 "" e in
        (count_hit (set_cache (<[key := e]> (entries c)) (move_to_front key (lru c)) c), Some e)
  end.

(** The eviction loop: one turn per entry is enough. *)
Fixpoint evict (fuel : nat) (c : HotPathCache) : HotPathCache :=
  match fuel with
  | O => c
  | S fuel =>
      if maxSize c <=? Z.of_nat (length (lru c)) then
        match last (lru c) with
        | None => c
        | Some k => evict fuel (set_cache (delete k (entries c)) (take (length (lru c) - 1) (lru c)) c)
        end
      else c
  end.

Definition Set_ (t0 t1 : time) (source target relation summary : string) (c : HotPathCache) : HotPathCache :=
  let key := BuildPathKey source target relation in
  match entries c !! key with
  | Some e => set_cache (<[key := touch t0 summary e]> (entries c)) (move_to_front key (lru c)) c
  | None =>
      let c := evict (length (lru c)) c in
      set_cache (<[key := mkEntry key source target relation summary t0 t1 1]> (entries c)) (key :: lru c) c
  end.

Definition Clear (c : HotPathCache) : HotPathCache := set_cache ∅ [] c.

Definition WarmFromEdges (t : time) (es : list (string * string * string)) (c : HotPathCache) : HotPathCache :=
  foldl (fun c '(s, tg, r) => Set_ t t s tg r "" c) c es.

(** ** Invariant *)

Definition cache_ok (c : HotPathCache) : Prop :=
  0 < maxSize c /\ NoDup (lru c) /\ (forall k, k ∈ lru c <-> is_Some (entries c !! k)) /\ Z.of_nat (length (lru c)) <= maxSize c.

Lemma new_ok size t : cache_ok (NewHotPathCache size t).
Proof.
  unfold NewHotPathCache. split_and!; simpl; [case_match; lia|constructor| |case_match; lia].
  intros k. rewrite lookup_empty. split; [intros ?%elem_of_nil; done|by intros []].
Qed.

Lemma filter_ne_length k (l : list string) : NoDup l -> k ∈ l -> S (length (filter (fun x => x <> k) l)) = length l.
Proof.
  induction l as [|x l IH]; intros Hnd Hin; [by apply elem_of_nil in Hin|]. apply NoDup_cons in Hnd as [Hx Hnd].
  destruct (decide (x = k)) as [-> | Hne].
  - rewrite filter_cons_False by tauto. simpl. f_equal. f_equal. apply filter_all. apply Forall_forall. intros y Hy ->. done.
  - rewrite filter_cons_True by done. simpl. f_equal. apply IH; [done|]. apply elem_of_cons in Hin as [|]; [congruence|done].
Qed.

Lemma filter_ne_NoDup k (l : list string) : NoDup l -> NoDup (filter (fun x => x <> k) l).
Proof. apply NoDup_filter. Qed.

Lemma front_ok k e c : cache_ok c -> k ∈ lru c -> cache_ok (set_cache (<[k := e]> (entries c)) (move_to_front k (lru c)) c).
Proof.
  intros (Hm & Hnd & Hdom & Hlen) Hin. unfold move_to_front. split_and!; simpl; [done| | |].
  - apply NoDup_cons. split; [rewrite list_elem_of_filter; tauto|by apply filter_ne_NoDup].
  - intros x. rewrite elem_of_cons, list_elem_of_filter, lookup_insert_is_Some', Hdom. destruct (decide (x = k)); naive_solver.
  - rewrite (filter_ne_length k) by done. done.
Qed.

Lemma remove_ok k c : cache_ok c -> cache_ok (Remove k c).
Proof.
  intros Hok. unfold Remove. destruct (entries c !! k) as [e|] eqn:E; [|done]. destruct Hok as (Hm & Hnd & Hdom & Hlen).
  split_and!; simpl; [done|by apply filter_ne_NoDup| |].
  - intros x. rewrite list_elem_of_filter, lookup_delete_is_Some, Hdom. naive_solver.
  - pose proof (filter_ne_length k (lru c) Hnd) as H. rewrite Hdom, E in H. specialize (H ltac:(done)). lia.
Qed.

Lemma evict_ok fuel c : cache_ok c -> (length (lru c) <= fuel)%nat -> cache_ok (evict fuel c) /\ Z.of_nat (length (lru (evict fuel c))) < maxSize c.
Proof.
  revert c. induction fuel as [|fuel IH]; intros c Hok Hf; simpl.
  { destruct Hok as (Hm & ?). split; [done|]. destruct (lru c); simpl in *; lia. }
  destruct (maxSize c <=? Z.of_nat (length (lru c))) eqn:E; [|split; [done|by apply Z.leb_gt in E]].
  destruct (last (lru c)) as [k|] eqn:El.
  - destruct (last_Some (lru c) k) as [[l Hl] _]; [done|]. clear El. destruct Hok as (Hm & Hnd & Hdom & Hlen).
    rewrite Hl in *. rewrite length_app in *. simpl length in *. replace (length l + 1 - 1)%nat with (length l) by lia. rewrite take_app_length.
    apply NoDup_app in Hnd as (Hnd & Hk & _). apply (IH (set_cache (delete k (entries c)) l c)).
    + split_and!; simpl; [done|done| |lia]. intros x. rewrite lookup_delete_is_Some, <-Hdom, elem_of_app, list_elem_of_singleton.
      split; [intros Hx; split; [|by left]|naive_solver]. intros ->. apply (Hk x Hx). by apply list_elem_of_singleton.
    + simpl. lia.
  - apply last_None in El. destruct Hok as (Hm & ?). rewrite El in *. simpl in *. apply Z.leb_le in E. lia.
Qed.

(** Whatever is looked up and stored, the list and the map agree and never exceed the size. *)
Lemma set_ok t0 t1 a b r summary c : cache_ok c -> cache_ok (Set_ t0 t1 a b r summary c).
Proof.
  intros Hok. unfold Set_. destruct (entries c !! BuildPathKey a b r) as [e|] eqn:E.
  - apply front_ok; [done|]. destruct Hok as (_ & _ & Hdom & _). apply Hdom. by rewrite E.
  - destruct (evict_ok (length (lru c)) c Hok ltac:(lia)) as [(Hm & Hnd & Hdom & Hlen) Hlt].
    assert (maxSize (evict (length (lru c)) c) = maxSize c) as Hmx.
    { generalize (length (lru c)) as n. intros n. clear. revert c. induction n as [|n IH]; intros c; simpl; [done|].
      repeat case_match; try done. by rewrite IH. }
    assert (BuildPathKey a b r ∉ lru (evict (length (lru c)) c)) as Hni.
    { rewrite Hdom. intros [e He]. assert (forall n c k, entries c !! k = None -> entries (evict n c) !! k = None) as Hev.
      { clear. induction n as [|n IH]; intros c k Hk; simpl; [done|]. repeat case_match; try done. apply IH. simpl. by apply lookup_delete_None; right. }
      rewrite (Hev _ _ _ E) in He. done. }
    split_and!; simpl; [lia|by apply NoDup_cons| |rewrite Hmx; lia].
    intros x. rewrite elem_of_cons, lookup_insert_is_Some', Hdom. naive_solver.
Qed.

Lemma get_ok t0 t1 a b r c : cache_ok c -> cache_ok (Get t0 t1 a b r c).1.
Proof.
  intros Hok. unfold Get. destruct (entries c !! BuildPathKey a b r) as [e|] eqn:E; [|done]. case_match; [by apply (remove_ok _ c)|].
  apply (front_ok _ (touch t1 "" e) c Hok). destruct Hok as (_ & _ & Hdom & _). apply Hdom. by rewrite E.
Qed.

(** What was stored is found while it is fresh, unless evicted: directly after it was set. *)
Lemma get_set t0 t1 t2 t3 a b r summary c : summary <> "" -> t2 - t0 <= ttl c -> t2 - t1 <= ttl c -> 0 <= ttl c -> ttl c < MaxInt64 ->
  exists e, (Get t2 t3 a b r (Set_ t0 t1 a b r summary c)).2 = Some e /\ SubgraphSummary e = summary.
Proof.
  intros Hs H0 H1 Httl Hmax.
  assert (exists e, entries (Set_ t0 t1 a b r summary c) !! BuildPathKey a b r = Some e /\ SubgraphSummary e = summary /\ (LastSeen e = t0 \/ LastSeen e = t1)) as (e & He & Hsum & Ht).
  { unfold Set_. destruct (entries c !! _) as [e|]; simpl; rewrite lookup_insert_eq; eexists; (split; [done|]); simpl; [|by auto].
    rewrite (proj2 (String.eqb_neq _ _) Hs). auto. }
  assert (ttl (Set_ t0 t1 a b r summary c) = ttl c) as Htt.
  { unfold Set_. case_match; [done|]. simpl. generalize (length (lru c)) as n. intros n. clear. revert c. induction n as [|n IH]; intros c; simpl; [done|].
    repeat case_match; try done. by rewrite IH. }
  unfold Get. rewrite He, Htt. rewrite (proj2 (Z.ltb_ge _ _)).
  - eexists. split; [done|]. simpl. done.
  - unfold time_Sub. unfold MinInt64, MaxInt64 in *. destruct Ht as [-> | ->]; repeat case_match; lia.
Qed.

(** ** Sketches *)

Record SketchNode := mkSketch { OriginalID : string; Label : string; MergedNodes : Z; MergedEdges : Z; LastActivity : time; KeyStats : string }.
Record SketchConfig := mkSketchConfig { MinAge : duration; NoRiskLabels : list string; BackgroundPrefixes : list string; EnableSketching : bool; DryRun : bool }.

Definition DefaultSketchConfig : SketchConfig :=
  mkSketchConfig (60 * Minute) ["CLEAN"; "system"; "kernel"] ["systemd"; "kernel"; "kworker"; "kthread"; "watchdog"; "irq"; "rcu"] true true.

Definition ShouldSketch (cfg : SketchConfig) (comm : string) (age : duration) (hasRisk : bool) : bool :=
  EnableSketching cfg && negb hasRisk && negb (age <? MinAge cfg) && existsb (HasPrefix comm) (BackgroundPrefixes cfg).

Definition CreateSketch (now : time) (id label : string) (nodes edges : Z) (m : gmap string SketchNode) : gmap string SketchNode * SketchNode :=
  let s := mkSketch id label nodes edges now ("nodes=" +:+ pretty nodes +:+ ", edges=" +:+ pretty edges) in (<[id := s]> m, s).
Definition GetSketch (id : string) (m : gmap string SketchNode) : option SketchNode := m !! id.

(** A process with a risk, or one that is young, is never folded into a sketch. *)
Lemma sketch_safe cfg comm age hasRisk : ShouldSketch cfg comm age hasRisk = true -> hasRisk = false /\ MinAge cfg <= age.
Proof.
  unfold ShouldSketch. rewrite !andb_true_iff, !negb_true_iff, Z.ltb_ge. tauto.
Qed.

(** ** Traces *)

Record PathStep := mkStep { NodeID : string; ps_Label : string; ps_Relation : string; Depth : Z }.
Record TraversalResult := mkResult { StartNode : string; Path : list PathStep; Duration : duration; CacheHit : bool }.

Section traces.
(** The trace function: a path or an error. *)
Context (traverseFn : string -> Z -> option (list PathStep)).

(** [t k]: the [k]-th reading of the clock. *)
Definition traceSingle (t : nat -> time) (start : string) (maxDepth : Z) (c : HotPathCache) : HotPathCache * TraversalResult :=
  let '(c, cached) := Get (t 1%nat) (t 2%nat) start "" "trace" c in
  match cached with
  | Some _ => (c, mkResult start [] (time_Sub (t 3%nat) (t 0%nat)) true)
  | None =>
      match traverseFn start maxDepth with
      | None => (c, mkResult start [] 0 false)
      | Some path =>
          (Set_ (t 4%nat) (t 5%nat) start "" "trace" (match path with p :: _ => NodeID p | [] => "" end) c,
           mkResult start path (time_Sub (t 3%nat) (t 0%nat)) false)
      end
  end.

(** The goroutines in the order they run, each with its index; results are stored by index. *)
Fixpoint trace_in_order (t : nat -> nat -> time) (maxDepth : Z) (order : list (nat * string)) (results : gmap nat TraversalResult) (c : HotPathCache)
  : gmap nat TraversalResult * HotPathCache :=
  match order with
  | [] => (results, c)
  | (i, node) :: order => let '(c, r) := traceSingle (t i) node maxDepth c in trace_in_order t maxDepth order (<[i := r]> results) c
  end.

Definition TraceAll (t : nat -> nat -> time) (maxDepth : Z) (order : list (nat * string)) (c : HotPathCache) : gmap nat TraversalResult * HotPathCache :=
  trace_in_order t maxDepth order ∅ c.

(** Each start node gets its own result, in its place, whatever the order: a path of the
    trace function, nothing after an error, or nothing but the mark of a cache hit. *)
Definition answers (maxDepth : Z) (node : string) (r : TraversalResult) : Prop :=
  StartNode r = node /\ (CacheHit r = true /\ Path r = [] \/ CacheHit r = false /\ Path r = default [] (traverseFn node maxDepth)).

Lemma trace_single_answers t node d c : answers d node (traceSingle t node d c).2.
Proof.
  unfold traceSingle, answers. destruct (Get _ _ _ _ _ c) as [c' [e|]]; simpl; [by auto|].
  destruct (traverseFn node d); simpl; auto.
Qed.

Lemma trace_all_exact t d order c : NoDup order.*1 -> forall i node, (i, node) ∈ order ->
  exists r, (TraceAll t d order c).1 !! i = Some r /\ answers d node r.
Proof.
  unfold TraceAll. intros Hnd.
  assert (forall order res c i r, i ∉ order.*1 -> res !! i = Some r -> (trace_in_order t d order res c).1 !! i = Some r) as Hkeep.
  { clear. induction order as [|[j n] order IH]; intros res c i r Hi Hr; simpl; [done|]. destruct (traceSingle (t j) n d c) as [c' r'].
    apply IH; [set_solver|]. rewrite lookup_insert_ne; [done|]. intros ->. set_solver. }
  assert (forall res, forall i node, (i, node) ∈ order -> exists r, (trace_in_order t d order res c).1 !! i = Some r /\ answers d node r) as H;
    [|intros i node; apply H].
  revert c. induction order as [|[j n] order IH]; intros c res i node Hin; [by apply elem_of_nil in Hin|].
  rewrite fmap_cons in Hnd. apply NoDup_cons in Hnd as [Hj Hnd]. simpl. pose proof (trace_single_answers (t j) n d c) as Ha.
  destruct (traceSingle (t j) n d c) as [c' r'] eqn:E. apply elem_of_cons in Hin as [Heq|Hin].
  - injection Heq as -> ->. exists r'. split; [|done]. apply Hkeep; [done|apply lookup_insert_eq].
  - by apply IH.
Qed.
End traces.

(** A second trace from the same node is answered from the cache, without its path. *)
Example second_trace_empty :
  let fn := fun (n : string) (d : Z) => Some [mkStep "p:1" "sshd" "used" 1] in
  let '(c, r1) := traceSingle fn (fun _ => 0) "f:9" 5 (NewHotPathCache 0 0) in
  (length (Path r1), length (Path (traceSingle fn (fun _ => 1) "f:9" 5 c).2)) = (1%nat, 0%nat).
Proof. vm_compute. reflexivity. Qed.

(** Different paths can share a key. *)
Example key_clash : BuildPathKey "a|b" "c" "r" = BuildPathKey "a" "b|c" "r".
Proof. reflexivity. Qed.
