(* ===== verification/Isolation.v ===== *)
(** * Response orders across hosts ([internal/stitcher/orch]).

    The dispatcher issues commands, agents keep them in a cache and apply them to the
    isolation engine, whose blocks expire.  Clock readings are arguments. *)
From S2P Require Import Prelude GoStrings GoFloat GoText GoScan.

(** ** Commands ([dispatch.go]) *)

Definition CmdBlockUID : string := "block_uid".
Definition CmdBlockPID : string := "block_pid".
Definition CmdLockFile : string := "lock_file".
Definition CmdBlockComm : string := "block_comm".
Definition CmdBlockIP : string := "block_ip".
Definition CmdBlockProcess : string := "block_process_tree".

Record PolicyCommand := mkCommand {
  ID : string; Type_ : string; Target : string; Description : string; RiskScore : float64; Issuer : string; Timestamp : time; TTL : duration;
}.
Record PolicyDispatcher := mkDispatcher { commands : list PolicyCommand; agents : list string; seq : Z }.
Definition NewPolicyDispatcher : PolicyDispatcher := mkDispatcher [] [] 0.

Definition RegisterAgent (id : string) (pd : PolicyDispatcher) : PolicyDispatcher :=
  if bool_decide (id ∈ agents pd) then pd else mkDispatcher (commands pd) (agents pd ++ [id]) (seq pd).

(** Sending to the agents is a log line in the source. *)
Definition Broadcast (now : time) (type target description : string) (risk : float64) (issuer : string) (ttl : duration) (pd : PolicyDispatcher)
  : PolicyDispatcher * PolicyCommand :=
  let n := i64 (seq pd + 1) in
  let cmd := mkCommand ("CMD-" +:+ pretty n +:+ "-" +:+ type) type target description risk issuer now ttl in
  (mkDispatcher (commands pd ++ [cmd]) (agents pd) n, cmd).

(** One conditional command of the list. *)
Definition broadcast_if (b : bool) (now : time) (type target description : string) (risk : float64) (issuer : string) (ttl : duration)
    (st : PolicyDispatcher * list PolicyCommand) : PolicyDispatcher * list PolicyCommand :=
  if b then let '(pd, cmd) := Broadcast now type target description risk issuer ttl st.1 in (pd, st.2 ++ [cmd]) else st.

Definition Hour : duration := 60 * Minute.

Definition BroadcastIfHighRisk (t : nat -> time) (risk : float64) (issuer : string) (uid : Z) (comm hash ip : string) (pd : PolicyDispatcher)
  : PolicyDispatcher * list PolicyCommand :=
  if f_leb risk (f_of_Z 95) then (pd, [])
  else
    let st := broadcast_if (0 <? uid) (t 0%nat) CmdBlockUID (pretty uid) ("Block compromised UID " +:+ pretty uid +:+ " from " +:+ issuer) risk issuer (30 * Minute) (pd, []) in
    let st := broadcast_if (negb (String.eqb comm "")) (t 1%nat) CmdBlockComm comm ("Block process " +:+ comm +:+ " from " +:+ issuer) risk issuer (30 * Minute) st in
    let st := broadcast_if (negb (String.eqb hash "")) (t 2%nat) CmdLockFile hash ("Lock file hash " +:+ hash +:+ " from " +:+ issuer) risk issuer (24 * Hour) st in
    broadcast_if (negb (String.eqb ip "")) (t 3%nat) CmdBlockIP ip ("Block IP " +:+ ip +:+ " from " +:+ issuer) risk issuer (1 * Hour) st.

(** ** The isolation engine ([isolate.go]) *)

Record IsolationEngine := mkIsolation {
  uidBlock : gmap Z time; commBlock : gmap string time; fileLocks : gmap string time; ipBlock : gmap string time; processBlock : gmap Z time;
}.
Definition NewIsolationEngine : IsolationEngine := mkIsolation ∅ ∅ ∅ ∅ ∅.

Definition ExecuteCommand (now : time) (cmd : PolicyCommand) (ie : IsolationEngine) : IsolationEngine :=
  let expiry := time_Add now (TTL cmd) in
  let '(mkIsolation u c f i p) := ie in
  if String.eqb (Type_ cmd) CmdBlockUID then
    match Sscanf_uint32 (Target cmd) with Some uid => mkIsolation (<[uid := expiry]> u) c f i p | None => ie end
  else if String.eqb (Type_ cmd) CmdBlockComm then mkIsolation u (<[Target cmd := expiry]> c) f i p
  else if String.eqb (Type_ cmd) CmdLockFile then mkIsolation u c (<[Target cmd := expiry]> f) i p
  else if String.eqb (Type_ cmd) CmdBlockIP then mkIsolation u c f (<[Target cmd := expiry]> i) p
  else if String.eqb (Type_ cmd) CmdBlockProcess then
    match Sscanf_uint32 (Target cmd) with Some pid => mkIsolation u c f i (<[pid := expiry]> p) | None => ie end
  else ie.

Definition live `{Countable K} (now : time) (m : gmap K time) (k : K) : bool :=
  match m !! k with Some expiry => time_Before now expiry | None => false end.
Definition IsUIDBlocked (now : time) (uid : Z) (ie : IsolationEngine) : bool := live now (uidBlock ie) uid.
Definition IsCommBlocked (now : time) (comm : string) (ie : IsolationEngine) : bool := live now (commBlock ie) comm.
Definition IsFileLocked (now : time) (hash : string) (ie : IsolationEngine) : bool := live now (fileLocks ie) hash.
Definition IsIPBlocked (now : time) (ip : string) (ie : IsolationEngine) : bool := live now (ipBlock ie) ip.

(** ** The cache ([cache.go]); its isolation engine may be nil *)

Record CachedPolicyStore := mkStore { cached : list PolicyCommand; isolation : option IsolationEngine; lastSync : time; synced : bool }.
Definition NewCachedPolicyStore (e : option IsolationEngine) : CachedPolicyStore := mkStore [] e 0 false.

(** Commands with the clock reading of each. *)
Definition execute_all (l : list (time * PolicyCommand)) (ie : IsolationEngine) : IsolationEngine :=
  foldl (fun ie '(now, cmd) => ExecuteCommand now cmd ie) ie l.

Definition SyncFromServer (t : nat -> time) (now : time) (cmds : list PolicyCommand) (s : CachedPolicyStore) : CachedPolicyStore :=
  mkStore (cached s ++ cmds) (execute_all (imap (fun i cmd => (t i, cmd)) cmds) <$> isolation s) now true.

Definition ExecuteCached (t : nat -> time) (s : CachedPolicyStore) : CachedPolicyStore * Z :=
  match isolation s with
  | None => (s, 0)
  | Some ie => (mkStore (cached s) (Some (execute_all (imap (fun i cmd => (t i, cmd)) (cached s)) ie)) (lastSync s) (synced s), Z.of_nat (length (cached s)))
  end.

(** ** A target is blocked by the last command that names it *)

Definition hits_uid (uid : Z) (cmd : PolicyCommand) : bool :=
  String.eqb (Type_ cmd) CmdBlockUID && bool_decide (Sscanf_uint32 (Target cmd) = Some uid).
Definition hits (type target : string) (cmd : PolicyCommand) : bool := String.eqb (Type_ cmd) type && String.eqb (Target cmd) target.

Definition last_for (hit : PolicyCommand -> bool) (l : list (time * PolicyCommand)) : option (time * PolicyCommand) :=
  last (List.filter (fun x => hit x.2) l).

Section last_command.
Context (get : IsolationEngine -> option time) (hit : PolicyCommand -> bool).
Context (get_exec : forall now cmd ie, get (ExecuteCommand now cmd ie) = if hit cmd then Some (now + TTL cmd) else get ie).

Lemma get_all l ie : get (execute_all l ie) = match last_for hit l with Some (t, cmd) => Some (t + TTL cmd) | None => get ie end.
Proof.
  induction l as [|[t cmd] l IH] using rev_ind; [done|]. unfold execute_all, last_for in *.
  rewrite foldl_app, List.filter_app. cbn [foldl List.filter snd]. rewrite get_exec. destruct (hit cmd); [by rewrite last_snoc|by rewrite app_nil_r].
Qed.
End last_command.

Ltac exec_cases := intros now [? type target ? ? ? ? ttl] [u c f i p]; unfold ExecuteCommand, hits_uid, hits, time_Add; simpl;
  repeat match goal with |- context [String.eqb type ?k] => destruct (String.eqb_spec type k) as [->|] end; simpl;
  try destruct (Sscanf_uint32 target) eqn:?; simpl; rewrite ?lookup_insert; repeat case_match; simplify_eq/=; try done;
  repeat match goal with H : bool_decide _ = true |- _ => apply bool_decide_eq_true in H | H : bool_decide _ = false |- _ => apply bool_decide_eq_false in H
    | H : String.eqb _ _ = true |- _ => apply String.eqb_eq in H | H : String.eqb _ _ = false |- _ => apply String.eqb_neq in H end; simplify_eq/=; done.

Lemma exec_uid uid : forall now cmd ie, uidBlock (ExecuteCommand now cmd ie) !! uid = if hits_uid uid cmd then Some (now + TTL cmd) else uidBlock ie !! uid.
Proof. exec_cases. Qed.
Lemma exec_comm s : forall now cmd ie, commBlock (ExecuteCommand now cmd ie) !! s = if hits CmdBlockComm s cmd then Some (now + TTL cmd) else commBlock ie !! s.
Proof. exec_cases. Qed.
Lemma exec_file s : forall now cmd ie, fileLocks (ExecuteCommand now cmd ie) !! s = if hits CmdLockFile s cmd then Some (now + TTL cmd) else fileLocks ie !! s.
Proof. exec_cases. Qed.
Lemma exec_ip s : forall now cmd ie, ipBlock (ExecuteCommand now cmd ie) !! s = if hits CmdBlockIP s cmd then Some (now + TTL cmd) else ipBlock ie !! s.
Proof. exec_cases. Qed.

(** The last command for a target decides, until its time is over. *)
Definition enforced (now : time) (o : option (time * PolicyCommand)) : bool :=
  match o with Some (t, cmd) => time_Before now (t + TTL cmd) | None => false end.

Lemma isolation_exact l now : let ie := execute_all l NewIsolationEngine in
  (forall uid, IsUIDBlocked now uid ie = enforced now (last_for (hits_uid uid) l)) /\
  (forall comm, IsCommBlocked now comm ie = enforced now (last_for (hits CmdBlockComm comm) l)) /\
  (forall hash, IsFileLocked now hash ie = enforced now (last_for (hits CmdLockFile hash) l)) /\
  (forall ip, IsIPBlocked now ip ie = enforced now (last_for (hits CmdBlockIP ip) l)).
Proof.
  split_and!; intros k; unfold IsUIDBlocked, IsCommBlocked, IsFileLocked, IsIPBlocked, live.
  - rewrite (get_all _ _ (exec_uid k)). by destruct (last_for _ _) as [[t cmd]|].
  - rewrite (get_all _ _ (exec_comm k)). by destruct (last_for _ _) as [[t cmd]|].
  - rewrite (get_all _ _ (exec_file k)). by destruct (last_for _ _) as [[t cmd]|].
  - rewrite (get_all _ _ (exec_ip k)). by destruct (last_for _ _) as [[t cmd]|].
Qed.

(** ** From the dispatcher to the agents *)

Lemma broadcast_ids_fresh now type target d risk issuer ttl pd : 0 <= seq pd -> seq pd + 1 <= MaxInt64 ->
  seq (Broadcast now type target d risk issuer ttl pd).1 = seq pd + 1 /\
  ID (Broadcast now type target d risk issuer ttl pd).2 = "CMD-" +:+ pretty (seq pd + 1) +:+ "-" +:+ type.
Proof. intros ? ?. unfold Broadcast. simpl. by rewrite i64_small by (unfold MinInt64; lia). Qed.

Lemma last_for_hit (hit : PolicyCommand -> bool) l t cmd : last_for hit l = Some (t, cmd) -> (t, cmd) ∈ l /\ hit cmd = true.
Proof. intros H%last_Some_elem_of. apply list_elem_of_In, filter_In in H as [? ?]. split; [by apply list_elem_of_In|done]. Qed.

Lemma last_for_some (hit : PolicyCommand -> bool) l x : x ∈ l -> hit x.2 = true -> is_Some (last_for hit l).
Proof.
  intros Hx Hh. unfold last_for. assert (x ∈ List.filter (fun x => hit x.2) l) as Hin by (apply list_elem_of_In, filter_In; by rewrite <-list_elem_of_In).
  apply last_is_Some. intros E. rewrite E in Hin. by apply elem_of_nil in Hin.
Qed.

(** What a high risk orders: kind, target and time. *)
Definition orders (uid : Z) (comm hash ip : string) : list (string * string * duration) :=
  (if 0 <? uid then [(CmdBlockUID, pretty uid, 30 * Minute)] else []) ++
  (if String.eqb comm "" then [] else [(CmdBlockComm, comm, 30 * Minute)]) ++
  (if String.eqb hash "" then [] else [(CmdLockFile, hash, 24 * Hour)]) ++
  (if String.eqb ip "" then [] else [(CmdBlockIP, ip, 1 * Hour)]).
Definition order_of (c : PolicyCommand) : string * string * duration := (Type_ c, Target c, TTL c).

Lemma high_risk_commands t risk issuer uid comm hash ip pd pd' cmds : f_leb risk (f_of_Z 95) = false ->
  BroadcastIfHighRisk t risk issuer uid comm hash ip pd = (pd', cmds) ->
  commands pd' = commands pd ++ cmds /\ order_of <$> cmds = orders uid comm hash ip.
Proof.
  intros Hr H. unfold BroadcastIfHighRisk in H. rewrite Hr in H. unfold broadcast_if, Broadcast, orders in *.
  destruct (0 <? uid), (String.eqb comm ""), (String.eqb hash ""), (String.eqb ip "");
    cbv beta iota zeta delta [negb fst snd commands seq agents] in H; injection H as <- <-; cbn [commands]; split;
    rewrite <-?(assoc_L (++)), ?app_nil_r; reflexivity.
Qed.

(** The time of an order depends only on its kind. *)
Definition ttl_of (type : string) : duration := if String.eqb type CmdLockFile then 24 * Hour else if String.eqb type CmdBlockIP then 1 * Hour else 30 * Minute.
Lemma orders_ttl uid comm hash ip type target ttl : (type, target, ttl) ∈ orders uid comm hash ip -> ttl = ttl_of type.
Proof. unfold orders. rewrite !elem_of_app. intros H. repeat case_match; destruct_or! H; set_unfold; destruct_or?; simplify_eq/=; done. Qed.

Section enforcement.
Context (get : IsolationEngine -> option time) (hit : PolicyCommand -> bool) (type target : string).
Context (get_exec : forall now cmd ie, get (ExecuteCommand now cmd ie) = if hit cmd then Some (now + TTL cmd) else get ie).
Context (hit_type : forall c, hit c = true -> Type_ c = type) (hit_target : forall c, Type_ c = type -> Target c = target -> hit c = true).

(** Orders applied at times from [t0] on block at least until [t0] plus their time. *)
Lemma order_enforced uid comm hash ip (t : nat -> time) cmds t0 now ie :
  order_of <$> cmds = orders uid comm hash ip -> (type, target, ttl_of type) ∈ orders uid comm hash ip -> (forall i, t0 <= t i) -> now < t0 + ttl_of type ->
  match get (execute_all (imap (fun i c => (t i, c)) cmds) ie) with Some expiry => time_Before now expiry | None => false end = true.
Proof.
  intros Hc Hin Ht Hnow. rewrite (get_all _ _ get_exec). rewrite <-Hc in Hin. apply list_elem_of_fmap in Hin as (c & [= Ht1 Ht2 _] & Hin).
  apply list_elem_of_lookup in Hin as [i Hi].
  destruct (last_for_some hit (imap (fun i c => (t i, c)) cmds) (t i, c)) as [[u c'] E]; [|by apply hit_target|].
  { apply list_elem_of_lookup. exists i. by rewrite list_lookup_imap, Hi. }
  rewrite E. apply last_for_hit in E as [E Hh]. apply list_elem_of_lookup in E as [j Hj].
  rewrite list_lookup_imap in Hj. destruct (cmds !! j) as [c1|] eqn:Ej; [|done]. simplify_eq/=.
  assert (TTL c' = ttl_of (Type_ c')) as ->.
  { apply (orders_ttl uid comm hash ip (Type_ c') (Target c')). rewrite <-Hc. apply (list_elem_of_fmap_2 order_of). by eapply list_elem_of_lookup_2. }
  rewrite (hit_type c' Hh). apply Z.ltb_lt. specialize (Ht j). lia.
Qed.
End enforcement.

(** What a dispatcher orders on a high risk is enforced by an agent that receives it: each
    target named is blocked at least until its time, counted from the first application;
    at a lower risk nothing is ordered. *)
Lemma orders_enforced t risk issuer uid comm hash ip pd pd' cmds t' now0 ie s now t0 :
  BroadcastIfHighRisk t risk issuer uid comm hash ip pd = (pd', cmds) -> isolation s = Some ie -> 0 <= uid < 2 ^ 32 -> (forall i, t0 <= t' i) ->
  if f_leb risk (f_of_Z 95) then cmds = [] /\ pd' = pd
  else exists ie', isolation (SyncFromServer t' now0 cmds s) = Some ie' /\
    (0 < uid -> now < t0 + 30 * Minute -> IsUIDBlocked now uid ie' = true) /\
    (comm <> "" -> now < t0 + 30 * Minute -> IsCommBlocked now comm ie' = true) /\
    (hash <> "" -> now < t0 + 24 * Hour -> IsFileLocked now hash ie' = true) /\
    (ip <> "" -> now < t0 + 1 * Hour -> IsIPBlocked now ip ie' = true).
Proof.
  intros H Hs Hu Ht. destruct (f_leb risk (f_of_Z 95)) eqn:Er; [by unfold BroadcastIfHighRisk in H; rewrite Er in H; simplify_eq/=|].
  destruct (high_risk_commands _ _ _ _ _ _ _ _ _ _ Er H) as [_ Hc]. simpl. rewrite Hs. simpl. eexists. split; [done|].
  assert (forall type target c, Type_ c = type -> Target c = target -> hits type target c = true) as Hhit by (unfold hits; intros ? ? c -> ->; by rewrite !String.eqb_refl).
  assert (forall type target c, hits type target c = true -> Type_ c = type) as Htype by (by intros ? ? c [?%String.eqb_eq _]%andb_true_iff).
  split_and!; intros Hne Hnow.
  - eapply (order_enforced _ _ CmdBlockUID (pretty uid) (exec_uid uid)); [| |exact Hc| |exact Ht|exact Hnow].
    + by intros c [?%String.eqb_eq _]%andb_true_iff.
    + intros c Hty Hta. unfold hits_uid. rewrite Hty, Hta, Sscanf_pretty by lia. by rewrite bool_decide_true.
    + unfold orders. rewrite (proj2 (Z.ltb_lt _ _) Hne). set_solver.
  - eapply (order_enforced _ _ CmdBlockComm comm (exec_comm comm)); [apply Htype|apply Hhit|exact Hc| |exact Ht|exact Hnow].
    unfold orders. rewrite (proj2 (String.eqb_neq _ _) Hne). set_solver.
  - eapply (order_enforced _ _ CmdLockFile hash (exec_file hash)); [apply Htype|apply Hhit|exact Hc| |exact Ht|exact Hnow].
    unfold orders. rewrite (proj2 (String.eqb_neq _ _) Hne). set_solver.
  - eapply (order_enforced _ _ CmdBlockIP ip (exec_ip ip)); [apply Htype|apply Hhit|exact Hc| |exact Ht|exact Hnow].
    unfold orders. rewrite (proj2 (String.eqb_neq _ _) Hne). set_solver.
Qed.

(** ** Limits *)

(** A command to block one process is not executed. *)
Lemma block_pid_ignored now cmd ie : Type_ cmd = CmdBlockPID -> ExecuteCommand now cmd ie = ie.
Proof. intros H. unfold ExecuteCommand. rewrite H. by destruct ie. Qed.

(** Applying the cache starts the time of every command again, however old it is. *)
Example cached_starts_again :
  let cmd := mkCommand "CMD-1-block_comm" CmdBlockComm "sh" "" (f_of_Z 99) "h" 0 (30 * Minute) in
  let s := SyncFromServer (fun _ => 0) 0 [cmd] (NewCachedPolicyStore (Some NewIsolationEngine)) in
  (IsCommBlocked (100 * Hour) "sh" <$> isolation s) = Some false /\
  (IsCommBlocked (100 * Hour) "sh" <$> isolation (ExecuteCached (fun _ => 100 * Hour) s).1) = Some true.
Proof. split; vm_compute; reflexivity. Qed.
