(* ===== verification/Respond.v ===== *)
(** * Local responses ([internal/policy/respond]).

    Response rules with their conditions ([policy.go]), isolation of process trees through a
    kernel map ([block.go]) and quarantine of files ([quarantine.go]).  The kernel map and
    the file system enter with the outcomes of the calls on them; clock readings are
    arguments.  [ParseFloat] is [strconv.ParseFloat] on the token of a number. *)
From S2P Require Import Prelude GoStrings GoFloat GoText GoScan.
From Stdlib Require Import Ascii.

(** ** Isolation of process trees *)

Definition BlockNone : Z := 0.
Definition BlockNetwork : Z := 1.
Definition BlockSensitive : Z := 2.
Definition BlockAll : Z := 3.

Record BlockedProcess := mkBlocked { bp_PID : Z; bp_Comm : string; bp_Level : Z; BlockedAt : time; Children : list Z }.

(** [children] is a map whose values are all true; [bpfMap] is [None] without a kernel map. *)
Record CausalBlocker := mkBlocker { blocked : gmap Z BlockedProcess; children : gset Z; bpfMap : option (gmap Z Z) }.

(** [pinned]: the pinned map, when its path is set and it can be opened. *)
Definition NewCausalBlocker (pinned : option (gmap Z Z)) : CausalBlocker := mkBlocker ∅ ∅ pinned.

(** A call on the kernel map; [ok]: it succeeds.  A failure is only logged. *)
Definition bpfPut (ok : bool) (pid level : Z) (m : option (gmap Z Z)) : option (gmap Z Z) :=
  (fun m => if ok then <[pid := level]> m else m) <$> m.
Definition bpfDelete (ok : bool) (pid : Z) (m : option (gmap Z Z)) : option (gmap Z Z) :=
  (fun m => if ok then delete pid m else m) <$> m.

Definition BlockProcess (ok : bool) (now : time) (pid : Z) (comm : string) (level : Z) (cb : CausalBlocker) : CausalBlocker :=
  mkBlocker (<[pid := mkBlocked pid comm level now []]> (blocked cb)) ({[pid]} ∪ children cb) (bpfPut ok pid level (bpfMap cb)).

Definition AddChild (ok : bool) (parent child : Z) (cb : CausalBlocker) : CausalBlocker :=
  match blocked cb !! parent with
  | None => cb
  | Some bp => mkBlocker (<[parent := mkBlocked (bp_PID bp) (bp_Comm bp) (bp_Level bp) (BlockedAt bp) (Children bp ++ [child])]> (blocked cb))
                 ({[child]} ∪ children cb) (bpfPut ok child (bp_Level bp) (bpfMap cb))
  end.

Definition IsBlocked (pid : Z) (cb : CausalBlocker) : bool := bool_decide (pid ∈ children cb).
Definition BlockLevel (pid : Z) (cb : CausalBlocker) : Z := match blocked cb !! pid with Some bp => bp_Level bp | None => BlockNone end.

(** [ok]: the outcomes of the deletions, in order. *)
Definition UnblockProcess (ok : nat -> bool) (pid : Z) (cb : CausalBlocker) : CausalBlocker :=
  match blocked cb !! pid with
  | None => cb
  | Some bp =>
      let pids := Children bp ++ [pid] in
      mkBlocker (delete pid (blocked cb)) (children cb ∖ list_to_set pids)
        (foldl (fun m x => bpfDelete (ok x.1) x.2 m) (bpfMap cb) (imap (fun i p => (i, p)) pids))
  end.

Inductive block_op := OBlock (now : time) (pid : Z) (comm : string) (level : Z) | OChild (parent child : Z) | OUnblock (pid : Z).

(** Operations whose calls on the kernel map succeed. *)
Definition block_step (cb : CausalBlocker) (o : block_op) : CausalBlocker :=
  match o with
  | OBlock now pid comm level => BlockProcess true now pid comm level cb
  | OChild parent child => AddChild true parent child cb
  | OUnblock pid => UnblockProcess (fun _ => true) pid cb
  end.

(** The kernel map lists exactly the isolated processes, and the processes that were
    isolated themselves and their listed children are among them. *)
Definition mirrored (cb : CausalBlocker) : Prop :=
  forall m, bpfMap cb = Some m -> dom m = children cb.

Lemma delete_all pids m k : foldl (fun m x => bpfDelete true x.2 m) (Some m) (imap (fun i (p : Z) => ((i + k)%nat, p)) pids)
  = Some (foldl (fun m p => delete p m) m pids).
Proof.
  revert m k. induction pids as [|p pids IH]; intros m k; simpl; [done|]. rewrite <-(IH (delete p m) (S k)). f_equal.
  apply imap_ext. intros i x _. simpl. f_equal. lia.
Qed.

Lemma dom_delete_all (m : gmap Z Z) pids : dom (foldl (fun m p => delete p m) m pids) = dom m ∖ list_to_set pids.
Proof. revert m. induction pids as [|p pids IH]; intros m; simpl; [set_solver|]. rewrite IH, dom_delete_L. set_solver. Qed.

Lemma block_step_mirrored cb o : mirrored cb -> mirrored (block_step cb o).
Proof.
  unfold mirrored. intros H m. destruct o as [now pid comm level|parent child|pid]; simpl.
  - destruct (bpfMap cb) as [m0|]; [|done]. simpl. intros [= <-]. by rewrite dom_insert_L, (H m0).
  - unfold AddChild. destruct (blocked cb !! parent) as [bp|]; [|apply H]. simpl. destruct (bpfMap cb) as [m0|]; [|done]. simpl.
    intros [= <-]. by rewrite dom_insert_L, (H m0).
  - unfold UnblockProcess. destruct (blocked cb !! pid) as [bp|]; [|apply H]. cbn [bpfMap children]. destruct (bpfMap cb) as [m0|].
    + pose proof (delete_all (Children bp ++ [pid]) m0 0) as E. rewrite (imap_ext _ (fun i p => (i, p))) in E by (intros; f_equal; lia).
      rewrite E. intros [= <-]. by rewrite dom_delete_all, (H m0).
    + intros E. exfalso. assert (forall l, foldl (fun m (x : nat * Z) => bpfDelete true x.2 m) None l = None) as Hn.
      { induction l as [|x l IHl]; [done|apply IHl]. } by rewrite Hn in E.
Qed.

Definition run_blocks (ops : list block_op) (cb : CausalBlocker) : CausalBlocker := foldl block_step cb ops.

(** As long as the calls on the kernel map succeed, the kernel blocks exactly the
    processes the blocker answers for. *)
Lemma kernel_mirrors ops m pid : bpfMap (run_blocks ops (NewCausalBlocker (Some ∅))) = Some m ->
  IsBlocked pid (run_blocks ops (NewCausalBlocker (Some ∅))) = bool_decide (is_Some (m !! pid)).
Proof.
  intros Hm. assert (mirrored (run_blocks ops (NewCausalBlocker (Some ∅)))) as H.
  { clear Hm. unfold run_blocks. assert (mirrored (NewCausalBlocker (Some ∅))) as H0 by (intros x [= <-]; apply dom_empty_L).
    revert H0. generalize (NewCausalBlocker (Some ∅)). induction ops as [|o ops IH]; intros cb Hcb; [done|]. simpl. apply IH. by apply block_step_mirrored. }
  unfold IsBlocked. rewrite <-(H m Hm). apply bool_decide_ext. apply elem_of_dom.
Qed.

(** Unblocking frees a process and the children listed with it. *)
Lemma unblock_frees ok pid bp cb child : blocked cb !! pid = Some bp -> child ∈ Children bp ++ [pid] ->
  IsBlocked child (UnblockProcess ok pid cb) = false /\ BlockLevel pid (UnblockProcess ok pid cb) = BlockNone.
Proof.
  intros Hb Hin. unfold UnblockProcess, IsBlocked, BlockLevel. rewrite Hb. cbn [blocked children]. rewrite lookup_delete_eq. split; [|done].
  apply bool_decide_eq_false. set_solver.
Qed.

(** Isolating a process again forgets its children, so that they stay blocked for good. *)
Example reblock_orphans : let cb := run_blocks [OBlock 0 10 "sh" BlockNetwork; OChild 10 11; OBlock 5 10 "sh" BlockAll; OUnblock 10] (NewCausalBlocker (Some ∅)) in
  IsBlocked 11 cb = true /\ blocked cb = ∅ /\ bpfMap cb = Some {[11 := BlockNetwork]}.
Proof. repeat split; vm_compute; reflexivity. Qed.
(** A child of two isolated processes is freed with the first. *)
Example shared_child_freed : let cb := run_blocks [OBlock 0 10 "a" BlockAll; OBlock 0 20 "b" BlockAll; OChild 10 11; OChild 20 11; OUnblock 10] (NewCausalBlocker None) in
  IsBlocked 11 cb = false /\ (Children <$> blocked cb !! 20) = Some [11].
Proof. repeat split; vm_compute; reflexivity. Qed.
(** A child's own child is not isolated: only processes isolated themselves have children. *)
Lemma grandchild_free ok child grandchild cb : blocked cb !! child = None -> AddChild ok child grandchild cb = cb.
Proof. intros H. unfold AddChild. by rewrite H. Qed.

(** ** Quarantine of files *)

Definition QuarantineLock : Z := 1.
Definition QuarantineMove : Z := 2.
Definition QuarantineDelete : Z := 3.

Record QuarantinedFile := mkQuarantined { Path : string; WrittenBy : Z; q_Level : Z; q_Action : string; Time : time }.
Record FileQuarantineManager := mkManager { quarantined : list QuarantinedFile; quarantineDir : string; dryRun : bool }.

Definition NewFileQuarantineManager (dir : string) (dry : bool) : FileQuarantineManager :=
  mkManager [] (if String.eqb dir "" then "/var/quarantine/providapt" else dir) dry.

(** Separators become underscores; the other runes are copied. *)
Definition sanitize (path : string) : string :=
  string_of_bytes (mjoin ((fun x => if (x.1 =? 47) || (x.1 =? 92) then [95] else rune_bytes x) <$> segs path)).

(** Files with their permissions and contents. *)
Abbreviation files := (gmap string (Z * string)).

(** [t0], [t1]: the clock at the record and at the choice of the destination; [ok]: the
    call on the file succeeds. *)
Definition QuarantineFile (t0 t1 : time) (ok : bool) (path : string) (pid level : Z) (m : FileQuarantineManager) (fs : files)
  : FileQuarantineManager * files * QuarantinedFile :=
  let '(action, fs) :=
    if dryRun m then ("dry-run", fs)
    else if level =? QuarantineLock then if ok then ("locked", alter (fun f => (0, f.2)) path fs) else ("", fs)
    else if level =? QuarantineMove then
      let dest := quarantineDir m +:+ "/" +:+ pretty ((t1 - unix_epoch) / 10 ^ 9) +:+ "_" +:+ sanitize path in
      if ok then ("moved", match fs !! path with Some f => <[dest := f]> (delete path fs) | None => fs end) else ("", fs)
    else if level =? QuarantineDelete then if ok then ("deleted", delete path fs) else ("", fs)
    else ("", fs) in
  let qf := mkQuarantined path pid level action t0 in
  (mkManager (quarantined m ++ [qf]) (quarantineDir m) (dryRun m), fs, qf).

(** The outcome of each file, in order. *)
Record file_calls := mkCalls { c_t0 : time; c_t1 : time; c_ok : bool }.
Fixpoint QuarantineFilesByPID (calls : nat -> file_calls) (pid : Z) (paths : list string) (level : Z) (m : FileQuarantineManager) (fs : files)
  : FileQuarantineManager * files * list QuarantinedFile :=
  match paths with
  | [] => (m, fs, [])
  | path :: paths =>
      let c := calls 0%nat in
      let '(m, fs, qf) := QuarantineFile (c_t0 c) (c_t1 c) (c_ok c) path pid level m fs in
      let '(m, fs, l) := QuarantineFilesByPID (fun i => calls (S i)) pid paths level m fs in (m, fs, qf :: l)
  end.

(** In a dry run no file is touched, and every file is recorded. *)
Lemma dry_run_safe calls pid paths level m fs : dryRun m = true ->
  let '(m', fs', l) := QuarantineFilesByPID calls pid paths level m fs in
  fs' = fs /\ quarantined m' = quarantined m ++ l /\ Path <$> l = paths.
Proof.
  revert calls m fs. induction paths as [|p paths IH]; intros calls m fs Hd; simpl; [by rewrite app_nil_r|].
  unfold QuarantineFile. rewrite Hd. specialize (IH (fun i => calls (S i)) (mkManager (quarantined m ++ [mkQuarantined p pid level "dry-run" (c_t0 (calls 0%nat))]) (quarantineDir m) (dryRun m)) fs Hd).
  rewrite Hd in IH. destruct (QuarantineFilesByPID _ _ _ _ _ _) as [[m' fs'] l]. destruct IH as (-> & Hq & Hp). simpl in Hq.
  rewrite Hq, <-(assoc_L (++)). csimpl. by rewrite Hp.
Qed.

(** With the locking level and calls that succeed, every listed file loses its permissions
    and keeps its contents, and no other file changes. *)
Lemma lock_exact calls pid paths m fs : dryRun m = false -> (forall i, c_ok (calls i) = true) ->
  let '(m', fs', l) := QuarantineFilesByPID calls pid paths QuarantineLock m fs in
  (forall p, fs' !! p = if decide (p ∈ paths) then (fun f => (0, f.2)) <$> fs !! p else fs !! p) /\
  quarantined m' = quarantined m ++ l /\ Forall (fun q => q_Action q = "locked") l.
Proof.
  revert calls m fs. induction paths as [|p paths IH]; intros calls m fs Hd Hok; cbn [QuarantineFilesByPID].
  { split_and!; [done|by rewrite app_nil_r|done]. }
  unfold QuarantineFile. rewrite Hd, Hok. change (QuarantineLock =? QuarantineLock) with true. cbv iota.
  set (q := mkQuarantined _ _ _ _ _). set (m1 := mkManager _ _ _). specialize (IH (fun i => calls (S i)) m1 (alter (fun f => (0, f.2)) p fs) eq_refl (fun i => Hok (S i))).
  destruct (QuarantineFilesByPID _ _ _ _ _ _) as [[m' fs'] l]. destruct IH as (Hf & Hq & Hl). split_and!.
  - intros p'. rewrite Hf. destruct (decide (p' = p)) as [->|Hne].
    + rewrite lookup_alter_eq, (decide_True (P := p ∈ p :: paths)) by set_solver. case_decide; [|done]. by destruct (fs !! p).
    + rewrite lookup_alter_ne by done. apply decide_ext. set_solver.
  - rewrite Hq. simpl. by rewrite <-(assoc_L (++)).
  - by constructor.
Qed.

(** A failed call is recorded like a success, with an empty action. *)
Example failed_recorded : (quarantined (QuarantineFile 0 0 false "/tmp/x" 7 QuarantineDelete (NewFileQuarantineManager "" false) ∅).1.1) = [mkQuarantined "/tmp/x" 7 QuarantineDelete "" 0].
Proof. reflexivity. Qed.

(** ** Response rules *)

Record ResponseRule := mkRule { Name : string; Condition : string; Action : string; Target : string; Params : list (string * string) }.

Definition DefaultResponsePolicy : list ResponseRule :=
  [mkRule "High-risk process isolation" "on_risk_score > 90" "isolate_process_tree" "" [("level", "FULL_ISOLATION")];
   mkRule "Suspicious network block" "on_event = net_connect AND taint = true" "block_network" "" [("level", "NETWORK_ONLY")];
   mkRule "Malicious file quarantine" "on_event = file_write AND taint = true" "quarantine_file" "" [("level", "lock")];
   mkRule "Memory execution response" "on_event = mprotect_rx OR on_event = memfd_create" "isolate_process_tree" "" [("level", "FULL_ISOLATION")];
   mkRule "Sensitive file access block" "on_path CONTAINS /etc/shadow AND uid != 0" "block_process" "" [("duration", "3600s")]].

Section rules.
Context `{UnicodeCase} (ParseFloat : string -> option float64).

Definition scan_threshold (cond : string) : option float64 := t ← Sscanf_float "on_risk_score > " cond; ParseFloat t.

Definition risk_refuses (cond : string) (risk : float64) : bool :=
  Contains cond "on_risk_score >" && match scan_threshold cond with Some t => f_leb risk t | None => false end.
Definition event_refuses (cond eventType : string) : bool :=
  Contains cond "on_event =" &&
  match Sscanf_s "on_event = " cond with
  | Some expected => negb (existsb (EqualFold eventType) (Split expected "|"%char)) && negb (Contains cond "OR")
  | None => false
  end.
Definition path_refuses (cond path : string) : bool :=
  Contains cond "on_path CONTAINS" &&
  match Sscanf_s "on_path CONTAINS " cond with Some expected => negb (Contains path expected) | None => false end.

Definition matchRule (rule : ResponseRule) (risk : float64) (eventType : string) (tainted : bool) (path : string) (uid : Z) : bool :=
  let cond := Condition rule in
  if risk_refuses cond risk then false
  else if event_refuses cond eventType then false
  else if Contains cond "taint = true" && negb tainted then false
  else if path_refuses cond path then false
  else if Contains cond "uid != 0" && (uid =? 0) then false
  else true.

Definition Evaluate (rules : list ResponseRule) (risk : float64) (eventType : string) (tainted : bool) (path : string) (uid : Z) : list ResponseRule :=
  List.filter (fun r => matchRule r risk eventType tainted path uid) rules.
End rules.

Definition param (k : string) (r : ResponseRule) : option string := snd <$> List.find (fun x => String.eqb x.1 k) (Params r).

Definition ExecuteResponse (ok : bool) (calls : nat -> file_calls) (now : time) (r : ResponseRule) (pid : Z) (comm : string) (paths : list string)
    (cb : CausalBlocker) (m : FileQuarantineManager) (fs : files) : CausalBlocker * FileQuarantineManager * files :=
  if String.eqb (Action r) "isolate_process_tree" then
    let level := match param "level" r with
                 | Some l => if String.eqb l "NETWORK_ONLY" then BlockNetwork else if String.eqb l "SENSITIVE" then BlockSensitive else BlockAll
                 | None => BlockAll
                 end in
    (BlockProcess ok now pid comm level cb, m, fs)
  else if String.eqb (Action r) "block_network" then (BlockProcess ok now pid comm BlockNetwork cb, m, fs)
  else if String.eqb (Action r) "block_process" then (BlockProcess ok now pid comm BlockAll cb, m, fs)
  else if String.eqb (Action r) "quarantine_file" then
    let level := match param "level" r with
                 | Some l => if String.eqb l "move" then QuarantineMove else if String.eqb l "delete" then QuarantineDelete else QuarantineLock
                 | None => QuarantineLock
                 end in
    if (0 <? length paths)%nat then let '(m, fs, _) := QuarantineFilesByPID calls pid paths level m fs in (cb, m, fs) else (cb, m, fs)
  else (cb, m, fs).

(** ** What the built-in rules do *)

Section default_rules.
Context `{UnicodeCase} (ParseFloat : string -> option float64) (parse_90 : ParseFloat "90" = Some (f_of_Z 90)).

Definition rule (i : nat) : ResponseRule := nth i DefaultResponsePolicy (mkRule "" "" "" "" []).
Definition pick (b : bool) (i : nat) : list ResponseRule := if b then [rule i] else [].

(** The first rule fires above a score of 90, the second and third on tainted connections
    and writes, the fifth on the shadow file for other users than root.  The fourth fires
    on every event, whatever its type. *)
Lemma default_policy_exact risk eventType tainted path uid :
  Evaluate ParseFloat DefaultResponsePolicy risk eventType tainted path uid =
    pick (negb (f_leb risk (f_of_Z 90))) 0 ++
    pick (EqualFold eventType "net_connect" && tainted) 1 ++
    pick (EqualFold eventType "file_write" && tainted) 2 ++
    pick true 3 ++
    pick (Contains path "/etc/shadow" && negb (uid =? 0)) 4.
Proof.
  assert (scan_threshold ParseFloat "on_risk_score > 90" = Some (f_of_Z 90)) as Ht by (unfold scan_threshold; change (Sscanf_float "on_risk_score > " "on_risk_score > 90") with (Some "90"); exact parse_90).
  assert (matchRule ParseFloat (rule 0) risk eventType tainted path uid = negb (f_leb risk (f_of_Z 90))) as E0.
  { unfold matchRule, risk_refuses. cbn [rule nth DefaultResponsePolicy Condition]. rewrite Ht.
    change (Contains "on_risk_score > 90" "on_risk_score >") with true. cbn [andb]. by destruct (f_leb risk (f_of_Z 90)). }
  assert (matchRule ParseFloat (rule 1) risk eventType tainted path uid = EqualFold eventType "net_connect" && tainted) as E1.
  { change (matchRule _ _ _ _ _ _ _) with (if negb (EqualFold eventType "net_connect" || false) && true then false else if negb tainted then false else true).
    by destruct (EqualFold eventType "net_connect"), tainted. }
  assert (matchRule ParseFloat (rule 2) risk eventType tainted path uid = EqualFold eventType "file_write" && tainted) as E2.
  { change (matchRule _ _ _ _ _ _ _) with (if negb (EqualFold eventType "file_write" || false) && true then false else if negb tainted then false else true).
    by destruct (EqualFold eventType "file_write"), tainted. }
  assert (matchRule ParseFloat (rule 3) risk eventType tainted path uid = true) as E3.
  { change (matchRule _ _ _ _ _ _ _) with (if negb (EqualFold eventType "mprotect_rx" || false) && false then false else true).
    by destruct (EqualFold eventType "mprotect_rx"). }
  assert (matchRule ParseFloat (rule 4) risk eventType tainted path uid = Contains path "/etc/shadow" && negb (uid =? 0)) as E4.
  { change (matchRule _ _ _ _ _ _ _) with (if negb (Contains path "/etc/shadow") then false else if uid =? 0 then false else true).
    by destruct (Contains path "/etc/shadow"), (uid =? 0). }
  unfold Evaluate, DefaultResponsePolicy. cbn [List.filter].
  unfold rule in *. simpl nth in *. rewrite E0, E1, E2, E3, E4. unfold pick.
  destruct (negb (f_leb risk (f_of_Z 90))), (EqualFold eventType "net_connect" && tainted), (EqualFold eventType "file_write" && tainted),
    (Contains path "/etc/shadow" && negb (uid =? 0)); reflexivity.
Qed.
End default_rules.
