(* ===== verification/Snapshots.v ===== *)
(** * Snapshots of the store, the table of active entities and their differences
    ([internal/storage/snapshot]).

    A checkpoint copies the database into a directory; [D] is the type of the contents of
    a database.  The file system is a map from directories to contents; outcomes of its
    calls and clock readings are arguments.  [CreateSnapshot] releases its lock while it
    removes an old directory, so its four parts are definitions of their own, and [act]
    runs them for several callers in any order. *)
From stdpp Require Import sorting.
From Stdlib Require Import Sorted.
From S2P Require Import Prelude GoStrings GoDuration GoText.
#[local] Open Scope Z_scope.

(** The last [n] elements. *)
Definition last_of {A} (n : nat) (h : list A) : list A := drop (length h - n) h.

Lemma last_of_in {A} n (h : list A) x : x ∈ last_of n h -> x ∈ h.
Proof. unfold last_of. intros Hx. rewrite <-(take_drop (length h - n) h). apply elem_of_app. by right. Qed.

(** ** Snapshots ([snapshot.go]) *)

Record SnapshotMeta := mkMeta { ID : string; Path : string; CreatedAt : time; SizeBytes : Z }.
Record SnapManager := mkManager { SnapDir : string; Retention : Z; snapshots : list SnapshotMeta }.

Definition NewSnapManager (dir : string) (retention : Z) : SnapManager := mkManager dir retention [].
Definition default_retention : Z := 72.

(** [snap-20060102T150405-%06d]: the date to the second and the nanoseconds modulo a
    million, for times from 1970 on and years of four digits. *)
Definition pad6 (n : Z) : string := (if n <? 10 then "00000" else if n <? 100 then "0000" else if n <? 1000 then "000" else if n <? 10000 then "00"
  else if n <? 100000 then "0" else "") +:+ pretty n.
Definition snap_id (now : time) : string :=
  let s := now / Second in
  let '(y, m, d) := civil (s / 86400) in
  let r := s `mod` 86400 in
  "snap-" +:+ pad4 y +:+ pad2 m +:+ pad2 d +:+ "T" +:+ pad2 (r / 3600) +:+ pad2 ((r / 60) `mod` 60) +:+ pad2 (r `mod` 60)
  +:+ "-" +:+ pad6 (time_UnixNano now `mod` 1000000).

Section snapshots.
Context {D : Type}.
Abbreviation disk := (gmap string D).

(** The checkpoint: the directory must not exist; [err]: another error. *)
Definition checkpoint (err : option string) (path : string) (db : D) (fs : disk) : string + disk :=
  match err, fs !! path with
  | Some e, _ => inl e
  | None, Some _ => inl "checkpoint: directory exists"
  | None, None => inr (<[path := db]> fs)
  end.

(** Under the lock: the new entry, and the entry to remove when there are too many. *)
Definition append_meta (now : time) (id : string) (size : Z) (sm : SnapManager) : SnapManager * option SnapshotMeta :=
  let l := snapshots sm ++ [mkMeta id (filepath_Join (SnapDir sm) id) now size] in
  (mkManager (SnapDir sm) (Retention sm) l, if Retention sm <? Z.of_nat (length l) then head l else None).

(** Without the lock; [ok]: the directory can be removed. *)
Definition remove_old (ok : bool) (old : SnapshotMeta) (fs : disk) : disk := if ok then delete (Path old) fs else fs.

(** Under the lock again. *)
Definition drop_first (sm : SnapManager) : SnapManager := mkManager (SnapDir sm) (Retention sm) (drop 1 (snapshots sm)).

(** What a call reads: the clock before the checkpoint and at the entry, the size measured
    or the error of the walk, the error of the checkpoint and the outcome of the removal. *)
Record calls := mkCalls { t_id : time; t_meta : time; c_size : string + Z; c_err : option string; c_rm : bool }.

Definition CreateSnapshot (c : calls) (db : D) (sm : SnapManager) (fs : disk) : SnapManager * disk * option string :=
  let id := snap_id (t_id c) in
  match checkpoint (c_err c) (filepath_Join (SnapDir sm) id) db fs with
  | inl e => (sm, fs, Some e)
  | inr fs =>
      match c_size c with
      | inl e => (sm, fs, Some e)
      | inr size =>
          let '(sm, old) := append_meta (t_meta c) id size sm in
          match old with
          | Some old => (drop_first sm, remove_old (c_rm c) old fs, None)
          | None => (sm, fs, None)
          end
      end
  end.

Definition ListSnapshots (sm : SnapManager) : list SnapshotMeta := snapshots sm.

(** The contents of the snapshot; a missing directory is an error of the database. *)
Definition OpenSnapshot (id : string) (sm : SnapManager) (fs : disk) : option D :=
  m ← List.find (fun m => String.eqb (ID m) id) (snapshots sm); fs !! Path m.

(** ** Retention *)

Abbreviation entry := (SnapshotMeta * D)%type.
Definition on_disk (h : list entry) : disk := list_to_map ((fun x => (Path x.1, x.2)) <$> h).

(** The manager lists the entries [h], whose directories are the only ones. *)
Record keeps (h : list entry) (sm : SnapManager) (fs : disk) : Prop := {
  k_list : snapshots sm = h.*1;
  k_disk : fs = on_disk h;
  k_path : Forall (fun x => Path x.1 = filepath_Join (SnapDir sm) (ID x.1)) h;
  k_nodup : NoDup ((fun x => Path x.1) <$> h);
  k_len : Z.of_nat (length h) <= Z.max 0 (Retention sm);
}.

Lemma on_disk_snoc h x : Path x.1 ∉ (fun x => Path x.1) <$> h -> on_disk (h ++ [x]) = <[Path x.1 := x.2]> (on_disk h).
Proof.
  intros Hx. unfold on_disk. rewrite fmap_app. simpl. rewrite list_to_map_snoc; [done|]. by rewrite <-list_fmap_compose.
Qed.

Lemma on_disk_cons x h : Path x.1 ∉ (fun x => Path x.1) <$> h -> delete (Path x.1) (on_disk (x :: h)) = on_disk h.
Proof.
  intros Hx. unfold on_disk. simpl. rewrite delete_insert_id; [done|]. apply not_elem_of_list_to_map_1. by rewrite <-list_fmap_compose.
Qed.

Lemma on_disk_fresh h p : on_disk h !! p = None -> p ∉ (fun x => Path x.1) <$> h.
Proof. intros H%not_elem_of_list_to_map_2. by rewrite <-list_fmap_compose in H. Qed.

(** A creation that succeeds adds its entry and keeps the last ones; one that fails at the
    checkpoint changes nothing. *)
Lemma create_keeps c db h sm fs sm' fs' err size : keeps h sm fs -> 0 <= Retention sm -> c_rm c = true -> c_size c = inr size ->
  CreateSnapshot c db sm fs = (sm', fs', err) ->
  match err with
  | Some _ => sm' = sm /\ fs' = fs
  | None => keeps (last_of (Z.to_nat (Retention sm)) (h ++ [(mkMeta (snap_id (t_id c)) (filepath_Join (SnapDir sm) (snap_id (t_id c))) (t_meta c) size, db)])) sm' fs'
  end.
Proof.
  intros [Hl -> Hp Hn Hlen] Hr Hrm Hsz H. unfold CreateSnapshot, checkpoint in H. destruct (c_err c); [by simplify_eq/=|].
  destruct (on_disk h !! _) eqn:Ef; [by simplify_eq/=|]. rewrite Hsz in H. apply on_disk_fresh in Ef.
  set (x := (mkMeta (snap_id (t_id c)) (filepath_Join (SnapDir sm) (snap_id (t_id c))) (t_meta c) size, db) : entry) in *.
  pose proof (on_disk_snoc h x Ef) as Hd. change (Path x.1) with (filepath_Join (SnapDir sm) (snap_id (t_id c))) in Hd. simpl in Hd. rewrite <-Hd in H.
  assert (NoDup ((fun x => Path x.1) <$> h ++ [x])) as Hn'.
  { rewrite fmap_app. apply NoDup_app. split_and!; [done| |apply NoDup_singleton]. intros p Hin Hs. set_solver. }
  assert (Forall (fun x => Path x.1 = filepath_Join (SnapDir sm) (ID x.1)) (h ++ [x])) as Hp' by (apply Forall_app; split; [done|by constructor]).
  unfold append_meta in H. rewrite Hl in H.
  assert (h.*1 ++ [mkMeta (snap_id (t_id c)) (filepath_Join (SnapDir sm) (snap_id (t_id c))) (t_meta c) size] = (h ++ [x]).*1) as Ex by (by rewrite fmap_app).
  rewrite Ex in H.
  rewrite length_fmap, length_app in H. simpl length in H. rewrite Z.max_r in Hlen by done.
  destruct (Z.ltb_spec (Retention sm) (Z.of_nat (length h + 1))) as [Hlt|Hge].
  - assert (length h = Z.to_nat (Retention sm)) as Hlh by lia. unfold last_of. rewrite length_app. simpl length.
    replace (length h + 1 - Z.to_nat (Retention sm))%nat with 1%nat by lia.
    destruct (h ++ [x]) as [|y l] eqn:El; [by destruct h|]. simpl in H. rewrite Hrm in H. simplify_eq/=.
    apply NoDup_cons in Hn' as [Hy Hn']. apply Forall_cons in Hp' as [_ Hp'].
    rewrite ?El. simpl. split; simpl; [by rewrite ?drop_0|by apply on_disk_cons|done|done|].
    apply (f_equal length) in El. rewrite length_app in El. simpl in El. rewrite drop_0, Z.max_r by done. lia.
  - unfold last_of. rewrite length_app. simpl length. replace (length h + 1 - Z.to_nat (Retention sm))%nat with 0%nat by lia. rewrite drop_0.
    simplify_eq/=. split; simpl; try done. rewrite length_app. simpl. lia.
Qed.
(** A sequence of creations, each with the contents of the database at that time. *)
Fixpoint create_all (l : list (calls * D)) (sm : SnapManager) (fs : disk) : SnapManager * disk :=
  match l with
  | [] => (sm, fs)
  | (c, db) :: l => let '(sm, fs, _) := CreateSnapshot c db sm fs in create_all l sm fs
  end.

Lemma create_config c db sm fs : SnapDir (CreateSnapshot c db sm fs).1.1 = SnapDir sm /\ Retention (CreateSnapshot c db sm fs).1.1 = Retention sm.
Proof. unfold CreateSnapshot, append_meta, drop_first. by repeat case_match; simplify_eq/=. Qed.

Lemma create_all_retention l sm fs : Retention (create_all l sm fs).1 = Retention sm.
Proof.
  revert sm fs. induction l as [|[c db] l IH]; intros sm fs; simpl; [done|]. pose proof (create_config c db sm fs) as [_ E].
  destruct (CreateSnapshot c db sm fs) as [[sm' fs'] err]. by rewrite IH.
Qed.

Definition quiet (c : calls) : Prop := c_rm c = true /\ exists size, c_size c = inr size.

Lemma create_all_keeps l h sm fs : keeps h sm fs -> 0 <= Retention sm -> Forall (fun x => quiet x.1) l ->
  exists h', keeps h' (create_all l sm fs).1 (create_all l sm fs).2 /\ Forall (fun x => x ∈ h \/ x.2 ∈ l.*2) h'.
Proof.
  revert h sm fs. induction l as [|[c db] l IH]; intros h sm fs Hk Hr Hq; simpl.
  { exists h. split; [done|]. apply Forall_forall. by left. }
  apply Forall_cons in Hq as [[Hrm [size Hsz]] Hq]. destruct (CreateSnapshot c db sm fs) as [[sm' fs'] err] eqn:E.
  pose proof (create_config c db sm fs) as [_ Hr']. rewrite E in Hr'. simpl in Hr'.
  pose proof (create_keeps _ _ _ _ _ _ _ _ _ Hk Hr Hrm Hsz E) as Hk'. destruct err as [e|].
  - destruct Hk' as [-> ->]. destruct (IH h sm fs Hk Hr Hq) as (h' & ? & Hf). exists h'. split; [done|]. eapply Forall_impl; [exact Hf|].
    intros x [?|?]; [by left|right; by right].
  - destruct (IH _ sm' fs' Hk' ltac:(lia) Hq) as (h' & ? & Hf). exists h'. split; [done|]. eapply Forall_impl; [exact Hf|].
    intros x [Hx|?]; [|right; by right]. apply last_of_in, elem_of_app in Hx as [?|Hx]; [by left|].
    apply list_elem_of_singleton in Hx as ->. right. by left.
Qed.

Lemma find_entry h sm x : Forall (fun x => Path x.1 = filepath_Join (SnapDir sm) (ID x.1)) h -> NoDup ((fun x : entry => Path x.1) <$> h) -> x ∈ h ->
  List.find (fun m => String.eqb (ID m) (ID x.1)) h.*1 = Some x.1.
Proof.
  intros Hp Hn Hx. induction h as [|y h IH]; [by apply elem_of_nil in Hx|]. csimpl in *.
  apply Forall_cons in Hp as [Hy Hp]. apply NoDup_cons in Hn as [Hny Hn]. destruct (String.eqb_spec (ID y.1) (ID x.1)) as [E|E].
  - apply elem_of_cons in Hx as [->|Hx]; [done|]. exfalso. apply Hny. apply list_elem_of_fmap. exists x. split; [|done].
    rewrite Hy, E. symmetry. rewrite Forall_forall in Hp. by apply Hp.
  - apply elem_of_cons in Hx as [->|Hx]; [done|]. by apply IH.
Qed.

(** One caller at a time, with removals that succeed: the directories on the disk are
    exactly those of the listed snapshots, at most [Retention] of them, and opening a
    listed snapshot gives the contents the database had at a creation. *)
Lemma snapshots_exact l dir retention : 0 <= retention -> Forall (fun x => quiet x.1) l ->
  let '(sm, fs) := create_all l (NewSnapManager dir retention) ∅ in
  dom fs = list_to_set (Path <$> ListSnapshots sm) /\ Z.of_nat (length (ListSnapshots sm)) <= retention /\
  (forall m, m ∈ ListSnapshots sm -> exists db, OpenSnapshot (ID m) sm fs = Some db /\ db ∈ l.*2).
Proof.
  intros Hr Hq. assert (keeps [] (NewSnapManager dir retention) ∅) as H0 by (split; simpl; try done; [constructor|lia]).
  destruct (create_all_keeps l [] _ _ H0 Hr Hq) as (h & [Hl Hd Hp Hn Hlen] & Hf).
  pose proof (create_all_retention l (NewSnapManager dir retention) ∅) as Hret.
  destruct (create_all l (NewSnapManager dir retention) ∅) as [sm fs]. simpl in *. rewrite Hret, Z.max_r in Hlen by done.
  unfold ListSnapshots. rewrite Hl. split_and!.
  - rewrite Hd. unfold on_disk. rewrite dom_list_to_map_L. f_equal. by rewrite <-!list_fmap_compose.
  - by rewrite length_fmap.
  - intros m ([m' db] & -> & Hx)%list_elem_of_fmap. exists db. unfold OpenSnapshot. rewrite Hl, (find_entry h sm (m', db)) by done. simpl. split.
    + rewrite Hd. unfold on_disk. apply elem_of_list_to_map_1; [by rewrite <-list_fmap_compose|]. apply list_elem_of_fmap. by exists (m', db).
    + rewrite Forall_forall in Hf. apply Hf in Hx as [Hx|Hx]; [by apply elem_of_nil in Hx|done].
Qed.

(** ** Several callers *)

Inductive phase := Measured (id : string) (size : Z) | Removing (old : SnapshotMeta) | Dropping.
Record world := mkWorld { manager : SnapManager; store : disk; running : gmap nat phase }.

Inductive action :=
  | Checkpoint (tid : nat) (now : time) (db : D) (size : Z)
  | Append (tid : nat) (now : time)
  | RemoveAll (tid : nat)
  | Drop (tid : nat).

(** One part of a call, when the caller is there; calls on the file system succeed. *)
Definition act (w : world) (a : action) : world :=
  match a with
  | Checkpoint tid now db size =>
      match running w !! tid, checkpoint None (filepath_Join (SnapDir (manager w)) (snap_id now)) db (store w) with
      | None, inr fs => mkWorld (manager w) fs (<[tid := Measured (snap_id now) size]> (running w))
      | _, _ => w
      end
  | Append tid now =>
      match running w !! tid with
      | Some (Measured id size) =>
          let '(sm, old) := append_meta now id size (manager w) in
          mkWorld sm (store w) (match old with Some old => <[tid := Removing old]> (running w) | None => delete tid (running w) end)
      | _ => w
      end
  | RemoveAll tid =>
      match running w !! tid with
      | Some (Removing old) => mkWorld (manager w) (remove_old true old (store w)) (<[tid := Dropping]> (running w))
      | _ => w
      end
  | Drop tid => match running w !! tid with Some Dropping => mkWorld (drop_first (manager w)) (store w) (delete tid (running w)) | _ => w end
  end.
End snapshots.

(** Two callers that remove at the same time remove the same directory twice, and both
    drop an entry: the second entry disappears from the list and its directory stays. *)
Example race_leaks :
  let t k := unix_epoch + k * Second in
  let w := foldl act (mkWorld (NewSnapManager "/s" 2) ∅ ∅)
    [Checkpoint 0 (t 1) "a" 0; Append 0 (t 1); Checkpoint 0 (t 2) "b" 0; Append 0 (t 2);
     Checkpoint 0 (t 3) "c" 0; Checkpoint 1 (t 4) "d" 0; Append 0 (t 3); Append 1 (t 4); RemoveAll 0; RemoveAll 1; Drop 0; Drop 1] in
  CreatedAt <$> snapshots (manager w) = [t 3; t 4] /\ running w = ∅ /\
  (map_to_list (store w)).*2 ≡ₚ ["b"; "c"; "d"].
Proof. split_and!; [vm_compute; reflexivity|vm_compute; reflexivity|]. apply (bool_decide_unpack _). vm_compute. exact I. Qed.

(** ** The table of active entities ([active.go]) *)

Inductive EntityType := EntityProcess | EntityFile | EntityNetwork.
Definition EntityType_String (t : EntityType) : string :=
  match t with EntityProcess => "process" | EntityFile => "file" | EntityNetwork => "network" end.

Record ActiveEntry := mkActive { ae_ID : string; ae_Type : EntityType; LastSeen : time; ChangeCount : Z }.
Record ActiveTable := mkTable { entries : gmap string ActiveEntry; window : duration }.

Definition NewActiveTable (w : duration) : ActiveTable := mkTable ∅ (if w <=? 0 then 5 * Minute else w).

Definition Touch (now : time) (id : string) (t : EntityType) (at_ : ActiveTable) : ActiveTable :=
  let e := match entries at_ !! id with
           | Some e => mkActive (ae_ID e) (ae_Type e) now (i64 (ChangeCount e + 1))
           | None => mkActive id t now 1
           end in
  mkTable (<[id := e]> (entries at_)) (window at_).

Definition CleanExpired (now : time) (at_ : ActiveTable) : ActiveTable * Z :=
  let cutoff := time_Add now (- window at_) in
  (mkTable (filter (fun x => time_Before (LastSeen x.2) cutoff = false) (entries at_)) (window at_),
   Z.of_nat (size (filter (fun x => time_Before (LastSeen x.2) cutoff = true) (entries at_)))).

Section active.
Context `{MapOrder}.

Definition GetActive (now : time) (at_ : ActiveTable) : list ActiveEntry :=
  List.filter (fun e => time_After (LastSeen e) (time_Add now (- window at_))) (range 0 (map_to_list (entries at_)).*2).

Definition GetActiveIDs (now : time) (at_ : ActiveTable) : list string := ae_ID <$> GetActive now at_.
End active.

Inductive table_op := OTouch (now : time) (id : string) (t : EntityType) | OClean (now : time).
Definition table_step (at_ : ActiveTable) (o : table_op) : ActiveTable :=
  match o with OTouch now id t => Touch now id t at_ | OClean now => (CleanExpired now at_).1 end.
Definition op_time (o : table_op) : time := match o with OTouch now _ _ | OClean now => now end.

(** The touches of an entity, in order. *)
Definition touches (id : string) (ops : list table_op) : list time :=
  omap (fun o => match o with OTouch now id' _ => if String.eqb id' id then Some now else None | OClean _ => None end) ops.

(** The table holds the last touch of every entity, or that touch has expired. *)
Definition tracks (ops : list table_op) (t : time) (at_ : ActiveTable) : Prop :=
  forall id, match entries at_ !! id with
             | Some e => ae_ID e = id /\ last (touches id ops) = Some (LastSeen e)
             | None => forall u, last (touches id ops) = Some u -> u < t - window at_
             end.

Lemma tracks_step ops t at_ o : tracks ops t at_ -> t <= op_time o -> tracks (ops ++ [o]) (op_time o) (table_step at_ o).
Proof.
  intros Hk Ht id. specialize (Hk id). unfold touches in *. rewrite omap_app, last_app. destruct o as [now id' ty|now]; csimpl.
  - unfold Touch. simpl. destruct (String.eqb_spec id' id) as [->|Hne].
    + rewrite lookup_insert_eq. simpl. destruct (entries at_ !! id) as [e|]; simpl; [|done]. by destruct Hk as [-> _].
    + rewrite lookup_insert_ne by done. simpl. destruct (entries at_ !! id) as [e|]; [done|]. simpl in Ht. intros u Hu%Hk. lia.
  - simpl in *. destruct (filter _ (entries at_) !! id) as [e|] eqn:Ef.
    + apply map_lookup_filter_Some in Ef as [Ef _]. by rewrite Ef in Hk.
    + intros u Hu. apply map_lookup_filter_None in Ef as [Ef|Ef]; [rewrite Ef in Hk; apply Hk in Hu; lia|].
      destruct (entries at_ !! id) as [e|] eqn:Ee; [|apply Hk in Hu; lia]. destruct Hk as [_ Hk]. simplify_eq/=.
      specialize (Ef e eq_refl). simpl in Ef. unfold time_Before, time_Add in Ef. destruct (Z.ltb_spec (LastSeen e) (now + - window at_)); [|done]. lia.
Qed.

Lemma table_window at_ o : window (table_step at_ o) = window at_.
Proof. by destruct o. Qed.

(** An entity is active exactly if it was last touched in the window, whatever was cleaned
    in between, as long as the clock does not go back. *)
Lemma active_exact `{MapOrder} w ops now id : StronglySorted Z.le ((op_time <$> ops) ++ [now]) ->
  let at_ := foldl table_step (NewActiveTable w) ops in
  id ∈ GetActiveIDs now at_ <-> exists u, last (touches id ops) = Some u /\ now - window (NewActiveTable w) < u.
Proof.
  intros Hs at_. assert (tracks ops now at_ /\ window at_ = window (NewActiveTable w)) as [Hk Hw].
  { unfold at_. clear at_. revert now Hs. induction ops as [|o ops IH] using rev_ind; intros now Hs.
    { split; [|done]. intros id'. simpl. by rewrite lookup_empty. }
    rewrite fmap_app in Hs. destruct (IH (op_time o) (StronglySorted_app_1_l _ _ _ Hs)) as [Hk Hw].
    assert (op_time o <= now) as Ho by (eapply StronglySorted_app_1_elem_of; [exact Hs|set_solver|set_solver]).
    rewrite foldl_app. cbn [foldl]. split; [|by rewrite table_window].
    pose proof (tracks_step ops (op_time o) _ o Hk ltac:(lia)) as Hk'. intros id'. specialize (Hk' id').
    destruct (entries _ !! id'); [done|]. intros u Hu%Hk'. rewrite table_window in *. lia. }
  unfold GetActiveIDs, GetActive. rewrite <-Hw. split.
  - intros (e & -> & Hin)%list_elem_of_fmap. apply list_elem_of_In, filter_In in Hin as [Hin Ha]. apply list_elem_of_In, elem_of_range, list_elem_of_fmap in Hin as ([k e'] & -> & Hin).
    apply elem_of_map_to_list in Hin. specialize (Hk k). rewrite Hin in Hk. simpl in *. destruct Hk as [<- Hk]. exists (LastSeen e').
    unfold time_After, time_Add in Ha. apply Z.ltb_lt in Ha. split; [done|lia].
  - intros (u & Hu & Hlt). specialize (Hk id). destruct (entries at_ !! id) as [e|] eqn:Ee; [|apply Hk in Hu; lia]. destruct Hk as [<- Hk].
    apply list_elem_of_fmap. exists e. split; [done|]. apply list_elem_of_In, filter_In. rewrite <-list_elem_of_In, elem_of_range. split.
    + apply list_elem_of_fmap. exists (ae_ID e, e). split; [done|]. by apply elem_of_map_to_list.
    + unfold time_After, time_Add. apply Z.ltb_lt. rewrite Hk in Hu. simplify_eq/=. lia.
Qed.

(** ** Differences ([diff.go]) *)

Record DiffNode := mkNode { dn_ID : string; dn_Type : string; dn_Label : string }.
Record DiffEdge := mkEdge { de_Source : string; de_Target : string; de_Relation : string }.
Record DiffResult := mkDiff { NewNodes : list DiffNode; NewEdges : list DiffEdge; TotalNodes : Z; TotalEdges : Z }.

(** The snapshots the loop selects: the earliest inside the interval, and the first one
    after its end, or the last one exactly at it. *)
Definition select (t1 t2 : time) (st : option SnapshotMeta * option SnapshotMeta) (s : SnapshotMeta) : option SnapshotMeta * option SnapshotMeta :=
  let s1 := if time_After (CreatedAt s) t1 && time_Before (CreatedAt s) t2
              && match st.1 with None => true | Some x => time_Before (CreatedAt s) (CreatedAt x) end
            then Some s else st.1 in
  let s2 := if (CreatedAt s =? t2) || (time_After (CreatedAt s) t2 && bool_decide (st.2 = None)) then Some s else st.2 in
  (s1, s2).

Section diff.
Context `{MapOrder} {D : Type}.

Definition active_nodes (now : time) (at_ : ActiveTable) : list DiffNode :=
  (fun e => mkNode (ae_ID e) (EntityType_String (ae_Type e)) "") <$> GetActive now at_.

Definition GetDiff (now t1 t2 : time) (at_ : ActiveTable) (sm : SnapManager) (fs : gmap string D) : string + DiffResult :=
  match foldl (select t1 t2) (None, None) (ListSnapshots sm) with
  | (Some s1, Some s2) =>
      match OpenSnapshot (ID s1) sm fs, OpenSnapshot (ID s2) sm fs with
      | None, _ => inl "open snap1"
      | _, None => inl "open snap2"
      | Some _, Some _ => inr (mkDiff [] [] 0 0)
      end
  | _ => let l := active_nodes now at_ in inr (mkDiff l [] (Z.of_nat (length l)) 0)
  end.

Definition GetActiveDiff (now : time) (at_ : ActiveTable) : DiffResult :=
  let l := active_nodes now at_ in mkDiff l [] (Z.of_nat (length l)) 0.

(** Where both snapshots exist the difference is empty, whatever they contain; otherwise
    it does not depend on the interval. *)
Lemma diff_ignores_contents now t1 t2 at_ sm fs d : GetDiff now t1 t2 at_ sm fs = inr d -> d = mkDiff [] [] 0 0 \/ d = GetActiveDiff now at_.
Proof. unfold GetDiff, GetActiveDiff. intros Hd. repeat case_match; simplify_eq/=; auto. Qed.
End diff.
