(* ===== verification/Compact.v ===== *)
(** * Compaction of old provenance data ([internal/engine/compact]).

    The reduction of intermediate nodes ([reducer.go]), the summaries of repeated accesses
    ([summary.go]) and the tiers of old data ([tiering.go]), on the graph of [ProvGraph].
    Clock readings, outcomes of file calls and the orders of map iterations are arguments. *)
From S2P Require Import Prelude GoStrings GoTime GoDuration GoText Events ProvGraph ProvInv ProvVersions.

(** ** Reduction *)

Record ReductionConfig := mkReduction { MaxIntermediateLifespan : duration; MaxIntermediateDegree : Z; PreserveExternalIO : bool; DryRun : bool }.
Definition DefaultReductionConfig : ReductionConfig := mkReduction (5 * Minute) 2 true true.

Record ReductionMetrics := mkMetrics { NodesExamined : Z; NodesMerged : Z; EdgesRemoved : Z; EdgesCreated : Z; StorageSaved : Z }.

Section reducer.
Context `{MapOrder} `{UnicodeCase}.

Definition Nodes (g : Graph) : list Node.t := range 0 (map_to_list (nodes g)).*2.

Definition into (id : string) (es : list Edge.t) : list Edge.t := List.filter (fun e => String.eqb (Edge.Target e) id) es.
Definition out_of (id : string) (es : list Edge.t) : list Edge.t := List.filter (fun e => String.eqb (Edge.Source e) id) es.

Definition isShortLived (c : ReductionConfig) (n : Node.t) : bool := time_Sub (Node.LastSeen n) (Node.FirstSeen n) <? MaxIntermediateLifespan c.

Definition hasExternalIO (n : Node.t) (es : list Edge.t) : bool :=
  existsb (fun e => (String.eqb (Edge.Source e) (Node.ID n) || String.eqb (Edge.Target e) (Node.ID n))
                    && existsb (fun oe => String.eqb (Edge.Target oe) (Edge.Target e) && negb (String.eqb (Edge.Source oe) (Node.ID n))) es) es.

Definition isSensitive (n : Node.t) : bool := existsb (Contains (ToLower (Node.Label n))) ["shadow"; "passwd"; "sudo"; "ssh"; "cred"].

Definition isMergeable (id : string) (es : list Edge.t) : bool :=
  existsb (fun e => String.eqb (Edge.Target e) id) es && existsb (fun e => String.eqb (Edge.Source e) id) es.

(** The degrees of the index are the numbers of edges. *)
Definition intermediate (c : ReductionConfig) (es : list Edge.t) (n : Node.t) : bool :=
  (Z.of_nat (length (into (Node.ID n) es)) + Z.of_nat (length (out_of (Node.ID n) es)) <=? MaxIntermediateDegree c)
  && isShortLived c n && negb (PreserveExternalIO c && hasExternalIO n es) && negb (isSensitive n).

(** The new edges are appended to a slice that is not kept: only the counters change. *)
Definition performMerge (ins outs : list Edge.t) (m : ReductionMetrics) : ReductionMetrics :=
  let i := Z.of_nat (length ins) in let o := Z.of_nat (length outs) in
  mkMetrics (NodesExamined m) (NodesMerged m + 1) (EdgesRemoved m + i + o) (EdgesCreated m + i * o) (StorageSaved m + (332 + (i + o) * 250)).

Definition merge_step (c : ReductionConfig) (es : list Edge.t) (m : ReductionMetrics) (id : string) : ReductionMetrics :=
  if negb (isMergeable id es) then m
  else
    let ins := into id es in let outs := out_of id es in
    if negb (DryRun c) then performMerge ins outs m
    else mkMetrics (NodesExamined m) (NodesMerged m + 1) (EdgesRemoved m + (Z.of_nat (length ins) + Z.of_nat (length outs)))
           (EdgesCreated m + Z.of_nat (length ins) * Z.of_nat (length outs)) (StorageSaved m).

Definition Reduce (c : ReductionConfig) (g : Graph) : ReductionMetrics :=
  let ns := Nodes g in let es := Edges g in
  let ids := Node.ID <$> List.filter (intermediate c es) ns in
  foldl (merge_step c es) (mkMetrics (Z.of_nat (length ns)) 0 0 0 0) ids.

(** A dry run announces the counts of a real run. *)
Definition counts (m : ReductionMetrics) : Z * Z * Z * Z := (NodesExamined m, NodesMerged m, EdgesRemoved m, EdgesCreated m).

Lemma dry_run_announces c g : counts (Reduce (mkReduction (MaxIntermediateLifespan c) (MaxIntermediateDegree c) (PreserveExternalIO c) true) g)
  = counts (Reduce (mkReduction (MaxIntermediateLifespan c) (MaxIntermediateDegree c) (PreserveExternalIO c) false) g).
Proof.
  unfold Reduce. set (es := Edges g). generalize (Nodes g) as ns. intros ns. 
  change (intermediate (mkReduction _ _ _ true) es) with (intermediate (mkReduction (MaxIntermediateLifespan c) (MaxIntermediateDegree c) (PreserveExternalIO c) false) es).
  generalize (Node.ID <$> List.filter (intermediate (mkReduction (MaxIntermediateLifespan c) (MaxIntermediateDegree c) (PreserveExternalIO c) false) es) ns) as ids.
  intros ids. generalize (mkMetrics (Z.of_nat (length ns)) 0 0 0 0) as m. intros m.
  assert (forall m m', counts m = counts m' -> counts (foldl (merge_step (mkReduction (MaxIntermediateLifespan c) (MaxIntermediateDegree c) (PreserveExternalIO c) true) es) m ids)
    = counts (foldl (merge_step (mkReduction (MaxIntermediateLifespan c) (MaxIntermediateDegree c) (PreserveExternalIO c) false) es) m' ids)) as G; [|by apply G].
  induction ids as [|id ids IH]; intros m1 m2 E; [done|]. simpl. apply IH. unfold merge_step, performMerge, counts in *. simpl. injection E as E1 E2 E3 E4.
  destruct (isMergeable id es); simpl; [|congruence]. rewrite E1, E2, E3, E4. do 2 f_equal. lia.
Qed.

(** ** The reduction with the default configuration merges nothing *)

(** An edge into a node from another one already counts as external. *)
Lemma entered_is_external n es e : e ∈ es -> Edge.Target e = Node.ID n -> Edge.Source e <> Edge.Target e -> hasExternalIO n es = true.
Proof.
  intros He Ht Hs. unfold hasExternalIO. apply existsb_exists. exists e. split; [by apply list_elem_of_In|].
  rewrite Ht, String.eqb_refl, orb_true_r. simpl. apply existsb_exists. exists e. split; [by apply list_elem_of_In|].
  rewrite Ht, String.eqb_refl. simpl. apply negb_true_iff, String.eqb_neq. congruence.
Qed.

(** In a graph without edges from a node to itself, the reduction that preserves external
    interactions, as the default one does, merges no node and removes no edge. *)
Lemma preserving_merges_nothing c g : PreserveExternalIO c = true -> (forall e, e ∈ Edges g -> Edge.Source e <> Edge.Target e) ->
  counts (Reduce c g) = (Z.of_nat (size (nodes g)), 0, 0, 0).
Proof.
  intros Hp Hl. unfold Reduce. assert (length (Nodes g) = size (nodes g)) as Hlen.
  { unfold Nodes. by rewrite range_perm, length_fmap, length_map_to_list. }
  rewrite Hlen. assert (Forall (fun id => isMergeable id (Edges g) = false) (Node.ID <$> List.filter (intermediate c (Edges g)) (Nodes g))) as Hm.
  { apply Forall_fmap, Forall_forall. intros n Hn%list_elem_of_In. apply filter_In in Hn as [_ Hi]. simpl.
    destruct (isMergeable (Node.ID n) (Edges g)) eqn:Em; [|done]. exfalso. apply andb_true_iff in Em as [Em _].
    apply existsb_exists in Em as (e & He & Ht%String.eqb_eq). apply list_elem_of_In in He.
    pose proof (entered_is_external n (Edges g) e He Ht (Hl e He)) as Hx. unfold intermediate in Hi. rewrite Hp, Hx in Hi. simpl in Hi.
    by rewrite !andb_false_r in Hi. }
  revert Hm. generalize (Node.ID <$> List.filter (intermediate c (Edges g)) (Nodes g)) as ids. intros ids Hm.
  induction ids as [|id ids IH]; [done|]. apply Forall_cons in Hm as [Hid Hm]. simpl. unfold merge_step at 2. rewrite Hid. simpl. by apply IH.
Qed.
End reducer.

(** ** Summaries *)

Record BehaviourSummary := mkSummary {
  ProcessID : string; ProcessComm : string; TargetEntity : string; TargetType : string; Operation : string;
  TotalCalls : Z; TotalBytes : Z; TimeStart : string; TimeEnd : string; FirstEventID : string; LastEventID : string;
}.
Record SummaryConfig := mkSummaryConfig { MinEventsForSummary : Z; SummaryAge : duration }.
Definition DefaultSummaryConfig : SummaryConfig := mkSummaryConfig 1000 (7 * 24 * 60 * Minute).

Abbreviation groupKey := (string * string * string)%type.
Definition key_of (e : Edge.t) : groupKey := (Edge.Source e, Edge.Target e, Edge.Relation e).

Definition add_group (m : gmap groupKey (list Edge.t)) (e : Edge.t) : gmap groupKey (list Edge.t) :=
  <[key_of e := default [] (m !! key_of e) ++ [e]]> m.

Definition buildSummary (k : groupKey) (ns : list Node.t) : BehaviourSummary :=
  let '(source, target, relation) := k in
  let '(comm, entity, type) := foldl (fun st n =>
      let st := if String.eqb (Node.ID n) source then (Node.Label n, st.1.2, st.2) else st in
      if String.eqb (Node.ID n) target then (st.1.1, Node.Label n, Node.Subtype n) else st) ("", "", "") ns in
  mkSummary source comm entity type
    (if String.eqb relation "prov:used" then "READ" else if String.eqb relation "prov:wasGeneratedBy" then "WROTE" else relation) 0 0 "" "" "" "".

(** The fields taken from the edges of a group; groups are never empty. *)
Definition summarise (ns : list Node.t) (x : groupKey * list Edge.t) : option BehaviourSummary :=
  let b := buildSummary x.1 ns in let n := Z.of_nat (length x.2) in
  first ← head x.2; l ← last x.2;
  Some (mkSummary (ProcessID b) (ProcessComm b) (TargetEntity b) (TargetType b) (Operation b) n (n * 332)
          (format_RFC3339 (Edge.Timestamp first)) (format_RFC3339 (Edge.Timestamp l)) (Edge.ID first) (Edge.ID l)).

Definition old_edges (c : SummaryConfig) (now : time) (es : list Edge.t) : list Edge.t :=
  List.filter (fun e => negb (time_After (Edge.Timestamp e) (time_Add now (- SummaryAge c)))) es.
Definition groups (c : SummaryConfig) (now : time) (es : list Edge.t) : gmap groupKey (list Edge.t) := foldl add_group ∅ (old_edges c now es).

Section summaries.
Context `{MapOrder}.

Definition SummariseEdges (c : SummaryConfig) (now : time) (es : list Edge.t) (ns : list Node.t) : list BehaviourSummary :=
  omap (summarise ns) (List.filter (fun x => negb (Z.of_nat (length x.2) <? MinEventsForSummary c)) (range 0 (map_to_list (groups c now es)))).

Lemma groups_spec c now es k : groups c now es !! k =
  let l := List.filter (fun e => bool_decide (key_of e = k)) (old_edges c now es) in if bool_decide (l = []) then None else Some l.
Proof.
  unfold groups. induction (old_edges c now es) as [|e l IH] using rev_ind; [done|].
  rewrite foldl_app, List.filter_app. cbn [foldl List.filter]. set (m := foldl add_group ∅ l) in *. unfold add_group. destruct (decide (key_of e = k)) as [<-|Hne].
  - rewrite lookup_insert_eq, IH, (bool_decide_true (key_of e = _)) by done. cbv zeta. destruct (List.filter _ l) as [|x l'] eqn:El.
    + done.
    + rewrite bool_decide_false by done. rewrite bool_decide_false by done. done.
  - rewrite lookup_insert_ne, IH, (bool_decide_false (key_of e = k)) by done. by rewrite app_nil_r.
Qed.

(** Each summary stands for one group of old accesses of the same process to the same
    entity, at least as many as configured, and counts all of them. *)
Lemma summaries_exact c now es ns s : s ∈ SummariseEdges c now es ns ->
  exists k, let l := List.filter (fun e => bool_decide (key_of e = k)) (old_edges c now es) in
    l <> [] /\ MinEventsForSummary c <= Z.of_nat (length l) /\ TotalCalls s = Z.of_nat (length l) /\ ProcessID s = k.1.1.
Proof.
  intros ([k l] & Hin & Hs)%list_elem_of_omap. apply list_elem_of_In, filter_In in Hin as [Hin Hm]. apply list_elem_of_In, elem_of_range, elem_of_map_to_list in Hin.
  rewrite groups_spec in Hin. cbv zeta in Hin. case_bool_decide; [done|]. simplify_eq/=. exists k. cbv zeta.
  apply negb_true_iff, Z.ltb_ge in Hm. unfold summarise in Hs. simpl in Hs. destruct (head _) as [x|]; [|done]. destruct (last _) as [y|]; [|done]. simpl in Hs.
  injection Hs as <-. simpl. split_and!; try done. unfold buildSummary. destruct k as [[a b] r]. by destruct (foldl _ _ _) as [[? ?] ?].
Qed.

(** The edges of a graph have distinct keys, so no group of them has two: with the default
    configuration, or any that asks for at least two events, nothing is summarised. *)
Lemma filter_key_one k l : NoDup (key_of <$> l) -> (length (List.filter (fun e => bool_decide (key_of e = k)) l) <= 1)%nat.
Proof.
  induction l as [|e l IH]; simpl; intros Hn; [lia|]. apply NoDup_cons in Hn as [He Hn]. case_bool_decide as Hk; [|by apply IH]. simpl.
  rewrite filter_none; [simpl; lia|]. intros x Hx. apply bool_decide_eq_false. intros Hk'. apply He. rewrite Hk, <-Hk'. by apply list_elem_of_fmap_2.
Qed.

Lemma graph_keys_nodup now h : NoDup (key_of <$> Edges (run h (NewGraph now))).
Proof.
  pose proof (run_wf now h) as Hw. set (g := run h (NewGraph now)) in *. unfold Edges. pose proof (wf_order_nodup g Hw) as Hn.
  assert (Forall (fun id => is_Some (edges g !! id)) (edgeOrder g)) as Hall by (apply Forall_forall; intros id; apply (wf_order_dom g Hw)).
  induction (edgeOrder g) as [|id l IH]; [constructor|]. apply NoDup_cons in Hn as [Hid Hn]. apply Forall_cons in Hall as [[e He] Hall]. csimpl. rewrite He. csimpl.
  apply NoDup_cons. split; [|by apply IH]. intros (e' & Hk & Hin)%list_elem_of_fmap. apply list_elem_of_omap in Hin as (id' & Hin & He').
  apply (wf_edge_key g Hw) in He as [_ He]. apply (wf_edge_key g Hw) in He' as [_ He']. unfold key_of in Hk. injection Hk as K1 K2 K3.
  apply Hid. by rewrite He, K1, K2, K3, <-He'.
Qed.

Lemma graph_never_summarised c now t h ns : 2 <= MinEventsForSummary c -> SummariseEdges c t (Edges (run h (NewGraph now))) ns = [].
Proof.
  intros Hc. destruct (SummariseEdges _ _ _ _) as [|s l] eqn:E; [done|]. exfalso.
  destruct (summaries_exact c t (Edges (run h (NewGraph now))) ns s) as (k & _ & Hm & _); [rewrite E; by left|].
  pose proof (filter_key_one k (old_edges c t (Edges (run h (NewGraph now))))) as Hk. unfold old_edges in *.
  assert (NoDup (key_of <$> List.filter (fun e => negb (time_After (Edge.Timestamp e) (time_Add t (- SummaryAge c)))) (Edges (run h (NewGraph now))))) as Hn; [|specialize (Hk Hn); lia].
  pose proof (graph_keys_nodup now h) as Hg. revert Hg. generalize (Edges (run h (NewGraph now))). clear. intros l. induction l as [|e l IH]; simpl; intros Hn; [done|].
  apply NoDup_cons in Hn as [He Hn]. case_match; [|by apply IH]. csimpl. apply NoDup_cons. split; [|by apply IH].
  intros (x & Hx & Hin)%list_elem_of_fmap. apply He. rewrite Hx. apply list_elem_of_fmap_2. apply list_elem_of_In, filter_In in Hin as [Hin _]. by apply list_elem_of_In.
Qed.
End summaries.

(** ** The combined result *)

Definition Combine (r : ReductionMetrics) (l : list BehaviourSummary) : Z * Z :=
  (foldl (fun n s => n + TotalCalls s) (EdgesRemoved r) l, foldl (fun n s => n + TotalBytes s) 0 l + StorageSaved r).

(** ** Tiers *)

Record TieringConfig := mkTiering { WarmPath : string; ColdBucket : string; ColdPrefix : string; HotRetention : duration; WarmRetention : duration; t_DryRun : bool }.
Definition DefaultTieringConfig : TieringConfig :=
  mkTiering "/var/lib/providapt/warm" "providapt-archive" "provenance/" (7 * 24 * 60 * Minute) (90 * 24 * 60 * Minute) true.
Record ColdIndexEntry := mkCold { Bucket : string; Key : string; EntityID : string; Count : Z; c_TimeStart : string; c_TimeEnd : string; StorageSize : Z }.

(** The warm directory: the contents and the time of the last change of each file. *)
Abbreviation warm := (gmap string (string * time)).
Record TieringManager := mkTier { t_cfg : TieringConfig; index : gmap string ColdIndexEntry }.

Section tiers.
Context (marshal : BehaviourSummary -> string).

Definition warm_name (now : time) (s : BehaviourSummary) : string :=
  "summary_" +:+ ProcessComm s +:+ "_" +:+ Operation s +:+ "_" +:+ pretty ((now - unix_epoch) / Second) +:+ ".json".

(** [t 0] is the clock at the start, [t (S i)] at the name of the [i]-th summary; [err]: the
    error of writing a file, if any.  The number archived, and the error. *)
Fixpoint archive_loop (t : nat -> time) (err : string -> option string) (cutoff : time) (l : list BehaviourSummary) (n : Z) (tm : TieringManager) (fs : warm)
  : TieringManager * warm * Z * option string :=
  match l with
  | [] => (tm, fs, n, None)
  | s :: l =>
      let t' := fun i => t (S i) in
      match time_Parse (TimeEnd s) with
      | None => archive_loop t' err cutoff l n tm fs
      | Some u =>
          if time_After u cutoff then archive_loop t' err cutoff l n tm fs
          else if t_DryRun (t_cfg tm) then archive_loop t' err cutoff l (n + 1) tm fs
          else
            let name := warm_name (t 0%nat) s in
            match err name with
            | Some e => (tm, fs, n, Some e)
            | None =>
                let e := mkCold (ColdBucket (t_cfg tm)) (ColdPrefix (t_cfg tm) +:+ name) (ProcessID s) (TotalCalls s) (TimeStart s) (TimeEnd s) (TotalBytes s) in
                archive_loop t' err cutoff l (n + 1) (mkTier (t_cfg tm) (<[ProcessID s +:+ "|" +:+ TimeStart s := e]> (index tm)))
                  (<[name := (marshal s, t 0%nat)]> fs)
            end
      end
  end.
Definition ArchiveHotToWarm (t : nat -> time) (err : string -> option string) (l : list BehaviourSummary) (tm : TieringManager) (fs : warm) :=
  archive_loop (fun i => t (S i)) err (time_Add (t 0%nat) (- HotRetention (t_cfg tm))) l 0 tm fs.

(** Files of the warm directory, in the order of their names; nothing is sent anywhere.
    [rm]: a file can be removed. *)
Definition cold_step (rm : string -> bool) (cutoff : time) (st : TieringManager * warm * Z) (x : string * (string * time)) : TieringManager * warm * Z :=
  let '(tm, fs, n) := st in
  if time_After x.2.2 cutoff then st
  else if t_DryRun (t_cfg tm) then (tm, fs, n + 1)
  else
    let key := ColdPrefix (t_cfg tm) +:+ x.1 in
    (mkTier (t_cfg tm) (<[key := mkCold (ColdBucket (t_cfg tm)) key x.1 0 "" "" 0]> (index tm)), if rm x.1 then delete x.1 fs else fs, n + 1).
Definition ArchiveWarmToCold (now : time) (rm : string -> bool) (sort : list (string * (string * time)) -> list (string * (string * time))) (tm : TieringManager) (fs : warm)
  : TieringManager * warm * Z :=
  foldl (cold_step rm (time_Add now (- WarmRetention (t_cfg tm)))) (tm, fs, 0) (sort (map_to_list fs)).

Definition LookupCold (id : string) (tm : TieringManager) : list ColdIndexEntry :=
  List.filter (fun e => Contains (EntityID e) id) (map_to_list (index tm)).*2.

(** A dry run of both steps changes nothing. *)
Lemma dry_tiers_safe t err l n cutoff tm fs : t_DryRun (t_cfg tm) = true ->
  (archive_loop t err cutoff l n tm fs).1.1.1 = tm /\ (archive_loop t err cutoff l n tm fs).1.1.2 = fs.
Proof.
  intros Hd. revert t n. induction l as [|s l IH]; intros t n; simpl; [done|]. destruct (time_Parse (TimeEnd s)) as [u|]; [|apply IH].
  destruct (time_After u cutoff); [apply IH|]. rewrite Hd. apply IH.
Qed.

(** The files that are kept: the recent ones. *)
Lemma cold_removes now rm sort tm fs : t_DryRun (t_cfg tm) = false -> (forall p, rm p = true) -> (forall l, sort l ≡ₚ l) ->
  (ArchiveWarmToCold now rm sort tm fs).1.2 = filter (fun x => time_After x.2.2 (time_Add now (- WarmRetention (t_cfg tm))) = true) fs.
Proof.
  intros Hd Hrm Hs. unfold ArchiveWarmToCold. set (cutoff := time_Add _ _).
  assert (forall l tm fs n, t_DryRun (t_cfg tm) = false -> forall p, (foldl (cold_step rm cutoff) (tm, fs, n) l).1.2 !! p
    = if existsb (fun x => String.eqb x.1 p && negb (time_After x.2.2 cutoff)) l then None else fs !! p) as G.
  { clear -Hrm. clearbody cutoff. induction l as [|[q [d u]] l IH]; intros tm' fs' n Hd p; [done|]. simpl. destruct (time_After u cutoff) eqn:Eu; [rewrite andb_false_r; by apply IH|].
    rewrite Hd, Hrm, andb_true_r, IH by done. destruct (String.eqb_spec q p) as [->|Hne]; [simpl; rewrite lookup_delete_eq; by case_match|]. simpl. by rewrite lookup_delete_ne. }
  apply map_eq. intros p. rewrite G by done. rewrite map_lookup_filter. destruct (fs !! p) as [[d u]|] eqn:Ef; simpl; [|by case_match].
  destruct (time_After u cutoff) eqn:Eu.
  - rewrite option_guard_True by done. destruct (existsb _ _) eqn:Ex; [|done]. exfalso. apply existsb_exists in Ex as ([q [d' u']] & Hin & Hq).
    simpl in Hq. apply andb_true_iff in Hq as [Hq%String.eqb_eq Hu]. subst q. apply list_elem_of_In in Hin. rewrite Hs in Hin. apply elem_of_map_to_list in Hin. simplify_eq/=. by rewrite Eu in Hu.
  - rewrite option_guard_False by done. destruct (existsb _ _) eqn:Ex; [done|]. exfalso. apply not_true_iff_false in Ex. apply Ex, existsb_exists.
    exists (p, (d, u)). split; [apply list_elem_of_In; rewrite Hs; by apply elem_of_map_to_list|]. simpl. by rewrite String.eqb_refl, Eu.
Qed.

(** Two summaries of one program and operation in the same second share a file: the first
    is lost. *)
Lemma warm_name_clash now now' s s' : ProcessComm s = ProcessComm s' -> Operation s = Operation s' -> (now - unix_epoch) / Second = (now' - unix_epoch) / Second ->
  warm_name now s = warm_name now' s'.
Proof. intros E1 E2 E3. unfold warm_name. by rewrite E1, E2, E3. Qed.
End tiers.
