(* ===== verification/Heal.v ===== *)
(** * Impact assessment and rollback ([internal/policy/heal]).

    The search for what a process touched ([assess.go]), the rollback ([rollback.go]) and
    the firewall ([firewall.go]), on the graph of [ProvGraph].  Outcomes of commands are
    arguments: [None] is success. *)
From stdpp Require Import sorting.
From Stdlib Require Import Sorted Ascii.
From S2P Require Import Prelude GoStrings GoText GoScan Events ProvGraph ProvInv ProvVersions.
#[local] Open Scope Z_scope.

(** ** The report *)

Record ProcessNode := mkProcess { pn_PID : Z; pn_NodeID : string; pn_Comm : string; pn_Depth : Z }.
Record FileNode := mkFile { fn_Path : string; fn_NodeID : string; fn_Action : string }.
Record NetworkNode := mkNet { nn_Address : string; nn_NodeID : string; nn_Action : string }.
Record ImpactReport := mkReport {
  MaliciousPID : Z; MaliciousNode : string; MaliciousComm : string; ChildProcesses : list ProcessNode; FilesWritten : list FileNode;
  FilesRead : list FileNode; C2Addresses : list NetworkNode; CredChanges : list string; MaxDepth : Z; Truncated : bool;
}.
Definition TotalImpacted (r : ImpactReport) : nat :=
  (length (ChildProcesses r) + length (FilesWritten r) + length (FilesRead r) + length (C2Addresses r))%nat.

(** The PID, zero when the identifier has none. *)
Definition parsePID (id : string) : Z := if HasPrefix id "p:" then default 0 (Sscanf_prefix_uint32 "p:" id) else 0.
Definition safeLabel (n : Node.t) : string := if String.eqb (Node.Label n) "" then Node.ID n else Node.Label n.
Definition classifyFileAction (rel : string) : string :=
  if String.eqb rel "prov:wasGeneratedBy" then "written" else if String.eqb rel "prov:used" then "read" else "affected".

Definition set_lists (c : list ProcessNode) (f : list FileNode) (n : list NetworkNode) (cr : list string) (t : bool) (r : ImpactReport) : ImpactReport :=
  mkReport (MaliciousPID r) (MaliciousNode r) (MaliciousComm r) c f (FilesRead r) n cr (MaxDepth r) t.

Definition is_process (g : Graph) (id : string) : bool := match nodes g !! id with Some n => String.eqb (Node.Subtype n) "process" | None => false end.

(** The report and the queue after a node was discovered. *)
Definition discoverNode (g : Graph) (id relation : string) (depth : Z) (r : ImpactReport) : ImpactReport :=
  match nodes g !! id with
  | None => r
  | Some n =>
      let '(c, f, a, cr) := (ChildProcesses r, FilesWritten r, C2Addresses r, CredChanges r) in
      if String.eqb (Node.Subtype n) "process" then set_lists (c ++ [mkProcess (parsePID id) id (safeLabel n) depth]) f a cr (Truncated r) r
      else if String.eqb (Node.Subtype n) "file" then set_lists c (f ++ [mkFile (safeLabel n) id (classifyFileAction relation)]) a cr (Truncated r) r
      else if String.eqb (Node.Subtype n) "network" then set_lists c f (a ++ [mkNet (safeLabel n) id "connect"]) cr (Truncated r) r
      else if String.eqb (Node.Subtype n) "credential" then set_lists c f a (cr ++ [safeLabel n]) (Truncated r) r
      else r
  end.

(** ** The search *)

(** Neighbours with the relation that leads to them: along the edges, then against them. *)
Definition neighbours (g : Graph) (id : string) : list (string * string) :=
  omap (fun e => if String.eqb (Edge.Source e) id then Some (Edge.Target e, Edge.Relation e) else None) (Edges g) ++
  omap (fun e => if String.eqb (Edge.Target e) id then Some (Edge.Source e, Edge.Relation e) else None) (Edges g).

Record search := mkSearch { visited : gset string; queue : list (string * Z); report : ImpactReport }.

Definition visit (g : Graph) (depth : Z) (s : search) (x : string * string) : search :=
  if bool_decide (x.1 ∈ visited s) then s
  else mkSearch ({[x.1]} ∪ visited s) (if is_process g x.1 then queue s ++ [(x.1, depth)] else queue s) (discoverNode g x.1 x.2 depth (report s)).

Fixpoint impact_loop (fuel : nat) (g : Graph) (maxDepth : Z) (s : search) : option search :=
  match queue s with
  | [] => Some s
  | (id, d) :: q =>
      match fuel with
      | O => None
      | S fuel =>
          if maxDepth <=? d
          then impact_loop fuel g maxDepth (mkSearch (visited s) q
                 (set_lists (ChildProcesses (report s)) (FilesWritten (report s)) (C2Addresses (report s)) (CredChanges (report s)) true (report s)))
          else impact_loop fuel g maxDepth (foldl (visit g (d + 1)) (mkSearch (visited s) q (report s)) (neighbours g id))
      end
  end.

(** The fuel allows for every node of the graph once. *)
Definition AssessImpact (g : Graph) (start : string) (maxDepth : Z) : option ImpactReport :=
  let maxDepth := if maxDepth <=? 0 then 5 else maxDepth in
  let r := mkReport (parsePID start) start (match nodes g !! start with Some n => Node.Label n | None => "" end) [] [] [] [] [] maxDepth false in
  report <$> impact_loop (S (size (nodes g))) g maxDepth (mkSearch {[start]} [(start, 0)] r).

(** ** What the search finds *)

Section impact.
Context (g : Graph) (start : string) (maxDepth : Z).

(** Nodes at a distance: a step follows an edge in either direction, from the start or a
    process. *)
Inductive reach : Z -> string -> Prop :=
| reach_start : reach 0 start
| reach_step k u w rel : reach k u -> k < maxDepth -> u = start \/ is_process g u = true -> (w, rel) ∈ neighbours g u -> reach (k + 1) w.

(** A discovery: the node, its depth and the relation that led to it. *)
Abbreviation discovery := (string * Z * string)%type.

Definition subtype_is (t : string) (id : string) : option Node.t := n ← nodes g !! id; if String.eqb (Node.Subtype n) t then Some n else None.
Definition proc_of (x : discovery) : option ProcessNode := n ← subtype_is "process" x.1.1; Some (mkProcess (parsePID x.1.1) x.1.1 (safeLabel n) x.1.2).
Definition file_of (x : discovery) : option FileNode := n ← subtype_is "file" x.1.1; Some (mkFile (safeLabel n) x.1.1 (classifyFileAction x.2)).
Definition net_of (x : discovery) : option NetworkNode := n ← subtype_is "network" x.1.1; Some (mkNet (safeLabel n) x.1.1 "connect").

Definition reports (found : list discovery) (r : ImpactReport) : Prop :=
  ChildProcesses r = omap proc_of found /\ FilesWritten r = omap file_of found /\ C2Addresses r = omap net_of found /\ FilesRead r = [].

Lemma discover_reports found r id d rel : reports found r -> reports (found ++ [(id, d, rel)]) (discoverNode g id rel d r).
Proof.
  intros (Hc & Hf & Hn & Hr). unfold reports, discoverNode. rewrite !omap_app.
  assert (forall A (f : discovery -> option A), omap f [(id, d, rel)] = option_list (f (id, d, rel))) as E by (intros A f; csimpl; by destruct (f _)).
  rewrite !E, <-Hc, <-Hf, <-Hn. unfold proc_of, file_of, net_of, subtype_is. simpl. destruct (nodes g !! id) as [n|]; simpl; [|by rewrite !app_nil_r].
  destruct (String.eqb_spec (Node.Subtype n) "process") as [->|]; simpl; [by rewrite !app_nil_r|].
  destruct (String.eqb_spec (Node.Subtype n) "file") as [->|]; simpl; [by rewrite !app_nil_r|].
  destruct (String.eqb_spec (Node.Subtype n) "network") as [E1|]; simpl; [rewrite ?E1; simpl; by rewrite ?app_nil_r|].
  rewrite !app_nil_r. by destruct (String.eqb _ "credential").
Qed.

Definition ids (found : list discovery) : list string := (fun x => x.1.1) <$> found.
Lemma ids_app l k : ids (l ++ k) = ids l ++ ids k.
Proof. apply fmap_app. Qed.
Definition marked (found : list discovery) (id : string) (d : Z) : Prop := (id = start /\ d = 0) \/ exists rel, (id, d, rel) ∈ found.
Definition queued (d : Z) (new : list discovery) : list (string * Z) := (fun id => (id, d)) <$> List.filter (is_process g) (ids new).

(** The discoveries of one list of neighbours. *)
Record grown (d : Z) (l : list (string * string)) (found : list discovery) (s : search) (new : list discovery) (s' : search) : Prop := {
  gr_vis : visited s' = list_to_set (ids new) ∪ visited s;
  gr_queue : queue s' = queue s ++ queued d new;
  gr_report : reports found (report s) -> reports (found ++ new) (report s');
  gr_fresh : forall x, x ∈ new -> (x.1.1 ∉ visited s) /\ x.1.2 = d /\ ((x.1.1, x.2) ∈ l);
  gr_nodup : NoDup (ids new);
  gr_all : forall x, x ∈ l -> x.1 ∈ visited s';
}.

Lemma grow d l found s : exists new, grown d l found s new (foldl (visit g d) s l).
Proof.
  induction l as [|[w rel] l IH] using rev_ind.
  { exists []. split; simpl; try set_solver; [by rewrite app_nil_r|by rewrite app_nil_r|constructor]. }
  destruct IH as (new & [Hv Hq Hr Hf Hn Ha]). rewrite foldl_app. simpl. set (s1 := foldl (visit g d) s l) in *. unfold visit. simpl.
  case_bool_decide as Hw.
  - exists new. split; try done; [|intros x [Hx|Hx%list_elem_of_singleton]%elem_of_app; [by apply Ha|by subst]].
    intros x Hx. destruct (Hf x Hx) as (? & ? & ?). split_and!; [done|done|set_solver].
  - exists (new ++ [(w, d, rel)]). split; cbn [visited queue report].
    + rewrite Hv, ids_app, list_to_set_app_L. simpl. set_solver.
    + unfold queued. rewrite ids_app, List.filter_app, fmap_app. simpl. rewrite Hq. unfold queued. destruct (is_process g w); simpl; by rewrite ?app_nil_r, <-?(assoc_L (++)).
    + intros H. rewrite (assoc_L (++)). apply discover_reports. by apply Hr.
    + intros x [Hx|Hx]%elem_of_app; [destruct (Hf x Hx) as (? & ? & ?); split_and!; [done|done|set_solver]|].
      apply list_elem_of_singleton in Hx as ->. simpl. split_and!; [set_solver|done|set_solver].
    + rewrite ids_app. apply NoDup_app. split_and!; [done| |apply NoDup_singleton]. intros i Hi Hs. set_solver.
    + intros x [Hx|Hx]%elem_of_app; [specialize (Ha x Hx); set_solver|set_solver].
Qed.

Record inv (found : list discovery) (s : search) : Prop := {
  i_vis : visited s = {[start]} ∪ list_to_set (ids found);
  i_nodup : NoDup (start :: ids found);
  i_sound : forall id d, marked found id d -> reach d id;
  i_queue : forall x, x ∈ queue s -> marked found x.1 x.2 /\ (x.1 = start \/ is_process g x.1 = true);
  i_sorted : StronglySorted Z.le (queue s).*2;
  i_head : forall x q, queue s = x :: q -> forall id d, marked found id d -> d <= x.2 + 1;
  i_closed : forall id d, marked found id d -> id = start \/ is_process g id = true -> d < maxDepth -> (id, d) ∉ queue s ->
    forall w rel, (w, rel) ∈ neighbours g id -> exists d', marked found w d' /\ d' <= d + 1;
  i_report : reports found (report s);
}.

Lemma marked_app found new id d : marked (found ++ new) id d <-> marked found id d \/ exists rel, (id, d, rel) ∈ new.
Proof. unfold marked. setoid_rewrite elem_of_app. naive_solver. Qed.

Lemma queued_elem d new x : x ∈ queued d new <-> x.2 = d /\ x.1 ∈ ids new /\ is_process g x.1 = true.
Proof.
  unfold queued. rewrite list_elem_of_fmap. split.
  - intros (id & -> & Hin). apply list_elem_of_In, filter_In in Hin as [Hin ?]. by rewrite <-list_elem_of_In in Hin.
  - destruct x as [id d']. simpl. intros (-> & Hin & Hp). exists id. split; [done|]. apply list_elem_of_In, filter_In. by rewrite <-list_elem_of_In.
Qed.

Lemma reach_nonneg k id : reach k id -> 0 <= k.
Proof. induction 1; lia. Qed.

Lemma impact_inv_start r : reports [] r -> inv [] (mkSearch {[start]} [(start, 0)] r).
Proof.
  intros Hr. split; simpl; try done; [set_solver|apply NoDup_singleton| | |repeat constructor| |].
  - intros id d [[-> ->]|[rel Hin]]; [constructor|by apply elem_of_nil in Hin].
  - intros x ->%list_elem_of_singleton. simpl. split; [by left|by left].
  - intros x q [= <- <-] id d [[-> ->]|[rel Hin]]; [simpl; lia|by apply elem_of_nil in Hin].
  - intros id d [[-> ->]|[rel Hin]] _ _ Hq; [set_solver|by apply elem_of_nil in Hin].
Qed.

Lemma sorted_tail (x : string * Z) q : StronglySorted Z.le ((x :: q).*2) -> StronglySorted Z.le q.*2 /\ forall y, y ∈ q -> x.2 <= y.2.
Proof.
  csimpl. intros H. apply StronglySorted_inv in H as [Hs Hf]. split; [done|]. intros y Hy. rewrite Forall_forall in Hf. apply Hf. by apply list_elem_of_fmap_2.
Qed.

Lemma inv_truncated found s id d q r : inv found s -> queue s = (id, d) :: q -> maxDepth <= d -> reports found r -> inv found (mkSearch (visited s) q r).
Proof.
  intros [Hv Hn Hs Hq Hso Hh Hc Hr] Eq Hd Hr'. rewrite Eq in *. destruct (sorted_tail _ _ Hso) as [Hso' Hle]. split; simpl; try done.
  - intros x Hx. apply Hq. by right.
  - intros x q' -> id' d' Hm. specialize (Hh _ _ eq_refl id' d' Hm). specialize (Hle x ltac:(by left)). simpl in *. lia.
  - intros id' d' Hm He Hlt Hnin. apply Hc; try done. intros [E|?]%elem_of_cons; [|done]. simplify_eq. lia.
Qed.

Lemma inv_expanded found s id d q new s' : inv found s -> queue s = (id, d) :: q -> d < maxDepth ->
  grown (d + 1) (neighbours g id) found (mkSearch (visited s) q (report s)) new s' -> inv (found ++ new) s'.
Proof.
  intros [Hv Hn Hs Hq Hso Hh Hc Hr] Eq Hd [Gv Gq Gr Gf Gn Ga]. simpl in *. destruct (Hq (id, d)) as [Hm He]; [rewrite Eq; by left|]. simpl in Hm, He.
  rewrite Eq in Hso. destruct (sorted_tail _ _ Hso) as [Hso' Hle]. pose proof (Hh _ _ Eq) as Hmax. simpl in Hle, Hmax.
  assert (forall w, w ∈ ids new -> w ∉ visited s) as Hfresh.
  { intros w (x & -> & Hx)%list_elem_of_fmap. by apply (Gf x). }
  split.
  - rewrite Gv, Hv, ids_app, list_to_set_app_L. set_solver.
  - rewrite ids_app. change (start :: ids found ++ ids new) with ((start :: ids found) ++ ids new). apply NoDup_app. split_and!; [done| |done].
    intros w Hw Hw'. apply Hfresh in Hw'. rewrite Hv in Hw'. set_solver.
  - intros w d' [Hm'|[rel Hin]]%marked_app; [by apply Hs|]. destruct (Gf _ Hin) as (_ & Ed & Hl). simpl in *. subst d'. eapply reach_step; [by apply Hs|done|exact He|exact Hl].
  - rewrite Gq. intros x [Hx|Hx]%elem_of_app.
    + destruct (Hq x) as [? ?]; [rewrite Eq; by right|]. split; [apply marked_app; by left|done].
    + apply queued_elem in Hx as (E & Hin & Hp). split; [|by right]. apply marked_app. right. apply list_elem_of_fmap in Hin as ([[w d'] rel] & Ew & Hin).
      destruct (Gf _ Hin) as (_ & Ed & _). simpl in *. exists rel. subst. by rewrite E.
  - rewrite Gq, fmap_app. apply StronglySorted_app. split_and!; [|done|].
    + intros a b Ha Hb. apply list_elem_of_fmap in Ha as (x & -> & Hx). apply list_elem_of_fmap in Hb as (y & -> & Hy).
      apply queued_elem in Hy as (-> & _). destruct (Hq x) as [Hmx _]; [rewrite Eq; by right|]. apply (Hmax _ _ Hmx).
    + assert (forall z, z ∈ (queued (d + 1) new).*2 -> z = d + 1) as Hz by (intros z (y & -> & (-> & _)%queued_elem)%list_elem_of_fmap; done).
      revert Hz. generalize ((queued (d + 1) new).*2). intros l. induction l as [|z l IHl]; intros Hz; constructor; [apply IHl; set_solver|].
      apply Forall_forall. intros y Hy. rewrite (Hz z), (Hz y) by set_solver. lia.
  - intros x q' Ex w d' Hm'. assert (d <= x.2) as Hx.
    { rewrite Gq in Ex. assert (x ∈ q ++ queued (d + 1) new) as Hx by (rewrite Ex; by left). apply elem_of_app in Hx as [Hx|Hx]; [by apply Hle|].
      apply queued_elem in Hx as (-> & _). lia. }
    apply marked_app in Hm' as [Hm'|[rel Hin]]; [specialize (Hmax _ _ Hm'); lia|]. destruct (Gf _ Hin) as (_ & Ed & _). simpl in Ed. lia.
  - intros w d' Hm' He' Hd' Hnin u rel Hu. rewrite Gq in Hnin. apply marked_app in Hm' as [Hm'|[rel' Hin]].
    + destruct (decide ((w, d') = (id, d))) as [[= -> ->]|Hne].
      * apply Ga in Hu. simpl in Hu. rewrite Gv, Hv in Hu.
        assert (u = start \/ u ∈ ids found \/ u ∈ ids new) as [->|[Hin|Hin]] by set_solver.
        -- exists 0. split; [apply marked_app; left; by left|]. pose proof (reach_nonneg _ _ (Hs _ _ Hm)). lia.
        -- apply list_elem_of_fmap in Hin as ([[u' du] ru] & -> & Hin). exists du. assert (marked found u' du) as Hmu by (right; by exists ru).
           split; [apply marked_app; by left|]. apply (Hmax _ _ Hmu).
        -- apply list_elem_of_fmap in Hin as ([[u' du] ru] & -> & Hin). destruct (Gf _ Hin) as (_ & Ed & _). simpl in *. exists (d + 1). subst du.
           split; [apply marked_app; right; by exists ru|lia].
      * edestruct (Hc w d' Hm' He' Hd') as (du & Hmu & Hdu); [rewrite Eq; intros [?|?]%elem_of_cons; [done|set_solver]|exact Hu|].
        exists du. split; [apply marked_app; by left|done].
    + exfalso. destruct (Gf _ Hin) as (Hf & Ed & _). simpl in *. subst d'. destruct He' as [->|Hp]; [rewrite Hv in Hf; set_solver|].
      apply Hnin, elem_of_app. right. apply queued_elem. split_and!; [done| |done]. apply list_elem_of_fmap. by exists (w, d + 1, rel').
  - by apply Gr.
Qed.

(** ** The search ends *)

Definition remaining (s : search) : nat := (length (queue s) + size (dom (nodes g) ∖ visited s))%nat.

Lemma grown_remaining d l found s new s' : grown d l found s new s' -> (remaining s' <= remaining s)%nat.
Proof.
  intros [Gv Gq _ Gf Gn _]. unfold remaining. rewrite Gq, length_app. unfold queued. rewrite length_fmap.
  set (L := List.filter (is_process g) (ids new)). set (A := dom (nodes g) ∖ visited s). set (B := dom (nodes g) ∖ visited s').
  assert (NoDup L) as HL by (apply NoDup_ListNoDup, List.NoDup_filter; by apply NoDup_ListNoDup).
  assert (list_to_set L ⊆ A ∖ B) as Hsub.
  { intros w Hw. apply elem_of_list_to_set, list_elem_of_In, filter_In in Hw as [Hw Hp]. apply list_elem_of_In in Hw.
    assert (w ∈ dom (nodes g)) as Hd by (unfold is_process in Hp; destruct (nodes g !! w) eqn:E; [by apply elem_of_dom_2 in E|done]).
    assert (w ∉ visited s) as Hv by (apply list_elem_of_fmap in Hw as (x & -> & Hx); by apply (Gf x)).
    unfold A, B. rewrite Gv. set_solver. }
  apply subseteq_size in Hsub. rewrite size_list_to_set in Hsub by done. rewrite (size_difference A B) in Hsub by (unfold A, B; rewrite Gv; set_solver).
  assert (size B <= size A)%nat by (apply subseteq_size; unfold A, B; rewrite Gv; set_solver). lia.
Qed.

Lemma impact_loop_spec fuel found s : inv found s -> (remaining s <= fuel)%nat ->
  exists found' s', impact_loop fuel g maxDepth s = Some s' /\ inv found' s' /\ queue s' = [].
Proof.
  revert found s. induction fuel as [|fuel IH]; intros found s Hi Hf; unfold impact_loop; fold impact_loop.
  { destruct (queue s) as [|x q] eqn:Eq; [by exists found, s|]. unfold remaining in Hf. rewrite Eq in Hf. simpl in Hf. lia. }
  destruct (queue s) as [|[id d] q] eqn:Eq; [by exists found, s|].
  assert (remaining (mkSearch (visited s) q (report s)) < remaining s)%nat as Hlt by (unfold remaining; rewrite Eq; simpl; lia).
  destruct (Z.leb_spec maxDepth d) as [Hd|Hd].
  - eapply IH; [eapply inv_truncated; [exact Hi|exact Eq|done|apply (i_report _ _ Hi)]|]. unfold remaining in *. simpl in *. lia.
  - destruct (grow (d + 1) (neighbours g id) found (mkSearch (visited s) q (report s))) as [new Hg].
    eapply IH; [by eapply inv_expanded|]. apply grown_remaining in Hg. lia.
Qed.

Lemma complete found s k id : inv found s -> queue s = [] -> reach k id -> exists d, marked found id d /\ d <= k.
Proof.
  intros Hi Hq. induction 1 as [|k u w rel Hu (d & Hm & Hd) Hk He Hw]; [exists 0; split; [by left|lia]|].
  edestruct (i_closed _ _ Hi u d Hm He) as (d' & Hm' & Hd'); [lia|rewrite Hq; by apply not_elem_of_nil|exact Hw|]. exists d'. split; [done|lia].
Qed.
End impact.

(** The entries a list of discoveries gives. *)
Lemma listed {A} (found : list (string * Z * string)) (f : string * Z * string -> option A) (key : A -> string) (P : string -> Prop) id :
  (forall x a, f x = Some a -> key a = x.1.1 /\ P x.1.1) -> (forall x, P x.1.1 -> is_Some (f x)) ->
  (exists a, a ∈ omap f found /\ key a = id) <-> P id /\ exists d rel, (id, d, rel) ∈ found.
Proof.
  intros H1 H2. split.
  - intros (a & ([[id' d] rel] & Hx & Ef)%list_elem_of_omap & <-). destruct (H1 _ _ Ef) as [-> HP]. split; [done|]. by exists d, rel.
  - intros (HP & d & rel & Hin). destruct (H2 (id, d, rel) HP) as [a Ha]. exists a. destruct (H1 _ _ Ha) as [? _]. split; [|done].
    apply list_elem_of_omap. by exists (id, d, rel).
Qed.

(** [C36] The assessment terminates and reports exactly what is within its depth: the
    processes, files and network ends listed are the nodes of these kinds, other than the
    start, that a chain of at most [maxDepth] edges joins to the start, in any direction
    and through processes only; a process is listed with its distance. *)
Theorem impact_exact g start maxDepth :
  exists r, AssessImpact g start maxDepth = Some r /\
    let D := if maxDepth <=? 0 then 5 else maxDepth in
    (forall id d, (exists p, p ∈ ChildProcesses r /\ pn_NodeID p = id /\ pn_Depth p = d) <->
       is_Some (subtype_is g "process" id) /\ id <> start /\ reach g start D d id /\ forall k, reach g start D k id -> d <= k) /\
    (forall id, (exists f, f ∈ FilesWritten r /\ fn_NodeID f = id) <-> is_Some (subtype_is g "file" id) /\ id <> start /\ exists k, reach g start D k id) /\
    (forall id, (exists a, a ∈ C2Addresses r /\ nn_NodeID a = id) <-> is_Some (subtype_is g "network" id) /\ id <> start /\ exists k, reach g start D k id).
Proof.
  unfold AssessImpact. set (D := if maxDepth <=? 0 then 5 else maxDepth). set (r0 := mkReport _ _ _ _ _ _ _ _ _ _).
  destruct (impact_loop_spec g start D (S (size (nodes g))) [] (mkSearch {[start]} [(start, 0)] r0)) as (found & s & E & Hi & Hq).
  { apply impact_inv_start. by unfold reports. }
  { unfold remaining. simpl. apply le_n_S. rewrite <-size_dom. apply subseteq_size. set_solver. }
  rewrite E. simpl. exists (report s). split; [done|]. destruct (i_report _ _ _ _ _ Hi) as (Hc & Hf & Hn & _). rewrite Hc, Hf, Hn.
  assert (forall x, x ∈ found -> x.1.1 <> start /\ reach g start D x.1.2 x.1.1) as Hfound.
  { intros [[id d] rel] Hx. split.
    - pose proof (i_nodup _ _ _ _ _ Hi) as [Hs _]%NoDup_cons. simpl. intros ->. apply Hs. apply list_elem_of_fmap. by exists (start, d, rel).
    - apply (i_sound _ _ _ _ _ Hi). right. by exists rel. }
  assert (forall k id, reach g start D k id -> id <> start -> exists d rel, (id, d, rel) ∈ found /\ d <= k) as Hcomp.
  { intros k id Hr Hne. destruct (complete _ _ _ _ _ _ _ Hi Hq Hr) as (d & [[-> _]|[rel Hin]] & Hd); [done|]. by exists d, rel. }
  assert (forall x y, x ∈ found -> y ∈ found -> x.1.1 = y.1.1 -> x = y) as Hinj.
  { pose proof (i_nodup _ _ _ _ _ Hi) as [_ Hnd]%NoDup_cons. intros x y Hx Hy Exy. apply list_elem_of_lookup in Hx as [i Hx]. apply list_elem_of_lookup in Hy as [j Hy].
    assert (i = j) as ->; [|by simplify_eq]. eapply NoDup_lookup; [exact Hnd| |]; unfold ids; rewrite list_lookup_fmap; [by rewrite Hx|rewrite Hy; simpl; by rewrite Exy]. }
  split_and!.
  - intros id d. split.
    + intros (p & Hp & <- & <-). apply list_elem_of_omap in Hp as (x & Hx & Ep). unfold proc_of in Ep. destruct (subtype_is g "process" x.1.1) as [n|] eqn:En; [|done].
      simplify_eq/=. rewrite En. destruct (Hfound x Hx) as [? ?]. split_and!; [done|done|done|]. intros k Hk. destruct (Hcomp k _ Hk) as (d & rel & Hin & Hd); [done|].
      pose proof (Hinj _ _ Hx Hin eq_refl) as Ex. rewrite Ex. simpl. done.
    + intros ([n Hs] & Hne & Hr & Hmin). destruct (Hcomp d id Hr Hne) as (d' & rel & Hin & Hd). destruct (Hfound _ Hin) as [_ Hr']. simpl in Hr'.
      assert (d' = d) as -> by (specialize (Hmin _ Hr'); lia). eexists. split; [apply list_elem_of_omap; exists (id, d, rel); split; [done|]; unfold proc_of; simpl; rewrite Hs; done|]. done.
  - intros id. rewrite (listed _ _ fn_NodeID (fun id => is_Some (subtype_is g "file" id))); [naive_solver| |].
    + intros x f Ef. unfold file_of in Ef. destruct (subtype_is _ _ _); simplify_eq/=. by split; [|eexists].
    + intros x [n Hs]. unfold file_of. rewrite Hs. by eexists.
  - intros id. rewrite (listed _ _ nn_NodeID (fun id => is_Some (subtype_is g "network" id))); [naive_solver| |].
    + intros x f Ef. unfold net_of in Ef. destruct (subtype_is _ _ _); simplify_eq/=. by split; [|eexists].
    + intros x [n Hs]. unfold net_of. rewrite Hs. by eexists.
Qed.

(** ** Rollback *)

Record RollbackConfig := mkRollback { DryRun : bool; KillProcesses : bool; QuarantineFiles : bool; UseSnapshots : bool; SnapshotCmd : string; SnapshotName : string }.
Definition DefaultRollbackConfig : RollbackConfig := mkRollback true true true false "auto" "".

(** The commands: killing a process, renaming a file, the presence of a program and its run. *)
Record commands := mkCommands { c_kill : Z -> option string; c_mv : string -> option string; c_exists : string -> bool; c_snapshot : list string -> option string }.

(** What was done: processes killed, files renamed, and snapshots; with the counters of the result. *)
Record RollbackResult := mkResult { killed : list Z; renamed : list (string * string); ProcessesKilled : Z; FilesQuarantined : Z; SnapshotsTriggered : Z; Errors : Z }.

Definition kill_one (v : commands) (dry : bool) (r : RollbackResult) (p : ProcessNode) : RollbackResult :=
  if pn_PID p =? 0 then r
  else if dry then mkResult (killed r) (renamed r) (ProcessesKilled r + 1) (FilesQuarantined r) (SnapshotsTriggered r) (Errors r)
  else match c_kill v (pn_PID p) with
       | Some _ => mkResult (killed r) (renamed r) (ProcessesKilled r) (FilesQuarantined r) (SnapshotsTriggered r) (Errors r + 1)
       | None => mkResult (killed r ++ [pn_PID p]) (renamed r) (ProcessesKilled r + 1) (FilesQuarantined r) (SnapshotsTriggered r) (Errors r)
       end.

Definition quarantine_one (v : commands) (dry : bool) (r : RollbackResult) (f : FileNode) : RollbackResult :=
  let path := fn_Path f in
  if String.eqb path "" || String.eqb path "?" then r
  else if dry then mkResult (killed r) (renamed r) (ProcessesKilled r) (FilesQuarantined r + 1) (SnapshotsTriggered r) (Errors r)
  else match c_mv v path with
       | Some _ => mkResult (killed r) (renamed r) (ProcessesKilled r) (FilesQuarantined r) (SnapshotsTriggered r) (Errors r + 1)
       | None => mkResult (killed r) (renamed r ++ [(path, path +:+ ".quarantine")]) (ProcessesKilled r) (FilesQuarantined r + 1) (SnapshotsTriggered r) (Errors r)
       end.

Definition triggerSnapshotRollback (v : commands) (c : RollbackConfig) : Z :=
  let cmd := if String.eqb (SnapshotCmd c) "auto"
             then if c_exists v "btrfs" then Some "btrfs" else if c_exists v "zfs" then Some "zfs" else None
             else Some (SnapshotCmd c) in
  let name := if String.eqb (SnapshotName c) "" then "providapt-pre-incident" else SnapshotName c in
  match cmd with
  | None => 0
  | Some cmd =>
      let args := if String.eqb cmd "btrfs" then Some ["btrfs"; "subvolume"; "snapshot"; "-r"; name; "/"]
                  else if String.eqb cmd "zfs" then Some ["zfs"; "rollback"; "-r"; name] else None in
      match args with
      | None => 0
      | Some args => if DryRun c then 1 else match c_snapshot v args with Some _ => 0 | None => 1 end
      end
  end.

Definition Rollback (v : commands) (rep : ImpactReport) (c : RollbackConfig) : RollbackResult :=
  let r := mkResult [] [] 0 0 0 0 in
  let r := if KillProcesses c then foldl (kill_one v (DryRun c)) r (ChildProcesses rep) else r in
  let r := if QuarantineFiles c then foldl (quarantine_one v (DryRun c)) r (FilesWritten rep) else r in
  if UseSnapshots c then mkResult (killed r) (renamed r) (ProcessesKilled r) (FilesQuarantined r) (triggerSnapshotRollback v c) (Errors r) else r.

Definition live_pids (v : commands) (l : list ProcessNode) : list Z :=
  List.filter (fun p => negb (p =? 0) && match c_kill v p with None => true | Some _ => false end) (pn_PID <$> l).
Definition movable (v : commands) (l : list FileNode) : list string :=
  List.filter (fun p => negb (String.eqb p "" || String.eqb p "?") && match c_mv v p with None => true | Some _ => false end) (fn_Path <$> l).

Lemma kill_all v l r : let r' := foldl (kill_one v false) r l in
  killed r' = killed r ++ live_pids v l /\ renamed r' = renamed r /\ ProcessesKilled r' - ProcessesKilled r = Z.of_nat (length (live_pids v l)) /\ FilesQuarantined r' = FilesQuarantined r.
Proof.
  revert r. induction l as [|p l IH]; intros r; simpl; [rewrite app_nil_r; split_and!; try done; simpl; lia|].
  destruct (IH (kill_one v false r p)) as (E1 & E2 & E3 & E4). rewrite E1, E2, E4. unfold kill_one, live_pids in *. csimpl.
  destruct (pn_PID p =? 0); simpl in *; [split_and!; done || lia|]. destruct (c_kill v (pn_PID p)); simpl in *; [split_and!; done || lia|].
  rewrite <-(assoc_L (++)). split_and!; try done. lia.
Qed.

Lemma quarantine_all v l r : let r' := foldl (quarantine_one v false) r l in
  renamed r' = renamed r ++ ((fun p => (p, p +:+ ".quarantine")) <$> movable v l) /\ killed r' = killed r /\
  FilesQuarantined r' - FilesQuarantined r = Z.of_nat (length (movable v l)) /\ ProcessesKilled r' = ProcessesKilled r.
Proof.
  revert r. induction l as [|p l IH]; intros r; simpl; [rewrite app_nil_r; split_and!; try done; simpl; lia|].
  destruct (IH (quarantine_one v false r p)) as (E1 & E2 & E3 & E4). rewrite E1, E2, E4. unfold quarantine_one, movable in *. csimpl.
  destruct (String.eqb (fn_Path p) "" || String.eqb (fn_Path p) "?"); simpl in *; [split_and!; done || lia|]. destruct (c_mv v (fn_Path p)); simpl in *; [split_and!; done || lia|].
  rewrite <-(assoc_L (++)). split_and!; try done. lia.
Qed.

(** Outside a dry run exactly the listed processes are killed and the listed files renamed,
    as far as the commands succeed, and the counters are their numbers. *)
Lemma rollback_exact v rep c : DryRun c = false -> KillProcesses c = true -> QuarantineFiles c = true ->
  let r := Rollback v rep c in
  killed r = live_pids v (ChildProcesses rep) /\ renamed r = (fun p => (p, p +:+ ".quarantine")) <$> movable v (FilesWritten rep) /\
  ProcessesKilled r = Z.of_nat (length (killed r)) /\ FilesQuarantined r = Z.of_nat (length (renamed r)).
Proof.
  intros Hd Hk Hq. unfold Rollback. rewrite Hd, Hk, Hq. set (r0 := mkResult [] [] 0 0 0 0).
  destruct (kill_all v (ChildProcesses rep) r0) as (K1 & K2 & K3 & K4). set (r1 := foldl _ r0 _) in *.
  destruct (quarantine_all v (FilesWritten rep) r1) as (Q1 & Q2 & Q3 & Q4). set (r2 := foldl _ r1 _) in *. simpl in *.
  rewrite K2 in Q1. rewrite K1 in Q2. simpl in Q1, Q2. destruct (UseSnapshots c); simpl; rewrite Q1, Q2, Q4, length_fmap; split_and!; done || lia.
Qed.

(** A dry run touches nothing. *)
Lemma rollback_dry v rep c : DryRun c = true -> killed (Rollback v rep c) = [] /\ renamed (Rollback v rep c) = [].
Proof.
  intros Hd. unfold Rollback. rewrite Hd. set (r0 := mkResult [] [] 0 0 0 0).
  assert (forall l r, killed (foldl (kill_one v true) r l) = killed r /\ renamed (foldl (kill_one v true) r l) = renamed r) as HK.
  { induction l as [|p l IH]; intros r; simpl; [done|]. destruct (IH (kill_one v true r p)) as [-> ->]. unfold kill_one. by destruct (pn_PID p =? 0). }
  assert (forall l r, killed (foldl (quarantine_one v true) r l) = killed r /\ renamed (foldl (quarantine_one v true) r l) = renamed r) as HQ.
  { induction l as [|p l IH]; intros r; simpl; [done|]. destruct (IH (quarantine_one v true r p)) as [-> ->]. unfold quarantine_one. by destruct (_ || _). }
  destruct (HK (ChildProcesses rep) r0) as [K1 K2]. destruct (HQ (FilesWritten rep) (if KillProcesses c then foldl (kill_one v true) r0 (ChildProcesses rep) else r0)) as [Q1 Q2].
  destruct (KillProcesses c), (QuarantineFiles c), (UseSnapshots c); simpl; rewrite ?Q1, ?Q2, ?K1, ?K2; done.
Qed.

(** ** The firewall *)

Definition extractIP (label : string) : string := if Contains label ":" then default "" (head (Split label ":"%char)) else label.

(** The counters of the result; [run]: the outcome of a command. *)
Record FirewallResult := mkFirewall { RulesAdded : Z; IPsBlocked : list string; fw_Errors : Z; Backend : string }.

Definition run_cmd (run : string -> option string) (dry : bool) (cmd : string) (errs : Z) : Z :=
  if dry then errs else match run cmd with Some _ => errs + 1 | None => errs end.

Definition iptables_one (run : string -> option string) (dry : bool) (r : FirewallResult) (a : NetworkNode) : FirewallResult :=
  let ip := extractIP (nn_Address a) in
  if String.eqb ip "" then r
  else
    let rules := ["iptables -A OUTPUT -d " +:+ ip +:+ " -j DROP"; "iptables -A INPUT -s " +:+ ip +:+ " -j DROP"; "iptables -A FORWARD -d " +:+ ip +:+ " -j DROP"] in
    mkFirewall (RulesAdded r + 3) (IPsBlocked r ++ [ip]) (foldl (fun e c => run_cmd run dry c e) (fw_Errors r) rules) (Backend r).

Definition nft_one (run : string -> option string) (dry : bool) (r : FirewallResult) (a : NetworkNode) : FirewallResult :=
  let ip := extractIP (nn_Address a) in
  if String.eqb ip "" then r
  else
    let errs := match run "nft list set ip filter providapt_c2" with
                | None => fw_Errors r
                | Some _ => run_cmd run dry "nft add rule ip filter OUTPUT drop ip daddr @providapt_c2"
                              (run_cmd run dry "nft add set ip filter providapt_c2 { type ipv4_addr; }" (fw_Errors r))
                end in
    mkFirewall (RulesAdded r + 1) (IPsBlocked r ++ [ip]) (run_cmd run dry ("nft add element ip filter providapt_c2 { " +:+ ip +:+ " }") errs) (Backend r).

Definition BlockC2IPs (v : commands) (run : string -> option string) (rep : ImpactReport) (dry : bool) : FirewallResult :=
  match C2Addresses rep with
  | [] => mkFirewall 0 [] 0 ""
  | l => if c_exists v "nft" then foldl (nft_one run dry) (mkFirewall 0 [] 0 "nftables") l
         else if c_exists v "iptables" then foldl (iptables_one run dry) (mkFirewall 0 [] 0 "iptables") l
         else mkFirewall 0 [] 1 ""
  end.

(** The addresses reported as blocked do not depend on the outcomes of the commands. *)
Lemma fold_same_ips (f f' : FirewallResult -> NetworkNode -> FirewallResult) l :
  (forall r r' a, IPsBlocked r = IPsBlocked r' -> IPsBlocked (f r a) = IPsBlocked (f' r' a)) ->
  forall r r', IPsBlocked r = IPsBlocked r' -> IPsBlocked (foldl f r l) = IPsBlocked (foldl f' r' l).
Proof. intros H. induction l as [|a l IH]; intros r r' E; [done|]. simpl. apply IH. by apply H. Qed.

Lemma blocked_regardless v run run' rep dry : IPsBlocked (BlockC2IPs v run rep dry) = IPsBlocked (BlockC2IPs v run' rep dry).
Proof.
  unfold BlockC2IPs. destruct (C2Addresses rep) as [|a l]; [done|]. destruct (c_exists v "nft"); [|destruct (c_exists v "iptables"); [|done]];
    (apply fold_same_ips; [|done]); intros r r' x E; unfold nft_one, iptables_one; (case_match; [done|]); simpl; by rewrite E.
Qed.

(** An address of version 6 is cut at its first colon. *)
Example ipv6_cut : extractIP "2001:db8::1" = "2001".
Proof. reflexivity. Qed.

(** ** Limits *)

(** The shell [10] forks [100], which reads the password file.  Assessing [100] lists its
    parent as a child process and the file it read as written: a rollback kills the
    parent and renames the password file. *)
Definition two_events : list ((Z -> Z) * Event) :=
  [(no_start, ev EventProcessFork 10 100 0 0 "bash" ""); (no_start, ev EventFileOpen 100 0 77 0 "cat" "/etc/passwd")].
Example rollback_hits_parent : exists r, AssessImpact (run two_events (NewGraph unix_epoch)) "p:100" 1 = Some r /\
  let out := Rollback (mkCommands (fun _ => None) (fun _ => None) (fun _ => false) (fun _ => None)) r (mkRollback false true true false "auto" "") in
  killed out = [10] /\ renamed out = [("/etc/passwd", "/etc/passwd.quarantine")].
Proof. eexists. split; [vm_compute; reflexivity|]. vm_compute. split; reflexivity. Qed.
