(* ===== verification/Incidents.v ===== *)
(** * Clustering of alerts into incidents ([internal/policy/incident/cluster.go], and the
    classes of [score.go]).

    Incidents are updated in place; the list holds their current values.  The risk score
    is a sum of float64 numbers in the order of the alerts. *)
From S2P Require Import Prelude GoStrings GoFloat.

Record AlertNode := mkAlert { a_ID : string; a_Type : string; a_PID : Z; Comm : string; Target : string; Score : float64; a_Timestamp : time }.
Record Incident := mkIncident {
  ID : string; AlertIDs : list string; Nodes : list string; TotalAlerts : Z; FirstSeen : time; LastSeen : time; RiskScore : float64; Resolved : bool;
}.
Record IncidentCluster := mkCluster { alerts : list AlertNode; incidents : list Incident; window : duration }.
Definition NewIncidentCluster : IncidentCluster := mkCluster [] [] (5 * Minute).

Definition isConnected (i : Incident) (a : AlertNode) : bool := existsb (fun n => Contains n (Comm a) || Contains n (Target a)) (Nodes i).

(** Each alert counts once for every occurrence of its identifier. *)
Definition recalculateScore (as_ : list AlertNode) (ids : list string) : float64 :=
  foldl (fun s a => foldl (fun s id => if String.eqb (a_ID a) id then f_add s (Score a) else s) s ids) (f_of_Z 0) as_.

Definition node_of (a : AlertNode) : string := a_Type a +:+ ":" +:+ Target a.

Definition join (as_ : list AlertNode) (now : time) (a : AlertNode) (i : Incident) : Incident :=
  let ids := AlertIDs i ++ [a_ID a] in
  mkIncident (ID i) ids (Nodes i ++ [node_of a]) (TotalAlerts i + 1) (FirstSeen i) now (recalculateScore as_ ids) (Resolved i).

(** The first open and recent incident the alert is connected to. *)
Definition takes (w : duration) (now : time) (a : AlertNode) (i : Incident) : bool :=
  negb (Resolved i) && negb (w <? time_Sub now (LastSeen i)) && isConnected i a.
Fixpoint join_first (as_ : list AlertNode) (w : duration) (now : time) (a : AlertNode) (l : list Incident) : option (list Incident) :=
  match l with
  | [] => None
  | i :: l => if takes w now a i then Some (join as_ now a i :: l) else (i ::.) <$> join_first as_ w now a l
  end.

Definition Ingest (now : time) (a : AlertNode) (ic : IncidentCluster) : IncidentCluster :=
  let as_ := alerts ic ++ [a] in
  match join_first as_ (window ic) now a (incidents ic) with
  | Some l => mkCluster as_ l (window ic)
  | None => mkCluster as_ (incidents ic ++ [mkIncident ("INC-" +:+ pretty (Z.of_nat (length (incidents ic)) + 1)) [a_ID a] [node_of a] 1 now now (Score a) false]) (window ic)
  end.

Definition resolve (i : Incident) : Incident := mkIncident (ID i) (AlertIDs i) (Nodes i) (TotalAlerts i) (FirstSeen i) (LastSeen i) (RiskScore i) true.
Fixpoint resolve_first (id : string) (l : list Incident) : list Incident :=
  match l with [] => [] | i :: l => if String.eqb (ID i) id then resolve i :: l else i :: resolve_first id l end.
Definition ResolveIncident (id : string) (ic : IncidentCluster) : IncidentCluster := mkCluster (alerts ic) (resolve_first id (incidents ic)) (window ic).

Definition ActiveIncidents (ic : IncidentCluster) : list Incident := List.filter (fun i => negb (Resolved i)) (incidents ic).

(** ** Every alert is in exactly one incident *)

Inductive op := OIngest (now : time) (a : AlertNode) | OResolve (id : string).
Definition step (ic : IncidentCluster) (o : op) : IncidentCluster :=
  match o with OIngest now a => Ingest now a ic | OResolve id => ResolveIncident id ic end.
Definition ingested (ops : list op) : list AlertNode := omap (fun o => match o with OIngest _ a => Some a | OResolve _ => None end) ops.

Record cluster_ok (ic : IncidentCluster) : Prop := {
  c_members : incidents ic ≫= AlertIDs ≡ₚ a_ID <$> alerts ic;
  c_counts : Forall (fun i => TotalAlerts i = Z.of_nat (length (AlertIDs i)) /\ length (Nodes i) = length (AlertIDs i)) (incidents ic);
  c_ids : forall k i, incidents ic !! k = Some i -> ID i = "INC-" +:+ pretty (Z.of_nat k + 1);
}.

Lemma join_first_spec as_ w now a l l' : join_first as_ w now a l = Some l' ->
  exists pre i post, l = pre ++ i :: post /\ l' = pre ++ join as_ now a i :: post /\ takes w now a i = true /\ Forall (fun j => takes w now a j = false) pre.
Proof.
  revert l'. induction l as [|i l IH]; intros l' H; simpl in H; [done|]. destruct (takes w now a i) eqn:E; simplify_eq/=.
  - exists [], i, l. split_and!; done.
  - destruct (join_first as_ w now a l) as [l1|] eqn:E1; [|done]. simplify_eq/=. destruct (IH l1 eq_refl) as (pre & j & post & -> & -> & Ht & Hp).
    exists (i :: pre), j, post. split_and!; try done. by constructor.
Qed.

Lemma ingest_ok now a ic : cluster_ok ic -> cluster_ok (Ingest now a ic).
Proof.
  intros [Hm Hc Hi]. unfold Ingest. destruct (join_first _ _ now a (incidents ic)) as [l|] eqn:E.
  - apply join_first_spec in E as (pre & i & post & El & -> & _). rewrite El in *. split; simpl.
    + rewrite fmap_app, <-Hm. rewrite !bind_app. csimpl. rewrite <-!(assoc_L (++)). f_equiv. f_equiv. apply Permutation_app_comm.
    + apply Forall_app in Hc as [Hpre Hpost]. apply Forall_cons in Hpost as [[H1 H2] Hpost]. apply Forall_app. split; [done|]. constructor; [|done].
      unfold join. simpl. rewrite !length_app, H2, H1. simpl. lia.
    + intros k j Hk. destruct (decide (k = length pre)) as [->|Hne].
      * rewrite list_lookup_middle in Hk by done. simplify_eq/=. apply (Hi (length pre) i). by apply list_lookup_middle.
      * apply (Hi k j). rewrite <-Hk. destruct (decide (k < length pre)%nat); [by rewrite !lookup_app_l by lia|].
        rewrite !lookup_app_r by lia. by destruct (k - length pre)%nat eqn:Ek; [lia|].
  - split; simpl.
    + rewrite fmap_app, bind_app. csimpl. by rewrite Hm.
    + apply Forall_app. split; [done|]. repeat constructor.
    + intros k j Hk. apply lookup_snoc_Some in Hk as [[_ Hk]|[-> <-]]; [by apply Hi|done].
Qed.

Lemma resolve_fields id l : (resolve_first id l ≫= AlertIDs) = (l ≫= AlertIDs) /\ ID <$> resolve_first id l = ID <$> l /\
  (forall P : Incident -> Prop, (forall i, P i -> P (resolve i)) -> Forall P l -> Forall P (resolve_first id l)).
Proof.
  induction l as [|i l (IH1 & IH2 & IH3)]; [done|]. csimpl. destruct (String.eqb (ID i) id); csimpl.
  - split_and!; try done. intros P HP [? ?]%Forall_cons. constructor; auto.
  - rewrite IH1, IH2. split_and!; try done. intros P HP [? ?]%Forall_cons. constructor; auto.
Qed.

(** Whatever is ingested and resolved: every alert belongs to exactly one incident, the
    counts are right, and the incidents are numbered from one. *)
Lemma clusters_partition ops : cluster_ok (foldl step NewIncidentCluster ops) /\ alerts (foldl step NewIncidentCluster ops) = ingested ops.
Proof.
  induction ops as [|o ops [Hok Ha]] using rev_ind; [by split|]. rewrite foldl_app. cbn [foldl]. unfold ingested in *. rewrite omap_app, <-Ha.
  destruct o as [now a|id]; csimpl.
  - split; [by apply ingest_ok|]. unfold Ingest. by destruct (join_first _ _ _ _ _).
  - destruct Hok as [Hm Hc Hi]. destruct (resolve_fields id (incidents (foldl step NewIncidentCluster ops))) as (R1 & R2 & R3). rewrite app_nil_r. split; [|done]. split; simpl.
    + by rewrite R1.
    + apply R3; [|done]. by intros i.
    + intros k i Hk. assert ((ID <$> resolve_first id (incidents (foldl step NewIncidentCluster ops))) !! k = Some (ID i)) as E by (by rewrite list_lookup_fmap, Hk).
      rewrite R2, list_lookup_fmap in E. destruct (incidents _ !! k) as [j|] eqn:Ej; [|done]. simplify_eq/=. rewrite <-E. by apply Hi.
Qed.

(** ** Classes *)

Record ScoreConfig := mkScore { MediumThreshold : float64; HighThreshold : float64; CriticalThreshold : float64 }.
Definition default_thresholds : ScoreConfig := mkScore (f_of_Z 30) (f_of_Z 70) (f_of_Z 120).
Definition Classify (c : ScoreConfig) (score : float64) : string :=
  if f_geb score (CriticalThreshold c) then "CRITICAL" else if f_geb score (HighThreshold c) then "HIGH" else if f_geb score (MediumThreshold c) then "MEDIUM" else "LOW".

(** ** Limits *)

Lemma contains_empty s : Contains s "" = true.
Proof. by destruct s. Qed.

(** An alert without a program name or a target joins the first open incident, whatever
    it is about. *)
Lemma nameless_joins_any i a w now : Comm a = "" \/ Target a = "" -> Nodes i <> [] -> Resolved i = false -> time_Sub now (LastSeen i) <= w -> takes w now a i = true.
Proof.
  intros Ha Hn Hr Hw. unfold takes, isConnected. rewrite Hr, (proj2 (Z.ltb_ge _ _)) by done. simpl. destruct (Nodes i) as [|n l]; [done|]. simpl.
  destruct Ha as [-> | ->]; by rewrite contains_empty, ?orb_true_r.
Qed.

(** An identifier that occurs twice counts four times in the score. *)
Example score_squares : let a := mkAlert "x" "exec" 1 "sh" "/bin/sh" (f_of_Z 20) 0 in
  let ic := Ingest 1 a (Ingest 0 a NewIncidentCluster) in RiskScore <$> incidents ic = [f_of_Z 80].
Proof. vm_compute. reflexivity. Qed.
