(* ===== verification/GoSort.v ===== *)
(** * Sorting: [sort.Slice]

    The standard library promises a sorted permutation and nothing about the order of
    equal elements; the class [SortSlice] says that much, and the definitions that sort
    are given for every such function. *)
From stdpp Require Export sorting.
From S2P Require Import Prelude.

#[global] Open Scope Z_scope.

(** [less] orders like a strict weak order: it is asymmetric, and "not less" is transitive. *)
Class StrictWeak {A} (less : A -> A -> bool) : Prop := {
  less_asym : forall x y, less x y = true -> less y x = false;
  less_trans : forall x y z, less y x = false -> less z y = false -> less z x = false;
}.

Class SortSlice := {
  sort_slice : forall {A : Type}, (A -> A -> bool) -> list A -> list A;
  sort_slice_perm : forall {A : Type} (less : A -> A -> bool) l, Permutation (sort_slice less l) l;
  sort_slice_sorted : forall {A : Type} (less : A -> A -> bool) l,
    StrictWeak less -> StronglySorted (fun x y => less y x = false) (sort_slice less l);
}.

(** A concrete instance: merge sort. *)
Definition merge_sort_slice : SortSlice.
Proof.
  refine {| sort_slice A less l := @merge_sort A (fun x y => less y x = false)
            (fun x y => bool_eq_dec (less y x) false) l |}.
  - intros A less l. apply merge_sort_Permutation.
  - intros A less l Hl. apply StronglySorted_merge_sort.
    + intros x y z. apply less_trans.
    + intros x y. destruct (less y x) eqn:E; [right|by left]. by apply less_asym.
Defined.

Lemma elem_of_sort_slice `{SortSlice} {A} (less : A -> A -> bool) l x : x ∈ sort_slice less l <-> x ∈ l.
Proof. by rewrite sort_slice_perm. Qed.

Lemma length_sort_slice `{SortSlice} {A} (less : A -> A -> bool) l : length (sort_slice less l) = length l.
Proof. apply Permutation_length, sort_slice_perm. Qed.

(** ** Lexicographic order on integer keys *)

Fixpoint zlex_ltb (l k : list Z) : bool :=
  match l, k with
  | x :: l, y :: k => (x <? y) || ((x =? y) && zlex_ltb l k)
  | [], _ :: _ => true
  | _, [] => false
  end.

Lemma zlex_asym l k : zlex_ltb l k = true -> zlex_ltb k l = false.
Proof.
  revert k. induction l as [|x l IH]; intros [|y k]; simpl; try done.
  destruct (Z.ltb_spec x y), (Z.ltb_spec y x), (Z.eqb_spec x y), (Z.eqb_spec y x); simpl; try lia; auto.
Qed.

Lemma zlex_trans l k m : zlex_ltb k l = false -> zlex_ltb m k = false -> zlex_ltb m l = false.
Proof.
  revert k m. induction l as [|x l IH]; intros [|y k] [|z m]; simpl; try done.
  destruct (Z.ltb_spec y x), (Z.ltb_spec z y), (Z.ltb_spec z x), (Z.eqb_spec y x), (Z.eqb_spec z y), (Z.eqb_spec z x);
    simpl; try done; try lia. apply IH.
Qed.

#[global] Instance zlex_key_strict {A} (key : A -> list Z) : StrictWeak (fun x y => zlex_ltb (key x) (key y)).
Proof. split; intros *; [apply zlex_asym|apply zlex_trans]. Qed.

(** ** [sort.SliceStable]: the stable order is unique, so insertion sort computes it *)

Fixpoint stable_insert {A} (less : A -> A -> bool) (x : A) (l : list A) : list A :=
  match l with
  | [] => [x]
  | y :: l' => if less y x then y :: stable_insert less x l' else x :: l
  end.

Definition stable_sort {A} (less : A -> A -> bool) (l : list A) : list A :=
  foldr (stable_insert less) [] l.

Lemma stable_insert_perm {A} (less : A -> A -> bool) x l : Permutation (stable_insert less x l) (x :: l).
Proof. induction l as [|y l IH]; simpl; [done|]. case_match; [|done]. rewrite IH. constructor. Qed.

Lemma stable_sort_perm {A} (less : A -> A -> bool) l : Permutation (stable_sort less l) l.
Proof. induction l as [|x l IH]; simpl; [done|]. by rewrite stable_insert_perm, IH. Qed.

Lemma stable_sort_sorted {A} (less : A -> A -> bool) `{!StrictWeak less} l :
  StronglySorted (fun x y => less y x = false) (stable_sort less l).
Proof.
  induction l as [|x l IH]; simpl; [constructor|].
  induction IH as [|y l' Hs IH Hy]; simpl; [by repeat constructor|].
  destruct (less y x) eqn:E.
  - constructor; [done|]. rewrite stable_insert_perm. constructor; [by apply less_asym|done].
  - constructor; [by constructor|]. constructor; [done|]. eapply Forall_impl; [exact Hy|]. intros z Hz.
    by eapply less_trans.
Qed.

Lemma sorted_lookup {A} (R : A -> A -> Prop) l i j x y :
  StronglySorted R l -> (i < j)%nat -> l !! i = Some x -> l !! j = Some y -> R x y.
Proof.
  intros Hs. revert i j. induction Hs as [|z l Hs IH Hz]; intros [|i] [|j]; simpl; try done; try lia.
  - intros _ [= ->] Hy. apply list_elem_of_lookup_2 in Hy. by eapply Forall_forall in Hz.
  - intros Hij. apply IH. lia.
Qed.
