(* ===== verification/GoHeap.v ===== *)
(** * Heaps: [container/heap]

    The functions of the standard library on a slice, for an order [less] and an action
    [place i x] that the user's [Swap] and [Push] perform on an element put at index [i].
    [Push] and [Pop] keep the heap order and the elements; the root is a minimum. *)
From S2P Require Import Prelude GoSort.

Section heap.
Context {A : Type} `{Inhabited A} (less : A -> A -> bool) (place : nat -> A -> A).

Definition swap (i j : nat) (l : list A) : list A :=
  <[j := place j (l !!! i)]> (<[i := place i (l !!! j)]> l).

Definition parent (j : nat) : nat := (j - 1) / 2.

(** The index strictly decreases, so [j + 1] iterations suffice. *)
Fixpoint up (fuel j : nat) (l : list A) : list A :=
  match fuel with
  | O => l
  | S fuel =>
      let i := parent j in
      if (i =? j)%nat || negb (less (l !!! j) (l !!! i)) then l
      else up fuel i (swap i j l)
  end.

(** The index strictly increases below [n], so [n] iterations suffice. *)
Fixpoint down (fuel i n : nat) (l : list A) : list A :=
  match fuel with
  | O => l
  | S fuel =>
      let j1 := (2 * i + 1)%nat in
      if (n <=? j1)%nat then l
      else
        let j2 := (j1 + 1)%nat in
        let j := if (j2 <? n)%nat && less (l !!! j2) (l !!! j1) then j2 else j1 in
        if negb (less (l !!! j) (l !!! i)) then l
        else down fuel j n (swap i j l)
  end.

(** [for i := n/2 - 1; i >= 0; i--]. *)
Definition heap_Init (l : list A) : list A :=
  let n := length l in
  foldl (fun l i => down n i n l) l (reverse (seq 0 (n / 2))).

Definition heap_Push (x : A) (l : list A) : list A :=
  let n := length l in up (S n) n (l ++ [place n x]).

(** The popped element is the one [Swap] put last; [None] on an empty heap, where Go
    panics. *)
Definition heap_Pop (l : list A) : option (A * list A) :=
  match length l with
  | O => None
  | S n =>
      let l := down n 0 n (swap 0 n l) in
      x ← l !! n;
      Some (x, take n l)
  end.

(** ** Correctness *)

Context `{!StrictWeak less}.
Context (Hplace1 : forall i x y, less (place i x) y = less x y).
Context (Hplace2 : forall i x y, less x (place i y) = less x y).

Definition hle (x y : A) : Prop := less y x = false.

Lemma hle_refl x : hle x x.
Proof using StrictWeak0. unfold hle. destruct (less x x) eqn:E; [|done]. by apply less_asym in E as E'; congruence. Qed.
Lemma hle_trans x y z : hle x y -> hle y z -> hle x z.
Proof using StrictWeak0. unfold hle. intros. by eapply less_trans. Qed.
Lemma less_hle x y : less x y = true -> hle x y.
Proof using StrictWeak0. apply less_asym. Qed.

(** The first [n] elements, except the edges above those in [P], are in heap order. *)
Definition ordered (n : nat) (P : nat -> Prop) (l : list A) : Prop :=
  forall k, (0 < k < n)%nat -> ~ P k -> hle (l !!! parent k) (l !!! k).

Definition is_heap (l : list A) : Prop := ordered (length l) (fun _ => False) l.

Lemma parent_lt k : (0 < k)%nat -> (parent k < k)%nat.
Proof. intros. unfold parent. apply Nat.Div0.div_lt_upper_bound; lia. Qed.

Lemma parent_children k : (0 < k)%nat -> k = (2 * parent k + 1)%nat \/ k = (2 * parent k + 2)%nat.
Proof.
  intros. unfold parent. pose proof (Nat.div_mod (k - 1) 2 ltac:(lia)).
  pose proof (Nat.mod_upper_bound (k - 1) 2 ltac:(lia)). lia.
Qed.

Lemma children_parent i k : k = (2 * i + 1)%nat \/ k = (2 * i + 2)%nat -> parent k = i.
Proof. intros Hk. assert (0 < k)%nat as H0 by lia. pose proof (parent_children k H0). lia. Qed.

Lemma length_swap i j l : length (swap i j l) = length l.
Proof. unfold swap. by rewrite !length_insert. Qed.

(** Elements after a swap. *)
Section swapped.
Context (i j : nat) (l : list A) (Hi : (i < length l)%nat) (Hj : (j < length l)%nat) (Hij : i <> j).

Lemma swap_l : swap i j l !!! i = place i (l !!! j).
Proof using Hi Hij. unfold swap. rewrite list_lookup_total_insert_ne by done. by apply list_lookup_total_insert_eq. Qed.
Lemma swap_r : swap i j l !!! j = place j (l !!! i).
Proof using Hj. unfold swap. apply list_lookup_total_insert_eq. by rewrite length_insert. Qed.
Lemma swap_ne k : k <> i -> k <> j -> swap i j l !!! k = l !!! k.
Proof. intros. unfold swap. by rewrite !list_lookup_total_insert_ne. Qed.
End swapped.

Lemma hle_place_l i x y : hle (place i x) y <-> hle x y.
Proof using Hplace2. unfold hle. by rewrite Hplace2. Qed.
Lemma hle_place_r i x y : hle x (place i y) <-> hle x y.
Proof using Hplace1. unfold hle. by rewrite Hplace1. Qed.

Lemma up_heap fuel j n l :
  (j < fuel)%nat -> (j < n <= length l)%nat -> ordered n (fun k => k = j) l ->
  (forall c, (0 < c < n)%nat -> parent c = j -> (0 < j)%nat -> hle (l !!! parent j) (l !!! c)) ->
  ordered n (fun _ => False) (up fuel j l).
Proof using All.
  revert j l. induction fuel as [|fuel IH]; intros j l Hf Hj Ho Hc; [lia|]. cbn [up].
  destruct (Nat.eqb_spec (parent j) j) as [E|E]; simpl.
  { assert (j = 0%nat) as -> by (destruct (decide (0 < j)%nat) as [?%parent_lt|]; lia).
    intros k Hk _. apply Ho; [done|lia]. }
  assert (0 < j)%nat as Hj0 by (destruct j; [done|lia]). pose proof (parent_lt j Hj0) as Hp.
  destruct (less (l !!! j) (l !!! parent j)) eqn:Hl; simpl.
  2: { intros k Hk _. destruct (decide (k = j)) as [->|]; [done|by apply Ho]. }
  apply less_hle in Hl. set (i := parent j) in *.
  assert (i < length l)%nat as Hi by lia. assert (j < length l)%nat as Hj' by lia. assert (i <> j) as Hij by lia.
  apply IH; [lia|rewrite length_swap; lia| |].
  - intros k Hk Hne. destruct (decide (k = j)) as [->|Hkj].
    { fold i. rewrite swap_l, swap_r, hle_place_l, hle_place_r by done. done. }
    rewrite (swap_ne i j l k) by done. destruct (decide (parent k = j)) as [Hpk|].
    { rewrite Hpk, swap_r, hle_place_l by done. by apply Hc. }
    destruct (decide (parent k = i)) as [Hpk'|].
    { rewrite Hpk', swap_l, hle_place_l by done. eapply hle_trans; [exact Hl|]. rewrite <-Hpk'. by apply Ho. }
    rewrite swap_ne by done. by apply Ho.
  - intros c Hcn Hpc Hi0. pose proof (parent_lt _ Hi0) as Hpi. rewrite (swap_ne i j l (parent i)) by lia.
    destruct (decide (c = j)) as [->|].
    { rewrite swap_r, hle_place_r by done. apply Ho; lia. }
    assert (c <> i) by (intros E'; rewrite E' in Hpc; lia). rewrite swap_ne by done.
    eapply hle_trans; [apply Ho; lia|]. rewrite <-Hpc. by apply Ho.
Qed.

Lemma down_heap fuel i n l :
  (n <= fuel + i)%nat -> (i < n)%nat -> (n <= length l)%nat -> ordered n (fun k => parent k = i) l ->
  (forall c, (0 < c < n)%nat -> parent c = i -> (0 < i)%nat -> hle (l !!! parent i) (l !!! c)) ->
  ordered n (fun _ => False) (down fuel i n l).
Proof using All.
  revert i l. induction fuel as [|fuel IH]; intros i l Hf Hi Hn Ho Hc; [lia|]. cbn [down].
  destruct (Nat.leb_spec n (2 * i + 1)) as [Hend|Hend].
  { intros k Hk _. apply Ho; [done|]. intros Hpk. pose proof (parent_children k ltac:(lia)). lia. }
  set (j := if (2 * i + 1 + 1 <? n)%nat && less (l !!! (2 * i + 1 + 1)%nat) (l !!! (2 * i + 1)%nat)
            then (2 * i + 1 + 1)%nat else (2 * i + 1)%nat).
  assert ((j = 2 * i + 1 \/ j = 2 * i + 2)%nat /\ (j < n)%nat /\
    (forall c, (0 < c < n)%nat -> parent c = i -> hle (l !!! j) (l !!! c))) as (Hj & Hjn & Hmin).
  { assert (forall c, (0 < c < n)%nat -> parent c = i -> c = (2 * i + 1)%nat \/ c = (2 * i + 1 + 1)%nat) as Hch.
    { intros c Hcn Hpc. pose proof (parent_children c ltac:(lia)). lia. }
    unfold j. destruct (Nat.ltb_spec (2 * i + 1 + 1) n) as [H2|H2]; cbn [andb].
    - destruct (less (l !!! (2 * i + 1 + 1)%nat) (l !!! (2 * i + 1)%nat)) eqn:Hl; (split; [lia|]; split; [lia|]);
        intros c Hcn Hpc; destruct (Hch c Hcn Hpc) as [-> | ->]; try apply hle_refl; [by apply less_hle|done].
    - split; [lia|]. split; [lia|]. intros c Hcn Hpc. destruct (Hch c Hcn Hpc) as [-> | ->]; [apply hle_refl|lia]. }
  clearbody j. pose proof (children_parent i j Hj) as Hpj.
  destruct (less (l !!! j) (l !!! i)) eqn:Hl; simpl.
  2: { intros k Hk _. destruct (decide (parent k = i)) as [Hpk|]; [|by apply Ho].
       rewrite Hpk. eapply hle_trans; [exact Hl|by apply Hmin]. }
  apply less_hle in Hl. assert (i < length l)%nat as Hi' by lia. assert (j < length l)%nat as Hj' by lia.
  assert (i <> j) as Hij by lia. apply IH; [lia|lia|rewrite length_swap; lia| |].
  - intros k Hk Hne. destruct (decide (k = i)) as [->|Hki].
    { pose proof (parent_lt i ltac:(lia)). rewrite swap_l, (swap_ne i j l (parent i)), hle_place_r by lia.
      apply Hc; lia. }
    destruct (decide (parent k = i)) as [Hpk|Hpk].
    { rewrite Hpk, swap_l, hle_place_l by done. destruct (decide (k = j)) as [->|].
      - rewrite swap_r, hle_place_r by done. done.
      - rewrite swap_ne by done. by apply Hmin. }
    rewrite (swap_ne i j l (parent k)) by done. destruct (decide (k = j)) as [->|]; [lia|].
    rewrite swap_ne by done. by apply Ho.
  - intros c Hcn Hpc _. pose proof (parent_lt c ltac:(lia)). rewrite Hpj, swap_l, hle_place_l by done.
    rewrite swap_ne by lia. rewrite <-Hpc. apply Ho; [done|lia].
Qed.

(** The root of a heap is a minimum. *)
Lemma heap_root n l : ordered n (fun _ => False) l -> forall k, (k < n)%nat -> hle (l !!! 0%nat) (l !!! k).
Proof using StrictWeak0.
  intros Ho k. induction (lt_wf k) as [k _ IH]. intros Hk. destruct (decide (k = 0%nat)) as [->|]; [apply hle_refl|].
  pose proof (parent_lt k ltac:(lia)). apply (hle_trans _ (l !!! parent k)); [apply IH; lia|]. apply Ho; [lia|tauto].
Qed.

(** ** Elements are kept *)

Context {B : Type} (erase : A -> B) (Herase : forall i x, erase (place i x) = erase x).

Lemma swap_perm i j l :
  (i < j < length l)%nat -> Permutation (erase <$> swap i j l) (erase <$> l).
Proof using Herase.
  intros [Hij Hj]. destruct (lookup_lt_is_Some_2 l i ltac:(lia)) as [a Ha].
  destruct (lookup_lt_is_Some_2 l j Hj) as [b Hb]. unfold swap.
  rewrite (list_lookup_total_correct _ _ _ Ha), (list_lookup_total_correct _ _ _ Hb).
  pose proof (take_drop_middle l i a Ha) as E1.
  rewrite <-E1 in Hb. rewrite lookup_app_r in Hb by (rewrite length_take; lia).
  rewrite length_take_le in Hb by lia. replace (j - i)%nat with (S (j - i - 1)) in Hb by lia. simpl in Hb.
  pose proof (take_drop_middle _ _ _ Hb) as E2. set (l1 := take i l) in *. set (r := drop (S i) l) in *.
  set (l2 := take (j - i - 1) r) in *. set (l3 := drop (S (j - i - 1)) r) in *.
  assert (length l1 = i) as L1 by (subst l1; rewrite length_take; lia).
  assert (length l2 = (j - i - 1)%nat) as L2.
  { apply lookup_lt_Some in Hb. subst l2. rewrite length_take. lia. }
  rewrite <-E1, <-E2. clearbody l1 l2 l3.
  replace i with (length l1 + 0)%nat at 1 by lia. rewrite insert_app_r. simpl.
  replace j with (length l1 + S (length l2 + 0))%nat by lia. rewrite insert_app_r. simpl.
  rewrite insert_app_r. simpl. rewrite !fmap_app, !fmap_cons, !fmap_app, !fmap_cons, !Herase.
  apply Permutation_app_head. rewrite <-!Permutation_middle. constructor.
Qed.

Lemma length_up fuel j l : length (up fuel j l) = length l.
Proof.
  revert j l. induction fuel as [|fuel IH]; intros j l; simpl; [done|]. case_match; [done|].
  by rewrite IH, length_swap.
Qed.

Lemma length_down fuel i n l : length (down fuel i n l) = length l.
Proof.
  revert i l. induction fuel as [|fuel IH]; intros i l; cbn [down]; [done|]. case_match; [done|].
  case_match; case_match; try done; by rewrite IH, length_swap.
Qed.

Lemma up_perm fuel j l : (j < length l)%nat -> Permutation (erase <$> up fuel j l) (erase <$> l).
Proof using Herase.
  revert j l. induction fuel as [|fuel IH]; intros j l Hj; simpl; [done|].
  destruct (Nat.eqb_spec (parent j) j) as [|Hne]; simpl; [done|]. destruct (negb _); [done|].
  assert (parent j < j)%nat by (apply parent_lt; destruct j; [done|lia]).
  rewrite IH by (rewrite length_swap; lia). apply swap_perm. lia.
Qed.

Lemma down_perm fuel i n l :
  (n <= length l)%nat -> Permutation (erase <$> down fuel i n l) (erase <$> l) /\
  forall k, (n <= k)%nat -> down fuel i n l !!! k = l !!! k.
Proof using Herase.
  revert i l. induction fuel as [|fuel IH]; intros i l Hn; cbn [down]; [done|].
  destruct (Nat.leb_spec n (2 * i + 1)); [done|].
  set (j := if _ && _ then (2 * i + 1 + 1)%nat else (2 * i + 1)%nat).
  assert (i < j < n)%nat as Hj.
  { subst j. destruct (Nat.ltb_spec (2 * i + 1 + 1) n); cbn [andb]; [destruct (less _ _)|]; lia. }
  clearbody j. destruct (negb _); [done|]. destruct (IH j (swap i j l)) as [IH1 IH2]; [rewrite length_swap; lia|].
  split.
  - rewrite IH1. apply swap_perm. lia.
  - intros k Hk. rewrite IH2 by done. apply swap_ne; lia.
Qed.

Lemma heap_Push_spec x l :
  is_heap l -> is_heap (heap_Push x l) /\ Permutation (erase <$> heap_Push x l) (erase x :: (erase <$> l)).
Proof using All.
  intros Hh. unfold heap_Push, is_heap. rewrite length_up, length_app. cbn [length]. split.
  - apply up_heap; [lia|rewrite length_app; simpl; lia| |].
    + intros k Hk Hne. pose proof (parent_lt k ltac:(lia)).
      rewrite !lookup_total_app_l by lia. apply Hh; [lia|tauto].
    + intros c Hc Hpc H0. pose proof (parent_lt c ltac:(lia)). lia.
  - rewrite up_perm by (rewrite length_app; simpl; lia). rewrite fmap_app. simpl. rewrite Herase.
    by rewrite Permutation_app_comm.
Qed.

Lemma heap_Pop_spec l :
  is_heap l -> l <> [] ->
  exists x l', heap_Pop l = Some (x, l') /\ is_heap l' /\ Permutation (erase <$> l) (erase x :: (erase <$> l')) /\
    forall y, y ∈ l -> hle x y.
Proof using All.
  intros Hh Hne. unfold heap_Pop. destruct (length l) as [|n] eqn:Hlen; [by apply nil_length_inv in Hlen|].
  set (l1 := down n 0 n (swap 0 n l)).
  assert (length l1 = S n) as L1 by (subst l1; by rewrite length_down, length_swap).
  destruct (lookup_lt_is_Some_2 l1 n ltac:(lia)) as [x Hx]. rewrite Hx. simpl. exists x, (take n l1).
  destruct (down_perm n 0 n (swap 0 n l)) as [P1 P2]; [rewrite length_swap; lia|]. fold l1 in P1, P2.
  assert (erase <$> l1 = (erase <$> take n l1) ++ [erase x]) as Happ.
  { rewrite <-(take_drop n l1) at 1. rewrite (drop_S _ x n Hx), drop_ge by lia. by rewrite fmap_app. }
  assert (Permutation (erase <$> swap 0 n l) (erase <$> l)) as P3.
  { destruct n as [|n]; [|apply swap_perm; lia]. destruct l as [|a [|b l]]; simplify_eq/=.
    unfold swap. simpl. by rewrite !Herase. }
  split_and!; [done| | |].
  - unfold is_heap. rewrite length_take, L1. replace (n `min` S n)%nat with n by lia.
    destruct (decide (n = 0%nat)) as [->|Hn0]; [intros k Hk; lia|].
    assert (ordered n (fun _ => False) l1) as Hord.
    { apply down_heap; [lia|lia|rewrite length_swap; lia| |lia]. intros k Hk Hp.
      pose proof (parent_lt k ltac:(lia)). rewrite !swap_ne by lia. apply Hh; [lia|tauto]. }
    intros k Hk Hf. pose proof (parent_lt k ltac:(lia)). rewrite !lookup_total_take, !decide_True by lia. by apply Hord.
  - rewrite <-P3, <-P1, Happ. by rewrite Permutation_app_comm.
  - assert (hle x (l !!! 0%nat) /\ hle (l !!! 0%nat) x) as [Hx1 _].
    { pose proof (P2 n ltac:(lia)) as E. rewrite (list_lookup_total_correct _ _ _ Hx) in E.
      destruct (decide (n = 0%nat)) as [->|Hn].
      - subst x. unfold swap. rewrite list_lookup_total_insert_eq by (rewrite length_insert; lia).
        rewrite hle_place_l, hle_place_r. split; apply hle_refl.
      - subst x. rewrite swap_r by lia. rewrite hle_place_l, hle_place_r. split; apply hle_refl. }
    intros y [k Hk]%list_elem_of_lookup. apply (hle_trans _ (l !!! 0%nat)); [done|].
    rewrite <-(list_lookup_total_correct _ _ _ Hk). apply (heap_root (length l)); [exact Hh|].
    by eapply lookup_lt_Some.
Qed.
End heap.

(** ** Orders that agree on the elements present *)

Section agree.
Context {A : Type} `{Inhabited A} (less less' : A -> A -> bool) (place : nat -> A -> A) (P : A -> Prop).
Context (Hless : forall x y, P x -> P y -> less x y = less' x y).
Context (Hinh : P inhabitant) (HP : forall i x, P x -> P (place i x)).

Lemma total_P (l : list A) k : Forall P l -> P (l !!! k).
Proof using Hinh.
  intros Hl. destruct (l !! k) as [x|] eqn:Hk.
  - rewrite (list_lookup_total_correct _ _ _ Hk). rewrite Forall_lookup in Hl. by eapply Hl.
  - apply lookup_ge_None in Hk. by rewrite list_lookup_total_alt, (lookup_ge_None_2 _ _ Hk).
Qed.

Lemma swap_P i j l : Forall P l -> Forall P (swap place i j l).
Proof using Hinh HP. intros Hl. unfold swap. repeat apply Forall_insert; try done; apply HP; by apply total_P. Qed.

Lemma up_agree fuel j l :
  Forall P l -> up less place fuel j l = up less' place fuel j l /\ Forall P (up less' place fuel j l).
Proof using Hless Hinh HP.
  revert j l. induction fuel as [|fuel IH]; intros j l Hl; cbn [up]; [done|].
  rewrite Hless by (by apply total_P). case_match; [done|]. apply IH. by apply swap_P.
Qed.

Lemma down_agree fuel i n l :
  Forall P l -> down less place fuel i n l = down less' place fuel i n l /\ Forall P (down less' place fuel i n l).
Proof using Hless Hinh HP.
  revert i l. induction fuel as [|fuel IH]; intros i l Hl; cbn [down]; [done|].
  case_match; [done|]. rewrite (Hless (l !!! (2 * i + 1 + 1)%nat)) by (by apply total_P).
  rewrite Hless by (by apply total_P). case_match; [done|]. apply IH. by apply swap_P.
Qed.

Lemma heap_Push_agree x l :
  P x -> Forall P l ->
  heap_Push less place x l = heap_Push less' place x l /\ Forall P (heap_Push less' place x l).
Proof using Hless Hinh HP.
  intros Hx Hl. unfold heap_Push. apply up_agree. apply Forall_app. split; [done|]. constructor; [by apply HP|constructor].
Qed.

Lemma heap_Pop_agree l :
  Forall P l -> heap_Pop less place l = heap_Pop less' place l /\
  forall x l', heap_Pop less' place l = Some (x, l') -> P x /\ Forall P l'.
Proof using Hless Hinh HP.
  intros Hl. unfold heap_Pop. destruct (length l) as [|n]; [done|].
  destruct (down_agree n 0 n (swap place 0 n l)) as [-> Hd]; [by apply swap_P|]. split; [done|].
  intros x l'. destruct (down less' place n 0 n (swap place 0 n l) !! n) as [x0|] eqn:Hx; simpl; [|done].
  intros [= <- <-]. split; [|by apply Forall_take]. rewrite Forall_lookup in Hd. by eapply Hd.
Qed.
End agree.

(** ** Elements know where they are *)

Section positions.
Context {A : Type} `{Inhabited A} (less : A -> A -> bool) (place : nat -> A -> A) (Q : nat -> A -> Prop).
Context (HQ : forall i x, Q i (place i x)).

Definition placed (l : list A) : Prop := forall k x, l !! k = Some x -> Q k x.

Lemma placed_insert i x l : placed l -> placed (<[i := place i x]> l).
Proof using HQ.
  intros Hl k y Hk. destruct (decide (k = i)) as [->|].
  - apply list_lookup_insert_Some in Hk as [(_ & <- & _)|(? & _)]; [apply HQ|done].
  - rewrite list_lookup_insert_ne in Hk by done. by apply Hl.
Qed.

Lemma placed_swap i j l : placed l -> placed (swap place i j l).
Proof using HQ. intros Hl. unfold swap. by apply placed_insert, placed_insert. Qed.

Lemma placed_up fuel j l : placed l -> placed (up less place fuel j l).
Proof using HQ.
  revert j l. induction fuel as [|fuel IH]; intros j l Hl; cbn [up]; [done|]. case_match; [done|].
  by apply IH, placed_swap.
Qed.

Lemma placed_down fuel i n l : placed l -> placed (down less place fuel i n l).
Proof using HQ.
  revert i l. induction fuel as [|fuel IH]; intros i l Hl; cbn [down]; [done|]. case_match; [done|].
  case_match; case_match; try done; by apply IH, placed_swap.
Qed.

Lemma placed_Push x l : placed l -> placed (heap_Push less place x l).
Proof using HQ.
  intros Hl. unfold heap_Push. apply placed_up. intros k y Hk.
  apply lookup_app_Some in Hk as [Hk|[Hge Hk]]; [by apply Hl|].
  destruct (k - length l)%nat eqn:E; [|done]. simpl in Hk. injection Hk as <-.
  replace k with (length l) by lia. apply HQ.
Qed.

Lemma placed_Pop l x l' : placed l -> heap_Pop less place l = Some (x, l') -> placed l'.
Proof using HQ.
  intros Hl. unfold heap_Pop. destruct (length l) as [|n]; [done|].
  destruct (_ !! n) as [y|] eqn:Hy; simpl; [|done]. intros [= <- <-] k z [Hk _]%lookup_take_Some.
  revert Hk. apply placed_down, placed_swap, Hl.
Qed.
End positions.
