(* ===== verification/Bfs.v ===== *)
(** * Breadth-first search with a visited set

    The search that the blast radius and the in-memory graph database share: a queue of
    nodes with the path that led there; a node is marked when it is taken from the queue,
    and its neighbours that are not marked are appended while the depth allows it and
    fewer than [limit] nodes have been marked.  The lemmas show that the nodes are met in
    the order of their distance, each once, with a shortest path, and that all nodes
    within the depth are met unless the limit is reached. *)
From stdpp Require Import sorting.
From S2P Require Import Prelude.

Section bfs.
Context (root : string) (nexts : string -> list string) (depth : nat) (limit : option nat).

(** A node, its depth and the path from the root. *)
Definition item : Type := string * nat * list string.
Definition ids (l : list item) : list string := (fun x => x.1.1) <$> l.
Definition depths (l : list item) : list nat := (fun x => x.1.2) <$> l.

(** Whether the neighbours of the [n]-th marked node, at depth [d], are queued. *)
Definition open (n d : nat) : bool :=
  match limit with Some l => (n <? l)%nat | None => true end && (d <? depth)%nat.

Definition push (x : item) (vis : list item) : list item :=
  (fun w => (w, S x.1.2, x.2 ++ [w])) <$> filter (fun w => w ∉ ids vis) (nexts x.1.1).

Fixpoint bfs (fuel : nat) (queue vis : list item) : list item :=
  match fuel, queue with
  | S fuel, x :: queue =>
      if decide (x.1.1 ∈ ids vis) then bfs fuel queue vis
      else let vis := vis ++ [x] in
           bfs fuel (queue ++ (if open (length vis) x.1.2 then push x vis else [])) vis
  | _, _ => vis
  end.

(** ** Walks *)

Inductive walk : nat -> string -> Prop :=
| walk_root : walk 0 root
| walk_step k v w : walk k v -> w ∈ nexts v -> walk (S k) w.

Inductive wpath : nat -> string -> list string -> Prop :=
| wp_root : wpath 0 root [root]
| wp_step k v w p : wpath k v p -> w ∈ nexts v -> wpath (S k) w (p ++ [w]).

Lemma wpath_walk k v p : wpath k v p -> walk k v.
Proof. induction 1; econstructor; eauto. Qed.

Lemma wpath_length k v p : wpath k v p -> length p = S k.
Proof. induction 1; [done|]. rewrite length_app. simpl. lia. Qed.

(** ** The invariant of the loop *)

(** The neighbours of [x] are marked or queued, one deeper at most. *)
Definition covered (all : list item) (x : item) : Prop :=
  forall w, w ∈ nexts x.1.1 -> exists y, y ∈ all /\ y.1.1 = w /\ (y.1.2 <= S x.1.2)%nat.

Definition limited (vis : list item) : Prop := match limit with Some l => (l <= length vis)%nat | None => False end.

#[local] Instance limited_dec vis : Decision (limited vis).
Proof. unfold limited. destruct limit; apply _. Defined.

Record inv (queue vis : list item) : Prop := {
  inv_path : forall x, x ∈ vis ++ queue -> wpath x.1.2 x.1.1 x.2 /\ (x.1.2 <= depth)%nat;
  inv_sorted : StronglySorted le (depths (vis ++ queue));
  inv_near : forall x y, x ∈ queue -> y ∈ queue -> (y.1.2 <= S x.1.2)%nat;
  inv_near' : forall x y, last vis = Some x -> y ∈ queue -> (y.1.2 <= S x.1.2)%nat;
  inv_nodup : NoDup (ids vis);
  inv_root : exists y, y ∈ vis ++ queue /\ y.1.1 = root /\ y.1.2 = 0%nat;
  inv_closed : limited vis \/ forall x, x ∈ vis -> (x.1.2 < depth)%nat -> covered (vis ++ queue) x;
}.

Lemma inv_start : inv [(root, 0%nat, [root])] [].
Proof.
  split; simpl.
  - intros x ->%list_elem_of_singleton. split; [constructor|simpl; lia].
  - repeat constructor.
  - intros x y ->%list_elem_of_singleton ->%list_elem_of_singleton. simpl. lia.
  - done.
  - constructor.
  - eexists. split; [by apply list_elem_of_singleton|done].
  - right. by intros x ?%elem_of_nil.
Qed.

Lemma depths_app l k : depths (l ++ k) = depths l ++ depths k.
Proof. apply fmap_app. Qed.

Lemma sorted_before vis queue x y :
  StronglySorted le (depths (vis ++ queue)) -> x ∈ vis -> y ∈ queue -> (x.1.2 <= y.1.2)%nat.
Proof.
  rewrite depths_app. intros Hs Hx Hy. eapply StronglySorted_app_1_elem_of; [exact Hs|..];
    unfold depths; [by apply (list_elem_of_fmap_2 (fun x => x.1.2))|by apply (list_elem_of_fmap_2 (fun x => x.1.2))].
Qed.

Lemma elem_ids v l : v ∈ ids l <-> exists x, x ∈ l /\ x.1.1 = v.
Proof.
  unfold ids. rewrite list_elem_of_fmap. split; intros (x & H1 & H2); by exists x.
Qed.

(** A node taken from the queue that was marked before. *)
Lemma inv_skip x queue vis : x.1.1 ∈ ids vis -> inv (x :: queue) vis -> inv queue vis.
Proof.
  intros Hin [Hp Hs Hn Hn' Hnd Hr Hc].
  assert (forall y, y ∈ vis ++ x :: queue -> exists z, z ∈ vis ++ queue /\ z.1.1 = y.1.1 /\ (z.1.2 <= y.1.2)%nat) as Hrepl.
  { intros y [Hy|[-> |Hy]%elem_of_cons]%elem_of_app; [exists y; set_solver|..|exists y; set_solver].
    apply elem_ids in Hin as (z & Hz & E). exists z. split_and!; [set_solver|done|].
    eapply sorted_before; [exact Hs|done|by left]. }
  split.
  - intros y Hy. apply Hp. set_solver.
  - rewrite depths_app in *. simpl in Hs. apply StronglySorted_app in Hs as (H1 & H2 & H3).
    apply StronglySorted_inv in H3 as [H3 _]. apply StronglySorted_app. split_and!; [set_solver|done|done].
  - intros; apply Hn; by right.
  - intros; eapply Hn'; [done|]. by right.
  - done.
  - destruct Hr as (y & Hy & E & E'). destruct (Hrepl y Hy) as (z & Hz & Ez & Hle). exists z. split_and!; [done|congruence|lia].
  - destruct Hc as [Hl|Hc]; [by left|right]. intros y Hy Hd w Hw. destruct (Hc y Hy Hd w Hw) as (z & Hz & E & Hle).
    destruct (Hrepl z Hz) as (z' & ? & ? & ?). exists z'. split_and!; [done|congruence|lia].
Qed.

Lemma push_elem x vis y :
  y ∈ push x vis <-> exists w, w ∈ nexts x.1.1 /\ (w ∉ ids vis) /\ y = (w, S x.1.2, x.2 ++ [w]).
Proof. unfold push. rewrite list_elem_of_fmap. setoid_rewrite list_elem_of_filter. naive_solver. Qed.

Lemma const_sorted (l : list nat) k : (forall n, n ∈ l -> n = k) -> StronglySorted le l.
Proof.
  induction l as [|a l IH]; intros Hl; constructor; [apply IH; intros; apply Hl; by right|].
  apply Forall_forall. intros b Hb. rewrite (Hl a), (Hl b); [done|by right|by left].
Qed.

(** A node taken from the queue for the first time. *)
Section visit.
Context (x : item) (queue vis : list item) (Hnin : x.1.1 ∉ ids vis) (Hinv : inv (x :: queue) vis).
Definition pushed : list item := if open (length (vis ++ [x])) x.1.2 then push x (vis ++ [x]) else [].

Lemma pushed_elem y :
  y ∈ pushed -> exists w, w ∈ nexts x.1.1 /\ y = (w, S x.1.2, x.2 ++ [w]) /\ (x.1.2 < depth)%nat.
Proof.
  unfold pushed. intros Hy. destruct (open _ _) eqn:Ho; [|by apply elem_of_nil in Hy].
  apply push_elem in Hy as (w & Hw & _ & ->). apply andb_true_iff in Ho as [_ Ho%Nat.ltb_lt]. eauto.
Qed.

Lemma queue_depth y : y ∈ queue ++ pushed -> (x.1.2 <= y.1.2 <= S x.1.2)%nat.
Proof using Hinv Hnin.
  intros [Hy|Hy]%elem_of_app; [|destruct (pushed_elem y Hy) as (w & _ & -> & _); simpl; lia].
  split; [|apply (inv_near _ _ Hinv); [by left|by right]].
  eapply (sorted_before (vis ++ [x]) queue); [rewrite <-app_assoc; apply (inv_sorted _ _ Hinv)|set_solver|done].
Qed.

Lemma vis_depth y : y ∈ vis ++ [x] -> (y.1.2 <= x.1.2)%nat.
Proof using Hinv Hnin.
  intros [Hy| ->%list_elem_of_singleton]%elem_of_app; [|done].
  eapply sorted_before; [apply (inv_sorted _ _ Hinv)|done|by left].
Qed.

Lemma visit_all y : y ∈ vis ++ x :: queue -> y ∈ (vis ++ [x]) ++ queue ++ pushed.
Proof. set_solver. Qed.

Lemma visit_sorted : StronglySorted le (depths ((vis ++ [x]) ++ queue ++ pushed)).
Proof using Hinv Hnin.
  rewrite (app_assoc (vis ++ [x]) queue pushed), depths_app. apply StronglySorted_app. split_and!.
  - intros a b (z & -> & Hz)%list_elem_of_fmap (y & -> & (w & _ & -> & _)%pushed_elem)%list_elem_of_fmap. simpl.
    apply elem_of_app in Hz as [Hz|Hz]; [apply vis_depth in Hz; lia|].
    destruct (queue_depth z); [apply elem_of_app; by left|lia].
  - rewrite <-app_assoc. apply (inv_sorted _ _ Hinv).
  - apply (const_sorted _ (S x.1.2)). by intros n (y & -> & (w & _ & -> & _)%pushed_elem)%list_elem_of_fmap.
Qed.

Lemma visit_closed :
  limited (vis ++ [x]) \/ forall y, y ∈ vis ++ [x] -> (y.1.2 < depth)%nat -> covered ((vis ++ [x]) ++ queue ++ pushed) y.
Proof using Hinv Hnin.
  destruct (inv_closed _ _ Hinv) as [Hl|Hc].
  { left. unfold limited in *. destruct limit; [|done]. rewrite length_app. lia. }
  destruct (decide (limited (vis ++ [x]))) as [|Hnl]; [by left|right].
  intros y [Hy| ->%list_elem_of_singleton]%elem_of_app Hd w Hw.
  { destruct (Hc y Hy Hd w Hw) as (z & Hz & ?). exists z. split; [by apply visit_all|done]. }
  destruct (decide (w ∈ ids (vis ++ [x]))) as [Hin|Hw'].
  { apply elem_ids in Hin as (z & Hz & Ez). exists z. split_and!; [set_solver|done|]. apply vis_depth in Hz. lia. }
  exists (w, S x.1.2, x.2 ++ [w]). split_and!; [|done|simpl; lia].
  assert (open (length (vis ++ [x])) x.1.2 = true) as Ho.
  { apply andb_true_iff. split; [|by apply Nat.ltb_lt]. unfold limited in Hnl. destruct limit; [|done]. apply Nat.ltb_lt. lia. }
  apply elem_of_app. right. apply elem_of_app. right. unfold pushed. rewrite Ho. apply push_elem. eauto.
Qed.

Lemma inv_visit : inv (queue ++ pushed) (vis ++ [x]).
Proof using Hinv Hnin.
  split.
  - intros y [Hy|[Hy|Hy]%elem_of_app]%elem_of_app; [apply (inv_path _ _ Hinv); set_solver..|].
    destruct (pushed_elem y Hy) as (w & Hw & -> & Hd). simpl. split; [|lia].
    econstructor; [apply (inv_path _ _ Hinv); set_solver|done].
  - apply visit_sorted.
  - intros a b Ha%queue_depth Hb%queue_depth. lia.
  - intros a y. rewrite last_snoc. intros [= <-] Hy%queue_depth. lia.
  - unfold ids. rewrite fmap_app. apply NoDup_app. split_and!; [apply (inv_nodup _ _ Hinv)| |apply NoDup_singleton].
    by intros v Hv ->%list_elem_of_singleton.
  - destruct (inv_root _ _ Hinv) as (y & Hy & Hyr). exists y. split; [by apply visit_all|done].
  - apply visit_closed.
Qed.
End visit.

(** ** The result *)

(** Steps left: the queue, and the neighbours of the nodes that are not marked. *)
Context (B : nat) (HB : forall vs, NoDup vs -> (sum_list_with (fun v => length (nexts v)) vs <= B)%nat).

Definition left_ (vis : list item) : nat := (B - sum_list_with (fun v => length (nexts v)) (ids vis))%nat.

Lemma length_push x vis : (length (push x vis) <= length (nexts x.1.1))%nat.
Proof. unfold push. rewrite length_fmap. apply length_filter. Qed.

Lemma bfs_inv fuel queue vis :
  inv queue vis -> (length queue + left_ vis <= fuel)%nat ->
  inv [] (bfs fuel queue vis) /\ exists l, bfs fuel queue vis = vis ++ l.
Proof using HB.
  revert queue vis. induction fuel as [|fuel IH]; intros queue vis Hi Hf.
  { destruct queue; [|simpl in Hf; lia]. split; [done|]. exists []. by rewrite app_nil_r. }
  destruct queue as [|x queue]; simpl; [split; [done|]; exists []; by rewrite app_nil_r|].
  case_decide as Hv.
  { apply IH; [by eapply inv_skip|simpl in Hf; lia]. }
  pose proof (inv_visit x queue vis Hv Hi) as Hi'. fold (pushed x vis).
  destruct (IH _ _ Hi') as [H1 [l H2]]; [|split; [done|]; exists (x :: l); rewrite H2; by rewrite <-app_assoc].
  rewrite length_app. pose proof (HB _ (inv_nodup _ _ Hi')) as Hb. unfold left_ in *. unfold ids in *.
  rewrite fmap_app, sum_list_with_app in *. simpl in *.
  assert (length (pushed x vis) <= length (nexts x.1.1))%nat by (unfold pushed; case_match; [apply length_push|simpl; lia]).
  lia.
Qed.

Definition search (fuel : nat) : list item := bfs fuel [(root, 0%nat, [root])] [].

(** Every node that was marked has a shortest path, the nodes are marked once, in the order
    of their distance, and those within the depth are all marked, unless the limit was
    reached. *)
Lemma bfs_search_spec fuel :
  (S B <= fuel)%nat ->
  let out := search fuel in
  NoDup (ids out) /\ StronglySorted le (depths out) /\
  (forall x, x ∈ out -> wpath x.1.2 x.1.1 x.2 /\ (x.1.2 <= depth)%nat) /\
  (limited out \/ forall k v, walk k v -> (k <= depth)%nat -> exists x, x ∈ out /\ x.1.1 = v /\ (x.1.2 <= k)%nat).
Proof using HB.
  intros Hf. cbv zeta. unfold search. destruct (bfs_inv fuel [(root, 0%nat, [root])] []) as [Hi _]; [apply inv_start|..].
  { unfold left_. simpl. lia. }
  destruct Hi as [Hp Hs _ _ Hnd Hr Hc]. rewrite !app_nil_r in *. split_and!; [done..|].
  destruct Hc as [Hl|Hc]; [by left|right]. intros k v Hw. induction Hw as [|k v w Hw IH Hin]; intros Hk.
  - destruct Hr as (y & ? & ? & ?). exists y. split_and!; [done|done|lia].
  - destruct IH as (x & Hx & <- & Hd); [lia|]. destruct (Hc x Hx ltac:(lia) w Hin) as (y & Hy & E & Hle).
    exists y. split_and!; [done|done|lia].
Qed.

(** Without a limit every marked node is at its distance. *)
Lemma search_shortest fuel x k :
  limit = None -> (S B <= fuel)%nat -> x ∈ search fuel -> walk k x.1.1 -> (x.1.2 <= k)%nat.
Proof using HB.
  intros Hlim Hf Hx Hk. destruct (bfs_search_spec fuel Hf) as (Hnd & _ & Hp & Hc). destruct (Hp x Hx) as [_ Hd].
  destruct (decide (k <= depth)%nat) as [Hkd|]; [|lia].
  destruct Hc as [Hl|Hc]; [unfold limited in Hl; by rewrite Hlim in Hl|].
  destruct (Hc k x.1.1 Hk Hkd) as (y & Hy & E & Hle). assert (y = x) as ->; [|done].
  apply list_elem_of_lookup in Hx as [i Hi], Hy as [j Hj].
  assert (i = j) as ->; [|congruence]. eapply (proj1 (NoDup_alt _) Hnd i j x.1.1); unfold ids; rewrite list_lookup_fmap.
  - by rewrite Hi.
  - by rewrite Hj, <-E.
Qed.

Lemma bfs_extends fuel queue vis : exists l, bfs fuel queue vis = vis ++ l.
Proof.
  revert queue vis. induction fuel as [|fuel IH]; intros queue vis; [exists []; by rewrite app_nil_r|].
  destruct queue as [|x queue]; simpl; [exists []; by rewrite app_nil_r|]. case_decide; [apply IH|].
  destruct (IH (queue ++ (if open (length (vis ++ [x])) x.1.2 then push x (vis ++ [x]) else [])) (vis ++ [x])) as [l ->].
  exists (x :: l). by rewrite <-app_assoc.
Qed.
End bfs.

(** ** Neighbours read off a list of edges *)

Lemma omap_step {X Y} (f : X -> option Y) x l :
  omap f (x :: l) = match f x with Some y => y :: omap f l | None => omap f l end.
Proof. done. Qed.

Section edge_list.
Context {E : Type} (f : string -> E -> option string) (c : nat).
Hypothesis few : forall e vs, NoDup vs -> (length (filter (fun v => is_Some (f v e)) vs) <= c)%nat.

Lemma push_bound (es : list E) vs :
  NoDup vs -> (sum_list_with (fun v => length (omap (f v) es)) vs <= c * length es)%nat.
Proof using few.
  intros Hnd. induction es as [|e es IH]; simpl.
  { rewrite Nat.mul_0_r. clear. induction vs; simpl; lia. }
  assert (forall vs, sum_list_with (fun v => length (omap (f v) (e :: es))) vs =
    length (filter (fun v => is_Some (f v e)) vs) + sum_list_with (fun v => length (omap (f v) es)) vs)%nat as Hs.
  { clear. intros vs. induction vs as [|v vs IH]; [done|]. rewrite filter_cons. cbn [sum_list_with]. rewrite IH. clear IH.
    rewrite omap_step.
    case_decide as Hd.
    - destruct Hd as [w ->]. simpl. lia.
    - destruct (f v e) as [w|]; [destruct Hd; by eexists|]. lia. }
  rewrite Hs. pose proof (few e vs Hnd). lia.
Qed.
End edge_list.

(** A NoDup list has at most as many elements with a property as candidates for it. *)
Lemma filter_few (P : string -> Prop) `{!forall v, Decision (P v)} (l vs : list string) :
  (forall v, P v -> v ∈ l) -> NoDup vs -> (length (filter P vs) <= length l)%nat.
Proof.
  intros Hl Hnd. apply (submseteq_length (filter P vs) l), NoDup_submseteq; [by apply NoDup_filter|].
  intros v [Hv _]%list_elem_of_filter. auto.
Qed.
