(* ===== verification/KV.v ===== *)
(** * Ordered key-value stores

    The embedded database ([github.com/cockroachdb/pebble]) is not part of the
    repository: the class [Pebble] lists the operations the code calls and what their
    documentation promises, for operations that report no error.  Keys are compared as
    byte strings ([bytes.Compare]).  [map_pebble] is a concrete instance.  The file also
    has the order of the fixed-width numbers ([%020d], [%016x]) that the keys contain. *)
From stdpp Require Export sorting.
From Stdlib Require Import Ascii.
From S2P Require Import Prelude GoStrings.

#[global] Open Scope Z_scope.

(** ** [bytes.Compare]: lexicographic order *)

Fixpoint lex_leb (l k : list ascii) : bool :=
  match l, k with
  | [], _ => true
  | _ :: _, [] => false
  | a :: l, b :: k =>
      if (byteval a <? byteval b) then true
      else if (byteval a =? byteval b) then lex_leb l k else false
  end.

Definition str_le (s t : string) : Prop := lex_leb (chars s) (chars t) = true.
Definition str_lt (s t : string) : Prop := ~ str_le t s.

#[global] Instance str_le_dec s t : Decision (str_le s t).
Proof. unfold str_le. apply _. Defined.
#[global] Instance str_lt_dec s t : Decision (str_lt s t).
Proof. unfold str_lt. apply _. Defined.

Lemma byteval_inj a b : byteval a = byteval b -> a = b.
Proof. intros H. by rewrite <-(byte_ascii_byteval a), H, byte_ascii_byteval. Qed.

Ltac byte_cases :=
  repeat match goal with
  | |- context [?x <? ?y] => destruct (Z.ltb_spec x y)
  | |- context [?x =? ?y] => destruct (Z.eqb_spec x y)
  | H : context [?x <? ?y] |- _ => destruct (Z.ltb_spec x y)
  | H : context [?x =? ?y] |- _ => destruct (Z.eqb_spec x y)
  end.

Lemma lex_refl l : lex_leb l l = true.
Proof. induction l; simpl; byte_cases; try done; lia. Qed.

Lemma lex_total l k : lex_leb l k = true \/ lex_leb k l = true.
Proof. revert k. induction l as [|a l IH]; intros [|b k]; simpl; byte_cases; auto; lia. Qed.

Lemma lex_trans l k m : lex_leb l k = true -> lex_leb k m = true -> lex_leb l m = true.
Proof.
  revert k m. induction l as [|a l IH]; intros [|b k] [|c m]; simpl; try done.
  byte_cases; intros; try done; try lia. eauto.
Qed.

Lemma lex_antisym l k : lex_leb l k = true -> lex_leb k l = true -> l = k.
Proof.
  revert k. induction l as [|a l IH]; intros [|b k]; simpl; try done.
  byte_cases; intros; try done; try lia. f_equal; [by apply byteval_inj|eauto].
Qed.

Lemma lex_app p l k : lex_leb (p ++ l) (p ++ k) = lex_leb l k.
Proof. induction p; simpl; [done|]. byte_cases; done || lia. Qed.

#[global] Instance str_le_total : Total str_le.
Proof. intros s t. apply lex_total. Qed.
#[global] Instance str_le_trans : Transitive str_le.
Proof. intros s t u. apply lex_trans. Qed.
#[global] Instance str_le_refl : Reflexive str_le.
Proof. intros s. apply lex_refl. Qed.

Lemma str_le_antisym s t : str_le s t -> str_le t s -> s = t.
Proof. intros. apply (inj chars). by apply lex_antisym. Qed.

Lemma str_le_app p s t : str_le (p +:+ s) (p +:+ t) <-> str_le s t.
Proof. unfold str_le. by rewrite !chars_app, lex_app. Qed.

Lemma str_lt_app p s t : str_lt (p +:+ s) (p +:+ t) <-> str_lt s t.
Proof. unfold str_lt. by rewrite str_le_app. Qed.

Lemma str_lt_le s t : str_lt s t -> str_le s t.
Proof. intros H. by destruct (total str_le s t). Qed.

(** ** Fixed-width numbers *)

(** The [w] low digits of [n] in a base of at most 16, most significant first. *)
Fixpoint fixed (base : Z) (w : nat) (n : Z) : list ascii :=
  match w with
  | O => []
  | S w => fixed base w (n / base) ++ [byte_ascii (if n `mod` base <? 10 then 48 + n `mod` base
                                                   else 87 + n `mod` base)]
  end.

(** [fmt.Sprintf("%020d", n)] and [fmt.Sprintf("%016x", n)] of a [uint64]: it has at most
    20 decimal and 16 hexadecimal digits. *)
Definition dec020 (n : Z) : string := String.string_of_list_ascii (fixed 10 20 n).
Definition hex016 (n : Z) : string := String.string_of_list_ascii (fixed 16 16 n).

Lemma length_fixed base w n : length (fixed base w n) = w.
Proof. revert n. induction w; intros n; simpl; [done|]. rewrite length_app, IHw. simpl. lia. Qed.

Lemma lex_app_same l k a b :
  length l = length k ->
  lex_leb (l ++ a) (k ++ b) = if decide (l = k) then lex_leb a b else lex_leb l k.
Proof.
  revert k. induction l as [|x l IH]; intros [|y k] Hl; try done.
  injection Hl as Hl. cbn [lex_leb app]. case_decide as Heq.
  - simplify_eq. destruct (Z.ltb_spec (byteval y) (byteval y)); [lia|].
    rewrite Z.eqb_refl, IH by done. by rewrite decide_True.
  - byte_cases; try done. rewrite IH by done. case_decide; [|done]. subst. destruct Heq.
    f_equal. by apply byteval_inj.
Qed.

Section digits.
Context (base : Z) (Hb : 2 <= base <= 16).

Lemma digit_mono a b :
  0 <= a < base -> 0 <= b < base ->
  let d x := byteval (byte_ascii (if x <? 10 then 48 + x else 87 + x)) in
  (d a < d b <-> a < b) /\ (d a = d b <-> a = b).
Proof using Hb.
  intros Ha Hb'. unfold byteval, byte_ascii.
  assert (forall x, 0 <= x < base ->
    Z.of_N (N_of_ascii (ascii_of_N (Z.to_N (if x <? 10 then 48 + x else 87 + x)))) =
    (if x <? 10 then 48 + x else 87 + x)) as E.
  { intros x Hx. rewrite N_ascii_embedding; [|destruct (Z.ltb_spec x 10); lia].
    destruct (Z.ltb_spec x 10); lia. }
  simpl. rewrite !E by done. destruct (Z.ltb_spec a 10), (Z.ltb_spec b 10); lia.
Qed.

(** On numbers that fit, the text is ordered like the numbers. *)
Lemma fixed_order w n m :
  0 <= n < base ^ Z.of_nat w -> 0 <= m < base ^ Z.of_nat w ->
  (lex_leb (fixed base w n) (fixed base w m) = true <-> n <= m) /\
  (fixed base w n = fixed base w m -> n = m).
Proof using Hb.
  revert n m. induction w as [|w IH]; intros n m Hn Hm.
  { change (base ^ Z.of_nat 0) with 1 in *. simpl. split; [|lia]. split; [lia|done]. }
  rewrite Nat2Z.inj_succ, Z.pow_succ_r in Hn, Hm by lia. simpl.
  assert (0 <= n / base < base ^ Z.of_nat w) as Hn' by
    (split; [apply Z.div_pos; lia|apply Z.div_lt_upper_bound; lia]).
  assert (0 <= m / base < base ^ Z.of_nat w) as Hm' by
    (split; [apply Z.div_pos; lia|apply Z.div_lt_upper_bound; lia]).
  destruct (IH _ _ Hn' Hm') as [IH1 IH2].
  pose proof (Z.div_mod n base) as En. pose proof (Z.div_mod m base) as Em.
  pose proof (Z.mod_pos_bound n base) as Bn. pose proof (Z.mod_pos_bound m base) as Bm.
  destruct (digit_mono (n `mod` base) (m `mod` base)) as [D1 D2]; [lia..|]. cbv zeta in D1, D2.
  split.
  - rewrite lex_app_same by (by rewrite !length_fixed). case_decide as Heq.
    + apply IH2 in Heq. simpl. byte_cases; split; intros; try done; nia.
    + rewrite IH1. assert (n / base <> m / base) by (intros E; apply Heq; by rewrite E). nia.
  - intros [E1 E2]%app_inj_tail. apply IH2 in E1.
    assert (n `mod` base = m `mod` base) as E3 by (apply D2; by f_equal). rewrite En, Em, E1, E3; lia.
Qed.
End digits.

Lemma chars_of_list l : chars (String.string_of_list_ascii l) = l.
Proof. apply String.list_ascii_of_string_of_list_ascii. Qed.

Lemma length_dec020 n : length (chars (dec020 n)) = 20%nat.
Proof. unfold dec020. rewrite chars_of_list. apply length_fixed. Qed.

Lemma dec020_order n m :
  0 <= n < 2 ^ 64 -> 0 <= m < 2 ^ 64 ->
  (str_le (dec020 n) (dec020 m) <-> n <= m) /\ (dec020 n = dec020 m -> n = m).
Proof.
  intros Hn Hm. destruct (fixed_order 10 ltac:(lia) 20 n m) as [H1 H2]; [lia..|].
  unfold str_le, dec020. rewrite !chars_of_list. split; [done|].
  intros E. apply (f_equal chars) in E. rewrite !chars_of_list in E. auto.
Qed.

Lemma hex016_order n m :
  0 <= n < 2 ^ 64 -> 0 <= m < 2 ^ 64 ->
  (str_le (hex016 n) (hex016 m) <-> n <= m) /\ (hex016 n = hex016 m -> n = m).
Proof.
  intros Hn Hm. destruct (fixed_order 16 ltac:(lia) 16 n m) as [H1 H2]; [lia..|].
  unfold str_le, hex016. rewrite !chars_of_list. split; [done|].
  intros E. apply (f_equal chars) in E. rewrite !chars_of_list in E. auto.
Qed.

(** Strings with prefixes of one length are compared prefix first. *)
Lemma str_le_prefix p q s t :
  length (chars p) = length (chars q) ->
  str_le (p +:+ s) (q +:+ t) <-> if decide (p = q) then str_le s t else str_le p q.
Proof.
  intros Hl. unfold str_le. rewrite !chars_app, lex_app_same by done.
  destruct (decide (p = q)) as [->|Hne]; [by rewrite decide_True|].
  rewrite decide_False; [done|]. intros E. by apply Hne, (inj chars).
Qed.

(** ** The database: values are byte slices *)

Abbreviation bytes := (list Z).

(** Writes: [Some v] sets a key and [None] deletes it. *)
Definition apply_op (m : gmap string bytes) (o : string * option bytes) : gmap string bytes :=
  match o.2 with Some v => <[o.1 := v]> m | None => delete o.1 m end.
Definition apply_ops (l : list (string * option bytes)) (m : gmap string bytes) : gmap string bytes :=
  foldl apply_op m l.

Definition in_range (lo hi k : string) : Prop := str_le lo k /\ str_lt k hi.

Class Pebble := {
  DB : Type;
  Batch : Type;
  (** the entries of the database, and the writes of a batch, oldest first *)
  db_entries : DB -> gmap string bytes;
  batch_ops : Batch -> list (string * option bytes);
  NewIndexedBatch : DB -> Batch;
  NewBatch : DB -> Batch;
  batch_Set : string -> bytes -> Batch -> Batch * option string;
  batch_Delete : string -> Batch -> Batch * option string;
  batch_Get : DB -> Batch -> string -> string + option bytes;   (* [None]: [ErrNotFound] *)
  batch_Count : Batch -> Z;
  batch_Commit : Batch -> DB -> DB * option string;
  db_Set : string -> bytes -> DB -> DB * option string;
  db_Delete : string -> DB -> DB * option string;
  db_Get : DB -> string -> string + option bytes;
  (** the entries an iterator with these bounds visits; then [iter.Error()] *)
  db_Iter : DB -> string -> string -> string + list (string * bytes) * option string;
  (** an iterator without bounds over a snapshot; the entries [SeekGE] and the calls of
      [Next] after it visit, up to the first that is not valid; then [iter.Error()] *)
  SnapIter : Type;
  iter_entries : SnapIter -> gmap string bytes;
  db_NewIter : DB -> string + SnapIter;
  iter_SeekGE : SnapIter -> string -> list (string * bytes) * option string;
  db_Close : DB -> option string;

  new_batch_ops : forall d, batch_ops (NewIndexedBatch d) = [];
  new_plain_batch_ops : forall d, batch_ops (NewBatch d) = [];
  batch_Set_ops : forall k v b b', batch_Set k v b = (b', None) -> batch_ops b' = batch_ops b ++ [(k, Some v)];
  batch_Delete_ops : forall k b b', batch_Delete k b = (b', None) -> batch_ops b' = batch_ops b ++ [(k, None)];
  batch_Get_view : forall d b k v,
    batch_Get d b k = inr v -> v = apply_ops (batch_ops b) (db_entries d) !! k;
  batch_Count_ops : forall b, batch_Count b = Z.of_nat (length (batch_ops b));
  batch_Commit_entries : forall b d d',
    batch_Commit b d = (d', None) -> db_entries d' = apply_ops (batch_ops b) (db_entries d);
  db_Set_entries : forall k v d d', db_Set k v d = (d', None) -> db_entries d' = <[k := v]> (db_entries d);
  db_Delete_entries : forall k d d', db_Delete k d = (d', None) -> db_entries d' = delete k (db_entries d);
  db_Get_entries : forall d k v, db_Get d k = inr v -> v = db_entries d !! k;
  db_Iter_elem : forall d lo hi l,
    db_Iter d lo hi = inr (l, None) ->
    forall k v, (k, v) ∈ l <-> db_entries d !! k = Some v /\ in_range lo hi k;
  db_Iter_sorted : forall d lo hi l, db_Iter d lo hi = inr (l, None) -> StronglySorted str_lt l.*1;
  db_NewIter_entries : forall d i, db_NewIter d = inr i -> iter_entries i = db_entries d;
  iter_SeekGE_elem : forall i lo l, iter_SeekGE i lo = (l, None) ->
    forall k v, (k, v) ∈ l <-> iter_entries i !! k = Some v /\ str_le lo k;
  iter_SeekGE_sorted : forall i lo l, iter_SeekGE i lo = (l, None) -> StronglySorted str_lt l.*1;
}.

(** ** A concrete instance *)

Definition key_le (x y : string * bytes) : Prop := str_le x.1 y.1.

#[global] Instance in_range_dec lo hi k : Decision (in_range lo hi k).
Proof. unfold in_range. apply _. Defined.
#[global] Instance key_le_dec : RelDecision key_le.
Proof. intros x y. unfold key_le. apply _. Defined.
#[global] Instance key_le_total : Total key_le.
Proof. intros x y. apply (total str_le). Qed.
#[global] Instance key_le_trans : Transitive key_le.
Proof. intros x y z. apply str_le_trans. Qed.

Definition map_iter (m : gmap string bytes) (lo hi : string) : list (string * bytes) :=
  merge_sort key_le (filter (fun x => in_range lo hi x.1) (map_to_list m)).

Lemma map_iter_elem m lo hi k v :
  (k, v) ∈ map_iter m lo hi <-> m !! k = Some v /\ in_range lo hi k.
Proof.
  unfold map_iter. rewrite merge_sort_Permutation, list_elem_of_filter, elem_of_map_to_list. simpl. tauto.
Qed.

Lemma strict_sorted (l : list (string * bytes)) :
  NoDup l.*1 -> StronglySorted key_le l -> StronglySorted str_lt l.*1.
Proof.
  intros Hnd Hs. induction Hs as [|x l Hs IH Hx]; simpl in *; [constructor|].
  apply NoDup_cons in Hnd as [Hn Hnd]. constructor; [auto|].
  rewrite Forall_fmap. eapply Forall_impl; [apply Forall_and; split; [exact Hx|]|].
  - apply Forall_forall. intros y Hy. exact (list_elem_of_fmap_2 fst l y Hy).
  - intros y [Hle Hy] Hle'. apply Hn. simpl in *. by rewrite (str_le_antisym x.1 y.1).
Qed.

Lemma map_iter_sorted m lo hi : StronglySorted str_lt (map_iter m lo hi).*1.
Proof.
  apply strict_sorted; [|apply StronglySorted_merge_sort; apply _].
  unfold map_iter. rewrite merge_sort_Permutation.
  eapply sublist_NoDup; [apply (NoDup_fst_map_to_list m)|]. apply fmap_sublist, sublist_filter.
Qed.

Definition map_seek (m : gmap string bytes) (lo : string) : list (string * bytes) :=
  merge_sort key_le (filter (fun x => str_le lo x.1) (map_to_list m)).

Lemma map_seek_elem m lo k v : (k, v) ∈ map_seek m lo <-> m !! k = Some v /\ str_le lo k.
Proof.
  unfold map_seek. rewrite merge_sort_Permutation, list_elem_of_filter, elem_of_map_to_list. simpl. tauto.
Qed.

Lemma map_seek_sorted m lo : StronglySorted str_lt (map_seek m lo).*1.
Proof.
  apply strict_sorted; [|apply StronglySorted_merge_sort; apply _].
  unfold map_seek. rewrite merge_sort_Permutation.
  eapply sublist_NoDup; [apply (NoDup_fst_map_to_list m)|]. apply fmap_sublist, sublist_filter.
Qed.

Program Definition map_pebble : Pebble := {|
  DB := gmap string bytes;
  Batch := list (string * option bytes);
  db_entries d := d;
  batch_ops b := b;
  NewIndexedBatch _ := [];
  NewBatch _ := [];
  batch_Set k v b := (b ++ [(k, Some v)], None);
  batch_Delete k b := (b ++ [(k, None)], None);
  batch_Get d b k := inr (apply_ops b d !! k);
  batch_Count b := Z.of_nat (length b);
  batch_Commit b d := (apply_ops b d, None);
  db_Set k v d := (<[k := v]> d, None);
  db_Delete k d := (delete k d, None);
  db_Get d k := inr (d !! k);
  db_Iter d lo hi := inr (map_iter d lo hi, None);
  SnapIter := gmap string bytes;
  iter_entries i := i;
  db_NewIter d := inr d;
  iter_SeekGE i lo := (map_seek i lo, None);
  db_Close _ := None;
|}.
Solve All Obligations with (intros; simplify_eq/=; done || apply map_iter_sorted || apply map_iter_elem || apply map_seek_sorted || apply map_seek_elem).

(** A database on which no operation fails. *)
Record reliable `{Pebble} : Prop := {
  ok_Set : forall k v b, (batch_Set k v b).2 = None;
  ok_Delete : forall k b, (batch_Delete k b).2 = None;
  ok_Commit : forall b d, (batch_Commit b d).2 = None;
  ok_db_Set : forall k v d, (db_Set k v d).2 = None;
  ok_db_Delete : forall k d, (db_Delete k d).2 = None;
  ok_Get : forall d k, exists v, db_Get d k = inr v;
  ok_Iter : forall d lo hi, exists l, db_Iter d lo hi = inr (l, None);
  ok_NewIter : forall d, exists i, db_NewIter d = inr i;
  ok_SeekGE : forall i lo, (iter_SeekGE i lo).2 = None;
}.

Lemma map_reliable : @reliable map_pebble.
Proof. by split; intros; eauto. Qed.
