(* ===== verification/Aes.v ===== *)
(** * AES-GCM ([crypto/aes] and [crypto/cipher] of the Go standard library)

    The functions of FIPS 197 and SP 800-38D on lists of bytes, for the nonces of 12
    bytes and the empty additional data that the code uses.  They are checked on the
    published vectors.  The lemma at the end is the round trip: it needs no property of
    the block cipher. *)
From S2P Require Import Prelude GoStrings Sha256.

(** ** The block cipher *)

(** Multiplication in the field with 256 elements. *)
Definition xtime (b : Z) : Z := if b <? 128 then 2 * b else Z.lxor (2 * b) 0x11b.
Fixpoint gmul (fuel : nat) (a b : Z) : Z :=
  match fuel with
  | O => 0
  | S fuel => Z.lxor (if Z.odd b then a else 0) (gmul fuel (xtime a) (Z.div2 b))
  end.
Definition gf_mul (a b : Z) : Z := gmul 8 a b.

(** The inverse is the power 254; zero is its own inverse. *)
Definition gf_inv (a : Z) : Z := Nat.iter 253 (gf_mul a) a.
Definition rotl8 (n b : Z) : Z := u8 (Z.lor (Z.shiftl b n) (Z.shiftr b (8 - n))).
Definition affine (b : Z) : Z :=
  foldl (fun acc n => Z.lxor acc (rotl8 n b)) (Z.lxor b 0x63) [1; 2; 3; 4].
Definition Sbox : list Z := Eval vm_compute in (fun a => affine (gf_inv a)) <$> seqZ 0 256.
Definition sub (b : Z) : Z := nth (Z.to_nat b) Sbox 0.

Definition xor_bytes (l k : list Z) : list Z := zip_with Z.lxor l k.

(** The key schedule: words, most recent first; [i] is the index of the next word. *)
Fixpoint expand_key (fuel nk i : nat) (rcon : Z) (w : list (list Z)) : list (list Z) :=
  match fuel with
  | O => w
  | S fuel =>
      let prev := nth 0 w [] in
      let base := nth (nk - 1) w [] in
      if (i `mod` nk =? 0)%nat then
        let t := sub <$> (drop 1 prev ++ take 1 prev) in
        let t := xor_bytes t [rcon; 0; 0; 0] in
        expand_key fuel nk (S i) (xtime rcon) (xor_bytes base t :: w)
      else
        let t := if ((6 <? nk)%nat && (i `mod` nk =? 4)%nat) then sub <$> prev else prev in
        expand_key fuel nk (S i) rcon (xor_bytes base t :: w)
  end.

(** Round keys of 16 bytes; a key of [4 * nk] bytes has [nk + 7] of them. *)
Definition round_keys (key : list Z) : list (list Z) :=
  let nk := (length key / 4)%nat in
  let w := expand_key (4 * (nk + 7) - nk) nk nk 1 (reverse (blocks (length key) 4 key)) in
  let bytes := mjoin (reverse w) in
  blocks (length bytes) 16 bytes.

Definition ShiftRows (s : list Z) : list Z :=
  (fun i => nth ((i + 4 * (i `mod` 4)) `mod` 16) s 0) <$> seq 0 16.

Definition MixColumn (c : list Z) : list Z :=
  match c with
  | [a; b; c; d] =>
      let f x y z w := Z.lxor (Z.lxor (gf_mul x 2) (gf_mul y 3)) (Z.lxor z w) in
      [f a b c d; f b c d a; f c d a b; f d a b c]
  | _ => c
  end.

Fixpoint rounds (s : list Z) (ks : list (list Z)) : list Z :=
  match ks with
  | [] => s
  | [k] => xor_bytes (ShiftRows (sub <$> s)) k
  | k :: ks => rounds (xor_bytes (blocks 16 4 (ShiftRows (sub <$> s)) ≫= MixColumn) k) ks
  end.

Definition aes_encrypt (ks : list (list Z)) (block : list Z) : list Z :=
  match ks with
  | [] => block
  | k :: ks => rounds (xor_bytes block k) ks
  end.

(** [aes.NewCipher] accepts keys of 16, 24 and 32 bytes. *)
Definition NewCipher (key : list Z) : option (list (list Z)) :=
  if ((length key =? 16)%nat || (length key =? 24)%nat || (length key =? 32)%nat)
  then Some (round_keys key) else None.

(** ** Galois counter mode *)

Definition ghash_mul (x y : Z) : Z :=
  (foldl (fun '(z, v) i =>
     (if Z.testbit x (127 - i) then Z.lxor z v else z,
      if Z.odd v then Z.lxor (Z.div2 v) (Z.shiftl 0xe1 120) else Z.div2 v)) (0, y) (seqZ 0 128)).1.

Definition pad16 (l : list Z) : list Z := l ++ replicate (Z.to_nat (- Z.of_nat (length l) `mod` 16)) 0.

Definition ghash (h : Z) (data : list Z) : Z :=
  foldl (fun acc b => ghash_mul (Z.lxor acc (be_word b)) h) 0 (blocks (length data) 16 data).

(** The counter blocks [nonce || i], from 2. *)
Definition keystream (ks : list (list Z)) (nonce : list Z) (n : nat) : list Z :=
  seqZ 2 (Z.of_nat n) ≫= fun i => aes_encrypt ks (nonce ++ be_bytes 4 i).

Definition ctr (ks : list (list Z)) (nonce data : list Z) : list Z :=
  xor_bytes data (take (length data) (keystream ks nonce ((length data + 15) / 16))).

Definition gcm_tag (ks : list (list Z)) (nonce ct : list Z) : list Z :=
  let h := be_word (aes_encrypt ks (replicate 16 0)) in
  xor_bytes (be_bytes 16 (ghash h (pad16 ct ++ be_bytes 8 0 ++ be_bytes 8 (8 * Z.of_nat (length ct)))))
            (aes_encrypt ks (nonce ++ be_bytes 4 1)).

Definition gcm_Seal (ks : list (list Z)) (nonce pt : list Z) : list Z :=
  let ct := ctr ks nonce pt in ct ++ gcm_tag ks nonce ct.

(** [None]: the message is too short, or its tag is wrong. *)
Definition gcm_Open (ks : list (list Z)) (nonce sealed : list Z) : option (list Z) :=
  if (length sealed <? 16)%nat then None
  else
    let ct := take (length sealed - 16) sealed in
    if decide (drop (length sealed - 16) sealed = gcm_tag ks nonce ct)
    then Some (ctr ks nonce ct) else None.

(** ** Published vectors (FIPS 197, the GCM specification) *)

Example aes256_block :
  EncodeToString (aes_encrypt (round_keys (seqZ 0 32)) ((fun i => 17 * i) <$> seqZ 0 16)) =
  "8ea2b7ca516745bfeafc49904b496089".
Proof. vm_compute. reflexivity. Qed.
Example gcm_empty :
  EncodeToString (gcm_Seal (round_keys (replicate 32 0)) (replicate 12 0) []) =
  "530f8afbc74536b9a963b4f1c4cb738b".
Proof. vm_compute. reflexivity. Qed.
Example gcm_block :
  EncodeToString (gcm_Seal (round_keys (replicate 32 0)) (replicate 12 0) (replicate 16 0)) =
  "cea7403d4d606b6e074ec5d3baf39d18d0d1c8a799996bf0265b98b5d48ab919".
Proof. vm_compute. reflexivity. Qed.

(** ** Lengths *)

Lemma length_xor_bytes l k n : length l = n -> length k = n -> length (xor_bytes l k) = n.
Proof. intros. unfold xor_bytes. rewrite length_zip_with. lia. Qed.

Lemma length_ShiftRows s : length (ShiftRows s) = 16%nat.
Proof. done. Qed.

Lemma length_mix s : length s = 16%nat -> length (blocks 16 4 s ≫= MixColumn) = 16%nat.
Proof. intros H. do 17 (destruct s as [|? s]; try done). Qed.

Definition keys_ok (ks : list (list Z)) : Prop :=
  ks <> [] /\ Forall (fun k => length k = 16%nat) ks.

Lemma length_rounds ks s :
  Forall (fun k => length k = 16%nat) ks -> length s = 16%nat -> length (rounds s ks) = 16%nat.
Proof.
  intros Hks. revert s. induction Hks as [|k ks Hk Hks IH]; intros s Hs; cbn [rounds]; [done|].
  destruct ks as [|k' ks]; [by apply length_xor_bytes|].
  apply IH, length_xor_bytes; [by apply length_mix|done].
Qed.

Lemma length_aes ks block : keys_ok ks -> length block = 16%nat -> length (aes_encrypt ks block) = 16%nat.
Proof.
  intros [Hne Hks] Hb. destruct Hks; [done|]. apply length_rounds; [done|]. by apply length_xor_bytes.
Qed.

Lemma blocks_ok n m fuel (l : list Z) :
  (0 < n)%nat -> length l = (m * n)%nat -> (m <= fuel)%nat ->
  length (blocks fuel n l) = m /\ Forall (fun b => length b = n) (blocks fuel n l).
Proof.
  intros Hn. revert m l. induction fuel as [|fuel IH]; intros m l Hl Hm.
  { assert (m = 0%nat) as -> by lia. by simpl. }
  destruct m as [|m]; simpl.
  - destruct l; simpl in *; [done|lia].
  - destruct l as [|x l]; [simpl in Hl; lia|]. remember (x :: l) as k.
    destruct (IH m (drop n k)) as [H1 H2]; [rewrite length_drop; lia|lia|].
    split; [simpl; lia|]. constructor; [|done]. rewrite length_take. lia.
Qed.

Lemma length_mjoin_words (w : list (list Z)) :
  Forall (fun k => length k = 4%nat) w -> length (mjoin w) = (4 * length w)%nat.
Proof. induction 1 as [|x w Hx _ IH]; simpl; [done|]. rewrite length_app, IH. lia. Qed.

Lemma expand_key_ok fuel nk i rcon w :
  (0 < nk)%nat -> (nk <= length w)%nat -> Forall (fun k => length k = 4%nat) w ->
  Forall (fun k => length k = 4%nat) (expand_key fuel nk i rcon w) /\
  length (expand_key fuel nk i rcon w) = (fuel + length w)%nat.
Proof.
  intros Hnk. revert i rcon w. induction fuel as [|fuel IH]; intros i rcon w Hw Hall; [done|]. simpl.
  assert (forall n, (n < length w)%nat -> length (nth n w []) = 4%nat) as Hnth.
  { intros n Hn. rewrite Forall_forall in Hall. apply Hall, list_elem_of_In, nth_In, Hn. }
  assert (forall t, length t = 4%nat -> Forall (fun k => length k = 4%nat) (xor_bytes (nth (nk - 1) w []) t :: w))
    as Hstep by (intros t Ht; constructor; [|done]; apply length_xor_bytes; [apply Hnth; lia|done]).
  pose proof (Hnth 0%nat ltac:(lia)) as Hp.
  case_match; (edestruct IH as [H1 H2]; [| |split; [exact H1|rewrite H2; simpl; lia]]); try (simpl; lia);
    apply Hstep.
  - apply length_xor_bytes; [|done]. rewrite length_fmap, length_app, length_drop, length_take. lia.
  - case_match; [by rewrite length_fmap|done].
Qed.

Lemma round_keys_ok key :
  length key = 16%nat \/ length key = 24%nat \/ length key = 32%nat -> keys_ok (round_keys key).
Proof.
  intros Hk. unfold round_keys, keys_ok. set (nk := (length key / 4)%nat).
  assert (length key = (nk * 4)%nat) as Hnk by (unfold nk; destruct Hk as [-> | [-> | ->]]; reflexivity).
  assert (0 < nk)%nat by lia.
  destruct (blocks_ok 4 nk (length key) key) as [B1 B2]; [lia..|].
  destruct (expand_key_ok (4 * (nk + 7) - nk) nk nk 1 (reverse (blocks (length key) 4 key))) as [E1 E2].
  { lia. } { rewrite length_reverse. lia. } { by apply Forall_reverse. }
  set (bytes := mjoin (reverse _)).
  assert (length bytes = ((nk + 7) * 16)%nat) as Hlen.
  { unfold bytes. rewrite length_mjoin_words by (by apply Forall_reverse).
    rewrite length_reverse, E2, length_reverse, B1. lia. }
  destruct (blocks_ok 16 (nk + 7) (length bytes) bytes) as [C1 C2]; [lia..|].
  split; [|done]. intros E. rewrite E in C1. simpl in C1. lia.
Qed.

Lemma NewCipher_ok key ks : NewCipher key = Some ks -> keys_ok ks.
Proof.
  unfold NewCipher. case_match eqn:E; intros; simplify_eq. apply round_keys_ok.
  rewrite !orb_true_iff, !Nat.eqb_eq in E. tauto.
Qed.

(** ** Round trip *)

Section gcm.
Context (ks : list (list Z)) (Hks : keys_ok ks) (nonce : list Z) (Hn : length nonce = 12%nat).

Lemma length_counter i : length (aes_encrypt ks (nonce ++ be_bytes 4 i)) = 16%nat.
Proof using Hks Hn. apply length_aes; [done|]. rewrite length_app. destruct (be_bytes_ok 4 i) as [-> _]. lia. Qed.

Lemma length_keystream n : length (keystream ks nonce n) = (16 * n)%nat.
Proof using Hks Hn.
  unfold keystream.
  assert (forall l, length (l ≫= fun i => aes_encrypt ks (nonce ++ be_bytes 4 i)) = (16 * length l)%nat) as H.
  { induction l as [|i l IH]; [done|]. rewrite bind_cons, length_app, IH, length_counter. simpl. lia. }
  rewrite H, length_seqZ. lia.
Qed.

Lemma xor_involutive (l k : list Z) : (length l <= length k)%nat -> xor_bytes (xor_bytes l k) k = l.
Proof.
  revert k. induction l as [|x l IH]; intros [|y k] Hl; simpl in *; try done; [lia|].
  unfold xor_bytes in *. simpl. rewrite Z.lxor_assoc, Z.lxor_nilpotent, Z.lxor_0_r. f_equal. apply IH. lia.
Qed.

Lemma stream_long n : (n <= length (take n (keystream ks nonce ((n + 15) / 16))))%nat.
Proof using Hks Hn.
  rewrite length_take, length_keystream.
  pose proof (Nat.div_mod (n + 15) 16 ltac:(lia)). pose proof (Nat.mod_upper_bound (n + 15) 16 ltac:(lia)). lia.
Qed.

Lemma length_ctr data : length (ctr ks nonce data) = length data.
Proof using Hks Hn. unfold ctr, xor_bytes. rewrite length_zip_with. pose proof (stream_long (length data)). lia. Qed.

Lemma ctr_involutive data : ctr ks nonce (ctr ks nonce data) = data.
Proof using Hks Hn. unfold ctr at 1. rewrite length_ctr. apply xor_involutive, stream_long. Qed.

Lemma length_tag ct : length (gcm_tag ks nonce ct) = 16%nat.
Proof using Hks Hn. unfold gcm_tag. apply length_xor_bytes; [apply be_bytes_ok|apply length_counter]. Qed.

Lemma gcm_open_seal pt : gcm_Open ks nonce (gcm_Seal ks nonce pt) = Some pt.
Proof using Hks Hn.
  unfold gcm_Open, gcm_Seal. rewrite length_app, length_tag.
  destruct (Nat.ltb_spec (length (ctr ks nonce pt) + 16) 16); [lia|].
  replace (length (ctr ks nonce pt) + 16 - 16)%nat with (length (ctr ks nonce pt)) by lia.
  rewrite take_app_length, drop_app_length, decide_True by done. by rewrite ctr_involutive.
Qed.
End gcm.
