(* ===== verification/Secure.v ===== *)
(** * Encryption at rest and file signatures ([pkg/secure]: [crypto.go],
    [encrypted_store.go], [sstsign.go], [verify.go])

    Key derivation is compared with the definition of PBKDF2, encryption with its
    inverse, the encrypting wrapper of the database with a plain map, and signature
    checks with the contents of the signed files.  Random bytes, file contents and
    directory walks are arguments; [None] stands for a failed read. *)
From Stdlib Require Import Ascii Sorted.
From S2P Require Import Prelude GoStrings Sha256 Aes KV.

Definition AESKeySize : nat := 32.
Definition NonceSize : nat := 12.
Definition pbkdf2Iters : Z := 600000.
Definition pbkdf2KeyLen : nat := 32.

(** ** Key derivation *)

(** [for i := 1; i < iter; i++]: [u] is the last hash and [blockKey] the running sum. *)
Fixpoint pbkdf2_loop (n : nat) (password u blockKey : bytes) : bytes :=
  match n with
  | O => blockKey
  | S n =>
      let u := hmac_sha256 password u in
      pbkdf2_loop n password u (xor_bytes blockKey u)
  end.

Definition block_bytes (block : Z) : bytes :=
  [u8 (Z.shiftr block 24); u8 (Z.shiftr block 16); u8 (Z.shiftr block 8); u8 block].

Definition pbkdf2_block (password salt : bytes) (iter : Z) (block : Z) : bytes :=
  let u := hmac_sha256 password (salt ++ block_bytes block) in
  pbkdf2_loop (Z.to_nat (iter - 1)) password u u.

Definition pbkdf2HMACSHA256 (password salt : bytes) (iter : Z) (keyLen : nat) : bytes :=
  let numBlocks := ((keyLen + 32 - 1) / 32)%nat in
  take keyLen (foldl (fun dk block => dk ++ pbkdf2_block password salt iter block) []
                     (seqZ 1 (Z.of_nat numBlocks))).

Definition DeriveKey (passphrase : string) (salt : option bytes) : bytes :=
  let p := bytes_of_string passphrase in
  pbkdf2HMACSHA256 p (default (take 16 (Sum256 p)) salt) pbkdf2Iters pbkdf2KeyLen.

Definition DeprecatedDeriveKey (passphrase : string) : bytes := Sum256 (bytes_of_string passphrase).

(** ** Encryption *)

(** [rnd]: the bytes read from the random source, of the requested length. *)
Definition Encrypt (key : bytes) (rnd : option bytes) (plaintext : bytes) : string + bytes :=
  match NewCipher key with
  | None => inl "aes: invalid key size"
  | Some ks =>
      match rnd with
      | None => inl "nonce: read failed"
      | Some nonce => inr (nonce ++ gcm_Seal ks nonce plaintext)
      end
  end.

Definition Decrypt (key ciphertext : bytes) : string + bytes :=
  match NewCipher key with
  | None => inl "aes: invalid key size"
  | Some ks =>
      if (length ciphertext <? NonceSize)%nat then inl "ciphertext too short"
      else
        let nonce := take NonceSize ciphertext in
        let sealed := drop NonceSize ciphertext in
        match gcm_Open ks nonce sealed with
        | None => inl "decrypt: message authentication failed"
        | Some plaintext => inr plaintext
        end
  end.

(** The result, and the contents written to the key file.  [mkdir] and [write] are the
    errors of those calls, [file] what reading the file gives. *)
Definition LoadOrGenerateKey (mkdir : option string) (file : option bytes) (rnd : option bytes)
    (write : option string) : (string + bytes) * option bytes :=
  match mkdir with
  | Some e => (inl ("key dir: " +:+ e), None)
  | None =>
      let generate :=
        match rnd with
        | None => (inl "generate key: read failed", None)
        | Some key =>
            match write with
            | Some e => (inl ("write key: " +:+ e), None)
            | None => (inr key, Some key)
            end
        end in
      match file with
      | Some data => if (length data =? AESKeySize)%nat then (inr data, None) else generate
      | None => generate
      end
  end.

Definition ConstantTimeCompare (a b : string) : bool :=
  let l := bytes_of_string a in
  let k := bytes_of_string b in
  if (length l =? length k)%nat
  then foldl (fun v '(x, y) => Z.lor v (Z.lxor x y)) 0 (zip l k) =? 0
  else false.

(** ** The encrypting wrapper of the database *)

Section encrypted_store.
Context `{Pebble}.

Record EncryptedStore := mkEncryptedStore { es_db : DB; es_key : bytes }.

Definition es_Get (k : string) (es : EncryptedStore) : string + option bytes :=
  match db_Get (es_db es) k with
  | inl e => inl e
  | inr None => inr None
  | inr (Some enc) => match Decrypt (es_key es) enc with inl e => inl e | inr p => inr (Some p) end
  end.

Definition es_Set (k : string) (value : bytes) (rnd : option bytes) (es : EncryptedStore)
  : EncryptedStore * option string :=
  match Encrypt (es_key es) rnd value with
  | inl e => (es, Some e)
  | inr enc => let '(d, err) := db_Set k enc (es_db es) in (mkEncryptedStore d (es_key es), err)
  end.

Definition es_Delete (k : string) (es : EncryptedStore) : EncryptedStore * option string :=
  let '(d, err) := db_Delete k (es_db es) in (mkEncryptedStore d (es_key es), err).

(** The iterator's value is nil ([[]]) when it does not decrypt. *)
Definition ei_Value (key enc : bytes) : bytes :=
  match Decrypt key enc with inl _ => [] | inr p => p end.

Definition es_NewIter (lo hi : string) (es : EncryptedStore)
  : string + list (string * bytes) * option string :=
  match db_Iter (es_db es) lo hi with
  | inl e => inl e
  | inr (l, err) => inr ((fun '(k, v) => (k, ei_Value (es_key es) v)) <$> l, err)
  end.
End encrypted_store.

(** ** Signatures of table files *)

Record SSTSignature := mkSig {
  FilePath : string; FileSize : Z; SHA256 : string; sig_Timestamp : Z; Signature : string;
}.

Record SSTSigner := mkSigner { storeDir : string; hmacKey : bytes; sigs : list SSTSignature }.

Definition NewSSTSigner (dir : string) (key : bytes) : SSTSigner := mkSigner dir key [].

Definition computeHMAC (key : bytes) (path : string) (fileHash : bytes) (size : Z) : string :=
  EncodeToString (hmac_sha256 key (bytes_of_string path ++ fileHash ++ bytes_of_string (pretty size))).

Definition add_sigs (l : list SSTSignature) (ss : SSTSigner) : SSTSigner :=
  mkSigner (storeDir ss) (hmacKey ss) (sigs ss ++ l).

(** [data] and [size]: what reading the file and [Stat] give. *)
Definition SignFile (path : string) (data : option bytes) (size : option Z) (now : time) (ss : SSTSigner)
  : SSTSigner * (string + SSTSignature) :=
  match data, size with
  | None, _ => (ss, inl ("read " +:+ path))
  | _, None => (ss, inl "stat")
  | Some d, Some n =>
      let hash := Sum256 d in
      let sig := mkSig path n (EncodeToString hash) (time_UnixNano now)
                   (computeHMAC (hmacKey ss) path hash n) in
      (add_sigs [sig] ss, inr sig)
  end.

Definition VerifyFile (sig : SSTSignature) (data : option bytes) (ss : SSTSigner) : string + bool :=
  match data with
  | None => inl "read"
  | Some d =>
      let hash := Sum256 d in
      if decide (EncodeToString hash = SHA256 sig)
      then inr (bool_decide (Signature sig = computeHMAC (hmacKey ss) (FilePath sig) hash (FileSize sig)))
      else inr false
  end.

(** [filepath.Ext]: from the last dot of the last path element; empty without a dot. *)
Fixpoint ext_rev (acc l : list ascii) : list ascii :=
  match l with
  | [] => []
  | c :: l => if decide (c = "/"%char) then []
              else if decide (c = "."%char) then c :: acc else ext_rev (c :: acc) l
  end.
Definition filepath_Ext (path : string) : string :=
  String.string_of_list_ascii (ext_rev [] (reverse (chars path))).

(** A file as the walk and the later reads see it. *)
Record file := mkFile { f_path : string; f_isDir : bool; f_data : option bytes; f_size : option Z }.

(** The callback of [filepath.Walk], on the files in walking order; it stops at the
    first error. *)
Fixpoint sign_walk (now : time) (files : list file) (signed : list SSTSignature) (ss : SSTSigner)
  : SSTSigner * list SSTSignature * option string :=
  match files with
  | [] => (ss, signed, None)
  | f :: files =>
      if f_isDir f || negb (bool_decide (filepath_Ext (f_path f) = ".sst"))
      then sign_walk now files signed ss
      else
        match SignFile (f_path f) (f_data f) (f_size f) now ss with
        | (ss, inl e) => (ss, signed, Some ("sign " +:+ f_path f +:+ ": " +:+ e))
        | (ss, inr sig) => sign_walk now files (signed ++ [sig]) ss
        end
  end.

Definition SignAllSSTFiles (now : time) (files : list file) (walk_err : option string) (ss : SSTSigner)
  : SSTSigner * list SSTSignature * option string :=
  let '(ss, signed, err) := sign_walk now files [] ss in
  match err, walk_err with
  | Some e, _ | None, Some e => (ss, signed, Some e)
  | None, None => (add_sigs signed ss, signed, None)
  end.

(** ** The verifier *)

(** [loaded]: the signature list, or [None] when [LoadSignatures] fails. *)
Definition verifyFile (f : file) (loaded : option (list SSTSignature)) : string + bool :=
  match f_size f with
  | None => inl "stat"
  | Some n =>
      if n =? 0 then inl "empty file"
      else if decide (filepath_Ext (f_path f) = ".sst") then
        match loaded with
        | None => inr true
        | Some l =>
            match List.find (fun s => bool_decide (FilePath s = f_path f)) l with
            | None => inr true
            | Some s =>
                inr (bool_decide (EncodeToString (Sum256 (default [] (f_data f))) = SHA256 s))
            end
        end
      else inr true
  end.

Record VerificationResult := mkResult {
  TotalFiles : Z; FilesChecked : Z; FilesIntact : Z; FilesTampered : Z;
  AnchorsFound : Z; AnchorsValid : Z; AnchorsFailed : Z; Errors : list string;
}.

Definition check_file (loaded : option (list SSTSignature)) (r : VerificationResult) (f : file)
  : VerificationResult :=
  let checked := FilesChecked r + 1 in
  match verifyFile f loaded with
  | inl e => mkResult (TotalFiles r) checked (FilesIntact r) (FilesTampered r) (AnchorsFound r)
               (AnchorsValid r) (AnchorsFailed r) (Errors r ++ [f_path f +:+ ": " +:+ e])
  | inr true => mkResult (TotalFiles r) checked (FilesIntact r + 1) (FilesTampered r) (AnchorsFound r)
                  (AnchorsValid r) (AnchorsFailed r) (Errors r)
  | inr false => mkResult (TotalFiles r) checked (FilesIntact r) (FilesTampered r + 1) (AnchorsFound r)
                   (AnchorsValid r) (AnchorsFailed r) (Errors r ++ [f_path f +:+ ": TAMPERED"])
  end.

Definition check_anchor (r : VerificationResult) (a : string * option bytes) : VerificationResult :=
  match a.2 with
  | None => mkResult (TotalFiles r) (FilesChecked r) (FilesIntact r) (FilesTampered r) (AnchorsFound r)
              (AnchorsValid r) (AnchorsFailed r + 1) (Errors r ++ ["anchor " +:+ a.1])
  | Some d => mkResult (TotalFiles r) (FilesChecked r) (FilesIntact r) (FilesTampered r) (AnchorsFound r)
                (if (0 <? length d)%nat then AnchorsValid r + 1 else AnchorsValid r)
                (AnchorsFailed r) (Errors r)
  end.

Definition check_missing (exists_ : string -> bool) (r : VerificationResult) (sig : SSTSignature)
  : VerificationResult :=
  if exists_ (FilePath sig) then r
  else mkResult (TotalFiles r) (FilesChecked r) (FilesIntact r) (FilesTampered r + 1) (AnchorsFound r)
         (AnchorsValid r) (AnchorsFailed r)
         (Errors r ++ ["MISSING: " +:+ FilePath sig +:+ " (signature exists but file missing)"]).

Definition data_file (f : file) : bool :=
  negb (f_isDir f)
  && bool_decide (filepath_Ext (f_path f) ∈ [".sst"; ".log"; ".json"; ".ndjson"]).

(** [walk]: the files of the data directory in walking order, or the error of the walk;
    [anchors]: the anchor files; [sig_stat]: whether the signature file exists. *)
Definition VerifyAll (walk : string + list file) (anchors : list (string * option bytes))
    (sig_stat : bool) (loaded : option (list SSTSignature)) (exists_ : string -> bool)
  : string + VerificationResult :=
  match walk with
  | inl e => inl ("walk: " +:+ e)
  | inr all =>
      let files := List.filter data_file all in
      let r := mkResult (Z.of_nat (length files)) 0 0 0 0 0 0 [] in
      let r := foldl (check_file loaded) r files in
      let r := mkResult (TotalFiles r) (FilesChecked r) (FilesIntact r) (FilesTampered r)
                 (Z.of_nat (length anchors)) (AnchorsValid r) (AnchorsFailed r) (Errors r) in
      let r := foldl check_anchor r anchors in
      inr (if sig_stat then
             match loaded with
             | None => mkResult (TotalFiles r) (FilesChecked r) (FilesIntact r) (FilesTampered r)
                         (AnchorsFound r) (AnchorsValid r) (AnchorsFailed r)
                         (Errors r ++ ["load signatures"])
             | Some l => foldl (check_missing exists_) r l
             end
           else r)
  end.

(** ** Key derivation is PBKDF2 *)

(** RFC 8018: block [i] is the sum of [c] iterates of the keyed hash, the first of which
    is that of the salt followed by [i] in big-endian order; the key is a prefix of the
    concatenated blocks. *)
Definition prf_iterate (password salt : bytes) (i : Z) (j : nat) : bytes :=
  Nat.iter j (hmac_sha256 password) (hmac_sha256 password (salt ++ be_bytes 4 i)).
Definition pbkdf2_F (password salt : bytes) (c : nat) (i : Z) : bytes :=
  foldl xor_bytes (prf_iterate password salt i 0) (prf_iterate password salt i <$> seq 1 (c - 1)).
Definition pbkdf2_spec (password salt : bytes) (c keyLen : nat) : bytes :=
  take keyLen (seqZ 1 (Z.of_nat ((keyLen + 31) / 32)) ≫= pbkdf2_F password salt c).

Lemma block_bytes_be b : block_bytes b = be_bytes 4 b.
Proof.
  unfold block_bytes, be_bytes, u8. change (reverse (seqZ 0 (Z.of_nat 4))) with [3; 2; 1; 0].
  change 0xff with (Z.ones 8). simpl. rewrite !Z.land_ones by lia. by rewrite Z.shiftr_0_r.
Qed.

Lemma pbkdf2_loop_spec p n j u0 acc :
  pbkdf2_loop n p (Nat.iter j (hmac_sha256 p) u0) acc =
  foldl xor_bytes acc ((fun k => Nat.iter k (hmac_sha256 p) u0) <$> seq (S j) n).
Proof.
  revert j acc. induction n as [|n IH]; intros j acc; [done|].
  cbn [pbkdf2_loop seq fmap list_fmap foldl].
  change (hmac_sha256 p (Nat.iter j (hmac_sha256 p) u0)) with (Nat.iter (S j) (hmac_sha256 p) u0).
  apply IH.
Qed.

Lemma foldl_concat {A} (f : A -> bytes) l acc : foldl (fun dk x => dk ++ f x) acc l = acc ++ (l ≫= f).
Proof.
  revert acc. induction l as [|x l IH]; intros acc; simpl; [by rewrite app_nil_r|].
  by rewrite IH, <-(assoc_L (++)).
Qed.

(** The hand-written key derivation computes PBKDF2-HMAC-SHA256 as RFC 8018 defines
    it, for every password, salt, key length and number of iterations. *)
Lemma pbkdf2_correct (password salt : bytes) (iter : Z) (keyLen : nat) :
  pbkdf2HMACSHA256 password salt iter keyLen = pbkdf2_spec password salt (Z.to_nat iter) keyLen.
Proof.
  unfold pbkdf2HMACSHA256, pbkdf2_spec. rewrite foldl_concat. simpl.
  replace (keyLen + 32 - 1)%nat with (keyLen + 31)%nat by lia. f_equal.
  apply list_bind_ext; [|done]. intros i. unfold pbkdf2_block, pbkdf2_F. rewrite block_bytes_be.
  replace (Z.to_nat (iter - 1)) with (Z.to_nat iter - 1)%nat by lia.
  apply (pbkdf2_loop_spec password _ 0).
Qed.

(** ** Encryption *)

Lemma decrypt_encrypt key nonce p c :
  length nonce = NonceSize -> Encrypt key (Some nonce) p = inr c -> Decrypt key c = inr p.
Proof.
  intros Hn. unfold Encrypt, Decrypt. destruct (NewCipher key) as [ks|] eqn:Hks; [|done].
  intros [= <-]. apply NewCipher_ok in Hks. rewrite length_app, Hn.
  destruct (Nat.ltb_spec (NonceSize + length (gcm_Seal ks nonce p)) NonceSize); [unfold NonceSize in *; lia|].
  rewrite <-Hn, take_app_length, drop_app_length. by rewrite gcm_open_seal.
Qed.

(** A key that works in one direction works in the other. *)
Lemma encrypt_error key rnd p e : Encrypt key rnd p = inl e -> NewCipher key = None \/ rnd = None.
Proof. unfold Encrypt. destruct (NewCipher key), rnd; auto; done. Qed.

Lemma lor_zero_iff l k v :
  Forall is_byte l -> Forall is_byte k -> 0 <= v -> length l = length k ->
  foldl (fun v '(x, y) => Z.lor v (Z.lxor x y)) v (zip l k) = 0 <-> v = 0 /\ l = k.
Proof.
  intros Hl. revert v k. induction Hl as [|x l Hx Hl IH]; intros v [|y k] Hk Hv Hlen; try done.
  { simpl. tauto. }
  inversion_clear Hk. injection Hlen as Hlen. simpl.
  assert (0 <= Z.lxor x y) by (apply Z.lxor_nonneg; unfold is_byte in *; lia).
  rewrite IH; [|done|by apply Z.lor_nonneg|done]. rewrite Z.lor_eq_0_iff, Z.lxor_eq_0_iff. naive_solver.
Qed.

Lemma bytes_of_string_ok s : Forall is_byte (bytes_of_string s).
Proof. unfold bytes_of_string. apply Forall_fmap, Forall_forall. intros c _. apply byteval_range. Qed.

Lemma constant_time_compare_eq a b : ConstantTimeCompare a b = bool_decide (a = b).
Proof.
  unfold ConstantTimeCompare. destruct (Nat.eqb_spec (length (bytes_of_string a)) (length (bytes_of_string b))) as [E|E].
  - apply eq_bool_prop_intro. rewrite bool_decide_spec, Is_true_true, Z.eqb_eq.
    rewrite lor_zero_iff by (try apply bytes_of_string_ok; done || lia).
    split; [|intros ->; auto]. intros [_ H]. by rewrite <-(string_of_bytes_of_string a), H, string_of_bytes_of_string.
  - rewrite bool_decide_eq_false_2; [done|]. intros ->. done.
Qed.

Section encrypted_store_spec.
Context `{Pebble}.

(** The map a user of the wrapper sees: entries that decrypt under the key. *)
Definition es_holds (es : EncryptedStore) (m : gmap string bytes) : Prop :=
  forall k, match m !! k with
            | Some p => exists c, db_entries (es_db es) !! k = Some c /\ Decrypt (es_key es) c = inr p
            | None => db_entries (es_db es) !! k = None
            end.

Lemma es_holds_lookup es m k p :
  es_holds es m -> m !! k = Some p ->
  exists c, db_entries (es_db es) !! k = Some c /\ Decrypt (es_key es) c = inr p.
Proof. intros Hh Hk. specialize (Hh k). by rewrite Hk in Hh. Qed.

(** [C34] The encrypting wrapper refines a plain map: with a fresh nonce, writes and
    deletions that report no error act on the represented map, and reads that report no
    error, single or by range, return its plain values. *)
Theorem encrypted_store_refines (es : EncryptedStore) (m : gmap string bytes) (Hm : es_holds es m) :
  (forall k v nonce es', length nonce = NonceSize -> es_Set k v (Some nonce) es = (es', None) ->
     es_holds es' (<[k := v]> m)) /\
  (forall k es', es_Delete k es = (es', None) -> es_holds es' (delete k m)) /\
  (forall k r, es_Get k es = inr r -> r = m !! k) /\
  (forall lo hi l, es_NewIter lo hi es = inr (l, None) ->
     (forall k v, (k, v) ∈ l <-> m !! k = Some v /\ in_range lo hi k) /\ StronglySorted str_lt l.*1).
Proof.
  split_and!.
  - intros k v nonce es' Hn. unfold es_Set. destruct (Encrypt _ _ _) as [|c] eqn:Hc; [done|].
    destruct (db_Set _ _ _) as [d [e|]] eqn:Hd; intros; simplify_eq. intros k'. simpl.
    rewrite (db_Set_entries _ _ _ _ Hd). destruct (decide (k' = k)) as [->|].
    + rewrite !lookup_insert_eq. exists c. split; [done|]. by eapply decrypt_encrypt.
    + rewrite !lookup_insert_ne by done. apply Hm.
  - intros k es'. unfold es_Delete. destruct (db_Delete _ _) as [d [e|]] eqn:Hd; intros; simplify_eq.
    intros k'. simpl. rewrite (db_Delete_entries _ _ _ Hd). destruct (decide (k' = k)) as [->|].
    + by rewrite !lookup_delete_eq.
    + rewrite !lookup_delete_ne by done. apply Hm.
  - intros k r. unfold es_Get. specialize (Hm k). destruct (db_Get _ _) as [|o] eqn:Ho; [done|].
    apply db_Get_entries in Ho. destruct o as [c|]; rewrite <-Ho in Hm.
    + destruct (m !! k) as [p|]; [|done]. destruct Hm as (c' & [= <-] & ->). by intros [= <-].
    + destruct (m !! k); [|by intros [= <-]]. by destruct Hm as (? & ? & _).
  - intros lo hi l. unfold es_NewIter. destruct (db_Iter _ _ _) as [|[l' [e|]]] eqn:Hi; [done|done|].
    intros [= <-]. pose proof (db_Iter_elem _ _ _ _ Hi) as Hel. pose proof (db_Iter_sorted _ _ _ _ Hi) as Hs.
    split; [|by rewrite <-list_fmap_compose, (list_fmap_ext _ fst) by (by intros ? []) ].
    intros k v. rewrite list_elem_of_fmap. split.
    + intros ([k' c] & [= -> ->] & [Hk Hr]%Hel). specialize (Hm k'). rewrite Hk in Hm.
      destruct (m !! k') as [p|]; [|done]. destruct Hm as (c' & [= <-] & Hp). unfold ei_Value. by rewrite Hp.
    + intros [Hk Hr]. destruct (es_holds_lookup es m k v Hm Hk) as (c & Hc & Hp). exists (k, c).
      unfold ei_Value. rewrite Hp. split; [done|]. by apply Hel.
Qed.
End encrypted_store_spec.

Definition sample_key : bytes := replicate 32 7.
Definition sample_es : EncryptedStore (H := map_pebble) := mkEncryptedStore (H := map_pebble) ∅ sample_key.
Definition sample_es' : EncryptedStore (H := map_pebble) :=
  (es_Set (H := map_pebble) "k" [1; 2; 3] (Some (replicate 12 9)) sample_es).1.

Lemma encrypted_store_refines_witness :
  es_holds (H := map_pebble) sample_es' {[ "k" := [1; 2; 3] ]} /\
  es_Get (H := map_pebble) "k" sample_es' = inr (Some [1; 2; 3]).
Proof.
  assert (es_holds (H := map_pebble) sample_es ∅) as H0 by (intros k; simpl; by rewrite !lookup_empty).
  split; [|vm_compute; reflexivity].
  apply (proj1 (encrypted_store_refines (H := map_pebble) sample_es ∅ H0) "k" [1; 2; 3] (replicate 12 9));
    [reflexivity|].
  rewrite (surjective_pairing (es_Set _ _ _ _)). apply (f_equal (pair sample_es')). vm_compute. reflexivity.
Defined.

(** ** Signatures *)

(** A signature made by [SignFile] is accepted for the contents it was made for; if
    the signer accepts it for other contents, the two contents are a collision of
    SHA-256. *)
Lemma sst_tamper_evident (ss ss' : SSTSigner) (path : string) (d : bytes) (n : Z) (now : time)
    (sig : SSTSignature) (H : SignFile path (Some d) (Some n) now ss = (ss', inr sig)) :
  VerifyFile sig (Some d) ss' = inr true /\
  forall d', VerifyFile sig (Some d') ss' = inr true -> d' = d \/ (d' <> d /\ Sum256 d' = Sum256 d).
Proof.
  unfold SignFile in H. simplify_eq. unfold VerifyFile. simpl. split.
  - rewrite decide_True by done. by rewrite bool_decide_eq_true_2.
  - intros d' Hv. destruct (decide (d' = d)); [by left|right]. split; [done|].
    case_decide as E; [|done]. apply hex_inj in E; [done|apply Sum256_ok|apply Sum256_ok].
Qed.

Definition sample_signer : SSTSigner := NewSSTSigner "/var/lib/store" [1; 2; 3; 4].
Definition sample_sig : SSTSignature :=
  Eval vm_compute in
  match SignFile "/a.sst" (Some [5; 6]) (Some 2) unix_epoch sample_signer with
  | (_, inr sig) => sig | _ => mkSig "" 0 "" 0 "" end.

Lemma sst_tamper_evident_witness :
  VerifyFile sample_sig (Some [5; 6]) (add_sigs [sample_sig] sample_signer) = inr true /\
  VerifyFile sample_sig (Some [5; 7]) (add_sigs [sample_sig] sample_signer) = inr false.
Proof.
  split; [|vm_compute; reflexivity].
  apply (sst_tamper_evident sample_signer (add_sigs [sample_sig] sample_signer) "/a.sst" [5; 6] 2 unix_epoch).
  vm_compute. reflexivity.
Defined.

(** Signing a directory records every signature twice. *)
Lemma sign_all_twice now files ss ss' signed :
  SignAllSSTFiles now files None ss = (ss', signed, None) -> sigs ss' = sigs ss ++ signed ++ signed.
Proof.
  unfold SignAllSSTFiles. destruct (sign_walk now files [] ss) as [[ss1 l] [e|]] eqn:Hw; [done|].
  intros [= <- <-]. simpl. rewrite (assoc_L (++)). f_equal.
  assert (forall files acc ss ss1 l, sign_walk now files acc ss = (ss1, l, None) ->
    exists new, l = acc ++ new /\ sigs ss1 = sigs ss ++ new) as Hgen.
  { clear. intros files. induction files as [|f files IH]; intros acc ss ss1 l; simpl.
    - intros [= <- <-]. exists []. by rewrite !app_nil_r.
    - case_match; [by apply IH|]. destruct (SignFile _ _ _ _ _) as [ss2 [e|sig]] eqn:Hs; [done|].
      intros (new & -> & Hn)%IH. exists (sig :: new). rewrite <-(assoc_L (++)). split; [done|].
      unfold SignFile in Hs. repeat case_match; simplify_eq. rewrite Hn. simpl. by rewrite <-(assoc_L (++)). }
  by destruct (Hgen _ _ _ _ _ Hw) as (new & -> & ->).
Qed.

(** The verifier compares hashes only: it accepts any contents whose hash the signature
    file records, whatever the recorded signature. *)
Lemma verifier_ignores_hmac f d s l :
  f_data f = Some d -> f_size f = Some (Z.of_nat (length d)) -> d <> [] -> FilePath s = f_path f ->
  SHA256 s = EncodeToString (Sum256 d) -> verifyFile f (Some (s :: l)) = inr true.
Proof.
  intros Hd Hn Hne Hp Hs. unfold verifyFile. rewrite Hn, Hd. destruct (Z.eqb_spec (Z.of_nat (length d)) 0).
  { exfalso. apply Hne, nil_length_inv. lia. }
  case_decide; [|done]. cbn [List.find default from_option].
  rewrite bool_decide_eq_true_2 by done. rewrite Hs. by rewrite bool_decide_eq_true_2.
Qed.

(** The counters of a scan add up: every data file is intact, tampered or an error. *)
Lemma verify_all_counts walk anchors st loaded ex r :
  VerifyAll (inr walk) anchors st loaded ex = inr r ->
  TotalFiles r = Z.of_nat (length (List.filter data_file walk)) /\ FilesChecked r = TotalFiles r /\
  AnchorsFound r = Z.of_nat (length anchors) /\ AnchorsValid r + AnchorsFailed r <= AnchorsFound r.
Proof.
  unfold VerifyAll. intros [= <-]. set (files := List.filter data_file walk).
  assert (forall fs r0, let r1 := foldl (check_file loaded) r0 fs in
    TotalFiles r1 = TotalFiles r0 /\ FilesChecked r1 = FilesChecked r0 + Z.of_nat (length fs) /\
    AnchorsValid r1 = AnchorsValid r0 /\ AnchorsFailed r1 = AnchorsFailed r0) as Hf.
  { induction fs as [|f fs IH]; intros r0; simpl; [split_and!; lia|].
    destruct (IH (check_file loaded r0 f)) as (-> & -> & -> & ->).
    unfold check_file. destruct (verifyFile f loaded) as [|[]]; simpl; split_and!; lia. }
  assert (forall l r0, let r1 := foldl check_anchor r0 l in
    TotalFiles r1 = TotalFiles r0 /\ FilesChecked r1 = FilesChecked r0 /\ AnchorsFound r1 = AnchorsFound r0 /\
    AnchorsValid r1 + AnchorsFailed r1 <= AnchorsValid r0 + AnchorsFailed r0 + Z.of_nat (length l)) as Ha.
  { induction l as [|a l IH]; intros r0; simpl; [split_and!; lia|].
    destruct (IH (check_anchor r0 a)) as (-> & -> & -> & ?).
    unfold check_anchor in *. repeat case_match; simpl in *; split_and!; lia. }
  assert (forall l r0, let r1 := foldl (check_missing ex) r0 l in
    TotalFiles r1 = TotalFiles r0 /\ FilesChecked r1 = FilesChecked r0 /\ AnchorsFound r1 = AnchorsFound r0 /\
    AnchorsValid r1 = AnchorsValid r0 /\ AnchorsFailed r1 = AnchorsFailed r0) as Hm.
  { induction l as [|a l IH]; intros r0; simpl; [done|].
    destruct (IH (check_missing ex r0 a)) as (-> & -> & -> & -> & ->). unfold check_missing. by case_match. }
  pose proof (Hf files (mkResult (Z.of_nat (length files)) 0 0 0 0 0 0 [])) as F. simpl in F.
  set (r1 := foldl (check_file loaded) _ files) in *. destruct F as (F1 & F2 & F3 & F4).
  match goal with |- context [foldl check_anchor ?r0 anchors] => pose proof (Ha anchors r0) as A end.
  simpl in A. set (r2 := foldl check_anchor _ anchors) in *. destruct A as (A1 & A2 & A3 & A4).
  destruct st; [destruct loaded as [l|]|]; simpl; try (destruct (Hm l r2) as (-> & -> & -> & -> & ->));
    split_and!; simpl in *; lia.
Qed.
