(* ===== verification/Store.v ===== *)
(** * The persistent store ([internal/storage/store/store.go])

    Nodes and edges are written as JSON, encrypted when a key is set, through an indexed
    write batch that is committed when it is full, before range scans, and on demand.
    The database is the class [Pebble] of [KV]; JSON coding of nodes and edges is the
    class [Json], which promises that scalar fields survive (attribute values may change
    their dynamic type).  The abstract state is a map from keys to items. *)
From Stdlib Require Import Ascii.
From S2P Require Import Prelude GoStrings ProvGraph Sha256 Aes KV Secure.

(** ** JSON coding *)

(** Decoding replaces bytes that are not UTF-8, so only such strings survive. *)
Definition edge_utf8 (e : Edge.t) : bool :=
  valid_utf8 (Edge.ID e) && valid_utf8 (Edge.Source e)
  && valid_utf8 (Edge.Target e) && valid_utf8 (Edge.Relation e).
Definition node_utf8 (n : Node.t) : bool :=
  valid_utf8 (Node.ID n) && valid_utf8 (Node.ProvType n)
  && valid_utf8 (Node.Subtype n) && valid_utf8 (Node.Label n).

(** Equal up to attributes. *)
Definition same_edge (e e' : Edge.t) : Prop :=
  Edge.ID e = Edge.ID e' /\ Edge.Source e = Edge.Source e' /\ Edge.Target e = Edge.Target e' /\
  Edge.Relation e = Edge.Relation e' /\ Edge.Timestamp e = Edge.Timestamp e' /\ Edge.Count e = Edge.Count e'.
Definition same_node (n n' : Node.t) : Prop :=
  Node.ID n = Node.ID n' /\ Node.ProvType n = Node.ProvType n' /\ Node.Subtype n = Node.Subtype n' /\
  Node.Label n = Node.Label n' /\ Node.FirstSeen n = Node.FirstSeen n' /\ Node.LastSeen n = Node.LastSeen n'.

(** What a read returns for a stored value: the same scalar fields, if they are UTF-8. *)
Definition read_edge (e e' : Edge.t) : Prop := edge_utf8 e = true -> same_edge e e'.
Definition read_node (n n' : Node.t) : Prop := node_utf8 n = true -> same_node n n'.

#[global] Instance same_edge_equiv : Equivalence same_edge.
Proof. unfold same_edge. split; repeat intro; intuition congruence. Qed.
#[global] Instance same_node_equiv : Equivalence same_node.
Proof. unfold same_node. split; repeat intro; intuition congruence. Qed.

Class Json := {
  marshal_node : Node.t -> string + bytes;
  unmarshal_node : bytes -> string + Node.t;
  marshal_edge : Edge.t -> string + bytes;
  unmarshal_edge : bytes -> string + Edge.t;
  node_roundtrip : forall n b, node_utf8 n = true -> marshal_node n = inr b ->
    exists n', unmarshal_node b = inr n' /\ same_node n n';
  edge_roundtrip : forall e b, edge_utf8 e = true -> marshal_edge e = inr b ->
    exists e', unmarshal_edge b = inr e' /\ same_edge e e';
}.

(** ** Keys *)

Definition nodeKey (id : string) : string := "n:" +:+ id.
Definition edgeKey (ts : Z) (source target : string) : string :=
  "e:" +:+ dec020 ts +:+ ":" +:+ source +:+ ":" +:+ target.
Definition reverseEdgeKey (ts : Z) (target source : string) : string :=
  "r:" +:+ target +:+ ":" +:+ dec020 ts +:+ ":" +:+ source.

Section store.
Context `{Pebble} `{Json}.

Record Store := mkStore {
  db : DB; wb : Batch; wbCap : Z; closed : bool; encKey : option bytes;
}.

Definition set_db (d : DB) (s : Store) : Store := mkStore d (wb s) (wbCap s) (closed s) (encKey s).
Definition set_wb (b : Batch) (s : Store) : Store := mkStore (db s) b (wbCap s) (closed s) (encKey s).

(** [opened]: the result of [pebble.Open]. *)
Definition Open (opened : string + DB) (key : option bytes) : string + Store :=
  match opened with
  | inl e => inl ("pebble open: " +:+ e)
  | inr d => inr (mkStore d (NewIndexedBatch d) 200 false key)
  end.

Definition encrypt (rnd : option bytes) (data : bytes) (s : Store) : string + bytes :=
  match encKey s with None => inr data | Some key => Encrypt key rnd data end.
Definition decrypt (data : bytes) (s : Store) : string + bytes :=
  match encKey s with None => inr data | Some key => Decrypt key data end.

(** ** Batches *)

Definition flushLocked (s : Store) : Store * option string :=
  if batch_Count (wb s) =? 0 then (s, None)
  else
    match batch_Commit (wb s) (db s) with
    | (d, Some e) => (set_db d s, Some ("batch commit: " +:+ e))
    | (d, None) => (set_wb (NewIndexedBatch d) (set_db d s), None)
    end.

Definition autoFlush (s : Store) : Store * option string :=
  if wbCap s <=? batch_Count (wb s) then flushLocked s else (s, None).

Definition Flush (s : Store) : Store * option string := flushLocked s.

Definition errClosed : string := "store: closed".

Definition Close (s : Store) : Store * option string :=
  let s := mkStore (db s) (wb s) (wbCap s) true (encKey s) in
  match flushLocked s with
  | (s, Some e) => (s, Some e)
  | (s, None) => (s, db_Close (db s))
  end.

(** [s.wb.Set], which changes the batch also when it reports an error. *)
Definition wb_Set (k : string) (v : bytes) (s : Store) : Store * option string :=
  let '(b, err) := batch_Set k v (wb s) in (set_wb b s, err).

(** ** Nodes *)

Definition PutNode (n : Node.t) (rnd : option bytes) (s : Store) : Store * option string :=
  if closed s then (s, Some errClosed)
  else
    match marshal_node n with
    | inl e => (s, Some ("marshal node: " +:+ e))
    | inr data =>
        match encrypt rnd data s with
        | inl e => (s, Some e)
        | inr enc =>
            match wb_Set (nodeKey (Node.ID n)) enc s with
            | (s, Some e) => (s, Some e)
            | (s, None) => autoFlush s
            end
        end
    end.

(** [inr None]: not found. *)
Definition GetNode (id : string) (s : Store) : string + option Node.t :=
  match batch_Get (db s) (wb s) (nodeKey id) with
  | inl e => inl e
  | inr None => inr None
  | inr (Some v) =>
      match decrypt v s with
      | inl e => inl e
      | inr dec => match unmarshal_node dec with inl e => inl e | inr n => inr (Some n) end
      end
  end.

Definition DeleteNode (id : string) (s : Store) : Store * option string :=
  let '(b, err) := batch_Delete (nodeKey id) (wb s) in
  match err with Some e => (set_wb b s, Some e) | None => autoFlush (set_wb b s) end.

(** ** Edges *)

Definition edge_ts (e : Edge.t) : Z := u64 (time_UnixNano (Edge.Timestamp e)).

Definition PutEdge (e : Edge.t) (rnd : option bytes) (s : Store) : Store * option string :=
  if closed s then (s, Some errClosed)
  else
    match marshal_edge e with
    | inl err => (s, Some ("marshal edge: " +:+ err))
    | inr data =>
        match encrypt rnd data s with
        | inl err => (s, Some err)
        | inr enc =>
            match wb_Set (edgeKey (edge_ts e) (Edge.Source e) (Edge.Target e)) enc s with
            | (s, Some err) => (s, Some err)
            | (s, None) =>
                match wb_Set (reverseEdgeKey (edge_ts e) (Edge.Target e) (Edge.Source e)) enc s with
                | (s, Some err) => (s, Some err)
                | (s, None) => autoFlush s
                end
            end
        end
    end.

Definition decode_edge (s : Store) (v : bytes) : string + Edge.t :=
  match decrypt v s with inl e => inl e | inr dec => unmarshal_edge dec end.

Fixpoint decode_edges (s : Store) (l : list (string * bytes)) : string + list Edge.t :=
  match l with
  | [] => inr []
  | (_, v) :: l =>
      match decode_edge s v with
      | inl e => inl e
      | inr e => match decode_edges s l with inl err => inl err | inr out => inr (e :: out) end
      end
  end.

(** The loop shared by the scans: the edges decoded, and the error of the iterator. *)
Definition scan_edges (lo hi : string) (s : Store) : string + list Edge.t * option string :=
  match db_Iter (db s) lo hi with
  | inl e => inl e
  | inr (l, err) => match decode_edges s l with inl e => inl e | inr out => inr (out, err) end
  end.

Definition GetEdgesByTimeRange (start end_ : Z) (s : Store)
  : Store * (string + list Edge.t * option string) :=
  match flushLocked s with
  | (s, Some e) => (s, inl e)
  | (s, None) => (s, scan_edges (edgeKey start "" "") (edgeKey end_ "" "") s)
  end.

Definition xff : string := String.string_of_list_ascii [byte_ascii 255].

Definition GetEdgesByTarget (targetID : string) (s : Store)
  : Store * (string + list Edge.t * option string) :=
  match flushLocked s with
  | (s, Some e) => (s, inl e)
  | (s, None) => (s, scan_edges ("r:" +:+ targetID +:+ ":") ("r:" +:+ targetID +:+ xff) s)
  end.

Definition EdgeCount (s : Store) : Store * (string + Z * option string) :=
  match flushLocked s with
  | (s, Some e) => (s, inl e)
  | (s, None) =>
      (s, match db_Iter (db s) "e:" ("e" +:+ xff) with
          | inl e => inl e
          | inr (l, err) => inr (Z.of_nat (length l), err)
          end)
  end.

(** ** Abstract state *)

Inductive item := INode (n : Node.t) | IEdge (e : Edge.t).

(** What a read sees: the entries of the database with the pending writes applied. *)
Definition view (s : Store) : gmap string bytes := apply_ops (batch_ops (wb s)) (db_entries (db s)).

Definition decodes (key : option bytes) (it : item) (v : bytes) : Prop :=
  exists dec, match key with None => dec = v | Some k => Decrypt k v = inr dec end /\
    match it with
    | INode n => node_utf8 n = true -> exists n', unmarshal_node dec = inr n' /\ same_node n n'
    | IEdge e => edge_utf8 e = true -> exists e', unmarshal_edge dec = inr e' /\ same_edge e e'
    end.

Definition holds (s : Store) (m : gmap string item) : Prop :=
  forall k, match m !! k with
            | Some it => exists v, view s !! k = Some v /\ decodes (encKey s) it v
            | None => view s !! k = None
            end.

(** A nonce of the right length, needed only with a key. *)
Definition nonce_ok (rnd : option bytes) : Prop := forall n, rnd = Some n -> length n = NonceSize.

Definition put_edge_spec (e : Edge.t) (m : gmap string item) : gmap string item :=
  <[reverseEdgeKey (edge_ts e) (Edge.Target e) (Edge.Source e) := IEdge e]>
    (<[edgeKey (edge_ts e) (Edge.Source e) (Edge.Target e) := IEdge e]> m).

(** ** Operations act on the abstract state *)

Lemma apply_ops_app l l' m : apply_ops (l ++ l') m = apply_ops l' (apply_ops l m).
Proof. unfold apply_ops. apply foldl_app. Qed.

Lemma flushLocked_view s s' :
  flushLocked s = (s', None) ->
  view s' = view s /\ encKey s' = encKey s /\ batch_ops (wb s') = [] /\ closed s' = closed s.
Proof.
  unfold flushLocked. destruct (Z.eqb_spec (batch_Count (wb s)) 0) as [E|E].
  - intros [= <-]. rewrite batch_Count_ops in E. split_and!; try done. apply nil_length_inv. lia.
  - destruct (batch_Commit _ _) as [d [e|]] eqn:Hc; [done|]. intros [= <-]. unfold view. simpl.
    by rewrite new_batch_ops, (batch_Commit_entries _ _ _ Hc).
Qed.

Lemma autoFlush_view s s' :
  autoFlush s = (s', None) -> view s' = view s /\ encKey s' = encKey s /\ closed s' = closed s.
Proof.
  unfold autoFlush. case_match; [|by intros [= <-]]. intros (? & ? & _ & ?)%flushLocked_view. done.
Qed.

Lemma wb_Set_view k v s s' :
  wb_Set k v s = (s', None) -> view s' = <[k := v]> (view s) /\ encKey s' = encKey s /\ closed s' = closed s.
Proof.
  unfold wb_Set. destruct (batch_Set _ _ _) as [b [e|]] eqn:Hb; [done|]. intros [= <-].
  unfold view. simpl. by rewrite (batch_Set_ops _ _ _ _ Hb), apply_ops_app.
Qed.

Lemma encrypt_decodes rnd data enc s :
  nonce_ok rnd -> encrypt rnd data s = inr enc ->
  match encKey s with None => data = enc | Some k => Decrypt k enc = inr data end.
Proof.
  intros Hr. unfold encrypt. destruct (encKey s) as [key|]; [|by intros [= <-]].
  intros He. destruct rnd as [n|]; [|unfold Encrypt in He; by destruct (NewCipher key)].
  eapply decrypt_encrypt; [|done]. by apply Hr.
Qed.

(** A write of one key. *)
Lemma holds_insert s s' m k it v :
  holds s m -> view s' = <[k := v]> (view s) -> encKey s' = encKey s -> decodes (encKey s) it v ->
  holds s' (<[k := it]> m).
Proof.
  intros Hm Hv He Hd k'. rewrite Hv, He. destruct (decide (k' = k)) as [->|].
  - rewrite !lookup_insert_eq. eauto.
  - rewrite !lookup_insert_ne by done. apply Hm.
Qed.

Lemma holds_ext s s' m : holds s m -> view s' = view s -> encKey s' = encKey s -> holds s' m.
Proof. intros Hm Hv He k. rewrite Hv, He. apply Hm. Qed.

Lemma PutNode_holds n rnd s s' m :
  holds s m -> nonce_ok rnd -> PutNode n rnd s = (s', None) ->
  holds s' (<[nodeKey (Node.ID n) := INode n]> m).
Proof.
  intros Hm Hr. unfold PutNode. destruct (closed s); [done|].
  destruct (marshal_node n) as [|data] eqn:Hj; [done|].
  destruct (encrypt rnd data s) as [|enc] eqn:He; [done|]. apply encrypt_decodes in He; [|done].
  destruct (wb_Set _ _ _) as [s1 [e|]] eqn:Hw; [done|]. apply wb_Set_view in Hw as (Hv1 & He1 & _).
  intros (Hv & He' & _)%autoFlush_view. eapply holds_ext; [|done|done].
  eapply holds_insert; [done..|]. exists data. split; [destruct (encKey s); done|].
  intros Hu. by apply node_roundtrip.
Qed.

Lemma PutEdge_holds e rnd s s' m :
  holds s m -> nonce_ok rnd -> PutEdge e rnd s = (s', None) ->
  holds s' (put_edge_spec e m).
Proof.
  intros Hm Hr. unfold PutEdge. destruct (closed s); [done|].
  destruct (marshal_edge e) as [|data] eqn:Hj; [done|].
  destruct (encrypt rnd data s) as [|enc] eqn:He; [done|]. apply encrypt_decodes in He; [|done].
  assert (decodes (encKey s) (IEdge e) enc) as Hd.
  { exists data. split; [destruct (encKey s); done|]. intros Hu. by apply edge_roundtrip. }
  destruct (wb_Set _ _ s) as [s1 [err|]] eqn:Hw; [done|]. apply wb_Set_view in Hw as (Hv1 & He1 & _).
  destruct (wb_Set _ _ s1) as [s2 [err|]] eqn:Hw; [done|]. apply wb_Set_view in Hw as (Hv2 & He2 & _).
  intros (Hv & He' & _)%autoFlush_view. eapply holds_ext; [|done|done].
  eapply holds_insert; [|done|done|by rewrite He1]. by eapply holds_insert.
Qed.

Lemma DeleteNode_holds id s s' m :
  holds s m -> DeleteNode id s = (s', None) -> holds s' (delete (nodeKey id) m).
Proof.
  intros Hm. unfold DeleteNode. destruct (batch_Delete _ _) as [b [e|]] eqn:Hb; [done|].
  intros (Hv & He & _)%autoFlush_view k. rewrite Hv, He. unfold view. simpl.
  rewrite (batch_Delete_ops _ _ _ Hb), apply_ops_app. cbn [apply_ops foldl apply_op fst snd].
  destruct (decide (k = nodeKey id)) as [->|].
  - by rewrite !lookup_delete_eq.
  - rewrite !lookup_delete_ne by done. apply Hm.
Qed.

(** ** Scans *)

Lemma decode_edge_spec s e v e' :
  decodes (encKey s) (IEdge e) v -> decode_edge s v = inr e' -> read_edge e e'.
Proof.
  intros (dec & Hk & He). unfold decode_edge, decrypt. intros Hd Hu. destruct (He Hu) as (e1 & Hj & Hs).
  destruct (encKey s); [rewrite Hk in Hd|subst]; rewrite Hj in Hd; by simplify_eq.
Qed.

Lemma decode_edges_spec s (m : gmap string item) l out :
  (forall k v, (k, v) ∈ l -> exists e, m !! k = Some (IEdge e) /\ decodes (encKey s) (IEdge e) v) ->
  decode_edges s l = inr out ->
  exists L : list (string * Edge.t), L.*1 = l.*1 /\ Forall (fun p => m !! p.1 = Some (IEdge p.2)) L /\
    Forall2 (fun p e => read_edge p.2 e) L out.
Proof.
  revert out. induction l as [|[k v] l IH]; intros out Hl; simpl.
  { intros [= <-]. exists []. split_and!; constructor. }
  destruct (decode_edge s v) as [|e'] eqn:He'; [done|]. destruct (decode_edges s l) as [|out'] eqn:Ho; [done|].
  intros [= <-]. destruct (IH out') as (L & H1 & H2 & H3); [intros; apply Hl; by right|done|].
  destruct (Hl k v) as (e & Hk & Hd); [by left|]. exists ((k, e) :: L). split_and!.
  - simpl. by f_equal.
  - by constructor.
  - constructor; [|done]. by eapply decode_edge_spec.
Qed.

(** A scan of keys that hold edges returns the edges of those keys, in key order. *)
Lemma scan_edges_spec s m lo hi out :
  holds s m -> batch_ops (wb s) = [] ->
  (forall k it, m !! k = Some it -> in_range lo hi k -> exists e, it = IEdge e) ->
  scan_edges lo hi s = inr (out, None) ->
  exists L : list (string * Edge.t),
    (forall k e, (k, e) ∈ L <-> m !! k = Some (IEdge e) /\ in_range lo hi k) /\
    StronglySorted str_lt L.*1 /\ Forall2 (fun p e => read_edge p.2 e) L out.
Proof.
  intros Hm Hb Hrange. unfold scan_edges. destruct (db_Iter _ _ _) as [|[l err]] eqn:Hi; [done|].
  destruct (decode_edges s l) as [|out'] eqn:Ho; [done|]. intros [= -> ->].
  assert (view s = db_entries (db s)) as Hv by (unfold view; by rewrite Hb).
  pose proof (db_Iter_elem _ _ _ _ Hi) as Hel. pose proof (db_Iter_sorted _ _ _ _ Hi) as Hs.
  rewrite <-Hv in Hel.
  assert (forall k v, (k, v) ∈ l -> exists e, m !! k = Some (IEdge e) /\ decodes (encKey s) (IEdge e) v) as Hd.
  { intros k v [Hk Hr]%Hel. pose proof (Hm k) as Hmk. destruct (m !! k) as [it|] eqn:Hit; [|by rewrite Hk in Hmk].
    destruct (Hrange k it Hit Hr) as [e ->]. destruct Hmk as (v' & Hv' & Hd).
    exists e. split; [done|]. rewrite Hk in Hv'. by simplify_eq. }
  destruct (decode_edges_spec s m l out Hd Ho) as (L & HL1 & HL2 & HL3). exists L. rewrite HL1.
  split_and!; [|done|done]. rewrite Forall_forall in HL2. intros k e. split.
  - intros Hin. split; [by apply (HL2 (k, e))|].
    apply (list_elem_of_fmap_2 fst) in Hin. rewrite HL1 in Hin. simpl in Hin.
    apply list_elem_of_fmap in Hin as ([k' v] & -> & Hin). by apply Hel in Hin as [_ ?].
  - intros [Hk Hr]. pose proof (Hm k) as Hmk. rewrite Hk in Hmk. destruct Hmk as (v & Hv' & _).
    assert (k ∈ L.*1) as Hin.
    { rewrite HL1. apply (list_elem_of_fmap_2 fst l (k, v)). by apply Hel. }
    apply list_elem_of_fmap in Hin as ([k' e'] & -> & Hin). pose proof (HL2 _ Hin) as Hk'.
    simpl in *. rewrite Hk' in Hk. by simplify_eq.
Qed.

(** ** Histories *)

(** Successful operations from an empty database, and the edges written by them. *)
Inductive history : Store -> list Edge.t -> Prop :=
| h_open d key s : db_entries d = ∅ -> Open (inr d) key = inr s -> history s []
| h_node n rnd s s' l :
    history s l -> nonce_ok rnd -> PutNode n rnd s = (s', None) -> history s' l
| h_delete id s s' l : history s l -> DeleteNode id s = (s', None) -> history s' l
| h_edge e rnd s s' l :
    history s l -> nonce_ok rnd -> PutEdge e rnd s = (s', None) -> history s' (l ++ [e])
| h_flush s s' l : history s l -> Flush s = (s', None) -> history s' l.

Definition edges_of (l : list Edge.t) : gmap string item := foldl (fun m e => put_edge_spec e m) ∅ l.

Definition rkey (e : Edge.t) : string := reverseEdgeKey (edge_ts e) (Edge.Target e) (Edge.Source e).
Definition ekey (e : Edge.t) : string := edgeKey (edge_ts e) (Edge.Source e) (Edge.Target e).

(** The edge a key holds is the last one written under it. *)
Definition latest (K : Edge.t -> string) (l : list Edge.t) (e : Edge.t) : Prop :=
  last (filter (fun e' => K e' = K e) l) = Some e.

Lemma latest_elem K l e : latest K l e -> e ∈ l.
Proof. intros He. apply last_Some in He as [l' E]. apply (list_elem_of_filter (fun e' => K e' = K e)). rewrite E. set_solver. Qed.

Definition tagged (tag : string) (k : string) : Prop := HasPrefix k tag = true.

Lemma tagged_app tag k : tagged tag (tag +:+ k).
Proof. apply HasPrefix_spec. by exists k. Qed.

Lemma tags_differ (k : string) : ~ (tagged "n:" k /\ tagged "e:" k) /\ ~ (tagged "n:" k /\ tagged "r:" k) /\
  ~ (tagged "e:" k /\ tagged "r:" k).
Proof.
  unfold tagged. rewrite !HasPrefix_spec. split_and!; intros [[a ->] [b Hb]];
    apply (f_equal chars) in Hb; by rewrite !chars_app in Hb.
Qed.

Lemma ekey_tagged e : tagged "e:" (ekey e).
Proof. apply tagged_app. Qed.
Lemma rkey_tagged e : tagged "r:" (rkey e).
Proof. apply tagged_app. Qed.
Lemma nodeKey_tagged id : tagged "n:" (nodeKey id).
Proof. apply tagged_app. Qed.

Lemma edges_of_lookup (l : list Edge.t) k :
  (tagged "r:" k -> edges_of l !! k = IEdge <$> last (filter (fun e => rkey e = k) l)) /\
  (tagged "e:" k -> edges_of l !! k = IEdge <$> last (filter (fun e => ekey e = k) l)) /\
  (tagged "n:" k -> edges_of l !! k = None).
Proof.
  destruct (tags_differ k) as (T1 & T2 & T3).
  induction l as [|e l (IH1 & IH2 & IH3)] using rev_ind;
    [unfold edges_of; simpl; by rewrite lookup_empty|].
  unfold edges_of in *. rewrite foldl_snoc. unfold put_edge_spec. fold (rkey e) (ekey e).
  rewrite !filter_app. pose proof (rkey_tagged e) as Hr. pose proof (ekey_tagged e) as He.
  split_and!; intros Ht.
  - destruct (decide (rkey e = k)) as [<-|].
    + by rewrite lookup_insert_eq, filter_cons_True, filter_nil, last_snoc.
    + rewrite lookup_insert_ne, filter_cons_False, filter_nil, app_nil_r by done.
      rewrite lookup_insert_ne by (intros <-; tauto). auto.
  - rewrite lookup_insert_ne by (intros <-; tauto). destruct (decide (ekey e = k)) as [<-|].
    + by rewrite lookup_insert_eq, filter_cons_True, filter_nil, last_snoc.
    + rewrite lookup_insert_ne, filter_cons_False, filter_nil, app_nil_r by done. auto.
  - rewrite !lookup_insert_ne by (intros <-; tauto). auto.
Qed.

(** The abstract state of a history: the edges written, and some nodes. *)
Definition models (m : gmap string item) (l : list Edge.t) : Prop :=
  forall k, (~ tagged "n:" k -> m !! k = edges_of l !! k) /\
            (tagged "n:" k -> forall it, m !! k = Some it -> exists n, it = INode n).

Lemma history_holds s l : history s l -> exists m, holds s m /\ models m l.
Proof.
  induction 1 as [d key s Hd Ho|n rnd s s' l _ (m & Hm & HM) Hr Hp|id s s' l _ (m & Hm & HM) Hp
    |e rnd s s' l _ (m & Hm & HM) Hr Hp|s s' l _ (m & Hm & HM) Hp].
  - exists ∅. unfold Open in Ho. simplify_eq. split.
    + intros k. rewrite lookup_empty. unfold view. simpl. rewrite new_batch_ops, Hd. apply lookup_empty.
    + intros k. unfold edges_of. simpl. by rewrite lookup_empty.
  - exists (<[nodeKey (Node.ID n) := INode n]> m). split; [by eapply PutNode_holds|]. intros k. split.
    + intros Ht. rewrite lookup_insert_ne; [by apply HM|]. intros <-. apply Ht, nodeKey_tagged.
    + intros Ht it. destruct (decide (k = nodeKey (Node.ID n))) as [->|].
      * rewrite lookup_insert_eq. intros [= <-]. by exists n.
      * rewrite lookup_insert_ne by done. by apply HM.
  - exists (delete (nodeKey id) m). split; [by eapply DeleteNode_holds|]. intros k. split.
    + intros Ht. rewrite lookup_delete_ne; [by apply HM|]. intros <-. apply Ht, nodeKey_tagged.
    + intros Ht it [_ Hk]%lookup_delete_Some. by eapply HM.
  - exists (put_edge_spec e m). split; [by eapply PutEdge_holds|]. intros k.
    destruct (tags_differ k) as (T1 & T2 & T3).
    pose proof (rkey_tagged e) as Hre. pose proof (ekey_tagged e) as Hee.
    unfold edges_of. rewrite foldl_snoc. unfold put_edge_spec. fold (rkey e) (ekey e). split; intros Ht.
    + destruct (HM k) as [HM' _]. specialize (HM' Ht). unfold edges_of in HM'.
      destruct (decide (k = rkey e)) as [->|]; [by rewrite !lookup_insert_eq|].
      rewrite !(lookup_insert_ne _ (rkey e)) by done.
      destruct (decide (k = ekey e)) as [->|]; [by rewrite !lookup_insert_eq|].
      by rewrite !lookup_insert_ne.
    + intros it. rewrite !lookup_insert_ne by (intros <-; tauto). by apply HM.
  - exists m. split; [|done]. apply flushLocked_view in Hp as (Hv & He & _). by eapply holds_ext.
Qed.

(** ** Edges by target *)

(** The scanned interval of [t] can meet the keys of another target [T] only if [T]
    extends [t] by a character from the colon on, or [t] extends [T]. *)
Fixpoint confusable (t T : list ascii) : bool :=
  match t, T with
  | [], [] => false
  | [], c :: _ => 58 <=? byteval c
  | _ :: _, [] => true
  | a :: t, b :: T => if decide (a = b) then confusable t T else false
  end.

Lemma target_range_list (t T X : list ascii) :
  confusable t T = false ->
  lex_leb (t ++ [":"%char]) (T ++ ":"%char :: X) = true /\
  lex_leb (t ++ [byte_ascii 255]) (T ++ ":"%char :: X) = false <-> T = t.
Proof.
  revert T. induction t as [|a t IH]; intros [|b T] Hc; simpl in Hc.
  - split; [done|]. intros _. split; by destruct X.
  - apply Z.leb_gt in Hc. split; [|done]. intros [Hle _]. cbn [app lex_leb] in Hle.
    change (byteval ":"%char) with 58 in Hle. byte_cases; try done; lia.
  - done.
  - cbn [app lex_leb]. case_decide as E.
    + subst b. destruct (Z.ltb_spec (byteval a) (byteval a)); [lia|]. rewrite Z.eqb_refl, IH by done.
      split; [by intros ->|]. by intros [= ->].
    + assert (byteval a <> byteval b) by (intros ?; by apply E, byteval_inj).
      split; [|intros [= -> ->]; done]. byte_cases; intros [? ?]; try done; lia.
Qed.

Lemma target_range t e :
  confusable (chars t) (chars (Edge.Target e)) = false ->
  in_range ("r:" +:+ t +:+ ":") ("r:" +:+ t +:+ xff) (rkey e) <-> Edge.Target e = t.
Proof.
  intros Hc. unfold in_range, rkey, reverseEdgeKey. rewrite str_lt_app, str_le_app. unfold str_lt, str_le.
  rewrite !(chars_app t), !(chars_app (Edge.Target e)), not_true_iff_false.
  rewrite (chars_app ":" (dec020 _ +:+ _)).
  pose proof (target_range_list _ _ (chars (dec020 (edge_ts e) +:+ ":" +:+ Edge.Source e)) Hc) as Hl.
  change (chars ":") with [":"%char]. change (chars xff) with [byte_ascii 255].
  cbn [app]. rewrite Hl. split; [apply (inj chars)|by intros ->].
Qed.

Lemma edge_ts_range e : 0 <= edge_ts e < 2 ^ 64.
Proof. apply u64_range. Qed.

(** Keys of one target are ordered by time. *)
Lemma rkey_order e e' :
  Edge.Target e = Edge.Target e' -> str_lt (rkey e) (rkey e') -> edge_ts e <= edge_ts e'.
Proof.
  intros Ht Hlt%str_lt_le. unfold rkey, reverseEdgeKey in Hlt. rewrite Ht in Hlt.
  rewrite !str_le_app, str_le_prefix in Hlt by (by rewrite !length_dec020).
  destruct (dec020_order (edge_ts e) (edge_ts e')) as [O1 O2]; [apply edge_ts_range..|].
  destruct (decide (dec020 (edge_ts e) = dec020 (edge_ts e'))) as [E|E]; [|by apply O1].
  apply O2 in E. lia.
Qed.

Lemma ssorted_fmap_inv {A B} (f : A -> B) (R : B -> B -> Prop) (S : A -> A -> Prop) (l : list A) :
  (forall x y, x ∈ l -> y ∈ l -> R (f x) (f y) -> S x y) ->
  StronglySorted R (f <$> l) -> StronglySorted S l.
Proof.
  induction l as [|x l IH]; intros HR Hs; [constructor|]. rewrite fmap_cons in Hs.
  apply StronglySorted_inv in Hs as [Hs Hx]. rewrite Forall_fmap in Hx. constructor.
  - apply IH; [|done]. intros. apply HR; [by right|by right|done].
  - rewrite Forall_forall in *. intros y Hy. apply HR; [by left|by right|]. by apply Hx.
Qed.

Lemma ssorted_lt_NoDup (l : list string) : StronglySorted str_lt l -> NoDup l.
Proof.
  induction 1 as [|x l Hs IH Hx]; constructor; [|done]. intros Hin. rewrite Forall_forall in Hx.
  apply (Hx x Hin). reflexivity.
Qed.

(** Keys between two keys with a prefix have it. *)
Lemma range_tagged p a b k : in_range (p +:+ a) (p +:+ b) k -> tagged p k.
Proof.
  unfold in_range, str_lt, str_le. rewrite !chars_app, not_true_iff_false. intros [H1 H2].
  apply HasPrefix_spec.
  assert (exists r, chars k = chars p ++ r) as [r Hr].
  { revert H1 H2. generalize (chars k), (chars p), (chars a), (chars b). clear. intros k p a b.
    revert k. induction p as [|x p IH]; intros [|y k] H1 H2; simpl in *; try done; [by eexists..|].
    byte_cases; try done; try lia. destruct (IH k) as [r ->]; [done..|]. exists r.
    by rewrite (byteval_inj x y). }
  exists (String.string_of_list_ascii r). apply (inj chars). by rewrite chars_app, chars_of_list.
Qed.

(** A scan, seen as a list of edges of the history. *)
Lemma scan_history s l m lo hi out (K : Edge.t -> string) :
  holds s m -> batch_ops (wb s) = [] ->
  (forall k, in_range lo hi k -> m !! k = IEdge <$> last (filter (fun e => K e = k) l)) ->
  scan_edges lo hi s = inr (out, None) ->
  exists L : list Edge.t,
    (forall e, e ∈ L <-> latest K l e /\ in_range lo hi (K e)) /\
    StronglySorted str_lt (K <$> L) /\ Forall2 read_edge L out.
Proof.
  intros Hm Hb Hmk Hs.
  destruct (scan_edges_spec s m lo hi out Hm Hb) as (L & HL1 & HL2 & HL3); [|done|].
  { intros k it Hk Hr. rewrite Hmk in Hk by done. destruct (last _) as [e|]; simplify_eq/=. by exists e. }
  assert (forall k e, (k, e) ∈ L <-> k = K e /\ latest K l e /\ in_range lo hi (K e)) as HL.
  { intros k e. rewrite HL1. split.
    - intros [Hk Hr]. rewrite Hmk in Hk by done. destruct (last _) as [e'|] eqn:He; simplify_eq/=.
      assert (K e = k) as <-.
      { apply last_Some in He as [l' E]. assert (e ∈ filter (fun e => K e = k) l) as Hin by (rewrite E; set_solver).
        by apply list_elem_of_filter in Hin as [? _]. }
      split_and!; done.
    - intros (-> & Hl & Hr). split; [|done]. rewrite Hmk by done. by rewrite Hl. }
  assert (L.*1 = K <$> L.*2) as E1.
  { rewrite <-list_fmap_compose. apply list_fmap_ext. intros i [k e] Hi. simpl.
    assert ((k, e) ∈ L) as Hin by (by apply list_elem_of_lookup_2 in Hi). by apply HL in Hin as [-> _]. }
  exists L.*2. rewrite <-E1. split_and!; [|done|by rewrite Forall2_fmap_l].
  intros e. rewrite list_elem_of_fmap. split.
  - intros ([k e'] & -> & Hin). by apply HL in Hin as [_ ?].
  - intros He. exists (K e, e). split; [done|]. by apply HL.
Qed.

(** After any successful operations from an empty store, a scan by target that
    reports no error returns, for each source and instant, the last edge written to that
    target, all of them and no others, oldest first, provided that no other target can be
    confused with it ([confusable]).  Pending writes are included. *)
Lemma edges_by_target_exact (s s' : Store) (l : list Edge.t) (t : string) (out : list Edge.t)
    (Hh : history s l)
    (Hc : forall e, e ∈ l -> confusable (chars t) (chars (Edge.Target e)) = false)
    (Hg : GetEdgesByTarget t s = (s', inr (out, None))) :
  exists L, Forall2 read_edge L out /\ NoDup (rkey <$> L) /\
    (forall e, e ∈ L <-> latest rkey l e /\ Edge.Target e = t) /\
    StronglySorted (fun e e' => edge_ts e <= edge_ts e') L.
Proof.
  destruct (history_holds s l Hh) as (m & Hm & HM). unfold GetEdgesByTarget in Hg.
  destruct (flushLocked s) as [s1 [e|]] eqn:Hf; [done|]. apply flushLocked_view in Hf as (Hv & He & Hb & _).
  injection Hg as -> Hg. apply (holds_ext s s') in Hm; [|done|done].
  apply (scan_history s' l m ("r:" +:+ t +:+ ":") ("r:" +:+ t +:+ xff) out rkey Hm Hb) in Hg
    as (L & HL1 & HL2 & HL3).
  2: { intros k Ht. apply range_tagged in Ht. destruct (edges_of_lookup l k) as (E1 & _ & _). rewrite <-E1 by done. apply HM.
       intros Hn. destruct (tags_differ k) as (_ & T & _). by apply T. }
  assert (forall e, e ∈ L <-> latest rkey l e /\ Edge.Target e = t) as HL.
  { intros e. rewrite HL1. split; intros [Hl Hr]; (split; [done|]); apply (target_range t e);
      try (apply Hc; by eapply latest_elem); done. }
  exists L. split_and!; [done|by apply ssorted_lt_NoDup|done|].
  eapply ssorted_fmap_inv; [|exact HL2]. intros e e' [_ H1]%HL [_ H2]%HL. apply rkey_order. congruence.
Qed.

(** ** Edges by time *)

(** Node identifiers begin with a letter; identifiers that begin with a character before
    the colon would be missed at the start of the interval and found at its end. *)
Definition source_ok (s : string) : bool :=
  match chars s with [] => true | c :: _ => 58 <=? byteval c end.

Lemma colon_le src tgt : source_ok src = true -> str_le ":" (src +:+ ":" +:+ tgt).
Proof.
  unfold source_ok, str_le. rewrite chars_app. destruct (chars src) as [|c l]; [done|].
  intros Hc%Z.leb_le. cbn [app chars lex_leb]. change (byteval ":"%char) with 58. byte_cases; done || lia.
Qed.

Lemma time_key_le ts e :
  0 <= ts < 2 ^ 64 -> source_ok (Edge.Source e) = true ->
  str_le (edgeKey ts "" "") (ekey e) <-> ts <= edge_ts e.
Proof.
  intros Hts Hs. unfold ekey, edgeKey. rewrite str_le_app, str_le_prefix by (by rewrite !length_dec020).
  destruct (dec020_order ts (edge_ts e)) as [O1 O2]; [done|apply edge_ts_range|].
  destruct (decide (dec020 ts = dec020 (edge_ts e))) as [E|E]; [|done].
  split; [intros _; apply O2 in E; lia|]. intros _. apply (str_le_app ":"). by apply colon_le.
Qed.

Lemma ekey_order e e' : str_lt (ekey e) (ekey e') -> edge_ts e <= edge_ts e'.
Proof.
  intros Hlt%str_lt_le. unfold ekey, edgeKey in Hlt.
  rewrite str_le_app, str_le_prefix in Hlt by (by rewrite !length_dec020).
  destruct (dec020_order (edge_ts e) (edge_ts e')) as [O1 O2]; [apply edge_ts_range..|].
  destruct (decide (dec020 (edge_ts e) = dec020 (edge_ts e'))) as [E|E]; [|by apply O1].
  apply O2 in E. lia.
Qed.

Lemma models_ekey m l k :
  models m l -> tagged "e:" k -> m !! k = IEdge <$> last (filter (fun e => ekey e = k) l).
Proof.
  intros HM Ht. destruct (edges_of_lookup l k) as (_ & E2 & _). rewrite <-E2 by done. apply HM.
  intros Hn. destruct (tags_differ k) as (T & _). by apply T.
Qed.

(** After any successful operations from an empty store, a scan of a time interval
    that reports no error returns exactly the edges written with a timestamp from [start]
    to before [end_] (the last one per instant, source and target), oldest first. *)
Lemma edges_by_time_exact (s s' : Store) (l : list Edge.t) (start end_ : Z) (out : list Edge.t)
    (Hh : history s l) (Hs : 0 <= start < 2 ^ 64) (He : 0 <= end_ < 2 ^ 64)
    (Hc : forall e, e ∈ l -> source_ok (Edge.Source e) = true)
    (Hg : GetEdgesByTimeRange start end_ s = (s', inr (out, None))) :
  exists L, Forall2 read_edge L out /\ NoDup (ekey <$> L) /\
    (forall e, e ∈ L <-> latest ekey l e /\ start <= edge_ts e < end_) /\
    StronglySorted (fun e e' => edge_ts e <= edge_ts e') L.
Proof.
  destruct (history_holds s l Hh) as (m & Hm & HM). unfold GetEdgesByTimeRange in Hg.
  destruct (flushLocked s) as [s1 [e|]] eqn:Hf; [done|]. apply flushLocked_view in Hf as (Hv & Hk & Hb & _).
  injection Hg as -> Hg. apply (holds_ext s s') in Hm; [|done|done].
  apply (scan_history s' l m (edgeKey start "" "") (edgeKey end_ "" "") out ekey Hm Hb) in Hg
    as (L & HL1 & HL2 & HL3).
  2: { intros k Ht. apply models_ekey; [done|]. by apply range_tagged in Ht. }
  exists L. split_and!; [done|by apply ssorted_lt_NoDup| |].
  - intros e. rewrite HL1. unfold in_range, str_lt. split; intros [Hl Hr]; (split; [done|]);
      pose proof (Hc e (latest_elem _ _ _ Hl)); rewrite !time_key_le in *; done || lia.
  - eapply ssorted_fmap_inv; [|exact HL2]. intros e e' _ _. apply ekey_order.
Qed.

(** ** Nodes *)

(** The nodes a history has stored: the last one written and not deleted since. *)
Inductive node_history : Store -> gmap string Node.t -> Prop :=
| nh_open d key s : db_entries d = ∅ -> Open (inr d) key = inr s -> node_history s ∅
| nh_put n rnd s s' N :
    node_history s N -> nonce_ok rnd -> PutNode n rnd s = (s', None) ->
    node_history s' (<[Node.ID n := n]> N)
| nh_delete id s s' N :
    node_history s N -> DeleteNode id s = (s', None) -> node_history s' (delete id N)
| nh_edge e rnd s s' N :
    node_history s N -> nonce_ok rnd -> PutEdge e rnd s = (s', None) -> node_history s' N
| nh_flush s s' N : node_history s N -> Flush s = (s', None) -> node_history s' N.

Lemma nodeKey_inj id id' : nodeKey id = nodeKey id' -> id = id'.
Proof. intros E. apply (f_equal chars) in E. unfold nodeKey in E. rewrite !chars_app in E. apply (inj chars). by apply (inj (app _)) in E. Qed.

Lemma nodeKey_not_edge id e : nodeKey id <> rkey e /\ nodeKey id <> ekey e.
Proof.
  destruct (tags_differ (nodeKey id)) as (T1 & T2 & _). pose proof (nodeKey_tagged id).
  split; intros E; [apply T2|apply T1]; (split; [done|]); rewrite E; [apply rkey_tagged|apply ekey_tagged].
Qed.

Lemma node_history_holds s N :
  node_history s N -> exists m, holds s m /\ forall id, m !! nodeKey id = INode <$> N !! id.
Proof.
  induction 1 as [d key s Hd Ho|n rnd s s' N _ (m & Hm & HM) Hr Hp|id s s' N _ (m & Hm & HM) Hp
    |e rnd s s' N _ (m & Hm & HM) Hr Hp|s s' N _ (m & Hm & HM) Hp].
  - exists ∅. unfold Open in Ho. simplify_eq. split; [|intros id; by rewrite !lookup_empty].
    intros k. rewrite lookup_empty. unfold view. simpl. rewrite new_batch_ops, Hd. apply lookup_empty.
  - eexists. split; [by eapply PutNode_holds|]. intros id. destruct (decide (id = Node.ID n)) as [->|].
    + by rewrite !lookup_insert_eq.
    + rewrite !lookup_insert_ne by (done || by intros ?%nodeKey_inj). apply HM.
  - eexists. split; [by eapply DeleteNode_holds|]. intros id'. destruct (decide (id' = id)) as [->|].
    + by rewrite !lookup_delete_eq.
    + rewrite !lookup_delete_ne by (done || by intros ?%nodeKey_inj). apply HM.
  - eexists. split; [by eapply PutEdge_holds|]. intros id. unfold put_edge_spec. fold (rkey e) (ekey e).
    destruct (nodeKey_not_edge id e) as [N1 N2]. rewrite !lookup_insert_ne by done. apply HM.
  - exists m. split; [|done]. apply flushLocked_view in Hp as (Hv & He & _). by eapply holds_ext.
Qed.

(** A node read without error is the last one stored under its identifier, up to the
    types of its attributes, and nothing is found exactly when none was stored or it was
    deleted: pending and committed writes, encryption and edges make no difference. *)
Lemma get_node_exact (s : Store) (N : gmap string Node.t) (id : string) (r : option Node.t)
    (Hh : node_history s N) (Hg : GetNode id s = inr r) :
  match N !! id with
  | Some n => exists n', r = Some n' /\ read_node n n'
  | None => r = None
  end.
Proof.
  destruct (node_history_holds s N Hh) as (m & Hm & HM). specialize (HM id). pose proof (Hm (nodeKey id)) as Hv.
  unfold GetNode in Hg. destruct (batch_Get _ _ _) as [|o] eqn:Ho; [done|].
  apply batch_Get_view in Ho. fold (view s) in Ho. rewrite HM in Hv.
  destruct (N !! id) as [n|]; simpl in Hv.
  - destruct Hv as (v & Hv & dec & Hk & Hn). rewrite Hv in Ho. subst o. unfold decrypt in Hg.
    assert (match unmarshal_node dec with inl e => inl e | inr n => inr (Some n) end = inr r) as Hd
      by (destruct (encKey s); [by rewrite Hk in Hg|by subst dec]).
    destruct (unmarshal_node dec) as [|n'] eqn:Hj; [done|]. injection Hd as <-. exists n'. split; [done|].
    intros Hu. destruct (Hn Hu) as (n2 & [= <-] & ?). done.
  - rewrite Hv in Ho. subst o. by injection Hg as <-.
Qed.
End store.

(** ** A concrete codec, and witnesses *)

Definition edge_fields (e : Edge.t) : string * string * string * string * Z * Z :=
  (Edge.ID e, Edge.Source e, Edge.Target e, Edge.Relation e, Edge.Timestamp e, Edge.Count e).
Definition edge_of_fields (f : string * string * string * string * Z * Z) : Edge.t :=
  let '(i, s, t, r, ts, c) := f in Edge.mk i s t r ts c ∅.
Definition node_fields (n : Node.t) : string * string * string * string * Z * Z :=
  (Node.ID n, Node.ProvType n, Node.Subtype n, Node.Label n, Node.FirstSeen n, Node.LastSeen n).
Definition node_of_fields (f : string * string * string * string * Z * Z) : Node.t :=
  let '(i, p, s, l, a, b) := f in Node.mk i p s l a b ∅.

Definition unpack {A} (f : string * string * string * string * Z * Z -> A) (b : bytes) : string + A :=
  match b with
  | [Zpos p] => match decode p with Some x => inr (f x) | None => inl "bad value" end
  | _ => inl "bad value"
  end.

Program Definition field_json : Json := {|
  marshal_node n := inr [Zpos (encode (node_fields n))];
  unmarshal_node := unpack node_of_fields;
  marshal_edge e := inr [Zpos (encode (edge_fields e))];
  unmarshal_edge := unpack edge_of_fields;
|}.
Next Obligation. intros n b _ [= <-]. unfold unpack. rewrite decode_encode. by eexists. Qed.
Next Obligation. intros e b _ [= <-]. unfold unpack. rewrite decode_encode. by eexists. Qed.

Definition sample_edge (src tgt : string) (ns : Z) : Edge.t :=
  Edge.newEdge (edgeID ProvUsed src tgt) ProvUsed src tgt (unix_epoch + ns).

Definition e1 := sample_edge "p:10" "f:5:8:1" 300.
Definition e2 := sample_edge "p:11" "f:5:8:1" 100.
Definition e3 := sample_edge "p:10" "f:6:8:1" 200.

(** The store of the witnesses, for the concrete database and codec. *)
Definition st0 : Store (H := map_pebble) := mkStore (H := map_pebble) ∅ [] 200 false None.
Definition put (e : Edge.t) (s : Store (H := map_pebble)) : Store (H := map_pebble) :=
  (PutEdge (H := map_pebble) (H0 := field_json) e None s).1.
Definition st3 := put e3 (put e2 (put e1 st0)).

Lemma st3_history : history (H := map_pebble) (H0 := field_json) st3 [e1; e2; e3].
Proof.
  assert (forall e s l, history (H := map_pebble) (H0 := field_json) s l ->
    (PutEdge (H := map_pebble) (H0 := field_json) e None s).2 = None ->
    history (H := map_pebble) (H0 := field_json) (put e s) (l ++ [e])) as Hp.
  { intros e s l Hs Hn. apply (h_edge e None s); [exact Hs|intros n Hr; discriminate Hr|].
    by rewrite (surjective_pairing (PutEdge e None s)), Hn. }
  unfold st3. apply (Hp e3 _ [e1; e2]); [|by vm_compute..]. apply (Hp e2 _ [e1]); [|by vm_compute..].
  apply (Hp e1 _ []); [|by vm_compute..]. by apply (h_open (H := map_pebble) ∅ None).
Qed.

(** The edges of a scan without error. *)
Definition scanned (r : string + list Edge.t * option string) : list Edge.t :=
  match r with inr (l, _) => l | inl _ => [] end.

Lemma edges_by_target_exact_witness :
  exists L, Forall2 read_edge L [e2; e1] /\
    forall e, e ∈ L <-> latest rkey [e1; e2; e3] e /\ Edge.Target e = "f:5:8:1".
Proof.
  destruct (edges_by_target_exact (H := map_pebble) (H0 := field_json) st3
    (GetEdgesByTarget (H := map_pebble) (H0 := field_json) "f:5:8:1" st3).1 [e1; e2; e3] "f:5:8:1" [e2; e1])
    as (L & H1 & _ & H3 & _).
  - exact st3_history.
  - intros e. rewrite !elem_of_cons, elem_of_nil. intros [-> | [-> | [-> | []]]]; vm_compute; reflexivity.
  - rewrite (surjective_pairing (GetEdgesByTarget (H := map_pebble) (H0 := field_json) "f:5:8:1" st3)) at 1.
    apply (f_equal (pair _)). vm_compute. reflexivity.
  - exists L. split; [exact H1|exact H3].
Defined.

Lemma edges_by_time_exact_witness :
  exists L, Forall2 read_edge L [e2; e3] /\
    forall e, e ∈ L <-> latest ekey [e1; e2; e3] e /\ 100 <= edge_ts e < 300.
Proof.
  destruct (edges_by_time_exact (H := map_pebble) (H0 := field_json) st3
    (GetEdgesByTimeRange (H := map_pebble) (H0 := field_json) 100 300 st3).1 [e1; e2; e3] 100 300 [e2; e3])
    as (L & H1 & _ & H3 & _).
  - exact st3_history.
  - lia.
  - lia.
  - intros e. rewrite !elem_of_cons, elem_of_nil. intros [-> | [-> | [-> | []]]]; vm_compute; reflexivity.
  - rewrite (surjective_pairing (GetEdgesByTimeRange (H := map_pebble) (H0 := field_json) 100 300 st3)) at 1.
    apply (f_equal (pair _)). vm_compute. reflexivity.
  - exists L. split; [exact H1|exact H3].
Defined.

Definition n1 : Node.t := Node.newNode "p:10" ProvActivity SubProcess "sh" unix_epoch.
Definition stn : Store (H := map_pebble) :=
  (PutNode (H := map_pebble) (H0 := field_json) n1 None st0).1.

Lemma get_node_exact_witness :
  (exists n', GetNode (H := map_pebble) (H0 := field_json) "p:10" stn = inr (Some n') /\ read_node n1 n') /\
  GetNode (H := map_pebble) (H0 := field_json) "p:11" stn = inr None.
Proof.
  split; [|vm_compute; reflexivity].
  destruct (get_node_exact (H := map_pebble) (H0 := field_json) stn {[ "p:10" := n1 ]} "p:10" (Some n1))
    as (n' & E & Hn).
  - eapply (nh_put (H := map_pebble) (H0 := field_json) n1 None st0 stn ∅).
    + by apply (nh_open (H := map_pebble) ∅ None).
    + intros n Hr. discriminate Hr.
    + rewrite (surjective_pairing (PutNode (H := map_pebble) (H0 := field_json) n1 None st0)).
      apply (f_equal (pair _)). vm_compute. reflexivity.
  - vm_compute. reflexivity.
  - exists n'. split; [|exact Hn]. injection E as <-. vm_compute. reflexivity.
Defined.

(** Two edges between the same nodes at the same instant share their keys: the second
    replaces the first, whatever their relations. *)
Definition e1' : Edge.t := Edge.newEdge "other" ProvWasInformedBy "p:10" "f:5:8:1" (unix_epoch + 300).
Example same_instant_overwrites :
  Edge.Relation <$> scanned (GetEdgesByTarget (H := map_pebble) (H0 := field_json) "f:5:8:1" (put e1' (put e1 st0))).2
  = [ProvWasInformedBy].
Proof. vm_compute. reflexivity. Qed.

(** The scan of one target also returns the edges of a target that extends it. *)
Example prefix_target_included :
  Edge.Target <$> scanned (GetEdgesByTarget (H := map_pebble) (H0 := field_json) "p:0"
    (put (sample_edge "p:7" unknownParentID 5) st0)).2 = [unknownParentID].
Proof. vm_compute. reflexivity. Qed.
