(* ===== verification/Pipeline.v ===== *)
(** * The ingestion pipeline ([internal/engine/pipeline]: [pipeline.go], [merger.go],
    [batchwriter.go], [backpressure.go])

    An event updates the graph ([ProvGraph]), touches its nodes in the cache ([Lru]),
    whose evictions persist nodes in the store ([Store]), and its edges go through a merge
    window to the store.  Errors of the store are only logged; the log is part of the
    state.  Background goroutines appear as the actions they perform.  Nonces come from
    [rng], and the order in which a flush visits the window is a [MapOrder]. *)
From Stdlib Require Import Ascii.
From S2P Require Import Prelude GoStrings Events ProvGraph GoFloat KV Secure Store Lru.

(** ** The merge window *)

Record MergedEdge := mkMerged {
  m_Source : string; m_Target : string; m_Relation : string; m_Count : Z;
  m_FirstSeen : time; m_LastSeen : time;
}.

Definition toEdge (m : MergedEdge) : Edge.t :=
  Edge.mk (edgeID (m_Relation m) (m_Source m) (m_Target m)) (m_Source m) (m_Target m) (m_Relation m)
    (m_LastSeen m) (m_Count m) ∅.

Definition mergeKey (e : Edge.t) : string :=
  Edge.Source e +:+ "|" +:+ Edge.Target e +:+ "|" +:+ Edge.Relation e.

Record MergeWindow := mkWindow {
  windowDur : duration; entries : gmap string MergedEdge; tickCount : Z;
}.

Definition NewMergeWindow (d : duration) : MergeWindow :=
  mkWindow (if d <=? 0 then 5 * Second else d) ∅ 0.

(** [true]: merged, no write needed. *)
Definition TryMerge (e : Edge.t) (mw : MergeWindow) : MergeWindow * bool :=
  let key := mergeKey e in
  match entries mw !! key with
  | None =>
      let m := mkMerged (Edge.Source e) (Edge.Target e) (Edge.Relation e) 1
                 (Edge.Timestamp e) (Edge.Timestamp e) in
      (mkWindow (windowDur mw) (<[key := m]> (entries mw)) (tickCount mw), false)
  | Some m =>
      let m := mkMerged (m_Source m) (m_Target m) (m_Relation m) (i64 (m_Count m + 1)) (m_FirstSeen m)
                 (if time_After (Edge.Timestamp e) (m_LastSeen m) then Edge.Timestamp e else m_LastSeen m) in
      (mkWindow (windowDur mw) (<[key := m]> (entries mw)) (tickCount mw), true)
  end.

Section flush.
Context `{MapOrder} {E : Type} (flushFn : Edge.t -> E -> E * option string).

Fixpoint flush_loop (l : list MergedEdge) (flushed : Z) (env : E) : E * Z * option string :=
  match l with
  | [] => (env, flushed, None)
  | m :: l =>
      match flushFn (toEdge m) env with
      | (env, Some e) => (env, flushed, Some ("flush merged edge: " +:+ e))
      | (env, None) => flush_loop l (i64 (flushed + 1)) env
      end
  end.

(** The window is replaced before the entries are written. *)
Definition mw_Flush (mw : MergeWindow) (env : E) : MergeWindow * E * Z * option string :=
  let mw' := mkWindow (windowDur mw) ∅ (i64 (tickCount mw + 1)) in
  let vals := (map_to_list (entries mw)).*2 in
  if bool_decide (vals = []) then (mw', env, 0, None)
  else
    let '(env, n, err) := flush_loop (range (Z.to_nat (tickCount mw)) vals) 0 env in
    (mw', env, n, err).
End flush.

Definition mw_Pending (mw : MergeWindow) : nat := size (entries mw).

(** ** The batch writer *)

Record BatchWriterConfig := { BatchSize : Z; DisableWAL : bool; SyncWrites : bool }.

Definition DefaultBatchWriterConfig : BatchWriterConfig :=
  {| BatchSize := 500; DisableWAL := true; SyncWrites := false |}.
Definition SafeBatchWriterConfig : BatchWriterConfig :=
  {| BatchSize := 200; DisableWAL := false; SyncWrites := true |}.

Section batch_writer.
Context `{Pebble} `{Json}.

(** [bw_store = None] is a nil store. *)
Record BatchWriter := mkWriter {
  bw_cfg : BatchWriterConfig; bw_store : option Store; bw_pending : list Edge.t;
  bytesWr : Z; opsCount : Z;
}.

Definition NewBatchWriter (st : option Store) (cfg : option BatchWriterConfig) : BatchWriter :=
  mkWriter (default DefaultBatchWriterConfig cfg) st [] 0 0.

(** [for _, e := range edges]: stops at the first error. *)
Fixpoint put_all (rng : nat -> option bytes) (n : nat) (l : list Edge.t) (st : Store)
  : Store * option string :=
  match l with
  | [] => (st, None)
  | e :: l =>
      match PutEdge e (rng n) st with
      | (st, Some err) => (st, Some err)
      | (st, None) => put_all rng (S n) l st
      end
  end.

(** A failing [store.Flush] is logged and ignored. *)
Definition bw_Flush (rng : nat -> option bytes) (bw : BatchWriter) : BatchWriter * option string :=
  let edges := bw_pending bw in
  if bool_decide (edges = []) then (bw, None)
  else
    match bw_store bw with
    | None => (bw, Some "store not initialized")
    | Some st =>
        match put_all rng 0 edges st with
        | (st, Some err) => (mkWriter (bw_cfg bw) (Some st) [] (bytesWr bw) (opsCount bw), Some err)
        | (st, None) =>
            let st := if SyncWrites (bw_cfg bw) then (Flush st).1 else st in
            let n := Z.of_nat (length edges) in
            (mkWriter (bw_cfg bw) (Some st) [] (i64 (bytesWr bw + n * 300)) (i64 (opsCount bw + n)), None)
        end
    end.

Definition WriteEdge (rng : nat -> option bytes) (e : Edge.t) (bw : BatchWriter) : BatchWriter * option string :=
  let bw := mkWriter (bw_cfg bw) (bw_store bw) (bw_pending bw ++ [e]) (bytesWr bw) (opsCount bw) in
  if BatchSize (bw_cfg bw) <=? Z.of_nat (length (bw_pending bw)) then bw_Flush rng bw else (bw, None).
End batch_writer.

(** ** Memory pressure *)

Inductive pressure := Nominal | Low | Mid | High.

Definition GiB : Z := 1024 * 1024 * 1024.
Definition parseMemInfo : Z := 8 * GiB.
Definition detectSystemMemory : Z := parseMemInfo.

(** [maxMem], in bytes, for a limit in megabytes. *)
Definition NewPressureMonitor (maxMemMB : Z) : Z :=
  if 0 <? maxMemMB then u64 (maxMemMB * 1024 * 1024) else u64 (detectSystemMemory * 3) / 4.

Definition check (alloc maxMem : Z) : pressure :=
  let fraction := f_div (f_of_Z alloc) (f_of_Z maxMem) in
  if f_ltb fraction (lit 5 10) then Nominal
  else if f_geb fraction (lit 85 100) then High
  else if f_geb fraction (lit 7 10) then Mid else Low.

Definition Pressure (alloc maxMem : Z) : float64 :=
  if maxMem =? 0 then f_of_Z 0 else f_div (f_of_Z alloc) (f_of_Z maxMem).

(** ** The pipeline *)

Definition fileIDFromEvent (evt : Event) : string :=
  if 0 <? Inode evt then NodeIDFile (Inode evt) (DevMajor evt) (DevMinor evt)
  else NodeIDFilePath (Pathname evt).

(** The edges have no identifier. *)
Definition derived_edge (source target relation : string) (ts : time) : Edge.t :=
  Edge.mk "" source target relation ts 1 ∅.

Definition no_path (evt : Event) : bool :=
  bool_decide (Pathname evt = "") || bool_decide (Pathname evt = "?").

Definition deriveEdges (evt : Event) (ts : time) : list Edge.t :=
  let procID := NodeIDProcess (PID evt) in
  let t := Type_ evt in
  if t =? EventProcessFork then
    [derived_edge (NodeIDProcess (ChildPID evt)) procID ProvWasInformedBy ts]
  else if t =? EventProcessExec then
    if no_path evt then [] else [derived_edge procID (fileIDFromEvent evt) ProvUsed ts]
  else if t =? EventFileOpen then
    if no_path evt then [] else [derived_edge procID (fileIDFromEvent evt) ProvUsed ts]
  else if (t =? EventFileCreate) || (t =? EventFileModify) then
    if no_path evt then [] else [derived_edge (fileIDFromEvent evt) procID ProvWasGeneratedBy ts]
  else [].

Section pipeline.
Context `{Pebble} `{Json} `{MapOrder} (rng : nat -> option bytes) (startTicks : Z -> Z).

Record Pipeline := mkPipeline {
  graph : Graph; store : Store; hotCache : Lru.Cache; merger : MergeWindow;
  paused : bool; pauseCh : nat; resumeCh : nat;
  nonces : nat;                 (* nonces used so far *)
  logged : list string;         (* errors logged so far *)
}.

(** The eviction callback, on the store and the nonce counter. *)
Definition evict (g : Graph) (id : string) (env : Store * nat) : (Store * nat) * option string :=
  match LookupNode g id with
  | None => (env, None)
  | Some n => let '(st, err) := PutNode n (rng env.2) env.1 in ((st, S env.2), err)
  end.

Definition put_cb (e : Edge.t) (env : Store * nat) : (Store * nat) * option string :=
  let '(st, err) := PutEdge e (rng env.2) env.1 in ((st, S env.2), err).

Definition New (g : Graph) (maxCache : Z) (window : duration) (opened : string + DB) (key : option bytes)
  : string + Pipeline :=
  match Open opened key with
  | inl e => inl e
  | inr st =>
      match Lru.New maxCache true with
      | None => inl "cache"
      | Some c => inr (mkPipeline g st c (NewMergeWindow window) false 0 0 0 [])
      end
  end.

Definition log (pre : string) (err : option string) (l : list string) : list string :=
  match err with Some e => l ++ [pre +:+ e] | None => l end.

(** [None]: the eviction loop does not terminate (it always does, see [Lru]). *)
Definition cache_add (id : string) (now : time) (p : Pipeline) : option Pipeline :=
  '(c, env, err) ← Lru.Add (evict (graph p)) id now (hotCache p) (store p, nonces p);
  Some (mkPipeline (graph p) env.1 c (merger p) (paused p) (pauseCh p) (resumeCh p) env.2
          (log ("cache add " +:+ id +:+ ": ") err (logged p))).

Definition refreshCache (evt : Event) (t1 t2 : time) (p : Pipeline) : option Pipeline :=
  p ← cache_add (NodeIDProcess (PID evt)) t1 p;
  if no_path evt then Some p else cache_add (fileIDFromEvent evt) t2 p.

Definition merge_edge (p : Pipeline) (e : Edge.t) : Pipeline :=
  let '(mw, merged) := TryMerge e (merger p) in
  if merged then
    mkPipeline (graph p) (store p) (hotCache p) mw (paused p) (pauseCh p) (resumeCh p) (nonces p) (logged p)
  else
    let '(env, err) := put_cb e (store p, nonces p) in
    mkPipeline (graph p) env.1 (hotCache p) mw (paused p) (pauseCh p) (resumeCh p) env.2
      (log "put edge: " err (logged p)).

Definition mergeEdges (evt : Event) (ts : time) (p : Pipeline) : Pipeline :=
  foldl merge_edge p (deriveEdges evt ts).

(** The periodic flush of the window. *)
Definition flush_window (pre : string) (p : Pipeline) : Pipeline :=
  let '(mw, env, n, err) := mw_Flush put_cb (merger p) (store p, nonces p) in
  mkPipeline (graph p) env.1 (hotCache p) mw (paused p) (pauseCh p) (resumeCh p) env.2
    (log pre err (logged p)).

Definition onMidPressure (p : Pipeline) : Pipeline :=
  let '(c, env, n, err) := Lru.EvictColdSync (evict (graph p)) 256 (hotCache p) (store p, nonces p) in
  let p := mkPipeline (graph p) env.1 c (merger p) (paused p) (pauseCh p) (resumeCh p) env.2
             (log "eviction error: " err (logged p)) in
  let p := flush_window "merge flush error: " p in
  let '(st, err) := Flush (store p) in
  mkPipeline (graph p) st (hotCache p) (merger p) (paused p) (pauseCh p) (resumeCh p) (nonces p)
    (log "store flush error: " err (logged p)).

Definition set_paused (b : bool) (pc rc : nat) (p : Pipeline) : Pipeline :=
  mkPipeline (graph p) (store p) (hotCache p) (merger p) b pc rc (nonces p) (logged p).

(** The channel has a buffer of one: [None] is a send that blocks, with the lock held. *)
Definition onHighPressure (p : Pipeline) : option Pipeline :=
  if paused p then Some p
  else if (pauseCh p <? 1)%nat then Some (set_paused true (S (pauseCh p)) (resumeCh p) p) else None.

Definition checkPause (p : Pipeline) : Pipeline :=
  if paused p then
    let p := onMidPressure (set_paused false (pauseCh p) (resumeCh p) p) in
    set_paused (paused p) (pauseCh p) 1 p
  else p.

Definition AddEvent (evt : Event) (t1 t2 t3 : time) (p : Pipeline) : option Pipeline :=
  let p := mkPipeline (ProvGraph.AddEvent startTicks evt (graph p)) (store p) (hotCache p) (merger p) (paused p)
             (pauseCh p) (resumeCh p) (nonces p) (logged p) in
  p ← refreshCache evt t1 t2 p;
  Some (checkPause (mergeEdges evt t3 p)).

(** The monitor's reaction to a memory reading. *)
Definition on_pressure (alloc maxMem : Z) (p : Pipeline) : option Pipeline :=
  match check alloc maxMem with
  | High => p ← onHighPressure p; Some (onMidPressure p)
  | Mid => Some (onMidPressure p)
  | Low | Nominal => Some p
  end.

Definition Stop (p : Pipeline) : Pipeline * option string :=
  let p := onMidPressure p in
  let '(st, err) := Close (store p) in
  (mkPipeline (graph p) st (hotCache p) (merger p) (paused p) (pauseCh p) (resumeCh p) (nonces p) (logged p), err).

(** ** Runs *)

Inductive action :=
| AEvent (evt : Event) (t1 t2 t3 : time)
| ATick
| APressure (alloc maxMem : Z)
| ADrainPause | ADrainResume.      (* the consumer receives from the channels *)

Definition act (a : action) (p : Pipeline) : option Pipeline :=
  match a with
  | AEvent evt t1 t2 t3 => AddEvent evt t1 t2 t3 p
  | ATick => Some (flush_window "periodic flush error: " p)
  | APressure alloc maxMem => on_pressure alloc maxMem p
  | ADrainPause => Some (set_paused (paused p) 0 (resumeCh p) p)
  | ADrainResume => Some (set_paused (paused p) (pauseCh p) 0 p)
  end.

Fixpoint run (l : list action) (p : Pipeline) : option Pipeline :=
  match l with [] => Some p | a :: l => p ← act a p; run l p end.

(** The edges the events of a run derive. *)
Definition derived (l : list action) : list Edge.t :=
  l ≫= fun a => match a with AEvent evt _ _ t3 => deriveEdges evt t3 | _ => [] end.
End pipeline.

(** ** The merge window counts *)

Definition of_key (k : string) (l : list Edge.t) : list Edge.t := filter (fun e => mergeKey e = k) l.

(** The window holds one entry per key of the edges [cur] merged into it, with their
    number and the latest of their times. *)
Definition window_ok (cur : list Edge.t) (mw : MergeWindow) : Prop :=
  forall k, match entries mw !! k with
            | Some m =>
                mergeKey (toEdge m) = k /\ m_Count m = Z.of_nat (length (of_key k cur)) /\
                (exists e, e ∈ of_key k cur /\ Edge.Timestamp e = m_LastSeen m) /\
                Forall (fun e => Edge.Timestamp e <= m_LastSeen m) (of_key k cur)
            | None => of_key k cur = []
            end.

Lemma of_key_snoc k l e :
  of_key k (l ++ [e]) = of_key k l ++ (if decide (mergeKey e = k) then [e] else []).
Proof. unfold of_key. rewrite filter_app, filter_cons, filter_nil. done. Qed.

Lemma window_new d : window_ok [] (NewMergeWindow d).
Proof. intros k. simpl. by rewrite lookup_empty. Qed.

Lemma TryMerge_ok cur mw e :
  window_ok cur mw -> Z.of_nat (length cur) < MaxInt64 -> window_ok (cur ++ [e]) (TryMerge e mw).1.
Proof.
  intros Hw Hlen k. unfold TryMerge. pose proof (Hw (mergeKey e)) as He. rewrite of_key_snoc.
  assert (forall k', (length (of_key k' cur) <= length cur)%nat) as Hl by (intros; apply length_filter).
  specialize (Hl (mergeKey e)). unfold MaxInt64 in *.
  destruct (entries mw !! mergeKey e) as [m|] eqn:Hm; simpl; (case_decide as Hk; [subst k; rewrite lookup_insert_eq|]).
  - destruct He as (Hkey & Hc & (e0 & He0 & Ht0) & Hmax). split_and!.
    + done.
    + simpl. rewrite i64_small, Hc, length_app by (unfold MinInt64, MaxInt64; lia). simpl. lia.
    + simpl. unfold time_After. destruct (Z.ltb_spec (m_LastSeen m) (Edge.Timestamp e)).
      * exists e. split; [set_solver|done].
      * exists e0. split; [set_solver|done].
    + simpl. unfold time_After. apply Forall_app. destruct (Z.ltb_spec (m_LastSeen m) (Edge.Timestamp e)).
      * split; [|by repeat constructor]. eapply Forall_impl; [exact Hmax|]. simpl. lia.
      * split; [done|]. by repeat constructor.
  - rewrite lookup_insert_ne, app_nil_r by done. apply Hw.
  - rewrite He. split_and!; [done|done| |by repeat constructor]. exists e. split; [set_solver|done].
  - rewrite lookup_insert_ne, app_nil_r by done. apply Hw.
Qed.

(** The counts of the edges with an identifier, by key. *)
Definition merged_count (W : list Edge.t) (k : string) : Z :=
  sum (Edge.Count <$> filter (fun w => Edge.ID w <> "" /\ mergeKey w = k) W).

Lemma sum_perm l l' : Permutation l l' -> sum l = sum l'.
Proof. induction 1; unfold sum in *; simpl in *; lia. Qed.

Lemma merged_count_app W W' k : merged_count (W ++ W') k = merged_count W k + merged_count W' k.
Proof. unfold merged_count. by rewrite filter_app, fmap_app, sum_app. Qed.

Lemma merged_count_none W k :
  Forall (fun w => Edge.ID w = "" \/ mergeKey w <> k) W -> merged_count W k = 0.
Proof.
  unfold merged_count. induction 1 as [|w W Hw _ IH]; [done|]. rewrite filter_cons_False by tauto. done.
Qed.

Lemma merged_count_perm W W' k : Permutation W W' -> merged_count W k = merged_count W' k.
Proof. intros Hp. unfold merged_count. apply sum_perm. by rewrite Hp. Qed.

Lemma edgeID_nonempty r s t : edgeID r s t <> "".
Proof.
  unfold edgeID. intros E. apply (f_equal chars) in E. rewrite chars_of_list in E.
  apply (f_equal length) in E. rewrite length_take, length_fmap, !chars_app, !length_app in E.
  change (length (chars ":")) with 1%nat in E. change (length (chars "")) with 0%nat in E. lia.
Qed.

(** The edges of a flush carry the counts of the window. *)
Lemma flush_counts cur mw ws k :
  window_ok cur mw -> Permutation ws (toEdge <$> (map_to_list (entries mw)).*2) ->
  merged_count ws k = Z.of_nat (length (of_key k cur)).
Proof.
  intros Hw Hp. rewrite (merged_count_perm _ _ k Hp). pose proof (Hw k) as Hk.
  assert (forall M : gmap string MergedEdge,
    (forall k' m, M !! k' = Some m -> mergeKey (toEdge m) = k') -> M !! k = None ->
    merged_count (toEdge <$> (map_to_list M).*2) k = 0) as Hnone.
  { intros M HM Hn. apply merged_count_none. rewrite !Forall_fmap. apply Forall_forall.
    intros [k' m] Hin%elem_of_map_to_list. right. simpl. unfold compose. simpl.
    rewrite (HM k' m Hin). intros ->. by rewrite Hn in Hin. }
  assert (forall k' m, entries mw !! k' = Some m -> mergeKey (toEdge m) = k') as Hkeys.
  { intros k' m Hm. pose proof (Hw k') as H'. rewrite Hm in H'. by destruct H' as [? _]. }
  destruct (entries mw !! k) as [m|] eqn:Hm.
  - rewrite <-(insert_delete_id _ _ _ Hm).
    assert (Permutation (toEdge <$> (map_to_list (<[k := m]> (delete k (entries mw)))).*2)
      (toEdge m :: (toEdge <$> (map_to_list (delete k (entries mw))).*2))) as Hp'.
    { rewrite map_to_list_insert by (by rewrite lookup_delete_eq). done. }
    rewrite (merged_count_perm _ _ k Hp').
    change (toEdge m :: ?l) with ([toEdge m] ++ l). rewrite merged_count_app, Hnone.
    + destruct Hk as (Hkey & Hc & _). unfold merged_count. rewrite filter_cons_True.
      * simpl. lia.
      * split; [apply edgeID_nonempty|done].
    + intros k' m' [_ ?]%lookup_delete_Some. by apply Hkeys.
    + by rewrite lookup_delete_eq.
  - rewrite Hnone; [by rewrite Hk|done|done].
Qed.

(** A merge window fed with any edges and flushed to a callback that does not fail
    passes on exactly one edge per key (source, target and relation joined), with the
    number of edges of that key as its count and the latest of their times as its time,
    and leaves the window empty. *)
Lemma merge_window_exact `{MapOrder} (es : list Edge.t) (d : duration)
    (Hlen : Z.of_nat (length es) <= MaxInt64) :
  let mw := foldl (fun mw e => (TryMerge e mw).1) (NewMergeWindow d) es in
  let '(mw', ws, n, err) := mw_Flush (fun e l => (l ++ [e], None)) mw [] in
  err = None /\ entries mw' = ∅ /\ NoDup (mergeKey <$> ws) /\
  (forall e, e ∈ es -> mergeKey e ∈ (mergeKey <$> ws)) /\
  (forall w, w ∈ ws ->
     Edge.Count w = Z.of_nat (length (of_key (mergeKey w) es)) /\
     (exists e, e ∈ of_key (mergeKey w) es /\ Edge.Timestamp e = Edge.Timestamp w) /\
     Forall (fun e => Edge.Timestamp e <= Edge.Timestamp w) (of_key (mergeKey w) es)).
Proof.
  intros mw.
  assert (window_ok es mw) as Hw.
  { unfold mw. clear mw. induction es as [|e es IH] using rev_ind; [apply window_new|].
    rewrite length_app in Hlen. simpl in Hlen. rewrite foldl_snoc. apply TryMerge_ok; [apply IH; lia|lia]. }
  clearbody mw.
  assert (forall l n env, exists n', flush_loop (fun e l => (l ++ [e], None)) l n env = (env ++ (toEdge <$> l), n', None))
    as Hloop.
  { clear. induction l as [|m l IH]; intros n env; simpl; [exists n; by rewrite app_nil_r|].
    destruct (IH (i64 (n + 1)) (env ++ [toEdge m])) as [n' ->]. exists n'. by rewrite <-(assoc_L (++)). }
  assert (exists ws n, mw_Flush (fun e l => (l ++ [e], None)) mw [] =
      (mkWindow (windowDur mw) ∅ (i64 (tickCount mw + 1)), ws, n, None) /\
      Permutation ws (toEdge <$> (map_to_list (entries mw)).*2)) as (ws & n & -> & Hp).
  { unfold mw_Flush. case_bool_decide as Hnil.
    - exists [], 0. rewrite Hnil. done.
    - destruct (Hloop (range (Z.to_nat (tickCount mw)) (map_to_list (entries mw)).*2) 0 []) as [n' ->].
      eexists _, n'. split; [done|]. simpl. by rewrite range_perm. }
  assert (forall w, w ∈ ws <-> exists k m, entries mw !! k = Some m /\ w = toEdge m) as Hws.
  { intros w. rewrite Hp, list_elem_of_fmap. setoid_rewrite list_elem_of_fmap.
    split; [intros (m & -> & [k m'] & -> & Hk%elem_of_map_to_list); eauto|].
    intros (k & m & Hk & ->). exists m. split; [done|]. exists (k, m). split; [done|]. by apply elem_of_map_to_list. }
  split_and!; [done|done| | |].
  - rewrite Hp, <-!list_fmap_compose.
    rewrite (list_fmap_ext _ fst); [apply NoDup_fst_map_to_list|].
    intros i [k m] Hi%list_elem_of_lookup_2%elem_of_map_to_list. pose proof (Hw k) as Hk. rewrite Hi in Hk.
    by destruct Hk as [? _].
  - intros e He. pose proof (Hw (mergeKey e)) as Hk. destruct (entries mw !! mergeKey e) as [m|] eqn:Hm.
    + destruct Hk as [Hk _]. rewrite <-Hk. apply list_elem_of_fmap_2, Hws. eauto.
    + assert (e ∈ of_key (mergeKey e) es) as Hin by (by apply list_elem_of_filter).
      rewrite Hk in Hin. by apply elem_of_nil in Hin.
  - intros w (k & m & Hm & ->)%Hws. pose proof (Hw k) as Hk. rewrite Hm in Hk.
    destruct Hk as (-> & Hc & ? & ?). by split_and!.
Qed.

(** ** What the cache does to the store *)

(** A property of the environment that the callback keeps when it succeeds is kept by the
    cache operations that report no error. *)
Section lru_env.
Context {E : Type} (f : string -> E -> E * option string) (P : E -> Prop).
Context (HP : forall id env env', P env -> f id env = (env', None) -> P env').

Lemma evictLocked_env c env c' env' : P env -> Lru.evictLocked f c env = (c', env', None) -> P env'.
Proof using HP.
  intros Henv. unfold Lru.evictLocked. destruct (last (Lru.order c)) as [[el ent]|]; [|by intros [= _ <-]].
  destruct (f (Lru.nodeID ent) env) as [env1 [e|]] eqn:Hf; [done|]. intros [= _ <-]. by eapply HP.
Qed.

Lemma evict_loop_env fuel c env c' env' :
  P env -> Lru.evict_loop f fuel c env = Some (c', env', None) -> P env'.
Proof using HP.
  revert c env. induction fuel as [|fuel IH]; intros c env Henv; simpl; (case_match; [by intros [= _ <-]|done || idtac]).
  destruct (Lru.evictLocked f c env) as [[c1 env1] [e|]] eqn:He; [done|]. apply IH. by eapply evictLocked_env.
Qed.

Lemma cache_Add_env id now c env c' env' : P env -> Lru.Add f id now c env = Some (c', env', None) -> P env'.
Proof using HP.
  intros Henv. unfold Lru.Add. destruct (Lru.items c !! id); [by intros [= _ <-]|].
  destruct (Lru.evict_loop f _ c env) as [[[c1 env1] [e|]]|] eqn:He; simpl; [done| |done].
  intros [= _ <-]. by eapply evict_loop_env.
Qed.

Lemma cache_cold_env count n c env c' env' k :
  P env -> Lru.EvictColdSync_loop f count n c env = (c', env', k, None) -> P env'.
Proof using HP.
  revert n c env. induction count as [|count IH]; intros n c env Henv; simpl; [by intros [= _ <-]|].
  case_bool_decide; [by intros [= _ <-]|].
  destruct (Lru.evictLocked f c env) as [[c1 env1] [e|]] eqn:He; [done|]. apply IH. by eapply evictLocked_env.
Qed.
End lru_env.

(** ** The pipeline loses and invents no edge *)

Section conservation.
Context `{Pebble} `{Json} `{MapOrder} (rng : nat -> option bytes) (startTicks : Z -> Z).
Context (Hrng : forall n, nonce_ok (rng n)).

Abbreviation act := (act rng startTicks).
Abbreviation run := (run rng startTicks).

(** Of the edges [D] derived so far, those up to some flush are counted in the edges [W]
    written to the store, and those after it in the window. *)
Definition pinv (D : list Edge.t) (p : Pipeline) : Prop :=
  exists W old cur, D = old ++ cur /\ history (store p) W /\ window_ok cur (merger p) /\
    forall k, merged_count W k = Z.of_nat (length (of_key k old)).

Lemma log_nil pre err l : log pre err l = [] -> err = None /\ l = [].
Proof. destruct err; simpl; [|done]. intros E. by apply app_nil in E as [_ ?]. Qed.

Lemma evict_history g W id env env' :
  history env.1 W -> evict rng g id env = (env', None) -> history env'.1 W.
Proof using Hrng.
  intros Hh. unfold evict. destruct (LookupNode g id) as [n|]; [|by intros [= <-]].
  destruct (PutNode n (rng env.2) env.1) as [st err] eqn:Hp. intros [= <- ->]. simpl.
  by eapply h_node.
Qed.

Lemma put_history W e env env' :
  history env.1 W -> put_cb rng e env = (env', None) -> history env'.1 (W ++ [e]).
Proof using Hrng.
  intros Hh. unfold put_cb. destruct (PutEdge e (rng env.2) env.1) as [st err] eqn:Hp.
  intros [= <- ->]. simpl. by eapply h_edge.
Qed.

Lemma pinv_store D p p' :
  (forall W, history (store p) W -> history (store p') W) -> merger p' = merger p -> pinv D p -> pinv D p'.
Proof. intros Hst Hm (W & old & cur & HD & Hh & Hw & Hc). exists W, old, cur. rewrite Hm. auto. Qed.

Lemma cache_add_pinv D id now p p' :
  pinv D p -> cache_add rng id now p = Some p' -> logged p' = [] -> logged p = [] /\ pinv D p'.
Proof using Hrng.
  intros Hp Ha Hl. unfold cache_add in Ha.
  destruct (Lru.Add _ id now _ _) as [[[c env] err]|] eqn:Hadd; simpl in Ha; [|done]. injection Ha as <-.
  simpl in Hl. apply log_nil in Hl as [-> Hl]. split; [done|].
  apply (pinv_store D p); [|reflexivity|exact Hp]. intros W Hh. simpl.
  eapply (cache_Add_env (evict rng (graph p)) (fun env => history env.1 W)); [| |exact Hadd]; [|exact Hh].
  intros. by eapply evict_history.
Qed.

Lemma refreshCache_pinv D evt t1 t2 p p' :
  pinv D p -> refreshCache rng evt t1 t2 p = Some p' -> logged p' = [] -> logged p = [] /\ pinv D p'.
Proof using Hrng.
  intros Hp Hr Hl. unfold refreshCache in Hr.
  destruct (cache_add rng _ t1 p) as [p1|] eqn:Hadd; simpl in Hr; [|done].
  assert (logged p1 = [] -> logged p = [] /\ pinv D p1) as Hp1 by (by eapply cache_add_pinv).
  destruct (no_path evt); [by simplify_eq; auto|].
  assert (logged p1 = []) as Hl1.
  { unfold cache_add in Hr. destruct (Lru.Add _ _ t2 _ _) as [[[c env] err]|]; simpl in Hr; [|done].
    simplify_eq. simpl in Hl. by apply log_nil in Hl as [_ ?]. }
  destruct (Hp1 Hl1) as [H0' Hp1']. split; [done|]. by eapply cache_add_pinv.
Qed.

Lemma merge_edge_pinv D e p :
  pinv D p -> Z.of_nat (length D) < MaxInt64 -> Edge.ID e = "" ->
  logged (merge_edge rng p e) = [] -> logged p = [] /\ pinv (D ++ [e]) (merge_edge rng p e).
Proof using Hrng.
  intros (W & old & cur & -> & Hh & Hw & Hc) Hlen Hid. rewrite length_app in Hlen.
  pose proof (TryMerge_ok cur (merger p) e Hw ltac:(lia)) as Hw'. unfold merge_edge.
  destruct (TryMerge e (merger p)) as [mw merged]. simpl in Hw'. destruct merged.
  - intros Hl. split; [done|]. exists W, old, (cur ++ [e]). by rewrite (assoc_L (++)).
  - destruct (put_cb rng e _) as [env err] eqn:Hp. simpl. intros [-> Hl]%log_nil. split; [done|].
    exists (W ++ [e]), old, (cur ++ [e]). split_and!; [by rewrite (assoc_L (++))| |done|].
    + eapply put_history; [|exact Hp]. exact Hh.
    + intros k. rewrite merged_count_app, Hc, (merged_count_none [e]); [lia|]. constructor; [by left|constructor].
Qed.

Lemma merge_edge_logged p e : logged (merge_edge rng p e) = [] -> logged p = [].
Proof.
  unfold merge_edge. destruct (TryMerge e (merger p)) as [mw []]; [done|].
  destruct (put_cb rng e _) as [env err]. simpl. by intros [_ ?]%log_nil.
Qed.

Lemma merge_edges_logged es p : logged (foldl (merge_edge rng) p es) = [] -> logged p = [].
Proof.
  revert p. induction es as [|e es IH]; intros p; [done|]. simpl. intros Hl%IH. by eapply merge_edge_logged.
Qed.

Lemma merge_edges_pinv D es p :
  pinv D p -> Z.of_nat (length (D ++ es)) <= MaxInt64 -> Forall (fun e => Edge.ID e = "") es ->
  logged (foldl (merge_edge rng) p es) = [] ->
  logged p = [] /\ pinv (D ++ es) (foldl (merge_edge rng) p es).
Proof using Hrng.
  intros Hp Hlen Hes. revert D p Hp Hlen. induction Hes as [|e es He Hes IH]; intros D p Hp Hlen Hl; simpl in *.
  { by rewrite app_nil_r. }
  pose proof (merge_edges_logged _ _ Hl) as Hl1.
  rewrite length_app in Hlen. simpl in Hlen.
  destruct (merge_edge_pinv D e p Hp ltac:(lia) He Hl1) as [H0' Hp']. split; [done|].
  replace (D ++ e :: es) with ((D ++ [e]) ++ es) by (by rewrite <-(assoc_L (++))).
  apply IH; [done| |done]. rewrite !length_app. simpl. lia.
Qed.

Lemma deriveEdges_ID evt ts : Forall (fun e => Edge.ID e = "") (deriveEdges evt ts).
Proof. unfold deriveEdges. repeat case_match; repeat constructor. Qed.

Lemma flush_loop_history l n env env' n' W :
  history env.1 W -> flush_loop (put_cb rng) l n env = (env', n', None) ->
  history env'.1 (W ++ (toEdge <$> l)).
Proof using Hrng.
  revert n env W. induction l as [|m l IH]; intros n env W Hh; simpl.
  { intros [= <- _]. by rewrite app_nil_r. }
  destruct (put_cb rng (toEdge m) env) as [env1 [e|]] eqn:Hp; [done|]. intros Hf.
  eapply IH in Hf; [|by eapply put_history]. by rewrite <-(assoc_L (++)) in Hf.
Qed.

(** A flush without error empties the window into the store. *)
Lemma flush_window_pinv D pre p :
  pinv D p -> logged (flush_window rng pre p) = [] ->
  logged p = [] /\ pinv D (flush_window rng pre p) /\
  exists W, history (store (flush_window rng pre p)) W /\
    forall k, merged_count W k = Z.of_nat (length (of_key k D)).
Proof using Hrng.
  intros (W & old & cur & -> & Hh & Hw & Hc). unfold flush_window, mw_Flush.
  assert (forall W' p', history (store p') W' -> entries (merger p') = ∅ ->
    (forall k, merged_count W' k = Z.of_nat (length (of_key k (old ++ cur)))) ->
    pinv (old ++ cur) p' /\ exists W, history (store p') W /\
      forall k, merged_count W k = Z.of_nat (length (of_key k (old ++ cur)))) as Hdone.
  { intros W' p' Hh' He Hc'. split; [|by exists W']. exists W', (old ++ cur), []. rewrite app_nil_r.
    split_and!; [done|done| |done]. intros k. by rewrite He, lookup_empty. }
  assert (forall ws, Permutation ws (toEdge <$> (map_to_list (entries (merger p))).*2) ->
    forall k, merged_count (W ++ ws) k = Z.of_nat (length (of_key k (old ++ cur)))) as Hcount.
  { intros ws Hp k. rewrite merged_count_app, Hc, (flush_counts cur (merger p)) by done.
    unfold of_key. rewrite filter_app, length_app. lia. }
  case_bool_decide as Hnil.
  - intros Hl. split; [done|]. apply (Hdone W); [done|done|]. intros k.
    rewrite <-(Hcount []); [by rewrite app_nil_r|]. by rewrite Hnil.
  - destruct (flush_loop _ _ 0 _) as [[env n] err] eqn:Hf. intros [-> Hl]%log_nil. split; [done|].
    eapply flush_loop_history in Hf; [|exact Hh]. eapply Hdone; [exact Hf|done|].
    apply Hcount. by rewrite range_perm.
Qed.

(** The log only grows. *)
Lemma flush_window_logged pre p : logged (flush_window rng pre p) = [] -> logged p = [].
Proof.
  unfold flush_window. destruct (mw_Flush _ _ _) as [[[mw env1] n1] err1]. by intros [_ ?]%log_nil.
Qed.

Lemma onMidPressure_logged p : logged (onMidPressure rng p) = [] -> logged p = [].
Proof.
  unfold onMidPressure. destruct (Lru.EvictColdSync _ 256 _ _) as [[[c env] n] err].
  destruct (Flush _) as [st err']. intros [_ Hl]%log_nil. apply flush_window_logged in Hl.
  by apply log_nil in Hl as [_ ?].
Qed.

Lemma checkPause_logged p : logged (checkPause rng p) = [] -> logged p = [].
Proof. unfold checkPause. destruct (paused p); [|done]. intros Hl. by apply onMidPressure_logged in Hl. Qed.

Lemma cache_add_logged id now p p' : cache_add rng id now p = Some p' -> logged p' = [] -> logged p = [].
Proof.
  unfold cache_add. destruct (Lru.Add _ _ _ _ _) as [[[c env] err]|]; simpl; [|done].
  intros [= <-]. by intros [_ ?]%log_nil.
Qed.

Lemma act_logged a p p' : act a p = Some p' -> logged p' = [] -> logged p = [].
Proof.
  destruct a as [evt t1 t2 t3| |alloc maxMem| |]; simpl; try (by intros [= <-]).
  - unfold AddEvent, refreshCache. destruct (cache_add rng _ t1 _) as [p1|] eqn:E1; simpl; [|done].
    destruct (no_path evt); simpl.
    + intros [= <-] Hl%checkPause_logged%merge_edges_logged. by apply (cache_add_logged _ _ _ _ E1) in Hl.
    + destruct (cache_add rng (fileIDFromEvent evt) t2 p1) as [p2|] eqn:E2; simpl; [|done].
      intros [= <-] Hl%checkPause_logged%merge_edges_logged.
      apply (cache_add_logged _ _ _ _ E2) in Hl. by apply (cache_add_logged _ _ _ _ E1) in Hl.
  - intros [= <-]. apply flush_window_logged.
  - unfold on_pressure. destruct (check alloc maxMem); try (by intros [= <-]).
    + by intros [= <-] ?%onMidPressure_logged.
    + unfold onHighPressure. destruct (paused p); simpl; [by intros [= <-] ?%onMidPressure_logged|].
      destruct (pauseCh p <? 1)%nat; simpl; [|done]. by intros [= <-] ?%onMidPressure_logged.
Qed.

(** Each operation keeps the invariant when it logs nothing. *)
Lemma onMidPressure_pinv D p : pinv D p -> logged (onMidPressure rng p) = [] -> pinv D (onMidPressure rng p).
Proof using Hrng.
  intros Hp. unfold onMidPressure.
  destruct (Lru.EvictColdSync _ 256 _ _) as [[[c env] n] err] eqn:Hcold.
  match goal with |- context [flush_window rng _ ?q] => set (p1 := q) end.
  destruct (Flush (store (flush_window rng _ p1))) as [st err'] eqn:Hf.
  intros [-> Hl]%log_nil. pose proof (flush_window_logged _ _ Hl) as Hl1. apply log_nil in Hl1 as [-> _].
  assert (pinv D p1) as Hp1.
  { apply (pinv_store D p); [|reflexivity|exact Hp]. intros W Hh. simpl.
    eapply (cache_cold_env (evict rng (graph p)) (fun env => history env.1 W)); [| |exact Hcold]; [|exact Hh].
    intros. by eapply evict_history. }
  destruct (flush_window_pinv D _ p1 Hp1 Hl) as (_ & Hp2 & _).
  apply (pinv_store D (flush_window rng "merge flush error: " p1)); [|reflexivity|done].
  intros W Hh. simpl. by eapply h_flush.
Qed.

Lemma checkPause_pinv D p : pinv D p -> logged (checkPause rng p) = [] -> pinv D (checkPause rng p).
Proof using Hrng.
  intros Hp. unfold checkPause. destruct (paused p); [|done]. intros Hl.
  exact (onMidPressure_pinv D (set_paused false (pauseCh p) (resumeCh p) p) Hp Hl).
Qed.

Lemma on_pressure_pinv D alloc maxMem p p' :
  pinv D p -> on_pressure rng alloc maxMem p = Some p' -> logged p' = [] -> pinv D p'.
Proof using Hrng.
  intros Hp Ha Hl. unfold on_pressure in Ha. destruct (check alloc maxMem); try by simplify_eq.
  - simplify_eq. by apply onMidPressure_pinv.
  - unfold onHighPressure in Ha. destruct (paused p); simpl in Ha.
    + simplify_eq. by apply onMidPressure_pinv.
    + destruct (pauseCh p <? 1)%nat; simpl in Ha; [|done]. injection Ha as <-.
      exact (onMidPressure_pinv D (set_paused true (S (pauseCh p)) (resumeCh p) p) Hp Hl).
Qed.

Lemma AddEvent_pinv D evt t1 t2 t3 p p' :
  pinv D p -> AddEvent rng startTicks evt t1 t2 t3 p = Some p' -> logged p' = [] ->
  Z.of_nat (length (D ++ deriveEdges evt t3)) <= MaxInt64 -> pinv (D ++ deriveEdges evt t3) p'.
Proof using Hrng.
  intros Hp Ha Hl Hlen. unfold AddEvent in Ha.
  match type of Ha with context [refreshCache rng evt t1 t2 ?q] => set (p0 := q) in * end.
  destruct (refreshCache rng evt t1 t2 p0) as [p1|] eqn:Hr; simpl in Ha; [|done]. injection Ha as <-.
  assert (pinv D p0) as Hp0 by exact Hp.
  pose proof (checkPause_logged _ Hl) as Hl2. pose proof (merge_edges_logged _ _ Hl2) as Hl1.
  destruct (refreshCache_pinv D evt t1 t2 p0 p1 Hp0 Hr Hl1) as [_ Hp1].
  destruct (merge_edges_pinv D (deriveEdges evt t3) p1 Hp1 Hlen (deriveEdges_ID evt t3) Hl2) as [_ Hp2].
  by apply checkPause_pinv.
Qed.

Lemma act_pinv D a p p' :
  pinv D p -> act a p = Some p' -> logged p' = [] -> Z.of_nat (length (D ++ derived [a])) <= MaxInt64 ->
  pinv (D ++ derived [a]) p'.
Proof using Hrng.
  intros Hp Ha Hl. unfold derived. destruct a as [evt t1 t2 t3| |alloc maxMem| |]; simpl in *; rewrite app_nil_r.
  - intros Hlen. by apply (AddEvent_pinv D evt t1 t2 t3 p).
  - intros _. injection Ha as <-. by destruct (flush_window_pinv D _ p Hp Hl) as (_ & ? & _).
  - intros _. by eapply on_pressure_pinv.
  - intros _. by simplify_eq.
  - intros _. by simplify_eq.
Qed.

Lemma derived_cons a l : derived (a :: l) = derived [a] ++ derived l.
Proof. unfold derived. simpl. by rewrite app_nil_r. Qed.

Lemma run_logged l p p' : run l p = Some p' -> logged p' = [] -> logged p = [].
Proof.
  revert p. induction l as [|a l IH]; intros p; simpl; [by intros [= <-]|].
  destruct (act a p) as [p1|] eqn:Ha; simpl; [|done]. intros Hr Hl. by eapply act_logged, IH.
Qed.

Lemma run_pinv D l p p' :
  pinv D p -> run l p = Some p' -> logged p' = [] -> Z.of_nat (length (D ++ derived l)) <= MaxInt64 ->
  pinv (D ++ derived l) p'.
Proof using Hrng.
  revert D p. induction l as [|a l IH]; intros D p Hp.
  { intros [= <-] _ _. by rewrite app_nil_r. }
  rewrite derived_cons, (assoc_L (++)), length_app. intros Hr Hl Hlen.
  change (act a p ≫= run l = Some p') in Hr. destruct (act a p) as [p1|] eqn:Ha; simpl in Hr; [|done].
  assert (logged p1 = []) as Hl1 by (by eapply run_logged).
  eapply (IH (D ++ derived [a]) p1); [|done|done|rewrite length_app; lia].
  eapply act_pinv; [done..|]. lia.
Qed.


(** ** The batch writer *)

Lemma put_all_history n l st st' W :
  history st W -> put_all rng n l st = (st', None) -> history st' (W ++ l).
Proof using Hrng.
  revert n st W. induction l as [|e l IH]; intros n st W Hh; simpl; [intros [= <-]; by rewrite app_nil_r|].
  destruct (PutEdge e (rng n) st) as [st1 [err|]] eqn:Hp; [done|]. intros Hl.
  eapply IH in Hl; [|by eapply h_edge]. by rewrite <-(assoc_L (++)) in Hl.
Qed.

(** Edges written to the store, then those pending, are the edges received. *)
Definition bw_ok (es : list Edge.t) (bw : BatchWriter) : Prop :=
  exists st W, bw_store bw = Some st /\ history st W /\ es = W ++ bw_pending bw.

Lemma bw_Flush_ok es bw bw' :
  SyncWrites (bw_cfg bw) = false -> bw_ok es bw -> bw_Flush rng bw = (bw', None) ->
  bw_ok es bw' /\ bw_pending bw' = [] /\ bw_cfg bw' = bw_cfg bw.
Proof using Hrng.
  intros Hs (st & W & Hst & Hh & ->). unfold bw_Flush. case_bool_decide as Hnil.
  { intros [= <-]. split; [|done]. exists st, W. done. }
  rewrite Hst, Hs. destruct (put_all rng 0 _ st) as [st1 [err|]] eqn:Hp; [done|]. intros [= <-].
  split; [|done]. exists st1, (W ++ bw_pending bw). simpl. rewrite app_nil_r. split_and!; [done| |done].
  by eapply put_all_history.
Qed.

Lemma WriteEdge_ok es e bw bw' :
  SyncWrites (bw_cfg bw) = false -> bw_ok es bw -> WriteEdge rng e bw = (bw', None) ->
  bw_ok (es ++ [e]) bw' /\ bw_cfg bw' = bw_cfg bw /\
  (Z.of_nat (length (bw_pending bw)) < Z.max 1 (BatchSize (bw_cfg bw)) ->
   Z.of_nat (length (bw_pending bw')) < Z.max 1 (BatchSize (bw_cfg bw))).
Proof using Hrng.
  intros Hs (st & W & Hst & Hh & ->). unfold WriteEdge.
  set (bw1 := mkWriter _ _ _ _ _). assert (bw_ok ((W ++ bw_pending bw) ++ [e]) bw1) as H1'.
  { exists st, W. split_and!; [done|done|]. simpl. by rewrite (assoc_L (++)). }
  cbn [bw_cfg bw_pending bw1]. destruct (Z.leb_spec (BatchSize (bw_cfg bw)) (Z.of_nat (length (bw_pending bw ++ [e])))).
  - intros Hf. destruct (bw_Flush_ok _ bw1 bw' Hs H1' Hf) as (? & Hp & Hc). split_and!; [done|done|].
    rewrite Hp. simpl. lia.
  - intros [= <-]. split_and!; [done|done|]. subst bw1. cbn [bw_pending]. lia.
Qed.
End conservation.

(** ** Witnesses and limits, for the concrete database, codec and map order *)

Definition no_rng (n : nat) : option bytes := None.
Lemma no_rng_ok n : nonce_ok (no_rng n).
Proof. intros b Hb. discriminate Hb. Qed.

Definition pipe0 : Pipeline (H := map_pebble) :=
  mkPipeline (NewGraph unix_epoch) (mkStore (H := map_pebble) ∅ [] 200 false None)
    (Lru.mkCache 4 ∅ [] 0 0 0) (NewMergeWindow 0) false 0 0 0 [].

Abbreviation run0 := (run (H := map_pebble) (H0 := field_json) (H1 := alternating_order) no_rng (fun _ => 0)).
Abbreviation flush0 := (flush_window (H := map_pebble) (H0 := field_json) (H1 := alternating_order) no_rng).

(** Process 10 opens the same file at three instants. *)
Definition open_at (t : Z) : action :=
  AEvent (mkEvent EventFileOpen 0 1 10 10 1 0 0 5 8 1 0 0 0 0 0 0 0 0 0 0 "sh" "/etc/passwd" "" "" "" "")
    (unix_epoch + t) (unix_epoch + t) (unix_epoch + t).
Definition three_opens : list action := [open_at 100; open_at 200; open_at 300].
Definition pipe3 : Pipeline (H := map_pebble) := default pipe0 (run0 three_opens pipe0).

Lemma option_default_Some {A} (d : A) o : is_Some o -> o = Some (default d o).
Proof. by intros [x ->]. Qed.


Lemma merge_window_exact_witness :
  let '(mw', ws, n, err) := mw_Flush (H := alternating_order) (fun e l => (l ++ [e], None))
    (foldl (fun mw e => (TryMerge e mw).1) (NewMergeWindow 0) (derived three_opens)) [] in
  err = None /\ forall w, w ∈ ws -> Edge.Count w = Z.of_nat (length (of_key (mergeKey w) (derived three_opens))).
Proof.
  assert (Z.of_nat (length (derived three_opens)) <= MaxInt64) as Hlen by (vm_compute; discriminate).
  pose proof (merge_window_exact (H := alternating_order) (derived three_opens) 0 Hlen) as T. cbv zeta in T.
  revert T. destruct (mw_Flush (H := alternating_order) _ _ _) as [[[mw' ws] n] err].
  intros (E & _ & _ & _ & Hw). split; [exact E|]. intros w Hin. exact (proj1 (Hw w Hin)).
Defined.

(** The first edge of a window is written at once and counted again by the flush: three
    reads are stored as records whose counts add up to four. *)
Example first_occurrence_counted_twice :
  (fun e => (Edge.ID e, Edge.Count e)) <$>
    scanned (GetEdgesByTarget (H := map_pebble) (H0 := field_json) "f:5:8:1" (store (flush0 "" pipe3))).2
  = [("", 1); (edgeID ProvUsed "p:10" "f:5:8:1", 3)].
Proof. vm_compute. reflexivity. Qed.

(** A second episode of high pressure blocks the monitor for ever, holding the lock that
    [AddEvent] takes, if nobody received the first pause signal. *)
Example second_pause_blocks :
  match run0 [APressure 900 1000; open_at 100; APressure 900 1000] pipe0 with
  | Some _ => false | None => true end = true.
Proof. vm_compute. reflexivity. Qed.

(** A failing write during a flush loses the edges not yet written: the window is already
    empty, and for the batch writer so is the list of pending edges. *)
Lemma flush_error_loses `{MapOrder} {E} (f : Edge.t -> E -> E * option string) mw env mw' env' n err :
  mw_Flush f mw env = (mw', env', n, err) -> entries mw' = ∅.
Proof.
  unfold mw_Flush. case_bool_decide; [by intros [= <- _ _ _]|].
  destruct (flush_loop f _ 0 env) as [[? ?] ?]. by intros [= <- _ _ _].
Qed.

Lemma batch_error_loses `{Pebble} `{Json} rng bw bw' err st :
  bw_store bw = Some st -> bw_Flush rng bw = (bw', Some err) -> bw_pending bw' = [].
Proof.
  intros Hst. unfold bw_Flush. case_bool_decide; [done|]. rewrite Hst.
  destruct (put_all rng 0 _ st) as [st' [e|]]; by intros [= <- _].
Qed.
