(* ===== verification/Backtrace.v ===== *)
(** * Backward tracing ([internal/engine/backtrace/backtrace.go])

    A breadth-first search from a node against the direction of the edges, over the graph
    in memory and the persistent store.  What the tracer needs of the store is the class
    [EdgeStore]; [Store] implements it ([store_edges] below).  The search has fuel, and
    the theorem shows that enough fuel exists and what the search then finds. *)
From Stdlib Require Import Ascii.
From S2P Require Import Prelude GoStrings ProvGraph GoSort KV Secure Store.

Definition defaultMaxDepth : Z := 10.
Definition defaultMaxNodes : Z := 1000.
Definition rootProcessIDs : gset string := {[ "p:1"; "p:0" ]}.

Record TraceRequest := mkRequest {
  StartID : string; MaxDepth : Z; MaxNodesPerSegment : Z; SegmentOffset : Z;
}.

Definition normalize (r : TraceRequest) : TraceRequest :=
  mkRequest (StartID r)
    (if MaxDepth r <=? 0 then defaultMaxDepth else MaxDepth r)
    (if MaxNodesPerSegment r <=? 0 then defaultMaxNodes else MaxNodesPerSegment r)
    (SegmentOffset r).

Record TraceSegment := mkSegment {
  seg_Depth : Z; seg_Nodes : list Node.t; seg_Edges : list Edge.t;
  HasMore : bool; TotalAtDepth : Z; Description : string;
}.

Record TimelineEvent := mkTimeline {
  tl_Depth : Z; tl_NodeID : string; tl_NodeLabel : string; tl_NodeSubtype : string;
  tl_EdgeRel : string; tl_Timestamp : string;
}.

Record TraceResult := mkTrace {
  res_StartID : string; res_MaxDepth : Z; Segments : list TraceSegment;
  TotalNodes : Z; TotalEdges : Z; Truncated : bool; HitRoot : bool; Timeline : list TimelineEvent;
}.

(** ** What the tracer needs of the store *)

(** [None] is an error.  A read without error does not change what is stored. *)
Class EdgeStore (S : Type) := {
  edges_by_target : string -> S -> S * option (list Edge.t);
  node_by_id : string -> S -> option Node.t;           (* [None]: absent, or an error *)
  contents : Type;
  snapshot : S -> contents;
  stored : contents -> string -> list Edge.t;
  edges_by_target_some : forall t s l, (edges_by_target t s).2 = Some l ->
    l = stored (snapshot s) t /\ snapshot (edges_by_target t s).1 = snapshot s;
}.
Arguments contents S {_}.

Section tracer.
Context `{SortSlice} {S : Type} `{EdgeStore S}.
(** The offset of the local time zone, in seconds. *)
Context (zone : Z).

Record Backtracer := mkBacktracer {
  graph : Graph; bt_store : option S;
  inMemReverse : gmap string (list Edge.t); nodeCache : gmap string Node.t;
}.

Definition New (g : Graph) (st : option S) : Backtracer := mkBacktracer g st ∅ ∅.

Definition set_store (st : option S) (bt : Backtracer) : Backtracer :=
  mkBacktracer (graph bt) st (inMemReverse bt) (nodeCache bt).

Definition buildReverseIndex (bt : Backtracer) : Backtracer :=
  mkBacktracer (graph bt) (bt_store bt)
    (foldl (fun m e => <[Edge.Target e := default [] (m !! Edge.Target e) ++ [e]]> m) ∅ (Edges (graph bt)))
    (nodeCache bt).

(** ** Reverse edges *)

(** [if !seen[e.ID]]: the first edge of each identifier. *)
Fixpoint dedup_ids (seen : gset string) (l : list Edge.t) : list Edge.t :=
  match l with
  | [] => []
  | e :: l =>
      if decide (Edge.ID e ∈ seen) then dedup_ids seen l
      else e :: dedup_ids ({[ Edge.ID e ]} ∪ seen) l
  end.

Definition before (e e' : Edge.t) : bool := time_Before (Edge.Timestamp e) (Edge.Timestamp e').

Definition reverseEdges (nodeID : string) (bt : Backtracer) : Backtracer * list Edge.t :=
  let mem := default [] (inMemReverse bt !! nodeID) in
  match bt_store bt with
  | None => (bt, sort_slice before (dedup_ids ∅ mem))
  | Some st =>
      let '(st, r) := edges_by_target nodeID st in
      (set_store (Some st) bt, sort_slice before (dedup_ids ∅ (mem ++ default [] r)))
  end.

(** ** Nodes *)

Definition syntheticNode (id : string) : Node.t :=
  if HasPrefix id "p:" then Node.mk id "prov:Activity" "process" id time_zero time_zero ∅
  else if HasPrefix id "f:" then Node.mk id "prov:Entity" "file" id time_zero time_zero ∅
  else Node.mk id "prov:Entity" "unknown" id time_zero time_zero ∅.

Definition lookupNode (id : string) (bt : Backtracer) : Backtracer * Node.t :=
  let found n := (mkBacktracer (graph bt) (bt_store bt) (inMemReverse bt) (<[id := n]> (nodeCache bt)), n) in
  match nodeCache bt !! id with
  | Some n => (bt, n)
  | None =>
      match LookupNode (graph bt) id with
      | Some n => found n
      | None =>
          match st ← bt_store bt; node_by_id id st with
          | Some n => found n
          | None => found (syntheticNode id)
          end
      end
  end.

(** ** The search *)

Record bfsItem := mkItem { nodeID : string; depth : Z; parentID : string; inEdge : option Edge.t }.

Record search := mkSearch {
  queue : list bfsItem; visited : gmap string Z; levels : gmap Z (list bfsItem);
  truncated : bool; hitRoot : bool;
}.

(** The inner loop: the sources of the edges, not visited yet. *)
Definition visit (item : bfsItem) (st : gmap string Z * list bfsItem) (e : Edge.t)
  : gmap string Z * list bfsItem :=
  let '(vis, q) := st in
  let id := Edge.Source e in
  match vis !! id with
  | Some _ => st
  | None => (<[id := depth item + 1]> vis, q ++ [mkItem id (depth item + 1) (nodeID item) (Some e)])
  end.

Fixpoint bfs (fuel : nat) (maxDepth : Z) (s : search) (bt : Backtracer) : option (search * Backtracer) :=
  match queue s with
  | [] => Some (s, bt)
  | item :: q =>
      match fuel with
      | O => None
      | Datatypes.S fuel =>
          let lv := <[depth item := default [] (levels s !! depth item) ++ [item]]> (levels s) in
          if maxDepth <=? depth item then
            bfs fuel maxDepth (mkSearch q (visited s) lv true (hitRoot s)) bt
          else if decide (nodeID item ∈ rootProcessIDs) then
            bfs fuel maxDepth (mkSearch q (visited s) lv (truncated s) true) bt
          else
            let '(bt, ancestors) := reverseEdges (nodeID item) bt in
            let '(vis, q) := foldl (visit item) (visited s, q) ancestors in
            bfs fuel maxDepth (mkSearch q vis lv (truncated s) (hitRoot s)) bt
      end
  end.

Definition start_search (id : string) : search :=
  mkSearch [mkItem id 0 "" None] {[ id := 0 ]} ∅ false false.

(** ** Segments *)

Fixpoint seg_items (items : list bfsItem) (bt : Backtracer) : Backtracer * list Node.t * list Edge.t :=
  match items with
  | [] => (bt, [], [])
  | it :: items =>
      let '(bt, n) := lookupNode (nodeID it) bt in
      let '(bt, ns, es) := seg_items items bt in
      (bt, n :: ns, match inEdge it with Some e => e :: es | None => es end)
  end.

Definition describe (req : TraceRequest) (d : Z) : string :=
  if d =? 0 then "Start: " +:+ StartID req
  else if d =? 1 then "Direct ancestors (1 hop)"
  else "Ancestors (" +:+ pretty d +:+ " hops)".

(** [None]: the slice expression panics. *)
Definition make_segment (req : TraceRequest) (d : Z) (items : list bfsItem) (bt : Backtracer)
  : option (Backtracer * TraceSegment) :=
  let len := Z.of_nat (length items) in
  let off := if 0 <? SegmentOffset req then SegmentOffset req else 0 in
  let end_ := i64 (off + MaxNodesPerSegment req) in
  let end_ := if len <? end_ then len else end_ in
  if (off <=? end_) then
    let '(bt, ns, es) := seg_items (take (Z.to_nat (end_ - off)) (drop (Z.to_nat off) items)) bt in
    Some (bt, mkSegment d ns es (end_ <? len) len (describe req d))
  else None.

(** [for depth := 0; depth <= req.MaxDepth; depth++], stopping at the first empty level;
    [n] is the number of iterations left. *)
Fixpoint make_segments (n : nat) (req : TraceRequest) (lv : gmap Z (list bfsItem)) (d : Z) (bt : Backtracer)
  : option (Backtracer * list TraceSegment) :=
  match n with
  | O => Some (bt, [])
  | Datatypes.S n =>
      match default [] (lv !! d) with
      | [] => Some (bt, [])
      | items =>
          '(bt, seg) ← make_segment req d items bt;
          '(bt, segs) ← make_segments n req lv (d + 1) bt;
          Some (bt, seg :: segs)
      end
  end.

(** [Format("15:04:05.000")] in the local zone. *)
Definition two (n : Z) : string := (if n <? 10 then "0" else "") +:+ pretty n.
Definition three (n : Z) : string := (if n <? 100 then if n <? 10 then "00" else "0" else "") +:+ pretty n.
Definition format_clock (t : time) : string :=
  let ms := (t / Millisecond) `mod` 1000 in
  let s := (t / Second + zone) `mod` 86400 in
  two (s / 3600) +:+ ":" +:+ two ((s / 60) `mod` 60) +:+ ":" +:+ two (s `mod` 60) +:+ "." +:+ three ms.

Definition timeline_of (seg : TraceSegment) : list TimelineEvent :=
  imap (fun i n =>
    match seg_Edges seg !! i with
    | Some e => mkTimeline (seg_Depth seg) (Node.ID n) (Node.Label n) (Node.Subtype n)
                  (Edge.Relation e) (format_clock (Edge.Timestamp e))
    | None => mkTimeline (seg_Depth seg) (Node.ID n) (Node.Label n) (Node.Subtype n) "" ""
    end) (seg_Nodes seg).

Definition buildTimeline (segs : list TraceSegment) : list TimelineEvent := segs ≫= timeline_of.

Inductive outcome := TraceError (e : string) | TracePanic | TraceOk (r : TraceResult).

(** [None]: the fuel does not suffice. *)
Definition Trace (fuel : nat) (req : TraceRequest) (bt : Backtracer) : option (Backtracer * outcome) :=
  let req := normalize req in
  if decide (StartID req = "") then Some (bt, TraceError "backtrace: StartID is required")
  else
    let bt := buildReverseIndex bt in
    '(s, bt) ← bfs fuel (MaxDepth req) (start_search (StartID req)) bt;
    Some match make_segments (Datatypes.S (Z.to_nat (MaxDepth req))) req (levels s) 0 bt with
         | None => (bt, TracePanic)
         | Some (bt, segs) =>
             (bt, TraceOk (mkTrace (StartID req) (MaxDepth req) segs
                    (sum ((fun g => Z.of_nat (length (seg_Nodes g))) <$> segs))
                    (sum ((fun g => Z.of_nat (length (seg_Edges g))) <$> segs))
                    (truncated s) (hitRoot s) (buildTimeline segs)))
         end.

Definition TraceByInode (fuel : nat) (inode devMajor devMinor maxDepth : Z) (bt : Backtracer)
  : option (Backtracer * outcome) :=
  Trace fuel (mkRequest (NodeIDFile inode devMajor devMinor) maxDepth 0 0) bt.

Definition TraceByPID (fuel : nat) (pid maxDepth : Z) (bt : Backtracer) : option (Backtracer * outcome) :=
  Trace fuel (mkRequest (NodeIDProcess pid) maxDepth 0 0) bt.

(** ** Specification *)

(** What reverse lookups depend on: the index, and the edges stored. *)
Definition world (bt : Backtracer) : gmap string (list Edge.t) * option (contents S) :=
  (inMemReverse bt, snapshot <$> bt_store bt).

(** The edges that enter a node, the first of each identifier. *)
Definition entering (w : gmap string (list Edge.t) * option (contents S)) (x : string) : list Edge.t :=
  dedup_ids ∅ (default [] (w.1 !! x) ++ match w.2 with Some c => stored c x | None => [] end).

(** The store does not fail, now and after further reads. *)
Definition reliable (bt : Backtracer) : Prop :=
  match bt_store bt with
  | None => True
  | Some st => exists P : S -> Prop, P st /\
      forall st t, P st -> (edges_by_target t st).2 <> None /\ P (edges_by_target t st).1
  end.

Lemma reverseEdges_spec x bt :
  reliable bt ->
  world (reverseEdges x bt).1 = world bt /\ reliable (reverseEdges x bt).1 /\
  graph (reverseEdges x bt).1 = graph bt /\ nodeCache (reverseEdges x bt).1 = nodeCache bt /\
  Permutation (reverseEdges x bt).2 (entering (world bt) x).
Proof.
  intros Hr. unfold reverseEdges, entering, world. unfold reliable in Hr.
  destruct (bt_store bt) as [st|] eqn:Hst; simpl.
  - pose proof (edges_by_target_some x st) as Hl. destruct Hr as (P & HP & Hstep).
    destruct (Hstep st x HP) as [Hne HP']. destruct (edges_by_target x st) as [st' [l|]]; simpl in *; [|done].
    destruct (Hl l eq_refl) as [-> Hs].
    split_and!; [by rewrite Hs|by exists P|done|done|]. by rewrite sort_slice_perm.
  - split_and!; [by rewrite Hst|unfold reliable; by rewrite Hst|done|done|]. by rewrite app_nil_r, sort_slice_perm.
Qed.

Section search.
Context (w : gmap string (list Edge.t) * option (contents S)) (start : string) (maxDepth : Z).
Context (Hmax : 0 < maxDepth).

(** [reach d y]: [y] is [d] steps behind the start, through nodes that are not roots. *)
Inductive reach : Z -> string -> Prop :=
| reach_start : reach 0 start
| reach_step d x e :
    reach d x -> d < maxDepth -> x ∉ rootProcessIDs -> e ∈ entering w x -> reach (d + 1) (Edge.Source e).

(** [nearest d y]: and no fewer. *)
Definition nearest (d : Z) (y : string) : Prop := reach d y /\ forall d', reach d' y -> d <= d'.

Lemma reach_range d y : reach d y -> 0 <= d <= maxDepth.
Proof using Hmax. induction 1; lia. Qed.

(** *** The inner loop *)

Definition ids (l : list bfsItem) : list string := nodeID <$> l.

Lemma visit_spec item es vis q :
  exists new, (foldl (visit item) (vis, q) es).2 = q ++ new /\
    (forall y, (foldl (visit item) (vis, q) es).1 !! y =
       match vis !! y with Some d => Some d | None => if decide (y ∈ ids new) then Some (depth item + 1) else None end) /\
    (forall it, it ∈ new -> depth it = depth item + 1 /\ parentID it = nodeID item /\ vis !! nodeID it = None /\
       exists e, inEdge it = Some e /\ e ∈ es /\ Edge.Source e = nodeID it) /\
    (forall e, e ∈ es -> vis !! Edge.Source e = None -> Edge.Source e ∈ ids new) /\
    NoDup (ids new).
Proof.
  revert vis q. induction es as [|e es IH]; intros vis q.
  { exists []. simpl. rewrite app_nil_r. split_and!; [done| |by intros ? ?%elem_of_nil|by intros ? ?%elem_of_nil|constructor].
    intros y. by destruct (vis !! y). }
  cbn [foldl visit]. destruct (vis !! Edge.Source e) as [d|] eqn:Hv.
  - destruct (IH vis q) as (new & H1 & H2 & H3 & H4 & H5). exists new. split_and!; [done|done| | |done].
    + intros it Hit. destruct (H3 it Hit) as (? & ? & ? & e' & ? & ? & ?). split_and!; [done..|].
      exists e'. split_and!; [done|by right|done].
    + intros e' [->|He']%elem_of_cons; [by rewrite Hv|auto].
  - set (it0 := mkItem (Edge.Source e) (depth item + 1) (nodeID item) (Some e)).
    destruct (IH (<[Edge.Source e := depth item + 1]> vis) (q ++ [it0])) as (new & H1 & H2 & H3 & H4 & H5).
    assert (Edge.Source e ∉ ids new) as Hn.
    { intros (it & E & Hit)%list_elem_of_fmap. destruct (H3 it Hit) as (_ & _ & Hno & _).
      rewrite <-E, lookup_insert_eq in Hno. done. }
    exists (it0 :: new). split_and!.
    + by rewrite H1, <-(assoc_L (++)).
    + intros y. rewrite H2. destruct (decide (y = Edge.Source e)) as [->|Hy].
      * rewrite lookup_insert_eq, Hv. rewrite decide_True; [done|]. by left.
      * rewrite lookup_insert_ne by done. destruct (vis !! y); [done|].
        apply decide_ext. unfold ids. rewrite fmap_cons, elem_of_cons. naive_solver.
    + intros it [->|Hit]%elem_of_cons.
      * split_and!; [done|done|done|]. exists e. split_and!; [done|by left|done].
      * destruct (H3 it Hit) as (? & ? & Hno & e' & ? & ? & ?).
        split_and!; [done|done| |exists e'; split_and!; [done|by right|done]].
        apply lookup_insert_None in Hno as [? _]. done.
    + intros e' He' Hno. unfold ids. rewrite fmap_cons, elem_of_cons. simpl.
      apply elem_of_cons in He' as [->|He']; [by left|].
      destruct (decide (Edge.Source e' = Edge.Source e)); [by left|]. right.
      apply H4; [done|]. by rewrite lookup_insert_ne.
    + unfold ids. rewrite fmap_cons. by constructor.
Qed.

(** *** The invariant of the search *)

(** An item that was reached over a real edge from a node one step closer. *)
Definition item_ok (it : bfsItem) : Prop :=
  match inEdge it with
  | None => depth it = 0 /\ nodeID it = start
  | Some e => Edge.Source e = nodeID it /\ e ∈ entering w (parentID it) /\ reach (depth it - 1) (parentID it)
  end.

Record sinv (s : search) : Prop := {
  s_reach : forall y d, visited s !! y = Some d -> reach d y;
  s_start : exists d, visited s !! start = Some d /\ d <= 0;
  s_queue : forall it, it ∈ queue s -> visited s !! nodeID it = Some (depth it) /\ item_ok it;
  s_nodup : NoDup (ids (queue s));
  s_sorted : StronglySorted Z.le (depth <$> queue s);
  s_bound : forall it, it ∈ queue s -> forall y d, visited s !! y = Some d -> d <= depth it + 1;
  s_levels : forall d it, it ∈ default [] (levels s !! d) ->
    depth it = d /\ visited s !! nodeID it = Some d /\ ~ (nodeID it ∈ ids (queue s)) /\ item_ok it;
  s_levels_nodup : forall d, NoDup (ids (default [] (levels s !! d)));
  s_complete : forall y d, visited s !! y = Some d -> y ∉ ids (queue s) -> y ∈ ids (default [] (levels s !! d));
  s_expanded : forall x d, visited s !! x = Some d -> x ∉ ids (queue s) -> d < maxDepth -> x ∉ rootProcessIDs ->
    forall e, e ∈ entering w x -> exists d', visited s !! Edge.Source e = Some d' /\ d' <= d + 1;
  s_truncated : truncated s = true <-> ~ (default [] (levels s !! maxDepth) = []);
  s_root : hitRoot s = true <->
    exists d it, d < maxDepth /\ it ∈ default [] (levels s !! d) /\ nodeID it ∈ rootProcessIDs;
}.

Lemma sinv_start : sinv (start_search start).
Proof using Hmax.
  split; simpl.
  - intros y d [<- <-]%lookup_singleton_Some. constructor.
  - exists 0. by rewrite lookup_singleton_eq.
  - intros it [->|[]%elem_of_nil]%elem_of_cons. by rewrite lookup_singleton_eq.
  - by apply NoDup_singleton.
  - repeat constructor.
  - intros it [->|[]%elem_of_nil]%elem_of_cons y d [_ <-]%lookup_singleton_Some. simpl. lia.
  - intros d it. rewrite lookup_empty. by intros ?%elem_of_nil.
  - intros d. rewrite lookup_empty. constructor.
  - intros y d [<- <-]%lookup_singleton_Some Hn. destruct Hn. unfold ids. simpl. by left.
  - intros x d [<- <-]%lookup_singleton_Some Hn. destruct Hn. unfold ids. simpl. by left.
  - rewrite lookup_empty. done.
  - split; [done|]. intros (d & it & _ & Hin & _). rewrite lookup_empty in Hin. by apply elem_of_nil in Hin.
Qed.

Lemma levels_push (lv : gmap Z (list bfsItem)) item d :
  default [] (<[depth item := default [] (lv !! depth item) ++ [item]]> lv !! d) =
  default [] (lv !! d) ++ (if decide (d = depth item) then [item] else []).
Proof.
  case_decide as E; [subst; by rewrite lookup_insert_eq|]. rewrite lookup_insert_ne by done. by rewrite app_nil_r.
Qed.

(** One iteration: the head leaves the queue, [new] items enter it. *)
Lemma sinv_pop s item q new vis tr hr :
  sinv s -> queue s = item :: q ->
  (forall y, vis !! y = match visited s !! y with
                        | Some d => Some d
                        | None => if decide (y ∈ ids new) then Some (depth item + 1) else None end) ->
  (forall it, it ∈ new -> depth it = depth item + 1 /\ parentID it = nodeID item /\ visited s !! nodeID it = None /\
     exists e, inEdge it = Some e /\ e ∈ entering w (nodeID item) /\ Edge.Source e = nodeID it) ->
  NoDup (ids new) ->
  (new <> [] -> depth item < maxDepth /\ nodeID item ∉ rootProcessIDs) ->
  (depth item < maxDepth -> nodeID item ∉ rootProcessIDs -> forall e, e ∈ entering w (nodeID item) ->
     visited s !! Edge.Source e = None -> Edge.Source e ∈ ids new) ->
  (tr = true <-> truncated s = true \/ depth item = maxDepth) ->
  (hr = true <-> hitRoot s = true \/ (depth item < maxDepth /\ nodeID item ∈ rootProcessIDs)) ->
  sinv (mkSearch (q ++ new) vis (<[depth item := default [] (levels s !! depth item) ++ [item]]> (levels s)) tr hr).
Proof using Hmax.
  intros [R ST Q ND SO B L LN C E T RT] Hq Hvis Hnew Hnd Hexp Hall Htr Hhr. rewrite Hq in *.
  destruct (Q item) as [Hitem Hok]; [by left|]. unfold ids in ND. rewrite fmap_cons, NoDup_cons in ND.
  destruct ND as [Hnq Hndq]. fold (ids q) in *. rewrite fmap_cons in SO.
  apply StronglySorted_inv in SO as [SOq SOi]. rewrite Forall_fmap, Forall_forall in SOi.
  assert (forall y d, visited s !! y = Some d -> vis !! y = Some d) as Hmono by (intros y d Hy; by rewrite Hvis, Hy).
  assert (forall y d, vis !! y = Some d -> visited s !! y = Some d \/ (y ∈ ids new /\ d = depth item + 1)) as Hinv.
  { intros y d. rewrite Hvis. destruct (visited s !! y); [by left|]. case_decide; [|done]. intros [= <-]. by right. }
  assert (forall y, y ∈ ids new -> visited s !! y = None) as Hfresh.
  { intros y (it & -> & Hit)%list_elem_of_fmap. by destruct (Hnew it Hit) as (_ & _ & ? & _). }
  assert (forall y, y ∈ ids (q ++ new) <-> y ∈ ids q \/ y ∈ ids new) as Hids
    by (intros y; unfold ids; by rewrite fmap_app, elem_of_app).
  split; simpl.
  - intros y d [?|[Hy ->]]%Hinv; [by apply R|]. apply list_elem_of_fmap in Hy as (it & -> & Hit).
    destruct (Hnew it Hit) as (_ & _ & _ & e & _ & He & <-). apply reach_step with (nodeID item); [by apply R|..|done].
    + apply Hexp. by intros ->; apply elem_of_nil in Hit.
    + apply Hexp. by intros ->; apply elem_of_nil in Hit.
  - destruct ST as (d & Hd & ?). eauto.
  - intros it [Hit|Hit]%elem_of_app.
    + destruct (Q it) as [? ?]; [by right|]. auto.
    + destruct (Hnew it Hit) as (Hd & Hp & Hn & e & He & Hin & Hs). split.
      * rewrite Hvis, Hn, decide_True; [by rewrite Hd|]. by apply list_elem_of_fmap_2.
      * unfold item_ok. rewrite He, Hp, Hd. split_and!; [done|done|]. replace (depth item + 1 - 1) with (depth item) by lia.
        by apply R.
  - unfold ids. rewrite fmap_app. apply NoDup_app. split_and!; [done| |done]. intros y Hy Hy'.
    apply Hfresh in Hy'. apply list_elem_of_fmap in Hy as (it & -> & Hit).
    destruct (Q it) as [Hv _]; [by right|]. by rewrite Hy' in Hv.
  - rewrite fmap_app. apply StronglySorted_app_2; [|done|].
    2: { clear -Hnew. assert (Forall (fun it => depth it = depth item + 1) new) as Hall.
      { apply Forall_forall. intros it Hit. by destruct (Hnew it Hit) as [? _]. }
      induction Hall as [|it new Hd Hall IH]; simpl; constructor.
      * apply IH. intros ? ?. apply Hnew. by right.
      * apply Forall_fmap. eapply Forall_impl; [exact Hall|]. unfold compose. simpl. lia. }
    intros x y (it & -> & Hit)%list_elem_of_fmap (it' & -> & Hit')%list_elem_of_fmap.
      destruct (Hnew it' Hit') as [-> _]. destruct (Q it) as [Hv _]; [by right|].
    apply (B item ltac:(by left) _ _ Hv).
  - intros it Hit y d Hy. assert (depth item <= depth it) as Hle.
    { apply elem_of_app in Hit as [Hit|Hit]; [by apply SOi|]. destruct (Hnew it Hit) as [-> _]. lia. }
    apply Hinv in Hy as [Hy|[_ ->]]; [|lia]. pose proof (B item ltac:(by left) _ _ Hy). lia.
  - intros d it. rewrite levels_push, elem_of_app. intros [Hit|Hit].
    + destruct (L d it Hit) as (Hd & Hv & Hn & Ho). unfold ids in Hn. rewrite fmap_cons, not_elem_of_cons in Hn.
      split_and!; [done|by apply Hmono| |done]. rewrite Hids. intros [?|Hf%Hfresh]; [by apply Hn|]. by rewrite Hf in Hv.
    + case_decide as Hd; [|by apply elem_of_nil in Hit]. apply list_elem_of_singleton in Hit as ->.
      split_and!; [done|subst d; by apply Hmono| |done]. rewrite Hids. intros [?|Hf%Hfresh]; [done|]. by rewrite Hf in Hitem.
  - intros d. rewrite levels_push. case_decide as Hd; [|rewrite app_nil_r; apply LN]. unfold ids.
    rewrite fmap_app. apply NoDup_app. split_and!; [apply LN| |apply NoDup_singleton].
    intros y Hy Hy'%list_elem_of_singleton. simpl in Hy'. subst y. apply list_elem_of_fmap in Hy as (it & Heq & Hit).
    destruct (L d it Hit) as (_ & _ & Hn & _). apply Hn. unfold ids. rewrite fmap_cons, <-Heq. by left.
  - intros y d Hy Hn. rewrite levels_push. unfold ids. rewrite fmap_app, elem_of_app. rewrite Hids in Hn.
    apply Hinv in Hy as [Hy|[Hy _]]; [|tauto]. destruct (decide (y = nodeID item)) as [->|Hne].
    + right. rewrite Hitem in Hy. injection Hy as <-. rewrite decide_True by done. by left.
    + left. apply (C y d Hy). unfold ids. rewrite fmap_cons, elem_of_cons. tauto.
  - intros x d Hx Hn Hd Hr e He. rewrite Hids in Hn. apply Hinv in Hx as [Hx|[Hx _]]; [|tauto].
    destruct (decide (x = nodeID item)) as [->|Hne].
    + rewrite Hitem in Hx. injection Hx as <-. destruct (visited s !! Edge.Source e) as [d'|] eqn:Hv.
      * exists d'. split; [by apply Hmono|]. by apply (B item ltac:(by left) _ _ Hv).
      * exists (depth item + 1). split; [|done]. rewrite Hvis, Hv, decide_True; [done|]. by apply Hall.
    + destruct (E x d Hx) with e as (d' & Hd' & ?); [|done..|eauto].
      unfold ids. rewrite fmap_cons, elem_of_cons. tauto.
  - rewrite Htr, levels_push, T. case_decide as Hd.
    + split; [intros _ Hnil; by apply app_nil in Hnil as [_ ?]|]. intros _. right. done.
    + rewrite app_nil_r. split; [intros [?|?]; [done|congruence]|by left].
  - rewrite Hhr, RT. setoid_rewrite levels_push. setoid_rewrite elem_of_app. split.
    + intros [(d & it & ? & ? & ?)|[? ?]]; [exists d, it; auto|].
      exists (depth item), item. rewrite decide_True by done. split_and!; [done|right; by left|done].
    + intros (d & it & Hd & [Hin|Hin] & Hr); [left; by exists d, it|right].
      case_decide as Heq; [|by apply elem_of_nil in Hin]. apply list_elem_of_singleton in Hin as ->. by subst d.
Qed.

(** Nodes still to be visited, and items still in the queue. *)
Definition work (U : gset string) (vis : gmap string Z) (q : list bfsItem) : nat :=
  size (U ∖ dom vis) + length q.

Lemma work_visit (U : gset string) vis vis' item q new :
  (forall y, vis' !! y = match vis !! y with
                         | Some d => Some d
                         | None => if decide (y ∈ ids new) then Some (depth item + 1) else None end) ->
  NoDup (ids new) -> (forall y, y ∈ ids new -> vis !! y = None /\ y ∈ U) ->
  (work U vis' (q ++ new) = work U vis q)%nat.
Proof.
  intros Hvis Hnd Hnew. unfold work. rewrite length_app.
  assert (U ∖ dom vis' = (U ∖ dom vis) ∖ list_to_set (ids new)) as ->.
  { apply set_eq. intros y. rewrite !elem_of_difference, elem_of_list_to_set, !not_elem_of_dom, Hvis.
    destruct (vis !! y); [naive_solver|]. case_decide; naive_solver. }
  assert (list_to_set (ids new) ⊆ U ∖ dom vis) as Hsub.
  { intros y. rewrite elem_of_list_to_set, elem_of_difference, not_elem_of_dom. intros Hy%Hnew. tauto. }
  rewrite size_difference by done. pose proof (subseteq_size _ _ Hsub) as Hs.
  rewrite size_list_to_set in * by done. unfold ids in *. rewrite length_fmap in *. lia.
Qed.

Lemma search_spec (U : gset string) fuel s bt :
  (forall d y, reach d y -> y ∈ U) -> sinv s -> reliable bt -> world bt = w ->
  (work U (visited s) (queue s) <= fuel)%nat ->
  exists s' bt', bfs fuel maxDepth s bt = Some (s', bt') /\ sinv s' /\ queue s' = [] /\
    world bt' = w /\ reliable bt' /\ graph bt' = graph bt /\ nodeCache bt' = nodeCache bt.
Proof using Hmax.
  intros HU. revert s bt. induction fuel as [|fuel IH]; intros s bt Hs Hr Hw Hf;
    (destruct (queue s) as [|item q] eqn:Hq; [exists s, bt; cbn [bfs]; by rewrite Hq|]).
  { unfold work in Hf. simpl in Hf. lia. }
  cbn [bfs]. rewrite Hq.
  assert (depth item <= maxDepth) as Hd.
  { apply (reach_range _ (nodeID item)), (s_reach s Hs), (s_queue s Hs). rewrite Hq. by left. }
  destruct (Z.leb_spec maxDepth (depth item)) as [Hlim|Hlim]; [|case_decide as Hroot].
  - apply IH; [|done|done|unfold work in *; simpl in *; lia]. rewrite <-(app_nil_r q).
    apply (sinv_pop s item q []); try done.
    + intros y. by destruct (visited s !! y).
    + by intros it ?%elem_of_nil.
    + constructor.
    + lia.
    + split; [intros _; right; lia|done].
    + split; [by left|]. intros [?|[? _]]; [done|lia].
  - apply IH; [|done|done|unfold work in *; simpl in *; lia]. rewrite <-(app_nil_r q).
    apply (sinv_pop s item q []); try done.
    + intros y. by destruct (visited s !! y).
    + by intros it ?%elem_of_nil.
    + constructor.
    + split; [by left|]. intros [?|?]; [done|lia].
    + split; [intros _; by right|done].
  - destruct (reverseEdges_spec (nodeID item) bt Hr) as (Rw & Rr & Rg & Rc & Rp). rewrite Hw in Rp.
    destruct (reverseEdges (nodeID item) bt) as [bt1 anc]. simpl in *.
    destruct (visit_spec item anc (visited s) q) as (new & V1 & V2 & V3 & V4 & V5).
    destruct (foldl (visit item) (visited s, q) anc) as [vis q'] eqn:Hfold. simpl in V1, V2. subst q'.
    assert (sinv (mkSearch (q ++ new) vis (<[depth item := default [] (levels s !! depth item) ++ [item]]> (levels s))
      (truncated s) (hitRoot s))) as Hs'.
    { apply (sinv_pop s item q new); try done.
      - intros it Hit. destruct (V3 it Hit) as (? & ? & ? & e & ? & He & ?). rewrite Rp in He. eauto 10.
      - intros _ _ e He. rewrite <-Rp in He. by apply V4.
      - split; [by left|]. intros [?|?]; [done|lia].
      - split; [by left|]. intros [?|[_ ?]]; done. }
    rewrite <-Rg, <-Rc. apply IH; [done|done|by rewrite Rw|]. cbn [visited queue].
    assert (forall y, y ∈ ids new -> visited s !! y = None /\ y ∈ U) as Hn.
    { intros y (it & -> & Hit)%list_elem_of_fmap. destruct (V3 it Hit) as (_ & _ & ? & _). split; [done|].
      destruct (s_queue _ Hs' it) as [Hv _]; [simpl; set_solver|]. simpl in Hv.
      apply (HU (depth it)). by apply (s_reach _ Hs'). }
    rewrite (work_visit U (visited s) vis item q new V2 V5 Hn). unfold work in *. simpl in *. lia.
Qed.

(** Everything within [n] steps, as a finite set. *)
Fixpoint ball (n : nat) : gset string :=
  match n with
  | O => {[ start ]}
  | Datatypes.S n => ball n ∪ list_to_set (elements (ball n) ≫= fun x => Edge.Source <$> entering w x)
  end.

Lemma ball_mono n m : (n <= m)%nat -> ball n ⊆ ball m.
Proof. induction 1; [done|]. simpl. set_solver. Qed.

Lemma reach_ball d y : reach d y -> y ∈ ball (Z.to_nat d).
Proof using Hmax.
  induction 1 as [|d x e Hr IH Hd Hx He]; [simpl; set_solver|]. apply reach_range in Hr.
  replace (Z.to_nat (d + 1)) with (Datatypes.S (Z.to_nat d)) by lia. simpl.
  apply elem_of_union_r, elem_of_list_to_set, list_elem_of_bind. exists x.
  split; [by apply list_elem_of_fmap_2|by apply elem_of_elements].
Qed.

Definition search_fuel : nat := size (ball (Z.to_nat maxDepth)).

Lemma reach_universe d y : reach d y -> y ∈ ball (Z.to_nat maxDepth).
Proof using Hmax.
  intros Hr. apply (ball_mono (Z.to_nat d)); [|by apply reach_ball]. apply reach_range in Hr. lia.
Qed.

(** When the queue is empty, every node reached is visited at its distance. *)
Lemma done_nearest s : sinv s -> queue s = [] -> forall d y, visited s !! y = Some d <-> nearest d y.
Proof using Hmax.
  intros Hs Hq.
  assert (forall d y, reach d y -> exists d', visited s !! y = Some d' /\ d' <= d) as Hle.
  { induction 1 as [|d x e Hr IH Hd Hx He]; [apply (s_start s Hs)|]. destruct IH as (d' & Hd' & ?).
    destruct (s_expanded s Hs x d' Hd') with e as (d2 & ? & ?); [rewrite Hq; apply not_elem_of_nil|lia|done|done|].
    exists d2. split; [done|lia]. }
  intros d y. split.
  - intros Hv. split; [by apply (s_reach s Hs)|]. intros d' (d2 & Hd2 & ?)%Hle. rewrite Hv in Hd2. by simplify_eq.
  - intros [Hr Hmin]. destruct (Hle d y Hr) as (d' & Hd' & ?). pose proof (Hmin d' (s_reach s Hs _ _ Hd')).
    by replace d with d' by lia.
Qed.
End search.

(** ** Segments *)

(** The node shown for an identifier. *)
Definition resolve (bt : Backtracer) (id : string) : Node.t := (lookupNode id bt).2.

Lemma lookupNode_resolve id bt y : resolve (lookupNode id bt).1 y = resolve bt y.
Proof.
  unfold resolve, lookupNode. destruct (nodeCache bt !! id) as [n|] eqn:Hc; [done|].
  assert (forall n, (match nodeCache bt !! id with Some n => n | None =>
      match LookupNode (graph bt) id with Some n => n | None =>
        match st ← bt_store bt; node_by_id id st with Some n => n | None => syntheticNode id end end end) = n ->
    (lookupNode y (mkBacktracer (graph bt) (bt_store bt) (inMemReverse bt) (<[id := n]> (nodeCache bt)))).2 =
    (lookupNode y bt).2) as Hgen.
  { intros n <-. rewrite Hc. unfold lookupNode. simpl. destruct (decide (y = id)) as [->|].
    - rewrite lookup_insert_eq, Hc. destruct (LookupNode (graph bt) id); [done|].
      by destruct (bt_store bt ≫= _).
    - rewrite lookup_insert_ne by done. destruct (nodeCache bt !! y); [done|].
      destruct (LookupNode (graph bt) y); [done|]. by destruct (bt_store bt ≫= _). }
  rewrite Hc in Hgen.
  destruct (LookupNode (graph bt) id) as [n|]; [by apply Hgen|].
  destruct (st ← bt_store bt; node_by_id id st) as [n|]; by apply Hgen.
Qed.

Lemma seg_items_spec items bt :
  exists bt', seg_items items bt = (bt', resolve bt <$> ids items, omap inEdge items) /\
    forall y, resolve bt' y = resolve bt y.
Proof.
  revert bt. induction items as [|it items IH]; intros bt; [by exists bt|]. cbn [seg_items].
  pose proof (lookupNode_resolve (nodeID it) bt) as Hr.
  assert ((lookupNode (nodeID it) bt).2 = resolve bt (nodeID it)) as Hn by done.
  destruct (lookupNode (nodeID it) bt) as [bt1 n]. simpl in Hr, Hn. subst n.
  destruct (IH bt1) as (bt2 & -> & Hr2). exists bt2. split; [|intros y; by rewrite Hr2, Hr].
  assert (resolve bt1 <$> ids items = resolve bt <$> ids items) as ->
    by (apply list_fmap_ext; intros; apply Hr).
  simpl. by destruct (inEdge it).
Qed.

(** The segment of a level when the first page is asked for. *)
Definition first_page (req : TraceRequest) (bt : Backtracer) (d : Z) (items : list bfsItem) : TraceSegment :=
  let page := take (Z.to_nat (MaxNodesPerSegment req)) items in
  mkSegment d (resolve bt <$> ids page) (omap inEdge page)
    (MaxNodesPerSegment req <? Z.of_nat (length items)) (Z.of_nat (length items)) (describe req d).

Lemma make_segment_first req d items bt :
  SegmentOffset req <= 0 -> 0 < MaxNodesPerSegment req <= MaxInt64 ->
  exists bt', make_segment req d items bt = Some (bt', first_page req bt d items) /\
    forall y, resolve bt' y = resolve bt y.
Proof.
  intros Ho Hm. unfold make_segment, first_page. destruct (Z.ltb_spec 0 (SegmentOffset req)); [lia|].
  rewrite i64_small by (unfold MinInt64; lia). rewrite Z.add_0_l, drop_0.
  set (len := Z.of_nat (length items)).
  destruct (Z.ltb_spec len (MaxNodesPerSegment req)) as [Hl|Hl].
  - destruct (Z.leb_spec 0 len); [|lia]. rewrite Z.sub_0_r.
    assert (take (Z.to_nat len) items = items) as -> by (apply take_ge; lia).
    assert (take (Z.to_nat (MaxNodesPerSegment req)) items = items) as -> by (apply take_ge; lia).
    destruct (seg_items_spec items bt) as (bt' & -> & Hr). exists bt'. split; [|done].
    rewrite Z.ltb_irrefl. do 3 f_equal. destruct (Z.ltb_spec (MaxNodesPerSegment req) len); [lia|done].
  - destruct (Z.leb_spec 0 (MaxNodesPerSegment req)); [|lia]. rewrite Z.sub_0_r.
    destruct (seg_items_spec (take (Z.to_nat (MaxNodesPerSegment req)) items) bt) as (bt' & -> & Hr).
    exists bt'. by split.
Qed.

Lemma first_page_ext req bt bt' d items :
  (forall y, resolve bt' y = resolve bt y) -> first_page req bt' d items = first_page req bt d items.
Proof. intros Hr. unfold first_page. f_equal. apply list_fmap_ext. intros. apply Hr. Qed.

Lemma make_segments_first n req lv d bt :
  SegmentOffset req <= 0 -> 0 < MaxNodesPerSegment req <= MaxInt64 ->
  exists bt' segs, make_segments n req lv d bt = Some (bt', segs) /\
    (forall k seg, segs !! k = Some seg ->
       seg = first_page req bt (d + Z.of_nat k) (default [] (lv !! (d + Z.of_nat k)))) /\
    (forall k, (k < n)%nat -> (forall j, (j <= k)%nat -> default [] (lv !! (d + Z.of_nat j)) <> []) ->
       is_Some (segs !! k)).
Proof.
  intros Ho Hm. revert d bt. induction n as [|n IH]; intros d bt.
  { exists bt, []. split_and!; [done|done|lia]. }
  cbn [make_segments]. destruct (default [] (lv !! d)) as [|it items] eqn:Hd.
  { exists bt, []. split_and!; [done|done|]. intros k _ Hk. specialize (Hk 0%nat ltac:(lia)). by rewrite Z.add_0_r in Hk. }
  destruct (make_segment_first req d (it :: items) bt Ho Hm) as (bt1 & -> & Hr1). simpl.
  destruct (IH (d + 1) bt1) as (bt2 & segs & -> & H1 & H2). simpl. exists bt2. eexists. split_and!; [done| |].
  - intros [|k] seg; simpl.
    + intros [= <-]. by rewrite Z.add_0_r, Hd.
    + intros Hk%H1. rewrite Hk. replace (d + 1 + Z.of_nat k) with (d + Z.of_nat (Datatypes.S k)) by lia.
      by apply first_page_ext.
  - intros [|k] Hk Hne; [by eexists|]. simpl. apply H2; [lia|]. intros j Hj.
    replace (d + 1 + Z.of_nat j) with (d + Z.of_nat (Datatypes.S j)) by lia. apply Hne. lia.
Qed.

(** Distances have no gaps. *)
Lemma nearest_pred w start maxDepth d y :
  nearest w start maxDepth (d + 1) y -> 0 <= d -> exists x, nearest w start maxDepth d x.
Proof.
  intros [Hr Hmin] Hd. inversion Hr as [E|d0 x e Hx Hlt Hroot He E1 E2]; [lia|].
  assert (d0 = d) as -> by lia. exists x. split; [done|]. intros d' Hd'.
  destruct (decide (d' < d)); [|lia]. subst y.
  assert (reach w start maxDepth (d' + 1) (Edge.Source e)) as Hy by (by apply reach_step with x; [done|lia|..]).
  apply Hmin in Hy. lia.
Qed.

(** ** The trace *)

Lemma world_index bt x :
  (world (buildReverseIndex bt)).1 !! x =
  match filter (fun e => Edge.Target e = x) (Edges (graph bt)) with [] => None | l => Some l end.
Proof.
  unfold world, buildReverseIndex. simpl. induction (Edges (graph bt)) as [|e l IH] using rev_ind; [done|].
  rewrite foldl_snoc, filter_app, filter_cons, filter_nil. case_decide as Ht.
  - subst x. rewrite lookup_insert_eq, IH. by destruct (filter _ l).
  - by rewrite lookup_insert_ne, app_nil_r.
Qed.

(** The state the search starts from. *)
Definition indexed (bt : Backtracer) := world (buildReverseIndex bt).

Lemma reliable_index bt : reliable bt -> reliable (buildReverseIndex bt).
Proof. done. Qed.

Lemma normalize_pos req : 0 < MaxDepth (normalize req).
Proof. unfold normalize, defaultMaxDepth. simpl. destruct (Z.leb_spec (MaxDepth req) 0); lia. Qed.

(** The search of a trace, with enough fuel. *)
Lemma trace_search req bt fuel :
  reliable bt -> (search_fuel (indexed bt) (StartID req) (MaxDepth (normalize req)) <= fuel)%nat ->
  exists s bt1, bfs fuel (MaxDepth (normalize req)) (start_search (StartID req)) (buildReverseIndex bt) = Some (s, bt1) /\
    graph bt1 = graph bt /\ nodeCache bt1 = nodeCache bt /\
    (forall d y, y ∈ ids (default [] (levels s !! d)) <->
       nearest (indexed bt) (StartID req) (MaxDepth (normalize req)) d y) /\
    (forall d, NoDup (ids (default [] (levels s !! d)))) /\
    (forall d it, it ∈ default [] (levels s !! d) ->
       item_ok (indexed bt) (StartID req) (MaxDepth (normalize req)) it) /\
    (truncated s = true <-> exists y, nearest (indexed bt) (StartID req) (MaxDepth (normalize req))
                                        (MaxDepth (normalize req)) y) /\
    (hitRoot s = true <-> exists d y, d < MaxDepth (normalize req) /\ y ∈ rootProcessIDs /\
       nearest (indexed bt) (StartID req) (MaxDepth (normalize req)) d y).
Proof.
  intros Hr Hf. pose proof (normalize_pos req) as Hm. set (m := MaxDepth (normalize req)) in *.
  destruct (search_spec (indexed bt) (StartID req) m Hm (ball (indexed bt) (StartID req) (Z.to_nat m)) fuel
    (start_search (StartID req)) (buildReverseIndex bt)) as (s & bt1 & Hb & Hs & Hq & _ & _ & Hg & Hc).
  - intros d y. by apply reach_universe.
  - by apply sinv_start.
  - done.
  - done.
  - etrans; [|exact Hf]. unfold work, search_fuel. simpl.
    assert (StartID req ∈ ball (indexed bt) (StartID req) (Z.to_nat m)) as Hin
      by (apply (reach_universe _ _ _ Hm 0); constructor).
    rewrite dom_singleton_L, size_difference by set_solver. rewrite size_singleton.
    pose proof (size_non_empty_iff (ball (indexed bt) (StartID req) (Z.to_nat m))) as Hne.
    assert (size (ball (indexed bt) (StartID req) (Z.to_nat m)) <> 0%nat) by (apply Hne; set_solver). lia.
  - exists s, bt1. pose proof (done_nearest _ _ _ Hm s Hs Hq) as Hnear.
    assert (forall d y, y ∈ ids (default [] (levels s !! d)) <-> nearest (indexed bt) (StartID req) m d y) as Hlv.
    { intros d y. rewrite <-Hnear. split.
      - intros (it & -> & Hit)%list_elem_of_fmap. by destruct (s_levels _ _ _ s Hs d it Hit) as (_ & ? & _).
      - intros Hv. apply (s_complete _ _ _ s Hs y d Hv). rewrite Hq. apply not_elem_of_nil. }
    split_and!; [done|done|done|done|apply (s_levels_nodup _ _ _ s Hs)| | |].
    + intros d it Hit. by destruct (s_levels _ _ _ s Hs d it Hit) as (_ & _ & _ & ?).
    + rewrite (s_truncated _ _ _ s Hs). split.
      * destruct (default [] (levels s !! m)) as [|it l] eqn:Hl; [done|]. intros _. exists (nodeID it).
        apply Hlv. rewrite Hl. by left.
      * intros [y Hy%Hlv] E. rewrite E in Hy. by apply elem_of_nil in Hy.
    + rewrite (s_root _ _ _ s Hs). split.
      * intros (d & it & Hd & Hin & Hroot). exists d, (nodeID it). split_and!; [done|done|].
        apply Hlv. by apply list_elem_of_fmap_2.
      * intros (d & y & Hd & Hroot & Hy%Hlv). apply list_elem_of_fmap in Hy as (it & -> & Hit). by exists d, it.
Qed.


(** An offset of two or more always panics: the level of the start has one node. *)
Lemma offset_panics req bt fuel :
  StartID req <> "" -> reliable bt -> 2 <= SegmentOffset req ->
  SegmentOffset req + MaxNodesPerSegment (normalize req) <= MaxInt64 ->
  (search_fuel (indexed bt) (StartID req) (MaxDepth (normalize req)) <= fuel)%nat ->
  exists bt', Trace fuel req bt = Some (bt', TracePanic).
Proof.
  intros Hid Hrel Ho Hm Hf. destruct (trace_search req bt fuel Hrel Hf) as (s & bt1 & Hb & _ & _ & Hlv & Hnd & _).
  unfold Trace. rewrite decide_False by done. change (StartID (normalize req)) with (StartID req). rewrite Hb. simpl.
  exists bt1.
  assert (forall y, y ∈ ids (default [] (levels s !! 0)) <-> y = StartID req) as Hlv0.
  { intros y. rewrite Hlv. split.
    - intros [Hr _]. inversion Hr as [|d x e Hx]; [done|].
      apply reach_range in Hx; [lia|apply normalize_pos].
    - intros ->. split; [constructor|]. intros d' Hd'. apply reach_range in Hd'; [lia|apply normalize_pos]. }
  assert (length (default [] (levels s !! 0)) = 1%nat) as Hlen.
  { pose proof (Hnd 0) as Hn. destruct (default [] (levels s !! 0)) as [|it1 [|it2 l]]; [|done|].
    - assert (StartID req ∈ ids []) as Hin by (by apply Hlv0). by apply elem_of_nil in Hin.
    - unfold ids in *. rewrite !fmap_cons in *. exfalso.
      assert (nodeID it1 = StartID req /\ nodeID it2 = StartID req) as [E1 E2] by (split; apply Hlv0; set_solver).
      apply NoDup_cons in Hn as [Hn _]. apply Hn. rewrite E1, E2. by left. }
  destruct (default [] (levels s !! 0)) as [|it l]; [done|].
  unfold make_segment. rewrite Hlen.
  assert (0 < MaxNodesPerSegment (normalize req)) as Hp.
  { unfold normalize, defaultMaxNodes. simpl. destruct (Z.leb_spec (MaxNodesPerSegment req) 0); lia. }
  change (SegmentOffset (normalize req)) with (SegmentOffset req).
  destruct (Z.ltb_spec 0 (SegmentOffset req)); [|lia]. rewrite i64_small by (unfold MinInt64; lia).
  destruct (Z.ltb_spec (Z.of_nat 1) (SegmentOffset req + MaxNodesPerSegment (normalize req))); [|lia].
  by destruct (Z.leb_spec (SegmentOffset req) (Z.of_nat 1)); [lia|].
Qed.
End tracer.

(** ** The persistent store implements the interface *)

Section instance.
Context `{Pebble} `{Json}.

(** Decoding depends on the key only. *)
Fixpoint decode_with (key : option bytes) (l : list (string * bytes)) : string + list Edge.t :=
  match l with
  | [] => inr []
  | (_, v) :: l =>
      match match key with None => inr v | Some k => Decrypt k v end with
      | inl e => inl e
      | inr dec =>
          match unmarshal_edge dec with
          | inl e => inl e
          | inr e => match decode_with key l with inl err => inl err | inr out => inr (e :: out) end
          end
      end
  end.

Lemma decode_edges_with s l : decode_edges s l = decode_with (encKey s) l.
Proof.
  induction l as [|[k v] l IH]; simpl; [done|]. unfold decode_edge, decrypt. rewrite IH.
  destruct (encKey s) as [key|]; [by destruct (Decrypt key v)|done].
Qed.

(** Strictly sorted lists with the same elements are equal. *)
Lemma sorted_unique (l k : list (string * bytes)) :
  StronglySorted str_lt l.*1 -> StronglySorted str_lt k.*1 -> (forall x, x ∈ l <-> x ∈ k) -> l = k.
Proof.
  revert k. induction l as [|x l IH]; intros [|y k] Hl Hk Hlk; simpl in *; try done.
  - exfalso. apply (elem_of_nil y), Hlk. by left.
  - exfalso. apply (elem_of_nil x), Hlk. by left.
  - apply StronglySorted_inv in Hl as [Hl Hx], Hk as [Hk Hy]. rewrite Forall_fmap, Forall_forall in Hx, Hy.
    unfold compose in Hx, Hy.
    assert (x = y) as ->.
    { assert (x ∈ y :: k) as H1 by (apply Hlk; by left). assert (y ∈ x :: l) as H2 by (apply Hlk; by left).
      apply elem_of_cons in H1 as [?|H1], H2 as [?|H2]; try done. exfalso.
      apply Hx in H2. apply Hy in H1. apply H1. by apply str_lt_le. }
    f_equal. apply IH; [done|done|]. intros z. specialize (Hlk z). rewrite !elem_of_cons in Hlk.
    assert (forall z, z ∈ l -> z <> y) as N1 by (intros ? Hz ->; by apply (Hx _ Hz)).
    assert (forall z, z ∈ k -> z <> y) as N2 by (intros ? Hz ->; by apply (Hy _ Hz)).
    split; intros Hz; [pose proof (N1 z Hz)|pose proof (N2 z Hz)]; naive_solver.
Qed.

(** A scan reads the entries of the view in the interval. *)
Lemma scan_view s lo hi l :
  batch_ops (wb s) = [] -> db_Iter (db s) lo hi = inr (l, None) -> l = map_iter (view s) lo hi.
Proof.
  intros Hb Hi. apply sorted_unique; [by eapply db_Iter_sorted|apply map_iter_sorted|]. intros [k v].
  rewrite (db_Iter_elem _ _ _ _ Hi), map_iter_elem. unfold view. by rewrite Hb.
Qed.

Definition stored_edges (c : gmap string bytes * option bytes) (t : string) : list Edge.t :=
  match decode_with c.2 (map_iter c.1 ("r:" +:+ t +:+ ":") ("r:" +:+ t +:+ xff)) with
  | inr out => out | inl _ => [] end.

Definition store_edges_by_target (t : string) (s : Store) : Store * option (list Edge.t) :=
  let '(s, r) := GetEdgesByTarget t s in (s, match r with inr (l, None) => Some l | _ => None end).

(** [inr None] and errors are both "not found" for the tracer. *)
Definition store_node_by_id (id : string) (s : Store) : option Node.t :=
  match GetNode id s with inr (Some n) => Some n | _ => None end.

#[global] Program Instance store_edges : EdgeStore Store := {|
  edges_by_target := store_edges_by_target; node_by_id := store_node_by_id;
  contents := (gmap string bytes * option bytes)%type;
  snapshot s := (view s, encKey s); stored := stored_edges;
|}.
Next Obligation.
  intros t s l. unfold store_edges_by_target, GetEdgesByTarget. destruct (flushLocked s) as [s1 [e|]] eqn:Hf; [done|].
  apply flushLocked_view in Hf as (Hv & He & Hb & _). simpl. unfold scan_edges.
  destruct (db_Iter _ _ _) as [|[l' err]] eqn:Hi; [done|].
  destruct (decode_edges s1 l') as [|out] eqn:Hd; [done|]. destruct err; [done|]. intros [= ->].
  apply (scan_view s1 _ _ _ Hb) in Hi. rewrite decode_edges_with in Hd. subst l'. rewrite Hv, He in *.
  split; [|done]. unfold stored_edges. simpl. by rewrite Hd.
Qed.
End instance.

(** ** Witness and direction *)

(** A tracer without a store. *)
Definition no_store : EdgeStore unit.
Proof.
  refine {| edges_by_target := fun _ s => (s, Some []); node_by_id := fun _ _ => None;
            contents := unit; snapshot := fun s => s; stored := fun _ _ => [] |}.
  intros t s l [= <-]. done.
Defined.

Definition memory_tracer (g : Graph) : Backtracer (S := unit) := mkBacktracer g None ∅ ∅.

(** Process 5 forked process 7, which forked process 9. *)
Definition forks : Graph :=
  let link (c p : string) := addEdge ProvWasInformedBy c p unix_epoch ∅ in
  link "p:9" "p:7" (link "p:7" "p:5" (NewGraph unix_epoch)).

Definition trace_forks (id : string) : list (list string) :=
  match Trace (H := merge_sort_slice) (H0 := no_store) 0 100 (mkRequest id 0 0 0) (memory_tracer forks) with
  | Some (_, TraceOk r) => (fun seg => Node.ID <$> seg_Nodes seg) <$> Segments r
  | _ => []
  end.


(** The search follows an edge from its target to its source.  For the relations in which
    the source is the effect (a process informed by its parent, a file generated by a
    process) it therefore runs towards descendants: tracing the oldest process lists its
    children and grandchildren, and tracing the youngest finds nothing. *)
Example traces_descendants :
  trace_forks "p:5" = [["p:5"]; ["p:7"]; ["p:9"]] /\ trace_forks "p:9" = [["p:9"]].
Proof. vm_compute. done. Qed.
