(* ===== verification/TraceStore.v ===== *)
(** * Tracing what the pipeline stored

    The composition of [Pipeline], [Store] and [Backtrace]: the tracer over the store of
    the pipeline sees one edge per identifier, and the edges that the pipeline writes at
    their first occurrence have none. *)
From Stdlib Require Import Ascii.
From S2P Require Import Prelude GoStrings Events ProvGraph GoSort KV Secure Store Pipeline Backtrace.

Definition open_by (pid t : Z) : action :=
  AEvent (mkEvent EventFileOpen 0 1 pid pid 1 0 0 5 8 1 0 0 0 0 0 0 0 0 0 0 "sh" "/etc/passwd" "" "" "" "")
    (unix_epoch + t) (unix_epoch + t) (unix_epoch + t).

(** Two processes opened the file; the window was flushed or not. *)
Definition pipe_two : Pipeline (H := map_pebble) :=
  default pipe0 (run0 [open_by 10 100; open_by 11 200] pipe0).

(** A tracer started on that store with an empty graph, as after a restart. *)
Definition cold_tracer (p : Pipeline (H := map_pebble)) : Backtracer (S := Store (H := map_pebble)) :=
  mkBacktracer (NewGraph unix_epoch) (Some (Pipeline.store p)) ∅ ∅.

Definition trace_cold (p : Pipeline (H := map_pebble)) : list (list string) :=
  match Trace (H := merge_sort_slice) (H0 := store_edges (H := map_pebble) (H0 := field_json)) 0 100
          (mkRequest "f:5:8:1" 0 0 0) (cold_tracer p) with
  | Some (_, TraceOk r) => (fun seg => Node.ID <$> seg_Nodes seg) <$> Segments r
  | _ => []
  end.

(** Before a flush, the trace of the file shows one of the two processes; both are in the
    store.  After a flush both are shown, because the merged edges have identifiers and
    here replace the first ones. *)
Example stored_ancestors_lost :
  trace_cold pipe_two = [["f:5:8:1"]; ["p:10"]] /\
  trace_cold (flush0 "" pipe_two) = [["f:5:8:1"]; ["p:10"; "p:11"]].
Proof. vm_compute. done. Qed.
