(* ===== verification/StitchServer.v ===== *)
(** * The stitching server's infrastructure ([internal/stitcher/server]: [queue.go],
    [throttle.go], [router.go])

    A priority queue of events on a binary heap ([GoHeap]) refines a bag from which a most
    urgent event is taken; the load controller derives a throttle level from the depth of
    the queue; the router assigns hosts to the collector with the nearest hash. *)
From Stdlib Require Import Ascii.
From S2P Require Import Prelude GoStrings ProvGraph GoFloat GoSort GoHeap KV.

(** ** The queue *)

Record QueueEvent := mkQE {
  qe_ID : string; HostID : string; EventType : string; RiskScore : float64; Tainted : bool;
  Timestamp : time; index : Z;
}.

#[global] Instance QueueEvent_eq_dec : EqDecision QueueEvent.
Proof. solve_decision. Defined.
#[global] Instance QueueEvent_inhabited : Inhabited QueueEvent :=
  populate (mkQE "" "" "" (f_of_Z 0) false 0 0).

Definition set_index (i : Z) (e : QueueEvent) : QueueEvent :=
  mkQE (qe_ID e) (HostID e) (EventType e) (RiskScore e) (Tainted e) (Timestamp e) i.

Definition Less (x y : QueueEvent) : bool :=
  if negb (f_eqb (RiskScore x) (RiskScore y)) then f_gtb (RiskScore x) (RiskScore y)
  else if negb (Bool.eqb (Tainted x) (Tainted y)) then Tainted x
  else time_Before (Timestamp x) (Timestamp y).

(** [Swap] and [Push] record the index. *)
Definition place (i : nat) (e : QueueEvent) : QueueEvent := set_index (Z.of_nat i) e.

Record EventQueueManager := mkEQ { queue : list QueueEvent; enqueued : Z; processed : Z }.

Definition NewEventQueueManager : EventQueueManager := mkEQ (heap_Init Less place []) 0 0.

Definition Enqueue (evt : QueueEvent) (eq : EventQueueManager) : EventQueueManager :=
  mkEQ (heap_Push Less place evt (queue eq)) (i64 (enqueued eq + 1)) (processed eq).

(** [Pop] gives the event the index -1. *)
Definition Dequeue (eq : EventQueueManager) : EventQueueManager * option QueueEvent :=
  match heap_Pop Less place (queue eq) with
  | None => (eq, None)
  | Some (e, q) => (mkEQ q (enqueued eq) (i64 (processed eq + 1)), Some (set_index (-1) e))
  end.

Definition Peek (eq : EventQueueManager) : option QueueEvent := head (queue eq).
Definition Size (eq : EventQueueManager) : Z := Z.of_nat (length (queue eq)).

(** ** Specification: a bag *)

Inductive op := OEnqueue (e : QueueEvent) | ODequeue | OPeek | OSize.
Inductive result := RUnit | REvent (e : option QueueEvent) | RSize (n : Z).

Definition forget (e : QueueEvent) : QueueEvent := set_index (-1) e.

Definition exec (o : op) (eq : EventQueueManager) : EventQueueManager * result :=
  match o with
  | OEnqueue e => (Enqueue e eq, RUnit)
  | ODequeue => let '(eq, r) := Dequeue eq in (eq, REvent r)
  | OPeek => (eq, REvent (forget <$> Peek eq))
  | OSize => (eq, RSize (Size eq))
  end.

Fixpoint run (ops : list op) (eq : EventQueueManager) : list result :=
  match ops with [] => [] | o :: ops => let '(eq, r) := exec o eq in r :: run ops eq end.

(** [most_urgent x b]: nothing in the bag comes before [x]. *)
Definition most_urgent (x : QueueEvent) (b : list QueueEvent) : Prop := forall y, y ∈ b -> Less y x = false.

(** The results the bag allows; events are compared without their index. *)
Inductive allowed : list QueueEvent -> list op -> list result -> Prop :=
| a_nil b : allowed b [] []
| a_enqueue b e ops rs : allowed (forget e :: b) ops rs -> allowed b (OEnqueue e :: ops) (RUnit :: rs)
| a_empty ops rs : allowed [] ops rs -> allowed [] (ODequeue :: ops) (REvent None :: rs)
| a_dequeue b b' x ops rs :
    Permutation b (x :: b') -> most_urgent x b -> allowed b' ops rs ->
    allowed b (ODequeue :: ops) (REvent (Some x) :: rs)
| a_peek_empty ops rs : allowed [] ops rs -> allowed [] (OPeek :: ops) (REvent None :: rs)
| a_peek b x ops rs : x ∈ b -> most_urgent x b -> allowed b ops rs -> allowed b (OPeek :: ops) (REvent (Some x) :: rs)
| a_size b ops rs : allowed b ops rs -> allowed b (OSize :: ops) (RSize (Z.of_nat (length b)) :: rs).

(** ** The heap order on scores that are numbers *)

Definition proper (e : QueueEvent) : Prop := is_nan (RiskScore e) = false.

Definition urgency (e : QueueEvent) : list Z :=
  let '(a, b, c) := rank (RiskScore e) in
  [- a; - b; - c; if Tainted e then 0 else 1; Timestamp e].

Definition less' (x y : QueueEvent) : bool := zlex_ltb (urgency x) (urgency y).

Lemma Less_urgency x y : proper x -> proper y -> Less x y = less' x y.
Proof.
  intros Hx Hy. unfold Less, less', urgency, f_gtb.
  pose proof (f_eqb_rank _ _ Hx Hy) as He. pose proof (f_ltb_rank _ _ Hy Hx) as Hl.
  unfold f_ltb in Hl. destruct (rank (RiskScore x)) as [[a b] c], (rank (RiskScore y)) as [[a' b'] c'].
  unfold rank_lt in Hl. destruct (f_eqb (RiskScore x) (RiskScore y)) eqn:E; cbn [negb].
  - assert ((a, b, c) = (a', b', c')) as [= -> -> ->] by tauto. cbn [zlex_ltb].
    rewrite !Z.ltb_irrefl, !Z.eqb_refl. simpl. unfold time_Before.
    destruct (Tainted x), (Tainted y); simpl; rewrite ?andb_false_r, ?orb_false_r; done.
  - assert (a <> a' \/ b <> b' \/ c <> c') as Hne.
    { destruct (decide (a = a')), (decide (b = b')), (decide (c = c')); subst; try lia.
      assert (false = true) by (by apply He). done. }
    apply eq_true_iff_eq. rewrite Hl. cbn [zlex_ltb].
    rewrite !orb_true_iff, !andb_true_iff, !Z.ltb_lt, !Z.eqb_eq. lia.
Qed.

Lemma proper_inhabitant : proper inhabitant.
Proof. reflexivity. Qed.

#[global] Instance less'_strict : StrictWeak less'.
Proof. apply zlex_key_strict. Qed.

Lemma less'_place_l i x y : less' (place i x) y = less' x y.
Proof. done. Qed.
Lemma less'_place_r i x y : less' x (place i y) = less' x y.
Proof. done. Qed.

(** The manager represents the bag [b]. *)
Definition represents (eq : EventQueueManager) (b : list QueueEvent) : Prop :=
  is_heap less' (queue eq) /\ Forall proper (queue eq) /\ Permutation (forget <$> queue eq) b.

Lemma most_urgent_bag x eq b :
  represents eq b -> proper x -> (forall y, y ∈ queue eq -> hle less' x y) -> most_urgent (forget x) b.
Proof.
  intros (_ & Hp & Hb) Hx Hmin y Hy. rewrite <-Hb in Hy. apply list_elem_of_fmap in Hy as (z & -> & Hz).
  rewrite Forall_forall in Hp. rewrite Less_urgency; [|exact (Hp z Hz)|exact Hx]. exact (Hmin z Hz).
Qed.

Lemma Enqueue_represents e eq b : represents eq b -> proper e -> represents (Enqueue e eq) (forget e :: b).
Proof.
  intros (Hh & Hp & Hb) He. unfold Enqueue, represents. simpl.
  destruct (heap_Push_agree Less less' place proper Less_urgency proper_inhabitant (fun i x H => H) e (queue eq) He Hp)
    as [-> Hp'].
  destruct (heap_Push_spec less' place less'_place_l less'_place_r forget (fun i x => eq_refl) e (queue eq) Hh)
    as [Hh' Hperm].
  split_and!; [done|done|]. by rewrite Hperm, Hb.
Qed.

Lemma Dequeue_represents eq b :
  represents eq b ->
  match Dequeue eq with
  | (eq', None) => b = [] /\ eq' = eq
  | (eq', Some x) => exists b', Permutation b (x :: b') /\ most_urgent x b /\ represents eq' b'
  end.
Proof.
  intros Hr. pose proof Hr as (Hh & Hp & Hb). unfold Dequeue.
  destruct (heap_Pop_agree Less less' place proper Less_urgency proper_inhabitant (fun i x H => H) (queue eq) Hp) as [-> Hp'].
  destruct (decide (queue eq = [])) as [Hnil|Hne].
  { rewrite Hnil in *. simpl. apply Permutation_nil_l in Hb. done. }
  destruct (heap_Pop_spec less' place less'_place_l less'_place_r forget (fun i x => eq_refl) (queue eq) Hh Hne)
    as (x & l' & Hpop & Hh' & Hperm & Hmin).
  destruct (Hp' x l' Hpop) as [Hx Hpl]. rewrite Hpop. exists (forget <$> l'). split_and!.
  - by rewrite <-Hb, Hperm.
  - by eapply most_urgent_bag.
  - split_and!; done.
Qed.

Definition op_proper (o : op) : Prop := match o with OEnqueue e => proper e | _ => True end.

Lemma Peek_represents eq b x :
  represents eq b -> Peek eq = Some x -> forget x ∈ b /\ most_urgent (forget x) b.
Proof.
  intros Hr Hx. pose proof Hr as (Hh & Hp & Hb). unfold Peek in Hx.
  destruct (queue eq) as [|y q] eqn:Hq; [done|]. injection Hx as <-. split.
  - rewrite <-Hb. by left.
  - apply (most_urgent_bag y eq b Hr); [by apply Forall_cons in Hp as [? _]|].
    intros z Hz. apply list_elem_of_lookup in Hz as [k Hk]. rewrite Hq in Hk.
    pose proof (heap_root less' _ _ Hh k) as Hroot. rewrite (list_lookup_total_correct _ _ _ Hk) in Hroot.
    apply Hroot. by eapply lookup_lt_Some.
Qed.

(** The priority queue refines a bag: for every sequence of operations on events
    whose scores are numbers, an event is returned exactly when the bag is not empty, it is
    one of the events enqueued and not yet dequeued, and no other of them is more urgent
    (higher score, then tainted, then older). *)
Lemma queue_refines (ops : list op) (Hops : Forall op_proper ops) :
  allowed [] ops (run ops NewEventQueueManager).
Proof.
  assert (represents NewEventQueueManager []) as Hr.
  { split_and!; [intros k Hk; simpl in Hk; lia|constructor|done]. }
  revert Hr. generalize NewEventQueueManager, (@nil QueueEvent). intros eq b Hr. revert eq b Hr.
  induction Hops as [|o ops Ho Hops IH]; intros eq b Hr; [constructor|]. destruct o as [e| | |]; simpl.
  - constructor. apply IH. by apply Enqueue_represents.
  - pose proof (Dequeue_represents eq b Hr) as Hd. destruct (Dequeue eq) as [eq' [x|]].
    + destruct Hd as (b' & Hperm & Hmin & Hr'). by eapply a_dequeue; [..|apply IH].
    + destruct Hd as [-> ->]. constructor. by apply IH.
  - destruct (Peek eq) as [x|] eqn:Hx; simpl.
    + destruct (Peek_represents eq b x Hr Hx). apply a_peek; [done..|]. by apply IH.
    + unfold Peek in Hx. destruct Hr as (Hh & Hp & Hb).
      assert (queue eq = []) as Hq by (by destruct (queue eq)). rewrite Hq in Hb. apply Permutation_nil_l in Hb.
      subst b. constructor. apply IH. split_and!; [done|done|]. by rewrite Hq.
  - unfold Size. destruct Hr as (Hh & Hp & Hb).
    assert (length (queue eq) = length b) as -> by (by rewrite <-Hb, length_fmap).
    constructor. by apply IH.
Qed.

Definition qe (id : string) (score : float64) (t : bool) (ts : Z) : QueueEvent := mkQE id "h" "x" score t ts 0.
Definition sample_ops : list op :=
  [OEnqueue (qe "a" (lit 1 10) false 5); OEnqueue (qe "b" (lit 9 10) false 6); OEnqueue (qe "c" (lit 9 10) true 7);
   OSize; ODequeue; OPeek; ODequeue; ODequeue; ODequeue].

Lemma queue_refines_witness :
  allowed [] sample_ops (run sample_ops NewEventQueueManager) /\
  run sample_ops NewEventQueueManager =
    [RUnit; RUnit; RUnit; RSize 3; REvent (Some (forget (qe "c" (lit 9 10) true 7)));
     REvent (Some (forget (qe "b" (lit 9 10) false 6))); REvent (Some (forget (qe "b" (lit 9 10) false 6)));
     REvent (Some (forget (qe "a" (lit 1 10) false 5))); REvent None].
Proof.
  split; [|vm_compute; reflexivity]. apply (queue_refines sample_ops).
  repeat (constructor; [vm_compute; reflexivity || exact I|]). constructor.
Defined.

(** Queued events know their position. *)
Lemma index_correct ops :
  let final := foldl (fun eq o => (exec o eq).1) NewEventQueueManager ops in
  forall k e, queue final !! k = Some e -> index e = Z.of_nat k.
Proof.
  set (Q := fun (k : nat) (e : QueueEvent) => index e = Z.of_nat k).
  assert (forall i x, Q i (place i x)) as HQ by done.
  assert (forall o eq, placed Q (queue eq) -> placed Q (queue (exec o eq).1)) as Hstep.
  { intros o eq Hl. destruct o; simpl; [by apply placed_Push| |done|done]. unfold Dequeue.
    destruct (heap_Pop Less place (queue eq)) as [[x l']|] eqn:Hp; [|done]. simpl. by eapply placed_Pop. }
  intros final. assert (placed Q (queue final)) as Hf; [|exact Hf]. subst final.
  assert (placed Q (queue NewEventQueueManager)) as H0 by (intros [] e Hk; discriminate Hk).
  revert H0. generalize NewEventQueueManager. induction ops as [|o ops IH]; intros eq H0; simpl; auto.
Qed.

(** A score that is not a number breaks the order: here the event with score 0.5 comes
    out before the one with score 0.9. *)
Definition dequeued (rs : list result) : list string :=
  omap (fun r => match r with REvent (Some e) => Some (qe_ID e) | _ => None end) rs.
Example nan_breaks_order :
  dequeued (run [OEnqueue (qe "low" (lit 1 10) false 1); OEnqueue (qe "nan" SpecFloat.S754_nan false 2);
    OEnqueue (qe "mid" (lit 5 10) false 3); OEnqueue (qe "high" (lit 9 10) false 4);
    ODequeue; ODequeue; ODequeue; ODequeue] NewEventQueueManager) = ["mid"; "high"; "low"; "nan"].
Proof. vm_compute. reflexivity. Qed.

(** ** Load control *)

Inductive ServerLoad := LoadLow | LoadMedium | LoadHigh | LoadCritical.
#[global] Instance ServerLoad_eq_dec : EqDecision ServerLoad.
Proof. solve_decision. Defined.

Definition level (l : ServerLoad) : Z :=
  match l with LoadLow => 0 | LoadMedium => 1 | LoadHigh => 2 | LoadCritical => 3 end.

Record AgentStats := mkAgent {
  AgentID : string; EventsSent : Z; LastHeartbeat : time; ag_ThrottleLevel : Z;
}.

Record LoadController := mkLC {
  load : ServerLoad; agents : gmap string AgentStats; throttleLevel : Z; lastAdjust : time;
  highThreshold : Z; critThreshold : Z;
}.

Definition NewLoadController (now : time) : LoadController := mkLC LoadLow ∅ 0 now 10000 50000.

Definition set_load (l : ServerLoad) (lc : LoadController) : LoadController :=
  mkLC l (agents lc) (level l) (lastAdjust lc) (highThreshold lc) (critThreshold lc).

(** [queue = None] is a nil queue: its size is read again without a test in the last case,
    and the method panics ([None]).  The second component says whether the agents are
    notified. *)
Definition Tick (queue : option EventQueueManager) (now : time) (lc : LoadController)
  : option (LoadController * bool) :=
  let queueDepth := match queue with Some q => Size q | None => 0 end in
  lc' ← (if critThreshold lc <=? queueDepth then Some (set_load LoadCritical lc)
         else if highThreshold lc <=? queueDepth then Some (set_load LoadHigh lc)
         else if highThreshold lc ÷ 2 <=? queueDepth then Some (set_load LoadMedium lc)
         else q ← queue;
              Some (if Size q <? highThreshold lc ÷ 4 then set_load LoadLow lc else lc));
  Some (if decide (load lc' = load lc) then (lc', false)
        else if throttleLevel lc' =? throttleLevel lc then (lc', false)
        else (mkLC (load lc') (agents lc') (throttleLevel lc') now (highThreshold lc') (critThreshold lc'), true)).

Definition RegisterAgent (id : string) (now : time) (lc : LoadController) : LoadController :=
  mkLC (load lc) (<[id := mkAgent id 0 now 0]> (agents lc)) (throttleLevel lc) (lastAdjust lc)
    (highThreshold lc) (critThreshold lc).

Definition Heartbeat (id : string) (now : time) (lc : LoadController) : LoadController :=
  match agents lc !! id with
  | Some a => mkLC (load lc)
      (<[id := mkAgent (AgentID a) (i64 (EventsSent a + 1)) now (ag_ThrottleLevel a)]> (agents lc))
      (throttleLevel lc) (lastAdjust lc) (highThreshold lc) (critThreshold lc)
  | None => lc
  end.

Inductive lc_action := LTick (q : EventQueueManager) (now : time) | LRegister (id : string) (now : time)
  | LHeartbeat (id : string) (now : time).

Definition lc_act (lc : LoadController) (a : lc_action) : LoadController :=
  match a with
  | LTick q now => match Tick (Some q) now lc with Some (lc, _) => lc | None => lc end
  | LRegister id now => RegisterAgent id now lc
  | LHeartbeat id now => Heartbeat id now lc
  end.

(** The load that a depth asks for, with the gap in which the load is kept. *)
Definition load_for (depth : Z) (old : ServerLoad) : ServerLoad :=
  if 50000 <=? depth then LoadCritical else if 10000 <=? depth then LoadHigh
  else if 5000 <=? depth then LoadMedium else if depth <? 2500 then LoadLow else old.

Definition lc_ok (lc : LoadController) : Prop :=
  throttleLevel lc = level (load lc) /\ highThreshold lc = 10000 /\ critThreshold lc = 50000.

Lemma level_inj l l' : level l = level l' -> l = l'.
Proof. by destruct l, l'. Qed.

Lemma Tick_spec q now lc :
  lc_ok lc -> exists lc' notified, Tick (Some q) now lc = Some (lc', notified) /\ lc_ok lc' /\
    load lc' = load_for (Size q) (load lc) /\ (notified = true <-> load lc' <> load lc).
Proof.
  intros (Ht & Hh & Hc). unfold Tick, load_for. rewrite Hh, Hc.
  change (10000 ÷ 2) with 5000. change (10000 ÷ 4) with 2500.
  assert (forall lc', lc_ok lc' ->
    exists lc2 n, Some (if decide (load lc' = load lc) then (lc', false)
        else if throttleLevel lc' =? throttleLevel lc then (lc', false)
        else (mkLC (load lc') (agents lc') (throttleLevel lc') now (highThreshold lc') (critThreshold lc'), true)) =
      Some (lc2, n) /\ lc_ok lc2 /\ load lc2 = load lc' /\ (n = true <-> load lc2 <> load lc)) as Hfin.
  { intros lc' (E & ? & ?). case_decide as Hl; [by do 2 eexists|].
    destruct (Z.eqb_spec (throttleLevel lc') (throttleLevel lc)) as [E'|].
    - rewrite E, Ht in E'. by apply level_inj in E'.
    - by do 2 eexists. }
  destruct (Z.leb_spec 50000 (Size q)); [by apply (Hfin (set_load LoadCritical lc))|].
  destruct (Z.leb_spec 10000 (Size q)); [by apply (Hfin (set_load LoadHigh lc))|].
  destruct (Z.leb_spec 5000 (Size q)); [by apply (Hfin (set_load LoadMedium lc))|]. cbn [mbind option_bind].
  destruct (Z.ltb_spec (Size q) 2500); [by apply (Hfin (set_load LoadLow lc))|by apply (Hfin lc)].
Qed.

(** In every run of the load controller on a queue, the broadcast throttle level is
    the level of the load, a tick sets the load by the thresholds 2500, 5000, 10000 and
    50000, keeping it between the first two, and agents are notified exactly when the load
    changes. *)
Lemma throttle_follows_load (acts : list lc_action) (start : time) (q : EventQueueManager) (now : time) :
  let lc := foldl lc_act (NewLoadController start) acts in
  throttleLevel lc = level (load lc) /\
  exists lc' notified, Tick (Some q) now lc = Some (lc', notified) /\
    load lc' = load_for (Size q) (load lc) /\ throttleLevel lc' = level (load lc') /\
    (notified = true <-> load lc' <> load lc).
Proof.
  intros lc. assert (lc_ok lc) as Hok.
  { subst lc. induction acts as [|a acts IH] using rev_ind; [done|]. rewrite foldl_snoc.
    destruct a as [q' t|id t|id t]; simpl.
    - by destruct (Tick_spec q' t _ IH) as (lc' & n & -> & ? & _).
    - exact IH.
    - unfold Heartbeat. by destruct (agents _ !! id). }
  split; [apply Hok|]. destruct (Tick_spec q now lc Hok) as (lc' & n & -> & [? _] & ? & ?). by exists lc', n.
Qed.

(** Without a queue, every tick panics. *)
Lemma tick_nil_panics now start : Tick None now (NewLoadController start) = None.
Proof. done. Qed.

(** ** Routing *)

Record ConsistentHashRouter := mkRouter { collectors : list string; replicas : Z }.

Definition NewConsistentHashRouter (cs : list string) (replicas : Z) : ConsistentHashRouter :=
  mkRouter cs (if replicas <=? 0 then 100 else replicas).

(** [fnv.New64a], as [hashStr] of the graph. *)
Definition hashString (s : string) : Z := hashStr s.
Definition hashDistance (a b : Z) : Z := if b <? a then u64 (a - b) else u64 (b - a).

Definition dist (host c : string) : Z := hashDistance (hashString host) (hashString (c +:+ "-" +:+ pretty 0)).

(** The loop: the best collector so far and its distance. *)
Fixpoint nearest_loop (host best : string) (bestDist : Z) (cs : list string) : string :=
  match cs with
  | [] => best
  | c :: cs =>
      let d := dist host c in
      if d <? bestDist then nearest_loop host c d cs else nearest_loop host best bestDist cs
  end.

Definition Route (host : string) (r : ConsistentHashRouter) : string :=
  match collectors r with
  | [] => ""
  | [c] => c
  | c :: cs => nearest_loop host c (dist host c) cs
  end.

Definition str_less (s t : string) : bool := bool_decide (str_lt s t).

Definition AddCollector `{SortSlice} (id : string) (r : ConsistentHashRouter) : ConsistentHashRouter :=
  mkRouter (sort_slice str_less (collectors r ++ [id])) (replicas r).

Definition RemoveCollector (id : string) (r : ConsistentHashRouter) : ConsistentHashRouter :=
  mkRouter (filter (fun c => c <> id) (collectors r)) (replicas r).

(** The first collector of least distance. *)
Definition first_nearest (host : string) (cs : list string) (c : string) : Prop :=
  exists l1 l2, cs = l1 ++ c :: l2 /\ Forall (fun x => dist host c < dist host x) l1 /\
    Forall (fun x => dist host c <= dist host x) l2.

Lemma nearest_loop_spec host cs l1 l2 best :
  Forall (fun x => dist host best < dist host x) l1 -> Forall (fun x => dist host best <= dist host x) l2 ->
  first_nearest host (l1 ++ best :: l2 ++ cs) (nearest_loop host best (dist host best) cs).
Proof.
  revert l1 l2 best. induction cs as [|c cs IH]; intros l1 l2 best H1 H2; simpl.
  { exists l1, l2. by rewrite app_nil_r. }
  destruct (Z.ltb_spec (dist host c) (dist host best)) as [Hlt|Hge].
  - replace (l1 ++ best :: l2 ++ c :: cs) with ((l1 ++ best :: l2) ++ c :: [] ++ cs)
      by (by rewrite <-(assoc_L (++))).
    apply IH; [|constructor]. apply Forall_app. split; [|constructor; [done|]].
    + eapply Forall_impl; [exact H1|]. simpl. lia.
    + eapply Forall_impl; [exact H2|]. simpl. lia.
  - replace (l1 ++ best :: l2 ++ c :: cs) with (l1 ++ best :: (l2 ++ [c]) ++ cs) by (by rewrite <-(assoc_L (++))).
    apply IH; [done|]. apply Forall_app. split; [done|]. by repeat constructor.
Qed.

Lemma Route_first host r : collectors r <> [] -> first_nearest host (collectors r) (Route host r).
Proof.
  unfold Route. destruct (collectors r) as [|c [|c' cs]] eqn:E; [done|..]; intros _.
  - by exists [], [].
  - apply (nearest_loop_spec host (c' :: cs) [] [] c); constructor.
Qed.

Lemma first_nearest_unique host cs c c' : first_nearest host cs c -> first_nearest host cs c' -> c = c'.
Proof.
  intros (l1 & l2 & -> & H1 & H2) (k1 & k2 & E & H3 & H4).
  revert k1 E H3. induction l1 as [|x l1 IH]; intros [|y k1] E H3; simplify_eq/=.
  - done.
  - apply Forall_cons in H3 as [? _]. apply Forall_app in H2 as [_ H2]. apply Forall_cons in H2 as [? _]. lia.
  - apply Forall_cons in H1 as [? _]. apply Forall_app in H4 as [_ H4]. apply Forall_cons in H4 as [? _]. lia.
  - apply Forall_cons in H1 as [_ H1], H3 as [_ H3]. by eapply IH.
Qed.

(** Removing a collector moves no host except those that were routed to it: every
    other host keeps its collector. *)
Lemma route_stable (r : ConsistentHashRouter) (host id : string)
    (Hid : Route host r <> id) : Route host (RemoveCollector id r) = Route host r.
Proof.
  destruct (decide (collectors r = [])) as [Hnil|Hne].
  { unfold Route, RemoveCollector. simpl. by rewrite Hnil. }
  destruct (Route_first host r Hne) as (l1 & l2 & E & H1 & H2).
  apply (first_nearest_unique host (collectors (RemoveCollector id r))).
  - apply Route_first. unfold RemoveCollector. simpl. rewrite E, filter_app, filter_cons_True by done.
    intros Hn. by apply app_nil in Hn as [_ ?].
  - unfold RemoveCollector. simpl. rewrite E at 1. rewrite filter_app, filter_cons_True by done.
    eexists _, _. split; [done|].
    split; apply Forall_forall; intros x [_ Hx]%list_elem_of_filter; [rewrite Forall_forall in H1|rewrite Forall_forall in H2]; auto.
Qed.

Definition sample_router : ConsistentHashRouter := NewConsistentHashRouter ["c1"; "c2"; "c3"] 100.
Lemma route_stable_witness :
  Route "host-a" (RemoveCollector "c2" sample_router) = Route "host-a" sample_router.
Proof. apply (route_stable sample_router "host-a" "c2"). vm_compute. discriminate. Defined.

(** Adding a collector moves a host only to a collector that is at least as near. *)
Lemma route_add `{SortSlice} r host id :
  collectors r <> [] ->
  (Route host (AddCollector id r) = id \/ Route host (AddCollector id r) ∈ collectors r) /\
  dist host (Route host (AddCollector id r)) <= dist host (Route host r).
Proof.
  intros Hne. assert (collectors (AddCollector id r) <> []) as Hne'.
  { unfold AddCollector. simpl. intros E. apply (f_equal length) in E.
    rewrite length_sort_slice, length_app in E. simpl in E. lia. }
  destruct (Route_first host r Hne) as (l1 & l2 & E & H1 & H2).
  destruct (Route_first host (AddCollector id r) Hne') as (k1 & k2 & E' & H3 & H4).
  assert (forall x, x ∈ collectors (AddCollector id r) <-> x ∈ collectors r \/ x = id) as Hel.
  { intros x. unfold AddCollector. simpl. rewrite elem_of_sort_slice, elem_of_app, list_elem_of_singleton. done. }
  split.
  - assert (Route host (AddCollector id r) ∈ collectors (AddCollector id r)) as Hin by (rewrite E'; set_solver).
    apply Hel in Hin as [?|?]; auto.
  - assert (Route host r ∈ collectors (AddCollector id r)) as Hin by (apply Hel; left; rewrite E; set_solver).
    rewrite E' in Hin. rewrite Forall_forall in H3, H4.
    apply elem_of_app in Hin as [Hin|[->|Hin]%elem_of_cons]; [apply H3 in Hin; lia|lia|by apply H4].
Qed.

(** ** Collectors *)

Record Collector := mkCollector { col_ID : string; hosts : gset string; col_processed : Z }.
Definition NewCollector (id : string) : Collector := mkCollector id ∅ 0.
Definition AssignHost (h : string) (c : Collector) : Collector :=
  mkCollector (col_ID c) ({[ h ]} ∪ hosts c) (col_processed c).
Definition Process (c : Collector) : Collector := mkCollector (col_ID c) (hosts c) (i64 (col_processed c + 1)).
