(* ===== verification/AlertFlow.v ===== *)
(** * The alert workflow ([pkg/alertflow/manager.go])

    Alerts are deduplicated by severity, pattern, source and headline, limited in number,
    and carry a workflow status.  The clock is an argument.  Status strings are the
    constructors of [Status]. *)
From Stdlib Require Import Ascii.
From S2P Require Import Prelude GoStrings GoTime GoFloat GoDuration GoSort.

Inductive Status := StatusOpen | StatusAssigned | StatusSuppressed | StatusClosed.
#[global] Instance Status_eq_dec : EqDecision Status.
Proof. solve_decision. Defined.

Definition Status_String (s : Status) : string :=
  match s with
  | StatusOpen => "open" | StatusAssigned => "assigned"
  | StatusSuppressed => "suppressed" | StatusClosed => "closed" end.

Record Alert := mkAlert {
  ID : string; DedupKey : string; Severity : string; Pattern : string; Headline : string;
  Reason : string; Source : string; status : Status; Assignee : string; Count : Z;
  FirstSeen : time; LastSeen : time; LastNotifiedAt : time; SilenceUntil : time;
  Note : string; Details : gmap string string;
}.

(** [notify.Alert]. *)
Record NotifyAlert := mkInput {
  in_ID : string; in_Timestamp : time; in_Severity : string; in_Pattern : string; in_Headline : string;
  in_Reason : string; in_Source : string; in_Details : gmap string string;
}.

Record Summary := mkSummary { Total : Z; Open : Z; Assigned : Z; Suppressed : Z; Closed : Z }.
Record Snapshot := mkSnapshot { UpdatedAt : string; summary : Summary; snap_Alerts : list Alert }.

Record UpdateRequest := mkUpdate {
  Action : string; AlertID : string; req_Assignee : string; Duration : string; req_Note : string;
  Classification : string;
}.

Record Manager := mkManager {
  alerts : gmap string Alert; byDedupKey : gmap string string; order : list string;
  dedupWindow : duration; maxAlerts : Z;
}.

Definition NewManager : Manager := mkManager ∅ ∅ [] (10 * Minute) 500.

Definition SetDedupWindow (w : duration) (m : Manager) : Manager :=
  if w <=? 0 then m else mkManager (alerts m) (byDedupKey m) (order m) w (maxAlerts m).

Section workflow.
Context `{UnicodeCase}.

(** ** Status *)

Definition statusFor (assignee : string) (silenceUntil now : time) : Status :=
  if negb (time_IsZero silenceUntil) && time_After silenceUntil now then StatusSuppressed
  else if decide (TrimSpace assignee <> "") then StatusAssigned else StatusOpen.

Definition set_status (s : Status) (a : Alert) : Alert :=
  mkAlert (ID a) (DedupKey a) (Severity a) (Pattern a) (Headline a) (Reason a) (Source a) s (Assignee a)
    (Count a) (FirstSeen a) (LastSeen a) (LastNotifiedAt a) (SilenceUntil a) (Note a) (Details a).

Definition refreshStatus (a : Alert) (now : time) : Alert :=
  if decide (status a = StatusClosed) then a else set_status (statusFor (Assignee a) (SilenceUntil a) now) a.

(** The refreshed alert, and whether to notify. *)
Definition shouldNotify (window : duration) (a : Alert) (now : time) : Alert * bool :=
  let a := refreshStatus a now in
  (a, if decide (status a = StatusSuppressed) then false
      else if time_IsZero (LastNotifiedAt a) then true
      else window <=? time_Sub now (LastNotifiedAt a)).

(** ** Keys and identifiers *)

Definition dedupKey (i : NotifyAlert) : string :=
  TrimSpace (ToUpper (in_Severity i)) +:+ "|" +:+ TrimSpace (ToUpper (in_Pattern i)) +:+ "|" +:+
  TrimSpace (ToUpper (in_Source i)) +:+ "|" +:+ TrimSpace (ToUpper (in_Headline i)).

Definition stableID (i : NotifyAlert) (now : time) : string :=
  let trimmed := TrimSpace (in_ID i) in
  if decide (trimmed <> "") then trimmed
  else
    let base := TrimSpace (in_Pattern i) in
    let base := if decide (base = "") then "alert" else base in
    ToLower base +:+ "-" +:+ pretty (time_UnixNano now).

(** ** Ingestion *)

(** [for len(m.order) > m.maxAlerts]; one iteration per element suffices. *)
Fixpoint trim (fuel : nat) (m : Manager) : Manager :=
  match fuel, order m with
  | S fuel, oldest :: rest =>
      if maxAlerts m <? Z.of_nat (length (order m)) then
        let keys := match alerts m !! oldest with
                    | Some item => delete (DedupKey item) (byDedupKey m)
                    | None => byDedupKey m end in
        trim fuel (mkManager (delete oldest (alerts m)) keys rest (dedupWindow m) (maxAlerts m))
      else m
  | _, _ => m
  end.

Definition trimLocked (m : Manager) : Manager := trim (length (order m)) m.

Definition put_alert (id : string) (a : Alert) (m : Manager) : Manager :=
  mkManager (<[id := a]> (alerts m)) (byDedupKey m) (order m) (dedupWindow m) (maxAlerts m).

(** [clock]: the result of [time.Now], used when the input has no time. *)
Definition input_time (i : NotifyAlert) (clock : time) : time :=
  if time_IsZero (in_Timestamp i) then clock else in_Timestamp i.

Definition repeat_alert (i : NotifyAlert) (now : time) (a : Alert) : Alert :=
  let n := i64 (Count a + 1) in
  mkAlert (ID a) (DedupKey a) (Severity a) (Pattern a) (Headline a)
    (if decide (in_Reason i = "") then Reason a else in_Reason i) (Source a)
    (if decide (status a = StatusClosed) then statusFor (Assignee a) (SilenceUntil a) now else status a)
    (Assignee a) n (FirstSeen a) now (LastNotifiedAt a) (SilenceUntil a) (Note a)
    (<["dedup_count" := pretty n]> (Details a)).

Definition set_notified (now : time) (a : Alert) : Alert :=
  mkAlert (ID a) (DedupKey a) (Severity a) (Pattern a) (Headline a) (Reason a) (Source a) (status a) (Assignee a)
    (Count a) (FirstSeen a) (LastSeen a) now (SilenceUntil a) (Note a) (Details a).

Definition new_alert (i : NotifyAlert) (now : time) : Alert :=
  mkAlert (stableID i now) (dedupKey i) (in_Severity i) (in_Pattern i) (in_Headline i) (in_Reason i) (in_Source i)
    StatusOpen "" 1 now now time_zero time_zero "" (<["dedup_count" := "1"]> (in_Details i)).

(** The record is notified after the trim, through the pointer the map may still hold. *)
Definition Ingest (i : NotifyAlert) (clock : time) (m : Manager) : Manager * Alert * bool :=
  let now := input_time i clock in
  let key := dedupKey i in
  match (id ← byDedupKey m !! key; a ← alerts m !! id; Some (id, a)) with
  | Some (id, a) =>
      let '(a, deliver) := shouldNotify (dedupWindow m) (repeat_alert i now a) now in
      let a := if deliver then set_notified now a else a in
      (put_alert id a m, a, deliver)
  | None =>
      let a := new_alert i now in
      let m := mkManager (<[ID a := a]> (alerts m)) (<[key := ID a]> (byDedupKey m)) (order m ++ [ID a])
                 (dedupWindow m) (maxAlerts m) in
      let m := trimLocked m in
      let a := set_notified now a in
      (match alerts m !! ID a with Some _ => put_alert (ID a) a m | None => m end, a, true)
  end.

(** ** Updates *)

Inductive update_error := AlertNotFound | InvalidDuration | BadClassification | UnsupportedAction.

Definition replace_char (c d : ascii) (s : string) : string :=
  String.string_of_list_ascii ((fun x => if decide (x = c) then d else x) <$> chars s).

Definition normalizeClassification (value : string) : string :=
  let n := ToLower (TrimSpace value) in
  let n := replace_char "-" "_" n in
  let n := replace_char " " "_" n in
  if decide (n = "tp" \/ n = "true_positive") then "true_positive"
  else if decide (n = "fp" \/ n = "false_positive") then "false_positive"
  else if decide (n = "benign") then "benign"
  else if decide (n = "duplicate") then "duplicate"
  else if decide (n = "needs_review" \/ n = "review") then "needs_review"
  else "".

Definition with_note (note : string) (assignee : string) (silence : time) (st : Status)
    (details : gmap string string) (a : Alert) : Alert :=
  mkAlert (ID a) (DedupKey a) (Severity a) (Pattern a) (Headline a) (Reason a) (Source a) st assignee
    (Count a) (FirstSeen a) (LastSeen a) (LastNotifiedAt a) silence note details.

(** The effect of an action on an alert. *)
Definition apply_action (req : UpdateRequest) (now : time) (a : Alert) : update_error + Alert :=
  let note := TrimSpace (req_Note req) in
  let act := ToLower (TrimSpace (Action req)) in
  if decide (act = "assign") then
    let who := TrimSpace (req_Assignee req) in
    inr (with_note note who (SilenceUntil a) (statusFor who (SilenceUntil a) now) (Details a) a)
  else if decide (act = "silence") then
    let trimmed := TrimSpace (Duration req) in
    match (if decide (trimmed = "") then Some (30 * Minute) else ParseDuration trimmed) with
    | None => inl InvalidDuration
    | Some d => inr (with_note note (Assignee a) (time_Add now d) StatusSuppressed (Details a) a)
    end
  else if decide (act = "unsilence") then
    inr (with_note note (Assignee a) time_zero (statusFor (Assignee a) time_zero now) (Details a) a)
  else if decide (act = "close") then
    inr (with_note note (Assignee a) (SilenceUntil a) StatusClosed (Details a) a)
  else if decide (act = "reopen") then
    inr (with_note note (Assignee a) (SilenceUntil a) (statusFor (Assignee a) (SilenceUntil a) now) (Details a) a)
  else if decide (act = "annotate") then
    let c := normalizeClassification (Classification req) in
    if decide (c = "") then inl BadClassification
    else inr (with_note note (Assignee a) (SilenceUntil a) (status a)
           (<["classification_updated_at" := format_RFC3339 now]> (<["classification" := c]> (Details a))) a)
  else inl UnsupportedAction.

Definition Update (req : UpdateRequest) (now : time) (m : Manager) : Manager * (update_error + Alert) :=
  let id := TrimSpace (AlertID req) in
  match alerts m !! id with
  | None => (m, inl AlertNotFound)
  | Some a =>
      match apply_action req now a with
      | inl e => (m, inl e)
      | inr a => (put_alert id a m, inr a)
      end
  end.

(** ** Snapshots *)

Definition count_status (s : Status) (c : Summary) : Summary :=
  mkSummary (Total c + 1)
    (if decide (s = StatusOpen) then Open c + 1 else Open c)
    (if decide (s = StatusAssigned) then Assigned c + 1 else Assigned c)
    (if decide (s = StatusSuppressed) then Suppressed c + 1 else Suppressed c)
    (if decide (s = StatusClosed) then Closed c + 1 else Closed c).

Definition selected (st assignee : string) (a : Alert) : bool :=
  (bool_decide (st = "") || bool_decide (Status_String (status a) = ToLower (TrimSpace st)))
  && (bool_decide (assignee = "") || EqualFold (Assignee a) assignee).

(** The loop, over the identifiers from the newest. *)
Fixpoint snapshot_loop (now : time) (st assignee : string) (ids : list string) (m : Manager)
    (c : Summary) (out : list Alert) : Manager * Summary * list Alert :=
  match ids with
  | [] => (m, c, out)
  | id :: ids =>
      match alerts m !! id with
      | None => snapshot_loop now st assignee ids m c out
      | Some a =>
          let a := refreshStatus a now in
          snapshot_loop now st assignee ids (put_alert id a m) (count_status (status a) c)
            (if selected st assignee a then out ++ [a] else out)
      end
  end.

Definition take_snapshot (st assignee : string) (now : time) (m : Manager) : Manager * Snapshot :=
  let '(m, c, out) := snapshot_loop now st assignee (reverse (order m)) m (mkSummary 0 0 0 0 0) [] in
  (m, mkSnapshot (format_RFC3339 now) c (stable_sort (fun a b => time_After (LastSeen a) (LastSeen b)) out)).

(** ** The operations as a sequence *)

Inductive operation :=
| OpIngest (i : NotifyAlert) (clock : time)
| OpUpdate (req : UpdateRequest) (now : time)
| OpSnapshot (st assignee : string) (now : time)
| OpWindow (w : duration).

Definition step (o : operation) (m : Manager) : Manager :=
  match o with
  | OpIngest i clock => (Ingest i clock m).1.1
  | OpUpdate req now => (Update req now m).1
  | OpSnapshot st assignee now => (take_snapshot st assignee now m).1
  | OpWindow w => SetDedupWindow w m
  end.

Definition run (ops : list operation) (m : Manager) : Manager := foldl (fun m o => step o m) m ops.

(** The notifications an operation asks for: the dedup key and the time. *)
Definition notified (o : operation) (m : Manager) : list (string * time) :=
  match o with
  | OpIngest i clock => if (Ingest i clock m).2 then [(dedupKey i, input_time i clock)] else []
  | _ => []
  end.

Fixpoint notifications (ops : list operation) (m : Manager) : list (string * time) :=
  match ops with
  | [] => []
  | o :: ops => notified o m ++ notifications ops (step o m)
  end.

(** ** Alerts keep their identity *)

(** The fields by which an alert is found and deduplicated. *)
Definition key_of (a : Alert) : string * string * time := (ID a, DedupKey a, LastNotifiedAt a).

Lemma refreshStatus_key a now : key_of (refreshStatus a now) = key_of a.
Proof. unfold refreshStatus. by case_decide. Qed.

Lemma refreshStatus_idemp a now : refreshStatus (refreshStatus a now) now = refreshStatus a now.
Proof. unfold refreshStatus. destruct (decide (status a = _)) as [E|E]; [by rewrite decide_True|]. simpl. by case_decide. Qed.

Lemma apply_action_key req now a b : apply_action req now a = inr b -> key_of b = key_of a.
Proof. unfold apply_action. intros E. repeat case_match; simplify_eq; done. Qed.

Lemma snapshot_loop_rest now st assignee ids m c out :
  let m' := (snapshot_loop now st assignee ids m c out).1.1 in
  byDedupKey m' = byDedupKey m /\ order m' = order m /\ dedupWindow m' = dedupWindow m /\ maxAlerts m' = maxAlerts m
  /\ forall id, alerts m' !! id = (if decide (id ∈ ids) then (fun a => refreshStatus a now) <$> alerts m !! id else alerts m !! id).
Proof.
  revert m c out. induction ids as [|x ids IH]; intros m c out; simpl; [done|].
  destruct (alerts m !! x) as [a|] eqn:E.
  - destruct (IH (put_alert x (refreshStatus a now) m) (count_status (status (refreshStatus a now)) c)
      (if selected st assignee (refreshStatus a now) then out ++ [refreshStatus a now] else out))
      as (? & ? & ? & ? & Hm). repeat (split; [done|]). intros id. rewrite Hm. simpl.
    destruct (decide (id = x)) as [->|Hne].
    + rewrite lookup_insert_eq, E, (decide_True (P := x ∈ x :: ids)) by left. simpl. case_decide; [|done].
      by rewrite refreshStatus_idemp.
    + rewrite lookup_insert_ne by done. do 2 case_decide; set_solver.
  - destruct (IH m c out) as (? & ? & ? & ? & Hm). repeat (split; [done|]). intros id. rewrite Hm.
    destruct (decide (id = x)) as [->|Hne].
    + rewrite E. by repeat case_decide.
    + do 2 case_decide; set_solver.
Qed.

(** ** Bounded memory *)

(** Every stored alert is under its own identifier, which is in [order]. *)
Record wf (m : Manager) : Prop := {
  wf_max : maxAlerts m = 500;
  wf_order : Z.of_nat (length (order m)) <= 500;
  wf_alerts : forall id a, alerts m !! id = Some a -> ID a = id /\ id ∈ order m;
}.

(** An operation that only changes alerts in place. *)
Lemma wf_same m m' :
  order m' = order m -> maxAlerts m' = maxAlerts m ->
  (forall id b, alerts m' !! id = Some b -> exists a, alerts m !! id = Some a /\ ID b = ID a) ->
  wf m -> wf m'.
Proof.
  intros Ho Hm Ha [H1 H2 H3]. split; rewrite ?Ho, ?Hm; [done..|].
  intros id b Hb. destruct (Ha id b Hb) as (a & Ea & ->). eauto.
Qed.

Lemma wf_put id a b m : alerts m !! id = Some a -> ID b = ID a -> wf m -> wf (put_alert id b m).
Proof.
  intros Ea Eb. apply wf_same; [done..|]. intros id' b'. simpl.
  destruct (decide (id = id')) as [<-|Hne].
  - rewrite lookup_insert_eq. intros [= <-]. eauto.
  - rewrite lookup_insert_ne by done. eauto.
Qed.

Lemma trim_bounded fuel m :
  maxAlerts m = 500 -> (length (order m) <= fuel)%nat ->
  (forall id a, alerts m !! id = Some a -> ID a = id /\ id ∈ order m) -> wf (trim fuel m).
Proof.
  revert m. induction fuel as [|fuel IH]; intros m Hm Hf Ha; simpl.
  - split; [done|lia|done].
  - destruct (order m) as [|o rest] eqn:Eo; [split; rewrite ?Eo; simpl; [done|lia|done]|].
    destruct (Z.ltb_spec (maxAlerts m) (Z.of_nat (length (o :: rest)))) as [Hlt|Hge].
    + apply IH; simpl in *; [done|lia|]. intros id a [Hne Hl]%lookup_delete_Some.
      destruct (Ha id a Hl) as [? Hin]. split; [done|]. rewrite elem_of_cons in Hin. naive_solver.
    + split; rewrite ?Eo; [done|lia|done].
Qed.

Lemma repeat_alert_id i now a : ID (repeat_alert i now a) = ID a.
Proof. done. Qed.

Lemma shouldNotify_key w a now : key_of (shouldNotify w a now).1 = key_of a.
Proof. apply refreshStatus_key. Qed.

Lemma step_wf o m : wf m -> wf (step o m).
Proof.
  intros Hwf. destruct o as [i clock|req now|st who now|w]; simpl.
  - unfold Ingest. destruct (byDedupKey m !! dedupKey i ≫= _) as [[id a]|] eqn:E.
    + apply bind_Some in E as (id' & Ek & (a' & Ea & [= -> ->])%bind_Some).
      destruct (shouldNotify _ _ _) as [b deliver] eqn:Es. simpl.
      eapply wf_put; [done| |done].
      pose proof (shouldNotify_key (dedupWindow m) (repeat_alert i (input_time i clock) a) (input_time i clock)) as Hk.
      rewrite Es in Hk. apply (f_equal (fun k => k.1.1)) in Hk. simpl in Hk.
      by destruct deliver.
    + destruct Hwf as [H1 H2 H3]. set (a := new_alert i _). set (m1 := mkManager _ _ _ _ _). simpl.
      assert (wf (trimLocked m1)) as Ht.
      { apply trim_bounded; [done..|]. intros id b. unfold m1. simpl.
        intros [[<- <-]|[Hne Hb]]%lookup_insert_Some; [set_solver|].
        destruct (H3 id b Hb). set_solver. }
      destruct (alerts (trimLocked m1) !! _) as [b|] eqn:Eb; [|done].
      eapply wf_put; [done| |done]. simpl. by destruct (wf_alerts _ Ht _ _ Eb).
  - unfold Update. destruct (alerts m !! _) as [a|] eqn:Ea; [|done].
    destruct (apply_action req now a) as [|b] eqn:Eb; [done|]. simpl. eapply wf_put; [done| |done].
    apply apply_action_key in Eb. by injection Eb.
  - unfold take_snapshot.
    destruct (snapshot_loop_rest now st who (reverse (order m)) m (mkSummary 0 0 0 0 0) []) as (_ & Ho & _ & Hm & Ha).
    destruct (snapshot_loop _ _ _ _ _ _ _) as [[m' c] out]. simpl in *.
    eapply wf_same; [done..| |done]. intros id b. rewrite Ha. case_decide; [|eauto].
    intros (a & -> & ->)%fmap_Some. exists a. split; [done|].
    pose proof (refreshStatus_key a now) as [= ? _ _]. done.
  - unfold SetDedupWindow. case_match; [done|]. destruct Hwf. by split.
Qed.

Lemma run_ops_wf ops m : wf m -> wf (run ops m).
Proof. unfold run. revert m. induction ops as [|o ops IH]; intros m Hm; simpl; [done|]. apply IH, step_wf, Hm. Qed.

Lemma NewManager_wf : wf NewManager.
Proof. split; [done|simpl; lia|]. intros id a. simpl. by rewrite lookup_empty. Qed.

(** Whatever alerts arrive, and whatever workflow actions, snapshots and window
    changes happen between them, the manager remembers at most 500 alerts: the arrival
    order and the table of alerts both have at most 500 entries, and every stored alert
    is filed under its own identifier, which the arrival order still lists. *)
Lemma alerts_bounded ops :
  let m := run ops NewManager in
  Z.of_nat (length (order m)) <= 500 /\ Z.of_nat (size (alerts m)) <= 500
  /\ forall id a, alerts m !! id = Some a -> ID a = id /\ id ∈ order m.
Proof.
  intros m. destruct (run_ops_wf ops NewManager NewManager_wf) as [_ Ho Ha]. fold m in Ho, Ha.
  split; [done|]. split; [|done].
  assert (dom (alerts m) ⊆ list_to_set (C := gset string) (order m)) as Hd.
  { intros id [a Hid]%elem_of_dom. apply elem_of_list_to_set. by destruct (Ha id a Hid). }
  apply subseteq_size in Hd. rewrite size_dom in Hd.
  pose proof (size_list_to_set_le (order m)). lia.
Qed.

(** ** Spacing of the notifications *)

(** Alerts with the same identifier are duplicates of each other. *)
Definition distinct_ids (ops : list operation) : Prop :=
  forall i c j d, OpIngest i c ∈ ops -> OpIngest j d ∈ ops ->
    stableID i (input_time i c) = stableID j (input_time j d) -> dedupKey i = dedupKey j.

Definition keys_within (K : gset string) (ops : list operation) : Prop :=
  forall i c, OpIngest i c ∈ ops -> dedupKey i ∈ K.

Definition clock_set (ops : list operation) : Prop := forall i c, OpIngest i c ∈ ops -> time_IsZero c = false.

Definition windows_at_least (w : duration) (ops : list operation) : Prop :=
  forall w', OpWindow w' ∈ ops -> w' <= 0 \/ w <= w'.

(** The times follow each other in a list of notifications, given the last time of each key. *)
Fixpoint spaced (w : duration) (last : gmap string time) (l : list (string * time)) : Prop :=
  match l with
  | [] => True
  | (k, t) :: l => (forall t0, last !! k = Some t0 -> w <= time_Sub t t0) /\ spaced w (<[k := t]> last) l
  end.

Lemma spaced_app w last l k t1 l2 t2 l3 :
  spaced w last (l ++ (k, t1) :: l2 ++ (k, t2) :: l3) -> (forall t, (k, t) ∉ l2) -> w <= time_Sub t2 t1.
Proof.
  revert last. induction l as [|[k' t'] l IH]; intros last; simpl; [|naive_solver].
  intros [_ Hs] Hn. assert (<[k := t1]> last !! k = Some t1) as Hk by apply lookup_insert_eq.
  revert Hk Hs. generalize (<[k := t1]> last). clear last.
  induction l2 as [|[k' t'] l2 IH]; intros last Hk; simpl; [naive_solver|].
  intros [_ Hs]. eapply IH; [set_solver| |done].
  rewrite lookup_insert_ne; [done|]. intros ->. apply (Hn t'). left.
Qed.

Section spacing.
Context (w : duration) (all : list operation) (K : gset string).
Context (Hids : distinct_ids all) (HK : keys_within K all) (Hsize : Z.of_nat (size K) <= 500)
        (Hclock : clock_set all) (Hwin : windows_at_least w all).

Record tracked (m : Manager) (last : gmap string time) : Prop := {
  tr_window : w <= dedupWindow m;
  tr_max : maxAlerts m = 500;
  tr_order : length (order m) = size (byDedupKey m);
  tr_keys : dom (byDedupKey m) ⊆ K;
  tr_last : dom last = dom (byDedupKey m);
  tr_id : forall k id, byDedupKey m !! k = Some id ->
    exists i c, OpIngest i c ∈ all /\ stableID i (input_time i c) = id /\ dedupKey i = k;
  tr_entry : forall k id, byDedupKey m !! k = Some id ->
    exists a, alerts m !! id = Some a /\ last !! k = Some (LastNotifiedAt a) /\ time_IsZero (LastNotifiedAt a) = false;
}.

Lemma input_time_set i c : OpIngest i c ∈ all -> time_IsZero (input_time i c) = false.
Proof. intros Hin. unfold input_time. destruct (time_IsZero (in_Timestamp i)) eqn:E; [|done]. eapply Hclock, Hin. Qed.

Lemma tracked_same m m' last :
  w <= dedupWindow m' -> maxAlerts m' = maxAlerts m -> order m' = order m -> byDedupKey m' = byDedupKey m ->
  (forall id a, alerts m !! id = Some a -> exists b, alerts m' !! id = Some b /\ LastNotifiedAt b = LastNotifiedAt a) ->
  tracked m last -> tracked m' last.
Proof.
  intros Hw Hm Ho Hb Ha [T1 T2 T3 T4 T5 T6 T7]. split; rewrite ?Hm, ?Ho, ?Hb; try done.
  intros k id Hk. destruct (T7 k id Hk) as (a & Ea & El & Ez). destruct (Ha id a Ea) as (b & Eb & Hbn).
  exists b. by rewrite Hbn.
Qed.

Lemma tracked_put id a b m last :
  alerts m !! id = Some a -> LastNotifiedAt b = LastNotifiedAt a -> tracked m last -> tracked (put_alert id b m) last.
Proof.
  intros Ea Eb Ht. apply (tracked_same m); [apply (tr_window _ _ Ht)|done..| |done]. simpl. intros id' a' Ha'.
  destruct (decide (id = id')) as [<-|Hne].
  - rewrite lookup_insert_eq. simplify_eq. eauto.
  - rewrite lookup_insert_ne by done. eauto.
Qed.

(** A notified duplicate. *)
Lemma tracked_notify k id a t m last :
  byDedupKey m !! k = Some id -> LastNotifiedAt a = t -> time_IsZero t = false ->
  tracked m last -> tracked (put_alert id a m) (<[k := t]> last).
Proof.
  intros Hk Hn Ht [T1 T2 T3 T4 T5 T6 T7]. split; simpl; try done.
  - rewrite dom_insert_L, T5. apply elem_of_dom_2 in Hk. set_solver.
  - intros k' id' Hk'. destruct (decide (k' = k)) as [->|Hne].
    + simplify_eq. exists a. by rewrite !lookup_insert_eq.
    + assert (id' <> id) as Hid.
      { intros ->. apply Hne. destruct (T6 k' id Hk') as (i & c & Hi & E1 & <-).
        destruct (T6 k id Hk) as (j & d & Hj & E2 & <-). eapply Hids; [done..|]. by rewrite E1, E2. }
      rewrite !lookup_insert_ne by done. eauto.
Qed.

(** A key seen for the first time. *)
Lemma tracked_new i c m last :
  OpIngest i c ∈ all -> byDedupKey m !! dedupKey i = None -> tracked m last ->
  tracked (Ingest i c m).1.1 (<[dedupKey i := input_time i c]> last) /\ (Ingest i c m).2 = true.
Proof.
  intros Hin Hk [T1 T2 T3 T4 T5 T6 T7]. unfold Ingest. rewrite Hk. simpl. set (now := input_time i c).
  set (m1 := mkManager _ _ _ _ _).
  assert (trimLocked m1 = m1) as ->.
  { unfold trimLocked. destruct (length (order m1)) as [|n] eqn:El; [done|]. simpl in El. simpl.
    destruct (order m ++ _) as [|x l] eqn:Eo; [done|]. simpl in El.
    destruct (Z.ltb_spec (maxAlerts m) (Z.of_nat (length (x :: l)))) as [Hlt|]; [|done]. exfalso.
    rewrite T2, <-Eo, length_app, T3 in Hlt. simpl in Hlt.
    assert (dom (<[dedupKey i := stableID i now]> (byDedupKey m)) ⊆ K) as Hd.
    { rewrite dom_insert_L. specialize (HK i c Hin). set_solver. }
    apply subseteq_size in Hd. rewrite size_dom, map_size_insert_None in Hd by done.
    lia. }
  assert (alerts m1 !! stableID i now = Some (new_alert i now)) as -> by (unfold m1; simpl; by rewrite lookup_insert_eq).
  split; [|done]. split; unfold m1; simpl; try done.
  - rewrite length_app, map_size_insert_None, T3 by done. simpl. lia.
  - rewrite dom_insert_L. specialize (HK i c Hin). set_solver.
  - rewrite !dom_insert_L, T5. done.
  - intros k id [[<- <-]|[Hne Hl]]%lookup_insert_Some; [by exists i, c|eauto].
  - intros k id [[<- <-]|[Hne Hl]]%lookup_insert_Some.
    + eexists. rewrite !lookup_insert_eq. split; [done|]. split; [done|]. by apply input_time_set.
    + assert (id <> stableID i now) as Hid.
      { intros ->. apply Hne. destruct (T6 k _ Hl) as (j & d & Hj & E & <-). by eapply Hids. }
      rewrite !lookup_insert_ne by done. eauto.
Qed.

(** A key seen before. *)
Lemma tracked_repeat i c m last id :
  OpIngest i c ∈ all -> byDedupKey m !! dedupKey i = Some id -> tracked m last ->
  exists t, last !! dedupKey i = Some t /\
    if (Ingest i c m).2 then w <= time_Sub (input_time i c) t /\ tracked (Ingest i c m).1.1 (<[dedupKey i := input_time i c]> last)
    else tracked (Ingest i c m).1.1 last.
Proof.
  intros Hin Hk Ht. destruct (tr_entry _ _ Ht _ _ Hk) as (a & Ea & El & Ez).
  exists (LastNotifiedAt a). split; [done|]. unfold Ingest. rewrite Hk. simpl. rewrite Ea. simpl.
  set (now := input_time i c).
  pose proof (shouldNotify_key (dedupWindow m) (repeat_alert i now a) now) as Hkey.
  assert (LastNotifiedAt (refreshStatus (repeat_alert i now a) now) = LastNotifiedAt a) as Hn by by injection Hkey.
  unfold shouldNotify. case_decide; simpl; [by eapply tracked_put|].
  rewrite Hn, Ez. destruct (Z.leb_spec (dedupWindow m) (time_Sub now (LastNotifiedAt a))); simpl.
  - split; [pose proof (tr_window _ _ Ht); lia|]. eapply tracked_notify; [done..| |done]. by apply input_time_set.
  - by eapply tracked_put.
Qed.

Lemma tracked_other o m last :
  o ∈ all -> (forall i c, o <> OpIngest i c) -> tracked m last -> tracked (step o m) last.
Proof.
  intros Hin Ho Ht. destruct o as [i c|req now|st who now|w']; simpl; [by destruct (Ho i c)|..].
  - unfold Update. destruct (alerts m !! _) as [a|] eqn:Ea; [|done].
    destruct (apply_action req now a) as [|b] eqn:Eb; [done|]. simpl. apply apply_action_key in Eb.
    eapply tracked_put; [done| |done]. by injection Eb.
  - unfold take_snapshot.
    destruct (snapshot_loop_rest now st who (reverse (order m)) m (mkSummary 0 0 0 0 0) []) as (Hb & Ho' & Hw & Hm & Ha).
    destruct (snapshot_loop _ _ _ _ _ _ _) as [[m' s] out]. simpl in *.
    apply (tracked_same m); [by rewrite Hw; apply (tr_window _ _ Ht)|done..| |done].
    intros id a Ea. rewrite Ha, Ea. case_decide; simpl; [|by eauto]. eexists. split; [done|].
    pose proof (refreshStatus_key a now) as Hk. by injection Hk.
  - unfold SetDedupWindow. destruct (Z.leb_spec w' 0); [done|].
    apply (tracked_same m); [|done..| |done]; simpl; [|by eauto]. destruct (Hwin w' Hin); lia.
Qed.

Lemma notifications_spaced ops m last :
  (forall o, o ∈ ops -> o ∈ all) -> tracked m last ->
  spaced w last (notifications ops m) /\
  forall i c, OpIngest i c ∈ ops -> is_Some (last !! dedupKey i) \/ exists t, (dedupKey i, t) ∈ notifications ops m.
Proof.
  revert m last. induction ops as [|o ops IH]; intros m last Hall Ht; simpl; [split; set_solver|].
  assert (o ∈ all) as Ho by (apply Hall; left).
  assert (forall o, o ∈ ops -> o ∈ all) as Hops by (intros; apply Hall; by right).
  destruct o as [i c|req now|st who now|w'].
  2-4: match goal with |- spaced _ _ (notified ?o _ ++ _) /\ _ =>
      destruct (IH (step o m) last Hops) as [Hs Hc]; [by apply tracked_other|] end;
      split; [done|]; intros i c [?|?]%elem_of_cons; [done|by eapply Hc].
  unfold notified. change (step (OpIngest i c) m) with (Ingest i c m).1.1.
  destruct (byDedupKey m !! dedupKey i) as [id|] eqn:Hk.
  - destruct (tracked_repeat i c m last id Ho Hk Ht) as (t & El & Hd).
    destruct (Ingest i c m).2; [destruct Hd as [Hw Hd]|]; destruct (IH _ _ Hops Hd) as [Hs Hc]; (split; [simpl; naive_solver|]);
      intros j d [[= -> ->]|Hj]%elem_of_cons; [by left; eexists| |by left; eexists|by eapply Hc].
    destruct (Hc j d Hj) as [[t' Ht']|[t' Ht']]; [|right; exists t'; by right].
    apply lookup_insert_Some in Ht' as [[<- <-]|[_ ?]]; [right; eexists; by left|left; by eexists].
  - destruct (tracked_new i c m last Ho Hk Ht) as [Hd ->]. destruct (IH _ _ Hops Hd) as [Hs Hc].
    assert (last !! dedupKey i = None) as Hl.
    { apply not_elem_of_dom. rewrite (tr_last _ _ Ht). by apply not_elem_of_dom. }
    split; [simpl; split; [by rewrite Hl|done]|].
    intros j d [[= -> ->]|Hj]%elem_of_cons; [right; eexists; by left|].
    destruct (Hc j d Hj) as [[t' Ht']|[t' Ht']]; [|right; exists t'; by right].
    apply lookup_insert_Some in Ht' as [[<- <-]|[_ ?]]; [right; eexists; by left|left; by eexists].
Qed.
End spacing.

(** Notifications of duplicate alerts are rate limited and no kind of alert goes
    unnoticed.  Take any sequence of arriving alerts, workflow actions, snapshots and
    window changes on a new manager in which alerts of different kinds (dedup keys) have
    different identifiers, at most 500 kinds occur, the clock is set, and the window
    never falls below [w].  Then two consecutive notifications of the same kind are at
    least [w] apart, and every alert that arrives has been notified, itself or a
    duplicate of it. *)
Lemma notify_spacing w ops (K : gset string) :
  w <= 10 * Minute -> windows_at_least w ops -> distinct_ids ops ->
  keys_within K ops -> Z.of_nat (size K) <= 500 -> clock_set ops ->
  let sent := notifications ops NewManager in
  (forall l1 k t1 l2 t2 l3, sent = l1 ++ (k, t1) :: l2 ++ (k, t2) :: l3 -> (forall t, (k, t) ∉ l2) ->
     w <= time_Sub t2 t1)
  /\ (forall i c, OpIngest i c ∈ ops -> exists t, (dedupKey i, t) ∈ sent).
Proof.
  intros Hw Hwin Hids HK Hsize Hclock sent.
  destruct (notifications_spaced w ops K Hids HK Hsize Hclock Hwin ops NewManager ∅) as [Hs Hc]; [done|..].
  { split; simpl; try done; try set_solver. }
  split.
  - intros l1 k t1 l2 t2 l3 E. unfold sent in E. rewrite E in Hs. by eapply spaced_app.
  - intros i c Hin. destruct (Hc i c Hin) as [[t Ht]|?]; [|done]. by rewrite lookup_empty in Ht.
Qed.

(** ** Workflow actions *)

(** The action of a request, and the status it leads to. *)
Definition action_of (req : UpdateRequest) : string := ToLower (TrimSpace (Action req)).

Definition status_after (req : UpdateRequest) (now : time) (old new : Alert) : Status :=
  if decide (action_of req = "silence") then StatusSuppressed
  else if decide (action_of req = "close") then StatusClosed
  else if decide (action_of req = "annotate") then status old
  else statusFor (Assignee new) (SilenceUntil new) now.

(** Why a request is refused. *)
Definition refused (req : UpdateRequest) (m : Manager) (e : update_error) : Prop :=
  let found := is_Some (alerts m !! TrimSpace (AlertID req)) in
  match e with
  | AlertNotFound => ~ found
  | InvalidDuration => found /\ action_of req = "silence" /\ TrimSpace (Duration req) <> "" /\
                       ParseDuration (TrimSpace (Duration req)) = None
  | BadClassification => found /\ action_of req = "annotate" /\ normalizeClassification (Classification req) = ""
  | UnsupportedAction => found /\ action_of req ∉ ["assign"; "silence"; "unsilence"; "close"; "reopen"; "annotate"]
  end.

Lemma apply_action_cases req now a :
  match apply_action req now a with
  | inl e => e <> AlertNotFound /\ forall m, alerts m !! TrimSpace (AlertID req) = Some a -> refused req m e
  | inr b => key_of b = key_of a /\ Count b = Count a /\ LastSeen b = LastSeen a /\ Note b = TrimSpace (req_Note req)
             /\ status b = status_after req now a b
  end.
Proof.
  unfold apply_action, status_after, refused, action_of, key_of.
  repeat case_decide; repeat case_match; simplify_eq; simpl; try (by split_and!); try congruence;
    try (split; [done|]; intros m Hm; rewrite Hm; split_and!; eauto; set_solver); try set_solver.
Qed.


(** ** What a snapshot shows *)

Definition visible (now : time) (m : Manager) : list Alert :=
  (fun a => refreshStatus a now) <$> omap (fun id => alerts m !! id) (reverse (order m)).

Definition with_status (s : Status) (l : list Alert) : Z :=
  Z.of_nat (length (filter (fun a => status a = s) l)).

Lemma snapshot_loop_spec now st who ids m c out :
  let l := (fun a => refreshStatus a now) <$> omap (fun id => alerts m !! id) ids in
  let r := snapshot_loop now st who ids m c out in
  r.1.2 = mkSummary (Total c + Z.of_nat (length l)) (Open c + with_status StatusOpen l)
            (Assigned c + with_status StatusAssigned l) (Suppressed c + with_status StatusSuppressed l)
            (Closed c + with_status StatusClosed l)
  /\ r.2 = out ++ filter (fun a => selected st who a = true) l.
Proof.
  revert m c out. induction ids as [|x ids IH]; intros m c out; simpl.
  - rewrite app_nil_r, !Z.add_0_r. by destruct c.
  - destruct (alerts m !! x) as [a|] eqn:Ea; [|apply IH]. simpl. set (b := refreshStatus a now).
    assert ((fun a => refreshStatus a now) <$> omap (fun id => <[x := b]> (alerts m) !! id) ids
            = (fun a => refreshStatus a now) <$> omap (fun id => alerts m !! id) ids) as El.
    { clear IH. induction ids as [|y ids IH]; [done|]. simpl. destruct (decide (x = y)) as [<-|Hne].
      - rewrite lookup_insert_eq, Ea. simpl. unfold b at 1. rewrite refreshStatus_idemp. f_equal. exact IH.
      - rewrite lookup_insert_ne by done. destruct (alerts m !! y); simpl; [f_equal|]; exact IH. }
    destruct (IH (put_alert x b m) (count_status (status b) c) (if selected st who b then out ++ [b] else out)) as [-> ->].
    change (alerts (put_alert x b m)) with (<[x := b]> (alerts m)). rewrite El. clear El IH.
    change (list_fmap _ _ ?f (list_omap _ _ ?g ids)) with (f <$> omap g ids). generalize ((fun a => refreshStatus a now) <$> omap (fun id => alerts m !! id) ids). intros l. split.
    + unfold with_status. rewrite !filter_cons. simpl.
      destruct (status b); repeat case_decide; try done; f_equal; simpl; lia.
    + rewrite filter_cons. case_decide as Es; destruct (selected st who b); try done. by rewrite <-app_assoc.
Qed.

#[global] Instance newest_first : StrictWeak (fun a b => time_After (LastSeen a) (LastSeen b)).
Proof. split; unfold time_After; intros; lia. Qed.

(** A snapshot is exact.  Its totals count every remembered alert once per entry of
    the arrival order, and split into the counts of the four statuses; the listed alerts
    are those that match the requested status and assignee, each with its status brought
    up to the moment of the snapshot, sorted with the most recently seen first. *)
Lemma snapshot_exact st who now m :
  let s := (take_snapshot st who now m).2 in
  let l := visible now m in
  Total (summary s) = Z.of_nat (length l)
  /\ Total (summary s) = Open (summary s) + Assigned (summary s) + Suppressed (summary s) + Closed (summary s)
  /\ Open (summary s) = with_status StatusOpen l /\ Assigned (summary s) = with_status StatusAssigned l
  /\ Suppressed (summary s) = with_status StatusSuppressed l /\ Closed (summary s) = with_status StatusClosed l
  /\ Permutation (snap_Alerts s) (filter (fun a => selected st who a = true) l)
  /\ StronglySorted (fun a b => time_After (LastSeen b) (LastSeen a) = false) (snap_Alerts s).
Proof.
  intros s l. unfold s, take_snapshot.
  pose proof (snapshot_loop_spec now st who (reverse (order m)) m (mkSummary 0 0 0 0 0) []) as [Hc Ho].
  destruct (snapshot_loop _ _ _ _ _ _ _) as [[m' c] out]. simpl in Hc, Ho |- *. fold (visible now m) in Hc, Ho. fold l in Hc, Ho.
  subst c out. simpl. split; [done|]. split.
  { unfold with_status. clear. induction l as [|a l IH]; [done|]. rewrite !filter_cons. simpl.
    destruct (status a); repeat case_decide; try done; simpl; lia. }
  repeat (split; [done|]). split; [apply stable_sort_perm|]. apply (stable_sort_sorted _).
Qed.
End workflow.

(** ** Concrete runs *)

Definition sample (id pattern : string) (t : time) : NotifyAlert :=
  mkInput id t "HIGH" pattern "headline" "" "host" ∅.

Definition at_minute (n : Z) : time := unix_epoch + n * Minute.

Definition sample_run : list operation :=
  [OpIngest (sample "a" "exfil" (at_minute 0)) unix_epoch;
   OpIngest (sample "b" "shell" (at_minute 1)) unix_epoch;
   OpIngest (sample "c" "Exfil " (at_minute 2)) unix_epoch;
   OpUpdate (mkUpdate "close" "a" "" "" "" "") (at_minute 3);
   OpWindow (20 * Minute);
   OpIngest (sample "a" "exfil" (at_minute 25)) unix_epoch].

Example sample_run_sent :
  (@notifications ascii_case sample_run NewManager).*2 = [at_minute 0; at_minute 1; at_minute 25].
Proof. vm_compute. reflexivity. Qed.

Lemma notify_spacing_witness :
  10 * Minute <= time_Sub (at_minute 25) (at_minute 0) /\
  exists t, (@dedupKey ascii_case (sample "c" "Exfil " (at_minute 2)), t) ∈ @notifications ascii_case sample_run NewManager.
Proof.
  assert (forall i c, OpIngest i c ∈ sample_run ->
    (i, c) ∈ [(sample "a" "exfil" (at_minute 0), unix_epoch); (sample "b" "shell" (at_minute 1), unix_epoch);
              (sample "c" "Exfil " (at_minute 2), unix_epoch); (sample "a" "exfil" (at_minute 25), unix_epoch)]) as Hin.
  { intros i c Hi. unfold sample_run in Hi. repeat apply elem_of_cons in Hi as [[= -> ->]|Hi]; set_solver. }
  destruct (@notify_spacing ascii_case (10 * Minute) sample_run
    {[@dedupKey ascii_case (sample "a" "exfil" 0); @dedupKey ascii_case (sample "b" "shell" 0)]}) as [H1 H2].
  - vm_compute. discriminate.
  - intros w Hw. right. unfold sample_run in Hw.
    repeat apply elem_of_cons in Hw as [Hw|Hw]; simplify_eq; [vm_compute; discriminate|]. by apply elem_of_nil in Hw.
  - intros i c j d Hi Hj. apply Hin in Hi, Hj. 
    repeat (apply elem_of_cons in Hi as [[= -> ->]|Hi]); [..|by apply elem_of_nil in Hi];
    (repeat (apply elem_of_cons in Hj as [[= -> ->]|Hj]); [..|by apply elem_of_nil in Hj]); vm_compute; done.
  - intros i c Hi. apply Hin in Hi. apply elem_of_union.
    repeat (apply elem_of_cons in Hi as [[= -> ->]|Hi]); [..|by apply elem_of_nil in Hi];
      first [left; apply elem_of_singleton; vm_compute; reflexivity|right; apply elem_of_singleton; vm_compute; reflexivity].
  - vm_compute. discriminate.
  - intros i c Hi. apply Hin in Hi. repeat (apply elem_of_cons in Hi as [[= -> ->]|Hi]); [..|by apply elem_of_nil in Hi]; reflexivity.
  - split.
    + eapply (H1 [] (@dedupKey ascii_case (sample "a" "exfil" 0)) (at_minute 0)
        [(@dedupKey ascii_case (sample "b" "shell" 0), at_minute 1)] (at_minute 25) []); [vm_compute; reflexivity|].
      intros t Ht. apply list_elem_of_singleton in Ht. vm_compute in Ht. discriminate.
    + eapply (H2 _ unix_epoch). unfold sample_run. right. right. left.
Defined.

(** Two kinds of alert under one identifier: the second takes the place of the first, the
    next alert of the first kind counts as a repetition of the second, and the snapshot
    counts the one remaining alert twice. *)
Example same_id_overwrites :
  let m := @run ascii_case [OpIngest (sample "node" "exfil" (at_minute 0)) unix_epoch;
             OpIngest (sample "node" "shell" (at_minute 1)) unix_epoch;
             OpIngest (sample "node" "exfil" (at_minute 2)) unix_epoch] NewManager in
  ((fun a => (Pattern a, Count a)) <$> alerts m !! "node" = Some ("shell", 2))
  /\ Total (summary (@take_snapshot ascii_case "" "" (at_minute 3) m).2) = 2.
Proof. vm_compute. split; reflexivity. Qed.
