(* ===== verification/ControlHA.v ===== *)
(** * Leader election of the control plane ([pkg/controlplaneha/coordinator.go])

    Each coordinator periodically registers itself in a shared state, elects a leader
    among the nodes seen recently, and prunes old entries.  The shared state is a file or
    a PostgreSQL row; the database, the operating system calls and the JSON coding enter
    as the values they return.  The clock and the health of the node are arguments. *)
From Stdlib Require Import Ascii.
From S2P Require Import Prelude GoStrings GoSort KV.

Definition DefaultHeartbeatInterval : duration := 10 * Second.
Definition DefaultElectionTimeout : duration := 45 * Second.

Record Config := mkConfig {
  Mode : string; NodeID : string; ConfiguredRole : string; ConfiguredLeader : string; Peers : list string;
  StateBackend : string; Address : string; Version : string;
  HeartbeatInterval : duration; ElectionTimeout : duration;
}.

Record Status := mkStatus {
  st_UpdatedAt : time; st_Mode : string; st_NodeID : string; st_Role : string; st_LeaderID : string;
  st_Healthy : bool; st_PeerCount : Z; st_Peers : list string; st_StateBackend : string;
  st_LastCheckpoint : time; st_FailoverReady : bool; st_Message : string;
}.

Record persistedNode := mkNode {
  n_NodeID : string; n_Role : string; n_Address : string; n_Healthy : bool; n_LastSeen : time; n_Version : string;
}.

Record persistedState := mkState {
  s_Version : Z; s_UpdatedAt : time; s_LeaderID : string; s_Nodes : gmap string persistedNode;
}.

Record Coordinator := mkCoordinator { cfg : Config; status : Status }.

Section coordinator.
Context `{UnicodeCase} `{MapOrder} `{SortSlice}.

(** ** Configuration *)

Definition normalizeMode (mode : string) : string :=
  let m := ToLower (TrimSpace mode) in
  if decide (m = "active-passive" \/ m = "external") then m else "standalone".

Definition normalizeRole (role : string) : string :=
  let r := ToLower (TrimSpace role) in
  if decide (r = "leader" \/ r = "follower" \/ r = "observer") then r else "leader".

Fixpoint dedupe_loop (values : list string) (seen : gset string) (out : list string) : list string :=
  match values with
  | [] => out
  | v :: values =>
      let trimmed := TrimSpace v in
      if decide (trimmed = "") then dedupe_loop values seen out
      else if decide (trimmed ∈ seen) then dedupe_loop values seen out
      else dedupe_loop values ({[trimmed]} ∪ seen) (out ++ [trimmed])
  end.
Definition dedupe (values : list string) : list string := dedupe_loop values ∅ [].

Fixpoint firstNonEmpty (values : list string) : string :=
  match values with
  | [] => ""
  | v :: values => if decide (TrimSpace v <> "") then TrimSpace v else firstNonEmpty values
  end.

Definition nodeID (c : Config) : string := if decide (NodeID c <> "") then NodeID c else "control-plane".

Definition standaloneStatus (c : Config) (now : time) (healthy : bool) : Status :=
  let role := if decide (ConfiguredRole c = "" \/ ConfiguredRole c = "observer") then "leader" else ConfiguredRole c in
  let leader := if decide (ConfiguredLeader c = "" /\ role = "leader") then nodeID c else ConfiguredLeader c in
  mkStatus now (Mode c) (nodeID c) role leader healthy (Z.of_nat (length (Peers c))) (Peers c) (StateBackend c)
    time_zero false "single-node control plane".

Definition degradedStatus (c : Config) (now : time) (healthy : bool) (err : string) : Status :=
  let s := standaloneStatus c now healthy in
  mkStatus now (Mode c) (st_NodeID s) (if decide (ConfiguredRole c = "leader") then "leader" else "follower")
    (firstNonEmpty [ConfiguredLeader c; st_LeaderID s]) healthy (st_PeerCount s) (st_Peers s) (st_StateBackend s)
    time_zero false ("control plane " +:+ Mode c +:+ " degraded: " +:+ err).

(** [now], [healthy]: the results of [cfg.Now] and [cfg.Healthy]. *)
Definition New (c : Config) (now : time) (healthy : bool) : Coordinator :=
  let c := mkConfig (normalizeMode (Mode c)) (TrimSpace (NodeID c)) (normalizeRole (ConfiguredRole c))
    (TrimSpace (ConfiguredLeader c)) (dedupe (Peers c)) (TrimSpace (StateBackend c)) (Address c) (Version c)
    (if HeartbeatInterval c <=? 0 then DefaultHeartbeatInterval else HeartbeatInterval c)
    (if ElectionTimeout c <=? 0 then DefaultElectionTimeout else ElectionTimeout c) in
  mkCoordinator c (standaloneStatus c now healthy).

(** ** Election *)

Definition activeNodes (nodes : gmap string persistedNode) (now : time) (timeout : duration) : list persistedNode :=
  filter (fun n => ~ (n_NodeID n = "" \/ timeout < time_Sub now (n_LastSeen n))) (range 0 (map_to_list nodes).*2).

Definition by_id (a b : persistedNode) : bool := bool_decide (str_lt (n_NodeID a) (n_NodeID b)).

Definition electLeader (c : Config) (nodes : list persistedNode) : string :=
  let smallest := match list_find (fun n => n_Healthy n = true) (sort_slice by_id nodes) with
                  | Some (_, n) => n_NodeID n
                  | None => "" end in
  if decide (ConfiguredLeader c <> "") then
    match list_find (fun n => n_NodeID n = ConfiguredLeader c /\ n_Healthy n = true) nodes with
    | Some (_, n) => n_NodeID n
    | None => smallest
    end
  else smallest.

Definition own_record (c : Config) (now : time) (healthy : bool) : persistedNode :=
  mkNode (nodeID c) (ConfiguredRole c) (TrimSpace (Address c)) healthy now (TrimSpace (Version c)).

(** [c.cfg.ElectionTimeout*3] is an [int64]. *)
Definition prune (c : Config) (now : time) (nodes : gmap string persistedNode) : gmap string persistedNode :=
  filter (fun '(_, n) => ~ i64 (ElectionTimeout c * 3) < time_Sub now (n_LastSeen n)) nodes.

Definition show_bool (b : bool) : string := if b then "true" else "false".

Definition reconcileState (c : Config) (state : persistedState) (now : time) (healthy : bool)
  : persistedState * Status :=
  let id := nodeID c in
  let nodes := <[id := own_record c now healthy]> (s_Nodes state) in
  let active := activeNodes nodes now (ElectionTimeout c) in
  let elected := electLeader c active in
  let leader := if decide (elected = "") then id else elected in
  let state := mkState 1 now leader (prune c now nodes) in
  let role := if decide (id = leader) then "leader" else "follower" in
  let ready := bool_decide (Mode c = "active-passive") && healthy && (1 <? Z.of_nat (length active)) in
  (state, mkStatus now (Mode c) id role leader healthy (Z.of_nat (length (Peers c))) (Peers c) (StateBackend c)
     now ready
     ("control plane " +:+ Mode c +:+ "; role=" +:+ role +:+ " leader=" +:+ leader +:+ " active_nodes="
      +:+ pretty (Z.of_nat (length active)) +:+ " failover_ready=" +:+ show_bool ready)).

(** ** The shared state *)

(** [encoding/json] on the shared state, and [strconv.Quote] in a message. *)
Context (marshal : persistedState -> string + string) (unmarshal : string -> string + persistedState)
  (quote : string -> string).

Inductive read_result := NotExist | ReadError (e : string) | Content (data : string).

Definition empty_state : persistedState := mkState 1 time_zero "" ∅.

Definition readState (file : read_result) : string + persistedState :=
  match file with
  | NotExist => inr empty_state
  | ReadError e => inl e
  | Content data => if decide (TrimSpace data = "") then inr empty_state else unmarshal data
  end.

(** What the calls of [writeState] return ([None]: no error). *)
Record write_calls := mkWrite {
  w_MkdirAll : option string; w_WriteFile : option string; w_Rename : option string;
  w_Remove : option string; w_RenameAgain : option string;
}.

(** The file after the call, and the error. *)
Definition writeState (io : write_calls) (state : persistedState) (file : read_result) : read_result * option string :=
  match w_MkdirAll io with
  | Some e => (file, Some e)
  | None =>
      match marshal state with
      | inl e => (file, Some e)
      | inr data =>
          let data := data +:+ String "010" "" in
          match w_WriteFile io with
          | Some e => (file, Some e)
          | None =>
              match w_Rename io with
              | None => (Content data, None)
              | Some _ =>
                  let file := match w_Remove io with None => NotExist | Some _ => file end in
                  match w_RenameAgain io with
                  | Some e => (file, Some e)
                  | None => (Content data, None)
                  end
              end
          end
      end
  end.

(** What the statements of the transaction return; [pg_query]: an error other than no rows. *)
Record pg_calls := mkPg {
  pg_open : option string; pg_begin : option string; pg_create : option string; pg_lock : option string;
  pg_query : option string; pg_insert : option string; pg_commit : option string;
}.

(** The row as scanned: no row, or an empty value, is an empty state. *)
Definition read_row (row : option string) : string + persistedState :=
  match row with None | Some "" => inr empty_state | Some raw => unmarshal raw end.

(** The row ([None]: no row) and the result.  The transaction is rolled back on errors. *)
Definition updatePostgresState (io : pg_calls) (update : persistedState -> persistedState * Status)
    (row : option string) : option string * (string + persistedState * Status) :=
  match pg_open io, pg_begin io, pg_create io, pg_lock io, pg_query io with
  | Some e, _, _, _, _ | None, Some e, _, _, _ | None, None, Some e, _, _
  | None, None, None, Some e, _ | None, None, None, None, Some e => (row, inl e)
  | None, None, None, None, None =>
      match read_row row with
      | inl e => (row, inl e)
      | inr state =>
          let '(next, status) := update state in
          match marshal next with
          | inl e => (row, inl e)
          | inr data =>
              match pg_insert io, pg_commit io with
              | Some e, _ | None, Some e => (row, inl e)
              | None, None => (Some data, inr (next, status))
              end
          end
      end
  end.

Definition isPostgresBackend (value : string) : bool :=
  let t := ToLower (TrimSpace value) in HasPrefix t "postgres://" || HasPrefix t "postgresql://".

(** The environment of a node: the file and the row, and how the calls go. *)
Record backend := mkBackend { be_file : read_result; be_row : option string; be_write : write_calls; be_pg : pg_calls }.

Definition reconcilePostgres (c : Config) (now : time) (healthy : bool) (b : backend) : backend * (string + Status) :=
  match updatePostgresState (be_pg b) (fun state => reconcileState c state now healthy) (be_row b) with
  | (row, inl e) => (mkBackend (be_file b) row (be_write b) (be_pg b), inl e)
  | (row, inr (state, s)) =>
      (mkBackend (be_file b) row (be_write b) (be_pg b),
       inr (mkStatus (st_UpdatedAt s) (st_Mode s) (st_NodeID s) (st_Role s) (st_LeaderID s) (st_Healthy s)
              (st_PeerCount s) (st_Peers s) (st_StateBackend s) (s_UpdatedAt state) (st_FailoverReady s) (st_Message s)))
  end.

Definition reconcile (c : Config) (now : time) (healthy : bool) (b : backend) : backend * (string + Status) :=
  if decide (Mode c = "standalone" \/ Mode c = "external") then (b, inr (standaloneStatus c now healthy))
  else if bool_decide (StateBackend c = "") || EqualFold (StateBackend c) "local" then
    (b, inr (degradedStatus c now healthy "shared state backend is not configured"))
  else if Contains (StateBackend c) "://" then
    if isPostgresBackend (StateBackend c) then reconcilePostgres c now healthy b
    else (b, inr (degradedStatus c now healthy ("unsupported shared state backend " +:+ quote (StateBackend c))))
  else
    match readState (be_file b) with
    | inl e => (b, inl e)
    | inr state =>
        let '(state, s) := reconcileState c state now healthy in
        match writeState (be_write b) state (be_file b) with
        | (file, Some e) => (mkBackend file (be_row b) (be_write b) (be_pg b), inl e)
        | (file, None) => (mkBackend file (be_row b) (be_write b) (be_pg b), inr s)
        end
    end.

Definition Tick (co : Coordinator) (now : time) (healthy : bool) (b : backend) : Coordinator * backend * option string :=
  match reconcile (cfg co) now healthy b with
  | (b, inl e) => (mkCoordinator (cfg co) (degradedStatus (cfg co) now healthy e), b, Some e)
  | (b, inr s) => (mkCoordinator (cfg co) s, b, None)
  end.

(** ** The election picks the configured leader, or the smallest healthy identifier *)

Definition chosen (leader : string) (healthy : gset string) (id : string) : Prop :=
  id ∈ healthy /\ if decide (leader <> "" /\ leader ∈ healthy) then id = leader
                  else forall j, j ∈ healthy -> str_le id j.

Lemma chosen_unique leader hs i j : chosen leader hs i -> chosen leader hs j -> i = j.
Proof. intros [Hi Ci] [Hj Cj]. case_decide; [congruence|]. apply str_le_antisym; auto. Qed.

#[global] Instance by_id_strict : StrictWeak by_id.
Proof.
  split; unfold by_id, str_lt.
  - intros x y Hxy%bool_decide_eq_true. apply bool_decide_eq_false. intros H2. apply H2.
    destruct (total str_le (n_NodeID x) (n_NodeID y)); done.
  - intros x y z E1%bool_decide_eq_false E2%bool_decide_eq_false. apply bool_decide_eq_false.
    intros H3. apply H3. transitivity (n_NodeID y).
    + by destruct (decide (str_le (n_NodeID x) (n_NodeID y))).
    + by destruct (decide (str_le (n_NodeID y) (n_NodeID z))).
Qed.

Definition healthy_ids (l : list persistedNode) : gset string :=
  list_to_set (n_NodeID <$> filter (fun n => n_Healthy n = true) l).

Lemma elem_of_healthy_ids l id : id ∈ healthy_ids l <-> exists n, n ∈ l /\ n_Healthy n = true /\ n_NodeID n = id.
Proof.
  unfold healthy_ids. rewrite elem_of_list_to_set, list_elem_of_fmap. setoid_rewrite list_elem_of_filter. naive_solver.
Qed.

(** The smallest healthy identifier of a non-empty list. *)
Lemma smallest_spec (l : list persistedNode) n0 :
  n0 ∈ l -> n_Healthy n0 = true ->
  exists i n, list_find (fun n => n_Healthy n = true) (sort_slice by_id l) = Some (i, n) /\ n_NodeID n ∈ healthy_ids l
    /\ forall j, j ∈ healthy_ids l -> str_le (n_NodeID n) j.
Proof.
  intros Hn0 Hh. destruct (list_find (fun n => n_Healthy n = true) (sort_slice by_id l)) as [[i n]|] eqn:E.
  - exists i, n. apply list_find_Some in E as (El & Hn & Hmin). split; [done|]. split.
    { apply elem_of_healthy_ids. exists n. split; [|done]. by eapply elem_of_sort_slice, list_elem_of_lookup_2. }
    intros j (m & Hm & Hhm & <-)%elem_of_healthy_ids. apply (elem_of_sort_slice by_id) in Hm.
    apply list_elem_of_lookup in Hm as [k Hk].
    destruct (lt_eq_lt_dec i k) as [[Hik| ->]|Hik].
    + pose proof (sort_slice_sorted by_id l _) as Hs.
      assert (by_id m n = false) as Hle by exact (sorted_lookup _ _ i k n m Hs Hik El Hk).
      apply bool_decide_eq_false in Hle. unfold str_lt in Hle.
      by destruct (decide (str_le (n_NodeID n) (n_NodeID m))).
    + simplify_eq. done.
    + exfalso. eapply Hmin; [exact Hk| |done]. lia.
  - exfalso. apply list_find_None in E. eapply Forall_forall in E; [|by apply elem_of_sort_slice]. done.
Qed.

Lemma electLeader_spec c l n0 :
  n0 ∈ l -> n_Healthy n0 = true -> chosen (ConfiguredLeader c) (healthy_ids l) (electLeader c l).
Proof.
  intros Hn0 Hh. destruct (smallest_spec l n0 Hn0 Hh) as (i & n & E & Hin & Hmin).
  unfold chosen, electLeader. rewrite E. destruct (decide (ConfiguredLeader c <> "")) as [Hc|Hc]; simpl.
  - destruct (list_find (fun n => n_NodeID n = ConfiguredLeader c /\ n_Healthy n = true) l) as [[k m]|] eqn:Ef.
    + apply list_find_Some in Ef as (Hk & [Hid Hm] & _). apply list_elem_of_lookup_2 in Hk.
      assert (n_NodeID m ∈ healthy_ids l) by (apply elem_of_healthy_ids; eauto). split; [done|].
      rewrite decide_True; [done|]. split; [done|]. by rewrite <-Hid.
    + split; [done|]. rewrite decide_False; [done|]. intros [_ (m & Hm & Hhm & Hid)%elem_of_healthy_ids].
      apply list_find_None in Ef. eapply Forall_forall in Ef; [|exact Hm]. naive_solver.
  - split; [done|]. rewrite decide_False; [done|]. naive_solver.
Qed.

(** ** A cluster on one shared row *)

Definition state_utf8 (s : persistedState) : Prop :=
  valid_utf8 (s_LeaderID s) = true /\
  forall id n, s_Nodes s !! id = Some n ->
    valid_utf8 id = true /\ valid_utf8 (n_NodeID n) = true /\ valid_utf8 (n_Role n) = true /\
    valid_utf8 (n_Address n) = true /\ valid_utf8 (n_Version n) = true.

(** Strings that are UTF-8 survive encoding. *)
Definition json_ok : Prop :=
  forall s d, state_utf8 s -> marshal s = inr d -> d <> "" /\ unmarshal d = inr s.

Definition row_state (row : option string) (s : persistedState) : Prop := read_row row = inr s.

(** A node of an active-passive cluster on PostgreSQL. *)
Definition member (timeout : duration) (leader : string) (c : Config) : Prop :=
  Mode c = "active-passive" /\ StateBackend c <> "" /\ EqualFold (StateBackend c) "local" = false /\
  Contains (StateBackend c) "://" = true /\ isPostgresBackend (StateBackend c) = true /\
  ElectionTimeout c = timeout /\ ConfiguredLeader c = leader /\
  valid_utf8 (nodeID c) = true /\ valid_utf8 (ConfiguredRole c) = true /\
  valid_utf8 (TrimSpace (Address c)) = true /\ valid_utf8 (TrimSpace (Version c)) = true.

(** A heartbeat: the configuration of the node, the time and its health. *)
Record beat := mkBeat { b_cfg : Config; b_at : time; b_healthy : bool }.

(** Heartbeats that reached the database, oldest first. *)
Inductive ran (be : backend) : list beat -> backend -> Prop :=
| ran_nil : ran be [] be
| ran_beat l be1 k st co be2 :
    ran be l be1 -> Tick (mkCoordinator (b_cfg k) st) (b_at k) (b_healthy k) be1 = (co, be2, None) ->
    ran be (l ++ [k]) be2.

(** The last heartbeat of each node. *)
Definition last_beat (l : list beat) : gmap string (time * bool) :=
  foldl (fun m k => <[nodeID (b_cfg k) := (b_at k, b_healthy k)]> m) ∅ l.

(** The nodes whose last heartbeat is recent and healthy. *)
Definition alive (T : duration) (now : time) (l : list beat) : gset string :=
  dom (filter (fun x => x.2.2 = true /\ now - x.2.1 <= T) (last_beat l)).

Lemma last_beat_snoc l k : last_beat (l ++ [k]) = <[nodeID (b_cfg k) := (b_at k, b_healthy k)]> (last_beat l).
Proof. unfold last_beat. by rewrite foldl_app. Qed.

Lemma nodeID_nonempty c : nodeID c <> "".
Proof. unfold nodeID. by case_decide. Qed.

Lemma elem_of_activeNodes nodes now timeout n :
  n ∈ activeNodes nodes now timeout <->
  (exists id, nodes !! id = Some n) /\ n_NodeID n <> "" /\ time_Sub now (n_LastSeen n) <= timeout.
Proof.
  unfold activeNodes. rewrite list_elem_of_filter, elem_of_range, list_elem_of_fmap. split.
  - intros [Hn ([id n'] & -> & Hin%elem_of_map_to_list)]. simpl in *. split; [by exists id|]. split; [tauto|lia].
  - intros ((id & Hid) & Hne & Hle). split; [intros [?|?]; [done|lia]|]. exists (id, n). by rewrite elem_of_map_to_list.
Qed.

Lemma state_utf8_step T cl c state now h :
  member T cl c -> state_utf8 state -> state_utf8 (reconcileState c state now h).1.
Proof.
  intros Hm [Hl Hn]. unfold member in Hm.
  assert (forall id n, <[nodeID c := own_record c now h]> (s_Nodes state) !! id = Some n ->
    valid_utf8 id = true /\ valid_utf8 (n_NodeID n) = true /\ valid_utf8 (n_Role n) = true /\
    valid_utf8 (n_Address n) = true /\ valid_utf8 (n_Version n) = true) as Hnodes.
  { intros id n [[<- <-]|[_ ?]]%lookup_insert_Some; [simpl; tauto|eauto]. }
  split; simpl.
  - case_decide as E; [tauto|]. set (l := activeNodes _ _ _) in *.
    assert (exists n, n ∈ l /\ n_NodeID n = electLeader c l) as (n & Hin & <-).
    { unfold electLeader in E |- *. repeat case_match; simplify_eq; try done;
        match goal with Hf : list_find _ _ = Some (_, ?n) |- _ =>
          exists n; split; [|done]; apply list_find_Some in Hf as (Hf & _); apply list_elem_of_lookup_2 in Hf;
          by rewrite ?elem_of_sort_slice in Hf end. }
    apply elem_of_activeNodes in Hin as ((id & Hid) & _). by destruct (Hnodes id n Hid) as (_ & ? & _).
  - intros id n [Hid _]%map_lookup_filter_Some. eauto.
Qed.

Lemma row_state_Some d s : d <> "" -> unmarshal d = inr s -> row_state (Some d) s.
Proof. by destruct d. Qed.

Lemma updatePostgresState_ok io update row row' s r :
  row_state row s -> updatePostgresState io update row = (row', inr r) ->
  r = update s /\ exists d, marshal (update s).1 = inr d /\ row' = Some d.
Proof.
  intros Hr. unfold updatePostgresState. rewrite Hr.
  destruct (pg_open io), (pg_begin io), (pg_create io), (pg_lock io), (pg_query io); try done.
  destruct (update s) as [next st]. destruct (marshal next) as [e|d] eqn:Em; [done|].
  repeat (case_match; [done|]). intros [= <- <-]. eauto.
Qed.

Lemma tick_pg T cl c st now h be co be' s :
  json_ok -> member T cl c -> row_state (be_row be) s -> state_utf8 s ->
  Tick (mkCoordinator c st) now h be = (co, be', None) ->
  row_state (be_row be') (reconcileState c s now h).1 /\
  st_LeaderID (status co) = st_LeaderID (reconcileState c s now h).2 /\
  st_Role (status co) = st_Role (reconcileState c s now h).2.
Proof.
  intros Hj Hm Hrow Hu. pose proof (state_utf8_step T cl c s now h Hm Hu) as Hu'.
  destruct Hm as (Hmode & Hb & Hloc & Hc & Hpg & _). unfold Tick, reconcile. cbn [cfg].
  rewrite (decide_False (P := Mode c = "standalone" \/ Mode c = "external")) by (rewrite Hmode; intros [?|?]; done).
  rewrite bool_decide_false, Hloc, Hc, Hpg by done. cbn [orb].
  unfold reconcilePostgres.
  destruct (updatePostgresState _ _ _) as [row' [e|r]] eqn:E; [done|].
  destruct (updatePostgresState_ok _ _ _ _ s _ Hrow E) as (-> & d & Hd & ->).
  destruct (reconcileState c s now h) as [next st'] eqn:Er. simpl in *. intros [= <- <-]. simpl.
  destruct (Hj next d Hu' Hd). split; [by apply row_state_Some|done].
Qed.

(** ** What the row remembers *)

Section cluster.
Context (T : duration) (leader : string) (HT : 0 < T) (HT3 : T * 3 <= MaxInt64) (Hj : json_ok).

(** Entries of the row: the last heartbeats, and what was there before. *)
Record remembers (s0 s : persistedState) (l : list beat) : Prop := {
  rm_entries : forall id n, s_Nodes s !! id = Some n ->
    (n_NodeID n = id /\ last_beat l !! id = Some (n_LastSeen n, n_Healthy n))
    \/ (last_beat l !! id = None /\ s_Nodes s0 !! id = Some n);
  rm_recent : forall id t h, last_beat l !! id = Some (t, h) ->
    (forall k, k ∈ l -> b_at k - t <= T) ->
    exists n, s_Nodes s !! id = Some n /\ n_NodeID n = id /\ n_LastSeen n = t /\ n_Healthy n = h;
}.

Lemma timeout3 : i64 (T * 3) = T * 3.
Proof. apply i64_small. unfold MinInt64. lia. Qed.

Lemma remembers_step s0 s l k :
  ElectionTimeout (b_cfg k) = T -> remembers s0 s l ->
  remembers s0 (reconcileState (b_cfg k) s (b_at k) (b_healthy k)).1 (l ++ [k]).
Proof.
  intros HTk [R1 R2]. split; rewrite last_beat_snoc; simpl.
  - intros id n [Hid _]%map_lookup_filter_Some. apply lookup_insert_Some in Hid as [[<- <-]|[Hne Hid]].
    + left. simpl. by rewrite lookup_insert_eq.
    + rewrite lookup_insert_ne by done. auto.
  - intros id t h Hid Hrec.
    assert (exists n, <[nodeID (b_cfg k) := own_record (b_cfg k) (b_at k) (b_healthy k)]> (s_Nodes s) !! id = Some n
      /\ n_NodeID n = id /\ n_LastSeen n = t /\ n_Healthy n = h) as (n & Hn & Hfields).
    { apply lookup_insert_Some in Hid as [[<- [= <- <-]]|[Hne Hid]].
      - eexists. by rewrite lookup_insert_eq.
      - rewrite lookup_insert_ne by done. apply R2; [done|]. intros k' Hk'. apply Hrec. set_solver. }
    exists n. split; [|done]. apply map_lookup_filter_Some. split; [done|].
    rewrite HTk, timeout3. destruct Hfields as (_ & -> & _). specialize (Hrec k ltac:(set_solver)).
    unfold time_Sub, MinInt64, MaxInt64 in *. lia.
Qed.

Lemma ran_remembers be s0 l be' :
  row_state (be_row be) s0 -> state_utf8 s0 -> (forall k, k ∈ l -> member T leader (b_cfg k)) -> ran be l be' ->
  exists s, row_state (be_row be') s /\ state_utf8 s /\ remembers s0 s l.
Proof.
  intros Hrow Hu Hm Hran. induction Hran as [|l be1 k st co be2 Hran IH Ht].
  - exists s0. split; [done|]. split; [done|]. split; [intros id n Hid; by right|]. intros id t h.
    unfold last_beat. simpl. by rewrite lookup_empty.
  - destruct IH as (s & Hs & Hus & Hr); [set_solver|].
    assert (member T leader (b_cfg k)) as Hk by set_solver.
    destruct (tick_pg _ _ _ _ _ _ _ _ _ s Hj Hk Hs Hus Ht) as (Hs' & _).
    eexists. split; [exact Hs'|]. split; [by eapply state_utf8_step|]. apply remembers_step; [|done]. apply Hk.
Qed.

Lemma last_beat_nonempty l id x : last_beat l !! id = Some x -> id <> "".
Proof.
  induction l as [|k l IH] using rev_ind; [unfold last_beat; simpl; by rewrite lookup_empty|].
  rewrite last_beat_snoc. intros [[<- _]|[_ ?]]%lookup_insert_Some; [apply nodeID_nonempty|auto].
Qed.

Lemma elem_of_alive now l id :
  id ∈ alive T now l <-> exists t, last_beat l !! id = Some (t, true) /\ now - t <= T.
Proof.
  unfold alive. rewrite elem_of_dom. split.
  - intros [[t h] [Hl [Hh Ht]]%map_lookup_filter_Some]. simpl in *. subst. by exists t.
  - intros (t & Hl & Ht). exists (t, true). by apply map_lookup_filter_Some.
Qed.

(** What the row held before the run has expired at [k], for nodes that did not report. *)
Definition expired (s0 : persistedState) (l : list beat) (k : beat) : Prop :=
  forall id n, s_Nodes s0 !! id = Some n -> last_beat (l ++ [k]) !! id = None -> T < time_Sub (b_at k) (n_LastSeen n).

Lemma recent_iff now t : time_Sub now t <= T <-> now - t <= T.
Proof. unfold time_Sub, MinInt64, MaxInt64 in *. lia. Qed.

(** At a heartbeat [k], the active entries that are healthy are the nodes alive. *)
Lemma healthy_active s0 s l k :
  remembers s0 s l -> (forall k', k' ∈ l -> b_at k' <= b_at k) -> expired s0 l k ->
  healthy_ids (activeNodes (<[nodeID (b_cfg k) := own_record (b_cfg k) (b_at k) (b_healthy k)]> (s_Nodes s)) (b_at k) T)
  = alive T (b_at k) (l ++ [k]).
Proof.
  intros [R1 R2] Hmono Hold. unfold expired in Hold. rewrite last_beat_snoc in Hold.
  apply set_eq. intros id. rewrite elem_of_healthy_ids, elem_of_alive, last_beat_snoc.
  setoid_rewrite elem_of_activeNodes. setoid_rewrite recent_iff. set (me := nodeID (b_cfg k)) in *. split.
  - intros (n & ((key & Hkey) & _ & Hact) & Hh & <-). apply lookup_insert_Some in Hkey as [[<- <-]|[Hne Hkey]].
    + simpl in *. exists (b_at k). fold me. by rewrite lookup_insert_eq, Hh.
    + destruct (R1 _ _ Hkey) as [[Hid Hl]|[Hl H0']].
      * exists (n_LastSeen n). rewrite Hid, lookup_insert_ne, <-Hh by done. done.
      * specialize (Hold key n H0'). rewrite lookup_insert_ne in Hold by done. specialize (Hold Hl).
        apply recent_iff in Hact. lia.
  - intros (t & Hid & Ht).
    assert (exists n, <[me := own_record (b_cfg k) (b_at k) (b_healthy k)]> (s_Nodes s) !! id = Some n
      /\ n_NodeID n = id /\ n_LastSeen n = t /\ n_Healthy n = true) as (n & Hn & Hnid & Hls & Hh).
    { apply lookup_insert_Some in Hid as [[<- [= <- E]]|[Hne Hid]].
      - eexists. rewrite lookup_insert_eq. split; [done|]. by rewrite <-E.
      - rewrite lookup_insert_ne by done. apply R2; [done|]. intros k' Hk'. specialize (Hmono k' Hk'). lia. }
    exists n. split; [|done]. split; [by exists id|]. rewrite Hnid, Hls. split; [|done].
    apply lookup_insert_Some in Hid as [[<- _]|[_ Hid]]; [apply nodeID_nonempty|by eapply last_beat_nonempty].
Qed.
End cluster.

(** [C11] The cluster elects one leader, and fails over.  Take any sequence of heartbeats
    of active-passive coordinators on the shared PostgreSQL row, with the same election
    timeout and configured leader and clocks that do not go back, on a row whose earlier
    entries have expired.  At each heartbeat, if some node is alive (its last heartbeat
    is healthy and not older than the timeout), the reported leader is the configured
    leader when that node is alive, and otherwise the alive node with the smallest
    identifier; the node reports the role of leader exactly when it is that node.  So the
    leader depends on the set of alive nodes alone, and all nodes agree on it. *)
Theorem leader_exact (T : duration) (leader : string) (be : backend) (s0 : persistedState) (l : list beat) (k : beat)
    (st : Status) (be1 : backend) (co : Coordinator) (be2 : backend) :
  0 < T -> T * 3 <= MaxInt64 -> json_ok -> row_state (be_row be) s0 -> state_utf8 s0 ->
  (forall k', k' ∈ l ++ [k] -> member T leader (b_cfg k')) -> (forall k', k' ∈ l -> b_at k' <= b_at k) ->
  expired T s0 l k ->
  ran be l be1 -> Tick (mkCoordinator (b_cfg k) st) (b_at k) (b_healthy k) be1 = (co, be2, None) ->
  alive T (b_at k) (l ++ [k]) <> ∅ ->
  chosen leader (alive T (b_at k) (l ++ [k])) (st_LeaderID (status co)) /\
  (st_Role (status co) = "leader" <-> nodeID (b_cfg k) = st_LeaderID (status co)).
Proof.
  intros HT HT3 Hj Hrow Hu Hm Hmono Hexp Hran Htick Hne.
  destruct (ran_remembers T leader HT HT3 Hj be s0 l be1) as (s & Hs & Hus & Hr); [done..|set_solver|done|].
  assert (member T leader (b_cfg k)) as Hk by set_solver.
  destruct (tick_pg _ _ _ _ _ _ _ _ _ s Hj Hk Hs Hus Htick) as (_ & -> & ->).
  assert (ElectionTimeout (b_cfg k) = T /\ ConfiguredLeader (b_cfg k) = leader) as [HTk Hl] by (split; apply Hk).
  pose proof (healthy_active T HT HT3 s0 s l k Hr Hmono Hexp) as Ha. simpl. rewrite HTk.
  set (nodes := activeNodes _ _ _) in *.
  apply set_choose_L in Hne as [id Hid]. rewrite <-Ha in Hid. apply elem_of_healthy_ids in Hid as (n & Hn & Hh & _).
  pose proof (electLeader_spec (b_cfg k) nodes n Hn Hh) as Hc. rewrite Hl, Ha in Hc.
  rewrite decide_False.
  - split; [done|]. case_decide; naive_solver.
  - intros E. rewrite E in Hc. destruct Hc as [(t & Hlast & _)%elem_of_alive _]. by eapply last_beat_nonempty.
Qed.
End coordinator.

(** ** A concrete cluster *)

(** A codec: the bits of the number of the state. *)
Definition node_tuple (n : persistedNode) := (n_NodeID n, n_Role n, n_Address n, n_Healthy n, n_LastSeen n, n_Version n).
#[local] Instance node_eq_dec : EqDecision persistedNode.
Proof. solve_decision. Defined.
#[local] Instance node_countable : Countable persistedNode.
Proof.
  refine (inj_countable' node_tuple (fun '(a, b, c, d, e, f) => mkNode a b c d e f) _). by intros [].
Defined.
#[local] Instance state_eq_dec : EqDecision persistedState.
Proof. solve_decision. Defined.
#[local] Instance state_countable : Countable persistedState.
Proof.
  refine (inj_countable' (fun s => (s_Version s, s_UpdatedAt s, s_LeaderID s, s_Nodes s))
    (fun '(a, b, c, d) => mkState a b c d) _). by intros [].
Defined.

Fixpoint bits (p : positive) : string :=
  match p with xH => "." | xO p => String "0" (bits p) | xI p => String "1" (bits p) end.
Fixpoint of_bits (s : string) : positive :=
  match s with
  | String c s => if decide (c = "0"%char) then xO (of_bits s) else if decide (c = "1"%char) then xI (of_bits s) else xH
  | EmptyString => xH
  end.

Definition bit_marshal (s : persistedState) : string + string := inr (bits (encode s)).
Definition bit_unmarshal (s : string) : string + persistedState :=
  match decode (of_bits s) with Some s => inr s | None => inl "bad state" end.

Lemma bit_json_ok : json_ok bit_marshal bit_unmarshal.
Proof.
  intros s d _ [= <-]. assert (forall p, of_bits (bits p) = p) as E by (intros p; induction p; simpl; congruence).
  split; [by destruct (encode s)|]. unfold bit_unmarshal. by rewrite E, decode_encode.
Qed.

Definition member_cfg (id : string) : Config :=
  mkConfig "active-passive" id "leader" "" [] "postgres://db/ha" "" "" DefaultHeartbeatInterval DefaultElectionTimeout.
Definition fine : pg_calls := mkPg None None None None None None None.
Definition no_row : backend := mkBackend NotExist None (mkWrite None None None None None) fine.
Definition at_second (n : Z) : time := unix_epoch + n * Second.

Definition beat_of (id : string) (n : Z) : beat := mkBeat (member_cfg id) (at_second n) true.
Definition tick (k : beat) (b : backend) : Coordinator * backend * option string :=
  @Tick ascii_case alternating_order merge_sort_slice bit_marshal bit_unmarshal (fun s => s)
    (mkCoordinator (b_cfg k) (@standaloneStatus (b_cfg k) (b_at k) true)) (b_at k) (b_healthy k) b.

Example failover :
  let r1 := tick (beat_of "a" 0) no_row in let r2 := tick (beat_of "b" 1) r1.1.2 in let r3 := tick (beat_of "b" 60) r2.1.2 in
  ((fun r => (st_Role (status r.1.1), st_LeaderID (status r.1.1))) <$> [r1; r2; r3])
  = [("leader", "a"); ("follower", "a"); ("leader", "b")].
Proof. vm_compute. reflexivity. Qed.

Definition be1 : backend := (tick (beat_of "a" 0) no_row).1.2.
Definition be2 : backend := (tick (beat_of "b" 1) be1).1.2.

Definition be3 : backend := (tick (beat_of "b" 60) be2).1.2.
Definition co3 : Coordinator := (tick (beat_of "b" 60) be2).1.1.

Lemma sample_tick k b : (tick k b).2 = None ->
  @Tick ascii_case alternating_order merge_sort_slice bit_marshal bit_unmarshal (fun s => s)
    (mkCoordinator (b_cfg k) (@standaloneStatus (b_cfg k) (b_at k) true)) (b_at k) (b_healthy k) b
  = ((tick k b).1.1, (tick k b).1.2, None).
Proof. intros E. rewrite <-E. unfold tick. by destruct (Tick _ _ _ _ _ _ _) as [[??]?]. Qed.

Lemma sample_ran :
  @ran ascii_case alternating_order merge_sort_slice bit_marshal bit_unmarshal (fun s => s)
    no_row [beat_of "a" 0; beat_of "b" 1] be2.
Proof.
  apply (ran_beat _ _ _ no_row [beat_of "a" 0] be1 (beat_of "b" 1) (@standaloneStatus (member_cfg "b") (at_second 1) true)
    (tick (beat_of "b" 1) be1).1.1); [|apply sample_tick; vm_compute; reflexivity].
  apply (ran_beat _ _ _ no_row [] no_row (beat_of "a" 0) (@standaloneStatus (member_cfg "a") (at_second 0) true)
    (tick (beat_of "a" 0) no_row).1.1); [constructor|apply sample_tick; vm_compute; reflexivity].
Qed.

Lemma sample_member id n : id = "a" \/ id = "b" -> @member ascii_case DefaultElectionTimeout "" (b_cfg (beat_of id n)).
Proof. intros [-> | ->]; vm_compute; repeat split; discriminate. Qed.

Lemma leader_exact_witness :
  chosen "" (alive DefaultElectionTimeout (at_second 60) [beat_of "a" 0; beat_of "b" 1; beat_of "b" 60])
    (st_LeaderID (status co3))
  /\ (st_Role (status co3) = "leader" <-> "b" = st_LeaderID (status co3)).
Proof.
  apply (@leader_exact ascii_case alternating_order merge_sort_slice bit_marshal bit_unmarshal (fun s => s)
    DefaultElectionTimeout "" no_row empty_state [beat_of "a" 0; beat_of "b" 1] (beat_of "b" 60)
    (@standaloneStatus (member_cfg "b") (at_second 60) true) be2 co3 be3).
  - reflexivity.
  - vm_compute. discriminate.
  - exact bit_json_ok.
  - reflexivity.
  - split; [reflexivity|]. intros id n. simpl. by rewrite lookup_empty.
  - intros k'. simpl. rewrite !elem_of_cons, elem_of_nil. intros [-> | [-> | [-> | []]]]; apply sample_member; auto.
  - intros k'. rewrite !elem_of_cons, elem_of_nil. intros [-> | [-> | []]]; vm_compute; discriminate.
  - intros id n. simpl. by rewrite lookup_empty.
  - exact sample_ran.
  - apply (sample_tick (beat_of "b" 60)). vm_compute. reflexivity.
  - intros E. apply (not_elem_of_empty (C := gset string) "b"). rewrite <-E. apply elem_of_alive.
    exists (at_second 60). split; [vm_compute; reflexivity|vm_compute; discriminate].
Defined.

(** When no node is healthy, every node elects itself. *)
Example split_brain :
  let sick k := mkBeat (b_cfg k) (b_at k) false in
  let r1 := tick (sick (beat_of "a" 0)) no_row in let r2 := tick (sick (beat_of "b" 1)) r1.1.2 in
  ((fun r => st_Role (status r.1.1)) <$> [r1; r2]) = ["leader"; "leader"].
Proof. vm_compute. reflexivity. Qed.

(** With the file backend two nodes that read before either writes both become leader. *)
Example file_race :
  let c id := mkConfig "active-passive" id "leader" "" [] "/shared/ha.json" "" "" DefaultHeartbeatInterval DefaultElectionTimeout in
  let go id := (@reconcile ascii_case alternating_order merge_sort_slice bit_marshal bit_unmarshal (fun s => s)
                  (c id) (at_second 0) true no_row).2 in
  (match go "a", go "b" with inr s, inr s' => (st_Role s, st_Role s') | _, _ => ("", "") end) = ("leader", "leader").
Proof. vm_compute. reflexivity. Qed.
