(* ===== verification/Transport.v ===== *)
(** * Agent-to-server transport ([pkg/transport]: priority.go, hashcache.go, manager.go,
      and the framing of compress.go)

    Urgent events leave at once; the others wait in a queue, in memory or in a database
    that survives restarts, and leave as one summary.  A cache of content hashes replaces
    repeated subgraphs by heartbeats.  The database is the class [Pebble] of [KV]; JSON
    coding of events and cache entries is the class [TransportJson]; the compression
    library and the gRPC client are parameters of the manager. *)
From Stdlib Require Import Ascii.
From S2P Require Import Prelude GoStrings Sha256 KV.

(** ** Events *)

Definition PriorityLow : Z := 0.
Definition PriorityNormal : Z := 1.
Definition PriorityHigh : Z := 2.
Definition PriorityCritical : Z := 3.

Record TransportEvent := mkTEvent {
  Data : bytes; Hash : string; Priority : Z; Tainted : bool; RuleMatch : bool; Timestamp : time;
}.

Record SubgraphHash := mkSub { sub_Hash : string; SentAt : time; sub_Count : Z; IsActive : bool }.

Record SummaryEvent := mkSummaryEvent {
  sum_Count : Z; sum_FirstSeen : time; sum_LastSeen : time; HashCount : gmap string Z;
}.

(** The payload is not encoded ([json:"-"]); the other fields survive if they are UTF-8. *)
Definition without_data (e : TransportEvent) : TransportEvent :=
  mkTEvent [] (Hash e) (Priority e) (Tainted e) (RuleMatch e) (Timestamp e).

Class TransportJson := {
  marshal_event : TransportEvent -> string + bytes;
  unmarshal_event : bytes -> string + TransportEvent;
  marshal_sub : SubgraphHash -> string + bytes;
  unmarshal_sub : bytes -> string + SubgraphHash;
  event_roundtrip : forall e b, valid_utf8 (Hash e) = true -> marshal_event e = inr b ->
    unmarshal_event b = inr (without_data e);
  sub_roundtrip : forall s b, valid_utf8 (sub_Hash s) = true -> marshal_sub s = inr b -> unmarshal_sub b = inr s;
}.

Section transport.
Context `{Pebble} `{TransportJson}.

(** ** The priority pipeline *)

Record PriorityPipeline := mkPP {
  highPriority : list TransportEvent; lowPriority : list TransportEvent; lowDB : option DB; lowSeq : Z;
  processed : Z; highSent : Z; lowStaged : Z; maxDrain : Z;
}.

Definition NewPriorityPipeline : PriorityPipeline := mkPP [] [] None 0 0 0 0 10000.

Definition lowSeqKey : string := "lp:seq".
Definition lowEventKey (seq : Z) : string := "lp:" +:+ hex016 seq.

(** [binary.BigEndian]: [be_bytes 8] writes and [be_word] reads a [uint64]. *)
Definition loadSeq (pp : PriorityPipeline) : PriorityPipeline :=
  match lowDB pp with
  | None => pp
  | Some d =>
      match db_Get d lowSeqKey with
      | inr (Some data) =>
          if decide (length data = 8%nat) then
            mkPP (highPriority pp) (lowPriority pp) (lowDB pp) (be_word data) (processed pp) (highSent pp)
              (lowStaged pp) (maxDrain pp)
          else pp
      | _ => pp
      end
  end.

(** [opened]: the result of [pebble.Open]. *)
Definition NewPersistentPriorityPipeline (opened : string + DB) : string + PriorityPipeline :=
  match opened with
  | inl e => inl ("open low-priority db: " +:+ e)
  | inr d => inr (loadSeq (mkPP [] [] (Some d) 0 0 0 0 10000))
  end.

(** Errors are logged, and the event is then not stored. *)
Definition writeLowToPebbleLocked (evt : TransportEvent) (d : DB) (pp : PriorityPipeline) : PriorityPipeline :=
  let seq := u64 (lowSeq pp + 1) in
  let done d := mkPP (highPriority pp) (lowPriority pp) (Some d) seq (processed pp) (highSent pp) (lowStaged pp) (maxDrain pp) in
  match marshal_event evt with
  | inl _ => done d
  | inr data =>
      match batch_Set (lowEventKey seq) data (NewBatch d) with
      | (_, Some _) => done d
      | (b, None) =>
          match batch_Set lowSeqKey (be_bytes 8 seq) b with
          | (_, Some _) => done d
          | (b, None) => done (batch_Commit b d).1
          end
      end
  end.

Definition urgent (evt : TransportEvent) : bool := (PriorityHigh <=? Priority evt) || Tainted evt || RuleMatch evt.

Definition pp_Ingest (evt : TransportEvent) (pp : PriorityPipeline) : PriorityPipeline :=
  if urgent evt then
    mkPP (highPriority pp ++ [evt]) (lowPriority pp) (lowDB pp) (lowSeq pp) (processed pp) (i64 (highSent pp + 1))
      (lowStaged pp) (maxDrain pp)
  else
    let pp := match lowDB pp with
              | Some d => writeLowToPebbleLocked evt d pp
              | None => mkPP (highPriority pp) (lowPriority pp ++ [evt]) None (lowSeq pp) (processed pp) (highSent pp)
                          (lowStaged pp) (maxDrain pp)
              end in
    mkPP (highPriority pp) (lowPriority pp) (lowDB pp) (lowSeq pp) (processed pp) (highSent pp)
      (i64 (lowStaged pp + 1)) (maxDrain pp).

Definition DrainHigh (pp : PriorityPipeline) : PriorityPipeline * list TransportEvent :=
  (mkPP [] (lowPriority pp) (lowDB pp) (lowSeq pp) (i64 (processed pp + Z.of_nat (length (highPriority pp))))
     (highSent pp) (lowStaged pp) (maxDrain pp), highPriority pp).

(** The loop over the iterator: the events decoded and their keys. *)
Fixpoint drain_loop (max : Z) (entries : list (string * bytes)) (events : list TransportEvent) (keys : list string)
  : list TransportEvent * list string :=
  match entries with
  | [] => (events, keys)
  | (k, v) :: entries =>
      if decide (k = lowSeqKey) then drain_loop max entries events keys
      else
        match unmarshal_event v with
        | inl _ => drain_loop max entries events keys
        | inr e =>
            let events := events ++ [e] in
            let keys := keys ++ [k] in
            if max <=? Z.of_nat (length events) then (events, keys) else drain_loop max entries events keys
        end
  end.

Definition drainLowFromPebbleLocked (max : Z) (d : DB) : DB * list TransportEvent :=
  match db_Iter d "lp:" "lq:" with
  | inl _ => (d, [])
  | inr (entries, _) =>
      let '(events, keys) := drain_loop max entries [] [] in
      if decide (keys = []) then (d, events)
      else
        let b := foldl (fun b k => (batch_Delete k b).1) (NewBatch d) keys in
        ((batch_Commit b d).1, events)
  end.

Definition summarize (events : list TransportEvent) : option SummaryEvent :=
  match events with
  | [] => None
  | e :: _ =>
      Some (mkSummaryEvent (Z.of_nat (length events)) (Timestamp e) (Timestamp (List.last events e))
        (foldl (fun m e => <[Hash e := default 0 (m !! Hash e) + 1]> m) ∅ events))
  end.

Definition DrainLowSummary (pp : PriorityPipeline) : PriorityPipeline * option SummaryEvent :=
  let '(db, events) :=
    match lowDB pp with
    | Some d => let '(d, events) := drainLowFromPebbleLocked (maxDrain pp) d in (Some d, events)
    | None => (None, lowPriority pp)
    end in
  match summarize events with
  | None => (mkPP (highPriority pp) (lowPriority pp) db (lowSeq pp) (processed pp) (highSent pp) (lowStaged pp) (maxDrain pp), None)
  | Some s => (mkPP (highPriority pp) [] db (lowSeq pp) (i64 (processed pp + Z.of_nat (length events))) (highSent pp)
                (lowStaged pp) (maxDrain pp), Some s)
  end.

Definition LowQueueDepth (pp : PriorityPipeline) : Z :=
  match lowDB pp with
  | Some d =>
      match db_Iter d "lp:" "lq:" with
      | inl _ => 0
      | inr (entries, _) => Z.of_nat (length (filter (fun x => x.1 <> lowSeqKey) entries))
      end
  | None => Z.of_nat (length (lowPriority pp))
  end.

Definition pp_Close (pp : PriorityPipeline) : option string :=
  match lowDB pp with Some d => db_Close d | None => None end.

(** ** The pipeline as a queue *)

Inductive pp_op := OpIngest (e : TransportEvent) | OpDrainHigh | OpDrainLow | OpRestart.
Inductive pp_out := OutNone | OutHigh (l : list TransportEvent) | OutLow (s : option SummaryEvent).

(** A restart opens the database again. *)
Definition pp_step (o : pp_op) (pp : PriorityPipeline) : PriorityPipeline * pp_out :=
  match o with
  | OpIngest e => (pp_Ingest e pp, OutNone)
  | OpDrainHigh => let '(pp, l) := DrainHigh pp in (pp, OutHigh l)
  | OpDrainLow => let '(pp, s) := DrainLowSummary pp in (pp, OutLow s)
  | OpRestart =>
      (match lowDB pp with
       | Some d => match NewPersistentPriorityPipeline (inr d) with inr pp => pp | inl _ => pp end
       | None => NewPriorityPipeline
       end, OutNone)
  end.

Fixpoint pp_run (ops : list pp_op) (pp : PriorityPipeline) : PriorityPipeline * list pp_out :=
  match ops with
  | [] => (pp, [])
  | o :: ops => let '(pp, x) := pp_step o pp in let '(pp, xs) := pp_run ops pp in (pp, x :: xs)
  end.

(** The specification: two first-in first-out queues; a restart empties the first. *)
Definition q_step (o : pp_op) (q : list TransportEvent * list TransportEvent)
  : list TransportEvent * list TransportEvent * pp_out :=
  let '(high, low) := q in
  match o with
  | OpIngest e => if urgent e then (high ++ [e], low, OutNone) else (high, low ++ [e], OutNone)
  | OpDrainHigh => ([], low, OutHigh high)
  | OpDrainLow => (high, drop (Z.to_nat 10000) low, OutLow (summarize (take (Z.to_nat 10000) low)))
  | OpRestart => ([], low, OutNone)
  end.

Fixpoint q_run (ops : list pp_op) (q : list TransportEvent * list TransportEvent) : list pp_out :=
  match ops with
  | [] => []
  | o :: ops => let '(q, x) := q_step o q in x :: q_run ops q
  end.

(** Low events that the encoder accepts and whose hash is UTF-8. *)
Definition encodable (e : TransportEvent) : Prop :=
  urgent e = true \/ valid_utf8 (Hash e) = true /\ exists b, marshal_event e = inr b.

(** *** Keys *)

Lemma fixed_chars base w n : 2 <= base <= 16 -> Forall (fun c => byteval c <= 102) (fixed base w n).
Proof.
  intros Hb. revert n. induction w as [|w IH]; intros n; simpl; [constructor|]. apply Forall_app. split; [apply IH|].
  constructor; [|constructor]. pose proof (Z.mod_pos_bound n base). unfold byteval, byte_ascii.
  rewrite N_ascii_embedding; destruct (Z.ltb_spec (n `mod` base) 10); lia.
Qed.

Lemma lowEventKey_order i j :
  0 <= i < 2 ^ 64 -> 0 <= j < 2 ^ 64 -> str_lt (lowEventKey i) (lowEventKey j) <-> i < j.
Proof. intros Hi Hj. unfold lowEventKey, str_lt. rewrite str_le_app. destruct (hex016_order j i Hj Hi) as [-> _]. lia. Qed.

Lemma lowEventKey_inj i j : 0 <= i < 2 ^ 64 -> 0 <= j < 2 ^ 64 -> lowEventKey i = lowEventKey j -> i = j.
Proof. unfold lowEventKey. intros Hi Hj E. apply (inj (String.append "lp:")) in E. by apply (hex016_order i j). Qed.

Lemma lowEventKey_seq i : str_lt (lowEventKey i) lowSeqKey.
Proof.
  unfold lowEventKey, lowSeqKey. change "lp:seq" with ("lp:" +:+ "seq"). apply str_lt_app. unfold str_lt, str_le, hex016.
  rewrite chars_of_list. destruct (fixed 16 16 i) as [|c l] eqn:E.
  - pose proof (length_fixed 16 16 i). by rewrite E in *.
  - pose proof (fixed_chars 16 16 i ltac:(lia)) as Hc. rewrite E in Hc. inversion Hc; subst.
    change (chars "seq") with ["s"%char; "e"%char; "q"%char]. cbn [lex_leb].
    assert (byteval "s" = 115) by reflexivity. byte_cases; lia || done.
Qed.

Lemma lp_in_range x : in_range "lp:" "lq:" ("lp:" +:+ x).
Proof. split; [change "lp:" with ("lp:" +:+ "") at 1; by apply str_le_app|]. intros E. unfold str_le in E. by vm_compute in E. Qed.

(** *** The database as the image of a queue *)

Definition seq_entry (s : option Z) : list (string * bytes) :=
  match s with Some n => [(lowSeqKey, be_bytes 8 n)] | None => [] end.

Definition image (ids : list Z) (vs : list bytes) (s : option Z) : list (string * bytes) :=
  zip (lowEventKey <$> ids) vs ++ seq_entry s.

Definition key_lt (x y : string * bytes) : Prop := str_lt x.1 y.1.

#[local] Instance key_lt_anti : AntiSymm (=) key_lt.
Proof. intros x y H1 H2. exfalso. apply H2. by apply str_lt_le. Qed.

Definition ids_ok (ids : list Z) : Prop := StronglySorted Z.lt ids /\ Forall (fun i => 0 <= i < 2 ^ 64) ids.

Lemma image_sorted ids vs s : length ids = length vs -> ids_ok ids -> StronglySorted key_lt (image ids vs s).
Proof.
  intros Hl [Hs Hr]. unfold image. revert vs Hl. induction Hs as [|i ids Hs IH Hi]; intros [|v vs] Hl; try done.
  - destruct s; simpl; repeat constructor.
  - apply Forall_cons in Hr as [Hr0 Hr]. simpl. constructor; [apply IH; [done|by injection Hl]|].
    apply Forall_forall. intros [k w]. rewrite elem_of_app. intros [Hz|Hz].
    + apply elem_of_zip_l, list_elem_of_fmap in Hz as (j & -> & Hj). apply lowEventKey_order; [done|..].
      * by eapply Forall_forall in Hr.
      * by eapply Forall_forall in Hi.
    + destruct s; simpl in Hz; [|by apply elem_of_nil in Hz]. apply list_elem_of_singleton in Hz as [= -> ->].
      apply lowEventKey_seq.
Qed.

Lemma sorted_NoDup (l : list (string * bytes)) : StronglySorted key_lt l -> NoDup l.
Proof.
  induction 1 as [|x l Hs IH Hx]; constructor; [|done]. intros Hin. eapply Forall_forall in Hx; [|exact Hin].
  apply Hx. apply str_le_refl.
Qed.

Lemma iter_image d ids vs s l :
  length ids = length vs -> ids_ok ids -> (forall k v, db_entries d !! k = Some v <-> (k, v) ∈ image ids vs s) ->
  db_Iter d "lp:" "lq:" = inr (l, None) -> l = image ids vs s.
Proof.
  intros Hl Hok Hd Hi. pose proof (image_sorted ids vs s Hl Hok) as Hs.
  assert (StronglySorted key_lt l) as Hs'.
  { pose proof (db_Iter_sorted _ _ _ _ Hi) as Hf. clear -Hf. induction l as [|x l IH]; [constructor|].
    simpl in Hf. inversion Hf as [|?? H1 H2]; subst. constructor; [auto|]. by rewrite Forall_fmap in H2. }
  eapply (StronglySorted_unique key_lt); [done..|]. apply NoDup_Permutation; [by apply sorted_NoDup..|].
  intros [k v]. rewrite (db_Iter_elem _ _ _ _ Hi), Hd. split; [tauto|]. intros Hin. split; [done|].
  unfold image in Hin. apply elem_of_app in Hin as [Hz|Hz].
  - apply elem_of_zip_l, list_elem_of_fmap in Hz as (j & -> & _). apply lp_in_range.
  - destruct s; simpl in Hz; [|by apply elem_of_nil in Hz]. apply list_elem_of_singleton in Hz as [= -> ->].
    apply (lp_in_range "seq").
Qed.

Lemma drain_loop_spec max ids vs es s events keys :
  0 < max -> Z.of_nat (length events) < max -> Forall2 (fun e v => unmarshal_event v = inr e) es vs ->
  length ids = length vs ->
  drain_loop max (image ids vs s) events keys =
  (let n := Z.to_nat (max - Z.of_nat (length events)) in
   (events ++ take n es, keys ++ take n (lowEventKey <$> ids))).
Proof.
  intros Hm Hlt Hf. revert ids events keys Hlt.
  induction Hf as [|e v es vs He Hf IH]; intros [|i ids] events keys Hlt Hl; try done.
  - cbv zeta. simpl fmap. rewrite !take_nil, !app_nil_r. destruct s; simpl; done.
  - injection Hl as Hl. unfold image. cbn [fmap list_fmap zip zip_with app drain_loop]. 
    rewrite decide_False by (intros E; pose proof (lowEventKey_seq i) as Hk; rewrite E in Hk; apply Hk, str_le_refl).
    rewrite He. cbv zeta. rewrite length_app. simpl length.
    destruct (Z.leb_spec max (Z.of_nat (length events + 1))) as [Hge|Hgo].
    + replace (Z.to_nat (max - Z.of_nat (length events))) with 1%nat by lia. done.
    + fold (image ids vs s). rewrite IH by (rewrite ?length_app; simpl; lia || done). cbv zeta. rewrite length_app. simpl length.
      replace (Z.to_nat (max - Z.of_nat (length events))) with (S (Z.to_nat (max - Z.of_nat (length events + 1)))) by lia.
      rewrite <-!app_assoc. done.
Qed.

(** *** The representation *)

Definition accepted (e : TransportEvent) (v : bytes) : Prop := valid_utf8 (Hash e) = true /\ marshal_event e = inr v.

Record holds (pp : PriorityPipeline) (high low : list TransportEvent) (ids : list Z) (vs : list bytes) (s : option Z)
    (d : DB) : Prop := {
  h_db : lowDB pp = Some d;
  h_high : highPriority pp = high;
  h_max : maxDrain pp = 10000;
  h_vals : Forall2 accepted low vs;
  h_len : length ids = length vs;
  h_sorted : StronglySorted Z.lt ids;
  h_ids : Forall (fun i => 0 <= i <= default 0 s) ids;
  h_seq : 0 <= default 0 s <= lowSeq pp;
  h_entries : forall k v, db_entries d !! k = Some v <-> (k, v) ∈ image ids vs s;
}.

Definition represents (pp : PriorityPipeline) (q : list TransportEvent * list TransportEvent) : Prop :=
  exists ids vs s d, holds pp q.1 q.2 ids vs s d.

Lemma ids_bounded ids n : n < 2 ^ 64 -> StronglySorted Z.lt ids -> Forall (fun i => 0 <= i <= n) ids -> ids_ok ids.
Proof. intros Hn Hs Hi. split; [done|]. eapply Forall_impl; [exact Hi|]. simpl. lia. Qed.

Lemma be_word_bytes n : 0 <= n < 2 ^ 64 -> be_word (be_bytes 8 n) = n.
Proof.
  intros Hn. unfold be_bytes. change (reverse (seqZ 0 (Z.of_nat 8))) with [7; 6; 5; 4; 3; 2; 1; 0].
  unfold be_word. cbn [fmap list_fmap foldl]. 
  rewrite !Z.shiftr_div_pow2 by lia. change 0xff with (Z.ones 8). rewrite !Z.land_ones by lia.
  cbn [Z.mul]. change (2 ^ 8) with 256.
  Z.to_euclidean_division_equations. lia.
Qed.

Section reliable.
Context (Hrel : reliable).

Lemma deletes_lookup keys (m : gmap string bytes) k :
  apply_ops ((fun k => (k, None)) <$> keys) m !! k = if decide (k ∈ keys) then None else m !! k.
Proof.
  unfold apply_ops. revert m. induction keys as [|x keys IH]; intros m; [done|]. cbn [fmap list_fmap foldl].
  rewrite IH. unfold apply_op. simpl. destruct (decide (k = x)) as [->|Hne].
  - rewrite lookup_delete_eq, (decide_True (P := x ∈ x :: keys)) by left. by case_decide.
  - rewrite lookup_delete_ne by done. do 2 case_decide; set_solver.
Qed.

Lemma batch_deletes d keys :
  batch_ops (foldl (fun b k => (batch_Delete k b).1) (NewBatch d) keys) = (fun k => (k, None)) <$> keys.
Proof.
  induction keys as [|k keys IH] using rev_ind; simpl; [apply new_plain_batch_ops|].
  rewrite foldl_app, fmap_app. simpl. rewrite <-IH. apply batch_Delete_ops.
  rewrite (surjective_pairing (batch_Delete k _)). f_equal. apply (ok_Delete Hrel).
Qed.

Lemma commit_entries b d : db_entries (batch_Commit b d).1 = apply_ops (batch_ops b) (db_entries d).
Proof.
  apply batch_Commit_entries. rewrite (surjective_pairing (batch_Commit b d)). f_equal. apply (ok_Commit Hrel).
Qed.

Lemma batch_Set_fst k v b : batch_Set k v b = ((batch_Set k v b).1, None).
Proof. rewrite (surjective_pairing (batch_Set k v b)) at 1. f_equal. apply (ok_Set Hrel). Qed.

Lemma write_low e v d pp :
  marshal_event e = inr v -> lowSeq pp + 1 < 2 ^ 64 -> 0 <= lowSeq pp ->
  exists d', writeLowToPebbleLocked e d pp =
    mkPP (highPriority pp) (lowPriority pp) (Some d') (lowSeq pp + 1) (processed pp) (highSent pp) (lowStaged pp) (maxDrain pp)
  /\ db_entries d' = <[lowSeqKey := be_bytes 8 (lowSeq pp + 1)]> (<[lowEventKey (lowSeq pp + 1) := v]> (db_entries d)).
Proof.
  intros Hm Hlt Hpos. unfold writeLowToPebbleLocked. rewrite Hm, u64_small by lia.
  rewrite batch_Set_fst. rewrite (batch_Set_fst lowSeqKey). eexists. split; [done|].
  rewrite commit_entries. rewrite (batch_Set_ops _ _ _ _ (batch_Set_fst _ _ _)).
  rewrite (batch_Set_ops _ _ _ _ (batch_Set_fst _ _ _)), new_plain_batch_ops. done.
Qed.

Lemma ingest_low pp high low ids vs s d e v :
  urgent e = false -> accepted e v -> lowSeq pp + 1 < 2 ^ 64 -> holds pp high low ids vs s d ->
  exists d', holds (pp_Ingest e pp) high (low ++ [e]) (ids ++ [lowSeq pp + 1]) (vs ++ [v]) (Some (lowSeq pp + 1)) d'
    /\ lowSeq (pp_Ingest e pp) = lowSeq pp + 1.
Proof.
  intros Hu [Hutf Hm] Hlt [P1 P2 P3 P4 P5 P6 P7 P8 P9].
  destruct (write_low e v d pp Hm Hlt ltac:(lia)) as (d' & Hw & Hd). unfold pp_Ingest. rewrite Hu, P1, Hw.
  exists d'. split; [|done]. split; simpl; try done.
  - apply Forall2_app; [done|]. by repeat constructor.
  - rewrite !length_app. simpl. lia.
  - clear -P6 P7 P8. induction P6 as [|i ids Hs IH Hi]; simpl; [repeat constructor|].
    apply Forall_cons in P7 as [? P7]. constructor; [auto|]. apply Forall_app. split; [done|]. constructor; [lia|constructor].
  - apply Forall_app. split; [|repeat constructor; lia]. eapply Forall_impl; [exact P7|]. simpl. lia.
  - lia.
  - assert (lowEventKey (lowSeq pp + 1) <> lowSeqKey) as Hne.
    { intros E. pose proof (lowEventKey_seq (lowSeq pp + 1)) as Hk. rewrite E in Hk. apply Hk, str_le_refl. }
    assert (forall k w, (k, w) ∈ zip (lowEventKey <$> ids) vs -> k <> lowSeqKey /\ k <> lowEventKey (lowSeq pp + 1)) as Hfresh.
    { intros k w Hz. apply elem_of_zip_l, list_elem_of_fmap in Hz as (j & -> & Hj).
      eapply Forall_forall in P7; [|exact Hj]. simpl in P7. split.
      - intros E. pose proof (lowEventKey_seq j) as Hk. rewrite E in Hk. apply Hk, str_le_refl.
      - intros E. apply lowEventKey_inj in E; lia. }
    intros k w. rewrite Hd, !lookup_insert_Some, P9. unfold image. simpl.
    rewrite fmap_app, zip_with_app by (by rewrite length_fmap). rewrite !elem_of_app. simpl.
    rewrite !list_elem_of_singleton. specialize (Hfresh k w). destruct s as [s|]; simpl; rewrite ?list_elem_of_singleton, ?elem_of_nil; 
    naive_solver.
Qed.

Lemma zip_take_drop {A B} n (l : list A) (k : list B) :
  zip l k = zip (take n l) (take n k) ++ zip (drop n l) (drop n k).
Proof. revert l k. induction n as [|n IH]; intros [|x l] [|y k]; simpl; try done. { by rewrite zip_with_nil_r. } by rewrite IH. Qed.

(** Removing the first [n] events. *)
Lemma image_delete n ids vs s d d' :
  length ids = length vs -> ids_ok ids -> (forall k v, db_entries d !! k = Some v <-> (k, v) ∈ image ids vs s) ->
  db_entries d' = apply_ops ((fun k => (k, None)) <$> take n (lowEventKey <$> ids)) (db_entries d) ->
  forall k v, db_entries d' !! k = Some v <-> (k, v) ∈ image (drop n ids) (drop n vs) s.
Proof.
  intros Hl Hok Hd Hd' k v. rewrite Hd', deletes_lookup.
  pose proof (image_sorted ids vs s Hl Hok) as Hs.
  unfold image in *. rewrite (zip_take_drop n), <-app_assoc in Hs. rewrite (zip_take_drop n) in Hd.
  rewrite <-fmap_drop in Hs, Hd. rewrite fmap_take in *.
  assert (forall x, (x ∈ take n (lowEventKey <$> ids) -> exists w, (x, w) ∈ zip (take n (lowEventKey <$> ids)) (take n vs))) as Hw.
  { intros x Hx. apply list_elem_of_lookup in Hx as [i Hi].
    assert (i < length (take n vs))%nat as Hlt.
    { apply lookup_lt_Some in Hi. rewrite length_take, length_fmap in Hi. rewrite length_take. lia. }
    apply lookup_lt_is_Some in Hlt as [w Hw]. exists w. eapply list_elem_of_lookup_2, lookup_zip_with_Some. eauto. }
  case_decide as Hin.
  - split; [done|]. intros Hkv. exfalso. destruct (Hw k Hin) as [w Hkw].
    apply (StronglySorted_app_1_elem_of _ _ _ _ _ Hs Hkw Hkv), str_le_refl.
  - rewrite Hd, <-app_assoc, !elem_of_app. split; [|tauto]. intros [Hz|?]; [|done].
    by apply elem_of_zip_l in Hz.
Qed.

Lemma last_fmap {A B} (f : A -> B) l d : List.last (f <$> l) (f d) = f (List.last l d).
Proof. induction l as [|x [|y l] IH]; [done..|]. exact IH. Qed.

Lemma summarize_without_data l : summarize (without_data <$> l) = summarize l.
Proof.
  destruct l as [|e l]; [done|]. change (without_data <$> e :: l) with (without_data e :: (without_data <$> l)).
  unfold summarize. change (without_data e :: (without_data <$> l)) with (without_data <$> e :: l).
  rewrite length_fmap, last_fmap. f_equal. f_equal.
  generalize (∅ : gmap string Z). generalize (e :: l).
  intros k. induction k as [|x k IH]; intros m; simpl; [done|]. apply IH.
Qed.

Lemma Forall2_decoded low vs :
  Forall2 accepted low vs -> Forall2 (fun e v => unmarshal_event v = inr e) (without_data <$> low) vs.
Proof. induction 1 as [|e v low vs [Hu Hm] Hf IH]; simpl; constructor; [by eapply event_roundtrip|done]. Qed.

Lemma summarize_nil l : summarize l = None -> l = [].
Proof. by destruct l. Qed.

Lemma sorted_drop n ids : StronglySorted Z.lt ids -> StronglySorted Z.lt (drop n ids).
Proof. intros Hs. rewrite <-(take_drop n ids) in Hs. by eapply StronglySorted_app_1_r. Qed.

Lemma drain_db high low ids vs s d pp :
  lowSeq pp < 2 ^ 64 -> holds pp high low ids vs s d ->
  exists d', drainLowFromPebbleLocked 10000 d = (d', without_data <$> take (Z.to_nat 10000) low)
    /\ forall k v, db_entries d' !! k = Some v <-> (k, v) ∈ image (drop (Z.to_nat 10000) ids) (drop (Z.to_nat 10000) vs) s.
Proof.
  intros Hlt [P1 P2 P3 P4 P5 P6 P7 P8 P9].
  assert (ids_ok ids) as Hok by (eapply (ids_bounded _ (default 0 s)); [lia|done..]).
  destruct (ok_Iter Hrel d "lp:" "lq:") as [l Hl]. unfold drainLowFromPebbleLocked. rewrite Hl.
  rewrite (iter_image d ids vs s l) by done.
  rewrite (drain_loop_spec 10000 ids vs (without_data <$> low) s [] []) by (try apply Forall2_decoded; done).
  cbn [length app]. change (10000 - Z.of_nat 0) with 10000.
  rewrite <-(fmap_take without_data _ low).
  case_decide as Hk.
  - exists d. split; [done|]. intros k v. rewrite P9.
    assert (ids = []) as Hi.
    { destruct ids; [done|]. apply (f_equal length) in Hk. rewrite length_take, length_fmap in Hk. simpl length in Hk. lia. }
    subst. destruct vs; [|done]. by rewrite !drop_nil.
  - eexists. split; [done|]. eapply image_delete; [done..|]. by rewrite commit_entries, batch_deletes.
Qed.

Lemma drain_low high low ids vs s d pp :
  lowSeq pp < 2 ^ 64 -> holds pp high low ids vs s d ->
  (DrainLowSummary pp).2 = summarize (take (Z.to_nat 10000) low) /\ lowSeq (DrainLowSummary pp).1 = lowSeq pp /\
  represents (DrainLowSummary pp).1 (high, drop (Z.to_nat 10000) low).
Proof.
  intros Hlt Hh. destruct (drain_db high low ids vs s d pp Hlt Hh) as (d' & Hd & He).
  destruct Hh as [P1 P2 P3 P4 P5 P6 P7 P8 P9].
  assert (forall lp pr, holds (mkPP (highPriority pp) lp (Some d') (lowSeq pp) pr (highSent pp) (lowStaged pp) (maxDrain pp))
    high (drop (Z.to_nat 10000) low) (drop (Z.to_nat 10000) ids) (drop (Z.to_nat 10000) vs) s d') as Hnew.
  { intros lp pr. split; cbn [lowDB highPriority maxDrain lowSeq]; try done.
    - by apply Forall2_drop.
    - by rewrite !length_drop, P5.
    - by apply sorted_drop.
    - by apply Forall_drop. }
  unfold DrainLowSummary. rewrite P3 in Hnew. rewrite P1, P3, Hd, summarize_without_data.
  destruct (summarize _) as [x|]; (split; [done|]); (split; [done|]); eexists _, _, _, _; apply Hnew.
Qed.

Lemma restart high low ids vs s d pp :
  lowSeq pp < 2 ^ 64 -> holds pp high low ids vs s d ->
  exists pp', NewPersistentPriorityPipeline (inr d) = inr pp' /\ holds pp' [] low ids vs s d /\ lowSeq pp' <= lowSeq pp.
Proof.
  intros Hlt [P1 P2 P3 P4 P5 P6 P7 P8 P9]. simpl. unfold loadSeq. simpl.
  destruct (ok_Get Hrel d lowSeqKey) as [v Hv]. rewrite Hv. apply db_Get_entries in Hv. subst v.
  assert (db_entries d !! lowSeqKey = be_bytes 8 <$> s) as ->.
  { destruct s as [n|]; simpl.
    - apply P9. unfold image. apply elem_of_app. right. simpl. by apply list_elem_of_singleton.
    - destruct (db_entries d !! lowSeqKey) as [w|] eqn:E; [|done]. exfalso. apply P9 in E. unfold image in E.
      rewrite app_nil_r in E. apply elem_of_zip_l, list_elem_of_fmap in E as (j & E & _).
      pose proof (lowEventKey_seq j) as Hk. rewrite <-E in Hk. apply Hk, str_le_refl. }
  eexists. split; [done|]. destruct s as [n|]; simpl in *.
  - change (be_word _) with (be_word (be_bytes 8 n)). rewrite be_word_bytes by lia. split; [|simpl; lia].
    split; simpl; done || lia.
  - split; [|lia]. by split.
Qed.

Lemma pp_step_spec o pp q :
  represents pp q -> lowSeq pp + 1 < 2 ^ 64 -> (forall e, o = OpIngest e -> encodable e) ->
  (pp_step o pp).2 = (q_step o q).2 /\ represents (pp_step o pp).1 (q_step o q).1 /\ lowSeq (pp_step o pp).1 <= lowSeq pp + 1.
Proof.
  intros (ids & vs & s & d & Hh) Hlt Ho. destruct q as [high low]. simpl in Hh. destruct o as [e| | |]; simpl.
  - split; [by destruct (urgent e)|]. specialize (Ho e eq_refl). destruct (urgent e) eqn:Hu.
    + unfold pp_Ingest. rewrite Hu. simpl. split; [|lia]. exists ids, vs, s, d. destruct Hh. split; simpl; try done. congruence.
    + destruct Ho as [?|[Hv [v Hm]]]; [congruence|].
      destruct (ingest_low pp high low ids vs s d e v Hu (conj Hv Hm) Hlt Hh) as (d' & Hh' & Hs). rewrite Hs.
      split; [|lia]. by repeat eexists; apply Hh'.
  - split; [by rewrite (h_high _ _ _ _ _ _ _ Hh)|]. split; [|lia]. exists ids, vs, s, d. destruct Hh. by split.
  - destruct (drain_low high low ids vs s d pp ltac:(lia) Hh) as (H2 & H3 & H4).
    destruct (DrainLowSummary pp) as [pp' x]. simpl in *. subst x. split; [done|]. split; [done|lia].
  - rewrite (h_db _ _ _ _ _ _ _ Hh). destruct (restart high low ids vs s d pp ltac:(lia) Hh) as (pp' & Hn & Hh' & Hs).
    simpl in Hn. injection Hn as <-. split; [done|]. split; [by exists ids, vs, s, d|lia].
Qed.

Lemma pp_run_spec ops pp q :
  represents pp q -> lowSeq pp + Z.of_nat (length ops) < 2 ^ 64 -> (forall e, OpIngest e ∈ ops -> encodable e) ->
  (pp_run ops pp).2 = q_run ops q.
Proof.
  revert pp q. induction ops as [|o ops IH]; intros pp q Hr Hlt He; simpl; [done|]. simpl length in Hlt.
  destruct (pp_step_spec o pp q Hr) as (H2 & H3 & H4); [lia|intros e ->; apply He; left|].
  destruct (pp_step o pp) as [pp' x], (q_step o q) as [q' y]. simpl in *. subst y.
  specialize (IH pp' q' H3 ltac:(lia)). destruct (pp_run ops pp') as [pp2 xs]. simpl in *.
  rewrite IH; [done|]. intros e Hin. apply He. by right.
Qed.
End reliable.

(** [C27] The priority pipeline with a database implements two first-in first-out queues.
    On a database that starts empty and does not fail, for any sequence of arriving
    events, drains of the urgent queue, summaries of the other queue and restarts of the
    agent (fewer than 2^64 of them, with events the JSON encoder accepts), every result
    is that of the queues: urgent events come out once, in order of arrival; the others
    are counted in summaries of at most 10000 events, oldest first, each exactly once,
    and a restart loses none of them. *)
Theorem priority_refines d ops pp :
  reliable -> db_entries d = ∅ -> NewPersistentPriorityPipeline (inr d) = inr pp ->
  Z.of_nat (length ops) < 2 ^ 64 -> (forall e, OpIngest e ∈ ops -> encodable e) ->
  (pp_run ops pp).2 = q_run ops ([], []).
Proof.
  intros Hrel Hd Hn Hlt He. assert (pp = mkPP [] [] (Some d) 0 0 0 0 10000) as ->.
  { simpl in Hn. injection Hn as <-. unfold loadSeq. simpl. destruct (ok_Get Hrel d lowSeqKey) as [v Hv]. rewrite Hv.
    apply db_Get_entries in Hv. rewrite Hd, lookup_empty in Hv. by subst. }
  apply pp_run_spec; [done| |simpl; lia|done]. exists [], [], None, d. split; simpl; try done; try lia; try (by constructor).
  intros k v. rewrite Hd, lookup_empty. unfold image. simpl. rewrite elem_of_nil. done.
Qed.

(** ** The hash cache *)

Context `{MapOrder}.

Record HashCache := mkHC { hashes : gmap string SubgraphHash; hc_db : option DB; hits : Z; savings : Z }.

Definition NewHashCache : HashCache := mkHC ∅ None 0 0.

Definition hc_key (h : string) : string := "hc:" +:+ h.

(** Entries that do not decode are skipped. *)
Definition load_entry (m : gmap string SubgraphHash) (x : string * bytes) : gmap string SubgraphHash :=
  match unmarshal_sub x.2 with inl _ => m | inr s => <[sub_Hash s := s]> m end.

Definition loadFromDisk (hc : HashCache) : HashCache * option string :=
  match hc_db hc with
  | None => (hc, None)
  | Some d =>
      match db_Iter d "hc:" "hd:" with
      | inl e => (hc, Some e)
      | inr (l, err) => (mkHC (foldl load_entry (hashes hc) l) (hc_db hc) (hits hc) (savings hc), err)
      end
  end.

(** A load error is logged. *)
Definition NewPersistentHashCache (opened : string + DB) : string + HashCache :=
  match opened with
  | inl e => inl e
  | inr d => inr (loadFromDisk (mkHC ∅ (Some d) 0 0)).1
  end.

Definition persistEntryLocked (s : SubgraphHash) (hc : HashCache) : HashCache :=
  match hc_db hc with
  | None => hc
  | Some d =>
      match marshal_sub s with
      | inl _ => hc
      | inr data => mkHC (hashes hc) (Some (db_Set (hc_key (sub_Hash s)) data d).1) (hits hc) (savings hc)
      end
  end.

(** [now]: the result of [time.Now]. *)
Definition ShouldTransmit (h : string) (now : time) (hc : HashCache) : HashCache * bool :=
  match hashes hc !! h with
  | None =>
      let s := mkSub h now 1 true in
      (persistEntryLocked s (mkHC (<[h := s]> (hashes hc)) (hc_db hc) (hits hc) (savings hc)), true)
  | Some old =>
      let s := mkSub (sub_Hash old) now (i64 (sub_Count old + 1)) true in
      let hc := persistEntryLocked s (mkHC (<[h := s]> (hashes hc)) (hc_db hc) (hits hc) (savings hc)) in
      (mkHC (hashes hc) (hc_db hc) (i64 (hits hc + 1)) (i64 (savings hc + 1024)), false)
  end.

Record HeartbeatMessage := mkHeartbeat { hb_Hash : string; hb_Count : Z; hb_Timestamp : time; hb_Type : string }.

Definition NewHeartbeat (h : string) (now : time) (hc : HashCache) : option HeartbeatMessage :=
  match hashes hc !! h with
  | Some s => Some (mkHeartbeat h (sub_Count s) now "heartbeat")
  | None => None
  end.

Definition clean_entry (cutoff : time) (x : HashCache * Z) (e : string * SubgraphHash) : HashCache * Z :=
  let '(hc, removed) := x in
  if time_Before (SentAt e.2) cutoff then
    (mkHC (delete e.1 (hashes hc))
       (match hc_db hc with Some d => Some (db_Delete (hc_key e.1) d).1 | None => None end) (hits hc) (savings hc),
     removed + 1)
  else (hc, removed).

Definition CleanStale (maxAge : duration) (now : time) (hc : HashCache) : HashCache * Z :=
  foldl (clean_entry (time_Add now (- maxAge))) (hc, 0) (range 0 (map_to_list (hashes hc))).

Fixpoint flush_entries (l : list (string * SubgraphHash)) (b : Batch) : string + Batch :=
  match l with
  | [] => inr b
  | (h, s) :: l =>
      match marshal_sub s with
      | inl e => inl e
      | inr data =>
          match batch_Set (hc_key h) data b with
          | (_, Some e) => inl e
          | (b, None) => flush_entries l b
          end
      end
  end.

Definition FlushToDisk (hc : HashCache) : HashCache * option string :=
  match hc_db hc with
  | None => (hc, None)
  | Some d =>
      if decide (hashes hc = ∅) then (hc, None)
      else
        match flush_entries (range 0 (map_to_list (hashes hc))) (NewBatch d) with
        | inl e => (hc, Some e)
        | inr b => let '(d, err) := batch_Commit b d in (mkHC (hashes hc) (Some d) (hits hc) (savings hc), err)
        end
  end.

(** The background loop flushes once more before the database is closed. *)
Definition hc_Close (hc : HashCache) : HashCache * option string :=
  match hc_db hc with
  | None => (hc, None)
  | Some _ =>
      match FlushToDisk (FlushToDisk hc).1 with
      | (hc, Some e) => (hc, Some e)
      | (hc, None) => (hc, match hc_db hc with Some d => db_Close d | None => None end)
      end
  end.

(** *** The cache as a map that survives restarts *)

Inductive hc_op := HSend (h : string) (now : time) | HClean (maxAge : duration) (now : time) | HFlush | HRestart.
Inductive hc_out := HTransmit (b : bool) | HRemoved (n : Z) | HNone.

Definition hc_step (o : hc_op) (hc : HashCache) : HashCache * hc_out :=
  match o with
  | HSend h now => let '(hc, b) := ShouldTransmit h now hc in (hc, HTransmit b)
  | HClean maxAge now => let '(hc, n) := CleanStale maxAge now hc in (hc, HRemoved n)
  | HFlush => ((FlushToDisk hc).1, HNone)
  | HRestart =>
      (match hc_db hc with
       | Some d => match NewPersistentHashCache (inr d) with inr hc => hc | inl _ => hc end
       | None => NewHashCache
       end, HNone)
  end.

Fixpoint hc_run (ops : list hc_op) (hc : HashCache) : list hc_out :=
  match ops with [] => [] | o :: ops => let '(hc, x) := hc_step o hc in x :: hc_run ops hc end.

(** The specification: when each known hash was last sent. *)
Definition sent_step (o : hc_op) (m : gmap string time) : gmap string time * hc_out :=
  match o with
  | HSend h now => (<[h := now]> m, HTransmit (bool_decide (m !! h = None)))
  | HClean maxAge now =>
      (filter (fun x => now - maxAge <= x.2) m, HRemoved (Z.of_nat (size (filter (fun x => x.2 < now - maxAge) m))))
  | HFlush | HRestart => (m, HNone)
  end.

Fixpoint sent_run (ops : list hc_op) (m : gmap string time) : list hc_out :=
  match ops with [] => [] | o :: ops => let '(m, x) := sent_step o m in x :: sent_run ops m end.

Definition sub_ok (s : SubgraphHash) : Prop := valid_utf8 (sub_Hash s) = true /\ exists b, marshal_sub s = inr b.

(** The hashes sent can be encoded, with any count. *)
Definition hc_encodable (ops : list hc_op) : Prop :=
  forall h now n, HSend h now ∈ ops -> sub_ok (mkSub h now n true).

(** Memory, disk and specification agree. *)
Record agrees (m : gmap string time) (hc : HashCache) (d : DB) : Prop := {
  a_db : hc_db hc = Some d;
  a_sent : SentAt <$> hashes hc = m;
  a_key : forall h s, hashes hc !! h = Some s -> sub_Hash s = h /\ sub_ok s;
  a_disk : forall k v, db_entries d !! k = Some v <->
    exists h s, k = hc_key h /\ hashes hc !! h = Some s /\ marshal_sub s = inr v;
}.

Lemma hc_key_inj h h' : hc_key h = hc_key h' -> h = h'.
Proof. apply (inj (String.append "hc:")). Qed.

Lemma db_Set_ok (Hrel : reliable) k v d : db_entries (db_Set k v d).1 = <[k := v]> (db_entries d).
Proof. apply db_Set_entries. rewrite (surjective_pairing (db_Set k v d)). f_equal. apply (ok_db_Set Hrel). Qed.

Lemma db_Delete_ok (Hrel : reliable) k d : db_entries (db_Delete k d).1 = delete k (db_entries d).
Proof. apply db_Delete_entries. rewrite (surjective_pairing (db_Delete k d)). f_equal. apply (ok_db_Delete Hrel). Qed.

Section cache.
Context (Hrel : reliable).

(** Recording an entry in memory and on disk. *)
Lemma agrees_put m hc d h s :
  agrees m hc d -> sub_Hash s = h -> sub_ok s ->
  exists d', agrees (<[h := SentAt s]> m) (persistEntryLocked s (mkHC (<[h := s]> (hashes hc)) (hc_db hc) (hits hc) (savings hc))) d'.
Proof.
  intros [A1 A2 A3 A4] Hh Hs. destruct Hs as [Hu [b Hb]]. unfold persistEntryLocked. simpl. rewrite A1, Hb.
  eexists. split; simpl; [done|..].
  - by rewrite fmap_insert, A2.
  - intros h' s' [[<- <-]|[_ ?]]%lookup_insert_Some; [split; [done|]; split; [done|by exists b]|eauto].
  - intros k v. rewrite (db_Set_ok Hrel), lookup_insert_Some, Hh. split.
    + intros [[<- <-]|[Hne Hv]]; [exists h, s; by rewrite lookup_insert_eq|].
      apply A4 in Hv as (h' & s' & -> & Hl & Hm). exists h', s'. rewrite lookup_insert_ne; [done|]. by intros ->.
    + intros (h' & s' & -> & [[<- <-]|[Hne Hl]]%lookup_insert_Some & Hm).
      * left. split; [done|congruence].
      * right. split; [intros E; by apply hc_key_inj in E|]. apply A4. eauto.
Qed.

Lemma send_agrees m hc d h now :
  agrees m hc d -> (forall n, sub_ok (mkSub h now n true)) ->
  (ShouldTransmit h now hc).2 = bool_decide (m !! h = None) /\
  exists d', agrees (<[h := now]> m) (ShouldTransmit h now hc).1 d'.
Proof.
  intros Ha Hok. unfold ShouldTransmit. rewrite <-(a_sent _ _ _ Ha), lookup_fmap.
  destruct (hashes hc !! h) as [old|] eqn:E; simpl.
  - split; [done|]. destruct (a_key _ _ _ Ha h old E) as [Hk _].
    destruct (agrees_put m hc d h (mkSub (sub_Hash old) now (i64 (sub_Count old + 1)) true) Ha) as (d' & A);
      [done|rewrite Hk; apply Hok|].
    rewrite (a_sent _ _ _ Ha). exists d'. destruct A. by split.
  - split; [done|]. rewrite (a_sent _ _ _ Ha).
    by apply (agrees_put m hc d h (mkSub h now 1 true)).
Qed.

Lemma agrees_delete m hc d h :
  agrees m hc d ->
  agrees (delete h m) (mkHC (delete h (hashes hc)) (Some (db_Delete (hc_key h) d).1) (hits hc) (savings hc))
    (db_Delete (hc_key h) d).1.
Proof.
  intros [A1 A2 A3 A4]. split; simpl; [done|..].
  - by rewrite fmap_delete, A2.
  - intros h' s' [_ ?]%lookup_delete_Some. eauto.
  - intros k v. rewrite (db_Delete_ok Hrel), lookup_delete_Some, A4. split.
    + intros (Hne & h' & s & -> & Hl & Hm). exists h', s. rewrite lookup_delete_ne; [done|]. by intros ->.
    + intros (h' & s & -> & [Hne Hl]%lookup_delete_Some & Hm). split; [|eauto]. intros E. by apply hc_key_inj in E.
Qed.

Definition stale (cutoff : time) (x : string * SubgraphHash) : Prop := SentAt x.2 < cutoff.
#[local] Instance stale_dec cutoff x : Decision (stale cutoff x).
Proof. unfold stale. apply _. Defined.

Lemma clean_loop cutoff l m hc d n :
  agrees m hc d ->
  exists d', agrees (foldr delete m (reverse (filter (stale cutoff) l).*1)) (foldl (clean_entry cutoff) (hc, n) l).1 d'
    /\ (foldl (clean_entry cutoff) (hc, n) l).2 = n + Z.of_nat (length (filter (stale cutoff) l)).
Proof.
  revert m hc d n. induction l as [|[h s] l IH]; intros m hc d n Ha; simpl.
  - exists d. split; [done|lia].
  - rewrite !filter_cons. destruct (decide (stale cutoff (h, s))) as [Hs|Hs].
    + assert (time_Before (SentAt s) cutoff = true) as -> by (unfold time_Before, stale in *; simpl in *; lia).
      rewrite (a_db _ _ _ Ha).
      destruct (IH _ _ _ (n + 1) (agrees_delete m hc d h Ha)) as (d' & Hd & Hn). exists d'.
      rewrite fmap_cons, reverse_cons, foldr_app. split; [done|]. rewrite Hn. simpl length. lia.
    + assert (time_Before (SentAt s) cutoff = false) as -> by (unfold time_Before, stale in *; simpl in *; lia).
      by eapply IH.
Qed.

Lemma clean_agrees m hc d maxAge now :
  agrees m hc d ->
  (exists d', agrees (filter (fun x => now - maxAge <= x.2) m) (CleanStale maxAge now hc).1 d') /\
  (CleanStale maxAge now hc).2 = Z.of_nat (size (filter (fun x => x.2 < now - maxAge) m)).
Proof.
  intros Ha. unfold CleanStale, time_Add. change (now + - maxAge) with (now - maxAge). set (c := now - maxAge).
  set (l := range 0 _).
  destruct (clean_loop c l m hc d 0 Ha) as (d' & Hd & Hn).
  assert (forall h s, (h, s) ∈ l <-> hashes hc !! h = Some s) as Hl.
  { intros h s. unfold l. by rewrite elem_of_range, elem_of_map_to_list. }
  split.
  - exists d'. replace (filter (fun x => c <= x.2) m) with (foldr delete m (reverse (filter (stale c) l).*1)); [done|].
    apply map_eq. intros h. apply option_eq. intros t.
    rewrite lookup_foldr_delete_Some, elem_of_reverse, map_lookup_filter_Some, list_elem_of_fmap. simpl.
    rewrite <-(a_sent _ _ _ Ha). split.
    + intros [Hno Ht]. split; [done|]. apply lookup_fmap_Some in Ht as (s & <- & Hs).
      destruct (decide (c <= SentAt s)); [done|]. destruct Hno. exists (h, s). split; [done|].
      apply list_elem_of_filter. rewrite Hl. split; [unfold stale; simpl; lia|done].
    + intros [Ht Hc]. split; [|done]. intros ([h' s] & -> & [Hs Hin]%list_elem_of_filter). apply Hl in Hin. simpl in *.
      rewrite lookup_fmap, Hin in Ht. simpl in Ht. unfold stale in Hs. simpl in Hs. simplify_eq. lia.
  - rewrite Hn, <-(a_sent _ _ _ Ha), map_filter_fmap, map_size_fmap, map_filter_alt, map_size_list_to_map.
    + rewrite Z.add_0_l. f_equal. apply Permutation_length. unfold l. rewrite range_perm.
      rewrite (list_filter_iff (stale c) (fun '(_, s) => SentAt s < c)); [done|]. by intros [h s].
    + eapply sublist_NoDup; [apply (NoDup_fst_map_to_list (hashes hc))|]. apply fmap_sublist, sublist_filter.
Qed.

Lemma flush_entries_spec l b (entries : gmap string bytes) :
  (forall h s, (h, s) ∈ l -> exists v, marshal_sub s = inr v /\ entries !! hc_key h = Some v) ->
  apply_ops (batch_ops b) entries = entries ->
  exists b', flush_entries l b = inr b' /\ apply_ops (batch_ops b') entries = entries.
Proof.
  revert b. induction l as [|[h s] l IH]; intros b Hl Hb; simpl; [by exists b|].
  destruct (Hl h s ltac:(left)) as (v & -> & Hv). rewrite (batch_Set_fst Hrel). apply IH.
  - intros h' s' Hin. apply Hl. by right.
  - rewrite (batch_Set_ops _ _ _ _ (batch_Set_fst Hrel _ _ _)). unfold apply_ops in *. rewrite foldl_app, Hb. simpl.
    unfold apply_op. simpl. by rewrite insert_id.
Qed.

Lemma flush_agrees m hc d : agrees m hc d -> exists d', agrees m (FlushToDisk hc).1 d'.
Proof.
  intros [A1 A2 A3 A4]. unfold FlushToDisk. rewrite A1. case_decide; [exists d; by split|].
  destruct (flush_entries_spec (range 0 (map_to_list (hashes hc))) (NewBatch d) (db_entries d)) as (b & -> & Hb).
  - intros h s. rewrite elem_of_range, elem_of_map_to_list. intros Hs. destruct (A3 h s Hs) as [_ [_ [v Hv]]].
    exists v. split; [done|]. apply A4. eauto.
  - by rewrite new_plain_batch_ops.
  - pose proof (commit_entries Hrel b d) as Hc. destruct (batch_Commit b d) as [d' err]. simpl in *. exists d'.
    split; simpl; try done. by rewrite Hc, Hb.
Qed.

Lemma hc_in_range h : in_range "hc:" "hd:" (hc_key h).
Proof.
  split; [change "hc:" with ("hc:" +:+ "") at 1; by apply str_le_app|]. intros E. unfold str_le in E. by vm_compute in E.
Qed.

Lemma load_spec (hs : gmap string SubgraphHash) l m0 h :
  (forall k v, (k, v) ∈ l -> exists h s, k = hc_key h /\ hs !! h = Some s /\ sub_Hash s = h /\ unmarshal_sub v = inr s) ->
  foldl load_entry m0 l !! h = if decide (hc_key h ∈ l.*1) then hs !! h else m0 !! h.
Proof.
  revert m0. induction l as [|[k v] l IH]; intros m0 Hl; [done|]. cbn [foldl]. rewrite fmap_cons.
  rewrite IH by (intros ?? Hin; apply Hl; by right).
  destruct (Hl k v ltac:(left)) as (h' & s & -> & Hs & Hh & Hu). unfold load_entry. cbn [fst snd]. rewrite Hu, Hh.
  destruct (decide (h = h')) as [->|Hne].
  - rewrite lookup_insert_eq, (decide_True (P := hc_key h' ∈ hc_key h' :: l.*1)) by left. by case_decide.
  - rewrite lookup_insert_ne by done.
    assert (hc_key h <> hc_key h') by (intros E; by apply hc_key_inj in E). do 2 case_decide; set_solver.
Qed.

Lemma restart_agrees m hc d :
  agrees m hc d -> exists hc', NewPersistentHashCache (inr d) = inr hc' /\ agrees m hc' d.
Proof.
  intros [A1 A2 A3 A4]. eexists. split; [done|]. unfold loadFromDisk. simpl.
  destruct (ok_Iter Hrel d "hc:" "hd:") as [l Hl]. rewrite Hl. simpl.
  assert (forall k v, (k, v) ∈ l <-> db_entries d !! k = Some v) as Hin.
  { intros k v. rewrite (db_Iter_elem _ _ _ _ Hl). split; [tauto|]. intros Hv. split; [done|].
    apply A4 in Hv as (h & s & -> & _). apply hc_in_range. }
  assert (foldl load_entry ∅ l = hashes hc) as ->; [|by split].
  apply map_eq. intros h. rewrite (load_spec (hashes hc)).
  - case_decide as Hk; [done|]. rewrite lookup_empty. destruct (hashes hc !! h) as [s|] eqn:E; [|done].
    destruct Hk. destruct (A3 h s E) as [_ [_ [v Hv]]]. apply list_elem_of_fmap. exists (hc_key h, v). split; [done|].
    apply Hin, A4. eauto.
  - intros k v Hkv. apply Hin, A4 in Hkv as (h' & s & -> & Hs & Hm). destruct (A3 h' s Hs) as [Hh [Hu _]].
    exists h', s. split; [done|]. split; [done|]. split; [done|]. by eapply sub_roundtrip.
Qed.

Lemma hc_run_spec ops hc m d : hc_encodable ops -> agrees m hc d -> hc_run ops hc = sent_run ops m.
Proof.
  revert hc m d. induction ops as [|o ops IH]; intros hc m d He Ha; [done|].
  assert (hc_encodable ops) as He' by (intros h now n Hin; apply He; by right).
  destruct o as [h now|maxAge now| |]; simpl.
  - destruct (send_agrees m hc d h now Ha) as [Hb [d' Ha']]; [intros n; apply He; left|].
    destruct (ShouldTransmit h now hc) as [hc' b]. simpl in *. subst b. f_equal. by eapply IH.
  - destruct (clean_agrees m hc d maxAge now Ha) as [[d' Ha'] Hn].
    destruct (CleanStale maxAge now hc) as [hc' n]. simpl in *. subst n. f_equal. by eapply IH.
  - destruct (flush_agrees m hc d Ha) as [d' Ha']. f_equal. by eapply IH.
  - rewrite (a_db _ _ _ Ha). destruct (restart_agrees m hc d Ha) as (hc' & Hn & Ha'). simpl in Hn. injection Hn as <-.
    f_equal. by eapply IH.
Qed.
End cache.

(** The hash cache remembers exactly what was sent.  On a database that starts empty
    and does not fail, for any sequence of checks, removals of stale entries, flushes and
    restarts of the agent (with hashes the JSON encoder accepts), a subgraph is
    transmitted in full exactly when its hash was not sent before, or was removed since
    for not being sent for [maxAge]; a restart forgets nothing. *)
Lemma hash_cache_refines d ops hc :
  reliable -> db_entries d = ∅ -> NewPersistentHashCache (inr d) = inr hc -> hc_encodable ops ->
  hc_run ops hc = sent_run ops ∅.
Proof.
  intros Hrel Hd Hn He.
  assert (agrees ∅ (mkHC ∅ (Some d) 0 0) d) as Ha.
  { split; simpl; [done|by rewrite fmap_empty|..].
    - intros h s. by rewrite lookup_empty.
    - intros k v. rewrite Hd, lookup_empty. split; [done|]. intros (h & s & _ & Hs & _). by rewrite lookup_empty in Hs. }
  destruct (restart_agrees Hrel ∅ _ d Ha) as (hc' & Hn' & Ha'). rewrite Hn in Hn'. injection Hn' as ->.
  by eapply hc_run_spec.
Qed.

(** ** Compression *)

(** The zstd library: an encoder and a decoder. *)
Context (zstd_encode zstd_decode : bytes -> string + bytes).

(** [ready]: the codecs were created. *)
Record Compressor := mkCompressor { ready : bool; originalBytes : Z; compressedBytes : Z }.

Definition NewCompressor (created : bool) : Compressor := mkCompressor created 0 0.

Definition Compress (data : bytes) (c : Compressor) : Compressor * (string + bytes) :=
  if ready c then
    match zstd_encode data with
    | inl e => (c, inl ("compress: " +:+ e))
    | inr out => (mkCompressor (ready c) (i64 (originalBytes c + Z.of_nat (length data)))
                    (i64 (compressedBytes c + Z.of_nat (length out))), inr out)
    end
  else (c, inl "compressor not initialized").

Definition Decompress (data : bytes) (c : Compressor) : string + bytes :=
  if ready c then match zstd_decode data with inl e => inl ("decompress: " +:+ e) | inr out => inr out end
  else inl "decompressor not initialized".

Definition CompressProtobuf (data : bytes) (c : Compressor) : Compressor * (string + bytes) :=
  match Compress data c with
  | (c, inl e) => (c, inl e)
  | (c, inr out) => (c, inr (be_bytes 4 (u32 (Z.of_nat (length data))) ++ out))
  end.

Definition DecompressProtobuf (data : bytes) (c : Compressor) : string + bytes :=
  if Z.of_nat (length data) <? 4 then Decompress data c else Decompress (drop 4 data) c.

(** ** The manager *)

Definition ComputeHash (data : bytes) : string := EncodeToString (Sum256 data).

Definition ComputeAndCheck (data : bytes) (now : time) (hc : HashCache) : HashCache * string * bool :=
  let h := ComputeHash data in let '(hc, b) := ShouldTransmit h now hc in (hc, h, b).

(** [client]: the payloads handed to the gRPC client, if one is attached. *)
Record TransportManager := mkTM {
  hashCache : HashCache; pipeline : PriorityPipeline; compressor : Compressor; client : option (list bytes);
  Heartbeats : Z; BytesSaved : Z;
}.

Definition flushHigh (tm : TransportManager) : TransportManager :=
  let '(pp, high) := DrainHigh (pipeline tm) in
  mkTM (hashCache tm) pp (compressor tm)
    (match client tm with Some sent => Some (sent ++ (Data <$> high)) | None => None end) (Heartbeats tm) (BytesSaved tm).

(** A call of [Ingest]; [in_now]: the results of [time.Now] in the cache and in the manager. *)
Record input := mkIn { in_data : bytes; in_priority : Z; in_tainted : bool; in_rule : bool; in_cached : time; in_now : time }.

Definition Ingest (i : input) (tm : TransportManager) : TransportManager :=
  let '(hc, hash, transmit) := ComputeAndCheck (in_data i) (in_cached i) (hashCache tm) in
  let evt data := mkTEvent data hash (in_priority i) (in_tainted i) (in_rule i) (in_now i) in
  if negb transmit then
    mkTM hc (pp_Ingest (evt []) (pipeline tm)) (compressor tm) (client tm) (i64 (Heartbeats tm + 1)) (i64 (BytesSaved tm + 1024))
  else
    let '(c, r) := CompressProtobuf (in_data i) (compressor tm) in
    let payload := match r with inr out => out | inl _ => in_data i end in
    let tm := mkTM hc (pp_Ingest (evt payload) (pipeline tm)) c (client tm) (Heartbeats tm) (BytesSaved tm) in
    if (PriorityHigh <=? in_priority i) || in_tainted i || in_rule i then flushHigh tm else tm.

(** *** What reaches the server *)

Definition frame (data : bytes) : bytes :=
  match zstd_encode data with
  | inr out => be_bytes 4 (u32 (Z.of_nat (length data))) ++ out
  | inl _ => data end.

(** The contents sent in full: urgent, and of a hash not seen before. *)
Fixpoint delivered (seen : gset string) (l : list input) : list bytes :=
  match l with
  | [] => []
  | i :: l =>
      let h := ComputeHash (in_data i) in
      if decide (h ∈ seen) then delivered seen l
      else (if (PriorityHigh <=? in_priority i) || in_tainted i || in_rule i then [in_data i] else [])
           ++ delivered ({[h]} ∪ seen) l
  end.

Definition payloads (l : list bytes) : list bytes := filter (fun p => p <> []) l.

Lemma persist_hashes s hc : hashes (persistEntryLocked s hc) = hashes hc.
Proof. unfold persistEntryLocked. by repeat case_match. Qed.

Lemma ShouldTransmit_dom h now hc :
  (ShouldTransmit h now hc).2 = bool_decide (h ∉ dom (hashes hc)) /\
  dom (hashes (ShouldTransmit h now hc).1) = {[h]} ∪ dom (hashes hc).
Proof.
  unfold ShouldTransmit. destruct (hashes hc !! h) eqn:E; cbn [fst snd hashes]; rewrite persist_hashes; cbn [hashes];
    rewrite dom_insert_L; (split; [|done]).
  - rewrite bool_decide_false; [done|]. apply elem_of_dom_2 in E. intros Hn. by apply Hn.
  - rewrite bool_decide_true; [done|]. by apply not_elem_of_dom.
Qed.

Lemma pp_Ingest_high e pp :
  highPriority (pp_Ingest e pp) = if urgent e then highPriority pp ++ [e] else highPriority pp.
Proof. unfold pp_Ingest, writeLowToPebbleLocked. by repeat case_match. Qed.

(** The codecs exist and the library decodes what it encoded. *)
Record zstd_ok : Prop := {
  zstd_encodes : forall d, exists out, zstd_encode d = inr out;
  zstd_roundtrip : forall d out, zstd_encode d = inr out -> zstd_decode out = inr d;
}.

Definition only_heartbeats (tm : TransportManager) : Prop := Forall (fun e => Data e = []) (highPriority (pipeline tm)).

Lemma payloads_heartbeats l : Forall (fun e => Data e = []) l -> payloads (Data <$> l) = [].
Proof. induction 1 as [|e l He Hl IH]; [done|]. unfold payloads in *. rewrite fmap_cons, filter_cons, decide_False; [done|]. by intros ?. Qed.

Lemma ingest_delivers i tm sent :
  zstd_ok -> ready (compressor tm) = true -> client tm = Some sent -> only_heartbeats tm ->
  let tm' := Ingest i tm in
  ready (compressor tm') = true /\ only_heartbeats tm' /\
  dom (hashes (hashCache tm')) = {[ComputeHash (in_data i)]} ∪ dom (hashes (hashCache tm)) /\
  exists sent', client tm' = Some sent' /\
    payloads sent' = payloads sent ++ (frame <$> delivered (dom (hashes (hashCache tm))) [i]).
Proof.
  intros Hz Hr Hc Ho. unfold Ingest, ComputeAndCheck, only_heartbeats in *. cbn [delivered]. set (h := ComputeHash (in_data i)).
  destruct (ShouldTransmit_dom h (in_cached i) (hashCache tm)) as [Hb Hd].
  destruct (ShouldTransmit h (in_cached i) (hashCache tm)) as [hc b]. simpl in Hb, Hd. subst b.
  destruct (decide (h ∈ dom (hashes (hashCache tm)))) as [Hin|Hin].
  - rewrite bool_decide_false by tauto. cbn [negb]. cbn [hashCache pipeline compressor client]. split; [done|].
    split; [|split; [done|]]; [|exists sent; by rewrite app_nil_r].
    rewrite pp_Ingest_high. case_match; [|done]. apply Forall_app. by repeat constructor.
  - rewrite bool_decide_true by done. cbn [negb]. destruct (zstd_encodes Hz (in_data i)) as [out Hout].
    unfold CompressProtobuf, Compress. rewrite Hr, Hout.
    set (payload := be_bytes 4 _ ++ out).
    assert (frame (in_data i) = payload) as Hf by (unfold frame; by rewrite Hout).
    assert (payload <> []) as Hne. { unfold payload. destruct (be_bytes_ok 4 (u32 (Z.of_nat (length (in_data i))))) as [Hl _]. by destruct (be_bytes 4 _). }
    destruct (_ || in_rule i) eqn:Hu; unfold flushHigh, DrainHigh; cbn [hashCache pipeline compressor client ready].
    + rewrite Hc. split; [done|]. split; [constructor|]. split; [done|]. eexists. split; [done|].
      rewrite pp_Ingest_high. unfold urgent. cbn [Priority Tainted RuleMatch]. rewrite Hu.
      unfold payloads. rewrite fmap_app, filter_app. f_equal. rewrite filter_app.
      pose proof (payloads_heartbeats _ Ho) as Hp. unfold payloads in Hp. rewrite Hp. simpl.
      rewrite filter_cons, decide_True by done. by rewrite Hf.
    + split; [done|]. split; [|split; [done|]; exists sent; by rewrite app_nil_r].
      rewrite pp_Ingest_high. unfold urgent. cbn [Priority Tainted RuleMatch]. by rewrite Hu.
Qed.

Lemma delivered_cons i l seen : delivered seen (i :: l) = delivered seen [i] ++ delivered ({[ComputeHash (in_data i)]} ∪ seen) l.
Proof.
  cbn [delivered]. case_decide; [|by rewrite app_nil_r]. simpl. f_equal. set_solver.
Qed.

(** What the agent transmits.  Take a manager with a working compressor and an
    attached client, and no events waiting, and any sequence of calls of [Ingest].  The
    non-empty payloads handed to the client are, in order, the frames of the contents
    that were urgent when their hash was first seen: each such content is sent exactly
    once, at the call that brings it, and the server decodes the frame to the content. *)
Lemma manager_delivers l tm sent :
  zstd_ok -> ready (compressor tm) = true -> client tm = Some sent -> highPriority (pipeline tm) = [] ->
  (exists sent', client (foldl (fun tm i => Ingest i tm) tm l) = Some sent' /\
     payloads sent' = payloads sent ++ (frame <$> delivered (dom (hashes (hashCache tm))) l))
  /\ forall data c, ready c = true -> DecompressProtobuf (frame data) c = inr data.
Proof.
  intros Hz Hr Hc Hh. split.
  - assert (only_heartbeats tm) as Ho by (unfold only_heartbeats; by rewrite Hh). clear Hh.
    revert tm sent Hr Hc Ho. induction l as [|i l IH]; intros tm sent Hr Hc Ho.
    { exists sent. by rewrite app_nil_r. }
    destruct (ingest_delivers i tm sent Hz Hr Hc Ho) as (Hr' & Ho' & Hd & sent' & Hc' & Hp).
    destruct (IH (Ingest i tm) sent' Hr' Hc' Ho') as (sent2 & Hc2 & Hp2). exists sent2. split; [done|].
    rewrite Hp2, Hp, Hd, (delivered_cons i l), fmap_app, app_assoc. done.
  - intros data c Hcr. destruct (zstd_encodes Hz data) as [out Hout]. unfold frame, DecompressProtobuf, Decompress.
    rewrite Hout, Hcr. destruct (be_bytes_ok 4 (u32 (Z.of_nat (length data)))) as [Hl _].
    rewrite length_app, Hl. destruct (Z.ltb_spec (Z.of_nat (4 + length out)) 4); [lia|].
    rewrite drop_app_length' by done. by rewrite (zstd_roundtrip Hz _ _ Hout).
Qed.
End transport.

(** ** Concrete runs *)

(** A codec: the bits of the number of the fields. *)
Fixpoint pos_bytes (p : positive) : bytes :=
  match p with xH => [2] | xO p => 0 :: pos_bytes p | xI p => 1 :: pos_bytes p end.
Fixpoint bytes_pos (b : bytes) : positive :=
  match b with 0 :: b => xO (bytes_pos b) | 1 :: b => xI (bytes_pos b) | _ => xH end.
Lemma bytes_pos_bytes p : bytes_pos (pos_bytes p) = p.
Proof. induction p; simpl; congruence. Qed.

Definition event_fields (e : TransportEvent) : string * Z * bool * bool * Z := (Hash e, Priority e, Tainted e, RuleMatch e, Timestamp e).
Definition sub_fields (s : SubgraphHash) : string * Z * Z * bool := (sub_Hash s, SentAt s, sub_Count s, IsActive s).

Program Definition bit_json : TransportJson := {|
  marshal_event e := inr (pos_bytes (encode (event_fields e)));
  unmarshal_event b := match (decode (bytes_pos b) : option (string * Z * bool * bool * Z)) with
                       | Some (h, p, t, r, ts) => inr (mkTEvent [] h p t r ts) | None => inl "bad event" end;
  marshal_sub s := inr (pos_bytes (encode (sub_fields s)));
  unmarshal_sub b := match (decode (bytes_pos b) : option (string * Z * Z * bool)) with
                     | Some (h, t, n, a) => inr (mkSub h t n a) | None => inl "bad entry" end;
|}.
Next Obligation. intros e b _ [= <-]. by rewrite bytes_pos_bytes, decode_encode. Qed.
Next Obligation. intros s b _ [= <-]. rewrite bytes_pos_bytes, decode_encode. by destruct s. Qed.

#[local] Existing Instance map_pebble.
#[local] Existing Instance bit_json.
#[local] Existing Instance alternating_order.

Definition ev (h : string) (p : Z) (t : time) : TransportEvent := mkTEvent [1; 2] h p false false t.

Definition pp0 : @PriorityPipeline map_pebble := mkPP [] [] (Some (∅ : gmap string bytes)) 0 0 0 0 10000.
Definition pp_ops : list pp_op :=
  [OpIngest (ev "a" 0 1); OpIngest (ev "b" 3 2); OpIngest (ev "a" 1 3); OpRestart; OpIngest (ev "c" 0 4); OpDrainLow; OpDrainHigh].

Lemma priority_refines_witness :
  (@pp_run map_pebble bit_json pp_ops pp0).2 =
  [OutNone; OutNone; OutNone; OutNone; OutNone;
   OutLow (Some (mkSummaryEvent 3 1 4 (<["c" := 1]> (<["a" := 2]> ∅)))); OutHigh []].
Proof.
  rewrite (@priority_refines map_pebble bit_json (∅ : gmap string bytes) pp_ops pp0).
  - vm_compute. reflexivity.
  - exact map_reliable.
  - reflexivity.
  - reflexivity.
  - vm_compute. reflexivity.
  - intros e. unfold pp_ops. rewrite !elem_of_cons, elem_of_nil.
    intros [[= ->]|[[= ->]|[[= ->]|[?|[[= ->]|[?|[?|[]]]]]]]]; try done; (left; reflexivity) || (right; split; [reflexivity|by eexists]).
Defined.

Definition hc_ops : list hc_op :=
  [HSend "x" 10; HSend "x" 20; HRestart; HSend "x" 30; HSend "y" 40; HClean 15 50; HSend "x" 60; HSend "y" 61].

Definition hc0 : HashCache := mkHC ∅ (Some (∅ : gmap string bytes)) 0 0.

Lemma hash_cache_refines_witness :
  @hc_run map_pebble bit_json alternating_order hc_ops hc0 =
  [HTransmit true; HTransmit false; HNone; HTransmit false; HTransmit true; HRemoved 1; HTransmit true; HTransmit false].
Proof.
  rewrite (@hash_cache_refines map_pebble bit_json alternating_order (∅ : gmap string bytes) hc_ops hc0).
  - vm_compute. reflexivity.
  - exact map_reliable.
  - reflexivity.
  - reflexivity.
  - intros h now n. unfold hc_ops. rewrite !elem_of_cons, elem_of_nil.
    intros [[= -> ->]|[[= -> ->]|[?|[[= -> ->]|[[= -> ->]|[?|[[= -> ->]|[[= -> ->]|[]]]]]]]]]; try done;
      (split; [reflexivity|by eexists]).
Defined.

(** A trivial compressor. *)
Definition plain (d : bytes) : string + bytes := inr d.
Lemma plain_ok : zstd_ok plain plain.
Proof. split; [intros d; by exists d|intros d out [= <-]; done]. Qed.

Definition tm0 : @TransportManager map_pebble :=
  mkTM NewHashCache NewPriorityPipeline (NewCompressor true) (Some []) 0 0.
Definition in_of (d : bytes) (p : Z) : input := mkIn d p false false 0 0.
Definition sent_by (l : list input) : option (list bytes) :=
  client (foldl (fun tm i => @Ingest map_pebble bit_json plain i tm) tm0 l).

Lemma manager_delivers_witness :
  exists sent, sent_by [in_of [7] 3; in_of [8] 0; in_of [7] 3; in_of [8] 3; in_of [9] 2] = Some sent /\
    payloads sent = [frame plain [7]; frame plain [9]].
Proof.
  destruct (@manager_delivers map_pebble bit_json plain plain
    [in_of [7] 3; in_of [8] 0; in_of [7] 3; in_of [8] 3; in_of [9] 2] tm0 []) as [(sent & H1 & H2) _].
  - exact plain_ok.
  - reflexivity.
  - reflexivity.
  - reflexivity.
  - exists sent. split; [exact H1|]. rewrite H2. vm_compute. reflexivity.
Defined.

(** The repetition of an urgent content waits, without its hash, until the next new urgent
    content; and a content first seen as not urgent is never sent, even when it is urgent
    later. *)
Example urgent_repetition_waits :
  sent_by [in_of [7] 3; in_of [7] 3] = Some [frame plain [7]] /\
  sent_by [in_of [7] 3; in_of [7] 3; in_of [9] 3] = Some [frame plain [7]; []; frame plain [9]].
Proof. split; vm_compute; reflexivity. Qed.

Example escalation_not_sent : sent_by [in_of [8] 0; in_of [8] 3] = Some [].
Proof. vm_compute. reflexivity. Qed.
