(* ===== verification/Dist.v ===== *)
(** * Global identifiers and the agent's stream ([internal/stitcher/dist]).

    Identifiers over hosts ([guid.go]), their compression with a dictionary and of their
    hexadecimal text ([compress.go]), and the buffer of the stream ([stream.go]). *)
From S2P Require Import Prelude GoStrings GoText Sha256.
From Stdlib Require Import Ascii.

(** ** Identifiers *)

Record GUID := mkGUID { HostID : string; BootID : string; LocalID : string; FullID : string }.

Definition computeFullID (host boot local : string) : string := EncodeToString (Sum256 (bytes_of_string (host +:+ "|" +:+ boot +:+ "|" +:+ local))).

Record GlobalIDStore := mkIDs { hostID : string; bootID : string; cache : gmap string GUID }.

Definition GetOrCreate (local : string) (g : GlobalIDStore) : GlobalIDStore * GUID :=
  match cache g !! local with
  | Some x => (g, x)
  | None => let x := mkGUID (hostID g) (bootID g) local (computeFullID (hostID g) (bootID g) local) in
            (mkIDs (hostID g) (bootID g) (<[local := x]> (cache g)), x)
  end.

(** Trailing newlines and spaces are removed; [rl] is the text backwards. *)
Fixpoint trim_end (rl : list ascii) : list ascii :=
  match rl with c :: l => if bool_decide (c ∈ ["010"%char; " "%char]) then trim_end l else rl | [] => [] end.
Definition trimSpace (s : string) : string := String.string_of_list_ascii (rev (trim_end (rev (chars s)))).

(** [machine], [hostname]: the contents of the files, [call]: the result of [os.Hostname]. *)
Definition resolveHostID (machine hostname call : option string) : string :=
  match machine, hostname, call with
  | Some s, _, _ | None, Some s, _ => trimSpace s
  | None, None, Some h => h
  | None, None, None => "unknown-host"
  end.
Definition resolveBootID (now : time) (boot : option string) : string :=
  match boot with Some s => trimSpace s | None => "boot-" +:+ pretty (time_UnixNano now) end.

Definition ids_ok (g : GlobalIDStore) : Prop :=
  forall local x, cache g !! local = Some x -> x = mkGUID (hostID g) (bootID g) local (computeFullID (hostID g) (bootID g) local).

(** The identifier of an entity is a function of the host, the boot and its name. *)
Lemma get_or_create_exact local g g' x : ids_ok g -> GetOrCreate local g = (g', x) ->
  ids_ok g' /\ hostID g' = hostID g /\ bootID g' = bootID g /\ x = mkGUID (hostID g) (bootID g) local (computeFullID (hostID g) (bootID g) local).
Proof.
  intros Hg H. unfold GetOrCreate in H. destruct (cache g !! local) as [y|] eqn:E; simplify_eq/=.
  - split_and!; try done. by apply Hg.
  - split_and!; try done. intros l y. simpl. intros [[-> <-]|[? ?]]%lookup_insert_Some; [done|]. by apply Hg.
Qed.

(** ** Compression *)

Record Compressor := mkCompressor { dict : gmap string Z; reverse : gmap Z string; nextIdx : Z; hits : Z; misses : Z }.
Record CompressedGUID := mkCompressed { HostIdx : Z; BootLen : Z; BootData : list Z; c_LocalID : string }.
Definition NewCompressor : Compressor := mkCompressor ∅ ∅ 1 0 0.

Definition Compress (x : GUID) (c : Compressor) : Compressor * CompressedGUID :=
  let '(c, idx) :=
    match dict c !! HostID x with
    | Some idx => (mkCompressor (dict c) (reverse c) (nextIdx c) (i64 (hits c + 1)) (misses c), idx)
    | None => (mkCompressor (<[HostID x := nextIdx c]> (dict c)) (<[nextIdx c := HostID x]> (reverse c)) (u32 (nextIdx c + 1)) (hits c) (i64 (misses c + 1)), nextIdx c)
    end in
  let boot := bytes_of_string (BootID x) in
  (c, mkCompressed idx (if String.eqb (BootID x) "" then 0 else u8 (Z.of_nat (length boot))) boot (LocalID x)).

Definition Decompress (x : CompressedGUID) (c : Compressor) : GUID :=
  let host := default "" (reverse c !! HostIdx x) in
  let boot := string_of_bytes (BootData x) in
  mkGUID host boot (c_LocalID x) (computeFullID host boot (c_LocalID x)).

(** The two tables are inverse, and indices not yet given are above those given. *)
Definition tables_ok (c : Compressor) : Prop :=
  (forall h i, dict c !! h = Some i <-> reverse c !! i = Some h) /\ (forall i, is_Some (reverse c !! i) -> 1 <= i < nextIdx c) /\ 1 <= nextIdx c.

Lemma compress_ok x c c' y : tables_ok c -> nextIdx c + 1 < 2 ^ 32 -> Compress x c = (c', y) ->
  tables_ok c' /\ nextIdx c' <= nextIdx c + 1 /\ nextIdx c <= nextIdx c' /\ (forall i h, reverse c !! i = Some h -> reverse c' !! i = Some h) /\
  reverse c' !! HostIdx y = Some (HostID x) /\ BootData y = bytes_of_string (BootID x) /\ c_LocalID y = LocalID x.
Proof.
  intros (Hd & Hr & Hn) Hlt H. unfold Compress in H. destruct (dict c !! HostID x) as [i|] eqn:E; simplify_eq/=.
  - split_and!; try done; [lia..|]. by apply Hd.
  - assert (u32 (nextIdx c + 1) = nextIdx c + 1) as Hu by (unfold u32; apply Z.mod_small; lia). rewrite Hu.
    assert (reverse c !! nextIdx c = None) as Hnone by (destruct (reverse c !! nextIdx c) eqn:En; [|done]; exfalso; assert (1 <= nextIdx c < nextIdx c); [apply Hr; by eexists|lia]).
    split_and!; try done; try lia.
    + split_and!; simpl; [| |lia].
      * intros h i. rewrite !lookup_insert_Some. split; intros [[<- <-]|[Hne Hl]]; auto; right; (split; [|by apply Hd]).
        -- intros <-. apply Hd in Hl. by rewrite Hnone in Hl.
        -- intros <-. apply Hd in Hl. by rewrite E in Hl.
      * intros i [<-|[_ Hi]]%lookup_insert_is_Some; [lia|]. apply Hr in Hi. lia.
    + intros i h Hi. rewrite lookup_insert_ne; [done|]. intros <-. by rewrite Hnone in Hi.
    + apply lookup_insert_eq.
Qed.

Definition compress_all (l : list GUID) (c : Compressor) : Compressor := foldl (fun c x => (Compress x c).1) c l.

Lemma compress_all_ok l c : tables_ok c -> nextIdx c + Z.of_nat (length l) < 2 ^ 32 ->
  tables_ok (compress_all l c) /\ nextIdx (compress_all l c) <= nextIdx c + Z.of_nat (length l) /\
  (forall i h, reverse c !! i = Some h -> reverse (compress_all l c) !! i = Some h).
Proof.
  revert c. induction l as [|x l IH]; intros c Hc Hlt; [split_and!; [done|simpl; lia|done]|]. simpl in Hlt.
  change (compress_all (x :: l) c) with (compress_all l (Compress x c).1). destruct (Compress x c) as [c1 y] eqn:E. simpl. destruct (compress_ok x c c1 y Hc ltac:(lia) E) as (H1 & H2 & _ & H3 & _).
  destruct (IH c1 H1 ltac:(lia)) as (A & B & C). split_and!; [done|lia|]. intros i h Hi. by apply C, H3.
Qed.

(** What a compressor has compressed it decompresses to the same identifier, whatever it
    compresses before and in between, as long as it has met fewer than 2^32 hosts. *)
Lemma decompress_compress before x after c y : Compress x (compress_all before NewCompressor) = (c, y) ->
  Z.of_nat (length before) + Z.of_nat (length after) + 2 < 2 ^ 32 -> FullID x = computeFullID (HostID x) (BootID x) (LocalID x) ->
  Decompress y (compress_all after c) = x.
Proof.
  intros H Hlt Hf. assert (tables_ok NewCompressor) as H0.
  { split_and!; simpl; [intros h i; by rewrite !lookup_empty|intros i [h Hh]; by rewrite lookup_empty in Hh|lia]. }
  destruct (compress_all_ok before NewCompressor H0) as (A & B & _); [simpl; lia|]. simpl in B.
  destruct (compress_ok x _ c y A ltac:(lia) H) as (C & D & _ & _ & E & F & G).
  destruct (compress_all_ok after c C ltac:(lia)) as (_ & _ & I). unfold Decompress. rewrite (I _ _ E), F, G. simpl. rewrite string_of_bytes_of_string, <-Hf. by destruct x.
Qed.

(** ** Hexadecimal text *)

Definition hexToNibble (c : Z) : Z :=
  if cont 48 57 c then c - 48 else if cont 97 102 c then c - 87 else if cont 65 70 c then c - 55 else 0.
Definition nibbleToHex (n : Z) : Z := if n <? 10 then 48 + n else 87 + n.

Fixpoint pairs (l : list Z) : list (Z * Z) := match l with a :: b :: l => (a, b) :: pairs l | _ => [] end.
Definition CompressGUIDString (s : string) : list Z :=
  if (String.length s =? 64)%nat
  then (fun '(h, l) => Z.lor (u8 (Z.shiftl (hexToNibble h) 4)) (hexToNibble l)) <$> pairs (bytes_of_string s)
  else bytes_of_string s.
Definition DecompressGUIDString (data : list Z) : string :=
  if (length data =? 32)%nat
  then string_of_bytes (data ≫= fun b => [nibbleToHex (Z.land (Z.shiftr b 4) 15); nibbleToHex (Z.land b 15)])
  else string_of_bytes data.

Definition lower_hex (c : Z) : Prop := 48 <= c <= 57 \/ 97 <= c <= 102.

Lemma hex_pair_back h l : lower_hex h -> lower_hex l ->
  let b := Z.lor (u8 (Z.shiftl (hexToNibble h) 4)) (hexToNibble l) in nibbleToHex (Z.land (Z.shiftr b 4) 15) = h /\ nibbleToHex (Z.land b 15) = l.
Proof.
  set (L := [48; 49; 50; 51; 52; 53; 54; 55; 56; 57; 97; 98; 99; 100; 101; 102]). assert (forall c, lower_hex c -> In c L) as Hc.
  { intros c Hc. unfold lower_hex in Hc. unfold L. simpl. lia. }
  intros Hh%Hc Hl%Hc.
  assert (forallb (fun h => forallb (fun l => let b := Z.lor (u8 (Z.shiftl (hexToNibble h) 4)) (hexToNibble l) in
    (nibbleToHex (Z.land (Z.shiftr b 4) 15) =? h) && (nibbleToHex (Z.land b 15) =? l)) L) L = true) as H by (vm_compute; reflexivity).
  rewrite forallb_forall in H. specialize (H h Hh). rewrite forallb_forall in H. specialize (H l Hl). simpl in H. apply andb_true_iff in H as [H1 H2].
  split; by apply Z.eqb_eq.
Qed.

Lemma pairs_back k l : length l = (2 * k)%nat -> Forall lower_hex l -> length (pairs l) = k /\
  (((fun '(h, x) => Z.lor (u8 (Z.shiftl (hexToNibble h) 4)) (hexToNibble x)) <$> pairs l) ≫= (fun b => [nibbleToHex (Z.land (Z.shiftr b 4) 15); nibbleToHex (Z.land b 15)])) = l.
Proof.
  revert l. induction k as [|k IH]; intros l Hl Hf; [destruct l; [done|simpl in Hl; lia]|].
  destruct l as [|a [|b l]]; [simpl in Hl; lia..|]. apply Forall_cons in Hf as [Ha Hf]. apply Forall_cons in Hf as [Hb Hf].
  destruct (IH l) as [E1 E2]; [simpl in Hl; lia|done|]. destruct (hex_pair_back a b Ha Hb) as [P1 P2]. csimpl. split; [by rewrite E1|]. rewrite P1, P2. csimpl. by rewrite E2.
Qed.

(** The text of an identifier is 64 lower-case digits, and survives compression. *)
Lemma guid_text_roundtrip s : String.length s = 64%nat -> Forall lower_hex (bytes_of_string s) ->
  length (CompressGUIDString s) = 32%nat /\ DecompressGUIDString (CompressGUIDString s) = s.
Proof.
  intros Hl Hf. unfold CompressGUIDString, DecompressGUIDString. rewrite Hl. simpl Nat.eqb.
  destruct (pairs_back 32 (bytes_of_string s)) as [E1 E2]; [unfold bytes_of_string; rewrite length_fmap, length_chars, Hl; done|done|].
  rewrite length_fmap, E1. simpl Nat.eqb. rewrite E2. split; [done|]. apply string_of_bytes_of_string.
Qed.

(** A text of 32 characters that is no digest does not survive: it is taken for a digest. *)
Example short_text_lost : DecompressGUIDString (CompressGUIDString "aaaaaaaaaaaaaaaaaaaaaaaaaaaaaaaa") <> "aaaaaaaaaaaaaaaaaaaaaaaaaaaaaaaa".
Proof. vm_compute. discriminate. Qed.

(** ** The stream *)

Record StreamEvent := mkStreamEvent { se_FullID : string; EventType : string; Payload : string; Tainted : bool; Timestamp : Z }.
Record StreamPipeline := mkStream { BufferSize : Z; buffer : list StreamEvent; sent : Z; dropped : Z; connected : bool }.

Definition NewStreamPipeline (size : Z) : StreamPipeline := mkStream size [] 0 0 false.

Definition Send (e : StreamEvent) (sp : StreamPipeline) : StreamPipeline * bool :=
  if BufferSize sp <=? Z.of_nat (length (buffer sp)) then (mkStream (BufferSize sp) (buffer sp) (sent sp) (i64 (dropped sp + 1)) (connected sp), false)
  else (mkStream (BufferSize sp) (buffer sp ++ [e]) (sent sp) (dropped sp) (connected sp), true).

(** What a batch hands to the transport: the text and whether it is urgent.  Without a
    transport nothing is handed on. *)
Definition sendBatch (transport : bool) (batch : list StreamEvent) : list (string * bool) :=
  if transport then (fun e => (se_FullID e +:+ "|" +:+ EventType e +:+ ":" +:+ Payload e, Tainted e)) <$> batch else [].

Definition flush (transport : bool) (sp : StreamPipeline) : StreamPipeline * list (string * bool) :=
  match buffer sp with
  | [] => (sp, [])
  | batch => (mkStream (BufferSize sp) [] (i64 (sent sp + Z.of_nat (length batch))) (dropped sp) true, sendBatch transport batch)
  end.

Inductive stream_op := OSend (e : StreamEvent) | OFlush.
(** The pipeline, what was handed on, and the events dropped. *)
Definition stream_step (transport : bool) (st : StreamPipeline * list (string * bool) * list StreamEvent) (o : stream_op) : StreamPipeline * list (string * bool) * list StreamEvent :=
  let '(sp, out, lost) := st in
  match o with
  | OSend e => let '(sp, ok) := Send e sp in (sp, out, if ok then lost else lost ++ [e])
  | OFlush => let '(sp, l) := flush transport sp in (sp, out ++ l, lost)
  end.
Definition stream_run (transport : bool) (size : Z) (ops : list stream_op) := foldl (stream_step transport) (NewStreamPipeline size, [], []) ops.
Definition sends (ops : list stream_op) : list StreamEvent := omap (fun o => match o with OSend e => Some e | OFlush => None end) ops.

(** With a transport every event is handed on in order, buffered, or dropped because the
    buffer was full, and the buffer never exceeds its size. *)
Lemma stream_conserves size ops : 0 <= size ->
  let '(sp, out, lost) := stream_run true size ops in
  exists done, out = sendBatch true done /\ sends ops ≡ₚ done ++ buffer sp ++ lost /\ Z.of_nat (length (buffer sp)) <= size.
Proof.
  intros Hsz. unfold stream_run.
  assert (let '(sp, out, lost) := foldl (stream_step true) (NewStreamPipeline size, [], []) ops in BufferSize sp = size /\
    exists done, out = sendBatch true done /\ sends ops ≡ₚ done ++ buffer sp ++ lost /\ Z.of_nat (length (buffer sp)) <= size) as H.
  2: { destruct (foldl _ _ _) as [[sp out] lost]. by destruct H. }
  induction ops as [|o ops IH] using rev_ind; [split; [done|]; exists []; simpl; split_and!; [done|done|lia]|].
  rewrite foldl_app. cbn [foldl]. destruct (foldl _ _ ops) as [[sp out] lost]. destruct IH as (Hb & done & -> & Hp & Hl).
  unfold sends in *. rewrite omap_app. destruct o as [e|]; unfold stream_step; csimpl.
  - unfold Send. destruct (Z.leb_spec (BufferSize sp) (Z.of_nat (length (buffer sp)))); simpl; (split; [done|]); exists done; (split; [done|]).
    + split; [|done]. rewrite Hp. by rewrite <-!(assoc_L (++)).
    + split; [|rewrite length_app; simpl; lia]. rewrite Hp, <-!(assoc_L (++)). do 2 f_equiv. apply Permutation_app_comm.
  - rewrite app_nil_r. unfold flush. destruct (buffer sp) as [|x b] eqn:Eb; simpl; (split; [done|]).
    + exists done. rewrite app_nil_r, Eb. done.
    + exists (done ++ x :: b). simpl. split_and!; [unfold sendBatch; by rewrite fmap_app| |lia]. by rewrite Hp, <-(assoc_L (++)).
Qed.

(** Without a transport the events count as sent and go nowhere. *)
Lemma sent_nowhere e : let '(sp, out, _) := stream_run false 10 [OSend e; OFlush] in sent sp = 1 /\ connected sp = true /\ out = [] /\ buffer sp = [].
Proof. done. Qed.
