(* ===== verification/Stitch.v ===== *)
(** * Stitching causal chains across hosts ([internal/stitcher/stitch]: stitch.go,
      taint_prop.go, server.go)

    Agents report both ends of a connection under one flow identifier; the server links
    the two processes when the reports are close in time, and carries taint along the
    link.  The clock is an argument of each operation; a slice out of range is the result
    [None] (a panic). *)
From S2P Require Import Prelude GoStrings.

(** ** Records *)

Record FlowFingerprint := mkFlow { FlowID : string; SrcIP : string; DstIP : string; SrcPort : Z; DstPort : Z }.

Record ConnectionRecord := mkConn {
  Fingerprint : FlowFingerprint; AgentID : string; PID : Z; Comm : string; Direction : string;
  Tainted : bool; TaintSource : string; Timestamp : time;
}.

Record StitchEdge := mkEdge {
  e_ID : string; e_FlowID : string; SourceAgent : string; SourcePID : Z; SourceComm : string;
  TargetAgent : string; TargetPID : Z; TargetComm : string; Relation : string; e_Tainted : bool; CreatedAt : time;
}.

Record StitchTable := mkTable {
  outbound : gmap string ConnectionRecord; inbound : gmap string ConnectionRecord;
  edges : list StitchEdge; edgeCounter : Z; window : duration;
}.

Definition NewStitchTable : StitchTable := mkTable ∅ ∅ [] 0 (30 * Second).

(** A report of an agent: the arguments of [RecordOutbound] and [RecordInbound] and the
    clock readings ([time.Now] of the record and of the edge). *)
Record report := mkReport {
  r_flow : string; r_agent : string; r_pid : Z; r_comm : string; r_src : string; r_dst : string;
  r_sport : Z; r_dport : Z; r_tainted : bool; r_source : string; r_time : time; r_created : time;
}.

Definition out_record (r : report) : ConnectionRecord :=
  mkConn (mkFlow (r_flow r) (r_src r) (r_dst r) (r_sport r) (r_dport r)) (r_agent r) (r_pid r) (r_comm r) "outbound"
    (r_tainted r) (r_source r) (r_time r).
Definition in_record (r : report) : ConnectionRecord :=
  mkConn (mkFlow (r_flow r) (r_src r) (r_dst r) (r_sport r) (r_dport r)) (r_agent r) (r_pid r) (r_comm r) "inbound"
    (r_tainted r) "" (r_time r).

(** ** Matching *)

Definition set_tainted (c : ConnectionRecord) : ConnectionRecord :=
  mkConn (Fingerprint c) (AgentID c) (PID c) (Comm c) (Direction c) true (TaintSource c) (Timestamp c).

(** The inbound record is shared with the table, where it becomes tainted too. *)
Definition createEdge (o i : ConnectionRecord) (now : time) (st : StitchTable) : StitchTable * StitchEdge :=
  let n := i64 (edgeCounter st + 1) in
  let edge := mkEdge ("SE-" +:+ pretty n) (FlowID (Fingerprint o)) (AgentID o) (PID o) (Comm o) (AgentID i) (PID i) (Comm i)
                (if Tainted o then "lateral_move" else "remote_call") (Tainted o || Tainted i) now in
  (mkTable (outbound st) (if Tainted o then <[FlowID (Fingerprint i) := set_tainted i]> (inbound st) else inbound st)
     (edges st ++ [edge]) n (window st), edge).

(** [|t - u| <= window] on durations. *)
Definition close_in_time (t u : time) (w : duration) : bool :=
  let delta := time_Sub t u in
  let delta := if delta <? 0 then i64 (- delta) else delta in
  delta <=? w.

(** [None]: [flowID[:16]] panics on a shorter identifier, after the record is stored. *)
Definition RecordOutbound (r : report) (st : StitchTable) : StitchTable * option (option StitchEdge) :=
  let rec_ := out_record r in
  let st := mkTable (<[r_flow r := rec_]> (outbound st)) (inbound st) (edges st) (edgeCounter st) (window st) in
  if (String.length (r_flow r) <? 16)%nat then (st, None)
  else
    match inbound st !! r_flow r with
    | Some i =>
        if close_in_time (r_time r) (Timestamp i) (window st) then
          let '(st, e) := createEdge rec_ i (r_created r) st in (st, Some (Some e))
        else (st, Some None)
    | None => (st, Some None)
    end.

Definition RecordInbound (r : report) (st : StitchTable) : StitchTable * option (option StitchEdge) :=
  let rec_ := in_record r in
  let st := mkTable (outbound st) (<[r_flow r := rec_]> (inbound st)) (edges st) (edgeCounter st) (window st) in
  if (String.length (r_flow r) <? 16)%nat then (st, None)
  else
    match outbound st !! r_flow r with
    | Some o =>
        if close_in_time (r_time r) (Timestamp o) (window st) then
          let '(st, e) := createEdge o rec_ (r_created r) st in (st, Some (Some e))
        else (st, Some None)
    | None => (st, Some None)
    end.

Definition CleanOld (now : time) (st : StitchTable) : StitchTable :=
  let cutoff := time_Add now (- window st) in
  let keep := filter (fun '(_, c) => ~ time_Before (Timestamp c) cutoff = true) in
  mkTable (keep (outbound st)) (keep (inbound st)) (edges st) (edgeCounter st) (window st).

Definition GetByFlowID (flow : string) (st : StitchTable) : option ConnectionRecord * option ConnectionRecord :=
  (outbound st !! flow, inbound st !! flow).

Definition GetByAgent `{MapOrder} (agent : string) (st : StitchTable) : list ConnectionRecord * list ConnectionRecord :=
  (filter (fun c => AgentID c = agent) (range 0 (map_to_list (outbound st)).*2),
   filter (fun c => AgentID c = agent) (range 1 (map_to_list (inbound st)).*2)).

(** ** Taint across hosts *)

Record TaintInfo := mkTaint {
  t_PID : Z; t_Comm : string; t_Tainted : bool; t_Source : string; t_SourceAgent : string; t_SourcePID : Z; UpdatedAt : time;
}.

Record TaintPropagator := mkProp { hostTaints : gmap string (gmap Z TaintInfo); propagated : Z }.

Definition NewTaintPropagator : TaintPropagator := mkProp ∅ 0.

Definition put_taint (agent : string) (pid : Z) (t : TaintInfo) (tp : TaintPropagator) : gmap string (gmap Z TaintInfo) :=
  <[agent := <[pid := t]> (default ∅ (hostTaints tp !! agent))]> (hostTaints tp).

Definition tp_MarkTainted (agent : string) (pid : Z) (comm source : string) (now : time) (tp : TaintPropagator) : TaintPropagator :=
  mkProp (put_taint agent pid (mkTaint pid comm true source "" 0 now) tp) (propagated tp).

Definition taintPrefix (value : string) (limit : nat) : string :=
  if (String.length value <=? limit)%nat then value else String.substring 0 limit value.

Definition PropagateViaStitch (e : StitchEdge) (now : time) (tp : TaintPropagator) : TaintPropagator :=
  if negb (e_Tainted e) then tp
  else
    mkProp (put_taint (TargetAgent e) (TargetPID e)
              (mkTaint (TargetPID e) (TargetComm e) true ("cross-host-stitch:" +:+ taintPrefix (e_FlowID e) 16)
                 (SourceAgent e) (SourcePID e) now) tp) (i64 (propagated tp + 1)).

Definition GetTaintInfo (agent : string) (pid : Z) (tp : TaintPropagator) : option TaintInfo :=
  m ← hostTaints tp !! agent; m !! pid.

Definition IsTainted (agent : string) (pid : Z) (tp : TaintPropagator) : bool :=
  match GetTaintInfo agent pid tp with Some t => t_Tainted t | None => false end.

(** ** The server *)

Record CentralServer := mkServer { table : StitchTable; propagator : TaintPropagator; agents : gset string; startedAt : time }.

Definition NewCentralServer (now : time) : CentralServer := mkServer NewStitchTable NewTaintPropagator ∅ now.

(** [now]: the clock in the propagator. *)
Definition after_record (agent : string) (now : time) (res : StitchTable * option (option StitchEdge)) (cs : CentralServer)
  : CentralServer * option (option StitchEdge) :=
  let '(st, r) := res in
  let tp := match r with Some (Some e) => PropagateViaStitch e now (propagator cs) | _ => propagator cs end in
  (mkServer st tp ({[agent]} ∪ agents cs) (startedAt cs), r).

Definition IngestOutbound (r : report) (now : time) (cs : CentralServer) : CentralServer * option (option StitchEdge) :=
  after_record (r_agent r) now (RecordOutbound r (table cs)) cs.

Definition IngestInbound (r : report) (now : time) (cs : CentralServer) : CentralServer * option (option StitchEdge) :=
  after_record (r_agent r) now (RecordInbound r (table cs)) cs.

Definition MarkTainted (agent : string) (pid : Z) (comm source : string) (now : time) (cs : CentralServer) : CentralServer :=
  mkServer (table cs) (tp_MarkTainted agent pid comm source now (propagator cs)) (agents cs) (startedAt cs).

Definition QueryStitchByAgent (agent : string) (cs : CentralServer) : list StitchEdge :=
  filter (fun e => SourceAgent e = agent \/ TargetAgent e = agent) (edges (table cs)).

Definition QueryStitchByFlow (flow : string) (cs : CentralServer) : option StitchEdge :=
  snd <$> list_find (fun e => e_FlowID e = flow) (edges (table cs)).

(** ** Operations in sequence *)

Inductive op :=
| OpOut (r : report) (now : time) | OpIn (r : report) (now : time)
| OpClean (now : time) | OpMark (agent : string) (pid : Z) (comm source : string) (now : time).

(** The clock reading that matters for matching. *)
Definition op_time (o : op) : option time :=
  match o with OpOut r _ | OpIn r _ => Some (r_time r) | OpClean now => Some now | OpMark _ _ _ _ _ => None end.

Definition step (o : op) (cs : CentralServer) : CentralServer * option (option StitchEdge) :=
  match o with
  | OpOut r now => IngestOutbound r now cs
  | OpIn r now => IngestInbound r now cs
  | OpClean now => (mkServer (CleanOld now (table cs)) (propagator cs) (agents cs) (startedAt cs), Some None)
  | OpMark agent pid comm source now => (MarkTainted agent pid comm source now cs, Some None)
  end.

Fixpoint run (ops : list op) (cs : CentralServer) : CentralServer * list (option (option StitchEdge)) :=
  match ops with
  | [] => (cs, [])
  | o :: ops => let '(cs, x) := step o cs in let '(cs, xs) := run ops cs in (cs, x :: xs)
  end.

(** *** The specification: reports in order, newest first *)

Definition reports := list (bool * report).   (* [true]: outbound *)

Definition last_report (d : bool) (flow : string) (h : reports) : option report :=
  snd <$> (snd <$> list_find (fun x => x.1 = d /\ r_flow x.2 = flow) h).

(** The edge apart from its identifier and its taint. *)
Definition link (e : StitchEdge) :=
  (e_FlowID e, SourceAgent e, SourcePID e, SourceComm e, TargetAgent e, TargetPID e, TargetComm e, Relation e, CreatedAt e).
Definition link_of (o i : report) (created : time) :=
  (r_flow o, r_agent o, r_pid o, r_comm o, r_agent i, r_pid i, r_comm i,
   if r_tainted o then "lateral_move" else "remote_call", created).

(** The link a report creates: with the latest report of the other end of the flow, if it
    is at most 30 seconds old. *)
Definition expected (d : bool) (r : report) (h : reports) :=
  match last_report (negb d) (r_flow r) h with
  | Some p =>
      if r_time r - r_time p <=? 30 * Second then Some (if d then link_of r p (r_created r) else link_of p r (r_created r))
      else None
  | None => None
  end.

Fixpoint links (ops : list op) (h : reports) :=
  match ops with
  | [] => []
  | OpOut r _ :: ops => expected true r h :: links ops ((true, r) :: h)
  | OpIn r _ :: ops => expected false r h :: links ops ((false, r) :: h)
  | _ :: ops => None :: links ops h
  end.

Fixpoint in_order (now : time) (ops : list op) : Prop :=
  match ops with
  | [] => True
  | o :: ops => match op_time o with Some t => now <= t /\ in_order t ops | None => in_order now ops end
  end.

Definition long_flows (ops : list op) : Prop :=
  forall r now, OpOut r now ∈ ops \/ OpIn r now ∈ ops -> (16 <= String.length (r_flow r))%nat.

(** A record and the report it came from. *)
Definition from_report (c : ConnectionRecord) (r : report) : Prop :=
  FlowID (Fingerprint c) = r_flow r /\ AgentID c = r_agent r /\ PID c = r_pid r /\ Comm c = r_comm r /\ Timestamp c = r_time r.

(** One side of the table at a time: the latest reports, less some that are too old. *)
Definition side_ok (now : time) (m : gmap string ConnectionRecord) (last : string -> option report)
    (same : ConnectionRecord -> report -> Prop) : Prop :=
  forall f, match last f with
            | Some p => r_time p <= now /\
                ((exists c, m !! f = Some c /\ from_report c p /\ same c p) \/ (m !! f = None /\ r_time p < now - 30 * Second))
            | None => m !! f = None
            end.

Definition taint_exact (c : ConnectionRecord) (r : report) : Prop := Tainted c = r_tainted r.

Record table_ok (now : time) (h : reports) (st : StitchTable) : Prop := {
  ok_window : window st = 30 * Second;
  ok_out : side_ok now (outbound st) (fun f => last_report true f h) taint_exact;
  ok_in : side_ok now (inbound st) (fun f => last_report false f h) (fun _ _ => True);
}.

Lemma last_report_cons d d' f r h :
  last_report d f ((d', r) :: h) = if decide (d' = d /\ r_flow r = f) then Some r else last_report d f h.
Proof. unfold last_report. simpl. case_decide; simpl; [done|]. by destruct (list_find _ h) as [[??]|]. Qed.

Lemma side_later now now' m last same : now <= now' -> side_ok now m last same -> side_ok now' m last same.
Proof.
  intros Hle Hs f. specialize (Hs f). destruct (last f); [|done]. destruct Hs as [H1 [H2|[H2 H3]]]; split; try lia; auto.
  right. split; [done|lia].
Qed.

Lemma table_later now now' h st : now <= now' -> table_ok now h st -> table_ok now' h st.
Proof. intros Hle [H1 H2 H3]. split; [done|eapply side_later; eauto..]. Qed.

(** A new report replaces the record of its flow. *)
Lemma side_insert now m d r h same c :
  r_time r = now -> from_report c r -> same c r -> side_ok now m (fun f => last_report d f h) same ->
  side_ok now (<[r_flow r := c]> m) (fun f => last_report d f ((d, r) :: h)) same.
Proof.
  intros Ht Hc Hs Hok f. simpl. rewrite last_report_cons. destruct (decide (r_flow r = f)) as [<-|Hne].
  - rewrite decide_True by done. split; [lia|]. left. exists c. by rewrite lookup_insert_eq.
  - rewrite decide_False by tauto. rewrite lookup_insert_ne by done. apply Hok.
Qed.

Lemma side_other now m d r h same : side_ok now m (fun f => last_report d f h) same ->
  side_ok now m (fun f => last_report d f ((negb d, r) :: h)) same.
Proof.
  intros Hok f. simpl. rewrite last_report_cons, decide_False; [apply Hok|]. intros [E _]. by destruct d.
Qed.

Lemma close_in_time_spec t u : u <= t -> close_in_time t u (30 * Second) = (t - u <=? 30 * Second).
Proof.
  intros Hle. unfold close_in_time, time_Sub, MinInt64, MaxInt64, Second in *.
  destruct (Z.ltb_spec (Z.max (- 2 ^ 63) (Z.min (2 ^ 63 - 1) (t - u))) 0); [lia|].
  destruct (Z.leb_spec (t - u) (30 * 10 ^ 9)); lia.
Qed.

Lemma last_report_flow d f h p : last_report d f h = Some p -> r_flow p = f.
Proof.
  unfold last_report. destruct (list_find _ h) as [[i x]|] eqn:E; [|done]. simpl. intros [= <-].
  apply list_find_Some in E as (_ & [_ ?] & _). done.
Qed.

(** A record may become tainted. *)
Lemma side_taint now m last c p :
  last (r_flow p) = Some p -> m !! r_flow p = Some c -> from_report c p ->
  side_ok now m last (fun _ _ => True) -> side_ok now (<[r_flow p := set_tainted c]> m) last (fun _ _ => True).
Proof.
  intros Hl Hm Hc Hok f. specialize (Hok f). destruct (decide (r_flow p = f)) as [<-|Hne].
  - rewrite Hl in *. rewrite lookup_insert_eq. split; [apply Hok|]. left. exists (set_tainted c). done.
  - by rewrite lookup_insert_ne.
Qed.

Lemma table_taint now h st o c p edges n :
  last_report false (r_flow p) h = Some p -> inbound st !! r_flow p = Some c -> from_report c p -> table_ok now h st ->
  table_ok now h (mkTable (outbound st) (if Tainted o then <[FlowID (Fingerprint c) := set_tainted c]> (inbound st) else inbound st)
                    edges n (window st)).
Proof.
  intros Hl Hm Hc [H1 H2 H3]. split; simpl; [done..|]. destruct (Tainted o); [|done].
  assert (FlowID (Fingerprint c) = r_flow p) as -> by apply Hc.
  by eapply (side_taint now (inbound st) (fun f => last_report false f h) c p).
Qed.

Lemma record_out now h st r :
  table_ok now h st -> now <= r_time r -> (16 <= String.length (r_flow r))%nat ->
  exists x, (RecordOutbound r st).2 = Some x /\ link <$> x = expected true r h /\
    table_ok (r_time r) ((true, r) :: h) (RecordOutbound r st).1.
Proof.
  intros Hok Hle Hlen. apply (table_later _ (r_time r)) in Hok as [H1 H2 H3]; [|done]. unfold RecordOutbound, expected.
  destruct (Nat.ltb_spec (String.length (r_flow r)) 16); [lia|]. cbn [inbound window negb].
  set (st1 := mkTable _ _ _ _ _).
  assert (table_ok (r_time r) ((true, r) :: h) st1) as Hok1.
  { split; [done|by apply side_insert|by apply (side_other _ _ false)]. }
  pose proof (H3 (r_flow r)) as Hin. simpl in Hin. destruct (last_report false (r_flow r) h) as [p|] eqn:El.
  - pose proof (last_report_flow _ _ _ _ El) as Hp. destruct Hin as [Hpt [(c & Hc & Hf & _)|[Hn Hold]]].
    + rewrite Hc, H1. assert (Timestamp c = r_time p) as -> by apply Hf. rewrite close_in_time_spec by done.
      destruct (Z.leb_spec (r_time r - r_time p) (30 * Second)) as [Hcl|Hcl]; [|by exists None].
      eexists. split; [done|]. split.
      * simpl. destruct Hf as (F1 & F2 & F3 & F4 & F5). unfold link, link_of. simpl. by rewrite F2, F3, F4.
      * cbn [fst createEdge]. apply (table_taint _ _ st1 (out_record r) c p); [|by rewrite Hp|done|done].
        rewrite last_report_cons, decide_False by (by intros []). by rewrite Hp.
    + rewrite Hn. exists None. split; [done|]. split; [|done]. destruct (Z.leb_spec (r_time r - r_time p) (30 * Second)); [lia|done].
  - rewrite Hin. by exists None.
Qed.

Lemma record_in now h st r :
  table_ok now h st -> now <= r_time r -> (16 <= String.length (r_flow r))%nat ->
  exists x, (RecordInbound r st).2 = Some x /\ link <$> x = expected false r h /\
    table_ok (r_time r) ((false, r) :: h) (RecordInbound r st).1.
Proof.
  intros Hok Hle Hlen. apply (table_later _ (r_time r)) in Hok as [H1 H2 H3]; [|done]. unfold RecordInbound, expected.
  destruct (Nat.ltb_spec (String.length (r_flow r)) 16); [lia|]. cbn [outbound window negb].
  set (st1 := mkTable _ _ _ _ _).
  assert (table_ok (r_time r) ((false, r) :: h) st1) as Hok1.
  { split; [done|by apply (side_other _ _ true)|by apply side_insert]. }
  pose proof (H2 (r_flow r)) as Hin. simpl in Hin. destruct (last_report true (r_flow r) h) as [p|] eqn:El.
  - pose proof (last_report_flow _ _ _ _ El) as Hp. destruct Hin as [Hpt [(c & Hc & Hf & Ht)|[Hn Hold]]].
    + rewrite Hc, H1. assert (Timestamp c = r_time p) as -> by apply Hf. rewrite close_in_time_spec by done.
      destruct (Z.leb_spec (r_time r - r_time p) (30 * Second)) as [Hcl|Hcl]; [|by exists None].
      eexists. split; [done|]. split.
      * simpl. destruct Hf as (F1 & F2 & F3 & F4 & F5). unfold link, link_of. simpl. by rewrite F1, F2, F3, F4, Ht.
      * cbn [fst createEdge]. apply (table_taint _ _ st1 c (in_record r) r); [|by simpl; rewrite lookup_insert_eq|done|done].
        by rewrite last_report_cons, decide_True.
    + rewrite Hn. exists None. split; [done|]. split; [|done]. destruct (Z.leb_spec (r_time r - r_time p) (30 * Second)); [lia|done].
  - rewrite Hin. by exists None.
Qed.

Lemma table_clean now now' h st : table_ok now h st -> now <= now' -> table_ok now' h (CleanOld now' st).
Proof.
  intros Hok Hle. apply (table_later _ now') in Hok as [H1 H2 H3]; [|done].
  assert (forall m last same, side_ok now' m last same ->
    side_ok now' (filter (fun '(_, c) => ~ time_Before (Timestamp c) (time_Add now' (- window st)) = true) m) last same) as Hf.
  { intros m last same Hs f. specialize (Hs f). destruct (last f) as [p|]; [|apply map_lookup_filter_None; by left].
    destruct Hs as [Hp [(c & Hc & Hfr & Hsame)|[Hn Ho]]]; split; try done.
    - assert (Timestamp c = r_time p) as Ht by apply Hfr. unfold time_Before, time_Add. rewrite H1.
      destruct (decide (r_time p < now' - 30 * Second)) as [Hlt|Hge].
      + right. split; [|done]. apply map_lookup_filter_None. right. intros c' Hc'. simplify_eq. intros Hk. apply Hk. rewrite Ht. lia.
      + left. exists c. split; [|done]. apply map_lookup_filter_Some. split; [done|]. rewrite Ht. lia.
    - right. split; [|done]. apply map_lookup_filter_None. by left. }
  split; simpl; [done|by apply Hf..].
Qed.

(** *** Where taint comes from *)

Section taint.
Context (T : string -> Prop).   (* flows with a tainted report *)

Record tainted_ok (st : StitchTable) : Prop := {
  to_out : forall f c, outbound st !! f = Some c -> FlowID (Fingerprint c) = f /\ (Tainted c = true -> T f);
  to_in : forall f c, inbound st !! f = Some c -> FlowID (Fingerprint c) = f /\ (Tainted c = true -> T f);
}.

Definition edge_ok (e : StitchEdge) : Prop :=
  (e_Tainted e = true -> T (e_FlowID e)) /\ (Relation e = "lateral_move" -> e_Tainted e = true).

Lemma createEdge_tainted o i now st f :
  outbound st !! f = Some o -> inbound st !! f = Some i -> tainted_ok st ->
  tainted_ok (createEdge o i now st).1 /\ edge_ok (createEdge o i now st).2 /\
  edges (createEdge o i now st).1 = edges st ++ [(createEdge o i now st).2].
Proof.
  intros Ho Hi [H1 H2]. destruct (H1 _ _ Ho) as [Hof Hot], (H2 _ _ Hi) as [Hif Hit]. split; [split; simpl; [done|]|split; [|done]].
  - destruct (Tainted o); [|done]. rewrite Hif. intros f' c [[<- <-]|[_ ?]]%lookup_insert_Some; [simpl; auto|auto].
  - split; simpl; rewrite ?Hof; [intros [?|?]%orb_true_iff; auto|]. by destruct (Tainted o).
Qed.

Lemma record_tainted (d : bool) (r : report) (st : StitchTable) :
  (r_tainted r = true -> T (r_flow r)) -> tainted_ok st ->
  let res := if d then RecordOutbound r st else RecordInbound r st in
  tainted_ok res.1 /\ match res.2 with
                      | Some (Some e) => edge_ok e /\ edges res.1 = edges st ++ [e]
                      | _ => edges res.1 = edges st
                      end.
Proof.
  intros Hr [H1 H2]. destruct d; simpl.
  - unfold RecordOutbound. set (st1 := mkTable _ _ _ _ _).
    assert (tainted_ok st1) as Hok.
    { split; simpl; [|done]. intros f c [[<- <-]|[_ ?]]%lookup_insert_Some; [simpl; auto|auto]. }
    case_match; [done|]. destruct (inbound st1 !! r_flow r) as [i|] eqn:Ei; [|done]. destruct (close_in_time _ _ _); [|done].
    pose proof (createEdge_tainted (out_record r) i (r_created r) st1 (r_flow r)) as Hc.
    destruct (createEdge _ _ _ _) as [st2 e]. simpl in *. destruct Hc as (? & ? & ?); [by rewrite lookup_insert_eq|done..].
  - unfold RecordInbound. set (st1 := mkTable _ _ _ _ _).
    assert (tainted_ok st1) as Hok.
    { split; simpl; [done|]. intros f c [[<- <-]|[_ ?]]%lookup_insert_Some; [simpl; auto|auto]. }
    case_match; [done|]. destruct (outbound st1 !! r_flow r) as [o|] eqn:Ei; [|done]. destruct (close_in_time _ _ _); [|done].
    pose proof (createEdge_tainted o (in_record r) (r_created r) st1 (r_flow r)) as Hc.
    destruct (createEdge _ _ _ _) as [st2 e]. simpl in *. destruct Hc as (? & ? & ?); [done|by rewrite lookup_insert_eq|done..].
Qed.

Lemma clean_tainted now st : tainted_ok st -> tainted_ok (CleanOld now st).
Proof. intros [H1 H2]. split; simpl; intros f c [? _]%map_lookup_filter_Some; auto. Qed.

Lemma IsTainted_put agent pid t tp a p :
  t_Tainted t = true -> IsTainted a p (mkProp (put_taint agent pid t tp) (propagated tp)) = true <->
  (a = agent /\ p = pid) \/ IsTainted a p tp = true.
Proof.
  intros Ht. unfold IsTainted, GetTaintInfo, put_taint. simpl. destruct (decide (agent = a)) as [->|Ha].
  - rewrite lookup_insert_eq. simpl. destruct (decide (pid = p)) as [->|Hp].
    + rewrite lookup_insert_eq, Ht. naive_solver.
    + rewrite lookup_insert_ne by done. destruct (hostTaints tp !! a); simpl; [naive_solver|].
      rewrite lookup_empty. naive_solver.
  - rewrite lookup_insert_ne by done. naive_solver.
Qed.

(** The edge an operation created. *)
Definition created (x : option (option StitchEdge)) : list StitchEdge := match x with Some (Some e) => [e] | _ => [] end.

Definition marks (o : op) (a : string) (p : Z) : Prop := exists comm source now, o = OpMark a p comm source now.
Definition targets (es : list StitchEdge) (a : string) (p : Z) : Prop :=
  exists e, e ∈ es /\ e_Tainted e = true /\ TargetAgent e = a /\ TargetPID e = p.

Lemma targets_singleton e a p : targets [e] a p <-> e_Tainted e = true /\ TargetAgent e = a /\ TargetPID e = p.
Proof. unfold targets. split; [intros (e' & ->%list_elem_of_singleton & ?); done|]. intros ?. exists e. by rewrite list_elem_of_singleton. Qed.

Lemma targets_nil a p : ~ targets [] a p.
Proof. intros (e & He & _). by apply elem_of_nil in He. Qed.

Lemma PropagateViaStitch_spec e now tp a p :
  IsTainted a p (PropagateViaStitch e now tp) = true <-> targets [e] a p \/ IsTainted a p tp = true.
Proof.
  rewrite targets_singleton. unfold PropagateViaStitch. destruct (e_Tainted e) eqn:Et; simpl.
  - set (t := mkTaint _ _ _ _ _ _ _). change (IsTainted a p (mkProp ?m ?n)) with (IsTainted a p (mkProp m (propagated tp))).
    rewrite IsTainted_put by done. naive_solver.
  - naive_solver.
Qed.

Lemma step_taint o cs :
  (forall r now, o = OpOut r now \/ o = OpIn r now -> r_tainted r = true -> T (r_flow r)) -> tainted_ok (table cs) ->
  let cs' := (step o cs).1 in let es := created (step o cs).2 in
  tainted_ok (table cs') /\ edges (table cs') = edges (table cs) ++ es /\ (forall e, e ∈ es -> edge_ok e) /\
  forall a p, IsTainted a p (propagator cs') = true <-> IsTainted a p (propagator cs) = true \/ marks o a p \/ targets es a p.
Proof.
  intros Hr Hok. destruct o as [r now|r now|now|agent pid comm source now]; simpl.
  - unfold IngestOutbound, after_record. destruct (record_tainted true r (table cs)) as [H1 H2]; [eauto|done|].
    destruct (RecordOutbound r (table cs)) as [st x]. simpl in *.
    split; [done|]. destruct x as [[e|]|]; simpl in *.
    1: destruct H2 as [H2 H3]; split; [done|]; split; [intros e'; rewrite list_elem_of_singleton; by intros ->|];
       intros a p; rewrite PropagateViaStitch_spec; unfold marks; naive_solver.
    all: rewrite app_nil_r; split; [done|]; split; [set_solver|]; unfold marks; pose proof targets_nil; naive_solver.
  - unfold IngestInbound, after_record. destruct (record_tainted false r (table cs)) as [H1 H2]; [eauto|done|].
    destruct (RecordInbound r (table cs)) as [st x]. simpl in *.
    split; [done|]. destruct x as [[e|]|]; simpl in *.
    1: destruct H2 as [H2 H3]; split; [done|]; split; [intros e'; rewrite list_elem_of_singleton; by intros ->|];
       intros a p; rewrite PropagateViaStitch_spec; unfold marks; naive_solver.
    all: rewrite app_nil_r; split; [done|]; split; [set_solver|]; unfold marks; pose proof targets_nil; naive_solver.
  - split; [by apply clean_tainted|]. rewrite app_nil_r. split; [done|]. split; [set_solver|]. unfold marks. pose proof targets_nil. naive_solver.
  - split; [done|]. rewrite app_nil_r. split; [done|]. split; [set_solver|]. intros a p. unfold tp_MarkTainted.
    rewrite IsTainted_put by done. unfold marks. pose proof (targets_nil a p). naive_solver.
Qed.
End taint.

(** Flows with a tainted report. *)
Definition tainted_flow (ops : list op) (f : string) : Prop :=
  exists r now, (OpOut r now ∈ ops \/ OpIn r now ∈ ops) /\ r_flow r = f /\ r_tainted r = true.

Lemma run_links ops now h cs :
  table_ok now h (table cs) -> in_order now ops -> long_flows ops ->
  exists xs : list (option StitchEdge), (run ops cs).2 = fmap (M:=list) Some xs /\ fmap (M:=list) (fmap (M:=option) link) xs = links ops h.
Proof.
  revert now h cs. induction ops as [|o ops IH]; intros now h cs Hok Hord Hlong; simpl; [by exists []|].
  assert (long_flows ops) as Hl' by (intros r' n' [?|?]; eapply Hlong; [left|right]; by right).
  assert (exists x h' now', (step o cs).2 = Some x /\ links (o :: ops) h = (link <$> x) :: links ops h' /\
    table_ok now' h' (table (step o cs).1) /\ in_order now' ops) as (x & h' & now' & Hx & Hlk & Hok' & Hord').
  { destruct o as [r n|r n|n|agent pid comm source n]; simpl in *.
    - destruct Hord as [Hle Hord]. destruct (record_out now h (table cs) r Hok Hle) as (x & H1 & H2 & H3); [by eapply Hlong; left; left|].
      unfold IngestOutbound, after_record. destruct (RecordOutbound r (table cs)) as [st y]. simpl in *. subst y.
      eexists _, _, _. split; [done|]. rewrite H2. done.
    - destruct Hord as [Hle Hord]. destruct (record_in now h (table cs) r Hok Hle) as (x & H1 & H2 & H3); [by eapply Hlong; right; left|].
      unfold IngestInbound, after_record. destruct (RecordInbound r (table cs)) as [st y]. simpl in *. subst y.
      eexists _, _, _. split; [done|]. rewrite H2. done.
    - destruct Hord as [Hle Hord]. exists None, h, n. split; [done|]. split; [done|]. split; [|done]. by eapply table_clean.
    - by exists None, h, now. }
  destruct (IH now' h' (step o cs).1 Hok' Hord' Hl') as (xs & H1 & H2).
  change (match o with OpOut r _ => _ | _ => _ end) with (links (o :: ops) h). rewrite Hlk.
  destruct (step o cs) as [cs' y]. simpl in *. destruct (run ops cs') as [cs2 ys]. simpl in *. subst. exists (x :: xs).
  by rewrite !fmap_cons, H2.
Qed.

Lemma run_taint (T : string -> Prop) ops cs :
  (forall r now, OpOut r now ∈ ops \/ OpIn r now ∈ ops -> r_tainted r = true -> T (r_flow r)) -> tainted_ok T (table cs) ->
  let r := run ops cs in
  edges (table r.1) = edges (table cs) ++ (r.2 ≫= created) /\ (forall e, e ∈ (r.2 ≫= created) -> edge_ok T e) /\
  forall a p, IsTainted a p (propagator r.1) = true <->
    IsTainted a p (propagator cs) = true \/ (exists o, o ∈ ops /\ marks o a p) \/ targets (r.2 ≫= created) a p.
Proof.
  revert cs. induction ops as [|o ops IH]; intros cs HT Hok; simpl.
  - rewrite app_nil_r. split; [done|]. split; [set_solver|]. intros a p. pose proof (targets_nil a p). set_solver.
  - destruct (step_taint T o cs) as (H1 & H2 & H3 & H4); [intros r n Ho; apply (HT r n); destruct Ho as [<-|<-]; [left|right]; left|done|].
    destruct (step o cs) as [cs' x]. simpl in *.
    destruct (IH cs') as (I1 & I2 & I3); [intros r n Ho; apply (HT r n); destruct Ho; [left|right]; by right|done|].
    destruct (run ops cs') as [cs2 xs]. simpl in *. split; [by rewrite I1, H2, app_assoc|]. split.
    + intros e. rewrite elem_of_app. naive_solver.
    + intros a p. rewrite I3, H4.
      assert (targets (created x ++ (xs ≫= created)) a p <-> targets (created x) a p \/ targets (xs ≫= created) a p) as ->.
      { unfold targets. setoid_rewrite elem_of_app. naive_solver. }
      setoid_rewrite elem_of_cons. naive_solver.
Qed.

(** [C14] Stitching across hosts is exact.  For any sequence of connection reports, cleanups
    and taint marks on a new server, with flow identifiers of at least 16 bytes and a
    clock that does not go back: a report creates a link exactly when the latest report
    of the other end of its flow is at most 30 seconds old, and the link joins these two
    processes; cleanups never lose a link.  The server keeps exactly the created links.
    A link is tainted only if some report of its flow was, and always when it is a
    lateral move; and a process is tainted exactly when it was marked, or is the target
    of a tainted link. *)
Theorem stitch_exact start t0 ops :
  in_order t0 ops -> long_flows ops ->
  let r := run ops (NewCentralServer start) in
  (exists xs : list (option StitchEdge), r.2 = fmap (M:=list) Some xs /\ fmap (M:=list) (fmap (M:=option) link) xs = links ops []) /\
  edges (table r.1) = r.2 ≫= created /\
  (forall e, e ∈ edges (table r.1) -> (e_Tainted e = true -> tainted_flow ops (e_FlowID e)) /\
     (Relation e = "lateral_move" -> e_Tainted e = true)) /\
  forall a p, IsTainted a p (propagator r.1) = true <->
    (exists o, o ∈ ops /\ marks o a p) \/ targets (edges (table r.1)) a p.
Proof.
  intros Hord Hlong r. split.
  { apply (run_links ops t0); [|done..]. split; [done|..]; intros f; simpl; by rewrite lookup_empty. }
  destruct (run_taint (tainted_flow ops) ops (NewCentralServer start)) as (H1 & H2 & H3).
  - intros r' n Hin Ht. by exists r', n.
  - split; intros f c; simpl; by rewrite lookup_empty.
  - fold r in H1, H2, H3. rewrite H1. simpl. split; [done|]. split; [done|]. intros a p. rewrite H3.
    unfold IsTainted, GetTaintInfo. simpl. rewrite lookup_empty. simpl. naive_solver.
Qed.

(** ** A concrete run *)

Definition flow1 : string := "0123456789abcdef".
Definition rep (agent : string) (pid : Z) (tainted : bool) (t : Z) : report :=
  mkReport flow1 agent pid "sh" "10.0.0.1" "10.0.0.2" 40000 22 tainted "" (unix_epoch + t * Second) (unix_epoch + t * Second).
Definition sample_ops : list op :=
  [OpOut (rep "h1" 7 true 0) unix_epoch; OpClean (unix_epoch + 5 * Second); OpIn (rep "h2" 9 false 10) unix_epoch;
   OpOut (rep "h1" 7 false 50) unix_epoch].

Lemma stitch_exact_witness :
  IsTainted "h2" 9 (propagator (run sample_ops (NewCentralServer 0)).1) = true /\
  (fun e => (SourceAgent e, TargetAgent e, Relation e)) <$> edges (table (run sample_ops (NewCentralServer 0)).1)
  = [("h1", "h2", "lateral_move")].
Proof.
  destruct (stitch_exact 0 unix_epoch sample_ops) as (_ & _ & _ & H).
  - vm_compute. repeat split; discriminate.
  - intros r now Hr. unfold sample_ops in Hr. rewrite !elem_of_cons, !elem_of_nil in Hr.
    destruct Hr as [Hr|Hr]; repeat (destruct Hr as [Hr|Hr]; [simplify_eq; vm_compute; lia|]); done.
  - split; [|vm_compute; reflexivity]. apply H. right.
    exists (mkEdge "SE-1" flow1 "h1" 7 "sh" "h2" 9 "sh" "lateral_move" true (unix_epoch + 10 * Second)).
    split; [|done]. vm_compute. left.
Defined.

(** A shorter flow identifier panics, and the record stays in the table. *)
Example short_flow_panics :
  let r := mkReport "flow" "h1" 7 "sh" "" "" 0 0 false "" unix_epoch unix_epoch in
  (RecordOutbound r NewStitchTable).2 = None /\ is_Some (outbound (RecordOutbound r NewStitchTable).1 !! "flow").
Proof. vm_compute. split; [reflexivity|]. eexists. reflexivity. Qed.
