(* ===== verification/WorkerPool.v ===== *)
(** * The parallel event parser ([internal/engine/pipeline/workerpool.go])

    A dispatcher reads raw samples and hands them round robin to workers through the
    lock-free queues of [Spsc]; each worker parses its samples with [ParseRawEvent] of
    [Events] and sends the events to a channel.  The pool is a step relation in which the
    steps of the dispatcher, the workers, the queues (one access to shared memory at a
    time) and the readers of the channels interleave arbitrarily.  Fields whose names
    start with [h_] are history: they record what happened and no step reads them. *)
From S2P Require Import Prelude Events Spsc.

Import Spsc.

Record rawEvent := mkRaw { data : list Z; seq : Z }.

Inductive pool_error := ReadFailed (e : string) | ParseFailed (e : parse_error).

(** Where the loops are: the dispatcher at its top or in [TryPush] on a queue; a worker in
    [TryPop], with a sample, or about to send an event. *)
Inductive dispatcher := DLoop | DPush (n : nat).
Inductive worker := WLoop | WHas (ev : rawEvent) | WSend (e : Event).

(** A queue with its worker.  History: the samples assigned to it, those dropped, pushed
    and popped, and the events its worker sent. *)
Record lane := mkLane {
  conf : @config rawEvent; work : worker;
  h_given : list rawEvent; h_lost : list rawEvent; h_pushed : list rawEvent; h_popped : list rawEvent; h_sent : list Event;
}.

Record WorkerPool := mkPool {
  lanes : list lane; disp : dispatcher; next : Z; dropped : Z; eventsParsed : Z;
  eventCh : list Event; eventCap : Z; errCh : list pool_error;
  h_reads : list rawEvent; h_received : list Event;
}.

(** [gomaxprocs]: the result of [runtime.GOMAXPROCS(0)]. *)
Definition NewWorkerPool (gomaxprocs NumWorkers QueueSize : Z) : WorkerPool :=
  let n := if NumWorkers <=? 0 then gomaxprocs else NumWorkers in
  mkPool (replicate (Z.to_nat n) (mkLane (init QueueSize) WLoop [] [] [] [] []))
    DLoop 0 0 0 [] (n * QueueSize) [] [] [].

(** [select { case errCh <- err: default: }] on a channel of capacity 16. *)
Definition try_err (e : pool_error) (p : list pool_error) : list pool_error :=
  if (length p <? 16)%nat then p ++ [e] else p.

Definition set_lane (n : nat) (l : lane) (p : WorkerPool) : WorkerPool :=
  mkPool (<[n := l]> (lanes p)) (disp p) (next p) (dropped p) (eventsParsed p) (eventCh p) (eventCap p) (errCh p)
    (h_reads p) (h_received p).

(** [n := d.next.Add(1) % uint64(len(d.queues))]. *)
Definition next_seq (p : WorkerPool) : Z := u64 (next p + 1).
Definition target (count : nat) (s : Z) : nat := Z.to_nat (s `mod` Z.of_nat count).

(** A sample was read: the dispatcher starts [TryPush] on its queue. *)
Definition start_push (n : nat) (ev : rawEvent) (l : lane) (p : WorkerPool) : WorkerPool :=
  mkPool (<[n := mkLane (mkConfig (queue (conf l)) (PStart ev) (cons (conf l))) (work l) (h_given l ++ [ev])
                   (h_lost l) (h_pushed l) (h_popped l) (h_sent l)]> (lanes p))
    (DPush n) (next_seq p) (dropped p) (eventsParsed p) (eventCh p) (eventCap p) (errCh p) (h_reads p ++ [ev]) (h_received p).

(** What completing an operation of a queue means to its users. *)
Definition lane_after (c : @config rawEvent) (lb : @label rawEvent) (l : lane) : lane :=
  match lb with
  | Pushed ev => mkLane c (work l) (h_given l) (h_lost l) (h_pushed l ++ [ev]) (h_popped l) (h_sent l)
  | Full ev => mkLane c (work l) (h_given l) (h_lost l ++ [ev]) (h_pushed l) (h_popped l) (h_sent l)
  | Popped ev => mkLane c (WHas ev) (h_given l) (h_lost l) (h_pushed l) (h_popped l ++ [ev]) (h_sent l)
  | _ => mkLane c (work l) (h_given l) (h_lost l) (h_pushed l) (h_popped l) (h_sent l)
  end.

Definition queue_step (n : nat) (c : @config rawEvent) (lb : @label rawEvent) (l : lane) (p : WorkerPool) : WorkerPool :=
  mkPool (<[n := lane_after c lb l]> (lanes p))
    (match lb with Pushed _ | Full _ => DLoop | _ => disp p end) (next p)
    (match lb with Full _ => i64 (dropped p + 1) | _ => dropped p end) (eventsParsed p) (eventCh p) (eventCap p) (errCh p)
    (h_reads p) (h_received p).

(** The producer side moves only for the dispatcher, inside [TryPush] on this queue; the
    consumer side only while the worker is in its loop. *)
Definition allowed (d : dispatcher) (n : nat) (w : worker) (c c' : @config rawEvent) : Prop :=
  (prod c' = prod c \/ (d = DPush n /\ prod c <> PIdle)) /\ (cons c' = cons c \/ w = WLoop).

Definition set_work (w : worker) (sent : list Event) (l : lane) : lane :=
  mkLane (conf l) w (h_given l) (h_lost l) (h_pushed l) (h_popped l) (h_sent l ++ sent).

Inductive pstep : WorkerPool -> WorkerPool -> Prop :=
| ps_read p d l : disp p = DLoop -> lanes p !! target (length (lanes p)) (next_seq p) = Some l ->
    pstep p (start_push (target (length (lanes p)) (next_seq p)) (mkRaw d (next_seq p)) l p)
| ps_read_error p e : disp p = DLoop ->
    pstep p (mkPool (lanes p) (disp p) (next p) (dropped p) (eventsParsed p) (eventCh p) (eventCap p)
               (try_err (ReadFailed e) (errCh p)) (h_reads p) (h_received p))
| ps_queue p n l lb c : lanes p !! n = Some l -> step (conf l) lb c -> allowed (disp p) n (work l) (conf l) c ->
    pstep p (queue_step n c lb l p)
| ps_parse p n l ev e : lanes p !! n = Some l -> work l = WHas ev -> ParseRawEvent (data ev) = inr e ->
    pstep p (mkPool (<[n := set_work (WSend e) [] l]> (lanes p)) (disp p) (next p) (dropped p) (i64 (eventsParsed p + 1))
               (eventCh p) (eventCap p) (errCh p) (h_reads p) (h_received p))
| ps_bad p n l ev err : lanes p !! n = Some l -> work l = WHas ev -> ParseRawEvent (data ev) = inl err ->
    pstep p (mkPool (<[n := set_work WLoop [] l]> (lanes p)) (disp p) (next p) (dropped p) (eventsParsed p) (eventCh p)
               (eventCap p) (try_err (ParseFailed err) (errCh p)) (h_reads p) (h_received p))
| ps_send p n l e : lanes p !! n = Some l -> work l = WSend e -> Z.of_nat (length (eventCh p)) < eventCap p ->
    pstep p (mkPool (<[n := set_work WLoop [e] l]> (lanes p)) (disp p) (next p) (dropped p) (eventsParsed p)
               (eventCh p ++ [e]) (eventCap p) (errCh p) (h_reads p) (h_received p))
| ps_receive p e rest : eventCh p = e :: rest ->
    pstep p (mkPool (lanes p) (disp p) (next p) (dropped p) (eventsParsed p) rest (eventCap p) (errCh p) (h_reads p)
               (h_received p ++ [e]))
| ps_receive_error p e rest : errCh p = e :: rest ->
    pstep p (mkPool (lanes p) (disp p) (next p) (dropped p) (eventsParsed p) (eventCh p) (eventCap p) rest (h_reads p)
               (h_received p)).

(** ** Where the samples are *)

Definition flight (c : @config rawEvent) : list rawEvent :=
  match prod c with PIdle => [] | PStart x | PTail x _ | PRoom x _ | PWritten x _ => [x] end.
Definition in_flight (l : lane) : list rawEvent := flight (conf l).

(** The contents of the queue: pushed and not yet popped. *)
Definition queued (l : lane) : list rawEvent := drop (length (h_popped l)) (h_pushed l).

Definition parsed_event (ev : rawEvent) : option Event :=
  match ParseRawEvent (data ev) with inr e => Some e | inl _ => None end.

Definition in_hand (l : lane) : list Event :=
  match work l with WLoop => [] | WHas ev => omap parsed_event [ev] | WSend e => [e] end.

Definition sending (l : lane) : list Event := match work l with WSend e => [e] | _ => [] end.

Definition busy (d : dispatcher) (n : nat) : Prop := d = DPush n.

Record lane_ok (count : nat) (reads : list rawEvent) (d : dispatcher) (n : nat) (l : lane) : Prop := {
  lo_queue : exists k, inv k (h_pushed l) (h_popped l) (conf l);
  lo_idle : prod (conf l) <> PIdle <-> busy d n;
  lo_given : h_given l = filter (fun ev => target count (seq ev) = n) reads;
  lo_all : Permutation (h_given l) (h_lost l ++ h_pushed l ++ in_flight l);
  lo_order : h_pushed l ++ in_flight l `sublist_of` h_given l;
  lo_out : omap parsed_event (h_popped l) = h_sent l ++ in_hand l;
}.

Record pool_ok (count : nat) (p : WorkerPool) : Prop := {
  po_lanes : forall n l, lanes p !! n = Some l -> lane_ok count (h_reads p) (disp p) n l;
  po_count : length (lanes p) = count;
  po_events : Permutation (h_received p ++ eventCh p) (concat (h_sent <$> lanes p));
  po_dropped : dropped p = i64 (Z.of_nat (length (concat (h_lost <$> lanes p))));
  po_parsed : eventsParsed p = i64 (Z.of_nat (length (concat ((fun l => h_sent l ++ sending l) <$> lanes p))));
}.

(** Appending to one of several lists. *)
Lemma concat_insert {A B} (f : A -> list B) (l : list A) n x y d :
  l !! n = Some x -> f y = f x ++ d -> Permutation (concat (f <$> <[n := y]> l)) (concat (f <$> l) ++ d).
Proof.
  intros Hx Hy. revert n Hx. induction l as [|z l IH]; intros [|n] Hx; simplify_eq/=.
  - rewrite Hy, <-!app_assoc. apply Permutation_app_head. apply Permutation_app_comm.
  - rewrite IH by done. by rewrite <-app_assoc.
Qed.

Lemma concat_insert_same {A B} (f : A -> list B) (l : list A) n x y :
  l !! n = Some x -> f y = f x -> concat (f <$> <[n := y]> l) = concat (f <$> l).
Proof. intros Hx Hy. rewrite list_fmap_insert, Hy, list_insert_id; [done|]. by rewrite list_lookup_fmap, Hx. Qed.

Lemma lane_lookup_cases n m (l l0 : lane) (ls : list lane) :
  <[n := l]> ls !! m = Some l0 -> (m = n /\ l0 = l) \/ (m <> n /\ ls !! m = Some l0).
Proof. intros H. apply list_lookup_insert_Some in H. naive_solver. Qed.

(** What a step of a queue does to the push in progress. *)
Lemma queue_effect (c c' : @config rawEvent) lb :
  step c lb c' -> (prod c' = prod c \/ prod c <> PIdle) ->
  match lb with
  | Pushed x | Full x => flight c = [x] /\ flight c' = [] /\ prod c' = PIdle /\ prod c <> PIdle
  | Popped _ | Empty => prod c' = prod c
  | Tau => flight c' = flight c /\ (prod c' <> PIdle <-> prod c <> PIdle)
  end /\ match lb with Popped _ => cons c' <> cons c | _ => True end.
Proof. intros Hst Hp. unfold flight. destruct Hst; simpl in *; try done; destruct Hp; done. Qed.

Section preserve.
Context (count : nat) (p : WorkerPool) (Hok : pool_ok count p).

Lemma other_lane n d' reads' m l :
  m <> n -> (forall k, k <> n -> busy d' k <-> busy (disp p) k) ->
  (filter (fun ev => target count (seq ev) = m) reads' = filter (fun ev => target count (seq ev) = m) (h_reads p)) ->
  lanes p !! m = Some l -> lane_ok count reads' d' m l.
Proof.
  intros Hne Hd Hr Hl. destruct (po_lanes _ _ Hok m l Hl) as [H1 H2 H3 H4 H5 H6]. split; try done.
  - by rewrite H2, Hd.
  - by rewrite Hr.
Qed.

Lemma given_bound n l : lanes p !! n = Some l -> (length (h_pushed l) <= length (h_reads p))%nat.
Proof.
  intros Hl. destruct (po_lanes _ _ Hok n l Hl) as [_ _ H3 _ H5 _]. apply sublist_length in H5.
  rewrite length_app, H3 in H5. pose proof (length_filter (fun ev => target count (seq ev) = n) (h_reads p)). lia.
Qed.

Lemma read_lane d l (n := target count (next_seq p)) (ev := mkRaw d (next_seq p)) :
  disp p = DLoop -> lanes p !! n = Some l ->
  lane_ok count (h_reads p ++ [ev]) (DPush n) n
    (mkLane (mkConfig (queue (conf l)) (PStart ev) (cons (conf l))) (work l) (h_given l ++ [ev]) (h_lost l) (h_pushed l) (h_popped l) (h_sent l)).
Proof.
  intros Hd Hl. destruct (po_lanes _ _ Hok n l Hl) as [[k H1] H2 H3 H4 H5 H6].
  assert (prod (conf l) = PIdle) as Hp.
  { destruct (prod (conf l)) eqn:E; [done|..]; exfalso; assert (busy (disp p) n) as Hb by (by apply H2); rewrite Hd in Hb; done. }
  unfold in_flight, flight in H4, H5. rewrite Hp, app_nil_r in H4, H5. split; simpl.
  - exists k. destruct H1. split; simpl in *; try done.
  - done.
  - rewrite H3, filter_app, filter_cons, decide_True by done. done.
  - unfold in_flight; simpl. etransitivity; [apply Permutation_app_tail, H4|]. by rewrite <-!app_assoc.
  - unfold in_flight; simpl. by apply sublist_app.
  - done.
Qed.

Lemma queue_lane n l lb c :
  lanes p !! n = Some l -> Z.of_nat (length (h_reads p)) + 1 < 2 ^ 64 -> step (conf l) lb c ->
  allowed (disp p) n (work l) (conf l) c ->
  lane_ok count (h_reads p) (match lb with Pushed _ | Full _ => DLoop | _ => disp p end) n (lane_after c lb l).
Proof.
  intros Hl Hb Hst [Hprod Hcons]. destruct (po_lanes _ _ Hok n l Hl) as [[k H1] H2 H3 H4 H5 H6].
  pose proof (given_bound n l Hl) as Hpb.
  destruct (step_simulates k (h_pushed l) (h_popped l) ltac:(lia) _ _ _ H1 Hst) as [Hi _].
  assert (prod c = prod (conf l) \/ prod (conf l) <> PIdle) as Hpc by tauto.
  destruct (queue_effect _ _ _ Hst Hpc) as [He Hc]. unfold in_flight in *.
  destruct lb as [|x|x|x|]; simpl in Hi; rewrite ?app_nil_r in Hi.
  - destruct He as [Hf Hpi]. split; simpl; [by exists k|by rewrite Hpi|done|unfold in_flight; simpl; by rewrite Hf..|done].
  - destruct He as (Hf & Hf' & Hpi & Hne). rewrite Hf in *. split; simpl; [by exists k|by rewrite Hpi|done|..|done]; unfold in_flight; simpl; rewrite Hf', app_nil_r; done.
  - destruct He as (Hf & Hf' & Hpi & Hne). rewrite Hf in *. split; simpl; [by exists k|by rewrite Hpi|done|..|done]; unfold in_flight; simpl; rewrite Hf', app_nil_r.
    + etransitivity; [exact H4|]. rewrite <-app_assoc. apply Permutation_app_head, Permutation_app_comm.
    + etransitivity; [|exact H5]. by apply sublist_inserts_r.
  - destruct Hcons as [?|Hw]; [done|]. unfold in_hand in H6. rewrite Hw, app_nil_r in H6.
    assert (flight c = flight (conf l)) as Hf by (unfold flight; by rewrite He).
    split; simpl; [by exists k|by rewrite He|done|unfold in_flight; simpl; by rewrite Hf..|].
    rewrite omap_app, H6. done.
  - assert (flight c = flight (conf l)) as Hf by (unfold flight; by rewrite He).
    split; simpl; [by exists k|by rewrite He|done|unfold in_flight; simpl; by rewrite Hf..|done].
Qed.

Lemma work_lane n l w sent :
  lanes p !! n = Some l ->
  h_sent l ++ in_hand l = (h_sent l ++ sent) ++ in_hand (set_work w sent l) -> lane_ok count (h_reads p) (disp p) n (set_work w sent l).
Proof. intros Hl He. destruct (po_lanes _ _ Hok n l Hl) as [H1 H2 H3 H4 H5 H6]. split; try done. unfold set_work; simpl. rewrite H6. exact He. Qed.
End preserve.

(** A history that grows by [d] in one lane, counted over all lanes. *)
Lemma count_insert {B} (f : lane -> list B) (ls : list lane) n l l' d :
  ls !! n = Some l -> f l' = f l ++ d ->
  length (concat (f <$> <[n := l']> ls)) = (length (concat (f <$> ls)) + length d)%nat.
Proof. intros Hl Hf. rewrite (concat_insert f ls n l l' d Hl Hf). apply length_app. Qed.

Lemma pstep_reads p p' : pstep p p' -> (length (h_reads p) <= length (h_reads p'))%nat.
Proof. destruct 1; simpl; rewrite ?length_app; lia. Qed.

Definition all_sent (p : WorkerPool) := concat (h_sent <$> lanes p).

Section step.
Context (count : nat) (p : WorkerPool) (Hok : pool_ok count p).

Lemma lanes_read d l (n := target count (next_seq p)) (ev := mkRaw d (next_seq p)) :
  disp p = DLoop -> lanes p !! n = Some l -> pool_ok count (start_push n ev l p).
Proof.
  intros Hd Hl. split; simpl.
  - intros m l0 Hm. destruct (lane_lookup_cases _ _ _ _ _ Hm) as [[-> ->]|[Hne Hm']].
    + by apply (read_lane count p Hok d l).
    + apply (other_lane count p Hok n); try done.
      * intros k Hk. unfold busy. rewrite Hd. split; [congruence|done].
      * rewrite filter_app, filter_cons, decide_False, filter_nil, app_nil_r; [done|].
        intros Heq. by apply Hne.
  - rewrite length_insert. apply (po_count _ _ Hok).
  - rewrite (concat_insert_same h_sent _ _ l) by done. apply (po_events _ _ Hok).
  - rewrite (concat_insert_same h_lost _ _ l) by done. apply (po_dropped _ _ Hok).
  - rewrite (concat_insert_same (fun l => h_sent l ++ sending l) _ _ l) by done. apply (po_parsed _ _ Hok).
Qed.

Lemma lanes_queue n l lb c :
  lanes p !! n = Some l -> Z.of_nat (length (h_reads p)) + 1 < 2 ^ 64 -> step (conf l) lb c ->
  allowed (disp p) n (work l) (conf l) c -> pool_ok count (queue_step n c lb l p).
Proof.
  intros Hl Hb Hst Hal. pose proof Hal as [Hpr Hco].
  destruct (queue_effect _ _ _ Hst ltac:(tauto)) as [He Hc]. split; simpl.
  - intros m l0 Hm. destruct (lane_lookup_cases _ _ _ _ _ Hm) as [[-> ->]|[Hne Hm']]; [by apply queue_lane|].
    apply (other_lane count p Hok n); try done. intros k Hk.
    assert (prod (conf l) <> PIdle -> disp p = DPush n) as Hd by apply (lo_idle _ _ _ _ _ (po_lanes _ _ Hok n l Hl)).
    destruct lb; try done; destruct He as (_ & _ & _ & Hn); unfold busy; rewrite (Hd Hn); split; congruence.
  - rewrite length_insert. apply (po_count _ _ Hok).
  - rewrite (concat_insert_same h_sent _ _ l) by (done || by destruct lb). apply (po_events _ _ Hok).
  - destruct lb as [|x|x|x|]; try (rewrite (concat_insert_same h_lost _ _ l) by done; apply (po_dropped _ _ Hok)).
    rewrite (count_insert h_lost _ _ l _ [x]) by done. rewrite (po_dropped _ _ Hok), i64_succ. f_equal. simpl. lia.
  - rewrite (concat_insert_same (fun l => h_sent l ++ sending l) _ _ l); [apply (po_parsed _ _ Hok)|done|].
    destruct lb as [|x|x|x|]; try done. destruct Hco as [?|Hw]; [done|]. unfold sending; simpl. by rewrite Hw.
Qed.

(** A step of worker [n] that changes nothing but what it is doing and has sent. *)
Lemma lanes_work n l w sent parsed ch rc errs :
  lanes p !! n = Some l ->
  h_sent l ++ in_hand l = (h_sent l ++ sent) ++ in_hand (set_work w sent l) ->
  parsed = i64 (Z.of_nat (length (concat ((fun l => h_sent l ++ sending l) <$> <[n := set_work w sent l]> (lanes p))))) ->
  Permutation (rc ++ ch) (h_received p ++ eventCh p ++ sent) ->
  pool_ok count (mkPool (<[n := set_work w sent l]> (lanes p)) (disp p) (next p) (dropped p) parsed ch (eventCap p) errs (h_reads p) rc).
Proof.
  intros Hl He Hp Hch. split; simpl.
  - intros m l0 Hm. destruct (lane_lookup_cases _ _ _ _ _ Hm) as [[-> ->]|[Hne Hm']]; [by apply work_lane|].
    by apply (other_lane count p Hok n).
  - rewrite length_insert. apply (po_count _ _ Hok).
  - rewrite (concat_insert h_sent _ _ l _ sent) by done. rewrite Hch, app_assoc. apply Permutation_app_tail, (po_events _ _ Hok).
  - rewrite (concat_insert_same h_lost _ _ l) by done. apply (po_dropped _ _ Hok).
  - exact Hp.
Qed.

End step.

Lemma pstep_ok count p p' : pool_ok count p -> Z.of_nat (length (h_reads p)) + 1 < 2 ^ 64 -> pstep p p' -> pool_ok count p'.
Proof.
  intros Hok Hb Hst. destruct Hst as [p d l Hd Hl|p e Hd|p n l lb c Hl Hs Ha|p n l ev e Hl Hw He|p n l ev err Hl Hw He|p n l e Hl Hw Hroom|p e rest He|p e rest He].
  - rewrite (po_count _ _ Hok) in *. by apply lanes_read.
  - destruct Hok. by split.
  - by apply lanes_queue.
  - apply (lanes_work _ _ Hok); [done|..].
    + unfold in_hand, parsed_event. rewrite Hw. simpl. unfold parsed_event. by rewrite He, app_nil_r.
    + rewrite (count_insert _ _ _ l _ [e]); [|done|unfold sending; rewrite Hw; simpl; by rewrite !app_nil_r].
      rewrite (po_parsed _ _ Hok), i64_succ. f_equal. simpl. lia.
    + by rewrite app_nil_r.
  - apply (lanes_work _ _ Hok); [done|..].
    + unfold in_hand. rewrite Hw. simpl. unfold parsed_event. by rewrite He, !app_nil_r.
    + rewrite (concat_insert_same _ _ _ l); [apply (po_parsed _ _ Hok)|done|]. unfold sending; rewrite Hw; simpl. by rewrite !app_nil_r.
    + by rewrite app_nil_r.
  - apply (lanes_work _ _ Hok); [done|..].
    + unfold in_hand. rewrite Hw. simpl. by rewrite app_nil_r.
    + rewrite (concat_insert_same _ _ _ l); [apply (po_parsed _ _ Hok)|done|]. unfold sending; rewrite Hw; simpl. by rewrite !app_nil_r.
    + done.
  - destruct Hok as [H1 H2 H3 H4 H5]. split; try done. simpl. rewrite He in H3. by rewrite <-app_assoc.
  - destruct Hok. by split.
Qed.

Definition workers_of (gomaxprocs NumWorkers : Z) : nat := Z.to_nat (if NumWorkers <=? 0 then gomaxprocs else NumWorkers).

Lemma concat_replicate_nil {B} n : concat (replicate n (@nil B)) = [].
Proof. by induction n. Qed.

Lemma new_pool_ok g nw qs : pool_ok (workers_of g nw) (NewWorkerPool g nw qs).
Proof.
  split; simpl.
  - intros n l Hl. apply lookup_replicate in Hl as [-> _]. destruct (init_inv (A := rawEvent) qs) as (k & _ & Hi).
    split; simpl; try done. by exists k.
  - by rewrite length_replicate.
  - rewrite fmap_replicate. simpl. by rewrite concat_replicate_nil.
  - rewrite fmap_replicate. simpl. by rewrite concat_replicate_nil.
  - rewrite fmap_replicate. unfold sending. simpl. by rewrite concat_replicate_nil.
Qed.

Lemma pool_reachable g nw qs p :
  rtc pstep (NewWorkerPool g nw qs) p -> Z.of_nat (length (h_reads p)) + 1 < 2 ^ 64 -> pool_ok (workers_of g nw) p.
Proof.
  revert p. apply (rtc_ind_r (fun p => Z.of_nat (length (h_reads p)) + 1 < 2 ^ 64 -> pool_ok (workers_of g nw) p)).
  - intros _. apply new_pool_ok.
  - intros p p' _ Hst IH Hb. pose proof (pstep_reads _ _ Hst). apply (pstep_ok _ p p'); [apply IH; lia|lia|done].
Qed.

(** The dispatcher numbers the samples consecutively from one. *)
Definition numbered (p : WorkerPool) : Prop :=
  next p = Z.of_nat (length (h_reads p)) /\ seq <$> h_reads p = (fun i => Z.of_nat i + 1) <$> List.seq 0 (length (h_reads p)).

Lemma pstep_numbered p p' : pstep p p' -> Z.of_nat (length (h_reads p')) < 2 ^ 64 -> numbered p -> numbered p'.
Proof.
  destruct 1; try done. unfold numbered. simpl. rewrite length_app. simpl. intros Hb [Hn Hs].
  assert (next_seq p = Z.of_nat (length (h_reads p)) + 1) as E by (unfold next_seq, u64; rewrite Hn, Z.mod_small; lia).
  rewrite E. split; [lia|]. rewrite fmap_app, Hs, seq_app, fmap_app. done.
Qed.

Lemma numbered_reachable g nw qs p :
  rtc pstep (NewWorkerPool g nw qs) p -> Z.of_nat (length (h_reads p)) < 2 ^ 64 -> numbered p.
Proof.
  revert p. apply (rtc_ind_r (fun p => Z.of_nat (length (h_reads p)) < 2 ^ 64 -> numbered p)); [done|].
  intros p p' _ Hst IH Hb. pose proof (pstep_reads _ _ Hst). apply (pstep_numbered p); [done|lia|apply IH; lia].
Qed.

(** Splitting a list by the value of a function below [n]. *)
Lemma concat_classes {A} (f : A -> nat) (xs : list A) n :
  Forall (fun x => f x < n)%nat xs ->
  Permutation xs (concat ((fun i => filter (fun x => f x = i) xs) <$> List.seq 0 n)).
Proof.
  induction 1 as [|x xs Hx _ IH]; [by induction (List.seq 0 n)|].
  assert (forall m ys (g g' : nat -> list A), (f x < m)%nat -> (forall i, i <> f x -> g' i = g i) -> g' (f x) = x :: g (f x) ->
    ys = List.seq 0 m -> Permutation (concat (g' <$> ys)) (x :: concat (g <$> ys))) as Hgen.
  { intros m ys g g' Hlt Ho Hs ->. assert (List.seq 0 m = List.seq 0 (f x) ++ f x :: List.seq (S (f x)) (m - S (f x))) as ->.
    { replace m with (f x + S (m - S (f x)))%nat at 1 by lia. by rewrite seq_app. }
    rewrite !fmap_app, !fmap_cons, !concat_app. simpl. rewrite Hs.
    rewrite (list_fmap_ext g' g (List.seq 0 (f x))), (list_fmap_ext g' g (List.seq (S (f x)) _)).
    - symmetry. apply Permutation_middle.
    - intros i y Hy. apply Ho. apply lookup_seq in Hy. lia.
    - intros i y Hy. apply Ho. apply lookup_seq in Hy. lia. }
  rewrite (Hgen n (List.seq 0 n) (fun i => filter (fun y => f y = i) xs) (fun i => filter (fun y => f y = i) (x :: xs))); try done.
  - by constructor.
  - intros i Hi. by rewrite filter_cons, decide_False.
  - by rewrite filter_cons, decide_True.
Qed.

Lemma target_lt count s : (0 < count)%nat -> (target count s < count)%nat.
Proof. intros H. unfold target. pose proof (Z.mod_pos_bound s (Z.of_nat count)). lia. Qed.

Lemma all_given count p : (0 < count)%nat -> pool_ok count p -> Permutation (h_reads p) (concat (h_given <$> lanes p)).
Proof.
  intros Hc Hok. rewrite (concat_classes (fun ev => target count (seq ev)) (h_reads p) count) at 1.
  2: { apply Forall_true. intros ev. by apply target_lt. }
  apply reflexive_eq. f_equal. apply list_eq. intros i. rewrite !list_lookup_fmap.
  destruct (lanes p !! i) as [l|] eqn:E; simpl.
  - pose proof (lookup_lt_Some _ _ _ E) as Hlt. rewrite (po_count _ _ Hok) in Hlt.
    rewrite lookup_seq_lt by done. simpl. f_equal. symmetry. apply (lo_given _ _ _ _ _ (po_lanes _ _ Hok i l E)).
  - apply lookup_ge_None in E. rewrite (po_count _ _ Hok) in E. by rewrite lookup_seq_ge.
Qed.

Lemma lane_accounted count reads d n l (Hl : lane_ok count reads d n l) :
  Permutation (h_given l) (h_lost l ++ h_popped l ++ queued l ++ in_flight l) /\
  h_popped l ++ queued l ++ in_flight l `sublist_of` h_given l.
Proof.
  destruct Hl as [[k Hi] _ _ H4 H5 _]. pose proof (i_fifo _ _ _ _ Hi) as [r Hr].
  unfold queued. rewrite Hr, drop_app_length in *. rewrite <-app_assoc in *. done.
Qed.

(** ** Theorem *)


(** Evaluate the state reached, and one step [s] of the queue of lane zero. *)
Ltac normalise :=
  lazymatch goal with |- rtc pstep ?p ?q => let v := eval vm_compute in p in
    let E := fresh in assert (p = v) as E by (vm_compute; reflexivity); rewrite E; clear E end.
Ltac queue_move s :=
  eapply rtc_l; [eapply (ps_queue _ 0%nat); [reflexivity|simpl; eapply s; vm_compute; reflexivity|vm_compute; split; first [by left|right; split; done|by right]]|normalise].

Lemma one_sample d e : ParseRawEvent d = inr e -> exists p, rtc pstep (NewWorkerPool 1 1 1) p /\ length (h_reads p) = 1%nat /\ h_received p = [e] /\
  eventCh p = [] /\ eventsParsed p = 1 /\ dropped p = 0.
Proof.
  intros Hd. eexists. split.
  - eapply rtc_l; [eapply (ps_read _ d); reflexivity|normalise].
    queue_move (@step_load_tail rawEvent).
    queue_move (@step_room rawEvent).
    queue_move (@step_write rawEvent).
    queue_move (@step_store_tail rawEvent).
    queue_move (@step_load_head rawEvent).
    queue_move (@step_nonempty rawEvent).
    queue_move (@step_read rawEvent).
    queue_move (@step_clear rawEvent).
    queue_move (@step_store_head rawEvent).
    eapply rtc_l; [eapply (ps_parse _ 0%nat); [reflexivity|reflexivity|exact Hd]|normalise].
    eapply rtc_l; [eapply (ps_send _ 0%nat); reflexivity|normalise].
    eapply rtc_l; [eapply ps_receive; reflexivity|].
    apply rtc_refl.
  - done.
Qed.

