(* ===== verification/RuleScan.v ===== *)
(** * Detection rules and the scanner ([internal/policy/rulescanner])

    A rule selects events by fields, patterns and numeric comparisons, and combines named
    selections with a boolean condition, which a recursive-descent parser evaluates while
    reading it.  The scanner raises one alert for the first rule an event matches and sends
    the alerts in batches.  Regular expressions are the class [GoRegexp]; decoding of YAML
    is a parameter.  The file holds the rules, the grammar of conditions with its meaning,
    and the proof that parser and scanner follow them. *)
From S2P Require Import Prelude GoStrings GoFloat.
From Stdlib Require Import Ascii.

(** [regexp.Compile] and [MatchString]. *)
Class GoRegexp := { Regexp : Type; re_Compile : string -> option Regexp; re_MatchString : Regexp -> string -> bool }.

(** [compiledRE]: the compiled expressions, by pattern, of the whole package. *)
Abbreviation re_cache := (gmap string Regexp).

Record pbEvent := mkEvent {
  Type_ : Z; Flags_ : Z; TimestampNs : Z; Pid : Z; Tid : Z; Ppid : Z; Uid : Z; Gid : Z; Comm_ : string; Pathname : string;
  Inode : Z; DevMajor : Z; DevMinor : Z; Mode : Z; FFlags : Z; ChildPid : Z; Saddr : Z; Daddr : Z; Sport : Z; Dport : Z; Protocol : Z;
}.

Record Selection := mkSel {
  EventType : list Z; TargetPath : string; Comm : string; UID : string; PID : string;
  TargetIP : string; TargetPort : string; Flags : string;
}.

Record Detection := mkDet { Inline : Selection; NamedSelections : gmap string Selection; Condition : string }.

Record Rule := mkRule {
  Title : string; ID : string; Description : string; Author : string; Date : string; Level : string;
  Tags : list string; Detect : Detection;
}.

(** ** Loading *)

Inductive load_error := ParseRule (e : string) | MissingTitle.

Definition set_level (l : string) (r : Rule) : Rule :=
  mkRule (Title r) (ID r) (Description r) (Author r) (Date r) l (Tags r) (Detect r).

(** [yaml]: the result of [yaml.Unmarshal]. *)
Definition LoadRule (yaml : string + Rule) : load_error + Rule :=
  match yaml with
  | inl e => inl (ParseRule e)
  | inr r => if String.eqb (Title r) "" then inl MissingTitle
             else inr (if String.eqb (Level r) "" then set_level "medium" r else r)
  end.

(** The documents the decoder returns, up to its first error. *)
Fixpoint ParseMultiRules (docs : list (string + Rule)) : list Rule :=
  match docs with
  | inr r :: docs => (if String.eqb (Title r) "" then [] else [r]) ++ ParseMultiRules docs
  | _ => []
  end.

(** ** The condition language *)

Inductive condTokenType := tokIdent | tokAND | tokOR | tokNOT | tokLParen | tokRParen | tokEOF.

#[global] Instance condTokenType_eq_dec : EqDecision condTokenType.
Proof. solve_decision. Defined.

Record condToken := mkTok { typ : condTokenType; val : string }.

Definition blank (r : Z) : bool := (r =? 32) || (r =? 9).
Definition separator (r : Z) : bool := blank r || (r =? 40) || (r =? 41).

(** The bytes of a rune in [string(runes)]: an undecodable byte becomes the replacement
    character. *)
Definition rune_bytes (seg : Z * list Z) : list Z := if seg.1 =? RuneError then [0xEF; 0xBF; 0xBD] else seg.2.

Section rules.
Context `{UnicodeCase}.

Definition word_token (word : string) : condToken :=
  mkTok (if String.eqb (ToUpper word) "AND" then tokAND
         else if String.eqb (ToUpper word) "OR" then tokOR
         else if String.eqb (ToUpper word) "NOT" then tokNOT else tokIdent) word.

(** [word]: the bytes of the word being read. *)
Fixpoint tokenize_from (word : list Z) (l : list (Z * list Z)) : list condToken :=
  let flush := match word with [] => [] | _ => [word_token (string_of_bytes word)] end in
  match l with
  | [] => flush ++ [mkTok tokEOF ""]
  | seg :: l =>
      if blank seg.1 then flush ++ tokenize_from [] l
      else if seg.1 =? 40 then flush ++ mkTok tokLParen "(" :: tokenize_from [] l
      else if seg.1 =? 41 then flush ++ mkTok tokRParen ")" :: tokenize_from [] l
      else tokenize_from (word ++ rune_bytes seg) l
  end.

Definition tokenizeCondition (cond : string) : list condToken := tokenize_from [] (segs cond).

(** The parser's state is the tokens from its position on. *)
Definition peek (ts : list condToken) : condToken := match ts with [] => mkTok tokEOF "" | t :: _ => t end.
Definition advance (ts : list condToken) : list condToken := tail ts.

Section parser.
Context (results : gmap string bool).

(** [None]: out of fuel.  Each function returns its value and the new position; the loops
    of [parseExpr] and [parseTerm] are functions of their own. *)
Fixpoint parseExpr (fuel : nat) (ts : list condToken) : option (bool * list condToken) :=
  match fuel with O => None | S fuel =>
    '(result, ts) ← parseTerm fuel ts; expr_loop fuel result ts
  end
with expr_loop (fuel : nat) (result : bool) (ts : list condToken) : option (bool * list condToken) :=
  match fuel with O => None | S fuel =>
    if decide (typ (peek ts) = tokOR)
    then '(rhs, ts) ← parseTerm fuel (advance ts); expr_loop fuel (result || rhs) ts
    else Some (result, ts)
  end
with parseTerm (fuel : nat) (ts : list condToken) : option (bool * list condToken) :=
  match fuel with O => None | S fuel =>
    '(result, ts) ← parseFactor fuel ts; term_loop fuel result ts
  end
with term_loop (fuel : nat) (result : bool) (ts : list condToken) : option (bool * list condToken) :=
  match fuel with O => None | S fuel =>
    if decide (typ (peek ts) = tokAND)
    then '(rhs, ts) ← parseFactor fuel (advance ts); term_loop fuel (result && rhs) ts
    else Some (result, ts)
  end
with parseFactor (fuel : nat) (ts : list condToken) : option (bool * list condToken) :=
  match fuel with O => None | S fuel =>
    if decide (typ (peek ts) = tokNOT)
    then '(result, ts) ← parseFactor fuel (advance ts); Some (negb result, ts)
    else parsePrimary fuel ts
  end
with parsePrimary (fuel : nat) (ts : list condToken) : option (bool * list condToken) :=
  match fuel with O => None | S fuel =>
    match typ (peek ts) with
    | tokIdent => Some (default false (results !! val (peek ts)), advance ts)
    | tokLParen =>
        '(result, ts) ← parseExpr fuel (advance ts);
        Some (result, if decide (typ (peek ts) = tokRParen) then advance ts else ts)
    | tokEOF => Some (false, ts)
    | _ => Some (false, advance ts)
    end
  end.
End parser.

(** Four calls for each token and four at the end are enough. *)
Definition cond_fuel (ts : list condToken) : nat := (4 * length ts + 4)%nat.

Definition evaluateCondition (cond : string) (results : gmap string bool) : option bool :=
  let tokens := tokenizeCondition cond in fst <$> parseExpr results (cond_fuel tokens) tokens.

(** ** Matching *)

(** [fmt.Sscanf(raw, "%d", &cmp)] on a [uint64]. *)
Fixpoint scan_space (l : list (Z * list Z)) : option (list (Z * list Z)) :=
  match l with
  | [] => Some []
  | (r, _) :: l' => if r =? 10 then None else if IsSpace r then scan_space l' else Some l
  end.

Fixpoint scan_digits (l : list (Z * list Z)) : list Z :=
  match l with
  | (r, _) :: l => if cont 48 57 r then r :: scan_digits l else []
  | [] => []
  end.

Definition parseCmp (raw : string) : option Z :=
  l ← scan_space (segs raw); match scan_digits l with [] => None | ds => parse_digits 0 ds end.

Definition substr_from (n : nat) (s : string) : string := String.substring n (String.length s - n) s.

Definition compareField (field : string) (value : Z) : bool :=
  let field := TrimSpace field in
  if HasPrefix field "!=" then match parseCmp (substr_from 2 field) with None => false | Some cmp => negb (value =? cmp) end
  else if HasPrefix field ">=" then match parseCmp (substr_from 2 field) with None => false | Some cmp => cmp <=? value end
  else if HasPrefix field "<=" then match parseCmp (substr_from 2 field) with None => false | Some cmp => value <=? cmp end
  else if HasPrefix field ">" then match parseCmp (substr_from 1 field) with None => false | Some cmp => cmp <? value end
  else if HasPrefix field "<" then match parseCmp (substr_from 1 field) with None => false | Some cmp => value <? cmp end
  else match parseCmp field with None => false | Some cmp => value =? cmp end.

Context `{GoRegexp}.

Definition slice_str (s : string) (a b : nat) : string := String.substring a (b - a) s.

(** The pattern is written between slashes and is not a path. *)
Definition is_regex (pattern : string) : bool :=
  HasPrefix pattern "/" && HasSuffix pattern "/" && (2 <? String.length pattern)%nat
  && negb (Contains (slice_str pattern 1 (String.length pattern - 1)) "/").
Definition regex_body (pattern : string) : string := slice_str pattern 1 (String.length pattern - 1).

Definition patternMatch (pattern value : string) (compiledRE : re_cache) : re_cache * bool :=
  if String.eqb pattern "" then (compiledRE, true)
  else if is_regex pattern then
    match compiledRE !! pattern with
    | Some re => (compiledRE, re_MatchString re value)
    | None => match re_Compile (regex_body pattern) with
              | None => (compiledRE, false)
              | Some re => (<[pattern := re]> compiledRE, re_MatchString re value)
              end
    end
  else if HasSuffix pattern "*" then
    let prefix := TrimSuffix pattern "*" in
    (compiledRE, (String.length prefix <=? String.length value)%nat && String.eqb (slice_str value 0 (String.length prefix)) prefix)
  else if HasPrefix pattern "*" then
    let suffix := TrimPrefix pattern "*" in
    (compiledRE, (String.length suffix <=? String.length value)%nat
                 && String.eqb (slice_str value (String.length value - String.length suffix) (String.length value)) suffix)
  else (compiledRE, String.eqb pattern value).

Definition intToIP (ip : Z) : string :=
  pretty (Z.land (Z.shiftr ip 24) 0xFF) +:+ "." +:+ pretty (Z.land (Z.shiftr ip 16) 0xFF) +:+ "."
  +:+ pretty (Z.land (Z.shiftr ip 8) 0xFF) +:+ "." +:+ pretty (Z.land ip 0xFF).

Definition hasSelectionFields (s : Selection) : bool :=
  (0 <? length (EventType s))%nat || negb (String.eqb (TargetPath s) "") || negb (String.eqb (Comm s) "")
  || negb (String.eqb (UID s) "") || negb (String.eqb (PID s) "") || negb (String.eqb (TargetIP s) "")
  || negb (String.eqb (TargetPort s) "") || negb (String.eqb (Flags s) "").

(** A check that uses the cache: skipped when the field is empty, and when it fails the
    rest is not evaluated. *)
Definition check_pattern (pattern value : string) (k : re_cache -> re_cache * bool) (c : re_cache) : re_cache * bool :=
  if String.eqb pattern "" then k c
  else let '(c, ok) := patternMatch pattern value c in if ok then k c else (c, false).

Definition check (field : string) (ok : bool) (k : re_cache -> re_cache * bool) (c : re_cache) : re_cache * bool :=
  if String.eqb field "" then k c else if ok then k c else (c, false).

Definition matchSelection (sel : Selection) (evt : pbEvent) (c : re_cache) : re_cache * bool :=
  if (0 <? length (EventType sel))%nat && negb (existsb (Z.eqb (Type_ evt)) (EventType sel)) then (c, false)
  else
    (check_pattern (TargetPath sel) (Pathname evt) $
     check_pattern (Comm sel) (Comm_ evt) $
     check (UID sel) (compareField (UID sel) (Uid evt)) $
     check (PID sel) (compareField (PID sel) (Pid evt)) $
     check (TargetPort sel) (compareField (TargetPort sel) (Dport evt)) $
     check_pattern (TargetIP sel) (intToIP (Daddr evt)) $
     check (Flags sel) (negb (String.eqb (Flags sel) "setuid" && (Z.land (Flags_ evt) 1 =? 0))) $
     fun c => (c, true)) c.

(** The loop over the named selections. *)
Definition match_named (evt : pbEvent) (acc : re_cache * gmap string bool) (ns : string * Selection) : re_cache * gmap string bool :=
  let '(c, results) := acc in let '(name, sel) := ns in
  let '(c, v) := matchSelection sel evt c in (c, <[name := v]> results).

Context `{MapOrder}.

(** [k] numbers the [range] statement.  [None]: the condition's parser did not finish. *)
Definition Match (k : nat) (r : Rule) (evt : pbEvent) (c : re_cache) : re_cache * option bool :=
  let d := Detect r in
  let '(c, results) :=
    if hasSelectionFields (Inline d)
    then let '(c, v) := matchSelection (Inline d) evt c in (c, <["selection" := v]> ∅) else (c, ∅ : gmap string bool) in
  let '(c, results) :=
    foldl (match_named evt) (c, results) (range k (map_to_list (NamedSelections d))) in
  (c, if decide (results = ∅) then Some true
      else if negb (String.eqb (Condition d) "") then evaluateCondition (Condition d) results
      else Some (forallb snd (map_to_list results))).

(** ** The scanner *)

Record Alert := mkAlert {
  RuleID : string; a_Title : string; Severity : string; a_Description : string; a_Tags : list string; RiskScore : float64;
  Event : pbEvent; SubgraphID : string; SubgraphDesc : string; Timestamp : time;
}.

(** [h_received] and [h_dropped] are history: the alerts taken from the channel, and those
    dropped because it was full. *)
Record Scanner := mkScanner {
  rules : list Rule; alerts : list Alert; AlertCh : list Alert; AlertCap : nat; compiledRE : re_cache;
  EventsProcessed : Z; EventsMatched : Z; AlertsTriggered : Z;
  h_received : list Alert; h_dropped : list Alert;
}.

(** [cap]: the capacity of the configured channel, if there is one. *)
Definition NewScanner (rules : list Rule) (cap : option nat) (cache : re_cache) : Scanner :=
  mkScanner rules [] [] (default 256%nat cap) cache 0 0 0 [] [].

Definition eventTypeName (typ : Z) : string :=
  match typ with
  | 1 => "FORK" | 2 => "EXEC" | 10 => "OPEN" | 11 => "CREATE" | 12 => "MODIFY" | 13 => "DELETE" | 20 => "CONNECT" | 21 => "ACCEPT"
  | _ => "EVENT_" +:+ pretty typ
  end.

Definition buildSubgraphDesc (evt : pbEvent) : string :=
  let target := if String.eqb (Pathname evt) "" && (0 <? Daddr evt)
                then intToIP (Daddr evt) +:+ ":" +:+ pretty (Dport evt) else Pathname evt in
  "PID " +:+ pretty (Pid evt) +:+ " (" +:+ Comm_ evt +:+ ") " +:+ eventTypeName (Type_ evt) +:+ " " +:+ target.

Definition calcScore (level : string) : float64 :=
  if String.eqb level "critical" then lit 10 1
  else if String.eqb level "high" then lit 75 10
  else if String.eqb level "medium" then lit 5 1
  else if String.eqb level "low" then lit 25 10
  else lit 3 1.

Definition new_alert (n : Z) (rule : Rule) (evt : pbEvent) (now : time) : Alert :=
  mkAlert (ID rule) (Title rule) (Level rule) (Description rule) (Tags rule) (calcScore (Level rule)) evt
    ("sg:" +:+ pretty n) (buildSubgraphDesc evt) now.

Definition triggerAlert (rule : Rule) (evt : pbEvent) (now : time) (s : Scanner) : Scanner :=
  mkScanner (rules s) (alerts s ++ [new_alert (AlertsTriggered s) rule evt now]) (AlertCh s) (AlertCap s) (compiledRE s)
    (EventsProcessed s) (EventsMatched s) (i64 (AlertsTriggered s + 1)) (h_received s) (h_dropped s).

Definition set_cache (c : re_cache) (s : Scanner) : Scanner :=
  mkScanner (rules s) (alerts s) (AlertCh s) (AlertCap s) c (EventsProcessed s) (EventsMatched s) (AlertsTriggered s)
    (h_received s) (h_dropped s).
Definition count_matched (s : Scanner) : Scanner :=
  mkScanner (rules s) (alerts s) (AlertCh s) (AlertCap s) (compiledRE s) (EventsProcessed s) (i64 (EventsMatched s + 1))
    (AlertsTriggered s) (h_received s) (h_dropped s).
Definition count_processed (s : Scanner) : Scanner :=
  mkScanner (rules s) (alerts s) (AlertCh s) (AlertCap s) (compiledRE s) (i64 (EventsProcessed s + 1)) (EventsMatched s)
    (AlertsTriggered s) (h_received s) (h_dropped s).

(** The loop over the rules; it stops at the first match. *)
Fixpoint try_rules (k : nat) (rs : list Rule) (evt : pbEvent) (now : time) (s : Scanner) : Scanner :=
  match rs with
  | [] => s
  | rule :: rs =>
      let '(c, m) := Match k rule evt (compiledRE s) in
      if default false m then triggerAlert rule evt now (count_matched (set_cache c s))
      else try_rules (S k) rs evt now (set_cache c s)
  end.

Definition processEvent (k : nat) (evt : pbEvent) (now : time) (s : Scanner) : Scanner :=
  try_rules k (rules s) evt now (count_processed s).

(** Each pending alert is sent, or dropped when the channel is full. *)
Definition send_alert (s : Scanner) (a : Alert) : Scanner :=
  if (length (AlertCh s) <? AlertCap s)%nat
  then mkScanner (rules s) (alerts s) (AlertCh s ++ [a]) (AlertCap s) (compiledRE s) (EventsProcessed s) (EventsMatched s)
         (AlertsTriggered s) (h_received s) (h_dropped s)
  else mkScanner (rules s) (alerts s) (AlertCh s) (AlertCap s) (compiledRE s) (EventsProcessed s) (EventsMatched s)
         (AlertsTriggered s) (h_received s) (h_dropped s ++ [a]).

Definition flushAlerts (s : Scanner) : Scanner :=
  foldl send_alert
    (mkScanner (rules s) [] (AlertCh s) (AlertCap s) (compiledRE s) (EventsProcessed s) (EventsMatched s) (AlertsTriggered s)
       (h_received s) (h_dropped s)) (alerts s).

(** What the loop does and what its environment does: an event arrives, the ticker fires,
    somebody receives an alert. *)
Inductive scan_op := OpEvent (k : nat) (evt : pbEvent) (now : time) | OpFlush | OpReceive.

Definition scan_step (s : Scanner) (o : scan_op) : Scanner :=
  match o with
  | OpEvent k evt now => processEvent k evt now s
  | OpFlush => flushAlerts s
  | OpReceive =>
      match AlertCh s with
      | [] => s
      | a :: rest => mkScanner (rules s) (alerts s) rest (AlertCap s) (compiledRE s) (EventsProcessed s) (EventsMatched s)
                       (AlertsTriggered s) (h_received s ++ [a]) (h_dropped s)
      end
  end.
End rules.

(** ** The meaning of conditions *)

Inductive cexpr := Sel (name : string) | Not (e : cexpr) | And (e1 e2 : cexpr) | Or (e1 e2 : cexpr).

Fixpoint meaning (results : gmap string bool) (e : cexpr) : bool :=
  match e with
  | Sel name => default false (results !! name)
  | Not e => negb (meaning results e)
  | And e1 e2 => meaning results e1 && meaning results e2
  | Or e1 e2 => meaning results e1 || meaning results e2
  end.

Inductive level := LExpr | LTerm | LFactor | LPrimary.

(** The documented grammar: negation binds tighter than conjunction, conjunction tighter
    than disjunction, both associate to the left. *)
Inductive gram : level -> list condToken -> cexpr -> Prop :=
| g_ident name : gram LPrimary [mkTok tokIdent name] (Sel name)
| g_paren ts e l r : gram LExpr ts e -> gram LPrimary (mkTok tokLParen l :: ts ++ [mkTok tokRParen r]) e
| g_primary ts e : gram LPrimary ts e -> gram LFactor ts e
| g_not ts e w : gram LFactor ts e -> gram LFactor (mkTok tokNOT w :: ts) (Not e)
| g_factor ts e : gram LFactor ts e -> gram LTerm ts e
| g_and ts1 e1 ts2 e2 w : gram LTerm ts1 e1 -> gram LFactor ts2 e2 -> gram LTerm (ts1 ++ mkTok tokAND w :: ts2) (And e1 e2)
| g_term ts e : gram LTerm ts e -> gram LExpr ts e
| g_or ts1 e1 ts2 e2 w : gram LExpr ts1 e1 -> gram LTerm ts2 e2 -> gram LExpr (ts1 ++ mkTok tokOR w :: ts2) (Or e1 e2).

Section parser_facts.
Context (results : gmap string bool).

(** One step of each function, without unfolding the calls it makes. *)
Lemma parseExpr_S f ts : parseExpr results (S f) ts = ('(b, ts) ← parseTerm results f ts; expr_loop results f b ts).
Proof. done. Qed.
Lemma expr_loop_S f b ts : expr_loop results (S f) b ts =
  if decide (typ (peek ts) = tokOR)
  then '(rhs, ts) ← parseTerm results f (advance ts); expr_loop results f (b || rhs) ts else Some (b, ts).
Proof. done. Qed.
Lemma parseTerm_S f ts : parseTerm results (S f) ts = ('(b, ts) ← parseFactor results f ts; term_loop results f b ts).
Proof. done. Qed.
Lemma term_loop_S f b ts : term_loop results (S f) b ts =
  if decide (typ (peek ts) = tokAND)
  then '(rhs, ts) ← parseFactor results f (advance ts); term_loop results f (b && rhs) ts else Some (b, ts).
Proof. done. Qed.
Lemma parseFactor_S f ts : parseFactor results (S f) ts =
  if decide (typ (peek ts) = tokNOT)
  then '(b, ts) ← parseFactor results f (advance ts); Some (negb b, ts) else parsePrimary results f ts.
Proof. done. Qed.
Lemma parsePrimary_S f ts : parsePrimary results (S f) ts =
  match typ (peek ts) with
  | tokIdent => Some (default false (results !! val (peek ts)), advance ts)
  | tokLParen =>
      '(b, ts) ← parseExpr results f (advance ts);
      Some (b, if decide (typ (peek ts) = tokRParen) then advance ts else ts)
  | tokEOF => Some (false, ts)
  | _ => Some (false, advance ts)
  end.
Proof. done. Qed.

(** Every function finishes within its bound and never moves backwards. *)
Definition finishes (n : nat) (r : option (bool * list condToken)) : Prop :=
  exists b ts, r = Some (b, ts) /\ (length ts <= n)%nat.

Lemma advance_length ts t : typ (peek ts) = t -> t <> tokEOF -> S (length (advance ts)) = length ts.
Proof. destruct ts; simpl; congruence. Qed.

Lemma finishes_bind n m r g :
  finishes n r -> (forall b ts, (length ts <= n)%nat -> finishes m (g b ts)) -> finishes m ('(b, ts) ← r; g b ts).
Proof. intros (b & ts & -> & Hl) Hg. by apply Hg. Qed.

Lemma finishes_some n b ts : (length ts <= n)%nat -> finishes n (Some (b, ts)).
Proof. exists b, ts. done. Qed.

Lemma parse_finishes f :
  (forall ts, (4 * length ts + 4 <= f)%nat -> finishes (length ts) (parseExpr results f ts)) /\
  (forall b ts, (4 * length ts + 1 <= f)%nat -> finishes (length ts) (expr_loop results f b ts)) /\
  (forall ts, (4 * length ts + 3 <= f)%nat -> finishes (length ts) (parseTerm results f ts)) /\
  (forall b ts, (4 * length ts + 1 <= f)%nat -> finishes (length ts) (term_loop results f b ts)) /\
  (forall ts, (4 * length ts + 2 <= f)%nat -> finishes (length ts) (parseFactor results f ts)) /\
  (forall ts, (4 * length ts + 1 <= f)%nat -> finishes (length ts) (parsePrimary results f ts)).
Proof.
  assert (forall n m r, (n <= m)%nat -> finishes n r -> finishes m r) as Hmono.
  { intros n m r Hn (b & ts & -> & Hl). exists b, ts. split; [done|lia]. }
  induction f as [|f (IE & IEl & IT & ITl & IF & IP)]; [split_and!; intros; lia|]. split_and!.
  - intros ts Hf. rewrite parseExpr_S. eapply finishes_bind; [apply IT; lia|].
    intros b ts' Hl. apply (Hmono (length ts')); [done|]. apply IEl. lia.
  - intros b ts Hf. rewrite expr_loop_S. case_decide as Ht; [|by apply finishes_some].
    pose proof (advance_length ts _ Ht ltac:(done)). eapply finishes_bind; [apply IT; lia|].
    intros b' ts' Hl. apply (Hmono (length ts')); [lia|]. apply IEl. lia.
  - intros ts Hf. rewrite parseTerm_S. eapply finishes_bind; [apply IF; lia|].
    intros b ts' Hl. apply (Hmono (length ts')); [done|]. apply ITl. lia.
  - intros b ts Hf. rewrite term_loop_S. case_decide as Ht; [|by apply finishes_some].
    pose proof (advance_length ts _ Ht ltac:(done)). eapply finishes_bind; [apply IF; lia|].
    intros b' ts' Hl. apply (Hmono (length ts')); [lia|]. apply ITl. lia.
  - intros ts Hf. rewrite parseFactor_S. case_decide as Ht; [|apply IP; lia].
    pose proof (advance_length ts _ Ht ltac:(done)). eapply finishes_bind; [apply IF; lia|].
    intros b' ts' Hl. apply finishes_some. lia.
  - intros ts Hf. rewrite parsePrimary_S.
    destruct (typ (peek ts)) eqn:Ht; try (apply finishes_some; pose proof (advance_length ts _ Ht ltac:(done)); lia).
    + pose proof (advance_length ts _ Ht ltac:(done)). eapply finishes_bind; [apply IE; lia|].
      intros b' ts' Hl. apply finishes_some. case_decide; [|lia]. destruct ts'; simpl in *; lia.
    + by apply finishes_some.
Qed.

(** More fuel does not change a result. *)
Lemma bind_mono (r r' : option (bool * list condToken)) (g g' : bool -> list condToken -> option (bool * list condToken)) x :
  (forall y, r = Some y -> r' = Some y) -> (forall b ts y, g b ts = Some y -> g' b ts = Some y) ->
  ('(b, ts) ← r; g b ts) = Some x -> ('(b, ts) ← r'; g' b ts) = Some x.
Proof. intros Hr Hg. destruct r as [[b ts]|]; [|done]. rewrite (Hr _ eq_refl). apply Hg. Qed.

Lemma parse_mono f :
  (forall ts x, parseExpr results f ts = Some x -> parseExpr results (S f) ts = Some x) /\
  (forall b ts x, expr_loop results f b ts = Some x -> expr_loop results (S f) b ts = Some x) /\
  (forall ts x, parseTerm results f ts = Some x -> parseTerm results (S f) ts = Some x) /\
  (forall b ts x, term_loop results f b ts = Some x -> term_loop results (S f) b ts = Some x) /\
  (forall ts x, parseFactor results f ts = Some x -> parseFactor results (S f) ts = Some x) /\
  (forall ts x, parsePrimary results f ts = Some x -> parsePrimary results (S f) ts = Some x).
Proof.
  induction f as [|f (IE & IEl & IT & ITl & IF & IP)]; [by split_and!|]. split_and!.
  - intros ts x. rewrite (parseExpr_S f), (parseExpr_S (S f)). apply bind_mono; auto.
  - intros b ts x. rewrite (expr_loop_S f), (expr_loop_S (S f)). case_decide; [apply bind_mono; auto|done].
  - intros ts x. rewrite (parseTerm_S f), (parseTerm_S (S f)). apply bind_mono; auto.
  - intros b ts x. rewrite (term_loop_S f), (term_loop_S (S f)). case_decide; [apply bind_mono; auto|done].
  - intros ts x. rewrite (parseFactor_S f), (parseFactor_S (S f)). case_decide; [|auto]. apply bind_mono; auto.
  - intros ts x. rewrite (parsePrimary_S f), (parsePrimary_S (S f)). destruct (typ (peek ts)); try done. apply bind_mono; auto.
Qed.

Lemma expr_mono f g ts x : (f <= g)%nat -> parseExpr results f ts = Some x -> parseExpr results g ts = Some x.
Proof. induction 1; [done|]. intros. apply parse_mono. auto. Qed.

(** With enough fuel, the result is [x]. *)
Definition ev {A} (p : nat -> option A) (x : A) : Prop := exists f0, forall f, (f0 <= f)%nat -> p f = Some x.

Lemma ev_now {A} (p : nat -> option A) x : (forall f, p (S f) = Some x) -> ev p x.
Proof. intros Hp. exists 1%nat. intros [|f] Hf; [lia|apply Hp]. Qed.

Lemma ev_bind (p : nat -> option (bool * list condToken)) q (g : nat -> bool -> list condToken -> option (bool * list condToken)) b ts x :
  (forall f, q (S f) = ('(b, ts) ← p f; g f b ts)) -> ev p (b, ts) -> ev (fun f => g f b ts) x -> ev q x.
Proof.
  intros Hq [f1 H1] [f2 H2]. exists (S (max f1 f2)). intros [|f] Hf; [lia|]. rewrite Hq, H1 by lia. simpl. apply H2. lia.
Qed.

Lemma ev_step {A} (p q : nat -> option A) x : (forall f, q (S f) = p f) -> ev p x -> ev q x.
Proof. intros Hq [f0 H0]. exists (S f0). intros [|f] Hf; [lia|]. rewrite Hq. apply H0. lia. Qed.

Definition parses (l : level) (ts : list condToken) (e : cexpr) : Prop :=
  match l with
  | LPrimary => forall rest, ev (fun f => parsePrimary results f (ts ++ rest)) (meaning results e, rest)
  | LFactor => forall rest, ev (fun f => parseFactor results f (ts ++ rest)) (meaning results e, rest)
  | LTerm => forall rest x, ev (fun f => term_loop results f (meaning results e) rest) x ->
      ev (fun f => parseTerm results f (ts ++ rest)) x
  | LExpr => forall rest x, typ (peek rest) <> tokAND -> ev (fun f => expr_loop results f (meaning results e) rest) x ->
      ev (fun f => parseExpr results f (ts ++ rest)) x
  end.

Lemma primary_head ts e : gram LPrimary ts e -> exists t ts', ts = t :: ts' /\ (typ t = tokIdent \/ typ t = tokLParen).
Proof. inversion 1; subst; do 2 eexists; simpl; eauto. Qed.

Lemma term_loop_stop b rest : typ (peek rest) <> tokAND -> ev (fun f => term_loop results f b rest) (b, rest).
Proof. intros Hn. apply ev_now. intros f. by rewrite term_loop_S, decide_False. Qed.

Lemma expr_loop_stop b rest : typ (peek rest) <> tokOR -> ev (fun f => expr_loop results f b rest) (b, rest).
Proof. intros Hn. apply ev_now. intros f. by rewrite expr_loop_S, decide_False. Qed.

Lemma gram_parses l ts e : gram l ts e -> parses l ts e.
Proof.
  induction 1 as [name|ts e l r _ IH|ts e Hp IH|ts e w _ IH|ts e _ IH|ts1 e1 ts2 e2 w _ IH1 _ IH2|ts e _ IH|ts1 e1 ts2 e2 w _ IH1 _ IH2]; simpl.
  - intros rest. by apply ev_now.
  - intros rest. eapply ev_bind; [intros f; by rewrite parsePrimary_S|simpl; rewrite <-app_assoc; apply IH; [done|by apply expr_loop_stop]|].
    by apply ev_now.
  - intros rest. destruct (primary_head ts e Hp) as (t & ts' & -> & Ht).
    apply (ev_step (fun f => parsePrimary results f ((t :: ts') ++ rest))); [|apply IH].
    intros f. rewrite parseFactor_S, decide_False; [done|]. simpl. destruct Ht; congruence.
  - intros rest. eapply ev_bind; [intros f; rewrite parseFactor_S; by rewrite decide_True|apply IH|by apply ev_now].
  - intros rest x Hx. eapply ev_bind; [intros f; by rewrite parseTerm_S|apply IH|exact Hx].
  - intros rest x Hx. rewrite <-app_assoc. apply IH1. eapply ev_bind; [intros f; rewrite term_loop_S; by rewrite decide_True|apply IH2|exact Hx].
  - intros rest x Hn Hx. eapply ev_bind; [intros f; by rewrite parseExpr_S|apply IH; by apply term_loop_stop|exact Hx].
  - intros rest x Hn Hx. rewrite <-app_assoc. apply IH1; [done|].
    eapply ev_bind; [intros f; rewrite expr_loop_S; by rewrite decide_True|apply IH2; by apply term_loop_stop|exact Hx].
Qed.

Lemma gram_value ts e eof f : gram LExpr ts e -> typ eof = tokEOF -> (4 * length (ts ++ [eof]) + 4 <= f)%nat ->
  parseExpr results f (ts ++ [eof]) = Some (meaning results e, [eof]).
Proof.
  intros Hg He Hf. destruct (gram_parses _ _ _ Hg [eof] (meaning results e, [eof])) as [f0 H0].
  - simpl. congruence.
  - apply expr_loop_stop. simpl. congruence.
  - destruct (parse_finishes f) as (HE & _). destruct (HE (ts ++ [eof]) Hf) as (b & ts' & Hr & _).
    pose proof Hr as Hr'. apply (expr_mono f (max f f0)) in Hr'; [|lia]. rewrite H0 in Hr' by lia. by rewrite Hr.
Qed.
End parser_facts.

(** ** The spelling of tokens *)

Section spelling.
Context `{UnicodeCase}.

Definition word_byte (b : Z) : Prop := 0 <= b < 128 /\ separator b = false.
Definition ends_word (l : list Z) : Prop := match l with [] => True | b :: _ => separator b = true end.

(** The texts of a token sequence: words of ASCII characters, with at least one blank or
    parenthesis between two words and blanks anywhere else. *)
Inductive spelled : list Z -> list condToken -> Prop :=
| sp_nil : spelled [] []
| sp_blank b l ts : blank b = true -> spelled l ts -> spelled (b :: l) ts
| sp_open l ts : spelled l ts -> spelled (40 :: l) (mkTok tokLParen "(" :: ts)
| sp_close l ts : spelled l ts -> spelled (41 :: l) (mkTok tokRParen ")" :: ts)
| sp_word w l ts : w <> [] -> Forall word_byte w -> ends_word l -> spelled l ts ->
    spelled (w ++ l) (word_token (string_of_bytes w) :: ts).

Definition ascii_segs (l : list Z) : list (Z * list Z) := (fun b => (b, [b])) <$> l.

Lemma rune_segs_ascii l f : Forall (fun b => 0 <= b < 128) l -> (length l <= f)%nat -> rune_segs f l = ascii_segs l.
Proof.
  intros Hl. revert f. induction Hl as [|b l Hb _ IH]; intros [|f] Hf; simpl in *; try done; [lia|].
  unfold DecodeRune. rewrite (proj2 (Z.ltb_lt b 128)) by lia. simpl. f_equal. rewrite drop_0. apply IH. lia.
Qed.

Lemma spelled_ascii l ts : spelled l ts -> Forall (fun b => 0 <= b < 128) l.
Proof.
  induction 1 as [|b l ts Hb _ IH| | |w l ts _ Hw _ _ IH].
  - done.
  - constructor; [|done]. unfold blank in Hb. lia.
  - constructor; [lia|done].
  - constructor; [lia|done].
  - apply Forall_app. split; [|done]. eapply Forall_impl; [exact Hw|]. by intros b [? _].
Qed.

Lemma tokenize_word w rest word : Forall word_byte w ->
  tokenize_from word (ascii_segs w ++ rest) = tokenize_from (word ++ w) rest.
Proof.
  intros Hw. revert word. induction Hw as [|b w [Hb Hs] _ IH]; intros word; simpl; [by rewrite app_nil_r|].
  unfold separator in Hs. apply orb_false_iff in Hs as [[Hbl H40]%orb_false_iff H41]. rewrite Hbl, H40, H41.
  fold (ascii_segs w). rewrite IH. unfold rune_bytes, RuneError. simpl. rewrite (proj2 (Z.eqb_neq b 65533)) by lia. by rewrite <-app_assoc.
Qed.

(** A finished word is emitted before what follows it. *)
Lemma tokenize_flush w l : w <> [] -> ends_word l ->
  tokenize_from w (ascii_segs l) = word_token (string_of_bytes w) :: tokenize_from [] (ascii_segs l).
Proof.
  intros Hw He. destruct w as [|b w]; [done|]. destruct l as [|c l]; [done|]. simpl in *. unfold separator in He.
  destruct (blank c); [done|]. destruct (c =? 40); [done|]. destruct (c =? 41); done.
Qed.

Lemma tokenize_spelled l ts : spelled l ts -> tokenize_from [] (ascii_segs l) = ts ++ [mkTok tokEOF ""].
Proof.
  induction 1 as [|b l ts Hb _ IH|l ts _ IH|l ts _ IH|w l ts Hne Hw He _ IH]; simpl.
  - done.
  - by rewrite Hb.
  - f_equal. exact IH.
  - f_equal. exact IH.
  - unfold ascii_segs. rewrite fmap_app. fold (ascii_segs w) (ascii_segs l).
    rewrite tokenize_word by done. simpl. rewrite tokenize_flush by done. by rewrite IH.
Qed.

Lemma tokenizeCondition_spelled cond ts : spelled (bytes_of_string cond) ts -> tokenizeCondition cond = ts ++ [mkTok tokEOF ""].
Proof.
  intros Hs. unfold tokenizeCondition, segs. rewrite rune_segs_ascii; [by apply tokenize_spelled| |lia]. by eapply spelled_ascii.
Qed.

Lemma evaluateCondition_total cond results : exists v, evaluateCondition cond results = Some v.
Proof.
  unfold evaluateCondition, cond_fuel. set (ts := tokenizeCondition cond).
  destruct (parse_finishes results (4 * length ts + 4)) as (HE & _). destruct (HE ts ltac:(lia)) as (b & ts' & -> & _).
  by exists b.
Qed.

(** [C16] Conditions mean what their grammar says.  Evaluation returns for every text and
    every result of the selections.  When the text spells a sentence of the documented
    grammar, in any spacing and with the operators in any case, the value is the meaning of
    its syntax tree: NOT binds tighter than AND, AND tighter than OR, parentheses override,
    and a selection that does not exist is false. *)
Theorem condition_exact (cond : string) (results : gmap string bool) :
  exists v, evaluateCondition cond results = Some v /\
    forall ts e, spelled (bytes_of_string cond) ts -> gram LExpr ts e -> v = meaning results e.
Proof.
  destruct (evaluateCondition_total cond results) as [v Hv]. exists v. split; [done|]. intros ts e Hs Hg.
  unfold evaluateCondition, cond_fuel in Hv. rewrite (tokenizeCondition_spelled _ _ Hs) in Hv.
  rewrite (gram_value results ts e) in Hv by done. by simplify_eq/=.
Qed.
End spelling.

(** ** What a rule selects *)

Section meaning.
Context {UC : UnicodeCase} {RE : GoRegexp} {MO : MapOrder}.

(** A pattern matches as it does with nothing compiled before. *)
Definition glob (pattern value : string) : bool := (patternMatch pattern value ∅).2.

Definition cache_ok (c : re_cache) : Prop := forall p re, c !! p = Some re -> re_Compile (regex_body p) = Some re.

Lemma patternMatch_glob p v c : cache_ok c -> exists c', patternMatch p v c = (c', glob p v) /\ cache_ok c'.
Proof.
  intros Hc. unfold glob, patternMatch. destruct (String.eqb p ""); [by exists c|].
  destruct (is_regex p); [|destruct (HasSuffix p "*"); [by exists c|]; destruct (HasPrefix p "*"); by exists c].
  rewrite lookup_empty. destruct (c !! p) as [re|] eqn:E.
  - exists c. rewrite (Hc p re E). done.
  - destruct (re_Compile (regex_body p)) as [re|] eqn:Er; simpl; [|by exists c]. eexists. split; [done|].
    intros q re' Hq. apply lookup_insert_Some in Hq. naive_solver.
Qed.

Definition selected (evt : pbEvent) (sel : Selection) : bool :=
  (bool_decide (EventType sel = []) || bool_decide (Type_ evt ∈ EventType sel))
  && (bool_decide (TargetPath sel = "") || glob (TargetPath sel) (Pathname evt))
  && (bool_decide (Comm sel = "") || glob (Comm sel) (Comm_ evt))
  && (bool_decide (UID sel = "") || compareField (UID sel) (Uid evt))
  && (bool_decide (PID sel = "") || compareField (PID sel) (Pid evt))
  && (bool_decide (TargetPort sel = "") || compareField (TargetPort sel) (Dport evt))
  && (bool_decide (TargetIP sel = "") || glob (TargetIP sel) (intToIP (Daddr evt)))
  && (bool_decide (Flags sel <> "setuid") || negb (Z.land (Flags_ evt) 1 =? 0)).

(** The selections of a rule by name: a named selection replaces the inline one. *)
Definition selections (d : Detection) : gmap string Selection :=
  NamedSelections d ∪ (if hasSelectionFields (Inline d) then {["selection" := Inline d]} else ∅).

Definition rule_holds (r : Rule) (evt : pbEvent) : bool :=
  let d := Detect r in let results := selected evt <$> selections d in
  if decide (selections d = ∅) then true
  else if decide (Condition d = "") then forallb snd (map_to_list results)
  else default false (evaluateCondition (Condition d) results).

Definition first_rule (rs : list Rule) (evt : pbEvent) : option Rule := snd <$> list_find (fun r => rule_holds r evt = true) rs.

(** A computation that keeps the cache coherent and returns [b]. *)
Definition yields {A} (f : re_cache -> re_cache * A) (b : A) : Prop :=
  forall c, cache_ok c -> exists c', f c = (c', b) /\ cache_ok c'.

Lemma yields_pattern p v k b : yields k b -> yields (check_pattern p v k) ((bool_decide (p = "") || glob p v) && b).
Proof.
  intros Hk c Hc. unfold check_pattern. destruct (String.eqb_spec p "") as [->|Hn]; [rewrite bool_decide_true by done; apply (Hk c Hc)|].
  rewrite bool_decide_false by done. destruct (patternMatch_glob p v c Hc) as (c' & -> & Hc'). simpl.
  destruct (glob p v); [by apply Hk|by exists c'].
Qed.

Lemma yields_check f ok k b : yields k b -> yields (check f ok k) ((bool_decide (f = "") || ok) && b).
Proof.
  intros Hk c Hc. unfold check. destruct (String.eqb_spec f "") as [->|Hn]; [rewrite bool_decide_true by done; apply (Hk c Hc)|].
  rewrite bool_decide_false by done. simpl. destruct ok; [by apply Hk|by exists c].
Qed.

Lemma flags_meaning (f : string) (z : bool) :
  bool_decide (f = "") || negb (String.eqb f "setuid" && z) = bool_decide (f <> "setuid") || negb z.
Proof.
  destruct (String.eqb_spec f "setuid") as [->|Hn]; [by destruct z|].
  rewrite (bool_decide_true (f <> "setuid")) by done. simpl. by rewrite orb_true_r.
Qed.

Lemma existsb_elem (t : Z) (ts : list Z) : existsb (Z.eqb t) ts = bool_decide (t ∈ ts).
Proof.
  apply eq_bool_prop_intro. rewrite !Is_true_true, bool_decide_eq_true, existsb_exists.
  setoid_rewrite list_elem_of_In. setoid_rewrite Z.eqb_eq. naive_solver.
Qed.

Lemma matchSelection_yields sel evt : yields (matchSelection sel evt) (selected evt sel).
Proof.
  assert (yields (fun c : re_cache => (c, true)) true) as Hy by (intros c ?; by exists c).
  eapply yields_check in Hy. eapply yields_pattern in Hy. do 3 eapply yields_check in Hy. do 2 eapply yields_pattern in Hy.
  intros c Hc. unfold matchSelection, selected. rewrite existsb_elem, <-!andb_assoc.
  destruct (EventType sel) as [|t ts] eqn:Et.
  - rewrite (bool_decide_true (@nil Z = [])) by done. simpl. rewrite <-flags_meaning, <-(andb_true_r (_ || negb (String.eqb _ _ && _))). apply (Hy c Hc).
  - rewrite (bool_decide_false (t :: ts = [])) by done. simpl. destruct (bool_decide (Type_ evt ∈ t :: ts)); simpl; [|by exists c].
    rewrite <-flags_meaning, <-(andb_true_r (_ || negb (String.eqb _ _ && _))). apply (Hy c Hc).
Qed.

Lemma match_named_fold evt (l : list (string * Selection)) c init : cache_ok c -> NoDup l.*1 ->
  exists c', foldl (match_named evt) (c, init) l = (c', (selected evt <$> list_to_map l) ∪ init) /\ cache_ok c'.
Proof.
  revert c init. induction l as [|[n sel] l IH]; intros c init Hc Hnd; simpl.
  - exists c. by rewrite fmap_empty, (left_id_L ∅ (∪)).
  - apply NoDup_cons in Hnd as [Hn Hnd]. destruct (matchSelection_yields sel evt c Hc) as (c1 & -> & Hc1).
    destruct (IH c1 (<[n := selected evt sel]> init) Hc1 Hnd) as (c2 & -> & Hc2). exists c2. split; [|done].
    f_equal. rewrite fmap_insert, <-insert_union_l, insert_union_r; [done|].
    rewrite lookup_fmap, (not_elem_of_list_to_map_1 l n Hn). done.
Qed.

Lemma Match_yields k r evt : yields (Match k r evt) (Some (rule_holds r evt)).
Proof.
  intros c Hc. unfold Match, rule_holds, selections. set (d := Detect r).
  set (base := if hasSelectionFields (Inline d) then {["selection" := Inline d]} else ∅).
  assert (exists c1, (if hasSelectionFields (Inline d)
     then let '(c, v) := matchSelection (Inline d) evt c in (c, <["selection" := v]> ∅) else (c, ∅)) = (c1, selected evt <$> base) /\ cache_ok c1)
    as (c1 & -> & Hc1).
  { subst base. destruct (hasSelectionFields (Inline d)).
    - destruct (matchSelection_yields (Inline d) evt c Hc) as (c1 & -> & Hc1). exists c1. by rewrite map_fmap_singleton.
    - exists c. by rewrite fmap_empty. }
  destruct (match_named_fold evt (range k (map_to_list (NamedSelections d))) c1 (selected evt <$> base) Hc1) as (c2 & -> & Hc2).
  { rewrite range_perm. apply NoDup_fst_map_to_list. }
  rewrite (list_to_map_proper _ (map_to_list (NamedSelections d))), list_to_map_to_list;
    [|rewrite range_perm; apply NoDup_fst_map_to_list|apply range_perm].
  rewrite <-map_fmap_union. set (sels := NamedSelections d ∪ base). exists c2. split; [|done]. f_equal.
  destruct (decide (sels = ∅)) as [->|Hne]; [by rewrite decide_True by apply fmap_empty|].
  rewrite decide_False by (by rewrite fmap_empty_iff). destruct (String.eqb_spec (Condition d) "") as [E|E]; simpl.
  - by rewrite decide_True.
  - rewrite decide_False by done. destruct (evaluateCondition_total (Condition d) (selected evt <$> sels)) as [v ->]. done.
Qed.

(** ** The alerts *)

(** The alerts the events call for: one for the first rule that holds, numbered in order. *)
Fixpoint due (n : Z) (rs : list Rule) (ops : list scan_op) : list Alert :=
  match ops with
  | [] => []
  | OpEvent _ evt now :: ops =>
      match first_rule rs evt with
      | Some r => new_alert n r evt now :: due (i64 (n + 1)) rs ops
      | None => due n rs ops
      end
  | _ :: ops => due n rs ops
  end.

Definition is_event (o : scan_op) : Prop := match o with OpEvent _ _ _ => True | _ => False end.
#[global] Instance is_event_dec o : Decision (is_event o).
Proof. destruct o; apply _. Defined.

Definition scan (s : Scanner) (ops : list scan_op) : Scanner := foldl scan_step s ops.

(** Where the alerts are: [sent] is everything flushed so far. *)
Record scan_ok (all : list Alert) (events : nat) (s : Scanner) : Prop := {
  so_cache : cache_ok (compiledRE s);
  so_parts : exists sent, all = sent ++ alerts s /\ Permutation sent (h_received s ++ AlertCh s ++ h_dropped s) /\
               h_received s ++ AlertCh s `sublist_of` sent;
  so_room : (length (AlertCh s) <= AlertCap s)%nat;
  so_processed : EventsProcessed s = i64 (Z.of_nat events);
  so_matched : EventsMatched s = i64 (Z.of_nat (length all));
  so_triggered : AlertsTriggered s = i64 (Z.of_nat (length all));
}.

Lemma first_rule_cons r rs evt : first_rule (r :: rs) evt = if rule_holds r evt then Some r else first_rule rs evt.
Proof.
  unfold first_rule. simpl. destruct (rule_holds r evt); simpl; [done|]. by destruct (list_find _ rs) as [[]|].
Qed.

Lemma try_rules_spec k rs evt now s : cache_ok (compiledRE s) ->
  exists c, cache_ok c /\ try_rules k rs evt now s =
    match first_rule rs evt with
    | Some r => triggerAlert r evt now (count_matched (set_cache c s))
    | None => set_cache c s
    end.
Proof.
  revert k s. induction rs as [|r rs IH]; intros k s Hc.
  - exists (compiledRE s). by destruct s.
  - rewrite first_rule_cons. simpl. destruct (Match_yields k r evt _ Hc) as (c & -> & Hc'). simpl.
    destruct (rule_holds r evt); [by exists c|].
    destruct (IH (S k) (set_cache c s) Hc') as (c2 & Hc2 & ->). exists c2. split; [done|]. by destruct (first_rule rs evt).
Qed.

(** What flushing [l] does: [sent] goes to the channel, [lost] does not fit. *)
Lemma send_all l s : exists sent lost,
  foldl send_alert s l = mkScanner (rules s) (alerts s) (AlertCh s ++ sent) (AlertCap s) (compiledRE s) (EventsProcessed s)
    (EventsMatched s) (AlertsTriggered s) (h_received s) (h_dropped s ++ lost) /\
  Permutation l (sent ++ lost) /\ sent `sublist_of` l /\
  ((length (AlertCh s) <= AlertCap s)%nat -> (length (AlertCh s ++ sent) <= AlertCap s)%nat).
Proof.
  revert s. induction l as [|a l IH]; intros s; simpl.
  - exists [], []. rewrite !app_nil_r. by destruct s.
  - unfold send_alert at 2. destruct (Nat.ltb_spec (length (AlertCh s)) (AlertCap s)) as [Hlt|Hge].
    + destruct (IH (mkScanner (rules s) (alerts s) (AlertCh s ++ [a]) (AlertCap s) (compiledRE s) (EventsProcessed s)
        (EventsMatched s) (AlertsTriggered s) (h_received s) (h_dropped s))) as (sent & lost & -> & Hp & Hs & Hl). simpl in *.
      exists (a :: sent), lost. split_and!; [by rewrite <-app_assoc|by constructor|by apply sublist_skip|].
      intros _. rewrite cons_middle, app_assoc. apply Hl. rewrite length_app. simpl. lia.
    + destruct (IH (mkScanner (rules s) (alerts s) (AlertCh s) (AlertCap s) (compiledRE s) (EventsProcessed s)
        (EventsMatched s) (AlertsTriggered s) (h_received s) (h_dropped s ++ [a]))) as (sent & lost & -> & Hp & Hs & Hl). simpl in *.
      exists sent, (a :: lost). split_and!; [by rewrite <-app_assoc| |by apply sublist_cons|done].
      rewrite Hp. apply Permutation_middle.
Qed.

Lemma flush_ok all n s : scan_ok all n s -> scan_ok all n (flushAlerts s).
Proof.
  intros [H1 (sent & Ha & Hp & Hs) H3 H4 H5 H6]. unfold flushAlerts.
  match goal with |- context [foldl send_alert ?s0 _] => destruct (send_all (alerts s) s0) as (more & lost & -> & Hpm & Hsm & Hl) end.
  split; simpl in *; [done| |auto..].
  exists all. rewrite app_nil_r. split_and!; [done| |].
  - rewrite Ha, Hp, Hpm. solve_Permutation.
  - rewrite Ha, app_assoc. by apply sublist_app.
Qed.

Lemma event_ok all n k evt now s : scan_ok all n s ->
  scan_ok (all ++ match first_rule (rules s) evt with Some r => [new_alert (i64 (Z.of_nat (length all))) r evt now] | None => [] end)
    (S n) (processEvent k evt now s).
Proof.
  intros [H1 (sent & Ha & Hp & Hs) H3 H4 H5 H6]. unfold processEvent.
  destruct (try_rules_spec k (rules s) evt now (count_processed s) H1) as (c & Hc & ->).
  assert (i64 (EventsProcessed s + 1) = i64 (Z.of_nat (S n))) as Hn by (rewrite H4, i64_succ; f_equal; lia).
  destruct (first_rule (rules s) evt) as [r|].
  - split; simpl; [done| |done|done|rewrite H5, i64_succ; f_equal; rewrite length_app; simpl; lia..|rewrite H6, i64_succ; f_equal; rewrite length_app; simpl; lia].
    exists sent. rewrite H6, Ha, <-app_assoc. done.
  - rewrite app_nil_r. split; simpl; [done| |done..]. by exists sent.
Qed.

Lemma receive_ok all n s : scan_ok all n s -> scan_ok all n (scan_step s OpReceive).
Proof.
  intros Hok. simpl. destruct (AlertCh s) as [|a rest] eqn:E; [done|].
  destruct Hok as [H1 (sent & Ha & Hp & Hs) H3 H4 H5 H6]. rewrite E in *. split; simpl in *; [done| |lia|done..].
  exists sent. by rewrite <-!app_assoc.
Qed.

Lemma due_snoc rs ops o m : due (i64 m) rs (ops ++ [o]) =
  due (i64 m) rs ops ++ due (i64 (m + Z.of_nat (length (due (i64 m) rs ops)))) rs [o].
Proof.
  revert m. induction ops as [|[k evt now| |] ops IH]; intros m; cbn [app due].
  - simpl. by rewrite Z.add_0_r.
  - destruct (first_rule rs evt); [|apply IH]. rewrite i64_succ, IH. cbn [app length]. by rewrite Nat2Z.inj_succ, <-Z.add_1_l, Z.add_assoc.
  - apply IH.
  - apply IH.
Qed.

Lemma step_config s o : rules (scan_step s o) = rules s /\ AlertCap (scan_step s o) = AlertCap s.
Proof.
  destruct o as [k evt now| |]; simpl.
  - unfold processEvent. enough (forall rs k s0, rules (try_rules k rs evt now s0) = rules s0 /\ AlertCap (try_rules k rs evt now s0) = AlertCap s0) as Hr
      by apply (Hr (rules s) k (count_processed s)).
    induction rs as [|r rs IH]; intros k0 s0; simpl; [done|].
    destruct (Match k0 r evt (compiledRE s0)) as [c m]. destruct (default false m); [done|]. apply (IH (S k0) (set_cache c s0)).
  - unfold flushAlerts. match goal with |- context [foldl send_alert ?s0 _] => destruct (send_all (alerts s) s0) as (? & ? & -> & _) end. done.
  - by destruct (AlertCh s).
Qed.

Lemma scan_invariant rs cap cache ops : cache_ok cache ->
  rules (scan (NewScanner rs cap cache) ops) = rs /\
  scan_ok (due 0 rs ops) (length (filter is_event ops)) (scan (NewScanner rs cap cache) ops).
Proof.
  intros Hc. induction ops as [|o ops [IHr IH]] using rev_ind.
  - split; [done|]. split; simpl; [done| |lia|done..]. by exists [].
  - unfold scan in *. rewrite foldl_app. simpl. rewrite (proj1 (step_config _ _)). split; [done|].
    change 0 with (i64 0) at 1. rewrite due_snoc. change (i64 0) with 0. rewrite filter_app, length_app.
    set (s := foldl scan_step (NewScanner rs cap cache) ops) in *. destruct o as [k evt now| |].
    + rewrite filter_cons, decide_True by done. rewrite Nat.add_comm. simpl. pose proof (event_ok _ _ k evt now s IH) as He.
      rewrite IHr in He. destruct (first_rule rs evt); exact He.
    + rewrite filter_cons, decide_False by (simpl; tauto). simpl. rewrite app_nil_r, Nat.add_0_r. by apply flush_ok.
    + rewrite filter_cons, decide_False by (simpl; tauto). simpl. rewrite app_nil_r, Nat.add_0_r. by apply (receive_ok _ _ s).
Qed.

(** [C17] The scanner raises exactly the alerts its rules call for.  Whatever events arrive,
    whenever alerts are flushed and received, and whichever regular expressions were already
    compiled: there is one alert for each event that some rule selects, for the first such
    rule, numbered in order; each is pending, or was received, waits in the channel or was
    dropped because the channel was full, exactly once, and the received and waiting ones
    are in order; the channel is within its capacity; and the counters count the events and
    the alerts, modulo the width of the counters. *)
Theorem scanner_exact (rs : list Rule) (cap : option nat) (cache : re_cache) (ops : list scan_op) :
  cache_ok cache -> let s := scan (NewScanner rs cap cache) ops in
  (exists sent, due 0 rs ops = sent ++ alerts s /\ Permutation sent (h_received s ++ AlertCh s ++ h_dropped s) /\
     h_received s ++ AlertCh s `sublist_of` sent) /\
  (length (AlertCh s) <= default 256 cap)%nat /\
  EventsProcessed s = i64 (Z.of_nat (length (filter is_event ops))) /\
  EventsMatched s = i64 (Z.of_nat (length (due 0 rs ops))) /\ AlertsTriggered s = EventsMatched s.
Proof.
  intros Hc s. destruct (scan_invariant rs cap cache ops Hc) as [_ [H1 H2 H3 H4 H5 H6]].
  assert (AlertCap s = default 256%nat cap) as Hcap.
  { subst s. clear. unfold scan. induction ops as [|o ops IH] using rev_ind; [done|]. rewrite foldl_app. simpl. rewrite (proj2 (step_config _ _)). exact IH. }
  split_and!; [done| |done..|]. { fold s in H3. by rewrite <-Hcap. } fold s in H5, H6. by rewrite H5, H6.
Qed.
End meaning.

(** ** Patterns and comparisons *)

Section patterns.
Context {RE : GoRegexp}.

Lemma slice_prefix p v : (String.length p <=? String.length v)%nat && String.eqb (slice_str v 0 (String.length p)) p = HasPrefix v p.
Proof.
  unfold slice_str, HasPrefix. rewrite Nat.sub_0_r. revert v. induction p as [|a p IH]; intros v.
  - by destruct v.
  - destruct v as [|b v]; [done|]. specialize (IH v). cbn [String.length String.prefix String.substring]. cbn [Nat.leb String.eqb].
    destruct (ascii_dec a b) as [->|Hne]; [by rewrite Ascii.eqb_refl|].
    rewrite (proj2 (Ascii.eqb_neq b a)) by congruence. by rewrite andb_false_r.
Qed.

Lemma rev_snoc p c : String.rev (p +:+ String c "") = String c (String.rev p).
Proof.
  unfold String.rev. generalize "" at 2 3 as acc. induction p as [|a p IH]; intros acc; simpl; [done|]. apply IH.
Qed.

Lemma suffix_snoc p c d : HasSuffix (p +:+ String c "") (String d "") = bool_decide (c = d).
Proof.
  unfold HasSuffix. rewrite rev_snoc. simpl. destruct (ascii_dec d c) as [->|Hne].
  - rewrite bool_decide_true by done. by destruct (String.rev p).
  - by rewrite bool_decide_false by congruence.
Qed.

Lemma substring_prefix p t : String.substring 0 (String.length p) (p +:+ t) = p.
Proof. induction p as [|a p IH]; simpl; [by destruct t|]. by rewrite IH. Qed.

Lemma length_snoc p c : String.length (p +:+ String c "") = S (String.length p).
Proof. induction p as [|a p IH]; simpl; [done|]. by rewrite IH. Qed.

(** A pattern that ends with a star matches the values with the text before the star as a
    prefix; further stars in that text are ordinary characters. *)
Lemma glob_star p v : glob (p +:+ "*") v = true <-> exists t, v = p +:+ t.
Proof.
  unfold glob, patternMatch. rewrite <-HasPrefix_spec.
  assert (String.eqb (p +:+ "*") "" = false) as -> by (by destruct p).
  assert (is_regex (p +:+ "*") = false) as ->.
  { unfold is_regex. rewrite suffix_snoc, bool_decide_false by done. by rewrite andb_false_r. }
  rewrite suffix_snoc, bool_decide_true by done. unfold TrimSuffix. rewrite suffix_snoc, bool_decide_true by done.
  rewrite length_snoc. change (String.length "*") with 1%nat. rewrite Nat.sub_succ, Nat.sub_0_r, substring_prefix. cbn [snd].
  by rewrite slice_prefix.
Qed.

End patterns.

(** ** Examples *)

(** No regular expression compiles; enough for rules without one. *)
Definition no_regexp : GoRegexp := {| Regexp := Empty_set; re_Compile _ := None; re_MatchString _ _ := false |}.

Definition no_selection : Selection := mkSel [] "" "" "" "" "" "" "".
Definition inline_rule (id level : string) (sel : Selection) : Rule :=
  mkRule id id "" "" "" level [] (mkDet sel ∅ "").
Definition event (typ uid pid : Z) (comm path : string) : pbEvent :=
  mkEvent typ 0 0 pid pid 1 uid uid comm path 0 0 0 0 0 0 0 0 0 0 0.

Example comparisons :
  compareField "1000" 1000 = true /\ compareField "!= 0" 0 = false /\ compareField ">=5" 5 = true /\ compareField "<5" 5 = false /\
  compareField ">x" 7 = false /\ compareField "18446744073709551616" 0 = false.
Proof. vm_compute. done. Qed.

(** Two of the built-in rules as the decoder returns them. *)
Definition rule_logs : Rule := inline_rule "rule-logs-001" "high" (mkSel [11; 12; 14] "/var/log/*" "*rm*" "" "" "" "" "").
Definition rule_revshell : Rule := inline_rule "rule-revshell-001" "critical" (mkSel [2] "" "bash" "" "" "" "" "reverse_shell").

Section examples.
#[local] Existing Instance no_regexp.
#[local] Existing Instance ascii_case.

(** The rule on log clearing looks for a process whose name begins with a star. *)
Example logs_rule_misses_rm : rule_holds rule_logs (event 12 0 77 "rm" "/var/log/auth.log") = false.
Proof. vm_compute. done. Qed.

(** The rule on reverse shells selects every execution of bash: flags other than setuid
    are not looked at. *)
Example revshell_rule_selects_bash : rule_holds rule_revshell (event 2 1000 77 "bash" "/bin/bash") = true.
Proof. vm_compute. done. Qed.

(** Without selections a rule selects everything, whatever its condition says. *)
Example no_selections_select_all evt cond : rule_holds (mkRule "t" "t" "" "" "" "low" [] (mkDet no_selection ∅ cond)) evt = true.
Proof. done. Qed.
End examples.

Definition sample_ops : list scan_op :=
  [OpEvent 0 (event 2 1000 77 "bash" "/bin/bash") 5; OpEvent 0 (event 12 0 77 "rm" "/x") 6; OpFlush; OpReceive].

Lemma condition_exact_witness :
  @evaluateCondition ascii_case "not a  AND(b or c)" {["b" := true]} = Some true.
Proof.
  destruct (@condition_exact ascii_case "not a  AND(b or c)" {["b" := true]}) as (v & -> & Hv). f_equal.
  apply (Hv [mkTok tokNOT "not"; mkTok tokIdent "a"; mkTok tokAND "AND"; mkTok tokLParen "("; mkTok tokIdent "b"; mkTok tokOR "or"; mkTok tokIdent "c"; mkTok tokRParen ")"]
    (And (Not (Sel "a")) (Or (Sel "b") (Sel "c")))).
  - apply (@sp_word ascii_case (bytes_of_string "not") (bytes_of_string " a  AND(b or c)")); [done|repeat constructor; done|done|].
    apply sp_blank; [done|].
    apply (@sp_word ascii_case (bytes_of_string "a") (bytes_of_string "  AND(b or c)")); [done|repeat constructor; done|done|].
    do 2 (apply sp_blank; [done|]).
    apply (@sp_word ascii_case (bytes_of_string "AND") (bytes_of_string "(b or c)")); [done|repeat constructor; done|done|].
    apply sp_open.
    apply (@sp_word ascii_case (bytes_of_string "b") (bytes_of_string " or c)")); [done|repeat constructor; done|done|].
    apply sp_blank; [done|].
    apply (@sp_word ascii_case (bytes_of_string "or") (bytes_of_string " c)")); [done|repeat constructor; done|done|].
    apply sp_blank; [done|].
    apply (@sp_word ascii_case (bytes_of_string "c") (bytes_of_string ")")); [done|repeat constructor; done|done|].
    apply sp_close, sp_nil.
  - apply g_term, (g_and [mkTok tokNOT "not"; mkTok tokIdent "a"]).
    + apply g_factor, g_not, g_primary, g_ident.
    + apply g_primary, (g_paren [mkTok tokIdent "b"; mkTok tokOR "or"; mkTok tokIdent "c"]).
      apply (g_or [mkTok tokIdent "b"]); [apply g_term|]; apply g_factor, g_primary, g_ident.
Defined.

Lemma scanner_exact_witness : exists s, s = @scan ascii_case no_regexp alternating_order
    (@NewScanner no_regexp [rule_logs; rule_revshell] None ∅) sample_ops /\
  (RuleID <$> h_received s) = ["rule-revshell-001"] /\ EventsProcessed s = 2 /\ EventsMatched s = 1.
Proof.
  eexists. split; [reflexivity|]. pose proof (@scanner_exact ascii_case no_regexp alternating_order [rule_logs; rule_revshell] None ∅ sample_ops) as H.
  destruct H as (_ & _ & H3 & H4 & _); [by intros p re Hp%lookup_empty_Some|].
  split_and!; [vm_compute; done|rewrite H3; vm_compute; done|rewrite H4; vm_compute; done].
Defined.
