(* ===== verification/Adaptive.v ===== *)
(** * Adaptive monitoring levels ([internal/policy/adaptive])

    The controller keeps a monitoring level per process, raises it on alerts, lowers it when
    its time is over, and writes the levels to a map the kernel probes read.  The map is the
    field [bpf]; each write is given whether it succeeds ([wr]).  Clock readings are
    arguments, one for each call of [time.Now] or [time.Since]. *)
From S2P Require Import Prelude GoFloat.

Definition Level := Z.
Definition LevelDefault : Level := 1.
Definition LevelSuspicious : Level := 2.
Definition LevelInvestigating : Level := 3.

Definition AlertThreshold (l : Level) : float64 :=
  match l with 1 => lit 0 1 | 2 => lit 5 1 | 3 => lit 20 1 | _ => lit 999 1 end.

(** Seconds. *)
Definition DowngradeAfter (l : Level) : Z := match l with 2 => 600 | 3 => 300 | _ => 0 end.

Record procState := mkProc {
  PID : Z; p_Level : Level; UpgradedAt : time; LastAlertAt : time; AlertCount : Z; DowngradeAt : time;
}.

Record Stats := mkStats { TotalUpgrades : Z; TotalDowngrades : Z; ActiveHigh : Z; ActiveMedium : Z }.

(** [bpf]: the kernel map, or [None] without one. *)
Record AdaptiveController := mkAC {
  bpf : option (gmap Z Z); procs : gmap Z procState; downgradeAfter : duration; upgradeCooldown : duration; stats : Stats;
}.

Definition New (bpfMap : option (gmap Z Z)) : AdaptiveController := mkAC bpfMap ∅ 0 (30 * Second) (mkStats 0 0 0 0).

Definition GetLevel (pid : Z) (ac : AdaptiveController) : Level :=
  match procs ac !! pid with Some ps => p_Level ps | None => LevelDefault end.

Definition getOrCreate (pid : Z) (ac : AdaptiveController) : procState :=
  default (mkProc pid LevelDefault time_zero time_zero 0 time_zero) (procs ac !! pid).

Definition count_level (l : Level) (m : gmap Z procState) : Z := Z.of_nat (size (filter (fun kv => p_Level kv.2 = l) m)).

Definition refreshStats (ac : AdaptiveController) : AdaptiveController :=
  mkAC (bpf ac) (procs ac) (downgradeAfter ac) (upgradeCooldown ac)
    (mkStats (TotalUpgrades (stats ac)) (TotalDowngrades (stats ac)) (count_level LevelInvestigating (procs ac))
       (count_level LevelSuspicious (procs ac))).

Definition put (wr : bool) (pid : Z) (l : Level) (m : option (gmap Z Z)) : option (gmap Z Z) :=
  if wr then insert (u32 pid) (u32 l) <$> m else m.
Definition del (wr : bool) (pid : Z) (m : option (gmap Z Z)) : option (gmap Z Z) := if wr then delete (u32 pid) <$> m else m.

Definition set_proc (pid : Z) (ps : procState) (ac : AdaptiveController) : AdaptiveController :=
  mkAC (bpf ac) (<[pid := ps]> (procs ac)) (downgradeAfter ac) (upgradeCooldown ac) (stats ac).
Definition set_bpf (m : option (gmap Z Z)) (ac : AdaptiveController) : AdaptiveController :=
  mkAC m (procs ac) (downgradeAfter ac) (upgradeCooldown ac) (stats ac).
Definition add_upgrade (ac : AdaptiveController) : AdaptiveController :=
  mkAC (bpf ac) (procs ac) (downgradeAfter ac) (upgradeCooldown ac)
    (mkStats (i64 (TotalUpgrades (stats ac) + 1)) (TotalDowngrades (stats ac)) (ActiveHigh (stats ac)) (ActiveMedium (stats ac))).
Definition add_downgrade (ac : AdaptiveController) : AdaptiveController :=
  mkAC (bpf ac) (procs ac) (downgradeAfter ac) (upgradeCooldown ac)
    (mkStats (TotalUpgrades (stats ac)) (i64 (TotalDowngrades (stats ac) + 1)) (ActiveHigh (stats ac)) (ActiveMedium (stats ac))).

(** Clock readings of one call, in the order of the code. *)
Record clock := mkClock { t_since : time; t_up : time; t_alert : time; t_down : time }.

(** The level a number of alerts calls for. *)
Definition level_for (count : Z) (old : Level) : Level :=
  if 3 <=? count then LevelInvestigating else if 1 <=? count then LevelSuspicious else old.

Definition Upgrade (pid : Z) (t : clock) (wr : bool) (ac : AdaptiveController) : AdaptiveController * Level :=
  let ps := getOrCreate pid ac in
  let oldLevel := p_Level ps in
  let count := i64 (AlertCount ps + 1) in
  let level := level_for count oldLevel in
  if (level <=? oldLevel) && (time_Sub (t_since t) (UpgradedAt ps) <? upgradeCooldown ac) && (LevelDefault <? oldLevel)
  then (set_proc pid (mkProc (PID ps) level (UpgradedAt ps) (LastAlertAt ps) count (DowngradeAt ps)) ac, oldLevel)
  else
    let down := if 0 <? DowngradeAfter level then time_Add (t_down t) (DowngradeAfter level * Second) else DowngradeAt ps in
    let ac := set_proc pid (mkProc (PID ps) level (t_up t) (t_alert t) count down) ac in
    let ac := set_bpf (put wr pid level (bpf ac)) ac in
    (refreshStats (add_upgrade ac), level).

Definition lower (ps : procState) : procState :=
  mkProc (PID ps) LevelDefault (UpgradedAt ps) (LastAlertAt ps) (AlertCount ps) time_zero.

Definition Downgrade (pid : Z) (wr : bool) (ac : AdaptiveController) : AdaptiveController * Level :=
  match procs ac !! pid with
  | None => (ac, LevelDefault)
  | Some ps =>
      let ac := set_proc pid (lower ps) ac in
      let ac := set_bpf (del wr pid (bpf ac)) ac in
      (refreshStats (add_downgrade ac), LevelDefault)
  end.

(** The time at which a process is lowered, and whether it is over. *)
Definition downgradeTime (ac : AdaptiveController) (ps : procState) : time :=
  if (0 <? downgradeAfter ac) && negb (time_IsZero (UpgradedAt ps)) then time_Add (UpgradedAt ps) (downgradeAfter ac)
  else DowngradeAt ps.
Definition expired (now : time) (ac : AdaptiveController) (ps : procState) : bool :=
  (LevelDefault <? p_Level ps) && negb (time_IsZero (downgradeTime ac ps)) && time_After now (downgradeTime ac ps).

Definition tick_proc (now : time) (wr : bool) (st : AdaptiveController * Z) (e : Z * procState) : AdaptiveController * Z :=
  let '(ac, downgraded) := st in let '(pid, ps) := e in
  if expired now ac ps
  then let ac := set_proc pid (lower ps) ac in
       let ac := set_bpf (del wr pid (bpf ac)) ac in
       (add_downgrade ac, downgraded + 1)
  else (ac, downgraded).

Definition Tick `{MapOrder} (k : nat) (now : time) (wr : bool) (ac : AdaptiveController) : AdaptiveController * Z :=
  let '(ac, n) := foldl (tick_proc now wr) (ac, 0) (range k (map_to_list (procs ac))) in (refreshStats ac, n).

Definition OnAlert (pid : Z) (score : float64) (t : clock) (wr : bool) (ac : AdaptiveController) : AdaptiveController * Level :=
  if f_ltb score (AlertThreshold LevelSuspicious) then (ac, GetLevel pid ac)
  else if f_geb score (AlertThreshold LevelInvestigating) then
    let ps := getOrCreate pid ac in
    let down := if 0 <? DowngradeAfter LevelInvestigating then time_Add (t_down t) (DowngradeAfter LevelInvestigating * Second)
                else time_Add (t_down t) (5 * Minute) in
    let ac := set_proc pid (mkProc (PID ps) LevelInvestigating (UpgradedAt ps) (t_alert t) (i64 (AlertCount ps + 1)) down) ac in
    (set_bpf (put wr pid LevelInvestigating (bpf ac)) ac, LevelInvestigating)
  else Upgrade pid t wr ac.

(** ** The invariant *)

Definition valid_pid (pid : Z) : Prop := 0 <= pid < 2 ^ 32.

(** The entry of the kernel map for a process. *)
Definition entry (ps : option procState) : option Z :=
  ps ≫= fun ps => if LevelDefault <? p_Level ps then Some (p_Level ps) else None.

(** [n] bounds the number of alerts. *)
Record proc_ok (n : Z) (ps : procState) : Prop := {
  po_level : 1 <= p_Level ps <= 3;
  po_count : 0 <= AlertCount ps <= n;
  po_fresh : AlertCount ps = 0 -> UpgradedAt ps = 0;
  po_fast : p_Level ps = 3 -> AlertCount ps <= 1 -> UpgradedAt ps = 0;
  po_deadline : if LevelDefault <? p_Level ps then 0 < DowngradeAt ps else DowngradeAt ps = 0;
}.

Record state_ok (n : Z) (ac : AdaptiveController) : Prop := {
  so_conf : downgradeAfter ac = 0 /\ upgradeCooldown ac = 30 * Second;
  so_procs : map_Forall (fun pid ps => valid_pid pid /\ proc_ok n ps) (procs ac);
  so_mirror : exists m, bpf ac = Some m /\ forall pid, valid_pid pid -> m !! pid = entry (procs ac !! pid);
}.

Lemma u32_pid pid : valid_pid pid -> u32 pid = pid.
Proof. intros. unfold u32. by rewrite Z.mod_small. Qed.

Section ok.
Context (n : Z) (ac : AdaptiveController) (Hok : state_ok n ac) (pid : Z) (Hp : valid_pid pid).

Lemma procs_insert ps : proc_ok n ps -> map_Forall (fun pid ps => valid_pid pid /\ proc_ok n ps) (<[pid := ps]> (procs ac)).
Proof. intros. apply map_Forall_insert_2; [done|]. apply (so_procs _ _ Hok). Qed.

Lemma raise_ok ps : proc_ok n ps -> 1 < p_Level ps -> state_ok n (set_bpf (put true pid (p_Level ps) (bpf ac)) (set_proc pid ps ac)).
Proof.
  intros Hps Hl. destruct Hok as [Hc _ (m & Hm & Hmir)]. split; simpl; [done|by apply procs_insert|].
  pose proof (po_level _ _ Hps). exists (<[pid := p_Level ps]> m). split.
  - rewrite Hm. simpl. rewrite (u32_pid pid) by done. do 2 f_equal. unfold u32. rewrite Z.mod_small; lia.
  - intros q Hq. destruct (decide (q = pid)) as [->|Hne].
    + rewrite !lookup_insert_eq. simpl. by rewrite (proj2 (Z.ltb_lt _ _)) by (unfold LevelDefault; lia).
    + rewrite !lookup_insert_ne by done. by apply Hmir.
Qed.

Lemma lower_ok ps : proc_ok n ps -> p_Level ps = 1 -> state_ok n (set_bpf (del true pid (bpf ac)) (set_proc pid ps ac)).
Proof.
  intros Hps Hl. destruct Hok as [Hc _ (m & Hm & Hmir)]. split; simpl; [done|by apply procs_insert|].
  exists (delete pid m). split; [rewrite Hm; simpl; by rewrite u32_pid|].
  intros q Hq. destruct (decide (q = pid)) as [->|Hne].
  - rewrite lookup_delete_eq, lookup_insert_eq. simpl. by rewrite Hl.
  - rewrite lookup_delete_ne, lookup_insert_ne by done. by apply Hmir.
Qed.

Lemma keep_ok ps : proc_ok n ps -> p_Level ps = p_Level (getOrCreate pid ac) -> state_ok n (set_proc pid ps ac).
Proof.
  intros Hps Hl. destruct Hok as [Hc _ (m & Hm & Hmir)]. split; simpl; [done|by apply procs_insert|].
  exists m. split; [done|]. intros q Hq. destruct (decide (q = pid)) as [->|Hne].
  - rewrite lookup_insert_eq, Hmir by done. simpl. rewrite Hl. unfold getOrCreate. by destruct (procs ac !! pid).
  - rewrite lookup_insert_ne by done. by apply Hmir.
Qed.

Lemma current_ok : 0 <= n -> proc_ok n (getOrCreate pid ac).
Proof.
  intros Hn. unfold getOrCreate. destruct (procs ac !! pid) as [ps|] eqn:E; simpl.
  - apply (so_procs _ _ Hok pid ps E).
  - split; simpl; done || lia.
Qed.
End ok.

Lemma proc_ok_mono n n' ps : n <= n' -> proc_ok n ps -> proc_ok n' ps.
Proof. intros Hn [? ? ? ? ?]. split; done || lia. Qed.

Lemma state_ok_mono n n' ac : n <= n' -> state_ok n ac -> state_ok n' ac.
Proof.
  intros Hn [Hc Hp Hm]. split; try done. eapply map_Forall_impl; [exact Hp|]. intros pid ps [? ?]. split; [done|]. by eapply proc_ok_mono.
Qed.

(** Statistics play no part in the invariant. *)
Lemma stats_ok n ac ac' : state_ok n ac ->
  (bpf ac', procs ac', downgradeAfter ac', upgradeCooldown ac') = (bpf ac, procs ac, downgradeAfter ac, upgradeCooldown ac) -> state_ok n ac'.
Proof. intros [H1 H2 H3] [= Eb Ep Ed Eu]. split; by rewrite ?Eb, ?Ep, ?Ed, ?Eu. Qed.

Ltac drop_stats :=
  repeat match goal with
  | |- state_ok _ (refreshStats ?x) => apply (stats_ok _ x); [|reflexivity]
  | |- state_ok _ (add_upgrade ?x) => apply (stats_ok _ x); [|reflexivity]
  | |- state_ok _ (add_downgrade ?x) => apply (stats_ok _ x); [|reflexivity]
  end.

Lemma lowered n ps : proc_ok n ps -> proc_ok n (lower ps).
Proof. intros [? ? ? ? ?]. split; simpl; done || lia. Qed.

Definition after_epoch (t : clock) : Prop :=
  unix_epoch <= t_since t /\ unix_epoch <= t_up t /\ unix_epoch <= t_alert t /\ unix_epoch <= t_down t.

Lemma upgrade_ok n pid t ac : 0 <= n -> n + 1 < 2 ^ 63 -> valid_pid pid -> after_epoch t -> state_ok n ac ->
  state_ok (n + 1) (Upgrade pid t true ac).1.
Proof.
  intros Hn Hb Hp (Ht1 & Ht2 & Ht3 & Ht4) Hok. pose proof (current_ok n ac Hok pid Hn) as [L C F Fa D].
  destruct (so_conf _ _ Hok) as [_ Hcool]. apply (state_ok_mono n (n + 1)) in Hok; [|lia]. unfold Upgrade.
  assert (i64 (AlertCount (getOrCreate pid ac) + 1) = AlertCount (getOrCreate pid ac) + 1) as ->
    by (apply i64_small; unfold MinInt64, MaxInt64; lia).
  set (ps := getOrCreate pid ac) in *. set (count := AlertCount ps + 1). unfold level_for, LevelInvestigating, LevelSuspicious, LevelDefault in *.
  replace (1 <=? count) with true by (unfold count; lia).
  destruct (_ && _ && _) eqn:Hcd.
  - apply andb_prop in Hcd as [[Hle Hs]%andb_prop Hold]. simpl. apply Z.leb_le in Hle. apply Z.ltb_lt in Hold, Hs.
    assert (p_Level ps = if 3 <=? count then 3 else 2) as Hsame.
    { destruct (Z.leb_spec 3 count); [lia|]. destruct (decide (p_Level ps = 2)); [done|]. exfalso.
      rewrite Hcool, (Fa ltac:(lia) ltac:(lia)) in Hs. unfold time_Sub, MinInt64, MaxInt64, Second, unix_epoch in *. lia. }
    rewrite <-Hsame. apply keep_ok; try done. split; simpl; try done; unfold count; try lia.
  - cbn [fst]. drop_stats. apply (raise_ok (n + 1) ac Hok pid Hp (mkProc _ _ _ _ _ _)); simpl.
    + split; simpl; unfold count in *; destruct (Z.leb_spec 3 (AlertCount ps + 1)); simpl; try lia; unfold time_Add, unix_epoch, Second in *; lia.
    + destruct (3 <=? count); lia.
Qed.

Lemma alert_ok n pid score t ac : 0 <= n -> n + 1 < 2 ^ 63 -> valid_pid pid -> after_epoch t -> state_ok n ac ->
  state_ok (n + 1) (OnAlert pid score t true ac).1.
Proof.
  intros Hn Hb Hp Ht Hok. unfold OnAlert. destruct (f_ltb _ _); [apply (state_ok_mono n); [lia|done]|].
  destruct (f_geb _ _); [|by apply upgrade_ok]. pose proof (current_ok n ac Hok pid Hn) as [L C F Fa D].
  assert (i64 (AlertCount (getOrCreate pid ac) + 1) = AlertCount (getOrCreate pid ac) + 1) as ->
    by (apply i64_small; unfold MinInt64, MaxInt64; lia).
  apply (state_ok_mono n (n + 1)) in Hok; [|lia]. destruct Ht as (_ & _ & _ & Ht). simpl.
  apply (raise_ok (n + 1) ac Hok pid Hp (mkProc _ _ _ _ _ _)); simpl; [|done].
  split; simpl; unfold LevelInvestigating; try lia. unfold time_Add, unix_epoch, Second in *. simpl. lia.
Qed.

Lemma downgrade_ok n pid ac : valid_pid pid -> state_ok n ac -> state_ok n (Downgrade pid true ac).1.
Proof.
  intros Hp Hok. unfold Downgrade. destruct (procs ac !! pid) as [ps|] eqn:E; [|done]. cbn [fst].
  drop_stats. apply (lower_ok n ac Hok); try done. apply lowered, (so_procs _ _ Hok pid ps E).
Qed.

(** ** The periodic check *)

Lemma tick_fold_ok n now l ac c : state_ok n ac -> (forall pid ps, (pid, ps) ∈ l -> valid_pid pid /\ proc_ok n ps) ->
  state_ok n (foldl (tick_proc now true) (ac, c) l).1.
Proof.
  revert ac c. induction l as [|[pid ps] l IH]; intros ac c Hok Hl; simpl; [done|].
  assert (forall pid ps, (pid, ps) ∈ l -> valid_pid pid /\ proc_ok n ps) by (intros; apply Hl; by right).
  destruct (expired now ac ps); [|by apply IH]. destruct (Hl pid ps ltac:(left)) as [Hp Hps].
  apply IH; [|done]. drop_stats. apply (lower_ok n ac Hok); [done|by apply lowered|done].
Qed.

Definition lower_if (now : time) (ac : AdaptiveController) (ps : procState) : procState := if expired now ac ps then lower ps else ps.

Lemma expired_conf now ac ac' ps : downgradeAfter ac' = downgradeAfter ac -> expired now ac' ps = expired now ac ps.
Proof. intros E. unfold expired, downgradeTime. by rewrite E. Qed.

Lemma tick_fold_procs now l ac c : NoDup l.*1 -> (forall pid ps, (pid, ps) ∈ l -> procs ac !! pid = Some ps) ->
  let r := foldl (tick_proc now true) (ac, c) l in
  (forall pid, procs r.1 !! pid = (if decide (pid ∈ l.*1) then lower_if now ac <$> procs ac !! pid else procs ac !! pid)) /\
  r.2 = c + Z.of_nat (length (filter (fun e => expired now ac e.2 = true) l)).
Proof.
  revert ac c. induction l as [|[pid ps] l IH]; intros ac c Hnd Hl; simpl.
  - split; [done|lia].
  - apply NoDup_cons in Hnd as [Hn Hnd].
    assert (forall ac', downgradeAfter ac' = downgradeAfter ac -> lower_if now ac' = lower_if now ac) as Hlow.
    { intros ac' E. unfold lower_if, expired, downgradeTime. by rewrite E. }
    set (ac1 := if expired now ac ps then add_downgrade (set_bpf (del true pid (bpf ac)) (set_proc pid (lower ps) ac)) else ac).
    set (c1 := if expired now ac ps then c + 1 else c).
    replace (if expired now ac ps then _ else _) with (ac1, c1) by (subst ac1 c1; by destruct (expired now ac ps)).
    assert (downgradeAfter ac1 = downgradeAfter ac) as Hconf by (subst ac1; by destruct (expired now ac ps)).
    assert (forall q, procs ac1 !! q = if decide (q = pid) then lower_if now ac <$> procs ac !! q else procs ac !! q) as Hac1.
    { intros q. assert (procs ac !! pid = Some ps) as Hpid by (apply Hl; left). subst ac1. unfold lower_if.
      destruct (expired now ac ps) eqn:Ee; simpl; case_decide as Hq; subst; rewrite ?lookup_insert_eq, ?Hpid; simpl; rewrite ?Ee; try done.
      by rewrite lookup_insert_ne. }
    destruct (IH ac1 c1 Hnd) as [IH1 IH2].
    { intros q ps' Hq. rewrite Hac1, decide_False; [apply Hl; by right|]. intros ->. apply Hn. apply list_elem_of_fmap. by exists (pid, ps'). }
    split.
    + intros q. rewrite IH1, Hac1, (Hlow ac1 Hconf).
      destruct (decide (q = pid)) as [->|Hne].
      * rewrite decide_False by done. by rewrite decide_True by (left).
      * destruct (decide (q ∈ l.*1)); [by rewrite decide_True by (by right)|].
        rewrite decide_False; [done|]. rewrite elem_of_cons. tauto.
    + rewrite IH2, filter_cons. subst c1. simpl. rewrite (list_filter_iff _ (fun e : Z * procState => expired now ac e.2 = true)) by (intros e; by rewrite (expired_conf now ac ac1)).
      destruct (expired now ac ps); simpl; lia.
Qed.

Lemma Tick_procs `{MapOrder} k now ac : let r := Tick k now true ac in
  (forall pid, procs r.1 !! pid = lower_if now ac <$> procs ac !! pid) /\
  r.2 = Z.of_nat (length (filter (fun e => expired now ac e.2 = true) (map_to_list (procs ac)))).
Proof.
  unfold Tick. destruct (tick_fold_procs now (range k (map_to_list (procs ac))) ac 0) as [H1 H2].
  - rewrite range_perm. apply NoDup_fst_map_to_list.
  - intros pid ps Hin. apply elem_of_range in Hin. by apply elem_of_map_to_list.
  - destruct (foldl _ _ _) as [ac' c]. simpl in *. split.
    + intros pid. rewrite H1. case_decide as Hd; [done|]. destruct (procs ac !! pid) as [ps|] eqn:E; [|done].
      exfalso. apply Hd. rewrite range_perm. apply list_elem_of_fmap. exists (pid, ps). by rewrite elem_of_map_to_list.
    + rewrite H2, range_perm. lia.
Qed.

Lemma filter_ext_in {A} (P Q : A -> Prop) `{!forall x, Decision (P x), !forall x, Decision (Q x)} (l : list A) :
  (forall x, x ∈ l -> P x <-> Q x) -> filter P l = filter Q l.
Proof.
  induction l as [|x l IH]; intros Hl; [done|]. rewrite !filter_cons, IH by (intros; apply Hl; by right).
  by rewrite (decide_ext (P x) (Q x)) by (apply Hl; left).
Qed.

(** ** Runs *)

Inductive op :=
| OpUpgrade (pid : Z) (t : clock) | OpAlert (pid : Z) (score : float64) (t : clock)
| OpDowngrade (pid : Z) | OpTick (k : nat) (now : time).

Definition op_ok (o : op) : Prop :=
  match o with
  | OpUpgrade pid t | OpAlert pid _ t => valid_pid pid /\ after_epoch t
  | OpDowngrade pid => valid_pid pid
  | OpTick _ _ => True
  end.

Section runs.
Context {MO : MapOrder}.

(** With a kernel map whose writes succeed. *)
Definition step (ac : AdaptiveController) (o : op) : AdaptiveController :=
  match o with
  | OpUpgrade pid t => (Upgrade pid t true ac).1
  | OpAlert pid score t => (OnAlert pid score t true ac).1
  | OpDowngrade pid => (Downgrade pid true ac).1
  | OpTick k now => (Tick k now true ac).1
  end.

Lemma tick_ok n k now ac : state_ok n ac -> state_ok n (Tick k now true ac).1.
Proof.
  intros Hok. unfold Tick. pose proof (tick_fold_ok n now (range k (map_to_list (procs ac))) ac 0 Hok) as Hf.
  destruct (foldl _ _ _) as [ac' c]. cbn [fst] in *. drop_stats. apply Hf.
  intros pid ps Hin%elem_of_range%elem_of_map_to_list. by apply (so_procs _ _ Hok pid ps).
Qed.

Lemma run_ok ops : Forall op_ok ops -> Z.of_nat (length ops) < 2 ^ 63 ->
  state_ok (Z.of_nat (length ops)) (foldl step (New (Some ∅)) ops).
Proof.
  induction ops as [|o ops IH] using rev_ind; intros Ho Hb.
  - split; [done|apply map_Forall_empty|]. exists ∅. split; [done|]. intros pid _. by rewrite !lookup_empty.
  - apply Forall_app in Ho as [Ho Hlast]. apply Forall_cons in Hlast as [Hlast _]. rewrite foldl_app. rewrite length_app in *. simpl in *.
    specialize (IH Ho ltac:(lia)). replace (Z.of_nat (length ops + 1)) with (Z.of_nat (length ops) + 1) in * by lia.
    destruct o as [pid t|pid score t|pid|k now]; simpl in *.
    + apply upgrade_ok; [lia|lia|apply Hlast|apply Hlast|exact IH].
    + apply alert_ok; [lia|lia|apply Hlast|apply Hlast|exact IH].
    + eapply state_ok_mono; [|by apply downgrade_ok]. lia.
    + eapply state_ok_mono; [|by apply tick_ok]. lia.
Qed.

(** [C18] The kernel sees the level of every process, and no process stays raised.  After
    any alerts, upgrades, downgrades and periodic checks, when writes to the kernel map
    succeed: the map holds the level of exactly the raised processes, levels are between
    the default and the highest one, and a raised process has a time at which it is due.
    A periodic check lowers exactly the raised processes whose time is over, in any order of
    iteration, keeps all other levels, and returns how many it lowered. *)
Theorem levels_mirrored (ops : list op) :
  Forall op_ok ops -> Z.of_nat (length ops) < 2 ^ 63 -> let ac := foldl step (New (Some ∅)) ops in
  exists m, bpf ac = Some m /\
  forall pid, valid_pid pid ->
    1 <= GetLevel pid ac <= 3 /\
    m !! pid = (if LevelDefault <? GetLevel pid ac then Some (GetLevel pid ac) else None) /\
    (forall ps, procs ac !! pid = Some ps -> LevelDefault < p_Level ps -> 0 < DowngradeAt ps) /\
    forall k now, let '(ac', n) := Tick k now true ac in
      n = Z.of_nat (length (filter (fun e => LevelDefault < p_Level e.2 /\ DowngradeAt e.2 < now) (map_to_list (procs ac)))) /\
      GetLevel pid ac' = match procs ac !! pid with
                         | Some ps => if decide (LevelDefault < p_Level ps /\ DowngradeAt ps < now) then LevelDefault else p_Level ps
                         | None => LevelDefault
                         end.
Proof.
  intros Ho Hb ac. pose proof (run_ok ops Ho Hb) as Hok. fold ac in Hok. destruct (so_mirror _ _ Hok) as (m & Hm & Hmir).
  exists m. split; [done|]. intros pid Hp. split; [|split; [|split]].
  - pose proof (po_level _ _ (current_ok _ ac Hok pid ltac:(lia))) as Hl. unfold GetLevel, getOrCreate in *.
    destruct (procs ac !! pid); [exact Hl|unfold LevelDefault; lia].
  - rewrite Hmir by done. unfold GetLevel, entry. by destruct (procs ac !! pid).
  - intros ps Hps Hl. destruct (so_procs _ _ Hok pid ps Hps) as [_ Hpo]. pose proof (po_deadline _ _ Hpo) as Hd.
    by rewrite (proj2 (Z.ltb_lt _ _)) in Hd.
  - intros k now. destruct (Tick_procs k now ac) as [H1 H2]. destruct (Tick k now true ac) as [ac' n]. simpl in *.
    assert (forall pid ps, procs ac !! pid = Some ps -> expired now ac ps = true <-> LevelDefault < p_Level ps /\ DowngradeAt ps < now) as Hexp.
    { intros q ps Hps. destruct (so_procs _ _ Hok q ps Hps) as [_ Hpo]. pose proof (po_deadline _ _ Hpo) as Hd.
      unfold expired, downgradeTime. rewrite (proj1 (so_conf _ _ Hok)). simpl. rewrite !andb_true_iff, negb_true_iff.
      unfold time_IsZero, time_After, time_zero, time. destruct (Z.ltb_spec LevelDefault (p_Level ps)); lia. }
    split.
    + rewrite H2. do 2 f_equal. apply filter_ext_in. intros [q ps] Hin%elem_of_map_to_list. by apply (Hexp q).
    + unfold GetLevel. rewrite H1. destruct (procs ac !! pid) as [ps|] eqn:E; [|done]. simpl. unfold lower_if.
      case_decide as Hd; rewrite <-(Hexp pid ps E) in Hd; [by rewrite Hd|]. by destruct (expired now ac ps).
Qed.
End runs.

(** ** Examples *)

Definition at_ (t : Z) : clock := mkClock (unix_epoch + t * Second) (unix_epoch + t * Second) (unix_epoch + t * Second) (unix_epoch + t * Second).

Definition alert_then_upgrade : list op := [OpAlert 42 (lit 25 1) (at_ 0); OpUpgrade 42 (at_ 1)].

(** After a severe alert, an upgrade lowers the level. *)
Example upgrade_lowers :
  GetLevel 42 (foldl (@step alternating_order) (New (Some ∅)) [OpAlert 42 (lit 25 1) (at_ 0)]) = LevelInvestigating /\
  GetLevel 42 (foldl (@step alternating_order) (New (Some ∅)) alert_then_upgrade) = LevelSuspicious.
Proof. vm_compute. done. Qed.

(** The fast path leaves the statistics as they were. *)
Example fast_path_stats :
  ActiveHigh (stats (foldl (@step alternating_order) (New (Some ∅)) [OpAlert 42 (lit 25 1) (at_ 0)])) = 0.
Proof. vm_compute. done. Qed.

Lemma levels_mirrored_witness : exists m,
  bpf (foldl (@step alternating_order) (New (Some ∅)) alert_then_upgrade) = Some m /\ m !! 42 = Some 2 /\
  GetLevel 42 (@Tick alternating_order 0 (unix_epoch + 700 * Second) true (foldl (@step alternating_order) (New (Some ∅)) alert_then_upgrade)).1 = 1.
Proof.
  destruct (@levels_mirrored alternating_order alert_then_upgrade) as (m & Hm & Hp).
  - repeat constructor; vm_compute; congruence.
  - simpl. lia.
  - exists m. split; [done|]. destruct (Hp 42 ltac:(unfold valid_pid; lia)) as (_ & Hl & _ & Ht). split; [etransitivity; [exact Hl|]; vm_compute; done|].
    specialize (Ht 0%nat (unix_epoch + 700 * Second)). destruct (Tick _ _ _ _) as [ac' n]. destruct Ht as [_ Ht]. cbn [fst]. rewrite Ht. vm_compute. done.
Defined.
