(* ===== verification/AuditLog.v ===== *)
(** * The audit log ([pkg/audit/audit.go])

    Entries go to a file of JSON lines and to a bounded buffer in memory; the file is
    rotated when it grows too large, old entries are archived, and a restart reads the file
    back.  The file system is a map from paths to lines.  The coding of entries is the class
    [AuditJson]; the outcome of each call of the operating system is an argument. *)
From S2P Require Import Prelude GoStrings GoSort.
From Stdlib Require Import Ascii.

Record Entry {details : Type} := mkEntry {
  ID : string; Timestamp : time; Category : string; Severity : string; Message : string; Details : details; Source : string;
}.
Arguments Entry : clear implicits.
Arguments mkEntry {details}.

#[global] Instance Entry_eq_dec {D} `{EqDecision D} : EqDecision (Entry D).
Proof. solve_decision. Defined.

Definition entry_utf8 {D} (e : Entry D) : bool :=
  valid_utf8 (ID e) && valid_utf8 (Category e) && valid_utf8 (Severity e) && valid_utf8 (Message e) && valid_utf8 (Source e).

(** What an entry is apart from its details, whose numbers change type in JSON. *)
Definition core {D} (e : Entry D) := (ID e, Timestamp e, Category e, Severity e, Message e, Source e).

Definition newline : ascii := ascii_of_nat 10.

(** [json.Marshal] and [json.Unmarshal] of an entry; a marshalled value is one line, not
    empty, and entries of valid text read back as they were written. *)
Class AuditJson := {
  details : Type;
  marshal : Entry details -> string + string;
  unmarshal : string -> option (Entry details);
  marshal_line : forall e l, marshal e = inr l -> l <> "";
  marshal_roundtrip : forall e l, entry_utf8 e = true -> marshal e = inr l -> exists e', unmarshal l = Some e' /\ core e' = core e;
}.

Inductive audit_error :=
| MarshalError (e : string) | WriteError | MkdirError | OpenError | CloseError | RenameError | EncodeError | ReadError | TooLong.

Section audit.
Context {J : AuditJson}.

Abbreviation entry := (Entry details).
Abbreviation files := (gmap string (list string)).

(** [f]: the path of the open file, or [None] when it has been closed. *)
Record Store := mkStore {
  fs : files; f : option string; path : string; entries : list entry; maxSize : nat; maxFileSize : Z; maxBackups : nat;
}.

Definition file_size (lines : list string) : Z := Z.of_nat (sum_list ((fun l => S (String.length l)) <$> lines)).

(** [s[len(s)-n:]] when the list is longer than [n]. *)
Definition keep_last {A} (n : nat) (l : list A) : list A := drop (length l - n) l.

(** [bufio.Scanner] with a buffer of at most 1 MiB: the lines before the first one that
    does not fit, and whether there is one. *)
Definition fits (l : string) : bool := Z.of_nat (String.length l) + 1 <=? 1024 * 1024.
Fixpoint scan_lines (lines : list string) : list string * option audit_error :=
  match lines with
  | [] => ([], None)
  | l :: lines => if fits l then let '(ls, e) := scan_lines lines in (l :: ls, e) else ([], Some TooLong)
  end.

Definition read_line (l : string) : option entry := if String.eqb l "" then None else unmarshal l.

Definition replay (s : Store) : Store * option audit_error :=
  match fs s !! path s with
  | None => (s, Some ReadError)
  | Some lines =>
      let '(ls, e) := scan_lines lines in
      let read := omap read_line ls in
      (mkStore (fs s) (f s) (path s) (keep_last (maxSize s) (entries s ++ read)) (maxSize s) (maxFileSize s) (maxBackups s), e)
  end.

(** Appending to, or creating, a file. *)
Definition touch (p : string) (m : files) : files := match m !! p with Some _ => m | None => <[p := []]> m end.
Definition append (p : string) (l : string) (m : files) : files := <[p := default [] (m !! p) ++ [l]]> m.

(** [p] is [filepath.Join(dir, "audit.ndjson")]; [mk], [op]: whether the directory and the
    file could be made. *)
Definition New (p : string) (mk op : bool) (m : files) : audit_error + Store :=
  if negb mk then inl MkdirError
  else if negb op then inl OpenError
  else
    let s := mkStore (touch p m) (Some p) p [] (Z.to_nat 10000) (100 * 1024 * 1024) 3 in
    inr (if 0 <? file_size (default [] (fs s !! p)) then (replay s).1 else s).

Record rotate_env := mkRotate { r_stamp : string; r_close : bool; r_rename : bool; r_open : bool }.

Definition set_files (m : files) (h : option string) (s : Store) : Store :=
  mkStore m h (path s) (entries s) (maxSize s) (maxFileSize s) (maxBackups s).

Definition rename (a b : string) (m : files) : files :=
  match m !! a with Some lines => <[b := lines]> (delete a m) | None => m end.

(** The names of the backups: those that extend the file's name after a point. *)
Definition is_backup (p q : string) : bool :=
  HasPrefix q (p +:+ ".") && negb (Contains (String.substring (String.length p) (String.length q - String.length p) q) "/").

Definition str_ltb (a b : string) : bool := zlex_ltb (bytes_of_string a) (bytes_of_string b).

(** The first smallest name. *)
Fixpoint oldest (l : list string) : option string :=
  match l with
  | [] => None
  | x :: l => match oldest l with Some y => if str_ltb y x then Some y else Some x | None => Some x end
  end.

(** The loop that removes backups beyond the limit; one round per name is enough. *)
Fixpoint prune (fuel : nat) (limit : nat) (backups : list string) (m : files) : files :=
  match fuel with
  | O => m
  | S fuel =>
      if (limit <? length backups)%nat then
        match oldest backups with
        | Some b => prune fuel limit (filter (fun x => x <> b) backups) (delete b m)
        | None => m
        end
      else m
  end.

Definition rotate (r : rotate_env) (s : Store) : Store * option audit_error :=
  if negb (r_close r) then (set_files (fs s) None s, Some CloseError)
  else
    let rotated := path s +:+ "." +:+ r_stamp r in
    if negb (r_rename r) then (set_files (fs s) None s, Some RenameError)
    else
      let m := rename (path s) rotated (fs s) in
      if negb (r_open r) then (set_files (rename rotated (path s) m) None s, Some OpenError)
      else
        let m := touch (path s) m in
        let m := if (0 <? maxBackups s)%nat
                 then let backups := filter (fun q => is_backup (path s) q = true) (map_to_list m).*1 in
                      prune (length backups) (maxBackups s) backups m
                 else m in
        (set_files m (Some (path s)) s, None).

(** [id], [now]: what [generateID] and [time.Now] return; [w]: whether the write succeeds. *)
Definition complete (id : string) (now : time) (e : entry) : entry :=
  mkEntry (if String.eqb (ID e) "" then id else ID e) (if time_IsZero (Timestamp e) then now else Timestamp e)
    (Category e) (Severity e) (Message e) (Details e) (Source e).

Definition Log (e : entry) (id : string) (now : time) (r : rotate_env) (w : bool) (s : Store) : Store * option audit_error :=
  let e := complete id now e in
  match marshal e with
  | inl err => (s, Some (MarshalError err))
  | inr data =>
      let s := match f s with
               | Some p => if (0 <? maxFileSize s) && (maxFileSize s <? file_size (default [] (fs s !! p))) then (rotate r s).1 else s
               | None => s
               end in
      match f s with
      | Some p =>
          if w then (mkStore (append p data (fs s)) (f s) (path s) (keep_last (maxSize s) (entries s ++ [e])) (maxSize s)
                       (maxFileSize s) (maxBackups s), None)
          else (s, Some WriteError)
      | None => (s, Some WriteError)
      end
  end.

Definition Query (cat : string) (since : time) (limit : Z) (s : Store) : list entry :=
  let out := filter (fun e => (cat = "" \/ Category e = cat) /\ (since = time_zero \/ since <= Timestamp e)) (entries s) in
  if (0 <? limit) && (limit <? Z.of_nat (length out)) then keep_last (Z.to_nat limit) out else out.

Definition Recent (limit : Z) (s : Store) : list entry :=
  if (limit <=? 0) || (length (entries s) =? 0)%nat then [] else keep_last (Z.to_nat limit) (entries s).

Definition Close (s : Store) : Store := set_files (fs s) None s.

(** *** Retention *)

(** [limit]: after how many entries writing fails, if it does. *)
Fixpoint encode_all (limit : option nat) (l : list entry) : list string * option audit_error :=
  match l, limit with
  | [], _ => ([], None)
  | _, Some O => ([], Some EncodeError)
  | e :: l, _ =>
      match marshal e with
      | inl _ => ([], Some EncodeError)
      | inr data => let '(ls, err) := encode_all (pred <$> limit) l in (data :: ls, err)
      end
  end.

(** [op]: whether the file can be opened; it is truncated first. *)
Definition writeEntriesNDJSON (p : string) (l : list entry) (op : bool) (limit : option nat) (m : files) : files * option audit_error :=
  if negb op then (m, Some OpenError)
  else let '(ls, err) := encode_all limit l in (<[p := ls]> m, err).

Record retention_env := mkRetention {
  e_mkdir : bool; e_archive : bool * option nat; e_close : bool; e_rewrite : bool * option nat; e_reopen : bool;
}.

Record RetentionResult := mkResult { BeforeCount : nat; KeptCount : nat; Archived : nat; Cutoff : time; ArchivePath : string }.

Definition cutoff (retentionDays : Z) (now : time) : time :=
  time_Add now (i64 (i64 (i64 (- retentionDays) * 24) * (60 * Minute))).

(** [t]: what [time.Now] returns; [archive]: the path of the archive. *)
Definition ApplyRetention (retentionDays : Z) (now t : time) (archive : string) (v : retention_env) (s : Store)
    : Store * RetentionResult * option audit_error :=
  if retentionDays <=? 0 then (s, mkResult 0 0 0 time_zero "", None)
  else
    let now := if time_IsZero now then t else now in
    let cut := cutoff retentionDays now in
    let archived := filter (fun e => Timestamp e < cut) (entries s) in
    let kept := filter (fun e => ~ Timestamp e < cut) (entries s) in
    let result := mkResult (length (entries s)) (length kept) (length archived) cut "" in
    if (length archived =? 0)%nat then (s, result, None)
    else if negb (e_mkdir v) then (s, result, Some MkdirError)
    else
      let '(m, err) := writeEntriesNDJSON archive archived (e_archive v).1 (e_archive v).2 (fs s) in
      match err with
      | Some _ => (set_files m (f s) s, result, err)
      | None =>
          let result := mkResult (length (entries s)) (length kept) (length archived) cut archive in
          if negb (e_close v) then (set_files m None s, result, Some CloseError)
          else
            let '(m, err) := writeEntriesNDJSON (path s) kept (e_rewrite v).1 (e_rewrite v).2 m in
            match err with
            | Some _ => (set_files (if e_reopen v then touch (path s) m else m) (if e_reopen v then Some (path s) else None) s, result, err)
            | None =>
                if negb (e_reopen v) then (set_files m None s, result, Some OpenError)
                else (mkStore (touch (path s) m) (Some (path s)) (path s) (keep_last (maxSize s) kept) (maxSize s) (maxFileSize s) (maxBackups s),
                      result, None)
            end
      end.
End audit.

(** ** Restarts *)

Inductive op {D : Type} :=
| OpLog (e : Entry D) (id : string) (now : time) (r : rotate_env) (w : bool)
| OpRestart.
Arguments op : clear implicits.

Section durable.
Context {J : AuditJson}.

(** [acked]: the entries whose [Log] returned no error, as they were completed. *)
Definition step (st : Store * list (Entry details)) (o : op details) : Store * list (Entry details) :=
  let '(s, acked) := st in
  match o with
  | OpLog e id now r w =>
      match Log e id now r w s with
      | (s, None) => (s, acked ++ [complete id now e])
      | (s, Some _) => (s, acked)
      end
  | OpRestart => match New (path s) true true (fs (Close s)) with inr s => (s, acked) | inl _ => (s, acked) end
  end.

Definition run (p : string) (ops : list (op details)) : Store * list (Entry details) :=
  foldl step (match New p true true ∅ with inr s => s | inl _ => mkStore ∅ None p [] 0 0 0 end, []) ops.

(** The size of the lines the operations can write. *)
Definition op_size (o : op details) : Z :=
  match o with
  | OpLog e id now _ _ => match marshal (complete id now e) with inr l => Z.of_nat (String.length l) + 1 | inl _ => 0 end
  | OpRestart => 0
  end.

Definition total_size (ops : list (op details)) : Z := foldr (fun o n => op_size o + n) 0 ops.

Definition op_ok (o : op details) : Prop :=
  match o with
  | OpLog e id now _ _ => entry_utf8 (complete id now e) = true /\
      match marshal (complete id now e) with inr l => fits l = true | inl _ => True end
  | OpRestart => True
  end.

(** The entry an operation records, when it can be coded and written. *)
Definition logged (o : op details) : option (Entry details) :=
  match o with
  | OpLog e id now _ true => match marshal (complete id now e) with inr _ => Some (complete id now e) | inl _ => None end
  | _ => None
  end.

(** Reading the line [l] gives the entry [e]. *)
Definition codes (l : string) (e : Entry details) : Prop :=
  l <> "" /\ fits l = true /\ exists e', unmarshal l = Some e' /\ core e' = core e.

Lemma keep_last_app {A} n (a b : list A) : (n <= length b)%nat -> keep_last n (a ++ b) = keep_last n b.
Proof. intros Hn. unfold keep_last. rewrite length_app. rewrite drop_app_ge by lia. f_equal. lia. Qed.

Lemma keep_last_keep {A} n (a b : list A) : keep_last n (keep_last n a ++ b) = keep_last n (a ++ b).
Proof.
  destruct (decide (length a <= n)%nat) as [Hle|Hgt].
  - unfold keep_last at 2. replace (length a - n)%nat with 0%nat by lia. done.
  - rewrite <-(take_drop (length a - n) a) at 2. rewrite <-app_assoc. symmetry. apply keep_last_app.
    unfold keep_last. rewrite length_app, length_drop. lia.
Qed.

Lemma keep_last_idemp {A} n (a : list A) : keep_last n (keep_last n a) = keep_last n a.
Proof. pose proof (keep_last_keep n a []) as E. by rewrite !app_nil_r in E. Qed.

Lemma keep_last_fmap {A B} (g : A -> B) n l : g <$> keep_last n l = keep_last n (g <$> l).
Proof. unfold keep_last. by rewrite fmap_drop, length_fmap. Qed.

Lemma scan_codes lines es : Forall2 codes lines es ->
  exists es', scan_lines lines = (lines, None) /\ omap read_line lines = es' /\
    core <$> es' = core <$> es.
Proof.
  induction 1 as [|l e lines es (Hne & Hf & e' & He & Hc) _ (es' & IH1 & IH2 & IH3)]; [by exists []|].
  assert (read_line l = Some e') as Hr by (unfold read_line; by rewrite (proj2 (String.eqb_neq l "") Hne)).
  exists (e' :: es'). cbn [scan_lines]. rewrite Hf, IH1. split_and!; [done|simpl; rewrite Hr; by f_equal|rewrite !fmap_cons; by rewrite Hc, IH3].
Qed.

Definition max_file : Z := 100 * 1024 * 1024.

Record store_ok (p : string) (bound : Z) (st : Store * list (Entry details)) : Prop := {
  ok_conf : f st.1 = Some p /\ path st.1 = p /\ maxSize st.1 = Z.to_nat 10000 /\ maxFileSize st.1 = max_file;
  ok_disk : exists lines, fs st.1 !! p = Some lines /\ Forall2 codes lines st.2 /\ file_size lines <= bound;
  ok_memory : core <$> entries st.1 = keep_last (Z.to_nat 10000) (core <$> st.2);
}.

Lemma file_size_snoc lines l : file_size (lines ++ [l]) = file_size lines + Z.of_nat (String.length l) + 1.
Proof.
  unfold file_size. rewrite fmap_app. generalize ((fun l => S (String.length l)) <$> lines) as ns. intros ns.
  enough (sum_list (ns ++ [S (String.length l)]) = sum_list ns + S (String.length l))%nat as E by (simpl; rewrite E; lia).
  induction ns as [|x ns IH]; simpl; [lia|]. rewrite IH. lia.
Qed.

Lemma Log_ok p bound s acked e id now r w : store_ok p bound (s, acked) -> bound <= max_file ->
  op_ok (OpLog e id now r w) ->
  store_ok p (bound + op_size (OpLog e id now r w)) (step (s, acked) (OpLog e id now r w)) /\
  (step (s, acked) (OpLog e id now r w)).2 = acked ++ option_list (logged (OpLog e id now r w)).
Proof.
  intros [(Hf & Hp & Hm & Hmf) (lines & Hl & Hc & Hs) Hmem] Hb [Hu Hfit]. simpl in *. unfold Log. destruct (marshal (complete id now e)) as [err|data] eqn:Em; simpl.
  - destruct w; simpl; rewrite app_nil_r; split; try done; (split; [done| |done]; exists lines; split_and!; [done|done|lia]).
  - rewrite Hf, Hl, Hmf. simpl. rewrite (proj2 (Z.ltb_ge max_file (file_size lines))) by lia. rewrite ?andb_false_r. simpl. rewrite Hf.
    destruct w; simpl; [|rewrite app_nil_r; split; [|done]; split; [done| |done]; exists lines; split_and!; [done|done|lia]].
    split; [|done]. split; simpl; [done| |].
    + exists (lines ++ [data]). unfold append. rewrite lookup_insert_eq, Hl. simpl. split_and!; [done| |rewrite file_size_snoc; lia].
      apply Forall2_app; [done|]. constructor; [|done]. split; [by eapply marshal_line|]. split; [done|]. by apply marshal_roundtrip.
    + rewrite keep_last_fmap, fmap_app, Hmem, Hm, keep_last_keep, fmap_app. done.
Qed.

Lemma New_ok p bound m lines acked : m !! p = Some lines -> Forall2 codes lines acked -> file_size lines <= bound ->
  exists s, New p true true m = inr s /\ store_ok p bound (s, acked).
Proof.
  intros Hl Hc Hs. unfold New. simpl. eexists. split; [done|]. unfold touch. rewrite Hl. rewrite Hl. simpl.
  destruct (Z.ltb_spec 0 (file_size lines)) as [Hpos|Hz].
  - unfold replay. simpl. rewrite Hl. destruct (scan_codes lines acked Hc) as (es & -> & -> & He). split; simpl; [done|by exists lines|].
    by rewrite keep_last_fmap, He.
  - assert (lines = []) as -> by (destruct lines; [done|]; unfold file_size in Hz; simpl in Hz; lia).
    apply Forall2_nil_inv_l in Hc as ->. split; simpl; [done|by exists []|done].
Qed.

Lemma restart_ok p bound s acked : store_ok p bound (s, acked) -> store_ok p bound (step (s, acked) OpRestart) /\ (step (s, acked) OpRestart).2 = acked.
Proof.
  intros [(Hf & Hp & Hm & Hmf) (lines & Hl & Hc & Hs) Hmem]. cbn [fst snd] in *. unfold step. change (fs (Close s)) with (fs s). rewrite Hp.
  destruct (New_ok p bound (fs s) lines acked Hl Hc Hs) as (s' & -> & Hok). done.
Qed.

Lemma op_size_nonneg o : 0 <= op_size o.
Proof. destruct o as [e id now r w|]; simpl; [|done]. destruct (marshal _); lia. Qed.

Lemma total_size_app a b : total_size (a ++ b) = total_size a + total_size b.
Proof. unfold total_size. induction a as [|o a IH]; simpl; [done|]. rewrite IH. lia. Qed.

Lemma audit_run_ok p ops : Forall op_ok ops -> total_size ops <= max_file ->
  store_ok p (total_size ops) (run p ops) /\ (run p ops).2 = omap logged ops.
Proof.
  induction ops as [|o ops IH] using rev_ind; intros Ho Hs.
  - split; [|done]. unfold run, New. simpl. unfold touch. rewrite lookup_empty. simpl. rewrite lookup_insert_eq. simpl.
    split; simpl; [done| |done]. exists []. rewrite lookup_insert_eq. done.
  - apply Forall_app in Ho as [Ho Hlast]. apply Forall_cons in Hlast as [Hlast _]. rewrite total_size_app in Hs |- *. simpl in Hs |- *.
    rewrite Z.add_0_r in *. pose proof (op_size_nonneg o). destruct (IH Ho ltac:(lia)) as [Hok Ha].
    unfold run in *. rewrite foldl_app. cbn [foldl]. destruct (foldl step _ ops) as [s acked]. cbn [snd] in Ha. subst acked.
    rewrite omap_app. destruct o as [e id now r w|].
    + destruct (Log_ok p _ s _ e id now r w Hok ltac:(lia) Hlast) as [H1 H2]. split; [exact H1|]. rewrite H2. simpl.
      by destruct w, (marshal (complete id now e)).
    + destruct (restart_ok p _ s _ Hok) as [H1 H2]. simpl op_size. rewrite Z.add_0_r. split; [exact H1|]. rewrite H2. simpl. by rewrite app_nil_r.
Qed.


(** ** Limits *)

(** A rotation that cannot rename the file leaves the store closed: every later entry is
    refused, until the program restarts. *)
Lemma failed_rotation_silences r s e id now r' w : r_rename r = false -> (Log e id now r' w (rotate r s).1).2 <> None.
Proof.
  intros Hr. assert (f (rotate r s).1 = None) as Hf by (unfold rotate; rewrite Hr; by destruct (r_close r)).
  unfold Log. destruct (marshal _); [done|]. by rewrite Hf, Hf.
Qed.

(** Retention rewrites the file from the buffer: afterwards the file and the archive hold
    lines for the buffered entries only, whatever else the file held before. *)
Lemma retention_files days now t archive v s s' res : archive <> path s ->
  ApplyRetention days now t archive v s = (s', res, None) -> (0 < Archived res)%nat ->
  exists kept archived, fs s' !! path s = Some kept /\ fs s' !! archive = Some archived /\
    (length kept + length archived = length (entries s))%nat.
Proof.
  intros Hne. unfold ApplyRetention. destruct (days <=? 0); [intros [= <- <-]; simpl; lia|].
  set (cut := cutoff _ _). set (old := filter (fun e => Timestamp e < cut) (entries s)). set (new := filter (fun e => ~ Timestamp e < cut) (entries s)).
  assert (length new + length old = length (entries s))%nat as Hlen.
  { subst old new. clear. induction (entries s) as [|e l IH]; simpl; [done|]. rewrite !filter_cons.
    destruct (decide (Timestamp e < cut)); [rewrite decide_False by tauto|rewrite decide_True by done]; simpl; lia. }
  assert (forall p l op lim m m', writeEntriesNDJSON p l op lim m = (m', None) -> exists ls, m' = <[p := ls]> m /\ length ls = length l) as Hw.
  { clear. intros p l op lim m m'. unfold writeEntriesNDJSON. destruct op; [|done]. simpl. destruct (encode_all lim l) as [ls err] eqn:E.
    intros [= <- ->]. exists ls. split; [done|]. revert lim ls E. induction l as [|e l IH]; intros lim ls; simpl; [by intros [= <-]|].
    destruct lim as [[|k]|]; [done|..]; (destruct (marshal e); [done|]); destruct (encode_all _ l) as [ls' err] eqn:E'; intros [= <- ->]; simpl; f_equal; eapply IH; exact E'. }
  destruct (length old =? 0)%nat eqn:E0; [intros [= <- <-]; simpl; apply Nat.eqb_eq in E0; lia|].
  destruct (e_mkdir v); [|done]. simpl. destruct (writeEntriesNDJSON archive old _ _ (fs s)) as [m1 [err|]] eqn:E1; [done|].
  destruct (e_close v); [|done]. simpl. destruct (writeEntriesNDJSON (path s) new _ _ m1) as [m2 [err|]] eqn:E2; [done|].
  destruct (e_reopen v); [|done]. simpl. intros [= <- <-] _. simpl.
  apply Hw in E1 as (ls1 & -> & H1), E2 as (ls2 & -> & H2). exists ls2, ls1. unfold touch. rewrite lookup_insert_eq.
  split_and!; [by rewrite lookup_insert_eq|by rewrite lookup_insert_ne, lookup_insert_eq by done|lia].
Qed.
End durable.

(** ** An instance *)

(** Entries coded as their message, which must not be empty; the other fields are fixed. *)
Definition message_json : AuditJson.
Proof.
  refine {| details := unit;
    marshal e := if decide (e = mkEntry "id" 1 "system" "INFO" (Message e) tt "cli" /\ Message e <> "") then inr (Message e) else inl "unsupported";
    unmarshal l := Some (mkEntry "id" 1 "system" "INFO" l tt "cli") |}.
  - intros e l. case_decide as Hd; [|done]. intros [= <-]. apply Hd.
  - intros e l _. case_decide as Hd; [|done]. intros [= <-]. destruct Hd as [He _]. eexists. split; [done|]. by rewrite He.
Defined.

Definition message (m : string) : Entry unit := mkEntry "id" 1 "system" "INFO" m tt "cli".
Definition no_rotation : rotate_env := mkRotate "" true true true.
Definition sample_ops : list (op unit) :=
  [OpLog (message "a") "" 0 no_rotation true; OpLog (message "b") "" 0 no_rotation false; OpRestart; OpLog (message "c") "" 0 no_rotation true].

