(* ===== verification/Sigma.v ===== *)
(** * Sigma rules on the provenance graph ([internal/policy/sigma])

    A rule selects process nodes, or edges from a process to a file or a network node, by
    patterns on fields.  [wildcardMatch] builds a regular expression from a pattern whose
    only operator is the star; the model matches the runes directly, and [wild_spec] gives
    its meaning.  Decoding of YAML is a parameter. *)
From S2P Require Import Prelude GoStrings GoTime Events ProvGraph ProvInv ProvVersions ProvKinds.
From Stdlib Require Import Ascii.

Record LogSource := mkSource { Category : string; Product : string; Service : string }.

(** [Selections] is [None] for a nil map. *)
Record Detection := mkDetection { Selections : option (gmap string (gmap string string)); Condition : string }.

Record Rule := mkRule {
  Title : string; ID : string; Description : string; Author : string; Date : string; Level : string; Tags : list string;
  Source : LogSource; Detect : Detection; FalsePositives : list string;
}.

(** ** Patterns *)

(** The star matches any runes but a newline. *)
Fixpoint wild (p : list Z) : list Z -> bool :=
  match p with
  | [] => fun v => (length v =? 0)%nat
  | c :: p =>
      if c =? 42
      then fix star v := wild p v || match v with [] => false | x :: v => negb (x =? 10) && star v end
      else fun v => match v with [] => false | x :: v => (c =? x) && wild p v end
  end.

Definition runes (s : string) : list Z := fst <$> segs s.

(** A pattern that is not valid UTF-8 does not compile and matches nothing. *)
Definition wildcardMatch (pattern value : string) : bool :=
  if String.eqb pattern "" then true else valid_utf8 pattern && wild (runes pattern) (runes value).

Inductive wmatch : list Z -> list Z -> Prop :=
| wm_nil : wmatch [] []
| wm_char c p v : c <> 42 -> wmatch p v -> wmatch (c :: p) (c :: v)
| wm_star p v w : Forall (fun x => x <> 10) v -> wmatch p w -> wmatch (42 :: p) (v ++ w).

Lemma wild_spec p v : wild p v = true <-> wmatch p v.
Proof.
  revert v. induction p as [|c p IH]; intros v; simpl.
  - destruct v; simpl; split; try done; [constructor|]. inversion 1.
  - destruct (Z.eqb_spec c 42) as [->|Hc].
    + split.
      * induction v as [|x v IHv]; intros Hv.
        { rewrite orb_false_r in Hv. apply (wm_star p [] []); [done|]. by apply IH. }
        { apply orb_prop in Hv as [Hv|[Hx Hv]%andb_prop]; [apply (wm_star p [] (x :: v)); [done|]; by apply IH|].
          specialize (IHv Hv). inversion IHv as [|? ? ? Hn|? v1 w Hf Hw]; subst; [done|].
          apply (wm_star p (x :: v1) w); [|done]. constructor; [|done]. by apply negb_true_iff, Z.eqb_neq in Hx. }
      * inversion 1 as [|? ? ? Hn|? v1 w Hf Hw]; subst; [done|]. apply IH in Hw. clear H.
        induction Hf as [|x v1 Hx _ IHv]; simpl.
        { destruct w; by rewrite Hw. }
        { apply orb_true_intro. right. rewrite (proj2 (Z.eqb_neq x 10) Hx). exact IHv. }
    + destruct v as [|x v]; [split; [done|]; inversion 1; subst; done|].
      rewrite andb_true_iff, Z.eqb_eq, IH. split; [intros [-> ?]; by constructor|]. inversion 1; subst; done.
Qed.

Section sigma.
Context {UC : UnicodeCase}.

(** [fmt.Sprintf("%v", v)]. *)
Definition attr_text (a : attr) : string :=
  match a with AStr s => s | AU32 n | AU64 n => pretty n | ABool b => if b then "true" else "false" end.

Definition attr_field (n : Node.t) (k : string) : string :=
  match Node.Attributes n !! k with Some v => attr_text v | None => "" end.

Definition findNode (nodes : list Node.t) (id : string) : option Node.t := snd <$> list_find (fun n => Node.ID n = id) nodes.

(** The label of the first parent whose node is in the snapshot. *)
Fixpoint parent_label (n : Node.t) (nodes : list Node.t) (edges : list Edge.t) : string :=
  match edges with
  | [] => ""
  | e :: edges =>
      if decide (Edge.Source e = Node.ID n /\ Edge.Relation e = ProvWasInformedBy)
      then match findNode nodes (Edge.Target e) with Some pn => Node.Label pn | None => parent_label n nodes edges end
      else parent_label n nodes edges
  end.

Definition is_target (lower : string) : bool := bool_decide (lower ∈ ["target"; "dest"; "dhost"]).

Definition fieldValue (n : Node.t) (field : string) (nodes : list Node.t) (edges : list Edge.t) : string :=
  let f := ToLower field in
  if bool_decide (f ∈ ["image"; "process"; "commandline"]) then Node.Label n
  else if String.eqb f "pid" then attr_field n "pid"
  else if String.eqb f "uid" then attr_field n "uid"
  else if bool_decide (f ∈ ["parentpid"; "ppid"]) then attr_field n "ppid"
  else if String.eqb f "comm" then attr_field n "comm"
  else if String.eqb f "parent" then parent_label n nodes edges
  else if is_target f then Node.Label n
  else if bool_decide (f ∈ ["filepath"; "path"]) then Node.Label n
  else attr_field n field.

(** All criteria of all selections; the order of iteration does not matter, since the
    checks only read. *)
Definition criteria (sel : gmap string (gmap string string)) : list (string * string) :=
  concat ((fun kv => map_to_list kv.2) <$> map_to_list sel).

Definition matchSelection (sel : gmap string (gmap string string)) (n : Node.t) (nodes : list Node.t) (edges : list Edge.t) : bool :=
  forallb (fun '(field, expected) => is_target (ToLower field) || wildcardMatch expected (fieldValue n field nodes edges)) (criteria sel).

Definition matchTargetSelection (sel : gmap string (gmap string string)) (n : Node.t) : bool :=
  forallb (fun '(field, expected) => negb (is_target (ToLower field)) || wildcardMatch expected (Node.Label n)) (criteria sel).

Definition matchProcess (rule : Rule) (nodes : list Node.t) (edges : list Edge.t) : list (list string) :=
  match Selections (Detect rule) with
  | None => []
  | Some sel => omap (fun n => if String.eqb (Node.Subtype n) "process" && matchSelection sel n nodes edges then Some [Node.ID n] else None) nodes
  end.

(** Edges from a process to a node of the given subtype. *)
Definition match_edge (sel : gmap string (gmap string string)) (relations : list string) (subtype : string)
    (nodes : list Node.t) (edges : list Edge.t) (e : Edge.t) : option (list string) :=
  if negb (bool_decide (Edge.Relation e ∈ relations)) then None
  else match findNode nodes (Edge.Source e), findNode nodes (Edge.Target e) with
  | Some src, Some tgt =>
      if String.eqb (Node.Subtype src) "process" && String.eqb (Node.Subtype tgt) subtype
         && matchSelection sel src nodes edges && matchTargetSelection sel tgt
      then Some [Node.ID src; Node.ID tgt; Edge.ID e] else None
  | _, _ => None
  end.

Definition matchFileAccess (rule : Rule) (nodes : list Node.t) (edges : list Edge.t) : list (list string) :=
  match Selections (Detect rule) with
  | None => []
  | Some sel => omap (match_edge sel [ProvUsed; ProvWasGeneratedBy] "file" nodes edges) edges
  end.

Definition matchNetwork (rule : Rule) (nodes : list Node.t) (edges : list Edge.t) : list (list string) :=
  match Selections (Detect rule) with
  | None => []
  | Some sel => omap (match_edge sel [ProvUsed] "network" nodes edges) edges
  end.

Definition matchGeneric (rule : Rule) (nodes : list Node.t) (edges : list Edge.t) : list (list string) :=
  match Selections (Detect rule) with
  | None => []
  | Some sel => omap (fun n => if matchSelection sel n nodes edges then Some [Node.ID n] else None) nodes
  end.

Definition EvaluateRule (rule : Rule) (nodes : list Node.t) (edges : list Edge.t) : list (list string) :=
  let c := Category (Source rule) in
  if String.eqb c "process" then matchProcess rule nodes edges
  else if String.eqb c "file_access" then matchFileAccess rule nodes edges
  else if String.eqb c "network" then matchNetwork rule nodes edges
  else matchGeneric rule nodes edges.

Definition mapLevel (level : string) : string :=
  let l := ToLower level in
  if String.eqb l "low" then "LOW" else if String.eqb l "medium" then "MEDIUM" else if String.eqb l "high" then "HIGH"
  else if String.eqb l "critical" then "CRITICAL" else "MEDIUM".

(** The scores are whole numbers, held in a float64. *)
Definition scoreFromLevel (level : string) : Z :=
  let l := ToLower level in
  if String.eqb l "low" then 2 else if String.eqb l "medium" then 5 else if String.eqb l "high" then 8
  else if String.eqb l "critical" then 10 else 3.

Record Finding := mkFinding { PluginName : string; Finding_Title : string; Finding_Severity : string; Score : Z; NodeIDs : list string }.

(** [order] gives the nodes of the graph as each rule's evaluation lists them. *)
Definition Analyse (name : string) (rules : list Rule) (order : nat -> list Node.t) (g : Graph) : list Finding :=
  concat (imap (fun i rule =>
    (fun m => mkFinding name ("Sigma: " +:+ Title rule) (mapLevel (Level rule)) (scoreFromLevel (Level rule)) m)
      <$> EvaluateRule rule (order i) (Edges g)) rules).

(** ** Loading *)

Inductive rule_error := SigmaParse (e : string) | SigmaTitle | NoRules.

Definition ParseRule (yaml : string + Rule) : rule_error + Rule :=
  match yaml with inl e => inl (SigmaParse e) | inr r => if String.eqb (Title r) "" then inl SigmaTitle else inr r end.

(** The documents the decoder returns, up to its first error. *)
Fixpoint decode_docs (docs : list (string + Rule)) : list Rule :=
  match docs with
  | inr r :: docs => (if String.eqb (Title r) "" then [] else [r]) ++ decode_docs docs
  | _ => []
  end.

Definition LoadRules (docs : list (string + Rule)) : rule_error + list Rule :=
  match decode_docs docs with [] => inl NoRules | rules => inr rules end.

(** ** Meaning of a rule *)

Definition meets (pattern value : string) : Prop :=
  pattern = "" \/ valid_utf8 pattern = true /\ wmatch (runes pattern) (runes value).

Lemma wildcardMatch_spec p v : wildcardMatch p v = true <-> meets p v.
Proof.
  unfold wildcardMatch, meets. destruct (String.eqb_spec p "") as [->|Hp]; [naive_solver|].
  rewrite andb_true_iff, wild_spec. naive_solver.
Qed.

(** The criteria on the selected node, and those on the target of its edge. *)
Definition subject_ok (sel : gmap string (gmap string string)) (n : Node.t) (nodes : list Node.t) (edges : list Edge.t) : Prop :=
  forall name c field expected, sel !! name = Some c -> c !! field = Some expected ->
    is_target (ToLower field) = false -> meets expected (fieldValue n field nodes edges).
Definition target_ok (sel : gmap string (gmap string string)) (n : Node.t) : Prop :=
  forall name c field expected, sel !! name = Some c -> c !! field = Some expected ->
    is_target (ToLower field) = true -> meets expected (Node.Label n).

Lemma elem_criteria sel field expected :
  (field, expected) ∈ criteria sel <-> exists name c, sel !! name = Some c /\ c !! field = Some expected.
Proof.
  unfold criteria. rewrite list_elem_of_In, in_concat. split.
  - intros (l & Hl & Hf). apply list_elem_of_In, list_elem_of_fmap in Hl as ([name c] & -> & Hc).
    exists name, c. split; [by apply elem_of_map_to_list|]. by apply elem_of_map_to_list, list_elem_of_In.
  - intros (name & c & Hs & Hc). exists (map_to_list c). split; apply list_elem_of_In; [|by apply elem_of_map_to_list].
    apply list_elem_of_fmap. exists (name, c). split; [done|]. by apply elem_of_map_to_list.
Qed.

Lemma matchSelection_spec sel n nodes edges : matchSelection sel n nodes edges = true <-> subject_ok sel n nodes edges.
Proof.
  unfold matchSelection, subject_ok. rewrite forallb_forall. split.
  - intros H name c f e Hs Hc Ht. specialize (H (f, e)). rewrite <-list_elem_of_In, elem_criteria in H.
    specialize (H ltac:(eauto)). simpl in H. rewrite Ht in H. by apply wildcardMatch_spec.
  - intros H [f e] (name & c & Hs & Hc)%list_elem_of_In%elem_criteria. destruct (is_target (ToLower f)) eqn:Ht; [done|].
    apply wildcardMatch_spec. by eapply H.
Qed.

Lemma matchTarget_spec sel n : matchTargetSelection sel n = true <-> target_ok sel n.
Proof.
  unfold matchTargetSelection, target_ok. rewrite forallb_forall. split.
  - intros H name c f e Hs Hc Ht. specialize (H (f, e)). rewrite <-list_elem_of_In, elem_criteria in H.
    specialize (H ltac:(eauto)). simpl in H. rewrite Ht in H. by apply wildcardMatch_spec.
  - intros H [f e] (name & c & Hs & Hc)%list_elem_of_In%elem_criteria. destruct (is_target (ToLower f)) eqn:Ht; [|done].
    apply wildcardMatch_spec. by eapply H.
Qed.

(** [ns] lists the nodes of [g], in the order of a map iteration. *)
Definition lists (ns : list Node.t) (g : Graph) : Prop := ns ≡ₚ (map_to_list (nodes g)).*2.

Lemma lists_elem ns g n : wf g -> lists ns g -> n ∈ ns <-> nodes g !! Node.ID n = Some n.
Proof.
  intros Hw Hl. unfold lists in Hl. rewrite Hl, list_elem_of_fmap. split.
  - intros ([id n'] & -> & Hn%elem_of_map_to_list). simpl. by rewrite (wf_node_key g Hw _ _ Hn).
  - intros Hn. exists (Node.ID n, n). split; [done|]. by apply elem_of_map_to_list.
Qed.

Lemma findNode_spec ns g id : wf g -> lists ns g -> findNode ns id = nodes g !! id.
Proof.
  intros Hw Hl. unfold findNode. destruct (list_find _ ns) as [[i n]|] eqn:E; simpl.
  - apply list_find_Some in E as (Hi & <- & _). symmetry. apply (lists_elem ns g n Hw Hl). by eapply list_elem_of_lookup_2.
  - apply list_find_None in E. destruct (nodes g !! id) as [n|] eqn:En; [|done]. exfalso.
    pose proof (wf_node_key g Hw _ _ En) as Hid. rewrite Forall_forall in E. apply (E n); [|done].
    apply (lists_elem ns g n Hw Hl). by rewrite Hid.
Qed.

Lemma match_edge_spec sel rels st ns g e m : wf g -> lists ns g ->
  match_edge sel rels st ns (Edges g) e = Some m <->
  Edge.Relation e ∈ rels /\ m = [Edge.Source e; Edge.Target e; Edge.ID e] /\
  exists src tgt, nodes g !! Edge.Source e = Some src /\ nodes g !! Edge.Target e = Some tgt /\
    Node.Subtype src = SubProcess /\ Node.Subtype tgt = st /\ subject_ok sel src ns (Edges g) /\ target_ok sel tgt.
Proof.
  intros Hw Hl. unfold match_edge. rewrite !(findNode_spec ns g _ Hw Hl).
  destruct (bool_decide _) eqn:Er; simpl; [apply bool_decide_eq_true in Er|apply bool_decide_eq_false in Er; naive_solver].
  destruct (nodes g !! Edge.Source e) as [src|] eqn:Es; [|naive_solver].
  destruct (nodes g !! Edge.Target e) as [tgt|] eqn:Et; [|naive_solver].
  pose proof (wf_node_key g Hw _ _ Es) as Is. pose proof (wf_node_key g Hw _ _ Et) as It. rewrite Is, It.
  destruct (_ && _) eqn:Eb.
  - rewrite !andb_true_iff, !String.eqb_eq, matchSelection_spec, matchTarget_spec in Eb. destruct Eb as [[[??]?]?].
    split; [intros; simplify_eq; eauto 10|intros (_ & -> & _); done].
  - split; [done|]. intros (_ & _ & src' & tgt' & ? & ? & H1 & H2 & H3 & H4). simplify_eq.
    apply matchSelection_spec in H3. apply matchTarget_spec in H4. by rewrite H1, H3, H4, !String.eqb_refl in Eb.
Qed.
Lemma process_rule_spec rule sel ns g m : wf g -> lists ns g -> Selections (Detect rule) = Some sel ->
  m ∈ matchProcess rule ns (Edges g) <->
  exists id n, nodes g !! id = Some n /\ Node.Subtype n = SubProcess /\ subject_ok sel n ns (Edges g) /\ m = [id].
Proof.
  intros Hw Hl Hs. unfold matchProcess. rewrite Hs, list_elem_of_omap. split.
  - intros (n & Hn & Hm). case_match eqn:E; [|done]. simplify_eq. apply andb_true_iff in E as [E1%String.eqb_eq E2%matchSelection_spec].
    exists (Node.ID n), n. split_and!; try done. by apply (lists_elem ns g).
  - intros (id & n & Hn & Ht & Hok & ->). pose proof (wf_node_key g Hw _ _ Hn) as Hid. exists n.
    split; [apply (lists_elem ns g); [done..|by rewrite Hid]|]. apply matchSelection_spec in Hok. by rewrite Ht, Hok, Hid.
Qed.

Lemma edge_rule_spec sel rels st ns g m : wf g -> lists ns g ->
  m ∈ omap (match_edge sel rels st ns (Edges g)) (Edges g) <->
  exists e src tgt, e ∈ Edges g /\ Edge.Relation e ∈ rels /\ m = [Edge.Source e; Edge.Target e; Edge.ID e] /\
    nodes g !! Edge.Source e = Some src /\ nodes g !! Edge.Target e = Some tgt /\
    Node.Subtype src = SubProcess /\ Node.Subtype tgt = st /\ subject_ok sel src ns (Edges g) /\ target_ok sel tgt.
Proof.
  intros Hw Hl. rewrite list_elem_of_omap. setoid_rewrite (match_edge_spec sel rels st ns g); [|done..]. naive_solver.
Qed.

(** An edge out of a process is not a generation. *)
Lemma process_edge_used g e src : wf g -> kinds_ok g -> e ∈ Edges g -> nodes g !! Edge.Source e = Some src -> Node.Subtype src = SubProcess ->
  Edge.Relation e <> ProvWasGeneratedBy.
Proof.
  intros Hw Hk He Hs Ht Hr. unfold Edges in He. apply list_elem_of_omap in He as (id & _ & He).
  pose proof (wf_edge_rel g Hw _ _ He) as Hd. unfold rel_ok in Hd. rewrite Hr in Hd.
  pose proof (wf_node_type g Hw _ _ Hs) as Hp. apply (process_activity g _ _ Hk Hs) in Ht. rewrite <-Hp, Ht in Hd. discriminate.
Qed.

End sigma.

(** A rule that selects commands by name and files by path, on a history in which [cat]
    reads the file and [bash] writes it: only the read matches. *)
Definition shadow_rule : Rule :=
  mkRule "shadow" "r1" "" "" "" "high" [] (mkSource "file_access" "linux" "")
    (mkDetection (Some {["selection" := <["target" := "/tmp/*"]> {["comm" := "*a*"]}]}) "selection") [].

Definition sigma_history : history := [(no_start, ev_write); (no_start, ev_read)].

Example shadow_matches :
  let g := run sigma_history (NewGraph unix_epoch) in
  @EvaluateRule ascii_case shadow_rule (map_to_list (nodes g)).*2 (Edges g)
  = [["p:200"; "f:4242:8:3#v2"; edgeID ProvUsed "p:200" "f:4242:8:3#v2"]].
Proof. vm_compute. reflexivity. Qed.

