(* ===== verification/TaintEngine.v ===== *)
(** * Taint propagation on a snapshot of the graph ([internal/engine/analyzer/taint.go])

    Seeds get a level by their kind and name; each hop along an edge, in either direction,
    lowers the level by one.  The engine runs a worklist to convergence.  The order in
    which a map is iterated is an argument, and what is proved holds for every order.  The
    texts in [TaintNode.Reasons] are left out: nothing reads them. *)
From S2P Require Import Prelude GoStrings GoTime Events ProvGraph ProvInv ProvVersions ProvKinds GoPath.

Definition TaintNone : Z := 0.
Definition TaintLow : Z := 1.
Definition TaintMedium : Z := 2.
Definition TaintHigh : Z := 3.
Definition TaintCritical : Z := 4.

Definition TaintLevel_String (l : Z) : string :=
  if l =? TaintLow then "LOW" else if l =? TaintMedium then "MEDIUM" else if l =? TaintHigh then "HIGH"
  else if l =? TaintCritical then "CRITICAL" else "NONE".

(** ** Seed lists, shared by all engines; [None] is a nil map *)

Record Seeds := mkSeeds { untrustedComms : option (gmap string bool); networkTools : option (gmap string bool); sensitivePaths : list string }.

Definition all_true (l : list string) : gmap string bool := list_to_map ((fun k => (k, true)) <$> l).

Definition defaultUntrustedComms : gmap string bool :=
  all_true ["nginx"; "apache2"; "httpd"; "tomcat"; "uwsgi"; "gunicorn"; "php-fpm"; "php-cgi"; "node"; "sshd"; "smtpd"; "dovecot";
            "cupsd"; "rpcbind"; "dhclient"; "systemd-resolve"].
Definition defaultNetworkTools : gmap string bool :=
  all_true ["curl"; "wget"; "nc"; "ncat"; "socat"; "tftp"; "ftp"; "scp"; "sftp"; "rsync"].
Definition defaultSensitivePaths : list string :=
  ["/etc/shadow"; "/etc/passwd"; "/etc/security"; "/etc/sudoers"; "/etc/sudoers.d"; "/etc/ssh/"; "/.ssh/"; "/root/"; "/var/log/auth.log";
   "/var/log/secure"; "/var/log/syslog"; "/etc/cron"; "/var/spool/cron"].
Definition default_seeds : Seeds := mkSeeds (Some defaultUntrustedComms) (Some defaultNetworkTools) defaultSensitivePaths.

Definition ReloadTaintSeeds (untrusted network : option (gmap string bool)) (sensitive : list string) (_ : Seeds) : Seeds :=
  mkSeeds untrusted network sensitive.

(** [None]: assignment to a nil map panics. *)
Definition AddUntrustedComm (comm : string) (s : Seeds) : option Seeds :=
  m ← untrustedComms s; Some (mkSeeds (Some (<[comm := true]> m)) (networkTools s) (sensitivePaths s)).
Definition RemoveUntrustedComm (comm : string) (s : Seeds) : Seeds :=
  mkSeeds (delete comm <$> untrustedComms s) (networkTools s) (sensitivePaths s).

(** A lookup in a copy of a map. *)
Definition flag (m : option (gmap string bool)) (k : string) : bool := default false (default ∅ m !! k).

(** ** Engine *)

Record TaintNode := mkTaint { Level : Z; Depth : Z; PrevID : string; PrevRel : string }.

Record Snapshot := mkSnapshot { snap_nodes : list Node.t; snap_edges : list Edge.t }.

Record TaintEngine := mkEngine {
  te_nodes : gmap string Node.t; forward : gmap string (list Edge.t); reverse : gmap string (list Edge.t); tainted : gmap string TaintNode;
}.

Definition index_nodes (l : list Node.t) : gmap string Node.t := foldl (fun m n => <[Node.ID n := n]> m) ∅ l.
Definition index_edges (f : Edge.t -> string) (l : list Edge.t) : gmap string (list Edge.t) :=
  foldl (fun m e => <[f e := default [] (m !! f e) ++ [e]]> m) ∅ l.
Definition at_key (m : gmap string (list Edge.t)) (id : string) : list Edge.t := default [] (m !! id).

Definition isForkChild (te : TaintEngine) (id : string) : bool :=
  existsb (fun e => String.eqb (Edge.Relation e) "prov:wasInformedBy") (at_key (forward te) id).

Section engine.
Context {UC : UnicodeCase} {MO : MapOrder} (seeds : Seeds).

Definition isSensitivePath (path : string) : bool :=
  existsb (fun p => matched (filepath_Match p path) || HasPrefix path p
                    || matched (filepath_Match (if HasSuffix p "/" then p +:+ "*" else p) path)) (sensitivePaths seeds).

(** The keys of a map, in the order of one [range] statement. *)
Definition keys {A} (k : nat) (m : gmap string A) : list string := range k (map_to_list m).*1.

(** The taints and the worklist. *)
Definition tstate : Type := gmap string TaintNode * list string.

Definition add (id : string) (level : Z) (st : tstate) : tstate :=
  let '(T, wl) := st in
  match T !! id with
  | Some existing => if level <=? Level existing then st else (<[id := mkTaint level 0 "" ""]> T, wl ++ [id])
  | None => (<[id := mkTaint level 0 "" ""]> T, wl ++ [id])
  end.

Definition seed_node (te : TaintEngine) (st : tstate) (id : string) : tstate :=
  match te_nodes te !! id with
  | None => st
  | Some n =>
      let comm := ToLower (Node.Label n) in
      if String.eqb (Node.Subtype n) "process" then
        let st := if flag (untrustedComms seeds) comm && negb (isForkChild te id) then add id TaintCritical st else st in
        if flag (networkTools seeds) comm then add id TaintMedium st else st
      else if String.eqb (Node.Subtype n) "file" then
        if isSensitivePath comm then add id TaintHigh st else st
      else st
  end.

Definition seedTaints (te : TaintEngine) : tstate := foldl (seed_node te) (tainted te, []) (keys 0 (te_nodes te)).

Definition tryTaint (id prevID rel : string) (level : Z) (st : tstate) : tstate :=
  let '(T, wl) := st in
  let newDepth := match T !! prevID with Some p => Depth p + 1 | None => 0 end in
  let upd := (<[id := mkTaint level newDepth prevID rel]> T, wl ++ [id]) in
  match T !! id with
  | Some existing =>
      if level <? Level existing then st
      else if (Level existing =? level) && (newDepth <=? Depth existing) then st
      else upd
  | None => upd
  end.

(** One turn of the worklist; [None]: a nil taint is dereferenced. *)
Definition visit (te : TaintEngine) (id : string) (st : tstate) : option tstate :=
  tn ← st.1 !! id;
  let nextLevel := Level tn - 1 in
  if nextLevel <? TaintLow then Some st
  else
    let st := foldl (fun st e => tryTaint (Edge.Target e) id (Edge.Relation e) nextLevel st) st (at_key (forward te) id) in
    Some (foldl (fun st e => tryTaint (Edge.Source e) id (Edge.Relation e) nextLevel st) st (at_key (reverse te) id)).

(** The loop on the part of the worklist still ahead; [None] also when the fuel is used up. *)
Fixpoint propagate_loop (fuel : nat) (te : TaintEngine) (st : tstate) : option (gmap string TaintNode) :=
  match fuel with
  | O => None
  | S fuel =>
      match st.2 with
      | [] => Some st.1
      | id :: rest => st ← visit te id (st.1, rest); propagate_loop fuel te st
      end
  end.

(** Every identifier the loop can taint. *)
Definition universe (snap : Snapshot) : list string :=
  (Node.ID <$> snap_nodes snap) ++ (Edge.Source <$> snap_edges snap) ++ (Edge.Target <$> snap_edges snap).

Definition propagate_fuel (snap : Snapshot) (st : tstate) : nat := S (length st.2 + 17 * length (universe snap)).

Definition set_tainted (te : TaintEngine) (T : gmap string TaintNode) : TaintEngine := mkEngine (te_nodes te) (forward te) (reverse te) T.

Definition indexed (snap : Snapshot) : TaintEngine :=
  mkEngine (index_nodes (snap_nodes snap)) (index_edges Edge.Source (snap_edges snap)) (index_edges Edge.Target (snap_edges snap)) ∅.

Definition NewTaintEngine (snap : Snapshot) : option TaintEngine :=
  let te := indexed snap in
  let st := seedTaints te in
  set_tainted te <$> propagate_loop (propagate_fuel snap st) te st.
(** ** Accessors *)

(** Back along [PrevID]; the result is earliest first. *)
Fixpoint path_loop (fuel : nat) (te : TaintEngine) (cur : string) (rev : list string) : option (list string) :=
  match fuel with
  | O => None
  | S fuel =>
      if String.eqb cur "" then Some rev
      else match tainted te !! cur with
           | None => Some (cur :: rev)
           | Some node => path_loop fuel te (PrevID node) (cur :: rev)
           end
  end.

(** Six steps: a depth is at most three. *)
Definition PropagationPath (te : TaintEngine) (id : string) : option (list string) := path_loop 6 te id [].

Definition Tainted (te : TaintEngine) (id : string) : option TaintNode := tainted te !! id.

Definition is_process (te : TaintEngine) (id : string) : bool :=
  match te_nodes te !! id with Some n => String.eqb (Node.Subtype n) "process" | None => false end.

Definition TaintedProcesses (k : nat) (te : TaintEngine) : list string := filter (fun id => is_process te id = true) (keys k (tainted te)).
Definition TaintedNodes (k : nat) (te : TaintEngine) : list string := keys k (tainted te).

Definition SnapshotFromGraph (k : nat) (g : Graph) : Snapshot := mkSnapshot (range k (map_to_list (nodes g)).*2) (Edges g).
End engine.

(** ** Specification *)

(** Nodes joined by an edge of the snapshot, in either direction. *)
Definition adj (snap : Snapshot) (u v : string) : Prop :=
  exists e, e ∈ snap_edges snap /\ (Edge.Source e = u /\ Edge.Target e = v \/ Edge.Source e = v /\ Edge.Target e = u).

Inductive hops (snap : Snapshot) (s : string) : nat -> string -> Prop :=
| hops_here : hops snap s 0 s
| hops_next n u v : hops snap s n u -> adj snap u v -> hops snap s (S n) v.

(** The order of taints: by level, then by depth. *)
Definition below (l d : Z) (t : TaintNode) : Prop := l < Level t \/ l = Level t /\ d <= Depth t.

Lemma at_key_index f l k : at_key (index_edges f l) k = filter (fun e => f e = k) l.
Proof.
  unfold at_key, index_edges. induction l as [|e l IH] using rev_ind; [done|].
  rewrite foldl_app, filter_app. simpl. rewrite lookup_insert. case_decide as E.
  - subst. simpl. rewrite IH. by rewrite filter_cons_True, filter_nil by done.
  - rewrite IH, filter_cons_False, filter_nil, app_nil_r by done. done.
Qed.

Lemma index_nodes_elem l id n : index_nodes l !! id = Some n -> n ∈ l /\ Node.ID n = id.
Proof.
  unfold index_nodes. induction l as [|m l IH] using rev_ind; [simpl; by rewrite lookup_empty|].
  rewrite foldl_app. simpl. rewrite lookup_insert, elem_of_app. case_decide; [intros; simplify_eq; split; [right; apply list_elem_of_here|done]|naive_solver].
Qed.

(** The neighbours of a node, with the relations, in the order of the loop. *)
Definition nbrs (te : TaintEngine) (id : string) : list (string * string) :=
  ((fun e => (Edge.Target e, Edge.Relation e)) <$> at_key (forward te) id) ++
  ((fun e => (Edge.Source e, Edge.Relation e)) <$> at_key (reverse te) id).

Lemma nbrs_adj snap u v : (exists r, (v, r) ∈ nbrs (indexed snap) u) <-> adj snap u v.
Proof.
  unfold nbrs, adj, indexed. simpl. rewrite !at_key_index. setoid_rewrite elem_of_app. setoid_rewrite list_elem_of_fmap.
  setoid_rewrite list_elem_of_filter. split.
  - intros (r & [(e & E & He & Hin)|(e & E & He & Hin)]); simplify_eq; exists e; naive_solver.
  - intros (e & Hin & [[<- <-]|[<- <-]]); exists (Edge.Relation e); [left|right]; exists e; done.
Qed.

Lemma foldl_map {A B C} (f : C -> B -> C) (g : A -> B) l c : foldl f c (g <$> l) = foldl (fun c a => f c (g a)) c l.
Proof. revert c. induction l as [|a l IH]; intros c; [done|]. apply IH. Qed.

Definition spread (u : string) (l : Z) (ns : list (string * string)) (st : tstate) : tstate :=
  foldl (fun st vr => tryTaint vr.1 u vr.2 l st) st ns.

Lemma visit_spread te u T q tu : T !! u = Some tu ->
  visit te u (T, q) = Some (if Level tu - 1 <? TaintLow then (T, q) else spread u (Level tu - 1) (nbrs te u) (T, q)).
Proof.
  intros Hu. unfold visit. simpl. rewrite Hu. simpl. case_match; [done|]. f_equal. unfold spread, nbrs.
  by rewrite foldl_app, !foldl_map.
Qed.

Lemma spread_cons u l v r ns st : spread u l ((v, r) :: ns) st = spread u l ns (tryTaint v u r l st).
Proof. done. Qed.

(** ** One attempt *)

Lemma tryTaint_cases v u r T q tu : T !! u = Some tu ->
  let l := Level tu - 1 in let d := Depth tu + 1 in
  (tryTaint v u r l (T, q) = (T, q) /\ exists tv, T !! v = Some tv /\ below l d tv) \/
  (tryTaint v u r l (T, q) = (<[v := mkTaint l d u r]> T, q ++ [v]) /\ v <> u /\
   forall tv, T !! v = Some tv -> ~ below l d tv).
Proof.
  intros Hu l d. unfold tryTaint. rewrite Hu. fold d. destruct (decide (v = u)) as [->|Hn].
  - left. rewrite Hu. destruct (Z.ltb_spec l (Level tu)); [|lia]. split; [done|]. exists tu. split; [done|]. unfold below. lia.
  - destruct (T !! v) as [tv|] eqn:Ev; [|right; split_and!; [done|done|naive_solver]].
    destruct (Z.ltb_spec l (Level tv)); [left; split; [done|]; exists tv; unfold below; split; [done|lia]|].
    destruct (Z.eqb_spec (Level tv) l) as [El|El]; [destruct (Z.leb_spec d (Depth tv))|]; simpl.
    + left. split; [done|]. exists tv. split; [done|]. unfold below. lia.
    + right. split_and!; [done|done|]. intros ? [= <-]. unfold below. lia.
    + right. split_and!; [done|done|]. intros ? [= <-]. unfold below. lia.
Qed.

(** ** The worklist *)

Section worklist.
Context (te : TaintEngine) (seed : string -> option Z) (U : list string).
Hypothesis seed_range : forall v l, seed v = Some l -> 1 <= l <= 4.
Hypothesis closed : forall u v r, (v, r) ∈ nbrs te u -> v ∈ U.

(** What a seed gives to a node along a walk. *)
Inductive given : string -> Z -> Z -> Prop :=
| given_seed v l : seed v = Some l -> given v l 0
| given_hop u v r l d : given u (l + 1) (d - 1) -> (v, r) ∈ nbrs te u -> 1 <= l -> given v l d.

Lemma given_range v l d : given v l d -> 1 <= l /\ 0 <= d /\ l + d <= 4.
Proof. induction 1 as [v l Hs|u v r l d _ IH _ Hl]; [apply seed_range in Hs|]; lia. Qed.

Definition origin (T : gmap string TaintNode) (v : string) (t : TaintNode) : Prop :=
  (Depth t = 0 /\ PrevID t = "" /\ seed v = Some (Level t)) \/
  ((v, PrevRel t) ∈ nbrs te (PrevID t) /\ exists tu, T !! PrevID t = Some tu /\ below (Level t + 1) (Depth t - 1) tu).

Record inv (T : gmap string TaintNode) (q : list string) : Prop := {
  i_given : forall v t, T !! v = Some t -> given v (Level t) (Depth t);
  i_origin : forall v t, T !! v = Some t -> origin T v t;
  i_closed : forall u t, T !! u = Some t -> u ∉ q -> 2 <= Level t -> forall v r, (v, r) ∈ nbrs te u ->
    exists tv, T !! v = Some tv /\ below (Level t - 1) (Depth t + 1) tv;
  i_seed : forall v l, seed v = Some l -> exists t, T !! v = Some t /\ below l 0 t;
  i_queue : forall u, u ∈ q -> is_Some (T !! u);
}.

Lemma below_trans l d t t' : below l d t -> below (Level t) (Depth t) t' -> below l d t'.
Proof. unfold below. lia. Qed.

Definition grows (T T' : gmap string TaintNode) : Prop :=
  forall w t, T !! w = Some t -> exists t', T' !! w = Some t' /\ below (Level t) (Depth t) t'.

Lemma grows_below T T' w l d : grows T T' -> (exists t, T !! w = Some t /\ below l d t) -> exists t, T' !! w = Some t /\ below l d t.
Proof. intros Hg (t & Ht & Hb). destruct (Hg w t Ht) as (t' & Ht' & Hb'). exists t'. split; [done|]. by eapply below_trans. Qed.

Lemma grows_insert T v t : (forall tv, T !! v = Some tv -> ~ below (Level t) (Depth t) tv) -> grows T (<[v := t]> T).
Proof.
  intros Hv w t' Ht'. rewrite lookup_insert. case_decide as E; [subst|exists t'; split; [done|unfold below; lia]].
  exists t. split; [done|]. specialize (Hv t' Ht'). unfold below in *. lia.
Qed.

Lemma inv_insert T u q v r tu : inv T (u :: q) -> T !! u = Some tu -> 2 <= Level tu -> (v, r) ∈ nbrs te u -> v <> u ->
  let t := mkTaint (Level tu - 1) (Depth tu + 1) u r in
  grows T (<[v := t]> T) -> inv (<[v := t]> T) (u :: q ++ [v]).
Proof.
  intros [Hg Ho Hc Hs Hq] Hu Hl Hn Hne t Hgr.
  assert (given v (Level t) (Depth t)) as Hgt.
  { simpl. eapply given_hop; [|done|lia]. replace (Level tu - 1 + 1) with (Level tu) by lia.
    replace (Depth tu + 1 - 1) with (Depth tu) by lia. by apply Hg. }
  split.
  - intros w tw. rewrite lookup_insert. case_decide; [intros; by simplify_eq|apply Hg].
  - intros w tw. rewrite lookup_insert. case_decide as E; intros Hw.
    + simplify_eq. right. split; [done|]. exists tu. simpl. rewrite lookup_insert_ne by done. split; [done|]. unfold below. lia.
    + destruct (Ho w tw Hw) as [?|[? Hx]]; [by left|right]. split; [done|]. by eapply grows_below.
  - intros w tw Hw Hnq Hlw v' r' Hn'. rewrite lookup_insert in Hw. case_decide as E.
    + subst. exfalso. apply Hnq. rewrite elem_of_cons, elem_of_app, elem_of_cons. naive_solver.
    + eapply grows_below; [done|]. eapply (Hc w tw); [done| |done|done]. rewrite elem_of_cons, elem_of_app in Hnq. rewrite elem_of_cons. naive_solver.
  - intros w l Hw. eapply grows_below; [done|]. by apply Hs.
  - intros w. rewrite elem_of_cons, elem_of_app, elem_of_cons, elem_of_nil. intros Hw. rewrite lookup_insert. case_decide; [done|].
    apply Hq. rewrite elem_of_cons. naive_solver.
Qed.

(** The taints still to come. *)
Definition score (o : option TaintNode) : nat := match o with Some t => Z.to_nat (4 * Level t + Depth t) | None => 0 end.
Definition potential (T : gmap string TaintNode) : nat := sum_list_with (fun v => 17 - score (T !! v))%nat U.

Lemma sum_le {A} (f g : A -> nat) l : (forall x, x ∈ l -> f x <= g x)%nat -> (sum_list_with f l <= sum_list_with g l)%nat.
Proof.
  induction l as [|x l IH]; intros H; [done|]. simpl. specialize (IH ltac:(intros; apply H; by right)).
  specialize (H x ltac:(left)). lia.
Qed.

Lemma sum_lt {A} (f g : A -> nat) l y : (forall x, x ∈ l -> f x <= g x)%nat -> y ∈ l -> (f y < g y)%nat ->
  (sum_list_with f l < sum_list_with g l)%nat.
Proof.
  intros H Hy Hlt. induction l as [|x l IH]; [by apply elem_of_nil in Hy|]. simpl.
  pose proof (sum_le f g l ltac:(intros; apply H; by right)). pose proof (H x ltac:(left)).
  apply elem_of_cons in Hy as [->|Hy]; [lia|]. specialize (IH ltac:(intros; apply H; by right) Hy). lia.
Qed.

Lemma potential_insert T v t : v ∈ U -> (forall w tw, T !! w = Some tw -> given w (Level tw) (Depth tw)) -> given v (Level t) (Depth t) ->
  (forall tv, T !! v = Some tv -> ~ below (Level t) (Depth t) tv) -> (potential (<[v := t]> T) < potential T)%nat.
Proof.
  intros Hv Hg Ht Hb. apply given_range in Ht as (?&?&?). unfold potential.
  assert (score (T !! v) < score (Some t) <= 16)%nat as Hsc.
  { destruct (T !! v) as [tv|] eqn:Ev; simpl; [|lia]. destruct (given_range _ _ _ (Hg _ _ Ev)) as (?&?&?).
    specialize (Hb tv eq_refl). unfold below in Hb. lia. }
  apply (sum_lt _ _ U v); [|done|].
  - intros x _. destruct (decide (v = x)) as [<-|Hne]; [rewrite lookup_insert_eq; lia|]. by rewrite lookup_insert_ne.
  - rewrite lookup_insert_eq. lia.
Qed.

Lemma spread_inv u tu ns T q : inv T (u :: q) -> T !! u = Some tu -> 2 <= Level tu -> (forall v r, (v, r) ∈ ns -> (v, r) ∈ nbrs te u) ->
  exists T' q', spread u (Level tu - 1) ns (T, q) = (T', q') /\ inv T' (u :: q') /\ T' !! u = Some tu /\ grows T T' /\
    (forall v r, (v, r) ∈ ns -> exists tv, T' !! v = Some tv /\ below (Level tu - 1) (Depth tu + 1) tv) /\
    (length q' + potential T' <= length q + potential T)%nat.
Proof.
  revert T q. induction ns as [|[v r] ns IH]; intros T q Hi Hu Hl Hns.
  - exists T, q. split_and!; try done; [intros w t Hw; exists t; unfold below; split; [done|lia]|]. by intros v r ?%elem_of_nil.
  - assert ((v, r) ∈ nbrs te u) as Hn by (apply Hns; left). rewrite spread_cons.
    destruct (tryTaint_cases v u r T q tu Hu) as [[-> Hb]|(-> & Hne & Hb)].
    + destruct (IH T q Hi Hu Hl ltac:(intros; apply Hns; by right)) as (T' & q' & -> & ? & ? & Hg & Hall & ?).
      exists T', q'. split_and!; try done. intros v' r' [[= -> ->]|?]%elem_of_cons; [by eapply grows_below|by eapply Hall].
    + set (t := mkTaint (Level tu - 1) (Depth tu + 1) u r) in *.
      pose proof (grows_insert T v t Hb) as Hg. pose proof (inv_insert T u q v r tu Hi Hu Hl Hn Hne Hg) as Hi'.
      assert (potential (<[v := t]> T) < potential T)%nat as Hp.
      { apply potential_insert; [by eapply closed|apply Hi| |done]. apply (i_given _ _ Hi' v). by rewrite lookup_insert_eq. }
      destruct (IH (<[v := t]> T) (q ++ [v]) Hi') as (T' & q' & -> & ? & ? & Hg' & Hall & Hq);
        [by rewrite lookup_insert_ne|done|intros; apply Hns; by right|].
      exists T', q'. rewrite length_app in Hq. simpl in Hq. split_and!; try done; [| |lia].
      * intros w tw Hw. eapply (grows_below (<[v := t]> T)); [done|]. by apply Hg.
      * intros v' r' [[= -> ->]|?]%elem_of_cons; [|by eapply Hall]. eapply grows_below; [done|].
        exists t. rewrite lookup_insert_eq. split; [done|]. unfold below. simpl. lia.
Qed.

Lemma inv_pop T u q : inv T (u :: q) -> (forall t, T !! u = Some t -> 2 <= Level t -> forall v r, (v, r) ∈ nbrs te u ->
    exists tv, T !! v = Some tv /\ below (Level t - 1) (Depth t + 1) tv) -> inv T q.
Proof.
  intros [Hg Ho Hc Hs Hq] Hu. split; [done|done| |done|intros w Hw; apply Hq; by right].
  intros w t Hw Hnq Hl. destruct (decide (w = u)) as [->|Hne]; [by apply Hu|]. apply Hc; [done| |done].
  rewrite elem_of_cons. naive_solver.
Qed.

Lemma visit_inv T u q : inv T (u :: q) ->
  exists T' q', visit te u (T, q) = Some (T', q') /\ inv T' q' /\ (length q' + potential T' <= length q + potential T)%nat.
Proof.
  intros Hi. destruct (i_queue _ _ Hi u ltac:(left)) as [tu Hu]. rewrite (visit_spread te u T q tu Hu).
  unfold TaintLow. destruct (Z.ltb_spec (Level tu - 1) 1) as [Hl|Hl].
  - exists T, q. split_and!; [done| |done]. apply (inv_pop T u q Hi). intros t Ht. simplify_eq. lia.
  - destruct (spread_inv u tu (nbrs te u) T q Hi Hu ltac:(lia) ltac:(done)) as (T' & q' & -> & Hi' & Hu' & _ & Hall & Hp).
    exists T', q'. split_and!; [done| |done]. apply (inv_pop T' u q' Hi'). intros t Ht _ v r Hv. simplify_eq. by eapply Hall.
Qed.

Lemma loop_inv fuel T q : inv T q -> (length q + potential T < fuel)%nat -> exists T', propagate_loop fuel te (T, q) = Some T' /\ inv T' [].
Proof.
  revert T q. induction fuel as [|fuel IH]; intros T q Hi Hf; [lia|]. destruct q as [|u q]; simpl; [by exists T|].
  destruct (visit_inv T u q Hi) as (T' & q' & -> & Hi' & Hp). simpl in *. apply IH; [done|lia].
Qed.

(** ** The fixpoint *)

Lemma final_max T v l d : inv T [] -> given v l d -> exists t, T !! v = Some t /\ below l d t.
Proof.
  intros Hi. induction 1 as [v l Hs|u v r l d Hu IH Hn Hl]; [by eapply i_seed|].
  destruct IH as (tu & Htu & Hb). assert (2 <= Level tu) as H2 by (unfold below in Hb; lia).
  destruct (i_closed _ _ Hi u tu Htu ltac:(apply not_elem_of_nil) H2 v r Hn) as (tv & Hv & Hb').
  exists tv. split; [done|]. unfold below in *. lia.
Qed.

(** The taint of the previous node is one level up and one hop nearer. *)
Lemma final_prev T v t : inv T [] -> T !! v = Some t ->
  (Depth t = 0 /\ PrevID t = "" /\ seed v = Some (Level t)) \/
  ((v, PrevRel t) ∈ nbrs te (PrevID t) /\ exists tu, T !! PrevID t = Some tu /\ Level tu = Level t + 1 /\ Depth tu = Depth t - 1).
Proof.
  intros Hi Hv. destruct (i_origin _ _ Hi v t Hv) as [?|(Hn & tu & Hu & Hb)]; [by left|right]. split; [done|]. exists tu. split; [done|].
  pose proof (given_range _ _ _ (i_given _ _ Hi _ _ Hv)). assert (2 <= Level tu) as H2 by (unfold below in Hb; lia).
  destruct (i_closed _ _ Hi _ tu Hu ltac:(apply not_elem_of_nil) H2 v _ Hn) as (tv & Hv' & Hb'). simplify_eq.
  unfold below in *. lia.
Qed.
End worklist.

(** ** Seeds *)

Section seeding.
Context {UC : UnicodeCase} {MO : MapOrder} (seeds : Seeds).

(** The level at which a node starts: a daemon that no process forked, a network tool, a
    sensitive file. *)
Definition seed_level (te : TaintEngine) (id : string) : option Z :=
  n ← te_nodes te !! id;
  let comm := ToLower (Node.Label n) in
  if String.eqb (Node.Subtype n) "process" then
    if flag (untrustedComms seeds) comm && negb (isForkChild te id) then Some TaintCritical
    else if flag (networkTools seeds) comm then Some TaintMedium else None
  else if String.eqb (Node.Subtype n) "file" && isSensitivePath seeds comm then Some TaintHigh else None.

Definition seeded (l : Z) : TaintNode := mkTaint l 0 "" "".

Lemma seed_node_spec te T q id : T !! id = None ->
  seed_node seeds te (T, q) id = match seed_level te id with Some l => (<[id := seeded l]> T, q ++ [id]) | None => (T, q) end.
Proof.
  intros Hid. unfold seed_node, seed_level. destruct (te_nodes te !! id) as [n|]; [|done]. simpl.
  destruct (String.eqb _ "process").
  - destruct (_ && _); [|destruct (flag (networkTools seeds) _); [|done]]; simpl; rewrite Hid; [|done].
    destruct (flag (networkTools seeds) _); [|done]. simpl. by rewrite lookup_insert_eq.
  - destruct (String.eqb _ "file"); [|done]. simpl. destruct (isSensitivePath _ _); [|done]. simpl. by rewrite Hid.
Qed.

Lemma seed_fold te ks : NoDup ks ->
  exists T q, foldl (seed_node seeds te) (∅, []) ks = (T, q) /\
    (forall v, T !! v = if decide (v ∈ ks) then seeded <$> seed_level te v else None) /\ (forall v, v ∈ q <-> is_Some (T !! v)).
Proof.
  induction ks as [|k ks IH] using rev_ind; intros Hnd.
  - exists ∅, []. split_and!; [done|intros v; rewrite lookup_empty; case_decide as Hv; [by apply elem_of_nil in Hv|done]|].
    intros v. rewrite lookup_empty. split; [by intros ?%elem_of_nil|by intros []].
  - apply NoDup_app in Hnd as (Hnd & Hk & _). destruct (IH Hnd) as (T & q & Hf & HT & Hq).
    rewrite foldl_app, Hf. simpl. rewrite seed_node_spec by (rewrite HT, decide_False; [done|]; intros Hx; apply (Hk k Hx); left).
    destruct (seed_level te k) as [l|] eqn:El.
    + eexists _, _. split; [done|]. split; intros v.
      * rewrite lookup_insert. case_decide as E; [subst; rewrite decide_True by (rewrite elem_of_app; right; left); by rewrite El|].
        rewrite HT. apply decide_ext. rewrite elem_of_app, list_elem_of_singleton. naive_solver.
      * rewrite elem_of_app, list_elem_of_singleton, Hq, lookup_insert. case_decide; naive_solver.
    + exists T, q. split_and!; [done| |done]. intros v. rewrite HT.
      destruct (decide (v = k)) as [->|Hne]; [rewrite El; by repeat case_decide|].
      apply decide_ext. rewrite elem_of_app, list_elem_of_singleton. naive_solver.
Qed.

Lemma keys_elem {A} k (m : gmap string A) id : id ∈ keys k m <-> is_Some (m !! id).
Proof.
  unfold keys. rewrite elem_of_range, list_elem_of_fmap. split.
  - intros ([i a] & -> & Hi%elem_of_map_to_list). by exists a.
  - intros [a Ha]. exists (id, a). split; [done|]. by apply elem_of_map_to_list.
Qed.

Lemma map_keys_NoDup {A} k (m : gmap string A) : NoDup (keys k m).
Proof. unfold keys. rewrite range_perm. apply NoDup_fst_map_to_list. Qed.

Lemma seed_level_range te v l : seed_level te v = Some l -> 1 <= l <= 4.
Proof. unfold seed_level. intros H. destruct (te_nodes te !! v); [|done]. simpl in H. repeat case_match; simplify_eq; done. Qed.

Lemma potential_bound U T : (potential U T <= 17 * length U)%nat.
Proof. unfold potential. induction U as [|x U IH]; [done|]. simpl. lia. Qed.

Lemma nbrs_universe snap u v r : (v, r) ∈ nbrs (indexed snap) u -> v ∈ universe snap.
Proof.
  intros H. destruct (proj1 (nbrs_adj snap u v) (ex_intro _ r H)) as (e & He & Hd). unfold universe. rewrite !elem_of_app, !list_elem_of_fmap.
  destruct Hd as [[_ <-]|[<- _]]; [right; right|right; left]; by exists e.
Qed.

(** The engine always converges, within the fuel. *)
Lemma engine_converges snap : exists T, NewTaintEngine seeds snap = Some (set_tainted (indexed snap) T) /\
  inv (indexed snap) (seed_level (indexed snap)) T [].
Proof.
  set (te := indexed snap). unfold NewTaintEngine. fold te. unfold seedTaints.
  destruct (seed_fold te (keys 0 (te_nodes te)) (map_keys_NoDup _ _)) as (T & q & Hf & HT & Hq).
  change (tainted te) with (∅ : gmap string TaintNode). rewrite Hf.
  assert (forall v, T !! v = seeded <$> seed_level te v) as HT'.
  { intros v. rewrite HT. case_decide as E; [done|]. rewrite keys_elem in E. unfold seed_level.
    destruct (te_nodes te !! v); [by destruct E|done]. }
  assert (inv te (seed_level te) T q) as Hi.
  { split.
    - intros v t. rewrite HT'. destruct (seed_level te v) as [l|] eqn:E; [|done]. intros [= <-]. by apply given_seed.
    - intros v t. rewrite HT'. destruct (seed_level te v) as [l|] eqn:E; [|done]. intros [= <-]. left. split_and!; [done..|exact E].
    - intros u t Hu Hn. exfalso. apply Hn, Hq. by exists t.
    - intros v l E. exists (seeded l). rewrite HT', E. split; [done|]. unfold below. simpl. lia.
    - intros u. apply Hq. }
  destruct (loop_inv te (seed_level te) (universe snap) (seed_level_range te) (nbrs_universe snap)
              (propagate_fuel snap (T, q)) T q Hi) as (T' & -> & Hi').
  { unfold propagate_fuel. simpl. pose proof (potential_bound (universe snap) T). lia. }
  by exists T'.
Qed.

Lemma given_hops snap sl v l d : given (indexed snap) sl v l d <->
  exists s n, sl s = Some (l + d) /\ d = Z.of_nat n /\ hops snap s n v /\ (1 <= l \/ d = 0).
Proof.
  split.
  - induction 1 as [v l Hs|u v r l d Hu (s & n & Hs & Hd & Hh & _) Hn Hl].
    + exists v, 0%nat. rewrite Z.add_0_r. split_and!; [done..|constructor|by right].
    + exists s, (S n). split_and!; [rewrite Hs; f_equal; lia|lia| |by left]. econstructor; [done|]. apply nbrs_adj. by exists r.
  - intros (s & n & Hs & -> & Hh & Hl). revert l Hs Hl. induction Hh as [|n u v Hh IH Ha]; intros l Hs Hl.
    + apply given_seed. by rewrite Hs, Z.add_0_r.
    + apply nbrs_adj in Ha as [r Hr]. eapply given_hop; [|done|lia].
      replace (Z.of_nat (S n) - 1) with (Z.of_nat n) by lia. apply IH; [rewrite Hs; f_equal; lia|lia].
Qed.
End seeding.

(** ** What the engine computes *)

Section results.
Context {UC : UnicodeCase} {MO : MapOrder} (seeds : Seeds).

(** [C20] Whatever the order of map iteration, the engine converges and the taint of a
    node is the best that a seed gives it: a seed of level [L] gives level [L - n] to
    every node at the end of a walk of [n] edges, taken in either direction, while that
    level is positive.  The node has the highest such level and, at that level, the
    largest number of hops; it has no taint when no seed reaches it. *)
Theorem taint_exact (snap : Snapshot) :
  exists te, NewTaintEngine seeds snap = Some te /\
    forall v, match tainted te !! v with
    | Some t => (exists s n, seed_level seeds (indexed snap) s = Some (Level t + Depth t) /\ Depth t = Z.of_nat n /\ hops snap s n v /\ 1 <= Level t) /\
                (forall s n L, seed_level seeds (indexed snap) s = Some L -> hops snap s n v -> 1 <= L - Z.of_nat n -> below (L - Z.of_nat n) (Z.of_nat n) t)
    | None => forall s n L, seed_level seeds (indexed snap) s = Some L -> hops snap s n v -> L - Z.of_nat n < 1
    end.
Proof.
  destruct (engine_converges seeds snap) as (T & Hte & Hi). exists (set_tainted (indexed snap) T). split; [exact Hte|]. intros v. simpl.
  assert (forall s n L, seed_level seeds (indexed snap) s = Some L -> hops snap s n v -> 1 <= L - Z.of_nat n ->
            exists t, T !! v = Some t /\ below (L - Z.of_nat n) (Z.of_nat n) t) as Hmax.
  { intros s n L Hs Hh Hl. eapply final_max; [exact Hi|]. apply given_hops. exists s, n. split_and!; [|done..|by left].
    rewrite Hs. f_equal. lia. }
  destruct (T !! v) as [t|] eqn:Ev.
  - split; [|intros s n L Hs Hh Hl; destruct (Hmax s n L Hs Hh Hl) as (? & [= <-] & ?); done].
    pose proof (i_given _ _ _ _ Hi v t Ev) as Hg. pose proof (given_range _ _ (seed_level_range seeds _) _ _ _ Hg) as (Hl & _ & _).
    apply given_hops in Hg as (s & n & Hs & Hd & Hh & _). by exists s, n.
  - intros s n L Hs Hh. destruct (Z.lt_ge_cases (L - Z.of_nat n) 1) as [|Hl]; [done|].
    destruct (Hmax s n L Hs Hh Hl) as (? & ? & _). done.
Qed.

(** A walk with the nodes it visits. *)
Inductive trail (snap : Snapshot) (s : string) : list string -> string -> Prop :=
| trail_here : trail snap s [s] s
| trail_next p u v : trail snap s p u -> adj snap u v -> trail snap s (p ++ [v]) v.

Definition named (snap : Snapshot) : Prop := "" ∉ universe snap.

Lemma seed_universe snap v l : seed_level seeds (indexed snap) v = Some l -> v ∈ universe snap.
Proof.
  unfold seed_level, universe. intros H. destruct (te_nodes (indexed snap) !! v) as [n|] eqn:E; [|done].
  apply index_nodes_elem in E as [Hn <-]. rewrite elem_of_app, list_elem_of_fmap. left. by exists n.
Qed.

Lemma given_universe snap v l d : given (indexed snap) (seed_level seeds (indexed snap)) v l d -> v ∈ universe snap.
Proof. destruct 1; [by eapply seed_universe|by eapply nbrs_universe]. Qed.

Lemma path_trail snap te T v t fuel acc : named snap -> te = set_tainted (indexed snap) T ->
  inv (indexed snap) (seed_level seeds (indexed snap)) T [] -> T !! v = Some t -> (Z.to_nat (Depth t) + 2 <= fuel)%nat ->
  exists p s, path_loop fuel te v acc = Some (p ++ acc) /\ trail snap s p v /\ length p = S (Z.to_nat (Depth t)) /\
    seed_level seeds (indexed snap) s = Some (Level t + Depth t).
Proof.
  intros Hn -> Hi. revert v t acc. induction fuel as [|fuel IH]; intros v t acc Hv Hf; [lia|].
  pose proof (i_given _ _ _ _ Hi v t Hv) as Hg. pose proof (given_range _ _ (seed_level_range seeds _) _ _ _ Hg) as (Hl & Hd & _).
  assert (v <> "") as Hne by (intros ->; apply Hn; by eapply given_universe).
  simpl. rewrite (proj2 (String.eqb_neq v "") Hne), Hv.
  destruct (final_prev _ _ (seed_level_range seeds _) T v t Hi Hv) as [(Hd0 & Hp & Hs)|(Hadj & tu & Hu & Hlu & Hdu)].
  - exists [v], v. rewrite Hp, Hd0, Z.add_0_r. destruct fuel; [lia|]. split_and!; [done|constructor|done|done].
  - pose proof (given_range _ _ (seed_level_range seeds _) _ _ _ (i_given _ _ _ _ Hi _ tu Hu)) as (_ & Hdu0 & _).
    destruct (IH (PrevID t) tu (v :: acc) Hu ltac:(lia)) as (p & s & -> & Ht & Hlen & Hs).
    exists (p ++ [v]), s. split_and!; [by rewrite <-app_assoc| |rewrite length_app; simpl; lia|rewrite Hs; f_equal; lia].
    econstructor; [done|]. apply nbrs_adj. by eexists.
Qed.

(** The walk back always ends. *)
Lemma path_total snap te v : NewTaintEngine seeds snap = Some te -> exists p, PropagationPath te v = Some p.
Proof.
  intros Hte. destruct (engine_converges seeds snap) as (T & Hte' & Hi). rewrite Hte in Hte'. simplify_eq. unfold PropagationPath.
  assert (forall fuel v t acc, T !! v = Some t -> (Z.to_nat (Depth t) + 2 <= fuel)%nat ->
            exists p, path_loop fuel (set_tainted (indexed snap) T) v acc = Some p) as Hp.
  { induction fuel as [|fuel IH]; intros w t acc Hw Hf; [lia|]. simpl. case_match; [by eexists|]. rewrite Hw.
    pose proof (given_range _ _ (seed_level_range seeds _) _ _ _ (i_given _ _ _ _ Hi _ t Hw)) as (_ & Hd & _).
    destruct (final_prev _ _ (seed_level_range seeds _) T w t Hi Hw) as [(_ & -> & _)|(_ & tu & Hu & _ & Hdu)].
    - destruct fuel; [lia|]. by eexists.
    - pose proof (given_range _ _ (seed_level_range seeds _) _ _ _ (i_given _ _ _ _ Hi _ tu Hu)). eapply IH; [done|lia]. }
  destruct (T !! v) as [t|] eqn:Hv.
  - pose proof (given_range _ _ (seed_level_range seeds _) _ _ _ (i_given _ _ _ _ Hi _ t Hv)). eapply Hp; [done|lia].
  - simpl. rewrite Hv. case_match; by eexists.
Qed.

(** The path of a tainted node runs from a seed to the node along edges of the snapshot,
    with as many hops as the depth says. *)
Lemma propagation_path snap te v t : named snap -> NewTaintEngine seeds snap = Some te -> tainted te !! v = Some t ->
  exists p s, PropagationPath te v = Some p /\ trail snap s p v /\ length p = S (Z.to_nat (Depth t)) /\
    seed_level seeds (indexed snap) s = Some (Level t + Depth t).
Proof.
  intros Hn Hte Hv. destruct (engine_converges seeds snap) as (T & Hte' & Hi). rewrite Hte in Hte'. simplify_eq.
  pose proof (given_range _ _ (seed_level_range seeds _) _ _ _ (i_given _ _ _ _ Hi _ t Hv)) as (? & ? & ?).
  destruct (path_trail snap _ T v t 6 [] Hn eq_refl Hi Hv ltac:(lia)) as (p & s & Hp & ?). rewrite app_nil_r in Hp. by exists p, s.
Qed.
End results.

(** A web server, its worker, a script the worker wrote and the shell that ran it: the
    deepest taint that still has its level wins. *)
Definition tnode (id subtype label : string) : Node.t := Node.newNode id ProvActivity subtype label 0.
Definition tedge (rel s t : string) : Edge.t := Edge.newEdge (edgeID rel s t) rel s t 0.
Definition web_snapshot : Snapshot :=
  mkSnapshot [tnode "p:1" "process" "nginx"; tnode "p:2" "process" "sh"; tnode "f:1" "file" "/tmp/x"; tnode "p:3" "process" "x"]
    [tedge ProvWasInformedBy "p:2" "p:1"; tedge ProvWasGeneratedBy "f:1" "p:2"; tedge ProvUsed "p:3" "f:1"].

Example web_taints :
  (fun te => ((fun t => (Level t, Depth t)) <$> tainted te !! "p:3", PropagationPath te "p:3"))
    <$> @NewTaintEngine ascii_case alternating_order default_seeds web_snapshot
  = Some (Some (1, 3), Some ["p:1"; "p:2"; "f:1"; "p:3"]).
Proof. vm_compute. reflexivity. Qed.
