(* ===== verification/Analyzer.v ===== *)
(** * Attack patterns and the scan ([internal/engine/analyzer]: [patterns.go], [alert.go],
    [analyzer.go])

    A scan takes a snapshot of the graph, propagates taint, checks the enabled patterns and
    the Sigma rules, attaches the evidence to each alert and keeps one alert per pattern and
    node.  The texts [Alert.Reason] and [Alert.Metadata] are left out; the online scorer is
    an argument of the scan, and so is the clock.  The iteration over a map has the number
    of its statement. *)
From S2P Require Import Prelude GoStrings GoTime Events ProvGraph ProvInv ProvVersions ProvKinds GoPath Sigma TaintEngine.

Definition PatSensitiveExfil : string := "SENSITIVE_EXFIL".
Definition PatScriptChild : string := "SCRIPT_CHILD".
Definition PatDeepTaint : string := "DEEP_TAINT_CHAIN".
Definition PatPrivEsc : string := "PRIVILEGE_ESCALATION".
Definition PatMemoryAnomaly : string := "MEMORY_ANOMALY".
Definition PatMLGraphAnomaly : string := "ML_GRAPH_ANOMALY".

Definition PatternID_String (id : string) : string :=
  if String.eqb id PatSensitiveExfil then "Sensitive file read + network activity — possible exfiltration"
  else if String.eqb id PatScriptChild then "File written by low-integrity process and later executed"
  else if String.eqb id PatDeepTaint then "Suspicious activity chain exceeding minimum depth threshold"
  else if String.eqb id PatPrivEsc then "Privilege escalation via setuid or capability change"
  else if String.eqb id PatMemoryAnomaly then "Memory anomaly — mprotect RW→RX or fileless execution on tainted process"
  else id.

Definition SeverityInfo : Z := 10.
Definition SeverityLow : Z := 20.
Definition SeverityMedium : Z := 30.
Definition SeverityHigh : Z := 40.
Definition SeverityCritical : Z := 50.

Definition Severity_String (s : Z) : string :=
  if s =? SeverityInfo then "INFO" else if s =? SeverityLow then "LOW" else if s =? SeverityMedium then "MEDIUM"
  else if s =? SeverityHigh then "HIGH" else if s =? SeverityCritical then "CRITICAL" else "UNKNOWN".

Record AlertSubgraph := mkSubgraph { sub_nodes : list Node.t; sub_edges : list Edge.t; PathNodeIDs : list string; sub_AlertNodeID : string }.

Record Alert := mkAlert {
  Pattern : string; Severity : Z; Headline : string; AlertNodeID : string; DetectedAt : time; Subgraph : option AlertSubgraph;
}.

(** An alert as a pattern returns it. *)
Definition raised (pattern : string) (severity : Z) (headline id : string) : Alert := mkAlert pattern severity headline id time_zero None.

Section patterns.
Context {UC : UnicodeCase} {MO : MapOrder} (seeds : Seeds).

(** ** Patterns *)

Definition nodeLabel (te : TaintEngine) (id : string) : string :=
  match te_nodes te !! id with Some n => Node.Label n | None => id end.

(** The labels of the targets of a node that satisfy [p]. *)
Definition target_labels (te : TaintEngine) (id : string) (p : Node.t -> bool) : list string :=
  omap (fun e => n ← te_nodes te !! Edge.Target e; if p n then Some (Node.Label n) else None) (at_key (forward te) id).

Definition sensitive_file (n : Node.t) : bool := String.eqb (Node.Subtype n) "file" && isSensitivePath seeds (Node.Label n).
Definition network_node (n : Node.t) : bool := String.eqb (Node.Subtype n) "network".

Definition checkSensitiveExfil (te : TaintEngine) : list Alert :=
  omap (fun id =>
    tn ← Tainted te id;
    if Level tn <? TaintMedium then None
    else match target_labels te id sensitive_file, target_labels te id network_node with
         | f :: _, t :: _ => Some (raised PatSensitiveExfil SeverityHigh (nodeLabel te id +:+ " read " +:+ f +:+ " and connected to " +:+ t) id)
         | _, _ => None
         end) (TaintedProcesses 1 te).

(** The files each tainted process wrote: the last writer met stays. *)
Definition written_step (te : TaintEngine) (m : gmap string string) (id : string) : gmap string string :=
  match tainted te !! id with
  | Some tn =>
      if Level tn <? TaintLow then m
      else if is_process te id
      then foldl (fun m e =>
             if negb (String.eqb (Edge.Relation e) ProvWasGeneratedBy) then m
             else match te_nodes te !! Edge.Source e with
                  | Some src => if String.eqb (Node.Subtype src) "file" then <[Node.ID src := id]> m else m
                  | None => m
                  end) m (at_key (reverse te) id)
      else m
  | None => m
  end.

Definition writtenByTaint (te : TaintEngine) : gmap string string := foldl (written_step te) ∅ (keys 2 (tainted te)).

Definition checkScriptChild (te : TaintEngine) : list Alert :=
  let written := writtenByTaint te in
  concat ((fun fileID =>
    omap (fun e =>
      if negb (String.eqb (Edge.Relation e) ProvUsed) then None
      else reader ← te_nodes te !! Edge.Source e;
           if negb (String.eqb (Node.Subtype reader) "process") then None
           else
             let wLabel := match te_nodes te !! default "" (written !! fileID) with Some w => Node.Label w | None => " -> " end in
             let fLabel := match te_nodes te !! fileID with Some f => Node.Label f | None => " -> " end in
             Some (raised PatScriptChild SeverityCritical (wLabel +:+ " wrote " +:+ fLabel +:+ ", then " +:+ Node.Label reader +:+ " read it") (Node.ID reader)))
      (at_key (reverse te) fileID)) <$> keys 3 written).

(** [None]: the path does not end. *)
Definition deep_headline (te : TaintEngine) (id : string) (tn : TaintNode) (node : Node.t) : option string :=
  path ← PropagationPath te id;
  let labels := (fun p => match te_nodes te !! p with Some n => Node.Label n +:+ "(" +:+ p +:+ ")" | None => p end) <$> path in
  Some (Node.Label node +:+ " taint depth=" +:+ pretty (Depth tn) +:+ ": " +:+ String.concat " -> " labels).

Definition deep_alert (te : TaintEngine) (minDepth : Z) (id : string) : option (option Alert) :=
  match tainted te !! id with
  | None => Some None
  | Some tn =>
      if Depth tn <? minDepth then Some None
      else match te_nodes te !! id with
           | Some node =>
               if negb (String.eqb (Node.Subtype node) "process") then Some None
               else h ← deep_headline te id tn node; Some (Some (raised PatDeepTaint SeverityMedium h id))
           | None => Some None
           end
  end.

Definition checkDeepTaint (te : TaintEngine) (minDepth : Z) : option (list Alert) :=
  l ← mapM (deep_alert te minDepth) (keys 4 (tainted te)); Some (omap id l).

(** The attribute is the boolean true. *)
Definition attr_true (n : Node.t) (k : string) : bool := match Node.Attributes n !! k with Some (ABool b) => b | _ => false end.
Definition attr_is (n : Node.t) (k v : string) : bool := match Node.Attributes n !! k with Some (AStr s) => String.eqb s v | _ => false end.

Definition checkPrivEsc (te : TaintEngine) : list Alert :=
  omap (fun id =>
    tn ← tainted te !! id;
    if Level tn <? TaintMedium then None
    else node ← te_nodes te !! id;
         if negb (String.eqb (Node.Subtype node) "process") then None
         else if attr_true node "setuid" then Some (raised PatPrivEsc SeverityHigh (Node.Label node +:+ " executed with setuid") id) else None)
    (keys 5 (tainted te)).

(** The reasons with the severity reached. *)
Definition memory_reasons (node : Node.t) : list string * Z :=
  let r := [] in let sev := SeverityMedium in
  let '(r, sev) := if attr_true node "shellcode" then (r ++ ["mprotect RW->RX (possible shellcode injection)"], SeverityCritical) else (r, sev) in
  let '(r, sev) := if attr_true node "fileless" then (r ++ ["fileless execution (memfd_create)"], if sev <? SeverityHigh then SeverityHigh else sev) else (r, sev) in
  let '(r, sev) := if attr_is node "memory_op" "mprotect_rx"
                   then (r ++ ["memory protection changed RW->RX"], if sev <? SeverityCritical then SeverityCritical else sev)
                   else if attr_is node "memory_op" "memfd_create"
                   then (r ++ ["anonymous memory file created (memfd_create)"], if sev <? SeverityHigh then SeverityHigh else sev) else (r, sev) in
  let '(r, sev) := if attr_true node "pipe_reader"
                   then (r ++ ["pipe read - possible fileless chain"], if sev <? SeverityMedium then SeverityMedium else sev) else (r, sev) in
  if attr_true node "pipe_writer" then (r ++ ["pipe write"], sev) else (r, sev).

Definition checkMemoryAnomaly (te : TaintEngine) : list Alert :=
  omap (fun id =>
    _ ← Tainted te id; node ← te_nodes te !! id;
    match memory_reasons node with
    | ([], _) => None
    | (r :: _, sev) => Some (raised PatMemoryAnomaly sev (Node.Label node +:+ " memory anomaly: " +:+ r) id)
    end) (TaintedProcesses 6 te).

(** ** Evidence *)

Definition addNode (te : TaintEngine) (st : gset string * list Node.t) (id : string) : gset string * list Node.t :=
  let '(seen, l) := st in
  if decide (id ∈ seen) then st
  else ({[id]} ∪ seen, match te_nodes te !! id with Some n => l ++ [n] | None => l end).

Definition addEdgeOnce (st : gset string * list Edge.t) (e : Edge.t) : gset string * list Edge.t :=
  let '(seen, l) := st in if decide (Edge.ID e ∈ seen) then st else ({[Edge.ID e]} ∪ seen, l ++ [e]).

Definition allEdges (te : TaintEngine) : list Edge.t :=
  (foldl addEdgeOnce (∅, []) (concat ((fun k => at_key (forward te) k) <$> keys 7 (forward te)))).2.

Definition context_of (te : TaintEngine) (path : list string) : gset string :=
  list_to_set (concat ((fun id => (Edge.Target <$> at_key (forward te) id) ++ (Edge.Source <$> at_key (reverse te) id)) <$> path))
  ∖ list_to_set path.

Definition keepEdge (onPath context : gset string) (src tgt : string) : bool :=
  bool_decide (src ∈ onPath) || bool_decide (tgt ∈ onPath) || (bool_decide (src ∈ context) && bool_decide (tgt ∈ onPath))
  || (bool_decide (src ∈ onPath) && bool_decide (tgt ∈ context)).

Definition ExtractSubgraph (te : TaintEngine) (a : Alert) : option Alert :=
  path ← PropagationPath te (AlertNodeID a);
  let path := match path with [] => [AlertNodeID a] | _ => path end in
  let onPath : gset string := list_to_set path in
  let context := context_of te path in
  let ns := (foldl (addNode te) (∅, []) (path ++ range 8 (elements context))).2 in
  let es := (foldl addEdgeOnce (∅, []) (filter (fun e => keepEdge onPath context (Edge.Source e) (Edge.Target e) = true) (allEdges te))).2 in
  Some (mkAlert (Pattern a) (Severity a) (Headline a) (AlertNodeID a) (DetectedAt a) (Some (mkSubgraph ns es path (AlertNodeID a)))).
End patterns.

(** ** The analyzer *)

Record Config := mkConfig { ScanInterval : Z; DeepTaintThreshold : Z; EnablePatterns : list string; Quiet : bool }.

Definition DefaultConfig : Config :=
  mkConfig (30 * 1000000000) 3 [PatSensitiveExfil; PatScriptChild; PatDeepTaint; PatPrivEsc; PatMemoryAnomaly] false.

(** [AlertCh] is what the buffered channel holds. *)
Record Analyzer := mkAnalyzer { cfg : Config; alerts : list Alert; AlertCh : list Alert; sigmaRules : gmap string Rule }.

Definition alert_cap : nat := 128.

Definition rule_key (r : Rule) : string := if String.eqb (Sigma.ID r) "" then Title r else Sigma.ID r.

(** [rules] are the built-in ones. *)
Definition New (rules : list Rule) (c : option Config) : Analyzer :=
  mkAnalyzer (default DefaultConfig c) [] [] (foldl (fun m r => <[rule_key r := r]> m) ∅ rules).

Definition ReloadConfig (c : Config) (a : Analyzer) : Analyzer := mkAnalyzer c (alerts a) (AlertCh a) (sigmaRules a).
Definition Alerts (a : Analyzer) : list Alert := alerts a.
Definition AddSigmaRule (id : string) (rule : Rule) (a : Analyzer) : Analyzer :=
  mkAnalyzer (cfg a) (alerts a) (AlertCh a) (<[id := rule]> (sigmaRules a)).
Definition RemoveSigmaRule (id : string) (a : Analyzer) : Analyzer :=
  mkAnalyzer (cfg a) (alerts a) (AlertCh a) (delete id (sigmaRules a)).

(** The caller takes the next alert. *)
Definition receive (a : Analyzer) : option (Alert * Analyzer) :=
  match AlertCh a with [] => None | al :: ch => Some (al, mkAnalyzer (cfg a) (alerts a) ch (sigmaRules a)) end.

Definition sigmaLevelToSeverity (level : string) : Z :=
  if bool_decide (level ∈ ["critical"; "CRITICAL"]) then SeverityCritical
  else if bool_decide (level ∈ ["high"; "HIGH"]) then SeverityHigh
  else if bool_decide (level ∈ ["medium"; "MEDIUM"]) then SeverityMedium
  else if bool_decide (level ∈ ["low"; "LOW"]) then SeverityLow else SeverityMedium.

Definition alert_key (a : Alert) : string := Pattern a +:+ ":" +:+ AlertNodeID a.

Section scan.
Context {UC : UnicodeCase} {MO : MapOrder} (seeds : Seeds).

Definition SigmaRuleIDs (a : Analyzer) : list string := keys 10 (sigmaRules a).

(** An empty match would panic: no rule returns one ([rule_nonempty]). *)
Definition sigma_alerts (rules : gmap string Rule) (snap : Snapshot) : list Alert :=
  concat ((fun id =>
    match rules !! id with
    | Some rule =>
        omap (fun m => match m with
                       | n :: _ => Some (raised ("SIGMA:" +:+ id) (sigmaLevelToSeverity (Sigma.Level rule))
                                          ("[Sigma] " +:+ Title rule +:+ ": matched " +:+ pretty (Z.of_nat (length m)) +:+ " nodes") n)
                       | [] => None
                       end) (EvaluateRule rule (snap_nodes snap) (snap_edges snap))
    | None => []
    end) <$> keys 9 rules).

Definition enabled (c : Config) (p : string) : bool := bool_decide (p ∈ EnablePatterns c).

(** The alerts of one scan, before the duplicates are dropped.  [ml] is the online scorer,
    [None] when there is none or it raises nothing. *)
Definition detect (ml : Snapshot -> TaintEngine -> option Alert) (a : Analyzer) (snap : Snapshot) (te : TaintEngine) : option (list Alert) :=
  let c := cfg a in
  deep ← (if enabled c PatDeepTaint then checkDeepTaint te (DeepTaintThreshold c) else Some []);
  Some ((if enabled c PatSensitiveExfil then checkSensitiveExfil seeds te else [])
     ++ (if enabled c PatScriptChild then checkScriptChild te else [])
     ++ deep
     ++ (if enabled c PatPrivEsc then checkPrivEsc te else [])
     ++ (if enabled c PatMemoryAnomaly then checkMemoryAnomaly te else [])
     ++ option_list (ml snap te)
     ++ sigma_alerts (sigmaRules a) snap).

Definition stamp (al : Alert) (t : time) : Alert := mkAlert (Pattern al) (Severity al) (Headline al) (AlertNodeID al) t (Subgraph al).

(** The send does not block: an alert that finds the channel full stays in the list only. *)
Definition publish (al : Alert) (a : Analyzer) : Analyzer :=
  mkAnalyzer (cfg a) (alerts a ++ [al]) (if (length (AlertCh a) <? alert_cap)%nat then AlertCh a ++ [al] else AlertCh a) (sigmaRules a).

(** [clock i] is the time read for the [i]-th alert. *)
Fixpoint emit (clock : nat -> time) (te : TaintEngine) (seen : gset string) (i : nat) (l : list Alert) (a : Analyzer) : option Analyzer :=
  match l with
  | [] => Some a
  | al :: l =>
      al ← ExtractSubgraph te (stamp al (clock i));
      if decide (alert_key al ∈ seen) then emit clock te seen (S i) l a
      else emit clock te ({[alert_key al]} ∪ seen) (S i) l (publish al a)
  end.

Definition scan (ml : Snapshot -> TaintEngine -> option Alert) (clock : nat -> time) (g : Graph) (a : Analyzer) : option Analyzer :=
  if (Nodes_count (Stats g) =? 0)%nat then Some a
  else
    let snap := SnapshotFromGraph 11 g in
    te ← NewTaintEngine seeds snap;
    l ← detect ml a snap te;
    emit clock te ∅ 0 l a.
End scan.

(** ** What a scan reports *)

Definition raises (l : list Alert) (p id : string) : Prop := exists al, al ∈ l /\ Pattern al = p /\ AlertNodeID al = id.

Lemma raises_app l1 l2 p id : raises (l1 ++ l2) p id <-> raises l1 p id \/ raises l2 p id.
Proof. unfold raises. setoid_rewrite elem_of_app. naive_solver. Qed.

Lemma raises_nil p id : raises [] p id <-> False.
Proof. unfold raises. setoid_rewrite elem_of_nil. naive_solver. Qed.

Lemma raises_if (b : bool) l p id : raises (if b then l else []) p id <-> b = true /\ raises l p id.
Proof. destruct b; [naive_solver|]. rewrite raises_nil. naive_solver. Qed.

Lemma raises_each (f : string -> option Alert) ks p p' id :
  (forall k al, f k = Some al -> Pattern al = p /\ AlertNodeID al = k) ->
  raises (omap f ks) p' id <-> p' = p /\ id ∈ ks /\ is_Some (f id).
Proof.
  intros Hf. unfold raises. setoid_rewrite list_elem_of_omap. split.
  - intros (al & (k & Hk & Hal) & <- & <-). destruct (Hf k al Hal) as [-> ->]. split_and!; [done|done|by exists al].
  - intros (-> & Hid & [al Hal]). exists al. split; [by exists id|]. by apply Hf in Hal.
Qed.

Section spec.
Context {UC : UnicodeCase} {MO : MapOrder} (seeds : Seeds) (snap : Snapshot) (T : gmap string TaintNode).

Definition node_at (id : string) : option Node.t := index_nodes (snap_nodes snap) !! id.
Definition process_at (id : string) : Prop := exists n, node_at id = Some n /\ Node.Subtype n = "process".

Abbreviation te := (set_tainted (indexed snap) T).

Lemma is_process_spec id : is_process te id = true <-> process_at id.
Proof.
  unfold is_process, process_at, node_at. simpl. destruct (index_nodes _ !! id) as [n|]; [|naive_solver].
  rewrite String.eqb_eq. naive_solver.
Qed.

Lemma forward_elem e u : e ∈ at_key (forward te) u <-> e ∈ snap_edges snap /\ Edge.Source e = u.
Proof. simpl. rewrite at_key_index, list_elem_of_filter. naive_solver. Qed.
Lemma reverse_elem e u : e ∈ at_key (reverse te) u <-> e ∈ snap_edges snap /\ Edge.Target e = u.
Proof. simpl. rewrite at_key_index, list_elem_of_filter. naive_solver. Qed.

Lemma processes_elem k id : id ∈ TaintedProcesses k te <-> is_Some (T !! id) /\ process_at id.
Proof. unfold TaintedProcesses. rewrite list_elem_of_filter, keys_elem, is_process_spec. simpl. naive_solver. Qed.

(** A process with one target of each kind. *)
Definition reaches (id : string) (p : Node.t -> bool) : Prop :=
  exists e n, e ∈ snap_edges snap /\ Edge.Source e = id /\ node_at (Edge.Target e) = Some n /\ p n = true.

Lemma target_labels_spec id p : target_labels te id p <> [] <-> reaches id p.
Proof.
  unfold target_labels, reaches. split.
  - intros H. destruct (omap _ _) as [|x l] eqn:E; [done|]. assert (x ∈ x :: l) as Hx by left. rewrite <-E in Hx.
    apply list_elem_of_omap in Hx as (e & He%forward_elem & Hx). exists e. simpl in Hx. unfold node_at.
    destruct (index_nodes _ !! Edge.Target e) as [n|]; [|done]. simpl in Hx. destruct (p n) eqn:Hp; [|done]. exists n. naive_solver.
  - intros (e & n & He & <- & Hn & Hp) Hnil.
    assert (Node.Label n ∈ omap (fun e => n ← te_nodes te !! Edge.Target e; if p n then Some (Node.Label n) else None) (at_key (forward te) (Edge.Source e))) as Hx.
    { apply list_elem_of_omap. exists e. split; [by apply forward_elem|]. simpl. unfold node_at in Hn. rewrite Hn. simpl. by rewrite Hp. }
    rewrite Hnil in Hx. by apply elem_of_nil in Hx.
Qed.

Lemma exfil_spec p id : raises (checkSensitiveExfil seeds te) p id <->
  p = PatSensitiveExfil /\ process_at id /\ (exists t, T !! id = Some t /\ TaintMedium <= Level t) /\
  reaches id (sensitive_file seeds) /\ reaches id network_node.
Proof.
  unfold checkSensitiveExfil. rewrite (raises_each _ _ PatSensitiveExfil).
  2:{ intros k al. unfold Tainted. simpl. destruct (T !! k); simpl; [|done]. repeat case_match; intros; simplify_eq; done. }
  rewrite processes_elem, <-!target_labels_spec. unfold Tainted. simpl. destruct (T !! id) as [t|]; simpl.
  - destruct (Z.ltb_spec (Level t) TaintMedium); [split; [by intros (_ & _ & [? ?])|intros (_ & _ & (? & [= <-] & ?) & _); lia]|].
    destruct (target_labels _ _ (sensitive_file seeds)), (target_labels _ _ network_node); naive_solver.
  - split; [by intros (_ & [[? ?] _] & _)|by intros (_ & _ & (? & ? & _) & _)].
Qed.

Lemma deep_spec p id threshold : (forall v, exists path, PropagationPath te v = Some path) ->
  exists l, checkDeepTaint te threshold = Some l /\
    (raises l p id <-> p = PatDeepTaint /\ process_at id /\ exists t, T !! id = Some t /\ threshold <= Depth t).
Proof.
  intros Htot. unfold checkDeepTaint.
  set (f := fun id => match deep_alert te threshold id with Some r => r | None => None end).
  assert (forall k, deep_alert te threshold k = Some (f k)) as Hf.
  { intros k. unfold f. destruct (deep_alert te threshold k) eqn:E; [done|]. unfold deep_alert, deep_headline in E. simpl in E.
    destruct (Htot k) as [path Hp]. rewrite Hp in E. repeat case_match; done. }
  rewrite (mapM_Some_2 _ _ (f <$> keys 4 T)) by (apply Forall2_fmap_r, Forall_Forall2_diag, Forall_forall; intros; apply Hf).
  simpl. eexists. split; [done|]. assert (omap Datatypes.id (f <$> keys 4 T) = omap f (keys 4 T)) as ->.
  { generalize (keys 4 T). intros ks. induction ks as [|k ks IH]; [done|]. rewrite fmap_cons. cbn -[f]. destruct (f k); simpl; by rewrite <-IH. }
  rewrite (raises_each _ _ PatDeepTaint).
  2:{ intros k al Hk. pose proof (Hf k) as H. rewrite Hk in H. unfold deep_alert in H. simpl in H. destruct (T !! k); [|done].
      case_match; [done|]. destruct (index_nodes _ !! k); [|done]. case_match; [done|].
      destruct (deep_headline _ _ _ _); simpl in H; [|done]. by simplify_eq. }
  rewrite keys_elem. pose proof (Hf id) as H. unfold deep_alert in H. simpl in H. unfold process_at, node_at.
  destruct (T !! id) as [t|].
  - destruct (Z.ltb_spec (Depth t) threshold); [injection H as <-; split; [by intros (_ & _ & [? ?])|intros (_ & _ & ? & [= <-] & ?); lia]|].
    destruct (index_nodes _ !! id) as [n|]; [|injection H as <-; split; [by intros (_ & _ & [? ?])|by intros (_ & (? & ? & _) & _)]].
    destruct (String.eqb_spec (Node.Subtype n) "process") as [E|E]; simpl in H.
    + destruct (deep_headline _ _ _ _); simpl in H; [|done]. injection H as <-. split; [intros (-> & _); eauto 10|intros (-> & _); eauto].
    + injection H as <-. split; [by intros (_ & _ & [? ?])|intros (_ & (? & ? & ?) & _); by simplify_eq].
  - injection H as <-. split; [by intros (_ & _ & [? ?])|by intros (_ & _ & ? & ? & _)].
Qed.

Lemma priv_spec p id : raises (checkPrivEsc te) p id <->
  p = PatPrivEsc /\ (exists n, node_at id = Some n /\ Node.Subtype n = "process" /\ Node.Attributes n !! "setuid" = Some (ABool true)) /\
  exists t, T !! id = Some t /\ TaintMedium <= Level t.
Proof.
  unfold checkPrivEsc. rewrite (raises_each _ _ PatPrivEsc).
  2:{ intros k al. simpl. destruct (T !! k); simpl; [|done]. case_match; [done|]. destruct (index_nodes _ !! k); simpl; [|done].
      repeat case_match; intros; by simplify_eq. }
  rewrite keys_elem. simpl. unfold node_at. destruct (T !! id) as [t|]; simpl; [|split; [by intros (_ & _ & [? ?])|by intros (_ & _ & ? & ? & _)]].
  destruct (Z.ltb_spec (Level t) TaintMedium); [split; [by intros (_ & _ & [? ?])|intros (_ & _ & ? & [= <-] & ?); lia]|].
  destruct (index_nodes _ !! id) as [n|]; simpl; [|split; [by intros (_ & _ & [? ?])|by intros (_ & (? & ? & _) & _)]].
  destruct (String.eqb_spec (Node.Subtype n) "process") as [E|E]; simpl; [|split; [by intros (_ & _ & [? ?])|intros (_ & (? & ? & ? & _) & _); by simplify_eq]].
  unfold attr_true. destruct (Node.Attributes n !! "setuid") as [[ | | |[]]|] eqn:Ea; simpl;
    (split; [intros (-> & _ & [? ?]); simplify_eq; eauto 10|intros (-> & (? & ? & ? & ?) & _); simplify_eq; eauto]).
Qed.

(** Any of the marks the memory probes leave on a process. *)
Definition memory_marked (n : Node.t) : Prop :=
  attr_true n "shellcode" = true \/ attr_true n "fileless" = true \/ attr_is n "memory_op" "mprotect_rx" = true \/
  attr_is n "memory_op" "memfd_create" = true \/ attr_true n "pipe_reader" = true \/ attr_true n "pipe_writer" = true.

Lemma memory_reasons_spec n : (memory_reasons n).1 <> [] <-> memory_marked n.
Proof.
  unfold memory_reasons, memory_marked.
  destruct (attr_true n "shellcode"), (attr_true n "fileless"), (attr_is n "memory_op" "mprotect_rx"),
    (attr_is n "memory_op" "memfd_create"), (attr_true n "pipe_reader"), (attr_true n "pipe_writer"); simpl; naive_solver.
Qed.

Lemma memory_spec p id : raises (checkMemoryAnomaly te) p id <->
  p = PatMemoryAnomaly /\ is_Some (T !! id) /\ exists n, node_at id = Some n /\ Node.Subtype n = "process" /\ memory_marked n.
Proof.
  unfold checkMemoryAnomaly. rewrite (raises_each _ _ PatMemoryAnomaly).
  2:{ intros k al. unfold Tainted. simpl. destruct (T !! k); simpl; [|done]. destruct (index_nodes _ !! k); simpl; [|done].
      destruct (memory_reasons _) as [[|r rs] sev]; intros; by simplify_eq. }
  rewrite processes_elem. unfold Tainted, process_at, node_at. simpl.
  destruct (T !! id) as [t|]; simpl; [|split; [by intros (_ & [[? ?] _] & _)|by intros (_ & [? ?] & _)]].
  destruct (index_nodes _ !! id) as [n|]; simpl; [|split; [by intros (_ & _ & [? ?])|by intros (_ & _ & ? & ? & _)]].
  setoid_rewrite <-memory_reasons_spec. destruct (memory_reasons n) as [[|r rs] sev] eqn:E; simpl.
  - split; [by intros (_ & _ & [? ?])|intros (_ & _ & ? & ? & _ & Hm); simplify_eq; by rewrite E in Hm].
  - split; [intros (-> & [_ (? & [= <-] & ?)] & _); split_and!; [done|done|]; exists n; rewrite E; done|].
    intros (-> & ? & ? & ? & ? & _). simplify_eq. eauto 10.
Qed.

(** [f] was written by the tainted process [w]. *)
Definition wrote (w f : string) : Prop :=
  (exists t, T !! w = Some t /\ TaintLow <= Level t) /\ process_at w /\
  exists e n, e ∈ snap_edges snap /\ Edge.Relation e = ProvWasGeneratedBy /\ Edge.Source e = f /\ Edge.Target e = w /\
    node_at f = Some n /\ Node.Subtype n = "file".

Lemma fold_dom {A B} (step : gmap string B -> A -> gmap string B) (adds : A -> string -> Prop) l m k :
  (forall m x, is_Some (step m x !! k) <-> is_Some (m !! k) \/ adds x k) ->
  is_Some (foldl step m l !! k) <-> is_Some (m !! k) \/ exists x, x ∈ l /\ adds x k.
Proof.
  intros Hs. revert m. induction l as [|x l IH]; intros m; simpl; [setoid_rewrite elem_of_nil; naive_solver|].
  rewrite IH, Hs. setoid_rewrite elem_of_cons. naive_solver.
Qed.

Lemma written_step_dom m w f : is_Some (written_step te m w !! f) <-> is_Some (m !! f) \/ wrote w f.
Proof.
  unfold written_step, wrote. simpl. destruct (T !! w) as [t|]; [|naive_solver].
  destruct (Z.ltb_spec (Level t) TaintLow); [split; [naive_solver|intros [?|((? & [= <-] & ?) & _)]; [done|lia]]|].
  pose proof (is_process_spec w) as Hp. destruct (is_process te w); [|naive_solver].
  erewrite (fold_dom _ (fun e f => Edge.Relation e = ProvWasGeneratedBy /\ Edge.Source e = f /\ exists n, node_at f = Some n /\ Node.Subtype n = "file")).
  - setoid_rewrite reverse_elem. naive_solver.
  - intros m' e. destruct (String.eqb_spec (Edge.Relation e) ProvWasGeneratedBy) as [Hr|Hr]; simpl; [|naive_solver].
    unfold node_at. destruct (index_nodes _ !! Edge.Source e) as [n|] eqn:En.
    + pose proof (proj2 (index_nodes_elem _ _ _ En)) as Hid. destruct (String.eqb_spec (Node.Subtype n) "file") as [Ef|Ef].
      * rewrite Hid, lookup_insert_is_Some'. naive_solver.
      * split; [naive_solver|]. intros [?|(_ & <- & ? & ? & ?)]; [done|]. by simplify_eq.
    + split; [naive_solver|]. intros [?|(_ & <- & ? & ? & ?)]; [done|]. by simplify_eq.
Qed.

Lemma written_dom f : is_Some (writtenByTaint te !! f) <-> exists w, wrote w f.
Proof.
  unfold writtenByTaint. rewrite (fold_dom _ wrote) by (intros; apply written_step_dom). rewrite lookup_empty. setoid_rewrite keys_elem. simpl.
  split; [intros [[? ?]|(w & _ & ?)]; [done|by exists w]|]. intros (w & Hw). right. exists w. split; [|done].
  destruct Hw as ((t & -> & _) & _). by eexists.
Qed.

Lemma script_spec p id : raises (checkScriptChild te) p id <->
  p = PatScriptChild /\ process_at id /\ exists w f e, wrote w f /\ e ∈ snap_edges snap /\ Edge.Relation e = ProvUsed /\
    Edge.Source e = id /\ Edge.Target e = f.
Proof.
  unfold raises, checkScriptChild. setoid_rewrite list_elem_of_In. setoid_rewrite in_concat. split.
  - intros (al & (l & Hl & Hal) & <- & <-). apply list_elem_of_In, list_elem_of_fmap in Hl as (f & -> & Hf%keys_elem%written_dom).
    destruct Hf as [w Hw]. apply list_elem_of_In, list_elem_of_omap in Hal as (e & [He Ht]%reverse_elem & Hal).
    destruct (String.eqb_spec (Edge.Relation e) ProvUsed) as [Hr|]; simpl in Hal; [|done].
    destruct (index_nodes _ !! Edge.Source e) as [n|] eqn:En; simpl in Hal; [|done].
    destruct (String.eqb_spec (Node.Subtype n) "process") as [Hn|]; simpl in Hal; [|done]. injection Hal as <-. simpl.
    pose proof (proj2 (index_nodes_elem _ _ _ En)) as Hid. rewrite Hid. split; [done|]. split; [by exists n|]. exists w, f, e. split; [done|]. by rewrite <-list_elem_of_In.
  - intros (-> & (n & Hn & Hp) & w & f & e & Hw & He & Hr & <- & <-). unfold node_at in Hn. pose proof (proj2 (index_nodes_elem _ _ _ Hn)) as Hid.
    eexists (raised PatScriptChild SeverityCritical _ (Node.ID n)). split; [|split; [|exact Hid]].
    + eexists. split.
      * apply list_elem_of_In, list_elem_of_fmap. exists (Edge.Target e). split; [done|]. apply keys_elem, written_dom. by exists w.
      * apply list_elem_of_In, list_elem_of_omap. exists e. split; [apply reverse_elem; rewrite list_elem_of_In; done|].
        rewrite Hr. simpl. rewrite Hn. simpl. rewrite Hp. simpl. done.
    + done.
Qed.

(** Every match of a rule has a first node. *)
Lemma rule_nonempty rule ns es m : m ∈ EvaluateRule rule ns es -> exists n l, m = n :: l.
Proof.
  unfold EvaluateRule, matchProcess, matchFileAccess, matchNetwork, matchGeneric, match_edge.
  destruct (Selections (Detect rule)); repeat case_match; try (by intros ?%elem_of_nil);
    rewrite list_elem_of_omap; intros (? & _ & ?); repeat case_match; simplify_eq; eauto.
Qed.

Lemma sigma_spec rules p id : raises (sigma_alerts rules snap) p id <->
  exists rid rule m, rules !! rid = Some rule /\ p = "SIGMA:" +:+ rid /\ (id :: m) ∈ EvaluateRule rule (snap_nodes snap) (snap_edges snap).
Proof.
  unfold raises, sigma_alerts. split.
  - intros (al & Hal & <- & <-). apply list_elem_of_In, in_concat in Hal as (l & Hl & Hal).
    apply list_elem_of_In, list_elem_of_fmap in Hl as (rid & -> & _). destruct (rules !! rid) as [rule|] eqn:Er; [|done].
    apply list_elem_of_In, list_elem_of_omap in Hal as (m & Hm & Hal). destruct m as [|n m]; [done|]. injection Hal as <-. by exists rid, rule, m.
  - intros (rid & rule & m & Hr & -> & Hm).
    eexists (raised ("SIGMA:" +:+ rid) (sigmaLevelToSeverity (Sigma.Level rule)) _ id). split; [|done].
    apply list_elem_of_In, in_concat. eexists. split.
    + apply list_elem_of_In, list_elem_of_fmap. exists rid. split; [done|]. apply keys_elem. by exists rule.
    + rewrite Hr. apply list_elem_of_In, list_elem_of_omap. by exists (id :: m).
Qed.

(** When a pattern, the scorer or a rule asks for an alert at a node. *)
Inductive fires (c : Config) (rules : gmap string Rule) (ml : option Alert) : string -> string -> Prop :=
| fires_exfil id t : PatSensitiveExfil ∈ EnablePatterns c -> process_at id -> T !! id = Some t -> TaintMedium <= Level t ->
    reaches id (sensitive_file seeds) -> reaches id network_node -> fires c rules ml PatSensitiveExfil id
| fires_script w f e : PatScriptChild ∈ EnablePatterns c -> process_at (Edge.Source e) -> wrote w f -> e ∈ snap_edges snap ->
    Edge.Relation e = ProvUsed -> Edge.Target e = f -> fires c rules ml PatScriptChild (Edge.Source e)
| fires_deep id t : PatDeepTaint ∈ EnablePatterns c -> process_at id -> T !! id = Some t -> DeepTaintThreshold c <= Depth t ->
    fires c rules ml PatDeepTaint id
| fires_priv id n t : PatPrivEsc ∈ EnablePatterns c -> node_at id = Some n -> Node.Subtype n = "process" ->
    Node.Attributes n !! "setuid" = Some (ABool true) -> T !! id = Some t -> TaintMedium <= Level t -> fires c rules ml PatPrivEsc id
| fires_memory id n : PatMemoryAnomaly ∈ EnablePatterns c -> node_at id = Some n -> Node.Subtype n = "process" -> memory_marked n ->
    is_Some (T !! id) -> fires c rules ml PatMemoryAnomaly id
| fires_ml al : ml = Some al -> fires c rules ml (Pattern al) (AlertNodeID al)
| fires_sigma rid rule id m : rules !! rid = Some rule -> (id :: m) ∈ EvaluateRule rule (snap_nodes snap) (snap_edges snap) ->
    fires c rules ml ("SIGMA:" +:+ rid) id.

Lemma raises_option o p id : raises (option_list o) p id <-> exists al, o = Some al /\ p = Pattern al /\ id = AlertNodeID al.
Proof.
  destruct o as [al|]; simpl; [|rewrite raises_nil; naive_solver]. unfold raises. setoid_rewrite list_elem_of_singleton. naive_solver.
Qed.

Lemma detect_spec ml a p id : (forall v, exists path, PropagationPath te v = Some path) ->
  exists l, detect seeds ml a snap te = Some l /\ (raises l p id <-> fires (cfg a) (sigmaRules a) (ml snap te) p id).
Proof.
  intros Htot. unfold detect. destruct (deep_spec p id (DeepTaintThreshold (cfg a)) Htot) as (deep & Hd & Hdeep).
  assert (exists l, (if enabled (cfg a) PatDeepTaint then checkDeepTaint te (DeepTaintThreshold (cfg a)) else Some []) = Some l /\
            (raises l p id <-> enabled (cfg a) PatDeepTaint = true /\ raises deep p id)) as (l & -> & Hl).
  { destruct (enabled _ _); [exists deep; naive_solver|]. exists []. rewrite raises_nil. naive_solver. }
  simpl. eexists. split; [done|]. rewrite !raises_app, !raises_if, Hl, Hdeep, exfil_spec, script_spec, priv_spec, memory_spec, sigma_spec, raises_option.
  unfold enabled. rewrite !bool_decide_eq_true. clear. split.
  - intros [H|[H|[H|[H|[H|[H|H]]]]]]; destruct_and?; subst; naive_solver eauto using fires.
  - destruct 1; naive_solver eauto.
Qed.
End spec.

(** ** Publication *)

Section emission.
Context {UC : UnicodeCase} {MO : MapOrder} (seeds : Seeds).

Lemma extract_keeps te a a' : ExtractSubgraph te a = Some a' -> Pattern a' = Pattern a /\ AlertNodeID a' = AlertNodeID a.
Proof. unfold ExtractSubgraph. intros H. destruct (PropagationPath _ _); simpl in H; [|done]. by simplify_eq. Qed.

Lemma emit_spec clock te l : (forall v, exists path, PropagationPath te v = Some path) -> forall seen i a,
  exists a' new, emit clock te seen i l a = Some a' /\ alerts a' = alerts a ++ new /\
    AlertCh a' = AlertCh a ++ take (alert_cap - length (AlertCh a)) new /\ cfg a' = cfg a /\ sigmaRules a' = sigmaRules a /\
    NoDup (alert_key <$> new) /\ (forall k, k ∈ (alert_key <$> new) <-> (k ∉ seen) /\ k ∈ (alert_key <$> l)) /\
    (forall al, al ∈ new -> exists al0 j, al0 ∈ l /\ ExtractSubgraph te (stamp al0 (clock j)) = Some al).
Proof.
  intros Htot. induction l as [|al l IH]; intros seen i a.
  - exists a, []. simpl. rewrite take_nil, !app_nil_r. split_and!; try done; [apply NoDup_nil_2|intros k; rewrite elem_of_nil; naive_solver|].
    by intros ? ?%elem_of_nil.
  - destruct (Htot (AlertNodeID al)) as [path Hpath].
    destruct (ExtractSubgraph te (stamp al (clock i))) as [al'|] eqn:Ex; [|unfold ExtractSubgraph in Ex; simpl in Ex; by rewrite Hpath in Ex].
    cbn [emit]. rewrite Ex. simpl. destruct (extract_keeps _ _ _ Ex) as [Hp Hid].
    assert (alert_key al' = alert_key al) as Hk by (unfold alert_key; by rewrite Hp, Hid). rewrite Hk.
    destruct (decide (alert_key al ∈ seen)) as [Hs|Hs].
    + destruct (IH seen (S i) a) as (a' & new & -> & Ha & Hch & Hc & Hr & Hnd & Hkeys & Hev). exists a', new. split_and!; try done.
      * intros k. rewrite Hkeys, ?fmap_cons, elem_of_cons. naive_solver.
      * intros x Hx. destruct (Hev x Hx) as (al0 & j & ? & ?). exists al0, j. split; [by right|done].
    + destruct (IH ({[alert_key al]} ∪ seen) (S i) (publish al' a)) as (a' & new & -> & Ha & Hch & Hc & Hr & Hnd & Hkeys & Hev).
      exists a', (al' :: new). split_and!; try done.
      * rewrite Ha. simpl. by rewrite <-app_assoc.
      * rewrite Hch. simpl. case_match eqn:E.
        { apply Nat.ltb_lt in E. rewrite length_app, <-app_assoc. simpl.
          replace (alert_cap - length (AlertCh a))%nat with (S (alert_cap - (length (AlertCh a) + 1))) by lia. done. }
        { apply Nat.ltb_ge in E. by replace (alert_cap - length (AlertCh a))%nat with 0%nat by lia. }
      * rewrite fmap_cons. apply NoDup_cons. split; [|done]. rewrite Hkeys, Hk. set_solver.
      * intros k. rewrite ?fmap_cons, !elem_of_cons, Hkeys, Hk. destruct (decide (k = alert_key al)); set_solver.
      * intros x [->|Hx]%elem_of_cons; [exists al, i; split; [by left|done]|].
        destruct (Hev x Hx) as (al0 & j & ? & ?). exists al0, j. split; [by right|done].
Qed.

(** ** Evidence *)

Definition one_per_id (l : list Edge.t) : Prop := forall e1 e2, e1 ∈ l -> e2 ∈ l -> Edge.ID e1 = Edge.ID e2 -> e1 = e2.

Lemma once_elem l e : one_per_id l -> e ∈ (foldl addEdgeOnce (∅, []) l).2 <-> e ∈ l.
Proof.
  intros Hl. enough ((forall x, x ∈ (foldl addEdgeOnce (∅, []) l).2 <-> x ∈ l) /\
    (forall i, i ∈ (foldl addEdgeOnce (∅, []) l).1 <-> exists x, x ∈ l /\ Edge.ID x = i)) by naive_solver.
  clear e. induction l as [|e l IH] using rev_ind; [simpl; setoid_rewrite elem_of_nil; split; [done|set_solver]|].
  destruct IH as [IH1 IH2]; [intros ?? ? ?; apply Hl; rewrite elem_of_app; by left|]. rewrite foldl_app. simpl.
  destruct (foldl addEdgeOnce (∅, []) l) as [seen out]. simpl in *. case_decide as Hd; simpl.
  - destruct (proj1 (IH2 _) Hd) as (x & Hx & Hid).
    assert (e = x) as <- by (apply Hl; [rewrite elem_of_app; right; left|rewrite elem_of_app; by left|done]).
    split; [intros y; rewrite IH1|intros i; rewrite IH2]; setoid_rewrite elem_of_app; setoid_rewrite list_elem_of_singleton; naive_solver.
  - split; [intros y; rewrite elem_of_app, list_elem_of_singleton, IH1|intros i; rewrite elem_of_union, elem_of_singleton, IH2];
      setoid_rewrite elem_of_app; setoid_rewrite list_elem_of_singleton; naive_solver.
Qed.

Lemma addNode_elem te ids n : n ∈ (foldl (addNode te) (∅, []) ids).2 <-> exists id, id ∈ ids /\ te_nodes te !! id = Some n.
Proof.
  enough ((forall n, n ∈ (foldl (addNode te) (∅, []) ids).2 <-> exists id, id ∈ ids /\ te_nodes te !! id = Some n) /\
    (forall i, i ∈ (foldl (addNode te) (∅, []) ids).1 <-> i ∈ ids)) by naive_solver.
  clear n. induction ids as [|k ids [IH1 IH2]] using rev_ind; [simpl; setoid_rewrite elem_of_nil; set_solver|].
  rewrite foldl_app. simpl. destruct (foldl (addNode te) (∅, []) ids) as [seen out]. simpl in *. case_decide as Hd; simpl.
  - apply IH2 in Hd. split; [intros n; rewrite IH1|intros i; rewrite IH2]; setoid_rewrite elem_of_app; setoid_rewrite list_elem_of_singleton; naive_solver.
  - split; [|intros i; rewrite elem_of_union, elem_of_singleton, IH2, elem_of_app, list_elem_of_singleton; naive_solver].
    intros n. setoid_rewrite elem_of_app. setoid_rewrite list_elem_of_singleton. destruct (te_nodes te !! k) eqn:Ek.
    + rewrite elem_of_app, list_elem_of_singleton, IH1. naive_solver.
    + rewrite IH1. naive_solver.
Qed.

Lemma allEdges_elem snap T e : one_per_id (snap_edges snap) -> e ∈ allEdges (set_tainted (indexed snap) T) <-> e ∈ snap_edges snap.
Proof.
  intros H1. assert (forall x, x ∈ concat ((fun k => at_key (forward (set_tainted (indexed snap) T)) k) <$> keys 7 (forward (set_tainted (indexed snap) T)))
    <-> x ∈ snap_edges snap) as Hc.
  { intros x. rewrite list_elem_of_In, in_concat. split.
    - intros (l & Hl & Hx). apply list_elem_of_In, list_elem_of_fmap in Hl as (k & -> & _). by apply list_elem_of_In, forward_elem in Hx as [? _].
    - intros Hx. exists (at_key (forward (set_tainted (indexed snap) T)) (Edge.Source x)).
      assert (x ∈ at_key (forward (set_tainted (indexed snap) T)) (Edge.Source x)) as Hf by (by apply forward_elem).
      split; [|by apply list_elem_of_In]. apply list_elem_of_In, list_elem_of_fmap. exists (Edge.Source x). split; [done|].
      apply keys_elem. unfold at_key in Hf. destruct (forward _ !! Edge.Source x); [by eexists|by apply elem_of_nil in Hf]. }
  unfold allEdges. rewrite once_elem, Hc; [done|]. intros e1 e2 He1%Hc He2%Hc. by apply H1.
Qed.

(** The evidence of an alert: a path that starts at a seed when the node is tainted, the
    nodes on it and next to it, the edges that touch it. *)
Record evidence (snap : Snapshot) (te : TaintEngine) (id : string) (sg : AlertSubgraph) : Prop := {
  ev_node : sub_AlertNodeID sg = id;
  ev_path : match tainted te !! id with
            | Some t => exists s, trail snap s (PathNodeIDs sg) id /\ length (PathNodeIDs sg) = S (Z.to_nat (Depth t)) /\
                          seed_level seeds (indexed snap) s = Some (TaintEngine.Level t + Depth t)
            | None => PathNodeIDs sg = [id]
            end;
  ev_edges : forall e, e ∈ sub_edges sg <-> e ∈ snap_edges snap /\ (Edge.Source e ∈ PathNodeIDs sg \/ Edge.Target e ∈ PathNodeIDs sg);
  ev_nodes : forall n, n ∈ sub_nodes sg <-> exists i, node_at snap i = Some n /\ (i ∈ PathNodeIDs sg \/ exists u, u ∈ PathNodeIDs sg /\ adj snap u i);
}.

Lemma context_elem snap T path i : i ∈ context_of (set_tainted (indexed snap) T) path <-> (i ∉ path) /\ exists u, u ∈ path /\ adj snap u i.
Proof.
  unfold context_of. rewrite elem_of_difference, !elem_of_list_to_set, list_elem_of_In, in_concat.
  enough ((exists x, In x ((fun id => (Edge.Target <$> at_key (forward (set_tainted (indexed snap) T)) id) ++
             (Edge.Source <$> at_key (reverse (set_tainted (indexed snap) T)) id)) <$> path) /\ In i x) <-> exists u, u ∈ path /\ adj snap u i) by naive_solver.
  split.
  - intros (x & Hx & Hi). apply list_elem_of_In, list_elem_of_fmap in Hx as (u & -> & Hu). exists u. split; [done|].
    apply list_elem_of_In, elem_of_app in Hi as [Hi|Hi]; apply list_elem_of_fmap in Hi as (e & -> & He);
      [apply forward_elem in He|apply reverse_elem in He]; exists e; naive_solver.
  - intros (u & Hu & e & He & Hd). eexists. split; [apply list_elem_of_In, list_elem_of_fmap; by exists u|].
    apply list_elem_of_In, elem_of_app. rewrite !list_elem_of_fmap. setoid_rewrite forward_elem. setoid_rewrite reverse_elem. naive_solver.
Qed.

Lemma keepEdge_spec onPath context s t : keepEdge onPath context s t = true <-> s ∈ onPath \/ t ∈ onPath.
Proof. unfold keepEdge. rewrite !orb_true_iff, !andb_true_iff, !bool_decide_eq_true. naive_solver. Qed.

Lemma extract_evidence snap te a a' : named snap -> one_per_id (snap_edges snap) -> AlertNodeID a <> "" -> NewTaintEngine seeds snap = Some te ->
  ExtractSubgraph te a = Some a' -> exists sg, Subgraph a' = Some sg /\ evidence snap te (AlertNodeID a) sg.
Proof.
  intros Hn H1 Hid Hte Hx. destruct (engine_converges seeds snap) as (T & Hte' & _). rewrite Hte in Hte'. injection Hte' as ->.
  unfold ExtractSubgraph in Hx. destruct (PropagationPath _ (AlertNodeID a)) as [path|] eqn:Hp; [|done]. simpl in Hx. injection Hx as <-. simpl.
  eexists. split; [done|].
  assert (match T !! AlertNodeID a with
          | Some t => exists s, trail snap s path (AlertNodeID a) /\ length path = S (Z.to_nat (Depth t)) /\
                        seed_level seeds (indexed snap) s = Some (TaintEngine.Level t + Depth t)
          | None => path = [AlertNodeID a] end) as Hpath.
  { destruct (T !! AlertNodeID a) as [t|] eqn:Ht.
    - destruct (propagation_path seeds snap _ _ t Hn Hte Ht) as (p & s & Hp' & ?). rewrite Hp in Hp'. injection Hp' as ->. by exists s.
    - unfold PropagationPath in Hp. simpl in Hp. rewrite (proj2 (String.eqb_neq _ "") Hid), Ht in Hp. by injection Hp as <-. }
  assert (match path with [] => [AlertNodeID a] | _ => path end = path) as -> by (destruct path; [destruct (T !! _); naive_solver|done]).
  split; simpl; [done|exact Hpath| |].
  - intros e. rewrite once_elem.
    + rewrite list_elem_of_filter, allEdges_elem, keepEdge_spec, !elem_of_list_to_set by done. naive_solver.
    + intros e1 e2. rewrite !list_elem_of_filter, !allEdges_elem by done. intros [_ ?] [_ ?]. by apply H1.
  - intros n. rewrite addNode_elem. setoid_rewrite elem_of_app. setoid_rewrite elem_of_range. setoid_rewrite elem_of_elements.
    setoid_rewrite context_elem. unfold node_at. simpl. split.
    + intros (i & [Hi|[_ Hi]] & Hn'); exists i; naive_solver.
    + intros (i & Hn' & Hi). exists i. split; [|done]. destruct (decide (i ∈ path)); naive_solver.
Qed.

(** ** Scans of a graph *)

Lemma graph_named k g : wf g -> kinds_ok g -> named (SnapshotFromGraph k g).
Proof.
  intros Hw Hk. unfold named, universe. simpl. rewrite !elem_of_app, !list_elem_of_fmap.
  assert (forall n, nodes g !! "" = Some n -> False) as Hno by (intros n Hn; by destruct (Hk _ _ Hn)).
  intros [(n & Hn & Hin)|[(e & He & Hin)|(e & He & Hin)]].
  - rewrite elem_of_range, list_elem_of_fmap in Hin. destruct Hin as ([i m] & -> & Hm%elem_of_map_to_list). simpl in Hn.
    rewrite (wf_node_key g Hw _ _ Hm) in Hn. subst. by eapply Hno.
  - apply list_elem_of_omap in Hin as (i & _ & Hi). destruct (wf_edge_ends g Hw _ _ Hi) as [[n Hs] _]. rewrite <-He in Hs. by eapply Hno.
  - apply list_elem_of_omap in Hin as (i & _ & Hi). destruct (wf_edge_ends g Hw _ _ Hi) as [_ [n Hs]]. rewrite <-He in Hs. by eapply Hno.
Qed.

Lemma graph_one_per_id g : wf g -> one_per_id (Edges g).
Proof.
  intros Hw e1 e2 H1 H2 E. apply list_elem_of_omap in H1 as (i1 & _ & H1), H2 as (i2 & _ & H2).
  destruct (wf_edge_key g Hw _ _ H1) as [K1 _], (wf_edge_key g Hw _ _ H2) as [K2 _]. congruence.
Qed.

Lemma node_at_graph k g i : wf g -> node_at (SnapshotFromGraph k g) i = nodes g !! i.
Proof.
  intros Hw. unfold node_at. simpl.
  assert (forall n, n ∈ range k (map_to_list (nodes g)).*2 <-> nodes g !! Node.ID n = Some n) as Hin.
  { intros n. apply (lists_elem _ g n Hw). unfold lists. apply range_perm. }
  destruct (index_nodes _ !! i) as [n|] eqn:E.
  - apply index_nodes_elem in E as [Hn <-]. symmetry. by apply Hin.
  - destruct (nodes g !! i) as [n|] eqn:En; [|done]. exfalso. pose proof (wf_node_key g Hw _ _ En) as Hid.
    rewrite <-Hid in En. apply Hin in En. revert E. unfold index_nodes. clear -En Hid. revert En. generalize (range k (map_to_list (nodes g)).*2). intros l.
    induction l as [|m l IH] using rev_ind; [by intros ?%elem_of_nil|]. rewrite foldl_app, elem_of_app, list_elem_of_singleton. simpl.
    rewrite lookup_insert. case_decide; [done|]. intros [?| ->]; [by apply IH|done].
Qed.

(** The nodes an alert can name are nodes of the graph, unless the scorer makes one up. *)
Lemma fires_named k g T c rules ml p i : wf g -> kinds_ok g -> (forall al, ml = Some al -> AlertNodeID al <> "") ->
  fires seeds (SnapshotFromGraph k g) T c rules ml p i -> i <> "".
Proof.
  intros Hw Hk Hml Hf. assert (forall j n, node_at (SnapshotFromGraph k g) j = Some n -> j <> "") as Hn.
  { intros j n. rewrite (node_at_graph k g j Hw). intros Hj. by destruct (Hk _ _ Hj). }
  destruct Hf as [i t _ (n & ? & _)|w f e _ (n & ? & _)|i t _ (n & ? & _)|i n t _ ?|i n _ ?|al ?|rid rule i m Hr Hm]; try (by eapply Hn); [by apply Hml|].
  intros ->. assert (exists n, n ∈ snap_nodes (SnapshotFromGraph k g) /\ Node.ID n = "") as (n & Hin & Hid).
  { unfold EvaluateRule, matchProcess, matchFileAccess, matchNetwork, matchGeneric, match_edge, findNode in Hm.
    destruct (Selections (Detect rule)); repeat case_match; try (by apply elem_of_nil in Hm);
      apply list_elem_of_omap in Hm as (x & Hx & Hm); repeat case_match; simplify_eq; eauto;
      match goal with H : snd <$> list_find _ _ = Some ?n |- _ => exists n; split; [|done];
        destruct (list_find _ _) as [[? ?]|] eqn:El in H; simplify_eq/=; apply list_find_Some in El as (El & _); by eapply list_elem_of_lookup_2 end. }
  simpl in Hin. assert (nodes g !! Node.ID n = Some n) as Hx by (apply (lists_elem (range k (map_to_list (nodes g)).*2) g n Hw); [apply range_perm|done]).
  rewrite Hid in Hx. by destruct (Hk _ _ Hx).
Qed.


(** No history gives a network node, so the exfiltration pattern is silent on the graph
    the agent builds. *)
Lemma exfil_silent k now h T : checkSensitiveExfil seeds (set_tainted (indexed (SnapshotFromGraph k (run h (NewGraph now)))) T) = [].
Proof.
  destruct (checkSensitiveExfil _ _) as [|al l] eqn:E; [done|]. exfalso.
  destruct (proj1 (exfil_spec seeds (SnapshotFromGraph k (run h (NewGraph now))) T (Pattern al) (AlertNodeID al))) as (_ & _ & _ & _ & e & n & _ & _ & Hn & Hnet).
  { rewrite E. exists al. split; [left|done]. }
  rewrite node_at_graph in Hn by apply run_wf. apply (no_network _ _ _ (kinds_built now h) Hn). by apply String.eqb_eq in Hnet.
Qed.
End emission.

(** A web server writes a file that a shell then reads: two patterns see it, once each. *)
Definition ev_drop := ev EventFileModify 100 0 4242 0 "nginx" "/tmp/x".
Definition ev_run := ev EventProcessExec 200 0 4242 0 "sh" "/tmp/x".
Definition drop_history : history := [(no_start, ev_drop); (no_start, ev_run)].
Definition no_ml (_ : Snapshot) (_ : TaintEngine) : option Alert := None.
Definition shallow : Config := mkConfig 0 2 [PatScriptChild; PatDeepTaint; PatScriptChild] false.

Example drop_alerts :
  (fun a => (fun al => (alert_key al, Headline al, PathNodeIDs <$> Subgraph al)) <$> alerts a)
    <$> @scan ascii_case alternating_order default_seeds no_ml (fun _ => 7) (run drop_history (NewGraph unix_epoch)) (New [] (Some shallow))
  = Some [("SCRIPT_CHILD:p:200", "nginx wrote /tmp/x, then sh read it", Some ["p:100"; "f:4242:8:3#v2"; "p:200"]);
          ("DEEP_TAINT_CHAIN:p:200", "sh taint depth=2: nginx(p:100) -> /tmp/x(f:4242:8:3#v2) -> sh(p:200)", Some ["p:100"; "f:4242:8:3#v2"; "p:200"])].
Proof. vm_compute. reflexivity. Qed.

