(* ===== verification/PolicyCenter.v ===== *)
(** * The management server: policies, their publication and their acknowledgement

    Translates [internal/policy/mgmt/server.go] and [state_store.go]: policy updates, the
    draft, publication and rollback with their bundles on disk, telemetry reports, the
    acknowledgement of policies, and the state that survives a restart.  Agents are in
    [Fleet], the kernel maps in [Control], the rules in force in [Analyzer].

    Handlers run under the server's locks and are atomic here.  What the operating system,
    the database, the kernel and the YAML library return is an argument of the step; JSON
    coding is the class [MgmtJson].  Temporary files are not part of the disk: nothing reads
    them.  The state document is kept apart from the bundle files. *)
From S2P Require Import Prelude GoStrings GoSort GoText Sha256 ProvGraph TaintEngine Sigma Analyzer Control Fleet.
From Stdlib Require Import Ascii.

Open Scope Z_scope.

(** ** Data *)

Record PolicyRevision := mkRevision {
  Version : Z; State : string; Notes : string; UpdatedAt : time; PublishedAt : time; ActiveRules : Z;
  SigmaRuleIDs : list string; WhitelistCount : Z; TaintSourceCount : Z; DeploymentStatus : string;
  TargetGroup : string; TargetTag : string; TargetAgents : Z; AckedAgents : Z; PendingAgents : Z;
  BundlePath : string; BundleSHA256 : string;
}.

Record policyBundle := mkBundle {
  b_Version : Z; b_State : string; b_Notes : string; b_GeneratedAt : time; b_SigmaRules : gmap string string;
  b_WhitelistKeys : list string; b_TaintSources : list string;
}.

Record policyState := mkPolicy {
  current : PolicyRevision; draft : PolicyRevision; history : list PolicyRevision; nextVersion : Z;
  p_sigmaRules : gmap string string; whitelistKeys : gset string; taintSourceKeys : gset string;
}.

Record PolicyCenterSnapshot := mkCenter {
  pc_UpdatedAt : time; pc_Current : PolicyRevision; pc_Draft : PolicyRevision; pc_History : list PolicyRevision;
}.

Record telemetryStatus := mkTelemetry {
  ts_Reports : Z; ts_LastReportAt : time; ts_LastContentType : string; ts_LastAgentID : string; ts_Agents : agents;
}.

Record persistedPolicyState := mkPersistedPolicy {
  pp_Current : PolicyRevision; pp_Draft : PolicyRevision; pp_History : list PolicyRevision; pp_NextVersion : Z;
  pp_Bundle : policyBundle;
}.

Record persistedControlPlaneState := mkPersisted {
  ps_Agents : gmap string persistedAgentMetadata; ps_Fleet : agents; ps_Policy : persistedPolicyState;
  ps_SavedAt : time; ps_SchemaVersion : Z;
}.

(** The process: [seeds] are the global taint sources of the analyzer package. *)
Record Server := mkServer {
  config : ServerConfig; ctrl : option Controller; analyzer : option Analyzer; seeds : Seeds;
  telemetry : telemetryStatus; policy : policyState;
}.

Definition set_policy (p : policyState) (s : Server) : Server :=
  mkServer (config s) (ctrl s) (analyzer s) (seeds s) (telemetry s) p.
Definition set_telemetry (t : telemetryStatus) (s : Server) : Server :=
  mkServer (config s) (ctrl s) (analyzer s) (seeds s) t (policy s).
Definition set_agents (m : agents) (s : Server) : Server :=
  let t := telemetry s in
  set_telemetry (mkTelemetry (ts_Reports t) (ts_LastReportAt t) (ts_LastContentType t) (ts_LastAgentID t) m) s.
Definition set_analyzer (a : option Analyzer) (s : Server) : Server :=
  mkServer (config s) (ctrl s) a (seeds s) (telemetry s) (policy s).
Definition set_ctrl (c : option Controller) (s : Server) : Server :=
  mkServer (config s) c (analyzer s) (seeds s) (telemetry s) (policy s).
Definition set_seeds (sd : Seeds) (s : Server) : Server :=
  mkServer (config s) (ctrl s) (analyzer s) sd (telemetry s) (policy s).

(** Bundle files by path, and the document of the state backend. *)
Record Disk := mkDisk { files : gmap string string; state_doc : option string }.

(** ** What a step gets from outside *)

(** Outcomes of the calls that write a bundle. *)
Record bundle_calls := mkBundleCalls { bc_mkdir : option string; bc_write : option string; bc_rename : option string }.

(** Outcomes of the calls that save the state, in a file or in the database. *)
Record save_calls := mkSaveCalls {
  sv_mkdir : option string; sv_write : option string; sv_rename : option string;
  sv_open : option string; sv_table : option string; sv_exec : option string;
}.

(** [clock k] is the [k]-th reading of the clock; [e_kernel]: the outcome of the write to a
    kernel map; [e_proc]: the listing of [/proc]; [e_hot]: the iteration over hot paths;
    [e_load]: the error of reading the state, other than its absence. *)
Record env := mkEnv {
  clock : nat -> time; e_bundle : bundle_calls; e_save : save_calls; e_kernel : option string;
  e_proc : string + list proc_entry; e_hot : list (Z * option string); e_load : option string;
}.

(** ** JSON *)

Definition text_ok (s : string) : bool := valid_utf8 s.
Definition bundle_ok (b : policyBundle) : bool :=
  text_ok (b_State b) && text_ok (b_Notes b)
  && forallb (fun '(k, v) => text_ok k && text_ok v) (map_to_list (b_SigmaRules b))
  && forallb text_ok (b_WhitelistKeys b) && forallb text_ok (b_TaintSources b).
Definition revision_ok (r : PolicyRevision) : bool :=
  text_ok (State r) && text_ok (Notes r) && forallb text_ok (SigmaRuleIDs r) && text_ok (DeploymentStatus r)
  && text_ok (TargetGroup r) && text_ok (TargetTag r) && text_ok (BundlePath r) && text_ok (BundleSHA256 r).
Definition report_ok (r : HostReport) : bool :=
  forallb text_ok [Hostname r; OS r; OSVersion r; Kernel r; Architecture r; AgentVersion r; AttachmentMode r;
    LastAlertID r; LastAlertPattern r; LastAlertSeverity r; LastAlertHeadline r; LastAlertReason r].
Definition snapshot_ok (a : AgentTelemetrySnapshot) : bool :=
  forallb text_ok [AgentID a; Group a; Status a; StatusReason a; EnrollmentStatus a; EnrollmentNote a; CertFingerprint a]
  && forallb text_ok (Tags a) && report_ok (Report a).
Definition metadata_ok (m : persistedAgentMetadata) : bool :=
  forallb text_ok [m_Group m; m_EnrollmentStatus m; m_EnrollmentNote m; m_CertFingerprint m] && forallb text_ok (m_Tags m).
Definition persisted_ok (st : persistedControlPlaneState) : bool :=
  forallb (fun '(k, m) => text_ok k && metadata_ok m) (map_to_list (ps_Agents st))
  && forallb (fun '(k, a) => text_ok k && snapshot_ok a) (map_to_list (ps_Fleet st))
  && revision_ok (pp_Current (ps_Policy st)) && revision_ok (pp_Draft (ps_Policy st))
  && forallb revision_ok (pp_History (ps_Policy st)) && bundle_ok (pp_Bundle (ps_Policy st)).

(** [encoding/json] on the two documents: what is marshalled is read back when its texts are
    valid UTF-8 (other bytes are replaced).  [jsonb] is what the database returns for a
    document it stored: the same value, in its own spelling. *)
Class MgmtJson := {
  marshal_bundle : policyBundle -> option string;
  unmarshal_bundle : string -> option policyBundle;
  marshal_state : persistedControlPlaneState -> option string;
  unmarshal_state : string -> option persistedControlPlaneState;
  jsonb : string -> string;
  bundle_roundtrip : forall b d, bundle_ok b = true -> marshal_bundle b = Some d -> unmarshal_bundle d = Some b;
  state_roundtrip : forall st d, persisted_ok st = true -> marshal_state st = Some d -> unmarshal_state d = Some st;
  jsonb_value : forall d, unmarshal_state (jsonb d) = unmarshal_state d;
}.

Section center.
Context {UC : UnicodeCase} {MO : MapOrder} {SS : SortSlice} {J : MgmtJson}.
(** The YAML library on a rule, and [strconv.Quote]. *)
Context (yaml : string -> string + Rule) (quote : string -> string).

(** A copy: slices are not shared afterwards. *)
Definition clonePolicyRevision (r : PolicyRevision) : PolicyRevision := r.

(** ** Updates of a revision *)

Definition with_state (st : string) (r : PolicyRevision) : PolicyRevision :=
  mkRevision (Version r) st (Notes r) (UpdatedAt r) (PublishedAt r) (ActiveRules r) (SigmaRuleIDs r) (WhitelistCount r)
    (TaintSourceCount r) (DeploymentStatus r) (TargetGroup r) (TargetTag r) (TargetAgents r) (AckedAgents r) (PendingAgents r)
    (BundlePath r) (BundleSHA256 r).
Definition with_bundle (path hash : string) (r : PolicyRevision) : PolicyRevision :=
  mkRevision (Version r) (State r) (Notes r) (UpdatedAt r) (PublishedAt r) (ActiveRules r) (SigmaRuleIDs r) (WhitelistCount r)
    (TaintSourceCount r) (DeploymentStatus r) (TargetGroup r) (TargetTag r) (TargetAgents r) (AckedAgents r) (PendingAgents r)
    path hash.
Definition with_acks (acked pending : Z) (status : string) (r : PolicyRevision) : PolicyRevision :=
  mkRevision (Version r) (State r) (Notes r) (UpdatedAt r) (PublishedAt r) (ActiveRules r) (SigmaRuleIDs r) (WhitelistCount r)
    (TaintSourceCount r) status (TargetGroup r) (TargetTag r) (TargetAgents r) acked pending (BundlePath r) (BundleSHA256 r).

(** The fields [PublishPolicyFor] and [RollbackPolicyFor] set on their copy. *)
Definition stamped (version : Z) (st notes : string) (now : time) (f : FleetFilter) (targets : Z) (status : string) (r : PolicyRevision)
  : PolicyRevision :=
  mkRevision version st (TrimSpace notes) now now (ActiveRules r) (SigmaRuleIDs r) (WhitelistCount r)
    (TaintSourceCount r) status (TrimSpace (f_Group f)) (TrimSpace (f_Tag f)) targets 0 targets (BundlePath r) (BundleSHA256 r).

Definition set_revisions (cur dr : PolicyRevision) (h : list PolicyRevision) (next : Z) (p : policyState) : policyState :=
  mkPolicy cur dr h next (p_sigmaRules p) (whitelistKeys p) (taintSourceKeys p).
Definition set_rules (rules : gmap string string) (wl ts : gset string) (p : policyState) : policyState :=
  mkPolicy (current p) (draft p) (history p) (nextVersion p) rules wl ts.

(** ** The rules of the draft *)

Definition recordSigmaRule (id ruleYAML : string) (present : bool) (p : policyState) : policyState :=
  let id := TrimSpace id in
  if String.eqb id "" then p
  else set_rules (if present then <[id := ruleYAML]> (p_sigmaRules p) else delete id (p_sigmaRules p)) (whitelistKeys p) (taintSourceKeys p) p.
Definition recordWhitelistKey (key : string) (present : bool) (p : policyState) : policyState :=
  set_rules (p_sigmaRules p) (if present then {[key]} ∪ whitelistKeys p else whitelistKeys p ∖ {[key]}) (taintSourceKeys p) p.
Definition clearWhitelistKeys (p : policyState) : policyState := set_rules (p_sigmaRules p) ∅ (taintSourceKeys p) p.
Definition recordTaintSourceKey (key : string) (present : bool) (p : policyState) : policyState :=
  set_rules (p_sigmaRules p) (whitelistKeys p) (if present then {[key]} ∪ taintSourceKeys p else taintSourceKeys p ∖ {[key]}) p.

Definition refreshPolicyDraftLocked (now : time) (notes : string) (anz : option Analyzer) (p : policyState) : policyState :=
  let c := clonePolicyRevision (current p) in
  let ids := match anz with Some a => Analyzer.SigmaRuleIDs a | None => [] end in
  let d := mkRevision (Version c) "draft" (if blank notes then Notes c else TrimSpace notes) now (PublishedAt c)
             (Z.of_nat (length ids)) ids (Z.of_nat (size (whitelistKeys p))) (Z.of_nat (size (taintSourceKeys p)))
             (DeploymentStatus c) (TargetGroup c) (TargetTag c) (TargetAgents c) (AckedAgents c) (PendingAgents c)
             (BundlePath c) (BundleSHA256 c) in
  set_revisions (current p) d (history p) (nextVersion p) p.
Definition refreshPolicyDraft (now : time) (notes : string) (s : Server) : Server :=
  set_policy (refreshPolicyDraftLocked now notes (analyzer s) (policy s)) s.

Definition SetController (c : Controller) (s : Server) : Server := set_ctrl (Some c) s.
Definition SetAnalyzer (now : time) (a : Analyzer) (s : Server) : Server :=
  refreshPolicyDraft now "analyzer attached" (set_analyzer (Some a) s).

(** ** Policy updates *)

Inductive PolicyUpdate :=
  | UpWhitelist (action target value : string)
  | UpSigma (action ruleId ruleYaml : string)
  | UpTaintSource (action ipPrefix label : string)
  | UpNone.

Record PolicyAck := mkAck { Success : bool; Message : string; AppliedAt : time }.

(** A call of the controller that may fail, followed by a change of the policy. *)
Definition on_ctrl (r : Controller * option string) (failed ok : string) (f : policyState -> policyState) (s : Server) : Server * string :=
  match r with
  | (c, Some e) => (set_ctrl (Some c) s, failed +:+ e)
  | (c, None) => (set_ctrl (Some c) (set_policy (f (policy s)) s), ok)
  end.

Definition applyWhitelistUpdate (v : env) (action target value : string) (s : Server) : Server * string :=
  let unknown := (s, "unknown whitelist target " +:+ quote target +:+ " or action " +:+ quote action) in
  match ctrl s with
  | None => (s, "controller not available")
  | Some c =>
      if String.eqb target "pid" then
        match ParseUint32 value with
        | None => (s, "invalid pid " +:+ quote value)
        | Some pid =>
            if String.eqb action "add" then
              on_ctrl (ExcludePID (e_kernel v) pid c) "exclude pid failed: " ("PID " +:+ pretty pid +:+ " excluded")
                (recordWhitelistKey ("pid:" +:+ pretty pid) true) s
            else if String.eqb action "remove" then
              on_ctrl (UnExcludePID (e_kernel v) pid c) "unexclude pid failed: " ("PID " +:+ pretty pid +:+ " unexcluded")
                (recordWhitelistKey ("pid:" +:+ pretty pid) false) s
            else unknown
        end
      else if String.eqb target "comm" then
        if String.eqb action "add" then
          match ExcludeComms [value] (e_proc v) c with
          | (c, excluded, err) =>
              on_ctrl (c, err) "exclude comm failed: " ("comm " +:+ value +:+ " excluded (" +:+ pretty excluded +:+ " running process(es))")
                (recordWhitelistKey ("comm:" +:+ value) true) s
          end
        else if String.eqb action "remove" then
          (set_policy (recordWhitelistKey ("comm:" +:+ value) false (policy s)) s,
           "comm " +:+ value +:+ " removed from policy draft; running PIDs remain excluded until restart or explicit PID unexclude")
        else if String.eqb action "clear" then
          (set_policy (clearWhitelistKeys (policy s)) s, "comm whitelist metadata cleared")
        else unknown
      else if String.eqb target "path" then
        if String.eqb action "add" then
          on_ctrl (AddHotPath (e_kernel v) value c) "add hot path failed: " ("hot path " +:+ value +:+ " added")
            (recordWhitelistKey ("path:" +:+ value) true) s
        else if String.eqb action "remove" then
          on_ctrl (RemoveHotPath (e_kernel v) value c) "remove hot path failed: " ("hot path " +:+ value +:+ " removed")
            (recordWhitelistKey ("path:" +:+ value) false) s
        else if String.eqb action "clear" then
          on_ctrl (ClearHotPaths (e_hot v) c) "clear hot paths failed: " "all hot paths cleared" clearWhitelistKeys s
        else unknown
      else unknown
  end.

Definition show_rule_error (e : rule_error) : string :=
  match e with SigmaParse e => "sigma parse: " +:+ e | SigmaTitle => "sigma rule missing title" | NoRules => "" end.

Definition update_sigma (action ruleId ruleYaml : string) (s : Server) : Server * bool * string :=
  match analyzer s with
  | None => (s, true, "analyzer not available")
  | Some a =>
      if bool_decide (action ∈ ["add"; "update"]) then
        match ParseRule (yaml ruleYaml) with
        | inl e => (s, false, "parse error: " +:+ show_rule_error e)
        | inr r =>
            (set_policy (recordSigmaRule ruleId ruleYaml true (policy s)) (set_analyzer (Some (AddSigmaRule ruleId r a)) s),
             true, "sigma rule " +:+ ruleId +:+ " applied")
        end
      else if String.eqb action "remove" then
        (set_policy (recordSigmaRule ruleId "" false (policy s)) (set_analyzer (Some (RemoveSigmaRule ruleId a)) s),
         true, "sigma rule " +:+ ruleId +:+ " removed")
      else (s, false, "unknown action " +:+ quote action)
  end.

(** [None]: the untrusted names are a nil map and adding to it panics. *)
Definition update_taint (action ipPrefix label : string) (s : Server) : option (Server * bool * string) :=
  let key := if String.eqb label "" then ipPrefix else ipPrefix +:+ "|" +:+ label in
  if String.eqb action "add" then
    sd ← (if String.eqb label "" then Some (seeds s) else AddUntrustedComm label (seeds s));
    Some (set_policy (recordTaintSourceKey key true (policy s)) (set_seeds sd s), true,
      "taint source " +:+ ipPrefix +:+ " added (" +:+ (if String.eqb label "" then "no label)" else "label=" +:+ label +:+ ")"))
  else if String.eqb action "remove" then
    let sd := if String.eqb label "" then seeds s else RemoveUntrustedComm label (seeds s) in
    Some (set_policy (recordTaintSourceKey key false (policy s)) (set_seeds sd s), true,
      "taint source " +:+ ipPrefix +:+ " removed" +:+ (if String.eqb label "" then "" else " (label=" +:+ label +:+ ")"))
  else Some (s, false, "unknown taint action " +:+ quote action).

Definition UpdatePolicy (v : env) (u : PolicyUpdate) (s : Server) : option (Server * PolicyAck) :=
  '(s, ok, msg) ←
    match u with
    | UpWhitelist action target value => let '(s, msg) := applyWhitelistUpdate v action target value s in Some (s, true, msg)
    | UpSigma action id y => Some (update_sigma action id y s)
    | UpTaintSource action ip label => update_taint action ip label s
    | UpNone => Some (s, false, "unknown update type")
    end;
  Some (if (ok : bool) then refreshPolicyDraft (clock v 1) msg s else s, mkAck ok msg (clock v 0)).
(** ** Bundles *)

Definition string_less (a b : string) : bool := zlex_ltb (bytes_of_string a) (bytes_of_string b).
Definition sortedPolicyKeys (k : nat) (keys : gset string) : list string := sort_slice string_less (range k (elements keys)).

Definition keysToSet (keys : list string) : gset string :=
  foldl (fun out key => let key := TrimSpace key in if String.eqb key "" then out else {[key]} ∪ out) ∅ keys.

Definition buildPolicyBundleLocked (now : time) (r : PolicyRevision) (p : policyState) : policyBundle :=
  mkBundle (Version r) (State r) (TrimSpace (Notes r)) now (p_sigmaRules p)
    (sortedPolicyKeys 1 (whitelistKeys p)) (sortedPolicyKeys 2 (taintSourceKeys p)).

Definition applyPolicyBundleLocked (b : policyBundle) (p : policyState) : policyState :=
  set_rules (b_SigmaRules b) (keysToSet (b_WhitelistKeys b)) (keysToSet (b_TaintSources b)) p.

Definition sha_hex (data : string) : string := EncodeToString (Sum256 (bytes_of_string data)).
Definition bundle_name (version : Z) : string := "policy-v" +:+ pretty version +:+ ".json".

(** The path and the checksum, or the error, and the files. *)
Definition writePolicyBundle (v : env) (dir : string) (b : policyBundle) (fs : gmap string string)
  : (string + string * string) * gmap string string :=
  match marshal_bundle b with
  | None => (inl "encode policy bundle", fs)
  | Some data =>
      let hash := sha_hex data in
      if blank dir then (inr ("", hash), fs)
      else match bc_mkdir (e_bundle v), bc_write (e_bundle v), bc_rename (e_bundle v) with
           | Some e, _, _ => (inl ("create policy bundle dir: " +:+ e), fs)
           | _, Some e, _ => (inl ("write policy bundle: " +:+ e), fs)
           | _, _, Some e => (inl ("replace policy bundle: " +:+ e), fs)
           | None, None, None =>
               let path := filepath_Join dir (bundle_name (b_Version b)) in (inr (path, hash), <[path := data]> fs)
           end
  end.

Definition readPolicyBundleLocked (fs : gmap string string) (r : PolicyRevision) : string + policyBundle :=
  if blank (BundlePath r) then inl ("policy version " +:+ pretty (Version r) +:+ " has no bundle path")
  else match fs !! BundlePath r with
       | None => inl ("read policy bundle " +:+ BundlePath r)
       | Some data =>
           if negb (String.eqb (BundleSHA256 r) "") && negb (EqualFold (sha_hex data) (BundleSHA256 r))
           then inl ("policy bundle checksum mismatch for version " +:+ pretty (Version r))
           else match unmarshal_bundle data with None => inl "decode policy bundle" | Some b => inr b end
       end.

(** ** The saved state *)

Definition isPostgresStateBackend (value : string) : bool :=
  let t := ToLower (TrimSpace value) in HasPrefix t "postgres://" || HasPrefix t "postgresql://".

(** The first error among the calls, in the order they are made. *)
Definition first_error (l : list (option string)) : option string :=
  foldr (fun e acc => match e with Some _ => e | None => acc end) None l.

Definition loadPersistedControlPlaneState (v : env) (backend : string) (doc : option string)
  : string + option persistedControlPlaneState :=
  if blank backend then inr None
  else match e_load v, doc with
       | Some e, _ => inl e
       | None, None => inr None
       | None, Some data => match unmarshal_state data with None => inl "decode control-plane state" | Some st => inr (Some st) end
       end.

Definition savePersistedControlPlaneState (v : env) (backend : string) (st : persistedControlPlaneState) (doc : option string)
  : option string * option string :=
  if blank backend then (doc, None)
  else if isPostgresStateBackend backend then
    match first_error [sv_open (e_save v); sv_table (e_save v)], marshal_state st, sv_exec (e_save v) with
    | Some e, _, _ => (doc, Some e)
    | None, None, _ => (doc, Some "encode postgres control-plane state")
    | None, Some _, Some e => (doc, Some e)
    | None, Some data, None => (Some (jsonb data), None)
    end
  else
    match sv_mkdir (e_save v), marshal_state st, first_error [sv_write (e_save v); sv_rename (e_save v)] with
    | Some e, _, _ => (doc, Some e)
    | None, None, _ => (doc, Some "encode control-plane state")
    | None, Some _, Some e => (doc, Some e)
    | None, Some data, None => (Some data, None)
    end.

Definition persisted_snapshot (id : string) (a : AgentTelemetrySnapshot) : AgentTelemetrySnapshot :=
  with_cert (normalizeCertFingerprint (CertFingerprint a)) (with_id (firstNonEmpty [AgentID a; id]) a).
Definition persisted_metadata (a : AgentTelemetrySnapshot) : option persistedAgentMetadata :=
  if String.eqb (Group a) "" && bool_decide (Tags a = []) && String.eqb (EnrollmentStatus a) "" && String.eqb (EnrollmentNote a) ""
     && String.eqb (CertFingerprint a) ""
  then None
  else Some (mkMetadata (Group a) (Tags a) (EnrollmentStatus a) (EnrollmentNote a) (EnrollmentUpdatedAt a)
               (normalizeCertFingerprint (CertFingerprint a))).

Definition persisted_policy (now : time) (p : policyState) : persistedPolicyState :=
  mkPersistedPolicy (clonePolicyRevision (current p)) (clonePolicyRevision (draft p)) (clonePolicyRevision <$> history p)
    (nextVersion p) (buildPolicyBundleLocked now (current p) p).

(** The document [saveState] writes. *)
Definition persisted (v : env) (s : Server) : persistedControlPlaneState :=
  let fleet := map_imap (fun id a => Some (persisted_snapshot id a)) (ts_Agents (telemetry s)) in
  mkPersisted (omap persisted_metadata fleet) fleet (persisted_policy (clock v 11) (policy s)) (clock v 10) 1.

Definition saveState (v : env) (s : Server) (d : Disk) : Disk * option string :=
  if blank (StateFile (config s)) then (d, None)
  else let '(doc, err) := savePersistedControlPlaneState v (StateFile (config s)) (persisted v s) (state_doc d) in
       (mkDisk (files d) doc, err).

(** Most callers only log the error. *)
Definition save (v : env) (s : Server) (d : Disk) : Disk := (saveState v s d).1.

Definition load_snapshot (id : string) (a : AgentTelemetrySnapshot) : AgentTelemetrySnapshot :=
  let a := if String.eqb (AgentID a) "" then with_id id a else a in
  with_cert (normalizeCertFingerprint (CertFingerprint a)) (with_group (Group a) (dedupeTags (Tags a)) a).
Definition load_metadata (id : string) (m : persistedAgentMetadata) (a : AgentTelemetrySnapshot) : AgentTelemetrySnapshot :=
  let st := normalizeEnrollmentStatus (m_EnrollmentStatus m) in
  with_cert (normalizeCertFingerprint (m_CertFingerprint m))
    (with_enrollment (if String.eqb st "" then "pending" else st) (m_EnrollmentNote m) (m_EnrollmentUpdatedAt m)
      (with_group (m_Group m) (dedupeTags (m_Tags m)) (with_id id a))).

(** The agents after the two loops of [loadState]; each key is visited once per loop. *)
Definition load_agents (st : persistedControlPlaneState) (m : agents) : agents :=
  let m := map_imap (fun id a => Some (load_snapshot id a)) (ps_Fleet st) ∪ m in
  map_imap (fun id md => Some (load_metadata id md (agent_at m id))) (ps_Agents st) ∪ m.

Definition load_policy (pp : persistedPolicyState) (p : policyState) : policyState :=
  let cur := if 0 <? Version (pp_Current pp) then clonePolicyRevision (pp_Current pp) else current p in
  let dr := if 0 <? Version (pp_Draft pp) then clonePolicyRevision (pp_Draft pp) else draft p in
  let h := match pp_History pp with [] => history p | h => clonePolicyRevision <$> h end in
  let next := if 0 <? pp_NextVersion pp then pp_NextVersion pp else nextVersion p in
  let p := set_revisions cur dr h next p in
  let b := pp_Bundle pp in
  if (0 <? b_Version b) || negb (bool_decide (b_SigmaRules b = ∅)) || negb (bool_decide (b_WhitelistKeys b = []))
     || negb (bool_decide (b_TaintSources b = []))
  then applyPolicyBundleLocked b p else p.

Definition loadState (v : env) (d : Disk) (s : Server) : string + Server :=
  if blank (StateFile (config s)) then inr s
  else match loadPersistedControlPlaneState v (StateFile (config s)) (state_doc d) with
       | inl e => inl e
       | inr None => inr s
       | inr (Some st) => inr (set_policy (load_policy (ps_Policy st) (policy s)) (set_agents (load_agents st (ts_Agents (telemetry s))) s))
       end.

Definition at_version (version : Z) (f : PolicyRevision -> PolicyRevision) (h : list PolicyRevision) : list PolicyRevision :=
  (fun r => if Version r =? version then f r else r) <$> h.

Definition ensureCurrentPolicyBundle (v : env) (s : Server) (d : Disk) : Disk * (string + Server) :=
  let p := policy s in
  if Version (current p) <=? 0 then (d, inr s)
  else if negb (blank (BundlePath (current p))) && bool_decide (is_Some (files d !! BundlePath (current p))) then (d, inr s)
  else
    let cur := clonePolicyRevision (current p) in
    match writePolicyBundle v (PolicyBundleDir (config s)) (buildPolicyBundleLocked (clock v 9) cur p) (files d) with
    | (inl e, fs) => (mkDisk fs (state_doc d), inl e)
    | (inr (path, hash), fs) =>
        let s := set_policy (set_revisions (with_bundle path hash (current p)) (with_bundle path hash (draft p))
                   (at_version (Version cur) (with_bundle path hash) (history p)) (nextVersion p) p) s in
        let '(d, err) := saveState v s (mkDisk fs (state_doc d)) in
        (d, match err with Some e => inl e | None => inr s end)
    end.

(** A start; [sd]: the taint sources of the new process. *)
Definition initialPolicy (started : time) : PolicyRevision :=
  mkRevision 1 "published" "" started started 0 [] 0 0 "local_applied" "" "" 0 0 0 "" "".
Definition fresh (started : time) (c : ServerConfig) (sd : Seeds) : Server :=
  mkServer c None None sd (mkTelemetry 0 time_zero "" "" ∅)
    (mkPolicy (initialPolicy started) (with_state "draft" (clonePolicyRevision (initialPolicy started)))
      [clonePolicyRevision (initialPolicy started)] 2 ∅ ∅ ∅).

Definition NewServer (v : env) (cfg : option ServerConfig) (sd : Seeds) (d : Disk) : Disk * (string + Server) :=
  let c := normalizeAgentMonitorConfig (default DefaultServerConfig cfg) in
  match loadState v d (fresh (clock v 0) c sd) with
  | inl e => (d, inl e)
  | inr s => ensureCurrentPolicyBundle v s d
  end.
(** ** Publication and rollback *)

Definition PolicyCenter (s : Server) : PolicyCenterSnapshot :=
  let p := policy s in
  mkCenter (UpdatedAt (draft p)) (clonePolicyRevision (current p)) (clonePolicyRevision (draft p)) (clonePolicyRevision <$> history p).

(** The bundle of a revision is written, and the revision becomes the current one. *)
Definition install (v : env) (r : PolicyRevision) (p : policyState) (s : Server) (d : Disk) : PolicyRevision * Server * Disk :=
  let '(res, fs) := writePolicyBundle v (PolicyBundleDir (config s)) (buildPolicyBundleLocked (clock v 4) r p) (files d) in
  let r := match res with inl _ => r | inr (path, hash) => with_bundle path hash r end in
  let p := set_revisions (clonePolicyRevision r) (with_state "draft" (clonePolicyRevision r)) (history p ++ [clonePolicyRevision r])
             (nextVersion p + 1) p in
  let s := set_policy p s in
  (clonePolicyRevision r, s, save v s (mkDisk fs (state_doc d))).

Definition PublishPolicyFor (v : env) (notes : string) (f : FleetFilter) (s : Server) (d : Disk) : PolicyRevision * Server * Disk :=
  let targets := policyTargetAgentCount f (ts_Agents (telemetry s)) in
  let p := refreshPolicyDraftLocked (clock v 2) notes (analyzer s) (policy s) in
  let published := stamped (nextVersion p) "published" notes (clock v 3) f targets
                     (if 0 <? targets then "queued" else "local_applied") (clonePolicyRevision (draft p)) in
  install v published p s d.

Definition PublishPolicy (v : env) (notes : string) := PublishPolicyFor v notes (mkFilter "" "").

Definition find_version (version : Z) (h : list PolicyRevision) : option PolicyRevision :=
  List.find (fun r => Version r =? version) h.

Definition RollbackPolicyFor (v : env) (version : Z) (notes : string) (f : FleetFilter) (s : Server) (d : Disk)
  : string + PolicyRevision * Server * Disk :=
  let targets := policyTargetAgentCount f (ts_Agents (telemetry s)) in
  match find_version version (history (policy s)) with
  | None => inl ("policy version " +:+ pretty version +:+ " not found")
  | Some target =>
      let rolled := stamped (nextVersion (policy s)) "rolled_back" notes (clock v 3) f targets
                      (if targets =? 0 then "local_applied" else "rollback_queued") (clonePolicyRevision target) in
      let p := match readPolicyBundleLocked (files d) target with
               | inr b => applyPolicyBundleLocked b (policy s)
               | inl _ => policy s
               end in
      inr (install v rolled p s d)
  end.

Definition RollbackPolicy (v : env) (version : Z) (notes : string) := RollbackPolicyFor v version notes (mkFilter "" "").

(** ** Acknowledgement *)

Definition counts_for (group tag : string) (version : Z) (a : AgentTelemetrySnapshot) : bool :=
  negb (revoked a) && (String.eqb group "" || EqualFold (Group a) group) && (String.eqb tag "" || hasTag (Tags a) tag)
  && (version <=? AppliedPolicyVersion a).

Definition refreshPolicyDeploymentFromAgents (s : Server) : Server * bool :=
  let p := policy s in let c := current p in
  if (Version c <=? 0) || (TargetAgents c <=? 0) then (s, false)
  else
    let acked := Z.of_nat (length (List.filter (counts_for (TargetGroup c) (TargetTag c) (Version c)) (snd <$> map_to_list (ts_Agents (telemetry s))))) in
    let acked := if TargetAgents c <? acked then TargetAgents c else acked in
    let pending := Z.max 0 (TargetAgents c - acked) in
    let status := if pending =? 0 then "applied"
                  else if bool_decide (DeploymentStatus c ∈ [""; "applied"]) then "queued" else DeploymentStatus c in
    if (AckedAgents c =? acked) && (PendingAgents c =? pending) && String.eqb (DeploymentStatus c) status then (s, false)
    else (set_policy (set_revisions (with_acks acked pending status c) (draft p)
            (at_version (Version c) (with_acks acked pending status) (history p)) (nextVersion p) p) s, true).

Definition policyAckMessageForAgent (s : Server) (agentID prefix : string) : string :=
  let '(status, note) := agentEnrollment (ts_Agents (telemetry s)) agentID in
  if String.eqb status "quarantined" then
    if blank note then prefix +:+ "; policy_status=quarantined"
    else prefix +:+ "; policy_status=quarantined enrollment_note=" +:+ quote (TrimSpace note)
  else
    let c := clonePolicyRevision (current (policy s)) in
    if Version c <=? 0 then prefix
    else if negb (String.eqb agentID "") && negb (agentMatchesPolicyTarget (ts_Agents (telemetry s)) agentID (TargetGroup c) (TargetTag c))
    then prefix +:+ "; policy_status=not_targeted"
    else prefix +:+ "; policy_version=" +:+ pretty (Version c) +:+ " policy_status="
         +:+ (if String.eqb (DeploymentStatus c) "" then State c else DeploymentStatus c).
Definition policyAckMessage (s : Server) (prefix : string) : string := policyAckMessageForAgent s "" prefix.

(** ** Reports *)

(** An event of the stream: its content type and the summary its payload decodes to. *)
Record TelemetryEvent := mkTelemetryEvent { ContentType : string; Payload : option Summary }.
Record ReportAck := mkReportAck { Accepted : bool; ThrottleLevel : Z; AckText : string }.

Definition receive_event (last : option Summary) (e : TelemetryEvent) : option Summary :=
  if String.eqb (ContentType e) "summary" then
    match Payload e with Some su => if String.eqb (su_AgentID su) "" then last else Some su | None => last end
  else last.

(** The snapshot a report leaves: group, tags and enrollment are the server's own. *)
Definition reported (now : time) (cert : string) (su : Summary) (existing : AgentTelemetrySnapshot) : AgentTelemetrySnapshot :=
  mkSnapshot (su_AgentID su) (su_Report su) (Group existing) (Tags existing) (su_Status su) "" now 0
    (su_PipelineHealthy su) (su_StoreHealthy su) (su_AppliedPolicyVersion su) (EnrollmentStatus existing)
    (EnrollmentNote existing) (EnrollmentUpdatedAt existing) (firstNonEmpty [cert; CertFingerprint existing]).

(** [cert]: the certificate of the client, if it presented one; [events]: what arrives before
    the stream ends. *)
Definition ReportEvents (v : env) (cert : option (list Z)) (events : list TelemetryEvent) (s : Server) (d : Disk)
  : ReportAck * Server * Disk :=
  match last events with
  | None => (mkReportAck true 0 (policyAckMessage s "no events received"), s, d)
  | Some lastEvent =>
      let lastSummary := foldl receive_event None events in
      let lastAgentID := match lastSummary with Some su => su_AgentID su | None => "" end in
      let '(status, note) := agentEnrollment (ts_Agents (telemetry s)) lastAgentID in
      if String.eqb status "revoked" then
        (mkReportAck false 3 (if blank note then "agent revoked" else "agent revoked: " +:+ TrimSpace note), s, d)
      else
        let t := telemetry s in let now := clock v 5 in
        let m := match lastSummary with
                 | None => ts_Agents t
                 | Some su => <[su_AgentID su := reported now (fingerprintCertificate cert) su (agent_at (ts_Agents t) (su_AgentID su))]> (ts_Agents t)
                 end in
        let s := set_telemetry (mkTelemetry (ts_Reports t + Z.of_nat (length events)) now (ContentType lastEvent) lastAgentID m) s in
        let '(s, changed) := refreshPolicyDeploymentFromAgents s in
        let d := if negb (String.eqb lastAgentID "") || changed then save v s d else d in
        (mkReportAck true 0 (policyAckMessageForAgent s lastAgentID
           ("accepted " +:+ pretty (Z.of_nat (length events)) +:+ " telemetry event(s)")), s, d)
  end.

Definition UpsertAgentMetadata (v : env) (id group : string) (tags : option (list string)) (s : Server) (d : Disk) : Server * Disk :=
  let s := set_agents (upsert_agent id group tags (ts_Agents (telemetry s))) s in (s, save v s d).

Definition SetAgentEnrollment (v : env) (id status note : string) (s : Server) (d : Disk) : option enroll_error * Server * Disk :=
  match enroll_agent (clock v 6) id status note (ts_Agents (telemetry s)) with
  | inl e => (Some e, s, d)
  | inr m => let s := set_agents m s in (None, s, save v s d)
  end.

(** ** Runs *)

Inductive op :=
  | OpController (c : Controller)
  | OpAnalyzer (a : Analyzer)
  | OpUpdate (u : PolicyUpdate)
  | OpMetadata (id group : string) (tags : option (list string))
  | OpEnroll (id status note : string)
  | OpPublish (notes : string) (f : FleetFilter)
  | OpRollback (version : Z) (notes : string) (f : FleetFilter)
  | OpReport (cert : option (list Z)) (events : list TelemetryEvent)
  | OpRestart.

(** [None]: the server panicked or did not start.  Failed calls change nothing. *)
Definition step (v : env) (o : op) (sd : Server * Disk) : option (Server * Disk) :=
  let '(s, d) := sd in
  match o with
  | OpController c => Some (SetController c s, d)
  | OpAnalyzer a => Some (SetAnalyzer (clock v 1) a s, d)
  | OpUpdate u => '(s, _) ← UpdatePolicy v u s; Some (s, d)
  | OpMetadata id group tags => Some (UpsertAgentMetadata v id group tags s d)
  | OpEnroll id status note => let '(_, s, d) := SetAgentEnrollment v id status note s d in Some (s, d)
  | OpPublish notes f => let '(_, s, d) := PublishPolicyFor v notes f s d in Some (s, d)
  | OpRollback version notes f =>
      match RollbackPolicyFor v version notes f s d with inl _ => Some (s, d) | inr (_, s, d) => Some (s, d) end
  | OpReport cert events => let '(_, s, d) := ReportEvents v cert events s d in Some (s, d)
  | OpRestart => match NewServer v (Some (config s)) default_seeds d with (_, inl _) => None | (d, inr s) => Some (s, d) end
  end.

Fixpoint run (ops : list (env * op)) (sd : Server * Disk) : option (Server * Disk) :=
  match ops with
  | [] => Some sd
  | (v, o) :: ops => sd ← step v o sd; run ops sd
  end.
(** ** Frames: what each operation leaves alone *)

Definition same_revisions (p p' : policyState) : Prop :=
  current p' = current p /\ history p' = history p /\ nextVersion p' = nextVersion p.

Lemma same_refl p : same_revisions p p.
Proof. done. Qed.

Definition frame (s s' : Server) : Prop :=
  config s' = config s /\ telemetry s' = telemetry s /\ same_revisions (policy s) (policy s').

Lemma on_ctrl_frame r failed ok f s : (forall p, same_revisions p (f p)) -> frame s (on_ctrl r failed ok f s).1.
Proof. intros Hf. unfold on_ctrl. destruct r as [c [e|]]; split_and!; simpl; try done; apply Hf. Qed.

Lemma whitelist_frame v action target value s : frame s (applyWhitelistUpdate v action target value s).1.
Proof.
  unfold applyWhitelistUpdate. repeat case_match; try apply on_ctrl_frame; done.
Qed.

Lemma update_frame v u s s' ack : UpdatePolicy v u s = Some (s', ack) -> frame s s'.
Proof.
  unfold UpdatePolicy. intros H.
  assert (forall s1 ok msg, frame s s1 -> frame s (if (ok : bool) then refreshPolicyDraft (clock v 1) msg s1 else s1)) as Hr
    by (intros s1 [] msg (Hc & Ht & Hp); [split_and!; done|split_and!; apply Hp || done]).
  destruct u as [action target value|action id y|action ip label|]; simpl in H.
  - pose proof (whitelist_frame v action target value s) as Hw. destruct (applyWhitelistUpdate _ _ _ _ _) as [s1 msg].
    simpl in *. injection H as <- _. by apply (Hr s1 true).
  - destruct (update_sigma action id y s) as [[s1 ok] msg] eqn:E. injection H as <- _. apply Hr.
    unfold update_sigma, recordSigmaRule in E. repeat case_match; simplify_eq; done.
  - destruct (update_taint action ip label s) as [[[s1 ok] msg]|] eqn:E; simpl in H; [|done]. injection H as <- _. apply Hr.
    unfold update_taint in E. repeat case_match; simplify_eq/=; try done;
      destruct (AddUntrustedComm _ _); simplify_eq/=; done.
  - injection H as <- _. by apply (Hr s false "unknown update type").
Qed.
(** ** The invariant of revisions *)

(** Acknowledgements balance, and a deployment is called applied only when none is pending. *)
Definition deploy_ok (r : PolicyRevision) : Prop :=
  0 <= AckedAgents r /\ 0 <= PendingAgents r /\ AckedAgents r + PendingAgents r = TargetAgents r /\
  (DeploymentStatus r = "applied" -> PendingAgents r = 0) /\
  DeploymentStatus r ∈ ["local_applied"; "queued"; "rollback_queued"; "applied"].

(** Versions are numbered from one without gaps, and the last one is current. *)
Definition revisions_ok (cur : PolicyRevision) (h : list PolicyRevision) (next : Z) : Prop :=
  2 <= next /\ Version <$> h = seqZ 1 (next - 1) /\ last h = Some cur /\ Forall deploy_ok h.

Definition policy_ok (p : policyState) : Prop := revisions_ok (current p) (history p) (nextVersion p).
Definition doc_ok (d : Disk) : Prop :=
  forall doc st, state_doc d = Some doc -> unmarshal_state doc = Some st ->
    revisions_ok (pp_Current (ps_Policy st)) (pp_History (ps_Policy st)) (pp_NextVersion (ps_Policy st)).

Lemma revisions_version cur h next r : revisions_ok cur h next -> r ∈ h -> 1 <= Version r < next.
Proof.
  intros (Hn & Hv & _ & _) Hr. assert (Version r ∈ Version <$> h) as Hin by (apply list_elem_of_fmap; eauto).
  rewrite Hv in Hin. apply elem_of_seqZ in Hin. lia.
Qed.

Lemma revisions_current cur h next : revisions_ok cur h next -> cur ∈ h /\ Version cur = next - 1.
Proof.
  intros (Hn & Hv & Hl & _). apply last_Some in Hl as [h' ->]. split; [set_solver|].
  rewrite fmap_app in Hv. simpl in Hv.
  assert (last (seqZ 1 (next - 1)) = Some (Version cur)) as Hs by (rewrite <-Hv; apply last_snoc).
  replace (next - 1) with (Z.of_nat (S (Z.to_nat (next - 2)))) in Hs by lia. rewrite seqZ_S, last_snoc in Hs.
  injection Hs as Hs. lia.
Qed.

Lemma revisions_unique cur h next r r' : revisions_ok cur h next -> r ∈ h -> r' ∈ h -> Version r = Version r' -> r = r'.
Proof.
  intros (_ & Hv & _ & _) Hr Hr' E. apply list_elem_of_lookup in Hr as [i Hi]. apply list_elem_of_lookup in Hr' as [j Hj].
  assert (NoDup (Version <$> h)) as Hnd by (rewrite Hv; apply NoDup_seqZ).
  assert (i = j) as -> by (eapply NoDup_lookup; [exact Hnd|by rewrite list_lookup_fmap, Hi|by rewrite list_lookup_fmap, Hj, E]).
  congruence.
Qed.

Lemma find_version_spec cur h next r : revisions_ok cur h next -> r ∈ h -> find_version (Version r) h = Some r.
Proof.
  intros Hok Hr. unfold find_version. destruct (List.find _ h) as [r'|] eqn:E.
  - apply List.find_some in E as [Hin He%Z.eqb_eq]. f_equal. eapply revisions_unique; eauto. by apply list_elem_of_In.
  - apply list_elem_of_In in Hr. eapply List.find_none in E; [|exact Hr]. simpl in E. rewrite Z.eqb_refl in E. done.
Qed.

Lemma revisions_append cur h next r : revisions_ok cur h next -> Version r = next -> deploy_ok r -> revisions_ok r (h ++ [r]) (next + 1).
Proof.
  intros (Hn & Hv & _ & Hd) Er Hr. split_and!; [lia| |apply last_snoc|by apply Forall_app_2, Forall_singleton].
  rewrite fmap_app, Hv. simpl. replace (next + 1 - 1) with (Z.of_nat (S (Z.to_nat (next - 1)))) by lia.
  rewrite seqZ_S. do 2 f_equal; [lia|]. f_equal. lia.
Qed.

(** Changing every revision of the current version, by a function that keeps versions. *)
Lemma revisions_update cur h next f : revisions_ok cur h next ->
  Version (f cur) = Version cur -> deploy_ok (f cur) -> revisions_ok (f cur) (at_version (Version cur) f h) next.
Proof.
  intros Hok Hf Hd. pose proof (fun r => revisions_unique _ _ _ r cur Hok) as Hu. destruct (revisions_current _ _ _ Hok) as [Hc _].
  destruct Hok as (Hn & Hv & Hl & Ha). unfold at_version. split_and!; [done| | |].
  - rewrite <-Hv, <-list_fmap_compose. apply Forall_fmap_ext_1, Forall_forall. intros r Hr. simpl.
    destruct (Z.eqb_spec (Version r) (Version cur)) as [E|]; [|done]. by rewrite (Hu r Hr Hc E).
  - rewrite fmap_last, Hl. simpl. by rewrite Z.eqb_refl.
  - apply Forall_fmap, Forall_forall. intros r Hr. simpl. destruct (Z.eqb_spec (Version r) (Version cur)) as [E|].
    + by rewrite (Hu r Hr Hc E).
    + rewrite Forall_forall in Ha. auto.
Qed.

Lemma count_nonneg f m : 0 <= policyTargetAgentCount f m.
Proof. unfold policyTargetAgentCount. lia. Qed.

Lemma install_ok v r p s d r' s' d' : revisions_ok (current p) (history p) (nextVersion p) -> Version r = nextVersion p -> deploy_ok r ->
  install v r p s d = (r', s', d') -> policy_ok (policy s').
Proof.
  intros Hp Hr Hd. unfold install. destruct (writePolicyBundle _ _ _ _) as [res fs]. intros [= <- <- _].
  unfold policy_ok. simpl. apply revisions_append with (1 := Hp); destruct res as [|[??]]; done.
Qed.

Lemma publish_ok v notes f s d r s' d' : policy_ok (policy s) -> PublishPolicyFor v notes f s d = (r, s', d') -> policy_ok (policy s').
Proof.
  intros Hp. apply install_ok; [done|done|]. pose proof (count_nonneg f (ts_Agents (telemetry s))).
  unfold deploy_ok. simpl. split_and!; try lia; case_match; set_solver.
Qed.

Lemma rollback_ok v version notes f s d r s' d' : policy_ok (policy s) ->
  RollbackPolicyFor v version notes f s d = inr (r, s', d') -> policy_ok (policy s').
Proof.
  intros Hp. unfold RollbackPolicyFor. destruct (find_version _ _) as [target|]; [|done]. intros [= H]. revert H.
  pose proof (count_nonneg f (ts_Agents (telemetry s))).
  apply install_ok; [by destruct (readPolicyBundleLocked _ _)|by destruct (readPolicyBundleLocked _ _)|].
  unfold deploy_ok. simpl. split_and!; try lia; case_match; set_solver.
Qed.

Lemma deployment_ok s : policy_ok (policy s) -> policy_ok (policy (refreshPolicyDeploymentFromAgents s).1).
Proof.
  intros Hp. unfold refreshPolicyDeploymentFromAgents. destruct ((_ <=? 0) || (_ <=? 0)) eqn:Et; [done|].
  set (acked0 := Z.of_nat _). set (acked := if _ <? acked0 then _ else _). set (pending := Z.max 0 _). set (status := if pending =? 0 then _ else _).
  case_match; [done|]. unfold policy_ok. simpl. apply (revisions_update _ _ _ (with_acks acked pending status)); [done|done|].
  apply orb_false_iff in Et as [_ Et]. apply Z.leb_gt in Et.
  assert (0 <= acked <= TargetAgents (current (policy s))) as Ha by (unfold acked, acked0; case_match; lia).
  destruct (revisions_current _ _ _ Hp) as [Hc _]. destruct Hp as (_ & _ & _ & Hd). rewrite Forall_forall in Hd.
  destruct (Hd _ Hc) as (_ & _ & _ & _ & Hs).
  unfold deploy_ok. simpl. split_and!; [lia|lia|lia| |]; unfold status; destruct (Z.eqb_spec pending 0); [done| |set_solver|].
  - case_bool_decide; [done|]. intros E. set_solver.
  - case_bool_decide; [set_solver|done].
Qed.

Lemma report_policy_ok v cert events s d a s' d' : policy_ok (policy s) -> ReportEvents v cert events s d = (a, s', d') -> policy_ok (policy s').
Proof.
  intros Hp. unfold ReportEvents. destruct (last events); [|by intros [= _ <- _]].
  destruct (agentEnrollment _ _) as [st note]. case_match; [by intros [= _ <- _]|].
  set (s1 := set_telemetry _ s). pose proof (deployment_ok s1 Hp) as Hd.
  destruct (refreshPolicyDeploymentFromAgents s1) as [s2 ch]. by intros [= _ <- _].
Qed.
(** ** Saving and starting *)

(** The document of a disk reads back as this state. *)
Definition holds (d : Disk) (st : persistedControlPlaneState) : Prop :=
  exists doc, state_doc d = Some doc /\ unmarshal_state doc = Some st.

Lemma saved_doc v backend st doc doc' err :
  savePersistedControlPlaneState v backend st doc = (doc', err) -> persisted_ok st = true ->
  (doc' = doc /\ (err = None -> blank backend = true)) \/ exists x, doc' = Some x /\ unmarshal_state x = Some st.
Proof.
  unfold savePersistedControlPlaneState. intros H Hok. destruct (blank backend); [left; by simplify_eq|].
  destruct (isPostgresStateBackend backend), (marshal_state st) as [data|] eqn:Em; repeat case_match; simplify_eq;
    first [by left; split|right; eexists; split; [done|]; rewrite ?jsonb_value; by apply state_roundtrip].
Qed.

Lemma saveState_cases v s d d' err : saveState v s d = (d', err) -> persisted_ok (persisted v s) = true ->
  files d' = files d /\ (d' = d /\ (err = None -> blank (StateFile (config s)) = true) \/ holds d' (persisted v s)).
Proof.
  unfold saveState. destruct (blank (StateFile (config s))) eqn:Eb; [intros [= <- <-]; auto|].
  destruct (savePersistedControlPlaneState _ _ _ _) as [doc e] eqn:E. intros [= <- <-] Hok. split; [done|].
  destruct (saved_doc _ _ _ _ _ _ E Hok) as [[-> He]|(x & -> & Hx)]; [left|right; by exists x].
  split; [by destruct d|]. intros ->. by rewrite He in Eb.
Qed.

Lemma save_cases v s d : persisted_ok (persisted v s) = true ->
  files (save v s d) = files d /\ (save v s d = d \/ holds (save v s d) (persisted v s)).
Proof.
  intros Hok. unfold save. destruct (saveState v s d) as [d' e] eqn:E. destruct (saveState_cases _ _ _ _ _ E Hok) as [Hf [[-> _]|Hh]]; auto.
Qed.

Lemma save_files v s d : files (save v s d) = files d.
Proof. unfold save, saveState. destruct (blank _); [done|]. by destruct (savePersistedControlPlaneState _ _ _ _). Qed.

Lemma holds_doc_ok d st : holds d st ->
  revisions_ok (pp_Current (ps_Policy st)) (pp_History (ps_Policy st)) (pp_NextVersion (ps_Policy st)) -> doc_ok d.
Proof. intros (doc & Hd & Hu) Hok doc' st' Hd' Hu'. by simplify_eq. Qed.

Lemma persisted_revisions v s : policy_ok (policy s) ->
  revisions_ok (pp_Current (ps_Policy (persisted v s))) (pp_History (ps_Policy (persisted v s))) (pp_NextVersion (ps_Policy (persisted v s))).
Proof. unfold policy_ok. simpl. by rewrite list_fmap_id. Qed.

Lemma save_doc_ok v s d : policy_ok (policy s) -> doc_ok d -> persisted_ok (persisted v s) = true -> doc_ok (save v s d).
Proof.
  intros Hp Hd Hok. destruct (save_cases v s d Hok) as [_ [->|Hh]]; [done|]. eapply holds_doc_ok; [done|]. by apply persisted_revisions.
Qed.

(** Loading a document with well-formed revisions restores them and the rules of its bundle. *)
Lemma load_policy_spec pp p : revisions_ok (pp_Current pp) (pp_History pp) (pp_NextVersion pp) ->
  current (load_policy pp p) = pp_Current pp /\ history (load_policy pp p) = pp_History pp /\ nextVersion (load_policy pp p) = pp_NextVersion pp.
Proof.
  intros Hok. destruct (revisions_current _ _ _ Hok) as [Hc Hcv]. destruct (revisions_version _ _ _ _ Hok Hc) as [H1 H2].
  unfold load_policy, clonePolicyRevision. rewrite (proj2 (Z.ltb_lt 0 (Version (pp_Current pp)))), (proj2 (Z.ltb_lt 0 (pp_NextVersion pp))) by lia.
  destruct (pp_History pp) as [|r h] eqn:Eh; [set_solver|]. rewrite list_fmap_id. by case_match.
Qed.

Lemma load_ok v d s s' : policy_ok (policy s) -> doc_ok d -> loadState v d s = inr s' ->
  policy_ok (policy s') /\ config s' = config s.
Proof.
  intros Hp Hd. unfold loadState, loadPersistedControlPlaneState. destruct (blank _); [by intros [= <-]|].
  destruct (e_load v); [done|]. destruct (state_doc d) as [doc|] eqn:Ed; [|by intros [= <-]].
  destruct (unmarshal_state doc) as [st|] eqn:Eu; [|done]. intros [= <-]. split; [|done].
  pose proof (Hd _ _ Ed Eu) as Hok. unfold policy_ok. simpl. by destruct (load_policy_spec _ (policy s) Hok) as (-> & -> & ->).
Qed.

Lemma fresh_ok t c sd : policy_ok (policy (fresh t c sd)).
Proof. unfold policy_ok, revisions_ok. simpl. split_and!; try done. repeat constructor; simpl; (done || set_solver). Qed.

Lemma ensure_ok v s d d' s' : policy_ok (policy s) -> doc_ok d -> ensureCurrentPolicyBundle v s d = (d', inr s') ->
  persisted_ok (persisted v s') = true -> policy_ok (policy s') /\ doc_ok d' /\ config s' = config s.
Proof.
  intros Hp Hd. unfold ensureCurrentPolicyBundle. case_match; [by intros [= <- <-]|]. case_match; [by intros [= <- <-]|].
  destruct (writePolicyBundle _ _ _ _) as [[e|[path hash]] fs]; [done|].
  set (s1 := set_policy _ s). destruct (saveState v s1 _) as [d1 err] eqn:Es. destruct err; [done|]. intros [= <- <-] Hok.
  assert (policy_ok (policy s1)) as Hp1.
  { unfold policy_ok. simpl. apply (revisions_update _ _ _ (with_bundle path hash)); [done|done|].
    destruct (revisions_current _ _ _ Hp) as [Hc _]. destruct Hp as (_ & _ & _ & Ha). rewrite Forall_forall in Ha. by apply Ha in Hc. }
  split_and!; [done| |done].
  destruct (saveState_cases _ _ _ _ _ Es Hok) as [_ [[-> _]|Hh]]; [done|]. eapply holds_doc_ok; [done|]. by apply persisted_revisions.
Qed.

Definition center_ok (sd : Server * Disk) : Prop := policy_ok (policy sd.1) /\ doc_ok sd.2.

Lemma start_ok v cfg sd d d' s : doc_ok d -> NewServer v cfg sd d = (d', inr s) -> persisted_ok (persisted v s) = true -> center_ok (s, d').
Proof.
  intros Hd. unfold NewServer. destruct (loadState v d _) as [e|s0] eqn:El; [done|]. intros He Hok.
  destruct (load_ok _ _ _ _ (fresh_ok _ _ _) Hd El) as [Hp _]. by destruct (ensure_ok _ _ _ _ _ Hp Hd He Hok) as (? & ? & _).
Qed.

(** The texts of every state the run may save are valid UTF-8. *)
Fixpoint texts (ops : list (env * op)) (sd : Server * Disk) : bool :=
  match ops with
  | [] => true
  | (v, o) :: ops => match step v o sd with Some sd => persisted_ok (persisted v sd.1) && texts ops sd | None => true end
  end.

(** A step that saves leaves the disk of the final state. *)
Lemma install_save v r p s d r' s' d' : install v r p s d = (r', s', d') ->
  exists fs, d' = save v s' (mkDisk fs (state_doc d)) /\ config s' = config s /\ telemetry s' = telemetry s.
Proof. unfold install. destruct (writePolicyBundle _ _ _ _) as [res fs]. intros [= <- <- <-]. by exists fs. Qed.

Lemma report_save v cert events s d a s' d' : ReportEvents v cert events s d = (a, s', d') ->
  (d' = d \/ d' = save v s' d) /\ config s' = config s.
Proof.
  unfold ReportEvents. destruct (last events); [|intros [= _ <- <-]; auto].
  destruct (agentEnrollment _ _) as [st note]. case_match; [intros [= _ <- <-]; auto|].
  set (s1 := set_telemetry _ s). assert (config (refreshPolicyDeploymentFromAgents s1).1 = config s) as Hc
    by (unfold refreshPolicyDeploymentFromAgents; repeat case_match; done).
  destruct (refreshPolicyDeploymentFromAgents s1) as [s2 ch]. intros [= _ <- <-]. split; [case_match; auto|done].
Qed.

Lemma step_ok v o sd sd' : center_ok sd -> step v o sd = Some sd' -> persisted_ok (persisted v sd'.1) = true -> center_ok sd'.
Proof.
  destruct sd as [s d]. intros [Hp Hd] Hstep Hok. simpl in *. destruct o; simpl in Hstep.
  - by simplify_eq.
  - by simplify_eq.
  - destruct (UpdatePolicy v u s) as [[s1 ack]|] eqn:E; simplify_eq/=. apply update_frame in E as (_ & _ & Hc & Hh & Hn).
    split; [|done]. unfold policy_ok. simpl. by rewrite Hc, Hh, Hn.
  - simplify_eq/=. split; [done|]. by apply save_doc_ok.
  - unfold SetAgentEnrollment in Hstep. destruct (enroll_agent _ _ _ _ _); simplify_eq/=; [done|]. split; [done|by apply save_doc_ok].
  - destruct (PublishPolicyFor v notes f s d) as [[r s1] d1] eqn:E. simplify_eq/=. pose proof (publish_ok _ _ _ _ _ _ _ _ Hp E) as Hp1.
    split; [done|]. apply install_save in E as (fs & -> & _). by apply save_doc_ok.
  - destruct (RollbackPolicyFor v version notes f s d) as [e|[[r s1] d1]] eqn:E; simplify_eq/=; [done|].
    pose proof (rollback_ok _ _ _ _ _ _ _ _ _ Hp E) as Hp1. split; [done|].
    unfold RollbackPolicyFor in E. destruct (find_version _ _); [|done]. injection E as E. apply install_save in E as (fs & -> & _).
    by apply save_doc_ok.
  - destruct (ReportEvents v cert events s d) as [[a s1] d1] eqn:E. simplify_eq/=. pose proof (report_policy_ok _ _ _ _ _ _ _ _ Hp E) as Hp1.
    split; [done|]. apply report_save in E as [[-> | ->] _]; [done|]. by apply save_doc_ok.
  - destruct (NewServer v _ _ d) as [d1 [e|s1]] eqn:E; simplify_eq/=. by eapply start_ok.
Qed.

Lemma center_run_ok ops sd sd' : center_ok sd -> run ops sd = Some sd' -> texts ops sd = true -> center_ok sd'.
Proof.
  revert sd. induction ops as [|[v o] ops IH]; intros sd Hok Hrun Ht; simpl in *; [by simplify_eq|].
  destruct (step v o sd) as [sd1|] eqn:E; simpl in Hrun; [|done]. apply andb_true_iff in Ht as [Ht1 Ht].
  eapply IH; [|done|done]. by eapply step_ok.
Qed.
(** ** Bundle files *)

Lemma bundle_name_plain version : plain_elem (bundle_name version).
Proof.
  unfold plain_elem, bundle_name. split_and!; [|done..]. rewrite !chars_app, !elem_of_app. intros [H|[H|H]].
  - by repeat (apply elem_of_cons in H as [?|H]; [done|]); apply elem_of_nil in H.
  - by apply (pretty_Z_not_occurs version "/"%char); [intros [[]|]; done|].
  - by repeat (apply elem_of_cons in H as [?|H]; [done|]); apply elem_of_nil in H.
Qed.

Lemma blank_empty : blank "" = true.
Proof. reflexivity. Qed.

Lemma own_path_inj dir i j : blank dir = false -> filepath_Join dir (bundle_name i) = filepath_Join dir (bundle_name j) -> i = j.
Proof.
  intros Hd. assert (dir <> "") as Hne by (intros ->; by rewrite blank_empty in Hd).
  destruct (Join_elem dir Hne) as [p Hp]. rewrite !Hp by apply bundle_name_plain. intros E.
  apply (f_equal chars) in E. rewrite !chars_app in E. apply app_inv_head in E.
  unfold bundle_name in E. rewrite !chars_app in E. apply app_inv_head, app_inv_tail in E.
  apply (inj pretty). by rewrite <-(string_of_chars (pretty i)), E, string_of_chars.
Qed.

Lemma join_not_blank dir e c : dir <> "" -> plain_elem (e +:+ String c "") -> printable (byteval c) ->
  blank (filepath_Join dir (e +:+ String c "")) = false.
Proof.
  intros Hd He Hc. destruct (Join_elem dir Hd) as [p Hp]. rewrite Hp by done. unfold blank. rewrite <-string_app_assoc.
  destruct (TrimSpace_last (p +:+ e) c Hc) as [t ->]. apply String.eqb_neq, app_last_ne.
Qed.

Lemma own_path_not_blank dir i : blank dir = false -> blank (filepath_Join dir (bundle_name i)) = false.
Proof.
  intros Hd. assert (dir <> "") as Hne by (intros ->; by rewrite blank_empty in Hd).
  assert (bundle_name i = ("policy-v" +:+ pretty i +:+ ".jso") +:+ String "n" "") as E
    by (unfold bundle_name; by rewrite !string_app_assoc).
  rewrite E. apply join_not_blank; [done|rewrite <-E; apply bundle_name_plain|done].
Qed.

Lemma path_Clean_nonempty p : path_Clean p <> "".
Proof. unfold path_Clean. repeat case_match; done. Qed.

(** Normalizing a configuration twice changes nothing more. *)
Lemma config_normal c : normalizeAgentMonitorConfig (normalizeAgentMonitorConfig c) = normalizeAgentMonitorConfig c.
Proof.
  unfold normalizeAgentMonitorConfig.
  cbn [AgentStaleAfter AgentOfflineAfter StateFile PolicyBundleDir RevokedClientCertFingerprints].
  set (stale := if AgentStaleAfter c <=? 0 then _ else _). set (off := if AgentOfflineAfter c <=? 0 then _ else _).
  assert (0 < stale) as Hs by (unfold stale, Minute, Second; case_match; lia).
  assert (0 < off) as Ho by (unfold off, Minute, Second; case_match; lia).
  rewrite (proj2 (Z.leb_gt stale 0)) by lia.
  rewrite (proj2 (Z.leb_gt (if off <? stale then stale else off) 0)) by (case_match; lia).
  replace ((if off <? stale then stale else off) <? stale) with false by (case_match; lia).
  f_equal. destruct (blank (PolicyBundleDir c) && negb (blank (StateFile c))) eqn:E; [|by rewrite E].
  change "policy-bundles" with ("policy-bundle" +:+ String "s" "") at 1.
  rewrite join_not_blank; [done|apply path_Clean_nonempty| |done].
  split_and!; [|done..]. intros H. by repeat (apply elem_of_cons in H as [?|H]; [done|]); apply elem_of_nil in H.
Qed.

Lemma write_other v dir b fs res fs' q : writePolicyBundle v dir b fs = (res, fs') ->
  q <> filepath_Join dir (bundle_name (b_Version b)) -> fs' !! q = fs !! q.
Proof.
  unfold writePolicyBundle. repeat case_match; intros [= <- <-] Hq; try done. by rewrite lookup_insert_ne.
Qed.

(** What a successful write leaves, when there is a directory. *)
Lemma write_own v dir b fs path hash fs' : blank dir = false -> writePolicyBundle v dir b fs = (inr (path, hash), fs') ->
  path = filepath_Join dir (bundle_name (b_Version b)) /\
  exists data, marshal_bundle b = Some data /\ hash = sha_hex data /\ fs' !! path = Some data.
Proof.
  intros Hd. unfold writePolicyBundle. rewrite Hd. destruct (marshal_bundle b) as [data|]; [|done].
  repeat case_match; intros [= <- <- <-]; try done. split; [done|]. exists data. by rewrite lookup_insert_eq.
Qed.

Lemma hex_ascii l : Forall is_byte l -> is_ascii (EncodeToString l) = true.
Proof.
  intros Hl. unfold is_ascii, EncodeToString. change (l ≫= _) with (l ≫= hex_byte).
  rewrite bytes_of_string_of_bytes by (eapply Forall_impl; [by apply hex_bytes|]; simpl; tauto).
  apply forallb_forall. intros c (b & Hc & Hb)%list_elem_of_In%list_elem_of_bind. rewrite Forall_forall in Hl.
  destruct (hex_byte_table b (Hl b Hb)) as [(x & y & Hx & Hy & _) _].
  assert (forall c z, from_hex c = Some z -> (c <? 128) = true) as Hsmall
    by (unfold from_hex, cont; intros c' z; repeat case_match; intros; lia || done).
  apply elem_of_cons in Hc as [-> | Hc]; [by eapply Hsmall|]. apply elem_of_cons in Hc as [-> | Hc]; [by eapply Hsmall|].
  by apply elem_of_nil in Hc.
Qed.

Lemma sha_hex_fold data : EqualFold (sha_hex data) (sha_hex data) = true.
Proof.
  unfold EqualFold, sha_hex. rewrite hex_ascii by apply Sum256_ok. by apply bool_decide_eq_true.
Qed.

Lemma keysToSet_spec l x : x ∈ keysToSet l <-> x <> "" /\ exists k, k ∈ l /\ TrimSpace k = x.
Proof.
  unfold keysToSet.
  assert (forall t : gset string, x ∈ foldl (fun out key => let key := TrimSpace key in if String.eqb key "" then out else {[key]} ∪ out) t l
    <-> x ∈ t \/ (x <> "" /\ exists k, k ∈ l /\ TrimSpace k = x)) as H; [|rewrite H; set_solver].
  induction l as [|k l IH]; intros t; simpl.
  - split; [by left|]. intros [?|(_ & k & ?%elem_of_nil & _)]; done.
  - rewrite IH. destruct (String.eqb_spec (TrimSpace k) ""); setoid_rewrite elem_of_cons; set_solver.
Qed.

(** The keys a bundle gives back: trimmed, without empty ones. *)
Definition trimmed (keys : gset string) : gset string := set_map TrimSpace keys ∖ {[""]}.

Lemma keys_restored k keys : keysToSet (sortedPolicyKeys k keys) = trimmed keys.
Proof.
  apply set_eq. intros x. unfold trimmed. rewrite keysToSet_spec, elem_of_difference, elem_of_map, elem_of_singleton.
  unfold sortedPolicyKeys. setoid_rewrite elem_of_sort_slice. setoid_rewrite elem_of_range. setoid_rewrite elem_of_elements. naive_solver.
Qed.

(** ** A published bundle stays *)

(** The revision [version] is in the history with this bundle. *)
Definition listed (version : Z) (path hash : string) (h : list PolicyRevision) : Prop :=
  exists r, r ∈ h /\ Version r = version /\ BundlePath r = path /\ BundleSHA256 r = hash.

Lemma listed_app version path hash h r : listed version path hash h -> listed version path hash (h ++ [r]).
Proof. intros (x & Hx & H). exists x. split; [set_solver|done]. Qed.

Lemma listed_acks version path hash h c a p st : listed version path hash h -> listed version path hash (at_version c (with_acks a p st) h).
Proof.
  intros (x & Hx & Hv & Hp & Hh). exists (if Version x =? c then with_acks a p st x else x). split.
  - unfold at_version. apply list_elem_of_fmap. eauto.
  - by case_match.
Qed.

Lemma listed_bundle version path hash h c p' h' : c <> version -> listed version path hash h -> listed version path hash (at_version c (with_bundle p' h') h).
Proof.
  intros Hc (x & Hx & Hv & Hp & Hh). exists x. split; [|done]. unfold at_version. apply list_elem_of_fmap. exists x.
  split; [|done]. by rewrite (proj2 (Z.eqb_neq (Version x) c)) by congruence.
Qed.

(** The bundle of [version] is on the disk and in the history of the server and, with
    [durable], in that of the saved state. *)
Record keeps (durable : bool) (version : Z) (path data : string) (sd : Server * Disk) : Prop := mkKeeps {
  k_ok : center_ok sd;
  k_normal : normalizeAgentMonitorConfig (config sd.1) = config sd.1;
  k_dir : blank (PolicyBundleDir (config sd.1)) = false;
  k_path : path = filepath_Join (PolicyBundleDir (config sd.1)) (bundle_name version);
  k_listed : listed version path (sha_hex data) (history (policy sd.1));
  k_file : files sd.2 !! path = Some data;
  k_doc : durable = true -> blank (StateFile (config sd.1)) = false /\
    exists st, holds sd.2 st /\ listed version path (sha_hex data) (pp_History (ps_Policy st));
}.

Section kept.
Context (durable : bool) (version : Z) (path data : string).
#[local] Abbreviation keeps := (keeps durable version path data).

Lemma kept_below sd : keeps sd -> version < nextVersion (policy sd.1).
Proof. intros [[Hp _] _ _ _ (r & Hr & <- & _) _ _]. by apply (revisions_version _ _ _ _ Hp Hr). Qed.

(** A step that saves the final state on some files keeps the bundle. *)
Lemma kept_save v s s' d fs : keeps (s, d) -> center_ok (s', save v s' (mkDisk fs (state_doc d))) -> config s' = config s ->
  listed version path (sha_hex data) (history (policy s')) -> fs !! path = Some data -> persisted_ok (persisted v s') = true ->
  keeps (s', save v s' (mkDisk fs (state_doc d))).
Proof.
  intros [_ Hn Hd Hp _ _ Hdoc] Hok Hc Hl Hf Ht. simpl in *. split; simpl; rewrite ?Hc; try done; [by rewrite save_files|].
  intros Hdur. destruct (Hdoc Hdur) as (Hb & st & Hh & Hst). split; [done|].
  destruct (save_cases v s' (mkDisk fs (state_doc d)) Ht) as [_ [->|Hs]]; [by exists st|].
  exists (persisted v s'). split; [done|]. simpl. by rewrite list_fmap_id.
Qed.

Lemma kept_same s s' d : keeps (s, d) -> center_ok (s', d) -> config s' = config s -> history (policy s') = history (policy s) -> keeps (s', d).
Proof. intros [_ Hn Hd Hp Hl Hf Hdoc] Hok Hc Hh. split; simpl in *; rewrite ?Hc, ?Hh; done. Qed.

Lemma kept_install v r p s d r' s' d' : keeps (s, d) -> install v r p s d = (r', s', d') -> center_ok (s', d') ->
  history p = history (policy s) -> version <> Version r -> persisted_ok (persisted v s') = true -> keeps (s', d').
Proof.
  intros Hk. unfold install. destruct (writePolicyBundle _ _ _ _) as [res fs] eqn:Ew. intros [= <- <- <-] Hok Hh Hv Ht.
  apply (kept_save v s); try done; [simpl; rewrite Hh; by apply listed_app, Hk|].
  rewrite (write_other _ _ _ _ _ _ path Ew); [apply Hk|]. rewrite (k_path _ _ _ _ _ Hk). intros E.
  apply own_path_inj in E; [done|apply Hk].
Qed.

Lemma kept_deployment s : history (policy (refreshPolicyDeploymentFromAgents s).1) = history (policy s) \/
  exists c a p st, history (policy (refreshPolicyDeploymentFromAgents s).1) = at_version c (with_acks a p st) (history (policy s)).
Proof. unfold refreshPolicyDeploymentFromAgents. repeat case_match; simpl; eauto 10. Qed.

Lemma kept_report v cert events s d a s' d' : keeps (s, d) -> ReportEvents v cert events s d = (a, s', d') -> center_ok (s', d') ->
  persisted_ok (persisted v s') = true -> keeps (s', d').
Proof.
  intros Hk E Hok Ht. pose proof (report_save _ _ _ _ _ _ _ _ E) as [Hd Hc].
  assert (listed version path (sha_hex data) (history (policy s'))) as Hl.
  { unfold ReportEvents in E. destruct (last events); [|injection E as _ <- _; apply Hk].
    destruct (agentEnrollment _ _) as [st note]. case_match; [injection E as _ <- _; apply Hk|].
    set (s1 := set_telemetry _ s) in E. destruct (kept_deployment s1) as [Hh|(c & a' & p & st' & Hh)];
      destruct (refreshPolicyDeploymentFromAgents s1) as [s2 ch]; injection E as _ <- _; simpl in Hh; rewrite Hh;
      [|apply listed_acks]; apply Hk. }
  destruct Hd as [-> | ->].
  - destruct Hk as [_ Hn Hd Hp _ Hf Hdoc]. split; simpl in *; rewrite ?Hc; done.
  - replace d with (mkDisk (files d) (state_doc d)) by (by destruct d). apply (kept_save v s); try done; [by destruct d|apply Hk].
Qed.
Lemma kept_ensure v s d d' s' : center_ok (s, d) -> normalizeAgentMonitorConfig (config s) = config s ->
  keeps (s, d) -> ensureCurrentPolicyBundle v s d = (d', inr s') -> persisted_ok (persisted v s') = true -> keeps (s', d').
Proof.
  intros Hok Hn Hk E Ht. destruct (ensure_ok _ _ _ _ _ (proj1 Hok) (proj2 Hok) E Ht) as (Hp' & Hd' & Hc).
  unfold ensureCurrentPolicyBundle in E. case_match; [by simplify_eq|]. case_match eqn:Eb; [by simplify_eq|].
  destruct (revisions_current _ _ _ (proj1 Hok)) as [Hcur _].
  assert (Version (current (policy s)) <> version) as Hv.
  { intros Hv. destruct Hk as [_ _ Hdir Hpath (r & Hr & Hrv & Hrp & _) Hf _]. simpl in *.
    assert (r = current (policy s)) as -> by (eapply revisions_unique; [apply Hok|..]; simpl; congruence || done).
    rewrite Hrp, Hf, Hpath, own_path_not_blank in Eb by done. rewrite bool_decide_true in Eb by eauto. done. }
  destruct (writePolicyBundle _ _ _ _) as [[e|[path' hash']] fs] eqn:Ew; [done|]. set (s1 := set_policy _ s) in E.
  destruct (saveState v s1 _) as [d1 [e|]] eqn:Es; [done|]. injection E as <- <-.
  assert (d1 = save v s1 (mkDisk fs (state_doc d))) as -> by (unfold save; by rewrite Es).
  apply (kept_save v s); try done.
  - simpl. apply listed_bundle; [done|apply Hk].
  - rewrite (write_other _ _ _ _ _ _ path Ew); [apply Hk|]. rewrite (k_path _ _ _ _ _ Hk). simpl. intros Ep.
    apply own_path_inj in Ep; [done|apply Hk].
Qed.

Lemma kept_restart v s d d' s' : durable = true -> keeps (s, d) -> NewServer v (Some (config s)) default_seeds d = (d', inr s') ->
  persisted_ok (persisted v s') = true -> keeps (s', d').
Proof.
  intros Hdur Hk E Ht. destruct (k_doc _ _ _ _ _ Hk Hdur) as (Hb & st & (doc & Hdoc & Hu) & Hl). simpl in *.
  unfold NewServer in E. simpl in E. pose proof (k_normal _ _ _ _ _ Hk) as Hn. simpl in Hn. rewrite Hn in E.
  destruct (loadState v d _) as [e|s0] eqn:El; [done|].
  destruct (load_ok _ _ _ _ (fresh_ok _ _ _) (proj2 (k_ok _ _ _ _ _ Hk)) El) as [Hp0 Hc0]. simpl in Hc0.
  unfold loadState, loadPersistedControlPlaneState in El. simpl in El. rewrite Hb, Hdoc, Hu in El.
  destruct (e_load v); [done|]. injection El as El.
  assert (history (policy s0) = pp_History (ps_Policy st)) as Hh0.
  { rewrite <-El. simpl. eapply load_policy_spec, (proj2 (k_ok _ _ _ _ _ Hk)); done. }
  assert (keeps (s0, d)) as Hk0.
  { destruct Hk as [[_ Hd] _ Hdir Hpath _ Hf Hdoc']. split; simpl in *; rewrite ?Hc0, ?Hh0; try done. }
  eapply kept_ensure; [by apply Hk0|by apply Hk0|done|done|done].
Qed.

Lemma kept_step v o sd sd' : keeps sd -> step v o sd = Some sd' -> persisted_ok (persisted v sd'.1) = true ->
  (o = OpRestart -> durable = true) -> keeps sd'.
Proof.
  intros Hk Hstep Ht Hr. pose proof (step_ok _ _ _ _ (k_ok _ _ _ _ _ Hk) Hstep Ht) as Hok.
  pose proof (kept_below _ Hk) as Hlt. destruct sd as [s d]. simpl in *. destruct o; simpl in Hstep.
  - simplify_eq. by apply (kept_same s).
  - simplify_eq. by apply (kept_same s).
  - destruct (UpdatePolicy v u s) as [[s1 ack]|] eqn:E; simplify_eq/=. apply update_frame in E as (Hc & _ & _ & Hh & _).
    by apply (kept_same s).
  - simplify_eq/=. destruct d as [fs doc]. unfold UpsertAgentMetadata in *.
    apply (kept_save v s _ (mkDisk fs doc) fs); try done; apply Hk.
  - unfold SetAgentEnrollment in Hstep. destruct (enroll_agent _ _ _ _ _); simplify_eq/=; [done|].
    destruct d as [fs doc]. apply (kept_save v s _ (mkDisk fs doc) fs); try done; apply Hk.
  - destruct (PublishPolicyFor v notes f s d) as [[r s1] d1] eqn:E. simplify_eq/=. eapply kept_install; [done|exact E|done|done| |done].
    simpl. lia.
  - destruct (RollbackPolicyFor v version0 notes f s d) as [e|[[r s1] d1]] eqn:E; simplify_eq/=; [done|].
    unfold RollbackPolicyFor in E. destruct (find_version _ _); [|done]. injection E as E.
    eapply kept_install; [done|exact E|done|by destruct (readPolicyBundleLocked _ _)| |done]. simpl. lia.
  - destruct (ReportEvents v cert events s d) as [[a s1] d1] eqn:E. simplify_eq/=. by eapply kept_report.
  - destruct (NewServer v _ _ d) as [d1 [e|s1]] eqn:E; simplify_eq/=. eapply kept_restart; eauto.
Qed.

Lemma kept_run ops sd sd' : keeps sd -> run ops sd = Some sd' -> texts ops sd = true ->
  (OpRestart ∈ ops.*2 -> durable = true) -> keeps sd'.
Proof.
  revert sd. induction ops as [|[v o] ops IH]; intros sd Hk Hrun Ht Hr; simpl in *; [by simplify_eq|].
  destruct (step v o sd) as [sd1|] eqn:E; simpl in Hrun; [|done]. apply andb_true_iff in Ht as [Ht1 Ht].
  eapply IH; [|done|done|intros; apply Hr; set_solver]. eapply kept_step; [done|done|done|]. intros ->. apply Hr. set_solver.
Qed.
End kept.
(** ** Rollback restores what was published *)

(** The bundle that a publication writes. *)
Definition published_bundle (v : env) (notes : string) (f : FleetFilter) (s : Server) : policyBundle :=
  let p := refreshPolicyDraftLocked (clock v 2) notes (analyzer s) (policy s) in
  buildPolicyBundleLocked (clock v 4)
    (stamped (nextVersion p) "published" notes (clock v 3) f (policyTargetAgentCount f (ts_Agents (telemetry s)))
       (if 0 <? policyTargetAgentCount f (ts_Agents (telemetry s)) then "queued" else "local_applied") (draft p)) p.

Lemma publish_keeps v notes f s d r s' d' path hash fs :
  center_ok (s, d) -> normalizeAgentMonitorConfig (config s) = config s -> blank (PolicyBundleDir (config s)) = false ->
  PublishPolicyFor v notes f s d = (r, s', d') ->
  writePolicyBundle v (PolicyBundleDir (config s)) (published_bundle v notes f s) (files d) = (inr (path, hash), fs) ->
  persisted_ok (persisted v s') = true ->
  exists data, marshal_bundle (published_bundle v notes f s) = Some data /\
    keeps (bool_decide ((saveState v s' d').2 = None) && negb (blank (StateFile (config s)))) (Version r) path data (s', d').
Proof.
  intros Hok Hn Hdir Hpub Hw Ht. destruct (write_own _ _ _ _ _ _ _ Hdir Hw) as (Hpath & data & Hm & -> & Hf).
  exists data. split; [done|]. pose proof (step_ok v (OpPublish notes f) (s, d) (s', d') Hok) as Hok'. simpl in Hok'.
  rewrite Hpub in Hok'. specialize (Hok' eq_refl Ht). unfold PublishPolicyFor, install in Hpub.
  change (buildPolicyBundleLocked (clock v 4) _ _) with (published_bundle v notes f s) in Hpub. rewrite Hw in Hpub.
  injection Hpub as <- <- <-. set (s' := set_policy _ s) in *.
  assert (listed (nextVersion (policy s)) path (sha_hex data) (history (policy s'))) as Hl.
  { eexists. split; [apply elem_of_app; right; by apply list_elem_of_singleton|]. done. }
  split; simpl; try done; [by rewrite save_files|].
  intros [Hs Hb]%andb_true_iff. apply bool_decide_eq_true in Hs. apply negb_true_iff in Hb. split; [done|].
  exists (persisted v s'). split; [|simpl; by rewrite list_fmap_id].
  unfold save. destruct (saveState v s' (mkDisk fs (state_doc d))) as [d1 err] eqn:E. simpl in *.
  destruct (saveState_cases _ _ _ _ _ E Ht) as [_ [[-> He]|?]]; [|done].
  assert (save v s' (mkDisk fs (state_doc d)) = mkDisk fs (state_doc d)) as Es by (unfold save; by rewrite E).
  rewrite Es, E in Hs. specialize (He Hs). simpl in He. congruence.
Qed.
(** The configuration stays what the start normalized. *)
Lemma ensure_config v s d d' s' : ensureCurrentPolicyBundle v s d = (d', inr s') -> config s' = config s /\ telemetry s' = telemetry s.
Proof.
  unfold ensureCurrentPolicyBundle. repeat case_match; intros [= <- <-]; done.
Qed.

Lemma load_config v d s s' : loadState v d s = inr s' -> config s' = config s.
Proof. unfold loadState. repeat case_match; intros [= <-]; done. Qed.

Lemma start_config v cfg sd d d' s : NewServer v cfg sd d = (d', inr s) -> normalizeAgentMonitorConfig (config s) = config s.
Proof.
  unfold NewServer. destruct (loadState _ _ _) as [e|s1] eqn:El; [done|]. intros [-> _]%ensure_config. apply load_config in El as ->.
  apply config_normal.
Qed.

Lemma center_step_config v o sd sd' : normalizeAgentMonitorConfig (config sd.1) = config sd.1 -> step v o sd = Some sd' -> config sd'.1 = config sd.1.
Proof.
  destruct sd as [s d]. intros Hn Hstep. simpl in *. destruct o; simpl in Hstep.
  - by simplify_eq.
  - by simplify_eq.
  - destruct (UpdatePolicy v u s) as [[s1 ack]|] eqn:E; simplify_eq/=. by apply update_frame in E as (Hc & _).
  - by simplify_eq/=.
  - unfold SetAgentEnrollment in Hstep. by destruct (enroll_agent _ _ _ _ _); simplify_eq/=.
  - destruct (PublishPolicyFor v notes f s d) as [[r s1] d1] eqn:E. simplify_eq/=. by apply install_save in E as (fs & _ & -> & _).
  - destruct (RollbackPolicyFor v version notes f s d) as [e|[[r s1] d1]] eqn:E; simplify_eq/=; [done|].
    unfold RollbackPolicyFor in E. destruct (find_version _ _); [|done]. injection E as E. by apply install_save in E as (fs & _ & -> & _).
  - destruct (ReportEvents v cert events s d) as [[a s1] d1] eqn:E. simplify_eq/=. by apply report_save in E as [_ ->].
  - destruct (NewServer v _ _ d) as [d1 [e|s1]] eqn:E; simplify_eq/=. unfold NewServer in E. simpl in E. rewrite Hn in E.
    destruct (loadState _ _ _) as [e|s2] eqn:El; [done|]. apply ensure_config in E as [-> _]. by apply load_config in El as ->.
Qed.

Lemma run_config ops sd sd' : normalizeAgentMonitorConfig (config sd.1) = config sd.1 -> run ops sd = Some sd' -> config sd'.1 = config sd.1.
Proof.
  revert sd. induction ops as [|[v o] ops IH]; intros sd Hn Hrun; simpl in Hrun; [by simplify_eq|].
  destruct (step v o sd) as [sd1|] eqn:E; simpl in Hrun; [|done]. apply center_step_config in E as Hc; [|done].
  rewrite <-Hc in *. by apply IH.
Qed.

Lemma doc_ok_none fs : doc_ok (mkDisk fs None).
Proof. by intros doc st. Qed.

(** From a first start, after any updates, publications, rollbacks, reports, changes of
    agents and restarts, with writes that fail or not: the history lists the versions one to
    the latest, each once and in order, the current policy is the last of them, and on each
    the acknowledged and the pending agents add up to the targeted ones, a deployment being
    called applied only when no agent is pending. *)
Lemma policy_history_exact v0 cfg sd0 fs0 d0 s0 ops s d :
  NewServer v0 cfg sd0 (mkDisk fs0 None) = (d0, inr s0) -> persisted_ok (persisted v0 s0) = true ->
  run ops (s0, d0) = Some (s, d) -> texts ops (s0, d0) = true ->
  Version <$> history (policy s) = seqZ 1 (Version (current (policy s))) /\
  nextVersion (policy s) = Version (current (policy s)) + 1 /\
  last (history (policy s)) = Some (current (policy s)) /\
  Forall deploy_ok (history (policy s)).
Proof.
  intros Hs Ht0 Hrun Ht. destruct (center_run_ok _ _ _ (start_ok _ _ _ _ _ _ (doc_ok_none fs0) Hs Ht0) Hrun Ht) as [Hok _]. simpl in Hok.
  destruct (revisions_current _ _ _ Hok) as [_ Hv]. destruct Hok as (Hn & Hver & Hl & Hd).
  split_and!; [by rewrite Hver, Hv|lia|done|done].
Qed.

Lemma rollback_kept dur version path data b v notes f s d : keeps dur version path data (s, d) -> unmarshal_bundle data = Some b ->
  exists r' s4 d4, RollbackPolicyFor v version notes f s d = inr (r', s4, d4) /\
    p_sigmaRules (policy s4) = b_SigmaRules b /\ whitelistKeys (policy s4) = keysToSet (b_WhitelistKeys b) /\
    taintSourceKeys (policy s4) = keysToSet (b_TaintSources b) /\
    Version r' = nextVersion (policy s) /\ current (policy s4) = r' /\ history (policy s4) = history (policy s) ++ [r'].
Proof.
  intros [[Hp _] _ Hdir Hpath (r & Hr & Hv & Hrp & Hrh) Hf _] Hu. simpl in *. unfold RollbackPolicyFor.
  rewrite <-Hv, (find_version_spec _ _ _ _ Hp Hr).
  assert (readPolicyBundleLocked (files d) r = inr b) as ->.
  { unfold readPolicyBundleLocked. rewrite Hrp, Hrh, Hf, sha_hex_fold, andb_false_r, Hu. by rewrite Hpath, own_path_not_blank. }
  unfold install. destruct (writePolicyBundle _ _ _ _) as [res fs']. do 3 eexists. split; [reflexivity|].
  simpl. by destruct res as [|[??]].
Qed.

(** [C30] A policy published with its bundle written can be restored: after any further
    operations (restarts included, when the publication was saved), rolling back to its
    version succeeds, brings back exactly the rules of the publication (keys trimmed), and
    enters the history as the next version. *)
Theorem rollback_restores v0 cfg sd0 fs0 d0 s0 ops1 s1 d1 v notes f r s2 d2 path hash fs ops2 s3 d3 v' notes' f' :
  NewServer v0 cfg sd0 (mkDisk fs0 None) = (d0, inr s0) -> persisted_ok (persisted v0 s0) = true ->
  run ops1 (s0, d0) = Some (s1, d1) -> texts ops1 (s0, d0) = true ->
  blank (PolicyBundleDir (config s1)) = false ->
  PublishPolicyFor v notes f s1 d1 = (r, s2, d2) ->
  writePolicyBundle v (PolicyBundleDir (config s1)) (published_bundle v notes f s1) (files d1) = (inr (path, hash), fs) ->
  bundle_ok (published_bundle v notes f s1) = true -> persisted_ok (persisted v s2) = true ->
  run ops2 (s2, d2) = Some (s3, d3) -> texts ops2 (s2, d2) = true ->
  (OpRestart ∈ ops2.*2 -> (saveState v s2 d2).2 = None /\ blank (StateFile (config s1)) = false) ->
  exists r' s4 d4, RollbackPolicyFor v' (Version r) notes' f' s3 d3 = inr (r', s4, d4) /\
    p_sigmaRules (policy s4) = p_sigmaRules (policy s1) /\
    whitelistKeys (policy s4) = trimmed (whitelistKeys (policy s1)) /\
    taintSourceKeys (policy s4) = trimmed (taintSourceKeys (policy s1)) /\
    Version r' = nextVersion (policy s3) /\ current (policy s4) = r' /\ history (policy s4) = history (policy s3) ++ [r'].
Proof.
  intros Hs Ht0 Hrun1 Ht1 Hdir Hpub Hw Hb Ht2 Hrun2 Ht3 Hr.
  pose proof (center_run_ok _ _ _ (start_ok _ _ _ _ _ _ (doc_ok_none fs0) Hs Ht0) Hrun1 Ht1) as Hok.
  pose proof (start_config _ _ _ _ _ _ Hs) as Hn. pose proof (run_config _ (s0, d0) _ Hn Hrun1) as Hc. simpl in Hc. rewrite <-Hc in Hn.
  destruct (publish_keeps _ _ _ _ _ _ _ _ _ _ _ Hok Hn Hdir Hpub Hw Ht2) as (data & Hm & Hk).
  assert (keeps (bool_decide ((saveState v s2 d2).2 = None) && negb (blank (StateFile (config s1)))) (Version r) path data (s3, d3)) as Hk3.
  { apply (kept_run _ _ _ _ ops2 (s2, d2)); [done..|]. intros [-> ->]%Hr. done. }
  destruct (rollback_kept _ _ _ _ _ v' notes' f' _ _ Hk3 (bundle_roundtrip _ _ Hb Hm)) as (r' & s4 & d4 & E & Hsr & Hwl & Hts & Hrest).
  exists r', s4, d4. rewrite Hsr, Hwl, Hts. unfold published_bundle, buildPolicyBundleLocked. simpl. by rewrite !keys_restored.
Qed.
(** ** A revoked agent stays out *)

Section revoked.
Context (id : string) (cert : option (list Z)) (Hid : id <> "") (Htrim : TrimSpace id = id).

(** The stored fingerprint is that of [cert], when one is given. *)
Definition cert_is (fp : string) : Prop :=
  match cert with Some raw => normalizeCertFingerprint fp = fingerprintCertificate (Some raw) | None => True end.

Lemma cert_is_normal fp : cert_is fp -> cert_is (normalizeCertFingerprint fp).
Proof. unfold cert_is. destruct cert as [raw|]; [|done]. intros ->. apply fingerprint_normal. Qed.

Definition barred (m : agents) : Prop := exists a, m !! id = Some a /\ EnrollmentStatus a = "revoked" /\ cert_is (CertFingerprint a).

Definition barred_doc (d : Disk) : Prop := exists st md, holds d st /\ ps_Agents st !! id = Some md /\
  m_EnrollmentStatus md = "revoked" /\ cert_is (m_CertFingerprint md).

Lemma normalize_revoked : normalizeEnrollmentStatus "revoked" = "revoked".
Proof. reflexivity. Qed.

Lemma barred_status m : barred m -> agentEnrollment m id = ("revoked", EnrollmentNote (agent_at m id)).
Proof.
  intros (a & Ha & Hr & _). unfold agentEnrollment. rewrite Htrim, (proj2 (String.eqb_neq _ _) Hid).
  unfold agent_at. by rewrite Ha; simpl; rewrite Hr, normalize_revoked.
Qed.

Lemma barred_insert m id' a : id' <> id -> barred m -> barred (<[id' := a]> m).
Proof. intros Hne (b & Hb & H). exists b. by rewrite lookup_insert_ne. Qed.

Lemma barred_upsert m id' group tags : barred m -> barred (upsert_agent id' group tags m).
Proof.
  intros Hb. destruct (decide (id' = id)) as [-> | Hne]; [|by apply barred_insert].
  destruct Hb as (a & Ha & Hr & Hc). unfold upsert_agent. eexists. rewrite lookup_insert_eq. split; [done|].
  unfold agent_at. by rewrite Ha.
Qed.

Lemma barred_persisted v s : barred (ts_Agents (telemetry s)) -> exists md, ps_Agents (persisted v s) !! id = Some md /\
  m_EnrollmentStatus md = "revoked" /\ cert_is (m_CertFingerprint md).
Proof.
  intros (a & Ha & Hr & Hc). simpl. rewrite lookup_omap, map_lookup_imap, Ha. simpl. unfold persisted_metadata. simpl. rewrite Hr.
  rewrite !andb_false_r. simpl. eexists. split; [done|]. simpl. split; [done|]. by do 2 apply cert_is_normal.
Qed.

Lemma barred_save v s d fs : persisted_ok (persisted v s) = true -> barred (ts_Agents (telemetry s)) -> barred_doc d ->
  barred_doc (save v s (mkDisk fs (state_doc d))).
Proof.
  intros Ht Hb Hd. destruct (save_cases v s (mkDisk fs (state_doc d)) Ht) as [_ [->|Hh]]; [done|].
  destruct (barred_persisted v s Hb) as (md & ? & ?). by exists (persisted v s), md.
Qed.

(** The flag tells whether restarts are considered: then the document must carry the revocation. *)
Definition shut (durable : bool) (sd : Server * Disk) : Prop :=
  normalizeAgentMonitorConfig (config sd.1) = config sd.1 /\ barred (ts_Agents (telemetry sd.1)) /\
  (durable = true -> blank (StateFile (config sd.1)) = false /\ barred_doc sd.2).

Lemma report_barred v c events s d a s' d' : barred (ts_Agents (telemetry s)) -> ReportEvents v c events s d = (a, s', d') ->
  barred (ts_Agents (telemetry s')).
Proof.
  intros Hb. unfold ReportEvents. destruct (last events); [|by intros [= _ <- _]].
  destruct (foldl receive_event None events) as [su|].
  - destruct (decide (su_AgentID su = id)) as [-> | Hne].
    + rewrite barred_status by done. by intros [= _ <- _].
    + destruct (agentEnrollment _ _) as [st note]. case_match; [by intros [= _ <- _]|].
      set (s1 := set_telemetry _ s). assert (telemetry (refreshPolicyDeploymentFromAgents s1).1 = telemetry s1) as Hm
        by (unfold refreshPolicyDeploymentFromAgents; repeat case_match; done).
      destruct (refreshPolicyDeploymentFromAgents s1) as [s2 ch]. intros [= _ <- _]. simpl in Hm. rewrite Hm. by apply barred_insert.
  - destruct (agentEnrollment _ _) as [st note]. case_match; [by intros [= _ <- _]|].
    set (s1 := set_telemetry _ s). assert (telemetry (refreshPolicyDeploymentFromAgents s1).1 = telemetry s1) as Hm
      by (unfold refreshPolicyDeploymentFromAgents; repeat case_match; done).
    destruct (refreshPolicyDeploymentFromAgents s1) as [s2 ch]. intros [= _ <- _]. simpl in Hm. by rewrite Hm.
Qed.

Lemma load_barred st m : (exists md, ps_Agents st !! id = Some md /\ m_EnrollmentStatus md = "revoked" /\ cert_is (m_CertFingerprint md)) ->
  barred (load_agents st m).
Proof.
  intros (md & Hmd & Hr & Hc). unfold load_agents, barred. eexists. rewrite lookup_union, map_lookup_imap, Hmd. simpl.
  rewrite union_Some_l. split; [done|]. simpl. rewrite Hr, normalize_revoked. split; [done|]. by apply cert_is_normal.
Qed.

Lemma ensure_disk v s d d' s' : ensureCurrentPolicyBundle v s d = (d', inr s') ->
  d' = d \/ exists fs, d' = save v s' (mkDisk fs (state_doc d)).
Proof.
  unfold ensureCurrentPolicyBundle. case_match; [intros [= <- <-]; auto|]. case_match; [intros [= <- <-]; auto|].
  destruct (writePolicyBundle _ _ _ _) as [[e|[path hash]] fs]; [done|].
  set (s1 := set_policy _ s). destruct (saveState v s1 _) as [d1 [e|]] eqn:Es; [done|]. intros [= <- <-].
  right. exists fs. unfold save. by rewrite Es.
Qed.

Lemma shut_step durable v o sd sd' : shut durable sd -> step v o sd = Some sd' -> persisted_ok (persisted v sd'.1) = true ->
  (o = OpRestart -> durable = true) -> (forall id' st n, o = OpEnroll id' st n -> TrimSpace id' <> id) -> shut durable sd'.
Proof.
  intros (Hn & Hb & Hd) Hstep Ht Hr He. pose proof (center_step_config _ _ _ _ Hn Hstep) as Hc. rewrite <-Hc in Hn.
  unfold shut. rewrite Hc in *. destruct sd as [s d]. simpl in *.
  assert (forall fs, barred (ts_Agents (telemetry sd'.1)) -> sd'.2 = save v sd'.1 (mkDisk fs (state_doc d)) ->
    barred (ts_Agents (telemetry sd'.1)) /\ (durable = true -> blank (StateFile (config s)) = false /\ barred_doc sd'.2)) as Hsave.
  { intros fs Hb' ->. split; [done|]. intros Hdur. destruct (Hd Hdur) as [? ?]. split; [done|]. by apply barred_save. }
  split; [done|]. destruct o; simpl in Hstep.
  - by simplify_eq.
  - by simplify_eq.
  - destruct (UpdatePolicy v u s) as [[s1 ack]|] eqn:E; simplify_eq/=. apply update_frame in E as (_ & Htel & _). by rewrite Htel.
  - simplify_eq/=. apply (Hsave (files d)); [by apply barred_upsert|by destruct d].
  - unfold SetAgentEnrollment, enroll_agent in Hstep.
    destruct (String.eqb (TrimSpace id0) ""); [by simplify_eq|].
    destruct (String.eqb (normalizeEnrollmentStatus status) ""); simplify_eq/=; [done|].
    apply (Hsave (files d)); [apply barred_insert; [by eapply He|done]|by destruct d].
  - destruct (PublishPolicyFor v notes f s d) as [[r s1] d1] eqn:E. simplify_eq/=. apply install_save in E as (fs & -> & _ & Htel).
    apply (Hsave fs); [by rewrite Htel|done].
  - destruct (RollbackPolicyFor v version notes f s d) as [e|[[r s1] d1]] eqn:E; simplify_eq/=; [done|].
    unfold RollbackPolicyFor in E. destruct (find_version _ _); [|done]. injection E as E. apply install_save in E as (fs & -> & _ & Htel).
    apply (Hsave fs); [by rewrite Htel|done].
  - destruct (ReportEvents v cert0 events s d) as [[a s1] d1] eqn:E. simplify_eq/=. pose proof (report_barred _ _ _ _ _ _ _ _ Hb E) as Hb1.
    apply report_save in E as [[-> | ->] _]; [done|]. apply (Hsave (files d)); [done|by destruct d].
  - destruct (NewServer v _ _ d) as [d1 [e|s1]] eqn:E; simplify_eq/=.
    destruct (Hd (Hr eq_refl)) as (Hbl & st & md & (doc & Hdoc & Hu) & Hmd).
    unfold NewServer in E. simpl in E. rewrite Hn in E.
    unfold loadState, loadPersistedControlPlaneState in E. simpl in E. rewrite Hbl, Hdoc, Hu in E.
    destruct (e_load v); [done|]. pose proof (ensure_config _ _ _ _ _ E) as [_ Htel].
    assert (barred (ts_Agents (telemetry s1))) as Hb1 by (rewrite Htel; simpl; apply load_barred; eauto).
    apply ensure_disk in E as [-> | [fs ->]]; [done|]. by apply (Hsave fs).
Qed.

Lemma shut_run durable ops sd sd' : shut durable sd -> run ops sd = Some sd' -> texts ops sd = true ->
  (OpRestart ∈ ops.*2 -> durable = true) -> Forall (fun o => forall id' st n, o = OpEnroll id' st n -> TrimSpace id' <> id) ops.*2 -> shut durable sd'.
Proof.
  revert sd. induction ops as [|[v o] ops IH]; intros sd Hk Hrun Ht Hr He; simpl in *; [by simplify_eq|].
  destruct (step v o sd) as [sd1|] eqn:E; simpl in Hrun; [|done]. apply andb_true_iff in Ht as [Ht1 Ht]. apply Forall_cons in He as [He1 He].
  eapply IH; [|done|done|intros; apply Hr; set_solver|done]. eapply shut_step; [done|done|done| |done]. intros ->. apply Hr. set_solver.
Qed.
End revoked.
Lemma barred_refused id raw c m certs : barred id (Some raw) m ->
  VerifyPeerCertificate c m None (raw :: certs) = Some (CertRevoked (fingerprintCertificate (Some raw))).
Proof.
  intros (a & Ha & Hr & Hc). unfold VerifyPeerCertificate, isClientCertRevoked. rewrite fingerprint_normal. case_match; [done|].
  assert (fingerprintCertificate (Some raw) <> "") as Hne.
  { unfold fingerprintCertificate. destruct (fingerprint_two raw) as (x & y & l & ->). simpl. by destruct x. }
  rewrite (proj2 (String.eqb_neq _ _) Hne).
  assert (existsb (fun a => revoked a && String.eqb (normalizeCertFingerprint (CertFingerprint a)) (fingerprintCertificate (Some raw)))
    (snd <$> map_to_list m) = true) as ->; [|done].
  apply existsb_exists. exists a. split.
  - apply list_elem_of_In, list_elem_of_fmap. exists (id, a). split; [done|]. by apply elem_of_map_to_list.
  - unfold revoked. rewrite Hr, normalize_revoked. simpl. by apply String.eqb_eq.
Qed.

Lemma barred_rejected id c v cert events su s d : id <> "" -> barred id c (ts_Agents (telemetry s)) ->
  foldl receive_event None events = Some su -> TrimSpace (su_AgentID su) = id ->
  exists msg, ReportEvents v cert events s d = (mkReportAck false 3 msg, s, d).
Proof.
  intros Hid (a & Ha & Hr & _) Hsu Ht. unfold ReportEvents. destruct events as [|e events]; [done|].
  destruct (last (e :: events)) as [e'|] eqn:El; [|by apply last_None in El]. rewrite Hsu.
  unfold agentEnrollment. rewrite Ht, (proj2 (String.eqb_neq _ _) Hid). unfold agent_at at 1 2. rewrite Ha.
  change (default zero_snapshot (Some a)) with a. rewrite Hr, normalize_revoked. cbn [String.eqb]. eauto.
Qed.

(** Revoking an agent on a running server bars it there, and on the disk when the save succeeds. *)
Lemma revoke_shut id cert v status note s d s' d' : TrimSpace id = id -> normalizeEnrollmentStatus status = "revoked" ->
  cert_is cert (CertFingerprint (agent_at (ts_Agents (telemetry s)) id)) ->
  normalizeAgentMonitorConfig (config s) = config s -> persisted_ok (persisted v s') = true ->
  SetAgentEnrollment v id status note s d = (None, s', d') ->
  id <> "" /\ shut id cert (bool_decide ((saveState v s' d').2 = None) && negb (blank (StateFile (config s)))) (s', d').
Proof.
  intros Htrim Hst Hc Hn Ht. unfold SetAgentEnrollment, enroll_agent. rewrite Htrim. destruct (String.eqb_spec id ""); [done|].
  rewrite Hst. simpl. intros [= <- <-]. split; [done|]. set (s' := set_agents _ s) in *.
  assert (barred id cert (ts_Agents (telemetry s'))) as Hb.
  { eexists. simpl. rewrite lookup_insert_eq. split; [done|]. done. }
  split_and!; [done|done|]. simpl. intros [Hs Hbl]%andb_true_iff. apply bool_decide_eq_true in Hs. apply negb_true_iff in Hbl. split; [done|].
  unfold save. destruct (saveState v s' d) as [d1 err] eqn:E. simpl.
  destruct (saveState_cases _ _ _ _ _ E Ht) as [_ [[-> He]|Hh]].
  - assert (save v s' d = d) as Es by (unfold save; by rewrite E). rewrite Es, E in Hs. specialize (He Hs). simpl in He. congruence.
  - destruct (barred_persisted id cert v s' Hb) as (md & ? & ?). by exists (persisted v s'), md.
Qed.

(** [C31] Once an agent is revoked it stays out: after any further operations that do not
    change its enrollment (restarts included, when the revocation was saved), every report
    in its name is rejected with the highest throttle level and changes nothing, it is the
    target of no policy, and the certificate it last reported with is refused at the
    handshake. *)
Theorem revocation_holds v0 cfg sd0 disk0 d0 s0 ops1 s1 d1 v id status note s2 d2 ops2 s3 d3 :
  NewServer v0 cfg sd0 disk0 = (d0, inr s0) -> run ops1 (s0, d0) = Some (s1, d1) ->
  TrimSpace id = id -> normalizeEnrollmentStatus status = "revoked" ->
  SetAgentEnrollment v id status note s1 d1 = (None, s2, d2) -> persisted_ok (persisted v s2) = true ->
  run ops2 (s2, d2) = Some (s3, d3) -> texts ops2 (s2, d2) = true ->
  Forall (fun o => forall id' st n, o = OpEnroll id' st n -> TrimSpace id' <> id) ops2.*2 ->
  (OpRestart ∈ ops2.*2 -> (saveState v s2 d2).2 = None /\ blank (StateFile (config s1)) = false) ->
  (forall v' cert events su, foldl receive_event None events = Some su -> TrimSpace (su_AgentID su) = id ->
     exists msg, ReportEvents v' cert events s3 d3 = (mkReportAck false 3 msg, s3, d3)) /\
  (forall f, is_target f (agent_at (ts_Agents (telemetry s3)) id) = false) /\
  (forall raw certs, CertFingerprint (agent_at (ts_Agents (telemetry s1)) id) = fingerprintCertificate (Some raw) ->
     VerifyPeerCertificate (config s3) (ts_Agents (telemetry s3)) None (raw :: certs)
     = Some (CertRevoked (fingerprintCertificate (Some raw)))).
Proof.
  intros Hs Hrun1 Htrim Hst Hset Ht Hrun2 Ht2 He Hr.
  pose proof (start_config _ _ _ _ _ _ Hs) as Hn. pose proof (run_config _ (s0, d0) _ Hn Hrun1) as Hc. simpl in Hc. rewrite <-Hc in Hn.
  assert (forall cert, cert_is cert (CertFingerprint (agent_at (ts_Agents (telemetry s1)) id)) ->
    id <> "" /\ barred id cert (ts_Agents (telemetry s3))) as Hb.
  { intros cert Hcert. destruct (revoke_shut _ _ _ _ _ _ _ _ _ Htrim Hst Hcert Hn Ht Hset) as [Hid Hsh]. split; [done|].
    eapply (shut_run id cert Hid Htrim _ ops2 (s2, d2) (s3, d3)); [exact Hsh|done..| |done]. intros [-> ->]%Hr. done. }
  destruct (Hb None I) as [Hid Hb0]. split_and!.
  - intros v' cert events su. by apply (barred_rejected id None).
  - intros f. destruct Hb0 as (a & Ha & Hrev & _). unfold is_target, revoked, agent_at. rewrite Ha. change (default zero_snapshot (Some a)) with a. by rewrite Hrev, normalize_revoked.
  - intros raw certs Hraw. apply (barred_refused id). apply Hb. unfold cert_is. rewrite Hraw. apply fingerprint_normal.
Qed.
(** ** Acknowledgements are exact *)

(** The agents in the target of the current policy that report at least its version. *)
Definition acked_now (s : Server) : Z :=
  let c := current (policy s) in
  Z.of_nat (length (List.filter (counts_for (TargetGroup c) (TargetTag c) (Version c)) (snd <$> map_to_list (ts_Agents (telemetry s))))).

(** After an accepted report the current policy counts exactly the agents that apply it, up to
    the number targeted when it was published, and it is applied exactly when that is reached. *)
Lemma deployment_exact v cert events s d a s' d' : policy_ok (policy s) -> 0 < TargetAgents (current (policy s)) -> events <> [] ->
  ReportEvents v cert events s d = (a, s', d') -> Accepted a = true ->
  let c := current (policy s') in
  AckedAgents c = Z.min (TargetAgents c) (acked_now s') /\ PendingAgents c = TargetAgents c - AckedAgents c /\
  (DeploymentStatus c = "applied" <-> PendingAgents c = 0).
Proof.
  intros Hp Htgt Hev. unfold ReportEvents. destruct (last events) eqn:El; [|by apply last_None in El].
  destruct (agentEnrollment _ _) as [st note]. case_match; [by intros [= <- _ _]|]. set (s1 := set_telemetry _ s).
  intros E _. assert (s' = (refreshPolicyDeploymentFromAgents s1).1) as ->
    by (destruct (refreshPolicyDeploymentFromAgents s1); by injection E as _ <- _). clear E.
  destruct (revisions_current _ _ _ Hp) as [Hc Hv]. destruct (revisions_version _ _ _ _ Hp Hc) as [Hpos _].
  unfold refreshPolicyDeploymentFromAgents, acked_now.
  rewrite (proj2 (Z.leb_gt (Version (current (policy s1))) 0)), (proj2 (Z.leb_gt (TargetAgents (current (policy s1))) 0)) by (simpl; lia). simpl orb. cbv iota.
  set (n := Z.of_nat (length _)). set (acked := if _ <? n then _ else _). set (pending := Z.max 0 _). set (status := if pending =? 0 then _ else _).
  assert (acked = Z.min (TargetAgents (current (policy s1))) n) as Ha by (unfold acked; case_match; lia).
  assert (pending = TargetAgents (current (policy s1)) - acked) as Hpe by (unfold pending; lia).
  assert (status = "applied" <-> pending = 0) as Hst.
  { unfold status. destruct (Z.eqb_spec pending 0); [done|]. split; [|done]. case_bool_decide as Hin; [done|]. intros Hd. set_solver. }
  destruct ((_ =? acked) && _ && _) eqn:Esame; simpl.
  - apply andb_true_iff in Esame as [[H1%Z.eqb_eq H2%Z.eqb_eq]%andb_true_iff H3%String.eqb_eq].
    change (policy s1) with (policy s) in *. rewrite H1, H2, H3. split_and!; [exact Ha|exact Hpe|exact Hst].
  - change (policy s1) with (policy s) in *. split_and!; [exact Ha|exact Hpe|exact Hst].
Qed.

(** ** Limits *)

(** A publication whose bundle could not be written names the bundle of the version before. *)
Lemma publish_unwritten v notes f s d r s' d' e fs : PublishPolicyFor v notes f s d = (r, s', d') ->
  writePolicyBundle v (PolicyBundleDir (config s)) (published_bundle v notes f s) (files d) = (inl e, fs) ->
  BundlePath r = BundlePath (current (policy s)) /\ BundleSHA256 r = BundleSHA256 (current (policy s)) /\ Version r = nextVersion (policy s).
Proof.
  unfold PublishPolicyFor, install. change (buildPolicyBundleLocked (clock v 4) _ _) with (published_bundle v notes f s).
  intros H Hw. rewrite Hw in H. by injection H as <- _ _.
Qed.

(** A rollback changes the bookkeeping only: the rules in force (of the analyzer, of the
    kernel maps and of the taint sources) stay. *)
Lemma rollback_enforces_nothing v version notes f s d r s' d' : RollbackPolicyFor v version notes f s d = inr (r, s', d') ->
  analyzer s' = analyzer s /\ ctrl s' = ctrl s /\ seeds s' = seeds s.
Proof.
  unfold RollbackPolicyFor. destruct (find_version _ _); [|done]. unfold install.
  destruct (writePolicyBundle _ _ _ _) as [res fs]. by intros [= _ <- _].
Qed.

(** Every update of the whitelist is acknowledged as successful, also when it failed. *)
Lemma whitelist_always_succeeds v action target value s s' ack :
  UpdatePolicy v (UpWhitelist action target value) s = Some (s', ack) -> Success ack = true.
Proof. unfold UpdatePolicy. simpl. destruct (applyWhitelistUpdate _ _ _ _ _). by intros [= _ <-]. Qed.

(** Clearing the command names, or the paths, forgets every whitelist key, processes included. *)
Lemma clear_forgets_all v c s : ctrl s = Some c -> whitelistKeys (policy (applyWhitelistUpdate v "clear" "comm" "" s).1) = ∅.
Proof. unfold applyWhitelistUpdate. by intros ->. Qed.
End center.

(** ** A concrete codec *)

Fixpoint bits (p : positive) : string :=
  match p with xH => "." | xO p => String "0" (bits p) | xI p => String "1" (bits p) end.
Fixpoint of_bits (s : string) : positive :=
  match s with
  | String c s => if decide (c = "0"%char) then xO (of_bits s) else if decide (c = "1"%char) then xI (of_bits s) else xH
  | EmptyString => xH
  end.
Lemma of_bits_bits p : of_bits (bits p) = p.
Proof. induction p; simpl; congruence. Qed.

#[local] Instance report_eq_dec : EqDecision HostReport.
Proof. solve_decision. Defined.
#[local] Instance report_countable : Countable HostReport.
Proof.
  refine (inj_countable (fun r => ([Hostname r; OS r; OSVersion r; Kernel r; Architecture r; AgentVersion r; AttachmentMode r;
      LastAlertID r; LastAlertPattern r; LastAlertSeverity r; LastAlertHeadline r; LastAlertReason r],
      [CPUCount r; EventsIngested r; EventsDropped r; GraphNodes r; GraphEdges r; MemoryBytes r; UptimeSeconds r; AlertCount r; MLAlertCount r]))
    (fun '(t, n) => match t, n with
      | [a; b; c; d; e; f; g; h; i; j; k; l], [n1; n2; n3; n4; n5; n6; n7; n8; n9] =>
          Some (mkReport a b c d e n1 f n2 n3 n4 n5 n6 n7 g n8 n9 h i j k l)
      | _, _ => None end) _).
  by intros [].
Defined.

#[local] Instance snapshot_eq_dec : EqDecision AgentTelemetrySnapshot.
Proof. solve_decision. Defined.
#[local] Instance snapshot_countable : Countable AgentTelemetrySnapshot.
Proof.
  refine (inj_countable (fun a => (Report a, ([AgentID a; Group a; Status a; StatusReason a; EnrollmentStatus a; EnrollmentNote a; CertFingerprint a],
      Tags a, [LastReportAt a; LastReportAge a; AppliedPolicyVersion a; EnrollmentUpdatedAt a], (PipelineHealthy a, StoreHealthy a))))
    (fun '(r, (t, tags, n, (ph, sh))) => match t, n with
      | [a; b; c; d; e; f; g], [n1; n2; n3; n4] => Some (mkSnapshot a r b tags c d n1 n2 ph sh n3 e f n4 g)
      | _, _ => None end) _).
  by intros [].
Defined.

#[local] Instance metadata_eq_dec : EqDecision persistedAgentMetadata.
Proof. solve_decision. Defined.
#[local] Instance metadata_countable : Countable persistedAgentMetadata.
Proof.
  refine (inj_countable (fun m => ([m_Group m; m_EnrollmentStatus m; m_EnrollmentNote m; m_CertFingerprint m], m_Tags m, m_EnrollmentUpdatedAt m))
    (fun '(t, tags, n) => match t with [a; b; c; d] => Some (mkMetadata a tags b c n d) | _ => None end) _).
  by intros [].
Defined.

#[local] Instance revision_eq_dec : EqDecision PolicyRevision.
Proof. solve_decision. Defined.
#[local] Instance revision_countable : Countable PolicyRevision.
Proof.
  refine (inj_countable (fun r => ([State r; Notes r; DeploymentStatus r; TargetGroup r; TargetTag r; BundlePath r; BundleSHA256 r], SigmaRuleIDs r,
      [Version r; UpdatedAt r; PublishedAt r; ActiveRules r; WhitelistCount r; TaintSourceCount r; TargetAgents r; AckedAgents r; PendingAgents r]))
    (fun '(t, ids, n) => match t, n with
      | [a; b; c; d; e; f; g], [n1; n2; n3; n4; n5; n6; n7; n8; n9] => Some (mkRevision n1 a b n2 n3 n4 ids n5 n6 c d e n7 n8 n9 f g)
      | _, _ => None end) _).
  by intros [].
Defined.

#[local] Instance bundle_eq_dec : EqDecision policyBundle.
Proof. solve_decision. Defined.
#[local] Instance bundle_countable : Countable policyBundle.
Proof.
  refine (inj_countable' (fun b => (b_State b, (b_Notes b, (b_TaintSources b, (b_WhitelistKeys b, (b_SigmaRules b, (b_Version b, b_GeneratedAt b)))))))
    (fun '(st, (n, (t, (w, (m, (v, g)))))) => mkBundle v st n g m w t) _).
  by intros [].
Defined.

#[local] Instance persisted_policy_eq_dec : EqDecision persistedPolicyState.
Proof. solve_decision. Defined.
#[local] Instance persisted_eq_dec : EqDecision persistedControlPlaneState.
Proof. solve_decision. Defined.
#[local] Instance persisted_countable : Countable persistedControlPlaneState.
Proof.
  refine (inj_countable (fun s => (ps_Agents s, ps_Fleet s, pp_Bundle (ps_Policy s), pp_Current (ps_Policy s) :: pp_Draft (ps_Policy s) :: pp_History (ps_Policy s),
      [pp_NextVersion (ps_Policy s); ps_SavedAt s; ps_SchemaVersion s]))
    (fun '(a, f, b, rs, n) => match rs, n with
      | c :: d :: h, [n1; n2; n3] => Some (mkPersisted a f (mkPersistedPolicy c d h n1 b) n2 n3)
      | _, _ => None end) _).
  by intros [?? []].
Defined.

Program Definition bit_json : MgmtJson := {|
  marshal_bundle b := Some (bits (encode b));
  unmarshal_bundle d := decode (of_bits d);
  marshal_state st := Some (bits (encode st));
  unmarshal_state d := decode (of_bits d);
  jsonb d := d;
|}.
Next Obligation. intros b d _ [= <-]. rewrite of_bits_bits. apply decode_encode. Qed.
Next Obligation. intros b d _ [= <-]. rewrite of_bits_bits. apply decode_encode. Qed.
Next Obligation. done. Qed.

(** ** A concrete server *)

Definition good : env :=
  mkEnv Z.of_nat (mkBundleCalls None None None) (mkSaveCalls None None None None None None) None (inr []) [] None.
(** No bundle can be written. *)
Definition disk_full : env :=
  mkEnv Z.of_nat (mkBundleCalls None (Some "no space left on device") None)
    (mkSaveCalls None None None None None None) None (inr []) [] None.

Definition cfg1 : ServerConfig := mkConfig 0 0 "" "/s" [].
Definition no_yaml (s : string) : string + Rule := inl "yaml".
Abbreviation start1 := (@NewServer ascii_case alternating_order merge_sort_slice bit_json good (Some cfg1) default_seeds (mkDisk ∅ None)).
Abbreviation run1 := (@run ascii_case alternating_order merge_sort_slice bit_json no_yaml (fun s => s)).
Abbreviation publish1 := (@PublishPolicyFor ascii_case alternating_order merge_sort_slice bit_json).
Abbreviation rollback1 := (@RollbackPolicyFor ascii_case alternating_order merge_sort_slice bit_json).

Definition s0 : Server := match start1.2 with inr s => s | inl _ => fresh 0 cfg1 default_seeds end.
Definition d0 : Disk := start1.1.

Definition add_curl : env * op := (good, OpUpdate (UpTaintSource "add" "" "curl")).
Definition remove_curl : env * op := (good, OpUpdate (UpTaintSource "remove" "" "curl")).

Definition sd_of (r : option (Server * Disk)) : Server * Disk := default (s0, d0) r.
Definition s1 : Server := (sd_of (run1 [add_curl] (s0, d0))).1.
Definition d1 : Disk := (sd_of (run1 [add_curl] (s0, d0))).2.
Definition s2 : Server := (publish1 good "on" (mkFilter "" "") s1 d1).1.2.
Definition d2 : Disk := (publish1 good "on" (mkFilter "" "") s1 d1).2.
Definition w2 := @writePolicyBundle bit_json good "/s" (@published_bundle ascii_case alternating_order merge_sort_slice good "on" (mkFilter "" "") s1) (files d1).
Definition ops2 : list (env * op) := [remove_curl].
Definition s3 : Server := (sd_of (run1 ops2 (s2, d2))).1.
Definition d3 : Disk := (sd_of (run1 ops2 (s2, d2))).2.

Lemma started1 : bool_decide (is_Some (match start1.2 with inr s => Some s | inl _ => None end)) = true -> start1 = (d0, inr s0).
Proof. unfold d0, s0. destruct start1 as [d [e|s]]; done. Qed.
Lemma ran1 (r : option (Server * Disk)) : match r with Some _ => true | None => false end = true -> r = Some ((sd_of r).1, (sd_of r).2).
Proof. by destruct r as [[??]|]. Qed.
Lemma wrote2 : (match w2.1 with inr _ => true | inl _ => false end) = true ->
  w2 = (inr (match w2.1 with inr x => x | inl _ => ("", "") end), w2.2).
Proof. by destruct w2 as [[e|[??]] fs]. Qed.

Lemma ops2_no_restart : OpRestart ∉ ops2.*2.
Proof. unfold ops2. rewrite !fmap_cons, fmap_nil, !elem_of_cons, elem_of_nil. intros [?|[]]; done. Qed.

Lemma rollback_restores_witness : exists r' s4 d4,
  rollback1 good 2 "back" (mkFilter "" "") s3 d3 = inr (r', s4, d4) /\
  taintSourceKeys (policy s4) = {["|curl"]} /\ taintSourceKeys (policy s3) = ∅ /\ Version r' = 3.
Proof.
  destruct (@rollback_restores ascii_case alternating_order merge_sort_slice bit_json no_yaml (fun s => s)
    good (Some cfg1) default_seeds ∅ d0 s0 [add_curl] s1 d1 good "on" (mkFilter "" "")
    (publish1 good "on" (mkFilter "" "") s1 d1).1.1 s2 d2 (match w2.1 with inr x => x.1 | inl _ => "" end)
    (match w2.1 with inr x => x.2 | inl _ => "" end) w2.2 ops2 s3 d3 good "back" (mkFilter "" ""))
    as (r' & s4 & d4 & E & _ & _ & Ht & Hv & _).
  - apply started1. vm_compute. reflexivity.
  - vm_compute. reflexivity.
  - apply ran1. vm_compute. reflexivity.
  - vm_compute. reflexivity.
  - vm_compute. reflexivity.
  - unfold s2, d2. by destruct (publish1 good "on" (mkFilter "" "") s1 d1) as [[??]?].
  - transitivity w2; [reflexivity|]. rewrite wrote2 at 1 by (vm_compute; reflexivity). by destruct w2.1 as [|[??]].
  - vm_compute. reflexivity.
  - vm_compute. reflexivity.
  - apply ran1. vm_compute. reflexivity.
  - vm_compute. reflexivity.
  - intros H. by apply ops2_no_restart in H.
  - exists r', s4, d4. split_and!.
    + replace 2 with (Version (publish1 good "on" (mkFilter "" "") s1 d1).1.1) by (vm_compute; reflexivity). exact E.
    + rewrite Ht. vm_compute. reflexivity.
    + vm_compute. reflexivity.
    + rewrite Hv. vm_compute. reflexivity.
Defined.

Lemma policy_history_exact_witness : Version <$> history (policy s1) = [1].
Proof.
  destruct (@policy_history_exact ascii_case alternating_order merge_sort_slice bit_json no_yaml (fun s => s)
    good (Some cfg1) default_seeds ∅ d0 s0 [add_curl] s1 d1) as (H & _).
  - apply started1. vm_compute. reflexivity.
  - vm_compute. reflexivity.
  - apply ran1. vm_compute. reflexivity.
  - vm_compute. reflexivity.
  - rewrite H. vm_compute. reflexivity.
Defined.

(** A publication on a full disk, then a rollback to it: the rules are those of version one. *)
Example rollback_to_unwritten :
  let '(r, sa, da) := publish1 disk_full "on" (mkFilter "" "") s1 d1 in
  match rollback1 good (Version r) "back" (mkFilter "" "") sa da with
  | inr (_, s, _) => (Version r, elements (taintSourceKeys (policy sa)), elements (taintSourceKeys (policy s))) = (2, ["|curl"], [])
  | inl _ => False
  end.
Proof. vm_compute. reflexivity. Qed.

(** ** A concrete revocation *)

Definition report_of (id : string) (applied : Z) : TelemetryEvent :=
  mkTelemetryEvent "summary" (Some (mkSummary id zero_report "HEALTHY" true true applied)).
Definition cert_a : list Z := [1; 2].
Definition ops_a : list (env * op) := [(good, OpReport (Some cert_a) [report_of "a" 0])].
Definition sa : Server := (sd_of (run1 ops_a (s0, d0))).1.
Definition da : Disk := (sd_of (run1 ops_a (s0, d0))).2.
Abbreviation enroll1 := (@SetAgentEnrollment ascii_case alternating_order merge_sort_slice bit_json).
Definition sb : Server := (enroll1 good "a" "deny" "lost" sa da).1.2.
Definition db : Disk := (enroll1 good "a" "deny" "lost" sa da).2.
Definition ops_b : list (env * op) := [(good, OpMetadata "a" "web" None); (good, OpReport None [report_of "a" 1])].
Definition sc : Server := (sd_of (run1 ops_b (sb, db))).1.
Definition dc : Disk := (sd_of (run1 ops_b (sb, db))).2.

Lemma revocation_holds_witness :
  (exists msg, @ReportEvents ascii_case alternating_order merge_sort_slice bit_json (fun s => s) good (Some cert_a) [report_of " a" 1] sc dc
     = (mkReportAck false 3 msg, sc, dc)) /\
  @VerifyPeerCertificate ascii_case (config sc) (ts_Agents (telemetry sc)) None [cert_a] = Some (CertRevoked (fingerprintCertificate (Some cert_a))).
Proof.
  destruct (@revocation_holds ascii_case alternating_order merge_sort_slice bit_json no_yaml (fun s => s)
    good (Some cfg1) default_seeds (mkDisk ∅ None) d0 s0 ops_a sa da good "a" "deny" "lost" sb db ops_b sc dc) as (Hrep & _ & Hcert).
  - apply started1. vm_compute. reflexivity.
  - apply ran1. vm_compute. reflexivity.
  - reflexivity.
  - reflexivity.
  - unfold sb, db. assert ((enroll1 good "a" "deny" "lost" sa da).1.1 = None) as Hn by (vm_compute; reflexivity).
    destruct (enroll1 good "a" "deny" "lost" sa da) as [[err s] d]. simpl in Hn. by rewrite Hn.
  - vm_compute. reflexivity.
  - apply ran1. vm_compute. reflexivity.
  - vm_compute. reflexivity.
  - repeat constructor; intros id' st n [=].
  - unfold ops_b. rewrite !fmap_cons, fmap_nil, !elem_of_cons, elem_of_nil. intros [?|[?|[]]]; done.
  - split; [|apply Hcert; vm_compute; reflexivity]. eapply Hrep; [reflexivity|vm_compute; reflexivity].
Defined.

(** Agents that join after the publication can complete it for those it was meant for. *)
Example applied_without_targets :
  let publish s d := (publish1 good "p" (mkFilter "" "") s d).1.2 in
  let s := publish sa da in
  let s := (@ReportEvents ascii_case alternating_order merge_sort_slice bit_json (fun s => s) good None [report_of "new" 2] s da).1.2 in
  (TargetAgents (current (policy s)), DeploymentStatus (current (policy s)), AppliedPolicyVersion (agent_at (ts_Agents (telemetry s)) "a"))
  = (1, "applied", 0).
Proof. vm_compute. reflexivity. Qed.
