(* ===== verification/AlertStream.v ===== *)
(** * Streaming of alerts to management clients

    Translates the subscriptions of [internal/policy/mgmt/server.go]: at most 64 channels of
    64 alerts each, to which every alert is sent without waiting.  A channel is a number;
    what it holds and whether it is closed is kept in a map, as the slice of the server and
    the client's loop share it. *)
From S2P Require Import Prelude Analyzer.

Open Scope Z_scope.

Definition severityString (sev : Z) : string :=
  if sev =? SeverityInfo then "INFO" else if sev =? SeverityLow then "LOW" else if sev =? SeverityMedium then "MEDIUM"
  else if sev =? SeverityHigh then "HIGH" else if sev =? SeverityCritical then "CRITICAL" else "UNKNOWN".

Record AlertEvent := mkAlertEvent { TimestampNs : Z; AlertId : string; Severity : string; Title : string; Description : string }.

(** [reason]: the alert's reason, which the alerts of [Analyzer] do not carry. *)
Definition alertToEvent (reason : string) (al : Alert) : AlertEvent :=
  mkAlertEvent (time_UnixNano (DetectedAt al)) (Pattern al +:+ ":" +:+ AlertNodeID al)
    (severityString (Analyzer.Severity al)) (Headline al) reason.

Record channel := mkChan { buffer : list AlertEvent; closed : bool }.
Record alertSubscription := mkSub { subs : list nat; maxSubs : Z; chans : gmap nat channel }.

Definition chan_cap : nat := 64.

(** A send that does not wait; [None]: a send on a closed channel panics. *)
Definition try_send (evt : AlertEvent) (m : gmap nat channel) (ch : nat) : option (gmap nat channel) :=
  match m !! ch with
  | Some c =>
      if closed c then None
      else if (length (buffer c) <? chan_cap)%nat then Some (<[ch := mkChan (buffer c ++ [evt]) false]> m) else Some m
  | None => Some m
  end.

Fixpoint send_all (evt : AlertEvent) (l : list nat) (m : gmap nat channel) : option (gmap nat channel) :=
  match l with [] => Some m | ch :: l => m ← try_send evt m ch; send_all evt l m end.

Definition broadcast (evt : AlertEvent) (as_ : alertSubscription) : option alertSubscription :=
  m ← send_all evt (subs as_) (chans as_); Some (mkSub (subs as_) (maxSubs as_) m).

Definition subscribe (ch : nat) (as_ : alertSubscription) : alertSubscription :=
  let mx := if maxSubs as_ =? 0 then 64 else maxSubs as_ in
  if mx <=? Z.of_nat (length (subs as_)) then mkSub (subs as_) mx (chans as_) else mkSub (subs as_ ++ [ch]) mx (chans as_).

Fixpoint remove_first (ch : nat) (l : list nat) : option (list nat) :=
  match l with
  | [] => None
  | x :: l => if (x =? ch)%nat then Some l else cons x <$> remove_first ch l
  end.

Definition unsubscribe (ch : nat) (as_ : alertSubscription) : alertSubscription :=
  match remove_first ch (subs as_) with
  | None => as_
  | Some l => mkSub l (maxSubs as_) (<[ch := mkChan (default [] (buffer <$> chans as_ !! ch)) true]> (chans as_))
  end.

(** [WatchAlerts]: a new channel, the subscription, and one turn of the loop. *)
Definition watch_start (ch : nat) (as_ : alertSubscription) : alertSubscription :=
  subscribe ch (mkSub (subs as_) (maxSubs as_) (<[ch := mkChan [] false]> (chans as_))).
Definition watch_receive (ch : nat) (as_ : alertSubscription) : alertSubscription * option AlertEvent :=
  match chans as_ !! ch with
  | Some (mkChan (e :: l) b) => (mkSub (subs as_) (maxSubs as_) (<[ch := mkChan l b]> (chans as_)), Some e)
  | _ => (as_, None)
  end.

(** ** Runs *)

Inductive act := Start (ch : nat) | Stop (ch : nat) | Alert (e : AlertEvent) | Take (ch : nat).

Definition act_step (a : act) (s : alertSubscription) : option alertSubscription :=
  match a with
  | Start ch => if decide (ch ∈ dom (chans s)) then None else Some (watch_start ch s)
  | Stop ch => Some (unsubscribe ch s)
  | Alert e => broadcast e s
  | Take ch => Some (watch_receive ch s).1
  end.

(** Channels are created open and once; those of the list are open and distinct. *)
Definition sub_ok (s : alertSubscription) : Prop :=
  NoDup (subs s) /\ (forall ch, ch ∈ subs s -> exists c, chans s !! ch = Some c /\ closed c = false) /\
  (maxSubs s = 0 \/ maxSubs s = 64) /\ (length (subs s) <= 64)%nat.

Lemma send_frame evt l m m' ch : ch ∉ l -> send_all evt l m = Some m' -> m' !! ch = m !! ch.
Proof.
  revert m. induction l as [|x l IH]; intros m Hn; simpl; [by intros [= ->]|]. apply not_elem_of_cons in Hn as [Hx Hn].
  destruct (try_send evt m x) as [m1|] eqn:E; [|done]. simpl. intros H. rewrite (IH _ Hn H). unfold try_send in E.
  repeat case_match; simplify_eq; [|done..]. by rewrite lookup_insert_ne.
Qed.

(** What one alert does to a registered channel: appended unless 64 are waiting. *)
Definition offered (evt : AlertEvent) (c : channel) : channel :=
  if (length (buffer c) <? chan_cap)%nat then mkChan (buffer c ++ [evt]) false else c.

Lemma send_all_spec evt l m : NoDup l -> (forall ch, ch ∈ l -> exists c, m !! ch = Some c /\ closed c = false) ->
  exists m', send_all evt l m = Some m' /\ forall ch, m' !! ch = if decide (ch ∈ l) then offered evt <$> m !! ch else m !! ch.
Proof.
  revert m. induction l as [|x l IH]; intros m Hnd Hop; simpl; [by exists m|]. apply NoDup_cons in Hnd as [Hx Hnd].
  destruct (Hop x) as (c & Hc & Ho); [set_solver|].
  assert (try_send evt m x = Some (<[x := offered evt c]> m)) as ->.
  { unfold try_send, offered. rewrite Hc, Ho. case_match; [done|]. by rewrite insert_id. }
  destruct (IH (<[x := offered evt c]> m) Hnd) as (m' & Hm' & Hl).
  { intros ch Hch. destruct (Hop ch) as (c' & Hc' & Ho'); [set_solver|]. exists c'. rewrite lookup_insert_ne; [done|]. intros ->. done. }
  exists m'. split; [done|]. intros ch. rewrite Hl. destruct (decide (ch = x)) as [-> | Hne].
  - rewrite decide_False, decide_True by set_solver. by rewrite lookup_insert_eq, Hc.
  - rewrite lookup_insert_ne by done. destruct (decide (ch ∈ l)); [rewrite decide_True by set_solver|rewrite decide_False by set_solver]; done.
Qed.

Lemma remove_first_spec ch l l' : remove_first ch l = Some l' -> exists a b, l = a ++ ch :: b /\ l' = a ++ b.
Proof.
  revert l'. induction l as [|x l IH]; intros l'; simpl; [done|]. destruct (Nat.eqb_spec x ch) as [->|].
  - intros [= <-]. by exists [], l.
  - destruct (remove_first ch l) as [k|]; [|done]. intros [= <-]. destruct (IH k eq_refl) as (a & b & -> & ->). by exists (x :: a), b.
Qed.

(** No alert is ever sent on a closed channel: every step succeeds and keeps the invariant. *)
Lemma act_ok a s : sub_ok s -> (forall ch, a = Start ch -> ch ∉ dom (chans s)) -> exists s', act_step a s = Some s' /\ sub_ok s'.
Proof.
  intros (Hnd & Hop & Hmx & Hlen) Hfresh. destruct a as [ch|ch|e|ch]; simpl.
  - specialize (Hfresh ch eq_refl). rewrite decide_False by done. eexists. split; [done|].
    assert (ch ∉ subs s) as Hns by (intros (c & Hc & _)%Hop; apply Hfresh; by apply elem_of_dom_2 in Hc).
    assert (forall x, x ∈ subs s -> exists c, <[ch := mkChan [] false]> (chans s) !! x = Some c /\ closed c = false) as Hop'
      by (intros x Hx; rewrite lookup_insert_ne by congruence; auto).
    unfold watch_start, subscribe. simpl. set (mx := if maxSubs s =? 0 then 64 else maxSubs s).
    assert (mx = 64) as -> by (unfold mx; destruct Hmx as [-> | ->]; done).
    destruct (64 <=? Z.of_nat (length (subs s))) eqn:E; split_and!; simpl; auto.
    + apply NoDup_app. split_and!; [done| |apply NoDup_singleton]. intros x Hx ->%list_elem_of_singleton. done.
    + intros x [Hx | ->%list_elem_of_singleton]%elem_of_app; [auto|]. rewrite lookup_insert_eq. eauto.
    + rewrite length_app. simpl. apply Z.leb_gt in E. lia.
  - eexists. split; [done|]. unfold unsubscribe. destruct (remove_first ch (subs s)) as [l|] eqn:E; [|done].
    apply remove_first_spec in E as (a & b & Hs & ->). rewrite Hs in *.
    assert ((ch ∉ a ++ b) /\ NoDup (a ++ b)) as [Hna Hnd'].
    { rewrite <-Permutation_middle in Hnd. by apply NoDup_cons in Hnd. }
    split_and!; simpl; [done| |done|rewrite length_app in *; simpl in *; lia].
    intros x Hx. rewrite lookup_insert_ne by (intros ->; done). apply Hop. set_solver.
  - unfold broadcast. destruct (send_all_spec e _ _ Hnd Hop) as (m & -> & Hm). simpl. eexists. split; [done|].
    split_and!; simpl; try done. intros ch Hch. rewrite Hm, decide_True by done. destruct (Hop ch Hch) as (c & -> & Ho).
    simpl. exists (offered e c). split; [done|]. unfold offered. by case_match.
  - eexists. split; [done|]. unfold watch_receive. destruct (chans s !! ch) as [[[|e l] b]|] eqn:E; try done.
    split_and!; simpl; try done. intros x Hx. destruct (Hop x Hx) as (c & Hc & Ho). destruct (decide (x = ch)) as [-> | Hne].
    + rewrite lookup_insert_eq. rewrite E in Hc. injection Hc as <-. eauto.
    + rewrite lookup_insert_ne by done. eauto.
Qed.

(** ** What a watcher sees *)

(** The alerts of a run, and those a channel's client takes. *)
Fixpoint watched (ch : nat) (acts : list act) (s : alertSubscription) : option (list AlertEvent * alertSubscription) :=
  match acts with
  | [] => Some ([], s)
  | a :: acts =>
      let got := match a with Take x => if (x =? ch)%nat then option_list (watch_receive ch s).2 else [] | _ => [] end in
      s ← act_step a s; '(l, s) ← watched ch acts s; Some (got ++ l, s)
  end.

Definition alerts_of (acts : list act) : list AlertEvent := omap (fun a => match a with Alert e => Some e | _ => None end) acts.

#[local] Arguments alerts_of : simpl never.

Definition waiting (ch : nat) (s : alertSubscription) : list AlertEvent := default [] (buffer <$> chans s !! ch).

(** As long as fewer than 64 alerts wait, a registered watcher gets every alert once, in
    order, whatever the other clients do. *)
Lemma watch_exact ch acts s got s' : sub_ok s -> ch ∈ subs s ->
  Forall (fun a => a <> Stop ch /\ forall x, a = Start x -> x <> ch) acts ->
  watched ch acts s = Some (got, s') -> (length (waiting ch s) + length (alerts_of acts) <= chan_cap)%nat ->
  got ++ waiting ch s' = waiting ch s ++ alerts_of acts.
Proof.
  revert s got. induction acts as [|a acts IH]; intros s got Hok Hin Hacts Hw Hcap; simpl in Hw.
  { simplify_eq. by rewrite app_nil_r. }
  apply Forall_cons in Hacts as [[Hstop Hstart] Hacts]. destruct (act_step a s) as [s1|] eqn:Ea; [|done]. simpl in Hw.
  destruct (watched ch acts s1) as [[l s2]|] eqn:Ew; [|done]. simplify_eq/=.
  assert (forall x, a = Start x -> x ∉ dom (chans s)) as Hf by (intros x ->; simpl in Ea; by case_decide).
  destruct (act_ok a s Hok Hf) as (s1' & E' & Hok1). rewrite Ea in E'. injection E' as <-.
  destruct Hok as (Hnd & Hop & Hmx & Hlen). destruct (Hop ch Hin) as (c & Hc & Ho).
  assert (ch ∈ subs s1 /\ (match a with Take x => if (x =? ch)%nat then option_list (watch_receive ch s).2 else [] | _ => [] end) ++ waiting ch s1
    = waiting ch s ++ alerts_of [a]) as [Hin1 Hone].
  { unfold waiting. rewrite Hc. simpl. destruct a as [x|x|e|x]; simpl in *.
    - case_decide; [done|]. injection Ea as <-. unfold watch_start, subscribe. simpl. specialize (Hstart x eq_refl).
      rewrite app_nil_r. split; [|by case_match; simpl; rewrite lookup_insert_ne, Hc by done]. case_match; simpl; set_solver.
    - injection Ea as <-. unfold unsubscribe. destruct (remove_first x (subs s)) as [k|] eqn:E; [|by rewrite Hc, app_nil_r].
      apply remove_first_spec in E as (a & b & Hs & ->). assert (x <> ch) as Hne by congruence. simpl.
      rewrite lookup_insert_ne, Hc by done. rewrite Hs in Hin. split; [set_solver|by rewrite app_nil_r].
    - unfold broadcast in Ea. destruct (send_all_spec e _ _ Hnd Hop) as (m & Hm & Hl). rewrite Hm in Ea. injection Ea as <-. simpl.
      split; [done|]. rewrite Hl, decide_True, Hc by done. simpl. unfold offered.
      unfold waiting, alerts_of in Hcap. rewrite Hc in Hcap. simpl in Hcap.
      rewrite (proj2 (Nat.ltb_lt (length (buffer c)) chan_cap)) by lia. done.
    - injection Ea as <-. destruct (Nat.eqb_spec x ch) as [-> | Hne]; unfold watch_receive.
      + rewrite Hc. destruct c as [[|e k] b]; simpl; [by rewrite Hc|]. rewrite lookup_insert_eq. simpl. by rewrite app_nil_r.
      + rewrite app_nil_r. destruct (chans s !! x) as [[[|e k] b]|] eqn:E; simpl; rewrite ?lookup_insert_ne by done; by rewrite Hc. }
  assert (forall a acts, alerts_of (a :: acts) = alerts_of [a] ++ alerts_of acts) as Hal by (intros [] ?; done).
  rewrite (Hal a acts) in *.
  assert (length (waiting ch s1) <= length (waiting ch s) + length (alerts_of [a]))%nat as Hle
    by (rewrite <-length_app, <-Hone, length_app; lia).
  rewrite <-app_assoc, (IH s1 l Hok1 Hin1 Hacts Ew) by (rewrite length_app in Hcap; lia).
  by rewrite !(assoc_L (++)), Hone.
Qed.

(** The 65th client gets no alert at all, and no error. *)
Lemma watcher_65 ch s : length (subs s) = 64%nat -> maxSubs s = 64 -> subs (watch_start ch s) = subs s.
Proof. intros Hl Hm. unfold watch_start, subscribe. simpl. by rewrite Hm, Hl. Qed.
