(* ===== verification/PolicyDelivery.v ===== *)
(** * Delivery of policies to agents

    Translates the agent's side of [PolicyCenter]: the telemetry reporter
    ([pkg/telemetry/reporter.go]), the reaction of the daemon to an acknowledgement, the
    download of a bundle and its application ([cmd/agent/daemon/main.go]), and the server's
    handler for the download ([pkg/api/api.go] with the callback of the daemon).  The daemon
    runs the reaction in a goroutine; it is one step here.  What the network, the file
    system and the kernel return is an argument. *)
From S2P Require Import Prelude GoStrings GoSort GoText GoScan Sha256 ProvGraph TaintEngine Sigma Analyzer Control Fleet PolicyCenter.
From Stdlib Require Import Ascii.

Open Scope Z_scope.

(** ** Text *)

(** [strings.Index], [strings.Cut] at one byte, [strings.TrimRight] of slashes. *)
Fixpoint Index (s sub : string) : option nat :=
  if String.prefix sub s then Some 0%nat
  else match s with EmptyString => None | String _ s => S <$> Index s sub end.
Fixpoint cut_byte (c : ascii) (acc l : list ascii) : option (list ascii * list ascii) :=
  match l with [] => None | x :: l => if decide (x = c) then Some (rev acc, l) else cut_byte c (x :: acc) l end.
Definition Cut (s : string) (c : ascii) : option (string * string) :=
  '(a, b) ← cut_byte c [] (chars s); Some (String.string_of_list_ascii a, String.string_of_list_ascii b).
Definition TrimRightSlash (s : string) : string :=
  String.string_of_list_ascii (rev (strip_slashes (rev (chars s)))).

(** The first part of a string before any of some bytes, as [IndexAny] finds it. *)
Fixpoint before_any (stop : list ascii) (l : list ascii) : list ascii :=
  match l with [] => [] | x :: l => if decide (x ∈ stop) then [] else x :: before_any stop l end.

(** [strconv.Atoi]: the value and whether there was no error; the value is zero for bad
    syntax and the nearest integer when out of range. *)
Fixpoint digits_value (acc : Z) (l : list ascii) : option Z :=
  match l with
  | [] => Some acc
  | c :: l =>
      if decide (digit c) then let acc := acc * 10 + (byteval c - 48) in if acc <? 2 ^ 64 then digits_value acc l else Some (2 ^ 64)
      else None
  end.
Definition unsigned_value (l : list ascii) : option Z := match l with [] => None | _ => digits_value 0 l end.
Definition clamp (n : Z) : Z * bool :=
  if n <? MinInt64 then (MinInt64, false) else if MaxInt64 <? n then (MaxInt64, false) else (n, true).
Definition Atoi (s : string) : Z * bool :=
  match chars s with
  | c :: l =>
      if decide (c = "-"%char) then default (0, false) ((fun n => clamp (- n)) <$> unsigned_value l)
      else if decide (c = "+"%char) then default (0, false) (clamp <$> unsigned_value l)
      else default (0, false) (clamp <$> unsigned_value (c :: l))
  | [] => (0, false)
  end.

Definition policy_key : string := "policy_version=".
Definition parsePolicyVersionAck (message : string) : Z :=
  match Index message policy_key with
  | None => 0
  | Some i =>
      let value := drop (i + String.length policy_key) (chars message) in
      (Atoi (String.string_of_list_ascii (before_any [" "%char; ";"%char; ","%char] value))).1
  end.

(** ** The reporter *)

Record ReporterStatus := mkStatus {
  Enabled : bool; LastAttempt : time; LastSuccess : time; ConsecutiveFailures : Z; LastError : string; LastAckMessage : string;
  DesiredPolicyVersion : Z;
}.

Definition NewReporter (endpoint : string) (interval : duration) : duration * ReporterStatus :=
  (if interval <=? 0 then 30 * Second else interval, mkStatus (negb (String.eqb endpoint "")) time_zero time_zero 0 "" "" 0).

Definition recordFailure (err : string) (r : ReporterStatus) : ReporterStatus :=
  mkStatus (Enabled r) (LastAttempt r) (LastSuccess r) (ConsecutiveFailures r + 1) err (LastAckMessage r) (DesiredPolicyVersion r).
(** [ack]: the message of the acknowledgement, for a sender that returns one. *)
Definition recordSuccess (now : time) (ack : option string) (r : ReporterStatus) : ReporterStatus :=
  match ack with
  | Some m => mkStatus (Enabled r) (LastAttempt r) now 0 "" m (parsePolicyVersionAck m)
  | None => mkStatus (Enabled r) (LastAttempt r) now 0 "" (LastAckMessage r) (DesiredPolicyVersion r)
  end.

(** One report, given what the sender returned; the status tells whether [OnAck] runs. *)
Definition ReportNow (t0 t1 : time) (sent : string + option string) (r : ReporterStatus) : ReporterStatus * bool :=
  let r := mkStatus (Enabled r) t0 (LastSuccess r) (ConsecutiveFailures r) (LastError r) (LastAckMessage r) (DesiredPolicyVersion r) in
  match sent with inl e => (recordFailure e r, false) | inr ack => (recordSuccess t1 ack r, true) end.

(** ** The server's download *)

Record PolicyBundleDownload := mkDownload { dl_Path : string; dl_FileName : string; dl_SHA256 : string; dl_Version : Z }.

(** The callback of the daemon of the server (its audit records are left out). *)
Definition policy_download (requested : Z) (s : Server) (d : Disk) : string + PolicyBundleDownload :=
  let c := PolicyCenter s in
  let selected :=
    if 0 <? requested then
      if Version (pc_Current c) =? requested then Some (pc_Current c) else find_version requested (pc_History c)
    else Some (pc_Current c) in
  match selected with
  | None => inl ("policy version " +:+ pretty requested +:+ " not found")
  | Some r =>
      if blank (BundlePath r) then inl ("policy version " +:+ pretty (Version r) +:+ " has no bundle artifact")
      else match files d !! BundlePath r with
           | None => inl "policy bundle unavailable"
           | Some _ => inr (mkDownload (BundlePath r) ("providapt-policy-v" +:+ pretty (Version r) +:+ ".json") (BundleSHA256 r) (Version r))
           end
  end.

Inductive response := Status (code : Z) (body : string) | Ok200 (sha : string) (body : string).

(** [raw]: the value of the query parameter [version]. *)
Definition handlePolicyBundleDownload (is_get enabled : bool) (raw : string) (s : Server) (d : Disk) : response :=
  if negb is_get then Status 405 "method not allowed"
  else if negb enabled then Status 501 "policy bundle downloads not enabled"
  else
    let raw := TrimSpace raw in
    if negb (String.eqb raw "") && (negb (Atoi raw).2 || ((Atoi raw).1 <=? 0)) then Status 400 "invalid policy bundle version"
    else match policy_download (if String.eqb raw "" then 0 else (Atoi raw).1) s d with
         | inl e => Status 404 e
         | inr dl => match files d !! dl_Path dl with
                     | None => Status 404 "404 page not found"
                     | Some body => Ok200 (TrimSpace (dl_SHA256 dl)) body
                     end
         end.

(** ** The agent *)

(** [a_applied]: the version in memory; [a_saved]: the one in the file; [a_bundles]: its copies. *)
Record Agent := mkAgent {
  a_applied : Z; a_analyzer : option Analyzer; a_ctrl : option Controller; a_seeds : Seeds;
  a_saved : option Z; a_bundles : gmap string string;
}.

(** What the calls of one application return. *)
Record agent_env := mkAgentEnv {
  ag_pid : option string; ag_path : option string; ag_proc : string + list proc_entry;
  ag_store : option string; ag_save : option string;
}.

(** ** The acknowledgement is read back *)

Definition dec (acc : Z) (l : list ascii) : Z := foldl (fun a c => a * 10 + (byteval c - 48)) acc l.

Lemma dec_pretty n : 0 <= n -> dec 0 (chars (pretty n)) = n.
Proof. intros Hn. rewrite <-(bdec_pretty n Hn) at 2. unfold dec, bdec, bytes_of_string. by rewrite foldl_fmap. Qed.

Lemma digit_value c : digit c -> 0 <= byteval c - 48 <= 9.
Proof. unfold digit, byteval. lia. Qed.

Lemma dec_mono acc l : 0 <= acc -> Forall digit l -> acc <= dec acc l.
Proof.
  revert acc. induction l as [|c l IH]; intros acc Ha Hl; [done|]. apply Forall_cons in Hl as [Hc Hl]. apply digit_value in Hc. simpl.
  etrans; [|apply IH; [lia|done]]. lia.
Qed.

Lemma digits_dec acc l : 0 <= acc -> Forall digit l -> dec acc l < 2 ^ 64 -> digits_value acc l = Some (dec acc l).
Proof.
  revert acc. induction l as [|c l IH]; intros acc Ha Hl Hb; [done|]. apply Forall_cons in Hl as [Hc Hl].
  simpl. rewrite decide_True by done. apply digit_value in Hc. simpl in Hb.
  pose proof (dec_mono (acc * 10 + (byteval c - 48)) l ltac:(lia) Hl) as Hm.
  unfold dec in *. simpl in *. rewrite (proj2 (Z.ltb_lt _ _)) by lia. apply IH; [lia|done|done].
Qed.

Lemma Atoi_pretty n : 0 <= n <= MaxInt64 -> Atoi (pretty n) = (n, true).
Proof.
  intros Hn. pose proof (pretty_Z_digits n ltac:(lia)) as Hd. pose proof (dec_pretty n ltac:(lia)) as Hv. unfold Atoi.
  destruct (chars (pretty n)) as [|c l] eqn:E.
  { exfalso. destruct n as [|p|p]; [done| |lia]. assert (pretty (Z.pos p) = pretty_N_go (N.pos p) "") as Ep by reflexivity.
    rewrite Ep, pretty_N_go_step in E by lia.
    assert (forall x s, s <> "" -> chars (pretty_N_go x s) <> []) as Hne.
    { intros x. induction (N.lt_wf_0 x) as [x _ IH]. intros s Hs. destruct (decide (x = 0)%N) as [->|]; [rewrite pretty_N_go_0; by destruct s|].
      rewrite pretty_N_go_step by lia. apply IH; [apply N.div_lt; lia|done]. }
    by apply Hne in E. }
  assert (c <> "-"%char /\ c <> "+"%char) as [H1 H2].
  { apply Forall_cons in Hd as [Hc _]. split; intros ->; vm_compute in Hc; destruct Hc; done. }
  rewrite !decide_False by done. unfold unsigned_value. unfold MaxInt64 in Hn. rewrite digits_dec by (done || (rewrite Hv; lia)).
  rewrite Hv. simpl. unfold clamp, MinInt64, MaxInt64.
  rewrite (proj2 (Z.ltb_ge n _)), (proj2 (Z.ltb_ge _ n)) by lia. done.
Qed.

Lemma Index_skip pre s : "p"%char ∉ chars pre -> Index (pre +:+ s) policy_key = (fun i => String.length pre + i)%nat <$> Index s policy_key.
Proof.
  induction pre as [|c pre IH]; intros Hp.
  - simpl. change ("" +:+ s) with s. by destruct (Index s policy_key).
  - apply not_elem_of_cons in Hp as [Hc Hp]. change (String c pre +:+ s) with (String c (pre +:+ s)).
    cbn [Index]. unfold policy_key at 1. cbn [String.prefix]. destruct (ascii_dec "p" c) as [<-|]; [done|].
    rewrite IH by done. by destruct (Index s policy_key).
Qed.

Lemma Index_here s : Index (policy_key +:+ s) policy_key = Some 0%nat.
Proof.
  assert (String.prefix policy_key (policy_key +:+ s) = true) as H by (apply HasPrefix_spec; eauto).
  destruct (policy_key +:+ s) as [|c t] eqn:E; [done|]. cbn [Index]. by rewrite H.
Qed.

Lemma before_any_app stop l c k : Forall (fun x => x ∉ stop) l -> c ∈ stop -> before_any stop (l ++ c :: k) = l.
Proof.
  induction l as [|x l IH]; intros Hl Hc; simpl; [by rewrite decide_True|]. apply Forall_cons in Hl as [Hx Hl].
  by rewrite decide_False, IH.
Qed.

Lemma parse_at pre n rest : Index (pre +:+ policy_key +:+ pretty n +:+ " " +:+ rest) policy_key = Some (String.length pre) ->
  0 <= n <= MaxInt64 -> parsePolicyVersionAck (pre +:+ policy_key +:+ pretty n +:+ " " +:+ rest) = n.
Proof.
  intros Hi Hn. unfold parsePolicyVersionAck. rewrite Hi.
  assert (drop (String.length pre + String.length policy_key) (chars (pre +:+ policy_key +:+ pretty n +:+ " " +:+ rest))
    = chars (pretty n) ++ " "%char :: chars rest) as ->.
  { rewrite !chars_app, <-!length_chars, <-drop_drop, drop_app_length, drop_app_length. done. }
  rewrite before_any_app; [|apply Forall_forall; intros x Hx Hs|set_solver].
  - rewrite string_of_chars, Atoi_pretty; done.
  - pose proof (pretty_Z_digits n ltac:(lia)) as Hd. rewrite Forall_forall in Hd. apply Hd in Hx.
    repeat (apply elem_of_cons in Hs as [-> | Hs]; [vm_compute in Hx; destruct Hx; done|]). by apply elem_of_nil in Hs.
Qed.

(** The version is read back from the acknowledgement of a report of [k] events. *)
Lemma ack_version (k n : Z) status : 0 <= n <= MaxInt64 ->
  parsePolicyVersionAck (("accepted " +:+ pretty k +:+ " telemetry event(s)") +:+ "; policy_version=" +:+ pretty n +:+ " policy_status=" +:+ status) = n.
Proof.
  intros Hn.
  assert (("accepted " +:+ pretty k +:+ " telemetry event(s)") +:+ "; policy_version=" +:+ pretty n +:+ " policy_status=" +:+ status
    = ("accepted " +:+ pretty k +:+ " telemetry event(s); ") +:+ policy_key +:+ pretty n +:+ " " +:+ ("policy_status=" +:+ status)) as ->
    by (rewrite !string_app_assoc; done).
  apply parse_at; [|done]. generalize (pretty n +:+ " " +:+ "policy_status=" +:+ status). intros t.
  assert (forall s, Index ("accepted " +:+ s) policy_key = (fun i => 9 + i)%nat <$> Index s policy_key) as Ha.
  { intros s. change ("accepted " +:+ s) with ("acce" +:+ ("pted " +:+ s)). rewrite Index_skip by set_solver.
    change ("pted " +:+ s) with (String "p" ("ted " +:+ s)).
    assert (Index (String "p" ("ted " +:+ s)) policy_key = S <$> Index ("ted " +:+ s) policy_key) as -> by reflexivity.
    rewrite Index_skip by set_solver. by destruct (Index s policy_key). }
  rewrite !string_app_assoc, Ha, Index_skip by (apply (pretty_Z_not_occurs k); intros [[]|]; done).
  rewrite Index_skip by set_solver. rewrite Index_here. cbn [fmap option_fmap option_map]. f_equal.
  rewrite <-!length_chars, !chars_app, !length_app. simpl. lia.
Qed.

Section agent.
Context {UC : UnicodeCase} {MO : MapOrder} {SS : SortSlice} {J : MgmtJson} (yaml : string -> string + Rule) (quote : string -> string).

(** [None]: no file; the error of reading or decoding is an argument. *)
Definition loadAppliedPolicyVersion (err : option string) (saved : option Z) : string + Z :=
  match err with Some e => inl e | None => inr (default 0 saved) end.

Definition saveAppliedPolicyVersion (err : option string) (version : Z) (saved : option Z) : option Z * option string :=
  if version <=? 0 then (saved, None) else match err with Some e => (saved, Some e) | None => (Some version, None) end.

(** The rules of a bundle are added in map order up to one that does not parse. *)
Fixpoint add_rules (l : list (string * string)) (a : Analyzer) (desired : gset string) : Analyzer * (string + gset string) :=
  match l with
  | [] => (a, inr desired)
  | (id, y) :: l =>
      let id := TrimSpace id in
      if String.eqb id "" then add_rules l a desired
      else match ParseRule (yaml y) with
           | inl e => (a, inl ("parse sigma rule " +:+ id +:+ ": " +:+ show_rule_error e))
           | inr r => add_rules l (AddSigmaRule id r a) ({[id]} ∪ desired)
           end
  end.

Definition drop_rules (desired : gset string) (a : Analyzer) : Analyzer :=
  foldl (fun a id => if decide (id ∈ desired) then a else RemoveSigmaRule id a) a (Analyzer.SigmaRuleIDs a).

Definition apply_rules (rules : gmap string string) (a : Analyzer) : Analyzer * option string :=
  match add_rules (range 3 (map_to_list rules)) a ∅ with
  | (a, inl e) => (a, Some e)
  | (a, inr desired) => (drop_rules desired a, None)
  end.

(** One whitelist key; command names are collected. *)
Definition apply_key (v : agent_env) (st : Controller * list string) (key : string) : Controller * list string :=
  let '(c, comms) := st in
  match Cut key ":" with
  | None => st
  | Some (kind, value) =>
      if blank value then st
      else
        let kind := TrimSpace kind in
        if String.eqb kind "pid" then
          match ParseUint32 (TrimSpace value) with Some pid => ((ExcludePID (ag_pid v) pid c).1, comms) | None => st end
        else if String.eqb kind "comm" then (c, comms ++ [TrimSpace value])
        else if String.eqb kind "path" then ((AddHotPath (ag_path v) (TrimSpace value) c).1, comms)
        else st
  end.

Definition apply_whitelist (v : agent_env) (keys : list string) (c : Controller) : Controller * option string :=
  let '(c, comms) := foldl (apply_key v) (c, []) keys in
  match comms with
  | [] => (c, None)
  | _ => match ExcludeComms comms (ag_proc v) c with
         | (c, _, Some e) => (c, Some ("apply whitelist comms: " +:+ e))
         | (c, _, None) => (c, None)
         end
  end.

(** The labels; [None]: a panic on a nil map. *)
Definition apply_taint (sd : option Seeds) (source : string) : option Seeds :=
  sd ← sd;
  match Cut source "|" with
  | Some (_, label) => if blank label then Some sd else AddUntrustedComm (TrimSpace label) sd
  | None => Some sd
  end.

Definition set_enforced (an : option Analyzer) (c : option Controller) (sd : Seeds) (a : Agent) : Agent :=
  mkAgent (a_applied a) an c sd (a_saved a) (a_bundles a).

Definition applyPolicyBundle (v : agent_env) (b : policyBundle) (a : Agent) : option (Agent * option string) :=
  let '(an, e1) := match a_analyzer a with None => (None, None) | Some an => let '(an, e) := apply_rules (b_SigmaRules b) an in (Some an, e) end in
  match e1 with
  | Some e => Some (set_enforced an (a_ctrl a) (a_seeds a) a, Some e)
  | None =>
      let '(c, e2) := match a_ctrl a with None => (None, None) | Some c => let '(c, e) := apply_whitelist v (b_WhitelistKeys b) c in (Some c, e) end in
      match e2 with
      | Some e => Some (set_enforced an c (a_seeds a) a, Some e)
      | None => sd ← foldl apply_taint (Some (a_seeds a)) (b_TaintSources b); Some (set_enforced an c sd a, None)
      end
  end.

(** [io.LimitReader]. *)
Fixpoint truncate (n : Z) (s : string) : string :=
  match s with EmptyString => "" | String c s => if n <=? 0 then "" else String c (truncate (n - 1) s) end.

Definition max_bundle : Z := 8 * 1024 * 1024.

(** [resp]: the response of the server, or the error of the request. *)
Definition fetchAndApplyPolicyBundle (v : agent_env) (endpoint dir : string) (version : Z) (resp : string + response) (a : Agent)
  : option (Agent * (string + string * string)) :=
  if version <=? 0 then Some (a, inl "invalid policy version")
  else if blank endpoint then Some (a, inl "policy endpoint is not configured")
  else match resp with
  | inl e => Some (a, inl e)
  | inr (Status code body) => Some (a, inl ("download policy bundle: status=" +:+ pretty code +:+ " body=" +:+ TrimSpace (truncate 1024 body)))
  | inr (Ok200 sha body) =>
      let data := truncate max_bundle body in
      let actual := sha_hex data in
      let expected := TrimSpace sha in
      if negb (String.eqb expected "") && negb (EqualFold expected actual) then Some (a, inl "policy bundle checksum mismatch")
      else match unmarshal_bundle data with
           | None => Some (a, inl "decode policy bundle")
           | Some b =>
               if negb (b_Version b =? version) then Some (a, inl "policy bundle version mismatch")
               else
                 '(a, err) ← applyPolicyBundle v b a;
                 match err with
                 | Some e => Some (a, inl e)
                 | None =>
                     if blank dir then Some (a, inr ("", actual))
                     else match ag_store v with
                          | Some e => Some (a, inl e)
                          | None =>
                              let path := filepath_Join dir (bundle_name version) in
                              Some (mkAgent (a_applied a) (a_analyzer a) (a_ctrl a) (a_seeds a) (a_saved a) (<[path := data]> (a_bundles a)),
                                    inr (path, actual))
                          end
                 end
           end
  end.

(** The reaction to an acknowledgement; [enabled]: policies are enabled in the configuration. *)
Definition OnAck (v : agent_env) (enabled : bool) (endpoint dir : string) (st : ReporterStatus) (resp : string + response) (a : Agent) : option Agent :=
  let version := DesiredPolicyVersion st in
  if (version <=? 0) || negb enabled || (a_applied a =? version) then Some a
  else
    '(a, res) ← fetchAndApplyPolicyBundle v endpoint dir version resp a;
    match res with
    | inl _ => Some a
    | inr _ => Some (mkAgent version (a_analyzer a) (a_ctrl a) (a_seeds a) (saveAppliedPolicyVersion (ag_save v) version (a_saved a)).1 (a_bundles a))
    end.

(** ** A round: report, acknowledgement, download, application *)

Definition summary_event (su : Summary) : TelemetryEvent := mkTelemetryEvent "summary" (Some su).

(** The summary the agent builds, up to the fields the server does not read. *)
Definition summary_of (id : string) (rep : HostReport) (status : string) (ph sh : bool) (a : Agent) : Summary :=
  mkSummary id rep status ph sh (a_applied a).

Definition round (v : env) (w : agent_env) (endpoint dir : string) (cert : option (list Z)) (id : string) (rep : HostReport)
    (r : ReporterStatus) (a : Agent) (s : Server) (d : Disk) : option (ReporterStatus * Agent * Server * Disk) :=
  let '(ack, s, d) := ReportEvents quote v cert [summary_event (summary_of id rep "HEALTHY" true true a)] s d in
  let '(r, _) := ReportNow (clock v 20) (clock v 21) (inr (Some (AckText ack))) r in
  let resp := inr (handlePolicyBundleDownload true true (pretty (DesiredPolicyVersion r)) s d) in
  a ← OnAck w true endpoint dir r resp a; Some (r, a, s, d).
(** ** What an applied bundle enforces *)

(** A rule of the bundle, as the agent reads it. *)
Definition wants (rules : gmap string string) (id : string) (r : Rule) : Prop :=
  exists k y, rules !! k = Some y /\ TrimSpace k = id /\ id <> "" /\ ParseRule (yaml y) = inr r.

Definition rules_parse (rules : gmap string string) : Prop :=
  forall k y, rules !! k = Some y -> TrimSpace k = "" \/ exists r, ParseRule (yaml y) = inr r.

Lemma add_rules_spec l a desired :
  (forall k y, (k, y) ∈ l -> TrimSpace k = "" \/ exists r, ParseRule (yaml y) = inr r) ->
  exists a' desired', add_rules l a desired = (a', inr desired') /\
    (forall id, id ∈ desired' <-> id ∈ desired \/ exists k y, (k, y) ∈ l /\ TrimSpace k = id /\ id <> "") /\
    (forall id, (id ∈ desired -> is_Some (sigmaRules a !! id)) -> id ∈ desired' -> is_Some (sigmaRules a' !! id)) /\
    (forall id r, sigmaRules a' !! id = Some r ->
       sigmaRules a !! id = Some r /\ (id ∈ desired' -> id ∈ desired) \/
       exists k y, (k, y) ∈ l /\ TrimSpace k = id /\ id <> "" /\ ParseRule (yaml y) = inr r).
Proof.
  revert a desired. induction l as [|[k y] l IH]; intros a desired Hp; simpl.
  { exists a, desired. split_and!; [done| |tauto|].
    - intros id. split; [by left|]. intros [?|(k & y & ?%elem_of_nil & _)]; done.
    - intros id r Hr. left. tauto. }
  assert (forall k y, (k, y) ∈ l -> TrimSpace k = "" \/ exists r, ParseRule (yaml y) = inr r) as Hp' by (intros; eapply Hp; set_solver).
  destruct (String.eqb_spec (TrimSpace k) "") as [He|Hne].
  - destruct (IH a desired Hp') as (a' & de & -> & Hd & Hs & Hr). exists a', de. split_and!; [done| |done|].
    + intros id. rewrite Hd. setoid_rewrite elem_of_cons. naive_solver.
    + intros id r [?|(k' & y' & Hin & ?)]%Hr; [by left|right]. exists k', y'. split; [set_solver|done].
  - destruct (Hp k y) as [?|[r Hpr]]; [set_solver|done|]. rewrite Hpr.
    destruct (IH (AddSigmaRule (TrimSpace k) r a) ({[TrimSpace k]} ∪ desired) Hp') as (a' & de & -> & Hd & Hs & Hr).
    exists a', de. split_and!; [done| | |].
    + intros id. rewrite Hd, elem_of_union, elem_of_singleton. setoid_rewrite elem_of_cons. naive_solver.
    + intros id Hid Hin. apply Hs; [|done]. simpl. rewrite elem_of_union, elem_of_singleton. intros [-> | Hde].
      * by rewrite lookup_insert_eq.
      * destruct (decide (id = TrimSpace k)) as [-> |]; [by rewrite lookup_insert_eq|rewrite lookup_insert_ne by done; auto].
    + intros id r' Hr'. destruct (Hr id r' Hr') as [[Hl Hi]|(k' & y' & Hin & ?)].
      * simpl in Hl. destruct (decide (id = TrimSpace k)) as [-> | Hni].
        { rewrite lookup_insert_eq in Hl. injection Hl as <-. right. exists k, y. split; [set_solver|done]. }
        rewrite lookup_insert_ne in Hl by done. left. split; [done|]. intros Hde%Hi. set_solver.
      * right. exists k', y'. split; [set_solver|done].
Qed.

Lemma drop_rules_spec desired a id : sigmaRules (drop_rules desired a) !! id = if decide (id ∈ desired) then sigmaRules a !! id else None.
Proof.
  unfold drop_rules.
  assert (forall l a, (forall x, is_Some (sigmaRules a !! x) -> x ∈ desired \/ x ∈ l) ->
    sigmaRules (foldl (fun a id => if decide (id ∈ desired) then a else RemoveSigmaRule id a) a l) !! id
    = if decide (id ∈ desired) then sigmaRules a !! id else None) as H.
  { induction l as [|x l IH]; intros b Hb; simpl.
    - case_decide; [done|]. apply eq_None_not_Some. intros [?|?%elem_of_nil]%Hb; done.
    - destruct (decide (x ∈ desired)) as [Hx|Hx]; rewrite IH.
      + done.
      + intros z Hz. destruct (Hb z Hz) as [|[-> |]%elem_of_cons]; auto.
      + simpl. case_decide; [|done]. rewrite lookup_delete_ne; [done|]. intros ->. done.
      + simpl. intros z [Hz Hz']%lookup_delete_is_Some. destruct (Hb z Hz') as [|[-> |]%elem_of_cons]; auto; done. }
  apply H. intros x Hx. right. by apply keys_elem.
Qed.

(** With rules that all parse, exactly the rules of the bundle are in force. *)
Lemma apply_rules_spec rules a : rules_parse rules -> exists a', apply_rules rules a = (a', None) /\
  (forall id r, sigmaRules a' !! id = Some r -> wants rules id r) /\
  (forall id r, wants rules id r -> is_Some (sigmaRules a' !! id)).
Proof.
  intros Hp. unfold apply_rules.
  assert (forall k y, (k, y) ∈ range 3 (map_to_list rules) <-> rules !! k = Some y) as Hm
    by (intros k y; by rewrite elem_of_range, elem_of_map_to_list).
  destruct (add_rules_spec (range 3 (map_to_list rules)) a ∅) as (a' & de & -> & Hd & Hs & Hr).
  { intros k y Hin%Hm. by eapply Hp. }
  eexists. split; [done|]. split.
  - intros id r. rewrite drop_rules_spec. case_decide as Hin; [|done]. intros Hl. destruct (Hr id r Hl) as [[_ He]|(k & y & Hk%Hm & ?)].
    + apply He in Hin. set_solver.
    + exists k, y. done.
  - intros id r (k & y & Hk & Hid & Hne & Hpr). rewrite drop_rules_spec.
    assert (id ∈ de) as Hin by (apply Hd; right; exists k, y; rewrite Hm; done).
    rewrite decide_True by done. apply Hs; [set_solver|done].
Qed.

Lemma apply_taints_ok l sd : is_Some (untrustedComms sd) -> exists sd', foldl apply_taint (Some sd) l = Some sd'.
Proof.
  revert sd. induction l as [|x l IH]; intros sd Hs; [by exists sd|]. destruct Hs as [m Hm]. simpl.
  destruct (Cut x "|") as [[? label]|]; [|apply IH; by exists m]. destruct (blank label); [apply IH; by exists m|].
  unfold AddUntrustedComm. rewrite Hm. simpl. apply IH. by eexists.
Qed.

Lemma apply_whitelist_ok v keys c entries : ag_proc v = inr entries -> (apply_whitelist v keys c).2 = None.
Proof.
  intros He. unfold apply_whitelist. destruct (foldl _ _ _) as [c' comms]. destruct comms as [|x comms]; [done|].
  unfold ExcludeComms. rewrite He. case_bool_decide; [done|]. simpl. by destruct (foldl _ _ _).
Qed.

(** An agent that can apply a bundle: it has an analyzer, the rules parse, processes can be
    listed and its copy can be stored. *)
Definition can_apply (w : agent_env) (b : policyBundle) (a : Agent) : Prop :=
  (exists an, a_analyzer a = Some an) /\ rules_parse (b_SigmaRules b) /\ is_Some (untrustedComms (a_seeds a)) /\
  (exists entries, ag_proc w = inr entries) /\ ag_store w = None.

(** The rules in force on the agent are those of the bundle. *)
Definition enforces (b : policyBundle) (a : Agent) : Prop :=
  exists an, a_analyzer a = Some an /\
    (forall id r, sigmaRules an !! id = Some r -> wants (b_SigmaRules b) id r) /\
    (forall id r, wants (b_SigmaRules b) id r -> is_Some (sigmaRules an !! id)).

Lemma apply_bundle_ok w b a : can_apply w b a -> exists a', applyPolicyBundle w b a = Some (a', None) /\ enforces b a'.
Proof.
  intros ([an Han] & Hp & Hs & [entries He] & _). unfold applyPolicyBundle. rewrite Han.
  destruct (apply_rules_spec (b_SigmaRules b) an Hp) as (an' & -> & H1 & H2).
  destruct (apply_taints_ok (b_TaintSources b) (a_seeds a) Hs) as [sd' ->].
  destruct (a_ctrl a) as [c|]; [|eexists; split; [done|]; by exists an'].
  pose proof (apply_whitelist_ok w (b_WhitelistKeys b) c entries He) as Hw. destruct (apply_whitelist _ _ _) as [c' e]. simpl in Hw. subst e.
  eexists. split; [done|]. by exists an'.
Qed.

Lemma truncate_id n s : Z.of_nat (String.length s) <= n -> truncate n s = s.
Proof.
  revert n. induction s as [|c s IH]; intros n Hn; [done|]. cbn [String.length truncate] in *. rewrite (proj2 (Z.leb_gt n 0)) by lia.
  f_equal. apply IH. lia.
Qed.

Lemma sha_hex_trim data : TrimSpace (sha_hex data) = sha_hex data /\ sha_hex data <> "".
Proof.
  unfold sha_hex. destruct (Sum256_ok (bytes_of_string data)) as [Hl Hb]. split.
  - apply TrimSpace_printable. unfold EncodeToString. change (?l ≫= _) with (l ≫= hex_byte).
    rewrite bytes_of_string_of_bytes by (eapply Forall_impl; [by apply hex_bytes|]; simpl; tauto).
    apply Forall_bind. eapply Forall_impl; [exact Hb|]. intros b Hbb. destruct (hex_byte_table b Hbb) as [(x & y & Hx & Hy & _) _].
    assert (forall c z, from_hex c = Some z -> printable c) as Hpr
      by (unfold from_hex, cont, printable; intros c z; repeat case_match; intros; lia || done).
    repeat constructor; by eapply Hpr.
  - destruct (Sum256 (bytes_of_string data)) as [|x l]; [done|]. done.
Qed.

(** A good response is applied. *)
Lemma fetch_ok w endpoint dir version data b a : 0 < version -> blank endpoint = false -> unmarshal_bundle data = Some b ->
  b_Version b = version -> Z.of_nat (String.length data) <= max_bundle -> can_apply w b a ->
  exists a' path, fetchAndApplyPolicyBundle w endpoint dir version (inr (Ok200 (sha_hex data) data)) a = Some (a', inr (path, sha_hex data)) /\ enforces b a'.
Proof.
  intros Hv He Hu Hb Hlen Hc. destruct (sha_hex_trim data) as [Ht _]. destruct (apply_bundle_ok w b a Hc) as (a' & Ha & Hen).
  unfold fetchAndApplyPolicyBundle. rewrite (proj2 (Z.leb_gt version 0)), He, truncate_id, Ht, sha_hex_fold, andb_false_r, Hu, Hb, Z.eqb_refl by (done || lia).
  simpl. rewrite Ha. simpl. destruct (blank dir); [eauto|]. destruct Hc as (_ & _ & _ & _ & ->). do 2 eexists. split; [done|exact Hen].
Qed.
(** ** A round delivers the current policy *)

Definition same_policy (c c' : PolicyRevision) : Prop :=
  Version c' = Version c /\ BundlePath c' = BundlePath c /\ BundleSHA256 c' = BundleSHA256 c /\
  TargetGroup c' = TargetGroup c /\ TargetTag c' = TargetTag c.

Lemma refresh_same s : same_policy (current (policy s)) (current (policy (refreshPolicyDeploymentFromAgents s).1)) /\
  telemetry (refreshPolicyDeploymentFromAgents s).1 = telemetry s.
Proof. unfold refreshPolicyDeploymentFromAgents. repeat case_match; done. Qed.

(** The agent may report: it has a plain identifier and is neither revoked nor quarantined. *)
Definition admitted (id : string) (m : agents) : Prop :=
  id <> "" /\ TrimSpace id = id /\ (agentEnrollment m id).1 ∉ ["revoked"; "quarantined"].

(** A report leaves the enrollment, group and tags of the agent as they were. *)
Lemma reported_same t c su m id group tag : TrimSpace id = id ->
  let m' := <[id := reported t c su (agent_at m id)]> m in
  agent_at m' id = reported t c su (agent_at m id) /\
  agentEnrollment m' id = agentEnrollment m id /\ agentMatchesPolicyTarget m' id group tag = agentMatchesPolicyTarget m id group tag.
Proof.
  intros Htrim m'. assert (agent_at m' id = reported t c su (agent_at m id)) as Hat by (unfold agent_at at 1, m'; by rewrite lookup_insert_eq).
  unfold agentEnrollment, agentMatchesPolicyTarget. by rewrite Htrim, Hat.
Qed.

(** A report of an admitted agent that the current policy targets. *)
Lemma report_targeted v cert su s d : admitted (su_AgentID su) (ts_Agents (telemetry s)) -> 0 < Version (current (policy s)) <= MaxInt64 ->
  agentMatchesPolicyTarget (ts_Agents (telemetry s)) (su_AgentID su) (TargetGroup (current (policy s))) (TargetTag (current (policy s))) = true ->
  exists msg s' d', ReportEvents quote v cert [summary_event su] s d = (mkReportAck true 0 msg, s', d') /\
    parsePolicyVersionAck msg = Version (current (policy s)) /\ same_policy (current (policy s)) (current (policy s')) /\
    files d' = files d /\
    ts_Agents (telemetry s') = <[su_AgentID su := reported (clock v 5) (fingerprintCertificate cert) su (agent_at (ts_Agents (telemetry s)) (su_AgentID su))]> (ts_Agents (telemetry s)).
Proof.
  set (id := su_AgentID su). intros (Hid & Htrim & Hadm) Hver Htgt. unfold ReportEvents.
  assert (foldl receive_event None [summary_event su] = Some su) as ->
    by (cbn [foldl]; unfold receive_event, summary_event; simpl; fold id; by rewrite (proj2 (String.eqb_neq _ _) Hid)).
  cbn [last]. fold id.
  destruct (agentEnrollment (ts_Agents (telemetry s)) id) as [status note] eqn:Een. cbn [fst] in Hadm.
  assert (status <> "revoked" /\ status <> "quarantined") as [Hnr Hnq] by set_solver.
  rewrite (proj2 (String.eqb_neq _ _) Hnr). set (s1 := set_telemetry _ s). destruct (refresh_same s1) as [Hsame Htel].
  destruct (refreshPolicyDeploymentFromAgents s1) as [s2 ch]. cbn [fst] in Hsame, Htel. do 3 eexists. split; [reflexivity|].
  assert (ts_Agents (telemetry s2) = <[id := reported (clock v 5) (fingerprintCertificate cert) su (agent_at (ts_Agents (telemetry s)) id)]> (ts_Agents (telemetry s))) as Hag
    by by rewrite Htel.
  destruct (reported_same (clock v 5) (fingerprintCertificate cert) su (ts_Agents (telemetry s)) id
    (TargetGroup (current (policy s))) (TargetTag (current (policy s))) Htrim) as (_ & Hen & Hmt). rewrite <-Hag in Hen, Hmt.
  destruct Hsame as (Hv & Hbp & Hbs & Htg & Htt). change (current (policy s1)) with (current (policy s)) in *.
  split_and!; try done; [|by case_match; rewrite ?save_files].
  unfold policyAckMessageForAgent.
  rewrite Hen, Een.
  rewrite (proj2 (String.eqb_neq _ _) Hnq). unfold clonePolicyRevision. rewrite Hv, (proj2 (Z.leb_gt (Version (current (policy s))) 0)) by lia.
  rewrite Htg, Htt, Hmt, Htgt.
  rewrite andb_false_r. apply ack_version. lia.
Qed.

Lemma pretty_trim n : 0 <= n -> TrimSpace (pretty n) = pretty n.
Proof.
  intros Hn. apply TrimSpace_printable. unfold bytes_of_string. rewrite Forall_fmap. eapply Forall_impl; [by apply pretty_Z_digits|].
  intros c Hc%digit_value. unfold printable. simpl. lia.
Qed.

Lemma pretty_nonempty n : 0 <= n <= MaxInt64 -> pretty n <> "".
Proof. intros Hn E. apply Atoi_pretty in Hn. rewrite E in Hn. done. Qed.

(** The server answers with the bundle of its current policy. *)
Lemma download_current s d path data : 0 < Version (current (policy s)) <= MaxInt64 -> BundlePath (current (policy s)) = path ->
  BundleSHA256 (current (policy s)) = sha_hex data -> blank path = false -> files d !! path = Some data ->
  handlePolicyBundleDownload true true (pretty (Version (current (policy s)))) s d = Ok200 (sha_hex data) data.
Proof.
  intros Hv Hp Hs Hb Hf. unfold handlePolicyBundleDownload. simpl negb. cbv iota.
  rewrite pretty_trim, Atoi_pretty, (proj2 (String.eqb_neq _ _) (pretty_nonempty (Version (current (policy s))) ltac:(lia))) by lia.
  cbn [fst snd negb andb orb]. rewrite (proj2 (Z.leb_gt (Version (current (policy s))) 0)) by lia. unfold policy_download. simpl.
  rewrite (proj2 (Z.ltb_lt 0 _)), Z.eqb_refl by lia. unfold clonePolicyRevision. rewrite Hp, Hb, Hf. simpl. rewrite Hf, Hs.
  by rewrite (proj1 (sha_hex_trim data)).
Qed.

(** ** Limits *)

(** Applying a bundle never lifts an exclusion: a process excluded by an earlier policy stays
    excluded, whatever the new one says. *)
Lemma exclusions_stay v keys c pid : IsExcluded pid c = true -> IsExcluded pid (apply_whitelist v keys c).1 = true.
Proof.
  intros Hx. unfold apply_whitelist.
  assert (forall l st, IsExcluded pid st.1 = true -> IsExcluded pid (foldl (apply_key v) st l).1 = true) as Hfold.
  { induction l as [|k l IH]; intros [c' comms] H; [done|]. apply IH. unfold apply_key.
    destruct (Cut k ":") as [[kind value]|]; [|done]. destruct (blank value); [done|].
    destruct (String.eqb (TrimSpace kind) "pid").
    - destruct (ParseUint32 _) as [q|]; [|done]. unfold ExcludePID, map_Put. destruct (ag_pid v); [by destruct c'|].
      unfold IsExcluded in *. simpl in *. apply bool_decide_eq_true. apply bool_decide_eq_true in H. rewrite lookup_insert_is_Some'. by right.
    - destruct (String.eqb _ "comm"); [done|]. destruct (String.eqb _ "path"); [|done].
      unfold AddHotPath. by destruct (map_Put _ _ _ _). }
  specialize (Hfold keys (c, []) Hx). destruct (foldl (apply_key v) (c, []) keys) as [c' comms]. destruct comms as [|x comms]; [done|].
  destruct (ag_proc v) as [e|entries].
  - unfold ExcludeComms. case_bool_decide; done.
  - pose proof (exclude_comms_exact (x :: comms) entries c' pid) as Hex.
    destruct (ExcludeComms (x :: comms) (inr entries) c') as [[c1 n] [e|]]; apply Hex; by left.
Qed.

(** A bundle of another version, as a publication without a written bundle offers it, is never applied. *)
Lemma other_version_refused w endpoint dir version data b a : 0 < version -> blank endpoint = false -> unmarshal_bundle data = Some b ->
  b_Version b <> version -> Z.of_nat (String.length data) <= max_bundle ->
  fetchAndApplyPolicyBundle w endpoint dir version (inr (Ok200 (sha_hex data) data)) a = Some (a, inl "policy bundle version mismatch").
Proof.
  intros Hv He Hu Hb Hlen. destruct (sha_hex_trim data) as [Ht _]. unfold fetchAndApplyPolicyBundle.
  rewrite (proj2 (Z.leb_gt version 0)), He, truncate_id, Ht, sha_hex_fold, andb_false_r, Hu, (proj2 (Z.eqb_neq _ _) Hb) by (done || lia). done.
Qed.
End agent.

(** A rejected report is recorded as a success. *)
Example rejected_is_success :
  let r := (ReportNow 1 2 (inr (Some "agent revoked: lost")) (NewReporter "server:50051" 0).2).1 in
  (LastSuccess r, ConsecutiveFailures r, LastError r) = (2, 0, "").
Proof. reflexivity. Qed.

(** The note of a quarantined agent can name a policy version, which the agent then asks for. *)
Example note_names_version :
  parsePolicyVersionAck ("accepted 1 telemetry event(s); policy_status=quarantined enrollment_note=" +:+ "'until policy_version=7 is out'") = 7.
Proof. reflexivity. Qed.

(** ** A concrete delivery *)

Definition agent0 : Agent := mkAgent 0 (Some (New [] None)) None default_seeds None ∅.
Definition calls0 : agent_env := mkAgentEnv None None (inr []) None None.
Definition bundle2 : policyBundle := @published_bundle ascii_case alternating_order merge_sort_slice good "on" (mkFilter "" "") s1.
Definition data2 : string := match @marshal_bundle bit_json bundle2 with Some d => d | None => "" end.

