(* ===== verification/Notify.v ===== *)
(** * Delivery of notifications ([pkg/notify]: [notify.go], [delivery.go])

    The manager hands every alert to every notifier, with retries; what fails for good
    becomes a dead letter that can be replayed later.  A notifier is its name; what its
    [Send] returns, and the clock, are the arguments [outcome] and [clock], read at a
    counter that advances with every reading.  The run keeps a trace of what was asked and
    of what each notifier answered, for the specification only.  Calls are taken one at a
    time: the interleaving of concurrent calls between two lock regions is not modelled,
    nor are the sleeps between attempts. *)
From S2P Require Import Prelude ProvVersions.
From Stdlib Require Import Ascii.

Record Alert := mkAlert {
  ID : string; Timestamp : time; Severity : string; Pattern : string; Headline : string; Reason : string; Source : string; Details : gmap string string;
}.
#[global] Instance Alert_eq_dec : EqDecision Alert.
Proof. solve_decision. Defined.

Inductive DeliveryStatus := Delivered | Retrying | DeadLetter.
#[global] Instance DeliveryStatus_eq_dec : EqDecision DeliveryStatus.
Proof. solve_decision. Defined.

Record TicketReference := mkTicket { Provider : string; Key : string; URL : string; LinkedAt : time; Idempotency : string }.

Record DeliveryRecord := mkRecord {
  rec_ID : string; Notifier : string; AlertID : string; rec_Pattern : string; rec_Severity : string; Status : DeliveryStatus;
  Attempt : Z; MaxAttempts : Z; LastAttemptAt : time; Error : string; Ticket : option TicketReference;
}.

Record deadLetterItem := mkItem { Record_ : DeliveryRecord; item_Alert : Alert; item_Notifier : string }.

Record Manager := mkManager {
  notifiers : list string; minInterval : duration; lastSent : gmap string time; maxAttempts : Z; retryBackoff : duration;
  deliveryHistory : list DeliveryRecord; deadLetters : list DeliveryRecord; deadLetterItems : gmap string deadLetterItem; maxHistory : nat;
}.

Definition NewManager : Manager := mkManager [] 0 ∅ 3 (250 * Millisecond) [] [] ∅ 200.

Definition set_notifiers (l : list string) (m : Manager) : Manager :=
  mkManager l (minInterval m) (lastSent m) (maxAttempts m) (retryBackoff m) (deliveryHistory m) (deadLetters m) (deadLetterItems m) (maxHistory m).
Definition set_lastSent (l : gmap string time) (m : Manager) : Manager :=
  mkManager (notifiers m) (minInterval m) l (maxAttempts m) (retryBackoff m) (deliveryHistory m) (deadLetters m) (deadLetterItems m) (maxHistory m).
Definition set_letters (h d : list DeliveryRecord) (i : gmap string deadLetterItem) (m : Manager) : Manager :=
  mkManager (notifiers m) (minInterval m) (lastSent m) (maxAttempts m) (retryBackoff m) h d i (maxHistory m).

Definition SetMinInterval (d : duration) (m : Manager) : Manager :=
  mkManager (notifiers m) d (lastSent m) (maxAttempts m) (retryBackoff m) (deliveryHistory m) (deadLetters m) (deadLetterItems m) (maxHistory m).
Definition AddNotifier (n : string) (m : Manager) : Manager := set_notifiers (notifiers m ++ [n]) m.
Definition NotifierCount (m : Manager) : nat := length (notifiers m).
Definition SetRetryPolicy (attempts : Z) (backoff : duration) (m : Manager) : Manager :=
  mkManager (notifiers m) (minInterval m) (lastSent m) (if attempts <? 1 then 1 else attempts) (if backoff <? 0 then 0 else backoff)
    (deliveryHistory m) (deadLetters m) (deadLetterItems m) (maxHistory m).
Definition retryPolicy (m : Manager) : Z * duration := (maxAttempts m, retryBackoff m).

(** The notifiers are closed and forgotten; what their [Close] returns is only logged. *)
Definition Close (m : Manager) : Manager := set_notifiers [] m.

Definition recordDelivery (r : DeliveryRecord) (a : Alert) (m : Manager) : Manager :=
  let h := take (maxHistory m) (r :: deliveryHistory m) in
  if decide (Status r = DeadLetter)
  then set_letters h (take (maxHistory m) (r :: deadLetters m)) (<[rec_ID r := mkItem r a (Notifier r)]> (deadLetterItems m)) m
  else set_letters h (deadLetters m) (deadLetterItems m) m.

Definition buildDeliveryID (a : Alert) (notifier : string) (attempt : Z) (ts : time) : string :=
  let base := if String.eqb (ID a) "" then Pattern a else ID a in
  let base := if String.eqb base "" then "alert" else base in
  notifier +:+ ":" +:+ base +:+ ":" +:+ pretty attempt +:+ ":" +:+ pretty (time_UnixNano ts).

Definition DeadLetterRecord (id : string) (m : Manager) : option DeliveryRecord := Record_ <$> deadLetterItems m !! id.
Definition DeadLetterRecords (m : Manager) : list DeliveryRecord := deadLetters m.

Definition clearDeadLetter (id : string) (m : Manager) : Manager :=
  set_letters (deliveryHistory m) (filter (fun r => rec_ID r <> id) (deadLetters m)) (delete id (deadLetterItems m)) m.

Definition set_ticket (t : TicketReference) (r : DeliveryRecord) : DeliveryRecord :=
  mkRecord (rec_ID r) (Notifier r) (AlertID r) (rec_Pattern r) (rec_Severity r) (Status r) (Attempt r) (MaxAttempts r) (LastAttemptAt r) (Error r) (Some t).

(** The first record with the identifier. *)
Fixpoint link (id : string) (t : TicketReference) (l : list DeliveryRecord) : list DeliveryRecord :=
  match l with
  | [] => []
  | r :: l => if String.eqb (rec_ID r) id then set_ticket t r :: l else r :: link id t l
  end.

(** [None]: no such dead letter. *)
Definition SetTicketReference (id : string) (t : TicketReference) (m : Manager) : option (DeliveryRecord * Manager) :=
  item ← deadLetterItems m !! id;
  let item := mkItem (set_ticket t (Record_ item)) (item_Alert item) (item_Notifier item) in
  Some (Record_ item, set_letters (link id t (deliveryHistory m)) (link id t (deadLetters m)) (<[id := item]> (deadLetterItems m)) m).

Record DeliverySummary := mkSummary { sum_Delivered : nat; sum_Retrying : nat; sum_DeadLetter : nat }.
Definition count_status (s : DeliveryStatus) (l : list DeliveryRecord) : nat := length (filter (fun r => Status r = s) l).
Definition DeliverySnapshot (m : Manager) : DeliverySummary * list DeliveryRecord * list DeliveryRecord :=
  let h := deliveryHistory m in (mkSummary (count_status Delivered h) (count_status Retrying h) (count_status DeadLetter h), h, deadLetters m).

(** ** Runs *)

Inductive entry :=
| Asked (n : string) (a : Alert)
| Called (n : string) (a : Alert) (ok : bool)
| ReplayFailed (n : string) (a : Alert).
#[global] Instance entry_eq_dec : EqDecision entry.
Proof. solve_decision. Defined.

Record State := mkState { mgr : Manager; tick : nat; trace : list entry }.

Definition on_mgr (f : Manager -> Manager) (s : State) : State := mkState (f (mgr s)) (tick s) (trace s).
Definition log (e : entry) (s : State) : State := mkState (mgr s) (tick s) (trace s ++ [e]).

Section delivery.
Context (outcome : nat -> option string) (clock : nat -> time).

Definition now (s : State) : time * State := (clock (tick s), mkState (mgr s) (S (tick s)) (trace s)).

Definition call (n : string) (a : Alert) (s : State) : option string * State :=
  let err := outcome (tick s) in
  (err, mkState (mgr s) (S (tick s)) (trace s ++ [Called n a (bool_decide (err = None))])).

Definition shouldThrottle (a : Alert) (s : State) : bool * State :=
  let m := mgr s in
  if minInterval m <=? 0 then (false, s)
  else
    let key := Pattern a +:+ ":" +:+ Severity a in
    let '(t, s) := now s in
    match lastSent m !! key with
    | Some last => if time_Sub t last <? minInterval m then (true, s) else (false, on_mgr (set_lastSent (<[key := t]> (lastSent m))) s)
    | None => (false, on_mgr (set_lastSent (<[key := t]> (lastSent m))) s)
    end.

(** The attempts numbered from [attempt] on, [k] of them: the last record and whether
    the notifier accepted. *)
Fixpoint attempts (n : string) (a : Alert) (maxA : Z) (attempt : Z) (k : nat) (last : option DeliveryRecord) (s : State)
    : option DeliveryRecord * bool * State :=
  match k with
  | O => (last, false, s)
  | S k =>
      let '(err, s) := call n a s in
      let status := match err with None => Delivered | Some _ => if attempt <? maxA then Retrying else DeadLetter end in
      let '(t1, s) := now s in
      let '(t2, s) := now s in
      let r := mkRecord (buildDeliveryID a n attempt t1) n (ID a) (Pattern a) (Severity a) status attempt maxA t2 (default "" err) None in
      let s := on_mgr (recordDelivery r a) s in
      match err with
      | None => (Some r, true, s)
      | Some _ => attempts n a maxA (attempt + 1) k (Some r) s
      end
  end.

Definition send_to (a : Alert) (s : State) (n : string) : State :=
  let s := log (Asked n a) s in
  let '(maxA, _) := retryPolicy (mgr s) in
  (attempts n a maxA 1 (Z.to_nat maxA) None s).2.

Definition Send (a : Alert) (s : State) : State :=
  let '(skip, s) := shouldThrottle a s in
  if skip then s else foldl (send_to a) s (notifiers (mgr s)).

Inductive replay_error := LetterNotFound (id : string) | NotifierUnavailable (n : string) | GaveUp (attempts : Z).

(** The record is the zero one when nothing was tried. *)
Definition ReplayDeadLetter (id : string) (s : State) : option DeliveryRecord * option replay_error * State :=
  match deadLetterItems (mgr s) !! id with
  | None => (None, Some (LetterNotFound id), s)
  | Some item =>
      if decide (item_Notifier item ∈ notifiers (mgr s)) then
        let maxA := maxAttempts (mgr s) in
        let '(last, ok, s) := attempts (item_Notifier item) (item_Alert item) maxA 1 (Z.to_nat maxA) None s in
        if ok : bool then (last, None, on_mgr (clearDeadLetter id) s)
        else (last, Some (GaveUp maxA), log (ReplayFailed (item_Notifier item) (item_Alert item)) s)
      else (None, Some (NotifierUnavailable (item_Notifier item)), s)
  end.

Record BatchReplayResult := mkBatch { Processed : nat; Succeeded : nat; Failed : nat; Records : list (option DeliveryRecord) }.

Definition replay_one (st : BatchReplayResult * State) (r : DeliveryRecord) : BatchReplayResult * State :=
  let '(res, s) := st in
  let '(last, err, s) := ReplayDeadLetter (rec_ID r) s in
  match err with
  | Some _ => (mkBatch (Processed res) (Succeeded res) (S (Failed res)) (Records res ++ [last]), s)
  | None => (mkBatch (Processed res) (S (Succeeded res)) (Failed res) (Records res ++ [last]), s)
  end.

Definition ReplayAllDeadLetters (s : State) : BatchReplayResult * State :=
  let records := DeadLetterRecords (mgr s) in
  foldl replay_one (mkBatch (length records) 0 0 [], s) records.

Inductive op :=
| OAdd (n : string) | OInterval (d : duration) | ORetry (attempts : Z) (backoff : duration) | OClose
| OSend (a : Alert) | OReplay (id : string) | OReplayAll | OTicket (id : string) (t : TicketReference).

Definition exec (s : State) (o : op) : State :=
  match o with
  | OAdd n => on_mgr (AddNotifier n) s
  | OInterval d => on_mgr (SetMinInterval d) s
  | ORetry k b => on_mgr (SetRetryPolicy k b) s
  | OClose => on_mgr Close s
  | OSend a => Send a s
  | OReplay id => (ReplayDeadLetter id s).2
  | OReplayAll => (ReplayAllDeadLetters s).2
  | OTicket id t => match SetTicketReference id t (mgr s) with Some (_, m) => on_mgr (fun _ => m) s | None => s end
  end.

Definition start : State := mkState NewManager 0 [].
Definition run_ops (ops : list op) : State := foldl exec start ops.
End delivery.

(** ** Conservation *)

Definition about (n : string) (a : Alert) (it : deadLetterItem) : Prop := item_Notifier it = n /\ item_Alert it = a.
#[global] Instance about_dec n a it : Decision (about n a it).
Proof. unfold about. apply _. Defined.

Definition letters (n : string) (a : Alert) (m : gmap string deadLetterItem) : nat := size (filter (fun kv => about n a kv.2) m).
Definition times (e : entry) (s : State) : nat := length (filter (fun x => x = e) (trace s)).

Lemma letters_insert n a id it m : m !! id = None -> letters n a (<[id := it]> m) = (letters n a m + if decide (about n a it) then 1 else 0)%nat.
Proof.
  intros Hid. unfold letters. case_decide.
  - rewrite map_filter_insert_True by done. rewrite map_size_insert_None; [lia|]. apply map_lookup_filter_None. by left.
  - rewrite map_filter_insert_False by done. rewrite delete_id by done. lia.
Qed.

Lemma letters_delete n a id it m : m !! id = Some it -> letters n a m = (letters n a (delete id m) + if decide (about n a it) then 1 else 0)%nat.
Proof. intros Hid. rewrite <-(insert_delete_id m id it) at 1 by done. apply letters_insert, lookup_delete_eq. Qed.

Lemma letters_replace n a id it it' m : m !! id = Some it -> (about n a it <-> about n a it') -> letters n a (<[id := it']> m) = letters n a m.
Proof.
  intros Hid Hab. rewrite (letters_delete n a id it m Hid), <-insert_delete_eq, letters_insert by apply lookup_delete_eq.
  by rewrite (decide_ext _ _ 1%nat 0%nat Hab).
Qed.

Lemma times_log e x s : times e (log x s) = (times e s + if decide (x = e) then 1 else 0)%nat.
Proof. unfold times, log. simpl. rewrite filter_app, length_app, filter_cons, filter_nil. by case_decide. Qed.

Section conservation.
Context (outcome : nat -> option string) (clock : nat -> time).
(** The clock advances between the first readings, [horizon] of them. *)
Context (horizon : nat).
Hypothesis clock_runs : forall i, (i < horizon)%nat -> time_UnixNano (clock i) < time_UnixNano (clock (S i)).

Lemma clock_mono i j : (i < j)%nat -> (j <= horizon)%nat -> time_UnixNano (clock i) < time_UnixNano (clock j).
Proof. induction 1 as [|j Hj IH]; intros Hh; [apply clock_runs; lia|]. pose proof (clock_runs j ltac:(lia)). specialize (IH ltac:(lia)). lia. Qed.

Lemma colon_not_digit (t : Z) : ~ occurs ":"%char (pretty t).
Proof. apply pretty_Z_not_occurs. apply (bool_decide_unpack _). by vm_compute. Qed.

(** The time ends the identifier, so identifiers of different times differ. *)
Lemma stamp_inj x y (t u : Z) : x +:+ ":" +:+ pretty t = y +:+ ":" +:+ pretty u -> t = u.
Proof.
  intros H. apply (f_equal chars) in H. rewrite !chars_app in H. simpl in H.
  pose proof (last_index_app ":"%char (chars x) (chars (pretty t)) (colon_not_digit t)) as H1.
  pose proof (last_index_app ":"%char (chars y) (chars (pretty u)) (colon_not_digit u)) as H2.
  rewrite H, H2 in H1. injection H1 as H1. apply app_inj_1 in H as [_ H]; [|done]. injection H as H. by apply (inj chars), (inj pretty) in H.
Qed.

(** An identifier made before the counter reached [k]. *)
Definition made_before (k : nat) (id : string) : Prop := exists x j, (j < k)%nat /\ id = x +:+ ":" +:+ pretty (time_UnixNano (clock j)).

Lemma delivery_id_stamp a n attempt t : exists x, buildDeliveryID a n attempt t = x +:+ ":" +:+ pretty (time_UnixNano t).
Proof.
  unfold buildDeliveryID. cbv zeta. set (base := if String.eqb (if String.eqb (ID a) "" then Pattern a else ID a) "" then "alert" else _).
  exists (n +:+ ":" +:+ base +:+ ":" +:+ pretty attempt). by rewrite !string_app_assoc.
Qed.

Lemma made_fresh k a n attempt : (k <= horizon)%nat -> ~ made_before k (buildDeliveryID a n attempt (clock k)).
Proof.
  intros Hh (x & j & Hj & H). destruct (delivery_id_stamp a n attempt (clock k)) as [y Hy]. rewrite Hy in H.
  apply stamp_inj in H. pose proof (clock_mono j k Hj Hh). lia.
Qed.

Lemma made_here k a n attempt : made_before (S k) (buildDeliveryID a n attempt (clock k)).
Proof. destruct (delivery_id_stamp a n attempt (clock k)) as [y Hy]. exists y, k. split; [lia|done]. Qed.

Lemma made_later k k' id : (k <= k')%nat -> made_before k id -> made_before k' id.
Proof. intros Hk (x & j & Hj & ->). exists x, j. split; [lia|done]. Qed.

Record good (s : State) : Prop := {
  g_attempts : 1 <= maxAttempts (mgr s);
  g_max : maxHistory (mgr s) = 200%nat;
  g_history : (length (deliveryHistory (mgr s)) <= 200)%nat;
  g_letters : (length (deadLetters (mgr s)) <= 200)%nat;
  g_keys : forall id it, deadLetterItems (mgr s) !! id = Some it -> made_before (tick s) id;
  g_listed : forall r, r ∈ deadLetters (mgr s) -> exists it, deadLetterItems (mgr s) !! rec_ID r = Some it /\ item_Notifier it = Notifier r;
}.

(** What a notifier got and what is kept for it. *)
Definition settled (n : string) (a : Alert) (s : State) : nat := (times (Called n a true) s + letters n a (deadLetterItems (mgr s)))%nat.
Definition owed (n : string) (a : Alert) (s : State) : nat := (times (Asked n a) s + times (ReplayFailed n a) s)%nat.

(** What stays while one alert is tried at one notifier. *)
Definition kept (s s' : State) : Prop :=
  notifiers (mgr s') = notifiers (mgr s) /\ maxAttempts (mgr s') = maxAttempts (mgr s) /\
  (forall id it, deadLetterItems (mgr s) !! id = Some it -> deadLetterItems (mgr s') !! id = Some it) /\
  (forall n a, times (Asked n a) s' = times (Asked n a) s /\ times (ReplayFailed n a) s' = times (ReplayFailed n a) s).

Lemma kept_trans s1 s2 s3 : kept s1 s2 -> kept s2 s3 -> kept s1 s3.
Proof. intros (H1 & H2 & H3 & H4) (K1 & K2 & K3 & K4). split_and!; [congruence|congruence|auto|]. intros n a. destruct (H4 n a), (K4 n a). split; congruence. Qed.

(** One attempt: the call, its record and the two readings of the clock. *)
Definition tried (n : string) (a : Alert) (r : DeliveryRecord) (ok : bool) (s : State) : State :=
  mkState (recordDelivery r a (mgr s)) (S (S (S (tick s)))) (trace s ++ [Called n a ok]).

Lemma take_length_le {A} (l : list A) k : (length (take k l) <= k)%nat.
Proof. rewrite length_take. lia. Qed.

Lemma tried_good n a r ok s : (S (tick s) <= horizon)%nat -> good s -> Notifier r = n -> (exists attempt, rec_ID r = buildDeliveryID a n attempt (clock (S (tick s)))) -> good (tried n a r ok s).
Proof.
  intros Hhor [Ha Hm Hh Hl Hk Hli] Hn [attempt Hid]. unfold tried, recordDelivery.
  assert (made_before (S (S (S (tick s)))) (rec_ID r)) as Hmade by (rewrite Hid; eapply made_later; [|apply made_here]; lia).
  case_decide; split; simpl; rewrite ?Hm; auto using take_length_le.
  - intros id it. rewrite lookup_insert. case_decide as E; [by intros; subst|]. intros Hit. eapply made_later; [|by eapply Hk]. lia.
  - intros r' Hr'. destruct (decide (rec_ID r = rec_ID r')) as [E|E].
    + exists (mkItem r a (Notifier r)). rewrite <-E, lookup_insert_eq. split; [done|]. simpl.
      apply subseteq_take, elem_of_cons in Hr' as [->|Hr']; [done|]. destruct (Hli r' Hr') as (it & Hit & _). exfalso.
      apply (made_fresh (S (tick s)) a n attempt Hhor). rewrite <-Hid, E. eapply made_later; [|by eapply Hk]. lia.
    + rewrite lookup_insert_ne by done. apply Hli. apply subseteq_take, elem_of_cons in Hr' as [->|Hr']; done.
  - intros id it Hit. eapply made_later; [|by eapply Hk]. lia.
Qed.

Lemma tried_kept n a r ok s : (S (tick s) <= horizon)%nat -> good s -> (exists attempt, rec_ID r = buildDeliveryID a n attempt (clock (S (tick s)))) -> kept s (tried n a r ok s).
Proof.
  intros Hhor Hg [attempt Hid]. unfold tried, recordDelivery. split_and!; simpl; [by case_decide..| |].
  - intros id it Hit. case_decide; simpl; [|done]. rewrite lookup_insert_ne; [done|]. intros <-.
    apply (made_fresh (S (tick s)) a n attempt Hhor). rewrite <-Hid. eapply made_later; [|by eapply g_keys]. lia.
  - intros n' a'. unfold times. simpl. rewrite !filter_app, !length_app, !filter_cons, !filter_nil. simpl. lia.
Qed.

Lemma tried_fresh n a r s attempt : (S (tick s) <= horizon)%nat -> good s -> rec_ID r = buildDeliveryID a n attempt (clock (S (tick s))) -> deadLetterItems (mgr s) !! rec_ID r = None.
Proof.
  intros Hhor Hg Hid. destruct (deadLetterItems (mgr s) !! rec_ID r) as [it|] eqn:E; [|done]. exfalso.
  apply (made_fresh (S (tick s)) a n attempt Hhor). rewrite <-Hid. eapply made_later; [|by eapply g_keys]. lia.
Qed.

Definition one (n n' : string) (a a' : Alert) : nat := if decide (n = n' /\ a = a') then 1 else 0.

Lemma tried_settled n a r ok s n' a' : (S (tick s) <= horizon)%nat -> good s -> Notifier r = n -> (exists attempt, rec_ID r = buildDeliveryID a n attempt (clock (S (tick s)))) ->
  settled n' a' (tried n a r ok s) = (settled n' a' s + if ok || bool_decide (Status r = DeadLetter) then one n n' a a' else 0)%nat
  \/ ok = true /\ Status r = DeadLetter.
Proof.
  intros Hhor Hg Hn [attempt Hid]. pose proof (tried_fresh n a r s attempt Hhor Hg Hid) as Hf.
  assert (times (Called n' a' true) (tried n a r ok s) = (times (Called n' a' true) s + if ok then one n n' a a' else 0)%nat) as Ht.
  { unfold times, tried. simpl. rewrite filter_app, length_app, filter_cons, filter_nil. f_equal. unfold one.
    destruct ok; repeat case_decide; simplify_eq; naive_solver. }
  unfold settled. rewrite Ht. unfold tried, recordDelivery. simpl. destruct (decide (Status r = DeadLetter)) as [Hs|Hs]; simpl.
  - destruct ok; [by right|left]. rewrite bool_decide_eq_true_2 by done. simpl. rewrite letters_insert by done. unfold one. rewrite Nat.add_0_r, Nat.add_assoc. f_equal. apply decide_ext. unfold about. simpl. by rewrite Hn.
  - left. rewrite bool_decide_eq_false_2 by done. destruct ok; simpl; lia.
Qed.

Lemma attempts_step n a maxA attempt k last s :
  let err := outcome (tick s) in
  let r := mkRecord (buildDeliveryID a n attempt (clock (S (tick s)))) n (ID a) (Pattern a) (Severity a)
             (match err with None => Delivered | Some _ => if attempt <? maxA then Retrying else DeadLetter end) attempt maxA
             (clock (S (S (tick s)))) (default "" err) None in
  attempts outcome clock n a maxA attempt (S k) last s =
  match err with
  | None => (Some r, true, tried n a r true s)
  | Some _ => attempts outcome clock n a maxA (attempt + 1) k (Some r) (tried n a r false s)
  end.
Proof. simpl. by destruct (outcome (tick s)). Qed.

Lemma attempts_tick n a maxA k : forall attempt last s, (tick s <= tick (attempts outcome clock n a maxA attempt k last s).2)%nat.
Proof.
  induction k as [|k IH]; intros attempt last s; [done|]. rewrite attempts_step. cbv zeta. destruct (outcome (tick s)); simpl; [|lia].
  etrans; [|apply IH]. simpl. lia.
Qed.

(** A series of attempts settles exactly one delivery: accepted or kept as a letter. *)
Lemma attempts_spec n a maxA k : forall attempt last s, good s -> 1 <= attempt <= maxA -> k = Z.to_nat (maxA - attempt + 1) ->
  (tick (attempts outcome clock n a maxA attempt k last s).2 <= horizon)%nat ->
  exists r ok s', attempts outcome clock n a maxA attempt k last s = (Some r, ok, s') /\ good s' /\ kept s s' /\
    forall n' a', settled n' a' s' = (settled n' a' s + one n n' a a')%nat.
Proof.
  induction k as [|k IH]; intros attempt last s Hg Ha Hk Hhor; [lia|]. rewrite attempts_step in Hhor |- *.
  set (r := mkRecord _ n _ _ _ _ _ _ _ _ _). cbv zeta in Hhor |- *. fold r in Hhor |- *.
  assert (exists attempt', rec_ID r = buildDeliveryID a n attempt' (clock (S (tick s)))) as Hid by (by exists attempt).
  assert (S (tick s) <= horizon)%nat as Hh.
  { destruct (outcome (tick s)); [|simpl in Hhor; lia]. etrans; [|exact Hhor]. etrans; [|apply attempts_tick]. simpl. lia. }
  destruct (outcome (tick s)) as [e|] eqn:Eo.
  - destruct (Z.ltb_spec attempt maxA) as [Hlt|Hge].
    + destruct (IH (attempt + 1) (Some r) (tried n a r false s)) as (r' & ok & s' & -> & Hg' & Hkept & Hset); [by apply tried_good|lia|lia|exact Hhor|].
      exists r', ok, s'. split_and!; [done|done|by eapply kept_trans; [apply tried_kept|]|].
      intros n' a'. rewrite Hset. destruct (tried_settled n a r false s n' a' Hh Hg eq_refl Hid) as [->|[? _]]; [|done]. simpl. lia.
    + destruct k; [|lia]. exists r, false, (tried n a r false s). split_and!; [done|by apply tried_good|by apply tried_kept|].
      intros n' a'. destruct (tried_settled n a r false s n' a' Hh Hg eq_refl Hid) as [->|[? _]]; [|done]. done.
  - exists r, true, (tried n a r true s). split_and!; [done|by apply tried_good|by apply tried_kept|].
    intros n' a'. destruct (tried_settled n a r true s n' a' Hh Hg eq_refl Hid) as [->|[_ ?]]; [|done]. done.
Qed.

Definition conserved (s : State) : Prop := good s /\ forall n a, settled n a s = owed n a s.

Lemma owed_kept n a s s' : kept s s' -> owed n a s' = owed n a s.
Proof. intros (_ & _ & _ & H). unfold owed. by destruct (H n a) as [-> ->]. Qed.

(** A state that differs only in what the accounts do not read. *)
Lemma conserved_same s s' : conserved s -> 1 <= maxAttempts (mgr s') -> maxHistory (mgr s') = maxHistory (mgr s) ->
  deliveryHistory (mgr s') = deliveryHistory (mgr s) -> deadLetters (mgr s') = deadLetters (mgr s) ->
  deadLetterItems (mgr s') = deadLetterItems (mgr s) -> (tick s <= tick s')%nat -> trace s' = trace s -> conserved s'.
Proof.
  intros [[Ha Hm Hh Hl Hk Hli] Hc] H1 H2 H3 H4 H5 H6 H7. split.
  - split; rewrite ?H2, ?H3, ?H4, ?H5; auto. intros id it Hit. eapply made_later; [exact H6|]. by eapply Hk.
  - intros n a. specialize (Hc n a). unfold settled, owed, times in *. by rewrite H5, H7.
Qed.

Lemma log_good e s : good s -> good (log e s).
Proof. by intros []. Qed.

Lemma send_to_conserved a s n : (tick (send_to outcome clock a s n) <= horizon)%nat -> conserved s -> conserved (send_to outcome clock a s n) /\ notifiers (mgr (send_to outcome clock a s n)) = notifiers (mgr s).
Proof.
  intros Hhor [Hg Hc]. unfold send_to in Hhor |- *. simpl in Hhor |- *. pose proof (g_attempts _ Hg) as Ha.
  destruct (attempts_spec n a (maxAttempts (mgr s)) (Z.to_nat (maxAttempts (mgr s))) 1 None (log (Asked n a) s)) as (r & ok & s' & -> & Hg' & Hk & Hset);
    [by apply log_good|lia|lia|exact Hhor|]. simpl. split; [|by destruct Hk as (-> & _)]. split; [done|]. intros n' a'.
  rewrite Hset, (owed_kept _ _ _ _ Hk). specialize (Hc n' a'). unfold settled, owed in *. rewrite !times_log. simpl. unfold one.
  repeat case_decide; simplify_eq; naive_solver lia.
Qed.

Lemma throttle_conserved a s : conserved s -> conserved (shouldThrottle clock a s).2.
Proof.
  intros Hc. pose proof (g_attempts _ (proj1 Hc)). unfold shouldThrottle. case_match; [done|]. simpl.
  repeat case_match; simpl; (eapply conserved_same; [exact Hc|simpl; done || lia..]).
Qed.

Lemma send_to_tick a s n : (tick s <= tick (send_to outcome clock a s n))%nat.
Proof. unfold send_to. simpl. apply (attempts_tick n a _ _ _ _ (log (Asked n a) s)). Qed.

Lemma sends_tick a l s : (tick s <= tick (foldl (send_to outcome clock a) s l))%nat.
Proof. revert s. induction l as [|n l IH]; intros s; [done|]. simpl. etrans; [apply (send_to_tick a s n)|apply IH]. Qed.

Lemma Send_tick a s : (tick s <= tick (Send outcome clock a s))%nat.
Proof.
  unfold Send. assert (tick s <= tick (shouldThrottle clock a s).2)%nat by (unfold shouldThrottle, now; simpl; repeat case_match; simpl; lia).
  destruct (shouldThrottle clock a s) as [[] s1]; [done|]. simpl in *. etrans; [done|apply sends_tick].
Qed.

Lemma Send_conserved a s : (tick (Send outcome clock a s) <= horizon)%nat -> conserved s -> conserved (Send outcome clock a s).
Proof.
  intros Hh Hc. apply (throttle_conserved a) in Hc. unfold Send in *. destruct (shouldThrottle clock a s) as [[] s1]; [done|]. simpl in Hc.
  revert Hh. generalize (notifiers (mgr s1)). intros l. revert s1 Hc. induction l as [|n l IH]; intros s1 Hc Hh; [done|]. simpl in *.
  apply IH; [|done]. apply send_to_conserved; [|done]. etrans; [apply (sends_tick a l)|done].
Qed.

Lemma clear_good id s : good s -> good (on_mgr (clearDeadLetter id) s).
Proof.
  intros [Ha Hm Hh Hl Hk Hli]. split; simpl; auto.
  - etrans; [apply length_filter|done].
  - intros i it [_ Hit]%lookup_delete_Some. by eapply Hk.
  - intros r [Hr Hin]%list_elem_of_filter. rewrite lookup_delete_ne by done. auto.
Qed.

Lemma Replay_tick id s : (tick s <= tick (ReplayDeadLetter outcome clock id s).2)%nat.
Proof.
  unfold ReplayDeadLetter. destruct (deadLetterItems (mgr s) !! id) as [it|]; [|done]. case_decide; [|done].
  pose proof (attempts_tick (item_Notifier it) (item_Alert it) (maxAttempts (mgr s)) (Z.to_nat (maxAttempts (mgr s))) 1 None s) as Ht.
  destruct (attempts _ _ _ _ _ _ _ _ _) as [[last ok] s']. simpl in Ht. by destruct ok.
Qed.

Lemma Replay_conserved id s : (tick (ReplayDeadLetter outcome clock id s).2 <= horizon)%nat -> conserved s -> conserved (ReplayDeadLetter outcome clock id s).2.
Proof.
  intros Hhor [Hg Hc]. unfold ReplayDeadLetter in *. destruct (deadLetterItems (mgr s) !! id) as [it|] eqn:Eit; [|done]. case_decide; [|done].
  pose proof (g_attempts _ Hg) as Ha.
  destruct (attempts_spec (item_Notifier it) (item_Alert it) (maxAttempts (mgr s)) (Z.to_nat (maxAttempts (mgr s))) 1 None s) as (r & ok & s' & -> & Hg' & Hk & Hset);
    [done|lia|lia| |].
  { destruct (attempts _ _ _ _ _ _ _ _ _) as [[last ok] s']. by destruct ok. }
  assert (deadLetterItems (mgr s') !! id = Some it) as Hit by (by apply Hk). destruct ok; simpl.
  - split; [by apply clear_good|]. intros n a. specialize (Hset n a). specialize (Hc n a). rewrite <-(owed_kept _ _ _ _ Hk) in Hc.
    change (owed n a (on_mgr (clearDeadLetter id) s')) with (owed n a s'). rewrite <-Hc. unfold settled in *. simpl.
    change (times (Called n a true) (on_mgr (clearDeadLetter id) s')) with (times (Called n a true) s').
    rewrite (letters_delete n a id it _ Hit) in Hset. unfold one, about in Hset. repeat case_decide; naive_solver lia.
  - split; [by apply log_good|]. intros n a. specialize (Hset n a). specialize (Hc n a). rewrite <-(owed_kept _ _ _ _ Hk) in Hc.
    unfold settled, owed in *. rewrite !times_log. simpl. unfold one in Hset. repeat case_decide; simplify_eq; naive_solver lia.
Qed.

Lemma replay_all_conserved l b s : (tick (foldl (replay_one outcome clock) (b, s) l).2 <= horizon)%nat -> conserved s ->
  conserved (foldl (replay_one outcome clock) (b, s) l).2.
Proof.
  assert (forall l b s, tick s <= tick (foldl (replay_one outcome clock) (b, s) l).2)%nat as Hmono.
  { clear. induction l as [|r l IH]; intros b s; [done|]. simpl. pose proof (Replay_tick (rec_ID r) s) as Ht.
    destruct (ReplayDeadLetter outcome clock (rec_ID r) s) as [[last err] s']. simpl in Ht. destruct err; (etrans; [exact Ht|apply IH]). }
  revert b s. induction l as [|r l IH]; intros b s Hh Hc; [done|]. simpl in *. pose proof (Replay_conserved (rec_ID r) s) as Hr.
  destruct (ReplayDeadLetter outcome clock (rec_ID r) s) as [[last err] s']. simpl in Hr.
  destruct err; (apply IH; [done|]; apply Hr; [|done]; etrans; [apply Hmono|exact Hh]).
Qed.

Lemma link_elem id t l r : r ∈ link id t l -> exists r0, r0 ∈ l /\ rec_ID r = rec_ID r0 /\ Notifier r = Notifier r0.
Proof.
  induction l as [|x l IH]; simpl; [by intros ?%elem_of_nil|]. case_match; intros [->|Hr]%elem_of_cons.
  - exists x. split; [left|done].
  - exists r. split; [by right|done].
  - exists x. split; [left|done].
  - destruct (IH Hr) as (r0 & ? & ?). exists r0. split; [by right|done].
Qed.

Lemma link_length id t l : length (link id t l) = length l.
Proof. induction l as [|x l IH]; simpl; [done|]. case_match; simpl; congruence. Qed.

Lemma ticket_conserved id t s : conserved s -> conserved (exec outcome clock s (OTicket id t)).
Proof.
  intros [[Ha Hm Hh Hl Hk Hli] Hc]. simpl. unfold SetTicketReference. destruct (deadLetterItems (mgr s) !! id) as [it|] eqn:Eit; [|by split]. simpl. split.
  - split; simpl; rewrite ?link_length; auto.
    + intros i it'. rewrite lookup_insert. case_decide; [intros; subst; by eapply Hk|apply Hk].
    + intros r (r0 & Hr0 & -> & ->)%link_elem. destruct (Hli r0 Hr0) as (it0 & Hit0 & Hn). rewrite lookup_insert. case_decide as E; [|eauto].
      subst. rewrite Eit in Hit0. injection Hit0 as ->. eauto.
  - intros n a. specialize (Hc n a). unfold settled, owed in *. simpl. by rewrite (letters_replace n a id it).
Qed.

Lemma exec_tick s o : (tick s <= tick (exec outcome clock s o))%nat.
Proof.
  destruct o; simpl; try done; [apply Send_tick|apply Replay_tick| |].
  - unfold ReplayAllDeadLetters. generalize (mkBatch (length (DeadLetterRecords (mgr s))) 0 0 []). generalize (DeadLetterRecords (mgr s)).
    intros l. revert s. induction l as [|r l IH]; intros s b; [done|]. simpl. pose proof (Replay_tick (rec_ID r) s) as Ht.
    destruct (ReplayDeadLetter outcome clock (rec_ID r) s) as [[last err] s']. simpl in Ht. destruct err; (etrans; [exact Ht|apply IH]).
  - destruct (SetTicketReference id t (mgr s)) as [[? ?]|]; done.
Qed.

Lemma exec_conserved s o : (tick (exec outcome clock s o) <= horizon)%nat -> conserved s -> conserved (exec outcome clock s o).
Proof.
  intros Hh Hc. pose proof (g_attempts _ (proj1 Hc)) as Ha. destruct o.
  - by eapply conserved_same.
  - by eapply conserved_same.
  - eapply conserved_same; try done. simpl. destruct (Z.ltb_spec attempts0 1); lia.
  - by eapply conserved_same.
  - by apply Send_conserved.
  - by apply Replay_conserved.
  - by apply replay_all_conserved.
  - by apply ticket_conserved.
Qed.

Lemma run_conserved ops : (tick (run_ops outcome clock ops) <= horizon)%nat -> conserved (run_ops outcome clock ops).
Proof.
  unfold run_ops. assert (conserved start) as Hs.
  { split; [|done]. split; simpl; try done; try lia. intros r Hr. by apply elem_of_nil in Hr. }
  assert (forall ops s, tick s <= tick (foldl (exec outcome clock) s ops))%nat as Hmono.
  { clear. induction ops as [|o ops IH]; intros s; [done|]. simpl. etrans; [apply (exec_tick s o)|apply IH]. }
  revert Hs. generalize start. induction ops as [|o ops IH]; intros s Hs Hh; [done|]. simpl in *. apply IH; [|done].
  apply exec_conserved; [|done]. etrans; [apply Hmono|exact Hh].
Qed.

End conservation.

(** A notifier that fails six times: the first delivery becomes a letter, its replay
    fails and leaves a second letter, and the batch delivers the alert twice. *)
Definition alert1 : Alert := mkAlert "a1" 0 "HIGH" "P" "" "" "" ∅.
Definition tick_clock (i : nat) : time := unix_epoch + Z.of_nat i.
Definition failing (i : nat) : option string := if (i <? 18)%nat then Some "down" else None.
Definition notify_ops (id : string) : list op := [OAdd "mail"; OSend alert1; OReplay id].

Example letter_doubled :
  let s := run_ops failing tick_clock (notify_ops "mail:a1:3:7") in
  rec_ID <$> deadLetters (mgr s) = ["mail:a1:3:16"; "mail:a1:3:7"] /\
  times (Called "mail" alert1 true) (exec failing tick_clock s OReplayAll) = 2%nat.
Proof. vm_compute. done. Qed.

