(* ===== verification/PolicyAlert.v ===== *)
(** * Attack patterns on the graph, incidents and storm control ([internal/policy/alert]:
    [matcher.go], [incident.go], [summary.go], [webhook.go])

    A tick of the pipeline searches the graph for multi-step patterns, limits the rate of
    alerts, merges repeated matches into incidents and sends a summary of each new one.
    The clock and the replies of the webhook are read at a counter that advances with
    every reading; times in summaries are kept as times, and the text forms of summaries
    and the metrics are left out.  The graph does not change during a tick. *)
From S2P Require Import Prelude GoStrings GoTime Events ProvGraph ProvInv ProvVersions ProvKinds.
From Stdlib Require Import Ascii Sorted.

Record PatternStep := mkStep { SourceType : string; SourceMatch : string; Relation : string; TargetType : string; TargetMatch : string }.

Record AttackPattern := mkPattern { ID : string; Name : string; Description : string; Severity : string; Steps : list PatternStep }.

Definition DefaultPatterns : list AttackPattern := [
  mkPattern "APT-WEB-SHELL" "Web Shell Attack Chain" "Web server → shell execution → config write → C2 connect" "CRITICAL"
    [mkStep "process" "nginx|apache|httpd" "wasInformedBy" "process" "bash|sh";
     mkStep "process" "bash|sh" "wasGeneratedBy" "file" "/etc/|/root/";
     mkStep "process" "bash|sh" "used" "network" ""];
  mkPattern "APT-LOL-EXEC" "Living-off-the-Land Execution" "Network tool downloads payload, writes to /tmp, executes it" "CRITICAL"
    [mkStep "process" "curl|wget|nc|python" "wasGeneratedBy" "file" "/tmp/";
     mkStep "process" "bash|sh|python" "used" "file" "/tmp/"];
  mkPattern "APT-CRED-EXFIL" "Credential Exfiltration" "Process accesses shadow file and connects to external IP" "HIGH"
    [mkStep "process" "" "used" "file" "shadow|passwd";
     mkStep "process" "" "used" "network" ""]].

(** [Confidence] is a quotient: its numerator and denominator. *)
Record MatchResult := mkMatch { Pattern : AttackPattern; Nodes : list string; Confidence : nat * nat }.

Definition relMatch (pattern rel : string) : bool :=
  if String.eqb pattern "used" then String.eqb rel "prov:used"
  else if String.eqb pattern "wasGeneratedBy" then String.eqb rel "prov:wasGeneratedBy"
  else if String.eqb pattern "wasInformedBy" then String.eqb rel "prov:wasInformedBy"
  else if String.eqb pattern "forked" then String.eqb rel "prov:wasInformedBy"
  else false.

(** The first result. *)
Fixpoint first_some {A B} (f : A -> option B) (l : list A) : option B :=
  match l with [] => None | x :: l => match f x with Some y => Some y | None => first_some f l end end.

Section matcher.
Context {UC : UnicodeCase} {MO : MapOrder}.

Definition patternMatch (pattern value : string) : bool :=
  if String.eqb pattern "" then true
  else existsb (fun p => Contains (ToLower value) (ToLower p)) (Split pattern "|"%char).

(** An empty field of a step asks for nothing. *)
Definition field_ok (want : string) (ok : bool) : bool := String.eqb want "" || ok.

Definition source_ok (step : PatternStep) (n : Node.t) : bool :=
  field_ok (SourceType step) (String.eqb (Node.Subtype n) (SourceType step))
  && field_ok (SourceMatch step) (patternMatch (SourceMatch step) (Node.Label n)).
Definition target_ok (step : PatternStep) (n : Node.t) : bool :=
  field_ok (TargetType step) (String.eqb (Node.Subtype n) (TargetType step))
  && field_ok (TargetMatch step) (patternMatch (TargetMatch step) (Node.Label n)).
Definition relation_ok (step : PatternStep) (e : Edge.t) : bool := field_ok (Relation step) (relMatch (Relation step) (Edge.Relation e)).

Definition findStartNodes (g : Graph) (step : PatternStep) : list string :=
  Node.ID <$> filter (fun n => source_ok step n = true) (range 0 (map_to_list (nodes g)).*2).

(** One end of an edge as the next node of the path. *)
Definition step_to (g : Graph) (step : PatternStep) (e : Edge.t) (next : string) : option Node.t :=
  if relation_ok step e then n ← LookupNode g next; if target_ok step n then Some n else None else None.

Fixpoint tracePath (g : Graph) (nodeID : string) (steps : list PatternStep) (depth : Z) : option (list string) :=
  match steps with
  | [] => Some [nodeID]
  | step :: steps =>
      if 10 <? depth then None
      else
        let via e next := n ← step_to g step e next; rest ← tracePath g (Node.ID n) steps (depth + 1); Some (nodeID :: rest) in
        first_some (fun e =>
          match (if String.eqb (Edge.Source e) nodeID then via e (Edge.Target e) else None) with
          | Some p => Some p
          | None => if String.eqb (Edge.Target e) nodeID then via e (Edge.Source e) else None
          end) (Edges g)
  end.

Definition matchPattern (g : Graph) (p : AttackPattern) : option MatchResult :=
  match Steps p with
  | [] => None
  | step :: _ =>
      path ← first_some (fun id => tracePath g id (Steps p) 1) (findStartNodes g step);
      Some (mkMatch p path (length path, S (length (Steps p))))
  end.

Definition MatchAll (patterns : list AttackPattern) (g : Graph) : list MatchResult := omap (matchPattern g) patterns.
End matcher.

(** ** Incidents *)

Record Incident := mkIncident {
  inc_ID : string; PatternID : string; PatternName : string; inc_Severity : string; FirstSeen : time; LastSeen : time; Count : Z; inc_Nodes : list string; Resolved : bool;
}.

Record IncidentManager := mkIncidents { incidents : gmap string Incident; window : duration; resolveAfter : duration }.

Definition NewIncidentManager : IncidentManager := mkIncidents ∅ (5 * Minute) (30 * Minute).
Definition set_incidents (m : gmap string Incident) (im : IncidentManager) : IncidentManager := mkIncidents m (window im) (resolveAfter im).

Definition dedupKey (m : MatchResult) : string :=
  match Nodes m with
  | n :: _ :: _ => ID (Pattern m) +:+ "|" +:+ n +:+ "→" +:+ default "" (last (Nodes m))
  | _ => ID (Pattern m) +:+ "|" +:+ String.concat "," (Nodes m)
  end.

Definition set_Resolved (b : bool) (i : Incident) : Incident :=
  mkIncident (inc_ID i) (PatternID i) (PatternName i) (inc_Severity i) (FirstSeen i) (LastSeen i) (Count i) (inc_Nodes i) b.

(** The nodes of the match that are new. *)
Definition merge_nodes (old new : list string) : list string :=
  foldl (fun l n => if decide (n ∈ l) then l else l ++ [n]) old new.

Definition merge_incident (m : MatchResult) (now : time) (i : Incident) : Incident :=
  mkIncident (inc_ID i) (PatternID i) (PatternName i) (inc_Severity i) (FirstSeen i) now (Count i + 1) (merge_nodes (inc_Nodes i) (Nodes m)) (Resolved i).

Definition time_Unix (t : time) : Z := (t - unix_epoch) / Second.

Definition new_incident (m : MatchResult) (now : time) : Incident :=
  mkIncident ("INC-" +:+ ID (Pattern m) +:+ "-" +:+ pretty (time_Unix now)) (ID (Pattern m)) (Name (Pattern m)) (Severity (Pattern m)) now now 1 (Nodes m) false.

(** The new incident, if one was made; an incident outside the window is replaced, so
    marking it resolved has no further effect. *)
Definition Ingest (m : MatchResult) (now : time) (im : IncidentManager) : option Incident * IncidentManager :=
  let key := dedupKey m in
  let fresh := (Some (new_incident m now), set_incidents (<[key := new_incident m now]> (incidents im)) im) in
  match incidents im !! key with
  | Some inc =>
      if time_Sub now (LastSeen inc) <? window im
      then (None, set_incidents (<[key := merge_incident m now inc]> (incidents im)) im)
      else fresh
  | None => fresh
  end.

Definition stale (now : time) (im : IncidentManager) (i : Incident) : bool := negb (Resolved i) && (resolveAfter im <? time_Sub now (LastSeen i)).

Definition ResolveOld (now : time) (im : IncidentManager) : nat * IncidentManager :=
  (size (filter (fun kv => stale now im kv.2 = true) (incidents im)),
   set_incidents ((fun i => if stale now im i then set_Resolved true i else i) <$> incidents im) im).

Section incidents.
Context {UC : UnicodeCase} {MO : MapOrder}.

Definition ActiveIncidents (im : IncidentManager) : list Incident := filter (fun i => Resolved i = false) (range 0 (map_to_list (incidents im)).*2).

(** The first incident met with the identifier. *)
Definition ResolveIncident (id : string) (im : IncidentManager) : bool * IncidentManager :=
  match list_find (fun kv => EqualFold (inc_ID kv.2) id = true) (range 1 (map_to_list (incidents im))) with
  | Some (_, (k, i)) => (true, set_incidents (<[k := set_Resolved true i]> (incidents im)) im)
  | None => (false, im)
  end.
End incidents.

(** ** Summaries *)

Record AlertSummary := mkSummary {
  Title : string; sum_Severity : string; Timestamp : time; AttackPath : string; NodeCount : nat; KeyEntities : list string; sum_Description : string;
}.

Definition key_entities (g : Graph) (ids : list string) : list string :=
  omap (fun id => n ← LookupNode g id; Some ((if String.eqb (Node.Label n) "" then Node.ID n else Node.Label n) +:+ " (" +:+ Node.Subtype n +:+ ")")) ids.

Definition Generate (g : Graph) (now : time) (inc : Incident) : AlertSummary :=
  let es := key_entities g (inc_Nodes inc) in
  mkSummary (PatternName inc +:+ " — " +:+ inc_Severity inc) (inc_Severity inc) now (String.concat " → " (inc_Nodes inc)) (length es) es (PatternID inc).

Definition GenerateFromMatch (g : Graph) (now : time) (m : MatchResult) : AlertSummary :=
  let es := key_entities g (Nodes m) in
  mkSummary (Name (Pattern m) +:+ " — " +:+ Severity (Pattern m)) (Severity (Pattern m)) now (String.concat " → " (Nodes m)) (length es) es (Description (Pattern m)).

(** ** Storm control *)

Record RateLimiter := mkLimiter {
  MaxAlertsPerMinute : Z; StormCooldown : duration; rl_window : list time; stormUntil : time; stormCount : Z; lastStormSent : time;
}.

(** The defaults of [DefaultRateLimitConfig] are 60 alerts and 30 seconds. *)
Definition NewRateLimiter (cfg : option (Z * duration)) : RateLimiter :=
  let '(m, c) := default (60, 30 * Second) cfg in mkLimiter m c [] time_zero 0 time_zero.

Fixpoint drop_before (start : time) (w : list time) : list time :=
  match w with [] => [] | t :: w' => if time_Before t start then drop_before start w' else w end.

Definition Allow (now : time) (rl : RateLimiter) : bool * bool * RateLimiter :=
  let w := drop_before (time_Add now (- Minute)) (rl_window rl) in
  if time_Before now (stormUntil rl) then
    let sent := if time_After now (time_Add (lastStormSent rl) (StormCooldown rl)) then now else lastStormSent rl in
    (false, true, mkLimiter (MaxAlertsPerMinute rl) (StormCooldown rl) w (stormUntil rl) (stormCount rl + 1) sent)
  else if MaxAlertsPerMinute rl <=? Z.of_nat (length w) then
    (false, true, mkLimiter (MaxAlertsPerMinute rl) (StormCooldown rl) w (time_Add now (StormCooldown rl)) (Z.of_nat (length w)) now)
  else (true, false, mkLimiter (MaxAlertsPerMinute rl) (StormCooldown rl) (w ++ [now]) (stormUntil rl) (stormCount rl) (lastStormSent rl)).

Definition StormStats (now : time) (rl : RateLimiter) : Z * duration :=
  if time_IsZero (stormUntil rl) || time_After now (stormUntil rl) then (0, 0) else (stormCount rl, time_Sub (stormUntil rl) now).

(** ** Webhook *)

Record WebhookConfig := mkHook { URL : string; Timeout : duration; Retries : Z }.
Definition DefaultWebhookConfig : WebhookConfig := mkHook "" (10 * Second) 3.

Section pipeline.
Context {UC : UnicodeCase} {MO : MapOrder}.
(** The clock, the result of building a request for a URL, and what a request returns: an
    error or a status. *)
Context (clock : nat -> time) (request : string -> option string) (reply : nat -> string + Z).

(** The channel has a capacity; [posts] is what reached the endpoint, for the specification. *)
Record State := mkState { im : IncidentManager; rl : RateLimiter; ch : option (nat * list AlertSummary); tick : nat; posts : list AlertSummary }.

Definition set_im (x : IncidentManager) (s : State) : State := mkState x (rl s) (ch s) (tick s) (posts s).
Definition set_rl (x : RateLimiter) (s : State) : State := mkState (im s) x (ch s) (tick s) (posts s).
Definition now (s : State) : time * State := (clock (tick s), mkState (im s) (rl s) (ch s) (S (tick s)) (posts s)).

Definition success (status : Z) : bool := (200 <=? status) && (status <? 300).

Fixpoint send_loop (w : WebhookConfig) (summary : AlertSummary) (k : nat) (lastErr : option string) (s : State) : option string * State :=
  match k with
  | O => (Some ("webhook failed after " +:+ pretty (Retries w) +:+ " retries: " +:+ default "%!w(<nil>)" lastErr), s)
  | S k =>
      match request (URL w) with
      | Some e => (Some ("create request: " +:+ e), s)
      | None =>
          let r := reply (tick s) in
          let s' := mkState (im s) (rl s) (ch s) (S (tick s)) (posts s) in
          match r with
          | inl e => send_loop w summary k (Some e) s'
          | inr status =>
              let s' := mkState (im s') (rl s') (ch s') (tick s') (posts s' ++ [summary]) in
              if success status then (None, s') else send_loop w summary k (Some ("HTTP " +:+ pretty status)) s'
          end
      end
  end.

Definition hook_Send (w : WebhookConfig) (summary : AlertSummary) (s : State) : option string * State :=
  if String.eqb (URL w) "" then (None, s) else send_loop w summary (Z.to_nat (Retries w)) None s.

Definition sendToAlertCh (summary : AlertSummary) (s : State) : State :=
  match ch s with
  | None => s
  | Some (cap, l) => if (length l <? cap)%nat then mkState (im s) (rl s) (Some (cap, l ++ [summary])) (tick s) (posts s) else s
  end.

(** The retries are not set: they are zero. *)
Definition NewAlertPipeline (webhookURL : string) : WebhookConfig * State :=
  (mkHook webhookURL 0 0, mkState NewIncidentManager (NewRateLimiter None) None 0 []).

Definition deliver (w : WebhookConfig) (summary : AlertSummary) (s : State) : State := sendToAlertCh summary (hook_Send w summary s).2.

Definition storm_summary (cnt : Z) (t : time) : AlertSummary :=
  mkSummary "Alert Storm Detected" "critical" t "" 0 [pretty cnt +:+ " alerts suppressed"]
    ("Alert storm in progress — " +:+ pretty cnt +:+ " alerts suppressed. Individual alerts will resume after cooldown.").

Definition process (w : WebhookConfig) (g : Graph) (st : option AlertSummary * State) (m : MatchResult) : option AlertSummary * State :=
  let '(storm, s) := st in
  let '(t, s) := now s in
  let '(allow, isStorm, l) := Allow t (rl s) in
  let s := set_rl l s in
  if negb allow then
    match isStorm, storm with
    | true, None =>
        let '(t1, s) := now s in
        let cnt := (StormStats t1 (rl s)).1 in
        let '(t2, s) := now s in (Some (storm_summary cnt t2), s)
    | _, _ => (storm, s)
    end
  else
    let '(t, s) := now s in
    let '(inc, i) := Ingest m t (im s) in
    let s := set_im i s in
    match inc with
    | None => (storm, s)
    | Some inc => let '(t, s) := now s in (storm, deliver w (Generate g t inc) s)
    end.

Definition Tick (patterns : list AttackPattern) (w : WebhookConfig) (g : Graph) (s : State) : State :=
  let '(t, s) := now s in
  let s := set_im (ResolveOld t (im s)).2 s in
  match MatchAll patterns g with
  | [] =>
      let '(t, s) := now s in
      let cnt := (StormStats t (rl s)).1 in
      if 0 <? cnt then
        let '(t, s) := now s in
        deliver w (mkSummary "Alert Storm Resolved" "info" t "" 0 [] ("Alert storm cleared after " +:+ pretty cnt +:+ " alerts suppressed")) s
      else s
  | ms =>
      let '(storm, s) := foldl (process w g) (None, s) ms in
      match storm with Some summary => deliver w summary s | None => s end
  end.
End pipeline.

(** ** Matching *)

Section match_spec.
Context {UC : UnicodeCase} {MO : MapOrder} (g : Graph) (Hw : wf g).

Lemma first_some_Some {A B} (f : A -> option B) l y : first_some f l = Some y -> exists x, x ∈ l /\ f x = Some y.
Proof.
  induction l as [|x l IH]; simpl; [done|]. destruct (f x) eqn:E; [intros [= <-]; exists x; split; [left|done]|].
  intros H. destruct (IH H) as (x' & ? & ?). exists x'. split; [by right|done].
Qed.

Lemma first_some_None {A B} (f : A -> option B) l : first_some f l = None <-> forall x, x ∈ l -> f x = None.
Proof.
  induction l as [|x l IH]; simpl; [split; [by intros _ ? ?%elem_of_nil|done]|]. destruct (f x) eqn:E.
  - split; [done|]. intros H. specialize (H x ltac:(left)). congruence.
  - rewrite IH. split; [intros H y [->|Hy]%elem_of_cons; auto|]. intros H y Hy. apply H. by right.
Qed.

(** A path along the steps: each edge is taken from either end, and the node reached meets
    the target of the step. *)
Inductive walk : list PatternStep -> string -> list string -> Prop :=
| walk_end id : walk [] id [id]
| walk_step step steps id e next n p : e ∈ Edges g ->
    (Edge.Source e = id /\ Edge.Target e = next \/ Edge.Target e = id /\ Edge.Source e = next) ->
    relation_ok step e = true -> nodes g !! next = Some n -> target_ok step n = true -> walk steps next p -> walk (step :: steps) id (id :: p).

Lemma step_to_Some step e next n : step_to g step e next = Some n <->
  relation_ok step e = true /\ nodes g !! next = Some n /\ target_ok step n = true.
Proof.
  unfold step_to, LookupNode. destruct (relation_ok step e); [|naive_solver]. destruct (nodes g !! next) as [m|]; simpl; [|naive_solver].
  destruct (target_ok step m) eqn:E; (split; [intros [= <-]|intros (_ & [= <-] & H)]); congruence || done.
Qed.

Lemma tracePath_sound steps : forall id depth p, tracePath g id steps depth = Some p -> walk steps id p.
Proof using Hw.
  induction steps as [|step steps IH]; intros id depth p; simpl; [intros [= <-]; constructor|]. case_match; [done|]. intros Hp.
  apply first_some_Some in Hp as (e & He & Hp).
  assert (forall next, (n ← step_to g step e next; rest ← tracePath g (Node.ID n) steps (depth + 1); Some (id :: rest)) = Some p ->
    (Edge.Source e = id /\ Edge.Target e = next \/ Edge.Target e = id /\ Edge.Source e = next) -> walk (step :: steps) id p) as Hvia.
  { intros next Hn Hj. destruct (step_to g step e next) as [n|] eqn:En; [|done]. simpl in Hn.
    destruct (tracePath g (Node.ID n) steps (depth + 1)) as [rest|] eqn:Er; [|done]. injection Hn as <-.
    apply step_to_Some in En as (Hr & Hn & Ht). rewrite (wf_node_key g Hw _ _ Hn) in Er. eapply walk_step; eauto. }
  destruct (String.eqb_spec (Edge.Source e) id) as [Es|]; [destruct (_ ≫= _) eqn:Ev in Hp; [injection Hp as ->; eapply Hvia; eauto|]|];
    (destruct (String.eqb_spec (Edge.Target e) id) as [Et|]; [eapply Hvia; eauto|done]).
Qed.

Lemma tracePath_complete steps id p : walk steps id p -> forall depth, depth + Z.of_nat (length steps) <= 11 -> tracePath g id steps depth <> None.
Proof using Hw.
  induction 1 as [id|step steps id e next n p He Hj Hr Hn Ht _ IH]; intros depth Hd; simpl; [done|].
  simpl in Hd. destruct (Z.ltb_spec 10 depth); [lia|]. rewrite first_some_None. intros Hno. specialize (Hno e He).
  assert (step_to g step e next = Some n) as Hst by (by apply step_to_Some).
  specialize (IH (depth + 1) ltac:(lia)). pose proof (wf_node_key g Hw _ _ Hn) as Hid.
  assert ((n ← step_to g step e next; rest ← tracePath g (Node.ID n) steps (depth + 1); Some (id :: rest)) <> None) as Hvia.
  { rewrite Hst. simpl. rewrite Hid. destruct (tracePath g next steps (depth + 1)); done. }
  destruct Hj as [[Es Et]|[Et Es]]; subst next.
  - rewrite (proj2 (String.eqb_eq _ _) Es) in Hno. destruct (_ ≫= _) eqn:Ev in Hno; [done|]. by rewrite Ev in Hvia.
  - rewrite (proj2 (String.eqb_eq (Edge.Target e) id) Et) in Hno. destruct (if String.eqb (Edge.Source e) id then _ else _); done.
Qed.

Lemma start_elem step id : id ∈ findStartNodes g step <-> exists n, nodes g !! id = Some n /\ source_ok step n = true.
Proof using Hw.
  unfold findStartNodes. rewrite list_elem_of_fmap. setoid_rewrite list_elem_of_filter. setoid_rewrite elem_of_range. setoid_rewrite list_elem_of_fmap. split.
  - intros (n & -> & Hs & [k m] & -> & Hm%elem_of_map_to_list). simpl in *. rewrite (wf_node_key g Hw _ _ Hm). by exists m.
  - intros (n & Hn & Hs). exists n. split; [by rewrite (wf_node_key g Hw _ _ Hn)|]. split; [done|]. exists (id, n). split; [done|]. by apply elem_of_map_to_list.
Qed.

Lemma walk_length steps id p : walk steps id p -> length p = S (length steps).
Proof. induction 1; simpl; congruence. Qed.

(** Some path of the pattern starts at a node that meets the source of its first step. *)
Definition occurs_path (pat : AttackPattern) (p : list string) : Prop :=
  exists step steps id n, Steps pat = step :: steps /\ nodes g !! id = Some n /\ source_ok step n = true /\ walk (Steps pat) id p.

Lemma matchPattern_pattern pat r : matchPattern g pat = Some r -> Pattern r = pat.
Proof. unfold matchPattern. destruct (Steps pat); [done|]. destruct (first_some _ _); simpl; [|done]. by intros [= <-]. Qed.

Lemma matchPattern_spec pat : (length (Steps pat) <= 10)%nat ->
  match matchPattern g pat with
  | Some r => Pattern r = pat /\ occurs_path pat (Nodes r) /\ Confidence r = (S (length (Steps pat)), S (length (Steps pat)))
  | None => forall p, ~ occurs_path pat p
  end.
Proof using Hw.
  intros Hlen. unfold matchPattern, occurs_path. destruct (Steps pat) as [|step steps] eqn:Es; [intros p (? & ? & ? & ? & ? & _); done|].
  destruct (first_some _ _) as [path|] eqn:Ef; simpl.
  - apply first_some_Some in Ef as (id & Hid & Hp). apply start_elem in Hid as (n & Hn & Hs). apply tracePath_sound in Hp.
    split_and!; [done| |by rewrite (walk_length _ _ _ Hp)]. by exists step, steps, id, n.
  - intros p (step' & steps' & id & n & [= <- <-] & Hn & Hs & Hp). rewrite first_some_None in Ef.
    apply (tracePath_complete _ _ _ Hp 1); [lia|]. apply Ef, start_elem. by exists n.
Qed.
End match_spec.

(** ** The built-in patterns *)

Lemma target_type {UC : UnicodeCase} step n : target_ok step n = true -> TargetType step <> "" -> Node.Subtype n = TargetType step.
Proof.
  unfold target_ok, field_ok. intros [[H|H]%orb_prop _]%andb_prop Hne; apply String.eqb_eq in H; done.
Qed.

Lemma edge_lookup g e : wf g -> e ∈ Edges g -> exists id, edges g !! id = Some e.
Proof. intros _ He. unfold Edges in He. apply list_elem_of_omap in He as (id & _ & He). by exists id. Qed.

(** A read edge does not join two files. *)
Lemma used_not_files g e u v nu nv : wf g -> kinds_ok g -> e ∈ Edges g -> Edge.Relation e = ProvUsed ->
  (Edge.Source e = u /\ Edge.Target e = v \/ Edge.Target e = u /\ Edge.Source e = v) ->
  nodes g !! u = Some nu -> nodes g !! v = Some nv -> Node.Subtype nu = SubFile -> Node.Subtype nv = SubFile -> False.
Proof.
  intros Hw Hk He Hr Hj Hu Hv Su Sv. destruct (edge_lookup g e Hw He) as [id Hid].
  pose proof (wf_edge_rel g Hw _ _ Hid) as Hd. unfold rel_ok in Hd. rewrite Hr in Hd. injection Hd as Hs _.
  destruct Hj as [[<- <-]|[<- <-]].
  - rewrite <-(wf_node_type g Hw _ _ Hu) in Hs. symmetry in Hs. apply (process_activity g _ _ Hk Hu) in Hs. by rewrite Su in Hs.
  - rewrite <-(wf_node_type g Hw _ _ Hv) in Hs. symmetry in Hs. apply (process_activity g _ _ Hk Hv) in Hs. by rewrite Sv in Hs.
Qed.

Lemma builtin_silent {UC : UnicodeCase} g pat p : wf g -> kinds_ok g -> pat ∈ DefaultPatterns -> ~ occurs_path g pat p.
Proof.
  intros Hw Hk Hpat (step & steps & id & n & Hst & Hn & _ & Hwalk). clear Hst. unfold DefaultPatterns in Hpat.
  repeat (apply elem_of_cons in Hpat as [->|Hpat]); [..|by apply elem_of_nil in Hpat]; simpl in Hwalk.
  - inversion Hwalk as [|? ? ? ? ? ? ? _ _ _ _ _ H1]; subst. inversion H1 as [|? ? ? ? ? ? ? _ _ _ _ _ H2]; subst.
    inversion H2 as [|? ? ? ? ? n3 ? _ _ _ H3 Ht _]; subst. apply (no_network g _ _ Hk H3). by apply target_type in Ht.
  - inversion Hwalk as [|? ? ? ? v1 n1 ? _ _ _ Hn1 Ht1 H1]; subst. inversion H1 as [|? ? ? e2 v2 n2 ? He2 Hj2 Hr2 Hn2 Ht2 _]; subst.
    apply target_type in Ht1, Ht2; [|done..]. assert (Edge.Relation e2 = ProvUsed) as Hr by (by apply String.eqb_eq in Hr2).
    eapply (used_not_files g e2); eauto.
  - inversion Hwalk as [|? ? ? ? ? ? ? _ _ _ _ _ H1]; subst. inversion H1 as [|? ? ? ? ? n3 ? _ _ _ H3 Ht _]; subst.
    apply (no_network g _ _ Hk H3). by apply target_type in Ht.
Qed.

(** [C23] On the graph of any history the matcher is exact for patterns of at most ten
    steps: it reports a pattern, in the order of the list, just when some path of nodes
    meets it, and what it reports is such a path.  The source fields of all steps but the
    first play no part.  None of the built-in patterns can occur in such a graph. *)
Theorem patterns_exact {UC : UnicodeCase} {MO : MapOrder} (start : time) (h : history) (pats : list AttackPattern) :
  let g := run h (NewGraph start) in
  Forall (fun pat => (length (Steps pat) <= 10)%nat) pats ->
  (forall pat, pat ∈ pats -> (exists p, occurs_path g pat p) <-> exists r, r ∈ MatchAll pats g /\ Pattern r = pat) /\
  Forall (fun r => occurs_path g (Pattern r) (Nodes r)) (MatchAll pats g) /\
  Pattern <$> MatchAll pats g `sublist_of` pats /\
  MatchAll DefaultPatterns g = [].
Proof.
  intros g Hlen. pose proof (run_wf start h) as Hw. pose proof (kinds_built start h) as Hk. fold g in Hw, Hk.
  assert (forall pat, pat ∈ pats -> match matchPattern g pat with
    | Some r => Pattern r = pat /\ occurs_path g pat (Nodes r) /\ Confidence r = (S (length (Steps pat)), S (length (Steps pat)))
    | None => forall p, ~ occurs_path g pat p end) as Hspec.
  { intros pat Hp. apply matchPattern_spec; [done|]. rewrite Forall_forall in Hlen. by apply Hlen. }
  clear Hlen. split_and!.
  - intros pat Hp. specialize (Hspec pat Hp). unfold MatchAll. setoid_rewrite list_elem_of_omap. split.
    + intros [p Ho]. destruct (matchPattern g pat) as [r|] eqn:E; [|by apply Hspec in Ho]. exists r. split; [by exists pat|]. by destruct Hspec.
    + intros (r & (pat' & Hp' & Hm) & <-).
      pose proof (matchPattern_pattern g pat' r Hm) as Hpr. subst pat'. rewrite Hm in Hspec. destruct Hspec as (_ & Ho & _). by exists (Nodes r).
  - apply Forall_forall. intros r Hr. unfold MatchAll in Hr. apply list_elem_of_omap in Hr as (pat & Hp & Hm). specialize (Hspec pat Hp).
    rewrite Hm in Hspec. by destruct Hspec as (-> & Ho & _).
  - clear. unfold MatchAll. induction pats as [|pat pats IH]; [done|]. simpl. destruct (matchPattern g pat) as [r|] eqn:E; simpl; [|by apply sublist_cons].
    rewrite (matchPattern_pattern g pat r E). by apply sublist_skip.
  - unfold MatchAll. assert (forall pat, pat ∈ DefaultPatterns -> matchPattern g pat = None) as Hno.
    { intros pat Hp. assert (length (Steps pat) <= 10)%nat as Hl.
      { unfold DefaultPatterns in Hp. repeat (apply elem_of_cons in Hp as [->|Hp]; [simpl; lia|]). by apply elem_of_nil in Hp. }
      pose proof (matchPattern_spec g Hw pat Hl) as Hs. destruct (matchPattern g pat) as [r|]; [|done].
      destruct Hs as (_ & Ho & _). by apply (builtin_silent g pat (Nodes r) Hw Hk Hp) in Ho. }
    revert Hno. generalize DefaultPatterns. intros l Hno. induction l as [|pat l IH]; [done|]. simpl. rewrite (Hno pat) by left.
    apply IH. intros pat' Hp. apply Hno. by right.
Qed.

(** A chain the patterns can express: a shell that reads a file another shell wrote. *)
Definition dropper : AttackPattern :=
  mkPattern "DROP" "Dropper" "" "HIGH"
    [mkStep "process" "bash" "wasGeneratedBy" "file" "/tmp/|/var/"; mkStep "" "" "used" "process" "CAT"].

Lemma patterns_exact_witness :
  exists p, occurs_path (UC := ascii_case) (run [(no_start, ev_write); (no_start, ev_read)] (NewGraph unix_epoch)) dropper p.
Proof.
  destruct (@patterns_exact ascii_case alternating_order unix_epoch [(no_start, ev_write); (no_start, ev_read)] [dropper]) as (Hm & _).
  { repeat constructor. }
  apply (Hm dropper); [left|].
  exists (mkMatch dropper ["p:100"; "f:4242:8:3#v2"; "p:200"] (3%nat, 3%nat)). split; [|reflexivity].
  assert (@MatchAll ascii_case alternating_order [dropper] (run [(no_start, ev_write); (no_start, ev_read)] (NewGraph unix_epoch))
          = [mkMatch dropper ["p:100"; "f:4242:8:3#v2"; "p:200"] (3%nat, 3%nat)]) as -> by (vm_compute; reflexivity).
  left.
Defined.

(** ** Storm control *)

(** The times at which a series of calls is allowed. *)
Fixpoint granted (ts : list time) (rl : RateLimiter) : list time :=
  match ts with
  | [] => []
  | t :: ts => let '(allow, _, rl) := Allow t rl in (if allow : bool then [t] else []) ++ granted ts rl
  end.

Definition within (t a : time) : Prop := t <= a <= t + Minute.
#[global] Instance within_dec t a : Decision (within t a).
Proof. unfold within. apply _. Defined.

Lemma drop_before_split start w : exists b, w = b ++ drop_before start w /\ Forall (fun x => x < start) b.
Proof.
  induction w as [|x w IH]; simpl; [by exists []|]. unfold time_Before. destruct (Z.ltb_spec x start).
  - destruct IH as (b & Hb & Hf). exists (x :: b). simpl. rewrite <-Hb. auto.
  - by exists [].
Qed.

(** The limiter remembers the alerts of the last minute: [old] are those it has dropped. *)
Record limited (A : list time) (rl : RateLimiter) (last : time) : Prop := {
  l_split : exists old, A = old ++ rl_window rl /\ Forall (fun x => x < last - Minute) old;
  l_bound : forall t, Z.of_nat (length (filter (within t) A)) <= Z.max 0 (MaxAlertsPerMinute rl);
}.

Lemma count_le_length {A} (P : A -> Prop) `{forall x, Decision (P x)} l : (length (filter P l) <= length l)%nat.
Proof. induction l as [|x l IH]; simpl; [done|]. rewrite filter_cons. case_decide; simpl; lia. Qed.

Lemma Allow_limited A rl last now : limited A rl last -> last <= now ->
  limited (A ++ if (Allow now rl).1.1 then [now] else []) (Allow now rl).2 now.
Proof.
  intros [(old & HA & Hold) Hb] Hn. destruct (drop_before_split (now - Minute) (rl_window rl)) as (b & Hw & Hf).
  assert (exists old', A = old' ++ drop_before (now - Minute) (rl_window rl) /\ Forall (fun x => x < now - Minute) old') as (old' & HA' & Hold').
  { exists (old ++ b). rewrite <-app_assoc, <-Hw. split; [done|]. apply Forall_app. split; [|done]. eapply Forall_impl; [done|]. simpl. lia. }
  unfold Allow. change (time_Add now (- Minute)) with (now - Minute). destruct (time_Before now (stormUntil rl)); simpl.
  { rewrite app_nil_r. split; [eauto|done]. }
  destruct (Z.leb_spec (MaxAlertsPerMinute rl) (Z.of_nat (length (drop_before (now - Minute) (rl_window rl))))); simpl.
  { rewrite app_nil_r. split; [eauto|done]. }
  split; simpl; [exists old'; by rewrite HA', <-app_assoc|]. intros t. rewrite filter_app, length_app, filter_cons, filter_nil.
  case_decide as Ht; simpl; [|rewrite Nat.add_0_r; apply Hb]. unfold within in Ht.
  assert (length (filter (within t) A) <= length (drop_before (now - Minute)%Z (rl_window rl)))%nat; [|lia].
  rewrite HA', filter_app, length_app. assert (filter (within t) old' = []) as ->.
  { clear -Hold' Ht. induction Hold' as [|x l Hx _ IH]; [done|]. rewrite filter_cons_False; [done|]. unfold within. lia. }
  simpl. apply count_le_length.
Qed.

Lemma Allow_max now rl : MaxAlertsPerMinute (Allow now rl).2 = MaxAlertsPerMinute rl.
Proof. unfold Allow. by repeat case_match. Qed.

Lemma granted_limited ts : forall A rl last, limited A rl last -> StronglySorted Z.le (last :: ts) ->
  forall t, Z.of_nat (length (filter (within t) (A ++ granted ts rl))) <= Z.max 0 (MaxAlertsPerMinute rl).
Proof.
  induction ts as [|now ts IH]; intros A rl last Hl Hs t; simpl; [rewrite app_nil_r; apply Hl|].
  apply StronglySorted_inv in Hs as [Hs Hf]. apply Forall_cons in Hf as [Hn _].
  pose proof (Allow_limited A rl last now Hl Hn) as Hl'. pose proof (Allow_max now rl) as Hm.
  destruct (Allow now rl) as [[allow storm] rl']. simpl in *. rewrite app_assoc, <-Hm. by eapply IH.
Qed.

(** [C24] However often alerts are raised, while the clock does not go back: of the calls
    to the limiter, at most the configured number is allowed within any minute. *)
Theorem storm_bounded (cfg : option (Z * duration)) (ts : list time) (t : time) :
  StronglySorted Z.le ts ->
  Z.of_nat (length (filter (within t) (granted ts (NewRateLimiter cfg)))) <= Z.max 0 (fst (default (60, 30 * Second) cfg)).
Proof.
  intros Hs. set (m := fst (default (60, 30 * Second) cfg)).
  assert (MaxAlertsPerMinute (NewRateLimiter cfg) = m) as Hm by (unfold NewRateLimiter, m; by destruct (default (60, 30 * Second) cfg)).
  assert (rl_window (NewRateLimiter cfg) = []) as Hw by (unfold NewRateLimiter; by destruct (default (60, 30 * Second) cfg)).
  destruct ts as [|t0 ts]; [simpl; lia|]. rewrite <-Hm. apply (granted_limited (t0 :: ts) [] _ t0).
  - split; [exists []; by rewrite Hw|]. intros. simpl. lia.
  - constructor; [done|]. apply StronglySorted_inv in Hs as [_ Hf]. constructor; [lia|done].
Qed.

Lemma storm_bounded_witness :
  granted [0; 1; 2; 3; Minute + 3; 2 * Minute] (NewRateLimiter (Some (2, Second))) = [0; 1; Minute + 3; 2 * Minute] /\
  Z.of_nat (length (filter (within 0) (granted [0; 1; 2; 3; Minute + 3; 2 * Minute] (NewRateLimiter (Some (2, Second)))))) <= Z.max 0 2.
Proof.
  split; [vm_compute; reflexivity|]. apply (storm_bounded (Some (2, Second)) _ 0).
  repeat constructor; vm_compute; discriminate.
Defined.

(** ** Incidents *)

Definition ingest_all (l : list (MatchResult * time)) : IncidentManager := foldl (fun im '(m, t) => (Ingest m t im).2) NewIncidentManager l.

(** The time of the last match with the key. *)
Definition last_seen (key : string) (l : list (MatchResult * time)) : option time := last (filter (fun x => dedupKey x.1 = key) l).*2.

Lemma Ingest_window m t im : window (Ingest m t im).2 = window im.
Proof. unfold Ingest. by repeat case_match. Qed.

Lemma Ingest_lookup m t im key : LastSeen <$> incidents (Ingest m t im).2 !! key = if decide (dedupKey m = key) then Some t else LastSeen <$> incidents im !! key.
Proof.
  unfold Ingest. destruct (incidents im !! dedupKey m) as [i|]; [destruct (_ <? _)|]; simpl; rewrite lookup_insert; by case_decide.
Qed.

Lemma ingest_all_last l key : window (ingest_all l) = 5 * Minute /\ LastSeen <$> incidents (ingest_all l) !! key = last_seen key l.
Proof.
  unfold ingest_all, last_seen. induction l as [|[m t] l [IHw IH]] using rev_ind; [done|]. rewrite foldl_app. simpl.
  rewrite Ingest_window, Ingest_lookup, filter_app, filter_cons, filter_nil. split; [done|]. simpl. case_decide.
  - rewrite fmap_app. simpl. by rewrite last_snoc.
  - by rewrite app_nil_r.
Qed.

(** A match is merged silently just when the last one with its key was within the window,
    whether or not the incident has been resolved since. *)
Lemma incident_merged l m now : (Ingest m now (ingest_all l)).1 = None <-> exists t, last_seen (dedupKey m) l = Some t /\ time_Sub now t < 5 * Minute.
Proof.
  destruct (ingest_all_last l (dedupKey m)) as [Hw Hl]. rewrite <-Hl. unfold Ingest. destruct (incidents (ingest_all l) !! dedupKey m) as [i|]; simpl.
  - rewrite Hw. destruct (Z.ltb_spec (time_Sub now (LastSeen i)) (5 * Minute)); simpl; split; try done; [eauto|]. intros (? & [= <-] & ?). lia.
  - split; [done|]. by intros (? & ? & _).
Qed.

Definition match1 : MatchResult := mkMatch dropper ["p:1"; "p:2"] (2%nat, 2%nat).

(** Resolving does not help: the next match within the window disappears in the resolved
    incident, and keeps the window open. *)
Example resolved_absorbs :
  let im := (@ResolveIncident ascii_case alternating_order "inc-drop-0" (ingest_all [(match1, unix_epoch)])).2 in
  let '(r, im) := Ingest match1 (unix_epoch + Minute) im in
  r = None /\ @ActiveIncidents alternating_order im = [] /\ Count <$> incidents im !! dedupKey match1 = Some 2.
Proof. vm_compute. done. Qed.

(** ** The webhook of the pipeline *)

Section silent.
Context {UC : UnicodeCase} {MO : MapOrder} (clock : nat -> time) (request : string -> option string) (reply : nat -> string + Z).

Lemma hook_silent w summary s : Retries w = 0 -> (hook_Send request reply w summary s).2 = s.
Proof. intros Hr. unfold hook_Send. rewrite Hr. by case_match. Qed.

Lemma deliver_posts w summary s : Retries w = 0 -> posts (deliver request reply w summary s) = posts s.
Proof. intros Hr. unfold deliver. rewrite hook_silent by done. unfold sendToAlertCh. by repeat case_match. Qed.

Lemma process_posts w g st m : Retries w = 0 -> posts (process clock request reply w g st m).2 = posts st.2.
Proof.
  intros Hr. destruct st as [storm s]. unfold process. cbn [now fst snd]. destruct (Allow _ _) as [[allow isStorm] l]. destruct allow; simpl.
  - destruct (Ingest _ _ _) as [[inc|] i]; [|done]. simpl. by rewrite deliver_posts.
  - by destruct isStorm, storm.
Qed.

Lemma Tick_posts pats w g s : Retries w = 0 -> posts (Tick clock request reply pats w g s) = posts s.
Proof.
  intros Hr. unfold Tick. cbn [now fst snd]. destruct (MatchAll pats g) as [|m ms].
  - case_match; [|done]. by rewrite deliver_posts.
  - set (st := (None, _)). assert (forall l st, posts (foldl (process clock request reply w g) st l).2 = posts st.2) as Hf.
    { induction l as [|x l IH]; intros st'; [done|]. simpl. rewrite IH. by apply process_posts. }
    specialize (Hf (m :: ms) st). destruct (foldl _ _ _) as [[summary|] s']; simpl in *; [by rewrite deliver_posts|done].
Qed.

(** The pipeline as it is made never reaches its webhook. *)
Lemma pipeline_never_posts url pats gs : let '(w, s) := NewAlertPipeline url in posts (foldl (fun s g => Tick clock request reply pats w g s) s gs) = [].
Proof.
  simpl. assert (forall s, posts (foldl (fun s g => Tick clock request reply pats (mkHook url 0 0) g s) s gs) = posts s) as Hp; [|by rewrite Hp].
  induction gs as [|g gs IH]; intros s; [done|]. simpl. rewrite IH. by apply Tick_posts.
Qed.
End silent.
