(* ===== verification/Schema.v ===== *)
(** * Keys of the second store ([internal/storage/schema/schema.go])

    The key builders and the parsers of node and edge keys, with the round trips between
    them, the order of edge keys by time, and the set of keys a scan over a prefix
    visits.  [scan_hex] is [fmt.Sscanf] with [%x] on a [uint64]. *)
From Stdlib Require Import Ascii.
From S2P Require Import Prelude GoStrings KV Store RuleScan.

(** ** Key builders *)

Definition nodePrefix : string := "n:".
Definition edgePrefix : string := "e:".
Definition reversePrefix : string := "r:".
Definition idxPIDPrefix : string := "idx:pid:".
Definition idxInodePrefix : string := "idx:inode:".
Definition metaPrefix : string := "meta:".

Definition NodeKey (nodeType nodeID : string) : string := nodePrefix +:+ nodeType +:+ ":" +:+ nodeID.

Definition EdgeKey (timestamp : Z) (source target : string) : string :=
  edgePrefix +:+ hex016 timestamp +:+ "|" +:+ source +:+ "|" +:+ target.

Definition ReverseEdgeKey (timestamp : Z) (target source : string) : string :=
  reversePrefix +:+ target +:+ "|" +:+ hex016 timestamp +:+ "|" +:+ source.

Definition PIDIndexKey (pid : Z) (nodeID : string) : string :=
  idxPIDPrefix +:+ pretty pid +:+ ":" +:+ nodeID.

Definition InodeIndexKey (inode devMajor devMinor : Z) (nodeID : string) : string :=
  idxInodePrefix +:+ pretty inode +:+ ":" +:+ pretty devMajor +:+ ":" +:+ pretty devMinor +:+ ":" +:+ nodeID.

Definition MetaKey (key : string) : string := metaPrefix +:+ key.

Definition EdgeTimeRange (startNs endNs : Z) : string * string :=
  (edgePrefix +:+ hex016 startNs +:+ "|", edgePrefix +:+ hex016 endNs +:+ "|").

Definition EdgePrefix : string := edgePrefix.
Definition NodePrefix : string := nodePrefix.
Definition PIDIndexPrefix (pid : Z) : string := idxPIDPrefix +:+ pretty pid +:+ ":".
Definition InodeIndexPrefix (inode : Z) : string := idxInodePrefix +:+ pretty inode +:+ ":".

(** ** Parsers *)

(** [strings.SplitN(s, c, 2)] for a separator of one byte: what is before and after its
    first occurrence, or [None] when it has one part only. *)
Fixpoint cut (c : ascii) (l : list ascii) : option (list ascii * list ascii) :=
  match l with
  | [] => None
  | d :: l => if decide (d = c) then Some ([], l) else '(a, b) ← cut c l; Some (d :: a, b)
  end.

Definition SplitN2 (s : string) (c : ascii) : option (string * string) :=
  '(a, b) ← cut c (chars s); Some (String.string_of_list_ascii a, String.string_of_list_ascii b).

(** [strings.CutPrefix]. *)
Definition CutPrefix (s p : string) : option string := if HasPrefix s p then Some (TrimPrefix s p) else None.

Definition ParseNodeKey (key : string) : option (string * string) :=
  rest ← CutPrefix key nodePrefix; SplitN2 rest ":".

Definition hex_digit (r : Z) : option Z :=
  if cont 48 57 r then Some (r - 48)
  else if cont 97 102 r then Some (r - 87)
  else if cont 65 70 r then Some (r - 55) else None.

Fixpoint scan_hexes (l : list (Z * list Z)) : list Z :=
  match l with
  | (r, _) :: l => match hex_digit r with Some d => d :: scan_hexes l | None => [] end
  | [] => []
  end.

(** [strconv.ParseUint(tok, 16, 64)] on the digits of the token. *)
Fixpoint hex_value (acc : Z) (l : list Z) : option Z :=
  match l with
  | [] => Some acc
  | d :: l => if acc * 16 + d <? 2 ^ 64 then hex_value (acc * 16 + d) l else None
  end.

(** [fmt.Sscanf(s, "%x", &ts)]: spaces are skipped, a newline is an error, and the rest of
    the text after the digits is not looked at. *)
Definition scan_hex (s : string) : option Z :=
  l ← scan_space (segs s); match scan_hexes l with [] => None | ds => hex_value 0 ds end.

Definition ParseEdgeKey (key : string) : option (string * string * Z) :=
  rest ← CutPrefix key edgePrefix;
  if (String.length rest <? 17)%nat || negb (bool_decide (String.get 16 rest = Some "|"%char)) then None else
  ts ← scan_hex (String.substring 0 16 rest);
  let remaining := substr_from 17 rest in
  if bool_decide (remaining = "") then None else
  '(a, b) ← SplitN2 remaining "|";
  if bool_decide (a = "") || bool_decide (b = "") then None else Some (a, b, ts).

Example ex_edge : ParseEdgeKey (EdgeKey 0x1f "p:1" "f:2|x") = Some ("p:1", "f:2|x", 0x1f).
Proof. vm_compute. reflexivity. Qed.

(** ** Round trips *)

Lemma cut_app c a b : ~ c ∈ a -> cut c (a ++ c :: b) = Some (a, b).
Proof.
  induction a as [|d a IH]; intros Hc; simpl; [by rewrite decide_True|].
  rewrite decide_False by (intros ->; apply Hc; by left). rewrite IH; [done|]. intros ?. apply Hc. by right.
Qed.

Lemma cut_Some c l a b : cut c l = Some (a, b) -> l = a ++ c :: b /\ ~ c ∈ a.
Proof.
  revert a b. induction l as [|d l IH]; intros a b; simpl; [done|]. case_decide as Hd.
  - intros [= <- <-]. subst d. split; [done|]. apply not_elem_of_nil.
  - destruct (cut c l) as [[a' b']|] eqn:E; simpl; [|done]. intros [= <- <-].
    destruct (IH _ _ eq_refl) as [-> Hc]. split; [done|]. by intros [?|?]%elem_of_cons.
Qed.

Lemma SplitN2_Some s c a b :
  SplitN2 s c = Some (a, b) <-> s = a +:+ String.String c EmptyString +:+ b /\ ~ occurs c a.
Proof.
  unfold SplitN2, occurs. split.
  - destruct (cut c (chars s)) as [[x y]|] eqn:E; simpl; [|done]. intros [= <- <-].
    apply cut_Some in E as [E Hc]. rewrite !chars_of_list. split; [|done].
    apply (inj chars). rewrite !chars_app, !chars_of_list, E. done.
  - intros [-> Hc]. rewrite !chars_app. simpl. rewrite cut_app by done. simpl.
    by rewrite !String.string_of_list_ascii_of_string.
Qed.

Lemma chars_substring n m s : chars (String.substring n m s) = take m (drop n (chars s)).
Proof.
  revert n m. induction s as [|a s IH]; intros [|n] [|m]; simpl; try done;
    by rewrite IH, ?drop_0.
Qed.

Lemma TrimPrefix_app p t : TrimPrefix (p +:+ t) p = t.
Proof.
  unfold TrimPrefix. rewrite (proj2 (HasPrefix_spec _ _)) by eauto.
  apply (inj chars). rewrite chars_substring, chars_app, drop_app_length', take_ge; [done|..];
    rewrite <-?length_chars, ?chars_app, ?length_app; lia.
Qed.

Lemma CutPrefix_Some s p r : CutPrefix s p = Some r <-> s = p +:+ r.
Proof.
  unfold CutPrefix. destruct (HasPrefix s p) eqn:E; (split; [|intros ->]).
  - intros [= <-]. apply HasPrefix_spec in E as [t ->]. by rewrite TrimPrefix_app.
  - by rewrite TrimPrefix_app.
  - done.
  - rewrite (proj2 (HasPrefix_spec _ _)) in E by eauto. done.
Qed.

Lemma parse_node_key t id :
  ~ occurs ":" t -> ParseNodeKey (NodeKey t id) = Some (t, id).
Proof.
  intros Ht. unfold ParseNodeKey, NodeKey. rewrite (proj2 (CutPrefix_Some _ _ _) eq_refl). simpl.
  by apply SplitN2_Some.
Qed.

Lemma ParseNodeKey_Some k t id : ParseNodeKey k = Some (t, id) -> k = NodeKey t id /\ ~ occurs ":" t.
Proof.
  unfold ParseNodeKey. destruct (CutPrefix k nodePrefix) as [r|] eqn:E; simpl; [|done].
  apply CutPrefix_Some in E as ->. intros [-> Ht]%SplitN2_Some. done.
Qed.

(** *** Hexadecimal numbers *)

Fixpoint hexes (w : nat) (n : Z) : list Z :=
  match w with O => [] | S w => hexes w (n / 16) ++ [n `mod` 16] end.
Definition hexbyte (d : Z) : Z := if d <? 10 then 48 + d else 87 + d.

Lemma hexes_range w n : Forall (fun d => 0 <= d < 16) (hexes w n).
Proof.
  revert n. induction w; intros n; simpl; [constructor|]. apply Forall_app. split; [done|].
  repeat constructor; apply Z.mod_pos_bound; lia.
Qed.

Lemma fixed_bytes w n : byteval <$> fixed 16 w n = hexbyte <$> hexes w n.
Proof.
  revert n. induction w as [|w IH]; intros n; simpl; [done|]. rewrite !fmap_app, IH. f_equal. simpl. f_equal.
  assert (0 <= n `mod` 16 < 16) by (apply Z.mod_pos_bound; lia). unfold byteval, byte_ascii, hexbyte.
  rewrite N_ascii_embedding; destruct (Z.ltb_spec (n `mod` 16) 10); lia.
Qed.

Lemma hexbyte_digit d : 0 <= d < 16 -> hex_digit (hexbyte d) = Some d /\ 48 <= hexbyte d < 128.
Proof.
  intros Hd. unfold hexbyte, hex_digit, cont.
  destruct (Z.ltb_spec d 10); repeat match goal with |- context [?x <=? ?y] => destruct (Z.leb_spec x y); simpl end;
    (split; [f_equal|]); lia.
Qed.

Lemma hex_value_snoc acc l d :
  hex_value acc (l ++ [d]) = v ← hex_value acc l; if v * 16 + d <? 2 ^ 64 then Some (v * 16 + d) else None.
Proof. revert acc. induction l as [|x l IH]; intros acc; cbn [hex_value app]; [done|]. case_match; [apply IH|done]. Qed.

Lemma hex_value_hexes w n : 0 <= n < 16 ^ Z.of_nat w -> n < 2 ^ 64 -> hex_value 0 (hexes w n) = Some n.
Proof.
  revert n. induction w as [|w IH]; intros n Hn Hb; cbn [hexes].
  { change (16 ^ Z.of_nat 0) with 1 in Hn. simpl. f_equal. lia. }
  rewrite Nat2Z.inj_succ, Z.pow_succ_r in Hn by lia. pose proof (Z.div_mod n 16) as E.
  pose proof (Z.mod_pos_bound n 16) as B.
  rewrite hex_value_snoc, IH; [|split; [apply Z.div_pos; lia|apply Z.div_lt_upper_bound; lia]|lia].
  simpl. destruct (Z.ltb_spec (n / 16 * 16 + n `mod` 16) (2 ^ 64)); [f_equal|]; lia.
Qed.

Lemma scan_hexes_ascii l : Forall (fun d => 0 <= d < 16) l -> scan_hexes (ascii_segs (hexbyte <$> l)) = l.
Proof.
  induction 1 as [|d l Hd _ IH]; simpl; [done|]. destruct (hexbyte_digit d Hd) as [-> _]. f_equal. exact IH.
Qed.

Lemma scan_hex_hex016 n : 0 <= n < 2 ^ 64 -> scan_hex (hex016 n) = Some n.
Proof.
  intros Hn. unfold scan_hex, segs, bytes_of_string, hex016. rewrite chars_of_list, fixed_bytes.
  pose proof (hexes_range 16 n) as Hr.
  rewrite rune_segs_ascii; [|apply Forall_fmap; eapply Forall_impl; [exact Hr|]; intros d Hd; pose proof (hexbyte_digit d Hd); simpl; lia|done].
  destruct (hexes 16 n) as [|d l] eqn:E; [apply (f_equal length) in E; revert E; by rewrite <-(length_fmap hexbyte), <-fixed_bytes, length_fmap, length_fixed|].
  assert (scan_space (ascii_segs (hexbyte <$> d :: l)) = Some (ascii_segs (hexbyte <$> d :: l))) as ->.
  { apply Forall_cons in Hr as [Hd _]. pose proof (hexbyte_digit d Hd) as [_ ?]. simpl.
    destruct (Z.eqb_spec (hexbyte d) 10); [lia|]. unfold IsSpace, cont.
    case_match eqn:Hsp; [exfalso; revert Hsp|done]. rewrite !orb_true_iff, !andb_true_iff, !Z.eqb_eq, !Z.leb_le. lia. }
  cbn [mbind option_bind]. rewrite scan_hexes_ascii by done. change (hex_value 0 (d :: l) = Some n). rewrite <-E. apply hex_value_hexes; lia.
Qed.

(** *** Edge keys *)

Lemma string_app_nil s : s +:+ "" = s.
Proof. apply (inj chars). by rewrite chars_app, app_nil_r. Qed.

Lemma length_hex016 n : length (chars (hex016 n)) = 16%nat.
Proof. unfold hex016. rewrite chars_of_list. apply length_fixed. Qed.

Lemma substring_take n s t : String.length s = n -> String.substring 0 n (s +:+ t) = s.
Proof. intros <-. apply substring_prefix. Qed.

Lemma substr_from_app n s t : String.length s = n -> substr_from n (s +:+ t) = t.
Proof.
  intros <-. unfold substr_from. apply (inj chars). rewrite chars_substring, chars_app.
  rewrite drop_app_length', take_ge; [done|..]; rewrite <-?length_chars, ?chars_app, ?length_app; lia.
Qed.

(** What an edge can be stored under and read back from its key. *)
Definition edge_key_ok (ts : Z) (source target : string) : Prop :=
  0 <= ts < 2 ^ 64 /\ source <> "" /\ target <> "" /\ ~ occurs "|" source.

Lemma get_app_head s (c : ascii) (t : string) : String.get (String.length s) (s +:+ String.String c t) = Some c.
Proof. by induction s. Qed.

Lemma parse_edge_key ts source target :
  edge_key_ok ts source target -> ParseEdgeKey (EdgeKey ts source target) = Some (source, target, ts).
Proof.
  intros (Hts & Hs & Ht & Hc). unfold ParseEdgeKey, EdgeKey. rewrite (proj2 (CutPrefix_Some _ _ _) eq_refl).
  cbn [mbind option_bind]. pose proof (length_hex016 ts) as Hl. rewrite length_chars in Hl.
  assert ((String.length (hex016 ts +:+ "|" +:+ source +:+ "|" +:+ target) <? 17)%nat = false) as ->.
  { apply Nat.ltb_ge. rewrite <-!length_chars, chars_app, length_app, length_chars, Hl. simpl. lia. }
  pose proof (get_app_head (hex016 ts) "|" (source +:+ "|" +:+ target)) as Hg. rewrite Hl in Hg.
  change (hex016 ts +:+ "|" +:+ source +:+ "|" +:+ target)
    with (hex016 ts +:+ String.String "|" (source +:+ "|" +:+ target)).
  rewrite Hg, bool_decide_true by done. simpl orb. cbv iota.
  rewrite substring_take by done. rewrite scan_hex_hex016 by done. cbn [mbind option_bind].
  assert (substr_from 17 (hex016 ts +:+ String.String "|" (source +:+ "|" +:+ target)) = source +:+ "|" +:+ target) as ->.
  { change (String.String "|" (source +:+ "|" +:+ target)) with ("|" +:+ (source +:+ "|" +:+ target)).
    rewrite <-string_app_assoc. apply substr_from_app. by rewrite length_snoc, Hl. }
  rewrite bool_decide_false by (by destruct source).
  rewrite (proj2 (SplitN2_Some _ _ source target)) by done. simpl.
  by rewrite !bool_decide_false.
Qed.

Lemma ParseEdgeKey_prefix k r : ParseEdgeKey k = Some r -> HasPrefix k EdgePrefix = true.
Proof. unfold ParseEdgeKey, CutPrefix, EdgePrefix. by destruct (HasPrefix k edgePrefix). Qed.

(** Edge keys are ordered by time, and the scanned range is exactly the time window. *)
Lemma edge_key_time ts ts' a b :
  0 <= ts < 2 ^ 64 -> 0 <= ts' < 2 ^ 64 ->
  str_le (edgePrefix +:+ hex016 ts' +:+ "|") (EdgeKey ts a b) <-> ts' <= ts.
Proof.
  intros H H'. unfold EdgeKey. rewrite str_le_app, str_le_prefix by (by rewrite !length_hex016).
  destruct (hex016_order ts' ts) as [O1 O2]; [done..|]. case_decide as E.
  - apply O2 in E. split; [lia|]. intros _. rewrite <-(string_app_nil "|") at 1. by rewrite str_le_app.
  - rewrite O1. done.
Qed.

Lemma edge_key_range ts t0 t1 a b :
  0 <= ts < 2 ^ 64 -> 0 <= t0 < 2 ^ 64 -> 0 <= t1 < 2 ^ 64 ->
  in_range (EdgeTimeRange t0 t1).1 (EdgeTimeRange t0 t1).2 (EdgeKey ts a b) <-> t0 <= ts < t1.
Proof.
  intros H H0 H1. unfold in_range, EdgeTimeRange, str_lt. simpl fst. simpl snd. rewrite !edge_key_time by done. lia.
Qed.

(** ** Scans over a prefix *)

Definition xff_free (s : string) : Prop := match s with String.String c _ => c <> byte_ascii 255 | _ => True end.

Lemma prefix_range p k :
  in_range p (p +:+ xff) k <-> exists r, k = p +:+ r /\ xff_free r.
Proof.
  split.
  - intros Hr. assert (in_range (p +:+ "") (p +:+ xff) k) as Ht by (by rewrite string_app_nil).
    apply range_tagged, HasPrefix_spec in Ht as [r ->]. exists r. split; [done|]. destruct Hr as [_ Hr].
    rewrite str_lt_app in Hr. destruct r as [|c r]; [done|]. intros ->. apply Hr. unfold str_le. simpl.
    byte_cases; done || lia.
  - intros (r & -> & Hr). split.
    + rewrite <-(string_app_nil p) at 1. rewrite str_le_app. unfold str_le. done.
    + rewrite str_lt_app. unfold str_lt, str_le. destruct r as [|c r]; [done|]. simpl in Hr.
      change (chars xff) with [byte_ascii 255]. cbn [String.list_ascii_of_string lex_leb].
      pose proof (byteval_range c). change (byteval (byte_ascii 255)) with 255.
      assert (byteval c <> 255) by (intros E; apply Hr, byteval_inj; done). byte_cases; done || lia.
Qed.
