(* ===== verification/PebbleStore.v ===== *)
(** * The second store ([internal/storage/pebblestore]: [store.go], [batch.go], [proto_event.go])

    Nodes and edges are encoded with protocol buffers and written to the database through
    a plain write batch: reads go to the database only, so that writes are visible once
    the batch is committed.  The database is the class [Pebble] of [KV]; the coding of
    messages is the class [Proto], which promises that what was encoded without error is
    decoded to the same message.  Edges are stored twice, under a key ordered by time and
    under a key that begins with the target; nodes have an index by process and by inode.
    [BatchWriter] is a second writer with keys of its own. *)
From Stdlib Require Import Ascii.
From S2P Require Import Prelude GoStrings KV Store RuleScan Schema.

(** ** Messages ([pkg/api/proto/core]); a [float32] is its bits. *)
Module PNode.
Record t := mk {
  Id : string; Type_ : string; Label : string; FirstSeenNs : Z; LastSeenNs : Z;
  Pid : Z; Ppid : Z; Uid : Z; Comm : string;
  Inode : Z; DevMajor : Z; DevMinor : Z; Mode : Z;
  Identity : string; SessionId : string; SourceIp : string;
  Attrs : gmap string string; MonitorLevel : Z }.
End PNode.

Module PEdge.
Record t := mk {
  Id : string; Source : string; Target : string; Relation : string;
  TimestampNs : Z; Count : Z; Weight : Z }.
End PEdge.

Record PIDIndex := mkPIDIndex { px_Pid : Z; px_NodeId : string; px_FirstSeenNs : Z }.
Record InodeIndex := mkInodeIndex { ix_Inode : Z; ix_DevMajor : Z; ix_DevMinor : Z; ix_NodeId : string }.

Definition is_u32 (v : Z) : Prop := 0 <= v < 2 ^ 32.
Definition is_u64 (v : Z) : Prop := 0 <= v < 2 ^ 64.

(** The fields have the widths of the message. *)
Definition node_ok (n : PNode.t) : Prop :=
  is_u64 (PNode.FirstSeenNs n) /\ is_u64 (PNode.LastSeenNs n) /\ is_u32 (PNode.Pid n) /\ is_u32 (PNode.Ppid n) /\
  is_u32 (PNode.Uid n) /\ is_u64 (PNode.Inode n) /\ is_u32 (PNode.DevMajor n) /\ is_u32 (PNode.DevMinor n) /\
  is_u32 (PNode.Mode n) /\ is_u32 (PNode.MonitorLevel n).
Definition edge_ok (e : PEdge.t) : Prop :=
  is_u64 (PEdge.TimestampNs e) /\ is_u32 (PEdge.Count e) /\ is_u32 (PEdge.Weight e).

Class Proto := {
  node_Marshal : PNode.t -> string + bytes;
  node_Unmarshal : bytes -> string + PNode.t;
  edge_Marshal : PEdge.t -> string + bytes;
  edge_Unmarshal : bytes -> string + PEdge.t;
  pid_Marshal : PIDIndex -> string + bytes;
  pid_Unmarshal : bytes -> string + PIDIndex;
  inode_Marshal : InodeIndex -> string + bytes;
  inode_Unmarshal : bytes -> string + InodeIndex;
  pnode_roundtrip : forall n b, node_ok n -> node_Marshal n = inr b -> node_Unmarshal b = inr n;
  pedge_roundtrip : forall e b, edge_ok e -> edge_Marshal e = inr b -> edge_Unmarshal b = inr e;
  pid_roundtrip : forall i b, is_u32 (px_Pid i) -> is_u64 (px_FirstSeenNs i) ->
    pid_Marshal i = inr b -> pid_Unmarshal b = inr i;
  inode_roundtrip : forall i b, is_u64 (ix_Inode i) -> is_u32 (ix_DevMajor i) -> is_u32 (ix_DevMinor i) ->
    inode_Marshal i = inr b -> inode_Unmarshal b = inr i;
  (** a node whose strings can be encoded has an identifier that can *)
  index_Marshal : forall n b, node_Marshal n = inr b ->
    (forall p f, exists b', pid_Marshal (mkPIDIndex p (PNode.Id n) f) = inr b') /\
    (forall i j m, exists b', inode_Marshal (mkInodeIndex i j m (PNode.Id n)) = inr b');
}.

(** ** Constructors *)

Definition NewProcessNode (pid : Z) (comm : string) (uid : Z) : PNode.t :=
  PNode.mk ("p:" +:+ pretty pid) "process" comm 0 0 pid 0 uid comm 0 0 0 0 "" "" "" ∅ 0.

Definition NewFileNode (inode devMajor devMinor : Z) (path : string) : PNode.t :=
  PNode.mk ("f:" +:+ pretty inode +:+ ":" +:+ pretty devMajor +:+ ":" +:+ pretty devMinor) "file" path 0 0
    0 0 0 "" inode devMajor devMinor 0 "" "" "" ∅ 0.

Definition NewEdge (source target relation : string) (timestamp : Z) : PEdge.t :=
  PEdge.mk "" source target relation timestamp 1 0.

Definition set_Comm (c : string) (n : PNode.t) : PNode.t :=
  PNode.mk (PNode.Id n) (PNode.Type_ n) (PNode.Label n) (PNode.FirstSeenNs n) (PNode.LastSeenNs n)
    (PNode.Pid n) (PNode.Ppid n) (PNode.Uid n) c (PNode.Inode n) (PNode.DevMajor n) (PNode.DevMinor n)
    (PNode.Mode n) (PNode.Identity n) (PNode.SessionId n) (PNode.SourceIp n) (PNode.Attrs n) (PNode.MonitorLevel n).

Section pebblestore.
Context `{Pebble} `{Proto}.

(** ** The store *)

Record StoreStats := mkStats { NodesWritten : Z; EdgesWritten : Z; BatchesCommited : Z; BytesWritten : Z }.
Record PStore := mkPStore { pdb : DB; pwb : Batch; wbSize : Z; pstats : StoreStats }.

Definition set_pdb (d : DB) (s : PStore) : PStore := mkPStore d (pwb s) (wbSize s) (pstats s).
Definition set_pwb (b : Batch) (s : PStore) : PStore := mkPStore (pdb s) b (wbSize s) (pstats s).
Definition set_stats (t : StoreStats) (s : PStore) : PStore := mkPStore (pdb s) (pwb s) (wbSize s) t.

(** [Open] on the result of [pebble.Open]. *)
Definition pOpen (opened : string + DB) : string + PStore :=
  match opened with
  | inl e => inl ("pebble open: " +:+ e)
  | inr d => inr (mkPStore d (NewBatch d) 500 (mkStats 0 0 0 0))
  end.

Definition pFlush (s : PStore) : PStore * option string :=
  if batch_Count (pwb s) =? 0 then (s, None) else
  match batch_Commit (pwb s) (pdb s) with
  | (d, Some e) => (set_pdb d s, Some ("batch commit: " +:+ e))
  | (d, None) =>
      let t := pstats s in
      (mkPStore d (NewBatch d) (wbSize s)
         (mkStats (NodesWritten t) (EdgesWritten t) (i64 (BatchesCommited t + 1)) (BytesWritten t)), None)
  end.

Definition pSet (k : string) (v : bytes) (s : PStore) : PStore * option string :=
  let '(b, e) := batch_Set k v (pwb s) in (set_pwb b s, e).

Definition count_node (data : bytes) (s : PStore) : PStore :=
  let t := pstats s in
  set_stats (mkStats (i64 (NodesWritten t + 1)) (EdgesWritten t) (BatchesCommited t)
    (i64 (BytesWritten t + Z.of_nat (length data)))) s.
Definition count_edge (data : bytes) (s : PStore) : PStore :=
  let t := pstats s in
  set_stats (mkStats (NodesWritten t) (i64 (EdgesWritten t + 1)) (BatchesCommited t)
    (i64 (BytesWritten t + Z.of_nat (length data) * 2))) s.

Definition flush_if_full (s : PStore) : PStore * option string :=
  if u32 (wbSize s) <=? batch_Count (pwb s) then pFlush s else (s, None).

(** The data of an index entry, whose error is ignored. *)
Definition data_of (r : string + bytes) : bytes := match r with inr b => b | inl _ => [] end.

Definition fill_comm (n : PNode.t) : PNode.t :=
  if bool_decide (PNode.Type_ n = "process") && bool_decide (PNode.Comm n = "")
     && negb (bool_decide (PNode.Label n = "")) then set_Comm (PNode.Label n) n else n.

Definition set_pid_index (n : PNode.t) (s : PStore) : PStore * option string :=
  if 0 <? PNode.Pid n
  then pSet (PIDIndexKey (PNode.Pid n) (PNode.Id n))
         (data_of (pid_Marshal (mkPIDIndex (PNode.Pid n) (PNode.Id n) (PNode.FirstSeenNs n)))) s
  else (s, None).

Definition set_inode_index (n : PNode.t) (s : PStore) : PStore * option string :=
  if 0 <? PNode.Inode n
  then pSet (InodeIndexKey (PNode.Inode n) (PNode.DevMajor n) (PNode.DevMinor n) (PNode.Id n))
         (data_of (inode_Marshal (mkInodeIndex (PNode.Inode n) (PNode.DevMajor n) (PNode.DevMinor n) (PNode.Id n)))) s
  else (s, None).

(** The caller's node is changed too: it is returned with the new state. *)
Definition pPutNode (n : PNode.t) (s : PStore) : PNode.t * PStore * option string :=
  let n := fill_comm n in
  match node_Marshal n with
  | inl e => (n, s, Some ("marshal node: " +:+ e))
  | inr data =>
      match pSet (NodeKey (PNode.Type_ n) (PNode.Id n)) data s with
      | (s, Some e) => (n, s, Some e)
      | (s, None) =>
          match set_pid_index n s with
          | (s, Some e) => (n, s, Some e)
          | (s, None) =>
              match set_inode_index n s with
              | (s, Some e) => (n, s, Some e)
              | (s, None) => let '(s, e) := flush_if_full (count_node data s) in (n, s, e)
              end
          end
      end
  end.

Definition pekey (e : PEdge.t) : string := EdgeKey (PEdge.TimestampNs e) (PEdge.Source e) (PEdge.Target e).
Definition prkey (e : PEdge.t) : string := ReverseEdgeKey (PEdge.TimestampNs e) (PEdge.Target e) (PEdge.Source e).

Definition pPutEdge (e : PEdge.t) (s : PStore) : PStore * option string :=
  match edge_Marshal e with
  | inl err => (s, Some ("marshal edge: " +:+ err))
  | inr data =>
      match pSet (pekey e) data s with
      | (s, Some err) => (s, Some err)
      | (s, None) =>
          match pSet (prkey e) data s with
          | (s, Some err) => (s, Some err)
          | (s, None) => flush_if_full (count_edge data s)
          end
      end
  end.

(** [Close]: the background loop flushes once more, then [Close] itself. *)
Definition pClose (s : PStore) : PStore * option string :=
  let '(s, _) := pFlush s in
  match pFlush s with (s, Some e) => (s, Some e) | (s, None) => (s, db_Close (pdb s)) end.

(** ** Readers *)

Definition pGetNode (nodeType nodeID : string) (s : PStore) : string + option PNode.t :=
  match db_Get (pdb s) (NodeKey nodeType nodeID) with
  | inl e => inl e
  | inr None => inr None
  | inr (Some data) => match node_Unmarshal data with inl e => inl e | inr n => inr (Some n) end
  end.

Definition trimPrefix (prefix key : string) : string :=
  if HasPrefix key prefix then substr_from (String.length prefix) key else "".

(** The node of an index entry: by the identifier in its value, else by the one in its key. *)
Definition via_index (typ prefix : string) (nodeId : bytes -> option string) (s : PStore) : string + option PNode.t :=
  match db_Iter (pdb s) prefix (prefix +:+ xff) with
  | inl e => inl e
  | inr ([], _) => inr None
  | inr ((k, v) :: _, _) =>
      match nodeId v with
      | Some id => pGetNode typ id s
      | None => let id := trimPrefix prefix k in
                if bool_decide (id = "") then inr None else pGetNode typ id s
      end
  end.

Definition pid_node (v : bytes) : option string :=
  match pid_Unmarshal v with inr i => if bool_decide (px_NodeId i = "") then None else Some (px_NodeId i) | inl _ => None end.
Definition inode_node (v : bytes) : option string :=
  match inode_Unmarshal v with inr i => if bool_decide (ix_NodeId i = "") then None else Some (ix_NodeId i) | inl _ => None end.

Definition pGetNodeByPID (pid : Z) (s : PStore) : string + option PNode.t :=
  via_index "process" (PIDIndexPrefix pid) pid_node s.
Definition pGetNodeByInode (inode : Z) (s : PStore) : string + option PNode.t :=
  via_index "file" (InodeIndexPrefix inode) inode_node s.

(** The loop of the edge scans, over the entries whose key is kept. *)
Fixpoint pdecode (keep : string -> bool) (l : list (string * bytes)) : string + list PEdge.t :=
  match l with
  | [] => inr []
  | (k, v) :: l =>
      if keep k then
        match edge_Unmarshal v with
        | inl e => inl e
        | inr e => match pdecode keep l with inl err => inl err | inr es => inr (e :: es) end
        end
      else pdecode keep l
  end.

Definition pscan (lo hi : string) (keep : string -> bool) (s : PStore) : string + list PEdge.t * option string :=
  match db_Iter (pdb s) lo hi with
  | inl e => inl e
  | inr (l, err) => match pdecode keep l with inl e => inl e | inr es => inr (es, err) end
  end.

Definition from_source (source k : string) : bool :=
  match ParseEdgeKey k with Some (src, _, _) => bool_decide (src = source) | None => false end.

Definition pGetEdgesBySource (source : string) (s : PStore) : string + list PEdge.t * option string :=
  pscan EdgePrefix (EdgePrefix +:+ xff) (from_source source) s.

Definition pGetEdgesByTarget (target : string) (s : PStore) : string + list PEdge.t * option string :=
  let prefix := "r:" +:+ target +:+ "|" in pscan prefix (prefix +:+ xff) (fun _ => true) s.

Definition pGetEdgesByTimeRange (startNs endNs : Z) (s : PStore) : string + list PEdge.t * option string :=
  let '(lo, hi) := EdgeTimeRange startNs endNs in pscan lo hi (fun _ => true) s.

(** ** The batch writer ([batch.go]) *)

Record BatchStats := mkBStats {
  b_NodesWritten : Z; b_EdgesWritten : Z; BatchesCommitted : Z; b_BytesWritten : Z;
  FlushByCount : Z; FlushByTime : Z; FlushBySignal : Z }.
Record BatchWriter := mkBW { bdb : DB; bwb : Batch; pending : Z; batchSize : Z; bstats : BatchStats }.

Definition NewBatchWriter (d : DB) : BatchWriter := mkBW d (NewBatch d) 0 1000 (mkBStats 0 0 0 0 0 0 0).

Definition count_commit (trigger : string) (t : BatchStats) : BatchStats :=
  mkBStats (b_NodesWritten t) (b_EdgesWritten t) (i64 (BatchesCommitted t + 1)) (b_BytesWritten t)
    (if bool_decide (trigger = "count") then i64 (FlushByCount t + 1) else FlushByCount t)
    (if bool_decide (trigger = "time") then i64 (FlushByTime t + 1) else FlushByTime t)
    (FlushBySignal t).

Definition commit (trigger : string) (w : BatchWriter) : BatchWriter * option string :=
  if pending w =? 0 then (w, None) else
  match batch_Commit (bwb w) (bdb w) with
  | (d, Some e) => (mkBW d (bwb w) (pending w) (batchSize w) (bstats w), Some e)
  | (d, None) => (mkBW d (NewBatch d) 0 (batchSize w) (count_commit trigger (bstats w)), None)
  end.

Definition bFlush (w : BatchWriter) : BatchWriter * option string := commit "flush" w.

(** One tick and one signal of [flushLoop]; errors are logged. *)
Definition on_tick (w : BatchWriter) : BatchWriter := if 0 <? pending w then (commit "time" w).1 else w.
Definition on_signal (w : BatchWriter) : BatchWriter :=
  let w := (bFlush w).1 in let t := bstats w in
  mkBW (bdb w) (bwb w) (pending w) (batchSize w)
    (mkBStats (b_NodesWritten t) (b_EdgesWritten t) (BatchesCommitted t) (b_BytesWritten t)
       (FlushByCount t) (FlushByTime t) (i64 (FlushBySignal t + 1))).

Definition bSet (k : string) (v : bytes) (w : BatchWriter) : BatchWriter * option string :=
  let '(b, e) := batch_Set k v (bwb w) in (mkBW (bdb w) b (pending w) (batchSize w) (bstats w), e).

(** The end of a write: what is pending and the statistics, then the commit by count. *)
Definition written (n nodes edges bytes_ : Z) (w : BatchWriter) : BatchWriter * option string :=
  let p := i64 (pending w + n) in let t := bstats w in
  let w := mkBW (bdb w) (bwb w) p (batchSize w)
    (mkBStats (i64 (b_NodesWritten t + nodes)) (i64 (b_EdgesWritten t + edges)) (BatchesCommitted t)
       (i64 (b_BytesWritten t + bytes_)) (FlushByCount t) (FlushByTime t) (FlushBySignal t)) in
  if batchSize w <=? p then commit "count" w else (w, None).

Definition WriteNode (n : PNode.t) (w : BatchWriter) : BatchWriter * option string :=
  match node_Marshal n with
  | inl e => (w, Some e)
  | inr data =>
      match bSet ("n:" +:+ PNode.Type_ n +:+ ":" +:+ PNode.Id n) data w with
      | (w, Some e) => (w, Some e)
      | (w, None) => written 1 1 0 (Z.of_nat (length data)) w
      end
  end.

Definition bekey (e : PEdge.t) : string :=
  "e:" +:+ hex016 (PEdge.TimestampNs e) +:+ ":" +:+ PEdge.Source e +:+ ":" +:+ PEdge.Target e.
Definition brkey (e : PEdge.t) : string :=
  "r:" +:+ PEdge.Target e +:+ ":" +:+ hex016 (PEdge.TimestampNs e) +:+ ":" +:+ PEdge.Source e.

Definition WriteEdge (e : PEdge.t) (w : BatchWriter) : BatchWriter * option string :=
  match edge_Marshal e with
  | inl err => (w, Some err)
  | inr data =>
      match bSet (bekey e) data w with
      | (w, Some err) => (w, Some err)
      | (w, None) =>
          match bSet (brkey e) data w with
          | (w, Some err) => (w, Some err)
          | (w, None) => written 2 0 1 (Z.of_nat (length data) * 2) w
          end
      end
  end.

Definition bStop (w : BatchWriter) : BatchWriter := (bFlush w).1.

(** ** Histories of the store *)

Inductive write := WNode (n : PNode.t) | WEdge (e : PEdge.t).

Definition index_ops (n : PNode.t) : list (string * option bytes) :=
  (if 0 <? PNode.Pid n
   then [(PIDIndexKey (PNode.Pid n) (PNode.Id n),
          Some (data_of (pid_Marshal (mkPIDIndex (PNode.Pid n) (PNode.Id n) (PNode.FirstSeenNs n)))))] else []) ++
  (if 0 <? PNode.Inode n
   then [(InodeIndexKey (PNode.Inode n) (PNode.DevMajor n) (PNode.DevMinor n) (PNode.Id n),
          Some (data_of (inode_Marshal (mkInodeIndex (PNode.Inode n) (PNode.DevMajor n) (PNode.DevMinor n) (PNode.Id n)))))] else []).

Definition write_ops (w : write) : list (string * option bytes) :=
  match w with
  | WNode n => (NodeKey (PNode.Type_ n) (PNode.Id n), Some (data_of (node_Marshal n))) :: index_ops n
  | WEdge e => [(pekey e, Some (data_of (edge_Marshal e))); (prkey e, Some (data_of (edge_Marshal e)))]
  end.
Definition ops (l : list write) : list (string * option bytes) := l ≫= write_ops.

(** Fields of the widths of the messages, and encoded without error. *)
Definition write_ok (w : write) : Prop :=
  match w with
  | WNode n => node_ok n /\ exists b, node_Marshal n = inr b
  | WEdge e => edge_ok e /\ exists b, edge_Marshal e = inr b
  end.

(** Successful operations on a store opened on an empty database, the flushes of the
    background loop among them; the writes are listed as they were encoded. *)
Inductive phistory : PStore -> list write -> Prop :=
| ph_open d s : db_entries d = ∅ -> pOpen (inr d) = inr s -> phistory s []
| ph_node s l n n' s' : phistory s l -> node_ok n -> pPutNode n s = (n', s', None) -> phistory s' (l ++ [WNode n'])
| ph_edge s l e s' : phistory s l -> edge_ok e -> pPutEdge e s = (s', None) -> phistory s' (l ++ [WEdge e])
| ph_flush s l s' : phistory s l -> pFlush s = (s', None) -> phistory s' l.

(** The writes that are in the database, and those that are in the batch. *)
Definition split_at (s : PStore) (done pend : list write) : Prop :=
  db_entries (pdb s) = apply_ops (ops done) ∅ /\ batch_ops (pwb s) = ops pend.

Lemma ops_app l l' : ops (l ++ l') = ops l ++ ops l'.
Proof. apply bind_app. Qed.

Lemma ops_nil l : ops l = [] -> l = [].
Proof. destruct l as [|[n|e] l]; [done|by intros Hl..]. Qed.

Lemma pFlush_split s s' done pend :
  split_at s done pend -> pFlush s = (s', None) ->
  split_at s' (done ++ pend) [] /\ wbSize s' = wbSize s.
Proof.
  intros [Hd Hb]. unfold pFlush. rewrite batch_Count_ops. case_match eqn:Hc.
  - intros [= <-]. apply Z.eqb_eq in Hc. assert (ops pend = []) as E by (rewrite <-Hb; apply length_zero_iff_nil; lia).
    apply ops_nil in E as ->. by rewrite app_nil_r.
  - destruct (batch_Commit (pwb s) (pdb s)) as [d [e|]] eqn:E; [done|]. intros [= <-].
    apply batch_Commit_entries in E. split; [|done]. split; simpl; [|apply new_plain_batch_ops].
    by rewrite E, Hd, Hb, ops_app, apply_ops_app.
Qed.

Lemma pSet_ops k v s s' : pSet k v s = (s', None) ->
  batch_ops (pwb s') = batch_ops (pwb s) ++ [(k, Some v)] /\ pdb s' = pdb s /\ wbSize s' = wbSize s.
Proof.
  unfold pSet. destruct (batch_Set k v (pwb s)) as [b [e|]] eqn:E; [done|]. intros [= <-].
  by apply batch_Set_ops in E.
Qed.

Lemma set_index_ops n s s1 s2 :
  set_pid_index n s = (s1, None) -> set_inode_index n s1 = (s2, None) ->
  batch_ops (pwb s2) = batch_ops (pwb s) ++ index_ops n /\ pdb s2 = pdb s /\ wbSize s2 = wbSize s.
Proof.
  unfold set_pid_index, set_inode_index, index_ops. intros H1 H2.
  destruct (0 <? PNode.Pid n), (0 <? PNode.Inode n);
    repeat match goal with Hs : pSet _ _ _ = _ |- _ => apply pSet_ops in Hs as (? & ? & ?) end; simplify_eq;
    split_and!; try congruence; simpl; rewrite ?app_nil_r;
    repeat match goal with E : batch_ops _ = _ |- _ => rewrite E; clear E end; by rewrite <-?app_assoc.
Qed.

(** The end of a write: nothing more, or a flush when the batch is full. *)
Lemma flush_if_full_split s s' done pend w :
  db_entries (pdb s) = apply_ops (ops done) ∅ -> batch_ops (pwb s) = ops pend ++ write_ops w -> wbSize s = 500 ->
  flush_if_full s = (s', None) ->
  exists done' pend', done ++ pend ++ [w] = done' ++ pend' /\ split_at s' done' pend' /\
    wbSize s' = 500 /\ (length (ops pend') < 500)%nat.
Proof.
  intros Hd Hb Hw. unfold flush_if_full. rewrite batch_Count_ops, Hw. change (u32 500) with 500.
  assert (split_at s done (pend ++ [w])) as Hs.
  { split; [done|]. rewrite ops_app. unfold ops at 2. simpl. by rewrite app_nil_r. }
  case_match eqn:Hc.
  - intros Hf. destruct (pFlush_split s s' done (pend ++ [w]) Hs Hf) as [Hs' Hw'].
    exists (done ++ pend ++ [w]), []. split_and!; [by rewrite app_nil_r|done|congruence|simpl; lia].
  - intros [= <-]. exists done, (pend ++ [w]). split_and!; [done|done|done|].
    apply Z.leb_gt in Hc. destruct Hs as [_ E]. rewrite <-E. lia.
Qed.

(** The writes of a history: a first part is in the database and the rest, of fewer than
    500 entries, in the batch. *)
Lemma history_split s l :
  phistory s l -> exists done pend, l = done ++ pend /\ split_at s done pend /\
    wbSize s = 500 /\ (length (ops pend) < 500)%nat.
Proof.
  induction 1 as [d s Hd Ho|s l n n' s' _ (done & pend & -> & [H1 H2] & Hw & Hl) Hn Hp
    |s l e s' _ (done & pend & -> & [H1 H2] & Hw & Hl) He Hp|s l s' _ (done & pend & -> & Hs & Hw & Hl) Hf].
  - injection Ho as <-. exists [], []. split_and!; [done|split; [done|apply new_plain_batch_ops]|done|simpl; lia].
  - unfold pPutNode in Hp. destruct (node_Marshal (fill_comm n)) as [?|data] eqn:Hm; [done|].
    destruct (pSet _ data s) as [s1 [?|]] eqn:E1; [done|]. destruct (set_pid_index _ s1) as [s2 [?|]] eqn:E2; [done|].
    destruct (set_inode_index _ s2) as [s3 [?|]] eqn:E3; [done|].
    destruct (flush_if_full (count_node data s3)) as [s4 r] eqn:E4. simplify_eq.
    apply pSet_ops in E1 as (B1 & D1 & W1). destruct (set_index_ops _ _ _ _ E2 E3) as (B3 & D3 & W3).
    rewrite <-app_assoc. eapply flush_if_full_split; [..|exact E4]; simpl; [congruence| |congruence].
    rewrite B3, B1, H2, <-app_assoc. simpl. by rewrite Hm.
  - unfold pPutEdge in Hp. destruct (edge_Marshal e) as [?|data] eqn:Hm; [done|].
    destruct (pSet (pekey e) data s) as [s1 [?|]] eqn:E1; [done|]. destruct (pSet _ data s1) as [s2 [?|]] eqn:E2; [done|].
    apply pSet_ops in E1 as (B1 & D1 & W1), E2 as (B2 & D2 & W2).
    rewrite <-app_assoc. eapply flush_if_full_split; [..|exact Hp]; simpl; [congruence| |congruence].
    rewrite B2, B1, H2, <-app_assoc. simpl. by rewrite Hm.
  - destruct (pFlush_split _ _ _ _ Hs Hf) as [Hs' Hw']. exists (done ++ pend), [].
    split_and!; [by rewrite app_nil_r|done|congruence|simpl; lia].
Qed.

Lemma pPutNode_ok n s n' s' :
  node_ok n -> pPutNode n s = (n', s', None) -> n' = fill_comm n /\ write_ok (WNode n').
Proof.
  intros Hn Hp. assert (node_ok (fill_comm n)) as Hok by (unfold fill_comm; by case_match).
  unfold pPutNode in Hp. destruct (node_Marshal (fill_comm n)) as [?|data] eqn:Hm; repeat case_match; simplify_eq.
  split; [done|]. split; [done|]. eauto.
Qed.

Lemma history_ok s l : phistory s l -> Forall write_ok l.
Proof.
  induction 1 as [|s l n n' s' _ IH Hn Hp|s l e s' _ IH He Hp|]; [constructor|..|done];
    (apply Forall_app; split; [done|]; apply Forall_singleton).
  - by destruct (pPutNode_ok n s n' s' Hn Hp).
  - split; [done|]. unfold pPutEdge in Hp. destruct (edge_Marshal e) eqn:Hm; [done|]. eauto.
Qed.

(** ** What the database holds *)

#[local] Instance tagged_dec tag k : Decision (tagged tag k).
Proof. unfold tagged. apply _. Defined.

(** The last element with its key. *)
Definition latest_by {X} (K : X -> string) (l : list X) (x : X) : Prop :=
  last (filter (fun y => K y = K x) l) = Some x.

Lemma latest_by_elem {X} (K : X -> string) l x : latest_by K l x -> x ∈ l.
Proof.
  intros Hx. apply last_Some in Hx as [l' E]. apply (list_elem_of_filter (fun y => K y = K x)). rewrite E. set_solver.
Qed.

Lemma latest_by_inj {X} (K : X -> string) l x y : latest_by K l x -> latest_by K l y -> K x = K y -> x = y.
Proof. unfold latest_by. intros Hx Hy E. rewrite E in Hx. congruence. Qed.

Lemma last_filter_latest {X} (K : X -> string) l k x :
  last (filter (fun y => K y = k) l) = Some x -> K x = k /\ latest_by K l x.
Proof.
  intros Hx. assert (K x = k) as E; [|split; [done|]; unfold latest_by; by rewrite E].
  apply last_Some in Hx as [l' E]. eapply (proj1 (A := K x = k)), (list_elem_of_filter (fun y => K y = k) l x).
  rewrite E. set_solver.
Qed.

Lemma apply_ops_tagged tag l m m' k :
  tagged tag k -> m !! k = m' !! k ->
  apply_ops l m !! k = apply_ops (filter (fun o => tagged tag o.1) l) m' !! k.
Proof.
  intros Ht. revert m m'. induction l as [|[k' v] l IH]; intros m m' Hm; simpl; [done|].
  unfold apply_ops in *. simpl. rewrite filter_cons. simpl. case_decide as Hk; simpl; apply IH;
    unfold apply_op; simpl; (destruct (decide (k' = k)) as [->|]; [done || by destruct v; simplify_map_eq|]);
    by destruct v; simplify_map_eq.
Qed.

(** One kind of entry: the elements [F] finds in the writes, under the keys [K]. *)
Section kind.
Context {X : Type} (tag : string) (F : write -> option X) (K : X -> string) (V : X -> bytes).
Hypothesis kind_ops : forall w, filter (fun o => tagged tag o.1) (write_ops w) =
  match F w with Some x => [(K x, Some (V x))] | None => [] end.

Lemma ops_lookup l k :
  tagged tag k -> apply_ops (ops l) ∅ !! k = V <$> last (filter (fun x => K x = k) (omap F l)).
Proof using kind_ops.
  intros Ht. induction l as [|w l IH] using rev_ind; [done|].
  rewrite ops_app, apply_ops_app, omap_app, filter_app. unfold ops at 1. simpl. rewrite app_nil_r.
  rewrite (apply_ops_tagged tag _ _ (apply_ops (ops l) ∅)) by done. rewrite kind_ops.
  destruct (F w) as [x|]; simpl; [|by rewrite app_nil_r]. unfold apply_op. simpl. rewrite filter_cons, filter_nil.
  case_decide as E; [rewrite <-E, lookup_insert_eq, last_snoc; done|].
  by rewrite lookup_insert_ne, app_nil_r.
Qed.
End kind.

Definition edge_of (w : write) : option PEdge.t := match w with WEdge e => Some e | WNode _ => None end.
Definition node_of (w : write) : option PNode.t := match w with WNode n => Some n | WEdge _ => None end.
Definition pid_of (w : write) : option PNode.t :=
  match w with WNode n => if 0 <? PNode.Pid n then Some n else None | WEdge _ => None end.
Definition edges (l : list write) : list PEdge.t := omap edge_of l.
Definition nodes (l : list write) : list PNode.t := omap node_of l.
Definition edge_data (e : PEdge.t) : bytes := data_of (edge_Marshal e).

(** The entries of a write, one by one. *)
Ltac kinds :=
  unfold pid_of; intros [n|e]; [unfold write_ops, index_ops; destruct (0 <? PNode.Pid n), (0 <? PNode.Inode n)|unfold write_ops];
  cbn [app edge_of node_of];
  repeat (rewrite filter_cons; cbn [fst];
          first [rewrite decide_False by (intros E; discriminate E) | rewrite decide_True by apply tagged_app]);
  reflexivity.

Lemma pekey_lookup l k : tagged "e:" k ->
  apply_ops (ops l) ∅ !! k = edge_data <$> last (filter (fun e => pekey e = k) (edges l)).
Proof. apply (ops_lookup "e:" edge_of). kinds. Qed.

Lemma prkey_lookup l k : tagged "r:" k ->
  apply_ops (ops l) ∅ !! k = edge_data <$> last (filter (fun e => prkey e = k) (edges l)).
Proof. apply (ops_lookup "r:" edge_of). kinds. Qed.

Definition pnkey (n : PNode.t) : string := NodeKey (PNode.Type_ n) (PNode.Id n).

Lemma pnkey_lookup l k : tagged "n:" k ->
  apply_ops (ops l) ∅ !! k = (fun n => data_of (node_Marshal n)) <$> last (filter (fun n => pnkey n = k) (nodes l)).
Proof. apply (ops_lookup "n:" node_of). kinds. Qed.

(** ** Scans *)

Lemma pdecode_spec {P : PEdge.t -> Prop} (K : PEdge.t -> string) keep l out :
  (forall k v, (k, v) ∈ l -> exists e, K e = k /\ edge_Unmarshal v = inr e /\ P e) ->
  pdecode keep l = inr out -> K <$> out = filter (fun k => keep k = true) l.*1 /\ Forall P out.
Proof.
  revert out. induction l as [|[k v] l IH]; intros out Hl Hd; simpl in Hd; [by injection Hd as <-|].
  assert (forall k v, (k, v) ∈ l -> exists e, K e = k /\ edge_Unmarshal v = inr e /\ P e) as Hl'
    by (intros; apply Hl; by right).
  rewrite fmap_cons, filter_cons. simpl. destruct (keep k) eqn:Hk.
  - rewrite decide_True by done. destruct (Hl k v) as (e & <- & He & HP); [by left|]. rewrite He in Hd.
    destruct (pdecode keep l) as [|es] eqn:E; [done|]. injection Hd as <-.
    destruct (IH es Hl' eq_refl) as [E1 E2]. split; [by rewrite fmap_cons, E1|by constructor].
  - rewrite decide_False by done. by apply IH.
Qed.

Lemma sublist_sorted {X} (R : X -> X -> Prop) (P : X -> Prop) `{!forall x, Decision (P x)} l :
  StronglySorted R l -> StronglySorted R (filter P l).
Proof.
  induction 1 as [|x l Hs IH Hx]; simpl; [constructor|]. rewrite filter_cons. case_decide; [|done].
  constructor; [done|]. rewrite Forall_forall in *. intros y [_ Hy]%list_elem_of_filter. auto.
Qed.

Lemma pscan_spec (K : PEdge.t -> string) lo hi keep s es out :
  (forall e, e ∈ es -> write_ok (WEdge e)) ->
  (forall k, in_range lo hi k -> db_entries (pdb s) !! k = edge_data <$> last (filter (fun e => K e = k) es)) ->
  pscan lo hi keep s = inr (out, None) ->
  StronglySorted str_lt (K <$> out) /\
  (forall e, e ∈ out <-> latest_by K es e /\ in_range lo hi (K e) /\ keep (K e) = true).
Proof.
  intros Hok Hdb. unfold pscan. destruct (db_Iter (pdb s) lo hi) as [|[l err]] eqn:Hi; [done|].
  destruct (pdecode keep l) as [|out'] eqn:Hd; [done|]. intros [= <- ->].
  pose proof (db_Iter_elem _ _ _ _ Hi) as Hin. pose proof (db_Iter_sorted _ _ _ _ Hi) as Hs.
  apply (pdecode_spec (P := latest_by K es) K) in Hd as [E HP].
  2: { intros k v [Hk Hr]%Hin. rewrite Hdb in Hk by done. destruct (last _) as [e|] eqn:He; [|done]. injection Hk as <-.
       apply last_filter_latest in He as [<- He]. exists e. split_and!; [done| |done].
       destruct (Hok e (latest_by_elem _ _ _ He)) as [Hw [b Hb]]. unfold edge_data. rewrite Hb. by apply pedge_roundtrip. }
  split; [rewrite E; by apply sublist_sorted|].
  assert (forall k, k ∈ K <$> out' <-> keep k = true /\ in_range lo hi k /\ is_Some (db_entries (pdb s) !! k)) as Hk.
  { intros k. rewrite E, list_elem_of_filter, list_elem_of_fmap. split.
    - intros (Hk & [k' v] & -> & [Hv Hr]%Hin). by eauto.
    - intros (Hk & Hr & v & Hv). split; [done|]. exists (k, v). split; [done|]. by apply Hin. }
  rewrite Forall_forall in HP. intros e. split.
  - intros He. destruct (proj1 (Hk (K e))) as (Hk1 & Hk2 & _); [by apply list_elem_of_fmap_2|]. auto.
  - intros (Hl & Hr & Hkp). assert (K e ∈ K <$> out') as (e' & E' & He')%list_elem_of_fmap.
    { apply Hk. split_and!; [done..|]. rewrite Hdb by done. unfold latest_by in Hl. rewrite Hl. by eexists. }
    by rewrite (latest_by_inj K es e e' Hl (HP e' He') E').
Qed.

(** ** Edges *)

(** Ends that can be told apart in the keys. *)
Definition ends_ok (e : PEdge.t) : Prop :=
  PEdge.Source e <> "" /\ PEdge.Target e <> "" /\ ~ occurs "|" (PEdge.Source e) /\ ~ occurs "|" (PEdge.Target e).

(** The result of a scan: the last edge written under each of the keys that qualify, all of
    them and no others, oldest first. *)
Definition exactly (K : PEdge.t -> string) (es : list PEdge.t) (P : PEdge.t -> Prop) (out : list PEdge.t) : Prop :=
  NoDup (K <$> out) /\ (forall e, e ∈ out <-> latest_by K es e /\ P e) /\
  StronglySorted (fun e e' => PEdge.TimestampNs e <= PEdge.TimestampNs e') out.

Lemma pekey_order e e' :
  is_u64 (PEdge.TimestampNs e) -> is_u64 (PEdge.TimestampNs e') ->
  str_lt (pekey e) (pekey e') -> PEdge.TimestampNs e <= PEdge.TimestampNs e'.
Proof.
  intros H1 H2 Hlt%str_lt_le. unfold pekey, EdgeKey in Hlt.
  rewrite !str_le_app, str_le_prefix in Hlt by (by rewrite !length_hex016).
  destruct (hex016_order (PEdge.TimestampNs e) (PEdge.TimestampNs e')) as [O1 O2]; [done..|].
  case_decide as E; [apply O2 in E; lia|by apply O1].
Qed.

Lemma prkey_order e e' :
  is_u64 (PEdge.TimestampNs e) -> is_u64 (PEdge.TimestampNs e') -> PEdge.Target e = PEdge.Target e' ->
  str_lt (prkey e) (prkey e') -> PEdge.TimestampNs e <= PEdge.TimestampNs e'.
Proof.
  intros H1 H2 Ht Hlt%str_lt_le. unfold prkey, ReverseEdgeKey in Hlt. rewrite Ht in Hlt.
  rewrite !str_le_app, str_le_prefix in Hlt by (by rewrite !length_hex016).
  destruct (hex016_order (PEdge.TimestampNs e) (PEdge.TimestampNs e')) as [O1 O2]; [done..|].
  case_decide as E; [apply O2 in E; lia|by apply O1].
Qed.

Lemma hex016_xff ts r : xff_free (hex016 ts +:+ r).
Proof.
  unfold hex016. destruct (fixed 16 16 ts) as [|c l] eqn:E; [by apply (f_equal length) in E; rewrite length_fixed in E|].
  simpl. intros ->. pose proof (fixed_bytes 16 ts) as Hb. rewrite E in Hb. pose proof (hexes_range 16 ts) as Hr.
  destruct (hexes 16 ts) as [|d ds]; [done|]. apply Forall_cons in Hr as [Hd _]. injection Hb as Hb _.
  destruct (hexbyte_digit d Hd) as [_ ?]. change (byteval (byte_ascii 255)) with 255 in Hb. lia.
Qed.

Lemma source_range e src :
  ends_ok e -> is_u64 (PEdge.TimestampNs e) ->
  in_range EdgePrefix (EdgePrefix +:+ xff) (pekey e) /\ from_source src (pekey e) = true <-> PEdge.Source e = src.
Proof.
  intros (H1 & H2 & H3 & _) Hts. unfold from_source, pekey. rewrite parse_edge_key by (by split).
  rewrite bool_decide_eq_true. split; [tauto|]. intros Hs. split; [|done].
  apply prefix_range. exists (hex016 (PEdge.TimestampNs e) +:+ "|" +:+ PEdge.Source e +:+ "|" +:+ PEdge.Target e).
  split; [done|]. apply hex016_xff.
Qed.

Lemma target_prefix_range e t :
  ends_ok e -> ~ occurs "|" t ->
  in_range ("r:" +:+ t +:+ "|") (("r:" +:+ t +:+ "|") +:+ xff) (prkey e) <-> PEdge.Target e = t.
Proof.
  intros (_ & _ & _ & HT) Ht. rewrite prefix_range. unfold prkey, ReverseEdgeKey. split.
  - intros (r & E & _). apply (f_equal chars) in E. rewrite !chars_app in E. cbn [app String.list_ascii_of_string reversePrefix] in E.
    injection E as E. rewrite <-app_assoc in E. cbn [app] in E.
    apply app_sep_inj in E as [E _]; [|done..]. by apply (inj chars).
  - intros ->. exists (hex016 (PEdge.TimestampNs e) +:+ "|" +:+ PEdge.Source e). split; [|apply hex016_xff].
    by rewrite !string_app_assoc.
Qed.

(** One scan of the committed edges [es]. *)
Lemma scan_exactly (K : PEdge.t -> string) (P : PEdge.t -> Prop) lo hi keep s es out :
  (forall e, e ∈ es -> write_ok (WEdge e)) ->
  (forall k, in_range lo hi k -> db_entries (pdb s) !! k = edge_data <$> last (filter (fun e => K e = k) es)) ->
  (forall e, e ∈ es -> in_range lo hi (K e) /\ keep (K e) = true <-> P e) ->
  (forall e e', e ∈ es -> e' ∈ es -> P e -> P e' -> str_lt (K e) (K e') -> PEdge.TimestampNs e <= PEdge.TimestampNs e') ->
  pscan lo hi keep s = inr (out, None) -> exactly K es P out.
Proof.
  intros Hok Hdb HP Ho Hs. destruct (pscan_spec K _ _ _ _ _ _ Hok Hdb Hs) as [Hst Hin].
  assert (forall e, e ∈ out <-> latest_by K es e /\ P e) as Hin'.
  { intros e. rewrite Hin. split; intros [Hl Hr]; (split; [done|]); apply HP; eauto using latest_by_elem. }
  split_and!; [by apply ssorted_lt_NoDup|done|].
  eapply ssorted_fmap_inv; [|exact Hst]. intros e e' [He ?]%Hin' [He' ?]%Hin'.
  apply Ho; eauto using latest_by_elem.
Qed.

(** [C28] After any successful operations on a store opened on an empty database, a first
    part of the writes has been committed and the rest, of fewer than 500 batch entries,
    none after a flush, is not visible.  The scans by source, by target and by time that
    report no error return, for each pair of ends and instant, the last edge committed
    there, all of them and no others, oldest first. *)
Theorem pebble_reads_exact (s : PStore) (l : list write)
    (Hh : phistory s l) (He : forall e, e ∈ edges l -> ends_ok e) :
  exists done pend, l = done ++ pend /\ (length (ops pend) < 500)%nat /\ (batch_ops (pwb s) = [] -> pend = []) /\
    (forall src out, pGetEdgesBySource src s = inr (out, None) ->
       exactly pekey (edges done) (fun e => PEdge.Source e = src) out) /\
    (forall t out, ~ occurs "|" t -> pGetEdgesByTarget t s = inr (out, None) ->
       exactly prkey (edges done) (fun e => PEdge.Target e = t) out) /\
    (forall a b out, is_u64 a -> is_u64 b -> pGetEdgesByTimeRange a b s = inr (out, None) ->
       exactly pekey (edges done) (fun e => a <= PEdge.TimestampNs e < b) out).
Proof.
  destruct (history_split s l Hh) as (done & pend & -> & [Hd Hb] & _ & Hl). exists done, pend.
  assert (forall e, e ∈ edges done -> write_ok (WEdge e) /\ ends_ok e /\ is_u64 (PEdge.TimestampNs e)) as Hok.
  { intros e Hin. assert (e ∈ edges (done ++ pend)) as Hin' by (unfold edges; rewrite omap_app; set_solver).
    split_and!; [|by apply He|]; apply list_elem_of_omap in Hin' as ([n|e'] & Hw & Ee); simplify_eq/=;
      pose proof (proj1 (Forall_forall _ _) (history_ok s _ Hh) _ Hw) as Hw'; [done|apply Hw']. }
  split_and!; [done|done|intros E; apply ops_nil; congruence|..].
  - intros src out. apply scan_exactly; [intros e Hin; by apply Hok| | |].
    + intros k Hr. rewrite Hd. apply pekey_lookup. rewrite <-(string_app_nil EdgePrefix) in Hr at 1. exact (range_tagged _ _ _ _ Hr).
    + intros e (_ & ? & ?)%Hok. by apply source_range.
    + intros e e' (_ & _ & ?)%Hok (_ & _ & ?)%Hok _ _. by apply pekey_order.
  - intros t out Ht. apply scan_exactly; [intros e Hin; by apply Hok| | |].
    + intros k Hr. rewrite Hd. apply prkey_lookup. rewrite string_app_assoc in Hr. exact (range_tagged _ _ _ _ Hr).
    + intros e (_ & ? & ?)%Hok. rewrite <-(target_prefix_range e t) by done. tauto.
    + intros e e' (_ & _ & ?)%Hok (_ & _ & ?)%Hok ? ?. apply prkey_order; [done..|congruence].
  - intros a b out Ha Hb'. apply scan_exactly; [intros e Hin; by apply Hok| | |].
    + intros k Hr. rewrite Hd. apply pekey_lookup. exact (range_tagged _ _ _ _ Hr).
    + intros e (_ & ? & ?)%Hok. pose proof (edge_key_range (PEdge.TimestampNs e) a b (PEdge.Source e) (PEdge.Target e)) as Hrg.
      rewrite <-Hrg by done. tauto.
    + intros e e' (_ & _ & ?)%Hok (_ & _ & ?)%Hok _ _. by apply pekey_order.
Qed.

(** ** Nodes *)

Lemma node_write_ok l n : Forall write_ok l -> n ∈ nodes l -> write_ok (WNode n).
Proof.
  intros Hok ([n'|e] & Hin & E)%list_elem_of_omap; simplify_eq/=. exact (proj1 (Forall_forall _ _) Hok _ Hin).
Qed.

Lemma get_committed_node s done pend t id r :
  split_at s done pend -> Forall write_ok done -> pGetNode t id s = inr r ->
  r = last (filter (fun n => pnkey n = NodeKey t id) (nodes done)).
Proof.
  intros [Hd _] Hok. unfold pGetNode. destruct (db_Get (pdb s) (NodeKey t id)) as [|o] eqn:Hg; [done|].
  apply db_Get_entries in Hg. rewrite Hd, pnkey_lookup in Hg by apply tagged_app.
  destruct (last _) as [n|] eqn:Hn; simpl in Hg; subst o; [|by intros [= <-]].
  assert (write_ok (WNode n)) as [Hw [b Hb]].
  { apply last_Some in Hn as [l' E]. assert (n ∈ filter (fun n => pnkey n = NodeKey t id) (nodes done)) as Hin by (rewrite E; set_solver).
    apply list_elem_of_filter in Hin as [_ Hin]. by eapply node_write_ok. }
  rewrite Hb. simpl. rewrite (pnode_roundtrip n b Hw Hb). by intros [= <-].
Qed.

Lemma pnkey_inj n t id :
  ~ occurs ":" (PNode.Type_ n) -> ~ occurs ":" t -> pnkey n = NodeKey t id <-> PNode.Type_ n = t /\ PNode.Id n = id.
Proof.
  intros Hn Ht. unfold pnkey. split; [|by intros [-> ->]]. intros E. apply (f_equal ParseNodeKey) in E.
  rewrite !parse_node_key in E by done. by injection E as -> ->.
Qed.

Definition pid_data (n : PNode.t) : bytes :=
  data_of (pid_Marshal (mkPIDIndex (PNode.Pid n) (PNode.Id n) (PNode.FirstSeenNs n))).
Definition pxkey (n : PNode.t) : string := PIDIndexKey (PNode.Pid n) (PNode.Id n).

Lemma pid_lookup l k : tagged "idx:pid:" k ->
  apply_ops (ops l) ∅ !! k = pid_data <$> last (filter (fun n => pxkey n = k) (omap pid_of l)).
Proof. apply (ops_lookup "idx:pid:" pid_of). kinds. Qed.

Lemma pid_of_elem l n : n ∈ omap pid_of l <-> n ∈ nodes l /\ 0 < PNode.Pid n.
Proof.
  unfold nodes. rewrite !list_elem_of_omap. split.
  - intros ([n'|e] & Hin & E); simpl in E; [|done]. case_match eqn:Hp; [|done]. injection E as ->.
    apply Z.ltb_lt in Hp. eauto.
  - intros [([n'|e] & Hin & E) Hp]; simplify_eq/=. eexists. split; [exact Hin|]. simpl.
    by rewrite (proj2 (Z.ltb_lt _ _)).
Qed.

Lemma pid_range n pid :
  xff_free (PNode.Id n) ->
  in_range (PIDIndexPrefix pid) (PIDIndexPrefix pid +:+ xff) (pxkey n) <-> PNode.Pid n = pid.
Proof.
  intros Hx. rewrite prefix_range. unfold PIDIndexPrefix, pxkey, PIDIndexKey. split.
  - intros (r & E & _). rewrite !string_app_assoc in E. apply (inj (String.app _)) in E.
    apply (f_equal chars) in E. rewrite !chars_app in E. cbn [app String.list_ascii_of_string] in E.
    apply app_sep_inj in E as [E _]; [|apply pretty_Z_not_occurs; by intros [[]|]..]. apply (inj pretty). by apply (inj chars).
  - intros ->. exists (PNode.Id n). by rewrite !string_app_assoc.
Qed.

(** A lookup by process: the node of the first identifier, in byte order, among those
    committed with that process. *)
Lemma by_pid_exact s done pend pid l :
  split_at s done pend -> Forall write_ok done -> 0 < pid ->
  (forall n, n ∈ nodes done -> PNode.Id n <> "" /\ xff_free (PNode.Id n)) ->
  db_Iter (pdb s) (PIDIndexPrefix pid) (PIDIndexPrefix pid +:+ xff) = inr (l, None) ->
  (pGetNodeByPID pid s = inr None /\ forall n, n ∈ nodes done -> PNode.Pid n <> pid) \/
  exists n, n ∈ nodes done /\ PNode.Pid n = pid /\
    (forall n', n' ∈ nodes done -> PNode.Pid n' = pid -> str_le (PNode.Id n) (PNode.Id n')) /\
    pGetNodeByPID pid s = pGetNode "process" (PNode.Id n) s.
Proof.
  intros [Hd _] Hok Hpid Hid Hi. pose proof (db_Iter_elem _ _ _ _ Hi) as Hin. pose proof (db_Iter_sorted _ _ _ _ Hi) as Hs.
  assert (forall n, n ∈ nodes done -> PNode.Pid n = pid -> pxkey n ∈ l.*1) as Hall.
  { intros n Hn Hp. assert (in_range (PIDIndexPrefix pid) (PIDIndexPrefix pid +:+ xff) (pxkey n)) as Hr
      by (apply pid_range; [by apply Hid|done]).
    assert (n ∈ filter (fun n' => pxkey n' = pxkey n) (omap pid_of done)) as Hf.
    { apply list_elem_of_filter. split; [done|]. apply pid_of_elem. split; [done|lia]. }
    destruct (last (filter (fun n' => pxkey n' = pxkey n) (omap pid_of done))) as [m|] eqn:E;
      [|apply last_None in E; rewrite E in Hf; by apply elem_of_nil in Hf].
    apply list_elem_of_fmap. exists (pxkey n, pid_data m). split; [done|]. apply Hin. split; [|done].
    rewrite Hd, pid_lookup by apply tagged_app. by rewrite E. }
  unfold pGetNodeByPID, via_index. rewrite Hi. destruct l as [|[k v] l].
  { left. split; [done|]. intros n Hn Hp. specialize (Hall n Hn Hp). by apply elem_of_nil in Hall. }
  right. destruct (proj1 (Hin k v)) as [Hk Hr]; [by left|].
  rewrite Hd, pid_lookup in Hk by (unfold PIDIndexPrefix in Hr; rewrite string_app_assoc in Hr; exact (range_tagged _ _ _ _ Hr)).
  destruct (last _) as [n|] eqn:En; [|done]. injection Hk as <-. apply last_filter_latest in En as [<- En].
  apply latest_by_elem, pid_of_elem in En as [Hn Hp]. destruct (Hid n Hn) as [Hne Hx].
  apply pid_range in Hr; [|done]. exists n. split_and!; [done|done|..].
  - intros n' Hn' Hp'. specialize (Hall n' Hn' Hp'). simpl in Hs. apply StronglySorted_inv in Hs as [_ Hs].
    rewrite Forall_forall in Hs. simpl in Hall. apply elem_of_cons in Hall as [E|E].
    + unfold pxkey, PIDIndexKey in E. rewrite Hp', Hr in E. do 3 apply (inj (String.app _)) in E. by rewrite E.
    + apply Hs, str_lt_le in E. unfold pxkey, PIDIndexKey in E. rewrite Hp', Hr in E. by rewrite !str_le_app in E.
  - destruct (node_write_ok _ _ Hok Hn) as [Hw [b Hb]]. destruct (index_Marshal n b Hb) as [Hm _].
    destruct (Hm (PNode.Pid n) (PNode.FirstSeenNs n)) as [b' Hb']. unfold pid_node, pid_data. rewrite Hb'. simpl.
    destruct Hw as (? & _ & ? & _). erewrite pid_roundtrip; [|..|exact Hb']; [|done..]. simpl. by rewrite bool_decide_false.
Qed.

(** ** The keys of the batch writer *)

(** An edge of the batch writer is in the range a time scan of the store visits when its
    instant is after the start and not after the end: one later at both ends. *)
Lemma batch_edge_range e a b :
  is_u64 (PEdge.TimestampNs e) -> is_u64 a -> is_u64 b ->
  in_range (EdgeTimeRange a b).1 (EdgeTimeRange a b).2 (bekey e) <-> a < PEdge.TimestampNs e <= b.
Proof.
  intros Ht Ha Hb. unfold in_range, str_lt, EdgeTimeRange, bekey. simpl fst. simpl snd.
  assert (forall c, is_u64 c -> str_le (edgePrefix +:+ hex016 c +:+ "|")
    ("e:" +:+ hex016 (PEdge.TimestampNs e) +:+ ":" +:+ PEdge.Source e +:+ ":" +:+ PEdge.Target e) <-> c < PEdge.TimestampNs e) as Hc.
  { intros c Hc. rewrite str_le_app, str_le_prefix by (by rewrite !length_hex016).
    destruct (hex016_order c (PEdge.TimestampNs e)) as [O1 O2]; [done..|]. case_decide as E.
    - apply O2 in E. split; [done|lia].
    - rewrite O1. assert (c <> PEdge.TimestampNs e) by (by intros ->). lia. }
  rewrite !Hc by done. lia.
Qed.

(** No source is read from such a key. *)
Lemma batch_edge_unparsed e : ParseEdgeKey (bekey e) = None.
Proof.
  unfold ParseEdgeKey. change (bekey e) with (edgePrefix +:+ (hex016 (PEdge.TimestampNs e) +:+ String.String ":" (PEdge.Source e +:+ ":" +:+ PEdge.Target e))).
  rewrite (proj2 (CutPrefix_Some _ _ _) eq_refl). cbn [mbind option_bind].
  pose proof (length_hex016 (PEdge.TimestampNs e)) as Hl. rewrite length_chars in Hl.
  pose proof (get_app_head (hex016 (PEdge.TimestampNs e)) ":" (PEdge.Source e +:+ ":" +:+ PEdge.Target e)) as Hg.
  rewrite Hl in Hg. rewrite Hg, (bool_decide_false (Some ":"%char = Some "|"%char)) by done. by rewrite orb_true_r.
Qed.
End pebblestore.

(** ** A concrete codec, and a witness *)

Definition pnode_fields (n : PNode.t) :=
  (PNode.Id n, PNode.Type_ n, PNode.Label n, PNode.FirstSeenNs n, PNode.LastSeenNs n, PNode.Pid n, PNode.Ppid n,
   PNode.Uid n, PNode.Comm n, PNode.Inode n, PNode.DevMajor n, PNode.DevMinor n, PNode.Mode n, PNode.Identity n,
   PNode.SessionId n, PNode.SourceIp n, PNode.Attrs n, PNode.MonitorLevel n).
Definition pedge_fields (e : PEdge.t) :=
  (PEdge.Id e, PEdge.Source e, PEdge.Target e, PEdge.Relation e, PEdge.TimestampNs e, PEdge.Count e, PEdge.Weight e).

Definition pnode_of (f : string * string * string * Z * Z * Z * Z * Z * string * Z * Z * Z * Z * string * string * string
    * gmap string string * Z) : PNode.t :=
  let '(i, t, l, a, b, p, q, u, c, x, y, z, m, j, k, o, r, v) := f in PNode.mk i t l a b p q u c x y z m j k o r v.
Definition pedge_of (f : string * string * string * string * Z * Z * Z) : PEdge.t :=
  let '(i, s, t, r, ts, c, w) := f in PEdge.mk i s t r ts c w.
Definition pidx_of (f : Z * string * Z) : PIDIndex := let '(p, i, t) := f in mkPIDIndex p i t.
Definition inodex_of (f : Z * Z * Z * string) : InodeIndex := let '(i, a, b, n) := f in mkInodeIndex i a b n.

Definition punpack {X Y} `{Countable X} (f : X -> Y) (b : bytes) : string + Y :=
  match b with
  | [Zpos p] => match decode p with Some x => inr (f x) | None => inl "bad value" end
  | _ => inl "bad value"
  end.

Program Definition field_proto : Proto := {|
  node_Marshal n := inr [Zpos (encode (pnode_fields n))];
  node_Unmarshal := punpack pnode_of;
  edge_Marshal e := inr [Zpos (encode (pedge_fields e))];
  edge_Unmarshal := punpack pedge_of;
  pid_Marshal x := inr [Zpos (encode (px_Pid x, px_NodeId x, px_FirstSeenNs x))];
  pid_Unmarshal := punpack pidx_of;
  inode_Marshal x := inr [Zpos (encode (ix_Inode x, ix_DevMajor x, ix_DevMinor x, ix_NodeId x))];
  inode_Unmarshal := punpack inodex_of;
|}.
Next Obligation. intros n b _ [= <-]. unfold punpack. rewrite decode_encode. by destruct n. Qed.
Next Obligation. intros e b _ [= <-]. unfold punpack. rewrite decode_encode. by destruct e. Qed.
Next Obligation. intros i b _ _ [= <-]. unfold punpack. rewrite decode_encode. by destruct i. Qed.
Next Obligation. intros i b _ _ _ [= <-]. unfold punpack. rewrite decode_encode. by destruct i. Qed.
Next Obligation. intros n b _. split; intros; by eexists. Qed.

Definition x1 := NewEdge "p:10" "f:5:8:1" "used" 300.
Definition x2 := NewEdge "p:11" "f:5:8:1" "used" 100.

Definition ps0 : PStore (H := map_pebble) := mkPStore (H := map_pebble) ∅ [] 500 (mkStats 0 0 0 0).
Definition pput (e : PEdge.t) (s : PStore (H := map_pebble)) : PStore (H := map_pebble) :=
  (pPutEdge (H := map_pebble) (H0 := field_proto) e s).1.
Definition ps2 := (pFlush (H := map_pebble) (pput x2 (pput x1 ps0))).1.

Definition pscanned (r : string + list PEdge.t * option string) : list PEdge.t :=
  match r with inr (l, _) => l | inl _ => [] end.

Lemma ps2_history : phistory (H := map_pebble) (H0 := field_proto) ps2 [WEdge x1; WEdge x2].
Proof.
  assert (forall e s l, phistory (H := map_pebble) (H0 := field_proto) s l -> edge_ok e ->
    (pPutEdge (H := map_pebble) (H0 := field_proto) e s).2 = None ->
    phistory (H := map_pebble) (H0 := field_proto) (pput e s) (l ++ [WEdge e])) as Hp.
  { intros e s l Hs He Hn. apply (ph_edge s l e); [done..|]. by rewrite (surjective_pairing (pPutEdge e s)), Hn. }
  apply (ph_flush (pput x2 (pput x1 ps0))).
  2: { assert ((pFlush (H := map_pebble) (pput x2 (pput x1 ps0))).2 = None) as E by (by vm_compute).
       by rewrite (surjective_pairing (pFlush _)), E. }
  apply (Hp x2 _ [WEdge x1]); [|by vm_compute..]. apply (Hp x1 _ []); [|by vm_compute..].
  by apply (ph_open (H := map_pebble) ∅).
Qed.

(** Two edges written and flushed: a scan by target returns them, oldest first. *)
Lemma pebble_reads_exact_witness :
  pGetEdgesByTarget (H := map_pebble) (H0 := field_proto) "f:5:8:1" ps2 = inr ([x2; x1], None) /\
  exists done, exactly prkey (edges done) (fun e => PEdge.Target e = "f:5:8:1") [x2; x1].
Proof.
  split; [by vm_compute|].
  destruct (pebble_reads_exact (H := map_pebble) (H0 := field_proto) ps2 [WEdge x1; WEdge x2]) as (done & pend & _ & _ & _ & _ & Ht & _).
  - exact ps2_history.
  - intros e He. unfold edges in He. simpl in He.
    apply elem_of_cons in He as [-> |[-> |[]%elem_of_nil]%elem_of_cons];
      (split_and!; try done; intros Ho; apply list_elem_of_In in Ho; simpl in Ho; intuition discriminate).
  - exists done. apply Ht; [|by vm_compute].
    intros Ho. apply list_elem_of_In in Ho. simpl in Ho. intuition discriminate.
Defined.
