(* ===== verification/Lifecycle.v ===== *)
(** * Maintenance of the second store ([internal/storage/pebblestore/lifecycle.go])

    [cleanupOrphans] scans the nodes and the edges of the database and deletes the nodes
    that no edge mentions and that carry no mark of risk; [checkIndexConsistency] deletes
    the edges with an end that is not stored.  Both read a snapshot through an iterator
    without bounds, whose error they do not look at.  The order in which the map of
    references is visited is the class [MapOrder]; case folding of labels is the class
    [UnicodeCase]. *)
From Stdlib Require Import Ascii.
From S2P Require Import Prelude GoStrings KV Store Schema PebbleStore.

(** ** Configuration and state *)

Record LifecycleConfig := mkLC {
  OrphanAge : duration; CleanupInterval : duration; HighRiskLabels : list string; DryRun : bool }.

Definition DefaultLifecycleConfig : LifecycleConfig :=
  mkLC (7 * 24 * 60 * Minute) (60 * Minute) ["HIGH"; "CRITICAL"; "shellcode"; "fileless"] true.

Record LifecycleStats := mkLS {
  OrphansRemoved : Z; OrphansScanned : Z; InconsistenciesFound : Z; InconsistenciesFixed : Z;
  LastCleanup : time; LastCheck : time }.

Definition inferType (nodeID : string) : string :=
  match String.get 0 nodeID with
  | None => "unknown"
  | Some c => if decide (c = "p"%char) then "process" else if decide (c = "f"%char) then "file"
              else if decide (c = "n"%char) then "network" else "entity"
  end.

Section lifecycle.
Context `{Pebble} `{Proto} `{UnicodeCase} `{MapOrder}.

Record LifecycleManager := mkLM { ldb : DB; lcfg : LifecycleConfig; lstats : LifecycleStats }.

Definition NewLifecycleManager (d : DB) (cfg : option LifecycleConfig) : LifecycleManager :=
  mkLM d (default DefaultLifecycleConfig cfg) (mkLS 0 0 0 0 time_zero time_zero).

(** The loop from [SeekGE]: up to the first key without the prefix. *)
Fixpoint while_prefix (p : string) (l : list (string * bytes)) : list (string * bytes) :=
  match l with
  | [] => []
  | (k, v) :: l => if HasPrefix k p then (k, v) :: while_prefix p l else []
  end.

Definition seek (i : SnapIter) (p : string) : list (string * bytes) := while_prefix p (iter_SeekGE i p).1.

(** The identifier in a node key, as both scans read it. *)
Definition key_node (k : string) : option string := snd <$> SplitN2 (TrimPrefix k NodePrefix) ":".

(** A label that contains one of the configured ones in any case, or an attribute whose
    name or value contains one. *)
Definition high_risk (labels : list string) (n : PNode.t) : bool :=
  existsb (fun label => Contains (ToLower (PNode.Label n)) (ToLower label)) labels
  || existsb (fun '(k, v) => existsb (fun label => Contains k label || Contains v label) labels)
       (map_to_list (PNode.Attrs n)).

Definition value_risk (labels : list string) (v : bytes) : bool :=
  match node_Unmarshal v with inr n => high_risk labels n | inl _ => false end.

(** ** Orphan cleanup *)

(** Phase 1, one node: its references start at zero. *)
Definition note_node (labels : list string) (st : gmap string Z * gset string) (kv : string * bytes)
  : gmap string Z * gset string :=
  match key_node kv.1 with
  | None => st
  | Some id => (<[id := 0]> st.1, if value_risk labels kv.2 then st.2 ∪ {[id]} else st.2)
  end.

(** [nodeRefs[id]++]: an [int], above the number of edges of any database. *)
Definition incr (refs : gmap string Z) (id : string) : gmap string Z := <[id := default 0 (refs !! id) + 1]> refs.

(** Phase 2, one edge. *)
Definition note_edge (refs : gmap string Z) (kv : string * bytes) : gmap string Z :=
  match ParseEdgeKey kv.1 with Some (src, tgt, _) => incr (incr refs src) tgt | None => refs end.

(** Phase 3, one entry of the map; an error of the deletion is logged. *)
Definition remove_orphan (dry : bool) (highRisk : gset string) (st : Z * DB) (e : string * Z) : Z * DB :=
  if 0 <? e.2 then st
  else if bool_decide (e.1 ∈ highRisk) then st
  else (i64 (st.1 + 1), if dry then st.2 else (db_Delete (NodePrefix +:+ inferType e.1 +:+ ":" +:+ e.1) st.2).1).

Definition cleanupOrphans (now : time) (lm : LifecycleManager) : LifecycleManager :=
  match db_NewIter (ldb lm) with
  | inl _ => lm
  | inr iter =>
      let '(refs, highRisk) := foldl (note_node (HighRiskLabels (lcfg lm))) (∅, ∅) (seek iter NodePrefix) in
      let refs := foldl note_edge refs (seek iter EdgePrefix) in
      let '(removed, d) := foldl (remove_orphan (DryRun (lcfg lm)) highRisk) (0, ldb lm) (range 0 (map_to_list refs)) in
      let t := lstats lm in
      mkLM d (lcfg lm) (mkLS removed (Z.of_nat (size refs)) (InconsistenciesFound t) (InconsistenciesFixed t) now (LastCheck t))
  end.

(** ** Index consistency *)

Definition known (s : gset string) (kv : string * bytes) : gset string :=
  match key_node kv.1 with Some id => s ∪ {[id]} | None => s end.

Definition corrupted (nodeSet : gset string) (kv : string * bytes) : bool :=
  match ParseEdgeKey kv.1 with
  | Some (src, tgt, _) => negb (bool_decide (src ∈ nodeSet)) || negb (bool_decide (tgt ∈ nodeSet))
  | None => false
  end.

(** One corrupted edge: counted as fixed when it was deleted. *)
Definition fix_edge (dry : bool) (st : Z * DB) (k : string) : Z * DB :=
  if dry then st else
  match db_Delete k st.2 with (d, Some _) => (st.1, d) | (d, None) => (i64 (st.1 + 1), d) end.

Definition checkIndexConsistency (now : time) (lm : LifecycleManager) : LifecycleManager :=
  match db_NewIter (ldb lm) with
  | inl _ => lm
  | inr iter =>
      let nodeSet := foldl known ∅ (seek iter NodePrefix) in
      let bad := (filter (fun kv => corrupted nodeSet kv = true) (seek iter EdgePrefix)).*1 in
      let t := lstats lm in
      let '(fixed, d) := foldl (fix_edge (DryRun (lcfg lm))) (InconsistenciesFixed t, ldb lm) bad in
      mkLM d (lcfg lm) (mkLS (OrphansRemoved t) (OrphansScanned t) (Z.of_nat (length bad)) fixed (LastCleanup t) now)
  end.

(** ** What is stored *)

Definition listed (m : gmap string bytes) (id : string) : Prop :=
  exists k v t, m !! k = Some v /\ ParseNodeKey k = Some (t, id).
Definition mentioned (m : gmap string bytes) (id : string) : Prop :=
  exists k v a b ts, m !! k = Some v /\ ParseEdgeKey k = Some (a, b, ts) /\ (id = a \/ id = b).
Definition risky (labels : list string) (m : gmap string bytes) (id : string) : Prop :=
  exists k v t, m !! k = Some v /\ ParseNodeKey k = Some (t, id) /\ value_risk labels v = true.

(** A node that is stored, in no edge, and without risk: its key has the inferred type. *)
Definition orphan_key (labels : list string) (m : gmap string bytes) (k : string) : Prop :=
  exists id, k = NodeKey (inferType id) id /\ listed m id /\ ~ mentioned m id /\ ~ risky labels m id.

(** An edge with an end that is not stored. *)
Definition dangling (m : gmap string bytes) (k : string) : Prop :=
  exists a b ts, ParseEdgeKey k = Some (a, b, ts) /\ ~ (listed m a /\ listed m b).

Definition consistent (m : gmap string bytes) : Prop :=
  forall k v a b ts, m !! k = Some v -> ParseEdgeKey k = Some (a, b, ts) -> listed m a /\ listed m b.

(** ** Scans *)

Lemma lex_beyond p k t : lex_leb p k = true -> (forall r, k <> p ++ r) -> lex_leb k (p ++ t) = false.
Proof.
  revert k. induction p as [|a p IH]; intros [|b k] Hle Hn; simpl in *; try done; [by destruct (Hn [])|by destruct (Hn (b :: k))|].
  byte_cases; try done; try lia. apply IH; [done|]. intros r ->. apply (Hn r). f_equal. by apply byteval_inj.
Qed.

Lemma no_later_prefix p k k' : str_le p k -> HasPrefix k p = false -> str_lt k k' -> HasPrefix k' p = false.
Proof.
  intros Hle Hk Hlt. apply not_true_iff_false. intros [t ->]%HasPrefix_spec.
  apply (str_lt_le k) in Hlt as Hle'. unfold str_le in Hle'. rewrite chars_app, lex_beyond in Hle'; [done..|].
  intros r E. apply not_true_iff_false in Hk. apply Hk, HasPrefix_spec. exists (String.string_of_list_ascii r).
  apply (inj chars). by rewrite chars_app, chars_of_list.
Qed.

Lemma while_prefix_elem p l k v :
  StronglySorted str_lt l.*1 -> (forall k v, (k, v) ∈ l -> str_le p k) ->
  (k, v) ∈ while_prefix p l <-> (k, v) ∈ l /\ HasPrefix k p = true.
Proof.
  induction l as [|[k0 v0] l IH]; simpl; intros Hs Hp; [split; [by intros ?%elem_of_nil|by intros [?%elem_of_nil _]]|].
  apply StronglySorted_inv in Hs as [Hs Hx]. destruct (HasPrefix k0 p) eqn:E.
  - rewrite !elem_of_cons, IH; [|done|intros; eapply Hp; by right]. split; [|tauto].
    intros [[= -> ->]|?]; [split; [by left|done]|tauto].
  - split; [by intros ?%elem_of_nil|]. intros [[[= -> ->]|Hin]%elem_of_cons Hk]; [congruence|].
    rewrite Forall_forall in Hx. assert (HasPrefix k p = false); [|congruence].
    eapply (no_later_prefix p k0); [eapply Hp; by left|done|]. apply Hx. by apply (list_elem_of_fmap_2 fst l (k, v)).
Qed.

Section run.
Context (R : reliable).

Lemma seek_elem i d p k v :
  db_NewIter d = inr i -> (k, v) ∈ seek i p <-> db_entries d !! k = Some v /\ HasPrefix k p = true.
Proof using R.
  intros Hi. unfold seek. pose proof (ok_SeekGE R i p) as He. destruct (iter_SeekGE i p) as [l err] eqn:E. simpl in *. subst err.
  pose proof (iter_SeekGE_elem _ _ _ E) as Hin. rewrite (db_NewIter_entries _ _ Hi) in Hin.
  rewrite while_prefix_elem; [|by eapply iter_SeekGE_sorted|by intros ? ? [_ ?]%Hin].
  rewrite Hin. split; [tauto|]. intros [? Hp]. split_and!; [done| |done].
  apply HasPrefix_spec in Hp as [t ->]. rewrite <-(string_app_nil p) at 1. by rewrite str_le_app.
Qed.

Lemma key_node_parse k id : HasPrefix k NodePrefix = true -> key_node k = Some id <-> exists t, ParseNodeKey k = Some (t, id).
Proof.
  intros Hp. unfold key_node, ParseNodeKey, CutPrefix. change nodePrefix with NodePrefix. rewrite Hp. simpl.
  destruct (SplitN2 _ _) as [[t i]|]; simpl; [|split; [done|by intros [? ?]]].
  split; [intros [= ->]; eauto|]. by intros [? [= _ ->]].
Qed.

Lemma ParseNodeKey_prefix k t id : ParseNodeKey k = Some (t, id) -> HasPrefix k NodePrefix = true.
Proof. intros [-> _]%ParseNodeKey_Some. apply HasPrefix_spec. by eexists. Qed.

(** The nodes a scan finds. *)
Lemma seek_listed i d id (P : bytes -> Prop) :
  db_NewIter d = inr i ->
  (exists k v, (k, v) ∈ seek i NodePrefix /\ key_node k = Some id /\ P v) <->
  (exists k v t, db_entries d !! k = Some v /\ ParseNodeKey k = Some (t, id) /\ P v).
Proof using R.
  intros Hi. split.
  - intros (k & v & [Hk Hp]%(seek_elem _ _ _ _ _ Hi) & [t Ht]%key_node_parse & HP); [|done]. eauto 6.
  - intros (k & v & t & Hk & Ht & HP). pose proof (ParseNodeKey_prefix _ _ _ Ht) as Hp. exists k, v.
    split_and!; [by apply (seek_elem _ _ _ _ _ Hi)|by apply key_node_parse; eauto|done].
Qed.

Lemma seek_edges i d k v r :
  db_NewIter d = inr i -> ParseEdgeKey k = Some r -> (k, v) ∈ seek i EdgePrefix <-> db_entries d !! k = Some v.
Proof using R.
  intros Hi Hk. rewrite (seek_elem _ _ _ _ _ Hi). apply ParseEdgeKey_prefix in Hk. tauto.
Qed.

(** ** The loops *)

Lemma known_elem l s id :
  id ∈ foldl known s l <-> id ∈ s \/ exists k v, (k, v) ∈ l /\ key_node k = Some id.
Proof.
  revert s. induction l as [|[k v] l IH]; intros s; simpl.
  { split; [by left|]. by intros [?|(? & ? & ?%elem_of_nil & _)]. }
  rewrite IH. unfold known. simpl. split.
  - intros [Hs|(k' & v' & Hin & Hk)]; [|right; exists k', v'; split; [by right|done]].
    destruct (key_node k) as [id'|] eqn:E; [|by left]. apply elem_of_union in Hs as [?| ->%elem_of_singleton]; [by left|].
    right. exists k, v. split; [by left|done].
  - intros [Hs|(k' & v' & [[= -> ->]|Hin]%elem_of_cons & Hk)]; [left; case_match; set_solver|left; rewrite Hk; set_solver|].
    right. eauto.
Qed.

Lemma note_nodes labels l refs risk refs' risk' :
  foldl (note_node labels) (refs, risk) l = (refs', risk') ->
  (forall id z, refs' !! id = Some z <->
     z = 0 /\ (exists k v, (k, v) ∈ l /\ key_node k = Some id) \/
     refs !! id = Some z /\ ~ (exists k v, (k, v) ∈ l /\ key_node k = Some id)) /\
  (forall id, id ∈ risk' <-> id ∈ risk \/ exists k v, (k, v) ∈ l /\ key_node k = Some id /\ value_risk labels v = true).
Proof.
  revert refs' risk'. induction l as [|[k0 v0] l IH] using rev_ind; intros refs' risk' Hf.
  { injection Hf as <- <-. split.
    - intros id z. split; [right; split; [done|]; by intros (? & ? & ?%elem_of_nil & _)|].
      intros [(_ & ? & ? & ?%elem_of_nil & _)|[? _]]; done.
    - intros id. split; [by left|]. by intros [?|(? & ? & ?%elem_of_nil & _)]. }
  rewrite foldl_snoc in Hf. destruct (foldl _ _ l) as [r1 k1] eqn:E. destruct (IH r1 k1 eq_refl) as [H1' H2'].
  assert (forall id, (exists k v, (k, v) ∈ l ++ [(k0, v0)] /\ key_node k = Some id) <->
    (exists k v, (k, v) ∈ l /\ key_node k = Some id) \/ key_node k0 = Some id) as Hsn.
  { intros id. split.
    - intros (k & v & [Hin|[= -> ->]%list_elem_of_singleton]%elem_of_app & Hk); [left; eauto|by right].
    - intros [(k & v & Hin & Hk)|Hk]; [exists k, v|exists k0, v0]; (split; [|done]); set_solver. }
  assert (forall id, (exists k v, (k, v) ∈ l ++ [(k0, v0)] /\ key_node k = Some id /\ value_risk labels v = true) <->
    (exists k v, (k, v) ∈ l /\ key_node k = Some id /\ value_risk labels v = true) \/
    key_node k0 = Some id /\ value_risk labels v0 = true) as Hsr.
  { intros id. split.
    - intros (k & v & [Hin|[= -> ->]%list_elem_of_singleton]%elem_of_app & Hk); [left; eauto|by right].
    - intros [(k & v & Hin & Hk)|Hk]; [exists k, v|exists k0, v0]; (split; [|done]); set_solver. }
  unfold note_node in Hf. simpl in Hf. split; intros id; [intros z; rewrite Hsn|rewrite Hsr].
  - destruct (key_node k0) as [i0|] eqn:Hk; simplify_eq; [|rewrite H1'; naive_solver].
    destruct (decide (id = i0)) as [->|Hne]; [rewrite lookup_insert_eq; naive_solver|].
    rewrite lookup_insert_ne by done. rewrite H1'. naive_solver.
  - destruct (key_node k0) as [i0|] eqn:Hk; simplify_eq; [|rewrite H2'; naive_solver].
    case_match; rewrite ?elem_of_union, ?elem_of_singleton, H2'; naive_solver.
Qed.

Definition in_edges (l : list (string * bytes)) (id : string) : Prop :=
  exists k v a b ts, (k, v) ∈ l /\ ParseEdgeKey k = Some (a, b, ts) /\ (id = a \/ id = b).

Lemma incr_lookup refs id i z :
  (forall i z, refs !! i = Some z -> 0 <= z) ->
  (incr refs id !! i = Some z -> 0 <= z) /\
  (incr refs id !! i = Some z /\ z <= 0 <-> refs !! i = Some z /\ z <= 0 /\ i <> id).
Proof.
  intros Hr. unfold incr. destruct (decide (i = id)) as [->|Hne].
  - rewrite lookup_insert_eq. assert (0 <= default 0 (refs !! id)) by (destruct (refs !! id) eqn:E; [by eapply Hr|done]).
    split; [intros [= <-]; lia|]. split; [intros [[= <-] ?]; lia|tauto].
  - rewrite lookup_insert_ne by done. split; [apply Hr|tauto].
Qed.

(** The entries that stay at zero: those no edge of the scan mentions. *)
Lemma note_edges l refs :
  (forall i z, refs !! i = Some z -> 0 <= z) ->
  (forall i z, foldl note_edge refs l !! i = Some z -> 0 <= z) /\
  (forall i z, foldl note_edge refs l !! i = Some z /\ z <= 0 <-> refs !! i = Some z /\ z <= 0 /\ ~ in_edges l i).
Proof.
  intros Hr. induction l as [|[k0 v0] l [IH1 IH2]] using rev_ind.
  { split; [done|]. intros i z. simpl. split; [|tauto]. intros [? ?]. split_and!; [done..|].
    by intros (? & ? & ? & ? & ? & ?%elem_of_nil & _). }
  rewrite foldl_snoc. unfold note_edge at 1 3. simpl. destruct (ParseEdgeKey k0) as [[[a b] ts]|] eqn:Hk.
  - assert (forall i z, incr (foldl note_edge refs l) a !! i = Some z -> 0 <= z) as Ha
      by (intros i z; apply (incr_lookup _ a i z IH1)).
    assert (forall i, in_edges (l ++ [(k0, v0)]) i <-> in_edges l i \/ i = a \/ i = b) as Hin.
    { intros i. split.
      - intros (k & v & a' & b' & ts' & [?|[= -> ->]%list_elem_of_singleton]%elem_of_app & Hp & Hi); [left; by repeat eexists|].
        simplify_eq. by right.
      - intros [(k & v & a' & b' & ts' & ? & Hp & Hi)|Hi]; [exists k, v, a', b', ts'|exists k0, v0, a, b, ts];
          (split_and!; [set_solver|done|done]). }
    split; [intros i z; apply (incr_lookup _ b i z Ha)|].
    intros i z. rewrite (proj2 (incr_lookup _ b i z Ha)), Hin.
    pose proof (proj2 (incr_lookup _ a i z IH1)) as E. specialize (IH2 i z). tauto.
  - split; [done|]. intros i z. rewrite IH2. split; intros (? & ? & Hn); (split_and!; [done..|]); intros (k & v & a & b & ts & Hin & Hp & Hi); apply Hn;
      exists k, v, a, b, ts; (split_and!; [|done..]); [|set_solver].
    apply elem_of_app in Hin as [?|[= -> ->]%list_elem_of_singleton]; [done|congruence].
Qed.

Lemma delete_entry k d : db_entries (db_Delete k d).1 = delete k (db_entries d).
Proof using R.
  pose proof (ok_db_Delete R k d). destruct (db_Delete k d) as [d' e] eqn:E. simpl in *. subst e. by apply db_Delete_entries.
Qed.

(** Deletions by a loop: the keys of the entries it selects are gone, the rest is as it was. *)
Lemma delete_loop {X} (f : Z * DB -> X -> Z * DB) (sel : X -> option string) l st :
  (forall st x, db_entries (f st x).2 = match sel x with Some k => delete k (db_entries st.2) | None => db_entries st.2 end) ->
  forall k v, db_entries (foldl f st l).2 !! k = Some v <->
    db_entries st.2 !! k = Some v /\ ~ (exists x, x ∈ l /\ sel x = Some k).
Proof using R.
  intros Hf. revert st. induction l as [|x l IH]; intros st k v; simpl.
  { split; [|tauto]. intros ?. split; [done|]. by intros (? & ?%elem_of_nil & _). }
  rewrite IH, Hf. split.
  - destruct (sel x) as [k'|] eqn:Hs; [rewrite lookup_delete_Some; intros [[Hne ?] Hn]|intros [? Hn]];
      (split; [done|]); intros (y & [-> |Hy]%elem_of_cons & Hy'); [congruence|naive_solver|congruence|naive_solver].
  - intros [Hk Hn]. split; [|intros (y & Hy & Hy'); apply Hn; exists y; split; [by right|done]].
    destruct (sel x) as [k'|] eqn:Hs; [|done]. apply lookup_delete_Some. split; [|done].
    intros ->. apply Hn. exists x. split; [by left|done].
Qed.

(** ** What maintenance does *)

Lemma in_edges_mentioned i d id : db_NewIter d = inr i -> in_edges (seek i EdgePrefix) id <-> mentioned (db_entries d) id.
Proof using R.
  intros Hi. unfold in_edges, mentioned.
  split; intros (k & v & a & b & ts & Hk & Hp & Hid); exists k, v, a, b, ts; (split_and!; [|done..]);
    revert Hk; by apply (seek_edges i d k v (a, b, ts)).
Qed.

Lemma scan_listed i d id :
  db_NewIter d = inr i ->
  (exists k v, (k, v) ∈ seek i NodePrefix /\ key_node k = Some id) <-> listed (db_entries d) id.
Proof using R.
  intros Hi. pose proof (seek_listed i d id (fun _ => True) Hi) as Hs. unfold listed. naive_solver.
Qed.

Lemma cleanup_exact now lm k v :
  DryRun (lcfg lm) = false ->
  db_entries (ldb (cleanupOrphans now lm)) !! k = Some v <->
  db_entries (ldb lm) !! k = Some v /\ ~ orphan_key (HighRiskLabels (lcfg lm)) (db_entries (ldb lm)) k.
Proof using R.
  intros Hdry. unfold cleanupOrphans. destruct (ok_NewIter R (ldb lm)) as [i Hi]. rewrite Hi, Hdry.
  destruct (foldl (note_node _) _ _) as [refs risk] eqn:Hn. apply note_nodes in Hn as [N1 N2].
  assert (forall id z, refs !! id = Some z -> 0 <= z) as Hz.
  { intros id z [[-> _]|[Hl _]]%N1; [lia|by rewrite lookup_empty in Hl]. }
  destruct (note_edges (seek i EdgePrefix) refs Hz) as [_ E2].
  set (refs' := foldl note_edge refs (seek i EdgePrefix)) in *.
  destruct (foldl (remove_orphan false risk) _ _) as [removed d] eqn:Hf. simpl. change d with (removed, d).2. rewrite <-Hf.
  rewrite (delete_loop (remove_orphan false risk)
    (fun e => if 0 <? e.2 then None else if bool_decide (e.1 ∈ risk) then None else Some (NodeKey (inferType e.1) e.1))).
  2: { intros st e. unfold remove_orphan. repeat case_match; [done..|]. apply delete_entry. }
  simpl. apply and_iff_compat_l, not_iff_compat. unfold orphan_key.
  setoid_rewrite (elem_of_range 0). split.
  - intros ([id z] & Hin%elem_of_map_to_list & Hs). simpl in Hs. case_match eqn:Hz0; [done|]. apply Z.ltb_ge in Hz0.
    case_bool_decide as Hr; [done|]. injection Hs as <-. exists id.
    destruct (proj1 (E2 id z) (conj Hin Hz0)) as (Hl & _ & Hm). rewrite (in_edges_mentioned _ _ _ Hi) in Hm.
    apply N1 in Hl as [[_ Hl]|[Hl _]]; [|by rewrite lookup_empty in Hl].
    split_and!; [done|by apply (scan_listed _ _ _ Hi)|done|].
    intros Hk. apply Hr, N2. right. by apply (seek_listed _ _ _ (fun v => value_risk _ v = true) Hi).
  - intros (id & -> & Hl & Hm & Hr). exists (id, 0).
    assert (refs !! id = Some 0) as Hl0 by (apply N1; left; split; [done|]; by apply (scan_listed _ _ _ Hi)).
    destruct (proj2 (E2 id 0)) as [Hin _]; [split_and!; [done|lia|]; by rewrite (in_edges_mentioned _ _ _ Hi)|].
    split; [by apply elem_of_map_to_list|]. simpl. rewrite bool_decide_false; [done|].
    intros [He|Hk]%N2; [set_solver|]. apply Hr. by apply (seek_listed _ _ _ (fun v => value_risk _ v = true) Hi).
Qed.

Lemma check_exact now lm k v :
  DryRun (lcfg lm) = false ->
  db_entries (ldb (checkIndexConsistency now lm)) !! k = Some v <->
  db_entries (ldb lm) !! k = Some v /\ ~ dangling (db_entries (ldb lm)) k.
Proof using R.
  intros Hdry. unfold checkIndexConsistency. destruct (ok_NewIter R (ldb lm)) as [i Hi]. rewrite Hi, Hdry.
  set (known_ids := foldl known ∅ (seek i NodePrefix)). set (bad := (filter _ (seek i EdgePrefix)).*1).
  assert (forall id, id ∈ known_ids <-> listed (db_entries (ldb lm)) id) as Hs.
  { intros id. unfold known_ids. rewrite known_elem, (scan_listed _ _ _ Hi). set_solver. }
  destruct (foldl (fix_edge false) _ _) as [fixed d] eqn:Hf. simpl. change d with (fixed, d).2. rewrite <-Hf.
  rewrite (delete_loop (fix_edge false) Some).
  2: { intros st e. unfold fix_edge. rewrite <-delete_entry. by destruct (db_Delete e st.2) as [? [?|]]. }
  simpl. assert (db_entries (ldb lm) !! k = Some v -> (exists x, x ∈ bad /\ Some x = Some k) <-> dangling (db_entries (ldb lm)) k) as Hb;
    [|naive_solver].
  intros Hk. trans (k ∈ bad); [naive_solver|]. unfold bad, dangling. rewrite list_elem_of_fmap. split.
  - intros ([k' v'] & -> & [Hc _]%list_elem_of_filter). unfold corrupted in Hc. simpl in Hc.
    destruct (ParseEdgeKey k') as [[[a b] ts]|] eqn:Hp; [|done]. exists a, b, ts. split; [exact Hp|]. rewrite <-!Hs.
    repeat case_bool_decide; tauto || done.
  - intros (a & b & ts & Hp & Hn). exists (k, v). split; [done|]. apply list_elem_of_filter.
    split; [|by eapply (seek_edges i)]. unfold corrupted. simpl. rewrite Hp. rewrite <-!Hs in Hn.
    repeat case_bool_decide; tauto || done.
Qed.

(** The key of a node determines its identifier, since no type contains a colon. *)
Lemma inferType_colon id : ~ occurs ":" (inferType id).
Proof. unfold inferType. intros Ho. apply list_elem_of_In in Ho. repeat case_match; simpl in Ho; intuition discriminate. Qed.

(** Deleting edges lists the same nodes. *)
Lemma check_listed now lm id :
  DryRun (lcfg lm) = false ->
  listed (db_entries (ldb (checkIndexConsistency now lm))) id <-> listed (db_entries (ldb lm)) id.
Proof using R.
  intros Hdry. unfold listed. split; intros (k & v & t & Hk & Hp); exists k, v, t; (split; [|done]).
  - by apply (check_exact now lm k v Hdry).
  - apply check_exact; [done|]. split; [done|]. intros (a & b & ts & He%ParseEdgeKey_prefix & _).
    apply ParseNodeKey_Some in Hp as [-> _]. discriminate He.
Qed.

Lemma listed_stable d id : ~ ~ listed (db_entries d) id -> listed (db_entries d) id.
Proof using R.
  destruct (ok_NewIter R d) as [i Hi]. rewrite <-(scan_listed i d id Hi). intros Hn.
  pose proof (known_elem (seek i NodePrefix) ∅ id) as E.
  destruct (decide (id ∈ foldl known ∅ (seek i NodePrefix))) as [Hin|Hin]; [|tauto].
  apply E in Hin as [?|?]; [set_solver|done].
Qed.

Lemma foldl_keeps {S X Y} (f : S -> X -> S) (g : S -> Y) l st :
  (forall st x, g (f st x) = g st) -> g (foldl f st l) = g st.
Proof. intros Hf. revert st. induction l as [|x l IH]; intros st; simpl; [done|]. by rewrite IH. Qed.

Lemma dry_run now lm :
  DryRun (lcfg lm) = true -> ldb (cleanupOrphans now lm) = ldb lm /\ ldb (checkIndexConsistency now lm) = ldb lm.
Proof.
  intros Hdry. unfold cleanupOrphans, checkIndexConsistency. destruct (db_NewIter (ldb lm)) as [|i]; [done|]. rewrite Hdry. split.
  - destruct (foldl (note_node _) _ _) as [refs risk]. destruct (foldl (remove_orphan true risk) _ _) as [removed d] eqn:Hf.
    apply (f_equal snd) in Hf. rewrite foldl_keeps in Hf; [done|]. intros st e. unfold remove_orphan. by repeat case_match.
  - destruct (foldl (fix_edge true) _ _) as [fixed d] eqn:Hf. apply (f_equal snd) in Hf. by rewrite foldl_keeps in Hf.
Qed.

(** [C29] On a database without errors, and when it is not a dry run: orphan cleanup
    deletes exactly the entries under the inferred type of the identifiers that are
    stored, that no edge mentions and that carry no mark of risk; the consistency check
    deletes exactly the edges with an end that is not stored, after which every edge has
    both ends, and cleanup keeps it so.  In a dry run both leave the database alone. *)
Theorem maintenance_exact (now : time) (lm : LifecycleManager) :
  let m := db_entries (ldb lm) in
  let m1 := db_entries (ldb (cleanupOrphans now lm)) in
  let m2 := db_entries (ldb (checkIndexConsistency now lm)) in
  if DryRun (lcfg lm) then m1 = m /\ m2 = m else
  (forall k v, m1 !! k = Some v <-> m !! k = Some v /\ ~ orphan_key (HighRiskLabels (lcfg lm)) m k) /\
  (forall k v, m2 !! k = Some v <-> m !! k = Some v /\ ~ dangling m k) /\
  consistent m2 /\ (consistent m -> consistent m1).
Proof using R.
  cbv zeta. destruct (DryRun (lcfg lm)) eqn:Hdry.
  { by destruct (dry_run now lm Hdry) as [-> ->]. }
  split_and!; [intros; by apply cleanup_exact|intros; by apply check_exact|..].
  - intros k v a b ts Hk Hp. rewrite !check_listed by done. apply check_exact in Hk as [Hk Hn]; [|done].
    assert (~ ~ (listed (db_entries (ldb lm)) a /\ listed (db_entries (ldb lm)) b)) as Hs
      by (intros Hx; apply Hn; by exists a, b, ts).
    split; apply listed_stable; tauto.
  - intros Hc k v a b ts Hk Hp. apply cleanup_exact in Hk as [Hk _]; [|done].
    destruct (Hc k v a b ts Hk Hp) as [Ha Hb].
    assert (forall id, id = a \/ id = b -> listed (db_entries (ldb lm)) id -> listed (db_entries (ldb (cleanupOrphans now lm))) id) as Hkeep;
      [|split; apply Hkeep; auto].
    intros id Hid (k' & v' & t & Hk' & Hp'). exists k', v', t. split; [|done]. apply cleanup_exact; [done|]. split; [done|].
    intros (id' & -> & _ & Hm & _). rewrite parse_node_key in Hp' by apply inferType_colon. injection Hp' as _ ->.
    apply Hm. by exists k, v, a, b, ts.
Qed.
End run.
End lifecycle.

(** ** Examples *)

Definition file7 := NewFileNode 7 8 1 "/tmp/x".
Definition proc9 := NewProcessNode 9 "sh" 0.

(** A stored file and a stored process, an edge between them, an orphan, an edge whose
    target is not stored, and a node of a type that the first letter does not tell. *)
Definition sample_entries : gmap string bytes :=
  let data n := data_of (node_Marshal (Proto := field_proto) n) in
  <[NodeKey "process" "p:9" := data proc9]> (<[NodeKey "file" "f:7:8:1" := data file7]>
  (<[NodeKey "process" "p:3" := data (NewProcessNode 3 "cat" 0)]>
  (<[NodeKey "pipe" "pipe:1" := data (NewProcessNode 1 "" 0)]>
  (<[EdgeKey 5 "p:9" "f:7:8:1" := [1]]> {[EdgeKey 6 "p:9" "f:8:8:1" := [2]]})))).

Definition lm0 (dry : bool) : LifecycleManager (H := map_pebble) :=
  mkLM (H := map_pebble) sample_entries (mkLC 0 0 ["HIGH"] dry) (mkLS 0 0 0 0 0 0).

Definition cleaned : gmap string bytes :=
  ldb (H := map_pebble) (cleanupOrphans (H := map_pebble) (H0 := field_proto) (H1 := ascii_case) (H2 := alternating_order) 0 (lm0 false)).
Definition checked : gmap string bytes :=
  ldb (H := map_pebble) (checkIndexConsistency (H := map_pebble) 0 (lm0 false)).

(** The orphan process goes; the orphan pipe stays, since it is looked for as a process. *)
Example cleaned_keys :
  (bool_decide (is_Some (cleaned !! NodeKey "process" "p:3")), bool_decide (is_Some (cleaned !! NodeKey "pipe" "pipe:1")),
   bool_decide (is_Some (cleaned !! NodeKey "process" "p:9")), size cleaned) = (false, true, true, 5%nat).
Proof. vm_compute. reflexivity. Qed.

Example checked_keys :
  (bool_decide (is_Some (checked !! EdgeKey 6 "p:9" "f:8:8:1")), bool_decide (is_Some (checked !! EdgeKey 5 "p:9" "f:7:8:1")),
   size checked) = (false, true, 5%nat).
Proof. vm_compute. reflexivity. Qed.

(** The orphan of the sample is deleted, and the checked database is consistent. *)
Lemma maintenance_exact_witness :
  cleaned !! NodeKey "process" "p:3" = None /\ consistent checked /\
  ldb (H := map_pebble) (cleanupOrphans (H := map_pebble) (H0 := field_proto) (H1 := ascii_case) (H2 := alternating_order) 0 (lm0 true))
  = sample_entries.
Proof.
  pose proof (maintenance_exact (H := map_pebble) (H0 := field_proto) (H1 := ascii_case) (H2 := alternating_order)
    map_reliable 0 (lm0 false)) as Hm.
  pose proof (maintenance_exact (H := map_pebble) (H0 := field_proto) (H1 := ascii_case) (H2 := alternating_order)
    map_reliable 0 (lm0 true)) as Hd.
  cbv zeta in Hm, Hd. split_and!.
  - by vm_compute.
  - exact (proj1 (proj2 (proj2 Hm))).
  - exact (proj1 Hd).
Defined.
