(* ===== verification/FileVersions.v ===== *)
(** * File versions ([internal/storage/pebblestore/version.go])

    A tracker of version numbers per file and a store of version records.  A write makes
    the next version, a read returns the record of the current one.  The records are kept
    by version identifier; the history of a file is read off by the prefix of its
    identifiers and sorted by version number ([sort.Slice], the class [SortSlice]). *)
From Stdlib Require Import Ascii.
From S2P Require Import Prelude GoStrings GoSort KV Store Schema.

(** ** The tracker *)

Definition versionPrefix : string := "v:".

Definition fileKey (inode devMajor devMinor : Z) : string :=
  pretty inode +:+ ":" +:+ pretty devMajor +:+ ":" +:+ pretty devMinor.

Abbreviation VersionTracker := (gmap string Z).
Definition NewVersionTracker : VersionTracker := ∅.

Definition VersionID (inode devMajor devMinor version : Z) : string :=
  versionPrefix +:+ pretty inode +:+ ":" +:+ pretty devMajor +:+ ":" +:+ pretty devMinor +:+ ":" +:+ pretty version.
Definition BaseNodeID (inode devMajor devMinor : Z) : string :=
  "f:" +:+ pretty inode +:+ ":" +:+ pretty devMajor +:+ ":" +:+ pretty devMinor.

Definition CurrentVersion (inode devMajor devMinor : Z) (vt : VersionTracker) : Z :=
  default 0 (vt !! fileKey inode devMajor devMinor).

Definition InitVersion (inode devMajor devMinor : Z) (vt : VersionTracker) : VersionTracker * string :=
  let key := fileKey inode devMajor devMinor in
  let vt := match vt !! key with None => <[key := 1]> vt | Some _ => vt end in
  (vt, VersionID inode devMajor devMinor (CurrentVersion inode devMajor devMinor vt)).

Definition NextVersion (inode devMajor devMinor : Z) (vt : VersionTracker) : VersionTracker * (string * string) :=
  let cur := CurrentVersion inode devMajor devMinor vt in
  let prev := if cur =? 0 then 1 else cur in
  (<[fileKey inode devMajor devMinor := i64 (prev + 1)]> vt,
   (VersionID inode devMajor devMinor prev, VersionID inode devMajor devMinor (i64 (prev + 1)))).

Definition LatestVersion (inode devMajor devMinor : Z) (vt : VersionTracker) : string :=
  let ver := CurrentVersion inode devMajor devMinor vt in
  VersionID inode devMajor devMinor (if ver =? 0 then 1 else ver).

(** ** The records *)

Record VersionRecord := mkVR {
  vr_VersionID : string; vr_Inode : Z; vr_DevMajor : Z; vr_DevMinor : Z; VersionNum : Z;
  TriggerPID : Z; TriggerComm : string; Operation : string; PrevVersion : string; vr_TimestampNS : Z }.

Record VersionStore := mkVS { vs_vt : VersionTracker; vs_records : gmap string VersionRecord }.
Definition NewVersionStore : VersionStore := mkVS NewVersionTracker ∅.

Definition RecordWrite (inode devMajor devMinor pid : Z) (comm : string) (timestamp : Z) (vs : VersionStore)
  : VersionStore * (string * VersionRecord) :=
  let '(vt, (prevID, newID)) := NextVersion inode devMajor devMinor (vs_vt vs) in
  let rec := mkVR newID inode devMajor devMinor (CurrentVersion inode devMajor devMinor vt) pid comm "write" prevID timestamp in
  (mkVS vt (<[newID := rec]> (vs_records vs)), (newID, rec)).

Definition RecordRead (inode devMajor devMinor pid : Z) (comm : string) (timestamp : Z) (vs : VersionStore) : VersionRecord :=
  let versionID := LatestVersion inode devMajor devMinor (vs_vt vs) in
  match vs_records vs !! versionID with
  | Some existing => existing
  | None => mkVR versionID inode devMajor devMinor 1 0 "" "read" "" timestamp
  end.

Definition GetVersion (versionID : string) (vs : VersionStore) : option VersionRecord := vs_records vs !! versionID.
Definition VersionCount (vs : VersionStore) : Z := Z.of_nat (size (vs_records vs)).

Section history.
Context `{SortSlice} `{MapOrder}.

Definition older (x y : VersionRecord) : bool := VersionNum x <? VersionNum y.

Definition GetHistory (inode devMajor devMinor : Z) (vs : VersionStore) : list VersionRecord :=
  let prefix := versionPrefix +:+ fileKey inode devMajor devMinor +:+ ":" in
  sort_slice older (filter (fun e => HasPrefix e.1 prefix = true) (range 0 (map_to_list (vs_records vs)))).*2.

(** ** Histories of writes *)

Record fwrite := mkW { w_inode : Z; w_major : Z; w_minor : Z; w_pid : Z; w_comm : string; w_ts : Z }.

Definition apply_write (vs : VersionStore) (w : fwrite) : VersionStore :=
  (RecordWrite (w_inode w) (w_major w) (w_minor w) (w_pid w) (w_comm w) (w_ts w) vs).1.
Definition run (l : list fwrite) : VersionStore := foldl apply_write NewVersionStore l.

Definition of_file (i a b : Z) (w : fwrite) : Prop := w_inode w = i /\ w_major w = a /\ w_minor w = b.
#[global] Instance of_file_dec i a b w : Decision (of_file i a b w).
Proof. unfold of_file. apply _. Defined.
Definition writes_of (i a b : Z) (l : list fwrite) : list fwrite := filter (of_file i a b) l.

(** The record of a write after [n] versions, the first of which is implicit. *)
Definition record_of (n : Z) (w : fwrite) : VersionRecord :=
  let id := VersionID (w_inode w) (w_major w) (w_minor w) in
  mkVR (id (n + 1)) (w_inode w) (w_major w) (w_minor w) (n + 1) (w_pid w) (w_comm w) "write" (id n) (w_ts w).

(** The records a list of writes to one file should have. *)
Definition chain (l : list fwrite) : list VersionRecord := imap (fun k w => record_of (Z.of_nat k + 1) w) l.

(** ** Keys *)

Lemma pretty_no_colon (n : Z) : ~ ":"%char ∈ chars (pretty n).
Proof. apply pretty_Z_not_occurs. by intros [[]|]. Qed.

Lemma pretty_sep_inj (n m : Z) r r' : chars (pretty n) ++ ":"%char :: r = chars (pretty m) ++ ":"%char :: r' -> n = m /\ r = r'.
Proof.
  intros E. apply app_sep_inj in E as [E ->]; [|apply pretty_no_colon..]. split; [|done].
  apply (inj pretty). by apply (inj chars).
Qed.

(** Reads the first number off an equation between keys. *)
Ltac first_number E :=
  rewrite ?chars_app in E; cbn [app versionPrefix String.list_ascii_of_string] in E; rewrite <-?app_assoc in E; cbn [app] in E;
  apply pretty_sep_inj in E as [-> E].

Lemma fileKey_inj i a b i' a' b' : fileKey i a b = fileKey i' a' b' -> i = i' /\ a = a' /\ b = b'.
Proof.
  unfold fileKey. intros E. apply (f_equal chars) in E. do 2 first_number E.
  split_and!; [done..|]. apply (inj pretty). by apply (inj chars).
Qed.

(** A version identifier has the prefix of a file exactly when it is one of its versions. *)
Lemma VersionID_prefix i a b i' a' b' n :
  HasPrefix (VersionID i' a' b' n) (versionPrefix +:+ fileKey i a b +:+ ":") = true <-> i = i' /\ a = a' /\ b = b'.
Proof.
  rewrite HasPrefix_spec. unfold VersionID, fileKey. split.
  - intros [t E]. apply (f_equal chars) in E. rewrite !chars_app in E. cbn [app versionPrefix String.list_ascii_of_string] in E.
    injection E as E. by do 3 first_number E.
  - intros (-> & -> & ->). exists (pretty n). by rewrite !string_app_assoc.
Qed.

Lemma VersionID_inj i a b n i' a' b' n' :
  VersionID i a b n = VersionID i' a' b' n' -> i = i' /\ a = a' /\ b = b' /\ n = n'.
Proof.
  intros E. assert (HasPrefix (VersionID i' a' b' n') (versionPrefix +:+ fileKey i a b +:+ ":") = true) as Hp
    by (rewrite <-E; by apply VersionID_prefix).
  apply VersionID_prefix in Hp as (-> & -> & ->). split_and!; [done..|]. unfold VersionID in E.
  do 7 apply (inj (String.app _)) in E. by apply (inj pretty).
Qed.

(** ** Every write is in the history *)

(** The state after a list of writes. *)
Definition tracked (l : list fwrite) (vs : VersionStore) : Prop :=
  (forall i a b, vs_vt vs !! fileKey i a b =
     match writes_of i a b l with [] => None | ws => Some (Z.of_nat (length ws) + 1) end) /\
  (forall id r, vs_records vs !! id = Some r <->
     vr_VersionID r = id /\ exists i a b, r ∈ chain (writes_of i a b l)).

Lemma chain_elem l r : r ∈ chain l <-> exists k w, l !! k = Some w /\ r = record_of (Z.of_nat k + 1) w.
Proof. unfold chain. rewrite elem_of_lookup_imap. naive_solver. Qed.

Lemma chain_snoc l w : chain (l ++ [w]) = chain l ++ [record_of (Z.of_nat (length l) + 1) w].
Proof. unfold chain. rewrite imap_app. simpl. do 3 f_equal. lia. Qed.

Lemma writes_snoc i a b l w :
  writes_of i a b (l ++ [w]) = if decide (of_file i a b w) then writes_of i a b l ++ [w] else writes_of i a b l.
Proof. unfold writes_of. rewrite filter_app, filter_cons, filter_nil. case_decide; [done|]. by rewrite app_nil_r. Qed.

Lemma chain_file i a b l r : r ∈ chain (writes_of i a b l) ->
  vr_VersionID r = VersionID i a b (VersionNum r) /\ 2 <= VersionNum r < Z.of_nat (length (writes_of i a b l)) + 2.
Proof.
  intros (k & w & Hk & ->)%chain_elem. pose proof (lookup_lt_Some _ _ _ Hk).
  apply list_elem_of_lookup_2, list_elem_of_filter in Hk as [(<- & <- & <-) _]. simpl. split; [done|lia].
Qed.

Lemma tracked_write l vs w :
  Z.of_nat (length l) + 3 < 2 ^ 63 -> tracked l vs -> tracked (l ++ [w]) (apply_write vs w).
Proof.
  intros Hb [Hv Hr]. destruct w as [i a b pid comm ts]. set (w := mkW i a b pid comm ts).
  pose proof (length_filter (of_file i a b) l) as Hlen. fold (writes_of i a b l) in Hlen.
  set (n := Z.of_nat (length (writes_of i a b l)) + 1).
  assert (NextVersion i a b (vs_vt vs) = (<[fileKey i a b := n + 1]> (vs_vt vs), (VersionID i a b n, VersionID i a b (n + 1)))) as E.
  { unfold NextVersion, CurrentVersion. rewrite Hv. unfold n.
    destruct (writes_of i a b l) as [|x ws]; simpl; [done|].
    destruct (Z.eqb_spec (Z.of_nat (S (length ws)) + 1) 0); [lia|]. simpl in Hlen.
    rewrite i64_small by (unfold MinInt64, MaxInt64; lia). done. }
  assert (apply_write vs w = mkVS (<[fileKey i a b := n + 1]> (vs_vt vs)) (<[VersionID i a b (n + 1) := record_of n w]> (vs_records vs))) as ->.
  { unfold apply_write, RecordWrite, w. cbn [w_inode w_major w_minor w_pid w_comm w_ts]. rewrite E. cbn [fst]. unfold CurrentVersion. by rewrite lookup_insert_eq. }
  assert (forall i' a' b' r, r ∈ chain (writes_of i' a' b' (l ++ [w])) <->
    r ∈ chain (writes_of i' a' b' l) \/ r = record_of n w /\ of_file i' a' b' w) as Hc.
  { intros i' a' b' r. rewrite writes_snoc. case_decide as Hf; [|tauto]. destruct Hf as (<- & <- & <-).
    rewrite chain_snoc, elem_of_app, list_elem_of_singleton. fold n. unfold of_file. tauto. }
  split; simpl.
  - intros i' a' b'. rewrite writes_snoc. case_decide as Hf.
    + destruct Hf as (<- & <- & <-). simpl. rewrite lookup_insert_eq. unfold n.
      destruct (writes_of i a b l) as [|x ws]; simpl; [done|]. rewrite length_app. simpl. f_equal. lia.
    + rewrite lookup_insert_ne; [apply Hv|]. intros (<- & <- & <-)%fileKey_inj. by apply Hf.
  - intros id r. setoid_rewrite Hc. destruct (decide (VersionID i a b (n + 1) = id)) as [<-|Hne].
    + rewrite lookup_insert_eq. split.
      * intros [= <-]. split; [done|]. exists i, a, b. by right.
      * intros [Hid (i' & a' & b' & [Hin|[-> _]])]; [|done]. apply chain_file in Hin as [Hi Hn]. rewrite Hid in Hi.
        apply VersionID_inj in Hi as (<- & <- & <- & Hi). unfold n in Hi. lia.
    + rewrite lookup_insert_ne, Hr by done. split; [naive_solver|].
      intros [Hid (i' & a' & b' & [Hin|[-> _]])]; [|done]. eauto.
Qed.

Lemma run_tracked l : Z.of_nat (length l) + 2 < 2 ^ 63 -> tracked l (run l).
Proof.
  induction l as [|w l IH] using rev_ind; intros Hb.
  { split; [done|]. intros id r. split; [done|].
    intros [_ (i & a & b & (k & w & Hk & _)%chain_elem)]. by destruct k. }
  rewrite length_app in Hb. simpl in Hb. unfold run. rewrite foldl_snoc. apply tracked_write; [|apply IH]; lia.
Qed.

#[local] Instance older_weak : StrictWeak older.
Proof.
  unfold older. split; intros x y; [|intros z]; rewrite ?Z.ltb_lt, ?Z.ltb_ge; lia.
Qed.

Lemma chain_sorted i a b l : StronglySorted (fun x y => older y x = false) (chain (writes_of i a b l)).
Proof.
  generalize (writes_of i a b l). clear. intros l. induction l as [|w l IH] using rev_ind; [constructor|].
  rewrite chain_snoc. apply StronglySorted_app_2; [|done|repeat constructor].
  intros x y (k & w' & Hk & ->)%chain_elem ->%list_elem_of_singleton. unfold older. simpl.
  apply lookup_lt_Some in Hk. apply Z.ltb_ge. lia.
Qed.

(** After any sequence of writes (fewer than 2^63 - 2), the history of a file is one
    record per write to it, in the order of the writes: the k-th makes version k + 1, the
    first version being implicit, with the version before it as its predecessor.  Files
    do not mix, whatever the order in which the records are visited. *)
Lemma file_history_exact (l : list fwrite) (i a b : Z) (Hb : Z.of_nat (length l) + 2 < 2 ^ 63) :
  GetHistory i a b (run l) = chain (writes_of i a b l).
Proof.
  destruct (run_tracked l Hb) as [_ Hr]. unfold GetHistory.
  set (L := filter _ (range 0 (map_to_list (vs_records (run l))))).
  assert (forall e, e ∈ L <-> e.1 = vr_VersionID e.2 /\ e.2 ∈ chain (writes_of i a b l)) as HL.
  { intros [id r]. unfold L. rewrite list_elem_of_filter, elem_of_range, elem_of_map_to_list, Hr. simpl. split.
    - intros [Hp [<- (i' & a' & b' & Hin)]]. split; [done|]. destruct (chain_file _ _ _ _ _ Hin) as [Hi _].
      rewrite Hi in Hp. by apply VersionID_prefix in Hp as (-> & -> & ->).
    - intros [-> Hin]. split; [|split; [done|by exists i, a, b]]. destruct (chain_file _ _ _ _ _ Hin) as [-> _].
      by apply VersionID_prefix. }
  assert (forall r, r ∈ L.*2 <-> r ∈ chain (writes_of i a b l)) as HL2.
  { intros r. rewrite list_elem_of_fmap. split; [by intros (e & -> & [_ ?]%HL)|].
    intros Hin. exists (vr_VersionID r, r). split; [done|]. by apply HL. }
  assert (forall x y, x ∈ chain (writes_of i a b l) -> y ∈ chain (writes_of i a b l) -> VersionNum x = VersionNum y -> x = y) as Hinj.
  { intros x y (k & w & Hk & ->)%chain_elem (k' & w' & Hk' & ->)%chain_elem E. simpl in E.
    assert (k = k') as -> by lia. congruence. }
  apply (StronglySorted_unique_strong (fun x y => older y x = false)).
  - intros x y. rewrite elem_of_sort_slice, HL2. intros Hx Hy. unfold older. rewrite !Z.ltb_ge. intros. apply Hinj; [done..|lia].
  - apply sort_slice_sorted. apply _.
  - apply chain_sorted.
  - rewrite sort_slice_perm. apply NoDup_Permutation; [..|done].
    + apply NoDup_fmap_2_strong; [|unfold L; apply NoDup_filter; rewrite range_perm; apply NoDup_map_to_list].
      intros [k x] [k' y] [E1 _]%HL [E2 _]%HL. simpl in *. congruence.
    + apply NoDup_alt. intros k k' r. unfold chain. rewrite !list_lookup_imap.
      intros (w & _ & Hw)%fmap_Some (w' & _ & Hw')%fmap_Some. rewrite Hw in Hw'. injection Hw'. lia.
Qed.

(** A read after a write returns the record of the last write to the file. *)
Lemma read_last_write l i a b w pid comm ts :
  Z.of_nat (length l) + 2 < 2 ^ 63 -> last (writes_of i a b l) = Some w ->
  RecordRead i a b pid comm ts (run l) = record_of (Z.of_nat (length (writes_of i a b l))) w.
Proof.
  intros Hb Hw. destruct (run_tracked l Hb) as [Hv Hr]. apply last_Some in Hw as [ws E].
  assert (writes_of i a b l !! length ws = Some w) as Hl by (rewrite E; by apply list_lookup_middle).
  assert (of_file i a b w) as Hf.
  { apply list_elem_of_lookup_2 in Hl. by apply list_elem_of_filter in Hl as [? _]. }
  assert (length (writes_of i a b l) = S (length ws)) as Hlen by (rewrite E, length_app; simpl; lia).
  assert (vs_vt (run l) !! fileKey i a b = Some (Z.of_nat (S (length ws)) + 1)) as Hcur
    by (rewrite Hv, <-Hlen; destruct (writes_of i a b l); [by rewrite lookup_nil in Hl|done]).
  unfold RecordRead, LatestVersion, CurrentVersion. rewrite Hcur.
  cbn [default from_option id]. destruct (Z.eqb_spec (Z.of_nat (S (length ws)) + 1) 0); [lia|]. rewrite Hlen.
  destruct Hf as (<- & <- & <-).
  rewrite (proj2 (Hr _ (record_of (Z.of_nat (S (length ws))) w))); [done|]. split; [done|].
  exists (w_inode w), (w_major w), (w_minor w). apply chain_elem. exists (length ws), w. split; [done|]. f_equal. lia.
Qed.
End history.

(** ** Examples *)

(** The tracker is unlocked between the new version and the number of the record: with a
    write of the same file in between, the record has the number of the later version. *)
Example version_race :
  let '(vt1, (_, id1)) := NextVersion 5 8 1 NewVersionTracker in
  let '(vt2, _) := NextVersion 5 8 1 vt1 in
  (id1, CurrentVersion 5 8 1 vt2) = ("v:5:8:1:2", 3).
Proof. vm_compute. reflexivity. Qed.

Definition fw (i ts : Z) : fwrite := mkW i 8 1 42 "vi" ts.

(** Three writes to two files: the history of one of them. *)
Lemma file_history_exact_witness :
  GetHistory (H := merge_sort_slice) (H0 := alternating_order) 5 8 1 (run [fw 5 10; fw 55 11; fw 5 12]) =
  [record_of 1 (fw 5 10); record_of 2 (fw 5 12)].
Proof. exact (file_history_exact (H := merge_sort_slice) (H0 := alternating_order) [fw 5 10; fw 55 11; fw 5 12] 5 8 1 ltac:(simpl; lia)). Defined.
