(* ===== verification/ProtoEvent.v ===== *)
(** * The second decoder of raw events ([internal/storage/pebblestore]: [proto_event.go], [zc_reader.go])

    [RawEventToProto] decodes the kernel's record into a protocol-buffer event by hand
    (shifts and bitwise or), field by field; [ZeroCopyReader] counts what it read.  The
    reference is [ParseRawEvent] of [Events], the decoder of the main pipeline. *)
From S2P Require Import Prelude GoStrings Events.

Record PEvent := mkPEvent {
  p_Type : Z; p_Flags : Z; p_TimestampNs : Z; p_Pid : Z; p_Tid : Z; p_Ppid : Z; p_Uid : Z; p_Gid : Z;
  p_Comm : string; p_Pathname : string;
  p_Inode : Z; p_DevMajor : Z; p_DevMinor : Z; p_Mode : Z; p_FFlags : Z; p_ChildPid : Z;
  p_Saddr : Z; p_Daddr : Z; p_Sport : Z; p_Dport : Z; p_Protocol : Z }.

#[local] Notation "buf .[ i ]" := (nth i buf 0) (at level 1, left associativity).

Definition readLE64 (buf : list Z) (off : nat) : Z :=
  if (length buf <? off + 8)%nat then 0 else
  Z.lor (Z.lor (Z.lor (Z.lor (Z.lor (Z.lor (Z.lor buf.[off]
    (Z.shiftl buf.[off + 1] 8)) (Z.shiftl buf.[off + 2] 16)) (Z.shiftl buf.[off + 3] 24))
    (Z.shiftl buf.[off + 4] 32)) (Z.shiftl buf.[off + 5] 40)) (Z.shiftl buf.[off + 6] 48))
    (Z.shiftl buf.[off + 7] 56).

Definition readLE32 (buf : list Z) (off : nat) : Z :=
  if (length buf <? off + 4)%nat then 0 else
  Z.lor (Z.lor (Z.lor buf.[off] (Z.shiftl buf.[off + 1] 8)) (Z.shiftl buf.[off + 2] 16)) (Z.shiftl buf.[off + 3] 24).

Definition readLE16 (buf : list Z) (off : nat) : Z :=
  if (length buf <? off + 2)%nat then 0 else Z.lor buf.[off] (Z.shiftl buf.[off + 1] 8).

(** The loop of [cString]: the index of the first NUL from [i] on, if it is before [i + n]. *)
Fixpoint find_nul (buf : list Z) (i n : nat) : option nat :=
  match n with
  | O => None
  | S n => if buf.[i] =? 0 then Some i else find_nul buf (S i) n
  end.

Definition p_cString (buf : list Z) (off maxLen : nat) : string :=
  let end_ := Nat.min (off + maxLen) (length buf) in
  match find_nul buf off (end_ - off) with
  | Some i => string_of_bytes (slice off (i - off) buf)
  | None => string_of_bytes (slice off (end_ - off) buf)
  end.

Definition RawEventToProto (raw : list Z) : option PEvent :=
  if (length raw <? 340)%nat then None else
  Some {| p_Type := readLE32 raw 0; p_Flags := readLE32 raw 4; p_TimestampNs := readLE64 raw 8;
          p_Pid := readLE32 raw 16; p_Tid := readLE32 raw 20; p_Ppid := readLE32 raw 24;
          p_Uid := readLE32 raw 28; p_Gid := readLE32 raw 32;
          p_Inode := readLE64 raw 36; p_DevMajor := readLE32 raw 44; p_DevMinor := readLE32 raw 48;
          p_Mode := readLE32 raw 52; p_FFlags := readLE32 raw 56; p_ChildPid := readLE32 raw 36;
          p_Protocol := raw.[48];
          p_Saddr := readLE32 raw 36; p_Daddr := readLE32 raw 40;
          p_Sport := readLE16 raw 44; p_Dport := readLE16 raw 46;
          p_Comm := p_cString raw 68 16; p_Pathname := p_cString raw 84 256 |}.

(** ** The reader *)

Record RingBufferStats := mkRB { EventsRead : Z; EventsDropped : Z; ParseErrors : Z; TotalBytes : Z }.

(** What [ringbuf.Reader.Read] gives: a record, [ErrClosed], or another error. *)
Inductive ring_read := RRecord (raw : list Z) | RClosed (e : string) | RError (e : string).

Definition ErrParseFailed : string := "parse error".

Definition zc_Read (r : ring_read) (z : RingBufferStats) : RingBufferStats * (string + PEvent) :=
  match r with
  | RClosed e => (z, inl e)
  | RError e => (mkRB (EventsRead z) (i64 (EventsDropped z + 1)) (ParseErrors z) (TotalBytes z), inl e)
  | RRecord raw =>
      let z := mkRB (i64 (EventsRead z + 1)) (EventsDropped z) (ParseErrors z) (i64 (TotalBytes z + Z.of_nat (length raw))) in
      match RawEventToProto raw with
      | None => (mkRB (EventsRead z) (EventsDropped z) (i64 (ParseErrors z + 1)) (TotalBytes z), inl ErrParseFailed)
      | Some e => (z, inr e)
      end
  end.

(** ** Little-endian numbers *)

Lemma lor_shift a b n : 0 <= n -> 0 <= a < 2 ^ n -> Z.lor a (Z.shiftl b n) = a + b * 2 ^ n.
Proof.
  intros Hn Ha. rewrite <-Z.shiftl_mul_pow2 by done. rewrite Z.add_nocarry_lxor, Z.lxor_lor; [done|..].
  all: apply Z.bits_inj'; intros i Hi; rewrite Z.land_spec, Z.bits_0.
  all: destruct (Z.lt_ge_cases i n); [by rewrite Z.shiftl_spec_low, andb_false_r|].
  all: rewrite <-(Z.mod_small a (2 ^ n)), Z.mod_pow2_bits_high by lia; done.
Qed.

Definition byte_list (l : list Z) : Prop := Forall (fun b => 0 <= b < 256) l.

Lemma nth_byte l i : byte_list l -> 0 <= nth i l 0 < 256.
Proof.
  intros Hl. destruct (nth_in_or_default i l 0) as [Hin|E]; [|rewrite E; lia].
  apply list_elem_of_In in Hin. exact (proj1 (Forall_forall _ _) Hl _ Hin).
Qed.

Lemma slice_S off n l : (off < length l)%nat -> slice off (S n) l = nth off l 0 :: slice (S off) n l.
Proof.
  intros Hl. unfold slice. destruct (lookup_lt_is_Some_2 l off Hl) as [x Hx].
  rewrite (drop_S l x off Hx). simpl. f_equal. symmetry. by apply nth_lookup_Some.
Qed.

(** The shifts and ors of a little-endian number. *)
Fixpoint ors (acc n : Z) (l : list Z) : Z :=
  match l with [] => acc | b :: l => ors (Z.lor acc (Z.shiftl b n)) (n + 8) l end.

Lemma ors_le acc n l : 0 <= n -> 0 <= acc < 2 ^ n -> byte_list l -> ors acc n l = acc + 2 ^ n * le_Z l.
Proof.
  intros Hn Ha Hl. revert acc n Hn Ha. induction Hl as [|b l Hb _ IH]; intros acc n Hn Ha; simpl; [lia|].
  assert (2 ^ (n + 8) = 2 ^ n * 256) as E by (rewrite Z.pow_add_r by lia; lia).
  rewrite lor_shift, IH by (nia || lia). nia.
Qed.

Lemma byte_slice off n l : byte_list l -> byte_list (slice off n l).
Proof. intros Hl. unfold slice. by apply Forall_take, Forall_drop. Qed.

Section le.
Context (buf : list Z) (Hbytes : byte_list buf).

Lemma le_slice off n :
  (off < length buf)%nat -> le_Z (slice off (S n) buf) = ors (nth off buf 0) 8 (slice (S off) n buf).
Proof using Hbytes.
  intros Hl. pose proof (nth_byte buf off Hbytes). rewrite ors_le by (lia || by apply byte_slice). by rewrite slice_S.
Qed.

Ltac le_read := rewrite le_slice by lia; repeat (rewrite slice_S by lia);
  rewrite ?Nat.add_succ_r, ?Nat.add_0_r; reflexivity.

Lemma readLE16_ok off : (off + 2 <= length buf)%nat -> readLE16 buf off = Uint16 off buf.
Proof using Hbytes. intros Hl. unfold readLE16, Uint16. rewrite (proj2 (Nat.ltb_ge _ _)) by lia. le_read. Qed.

Lemma readLE32_ok off : (off + 4 <= length buf)%nat -> readLE32 buf off = Uint32 off buf.
Proof using Hbytes. intros Hl. unfold readLE32, Uint32. rewrite (proj2 (Nat.ltb_ge _ _)) by lia. le_read. Qed.

Lemma readLE64_ok off : (off + 8 <= length buf)%nat -> readLE64 buf off = Uint64 off buf.
Proof using Hbytes. intros Hl. unfold readLE64, Uint64. rewrite (proj2 (Nat.ltb_ge _ _)) by lia. le_read. Qed.

Lemma find_nul_ge i n j : find_nul buf i n = Some j -> (i <= j)%nat.
Proof.
  revert i. induction n as [|n IH]; intros i; simpl; [done|]. case_match; [by intros [= ->]|]. intros ?%IH. lia.
Qed.

Lemma find_nul_cbytes i n : (i + n <= length buf)%nat ->
  cbytes (slice i n buf) = slice i (match find_nul buf i n with Some j => j - i | None => n end) buf.
Proof.
  revert i. induction n as [|n IH]; intros i Hl; [done|]. rewrite slice_S by lia. cbn [cbytes find_nul].
  case_match; [by rewrite Nat.sub_diag|]. rewrite IH by lia. destruct (find_nul buf (S i) n) as [j|] eqn:E.
  - apply find_nul_ge in E. replace (j - i)%nat with (S (j - S i)) by lia. by rewrite slice_S by lia.
  - by rewrite slice_S by lia.
Qed.

Lemma cString_ok off n : (off + n <= length buf)%nat -> p_cString buf off n = cString (slice off n buf).
Proof.
  intros Hl. unfold p_cString, cString. rewrite Nat.min_l by lia. replace (off + n - off)%nat with n by lia.
  rewrite find_nul_cbytes by done. by destruct (find_nul buf off n).
Qed.

(** The fields both decoders have; the path is compared before it is normalised. *)
Definition agrees (p : PEvent) (e : Event) : Prop :=
  p_Type p = Type_ e /\ p_Flags p = Flags e /\ p_TimestampNs p = TimestampNS e /\ p_Pid p = PID e /\ p_Tid p = TID e /\
  p_Ppid p = PPID e /\ p_Uid p = UID e /\ p_Gid p = GID e /\ p_Inode p = Inode e /\ p_DevMajor p = DevMajor e /\
  p_DevMinor p = DevMinor e /\ p_Mode p = Mode e /\ p_FFlags p = FFlags e /\ p_ChildPid p = ChildPID e /\
  p_Saddr p = Saddr e /\ p_Daddr p = Daddr e /\ p_Sport p = Sport e /\ p_Dport p = Dport e /\ p_Protocol p = Protocol e /\
  p_Comm p = Comm e /\
  (p_Pathname p = Pathname e \/
   isPathBackedEvent (Type_ e) = true /\ pathUnavailable (p_Pathname p) = true /\ Inode e <> 0).

Lemma agrees_normalize p e : agrees p e -> p_Pathname p = Pathname e -> agrees p (normalizePathname e).
Proof.
  intros Ha Hp. unfold normalizePathname.
  destruct (negb (isPathBackedEvent (Type_ e)) || _) eqn:Hc; [done|].
  apply orb_false_iff in Hc as [Hb%negb_false_iff Hu%negb_false_iff]. rewrite <-Hp in Hu.
  destruct (Z.eqb_spec (Inode e) 0) as [|Hi]; [done|]. unfold agrees in *. simpl. tauto.
Qed.

(** [C37] The hand-written decoder and the decoder of the pipeline reject the same records
    and agree on every field they share; the path differs only where the pipeline
    replaces an unusable one by the inode. *)
Theorem raw_decoders_agree :
  match RawEventToProto buf, ParseRawEvent buf with
  | None, inl _ => True
  | Some p, inr e => agrees p e
  | _, _ => False
  end.
Proof using Hbytes.
  unfold RawEventToProto, ParseRawEvent. change eventTotalSize with 340%nat.
  destruct (Nat.ltb_spec (length buf) 340) as [Hl|Hl]; [done|].
  rewrite !readLE64_ok, !readLE32_ok, !readLE16_ok, !cString_ok by lia.
  apply agrees_normalize; [|done]. unfold agrees. simpl. auto 30.
Qed.
End le.

(** A record of 340 bytes, and a shorter one. *)
Definition raw_sample : list Z := Events.encode sample_kevent.

Lemma raw_decoders_agree_witness :
  match RawEventToProto raw_sample, ParseRawEvent raw_sample with
  | None, inl _ => True
  | Some p, inr e => agrees p e
  | _, _ => False
  end /\ RawEventToProto (take 339 raw_sample) = None.
Proof.
  split; [|by vm_compute]. apply (raw_decoders_agree raw_sample).
  apply Forall_forall. intros b Hb. apply list_elem_of_In in Hb.
  revert b Hb. apply List.Forall_forall. vm_compute. repeat constructor; discriminate.
Defined.
