(* ===== verification/PebbleConfig.v ===== *)
(** * Options of the second store ([internal/storage/pebblestore/config.go])

    The option records the three configurations hand to the database, as values: sizes,
    thresholds, and per level the compression, the target size and the bits per key of
    the Bloom filter. *)
From S2P Require Import Prelude.

Inductive Compression := NoCompression | SnappyCompression | ZstdCompression.

Record LevelOptions := mkLO {
  BlockSize : Z; LCompression : option Compression; TargetFileSize : Z; FilterPolicy : option Z }.

Record Options := mkO {
  MemTableSize : Z; MemTableStopWritesThreshold : Z; L0CompactionThreshold : Z; L0StopWritesThreshold : Z;
  MaxConcurrentCompactions : Z -> Z;   (* of [runtime.NumCPU()] *)
  DisableWAL : bool; Levels : list LevelOptions; CacheOf : option Z }.

Definition max_compactions (cpus : Z) : Z :=
  let n := Z.quot cpus 2 in if n <? 2 then 2 else if 8 <? n then 8 else n.

Definition DefaultPebbleOptions : Options := mkO (64 * 1024 * 1024) 4 2 4 max_compactions true [] None.

Definition WithBloomFilters (bitsPerKey : Z) (o : Options) : Options :=
  let bits := if bitsPerKey <=? 0 then 10 else bitsPerKey in
  mkO (MemTableSize o) (MemTableStopWritesThreshold o) (L0CompactionThreshold o) (L0StopWritesThreshold o)
    (MaxConcurrentCompactions o) (DisableWAL o)
    ((fun l => mkLO (BlockSize l) (LCompression l) (TargetFileSize l) (Some bits)) <$> Levels o) (CacheOf o).

Record CompactionConfig := mkCC {
  L0FileCount : Z; BaseLevelSize : Z; LevelSizeMultiplier : Z;
  NoCompressionL0 : bool; cSnappy : bool; cZstd : bool; MaxLevels : Z }.

Definition DefaultCompactionConfig : CompactionConfig := mkCC 4 (64 * 1024 * 1024) 10 true true true 7.

Definition level_options (cfg : CompactionConfig) (i : nat) : LevelOptions :=
  mkLO (16 * 1024)
    (Some (if (i =? 0)%nat && NoCompressionL0 cfg then NoCompression
           else if (i <=? 2)%nat && cSnappy cfg then SnappyCompression
           else if cZstd cfg then ZstdCompression else SnappyCompression))
    (2 * 1024 * 1024 * (Z.of_nat i + 1)) (Some 10).

Definition ApplyCompactionConfig (cfg : option CompactionConfig) (o : Options) : Options :=
  let cfg := default DefaultCompactionConfig cfg in
  mkO (MemTableSize o) (MemTableStopWritesThreshold o) (L0CompactionThreshold o) (L0StopWritesThreshold o)
    (MaxConcurrentCompactions o) (DisableWAL o) (level_options cfg <$> seq 0 (Z.to_nat (MaxLevels cfg))) (CacheOf o).

Definition detectMemoryMB : Z := 8192.

Definition CacheSize_of (total : Z) : Z :=
  if 16384 <=? total then 1024 * 1024 * 1024
  else if 8192 <=? total then 512 * 1024 * 1024
  else if 4096 <=? total then 256 * 1024 * 1024 else 128 * 1024 * 1024.
Definition CacheSize : Z := CacheSize_of detectMemoryMB.

(** [NewCache]: the size the cache is made with. *)
Definition NewCache (size : Z) : Z := if size <=? 0 then CacheSize else size.

Definition set_cache (c : Z) (o : Options) : Options :=
  mkO (MemTableSize o) (MemTableStopWritesThreshold o) (L0CompactionThreshold o) (L0StopWritesThreshold o)
    (MaxConcurrentCompactions o) (DisableWAL o) (Levels o) (Some c).
Definition set_l0 (c s : Z) (o : Options) : Options :=
  mkO (MemTableSize o) (MemTableStopWritesThreshold o) c s (MaxConcurrentCompactions o) (DisableWAL o) (Levels o) (CacheOf o).
Definition set_wal (d : bool) (o : Options) : Options :=
  mkO (MemTableSize o) (MemTableStopWritesThreshold o) (L0CompactionThreshold o) (L0StopWritesThreshold o)
    (MaxConcurrentCompactions o) d (Levels o) (CacheOf o).

Definition HighThroughputConfig : Options :=
  ApplyCompactionConfig (Some DefaultCompactionConfig)
    (WithBloomFilters 10 (set_cache (NewCache CacheSize) DefaultPebbleOptions)).
Definition LowLatencyConfig : Options :=
  ApplyCompactionConfig (Some DefaultCompactionConfig)
    (set_l0 2 4 (WithBloomFilters 20 (set_cache (NewCache (CacheSize * 2)) DefaultPebbleOptions))).
Definition BalancedConfig : Options :=
  set_wal false (ApplyCompactionConfig (Some DefaultCompactionConfig)
    (WithBloomFilters 10 (set_cache (NewCache CacheSize) DefaultPebbleOptions))).

(** The filters are set before the levels exist, and the levels are made with 10 bits:
    the 20 bits of the low-latency configuration are lost. *)
Lemma low_latency_bloom : FilterPolicy <$> Levels LowLatencyConfig = replicate 7 (Some 10).
Proof. reflexivity. Qed.

(** For any bits: filters set before the levels are made do not matter. *)
Lemma bloom_before_levels bits cfg o :
  Levels (ApplyCompactionConfig cfg (WithBloomFilters bits o)) = Levels (ApplyCompactionConfig cfg o).
Proof. reflexivity. Qed.

Lemma max_compactions_bounds cpus : 2 <= max_compactions cpus <= 8.
Proof.
  unfold max_compactions. destruct (Z.ltb_spec (Z.quot cpus 2) 2); [lia|].
  destruct (Z.ltb_spec 8 (Z.quot cpus 2)); lia.
Qed.

(** More memory never means a smaller cache. *)
Lemma CacheSize_mono a b : a <= b -> CacheSize_of a <= CacheSize_of b.
Proof.
  intros Hab. unfold CacheSize_of.
  repeat match goal with |- context [?x <=? ?y] => destruct (Z.leb_spec x y) end; lia.
Qed.
