(* ===== verification/Blast.v ===== *)
(** * Lateral movement ([internal/policy/blastradius])

    The blast radius of a compromised host ([blast.go]): a breadth-first search over the
    declared lateral edges that collects the resources of every host met.  Anomalous
    paths ([path.go]): a path of host roles is reported unless it is one of the known
    templates.  Credential theft ([credential.go]): a remote login is attached to a
    credential dump on its source host within a window.  Identifiers and timestamps come
    from the clock, which is an argument. *)
From S2P Require Import Prelude GoStrings Bfs.

(** ** The blast radius *)

Record LateralEdge := mkLat {
  SourceHost : string; TargetHost : string; le_Relation : string; le_PID : Z; le_Comm : string; le_Tainted : bool }.

(** The risk score is a small integer, which a float64 holds exactly. *)
Record HostImpact := mkHI {
  HostID : string; Processes : list string; hi_Files : list string; Networks : list string;
  IsCritical : bool; RiskScore : Z }.

Record BlastRadiusResult := mkBR {
  RootNode : string; RootHost : string; AffectedHosts : list HostImpact; TotalHosts : Z; TotalAssets : Z; MaxDepth : Z }.

Record BlastRadiusEngine := mkBE { be_maxDepth : Z; be_maxHosts : Z }.
Definition NewBlastRadiusEngine : BlastRadiusEngine := mkBE 10 10.

(** [unique]: the first occurrence of each string. *)
Fixpoint unique_from (seen : gset string) (l : list string) : list string :=
  match l with
  | [] => []
  | v :: l => if decide (v ∈ seen) then unique_from seen l else v :: unique_from ({[v]} ∪ seen) l
  end.
Definition unique (l : list string) : list string := unique_from ∅ l.

Definition pid_text (comm : string) (pid : Z) : string := comm +:+ "(PID " +:+ pretty pid +:+ ")".

Definition getHostProcesses (hostID : string) (edges : list LateralEdge) : list string :=
  unique (omap (fun e => if bool_decide (SourceHost e = hostID) && negb (bool_decide (le_Comm e = ""))
                         then Some (pid_text (le_Comm e) (le_PID e)) else None) edges).

Definition getHostFiles (hostID : string) (edges : list LateralEdge) : list string :=
  unique (omap (fun e => if bool_decide (SourceHost e = hostID) && le_Tainted e && negb (bool_decide (le_Comm e = ""))
                         then if bool_decide (le_Relation e = "scp") || bool_decide (le_Relation e = "rsync")
                              then Some ("transferred_by_" +:+ pid_text (le_Comm e) (le_PID e)) else None
                         else None) edges).

Definition getHostNetworks (hostID : string) (edges : list LateralEdge) : list string :=
  unique (omap (fun e => if bool_decide (SourceHost e = hostID) && le_Tainted e
                         then Some ("lateral_" +:+ le_Relation e +:+ "_to_" +:+ TargetHost e) else None) edges).

Definition calcHostRisk (procs files nets : list string) : Z :=
  let score := Z.of_nat (length procs) * 10 + Z.of_nat (length files) * 5 + Z.of_nat (length nets) * 15 in
  if 100 <? score then 100 else score.

Definition host_impact (edges : list LateralEdge) (host : string) : HostImpact :=
  let p := getHostProcesses host edges in let f := getHostFiles host edges in let n := getHostNetworks host edges in
  let r := calcHostRisk p f n in mkHI host p f n (50 <? r) r.

(** The loop over the queue of hosts with their depth and path. *)
Fixpoint blast_loop (fuel : nat) (bre : BlastRadiusEngine) (edges : list LateralEdge)
    (queue : list (string * nat * list string)) (visited : gset string) (hosts : list HostImpact) : list HostImpact :=
  match fuel, queue with
  | S fuel, (host, depth, path) :: queue =>
      if decide (host ∈ visited) then blast_loop fuel bre edges queue visited hosts
      else
        let visited := {[host]} ∪ visited in
        let hosts := hosts ++ [host_impact edges host] in
        if (0 <? be_maxHosts bre) && (be_maxHosts bre <=? Z.of_nat (length hosts))
        then blast_loop fuel bre edges queue visited hosts
        else if be_maxDepth bre <=? Z.of_nat depth then blast_loop fuel bre edges queue visited hosts
        else blast_loop fuel bre edges
               (queue ++ omap (fun e => if bool_decide (SourceHost e = host) && negb (bool_decide (TargetHost e ∈ visited))
                                        then Some (TargetHost e, S depth, path ++ [TargetHost e]) else None) edges)
               visited hosts
  | _, _ => hosts
  end.

(** One turn per queued host: the root and at most one per edge. *)
Definition Calculate (rootNode rootHost : string) (lateralEdges : list LateralEdge) (bre : BlastRadiusEngine)
  : BlastRadiusResult :=
  let hosts := blast_loop (S (length lateralEdges)) bre lateralEdges [(rootHost, 0%nat, [rootHost])] ∅ [] in
  mkBR rootNode rootHost hosts (Z.of_nat (length hosts))
    (foldl (fun n h => n + (Z.of_nat (length (Processes h)) + Z.of_nat (length (hi_Files h)) + Z.of_nat (length (Networks h)))) 0 hosts)
    (be_maxDepth bre).

(** ** The search it performs *)

Definition lateral (host : string) (e : LateralEdge) : option string :=
  if bool_decide (SourceHost e = host) then Some (TargetHost e) else None.
Definition targets (edges : list LateralEdge) (host : string) : list string := omap (lateral host) edges.

Definition host_limit (bre : BlastRadiusEngine) : option nat :=
  if 0 <? be_maxHosts bre then Some (Z.to_nat (be_maxHosts bre)) else None.

Lemma push_targets edges x vis :
  push (targets edges) x vis =
  omap (fun e => if bool_decide (SourceHost e = x.1.1) && negb (bool_decide (TargetHost e ∈ ids vis))
                 then Some (TargetHost e, S x.1.2, x.2 ++ [TargetHost e]) else None) edges.
Proof.
  unfold push, targets. induction edges as [|e l IH]; [done|]. rewrite !omap_step, <-IH. clear IH. unfold lateral at 1.
  case_bool_decide as Hs; simpl; [|done]. rewrite filter_cons. case_bool_decide as Hv; simpl.
  - by rewrite decide_False by tauto.
  - by rewrite decide_True by done.
Qed.

Lemma blast_loop_bfs bre edges fuel queue vis visited :
  (forall h, h ∈ visited <-> h ∈ ids vis) ->
  blast_loop fuel bre edges queue visited (host_impact edges <$> ids vis) =
  host_impact edges <$> ids (bfs (targets edges) (Z.to_nat (be_maxDepth bre)) (host_limit bre) fuel queue vis).
Proof.
  revert queue vis visited. induction fuel as [|fuel IH]; intros queue vis visited Hv; [done|].
  destruct queue as [|[[h d] p] queue]; [done|]. cbn [blast_loop bfs fst snd].
  destruct (decide (h ∈ visited)) as [Hh|Hh]; [rewrite decide_True by (by apply Hv); by apply IH|].
  rewrite decide_False by (by rewrite <-Hv).
  assert (forall h', h' ∈ {[h]} ∪ visited <-> h' ∈ ids (vis ++ [(h, d, p)])) as Hv'.
  { intros h'. unfold ids in *. rewrite fmap_app, elem_of_app, elem_of_union, elem_of_singleton, Hv. simpl. rewrite list_elem_of_singleton. tauto. }
  assert ((host_impact edges <$> ids vis) ++ [host_impact edges h] = host_impact edges <$> ids (vis ++ [(h, d, p)])) as E
    by (unfold ids; by rewrite !fmap_app).
  rewrite E. unfold open, host_limit.
  assert (length (host_impact edges <$> ids (vis ++ [(h, d, p)])) = length (vis ++ [(h, d, p)])) as El
    by (unfold ids; by rewrite !length_fmap).
  rewrite El. set (n := length (vis ++ [(h, d, p)])).
  assert ((0 <? be_maxHosts bre) && (be_maxHosts bre <=? Z.of_nat n) = negb
    match (if 0 <? be_maxHosts bre then Some (Z.to_nat (be_maxHosts bre)) else None) with Some l => (n <? l)%nat | None => true end) as ->.
  { destruct (Z.ltb_spec 0 (be_maxHosts bre)); simpl; [|done].
    destruct (Nat.ltb_spec n (Z.to_nat (be_maxHosts bre))), (Z.leb_spec (be_maxHosts bre) (Z.of_nat n)); done || lia. }
  destruct (match (if 0 <? be_maxHosts bre then _ else _) with Some l => _ | None => _ end); simpl;
    [|rewrite app_nil_r; by apply IH].
  assert ((be_maxDepth bre <=? Z.of_nat d) = negb (d <? Z.to_nat (be_maxDepth bre))%nat) as ->.
  { destruct (Nat.ltb_spec d (Z.to_nat (be_maxDepth bre))), (Z.leb_spec (be_maxDepth bre) (Z.of_nat d)); done || lia. }
  destruct (d <? Z.to_nat (be_maxDepth bre))%nat; simpl; [|rewrite app_nil_r; by apply IH].
  rewrite push_targets. simpl. rewrite <-(IH _ _ ({[h]} ∪ visited)) by done. do 2 f_equal.
  apply list_omap_ext. apply Forall2_same_length_lookup_2; [done|]. intros i e e' He He'. simplify_eq.
  by rewrite (bool_decide_ext _ _ (Hv' (TargetHost e))).
Qed.

Lemma targets_bound edges vs :
  NoDup vs -> (sum_list_with (fun v => length (targets edges v)) vs <= length edges)%nat.
Proof.
  intros Hnd. pose proof (push_bound lateral 1) as Hb. unfold targets.
  etrans; [apply Hb; [|done]|lia]. intros e ws Hws. apply (filter_few _ [SourceHost e]); [|done].
  intros v [w Hw]. unfold lateral in Hw. case_bool_decide; [|done]. subst. by left.
Qed.

(** The hosts that lateral edges reach from the root within the depth. *)
Definition within (bre : BlastRadiusEngine) (edges : list LateralEdge) (root h : string) : Prop :=
  exists k, walk root (targets edges) k h /\ Z.of_nat k <= Z.max 0 (be_maxDepth bre).

(** The blast radius has each host once, only hosts within the depth, with the
    resources the edges declare; when these hosts are no more than the limit, or there is
    none, it has all of them, nearest first. *)
Lemma blast_exact (bre : BlastRadiusEngine) (edges : list LateralEdge) (node root : string) :
  let r := Calculate node root edges bre in
  let hs := HostID <$> AffectedHosts r in
  AffectedHosts r = host_impact edges <$> hs /\ NoDup hs /\
  (forall h, h ∈ hs -> within bre edges root h) /\
  TotalHosts r = Z.of_nat (length hs) /\
  ((be_maxHosts bre <= 0 \/ exists l, (forall h, within bre edges root h -> h ∈ l) /\ Z.of_nat (length l) <= be_maxHosts bre) ->
   forall h, within bre edges root h -> h ∈ hs).
Proof.
  cbv zeta. set (D := Z.to_nat (be_maxDepth bre)). set (L := host_limit bre).
  set (out := search root (targets edges) D L (S (length edges))).
  assert (AffectedHosts (Calculate node root edges bre) = host_impact edges <$> ids out) as E.
  { apply (blast_loop_bfs bre edges (S (length edges)) [(root, 0%nat, [root])] [] ∅). set_solver. }
  assert (HostID <$> AffectedHosts (Calculate node root edges bre) = ids out) as E'.
  { rewrite E, <-list_fmap_compose. rewrite <-(list_fmap_id (ids out)) at 2. by apply list_fmap_ext. }
  destruct (bfs_search_spec root (targets edges) D L (length edges) (targets_bound edges) (S (length edges))) as (Hnd & _ & Hp & Hc); [done|].
  fold out in Hnd, Hp, Hc. rewrite E'.
  assert (forall h, h ∈ ids out -> within bre edges root h) as Hw.
  { intros h (x & Hx & <-)%elem_ids. destruct (Hp x Hx) as [Hx1%wpath_walk Hx2]. exists x.1.2. split; [done|]. unfold D in Hx2. lia. }
  split_and!; [done|done|done|..].
  { change (Z.of_nat (length (AffectedHosts (Calculate node root edges bre))) = Z.of_nat (length (ids out))). by rewrite E, length_fmap. }
  intros Hlim h Hh. destruct Hc as [Hl|Hc].
  - unfold limited, L, host_limit in Hl. destruct (Z.ltb_spec 0 (be_maxHosts bre)) as [Hm|Hm]; [|done].
    destruct Hlim as [?|(l & Hl1 & Hl2)]; [lia|]. apply Hl1 in Hh.
    assert (ids out ⊆+ l) as Hsub by (apply NoDup_submseteq; [done|]; intros v Hv; by apply Hl1, Hw).
    assert (length (ids out) = length out) by (unfold ids; by rewrite length_fmap).
    assert (ids out ≡ₚ l) as Hperm by (apply submseteq_length_Permutation; [done|lia]). by rewrite Hperm.
  - destruct Hh as (k & Hk & Hd). destruct (Hc k h Hk) as (x & Hx & E1 & _); [unfold D; lia|]. apply elem_ids. eauto.
Qed.

(** The limit does not bound the result: hosts already queued are still taken. *)
Definition star (n : nat) : list LateralEdge :=
  (fun i => mkLat "root" ("h" +:+ pretty (Z.of_nat i)) "ssh" 1 "ssh" true) <$> seq 0 n.

Example limit_exceeded : TotalHosts (Calculate "n" "root" (star 20) NewBlastRadiusEngine) = 21.
Proof. vm_compute. reflexivity. Qed.

(** ** Anomalous paths *)

Record PathTemplate := mkPT { pt_Name : string; Segments : list string }.

Definition DefaultPathTemplates : list PathTemplate :=
  [mkPT "user>>eb>>pi>>b" ["user-pc"; "web-server"; "api-server"; "database"];
   mkPT "dev>>est>>rod" ["developer-pc"; "test-server"; "production-server"];
   mkPT "admin>>ump>>arget" ["admin-pc"; "jump-server"; "target-server"];
   mkPT "monitoring>>arget" ["monitoring-server"; "target-server"]].

Record PathAlert := mkPA {
  pa_ID : string; pa_Path : list string; pa_Description : string; Suspected : string; pa_Severity : string; pa_Timestamp : time }.
Record AnomalousPathDetector := mkAPD { apd_templates : list PathTemplate; apd_alerts : list PathAlert }.
Definition NewAnomalousPathDetector : AnomalousPathDetector := mkAPD DefaultPathTemplates [].

(** The index loop of [matchTemplate]. *)
Definition matchTemplate (roles template : list string) : bool :=
  if negb (length roles =? length template)%nat then false
  else forallb (fun '(r, t) => bool_decide (r = t)) (zip roles template).

Definition describeJumps (path roles : list string) : list string :=
  imap (fun i p => match roles !! i with Some r => p +:+ "(" +:+ r +:+ ")" | None => p end) path.

Fixpoint classifyAnomaly (roles : list string) : string :=
  match roles with
  | [] => "unexpected_path"
  | role :: roles =>
      if bool_decide (role = "jump-server") || bool_decide (role = "bastion") then "jump"
      else if bool_decide (role = "production-server") || bool_decide (role = "database") then "escalation"
      else classifyAnomaly roles
  end.

(** [idNow] and [now]: the two readings of the clock. *)
Definition CheckPath (idNow now : time) (path roles : list string) (d : AnomalousPathDetector)
  : AnomalousPathDetector * option PathAlert :=
  if (length path <? 2)%nat then (d, None)
  else if existsb (fun t => matchTemplate roles (Segments t)) (apd_templates d) then (d, None)
  else
    let a := mkPA ("PATH-" +:+ pretty (time_UnixNano idNow)) path
               ("Anomalous path: " +:+ Join " -> " (describeJumps path roles)) (classifyAnomaly roles) "HIGH" now in
    (mkAPD (apd_templates d) (apd_alerts d ++ [a]), Some a).

Lemma matchTemplate_eq roles template : matchTemplate roles template = true <-> roles = template.
Proof.
  unfold matchTemplate. destruct (Nat.eqb_spec (length roles) (length template)) as [Hl|Hl]; simpl.
  - revert template Hl. induction roles as [|r roles IH]; intros [|t template] Hl; try done. simpl.
    rewrite andb_true_iff, bool_decide_eq_true, IH by (by injection Hl). naive_solver.
  - split; [done|]. by intros ->.
Qed.

(** A path of two hosts or more is reported exactly when its roles are no known template,
    and every report is kept. *)
Lemma path_exact idNow now path roles d :
  (is_Some (CheckPath idNow now path roles d).2 <->
     (2 <= length path)%nat /\ forall t, t ∈ apd_templates d -> Segments t <> roles) /\
  apd_alerts (CheckPath idNow now path roles d).1 =
    apd_alerts d ++ option_list (CheckPath idNow now path roles d).2.
Proof.
  unfold CheckPath. destruct (Nat.ltb_spec (length path) 2) as [Hl|Hl]; simpl.
  { split; [|by rewrite app_nil_r]. split; [by intros [? ?]|lia]. }
  destruct (existsb _ _) eqn:He; simpl.
  - split; [|by rewrite app_nil_r]. apply existsb_exists in He as (t & Ht & Hm). apply matchTemplate_eq in Hm.
    split; [by intros [? ?]|]. intros [_ Hn]. destruct (Hn t); [by apply list_elem_of_In|done].
  - split; [|done]. split; [|by eexists]. intros _. split; [done|]. intros t Ht E.
    assert (existsb (fun t => matchTemplate roles (Segments t)) (apd_templates d) = true); [|congruence].
    apply existsb_exists. exists t. split; [by apply list_elem_of_In|]. by apply matchTemplate_eq.
Qed.

(** ** Credential theft *)

Record LSASSEvent := mkLsass { ls_ID : string; ls_HostID : string; ls_PID : Z; ls_Comm : string; ls_Timestamp : time }.
Record RemoteLoginEvent := mkLogin {
  rl_ID : string; rl_SourceHost : string; rl_TargetHost : string; rl_Identity : string; rl_PID : Z; rl_Comm : string; rl_Timestamp : time }.
Record CredentialIncident := mkCI {
  ci_ID : string; ci_LSASS : LSASSEvent; RemoteLogins : list RemoteLoginEvent; ci_Identity : string;
  ci_FirstSeen : time; ci_LastSeen : time; Alerted : bool }.
Record CredentialCorrelator := mkCCor {
  cc_lsass : list LSASSEvent; cc_logins : list RemoteLoginEvent; cc_incidents : list CredentialIncident; cc_window : duration }.

Definition NewCredentialCorrelator : CredentialCorrelator := mkCCor [] [] [] (60 * Minute).

(** The clock is read three times: for the identifier of the event, its timestamp and the
    identifier of the incident. *)
Definition RecordLSASS (t1 t2 t3 : time) (hostID : string) (pid : Z) (comm : string) (cc : CredentialCorrelator)
  : CredentialCorrelator * CredentialIncident :=
  let evt := mkLsass ("LSASS-" +:+ pretty (time_UnixNano t1)) hostID pid comm t2 in
  let inc := mkCI ("CRED-" +:+ pretty (time_UnixNano t3)) evt [] "unknown" t2 t2 false in
  (mkCCor (cc_lsass cc ++ [evt]) (cc_logins cc) (cc_incidents cc ++ [inc]) (cc_window cc), inc).

(** The loop over the incidents: the first open one in the window on the source host. *)
Fixpoint correlate (w : duration) (evt : RemoteLoginEvent) (l : list CredentialIncident)
  : list CredentialIncident * option CredentialIncident :=
  match l with
  | [] => ([], None)
  | inc :: l =>
      let skip := let '(l, r) := correlate w evt l in (inc :: l, r) in
      if Alerted inc then skip
      else if w <? time_Sub (rl_Timestamp evt) (ci_FirstSeen inc) then skip
      else if bool_decide (ls_HostID (ci_LSASS inc) = rl_SourceHost evt)
      then let inc := mkCI (ci_ID inc) (ci_LSASS inc) (RemoteLogins inc ++ [evt]) (rl_Identity evt) (ci_FirstSeen inc)
                        (rl_Timestamp evt) true in
           (inc :: l, Some inc)
      else skip
  end.

Definition RecordRemoteLogin (t1 t2 : time) (sourceHost targetHost identity : string) (pid : Z) (comm : string)
    (cc : CredentialCorrelator) : CredentialCorrelator * option CredentialIncident :=
  let evt := mkLogin ("LOGIN-" +:+ pretty (time_UnixNano t1)) sourceHost targetHost identity pid comm t2 in
  let '(incs, r) := correlate (cc_window cc) evt (cc_incidents cc) in
  (mkCCor (cc_lsass cc) (cc_logins cc ++ [evt]) incs (cc_window cc), r).

(** An incident that a login can still join. *)
Definition joins (w : duration) (evt : RemoteLoginEvent) (inc : CredentialIncident) : Prop :=
  Alerted inc = false /\ time_Sub (rl_Timestamp evt) (ci_FirstSeen inc) <= w /\ ls_HostID (ci_LSASS inc) = rl_SourceHost evt.

(** An open incident has no login, a reported one exactly one, from its host and in time. *)
Definition incident_ok (w : duration) (inc : CredentialIncident) : Prop :=
  if Alerted inc
  then exists evt, RemoteLogins inc = [evt] /\ rl_SourceHost evt = ls_HostID (ci_LSASS inc) /\
       time_Sub (rl_Timestamp evt) (ci_FirstSeen inc) <= w /\ ci_Identity inc = rl_Identity evt /\ ci_LastSeen inc = rl_Timestamp evt
  else RemoteLogins inc = [].

Lemma correlate_exact w evt l l' r :
  Forall (incident_ok w) l -> correlate w evt l = (l', r) ->
  Forall (incident_ok w) l' /\ ci_LSASS <$> l' = ci_LSASS <$> l /\
  match r with
  | None => l' = l /\ Forall (fun inc => ~ joins w evt inc) l
  | Some inc => exists l1 inc0 l2, l = l1 ++ inc0 :: l2 /\ l' = l1 ++ inc :: l2 /\
      Forall (fun inc => ~ joins w evt inc) l1 /\ joins w evt inc0 /\ RemoteLogins inc = [evt]
  end.
Proof.
  revert l' r. induction l as [|inc l IH]; intros l' r Hok Hc; simpl in Hc; [injection Hc as <- <-; done|].
  apply Forall_cons in Hok as [Hi Hok].
  assert (~ joins w evt inc -> (let '(l, r) := correlate w evt l in (inc :: l, r)) = (l', r) ->
    Forall (incident_ok w) l' /\ ci_LSASS <$> l' = ci_LSASS <$> inc :: l /\
    match r with
    | None => l' = inc :: l /\ Forall (fun inc => ~ joins w evt inc) (inc :: l)
    | Some i => exists l1 inc0 l2, inc :: l = l1 ++ inc0 :: l2 /\ l' = l1 ++ i :: l2 /\
        Forall (fun inc => ~ joins w evt inc) l1 /\ joins w evt inc0 /\ RemoteLogins i = [evt]
    end) as Hskip.
  { intros Hn. destruct (correlate w evt l) as [l0 r0] eqn:E. intros [= <- <-]. destruct (IH l0 r0 Hok eq_refl) as (H1 & H2 & H3).
    split_and!; [by constructor|by rewrite !fmap_cons, H2|]. destruct r0 as [i|].
    - destruct H3 as (l1 & inc0 & l2 & -> & -> & ? & ? & ?). exists (inc :: l1), inc0, l2. split_and!; [done..|by constructor|done|done].
    - destruct H3 as [-> ?]. split; [done|by constructor]. }
  destruct (Alerted inc) eqn:Ha; [apply Hskip; [|done]; intros [? _]; congruence|].
  destruct (Z.ltb_spec w (time_Sub (rl_Timestamp evt) (ci_FirstSeen inc))) as [Hw|Hw]; [apply Hskip; [|done]; intros (_ & ? & _); lia|].
  case_bool_decide as Hh; [|apply Hskip; [|done]; by intros (_ & _ & ?)].
  injection Hc as <- <-. unfold incident_ok in Hi. rewrite Ha in Hi. split_and!; [|done|].
  - constructor; [|done]. simpl. exists evt. rewrite Hi. by split_and!.
  - exists [], inc, l. split_and!; [done..|constructor|done|]. simpl. by rewrite Hi.
Qed.

(** The incidents after any sequence of dumps and logins. *)
Inductive cred_run : CredentialCorrelator -> Prop :=
| cr_new : cred_run NewCredentialCorrelator
| cr_dump cc t1 t2 t3 h p c : cred_run cc -> cred_run (RecordLSASS t1 t2 t3 h p c cc).1
| cr_login cc t1 t2 s t i p c : cred_run cc -> cred_run (RecordRemoteLogin t1 t2 s t i p c cc).1.

(** Each credential dump has one incident, which has at most one login: the first from
    that host in the window that no earlier incident took. *)
Lemma incidents_ok cc :
  cred_run cc -> Forall (incident_ok (cc_window cc)) (cc_incidents cc) /\ ci_LSASS <$> cc_incidents cc = cc_lsass cc.
Proof.
  induction 1 as [|cc t1 t2 t3 h p c _ [IH1 IH2]|cc t1 t2 s t i p c _ [IH1 IH2]]; [done|..].
  - simpl. split; [apply Forall_app; split; [done|by repeat constructor]|]. by rewrite fmap_app, IH2.
  - unfold RecordRemoteLogin. destruct (correlate _ _ _) as [l r] eqn:E. simpl.
    destruct (correlate_exact _ _ _ _ _ IH1 E) as (H1 & H2 & _). split; [done|congruence].
Qed.
