(* ===== verification/GraphDb.v ===== *)
(** * The in-memory graph database of the server ([internal/storage/graphdb])

    The global graph with its path queries ([graphdb.go]), the indexes by host, address
    and identity ([index.go]) and the tiers of records ([lifecycle.go]).  A property value
    is a string or anything else, of which only the printed form matters. *)
From stdpp Require Import sorting.
From S2P Require Import Prelude GoStrings Bfs.

(** ** The graph *)

Inductive prop_val := PStr (s : string) | POther (printed : string).
Definition Sprint (v : prop_val) : string := match v with PStr s => s | POther s => s end.
Definition as_string (v : option prop_val) : option string := match v with Some (PStr s) => Some s | _ => None end.
Abbreviation props := (gmap string prop_val).

Record GlobalNode := mkGN {
  gn_ID : string; gn_Type : string; gn_Label : string; gn_HostID : string; gn_AgentID : string; gn_Props : props; gn_CreatedAt : time }.
Record GlobalEdge := mkGE {
  ge_Source : string; ge_Target : string; ge_Relation : string; ge_HostID : string; ge_Props : props; ge_Time : time }.

Record MemGraphDB := mkMDB { mg_nodes : gmap string GlobalNode; mg_edges : list GlobalEdge }.
Definition NewMemGraphDB : MemGraphDB := mkMDB ∅ [].

Definition CreateNode (now : time) (nodeType id label : string) (p : props) (db : MemGraphDB) : MemGraphDB * string :=
  (mkMDB (<[id := mkGN id nodeType label (default "" (as_string (p !! "host_id"))) (default "" (as_string (p !! "agent_id"))) p now]>
            (mg_nodes db)) (mg_edges db), id).

Definition CreateEdge (now : time) (sourceID targetID relation : string) (p : props) (db : MemGraphDB) : MemGraphDB * string :=
  (mkMDB (mg_nodes db) (mg_edges db ++ [mkGE sourceID targetID relation (default "" (as_string (p !! "host_id"))) p now]),
   "e:" +:+ sourceID +:+ "-" +:+ targetID +:+ "-" +:+ relation).

(** The order in which the query is visited does not matter: all must match. *)
Definition matchProps (nodeProps query : props) : bool :=
  forallb (fun '(k, v) => match nodeProps !! k with Some w => bool_decide (Sprint w = Sprint v) | None => false end)
    (map_to_list query).

Record node_row := mkRow { row_id : string; row_type : string; row_label : string; row_host : string; row_agent : string }.

Definition QueryNodes `{UnicodeCase} `{MapOrder} (label : string) (query : props) (db : MemGraphDB) : list node_row :=
  omap (fun '(_, n) =>
    if EqualFold (gn_Type n) label || bool_decide (label = "") then
      if matchProps (gn_Props n) query then Some (mkRow (gn_ID n) (gn_Type n) (gn_Label n) (gn_HostID n) (gn_AgentID n)) else None
    else None) (range 0 (map_to_list (mg_nodes db))).

(** The other end of an edge, if one end is [id]. *)
Definition other_end (id : string) (e : GlobalEdge) : option string :=
  if bool_decide (ge_Source e = id) then Some (ge_Target e)
  else if bool_decide (ge_Target e = id) then Some (ge_Source e) else None.

(** The loop over the edges: the path as soon as the target is met, or the longer queue. *)
Fixpoint scan_from (es : list GlobalEdge) (target : string) (maxHops : Z) (visited : gset string)
    (id : string) (depth : nat) (path : list string) (queue : list (string * nat * list string))
  : list string + list (string * nat * list string) :=
  match es with
  | [] => inr queue
  | e :: es =>
      match other_end id e with
      | None => scan_from es target maxHops visited id depth path queue
      | Some next =>
          if bool_decide (next = target) then inl (path ++ [next])
          else scan_from es target maxHops visited id depth path
                 (if (Z.of_nat depth <? maxHops) && negb (bool_decide (next ∈ visited))
                  then queue ++ [(next, S depth, path ++ [next])] else queue)
      end
  end.

Fixpoint paths_loop (fuel : nat) (db : MemGraphDB) (target : string) (maxHops : Z)
    (queue : list (string * nat * list string)) (visited : gset string) : option (list string) :=
  match fuel, queue with
  | S fuel, (id, depth, path) :: queue =>
      if decide (id ∈ visited) then paths_loop fuel db target maxHops queue visited
      else match scan_from (mg_edges db) target maxHops ({[id]} ∪ visited) id depth path queue with
           | inl p => Some p
           | inr queue => paths_loop fuel db target maxHops queue ({[id]} ∪ visited)
           end
  | _, _ => None
  end.

(** One turn per queued node: the source and at most two per edge. *)
Definition QueryPaths (sourceID targetID : string) (maxHops : Z) (db : MemGraphDB) : option (list string) :=
  paths_loop (S (2 * length (mg_edges db))) db targetID maxHops [(sourceID, 0%nat, [sourceID])] ∅.

(** ** Subgraphs *)

(** The properties of the report override the two that are added. *)
Definition node_props (n : GlobalNode) : props :=
  gn_Props n ∪ <["host_id" := PStr (gn_HostID n)]> {["agent_id" := PStr (gn_AgentID n)]}.
Definition edge_props (e : GlobalEdge) : props := ge_Props e ∪ {["host_id" := PStr (ge_HostID e)]}.

Definition InsertSubgraph (now : time) (nodes : list GlobalNode) (edges : list GlobalEdge) (db : MemGraphDB) : MemGraphDB :=
  let db := foldl (fun db n => (CreateNode now (gn_Type n) (gn_ID n) (gn_Label n) (node_props n) db).1) db nodes in
  foldl (fun db e => (CreateEdge now (ge_Source e) (ge_Target e) (ge_Relation e) (edge_props e) db).1) db edges.

(** ** Path queries are shortest paths *)

Definition neighbours (db : MemGraphDB) (v : string) : list string := omap (other_end v) (mg_edges db).

Lemma neighbours_bound db vs :
  NoDup vs -> (sum_list_with (fun v => length (neighbours db v)) vs <= 2 * length (mg_edges db))%nat.
Proof.
  apply (push_bound other_end 2). intros e ws Hws. apply (filter_few _ [ge_Source e; ge_Target e]); [|done].
  intros v [w Hw]. unfold other_end in Hw. repeat case_bool_decide; subst; [by left|right; by left|done].
Qed.

Lemma scan_from_spec es target maxHops visited id depth path queue :
  scan_from es target maxHops visited id depth path queue =
  if bool_decide (target ∈ omap (other_end id) es) then inl (path ++ [target])
  else inr (queue ++ (if (depth <? Z.to_nat maxHops)%nat
                      then (fun w => (w, S depth, path ++ [w])) <$> filter (fun w => w ∉ visited) (omap (other_end id) es) else [])).
Proof.
  revert queue. induction es as [|e es IH]; intros queue; cbn [scan_from].
  { rewrite bool_decide_false by apply not_elem_of_nil. by destruct (depth <? _)%nat; rewrite app_nil_r. }
  rewrite omap_step. destruct (other_end id e) as [next|] eqn:En; [|apply IH].
  destruct (decide (next = target)) as [->|Ht].
  { by rewrite (bool_decide_true (target = target)), (bool_decide_true (target ∈ _)) by (done || apply list_elem_of_here). }
  rewrite (bool_decide_false (next = target)), IH by done.
  rewrite (bool_decide_ext (target ∈ next :: omap (other_end id) es) (target ∈ omap (other_end id) es)) by set_solver.
  case_bool_decide; [done|]. f_equal.
  assert ((Z.of_nat depth <? maxHops) = (depth <? Z.to_nat maxHops)%nat) as ->
    by (destruct (Z.ltb_spec (Z.of_nat depth) maxHops), (Nat.ltb_spec depth (Z.to_nat maxHops)); done || lia).
  destruct (depth <? Z.to_nat maxHops)%nat; simpl; [|done]. rewrite filter_cons.
  case_bool_decide as Hv; simpl; [by rewrite decide_False by tauto|]. rewrite decide_True by done. by rewrite <-app_assoc.
Qed.

Definition hits (db : MemGraphDB) (target : string) (x : item) : bool := bool_decide (target ∈ neighbours db x.1.1).
Definition found (target : string) (x : item) : list string := x.2 ++ [target].

(** The loop returns at the first node of the search that has the target as a neighbour. *)
Lemma paths_loop_bfs db target maxHops fuel queue vis visited :
  (forall v, v ∈ visited <-> v ∈ ids vis) ->
  paths_loop fuel db target maxHops queue visited =
  found target <$> List.find (hits db target) (drop (length vis) (bfs (neighbours db) (Z.to_nat maxHops) None fuel queue vis)).
Proof.
  revert queue vis visited. induction fuel as [|fuel IH]; intros queue vis visited Hv; [simpl; by rewrite drop_ge|].
  destruct queue as [|[[v d] p] queue]; [simpl; by rewrite drop_ge|]. cbn [paths_loop bfs fst snd].
  destruct (decide (v ∈ visited)) as [Hh|Hh]; [rewrite decide_True by (by apply Hv); by apply IH|].
  rewrite decide_False by (by rewrite <-Hv).
  assert (forall v', v' ∈ {[v]} ∪ visited <-> v' ∈ ids (vis ++ [(v, d, p)])) as Hv'.
  { intros v'. unfold ids in *. rewrite fmap_app, elem_of_app, elem_of_union, elem_of_singleton, Hv. simpl. rewrite list_elem_of_singleton. tauto. }
  rewrite scan_from_spec. set (vis' := vis ++ [(v, d, p)]) in *.
  set (queue' := queue ++ (if open (Z.to_nat maxHops) None (length vis') d then push (neighbours db) (v, d, p) vis' else [])).
  match goal with |- context [bfs _ _ _ fuel ?q ?w] => change q with queue'; change w with vis' end.
  destruct (bfs_extends (neighbours db) (Z.to_nat maxHops) None fuel queue' vis') as [l El].
  case_bool_decide as Ht.
  - rewrite El. unfold vis'. rewrite <-app_assoc, drop_app_length. simpl. unfold hits at 1. by rewrite bool_decide_true.
  - match goal with |- paths_loop _ _ _ _ ?q _ = _ => assert (q = queue') as -> end.
    2: { rewrite (IH _ vis') by done. rewrite El, drop_app_length. unfold vis'. rewrite <-app_assoc, drop_app_length. simpl.
         unfold hits at 2. by rewrite bool_decide_false. }
    unfold queue', open, push. simpl. destruct (d <? Z.to_nat maxHops)%nat; [|done]. do 2 f_equal.
    apply list_filter_iff. intros w. by rewrite Hv'.
Qed.

Lemma find_first {X} (f : X -> bool) l x :
  List.find f l = Some x -> f x = true /\ exists l1 l2, l = l1 ++ x :: l2 /\ Forall (fun y => f y = false) l1.
Proof.
  induction l as [|a l IH]; simpl; [done|]. destruct (f a) eqn:Ha.
  - intros [= ->]. split; [done|]. exists [], l. split; [done|constructor].
  - intros Hx. destruct (IH Hx) as [? (l1 & l2 & -> & Hl)]. split; [done|]. exists (a :: l1), l2. split; [done|by constructor].
Qed.

(** A path query returns a shortest walk from the source to the target of at least one
    edge and at most one more than the hops asked for, edges taken in both directions;
    and it returns nothing exactly when there is none. *)
Lemma query_paths_exact db source target maxHops :
  match QueryPaths source target maxHops db with
  | Some p => exists k, wpath source (neighbours db) (S k) target p /\ Z.of_nat k <= Z.max 0 maxHops /\
                (forall k', walk source (neighbours db) (S k') target -> (k <= k')%nat)
  | None => forall k, walk source (neighbours db) (S k) target -> Z.max 0 maxHops < Z.of_nat k
  end.
Proof.
  unfold QueryPaths. rewrite (paths_loop_bfs db target maxHops _ _ []) by set_solver. simpl length. rewrite drop_0.
  set (fuel := S (2 * length (mg_edges db))). set (D := Z.to_nat maxHops).
  change (bfs _ _ _ _ _ _) with (search source (neighbours db) D None fuel).
  pose proof (neighbours_bound db) as HB.
  destruct (bfs_search_spec source (neighbours db) D None _ HB fuel) as (Hnd & Hs & Hp & Hc); [done|]. cbv zeta in *.
  destruct Hc as [[]|Hc]. destruct (List.find _ _) as [x|] eqn:Hf; simpl.
  - apply find_first in Hf as [Ht (l1 & l2 & E & Hl1)]. unfold hits in Ht. apply bool_decide_eq_true in Ht.
    destruct (Hp x) as [Hx1 Hx2]; [rewrite E; set_solver|].
    exists x.1.2. split_and!; [by econstructor|unfold D in *; lia|].
    intros k' Hk'. inversion Hk' as [|k0 v w Hv Hin]; subst. destruct (decide (k' <= D)%nat) as [Hkd|]; [|lia].
    destruct (Hc k' v Hv Hkd) as (y & Hy & <- & Hle). etrans; [|exact Hle]. rewrite E in Hy, Hs.
    apply elem_of_app in Hy as [Hy|[-> |Hy]%elem_of_cons]; [|done|].
    + rewrite Forall_forall in Hl1. specialize (Hl1 y Hy). unfold hits in Hl1. by apply bool_decide_eq_false in Hl1.
    + apply (sorted_before (l1 ++ [x]) l2); [by rewrite <-app_assoc|set_solver|done].
  - intros k Hk. inversion Hk as [|k0 v w Hv Hin]; subst.
    destruct (decide (k <= D)%nat) as [Hkd|]; [|unfold D in *; lia].
    destruct (Hc k v Hv Hkd) as (x & Hx & <- & _). apply list_elem_of_In in Hx.
    apply (List.find_none _ _ Hf) in Hx. unfold hits in Hx. by apply bool_decide_eq_false in Hx.
Qed.

(** One hop asked for, two returned. *)
Example two_hops :
  let db := (CreateEdge 0 "b" "c" "r" ∅ (CreateEdge 0 "a" "b" "r" ∅ NewMemGraphDB).1).1 in
  (QueryPaths "a" "c" 1 db, QueryPaths "a" "c" 0 db, QueryPaths "c" "a" 1 db) = (Some ["a"; "b"; "c"], None, Some ["c"; "b"; "a"]).
Proof. vm_compute. reflexivity. Qed.

(** ** Indexes *)

Record IndexEntry := mkIE {
  ie_NodeID : string; ie_NodeType : string; ie_Label : string; ie_HostID : string; ie_AgentID : string; ie_Timestamp : time }.
Abbreviation index := (gmap string (gmap string IndexEntry)).
Record GlobalIndex := mkGI { byHostID : index; byIP : index; byIdent : index }.
Definition NewGlobalIndex : GlobalIndex := mkGI ∅ ∅ ∅.

(** The inner map is made at the first use. *)
Definition put_index (k id : string) (e : IndexEntry) (m : index) : index := <[k := <[id := e]> (default ∅ (m !! k))]> m.

Definition extractIPs (n : GlobalNode) : list string :=
  (if Contains (gn_Label n) "." && negb (Contains (gn_Label n) "/") then [gn_Label n] else []) ++
  omap (fun key => match as_string (gn_Props n !! key) with Some v => if bool_decide (v = "") then None else Some v | None => None end)
    ["ip"; "src_ip"; "dst_ip"; "addr"].

Definition identity_of (n : GlobalNode) : option string :=
  match as_string (gn_Props n !! "identity") with Some i => if bool_decide (i = "") then None else Some i | None => None end.

Definition IndexNode (now : time) (n : GlobalNode) (gi : GlobalIndex) : GlobalIndex :=
  let entry := mkIE (gn_ID n) (gn_Type n) (gn_Label n) (gn_HostID n) (gn_AgentID n) now in
  mkGI (if bool_decide (gn_HostID n = "") then byHostID gi else put_index (gn_HostID n) (gn_ID n) entry (byHostID gi))
       (foldl (fun m ip => put_index ip (gn_ID n) entry m) (byIP gi) (extractIPs n))
       (match identity_of n with Some i => put_index i (gn_ID n) entry (byIdent gi) | None => byIdent gi end).

Section queries.
Context `{MapOrder}.

Definition collect (m : option (gmap string IndexEntry)) : list IndexEntry :=
  match m with None => [] | Some m => (range 0 (map_to_list m)).*2 end.
Definition QueryByHostID (h : string) (gi : GlobalIndex) : list IndexEntry := collect (byHostID gi !! h).
Definition QueryByIP (ip : string) (gi : GlobalIndex) : list IndexEntry := collect (byIP gi !! ip).
Definition QueryByIdentity (i : string) (gi : GlobalIndex) : list IndexEntry := collect (byIdent gi !! i).

(** The first host, in the order of the map, that has the node. *)
Definition GlobalBacktrack (nodeID : string) (gi : GlobalIndex) : option string :=
  fst <$> List.find (fun '(_, m) => bool_decide (is_Some (m !! nodeID))) (range 0 (map_to_list (byHostID gi))).

(** ** What the indexes hold *)

(** The keys a node is listed under, in each index. *)
Definition host_keys (n : GlobalNode) : list string := if bool_decide (gn_HostID n = "") then [] else [gn_HostID n].
Definition ident_keys (n : GlobalNode) : list string := option_list (identity_of n).

Definition entry_of (tn : time * GlobalNode) : IndexEntry :=
  mkIE (gn_ID tn.2) (gn_Type tn.2) (gn_Label tn.2) (gn_HostID tn.2) (gn_AgentID tn.2) tn.1.

Definition index_all (l : list (time * GlobalNode)) : GlobalIndex := foldl (fun gi tn => IndexNode tn.1 tn.2 gi) NewGlobalIndex l.

(** The nodes listed under a key with an identifier. *)
Definition listed_under (keys : GlobalNode -> list string) (k id : string) (tn : time * GlobalNode) : Prop :=
  k ∈ keys tn.2 /\ gn_ID tn.2 = id.
#[global] Instance listed_under_dec keys k id tn : Decision (listed_under keys k id tn).
Proof. unfold listed_under. apply _. Defined.

Definition entry_at (m : index) (k id : string) : option IndexEntry := m !! k ≫= fun m => m !! id.

Lemma put_index_at k id e m k' id' :
  entry_at (put_index k id e m) k' id' = if decide (k' = k /\ id' = id) then Some e else entry_at m k' id'.
Proof.
  unfold entry_at, put_index. destruct (decide (k' = k)) as [->|Hk].
  - rewrite lookup_insert_eq. simpl. destruct (decide (id' = id)) as [->|Hid].
    + rewrite lookup_insert_eq, decide_True by done. done.
    + rewrite lookup_insert_ne, decide_False by naive_solver. by destruct (m !! k); simpl; rewrite ?lookup_empty.
  - rewrite lookup_insert_ne, decide_False by naive_solver. done.
Qed.

Lemma put_all_at ks id e m k' id' :
  entry_at (foldl (fun m k => put_index k id e m) m ks) k' id' =
  if decide (k' ∈ ks /\ id' = id) then Some e else entry_at m k' id'.
Proof.
  revert m. induction ks as [|k ks IH]; intros m; cbn [foldl]; [case_decide as E; [|done]; by destruct E as [?%elem_of_nil _]|].
  rewrite IH, put_index_at. repeat case_decide; try done; set_solver.
Qed.

(** Each index is built from its keys alone. *)
Lemma index_keys l :
  let step keys m tn := foldl (fun m k => put_index k (gn_ID tn.2) (entry_of tn) m) m (keys tn.2) in
  byHostID (index_all l) = foldl (step host_keys) ∅ l /\ byIP (index_all l) = foldl (step extractIPs) ∅ l /\
  byIdent (index_all l) = foldl (step ident_keys) ∅ l.
Proof.
  cbv zeta. unfold index_all. induction l as [|tn l (IH1 & IH2 & IH3)] using rev_ind; [done|]. rewrite !foldl_snoc, <-IH1, <-IH2, <-IH3.
  set (g := foldl _ NewGlobalIndex l). unfold IndexNode. cbn [byHostID byIP byIdent]. unfold host_keys, ident_keys. split_and!; [by case_bool_decide|done|by destruct (identity_of tn.2)].
Qed.

Lemma fold_index_at keys l k id :
  entry_at (foldl (fun m tn => foldl (fun m k => put_index k (gn_ID tn.2) (entry_of tn) m) m (keys tn.2)) ∅ l) k id =
  entry_of <$> last (filter (listed_under keys k id) l).
Proof.
  induction l as [|tn l IH] using rev_ind; [done|]. rewrite foldl_snoc, put_all_at, IH, filter_app, filter_cons, filter_nil.
  unfold listed_under at 3. repeat case_decide; try naive_solver; [by rewrite last_snoc|by rewrite app_nil_r].
Qed.

Lemma collect_elem (m : index) k e : e ∈ collect (m !! k) <-> exists id, entry_at m k id = Some e.
Proof.
  unfold collect, entry_at. destruct (m !! k) as [mk|]; simpl; [|split; [by intros ?%elem_of_nil|by intros [? ?]]].
  rewrite list_elem_of_fmap. split.
  - intros ([id e'] & -> & Hin). rewrite elem_of_range, elem_of_map_to_list in Hin. eauto.
  - intros [id Hid]. exists (id, e). split; [done|]. by rewrite elem_of_range, elem_of_map_to_list.
Qed.

(** A lookup by host, address or identity returns, for each node that was indexed under
    that key, the entry of the last time it was, and no other entry. *)
Lemma index_exact l k e :
  let at_ keys := exists id, entry_of <$> last (filter (listed_under keys k id) l) = Some e in
  (e ∈ QueryByHostID k (index_all l) <-> at_ host_keys) /\ (e ∈ QueryByIP k (index_all l) <-> at_ extractIPs) /\
  (e ∈ QueryByIdentity k (index_all l) <-> at_ ident_keys).
Proof.
  cbv zeta. destruct (index_keys l) as (H1 & H2 & H3). unfold QueryByHostID, QueryByIP, QueryByIdentity.
  rewrite H1, H2, H3, !collect_elem. setoid_rewrite fold_index_at. done.
Qed.

(** A node that moved to another host is still listed under the first. *)
Example stale_host t n h :
  gn_HostID n <> "" -> h <> "" -> h <> gn_HostID n ->
  let n' := mkGN (gn_ID n) (gn_Type n) (gn_Label n) h (gn_AgentID n) (gn_Props n) (gn_CreatedAt n) in
  entry_of (t, n) ∈ QueryByHostID (gn_HostID n) (index_all [(t, n); (t, n')]).
Proof.
  intros H1 H2 H3. cbv zeta. apply index_exact. exists (gn_ID n). rewrite filter_cons, decide_True.
  - rewrite filter_cons, decide_False; [done|]. unfold listed_under, host_keys. simpl. rewrite bool_decide_false by done.
    intros [?%list_elem_of_singleton _]. congruence.
  - split; [|done]. unfold host_keys. rewrite bool_decide_false by done. by apply list_elem_of_singleton.
Qed.
End queries.

(** ** Tiers *)

Inductive DataTier := TierHot | TierWarm | TierCold.
#[global] Instance DataTier_eq : EqDecision DataTier.
Proof. solve_decision. Defined.

Record TierConfig := mkTC { HotRetention : Z; WarmRetention : Z; ColdArchivePath : string; EnableAutoArchival : bool; t_DryRun : bool }.
Definition DefaultTierConfig : TierConfig := mkTC 7 30 "" true true.
Record DataRecord := mkDR { dr_ID : string; Tier : DataTier; dr_CreatedAt : time; dr_IsAlert : bool; SizeBytes : Z }.
Record TierStats := mkTS { HotToWarm : Z; WarmToCold : Z; AlertOnly : Z; TotalSize : Z }.
Record TierManager := mkTM { tm_cfg : TierConfig; tm_stats : TierStats }.
Definition NewTierManager (cfg : option TierConfig) : TierManager := mkTM (default DefaultTierConfig cfg) (mkTS 0 0 0 0).

Definition days (n : Z) : duration := i64 (i64 (n * 24) * (60 * Minute)).

Definition Classify (now createdAt : time) (isAlert : bool) (tm : TierManager) : DataTier :=
  let age := time_Sub now createdAt in
  if age <? days (HotRetention (tm_cfg tm)) then TierHot
  else if age <? days (WarmRetention (tm_cfg tm)) then TierWarm else TierCold.

Definition ShouldPrune (now createdAt : time) (isAlert : bool) (tm : TierManager) : bool :=
  if time_Sub now createdAt <=? days (WarmRetention (tm_cfg tm)) then false else negb isAlert.

Definition Archive (now : time) (r : DataRecord) (tm : TierManager) : TierManager * DataRecord * DataTier :=
  let newTier := Classify now (dr_CreatedAt r) (dr_IsAlert r) tm in
  if decide (newTier = Tier r) then (tm, r, newTier) else
  let s := tm_stats tm in
  let total := i64 (TotalSize s + SizeBytes r) in
  let s := match newTier with
           | TierHot => mkTS (HotToWarm s) (WarmToCold s) (AlertOnly s) total
           | TierWarm => mkTS (i64 (HotToWarm s + 1)) (WarmToCold s) (AlertOnly s) total
           | TierCold => if dr_IsAlert r then mkTS (HotToWarm s) (WarmToCold s) (i64 (AlertOnly s + 1)) total
                         else mkTS (HotToWarm s) (i64 (WarmToCold s + 1)) (AlertOnly s) total
           end in
  (mkTM (tm_cfg tm) s, mkDR (dr_ID r) newTier (dr_CreatedAt r) (dr_IsAlert r) (SizeBytes r), newTier).

(** What is pruned is cold and no alert, when hot data is not kept longer than warm data. *)
Lemma prune_cold now c a tm :
  days (HotRetention (tm_cfg tm)) <= days (WarmRetention (tm_cfg tm)) ->
  ShouldPrune now c a tm = true -> Classify now c a tm = TierCold /\ a = false.
Proof.
  unfold ShouldPrune, Classify. intros Hd. destruct (Z.leb_spec (time_Sub now c) (days (WarmRetention (tm_cfg tm)))); [done|].
  intros ->%negb_true_iff. destruct (Z.ltb_spec (time_Sub now c) (days (HotRetention (tm_cfg tm)))); [lia|].
  by destruct (Z.ltb_spec (time_Sub now c) (days (WarmRetention (tm_cfg tm)))); [lia|].
Qed.

(** Archiving twice at one time is archiving once, and the tier is the one of the age. *)
Lemma archive_idempotent now r tm :
  let '(tm1, r1, t1) := Archive now r tm in
  Tier r1 = t1 /\ t1 = Classify now (dr_CreatedAt r) (dr_IsAlert r) tm /\ Archive now r1 tm1 = (tm1, r1, t1).
Proof.
  unfold Archive. case_decide as E; simpl; [by rewrite decide_True|]. split_and!; [done|done|].
  change (Classify now (dr_CreatedAt r) (dr_IsAlert r) (mkTM (tm_cfg tm) _)) with (Classify now (dr_CreatedAt r) (dr_IsAlert r) tm).
  by rewrite decide_True.
Qed.
