(* ===== verification/NoiseFilter.v ===== *)
(** * The noise filter ([internal/engine/filter])

    Events whose hashed behaviour was seen in a training period are kept as counters only
    ([engine.go], [baseline.go]); sensitive operations and unknown behaviour are always
    processed.  Reputation rules ([repute.go]) decide which known events are counted.
    Clocks and the outcomes of the key-value store are arguments; JSON coding of the
    baseline is a pair of parameters. *)
From stdpp Require Import sorting.
From Stdlib Require Import Ascii.
From S2P Require Import Prelude GoStrings GoPath GoSort Sha256 Events.

(** ** Behaviour hashes *)

Definition behaviour (evt : Event) : string :=
  TrimSpace (Comm evt) +:+ "|" +:+ EventType_String (Type_ evt) +:+ "|" +:+ TrimSpace (Pathname evt).

Definition Hash (evt : Event) : string :=
  String.substring 0 16 (EncodeToString (Sum256 (bytes_of_string (behaviour evt)))).

(** ** Reputation *)

Record RepRule := mkRule { rr_Pattern : string; rr_Field : string; rr_Score : Z; rr_Priority : Z }.

Definition defaultRules : list RepRule :=
  [mkRule "*" "comm" 50 0;
   mkRule "systemd*" "comm" 95 10; mkRule "kernel*" "comm" 95 10;
   mkRule "sshd" "comm" 70 10; mkRule "sshd" "comm" 70 10; mkRule "sshd" "comm" 70 10;
   mkRule "systemd*" "path" 95 10; mkRule "/usr/bin/*" "path" 85 5; mkRule "/bin/*" "path" 85 5;
   mkRule "/usr/sbin/*" "path" 85 5; mkRule "/sbin/*" "path" 85 5; mkRule "/usr/lib/*" "path" 80 5;
   mkRule "/var/log/*" "path" 60 3; mkRule "/etc/*" "path" 50 3;
   mkRule "/home/*" "path" 40 2; mkRule "/var/www/*" "path" 30 2;
   mkRule "/tmp/*" "path" 5 10; mkRule "/dev/shm/*" "path" 5 10; mkRule "/var/tmp/*" "path" 5 10; mkRule "/proc/*" "path" 10 5;
   mkRule "nc" "comm" 10 10; mkRule "ncat" "comm" 10 10; mkRule "tftp" "comm" 10 10;
   mkRule "curl" "comm" 30 5; mkRule "wget" "comm" 30 5; mkRule "python*" "comm" 30 5; mkRule "bash" "comm" 40 5].

Definition RepThresholdLow : Z := 20.
Definition RepThresholdHigh : Z := 80.
Definition ShouldAggressivelyMerge (score : Z) : bool := RepThresholdHigh <=? score.
Definition IsUntrusted (score : Z) : bool := score <? RepThresholdLow.

Definition rep_Classify (score : Z) : string :=
  if 80 <=? score then "trusted" else if 50 <=? score then "normal" else if 20 <=? score then "suspicious" else "untrusted".

(** On Unix [filepath.ToSlash] changes nothing. *)
Definition pathMatches (pattern path : string) : bool :=
  if matched (filepath_Match pattern path) then true
  else if HasSuffix pattern "/*" then HasPrefix path (TrimSuffix pattern "*") else false.

Section reputation.
Context `{SortSlice}.

Definition higher (a b : RepRule) : bool := rr_Priority b <? rr_Priority a.

(** [NewReputation] sorts the rules it is given in place. *)
Definition NewReputation (rules : list RepRule) : list RepRule := sort_slice higher rules.
Definition AddRule (pattern field : string) (score priority : Z) (rules : list RepRule) : list RepRule :=
  sort_slice higher (rules ++ [mkRule pattern field score priority]).
End reputation.

(** The first rule of the field that matches. *)
Definition score_by (field : string) (m : string -> bool) (rules : list RepRule) : Z :=
  match List.find (fun r => bool_decide (rr_Field r = field) && m (rr_Pattern r)) rules with Some r => rr_Score r | None => 50 end.
Definition ScoreComm (comm : string) (rules : list RepRule) : Z := score_by "comm" (fun p => matched (filepath_Match p comm)) rules.
Definition ScorePath (path : string) (rules : list RepRule) : Z := score_by "path" (fun p => pathMatches p path) rules.

(** ** The baseline *)

Record Baseline := mkBL { known : gmap string Z; training : bool; startedAt : time; endsAt : time }.

Definition StartTraining (now1 now2 : time) (b : Baseline) : Baseline := mkBL (known b) true now1 (time_Add now2 (24 * 60 * Minute)).
Definition IsTraining (now : time) (b : Baseline) : bool := training b && time_Before now (endsAt b).
Definition TrainingRemaining (now : time) (b : Baseline) : duration :=
  if negb (training b) then 0 else let r := time_Sub (endsAt b) now in if r <? 0 then 0 else r.
Definition Record_ (hash : string) (b : Baseline) : Baseline :=
  mkBL (<[hash := i64 (default 0 (known b !! hash) + 1)]> (known b)) (training b) (startedAt b) (endsAt b).
Definition IsKnown (hash : string) (b : Baseline) : bool := bool_decide (is_Some (known b !! hash)).

Definition baselineStoreKey : string := "filter:baseline".

Section persistence.
Context (marshal : gmap string Z -> string + list Z) (unmarshal : list Z -> string + gmap string Z).
Abbreviation kv := (gmap string (list Z)).

(** [Put], with the error the store reports, if any. *)
Definition kv_Put (err : option string) (k : string) (v : list Z) (s : kv) : kv :=
  match err with Some _ => s | None => <[k := v]> s end.

Definition save (err : option string) (b : Baseline) (s : option kv) : option kv :=
  match s with
  | None => None
  | Some s => Some (match marshal (known b) with inl _ => s | inr data => kv_Put err baselineStoreKey data s end)
  end.

Definition StopTraining (err : option string) (b : Baseline) (s : option kv) : Baseline * option kv :=
  let b := mkBL (known b) false (startedAt b) (endsAt b) in (b, save err b s).

(** [NewBaseline] with [load]; the store may report an error for the key. *)
Definition NewBaseline (err : option string) (s : option kv) : Baseline :=
  let loaded := match s, err with
                | Some s, None => match s !! baselineStoreKey with
                                  | Some data => match unmarshal data with inr m => m | inl _ => ∅ end
                                  | None => ∅
                                  end
                | _, _ => ∅
                end in
  mkBL loaded false time_zero time_zero.
End persistence.

(** ** The engine *)

Inductive Verdict := DecisionProcess | DecisionLowLevel | DecisionDrop.

Record Engine := mkEngine {
  baseline : Baseline; repute : list RepRule; counters : gmap string Z;
  totalEvents : Z; lowLevelEvents : Z; droppedEvents : Z; filteredBytes : Z }.

Definition NewEngine (b : Baseline) (r : list RepRule) : Engine := mkEngine b r ∅ 0 0 0 0.

Definition isSensitivePath (path : string) : bool :=
  existsb (fun p => HasPrefix path p)
    ["/etc/shadow"; "/etc/passwd"; "/etc/sudoers"; "/etc/ssh/"; "/root/"; "/.ssh/"; "/var/log/auth.log"].

Definition isSensitive (evt : Event) : bool :=
  if negb (Z.land (Flags evt) EventFlagExecSetuid =? 0) then true
  else if (Type_ evt =? EventNetConnect) || (Type_ evt =? EventNetAccept) then true
  else isSensitivePath (Pathname evt) && negb (FFlags evt =? 0).

Definition combined (evt : Event) (rules : list RepRule) : Z :=
  Z.quot (i64 (ScoreComm (Comm evt) rules + ScorePath (Pathname evt) rules)) 2.

Definition Decide (now : time) (evt : Event) (e : Engine) : Engine * Verdict :=
  let e := mkEngine (baseline e) (repute e) (counters e) (i64 (totalEvents e + 1)) (lowLevelEvents e) (droppedEvents e) (filteredBytes e) in
  if IsTraining now (baseline e)
  then (mkEngine (Record_ (Hash evt) (baseline e)) (repute e) (counters e) (totalEvents e) (lowLevelEvents e) (droppedEvents e)
          (filteredBytes e), DecisionProcess)
  else if isSensitive evt then (e, DecisionProcess)
  else if negb (IsKnown (Hash evt) (baseline e)) then (e, DecisionProcess)
  else if ShouldAggressivelyMerge (combined evt (repute e))
  then (mkEngine (baseline e) (repute e) (<[Hash evt := i64 (default 0 (counters e !! Hash evt) + 1)]> (counters e)) (totalEvents e)
          (i64 (lowLevelEvents e + 1)) (droppedEvents e) (i64 (filteredBytes e + 332)), DecisionLowLevel)
  else (mkEngine (baseline e) (repute e) (counters e) (totalEvents e) (i64 (lowLevelEvents e + 1)) (droppedEvents e) (filteredBytes e),
        DecisionLowLevel).

Definition LowLevelCounts (e : Engine) : gmap string Z := counters e.
Definition ResetCounters (e : Engine) : Engine :=
  mkEngine (baseline e) (repute e) ∅ (totalEvents e) (lowLevelEvents e) (droppedEvents e) (filteredBytes e).

Definition summary_key (hash : string) : string := "filter:lowlevel:" +:+ hash.
Definition q : string := String.string_of_list_ascii [byte_ascii 34].
Definition summary_text (hash : string) (count : Z) : string :=
  "{" +:+ q +:+ "hash" +:+ q +:+ ":" +:+ q +:+ hash +:+ q +:+ "," +:+ q +:+ "count" +:+ q +:+ ":" +:+ pretty count +:+ "}".

(** [FlushSummary]: the counts are written one by one, each with the error of its write,
    and reset whatever happened. *)
Definition FlushSummary `{MapOrder} (err : string -> option string) (s : option (gmap string (list Z))) (e : Engine)
  : Engine * option (gmap string (list Z)) :=
  let counts := LowLevelCounts e in
  if (size counts =? 0)%nat then (e, s) else
  let s := match s with
           | None => None
           | Some s => Some (foldl (fun s '(h, c) => kv_Put (err h) (summary_key h) (bytes_of_string (summary_text h c)) s) s
                               (range 0 (map_to_list counts)))
           end in
  (ResetCounters e, s).

Example sample_hash : String.length (Hash (mkEvent 10 0 0 1 1 1 0 0 5 8 1 0 0 0 0 0 0 0 0 0 0 " cat " "/etc/hosts" "" "" "" "")) = 16%nat.
Proof. vm_compute. reflexivity. Qed.

(** ** Runs *)

#[local] Opaque Hash.

Inductive fop := OTrain (now1 now2 : time) | OStop | OReset | OEvent (now : time) (evt : Event).

(** An event that was decided: whether it was in training, and the decision. *)
Record entry := mkEntry { en_evt : Event; en_trained : bool; en_verdict : Verdict }.

Definition set_baseline (b : Baseline) (e : Engine) : Engine :=
  mkEngine b (repute e) (counters e) (totalEvents e) (lowLevelEvents e) (droppedEvents e) (filteredBytes e).

Definition fstep (st : Engine * list entry) (o : fop) : Engine * list entry :=
  let '(e, log) := st in
  match o with
  | OTrain t1 t2 => (set_baseline (StartTraining t1 t2 (baseline e)) e, log)
  | OStop => (set_baseline (mkBL (known (baseline e)) false (startedAt (baseline e)) (endsAt (baseline e))) e, log)
  | OReset => (ResetCounters e, log)
  | OEvent now evt => let '(e', v) := Decide now evt e in (e', log ++ [mkEntry evt (IsTraining now (baseline e)) v])
  end.

Definition run_filter (b : Baseline) (r : list RepRule) (ops : list fop) : Engine * list entry :=
  foldl fstep (NewEngine b r, []) ops.

(** Behaviour that is known after some decided events: from the start, or from training. *)
Definition learned (b : Baseline) (log : list entry) (h : string) : Prop :=
  is_Some (known b !! h) \/ exists x, x ∈ log /\ en_trained x = true /\ Hash (en_evt x) = h.

Definition low (x : entry) : Prop := en_verdict x = DecisionLowLevel.
#[global] Instance low_dec x : Decision (low x).
Proof. unfold low. destruct (en_verdict x); [right|left|right]; done. Defined.

Definition exact_at (b : Baseline) (log : list entry) : Prop :=
  forall i x, log !! i = Some x ->
    en_verdict x <> DecisionDrop /\
    (low x <-> en_trained x = false /\ isSensitive (en_evt x) = false /\ learned b (take i log) (Hash (en_evt x))).

Record filter_inv (b : Baseline) (e : Engine) (log : list entry) : Prop := {
  fi_known : forall h, is_Some (known (baseline e) !! h) <-> learned b log h;
  fi_exact : exact_at b log;
  fi_total : totalEvents e = i64 (Z.of_nat (length log));
  fi_low : lowLevelEvents e = i64 (Z.of_nat (length (filter low log)));
  fi_dropped : droppedEvents e = 0;
}.

Lemma learned_snoc b log x h :
  learned b (log ++ [x]) h <-> learned b log h \/ en_trained x = true /\ Hash (en_evt x) = h.
Proof.
  unfold learned. split.
  - intros [?|(y & [Hy| ->%list_elem_of_singleton]%elem_of_app & Hy')]; [by left; left|left; right; eauto|by right].
  - intros [[?|(y & Hy & Hy')]|Hx]; [by left|right; exists y; set_solver|right; exists x; set_solver].
Qed.

Lemma exact_snoc b log x :
  exact_at b log -> en_verdict x <> DecisionDrop ->
  (low x <-> en_trained x = false /\ isSensitive (en_evt x) = false /\ learned b log (Hash (en_evt x))) -> exact_at b (log ++ [x]).
Proof.
  intros Hl Hd Hx i y Hi. apply lookup_app_Some in Hi as [Hi|[Hi Hy]].
  - pose proof (lookup_lt_Some _ _ _ Hi). rewrite take_app_le by lia. by apply Hl.
  - apply list_lookup_singleton_Some in Hy as [Hz <-]. assert (i = length log) as -> by lia. by rewrite take_app_length.
Qed.

(** What a decision does to the known behaviour and the counts of events. *)
Lemma Decide_effect now evt e e' v :
  Decide now evt e = (e', v) ->
  v <> DecisionDrop /\
  (v = DecisionLowLevel <-> IsTraining now (baseline e) = false /\ isSensitive evt = false /\ is_Some (known (baseline e) !! Hash evt)) /\
  (forall h, is_Some (known (baseline e') !! h) <-> is_Some (known (baseline e) !! h) \/ IsTraining now (baseline e) = true /\ Hash evt = h) /\
  totalEvents e' = i64 (totalEvents e + 1) /\ droppedEvents e' = droppedEvents e /\
  lowLevelEvents e' = (if decide (low (mkEntry evt (IsTraining now (baseline e)) v)) then i64 (lowLevelEvents e + 1) else lowLevelEvents e).
Proof.
  unfold Decide, IsKnown. simpl. intros Hd. destruct (IsTraining now (baseline e)) eqn:Ht.
  { injection Hd as <- <-. simpl. split_and!; [done|naive_solver| |done|done|done].
    intros h. destruct (decide (Hash evt = h)) as [->|Hne]; [rewrite lookup_insert_eq; naive_solver|].
    rewrite lookup_insert_ne by done. naive_solver. }
  destruct (isSensitive evt) eqn:Hs; [injection Hd as <- <-; simpl; split_and!; naive_solver|].
  case_bool_decide as Hk; simpl in Hd; [|injection Hd as <- <-; simpl; split_and!; naive_solver].
  destruct (ShouldAggressivelyMerge _); injection Hd as <- <-; simpl; split_and!; naive_solver.
Qed.

Lemma fstep_inv b st o : filter_inv b st.1 st.2 -> filter_inv b (fstep st o).1 (fstep st o).2.
Proof.
  destruct st as [e log]. intros [H1 H2 H3 H4 H5]. destruct o as [t1 t2| | |now evt]; simpl in *; [by split..|].
  destruct (Decide now evt e) as [e' v] eqn:Hd. apply Decide_effect in Hd as (D1 & D2 & D3 & D4 & D5 & D6). simpl.
  split.
  - intros h. rewrite D3, learned_snoc, H1. done.
  - apply exact_snoc; [done|done|]. unfold low. simpl. by rewrite D2, H1.
  - rewrite D4, H3, i64_succ, length_app. simpl. f_equal. lia.
  - rewrite D6, H4, filter_app, filter_cons, filter_nil. case_decide; [|by rewrite app_nil_r].
    rewrite i64_succ, length_app. simpl. f_equal. lia.
  - congruence.
Qed.

(** In any run of training periods, resets and events, an event is reduced to a counter
    exactly when it is not in training, not sensitive, and its behaviour was known at the
    start or met in training before; no event is dropped, every event is counted and so
    is every reduced one. *)
Lemma filter_exact b r ops :
  let '(e, log) := run_filter b r ops in
  exact_at b log /\ (forall h, is_Some (known (baseline e) !! h) <-> learned b log h) /\
  totalEvents e = i64 (Z.of_nat (length log)) /\ lowLevelEvents e = i64 (Z.of_nat (length (filter low log))) /\ droppedEvents e = 0.
Proof.
  assert (filter_inv b (run_filter b r ops).1 (run_filter b r ops).2) as Hi.
  { unfold run_filter. induction ops as [|o ops IH] using rev_ind; [|rewrite foldl_snoc; by apply fstep_inv].
    split; simpl; [|done..]. intros h. unfold learned. split; [by left|]. by intros [?|(? & ?%elem_of_nil & _)]. }
  destruct (run_filter b r ops) as [e log]. destruct Hi. by split_and!.
Qed.

(** ** Persistence *)

(** A baseline that was saved without error is known after a restart. *)
Lemma baseline_survives marshal unmarshal b s b' s' m data :
  (forall m d, marshal m = inr d -> unmarshal d = inr m) ->
  s = Some m -> marshal (known b) = inr data ->
  StopTraining marshal None b s = (b', s') -> known (NewBaseline unmarshal None s') = known b.
Proof.
  intros Hr -> Hm. unfold StopTraining, save. simpl. rewrite Hm. intros [= <- <-]. unfold NewBaseline. simpl.
  rewrite lookup_insert_eq. by rewrite (Hr _ _ Hm).
Qed.

(** ** Examples *)

Definition tmp_read : Event := mkEvent 10 0 0 1 1 1 0 0 5 8 1 0 0 0 0 0 0 0 0 0 0 "nc" "/tmp/x" "" "" "" "".

(** A known event of the lowest reputation is reduced, and no counter records it. *)
Example untrusted_reduced :
  let rules := NewReputation (H := merge_sort_slice) defaultRules in
  let '(e, log) := run_filter (mkBL {[Hash tmp_read := 1]} false 0 0) rules [OEvent 0 tmp_read] in
  (en_verdict <$> log, IsUntrusted (combined tmp_read rules), size (counters e)) = ([DecisionLowLevel], true, 0%nat).
Proof. vm_compute. reflexivity. Qed.

(** The keys of a user are no sensitive path. *)
Example user_keys : isSensitivePath "/home/u/.ssh/id_rsa" = false.
Proof. reflexivity. Qed.
